(* ===== verification/_CoqProject ===== *)
-Q . S2P
Prelude.v
JsString.v
Collections.v
Regex.v
JsValue.v
Identity.v
Version.v
Graph.v
TopoOrder.v
Scc.v
Resolver.v
ResolverProofs.v
Permission.v
Gate.v
PermissionProofs.v
Time.v
JsonText.v
Canonical.v
JsonParse.v
Bytes.v
Wire.v
Framing.v
Outbound.v
StateStore.v
StoreProofs.v
StoreTheorems.v
EpochAllocator.v
ResultBuffer.v
Lifecycle.v
Retry.v
Placement.v
Execution.v
Codec.v
Session.v
SessionSteps.v
SessionLaws.v
SessionTrust.v
SessionBounds.v
SessionDelivery.v
SessionExample.v
Endpoint.v
EndpointLaws.v
EndpointQueue.v
EndpointTheorems.v
Leadership.v
LocalCoordination.v
CoordinationLaws.v
CoordinationTheorems.v
Task.v
Async.v
TaskService.v
TaskLaws.v
TaskPrograms.v
TaskRuns.v
TaskCalls.v
TaskTheorems.v
Plan.v
PlanProofs.v
Reconciler.v
ReconcilerLaws.v
PlanSteps.v
ReconcilerTheorems.v
StuckPreparation.v
Calm.v
CalmSteps.v
CalmClaims.v
CalmPlans.v
Convergence.v
ComponentRegistry.v
ComponentEffects.v
EffectLaws.v
EffectReferences.v
Router.v
RouterLaws.v
RouterTheorems.v
Evidence.v
Bindings.v
ProviderLoss.v
Restoration.v
EvidenceTheorems.v
