(* ===== verification/Prelude.v ===== *)
(** * Tego Next: the runtime kernel, verified

    Tego Next (src/packages) is a runtime for plugins: it resolves which plugin
    provides which capability, reconciles what is deployed with what runs, and
    executes tasks on executors and remote workers, over a state store that
    several main processes may share. This development models the parts that
    decide; what they ask of processes, sockets, files and databases is a
    parameter or an answer of the environment.

    ** Conventions

    A TypeScript function that may throw returns a [result]; loops and
    recursions that are not structural take fuel, and a theorem says the fuel
    given is enough. Strings are lists of UTF-16 code units (JsString.v), numbers
    are integers or exact dyadic fractions (JsValue.v), [Map] and [Array.sort]
    are those of Collections.v. Asynchronous code is either a step relation
    over explicit calls (StateStore.v) or a program of Async.v: a tree of
    effects, one per await or synchronous block, run as a thread of a pool, so
    that calls interleave wherever the code awaits. Untrusted input is a heap of
    objects (JsValue.v) up to the boundary copy, and JSON data behind it.

    ** Files

    Shared: Prelude.v (results, tactics, lists), JsString.v, Collections.v,
    Regex.v, JsValue.v, JsonText.v, JsonParse.v (JSON.parse), Canonical.v,
    Bytes.v (integers in bytes, UTF-8), Wire.v (JSON as bytes), Time.v and Async.v
    (programs, their threads, and threads that own what they do).

    - contracts/src: Identity.v (identity.ts, the strings of state.ts),
      Permission.v (permission.ts, permission-grant.ts), Execution.v
      (execution.ts, the bindings of schema.ts), Task.v (operations.ts,
      diagnostic.ts).
    - runtime/src/capabilities: Version.v, Graph.v, Resolver.v, with the proofs
      in TopoOrder.v, Scc.v and ResolverProofs.v; Router.v (router.ts), with its laws
      in RouterLaws.v and its theorems in RouterTheorems.v.
    - runtime/src/permissions: Gate.v; proofs in PermissionProofs.v.
    - drivers-local/src: StateStore.v (memory-state-store.ts), invariants in
      StoreProofs.v, theorems in StoreTheorems.v; LocalCoordination.v
      (local-coordination.ts), invariants in CoordinationLaws.v, theorems in
      CoordinationTheorems.v.
    - runtime/src/reconcile: Lifecycle.v, Retry.v, Placement.v, Plan.v and
      Reconciler.v; laws in PlanProofs.v, PlanSteps.v and ReconcilerLaws.v;
      theorems in ReconcilerTheorems.v, StuckPreparation.v and, for
      convergence, Calm.v, CalmSteps.v, CalmClaims.v, CalmPlans.v and
      Convergence.v. The part of reconciler.ts between the loads and the plans is
      Evidence.v (what it knows of providers, its transactions on an optimistic
      store), Bindings.v (the gates, the capability bindings), ProviderLoss.v and
      Restoration.v (with the pass and the claims, and histories of reconcilers over
      one store); EvidenceTheorems.v holds the invariant of these histories and its
      theorems.
    - runtime/src/components: ComponentRegistry.v (component-registry.ts),
      ComponentEffects.v (component-effects.ts, the reference counts of
      artifacts/prepared-artifact-cache.ts); EffectLaws.v and EffectReferences.v
      hold what they keep.
    - runtime/src/leadership-controller.ts: Leadership.v.
    - runtime/src/tasks/task-service.ts: TaskService.v; invariants in TaskLaws.v,
      the programs one by one in TaskPrograms.v, TaskRuns.v and TaskCalls.v,
      theorems in TaskTheorems.v.
    - executor-node/src/process: Framing.v (framing.ts), Outbound.v
      (outbound-writer.ts).
    - transport-websocket/src: EpochAllocator.v, ResultBuffer.v, Codec.v
      (codec.ts, contracts/src/worker.ts) and Session.v (session.ts,
      authentication.ts). SessionSteps.v turns the handlers of a session into
      small steps; SessionLaws.v, SessionTrust.v, SessionBounds.v and
      SessionDelivery.v prove what every session keeps, and SessionExample.v
      runs a connection. Endpoint.v is main-endpoint.ts and worker-endpoint.ts,
      the owners of sessions; EndpointLaws.v and EndpointQueue.v hold their
      invariants, EndpointTheorems.v the theorems.

    ** Theorems

    - State store: a guarded write is never lost, a transaction with an
      idempotency key commits once, fences only rise, watches and the change log
      replay to the records, claims are exclusive; a commit does exactly what its
      transaction asked (refinement).
    - Coordination: a guarded write of the local store is done under its guard,
      watches miss nothing, one holder leads at a time; a leadership controller
      pairs what it acquires with what it loses and, once stopped, holds nothing.
    - Resolution: bindings respect range and application, go to the provider that is
      named, or else bound before, or else the only candidate; the diagnostics name
      exactly the cycles, whatever the order of the input; the order starts providers
      first; the graph algorithms are correct.
    - Routing: however many routers share the store, an invocation reaches a provider
      once, all results of it are the answer of that call, and the call is one the
      consumer was granted.
    - Permissions: canonical forms, the grant check is a preorder, and the gate
      never allows under a valid grant what the request would not allow.
    - Reconciler: an effect is performed only for a wanted instance under the
      current plan, committed once; the instances follow their lifecycle through
      every transaction of whole passes, restorations and provider losses included;
      where nothing fails, no provider is lost and no stale binding is in the way,
      passes end with everything wanted ready and every older session ended.
    - Evidence: whatever reconcilers and other processes do in between, a provider loss
      is only made stronger, and released only when the consumer is gone or changed or
      its recovery is exact: every lost capability it requires is bound to the provider
      recorded, all of them active in the snapshot of the transaction and ready in the
      store of the commit; bindings go to ready providers; only what is wanted and not
      held back is restored.
    - Component effects: calls interleaved anyhow take a component through its
      lifecycle and no other way, event by event; artifact references are counted exactly while
      calls come one at a time (a stop that a close overtakes releases twice,
      [EffectReferences.stop_and_close_release_twice]).
    - Tasks: in every interleaving of services and every failure, one operation
      is one task, records only move forward, and what is executed was admitted.
    - Processes: frames survive any cut of the stream, up to a value whose complexity
      the receiver refuses (the sender does not check it); the outbound queue writes
      what it accepts, one at a time and in order, and settles every call once.
    - Sessions: what one owner sends the other receives whole, at most once and
      unforged, over any network; nothing is trusted before a proof of the
      credential; a session ends once, answers each request once and holds no
      more than its limits.
    - Endpoints: a main endpoint keeps one ready session per worker and registers
      its connections in order, under rising epochs.

    ** Fuel and bounds

    [stronglyConnectedComponents] and [topologicalOrder] get the number of nodes
    and edges, version and path parsers the length of their input, the
    reconciler's loop the budget the code counts, and convergence bounds the
    passes by the work left ([Calm.work]). Revisions and epochs are unbounded
    naturals in decimal text, as in the code (BigInt); generations and
    activations are 64-bit and checked.

    ** Parameters

    SHA-256, HMAC, [domainToASCII], [localeCompare], Ajv's verdict on a schema,
    the text of a number, the date-time format, random identities, sockets and
    clocks, the component effects a reconciler performs, the
    liveness of deployments, and everything executors answer. The theorems that
    need a law of one of these name it: texts of numbers are distinct
    ([number_text_ok]), hashes that do not collide appear as an alternative in
    the conclusion ([collision]).

    ** Not modelled

    What a callback does to the session that calls it is a later event of that
    session, not a nested call. The SQL drivers (their logic is SQL text), executors and component hosts
    (Node processes and threads), artifacts (archives and signatures), the
    command line, the plugin SDK and the conformance suites; remote execution over a
    session (remote-executor.ts, worker-runtime.ts, remote-protocol.ts); of the
    reconciler, its readiness observations, its wake timers and being stopped in the
    middle of a pass; of the resolver, data that is not of the shape its interface
    declares (the code casts what it copied and would throw).

    Reconciler.v and Evidence.v each have a view of the store of their own. The first
    has whole passes of one reconciler, one at a time, and takes as arguments what the
    gate, the prerequisites of a recovery, the clean-up of bindings and the decision
    on a provider loss answer ([pass_environment]); the second has those very
    decisions, over a store that others write as well, and takes the claims apart into
    the transactions that begin and authorize them. The transactions that restore
    persisted sessions are in both. *)

From stdpp Require Export base tactics list numbers option gmap sorting.
From Stdlib Require Export ZArith Lia.

(** ** Results

    A TypeScript function that may throw is a Rocq function into [result E A];
    [E] is what it throws. *)
Inductive result (E A : Type) : Type :=
| Ok (a : A)
| Err (e : E).
Arguments Ok {E A} a.
Arguments Err {E A} e.

#[export] Instance result_ret {E} : MRet (result E) := fun A a => Ok a.
#[export] Instance result_bind {E} : MBind (result E) :=
  fun A B f m => match m with Ok a => f a | Err e => Err e end.
#[export] Instance result_eq_dec {E A} `{EqDecision E, EqDecision A} : EqDecision (result E A).
Proof. solve_decision. Defined.

(** [if (b) throw e;] *)
Definition throw_if {E} (b : bool) (e : E) : result E unit :=
  if b then Err e else Ok tt.

Definition is_ok {E A} (r : result E A) : bool :=
  match r with Ok _ => true | Err _ => false end.

Lemma is_ok_true {E A} (r : result E A) : is_ok r = true → ∃ a, r = Ok a.
Proof. destruct r; [eauto|done]. Qed.

Lemma bind_ok {E A B} (m : result E A) (f : A → result E B) b :
  (m ≫= f) = Ok b ↔ ∃ a, m = Ok a ∧ f a = Ok b.
Proof. destruct m; cbv; naive_solver. Qed.

Lemma bind_ok_l {E A B} (a : A) (f : A → result E B) : ((Ok a : result E A) ≫= f) = f a.
Proof. done. Qed.

Lemma bind_err {E A B} (m : result E A) (f : A → result E B) e :
  (m ≫= f) = Err e ↔ m = Err e ∨ ∃ a, m = Ok a ∧ f a = Err e.
Proof. destruct m; cbv; naive_solver. Qed.

Lemma throw_if_ok {E} b (e : E) u : throw_if b e = Ok u ↔ b = false.
Proof. destruct b, u; cbv; naive_solver. Qed.

Lemma throw_if_err {E} b (e e' : E) : throw_if b e = Err e' ↔ b = true ∧ e = e'.
Proof. destruct b; cbv; naive_solver. Qed.

Lemma mret_ok {E A} (a b : A) : (mret a : result E A) = Ok b ↔ a = b.
Proof. cbv; naive_solver. Qed.

Lemma mapM_ok {E A B} (f : A → result E B) l k :
  mapM f l = Ok k ↔ Forall2 (λ x y, f x = Ok y) l k.
Proof.
  revert k. induction l as [|x l IH]; intros k; cbn [mapM].
  - rewrite mret_ok. split; [by intros <-|]. by inversion 1.
  - rewrite bind_ok. setoid_rewrite bind_ok. setoid_rewrite IH. setoid_rewrite mret_ok. split.
    + intros (y & Hy & k' & Hk & <-). by constructor.
    + inversion 1; subst. eauto.
Qed.

Lemma mapM_err {E A B} (f : A → result E B) l e :
  mapM f l = Err e → ∃ x, x ∈ l ∧ f x = Err e.
Proof.
  induction l as [|x l IH]; cbn [mapM]; [done|].
  intros [H|(y & _ & [H|(k & _ & H)]%bind_err)]%bind_err.
  - exists x. split; [left|done].
  - destruct (IH H) as (z & ? & ?). exists z. split; [by right|done].
  - done.
Qed.

(** Every element is computed as [P] says, or the given error stops the map. *)
Lemma mapM_ok_or {E A B} (P : A → B → Prop) (f : A → result E B) e l k :
  Forall2 P l k →
  (∀ x y, x ∈ l → y ∈ k → P x y → f x = Ok y ∨ f x = Err e) →
  mapM f l = Ok k ∨ mapM f l = Err e.
Proof.
  induction 1 as [|x y l k Hxy _ IH]; intros Hf; cbn [mapM]; [by left|].
  destruct (Hf x y) as [-> | ->]; [left|left|done| |by right].
  destruct IH as [-> | ->]; [|by left|by right]. intros. apply Hf; [by right..|done].
Qed.

(** ** Automation

    [inv_ok H] opens a hypothesis saying that a chain of binds and guards
    returned; [break] splits the conditions of a goal or a hypothesis and
    turns the boolean tests into propositions. *)
Ltac inv_ok H :=
  repeat match type of H with
  | (_ ≫= _) = Ok _ => apply bind_ok in H; let a := fresh "a" in let Ha := fresh "Ha" in
      destruct H as (a & Ha & H); inv_ok Ha
  | throw_if _ _ = Ok _ => apply throw_if_ok in H
  | mret _ = Ok _ => apply mret_ok in H
  | Ok _ = Ok _ => injection H as H
  | Err _ = Ok _ => discriminate H
  end.

Ltac to_prop :=
  repeat match goal with
  | H : (_ && _) = true |- _ => apply andb_true_iff in H; destruct H
  | H : (_ || _) = false |- _ => apply orb_false_iff in H; destruct H
  | H : (_ || _) = true |- _ => apply orb_true_iff in H
  | H : (_ && _) = false |- _ => apply andb_false_iff in H
  | H : negb _ = true |- _ => apply negb_true_iff in H
  | H : negb _ = false |- _ => apply negb_false_iff in H
  | H : bool_decide _ = true |- _ => apply bool_decide_eq_true in H
  | H : bool_decide _ = false |- _ => apply bool_decide_eq_false in H
  | H : (_ <? _)%Z = true |- _ => apply Z.ltb_lt in H
  | H : (_ <? _)%Z = false |- _ => apply Z.ltb_ge in H
  | H : (_ <=? _)%Z = true |- _ => apply Z.leb_le in H
  | H : (_ <=? _)%Z = false |- _ => apply Z.leb_gt in H
  | H : (_ =? _)%Z = true |- _ => apply Z.eqb_eq in H
  | H : (_ =? _)%Z = false |- _ => apply Z.eqb_neq in H
  | H : (_ <? _)%N = true |- _ => apply N.ltb_lt in H
  | H : (_ <? _)%N = false |- _ => apply N.ltb_ge in H
  | H : (_ =? _)%N = true |- _ => apply N.eqb_eq in H
  | H : (_ =? _)%N = false |- _ => apply N.eqb_neq in H
  | H : (_ <? _)%nat = true |- _ => apply Nat.ltb_lt in H
  | H : (_ <? _)%nat = false |- _ => apply Nat.ltb_ge in H
  | H : (_ <=? _)%nat = true |- _ => apply Nat.leb_le in H
  | H : (_ <=? _)%nat = false |- _ => apply Nat.leb_gt in H
  | H : (_ =? _)%nat = true |- _ => apply Nat.eqb_eq in H
  | H : (_ =? _)%nat = false |- _ => apply Nat.eqb_neq in H
  | H : is_true _ |- _ => unfold is_true in H
  end.

Ltac break := repeat case_match; simplify_eq/=; to_prop; simplify_eq/=.

(** ** Numbers *)
Definition MAX_SAFE_INTEGER : Z := 9007199254740991.
(** [Number.isSafeInteger] of a number whose exact value is the integer [z]. *)
Definition isSafeInteger (z : Z) : bool :=
  (- MAX_SAFE_INTEGER <=? z)%Z && (z <=? MAX_SAFE_INTEGER)%Z.

(** JavaScript's [a || b] on numbers: the second operand when the first is 0. *)
Definition or_else (a b : Z) : Z := if (a =? 0)%Z then b else a.

Lemma isSafeInteger_spec z :
  isSafeInteger z = true ↔ (- MAX_SAFE_INTEGER ≤ z ≤ MAX_SAFE_INTEGER)%Z.
Proof. unfold isSafeInteger. rewrite andb_true_iff, !Z.leb_le. done. Qed.

(** ** Lists *)
Lemma existsb_exists_in {A} (f : A → bool) l :
  existsb f l = true ↔ ∃ x, x ∈ l ∧ f x = true.
Proof. rewrite existsb_exists. by setoid_rewrite <- list_elem_of_In. Qed.

Lemma existsb_false_in {A} (f : A → bool) l :
  existsb f l = false ↔ ∀ x, x ∈ l → f x = false.
Proof.
  rewrite <- not_true_iff_false, existsb_exists_in. split.
  - intros H x Hx. apply not_true_iff_false. eauto.
  - intros H (x & Hx & Hf). by rewrite H in Hf.
Qed.

Lemma forallb_forall_in {A} (f : A → bool) l :
  forallb f l = true ↔ ∀ x, x ∈ l → f x = true.
Proof. rewrite forallb_forall. by setoid_rewrite <- list_elem_of_In. Qed.

Lemma forallb_false_in {A} (f : A → bool) l :
  forallb f l = false ↔ ∃ x, x ∈ l ∧ f x = false.
Proof.
  induction l as [|a l IH]; simpl.
  - split; [done|]. intros (x & Hx & _). by apply elem_of_nil in Hx.
  - rewrite andb_false_iff, IH. setoid_rewrite elem_of_cons. naive_solver.
Qed.

Lemma find_some_in {A} (f : A → bool) l x :
  List.find f l = Some x → x ∈ l ∧ f x = true.
Proof. intros H. apply List.find_some in H. by rewrite list_elem_of_In. Qed.

Lemma find_none_in {A} (f : A → bool) l :
  List.find f l = None ↔ ∀ x, x ∈ l → f x = false.
Proof.
  split.
  - intros H x Hx. eapply List.find_none; [done|]. by apply list_elem_of_In.
  - induction l as [|a l IH]; [done|]. intros H. simpl.
    rewrite (H a) by apply list_elem_of_here. apply IH.
    intros x Hx. apply H. by apply list_elem_of_further.
Qed.

Lemma find_is_some {A} (f : A → bool) l x :
  x ∈ l → f x = true → ∃ y, List.find f l = Some y.
Proof.
  intros Hx Hf. destruct (List.find f l) eqn:E; [eauto|].
  rewrite find_none_in in E. rewrite E in Hf; done.
Qed.

Lemma elem_of_rev {A} (l : list A) x : x ∈ rev l ↔ x ∈ l.
Proof. by rewrite !list_elem_of_In, <- in_rev. Qed.

(** Elements with distinct keys are determined by their keys. *)
Lemma NoDup_map_inj {A B} (f : A → B) l x y :
  NoDup (map f l) → x ∈ l → y ∈ l → f x = f y → x = y.
Proof.
  intros Hnd Hx Hy E. apply list_elem_of_lookup in Hx as [i Hi].
  apply list_elem_of_lookup in Hy as [k Hk]. assert (i = k) as ->; [|congruence].
  change (map f l) with (f <$> l) in Hnd.
  eapply NoDup_lookup; [exact Hnd|by rewrite list_lookup_fmap, Hi|].
  rewrite list_lookup_fmap, Hk. simpl. by rewrite E.
Qed.

(** [filter] of the source, by a boolean test. *)
Lemma elem_of_filterb {A} (f : A → bool) l x :
  x ∈ List.filter f l ↔ x ∈ l ∧ f x = true.
Proof. by rewrite !list_elem_of_In, List.filter_In. Qed.

Lemma filterb_nil {A} (f : A → bool) l :
  List.filter f l = [] ↔ ∀ x, x ∈ l → f x = false.
Proof.
  split.
  - intros H x Hx. apply not_true_iff_false. intros Hf.
    assert (x ∈ List.filter f l) as Hin by (apply elem_of_filterb; done).
    rewrite H in Hin. by apply elem_of_nil in Hin.
  - intros H. destruct (List.filter f l) as [|y k] eqn:E; [done|].
    assert (y ∈ List.filter f l) as Hin by (rewrite E; left).
    apply elem_of_filterb in Hin as [Hin Hf]. by rewrite (H _ Hin) in Hf.
Qed.

Lemma NoDup_filterb {A} (f : A → bool) l : NoDup l → NoDup (List.filter f l).
Proof.
  induction 1 as [|x l Hx Hl IH]; simpl; [constructor|].
  case_match; [|done]. constructor; [|done]. rewrite elem_of_filterb. naive_solver.
Qed.

#[export] Instance filterb_proper {A} (f : A → bool) :
  Proper ((≡ₚ) ==> (≡ₚ)) (List.filter f).
Proof.
  induction 1; simpl; repeat case_match; try done; try by constructor.
  by etrans.
Qed.

(** [includes] of an array. *)
Definition includes {A} `{EqDecision A} (l : list A) (x : A) : bool :=
  bool_decide (x ∈ l).

Lemma includes_true {A} `{EqDecision A} (l : list A) x : includes l x = true ↔ x ∈ l.
Proof. apply bool_decide_eq_true. Qed.
Lemma includes_false {A} `{EqDecision A} (l : list A) x : includes l x = false ↔ x ∉ l.
Proof. apply bool_decide_eq_false. Qed.

(** ** Relations *)

(** A set closed under the steps contains a history that starts in it. *)
Lemma rtc_closed {A} (R : A → A → Prop) (P : A → Prop) a b :
  (∀ x y, P x → R x y → P y) → rtc R a b → P a → P b.
Proof. intros Hc. induction 1; eauto. Qed.

Create HintDb tego.
#[export] Hint Rewrite @bind_ok_l @includes_true @includes_false @existsb_exists_in
  @forallb_forall_in @elem_of_filterb : tego.
#[export] Hint Resolve NoDup_filterb : tego.
