(* ===== verification/JsString.v ===== *)
(** * JavaScript strings

    A string of the source is a list of UTF-16 code units. This file has the
    string operations of the language the kernel uses (comparison by code unit,
    prefixes, splitting, joining, trimming, case mapping) and their laws. *)

From Stdlib Require String Ascii.
From S2P Require Import Prelude.
Export String.StringSyntax.

Abbreviation jstring := (list N).

(** A literal of the source. *)
Definition js (s : String.string) : jstring :=
  map Ascii.N_of_ascii (String.list_ascii_of_string s).
Arguments js _%_string_scope : simpl never.

Definition streq (a b : jstring) : bool := bool_decide (a = b).
Lemma streq_true a b : streq a b = true ↔ a = b.
Proof. apply bool_decide_eq_true. Qed.
Lemma streq_false a b : streq a b = false ↔ a ≠ b.
Proof. apply bool_decide_eq_false. Qed.

(** ** Order: [left < right] on strings *)
Fixpoint str_ltb (l r : jstring) : bool :=
  match l, r with
  | _, [] => false
  | [], _ :: _ => true
  | a :: l', b :: r' => if (a <? b)%N then true else if (b <? a)%N then false else str_ltb l' r'
  end.

(** The three-way comparison every package of the kernel defines:
    [left < right ? -1 : left > right ? 1 : 0]. *)
Definition compareText (left right : jstring) : Z :=
  if str_ltb left right then (-1)%Z else if str_ltb right left then 1%Z else 0%Z.

Lemma str_ltb_irrefl l : str_ltb l l = false.
Proof. induction l as [|a l IH]; simpl; [done|]. by rewrite N.ltb_irrefl. Qed.

Lemma str_ltb_trans a b c : str_ltb a b = true → str_ltb b c = true → str_ltb a c = true.
Proof.
  revert b c. induction a as [|x a IH]; intros [|y b] [|z c]; simpl; try done.
  destruct (N.ltb_spec x y), (N.ltb_spec y x), (N.ltb_spec y z), (N.ltb_spec z y),
    (N.ltb_spec x z), (N.ltb_spec z x); try done; try lia; eauto.
Qed.

Lemma str_ltb_total a b : str_ltb a b = false → str_ltb b a = false → a = b.
Proof.
  revert b. induction a as [|x a IH]; intros [|y b]; simpl; try done.
  destruct (N.ltb_spec x y), (N.ltb_spec y x); try done; try lia.
  intros H1 H2. f_equal; [lia|auto].
Qed.

Lemma str_ltb_asym a b : str_ltb a b = true → str_ltb b a = false.
Proof.
  intros H. apply not_true_iff_false. intros H'.
  pose proof (str_ltb_trans _ _ _ H H') as E. by rewrite str_ltb_irrefl in E.
Qed.

(** ** Searching *)
Fixpoint startsWith (p s : jstring) : bool :=
  match p, s with
  | [], _ => true
  | _ :: _, [] => false
  | a :: p', b :: s' => (a =? b)%N && startsWith p' s'
  end.

Definition endsWith (p s : jstring) : bool := startsWith (rev p) (rev s).

Fixpoint includesStr (p s : jstring) : bool :=
  startsWith p s || match s with [] => false | _ :: s' => includesStr p s' end.

Lemma startsWith_spec p s : startsWith p s = true ↔ ∃ k, s = p ++ k.
Proof.
  revert s. induction p as [|a p IH]; intros s; simpl; [naive_solver|].
  destruct s as [|b s]; [naive_solver|].
  rewrite andb_true_iff, N.eqb_eq, IH. naive_solver.
Qed.

Lemma startsWith_app p s : startsWith p (p ++ s) = true.
Proof. apply startsWith_spec. eauto. Qed.

Lemma startsWith_trans a b c :
  startsWith a b = true → startsWith b c = true → startsWith a c = true.
Proof.
  rewrite !startsWith_spec. intros [k ->] [k' ->]. exists (k ++ k'). by rewrite app_assoc.
Qed.

(** ** Splitting and joining *)

(** [s.split(sep)] for a non-empty separator: leftmost, non-overlapping. *)
Fixpoint split_from (sep : jstring) (skip : nat) (s acc : jstring) : list jstring :=
  match s with
  | [] => [rev acc]
  | c :: s' =>
      match skip with
      | S k => split_from sep k s' acc
      | O =>
          if startsWith sep (c :: s') then rev acc :: split_from sep (length sep - 1) s' []
          else split_from sep O s' (c :: acc)
      end
  end.
Definition split (sep s : jstring) : list jstring := split_from sep O s [].

(** [s.split(c)] for a one-character separator. *)
Fixpoint splitc (c : N) (s : jstring) : list jstring :=
  match s with
  | [] => [[]]
  | x :: s' =>
      if (x =? c)%N then [] :: splitc c s'
      else match splitc c s' with
           | [] => [[x]]
           | w :: ws => (x :: w) :: ws
           end
  end.

Fixpoint joinc (c : N) (ws : list jstring) : jstring :=
  match ws with
  | [] => []
  | [w] => w
  | w :: ws' => w ++ c :: joinc c ws'
  end.

Lemma splitc_nonnil c s : splitc c s ≠ [].
Proof. induction s; simpl; [done|]. repeat case_match; done. Qed.

Lemma splitc_cons c s : ∃ w ws, splitc c s = w :: ws.
Proof. destruct (splitc c s) eqn:E; [by apply splitc_nonnil in E|eauto]. Qed.

Lemma splitc_app_sep c w s : c ∉ w → splitc c (w ++ c :: s) = w :: splitc c s.
Proof.
  induction w as [|x w IH]; intros Hc; simpl.
  - by rewrite N.eqb_refl.
  - apply not_elem_of_cons in Hc as [Hx Hw].
    destruct (N.eqb_spec x c); [congruence|]. by rewrite IH.
Qed.

Lemma splitc_no_sep c w : c ∉ w → splitc c w = [w].
Proof.
  induction w as [|x w IH]; intros Hc; simpl; [done|].
  apply not_elem_of_cons in Hc as [Hx Hw].
  destruct (N.eqb_spec x c); [congruence|]. by rewrite IH.
Qed.

Lemma splitc_joinc c ws : ws ≠ [] → Forall (λ w, c ∉ w) ws → splitc c (joinc c ws) = ws.
Proof.
  intros Hne Hall. induction Hall as [|w ws Hw Hall IH]; [done|].
  destruct ws as [|w' ws].
  - simpl. by apply splitc_no_sep.
  - change (joinc c (w :: w' :: ws)) with (w ++ c :: joinc c (w' :: ws)).
    rewrite splitc_app_sep by done. by rewrite IH.
Qed.

Lemma joinc_inj c ws vs :
  ws ≠ [] → vs ≠ [] → Forall (λ w, c ∉ w) ws → Forall (λ w, c ∉ w) vs →
  joinc c ws = joinc c vs → ws = vs.
Proof.
  intros ???? E. rewrite <- (splitc_joinc c ws), <- (splitc_joinc c vs) by done. by rewrite E.
Qed.

Lemma joinc_splitc c s : joinc c (splitc c s) = s.
Proof.
  induction s as [|x s IH]; simpl; [done|].
  destruct (N.eqb_spec x c) as [->|].
  - destruct (splitc c s) eqn:E; [by apply splitc_nonnil in E|]. simpl in *. by rewrite IH.
  - destruct (splitc c s) as [|w ws] eqn:E; [by apply splitc_nonnil in E|].
    rewrite <- IH. by destruct ws.
Qed.

Lemma splitc_no_sep_elems c s : Forall (λ w, c ∉ w) (splitc c s).
Proof.
  induction s as [|x s IH]; simpl.
  - constructor; [|done]. set_solver.
  - destruct (N.eqb_spec x c).
    + constructor; [set_solver|done].
    + destruct (splitc c s) as [|w ws] eqn:E; [by apply splitc_nonnil in E|].
      inversion IH; subst. constructor; [|done]. rewrite elem_of_cons. naive_solver.
Qed.

Lemma joinc_cons c w ws :
  joinc c (w :: ws) = w ++ match ws with [] => [] | _ => c :: joinc c ws end.
Proof. destruct ws; [by rewrite app_nil_r|done]. Qed.

Lemma joinc_app_mid c l1 w l2 :
  joinc c (l1 ++ w :: l2) =
  match l1 with [] => [] | _ => joinc c l1 ++ [c] end ++ w ++
  match l2 with [] => [] | _ => c :: joinc c l2 end.
Proof.
  induction l1 as [|v l1 IH]; [apply joinc_cons|].
  change ((v :: l1) ++ w :: l2) with (v :: (l1 ++ w :: l2)).
  rewrite (joinc_cons c v (l1 ++ _)), (joinc_cons c v l1), IH.
  destruct l1 as [|v' l1]; simpl.
  - by rewrite app_nil_r, <- app_assoc.
  - by rewrite <- ?app_assoc; simpl; rewrite <- ?app_assoc.
Qed.

Lemma splitc_segment c w s :
  w ∈ splitc c s →
  ∃ pre post, s = pre ++ w ++ post ∧ (pre = [] ∨ ∃ p, pre = p ++ [c]) ∧
              (post = [] ∨ ∃ q, post = c :: q).
Proof.
  intros (l1 & l2 & E)%list_elem_of_split. rewrite <- (joinc_splitc c s), E, joinc_app_mid.
  eexists _, _. split_and!; [done| |]; [destruct l1|destruct l2]; eauto.
Qed.

(** ** Character classes *)
Definition is_digit (c : N) : bool := (48 <=? c)%N && (c <=? 57)%N.
Definition is_upper (c : N) : bool := (65 <=? c)%N && (c <=? 90)%N.
Definition is_lower (c : N) : bool := (97 <=? c)%N && (c <=? 122)%N.
Definition is_alnum (c : N) : bool := is_digit c || is_upper c || is_lower c.

(** White space and line terminators: what [trim] removes and [\s] matches. *)
Definition is_space (c : N) : bool :=
  existsb (N.eqb c)
    [9; 10; 11; 12; 13; 32; 160; 5760; 8192; 8193; 8194; 8195; 8196; 8197; 8198; 8199; 8200;
     8201; 8202; 8232; 8233; 8239; 8287; 12288; 65279]%N.

Fixpoint trimStart (s : jstring) : jstring :=
  match s with
  | c :: s' => if is_space c then trimStart s' else s
  | [] => []
  end.
Definition trim (s : jstring) : jstring := rev (trimStart (rev (trimStart s))).

(** [s.split(/\s+/u)]: one separator per maximal run of white space. *)
Fixpoint splitSpaces_from (inrun : bool) (s acc : jstring) : list jstring :=
  match s with
  | [] => [rev acc]
  | c :: s' =>
      if is_space c
      then if inrun then splitSpaces_from true s' acc else rev acc :: splitSpaces_from true s' []
      else splitSpaces_from false s' (c :: acc)
  end.
Definition splitSpaces (s : jstring) : list jstring := splitSpaces_from false s [].

(** ** Case mapping

    [toUpperCase] and [toLowerCase] are exact on ASCII and list every other
    code unit whose mapping has an ASCII letter (dotless i, long s, sharp s,
    the Latin ligatures, the Kelvin sign, dotted capital I); a code unit
    outside both keeps itself, which no ASCII word contains either. The kernel
    only tests the results against ASCII words and ASCII classes. *)
Definition toUpperUnit (c : N) : jstring :=
  if is_lower c then [c - 32]%N
  else if (c =? 305)%N then js "I"
  else if (c =? 383)%N then js "S"
  else if (c =? 223)%N then js "SS"
  else if (c =? 64256)%N then js "FF"
  else if (c =? 64257)%N then js "FI"
  else if (c =? 64258)%N then js "FL"
  else if (c =? 64259)%N then js "FFI"
  else if (c =? 64260)%N then js "FFL"
  else if (c =? 64261)%N then js "ST"
  else if (c =? 64262)%N then js "ST"
  else [c].
Definition toUpperCase (s : jstring) : jstring := concat (map toUpperUnit s).

Definition toLowerUnit (c : N) : jstring :=
  if is_upper c then [c + 32]%N
  else if (c =? 8490)%N then js "k"
  else if (c =? 304)%N then [105; 775]%N
  else [c].
Definition toLowerCase (s : jstring) : jstring := concat (map toLowerUnit s).

(** ** Decimal numerals *)
Fixpoint digits_value (acc : Z) (s : jstring) : Z :=
  match s with
  | [] => acc
  | c :: s' => digits_value (acc * 10 + (Z.of_N c - 48)) s'
  end.
(** [Number(s)] and [BigInt(s)] of a string of decimal digits. *)
Definition decimal_value (s : jstring) : Z := digits_value 0 s.

(** [value.toString()] of a non-negative integer. *)
Fixpoint show_digits (fuel : nat) (n : Z) (acc : jstring) : jstring :=
  match fuel with
  | O => acc
  | S f =>
      let acc' := Z.to_N (48 + n `mod` 10) :: acc in
      if (n <? 10)%Z then acc' else show_digits f (n `div` 10) acc'
  end.
Definition show_nat (n : Z) : jstring := show_digits (S (Z.to_nat (Z.log2 n))) n [].

Arguments show_nat : simpl never.
Arguments decimal_value : simpl never.

(** The pattern "^(?:0|[1-9]\d*)$", the canonical decimal numeral. *)
Definition isCanonicalDecimal (s : jstring) : bool :=
  match s with
  | [] => false
  | c :: s' => if (c =? 48)%N then match s' with [] => true | _ => false end
               else is_digit c && forallb is_digit s'
  end.

(** The pattern "^\d+$". *)
Definition isDigits (s : jstring) : bool :=
  match s with [] => false | _ => forallb is_digit s end.

(** ** Laws of numerals

    Canonical numerals are the decimal representations of the naturals: the
    value determines the numeral, and the order of the values is the order of
    the lengths, then of the code units. *)
Lemma is_digit_spec c : is_digit c = true ↔ (48 ≤ c ≤ 57)%N.
Proof. unfold is_digit. rewrite andb_true_iff, !N.leb_le. done. Qed.

Lemma digits_value_app acc s t :
  digits_value acc (s ++ t) = digits_value (digits_value acc s) t.
Proof. revert acc. induction s; intros; simpl; auto. Qed.

Lemma digits_value_acc acc s :
  digits_value acc s = (acc * 10 ^ Z.of_nat (length s) + digits_value 0 s)%Z.
Proof.
  revert acc. induction s as [|c s IH]; intros acc; cbn [digits_value length].
  - change (10 ^ Z.of_nat 0)%Z with 1%Z. lia.
  - rewrite IH, (IH (0 * 10 + _)%Z), Nat2Z.inj_succ, Z.pow_succ_r by lia. lia.
Qed.

Lemma digits_value_bounds s :
  forallb is_digit s = true → (0 ≤ digits_value 0 s < 10 ^ Z.of_nat (length s))%Z.
Proof.
  induction s as [|c s IH]; cbn [digits_value forallb length].
  - intros _. change (10 ^ Z.of_nat 0)%Z with 1%Z. lia.
  - intros [Hc Hs]%andb_true_iff. apply is_digit_spec in Hc. specialize (IH Hs).
    rewrite digits_value_acc, Nat2Z.inj_succ, Z.pow_succ_r by lia. nia.
Qed.

Lemma isCanonicalDecimal_digits s : isCanonicalDecimal s = true → forallb is_digit s = true.
Proof.
  destruct s as [|c s]; [done|]. simpl. destruct (N.eqb_spec c 48) as [->|]; [|done].
  by destruct s.
Qed.

Lemma isCanonicalDecimal_nonnil s : isCanonicalDecimal s = true → s ≠ [].
Proof. by destruct s. Qed.

Lemma canonical_lower_bound s :
  isCanonicalDecimal s = true → 1 < length s →
  (10 ^ Z.of_nat (length s - 1) ≤ decimal_value s)%Z.
Proof.
  destruct s as [|c s]; [done|]. unfold decimal_value. cbn [isCanonicalDecimal digits_value length].
  destruct (N.eqb_spec c 48) as [->|Hc]; [destruct s; simpl; [lia|done]|].
  intros [Hd Hs]%andb_true_iff Hlen. apply is_digit_spec in Hd.
  rewrite digits_value_acc. pose proof (digits_value_bounds _ Hs).
  replace (S (length s) - 1) with (length s) by lia. nia.
Qed.

Lemma canonical_length_lt a b :
  isCanonicalDecimal a = true → isCanonicalDecimal b = true → length a < length b →
  (decimal_value a < decimal_value b)%Z.
Proof.
  intros Ha Hb Hlen. pose proof (isCanonicalDecimal_nonnil _ Ha).
  assert (1 < length b) by (destruct a; simpl in *; [done|lia]).
  pose proof (canonical_lower_bound _ Hb ltac:(done)).
  pose proof (digits_value_bounds _ (isCanonicalDecimal_digits _ Ha)) as [_ Hub].
  fold (decimal_value a) in Hub.
  assert (10 ^ Z.of_nat (length a) ≤ 10 ^ Z.of_nat (length b - 1))%Z
    by (apply Z.pow_le_mono_r; lia). lia.
Qed.

Lemma digits_ltb_value a b :
  forallb is_digit a = true → forallb is_digit b = true → length a = length b →
  str_ltb a b = true → (digits_value 0 a < digits_value 0 b)%Z.
Proof.
  revert b. induction a as [|x a IH]; intros [|y b]; cbn [digits_value forallb length str_ltb];
    try done.
  intros [Hx Ha]%andb_true_iff [Hy Hb]%andb_true_iff [= Hlen] Hlt.
  apply is_digit_spec in Hx, Hy.
  rewrite digits_value_acc, (digits_value_acc _ b), <- Hlen.
  pose proof (digits_value_bounds _ Ha) as Ba. pose proof (digits_value_bounds _ Hb) as Bb.
  rewrite <- Hlen in Bb.
  destruct (N.ltb_spec x y); [nia|]. destruct (N.ltb_spec y x); [done|].
  specialize (IH _ Ha Hb Hlen Hlt). replace y with x by lia. lia.
Qed.

(** The numeral order: by length, then by code unit. *)
Lemma canonical_ltb_value a b :
  isCanonicalDecimal a = true → isCanonicalDecimal b = true → length a = length b →
  str_ltb a b = true ↔ (decimal_value a < decimal_value b)%Z.
Proof.
  intros Ha Hb Hlen. apply isCanonicalDecimal_digits in Ha, Hb. split.
  - by apply digits_ltb_value.
  - intros Hlt. apply not_false_iff_true. intros Hf.
    destruct (str_ltb b a) eqn:E.
    + apply digits_ltb_value in E; [|done..]. unfold decimal_value in *. lia.
    + rewrite (str_ltb_total _ _ Hf E) in Hlt. lia.
Qed.

Lemma canonical_inj a b :
  isCanonicalDecimal a = true → isCanonicalDecimal b = true →
  decimal_value a = decimal_value b → a = b.
Proof.
  intros Ha Hb E. destruct (Nat.lt_trichotomy (length a) (length b)) as [H|[H|H]].
  - apply canonical_length_lt in H; [lia|done..].
  - apply str_ltb_total; apply not_true_iff_false; intros Hlt;
      apply canonical_ltb_value in Hlt; (done || lia).
  - apply canonical_length_lt in H; [lia|done..].
Qed.

Lemma show_digits_app fuel n acc : show_digits fuel n acc = show_digits fuel n [] ++ acc.
Proof.
  revert n acc. induction fuel as [|f IH]; intros n acc; cbn [show_digits]; [done|].
  case_match; [done|]. rewrite IH, (IH _ [_]). by rewrite <- app_assoc.
Qed.

Lemma show_digits_spec fuel n :
  (0 ≤ n < 10 ^ Z.of_nat fuel)%Z → fuel ≠ O →
  digits_value 0 (show_digits fuel n []) = n ∧ isCanonicalDecimal (show_digits fuel n []) = true ∧
  (n ≠ 0 → hd 0%N (show_digits fuel n []) ≠ 48%N)%Z.
Proof.
  revert n. induction fuel as [|f IH]; intros n Hn Hf; [done|]. cbn [show_digits].
  assert (0 ≤ n `mod` 10 < 10)%Z as Hmod by (apply Z.mod_pos_bound; lia).
  destruct (Z.ltb_spec n 10).
  - rewrite (Z.mod_small n 10) by lia. cbn [digits_value isCanonicalDecimal hd].
    split_and!; [lia| |lia]. destruct (N.eqb_spec (Z.to_N (48 + n)) 48); [done|].
    rewrite andb_true_r. apply is_digit_spec. lia.
  - assert (f ≠ O) by (intros ->; change (10 ^ Z.of_nat 1)%Z with 10%Z in Hn; lia).
    rewrite Nat2Z.inj_succ, Z.pow_succ_r in Hn by lia.
    assert (0 ≤ n `div` 10 < 10 ^ Z.of_nat f)%Z as Hdiv
      by (split; [apply Z.div_pos; lia|apply Z.div_lt_upper_bound; lia]).
    destruct (IH _ Hdiv) as (Hv & Hc & Hh); [done|].
    assert (n `div` 10 ≠ 0)%Z as Hq by (pose proof (Z.div_str_pos n 10); lia).
    specialize (Hh Hq). rewrite show_digits_app, digits_value_app, Hv.
    set (d := show_digits f (n `div` 10) []) in *. split_and!.
    + cbn [digits_value]. rewrite Z2N.id by lia. pose proof (Z.div_mod n 10). lia.
    + destruct d as [|c d]; [done|]. simpl in *.
      destruct (N.eqb_spec c 48); [done|]. apply andb_true_iff in Hc as [-> Hc].
      rewrite forallb_app, Hc. simpl. rewrite andb_true_r. apply is_digit_spec. lia.
    + intros _. destruct d as [|c d]; [done|]. done.
Qed.

Lemma show_nat_spec n :
  (0 ≤ n)%Z → decimal_value (show_nat n) = n ∧ isCanonicalDecimal (show_nat n) = true.
Proof.
  intros Hn. unfold show_nat, decimal_value.
  destruct (show_digits_spec (S (Z.to_nat (Z.log2 n))) n) as (? & ? & _); [|done|done].
  split; [done|]. rewrite Nat2Z.inj_succ, Z2Nat.id by apply Z.log2_nonneg.
  destruct (decide (n = 0)%Z) as [->|]; [by vm_compute|].
  destruct (Z.log2_spec n) as [_ Hlt]; [lia|]. eapply Z.lt_le_trans; [done|].
  apply Z.pow_le_mono_l. lia.
Qed.

Lemma show_nat_value n : (0 ≤ n)%Z → decimal_value (show_nat n) = n.
Proof. intros. by apply show_nat_spec. Qed.
Lemma show_nat_canonical n : (0 ≤ n)%Z → isCanonicalDecimal (show_nat n) = true.
Proof. intros. by apply show_nat_spec. Qed.

Lemma decimal_value_nonneg s : isCanonicalDecimal s = true → (0 ≤ decimal_value s)%Z.
Proof. intros H. by apply digits_value_bounds, isCanonicalDecimal_digits. Qed.

Lemma show_nat_decimal_value s :
  isCanonicalDecimal s = true → show_nat (decimal_value s) = s.
Proof.
  intros H. pose proof (decimal_value_nonneg _ H).
  apply canonical_inj; [by apply show_nat_canonical|done|by apply show_nat_value].
Qed.
#[export] Hint Resolve show_nat_canonical decimal_value_nonneg : tego.
