(* ===== verification/Collections.v ===== *)
(** * JavaScript collections

    [Array.prototype.sort] with a comparator (stable), the laws a comparator
    must have, and [Map]: a finite map that iterates in insertion order. *)

From S2P Require Import Prelude JsString.

(** ** Comparators *)
Class Comparator {A} (cmp : A → A → Z) : Prop := {
  cmp_refl x : cmp x x = 0%Z;
  cmp_antisym x y : (cmp x y < 0 ↔ 0 < cmp y x)%Z;
  cmp_trans x y z : (cmp x y ≤ 0 → cmp y z ≤ 0 → cmp x z ≤ 0)%Z;
}.
(** A comparator that separates the elements. *)
Class TotalComparator {A} (cmp : A → A → Z) : Prop := {
  total_comparator :: Comparator cmp;
  cmp_eq x y : cmp x y = 0%Z → x = y;
}.

Lemma compareText_eq a b : compareText a b = 0%Z ↔ a = b.
Proof.
  unfold compareText. destruct (str_ltb a b) eqn:E1, (str_ltb b a) eqn:E2; split;
    intros; subst; try done; try (by rewrite str_ltb_irrefl in *).
  by apply str_ltb_total.
Qed.

Lemma compareText_neg a b : (compareText a b < 0)%Z ↔ str_ltb a b = true.
Proof. unfold compareText. destruct (str_ltb a b), (str_ltb b a); split; done || lia. Qed.

Lemma compareText_pos a b : (0 < compareText a b)%Z ↔ str_ltb b a = true.
Proof.
  unfold compareText. destruct (str_ltb a b) eqn:E; [apply str_ltb_asym in E as ->|];
    destruct (str_ltb b a); split; done || lia.
Qed.

#[export] Instance compareText_total : TotalComparator compareText.
Proof.
  split; [split|].
  - intros x. by apply compareText_eq.
  - intros x y. by rewrite compareText_neg, compareText_pos.
  - intros x y z. unfold compareText.
    destruct (str_ltb x y) eqn:E1, (str_ltb y z) eqn:E2; intros H1 H2;
      repeat match goal with
      | H : ((if str_ltb ?a ?b then _ else _) ≤ 0)%Z |- _ => destruct (str_ltb a b) eqn:?; [lia|]
      end.
    + by rewrite (str_ltb_trans _ _ _ E1 E2).
    + rewrite <- (str_ltb_total y z) by done. by rewrite E1.
    + rewrite (str_ltb_total x y) by done. by rewrite E2.
    + rewrite (str_ltb_total x y) by done. rewrite (str_ltb_total y z) by done.
      by rewrite str_ltb_irrefl.
  - intros x y. apply compareText_eq.
Qed.

#[export] Instance sub_total : TotalComparator Z.sub.
Proof. split; [split|]; intros; lia. Qed.

Lemma comparator_on {A B} (f : A → B) cmp `{!Comparator cmp} :
  Comparator (λ x y, cmp (f x) (f y)).
Proof. split; intros; [apply cmp_refl|apply cmp_antisym|by eapply cmp_trans]. Qed.

Lemma cmp_le_lt_trans {A} (cmp : A → A → Z) `{!Comparator cmp} x y z :
  (cmp x y ≤ 0 → cmp y z < 0 → cmp x z < 0)%Z.
Proof.
  intros H1 H2. destruct (Z.lt_ge_cases (cmp x z) 0) as [|Hge]; [done|].
  assert (cmp z x ≤ 0)%Z as H3.
  { destruct (Z.le_gt_cases (cmp z x) 0) as [|H3]; [done|]. apply cmp_antisym in H3. lia. }
  assert (cmp z y ≤ 0)%Z by (by eapply cmp_trans). apply cmp_antisym in H2. lia.
Qed.

Lemma cmp_lt_le_trans {A} (cmp : A → A → Z) `{!Comparator cmp} x y z :
  (cmp x y < 0 → cmp y z ≤ 0 → cmp x z < 0)%Z.
Proof.
  intros H1 H2. destruct (Z.lt_ge_cases (cmp x z) 0) as [|Hge]; [done|].
  assert (cmp z x ≤ 0)%Z as H3.
  { destruct (Z.le_gt_cases (cmp z x) 0) as [|H3]; [done|]. apply cmp_antisym in H3. lia. }
  assert (cmp y x ≤ 0)%Z by (by eapply cmp_trans). apply cmp_antisym in H1. lia.
Qed.

Lemma cmp_le_total {A} (cmp : A → A → Z) `{!Comparator cmp} x y :
  (cmp x y ≤ 0 ∨ cmp y x ≤ 0)%Z.
Proof.
  destruct (Z.le_gt_cases (cmp x y) 0); [auto|]. right.
  destruct (Z.le_gt_cases (cmp y x) 0) as [|H2]; [done|]. apply cmp_antisym in H2. lia.
Qed.

Lemma cmp_sym0 {A} (cmp : A → A → Z) `{!Comparator cmp} x y :
  cmp x y = 0%Z → cmp y x = 0%Z.
Proof.
  intros E. pose proof (cmp_antisym x y). pose proof (cmp_antisym y x). lia.
Qed.

(** [c1(x, y) || c2(x, y)] *)
Lemma comparator_lex {A} (c1 c2 : A → A → Z) `{!Comparator c1, !Comparator c2} :
  Comparator (λ x y, or_else (c1 x y) (c2 x y)).
Proof.
  unfold or_else. split.
  - intros x. rewrite (cmp_refl (cmp := c1)). simpl. apply cmp_refl.
  - intros x y. pose proof (cmp_antisym (cmp := c1) x y). pose proof (cmp_antisym (cmp := c1) y x).
    pose proof (cmp_antisym (cmp := c2) x y).
    destruct (Z.eqb_spec (c1 x y) 0), (Z.eqb_spec (c1 y x) 0); lia.
  - intros x y z.
    pose proof (cmp_trans (cmp := c1) x y z) as T1. pose proof (cmp_trans (cmp := c2) x y z).
    pose proof (cmp_le_lt_trans c1 x y z). pose proof (cmp_lt_le_trans c1 x y z).
    destruct (Z.eqb_spec (c1 x y) 0), (Z.eqb_spec (c1 y z) 0), (Z.eqb_spec (c1 x z) 0);
      intros; lia.
Qed.

(** Lexicographic order on lists, a proper prefix first. *)
Fixpoint lex_list {A} (cmp : A → A → Z) (l r : list A) : Z :=
  match l, r with
  | [], [] => 0
  | [], _ :: _ => -1
  | _ :: _, [] => 1
  | x :: l', y :: r' => or_else (cmp x y) (lex_list cmp l' r')
  end.

#[export] Instance lex_list_comparator {A} (cmp : A → A → Z) `{!Comparator cmp} :
  Comparator (lex_list cmp).
Proof.
  split.
  - intros l. induction l as [|x l IH]; [done|]. cbn [lex_list]. unfold or_else.
    by rewrite cmp_refl.
  - intros l. induction l as [|x l IH]; intros [|y r]; cbn [lex_list]; [lia..|].
    specialize (IH r). unfold or_else.
    pose proof (cmp_antisym (cmp := cmp) x y). pose proof (cmp_antisym (cmp := cmp) y x).
    destruct (Z.eqb_spec (cmp x y) 0), (Z.eqb_spec (cmp y x) 0); lia.
  - intros l. induction l as [|x l IH]; intros [|y r] [|z t]; cbn [lex_list]; try lia.
    specialize (IH r t). unfold or_else.
    pose proof (cmp_trans (cmp := cmp) x y z) as T1.
    pose proof (cmp_le_lt_trans cmp x y z). pose proof (cmp_lt_le_trans cmp x y z).
    destruct (Z.eqb_spec (cmp x y) 0), (Z.eqb_spec (cmp y z) 0), (Z.eqb_spec (cmp x z) 0);
      intros; lia.
Qed.

#[export] Instance lex_list_total {A} (cmp : A → A → Z) `{!TotalComparator cmp} :
  TotalComparator (lex_list cmp).
Proof.
  split; [apply _|]. intros l. induction l as [|x l IH]; intros [|y r]; cbn [lex_list]; try done.
  unfold or_else. destruct (Z.eqb_spec (cmp x y) 0) as [E|]; [|done].
  intros Hr. f_equal; [by apply (cmp_eq (cmp := cmp))|auto].
Qed.

Lemma or_else_0 a b : or_else a b = 0%Z ↔ a = 0%Z ∧ b = 0%Z.
Proof. unfold or_else. destruct (Z.eqb_spec a 0); lia. Qed.

(** ** Sorting *)
Fixpoint insert_sorted {A} (cmp : A → A → Z) (x : A) (l : list A) : list A :=
  match l with
  | [] => [x]
  | y :: l' => if (cmp x y <=? 0)%Z then x :: l else y :: insert_sorted cmp x l'
  end.
Fixpoint js_sort {A} (cmp : A → A → Z) (l : list A) : list A :=
  match l with
  | [] => []
  | x :: l' => insert_sorted cmp x (js_sort cmp l')
  end.

Lemma insert_sorted_perm {A} (cmp : A → A → Z) x l : insert_sorted cmp x l ≡ₚ x :: l.
Proof.
  induction l as [|y l IH]; simpl; [done|]. case_match; [done|].
  rewrite IH. apply Permutation_swap.
Qed.

Lemma js_sort_perm {A} (cmp : A → A → Z) l : js_sort cmp l ≡ₚ l.
Proof. induction l as [|x l IH]; simpl; [done|]. by rewrite insert_sorted_perm, IH. Qed.

Lemma elem_of_js_sort {A} (cmp : A → A → Z) l x : x ∈ js_sort cmp l ↔ x ∈ l.
Proof. by rewrite js_sort_perm. Qed.
Lemma length_js_sort {A} (cmp : A → A → Z) l : length (js_sort cmp l) = length l.
Proof. by rewrite js_sort_perm. Qed.
Lemma NoDup_js_sort {A} (cmp : A → A → Z) l : NoDup (js_sort cmp l) ↔ NoDup l.
Proof. by rewrite js_sort_perm. Qed.

Section sorting.
Context {A} (cmp : A → A → Z) `{!Comparator cmp}.
Let R (x y : A) := (cmp x y ≤ 0)%Z.

Lemma insert_sorted_sorted x l :
  StronglySorted R l → StronglySorted R (insert_sorted cmp x l).
Proof.
  induction 1 as [|y l Hl IH Hy]; simpl; [repeat constructor|].
  case_match eqn:E; to_prop.
  - constructor; [by constructor|]. constructor; [done|].
    eapply Forall_impl; [done|]. intros z Hz. by eapply cmp_trans.
  - constructor; [done|]. rewrite insert_sorted_perm. constructor; [|done].
    destruct (cmp_le_total cmp x y); [lia|done].
Qed.

Lemma js_sort_sorted l : StronglySorted R (js_sort cmp l).
Proof. induction l; simpl; [constructor|by apply insert_sorted_sorted]. Qed.

Lemma insert_sorted_head x l : Forall (R x) l → insert_sorted cmp x l = x :: l.
Proof.
  destruct 1 as [|y l Hy _]; simpl; [done|]. unfold R in Hy.
  apply Z.leb_le in Hy. by rewrite Hy.
Qed.

Lemma js_sort_id l : StronglySorted R l → js_sort cmp l = l.
Proof. induction 1 as [|x l Hl IH Hx]; simpl; [done|]. rewrite IH. by apply insert_sorted_head. Qed.

Lemma sorted_unique l l' :
  (∀ x y, x ∈ l → y ∈ l → cmp x y = 0%Z → x = y) →
  StronglySorted R l → StronglySorted R l' → l ≡ₚ l' → l = l'.
Proof.
  intros Hsep Hl. revert l' Hsep. induction Hl as [|x l Hl IH Hx]; intros l' Hsep Hl' Hp.
  - by apply Permutation_nil_l in Hp.
  - destruct Hl' as [|y l' Hl' Hy]; [by apply Permutation_nil_r in Hp|].
    assert (x = y) as ->.
    { assert (y ∈ x :: l) as Hin by (rewrite Hp; left).
      assert (x ∈ y :: l') as Hin' by (rewrite <- Hp; left).
      apply elem_of_cons in Hin as [->|Hin]; [done|].
      apply elem_of_cons in Hin' as [->|Hin']; [done|].
      rewrite Forall_forall in Hx, Hy. specialize (Hx _ Hin). specialize (Hy _ Hin').
      unfold R in *. apply Hsep; [left|by right|].
      pose proof (cmp_antisym y x). pose proof (cmp_antisym x y). lia. }
    apply Permutation_cons_inv in Hp. f_equal. apply IH; try done.
    intros a b Ha Hb. apply Hsep; by right.
Qed.

(** The sorted array depends on the elements only, when the comparator
    separates them. *)
Lemma js_sort_perm_eq l l' :
  (∀ x y, x ∈ l → y ∈ l → cmp x y = 0%Z → x = y) →
  l ≡ₚ l' → js_sort cmp l = js_sort cmp l'.
Proof.
  intros Hsep Hp. apply sorted_unique; auto using js_sort_sorted.
  - intros x y. rewrite !elem_of_js_sort. apply Hsep.
  - by rewrite !js_sort_perm.
Qed.

Lemma StronglySorted_filterb (f : A → bool) l :
  StronglySorted R l → StronglySorted R (List.filter f l).
Proof.
  induction 1 as [|x l Hl IH Hx]; simpl; [constructor|]. case_match; [|done].
  constructor; [done|]. rewrite Forall_forall in *. intros y Hy%elem_of_filterb. naive_solver.
Qed.

Lemma js_sort_filterb (f : A → bool) l :
  (∀ x y, x ∈ l → y ∈ l → cmp x y = 0%Z → x = y) →
  List.filter f (js_sort cmp l) = js_sort cmp (List.filter f l).
Proof.
  intros Hsep. apply sorted_unique.
  - intros x y. rewrite !elem_of_filterb, !elem_of_js_sort. naive_solver.
  - apply StronglySorted_filterb, js_sort_sorted.
  - apply js_sort_sorted.
  - by rewrite !js_sort_perm.
Qed.
End sorting.

(** [sortedUnique] of the contracts package: sort, then keep the elements that
    differ from the element before them. *)
Fixpoint dedup_adjacent {A} (cmp : A → A → Z) (prev : A) (l : list A) : list A :=
  match l with
  | [] => []
  | x :: l' => if (cmp prev x =? 0)%Z then dedup_adjacent cmp x l' else x :: dedup_adjacent cmp x l'
  end.
Definition sortedUnique {A} (values : list A) (compare : A → A → Z) : list A :=
  match js_sort compare values with
  | [] => []
  | x :: l => x :: dedup_adjacent compare x l
  end.

Section sorted_unique.
Context {A} (cmp : A → A → Z) `{!TotalComparator cmp}.

Lemma elem_of_dedup p l x :
  x ∈ dedup_adjacent cmp p l ∨ x = p ↔ x ∈ l ∨ x = p.
Proof.
  revert p. induction l as [|y l IH]; intros p; simpl; [done|].
  destruct (Z.eqb_spec (cmp p y) 0) as [E|E].
  - apply cmp_eq in E as ->. rewrite IH, elem_of_cons. naive_solver.
  - specialize (IH y). rewrite !elem_of_cons. naive_solver.
Qed.

Lemma elem_of_sortedUnique values x : x ∈ sortedUnique values cmp ↔ x ∈ values.
Proof.
  unfold sortedUnique. rewrite <- (elem_of_js_sort cmp values).
  destruct (js_sort cmp values) as [|y l]; [done|].
  rewrite !elem_of_cons. pose proof (elem_of_dedup y l x). naive_solver.
Qed.

Lemma dedup_strict p l :
  StronglySorted (λ x y, cmp x y ≤ 0)%Z (p :: l) →
  StronglySorted (λ x y, cmp x y < 0)%Z (p :: dedup_adjacent cmp p l).
Proof.
  revert p. induction l as [|y l IH]; intros p Hs; simpl; [repeat constructor|].
  apply StronglySorted_inv in Hs as [Hs Hp]. pose proof (IH _ Hs) as HIH.
  apply Forall_cons in Hp as [Hpy Hp].
  destruct (Z.eqb_spec (cmp p y) 0) as [E|E]; [by apply cmp_eq in E as ->|].
  constructor; [done|]. apply StronglySorted_inv in HIH as [_ Hy].
  constructor; [lia|]. eapply Forall_impl; [done|]. intros z Hz.
  eapply (cmp_lt_le_trans cmp); [|apply Z.lt_le_incl, Hz]. lia.
Qed.

Lemma sortedUnique_strict values :
  StronglySorted (λ x y, cmp x y < 0)%Z (sortedUnique values cmp).
Proof.
  unfold sortedUnique. pose proof (js_sort_sorted cmp values) as Hs.
  destruct (js_sort cmp values); [constructor|]. by apply dedup_strict.
Qed.

Lemma strict_sortedUnique values :
  StronglySorted (λ x y, cmp x y < 0)%Z values → sortedUnique values cmp = values.
Proof.
  intros Hs. unfold sortedUnique. rewrite (js_sort_id cmp).
  2: { induction Hs as [|x l ? IH Hx]; constructor; [done|].
       eapply Forall_impl; [exact Hx|]. simpl. lia. }
  destruct Hs as [|x l Hs Hx]; [done|]. f_equal. revert x Hx.
  induction Hs as [|y l Hs IH Hy]; intros x Hx; simpl; [done|].
  apply Forall_cons in Hx as [Hxy _].
  destruct (Z.eqb_spec (cmp x y) 0); [lia|]. f_equal. by apply IH.
Qed.

Lemma sortedUnique_idemp values :
  sortedUnique (sortedUnique values cmp) cmp = sortedUnique values cmp.
Proof. apply strict_sortedUnique, sortedUnique_strict. Qed.

Lemma strict_NoDup values :
  StronglySorted (λ x y, cmp x y < 0)%Z values → NoDup values.
Proof.
  induction 1 as [|x l ? IH Hx]; constructor; [|done]. intros Hin.
  rewrite Forall_forall in Hx. specialize (Hx _ Hin). rewrite cmp_refl in Hx. lia.
Qed.
End sorted_unique.

(** ** [Map]: insertion-ordered *)
Definition jsmap (K V : Type) : Type := list (K * V).

Module JsMap.
Section map.
Context {K V : Type} `{EqDecision K}.
Implicit Types (m : jsmap K V) (k : K) (v : V).

Definition keys m : list K := m.*1.
Definition values m : list V := m.*2.

Fixpoint get m k : option V :=
  match m with
  | [] => None
  | (k', v) :: m' => if bool_decide (k' = k) then Some v else get m' k
  end.
Definition has m k : bool := match get m k with Some _ => true | None => false end.

(** A present key keeps its place; an absent one goes last. *)
Fixpoint set m k v : jsmap K V :=
  match m with
  | [] => [(k, v)]
  | (k', v') :: m' => if bool_decide (k' = k) then (k', v) :: m' else (k', v') :: set m' k v
  end.
Fixpoint delete m k : jsmap K V :=
  match m with
  | [] => []
  | (k', v') :: m' => if bool_decide (k' = k) then m' else (k', v') :: delete m' k
  end.

Definition wf m : Prop := NoDup (keys m).

Lemma get_set_eq m k v : get (set m k v) k = Some v.
Proof.
  induction m as [|[k' v'] m IH]; simpl.
  - by rewrite bool_decide_true.
  - destruct (decide (k' = k)); [rewrite bool_decide_true by done; simpl;
      by rewrite bool_decide_true|]. rewrite bool_decide_false by done. simpl.
    by rewrite bool_decide_false.
Qed.

Lemma get_set_ne m k k' v : k ≠ k' → get (set m k v) k' = get m k'.
Proof.
  intros Hne. induction m as [|[i w] m IH]; simpl.
  - by rewrite bool_decide_false.
  - destruct (decide (i = k)) as [->|].
    + rewrite bool_decide_true by done. simpl. by rewrite bool_decide_false.
    + rewrite bool_decide_false by done. simpl. by rewrite IH.
Qed.

Lemma get_in m k v : get m k = Some v → (k, v) ∈ m.
Proof.
  induction m as [|[i w] m IH]; simpl; [done|]. case_bool_decide; intros; simplify_eq.
  - left.
  - right. auto.
Qed.

Lemma get_None m k : get m k = None ↔ k ∉ keys m.
Proof.
  induction m as [|[i w] m IH]; simpl; [set_solver|].
  rewrite not_elem_of_cons. case_bool_decide; naive_solver.
Qed.

Lemma in_get m k v : wf m → (k, v) ∈ m → get m k = Some v.
Proof.
  unfold wf. induction m as [|[i w] m IH]; simpl; [by intros _ ?%elem_of_nil|].
  intros [Hi Hm]%NoDup_cons [[= <- <-]|Hin]%elem_of_cons.
  - by rewrite bool_decide_true.
  - rewrite bool_decide_false; [auto|]. intros ->. apply Hi.
    apply list_elem_of_fmap. by exists (k, v).
Qed.

Lemma has_keys m k : has m k = true ↔ k ∈ keys m.
Proof.
  unfold has. destruct (get m k) eqn:E.
  - split; [intros _|done]. apply get_in in E. apply list_elem_of_fmap. by exists (k, v).
  - apply get_None in E. naive_solver.
Qed.

Lemma keys_set m k v : keys (set m k v) = if has m k then keys m else keys m ++ [k].
Proof.
  unfold has. induction m as [|[i w] m IH]; simpl; [done|].
  case_bool_decide; simpl; [done|]. rewrite IH. by destruct (get m k).
Qed.

Lemma set_absent m k v : k ∉ keys m → set m k v = m ++ [(k, v)].
Proof.
  induction m as [|[i w] m IH]; simpl; [done|]. intros [Hi Hm]%not_elem_of_cons.
  rewrite bool_decide_false by congruence. by rewrite IH.
Qed.

Lemma wf_set m k v : wf m → wf (set m k v).
Proof.
  unfold wf. rewrite keys_set. destruct (has m k) eqn:E; [done|]. intros Hm.
  apply NoDup_app. split_and!; [done| |apply NoDup_singleton].
  intros x Hx ->%list_elem_of_singleton. apply has_keys in Hx. congruence.
Qed.

Lemma elem_of_delete m k p : wf m → p ∈ delete m k ↔ p ∈ m ∧ p.1 ≠ k.
Proof.
  unfold wf. induction m as [|[i w] m IH]; simpl; [set_solver|].
  intros [Hi Hm]%NoDup_cons. case_bool_decide as E; rewrite !elem_of_cons.
  - subst. split; [|naive_solver]. intros Hp. split; [by right|]. intros <-.
    apply Hi, list_elem_of_fmap. eauto.
  - rewrite IH by done. naive_solver.
Qed.

Lemma keys_delete_sub m k : keys (delete m k) ⊆ keys m.
Proof.
  induction m as [|[i w] m IH]; simpl; [done|]. case_bool_decide; simpl; set_solver.
Qed.

Lemma wf_delete m k : wf m → wf (delete m k).
Proof.
  unfold wf. induction m as [|[i w] m IH]; simpl; [done|].
  intros [Hi Hm]%NoDup_cons. case_bool_decide; simpl; [done|]. constructor; [|auto].
  intros Hin%keys_delete_sub. done.
Qed.

Lemma get_delete_eq m k : wf m → get (delete m k) k = None.
Proof.
  intros Hm. apply get_None. intros ([k' v] & -> & Hin)%list_elem_of_fmap.
  apply elem_of_delete in Hin; naive_solver.
Qed.

Lemma get_delete_ne m k k' : k ≠ k' → get (delete m k) k' = get m k'.
Proof.
  intros Hne. induction m as [|[i w] m IH]; simpl; [done|].
  case_bool_decide; subst; simpl; [by rewrite bool_decide_false|]. by rewrite IH.
Qed.

Lemma delete_absent m k : get m k = None → delete m k = m.
Proof.
  induction m as [|[i w] m IH]; simpl; [done|]. case_bool_decide; [done|].
  intros. by rewrite IH.
Qed.

Lemma delete_perm m k v : get m k = Some v → m ≡ₚ (k, v) :: delete m k.
Proof.
  induction m as [|[i w] m IH]; simpl; [done|]. case_bool_decide; intros; simplify_eq; [done|].
  rewrite IH at 1 by done. apply Permutation_swap.
Qed.

Lemma length_delete m k v : get m k = Some v → length m = S (length (delete m k)).
Proof. intros H. by rewrite (delete_perm _ _ _ H) at 1. Qed.
End map.
End JsMap.
#[export] Hint Resolve @JsMap.wf_set @JsMap.wf_delete : tego.
