(* ===== verification/Regex.v ===== *)
(** * Regular expressions

    The anchored patterns of the kernel, as data: [re_test r s] decides, by
    derivatives, whether the whole string [s] belongs to [lang r]. A negative
    lookahead at the start of a pattern is [RAnd (RNot _) _]. *)

From S2P Require Import Prelude JsString.

Inductive regex : Type :=
| RNone
| REps
| RCls (p : N → bool)
| RSeq (a b : regex)
| RAlt (a b : regex)
| RStar (a : regex)
| RAnd (a b : regex)
| RNot (a : regex).

Inductive star (L : jstring → Prop) : jstring → Prop :=
| star_nil : star L []
| star_app x y : L x → star L y → star L (x ++ y).

Fixpoint lang (r : regex) : jstring → Prop :=
  match r with
  | RNone => λ _, False
  | REps => λ s, s = []
  | RCls p => λ s, ∃ c, s = [c] ∧ p c = true
  | RSeq a b => λ s, ∃ x y, s = x ++ y ∧ lang a x ∧ lang b y
  | RAlt a b => λ s, lang a s ∨ lang b s
  | RStar a => star (lang a)
  | RAnd a b => λ s, lang a s ∧ lang b s
  | RNot a => λ s, ¬ lang a s
  end.

(** ** The matcher *)
Fixpoint nullable (r : regex) : bool :=
  match r with
  | RNone | RCls _ => false
  | REps | RStar _ => true
  | RSeq a b | RAnd a b => nullable a && nullable b
  | RAlt a b => nullable a || nullable b
  | RNot a => negb (nullable a)
  end.

Definition mk_seq (a b : regex) : regex :=
  match a with
  | RNone => RNone
  | REps => b
  | _ => RSeq a b
  end.
Definition mk_alt (a b : regex) : regex :=
  match a, b with
  | RNone, _ => b
  | _, RNone => a
  | _, _ => RAlt a b
  end.

Fixpoint deriv (c : N) (r : regex) : regex :=
  match r with
  | RNone | REps => RNone
  | RCls p => if p c then REps else RNone
  | RSeq a b =>
      if nullable a then mk_alt (mk_seq (deriv c a) b) (deriv c b) else mk_seq (deriv c a) b
  | RAlt a b => mk_alt (deriv c a) (deriv c b)
  | RStar a => mk_seq (deriv c a) (RStar a)
  | RAnd a b => RAnd (deriv c a) (deriv c b)
  | RNot a => RNot (deriv c a)
  end.

Fixpoint re_test (r : regex) (s : jstring) : bool :=
  match s with
  | [] => nullable r
  | c :: s' => re_test (deriv c r) s'
  end.

(** ** Derived forms *)
Definition ch (c : N) : regex := RCls (N.eqb c).
Definition ropt (a : regex) : regex := RAlt REps a.
Definition rplus (a : regex) : regex := RSeq a (RStar a).
(** [a{0,n}] *)
Fixpoint rupto (a : regex) (n : nat) : regex :=
  match n with O => REps | S n' => RAlt REps (RSeq a (rupto a n')) end.
(** [a{n}] *)
Fixpoint rtimes (a : regex) (n : nat) : regex :=
  match n with O => REps | S n' => RSeq a (rtimes a n') end.
Fixpoint rlit (s : jstring) : regex :=
  match s with [] => REps | c :: s' => RSeq (ch c) (rlit s') end.
Definition rany : regex := RCls (λ _, true).
(** The dot: any character but a line terminator. *)
Definition rdot : regex :=
  RCls (λ c, negb (existsb (N.eqb c) [10; 13; 8232; 8233]%N)).
(** "0|[1-9]\d*" *)
Definition rdecimal : regex :=
  RAlt (ch 48) (RSeq (RCls (λ c, (49 <=? c) && (c <=? 57))%N) (RStar (RCls is_digit))).

(** ** Correctness *)
Lemma nullable_spec r : nullable r = true ↔ lang r [].
Proof.
  induction r as [| | |a IHa b IHb|a IHa b IHb|a|a IHa b IHb|a IHa]; simpl.
  - done.
  - done.
  - split; [done|]. by intros (c & ? & _).
  - rewrite andb_true_iff, IHa, IHb. split.
    + intros []. by exists [], [].
    + intros (x & y & E & ? & ?). symmetry in E. apply app_nil in E as [-> ->]. done.
  - by rewrite orb_true_iff, IHa, IHb.
  - split; [constructor|done].
  - by rewrite andb_true_iff, IHa, IHb.
  - rewrite negb_true_iff, <- IHa. by rewrite not_true_iff_false.
Qed.

Lemma mk_seq_spec a b s : lang (mk_seq a b) s ↔ lang (RSeq a b) s.
Proof.
  destruct a; simpl; try done; split.
  - done.
  - naive_solver.
  - intros. by exists [], s.
  - by intros (x & y & -> & -> & ?).
Qed.

Lemma mk_alt_spec a b s : lang (mk_alt a b) s ↔ lang (RAlt a b) s.
Proof. destruct a, b; simpl; naive_solver. Qed.

Lemma star_cons_inv L c s :
  star L (c :: s) ↔ ∃ x y, s = x ++ y ∧ L (c :: x) ∧ star L y.
Proof.
  split.
  - intros H. remember (c :: s) as t eqn:E. revert c s E.
    induction H as [|x y Hx Hy IH]; intros c s E; [done|].
    destruct x as [|d x]; simpl in E; [by apply IH|]. simplify_eq. eauto.
  - intros (x & y & -> & ? & ?). by apply (star_app L (c :: x) y).
Qed.

Lemma deriv_spec c r s : lang (deriv c r) s ↔ lang r (c :: s).
Proof.
  revert s. induction r as [| |p|a IHa b IHb|a IHa b IHb|a IHa|a IHa b IHb|a IHa]; intros s;
    cbn [deriv].
  - done.
  - done.
  - simpl. destruct (p c) eqn:E; simpl; split.
    + intros ->. eauto.
    + by intros (d & [= -> ->] & _).
    + done.
    + intros (d & [= -> ->] & ?). congruence.
  - transitivity ((∃ x y, s = x ++ y ∧ lang a (c :: x) ∧ lang b y) ∨
                  (lang a [] ∧ lang b (c :: s))).
    + destruct (nullable a) eqn:E.
      * apply nullable_spec in E. rewrite mk_alt_spec. cbn [lang]. rewrite mk_seq_spec.
        cbn [lang]. setoid_rewrite IHa. rewrite IHb. naive_solver.
      * rewrite mk_seq_spec. cbn [lang]. setoid_rewrite IHa.
        assert (¬ lang a []) by (rewrite <- nullable_spec; congruence). naive_solver.
    + cbn [lang]. split.
      * intros [(x & y & -> & ? & ?)|[]]; [by exists (c :: x), y|by exists [], (c :: s)].
      * intros (x & y & E & ? & ?). destruct x as [|d x]; simpl in E; simplify_eq; [auto|].
        left. eauto.
  - rewrite mk_alt_spec. cbn [lang]. by rewrite IHa, IHb.
  - rewrite mk_seq_spec. cbn [lang]. setoid_rewrite IHa. by rewrite star_cons_inv.
  - cbn [lang]. by rewrite IHa, IHb.
  - cbn [lang]. by rewrite IHa.
Qed.

Lemma re_test_spec r s : re_test r s = true ↔ lang r s.
Proof.
  revert r. induction s as [|c s IH]; intros r; simpl.
  - apply nullable_spec.
  - by rewrite IH, deriv_spec.
Qed.

(** ** The derived forms, read back *)
Lemma lang_rupto p n s :
  lang (rupto (RCls p) n) s ↔ length s ≤ n ∧ Forall (λ c, p c = true) s.
Proof.
  revert s. induction n as [|n IH]; intros s; cbn [rupto lang].
  - split; [intros ->; simpl; split; [lia|constructor]|]. destruct s; simpl; [done|lia].
  - split.
    + intros [->|(x & y & -> & (c & -> & Hc) & Hy)]; [simpl; split; [lia|constructor]|].
      apply IH in Hy as [Hl Hy]. simpl. split; [lia|]. by constructor.
    + destruct s as [|c s]; simpl; [by left|]. intros [Hl Hs]. apply Forall_cons in Hs as [Hc Hs].
      right. exists [c], s. split_and!; [done|eauto|]. apply IH. split; [lia|done].
Qed.

Lemma lang_rtimes p n s :
  lang (rtimes (RCls p) n) s ↔ length s = n ∧ Forall (λ c, p c = true) s.
Proof.
  revert s. induction n as [|n IH]; intros s; cbn [rtimes lang].
  - split; [intros ->; split; [done|constructor]|]. intros [?%nil_length_inv _]. done.
  - split.
    + intros (x & y & -> & (c & -> & Hc) & Hy). apply IH in Hy as [Hl Hy]. simpl.
      split; [lia|]. by constructor.
    + destruct s as [|c s]; simpl; intros [Hl Hs]; [done|]. apply Forall_cons in Hs as [Hc Hs].
      exists [c], s. split_and!; [done|eauto|]. apply IH. split; [lia|done].
Qed.

Lemma lang_rlit w s : lang (rlit w) s ↔ s = w.
Proof.
  revert s. induction w as [|c w IH]; intros s; cbn [rlit lang]; [done|]. split.
  - intros (x & y & -> & (d & -> & <-%N.eqb_eq) & ->%IH). done.
  - intros ->. exists [c], w. split_and!; [done| |by apply IH].
    exists c. split; [done|]. apply N.eqb_refl.
Qed.

Lemma lang_rstar p s : lang (RStar (RCls p)) s ↔ Forall (λ c, p c = true) s.
Proof.
  cbn [lang]. split.
  - induction 1 as [|x y (c & -> & Hc) _ IH]; simpl; by constructor.
  - induction 1 as [|c s Hc _ IH]; [constructor|].
    apply (star_app _ [c] s); [eauto|done].
Qed.

Lemma lang_ch c s : lang (ch c) s ↔ s = [c].
Proof.
  simpl. split; [intros (d & -> & <-%N.eqb_eq); done|].
  intros ->. exists c. split; [done|]. apply N.eqb_refl.
Qed.

Lemma lang_rplus p s : lang (rplus (RCls p)) s ↔ s ≠ [] ∧ forallb p s = true.
Proof.
  unfold rplus. split.
  - intros (x & y & -> & (c & -> & Hc) & Hy%lang_rstar). split; [done|].
    simpl. rewrite Hc. apply forallb_forall_in. by apply Forall_forall.
  - destruct s as [|c s]; simpl; intros [Hne Hs]; [done|]. apply andb_true_iff in Hs as [Hc Hs].
    exists [c], s. split_and!; [done|by exists c|]. apply lang_rstar, Forall_forall.
    by apply forallb_forall_in.
Qed.

Lemma lang_ropt a s : lang (ropt a) s ↔ s = [] ∨ lang a s.
Proof. done. Qed.

Lemma lang_rdecimal s : lang rdecimal s ↔ isCanonicalDecimal s = true.
Proof.
  unfold rdecimal. split.
  - intros [->%lang_ch|(x & y & -> & (c & -> & Hc) & Hy%lang_rstar)]; [done|to_prop].
    simpl. destruct (N.eqb_spec c 48) as [->|]; [done|].
    rewrite andb_true_iff. split.
    + unfold is_digit. rewrite andb_true_iff, !N.leb_le in *. lia.
    + apply forallb_forall_in. intros. by rewrite Forall_forall in Hy; apply Hy.
  - destruct s as [|c s]; [done|]. simpl. destruct (N.eqb_spec c 48) as [->|].
    + destruct s; [|done]. intros _. left. by exists 48%N.
    + intros [Hc Hs]%andb_true_iff. right. exists [c], s. split_and!; [done| |].
      * exists c. split; [done|]. apply is_digit_spec in Hc.
        rewrite andb_true_iff, !N.leb_le. lia.
      * apply lang_rstar, Forall_forall. by apply forallb_forall_in.
Qed.
