(* ===== verification/JsValue.v ===== *)
(** * Untrusted JavaScript values and JSON data

    The kernel receives plugin data of type [unknown] and copies it into JSON
    before it trusts it. An untrusted value lives in a heap (objects are shared,
    may be cyclic, may have accessors, symbols, foreign prototypes); JSON data
    is a tree. [clone_boundary] is the copy three packages share. *)

From S2P Require Import Prelude JsString Collections.

(** ** Data *)

(** A double: an integer, a fraction [m / 2^e] with [m] odd, an infinity, NaN.
    The two zeros are one value: the kernel never tells them apart. *)
Inductive jsnum : Type :=
| NInt (z : Z)
| NFrac (m : Z) (e : positive)
| NInf (negative : bool)
| NNaN.

Definition isFinite (n : jsnum) : bool :=
  match n with NInt _ | NFrac _ _ => true | _ => false end.
(** [Number.isSafeInteger(n)], with the integer. *)
Definition safe_integer (n : jsnum) : option Z :=
  match n with NInt z => if isSafeInteger z then Some z else None | _ => None end.

Inductive json : Type :=
| JNull
| JBool (b : bool)
| JNum (n : jsnum)
| JStr (s : jstring)
| JArr (items : list json)
| JObj (fields : list (jstring * json)).

Abbreviation loc := positive.

Inductive jsval : Type :=
| VUndefined
| VNull
| VBool (b : bool)
| VNum (n : jsnum)
| VBigInt (z : Z)
| VStr (s : jstring)
| VSymbol (description : jstring)
| VRef (l : loc).

Inductive propkey : Type := KStr (s : jstring) | KSym (description : jstring).
#[export] Instance propkey_eq_dec : EqDecision propkey.
Proof. solve_decision. Defined.

(** A property descriptor: [value] is [None] for an accessor. *)
Record prop := { p_enumerable : bool; p_value : option jsval }.

Inductive objkind := OPlain | OArray (length : nat) | OFunction.
Inductive proto := ProtoObject | ProtoArray | ProtoNull | ProtoOther.

(** An object: its own properties in creation order; an array's own [length]
    is in its kind. *)
Record object := {
  o_kind : objkind;
  o_proto : proto;
  o_props : jsmap propkey prop;
}.
Abbreviation heap := (gmap loc object).

(** ** The boundary copy *)
Inductive fault :=
| FNotJson       (** not finite acyclic JSON data *)
| FArrayProto    (** an array without the standard prototype *)
| FArrayElement  (** a hole or an accessor in an array *)
| FArrayExtended (** an array with a further property *)
| FObjectProto   (** an object that is not plain *)
| FSymbol        (** a symbol property *)
| FField.        (** an accessor or a hidden field *)

Inductive clone_error := Fault (path : jstring) (f : fault) | OutOfFuel.

Definition at_key (path key : jstring) : jstring := path ++ js "/" ++ key.
Definition index_key (i : nat) : jstring := show_nat (Z.of_nat i).

Arguments at_key : simpl never.
Arguments index_key : simpl never.

(** [String(key)] *)
Definition key_string (k : propkey) : jstring :=
  match k with KStr s => s | KSym d => js "Symbol(" ++ d ++ js ")" end.

(** The descriptor is an enumerable data property. *)
Definition data_of (d : option prop) : option jsval :=
  match d with
  | Some p => if p_enumerable p then p_value p else None
  | None => None
  end.

(** A key of an array beyond its elements. *)
Definition extends_array (len : nat) (k : propkey) : bool :=
  match k with
  | KStr s => negb (isCanonicalDecimal s && (decimal_value s <? Z.of_nat len)%Z)
  | KSym _ => true
  end.

Definition sort_keys (keys : list propkey) : list propkey :=
  js_sort (λ a b, compareText (key_string a) (key_string b)) keys.

Fixpoint clone_boundary (fuel : nat) (h : heap) (v : jsval) (path : jstring)
    (ancestors : list loc) : result clone_error json :=
  match v with
  | VNull => Ok JNull
  | VBool b => Ok (JBool b)
  | VStr s => Ok (JStr s)
  | VNum n => if isFinite n then Ok (JNum n) else Err (Fault path FNotJson)
  | VUndefined | VBigInt _ | VSymbol _ => Err (Fault path FNotJson)
  | VRef l =>
      match fuel with
      | O => Err OutOfFuel
      | S fuel' =>
          match h !! l with
          | None => Err (Fault path FNotJson)
          | Some o =>
              match o_kind o with
              | OFunction => Err (Fault path FNotJson)
              | OArray len =>
                  throw_if (bool_decide (l ∈ ancestors)) (Fault path FNotJson);;
                  throw_if (negb match o_proto o with ProtoArray => true | _ => false end)
                    (Fault path FArrayProto);;
                  items ← mapM (λ i,
                    let p := at_key path (index_key i) in
                    match data_of (JsMap.get (o_props o) (KStr (index_key i))) with
                    | None => Err (Fault p FArrayElement)
                    | Some v' => clone_boundary fuel' h v' p (l :: ancestors)
                    end) (seq 0 len);
                  throw_if (existsb (extends_array len) (JsMap.keys (o_props o)))
                    (Fault path FArrayExtended);;
                  mret (JArr items)
              | OPlain =>
                  throw_if (bool_decide (l ∈ ancestors)) (Fault path FNotJson);;
                  throw_if (negb match o_proto o with ProtoObject | ProtoNull => true | _ => false end)
                    (Fault path FObjectProto);;
                  fields ← mapM (λ k,
                    match k with
                    | KSym _ => Err (Fault path FSymbol)
                    | KStr s =>
                        let p := at_key path s in
                        match data_of (JsMap.get (o_props o) k) with
                        | None => Err (Fault p FField)
                        | Some v' =>
                            j ← clone_boundary fuel' h v' p (l :: ancestors);
                            mret (s, j)
                        end
                    end) (sort_keys (JsMap.keys (o_props o)));
                  mret (JObj fields)
              end
          end
      end
  end.

(** The copy of a value of heap [h]: the ancestors of a call are distinct
    objects of [h], so [size h] nested calls are enough. *)
Definition clone (h : heap) (v : jsval) : result clone_error json :=
  clone_boundary (S (size h)) h v (js "$") [].

(** ** The specification of the copy

    [reads h v j]: the value [v] is plain finite JSON data and [j] is that data,
    the fields of every object in code-unit order of their names. *)
Inductive reads (h : heap) : jsval → json → Prop :=
| reads_null : reads h VNull JNull
| reads_bool b : reads h (VBool b) (JBool b)
| reads_str s : reads h (VStr s) (JStr s)
| reads_num n : isFinite n = true → reads h (VNum n) (JNum n)
| reads_arr l o len items :
    h !! l = Some o → o_kind o = OArray len → o_proto o = ProtoArray →
    existsb (extends_array len) (JsMap.keys (o_props o)) = false →
    Forall2 (λ i j, ∃ v, data_of (JsMap.get (o_props o) (KStr (index_key i))) = Some v ∧
                         reads h v j) (seq 0 len) items →
    reads h (VRef l) (JArr items)
| reads_obj l o fields :
    h !! l = Some o → o_kind o = OPlain → o_proto o = ProtoObject ∨ o_proto o = ProtoNull →
    Forall2 (λ k f, ∃ v, k = KStr f.1 ∧ data_of (JsMap.get (o_props o) k) = Some v ∧
                         reads h v f.2) (sort_keys (JsMap.keys (o_props o))) fields →
    reads h (VRef l) (JObj fields).

Fixpoint json_size (j : json) : nat :=
  match j with
  | JArr items => S (sum_list (map json_size items))
  | JObj fields => S (sum_list (map (λ f, json_size f.2) fields))
  | _ => 1
  end.

Lemma sum_list_map_le {A} (f : A → nat) l x : x ∈ l → f x ≤ sum_list (map f l).
Proof. induction 1; simpl; lia. Qed.

Lemma Forall2_functional {A B} (P : A → B → Prop) l k k' :
  (∀ x y y', y ∈ k → P x y → P x y' → y = y') → Forall2 P l k → Forall2 P l k' → k = k'.
Proof.
  intros Hf H. revert k' Hf. induction H as [|x y l k Hxy H IH]; intros k' Hf H'.
  - by inversion H'.
  - inversion H' as [|? y' ? k'' Hxy' H'']; subst. f_equal.
    + apply (Hf x); [left|done|done].
    + apply IH; [|done]. intros ?????. eapply Hf; [by right|done..].
Qed.

Lemma reads_functional h v j j' : reads h v j → reads h v j' → j = j'.
Proof.
  revert v j'. induction (Nat.lt_wf_0_projected json_size j) as [j _ IH].
  intros v j' H. destruct H as [| | | |l o len items Hl Hk Hp He HF|l o fields Hl Hk Hp HF];
    intros H'; inversion H' as [| | | |? o' len' items' Hl' Hk' Hp' He' HF'
                               |? o' fields' Hl' Hk' Hp' HF']; simplify_eq; try congruence; f_equal.
  - assert (len' = len) as -> by congruence.
    eapply Forall2_functional; [|exact HF|exact HF'].
    intros i y y' Hy (w & Hw & Hr) (w' & Hw' & Hr'). simplify_eq.
    eapply IH; [|exact Hr|exact Hr']. simpl. pose proof (sum_list_map_le json_size _ _ Hy). lia.
  - eapply Forall2_functional; [|exact HF|exact HF'].
    intros i [s y] [s' y'] Hy (w & -> & Hw & Hr) (w' & Hs & Hw' & Hr'). simpl in *. simplify_eq.
    f_equal. eapply IH; [|exact Hr|exact Hr']. simpl.
    pose proof (sum_list_map_le (λ f, json_size f.2) _ _ Hy). simpl in *. lia.
Qed.

(** A copy that returns is the data of the value. *)
Lemma clone_boundary_reads fuel h v path anc j :
  clone_boundary fuel h v path anc = Ok j → reads h v j.
Proof.
  revert v path anc j. induction fuel as [|fuel IH]; intros v path anc j; simpl;
    destruct v as [| |b|n|z|s|d|l]; intros H; try discriminate;
    try (injection H as <-; constructor);
    try (destruct (isFinite n) eqn:E; [injection H as <-; by constructor|discriminate]).
  destruct (h !! l) as [o|] eqn:Hl; [|discriminate].
  destruct (o_kind o) as [|len|] eqn:Hk; [| |discriminate].
  - apply bind_ok in H as (? & _ & H). apply bind_ok in H as (? & Hp%throw_if_ok & H).
    apply bind_ok in H as (fields & HF%mapM_ok & H). injection H as <-.
    apply (reads_obj _ _ o); [done|done| |].
    + destruct (o_proto o); try discriminate; auto.
    + eapply Forall2_impl; [exact HF|]. intros [s|d] [s' y]; simpl; [|done].
      destruct (data_of _) as [w|]; [|done]. intros (y' & Hy & [= <- <-])%bind_ok.
      exists w. split_and!; [done..|]. by eapply IH.
  - apply bind_ok in H as (? & _ & H). apply bind_ok in H as (? & Hp%throw_if_ok & H).
    apply bind_ok in H as (items & HF%mapM_ok & H).
    apply bind_ok in H as (? & He%throw_if_ok & H). injection H as <-.
    apply (reads_arr _ _ o len); [done|done| |done|].
    + by destruct (o_proto o).
    + eapply Forall2_impl; [exact HF|]. simpl. intros i y.
      destruct (data_of _) as [w|]; [|done]. eauto.
Qed.

(** Plain data is copied, whatever the path and the (larger) ancestors. *)
Lemma reads_clone_boundary fuel h v path anc j :
  reads h v j →
  (∀ a, a ∈ anc → ∃ ja, reads h (VRef a) ja ∧ json_size j < json_size ja) →
  clone_boundary fuel h v path anc = Ok j ∨ clone_boundary fuel h v path anc = Err OutOfFuel.
Proof.
  revert v path anc j. induction fuel as [|fuel IH]; intros v path anc j Hr Hanc.
  { destruct Hr; simpl; auto. rewrite H. auto. }
  assert (∀ l, v = VRef l → bool_decide (l ∈ anc) = false) as Hfresh.
  { intros l ->. apply bool_decide_eq_false. intros Hin. destruct (Hanc _ Hin) as (ja & Hja & ?).
    rewrite (reads_functional _ _ _ _ Hr Hja) in *. lia. }
  destruct Hr as [| | |n Hn|l o len items Hl Hk Hp He HF|l o fields Hl Hk Hp HF];
    simpl; rewrite ?Hn; auto; rewrite Hl, Hk, (Hfresh _ eq_refl); cbn.
  - rewrite Hp. cbn.
    match goal with |- context [mapM ?f ?l] =>
      enough (mapM f l = Ok items ∨ mapM f l = Err OutOfFuel) as [E|E];
        [rewrite E; cbn; rewrite ?He; by auto..|apply (mapM_ok_or _ _ _ _ _ HF)]
    end.
    intros i y _ Hy (w & E & Hw). cbv beta zeta. rewrite E. apply IH; [done|]. pose proof (sum_list_map_le json_size _ _ Hy).
    intros a [->|Hin]%elem_of_cons.
    + eexists. split; [by econstructor|]. simpl. lia.
    + destruct (Hanc _ Hin) as (ja & ? & Hlt). exists ja. split; [done|]. simpl in Hlt. lia.
  - assert (negb match o_proto o with ProtoObject | ProtoNull => true | _ => false end = false)
      as -> by (destruct Hp as [-> | ->]; done). cbn.
    match goal with |- context [mapM ?f ?l] =>
      enough (mapM f l = Ok fields ∨ mapM f l = Err OutOfFuel) as [E|E];
        [rewrite E; cbn; by auto..|apply (mapM_ok_or _ _ _ _ _ HF)]
    end.
    intros k [s y] _ Hy (w & -> & E & Hw). cbv beta zeta iota. simpl in *. rewrite E.
    pose proof (sum_list_map_le (λ f, json_size f.2) _ _ Hy). simpl in *.
    destruct (IH w (at_key path s) (l :: anc) y Hw) as [-> | ->]; [|by left|by right].
    intros a [->|Hin]%elem_of_cons.
    + eexists. split; [by eapply reads_obj|]. simpl. lia.
    + destruct (Hanc _ Hin) as (ja & ? & Hlt). exists ja. split; [done|]. lia.
Qed.

(** The fuel is enough: a nested call has one more ancestor, all distinct. *)
Lemma clone_boundary_fuel fuel h v path anc :
  NoDup anc → (∀ a, a ∈ anc → is_Some (h !! a)) → size h < fuel + length anc →
  clone_boundary fuel h v path anc ≠ Err OutOfFuel.
Proof.
  revert v path anc. induction fuel as [|fuel IH]; intros v path anc Hnd Hdom Hsz.
  { exfalso. assert (length anc ≤ size h); [|lia].
    rewrite <- (size_dom (D := gset loc) h), <- (size_list_to_set (C := gset loc)) by done.
    apply subseteq_size. intros a Ha%elem_of_list_to_set. by apply elem_of_dom, Hdom. }
  destruct v as [| |b|n|z|s|d|l]; cbn [clone_boundary]; try done; [by destruct (isFinite n)|].
  destruct (h !! l) as [o|] eqn:Hl; [|done].
  assert (∀ w p, l ∉ anc → clone_boundary fuel h w p (l :: anc) ≠ Err OutOfFuel) as Hrec.
  { intros w p Hin. apply IH; [by constructor| |simpl; lia].
    intros a [->|]%elem_of_cons; [by rewrite Hl|auto]. }
  destruct (o_kind o) as [|len|]; [| |done];
    intros [[_ [=]]%throw_if_err|(u & Hin%throw_if_ok & H)]%bind_err; to_prop;
    apply bind_err in H as [[_ [=]]%throw_if_err|(u' & _ & H)];
    apply bind_err in H as [(k & _ & Hk)%mapM_err|(r & _ & H)].
  - destruct k as [s|]; [|done]. cbv zeta in Hk. destruct (data_of _); [|done].
    apply bind_err in Hk as [Hk|(? & _ & ?)]; [by eapply Hrec|done].
  - done.
  - cbv zeta in Hk. destruct (data_of _); [|done]. by eapply Hrec.
  - by apply bind_err in H as [[_ [=]]%throw_if_err|(? & _ & H)].
Qed.

Lemma clone_terminates h v : clone h v ≠ Err OutOfFuel.
Proof. apply clone_boundary_fuel; [constructor|by intros ? ?%elem_of_nil|simpl; lia]. Qed.

Lemma clone_reads h v j : clone h v = Ok j ↔ reads h v j.
Proof.
  split; [apply clone_boundary_reads|]. intros Hr. unfold clone.
  destruct (reads_clone_boundary (S (size h)) h v (js "$") [] j Hr) as [|E]; [|done|].
  - by intros ? ?%elem_of_nil.
  - by apply clone_terminates in E.
Qed.

(** The boundary copy is exact: it always returns, it succeeds precisely on
    plain finite acyclic JSON data, and its result is that data. *)
Theorem clone_exact (h : heap) (v : jsval) :
  clone h v ≠ Err OutOfFuel ∧ (∀ j, clone h v = Ok j ↔ reads h v j).
Proof. split; [apply clone_terminates|]. intros j. apply clone_reads. Qed.
