(* ===== verification/Identity.v ===== *)
(** * Identities and portable strings

    contracts/src/identity.ts, the activation parser of reconcile/plan.ts, and
    the portable state strings of contracts/src/state.ts. *)

From S2P Require Import Prelude JsString Collections Regex JsValue.

(** What the code throws: a diagnostic, by its code, or a built-in error. *)
Inductive exn : Type :=
| DiagnosticError (code : String.string)
| RangeError
| TypeError
| PlainError.
Arguments DiagnosticError code%_string_scope.
#[export] Instance exn_eq_dec : EqDecision exn.
Proof. solve_decision. Defined.

(** ** Patterns *)
Definition portable_char (c : N) : bool :=
  is_alnum c || (c =? 46)%N || (c =? 95)%N || (c =? 45)%N.       (* [A-Za-z0-9._-] *)

Definition IDENTITY_PATTERN : regex := RSeq (RCls is_alnum) (rupto (RCls portable_char) 127).

Definition executor_char (c : N) : bool := portable_char c || (c =? 58)%N || (c =? 47)%N.
Definition dot_segment : regex :=
  RSeq (RAlt REps (RSeq (RStar rdot) (ch 47)))
    (RSeq (RSeq (ch 46) (ropt (ch 46))) (RAlt REps (RSeq (ch 47) (RStar rany)))).
Definition EXECUTOR_ID_PATTERN : regex :=
  RAnd (RNot dot_segment)
    (RSeq (RCls is_alnum)
       (ropt (RSeq (rupto (RCls executor_char) 126) (RCls portable_char)))).

Definition DECIMAL_PATTERN : regex := rdecimal.
Definition SHA256_PATTERN : regex :=
  RSeq (rlit (js "sha256:"))
    (rtimes (RCls (λ c, is_digit c || ((97 <=? c) && (c <=? 102))%N)) 64).
Definition UINT64_MAX : jstring := js "18446744073709551615".

Definition invalidIdentity : exn := DiagnosticError "PROTOCOL_IDENTITY_INVALID".

(** ** Parsers: the value itself, or an error *)
Definition parseIdentity (value : jsval) : result exn jstring :=
  match value with
  | VStr s => if re_test IDENTITY_PATTERN s then Ok s else Err invalidIdentity
  | _ => Err invalidIdentity
  end.

Definition parseDecimalIdentity (value : jsval) : result exn jstring :=
  match value with
  | VStr s => if re_test DECIMAL_PATTERN s then Ok s else Err invalidIdentity
  | _ => Err invalidIdentity
  end.

Definition parseRuntimeId := parseIdentity.
Definition parseApplicationId := parseIdentity.
Definition parseNodeId := parseIdentity.
Definition parsePluginId := parseIdentity.
Definition parseComponentId := parseIdentity.
Definition parseComponentInstanceId := parseIdentity.
Definition parseOperationId := parseIdentity.
Definition parseTaskId := parseIdentity.
Definition parseAttemptId := parseIdentity.
Definition parseWorkerId := parseIdentity.
Definition parseSessionId := parseIdentity.
Definition parseMessageId := parseIdentity.
Definition parseCapabilityName := parseIdentity.
Definition parseRevision := parseDecimalIdentity.
Definition parseSequence := parseDecimalIdentity.
Definition parseFencingEpoch := parseDecimalIdentity.

Definition parseExecutorId (value : jsval) : result exn jstring :=
  match value with
  | VStr s => if re_test EXECUTOR_ID_PATTERN s then Ok s else Err invalidIdentity
  | _ => Err invalidIdentity
  end.

Definition parseArtifactDigest (value : jsval) : result exn jstring :=
  match value with
  | VStr s => if re_test SHA256_PATTERN s then Ok s else Err invalidIdentity
  | _ => Err invalidIdentity
  end.

(** The textual comparison with the largest 64-bit number. *)
Definition exceeds_uint64 (s : jstring) : bool :=
  (length UINT64_MAX <? length s)%nat ||
  ((length s =? length UINT64_MAX)%nat && str_ltb UINT64_MAX s).

Definition parseGeneration (value : jsval) : result exn jstring :=
  generation ← parseDecimalIdentity value;
  throw_if (exceeds_uint64 generation) invalidIdentity;;
  mret generation.

(** reconcile/plan.ts *)
Definition parseActivation (value : jsval) : result exn jstring :=
  match value with
  | VStr s =>
      if negb (re_test DECIMAL_PATTERN s) || exceeds_uint64 s
      then Err (DiagnosticError "ACTIVATION_INVALID") else Ok s
  | _ => Err (DiagnosticError "ACTIVATION_INVALID")
  end.

(** ** Portable state strings *)
Definition is_lead (c : N) : bool := ((55296 <=? c) && (c <=? 56319))%N.
Definition is_trail (c : N) : bool := ((56320 <=? c) && (c <=? 57343))%N.

Fixpoint isPortableStateString (value : jstring) : bool :=
  match value with
  | [] => true
  | codeUnit :: rest =>
      if (codeUnit =? 0)%N then false
      else if is_lead codeUnit then
        match rest with
        | trailing :: rest' => if is_trail trailing then isPortableStateString rest' else false
        | [] => false
        end
      else if is_trail codeUnit then false
      else isPortableStateString rest
  end.

(** The key two SQL drivers store beside a string: its code units, big end first. *)
Definition stateStringOrderKey (value : jstring) : result exn (list N) :=
  throw_if (negb (isPortableStateString value)) TypeError;;
  mret (concat (map (λ codeUnit, [N.shiftr codeUnit 8; N.land codeUnit 255]) value)).

(** ** Laws of the patterns *)
Lemma DECIMAL_PATTERN_spec s : re_test DECIMAL_PATTERN s = isCanonicalDecimal s.
Proof. apply eq_iff_eq_true. rewrite re_test_spec. apply lang_rdecimal. Qed.

Lemma IDENTITY_PATTERN_spec s :
  re_test IDENTITY_PATTERN s = true ↔
  ∃ c s', s = c :: s' ∧ is_alnum c = true ∧ length s' ≤ 127 ∧
          Forall (λ c, portable_char c = true) s'.
Proof.
  rewrite re_test_spec. unfold IDENTITY_PATTERN. cbn [lang]. setoid_rewrite lang_rupto. split.
  - intros (x & s' & -> & (c & -> & Hc) & ?). naive_solver.
  - intros (c & s' & -> & ? & ?). exists [c], s'. naive_solver.
Qed.

Local Ltac solve_parse :=
  case_match; (split; [intros ?; simplify_eq; auto|intros [? ?]; simplify_eq; congruence]).

Lemma parseIdentity_ok v s :
  parseIdentity v = Ok s ↔ v = VStr s ∧ re_test IDENTITY_PATTERN s = true.
Proof. destruct v; simpl; try naive_solver. solve_parse. Qed.

Lemma parseDecimalIdentity_ok v s :
  parseDecimalIdentity v = Ok s ↔ v = VStr s ∧ isCanonicalDecimal s = true.
Proof.
  destruct v; simpl; try naive_solver. rewrite DECIMAL_PATTERN_spec. solve_parse.
Qed.

(** The length-then-text test is the numeric one. *)
Lemma exceeds_uint64_spec s :
  isCanonicalDecimal s = true → exceeds_uint64 s = negb (decimal_value s <? 2 ^ 64)%Z.
Proof.
  intros Hs. assert (isCanonicalDecimal UINT64_MAX = true) as HM by done.
  assert (2 ^ 64 = decimal_value UINT64_MAX + 1)%Z as -> by done.
  unfold exceeds_uint64. apply eq_iff_eq_true.
  rewrite orb_true_iff, andb_true_iff, negb_true_iff, Nat.ltb_lt, Nat.eqb_eq, Z.ltb_ge.
  destruct (Nat.lt_trichotomy (length s) (length UINT64_MAX)) as [H|[H|H]].
  - pose proof (canonical_length_lt _ _ Hs HM H). lia.
  - rewrite canonical_ltb_value by done. lia.
  - pose proof (canonical_length_lt _ _ HM Hs H). lia.
Qed.

Lemma parseGeneration_ok v s :
  parseGeneration v = Ok s ↔
  v = VStr s ∧ isCanonicalDecimal s = true ∧ (decimal_value s < 2 ^ 64)%Z.
Proof.
  unfold parseGeneration. rewrite bind_ok. setoid_rewrite bind_ok.
  setoid_rewrite parseDecimalIdentity_ok. setoid_rewrite throw_if_ok. split.
  - intros (a & [-> Ha] & [] & He & [= ->]). rewrite exceeds_uint64_spec in He by done.
    to_prop. naive_solver.
  - intros (-> & Hs & Hlt). exists s. split; [done|]. exists tt. split; [|done].
    rewrite exceeds_uint64_spec by done. apply negb_false_iff, Z.ltb_lt. lia.
Qed.

Lemma parseActivation_ok v s :
  parseActivation v = Ok s ↔
  v = VStr s ∧ isCanonicalDecimal s = true ∧ (decimal_value s < 2 ^ 64)%Z.
Proof.
  destruct v as [| | | | |t| |]; simpl; try naive_solver. rewrite DECIMAL_PATTERN_spec.
  destruct (isCanonicalDecimal t) eqn:E; simpl.
  - rewrite exceeds_uint64_spec by done.
    destruct (Z.ltb_spec (decimal_value t) (2 ^ 64)); simpl;
      (split; [intros ?|intros (? & ? & ?)]; simplify_eq; auto; lia).
  - split; [done|]. intros (? & ? & ?). simplify_eq. congruence.
Qed.
#[export] Hint Rewrite parseIdentity_ok parseDecimalIdentity_ok parseGeneration_ok
  parseActivation_ok : tego.

(** ** Lemmas on segments and on the order key *)
Lemma executor_chars t :
  lang (RSeq (RCls is_alnum)
       (ropt (RSeq (rupto (RCls executor_char) 126) (RCls portable_char)))) t →
  Forall (λ c, executor_char c = true) t.
Proof.
  assert (∀ c, portable_char c = true → executor_char c = true) as Hp.
  { intros c Hc. unfold executor_char. by rewrite Hc. }
  intros (x & y & -> & (c & -> & Hc) & Hy). simpl. constructor.
  { apply Hp. unfold portable_char. by rewrite Hc. }
  destruct Hy as [->|(z & w & -> & [_ Hz]%lang_rupto & (d & -> & Hd))]; [done|].
  apply Forall_app. split; [done|]. by repeat constructor; apply Hp.
Qed.

Lemma executor_char_dot c :
  executor_char c = true → negb (existsb (N.eqb c) [10; 13; 8232; 8233]%N) = true.
Proof.
  intros Hc. apply negb_true_iff, existsb_false_in. intros d Hd.
  apply N.eqb_neq. intros ->.
  repeat (apply elem_of_cons in Hd as [->|Hd]; [vm_compute in Hc; done|]).
  by apply elem_of_nil in Hd.
Qed.

(** A [.] or [..] between slashes is what the lookahead rejects. *)
Lemma dot_segment_hit pre w post :
  Forall (λ d, negb (existsb (N.eqb d) [10; 13; 8232; 8233]%N) = true) pre →
  (pre = [] ∨ ∃ p, pre = p ++ [47%N]) → (post = [] ∨ ∃ q, post = 47%N :: q) →
  w = js "." ∨ w = js ".." → lang dot_segment (pre ++ w ++ post).
Proof.
  intros Hdot Hpre Hpost Hw. exists pre, (w ++ post). split_and!; [done| |].
  - destruct Hpre as [->|[p ->]]; [by left|right]. exists p, [47%N].
    split_and!; [done| |by exists 47%N]. apply lang_rstar.
    by apply Forall_app in Hdot as [? _].
  - exists w, post. split_and!; [done| |].
    + destruct Hw as [-> | ->]; [exists [46%N], []|exists [46%N], [46%N]];
        (split_and!; [done|by exists 46%N|]); [by left|right; by exists 46%N].
    + destruct Hpost as [->|[q ->]]; [by left|right]. exists [47%N], q.
      split_and!; [done|by exists 47%N|]. by apply lang_rstar, Forall_true.
Qed.

Lemma order_byte_pair c : (c < 65536)%N →
  (N.shiftr c 8 < 256 ∧ N.land c 255 < 256 ∧ c = N.shiftr c 8 * 256 + N.land c 255)%N.
Proof.
  intros Hc. rewrite N.shiftr_div_pow2. change 255%N with (N.ones 8). rewrite N.land_ones.
  change (2 ^ 8)%N with 256%N. pose proof (N.mod_lt c 256). pose proof (N.div_mod c 256).
  split_and!; [apply N.Div0.div_lt_upper_bound; lia|lia|lia].
Qed.

Definition order_bytes (s : jstring) : jstring :=
  concat (map (λ codeUnit, [N.shiftr codeUnit 8; N.land codeUnit 255]) s).

Lemma order_bytes_ltb a b :
  Forall (λ c, (c < 65536)%N) a → Forall (λ c, (c < 65536)%N) b →
  str_ltb (order_bytes a) (order_bytes b) = str_ltb a b.
Proof.
  intros Ha. revert b. induction Ha as [|x a Hx Ha IH]; intros ? Hb;
    destruct Hb as [|y b Hy Hb]; try done.
  change (order_bytes (x :: a)) with (N.shiftr x 8 :: N.land x 255 :: order_bytes a).
  change (order_bytes (y :: b)) with (N.shiftr y 8 :: N.land y 255 :: order_bytes b).
  cbn [str_ltb]. rewrite IH by done.
  destruct (order_byte_pair x Hx) as (? & ? & ?), (order_byte_pair y Hy) as (? & ? & ?).
  destruct (N.ltb_spec (N.shiftr x 8) (N.shiftr y 8)),
    (N.ltb_spec (N.shiftr y 8) (N.shiftr x 8)),
    (N.ltb_spec (N.land x 255) (N.land y 255)), (N.ltb_spec (N.land y 255) (N.land x 255)),
    (N.ltb_spec x y), (N.ltb_spec y x); done || lia.
Qed.

Lemma order_bytes_range s :
  Forall (λ c, (c < 65536)%N) s → Forall (λ byte, (byte < 256)%N) (order_bytes s).
Proof.
  induction 1 as [|x s Hx Hs IH]; [constructor|].
  destruct (order_byte_pair x Hx) as (? & ? & _). by repeat constructor.
Qed.

(** ** What the parsers guarantee *)

(** [parseGeneration] accepts exactly the canonical decimal numerals below
    [2^64], and returns them unchanged: comparing the lengths and then the texts
    with the largest numeral is the numeric bound. *)
Theorem parseGeneration_exact (s : jstring) :
  parseGeneration (VStr s) = Ok s ↔
  isCanonicalDecimal s = true ∧ (0 ≤ decimal_value s < 2 ^ 64)%Z.
Proof.
  rewrite parseGeneration_ok. split.
  - intros (_ & ? & ?). auto using decimal_value_nonneg.
  - intros (? & ? & ?). done.
Qed.

(** An accepted executor identity has no [.] or [..] segment: it cannot
    climb out of a directory when it is used as a path. *)
Theorem parseExecutorId_no_dot_segment (v : jsval) (s w : jstring) :
  parseExecutorId v = Ok s → w ∈ splitc 47 s → w ≠ js "." ∧ w ≠ js "..".
Proof.
  intros Hp (pre & post & -> & Hpre & Hpost)%splitc_segment.
  assert (∃ t, v = VStr t ∧ re_test EXECUTOR_ID_PATTERN t = true ∧ t = pre ++ w ++ post)
    as (t & -> & [Hnot Hchars]%re_test_spec & ->).
  { destruct v as [| | | | |t| |]; simpl in Hp; try discriminate.
    destruct (re_test _ t) eqn:E; naive_solver. }
  assert (Forall (λ d, negb (existsb (N.eqb d) [10; 13; 8232; 8233]%N) = true) pre) as Hdot.
  { apply executor_chars, Forall_app in Hchars as [Hchars _].
    eapply Forall_impl; [exact Hchars|]. exact executor_char_dot. }
  split; intros ->; apply Hnot, dot_segment_hit; auto.
Qed.

Example parseExecutorId_no_dot_segment_witness :
  js "pool" ≠ js "." ∧ js "pool" ≠ js "..".
Proof.
  apply (parseExecutorId_no_dot_segment (VStr (js "local/pool")) (js "local/pool")).
  - vm_compute. reflexivity.
  - apply (bool_decide_unpack _). vm_compute. exact I.
Defined.

(** Code units are 16-bit. *)
Definition units (s : jstring) : Prop := Forall (λ c, (c < 65536)%N) s.

(** The byte key the SQL drivers store orders two portable strings exactly
    as JavaScript compares them, so a database scan in key order visits the
    identifiers in the order the in-memory store does. *)
Theorem stateStringOrderKey_order (a b ka kb : jstring) :
  units a → units b →
  stateStringOrderKey a = Ok ka → stateStringOrderKey b = Ok kb →
  compareText ka kb = compareText a b ∧ Forall (λ byte, (byte < 256)%N) ka.
Proof.
  intros Ha Hb Hka Hkb. unfold stateStringOrderKey in *.
  apply bind_ok in Hka as (? & _ & [= <-]). apply bind_ok in Hkb as (? & _ & [= <-]).
  fold (order_bytes a) (order_bytes b).
  split; [|by apply order_bytes_range]. unfold compareText. by rewrite !order_bytes_ltb.
Qed.

Example stateStringOrderKey_order_witness :
  compareText [0; 97; 1; 0]%N [0; 98]%N = compareText [97; 256]%N [98]%N ∧
  Forall (λ byte, (byte < 256)%N) [0; 97; 1; 0]%N.
Proof.
  apply (stateStringOrderKey_order [97; 256]%N [98]%N);
    [repeat constructor..|reflexivity|reflexivity].
Defined.
