(* ===== verification/Version.v ===== *)
(** * Versions and version ranges

    runtime/src/capabilities/version.ts: parsing, precedence, comparators,
    ranges. A core number of a parsed version is a safe integer, so its
    arithmetic is exact and [Number] of a longer numeral is out of range however
    it rounds. *)

From S2P Require Import Prelude JsString Collections Regex.

(** ** Data *)
Record Version := {
  major : Z;
  minor : Z;
  patch : Z;
  prerelease : list jstring;
}.
#[export] Instance Version_eq_dec : EqDecision Version.
Proof. solve_decision. Defined.

Record RangeVersion := {
  any : bool;
  precision : nat;
  version : Version;
  wildcard : bool;
}.

Definition stableVersion (major minor patch : Z) : Version :=
  {| major := major; minor := minor; patch := patch; prerelease := [] |}.

(** ** Parsing *)
Definition identifier_char (c : N) : bool := is_alnum c || (c =? 45)%N.      (* [0-9A-Za-z-] *)
Definition IDENTIFIERS : regex :=
  RSeq (rplus (RCls identifier_char)) (RStar (RSeq (ch 46) (rplus (RCls identifier_char)))).
Definition VERSION_PATTERN : regex :=
  RSeq rdecimal (RSeq (ch 46) (RSeq rdecimal (RSeq (ch 46) (RSeq rdecimal
    (RSeq (ropt (RSeq (ch 45) IDENTIFIERS)) (ropt (RSeq (ch 43) IDENTIFIERS))))))).

(** The text before the first [c], and the text after it. *)
Fixpoint cut (c : N) (s : jstring) : jstring * option jstring :=
  match s with
  | [] => ([], None)
  | x :: s' =>
      if (x =? c)%N then ([], Some s')
      else let '(before, after) := cut c s' in (x :: before, after)
  end.

Definition identifiers (s : jstring) : bool :=
  forallb (λ w, negb (streq w []) && forallb identifier_char w) (splitc 46 s).

(** [VERSION_PATTERN.exec]: the groups 1 to 4. A dash or a plus cannot occur in
    the core, nor a plus in a prerelease, so the first ones delimit them
    ([version_exec_spec]). *)
Definition version_exec (value : jstring)
  : option (jstring * jstring * jstring * option jstring) :=
  let '(main, build) := cut 43 value in
  let '(core, pre) := cut 45 main in
  match splitc 46 core with
  | [a; b; c] =>
      if isCanonicalDecimal a && isCanonicalDecimal b && isCanonicalDecimal c &&
         match pre with Some p => identifiers p | None => true end &&
         match build with Some b => identifiers b | None => true end
      then Some (a, b, c, pre) else None
  | _ => None
  end.

Definition parseVersion (value : jstring) : option Version :=
  match version_exec value with
  | None => None
  | Some (m1, m2, m3, m4) =>
      let major := decimal_value m1 in
      let minor := decimal_value m2 in
      let patch := decimal_value m3 in
      if negb (forallb isSafeInteger [major; minor; patch]) then None else
      let prerelease := match m4 with Some p => splitc 46 p | None => [] end in
      if existsb (λ identifier, (length identifier =? 0)%nat ||
                   (isDigits identifier && negb (isCanonicalDecimal identifier))) prerelease
      then None
      else Some {| major := major; minor := minor; patch := patch; prerelease := prerelease |}
  end.

Definition isWildcard (part : jstring) : bool :=
  streq part (js "*") || streq (toLowerCase part) (js "x").

(** The loop over [parts.entries()]. *)
Fixpoint range_parts (index : nat) (wildcardIndex : option nat) (numbers : list Z)
    (parts : list jstring) : option (option nat * list Z) :=
  match parts with
  | [] => Some (wildcardIndex, numbers)
  | part :: rest =>
      if isWildcard part then
        if (index =? 0)%nat then None else
        if existsb (λ nested, negb (isWildcard nested)) rest then None
        else range_parts (S index)
               (match wildcardIndex with Some w => Some w | None => Some index end)
               (numbers ++ [0%Z]) rest
      else if match wildcardIndex with Some _ => true | None => false end
              || negb (isCanonicalDecimal part) then None
      else let number := decimal_value part in
           if negb (isSafeInteger number) then None
           else range_parts (S index) wildcardIndex (numbers ++ [number]) rest
  end.

Definition parseRangeVersion (value : jstring) : option RangeVersion :=
  if isWildcard value then
    Some {| any := true; precision := 0; version := stableVersion 0 0 0; wildcard := true |}
  else
  match parseVersion value with
  | Some exact => Some {| any := false; precision := 3; version := exact; wildcard := false |}
  | None =>
      let parts := splitc 46 value in
      if (length parts <? 1)%nat || (3 <? length parts)%nat then None else
      match range_parts 0 None [] parts with
      | None => None
      | Some (wildcardIndex, numbers) =>
          let number i := match numbers !! i with Some n => n | None => 0%Z end in
          Some {| any := false;
                  precision := match wildcardIndex with Some w => w | None => length parts end;
                  version := stableVersion (number 0) (number 1) (number 2);
                  wildcard := match wildcardIndex with Some _ => true | None => false end |}
      end
  end.

(** ** Precedence *)
Fixpoint stripZeros (s : jstring) : jstring :=
  match s with
  | c :: s' => if (c =? 48)%N then stripZeros s' else s
  | [] => []
  end.

Definition compareNumericIdentifier (left right : jstring) : Z :=
  let normalize s := match stripZeros s with [] => js "0" | t => t end in
  let normalizedLeft := normalize left in
  let normalizedRight := normalize right in
  or_else (Z.of_nat (length normalizedLeft) - Z.of_nat (length normalizedRight))
    (compareText normalizedLeft normalizedRight).

(** The loop over the identifiers of two prereleases. *)
Fixpoint compare_identifiers (left right : list jstring) : Z :=
  match left, right with
  | [], [] => 0
  | [], _ :: _ => -1
  | _ :: _, [] => 1
  | l :: left', r :: right' =>
      if streq l r then compare_identifiers left' right'
      else if isDigits l && isDigits r then compareNumericIdentifier l r
      else if isDigits l then -1
      else if isDigits r then 1
      else if str_ltb l r then -1 else 1
  end.

Definition compareVersion (left right : Version) : Z :=
  let core := or_else (or_else (major left - major right) (minor left - minor right))
                (patch left - patch right) in
  if negb (core =? 0)%Z then core else
  match prerelease left, prerelease right with
  | [], [] => 0
  | [], _ :: _ => 1
  | _ :: _, [] => -1
  | _, _ => compare_identifiers (prerelease left) (prerelease right)
  end.

(** ** Bounds *)
Definition increment (value : Z) : option Z :=
  let next := (value + 1)%Z in if isSafeInteger next then Some next else None.

Definition partialUpperBound (target : RangeVersion) : option Version :=
  if any target then None
  else if (precision target <=? 1)%nat then
    major' ← increment (major (version target)); Some (stableVersion major' 0 0)
  else
    minor' ← increment (minor (version target));
    Some (stableVersion (major (version target)) minor' 0).

Definition caretUpperBound (target : RangeVersion) : option Version :=
  if any target then None
  else if (precision target =? 1)%nat || (0 <? major (version target))%Z then
    major' ← increment (major (version target)); Some (stableVersion major' 0 0)
  else if (precision target =? 2)%nat || (0 <? minor (version target))%Z then
    minor' ← increment (minor (version target)); Some (stableVersion 0 minor' 0)
  else
    patch' ← increment (patch (version target)); Some (stableVersion 0 0 patch').

(** ** Comparators *)

(** "^(>=|<=|>|<|=)?(.+)$": the first alternative whose rest is not empty. *)
Definition is_line_terminator (c : N) : bool := existsb (N.eqb c) [10; 13; 8232; 8233]%N.
Definition comparator_exec (comparator : jstring) : option (jstring * jstring) :=
  let try op := startsWith op comparator &&
    let rest := drop (length op) comparator in
    negb (streq rest []) && negb (existsb is_line_terminator rest) in
  match List.find try [js ">="; js "<="; js ">"; js "<"; js "="; []] with
  | Some op => Some (op, drop (length op) comparator)
  | None => None
  end.

Definition comparatorParts (comparator : jstring) : option (jstring * RangeVersion) :=
  if startsWith (js "^") comparator || startsWith (js "~") comparator then
    match parseRangeVersion (drop 1 comparator) with
    | Some target => if any target || wildcard target then None
                     else Some (take 1 comparator, target)
    | None => None
    end
  else
  match comparator_exec comparator with
  | None => None
  | Some (operator, rest) =>
      match parseRangeVersion rest with
      | None => None
      | Some target => if negb (streq operator []) && wildcard target then None
                       else Some (operator, target)
      end
  end.

Definition is_some {A} (o : option A) : bool := match o with Some _ => true | None => false end.

Definition isSupportedComparator (comparator : jstring) : bool :=
  match comparatorParts comparator with
  | None => false
  | Some (operator, target) =>
      if any target then streq operator []
      else if streq operator (js "^") then is_some (caretUpperBound target)
      else if streq operator (js "~") then is_some (partialUpperBound target)
      else if (streq operator [] || streq operator (js "=")) &&
              (wildcard target || (precision target <? 3)%nat)
      then is_some (partialUpperBound target)
      else if (streq operator (js ">") || streq operator (js "<=")) && (precision target <? 3)%nat
      then is_some (partialUpperBound target)
      else true
  end.

(** [maximum !== undefined && compareVersion(v, maximum) < 0], and [>= 0]. *)
Definition below (v : Version) (maximum : option Version) : bool :=
  match maximum with Some m => (compareVersion v m <? 0)%Z | None => false end.
Definition at_or_above (v : Version) (maximum : option Version) : bool :=
  match maximum with Some m => (0 <=? compareVersion v m)%Z | None => false end.

Definition satisfiesComparator (v : Version) (comparator : jstring) : bool :=
  match comparatorParts comparator with
  | None => false
  | Some (operator, target) =>
      let order := compareVersion v (version target) in
      if any target then true
      else if streq operator (js "^") then (0 <=? order)%Z && below v (caretUpperBound target)
      else if streq operator (js "~") then (0 <=? order)%Z && below v (partialUpperBound target)
      else if streq operator (js ">") then
        if (precision target =? 3)%nat then (0 <? order)%Z
        else at_or_above v (partialUpperBound target)
      else if streq operator (js ">=") then (0 <=? order)%Z
      else if streq operator (js "<") then (order <? 0)%Z
      else if streq operator (js "<=") then
        if (precision target =? 3)%nat then (order <=? 0)%Z
        else below v (partialUpperBound target)
      else if (precision target =? 3)%nat && negb (wildcard target) then (order =? 0)%Z
      else (0 <=? order)%Z && below v (partialUpperBound target)
  end.

(** ** Ranges *)
Definition comparatorSets (range : jstring) : option (list (list jstring)) :=
  let alternatives := map trim (split (js "||") range) in
  if (length alternatives =? 0)%nat || existsb (λ a, (length a =? 0)%nat) alternatives then None
  else
    let sets := map splitSpaces alternatives in
    if existsb (existsb (λ value, negb (isSupportedComparator value))) sets then None
    else Some sets.

Definition optsIntoPrerelease (comparators : list jstring) (v : Version) : bool :=
  if (length (prerelease v) =? 0)%nat then true else
  existsb (λ comparator,
    match comparatorParts comparator with
    | Some (_, target) =>
        let t := version target in
        (0 <? length (prerelease t))%nat && (major t =? major v)%Z &&
        (minor t =? minor v)%Z && (patch t =? patch v)%Z
    | None => false
    end) comparators.

Definition isValidVersion (value : jstring) : bool := is_some (parseVersion value).
Definition isValidVersionRange (range : jstring) : bool := is_some (comparatorSets range).

Definition satisfiesVersionRange (value range : jstring) : bool :=
  match parseVersion value, comparatorSets range with
  | Some v, Some sets =>
      existsb (λ comparators,
        optsIntoPrerelease comparators v && forallb (satisfiesComparator v) comparators) sets
  | _, _ => false
  end.
Arguments parseVersion : simpl never.
Arguments parseRangeVersion : simpl never.
Arguments comparatorParts : simpl never.
Arguments compareVersion : simpl never.

(** ** The pattern and its groups *)
Lemma cut_spec c s a o :
  cut c s = (a, o) → c ∉ a ∧ s = a ++ match o with Some t => c :: t | None => [] end.
Proof.
  revert a o. induction s as [|x s IH]; intros a o; simpl.
  - intros [= <- <-]. split; [apply not_elem_of_nil|done].
  - destruct (N.eqb_spec x c) as [->|Hx].
    + intros [= <- <-]. split; [apply not_elem_of_nil|done].
    + destruct (cut c s) as [b t]. intros [= <- <-].
      destruct (IH _ _ eq_refl) as [Hb ->]. split; [|done].
      rewrite not_elem_of_cons. naive_solver.
Qed.

Lemma cut_eq c a o :
  c ∉ a → cut c (a ++ match o with Some t => c :: t | None => [] end) = (a, o).
Proof.
  induction a as [|x a IH]; simpl.
  - intros _. destruct o; simpl; [by rewrite N.eqb_refl|done].
  - intros [Hx Ha]%not_elem_of_cons. destruct (N.eqb_spec x c); [congruence|]. by rewrite IH.
Qed.

Lemma joinc_concat c w ws : joinc c (w :: ws) = w ++ concat (map (cons c) ws).
Proof.
  revert w. induction ws as [|v ws IH]; intros w; rewrite joinc_cons; [done|].
  by rewrite IH.
Qed.

Lemma not_in_class (p : N → bool) c s : forallb p s = true → p c = false → c ∉ s.
Proof. rewrite forallb_forall_in. intros Hs Hc Hin. apply Hs in Hin. congruence. Qed.

Lemma lang_IDENTIFIERS s : lang IDENTIFIERS s ↔ identifiers s = true.
Proof.
  unfold identifiers. rewrite forallb_forall_in. split.
  - intros (w & y & -> & [Hw Hwp]%lang_rplus & Hy).
    enough (∃ ws, y = concat (map (cons 46%N) ws) ∧
              Forall (λ w, w ≠ [] ∧ forallb identifier_char w = true) ws) as (ws & -> & Hws).
    { rewrite <- joinc_concat, splitc_joinc; [|done|].
      - intros v [->|Hv]%elem_of_cons.
        + rewrite Hwp, andb_true_r. by apply negb_true_iff, streq_false.
        + rewrite Forall_forall in Hws. destruct (Hws _ Hv) as [Hne ->].
          rewrite andb_true_r. by apply negb_true_iff, streq_false.
      - constructor; [by eapply not_in_class|]. eapply Forall_impl; [done|].
        intros v [_ Hv]. by eapply not_in_class. }
    clear w Hw Hwp. induction Hy as [|x y (u & v & -> & ->%lang_ch & Hv%lang_rplus) _ IH].
    + by exists [].
    + destruct IH as (ws & -> & Hws). exists (v :: ws). split; [done|]. by constructor.
  - intros Hall. destruct (splitc_cons 46 s) as (w & ws & E).
    rewrite <- (joinc_splitc 46 s), E, joinc_concat. rewrite E in Hall.
    assert (∀ v, v ∈ w :: ws → lang (rplus (RCls identifier_char)) v) as Hok.
    { intros v Hv. apply lang_rplus. specialize (Hall v Hv). to_prop.
      split; [by apply streq_false|done]. }
    exists w, (concat (map (cons 46%N) ws)). split_and!; [done|apply Hok; left|].
    assert (∀ v, v ∈ ws → lang (rplus (RCls identifier_char)) v) as Hok'
      by (intros; apply Hok; by right).
    clear -Hok'. induction ws as [|v ws IH]; cbn [map concat]; [constructor|].
    apply (star_app _ (46%N :: v)).
    + exists [46%N], v. split_and!; [done|by apply lang_ch|]. apply Hok'. left.
    + apply IH. intros. apply Hok'. by right.
Qed.

Lemma identifiers_chars s c :
  identifiers s = true → c ∈ s → identifier_char c = true ∨ c = 46%N.
Proof.
  unfold identifiers. rewrite forallb_forall_in. intros H.
  rewrite <- (joinc_splitc 46 s). induction (splitc 46 s) as [|w ws IH]; [by intros ?%elem_of_nil|].
  rewrite joinc_cons. intros [Hc|Hc]%elem_of_app.
  - left. specialize (H w ltac:(left)). to_prop. rewrite forallb_forall_in in *. auto.
  - destruct ws; [by apply elem_of_nil in Hc|]. apply elem_of_cons in Hc as [->|Hc]; [auto|].
    apply IH; [intros v Hv; apply H; by right|done].
Qed.

(** The core, the prerelease and the build of a version text. *)
Definition version_text (a b c : jstring) (pre build : option jstring) : jstring :=
  (joinc 46 [a; b; c] ++ match pre with Some p => 45%N :: p | None => [] end) ++
  match build with Some q => 43%N :: q | None => [] end.
Definition version_text_ok (a b c : jstring) (pre build : option jstring) : Prop :=
  isCanonicalDecimal a = true ∧ isCanonicalDecimal b = true ∧ isCanonicalDecimal c = true ∧
  (∀ p, pre = Some p → identifiers p = true) ∧ (∀ q, build = Some q → identifiers q = true).

Lemma canonical_no c s : isCanonicalDecimal s = true → is_digit c = false → c ∉ s.
Proof. intros Hs%isCanonicalDecimal_digits Hc. by eapply not_in_class. Qed.

Lemma version_text_exec a b c pre build :
  version_text_ok a b c pre build →
  version_exec (version_text a b c pre build) = Some (a, b, c, pre).
Proof.
  intros (Ha & Hb & Hc & Hp & Hq). unfold version_exec, version_text.
  assert (∀ x, is_digit x = false → x ≠ 46%N → x ∉ joinc 46 [a; b; c]) as Hcore.
  { intros x Hx Hx'. cbn [joinc]. rewrite !elem_of_app, !elem_of_cons, !elem_of_app, !elem_of_cons.
    pose proof (canonical_no x _ Ha Hx). pose proof (canonical_no x _ Hb Hx).
    pose proof (canonical_no x _ Hc Hx). naive_solver. }
  rewrite cut_eq, cut_eq.
  - rewrite splitc_joinc; [|done|repeat constructor; by apply canonical_no].
    rewrite Ha, Hb, Hc. simpl.
    destruct pre as [p|], build as [q|]; rewrite ?(Hp p eq_refl), ?(Hq q eq_refl); done.
  - by apply Hcore.
  - rewrite elem_of_app. intros [Hin|Hin]; [by apply (Hcore 43%N) in Hin|].
    destruct pre as [p|]; [|by apply elem_of_nil in Hin].
    apply elem_of_cons in Hin as [?|Hin]; [done|].
    by destruct (identifiers_chars p 43 (Hp p eq_refl) Hin).
Qed.

Lemma version_exec_text value a b c pre :
  version_exec value = Some (a, b, c, pre) →
  ∃ build, value = version_text a b c pre build ∧ version_text_ok a b c pre build.
Proof.
  unfold version_exec. destruct (cut 43 value) as [main build] eqn:E1.
  destruct (cut 45 main) as [core pre'] eqn:E2.
  destruct (splitc 46 core) as [|a' [|b' [|c' [|]]]] eqn:E3; try done.
  case_match eqn:E4; [|done]. intros [= -> -> -> ->]. exists build.
  apply cut_spec in E1 as [_ ->]. apply cut_spec in E2 as [_ ->].
  unfold version_text. rewrite <- E3, joinc_splitc. split; [done|]. to_prop.
  split_and!; try done; intros ? ->; done.
Qed.

Lemma version_exec_spec value :
  is_some (version_exec value) = re_test VERSION_PATTERN value.
Proof.
  apply eq_iff_eq_true. rewrite re_test_spec. split.
  - destruct (version_exec value) as [[[[a b] c] pre]|] eqn:E; [intros _|done].
    apply version_exec_text in E as (build & -> & Ha & Hb & Hc & Hp & Hq).
    unfold version_text. cbn [joinc]. repeat (rewrite <- !app_assoc; cbn [app]).
    exists a. eexists. split_and!; [done|by apply lang_rdecimal|].
    exists [46%N]. eexists. split_and!; [done|by apply lang_ch|].
    exists b. eexists. split_and!; [done|by apply lang_rdecimal|].
    exists [46%N]. eexists. split_and!; [done|by apply lang_ch|].
    exists c. eexists. split_and!; [done|by apply lang_rdecimal|].
    eexists _, _. split_and!; [done|..]; apply lang_ropt.
    + destruct pre as [p|]; [right|by left]. exists [45%N], p.
      split_and!; [done|by apply lang_ch|]. apply lang_IDENTIFIERS. auto.
    + destruct build as [p|]; [right|by left]. exists [43%N], p.
      split_and!; [done|by apply lang_ch|]. apply lang_IDENTIFIERS. auto.
  - intros (a & ? & -> & Ha%lang_rdecimal & x1 & ? & -> & ->%lang_ch & b & ? & -> &
      Hb%lang_rdecimal & x2 & ? & -> & ->%lang_ch & c & ? & -> & Hc%lang_rdecimal &
      p & q & -> & Hp%lang_ropt & Hq%lang_ropt).
    assert (∃ pre, p = match pre with Some p => 45%N :: p | None => [] end ∧
              (∀ p, pre = Some p → identifiers p = true)) as (pre & -> & Hpre).
    { destruct Hp as [->|(? & p' & -> & ->%lang_ch & Hp%lang_IDENTIFIERS)].
      - by exists None.
      - exists (Some p'). naive_solver. }
    assert (∃ build, q = match build with Some p => 43%N :: p | None => [] end ∧
              (∀ p, build = Some p → identifiers p = true)) as (build & -> & Hbuild).
    { destruct Hq as [->|(? & p' & -> & ->%lang_ch & Hq%lang_IDENTIFIERS)].
      - by exists None.
      - exists (Some p'). naive_solver. }
    pose proof (version_text_exec a b c pre build) as E.
    unfold version_text in E. cbn [joinc] in E. repeat (rewrite <- !app_assoc in E; cbn [app] in E). cbn [app].
    rewrite E; [done|]. by split_and!.
Qed.

(** ** Precedence, as Semantic Versioning defines it

    A numeric identifier compares by value and sorts before a textual one; a
    textual one compares by code unit; a release sorts after its prereleases. *)
Inductive ident : Type := INum (n : Z) | ITxt (s : jstring).
Definition ident_of (s : jstring) : ident :=
  if isDigits s then INum (decimal_value s) else ITxt s.

Definition compare_ident (l r : ident) : Z :=
  match l, r with
  | INum m, INum n => m - n
  | INum _, ITxt _ => -1
  | ITxt _, INum _ => 1
  | ITxt s, ITxt t => compareText s t
  end.

#[export] Instance compare_ident_total : TotalComparator compare_ident.
Proof.
  split; [split|].
  - intros [n|s]; simpl; [lia|apply cmp_refl].
  - intros [m|s] [n|t]; simpl; try lia. apply cmp_antisym.
  - intros [m|s] [n|t] [k|u]; simpl; try lia. apply (cmp_trans (cmp := compareText)).
  - intros [m|s] [n|t]; simpl; try done; intros E; f_equal; [lia|].
    by apply (cmp_eq (cmp := compareText)).
Qed.

Definition compare_release (l r : list ident) : Z :=
  match l, r with
  | [], [] => 0
  | [], _ :: _ => 1
  | _ :: _, [] => -1
  | _, _ => lex_list compare_ident l r
  end.

Definition precedence (l r : Version) : Z :=
  or_else (major l - major r) (or_else (minor l - minor r) (or_else (patch l - patch r)
    (compare_release (map ident_of (prerelease l)) (map ident_of (prerelease r))))).

#[export] Instance compare_release_total : TotalComparator compare_release.
Proof.
  pose proof (lex_list_total compare_ident) as [L Leq]. split; [split|].
  - intros [|x l]; [done|]. apply (cmp_refl (cmp := lex_list compare_ident)).
  - intros [|x l] [|y r]; [done..|]. apply (cmp_antisym (cmp := lex_list compare_ident)).
  - intros [|x l] [|y r] [|z t]; try done. apply (cmp_trans (cmp := lex_list compare_ident)).
  - intros [|x l] [|y r]; try done. apply Leq.
Qed.

#[export] Instance precedence_comparator : Comparator precedence.
Proof.
  exact (@comparator_lex _ _ _ (comparator_on major Z.sub)
    (@comparator_lex _ _ _ (comparator_on minor Z.sub)
      (@comparator_lex _ _ _ (comparator_on patch Z.sub)
        (comparator_on (λ v, map ident_of (prerelease v)) compare_release)))).
Qed.

(** ** Well-formed versions *)
Definition wf_identifier (s : jstring) : Prop :=
  s ≠ [] ∧ (isDigits s = true → isCanonicalDecimal s = true).
Definition safe_nat (z : Z) : Prop := (0 ≤ z ≤ MAX_SAFE_INTEGER)%Z.
Definition wf_version (v : Version) : Prop :=
  safe_nat (major v) ∧ safe_nat (minor v) ∧ safe_nat (patch v) ∧
  Forall wf_identifier (prerelease v).

Lemma safe_decimal s :
  isCanonicalDecimal s = true → isSafeInteger (decimal_value s) = true → safe_nat (decimal_value s).
Proof.
  intros ?%decimal_value_nonneg Hs%isSafeInteger_spec. unfold safe_nat. lia.
Qed.

Lemma parseVersion_wf s v : parseVersion s = Some v → wf_version v.
Proof.
  unfold parseVersion. destruct (version_exec s) as [[[[a b] c] pre]|] eqn:E; [|done].
  apply version_exec_text in E as (_ & _ & Ha & Hb & Hc & _ & _).
  destruct (negb _) eqn:Hsafe; [done|]. destruct (existsb _ _) eqn:Hpre; [done|].
  intros [= <-]. apply negb_false_iff in Hsafe. cbn [forallb] in Hsafe. to_prop.
  unfold wf_version. simpl. split_and!; [by apply safe_decimal..|].
  rewrite Forall_forall. intros w Hw. rewrite existsb_false_in in Hpre.
  specialize (Hpre w Hw). cbv beta in Hpre. apply orb_false_iff in Hpre as [Hne Hnum].
  split; [by intros ->|]. intros Hd. rewrite Hd in Hnum. by apply negb_false_iff in Hnum.
Qed.

Lemma stableVersion_wf a b c :
  safe_nat a → safe_nat b → safe_nat c → wf_version (stableVersion a b c).
Proof. intros. split_and!; simpl; done. Qed.
Lemma safe_nat_0 : safe_nat 0.
Proof. by unfold safe_nat, MAX_SAFE_INTEGER. Qed.
#[export] Hint Resolve stableVersion_wf safe_nat_0 : tego.
#[export] Hint Extern 2 (wf_version _) => eapply parseVersion_wf; eassumption : tego.

Lemma range_parts_safe parts : ∀ index wi numbers wi' numbers',
  range_parts index wi numbers parts = Some (wi', numbers') →
  Forall safe_nat numbers → Forall safe_nat numbers'.
Proof.
  induction parts as [|part rest IH]; intros index wi numbers wi' numbers'; cbn [range_parts].
  - by intros [= <- <-].
  - destruct (isWildcard part).
    + destruct (index =? 0)%nat; [done|]. destruct (existsb _ rest); [done|].
      intros H Hn. eapply IH; [exact H|]. apply Forall_app. split; [done|].
      constructor; [apply safe_nat_0|constructor].
    + destruct (_ || _) eqn:E; [done|]. cbv zeta.
      destruct (negb (isSafeInteger _)) eqn:E2; [done|]. to_prop.
      intros Hp Hn. eapply IH; [exact Hp|]. apply Forall_app. split; [done|].
      constructor; [by apply safe_decimal|constructor].
Qed.

Lemma parseRangeVersion_wf s r : parseRangeVersion s = Some r → wf_version (version r).
Proof.
  unfold parseRangeVersion.
  destruct (isWildcard s); [intros [= <-]; apply stableVersion_wf; apply safe_nat_0|].
  destruct (parseVersion s) eqn:E; [intros [= <-]; by eapply parseVersion_wf|].
  destruct (_ || _); [done|]. destruct (range_parts _ _ _ _) as [[wi numbers]|] eqn:E2; [|done].
  intros [= <-]. apply range_parts_safe in E2; [|done].
  assert (∀ i, safe_nat (match numbers !! i with Some n => n | None => 0 end)) as Hn.
  { intros i. destruct (numbers !! i) eqn:Ei; [|apply safe_nat_0].
    rewrite Forall_lookup in E2. eauto. }
  by apply stableVersion_wf.
Qed.

Lemma comparatorParts_wf c op r : comparatorParts c = Some (op, r) → wf_version (version r).
Proof.
  unfold comparatorParts. intros H. repeat case_match; simplify_eq;
    by eapply parseRangeVersion_wf.
Qed.

Lemma increment_some v n : increment v = Some n ↔ n = (v + 1)%Z ∧ isSafeInteger (v + 1) = true.
Proof. unfold increment. destruct (isSafeInteger (v + 1)); naive_solver. Qed.

Lemma increment_safe v n : safe_nat v → increment v = Some n → safe_nat n.
Proof.
  intros Hv [-> H%isSafeInteger_spec]%increment_some. unfold safe_nat in *. lia.
Qed.

Lemma partialUpperBound_wf r m :
  wf_version (version r) → partialUpperBound r = Some m → wf_version m.
Proof.
  intros (H1 & H2 & H3 & _). unfold partialUpperBound.
  destruct (any r); [done|]. destruct (_ <=? _)%nat;
    intros (n & Hn%increment_safe & [= <-])%bind_Some; auto with tego.
Qed.

Lemma caretUpperBound_wf r m :
  wf_version (version r) → caretUpperBound r = Some m → wf_version m.
Proof.
  intros (H1 & H2 & H3 & _). unfold caretUpperBound.
  destruct (any r); [done|]. destruct (_ || _); [|destruct (_ || _)];
    intros (n & Hn%increment_safe & [= <-])%bind_Some; auto with tego.
Qed.
#[export] Hint Resolve comparatorParts_wf partialUpperBound_wf caretUpperBound_wf : tego.

(** ** The comparison is precedence *)
Lemma isDigits_chars s : isDigits s = true → s ≠ [] ∧ forallb is_digit s = true.
Proof. destruct s; [done|]. intros H. split; [done|exact H]. Qed.

Lemma canonical_isDigits s : isCanonicalDecimal s = true → isDigits s = true.
Proof.
  intros H. pose proof (isCanonicalDecimal_digits _ H). by destruct s.
Qed.

Lemma stripZeros_canonical s :
  isCanonicalDecimal s = true → match stripZeros s with [] => js "0" | t => t end = s.
Proof.
  destruct s as [|c s]; [done|]. simpl. destruct (N.eqb_spec c 48) as [->|]; [by destruct s|done].
Qed.

Lemma compareNumericIdentifier_value l r :
  isCanonicalDecimal l = true → isCanonicalDecimal r = true →
  Z.sgn (compareNumericIdentifier l r) = Z.sgn (decimal_value l - decimal_value r).
Proof.
  intros Hl Hr. unfold compareNumericIdentifier. rewrite !stripZeros_canonical by done.
  unfold or_else. destruct (Z.eqb_spec (Z.of_nat (length l) - Z.of_nat (length r)) 0) as [E|E].
  - unfold compareText. assert (length l = length r) as Hlen by lia.
    destruct (str_ltb l r) eqn:E1; [apply canonical_ltb_value in E1; [lia|done..]|].
    destruct (str_ltb r l) eqn:E2; [apply canonical_ltb_value in E2; [lia|done..]|].
    rewrite (str_ltb_total _ _ E1 E2). lia.
  - destruct (Z.lt_ge_cases (Z.of_nat (length l)) (Z.of_nat (length r))).
    + pose proof (canonical_length_lt l r Hl Hr). lia.
    + pose proof (canonical_length_lt r l Hr Hl). lia.
Qed.

Lemma ident_of_inj s t :
  wf_identifier s → wf_identifier t → ident_of s = ident_of t → s = t.
Proof.
  unfold wf_identifier, ident_of. intros [_ Hs] [_ Ht].
  destruct (isDigits s) eqn:Es, (isDigits t) eqn:Et; intros [= E]; [|done].
  apply canonical_inj; auto.
Qed.

Lemma sgn_or_else a b a' b' :
  Z.sgn a = Z.sgn a' → Z.sgn b = Z.sgn b' → Z.sgn (or_else a b) = Z.sgn (or_else a' b').
Proof. unfold or_else. destruct (Z.eqb_spec a 0), (Z.eqb_spec a' 0); lia. Qed.

Lemma compare_identifiers_lex l r :
  Forall wf_identifier l → Forall wf_identifier r →
  Z.sgn (compare_identifiers l r) = Z.sgn (lex_list compare_ident (map ident_of l) (map ident_of r)).
Proof.
  intros Hl. revert r. induction Hl as [|x l Hx Hl IH]; intros r Hr; destruct Hr as [|y r Hy Hr];
    cbn [compare_identifiers lex_list map]; try done.
  destruct (streq x y) eqn:E.
  - apply streq_true in E as ->. unfold or_else. rewrite (cmp_refl (cmp := compare_ident)). by apply IH.
  - apply streq_false in E.
    assert (or_else (compare_ident (ident_of x) (ident_of y))
              (lex_list compare_ident (map ident_of l) (map ident_of r)) =
            compare_ident (ident_of x) (ident_of y)) as ->.
    { unfold or_else. destruct (Z.eqb_spec (compare_ident (ident_of x) (ident_of y)) 0) as [Eq|];
        [|done].
      apply (cmp_eq (cmp := compare_ident)) in Eq. by apply ident_of_inj in Eq. }
    unfold ident_of. destruct Hx as [_ Hx], Hy as [_ Hy].
    destruct (isDigits x), (isDigits y); simpl; try done.
    + by apply compareNumericIdentifier_value; auto.
    + unfold compareText. destruct (str_ltb x y) eqn:E1; [done|].
      destruct (str_ltb y x) eqn:E2; [done|]. by destruct E; apply str_ltb_total.
Qed.

Lemma compareVersion_sgn l r :
  wf_version l → wf_version r → Z.sgn (compareVersion l r) = Z.sgn (precedence l r).
Proof.
  intros (_ & _ & _ & Hl) (_ & _ & _ & Hr). unfold compareVersion, precedence.
  set (pre := compare_release _ _).
  transitivity (Z.sgn (or_else (or_else (or_else (major l - major r) (minor l - minor r))
    (patch l - patch r)) pre)); [|unfold or_else; by repeat case_match; to_prop; subst; try lia].
  cbv zeta. generalize (or_else (or_else (major l - major r) (minor l - minor r))
    (patch l - patch r)). intros core.
  unfold or_else. destruct (core =? 0)%Z; simpl; [|done]. subst pre.
  destruct Hl as [|x l' Hx Hl], Hr as [|y r' Hy Hr]; try done.
  change (compare_release (map ident_of (x :: l')) (map ident_of (y :: r')))
    with (lex_list compare_ident (map ident_of (x :: l')) (map ident_of (y :: r'))).
  apply compare_identifiers_lex; by constructor.
Qed.

Lemma precedence_0 l r :
  wf_version l → wf_version r → precedence l r = 0%Z → l = r.
Proof.
  intros (_ & _ & _ & Hl) (_ & _ & _ & Hr). unfold precedence. rewrite !or_else_0.
  intros (? & ? & ? & E). apply (cmp_eq (cmp := compare_release)) in E.
  destruct l as [a b c p], r as [a' b' c' p']. simpl in *. f_equal; [lia..|].
  revert p' Hr E. induction Hl as [|x l Hx Hl IH]; intros p' Hr E; destruct Hr as [|y r Hy Hr];
    simplify_eq/=; [done|]. f_equal; [by apply ident_of_inj|auto].
Qed.

(** The comparison inherits the laws of precedence. *)
Section versions.
Context (u v w : Version) (Hu : wf_version u) (Hv : wf_version v) (Hw : wf_version w).

Lemma compareVersion_flip : (compareVersion u v < 0 ↔ 0 < compareVersion v u)%Z.
Proof.
  pose proof (compareVersion_sgn u v Hu Hv). pose proof (compareVersion_sgn v u Hv Hu).
  pose proof (cmp_antisym (cmp := precedence) u v). lia.
Qed.
Lemma compareVersion_trans :
  (compareVersion u v ≤ 0 → compareVersion v w ≤ 0 → compareVersion u w ≤ 0)%Z.
Proof.
  pose proof (compareVersion_sgn u v Hu Hv). pose proof (compareVersion_sgn v w Hv Hw).
  pose proof (compareVersion_sgn u w Hu Hw).
  pose proof (cmp_trans (cmp := precedence) u v w). lia.
Qed.
Lemma compareVersion_le_lt :
  (compareVersion u v ≤ 0 → compareVersion v w < 0 → compareVersion u w < 0)%Z.
Proof.
  pose proof (compareVersion_sgn u v Hu Hv). pose proof (compareVersion_sgn v w Hv Hw).
  pose proof (compareVersion_sgn u w Hu Hw).
  pose proof (cmp_le_lt_trans precedence u v w). lia.
Qed.
Lemma compareVersion_lt_le :
  (compareVersion u v < 0 → compareVersion v w ≤ 0 → compareVersion u w < 0)%Z.
Proof.
  pose proof (compareVersion_sgn u v Hu Hv). pose proof (compareVersion_sgn v w Hv Hw).
  pose proof (compareVersion_sgn u w Hu Hw).
  pose proof (cmp_lt_le_trans precedence u v w). lia.
Qed.
Lemma compareVersion_0 : compareVersion u v = 0%Z ↔ u = v.
Proof.
  pose proof (compareVersion_sgn u v Hu Hv) as E. split.
  - intros H0. apply precedence_0; [done..|]. lia.
  - intros ->. rewrite (cmp_refl (cmp := precedence)) in E. lia.
Qed.
End versions.

(** ** Comparators are intervals *)
Lemma below_iff v m :
  below v m = true ↔ ∃ x, m = Some x ∧ (compareVersion v x < 0)%Z.
Proof. destruct m; simpl; rewrite ?Z.ltb_lt; naive_solver. Qed.
Lemma at_or_above_iff v m :
  at_or_above v m = true ↔ ∃ x, m = Some x ∧ (0 ≤ compareVersion v x)%Z.
Proof. destruct m; simpl; rewrite ?Z.leb_le; naive_solver. Qed.

Section interval.
Context (u v w : Version) (Hu : wf_version u) (Hv : wf_version v) (Hw : wf_version w)
  (Huv : (compareVersion u v ≤ 0)%Z) (Hvw : (compareVersion v w ≤ 0)%Z).

Lemma interval_lower t : wf_version t →
  (0 ≤ compareVersion u t → 0 ≤ compareVersion v t)%Z.
Proof.
  intros Ht H. destruct (Z.le_gt_cases 0 (compareVersion v t)) as [|Hlt]; [done|].
  pose proof (compareVersion_le_lt u v t Hu Hv Ht). lia.
Qed.
Lemma interval_lower_strict t : wf_version t →
  (0 < compareVersion u t → 0 < compareVersion v t)%Z.
Proof.
  intros Ht H. destruct (Z.lt_ge_cases 0 (compareVersion v t)) as [|Hge]; [done|].
  pose proof (compareVersion_trans u v t Hu Hv Ht). lia.
Qed.
Lemma interval_upper t : wf_version t →
  (compareVersion w t ≤ 0 → compareVersion v t ≤ 0)%Z.
Proof. intros Ht. by apply compareVersion_trans. Qed.
Lemma interval_upper_strict t : wf_version t →
  (compareVersion w t < 0 → compareVersion v t < 0)%Z.
Proof. intros Ht. by apply compareVersion_le_lt. Qed.

Lemma interval_below m : (∀ x, m = Some x → wf_version x) →
  below w m = true → below v m = true.
Proof.
  intros Hm. rewrite !below_iff. intros (x & -> & Hx). exists x. split; [done|].
  apply interval_upper_strict; auto.
Qed.
Lemma interval_above m : (∀ x, m = Some x → wf_version x) →
  at_or_above u m = true → at_or_above v m = true.
Proof.
  intros Hm. rewrite !at_or_above_iff. intros (x & -> & Hx). exists x. split; [done|].
  apply interval_lower; auto.
Qed.
End interval.

(** ** What the version rules guarantee *)

(** Comparing two parsed versions gives the sign of their Semantic
    Versioning precedence, and zero only for versions that are the same up to
    build metadata: the digit-by-digit text comparison is exact at every length. *)
Theorem compareVersion_precedence (s t : jstring) (v w : Version) :
  parseVersion s = Some v → parseVersion t = Some w →
  Z.sgn (compareVersion v w) = Z.sgn (precedence v w) ∧ (compareVersion v w = 0%Z ↔ v = w).
Proof.
  intros Hv%parseVersion_wf Hw%parseVersion_wf.
  split; [by apply compareVersion_sgn|by apply compareVersion_0].
Qed.

Example compareVersion_precedence_witness :
  let v := {| major := 1; minor := 2; patch := 3; prerelease := [js "rc"; js "9"] |} in
  let w := {| major := 1; minor := 2; patch := 3; prerelease := [js "rc"; js "10"] |} in
  Z.sgn (compareVersion v w) = Z.sgn (precedence v w) ∧ (compareVersion v w = 0%Z ↔ v = w).
Proof.
  apply (compareVersion_precedence (js "1.2.3-rc.9+linux") (js "1.2.3-rc.10"));
    vm_compute; reflexivity.
Defined.

(** A comparator denotes an interval: it accepts every version between two
    versions it accepts. *)
Theorem satisfiesComparator_interval (c : jstring) (u v w : Version) :
  wf_version u → wf_version v → wf_version w →
  (compareVersion u v ≤ 0)%Z → (compareVersion v w ≤ 0)%Z →
  satisfiesComparator u c = true → satisfiesComparator w c = true →
  satisfiesComparator v c = true.
Proof.
  intros Hu Hv Hw Huv Hvw. unfold satisfiesComparator.
  destruct (comparatorParts c) as [[op r]|] eqn:E; [|done].
  pose proof (comparatorParts_wf _ _ _ E) as Ht.
  pose proof (λ x, partialUpperBound_wf r x Ht) as Hp.
  pose proof (λ x, caretUpperBound_wf r x Ht) as Hc.
  pose proof (interval_lower u v Hu Hv Huv _ Ht). pose proof (interval_upper v w Hv Hw Hvw _ Ht).
  pose proof (interval_lower_strict u v Hu Hv Huv _ Ht).
  pose proof (interval_upper_strict v w Hv Hw Hvw _ Ht).
  pose proof (interval_below v w Hv Hw Hvw _ Hp). pose proof (interval_below v w Hv Hw Hvw _ Hc).
  pose proof (interval_above u v Hu Hv Huv _ Hp).
  destruct (any r); [done|].
  repeat match goal with |- context [if ?b then _ else _] => destruct b end;
    rewrite ?andb_true_iff, ?Z.leb_le, ?Z.ltb_lt, ?Z.eqb_eq; intuition lia.
Qed.

Example satisfiesComparator_interval_witness :
  satisfiesComparator (stableVersion 1 4 0) (js "~1.4") = true.
Proof.
  apply (satisfiesComparator_interval _ (stableVersion 1 4 0) _ (stableVersion 1 4 9));
    try (apply stableVersion_wf; split; vm_compute; discriminate);
    vm_compute; first [reflexivity|discriminate].
Defined.

(** A prerelease satisfies a range only through an alternative that names a
    prerelease of the same core version. *)
Theorem satisfiesVersionRange_prerelease (value range : jstring) (v : Version) :
  parseVersion value = Some v → prerelease v ≠ [] →
  satisfiesVersionRange value range = true →
  ∃ sets comparators c op r,
    comparatorSets range = Some sets ∧ comparators ∈ sets ∧ c ∈ comparators ∧
    comparatorParts c = Some (op, r) ∧ prerelease (version r) ≠ [] ∧
    major (version r) = major v ∧ minor (version r) = minor v ∧ patch (version r) = patch v.
Proof.
  intros Hv Hpre. unfold satisfiesVersionRange. rewrite Hv.
  destruct (comparatorSets range) as [sets|]; [|done].
  intros (cs & Hcs & [Ho _]%andb_true_iff)%existsb_exists_in. unfold optsIntoPrerelease in Ho.
  destruct (length (prerelease v) =? 0)%nat eqn:E; [to_prop; by apply nil_length_inv in E|].
  apply existsb_exists_in in Ho as (c & Hc & Ho).
  destruct (comparatorParts c) as [[op r]|] eqn:Ec; [|done].
  to_prop. exists sets, cs, c, op, r. split_and!; try done.
  intros E'. rewrite E' in *. simpl in *. lia.
Qed.

Example satisfiesVersionRange_prerelease_witness :
  ∃ sets comparators c op r,
    comparatorSets (js "<1 || >=2.0.0-rc.1") = Some sets ∧ comparators ∈ sets ∧
    c ∈ comparators ∧ comparatorParts c = Some (op, r) ∧ prerelease (version r) ≠ [] ∧
    major (version r) = 2%Z ∧ minor (version r) = 0%Z ∧ patch (version r) = 0%Z.
Proof.
  apply (satisfiesVersionRange_prerelease (js "2.0.0-rc.2") (js "<1 || >=2.0.0-rc.1")
    {| major := 2; minor := 0; patch := 0; prerelease := [js "rc"; js "2"] |});
    [vm_compute; reflexivity|discriminate|vm_compute; reflexivity].
Defined.

Lemma core_lower v t :
  wf_version v → wf_version t → (0 ≤ compareVersion v t)%Z →
  (major t ≤ major v ∧ (major t = major v → minor t ≤ minor v ∧
    (minor t = minor v → patch t ≤ patch v)))%Z.
Proof.
  intros Hv Ht H. pose proof (compareVersion_sgn v t Hv Ht) as Hs.
  unfold precedence, or_else in Hs.
  destruct (Z.eqb_spec (major v - major t) 0), (Z.eqb_spec (minor v - minor t) 0),
    (Z.eqb_spec (patch v - patch t) 0); lia.
Qed.

(** Below a release: a smaller core, or a prerelease of it. *)
Lemma core_below v a b c :
  wf_version v → wf_version (stableVersion a b c) → prerelease v = [] →
  (compareVersion v (stableVersion a b c) < 0)%Z →
  (major v < a ∨ major v = a ∧ (minor v < b ∨ minor v = b ∧ patch v < c))%Z.
Proof.
  intros Hv Ht Hp H. pose proof (compareVersion_sgn v _ Hv Ht) as Hs.
  unfold precedence, or_else in Hs. rewrite Hp in Hs. simpl in Hs.
  destruct (Z.eqb_spec (major v - a) 0), (Z.eqb_spec (minor v - b) 0),
    (Z.eqb_spec (patch v - c) 0); simpl in *; lia.
Qed.

(** The part of a version a caret keeps: up to its first non-zero number. *)
Definition caret_compatible (target v : Version) : Prop :=
  major v = major target ∧
  (major target = 0%Z → (0 < minor target)%Z → minor v = minor target).

Lemma caret_stable r v :
  wf_version (version r) → wf_version v → prerelease v = [] →
  (0 ≤ compareVersion v (version r))%Z → below v (caretUpperBound r) = true →
  (precision r = 1 → minor (version r) = 0%Z) →
  caret_compatible (version r) v.
Proof.
  intros Ht Hv Hp Hlo (m & Hm & Hlt)%below_iff Hprec.
  pose proof (caretUpperBound_wf _ _ Ht Hm) as Hmw.
  pose proof (core_lower _ _ Hv Ht Hlo). unfold caretUpperBound in Hm.
  destruct Ht as ((? & _) & (? & _) & _), (Hv) as ((? & _) & (? & _) & (? & _) & _).
  destruct (any r); [done|]. unfold caret_compatible.
  destruct ((precision r =? 1)%nat || _) eqn:E1; [|destruct ((precision r =? 2)%nat || _) eqn:E2];
    apply bind_Some in Hm as (n & [-> _]%increment_some & [= <-]);
    apply core_below in Hlt; try done;
    rewrite ?orb_true_iff, ?orb_false_iff, ?Nat.eqb_eq, ?Nat.eqb_neq, ?Z.ltb_lt, ?Z.ltb_ge in *;
    intuition lia.
Qed.

Lemma comparatorParts_caret t op r :
  comparatorParts (js "^" ++ t) = Some (op, r) →
  op = js "^" ∧ parseRangeVersion t = Some r ∧ any r = false ∧ wildcard r = false.
Proof.
  unfold comparatorParts. change (drop 1 (js "^" ++ t)) with t.
  change (startsWith (js "^") (js "^" ++ t)) with true. simpl.
  destruct (parseRangeVersion t) as [r'|]; [|done].
  destruct (any r') eqn:E1; [done|]. destruct (wildcard r') eqn:E2; [done|].
  simpl. intros [= <- <-]. done.
Qed.

Lemma range_parts_length parts : ∀ index wi numbers wi' numbers',
  range_parts index wi numbers parts = Some (wi', numbers') →
  length numbers' = length numbers + length parts.
Proof.
  induction parts as [|part rest IH]; intros index wi numbers wi' numbers' Hr;
    cbn [range_parts length] in *; [simplify_eq; lia|].
  repeat case_match; try done; apply IH in Hr; rewrite Hr, length_app; simpl; lia.
Qed.

Lemma precision_one t r :
  parseRangeVersion t = Some r → wildcard r = false → precision r = 1 → minor (version r) = 0%Z.
Proof.
  unfold parseRangeVersion. destruct (isWildcard t); [by intros [= <-]|].
  destruct (parseVersion t); [by intros [= <-]|].
  destruct (_ || _); [done|]. destruct (range_parts _ _ _ _) as [[wi numbers]|] eqn:E; [|done].
  apply range_parts_length in E. intros [= <-]. simpl. destruct wi; [done|]. intros _ Hl.
  by rewrite lookup_ge_None_2 by (simpl in E; lia).
Qed.

(** A text without white space and bars is a range of one comparator. *)
Definition plain_comparator (t : jstring) : Prop :=
  t ≠ [] ∧ Forall (λ c, is_space c = false ∧ c ≠ 124%N) t.

Lemma split_from_plain t acc :
  Forall (λ c, is_space c = false ∧ c ≠ 124%N) t →
  split_from (js "||") 0 t acc = [rev acc ++ t].
Proof.
  intros Ht. revert acc. induction Ht as [|c t [_ Hc] Ht IH]; intros acc; cbn [split_from].
  - by rewrite app_nil_r.
  - assert (startsWith (js "||") (c :: t) = false) as ->.
    { change (js "||") with [124; 124]%N. cbn [startsWith].
      by rewrite (proj2 (N.eqb_neq _ _)) by done. }
    rewrite IH. simpl. by rewrite <- app_assoc.
Qed.

Lemma splitSpaces_plain t acc :
  Forall (λ c, is_space c = false ∧ c ≠ 124%N) t →
  splitSpaces_from false t acc = [rev acc ++ t].
Proof.
  intros Ht. revert acc. induction Ht as [|c t [Hc _] Ht IH]; intros acc; cbn [splitSpaces_from].
  - by rewrite app_nil_r.
  - rewrite Hc, IH. simpl. by rewrite <- app_assoc.
Qed.

Lemma trimStart_plain t : Forall (λ c, is_space c = false ∧ c ≠ 124%N) t → trimStart t = t.
Proof. destruct 1 as [|c t [Hc _] _]; [done|]. simpl. by rewrite Hc. Qed.

Lemma comparatorSets_plain t sets :
  plain_comparator t → comparatorSets t = Some sets → sets = [[t]].
Proof.
  intros [Hne Ht] H. unfold comparatorSets, split, splitSpaces in H.
  rewrite split_from_plain in H by done. cbn [rev app map] in H.
  assert (trim t = t) as Etrim.
  { unfold trim. rewrite (trimStart_plain t) by done.
    rewrite trimStart_plain by (by apply Forall_rev). apply rev_involutive. }
  rewrite Etrim, splitSpaces_plain in H by done. cbn [rev app] in H.
  by repeat case_match; simplify_eq.
Qed.

(** A caret range is compatible: whatever version it accepts, prereleases
    included, has the target's major number and, when that is zero, its
    non-zero minor number. *)
Theorem caret_range_compatible (value t op : jstring) (v : Version) (r : RangeVersion) :
  plain_comparator t → parseVersion value = Some v →
  comparatorParts (js "^" ++ t) = Some (op, r) →
  satisfiesVersionRange value (js "^" ++ t) = true →
  caret_compatible (version r) v.
Proof.
  intros [Hne Ht] Hv Hparts. unfold satisfiesVersionRange. rewrite Hv.
  destruct (comparatorSets _) as [sets|] eqn:Es; [|done].
  apply comparatorSets_plain in Es as ->; [|by split; [|constructor]].
  cbn [existsb]. rewrite orb_false_r. intros [Ho Hs]%andb_true_iff.
  cbn [forallb] in Hs. rewrite andb_true_r in Hs.
  pose proof (comparatorParts_wf _ _ _ Hparts) as Hr.
  pose proof (comparatorParts_caret _ _ _ Hparts) as (Hop & Hparse & Hany & Hwild).
  unfold satisfiesComparator in Hs. rewrite Hparts, Hany, Hop, (proj2 (streq_true _ _)) in Hs by done.
  apply andb_true_iff in Hs as [Hlo%Z.leb_le Hhi].
  unfold optsIntoPrerelease in Ho. destruct (length (prerelease v) =? 0)%nat eqn:E.
  - apply Nat.eqb_eq, nil_length_inv in E.
    apply caret_stable; [done|by eapply parseVersion_wf|done..|]. by eapply precision_one.
  - cbn [existsb] in Ho. rewrite Hparts in Ho. cbv zeta in Ho. rewrite orb_false_r in Ho. to_prop.
    by split.
Qed.

Example caret_range_compatible_witness :
  caret_compatible (stableVersion 0 2 1) (stableVersion 0 2 7).
Proof.
  apply (caret_range_compatible (js "0.2.7") (js "0.2.1") (js "^") _
    {| any := false; precision := 3; version := stableVersion 0 2 1; wildcard := false |});
    [|vm_compute; reflexivity..].
  split; [discriminate|]. repeat constructor; (reflexivity || discriminate).
Defined.
