(* ===== verification/TopoOrder.v ===== *)
(** * The topological order is right

    Kahn's loop of Graph.v returns a permutation of the nodes in which every
    edge goes forward, or the graph has a cycle; the fuel is enough; and the
    result depends on the graph only, not on the order of its maps and sets. *)

From stdpp Require Export relations.
From S2P Require Import Prelude JsString Collections Graph.

(** A path has a first step. *)
Lemma tc_step {A} (R : A → A → Prop) a b : tc R a b → ∃ x, R a x ∧ rtc R x b.
Proof.
  destruct 1 as [a b Hab|a x b Hax Hxb]; [by exists b|]. exists x. split; [done|by apply tc_rtc].
Qed.

(** ** Maps and counters *)
Section counters.
Context {Node : Type} `{EqDecision Node}.
Implicit Types (m : jsmap Node Z) (n x : Node).

Lemma has_set m k v x : JsMap.has (JsMap.set m k v) x = bool_decide (k = x) || JsMap.has m x.
Proof.
  unfold JsMap.has. destruct (decide (k = x)) as [->|Hne].
  - by rewrite JsMap.get_set_eq, bool_decide_true.
  - by rewrite JsMap.get_set_ne, bool_decide_false.
Qed.

Lemma count_set m k v x : count_of (JsMap.set m k v) x = if decide (k = x) then v else count_of m x.
Proof.
  unfold count_of. destruct (decide (k = x)) as [->|].
  - by rewrite JsMap.get_set_eq.
  - by rewrite JsMap.get_set_ne.
Qed.

Definition ind (P : Prop) `{Decision P} : Z := if decide P then 1 else 0.

(** The counter of every target goes up by one. *)
Lemma bump_count ts m x : NoDup ts →
  count_of (foldl (λ m t, JsMap.set m t (count_of m t + 1)%Z) m ts) x =
  (count_of m x + ind (x ∈ ts))%Z.
Proof.
  intros Hts. revert m. induction Hts as [|t ts Ht Hts IH]; intros m; simpl.
  - unfold ind. rewrite decide_False by apply not_elem_of_nil. lia.
  - rewrite IH, count_set. unfold ind. destruct (decide (t = x)) as [->|Hne].
    + rewrite (decide_False (P := x ∈ ts)), decide_True by (done || left). lia.
    + destruct (decide (x ∈ ts)), (decide (x ∈ t :: ts)) as [Hx|Hx]; try lia.
      * destruct Hx. by right.
      * by apply elem_of_cons in Hx as [->|].
Qed.

Lemma bump_has ts m x :
  JsMap.has m x = true →
  JsMap.has (foldl (λ m t, JsMap.set m t (count_of m t + 1)%Z) m ts) x = true.
Proof.
  revert m. induction ts as [|t ts IH]; intros m Hm; simpl; [done|].
  apply IH. rewrite has_set, Hm. apply orb_true_r.
Qed.

Lemma init_zero l m x :
  count_of m x = 0%Z → count_of (foldl (λ m n, JsMap.set m n 0%Z) m l) x = 0%Z.
Proof.
  revert m. induction l as [|n l IH]; intros m Hm; simpl; [done|].
  apply IH. rewrite count_set. by case_decide.
Qed.
Lemma init_has l m x :
  x ∈ l ∨ JsMap.has m x = true → JsMap.has (foldl (λ m n, JsMap.set m n 0%Z) m l) x = true.
Proof.
  revert m. induction l as [|n l IH]; intros m Hm; simpl.
  - destruct Hm as [Hm|]; [by apply elem_of_nil in Hm|done].
  - apply IH. rewrite has_set, orb_true_iff, bool_decide_eq_true.
    destruct Hm as [[->|]%elem_of_cons|]; auto.
Qed.

(** Removing one element from what a list's filter keeps. *)
Lemma filter_remove_length (P : Node → bool) l n :
  NoDup l → n ∈ l →
  Z.of_nat (length (List.filter (λ x, P x && negb (bool_decide (x = n))) l)) =
  (Z.of_nat (length (List.filter P l)) - ind (P n = true))%Z.
Proof.
  intros Hl. induction Hl as [|x l Hx Hl IH]; [by intros ?%elem_of_nil|].
  intros Hn. destruct (decide (x = n)) as [->|Hne].
  - assert (List.filter (λ x, P x && negb (bool_decide (x = n))) l = List.filter P l) as E.
    { clear -Hx. induction l as [|y l IH]; [done|]. apply not_elem_of_cons in Hx as [? ?].
      simpl. rewrite bool_decide_false, andb_true_r, IH by done. done. }
    simpl. rewrite bool_decide_true, andb_false_r, E by done.
    unfold ind. destruct (P n); [rewrite decide_True|rewrite decide_False]; simpl; lia || done.
  - apply elem_of_cons in Hn as [->|Hn]; [done|]. specialize (IH Hn). simpl.
    rewrite bool_decide_false, andb_true_r by done. destruct (P x); cbn [length]; lia.
Qed.
End counters.

(** ** The loop *)
Section topo.
Context {Node : Type} `{EqDecision Node} (g : DirectedGraph Node)
  (compare : Node → Node → Z) (Hg : wf_graph g).

(** The predecessors that are not in the order yet. *)
Definition preds (order : list Node) (n : Node) : list Node :=
  List.filter (λ a, includes (targets g a) n && negb (includes order a)) (nodes g).

Lemma elem_of_preds order n a : a ∈ preds order n ↔ edge g a n ∧ a ∉ order.
Proof.
  unfold preds. rewrite elem_of_filterb, andb_true_iff, negb_true_iff, includes_true, includes_false.
  pose proof (wf_edges _ Hg a n). unfold edge in *. naive_solver.
Qed.

Lemma preds_snoc order n x :
  n ∈ nodes g → n ∉ order →
  Z.of_nat (length (preds (order ++ [n]) x)) =
  (Z.of_nat (length (preds order x)) - ind (x ∈ targets g n))%Z.
Proof.
  intros Hn Ho. unfold preds.
  rewrite (List.filter_ext _ (λ a, (includes (targets g a) x && negb (includes order a)) &&
    negb (bool_decide (a = n)))).
  - rewrite filter_remove_length by (apply Hg || done). f_equal.
    assert (includes order n = false) as -> by (by apply includes_false).
    unfold ind. rewrite andb_true_r. do 2 case_decide; rewrite includes_true in *; done.
  - intros a. rewrite <- andb_assoc. f_equal. unfold includes.
    repeat case_bool_decide; set_solver.
Qed.

Lemma initial_count n :
  count_of (initial_incoming g) n = Z.of_nat (length (preds [] n)).
Proof.
  set (hits := List.filter (λ e : Node * list Node, includes e.2 n) (outgoing g)).
  transitivity (Z.of_nat (length hits)).
  - unfold initial_incoming, hits. set (m0 := foldl (λ m n, JsMap.set m n 0%Z) [] (nodes g)).
    assert (count_of m0 n = 0%Z) as Hm0 by by apply init_zero. clearbody m0.
    rewrite <- (Z.add_0_l (Z.of_nat _)), <- Hm0. clear Hm0. revert m0.
    pose proof (λ a ts Hin, targets_in g a ts Hg Hin) as Hts.
    assert (∀ a ts, (a, ts) ∈ outgoing g → NoDup ts) as Hnd.
    { intros a ts Hin. rewrite <- (Hts _ _ Hin). apply Hg. }
    clear Hts. unfold JsMap.values. induction (outgoing g) as [|[a ts] l IH]; intros m0; simpl.
    { lia. }
    rewrite IH by (intros; eapply Hnd; by right).
    rewrite bump_count by (eapply Hnd; left). unfold ind, includes.
    destruct (decide (n ∈ ts)); [rewrite bool_decide_true by done|rewrite bool_decide_false by done];
      cbn [length]; lia.
  - f_equal. rewrite <- (length_fmap fst hits). apply Permutation_length, NoDup_Permutation.
    + pose proof (wf_outgoing _ Hg) as Hwf. unfold JsMap.wf, JsMap.keys in Hwf. subst hits.
      clear -Hwf. induction (outgoing g) as [|e l IH]; simpl in *; [constructor|].
      apply NoDup_cons in Hwf as [He Hl]. case_match; [|by apply IH].
      simpl. constructor; [|by apply IH]. contradict He.
      apply list_elem_of_fmap in He as (y & -> & [Hy _]%elem_of_filterb).
      apply list_elem_of_fmap. eauto.
    + apply NoDup_filterb, Hg.
    + intros a. rewrite elem_of_preds, list_elem_of_fmap. unfold edge. split.
      * intros ([a' ts] & -> & [Hin Hn%includes_true]%elem_of_filterb). simpl.
        rewrite (targets_in _ _ _ Hg Hin). split; [done|apply not_elem_of_nil].
      * unfold targets. intros [Hn _]. destruct (JsMap.get (outgoing g) a) as [ts|] eqn:E;
          [|by apply elem_of_nil in Hn].
        exists (a, ts). split; [done|]. apply elem_of_filterb.
        split; [by apply JsMap.get_in|by apply includes_true].
Qed.

Lemma initial_has n : n ∈ nodes g → JsMap.has (initial_incoming g) n = true.
Proof.
  intros Hn. unfold initial_incoming. generalize (JsMap.values (outgoing g)). intros tss.
  assert (JsMap.has (foldl (λ m n, JsMap.set m n 0%Z) [] (nodes g)) n = true) as Hm
    by (apply init_has; auto).
  revert Hm. generalize (foldl (λ m n, JsMap.set m n 0%Z) [] (nodes g)).
  induction tss as [|ts tss IH]; intros m Hm; simpl; [done|]. by apply IH, bump_has.
Qed.

Lemma initial_ready_spec n :
  n ∈ initial_ready g compare ↔ n ∈ nodes g ∧ count_of (initial_incoming g) n = 0%Z.
Proof.
  unfold initial_ready. rewrite elem_of_js_sort, elem_of_filterb, bool_decide_eq_true.
  split; intros [Hn Hc]; (split; [done|]).
  - unfold count_of. by rewrite Hc.
  - pose proof (initial_has n Hn) as Hh. unfold JsMap.has, count_of in *.
    destruct (JsMap.get _ n); [by f_equal|done].
Qed.

Lemma release_fold ts incoming ready :
  NoDup ts →
  let '(incoming', ready') := foldl (release compare) (incoming, ready) ts in
  (∀ x, count_of incoming' x = count_of incoming x - ind (x ∈ ts))%Z ∧
  ready' ≡ₚ ready ++ List.filter (λ t, (count_of incoming t =? 1)%Z) ts.
Proof.
  intros Hts. revert incoming ready. induction Hts as [|t ts Ht Hts IH]; intros incoming ready.
  - simpl. split; [|by rewrite app_nil_r]. intros x. unfold ind.
    rewrite decide_False by apply not_elem_of_nil. lia.
  - cbn [foldl release]. cbv zeta.
    specialize (IH (JsMap.set incoming t (count_of incoming t - 1)%Z)
      (if (count_of incoming t - 1 =? 0)%Z then js_sort compare (ready ++ [t]) else ready)).
    destruct (foldl (release compare) _ ts) as [inc' rdy']. destruct IH as [Hc Hr]. split.
    + intros x. rewrite Hc, count_set. unfold ind.
      destruct (decide (t = x)) as [->|Hne].
      * rewrite (decide_False (P := x ∈ ts)), decide_True by (done || left). lia.
      * destruct (decide (x ∈ ts)), (decide (x ∈ t :: ts)) as [Hx|Hx]; try lia.
        -- destruct Hx. by right.
        -- by apply elem_of_cons in Hx as [->|].
    + rewrite Hr. assert (List.filter (λ t0, (count_of (JsMap.set incoming t
        (count_of incoming t - 1)) t0 =? 1)%Z) ts =
        List.filter (λ t0, (count_of incoming t0 =? 1)%Z) ts) as ->.
      { clear -Ht. induction ts as [|y ts IH]; [done|]. apply not_elem_of_cons in Ht as [? ?].
        simpl. rewrite count_set, decide_False, IH by done. done. }
      simpl. destruct (Z.eqb_spec (count_of incoming t - 1) 0), (Z.eqb_spec (count_of incoming t) 1);
        try lia; [|done].
      rewrite js_sort_perm, <- app_assoc. done.
Qed.

Definition forward (order : list Node) : Prop :=
  ∀ l1 b l2 a, order = l1 ++ b :: l2 → edge g a b → a ∈ l1.

Record topo_inv (incoming : jsmap Node Z) (ready order : list Node) : Prop := {
  ti_nodup : NoDup (order ++ ready);
  ti_sub n : n ∈ order ++ ready → n ∈ nodes g;
  ti_count n : n ∈ nodes g → count_of incoming n = Z.of_nat (length (preds order n));
  ti_ready n : n ∈ nodes g → n ∈ order ++ ready ↔ count_of incoming n = 0%Z;
  ti_order : forward order;
}.

Lemma topo_inv_init : topo_inv (initial_incoming g) (initial_ready g compare) [].
Proof.
  split; simpl.
  - unfold initial_ready. apply NoDup_js_sort, NoDup_filterb, Hg.
  - intros n Hn. by apply initial_ready_spec.
  - intros. apply initial_count.
  - intros n Hn. rewrite initial_ready_spec. naive_solver.
  - intros l1 b l2 a E. by apply app_cons_not_nil in E.
Qed.

Lemma topo_inv_step incoming n ready order :
  topo_inv incoming (n :: ready) order →
  let '(incoming', ready') :=
    foldl (release compare) (incoming, ready) (js_sort compare (targets g n)) in
  topo_inv incoming' ready' (order ++ [n]).
Proof.
  intros Hinv. assert (n ∈ nodes g) as Hn by (apply Hinv; set_solver).
  assert (n ∉ order) as Hno.
  { pose proof (ti_nodup _ _ _ Hinv) as Hnd. apply NoDup_app in Hnd as (_ & Hd & _).
    intros Hin. apply (Hd n Hin). left. }
  assert (count_of incoming n = 0%Z) as Hn0 by (apply Hinv; set_solver).
  assert (∀ a, edge g a n → a ∈ order) as Hpre.
  { intros a Ha. rewrite (ti_count _ _ _ Hinv) in Hn0 by done.
    assert (preds order n = []) as Hnil by (apply nil_length_inv; lia).
    destruct (decide (a ∈ order)) as [|Hna]; [done|].
    assert (a ∈ preds order n) as Hin by by apply elem_of_preds.
    rewrite Hnil in Hin. by apply elem_of_nil in Hin. }
  pose proof (release_fold (js_sort compare (targets g n)) incoming ready) as Hrel.
  destruct (foldl _ _ _) as [inc' rdy']. destruct Hrel as [Hc Hr];
    [apply NoDup_js_sort, Hg|].
  rewrite js_sort_perm in Hr. set (fresh := List.filter _ (targets g n)) in Hr.
  assert (∀ x, count_of inc' x = (count_of incoming x - ind (x ∈ targets g n))%Z) as Hc'.
  { intros x. rewrite Hc. f_equal. unfold ind. do 2 case_decide; rewrite elem_of_js_sort in *; done. }
  assert (∀ x, x ∈ targets g n → x ∈ nodes g ∧ (1 ≤ count_of incoming x)%Z) as Hpos.
  { intros x Hx. assert (x ∈ nodes g) as Hxn by apply (wf_edges _ Hg n x Hx). split; [done|].
    rewrite (ti_count _ _ _ Hinv) by done. assert (n ∈ preds order x) as Hin
      by by apply elem_of_preds.
    destruct (preds order x); [by apply elem_of_nil in Hin|simpl; lia]. }
  assert (∀ x, x ∈ fresh ↔ x ∈ targets g n ∧ count_of incoming x = 1%Z) as Hfresh.
  { intros x. unfold fresh. by rewrite elem_of_filterb, Z.eqb_eq. }
  assert ((order ++ [n]) ++ rdy' ≡ₚ (order ++ n :: ready) ++ fresh) as Hperm.
  { rewrite Hr, <- !app_assoc. done. }
  split.
  - rewrite Hperm. apply NoDup_app. split_and!; [apply Hinv| |apply NoDup_filterb, Hg].
    intros x Hx [Ht Hc1]%Hfresh. destruct (Hpos x Ht) as [Hxn ?].
    apply (ti_ready _ _ _ Hinv) in Hx; [lia|done].
  - intros x. rewrite Hperm, elem_of_app. intros [Hx|[Hx _]%Hfresh];
      [by apply Hinv|by apply Hpos].
  - intros x Hx. rewrite Hc', preds_snoc, (ti_count _ _ _ Hinv) by done. done.
  - intros x Hx. rewrite Hperm, elem_of_app, (ti_ready _ _ _ Hinv), Hfresh, Hc' by done.
    unfold ind. destruct (decide (x ∈ targets g n)) as [Ht|Ht].
    + destruct (Hpos x Ht). split; [intros [|[]]; lia|]. intros. right. split; [done|lia].
    + rewrite Z.sub_0_r. naive_solver.
  - intros l1 b l2 a E Hab. destruct (decide (l2 = [])) as [->|Hl2].
    + apply app_inj_tail in E as [<- <-]. auto.
    + destruct (exists_last Hl2) as (l2' & z & ->).
      change (b :: l2' ++ [z]) with ((b :: l2') ++ [z]) in E. rewrite app_assoc in E.
      apply app_inj_tail in E as [-> _]. by eapply (ti_order _ _ _ Hinv).
Qed.

Lemma topo_inv_length incoming ready order :
  topo_inv incoming ready order → length (order ++ ready) ≤ length (nodes g).
Proof.
  intros Hinv. apply submseteq_length, NoDup_submseteq; [apply Hinv|].
  intros x. apply Hinv.
Qed.

(** The fuel is enough, and the loop ends with nothing ready. *)
Lemma topo_loop_total fuel : ∀ incoming ready order,
  topo_inv incoming ready order → length (nodes g) ≤ fuel + length order →
  ∃ incoming' order', topo_loop fuel g compare incoming ready order = Some order' ∧
    topo_inv incoming' [] order'.
Proof.
  induction fuel as [|fuel IH]; intros incoming [|n ready] order Hinv Hf; simpl; eauto.
  - apply topo_inv_length in Hinv. rewrite length_app in Hinv. simpl in *. lia.
  - pose proof (topo_inv_step _ _ _ _ Hinv) as Hstep. destruct (foldl _ _ _) as [inc' rdy'].
    apply IH; [done|]. rewrite length_app. simpl. lia.
Qed.

Lemma topo_loop_run :
  ∃ incoming order,
    topo_loop (graph_size g) g compare (initial_incoming g) (initial_ready g compare) [] =
      Some order ∧ topo_inv incoming [] order.
Proof. apply topo_loop_total; [apply topo_inv_init|]. unfold graph_size. simpl. lia. Qed.

(** ** Cycles *)

(** A finite set in which every node has a predecessor has a cycle. *)
Lemma walk_back (R : Node → Node → Prop) (S : list Node) k x :
  (∀ y, y ∈ S → ∃ z, z ∈ S ∧ R z y) → x ∈ S →
  ∃ walk, length walk = k ∧ (∀ y, y ∈ walk → y ∈ S) ∧ StronglySorted (tc R) (walk ++ [x]).
Proof.
  intros Hpre Hx. induction k as [|k (walk & Hl & Hin & Hs)].
  - exists []. split_and!; [done|by intros ? ?%elem_of_nil|repeat constructor].
  - assert (∃ y rest, walk ++ [x] = y :: rest ∧ y ∈ S) as (y & rest & E & Hy).
    { destruct walk as [|y walk]; [by exists x, []|]. exists y, (walk ++ [x]).
      split; [done|]. apply Hin. left. }
    destruct (Hpre y Hy) as (z & Hz & Hzy). exists (z :: walk). split_and!.
    + simpl. by rewrite Hl.
    + intros w [->|Hw]%elem_of_cons; auto.
    + simpl. constructor; [done|]. rewrite E in *. apply StronglySorted_inv in Hs as [_ Hy'].
      constructor; [by apply tc_once|]. eapply Forall_impl; [exact Hy'|].
      intros w Hw. by eapply tc_l.
Qed.

Lemma sorted_NoDup (R : Node → Node → Prop) l :
  StronglySorted (tc R) l → NoDup l ∨ ∃ a, tc R a a.
Proof.
  induction 1 as [|a l Hl IH Ha]; [left; constructor|].
  destruct IH as [IH|]; [|by right]. destruct (decide (a ∈ l)) as [Hin|Hin].
  - right. exists a. rewrite Forall_forall in Ha. by apply Ha.
  - left. by constructor.
Qed.

Lemma no_source_cycle (R : Node → Node → Prop) (S : list Node) x :
  (∀ y, y ∈ S → ∃ z, z ∈ S ∧ R z y) → x ∈ S → ∃ a, tc R a a.
Proof.
  intros Hpre Hx. destruct (walk_back R S (length S) x Hpre Hx) as (walk & Hl & Hin & Hs).
  apply sorted_NoDup in Hs as [Hs|]; [|done].
  assert (length (walk ++ [x]) ≤ length S) as Hle.
  { apply submseteq_length, NoDup_submseteq; [done|]. intros y. set_solver. }
  rewrite length_app in Hle. simpl in Hle. lia.
Qed.

Lemma forward_tc order a b :
  NoDup order → forward order → tc (edge g) a b →
  ∀ l1 l2, order = l1 ++ b :: l2 → a ∈ l1.
Proof.
  intros Hnd Hf Hab. induction Hab as [a b Hab|a c b Hac _ IH]; intros l1 l2 E.
  - by eapply Hf.
  - specialize (IH _ _ E). apply list_elem_of_split in IH as (k1 & k2 & ->).
    rewrite <- app_assoc in E. simpl in E. rewrite elem_of_app. left. by eapply Hf.
Qed.

Lemma tc_edge_node a b : tc (edge g) a b → a ∈ nodes g.
Proof.
  destruct 1 as [a b Hab|a c b Hac _];
    [apply (wf_edges _ Hg a b Hab)|apply (wf_edges _ Hg a c Hac)].
Qed.

Lemma forward_acyclic order :
  NoDup order → order ≡ₚ nodes g → forward order → ∀ a, ¬ tc (edge g) a a.
Proof.
  intros Hnd Hp Hf a Haa.
  assert (a ∈ order) as Hin.
  { rewrite Hp. by eapply tc_edge_node. }
  apply list_elem_of_split in Hin as (l1 & l2 & ->).
  pose proof (forward_tc _ _ _ Hnd Hf Haa _ _ eq_refl) as Hin.
  apply NoDup_app in Hnd as (_ & Hd & _). apply (Hd a Hin). left.
Qed.

(** When the order is partial, the remaining nodes have a cycle. *)
Lemma rest_has_cycle incoming order :
  topo_inv incoming [] order → length order ≠ length (nodes g) → ∃ a, tc (edge g) a a.
Proof.
  intros Hinv Hlen. set (rest := List.filter (λ n, negb (includes order n)) (nodes g)).
  assert (∀ n, n ∈ rest ↔ n ∈ nodes g ∧ n ∉ order) as Hrest.
  { intros n. unfold rest. by rewrite elem_of_filterb, negb_true_iff, includes_false. }
  assert (∃ x, x ∈ rest) as [x Hx].
  { destruct rest as [|x l]; [|exists x; left]. destruct Hlen.
    pose proof (topo_inv_length _ _ _ Hinv) as Hle. rewrite app_nil_r in Hle.
    apply Nat.le_antisymm; [done|]. apply submseteq_length, NoDup_submseteq; [apply Hg|].
    intros n Hn. destruct (decide (n ∈ order)) as [|Hno]; [done|].
    assert (n ∈ @nil Node) as Hnil by by apply Hrest. by apply elem_of_nil in Hnil. }
  apply (no_source_cycle (edge g) rest x); [|done].
  intros y [Hy Hyo]%Hrest. pose proof (ti_ready _ _ _ Hinv y Hy) as Hc.
  rewrite app_nil_r, (ti_count _ _ _ Hinv) in Hc by done.
  destruct (preds order y) as [|z l] eqn:E; [destruct Hyo; by apply Hc|].
  assert (z ∈ preds order y) as Hz by (rewrite E; left). apply elem_of_preds in Hz as [Hz Hzo].
  exists z. split; [|done]. apply Hrest. split; [apply (wf_edges _ Hg z y Hz)|done].
Qed.
End topo.

(** ** The order depends on the graph only *)
Section canonical.
Context {Node : Type} `{EqDecision Node} (compare : Node → Node → Z) `{!TotalComparator compare}.

Lemma js_sort_total_eq (l l' : list Node) : l ≡ₚ l' → js_sort compare l = js_sort compare l'.
Proof. intros. apply js_sort_perm_eq; [apply _|intros; by apply (cmp_eq (cmp := compare))|done]. Qed.

(** Two graphs with the same nodes and edges, whatever the order they are kept in. *)
Definition same_graph (g g' : DirectedGraph Node) : Prop :=
  nodes g ≡ₚ nodes g' ∧ ∀ a b, edge g a b ↔ edge g' a b.

Lemma release_ext ts : ∀ incoming incoming' ready,
  (∀ x, count_of incoming x = count_of incoming' x) →
  let r := foldl (release compare) (incoming, ready) ts in
  let r' := foldl (release compare) (incoming', ready) ts in
  (∀ x, count_of r.1 x = count_of r'.1 x) ∧ r.2 = r'.2.
Proof.
  induction ts as [|t ts IH]; intros inc inc' ready Hc; [done|].
  cbn [foldl release]. cbv zeta. rewrite <- (Hc t). apply IH.
  intros x. rewrite !count_set. by case_decide.
Qed.

Section two_graphs.
Context (g g' : DirectedGraph Node) (Hg : wf_graph g) (Hg' : wf_graph g')
  (Hsame : same_graph g g').

Lemma same_targets n : js_sort compare (targets g n) = js_sort compare (targets g' n).
Proof.
  apply js_sort_total_eq, NoDup_Permutation; [apply Hg|apply Hg'|]. intros x. apply Hsame.
Qed.

Lemma same_count n : count_of (initial_incoming g) n = count_of (initial_incoming g') n.
Proof.
  rewrite !initial_count by done. f_equal. apply Permutation_length, NoDup_Permutation.
  - apply NoDup_filterb, Hg.
  - apply NoDup_filterb, Hg'.
  - intros a. rewrite !elem_of_preds by done. destruct Hsame as [_ He]. by rewrite He.
Qed.

Lemma same_ready : initial_ready g compare = initial_ready g' compare.
Proof.
  apply (sorted_unique compare).
  - intros x y _ _. apply (cmp_eq (cmp := compare)).
  - apply js_sort_sorted, _.
  - apply js_sort_sorted, _.
  - apply NoDup_Permutation.
    + apply NoDup_js_sort, NoDup_filterb, Hg.
    + apply NoDup_js_sort, NoDup_filterb, Hg'.
    + intros x. rewrite !initial_ready_spec, same_count by done. destruct Hsame as [Hn _].
      by rewrite Hn.
Qed.

Lemma same_loop fuel fuel' : ∀ incoming incoming' ready order r r',
  (∀ x, count_of incoming x = count_of incoming' x) →
  topo_loop fuel g compare incoming ready order = Some r →
  topo_loop fuel' g' compare incoming' ready order = Some r' → r = r'.
Proof.
  revert fuel'. induction fuel as [|fuel IH]; intros [|fuel'] inc inc' [|n ready] order r r' Hc;
    cbn [topo_loop]; try congruence.
  rewrite same_targets. pose proof (release_ext (js_sort compare (targets g' n)) _ _ ready Hc) as [H1 H2].
  destruct (foldl _ (inc, ready) _) as [i rd], (foldl _ (inc', ready) _) as [i' rd'].
  simpl in *. subst. by apply IH.
Qed.
End two_graphs.
End canonical.

(** ** What the order guarantees *)

Lemma topologicalOrder_result {Node} `{EqDecision Node} (g : DirectedGraph Node)
    (compare : Node → Node → Z) :
  wf_graph g →
  match topologicalOrder g compare with
  | Some order => order ≡ₚ nodes g ∧ forward g order ∧ ∀ a, ¬ tc (edge g) a a
  | None => ∃ a, tc (edge g) a a
  end.
Proof.
  intros Hg. destruct (topo_loop_run g compare Hg) as (incoming & order & E & Hinv).
  unfold topologicalOrder. rewrite E. simpl.
  destruct (Nat.eqb_spec (length order) (length (nodes g))) as [Hl|Hl];
    [|by eapply rest_has_cycle].
  pose proof (ti_nodup _ _ _ _ Hinv) as Hnd. rewrite app_nil_r in Hnd.
  assert (order ≡ₚ nodes g) as Hp.
  { apply submseteq_length_Permutation; [|lia]. apply NoDup_submseteq; [done|].
    intros n Hn. apply (ti_sub _ _ _ _ Hinv). set_solver. }
  split_and!; [done|apply Hinv|]. eapply forward_acyclic; [done..|apply Hinv].
Qed.

(** C29. [topologicalOrder] returns a permutation of the nodes in which every
    edge goes forward, exactly when the graph has no cycle; its loop always
    ends. *)
Theorem topologicalOrder_correct {Node} `{EqDecision Node} (g : DirectedGraph Node)
    (compare : Node → Node → Z) :
  wf_graph g →
  match topologicalOrder g compare with
  | Some order => order ≡ₚ nodes g ∧ forward g order ∧ ∀ a, ¬ tc (edge g) a a
  | None => ∃ a, tc (edge g) a a
  end.
Proof. apply topologicalOrder_result. Qed.

(** a -> c, b -> c *)
Definition diamond_example : DirectedGraph Z :=
  {| nodes := [3; 1; 2]%Z; outgoing := [(1, [3]); (2, [3]); (3, [])]%Z |}.
Lemma diamond_wf : wf_graph diamond_example.
Proof.
  assert (∀ n ts, JsMap.get (outgoing diamond_example) n = Some ts →
            (n = 1 ∧ ts = [3]) ∨ (n = 2 ∧ ts = [3]) ∨ ts = [])%Z as Hget.
  { intros n ts. simpl. repeat case_bool_decide; naive_solver. }
  split.
  - by apply (bool_decide_unpack _).
  - by apply (bool_decide_unpack _).
  - intros n. unfold targets. destruct (JsMap.get _ n) as [ts|] eqn:E; simpl; [|constructor].
    apply Hget in E as [[_ ->]|[[_ ->]| ->]]; by apply (bool_decide_unpack _).
  - unfold edge, targets. intros a b. destruct (JsMap.get _ a) as [ts|] eqn:E; simpl;
      [|by intros ?%elem_of_nil].
    apply Hget in E as [[-> ->]|[[-> ->]| ->]]; [| |by intros ?%elem_of_nil];
      intros ->%list_elem_of_singleton; split; by apply (bool_decide_unpack _).
Qed.

Example topologicalOrder_correct_witness :
  [1; 2; 3]%Z ≡ₚ nodes diamond_example ∧ forward diamond_example [1; 2; 3]%Z ∧
  ∀ a, ¬ tc (edge diamond_example) a a.
Proof. exact (topologicalOrder_correct diamond_example Z.sub diamond_wf). Defined.

(** The topological order is canonical: two presentations of the same
    graph, with their maps and sets filled in any order, give the same result. *)
Theorem topologicalOrder_canonical {Node} `{EqDecision Node} (compare : Node → Node → Z)
    `{!TotalComparator compare} (g g' : DirectedGraph Node) :
  wf_graph g → wf_graph g' → same_graph g g' →
  topologicalOrder g compare = topologicalOrder g' compare.
Proof.
  intros Hg Hg' Hsame.
  destruct (topo_loop_run g compare Hg) as (i & order & E & _).
  destruct (topo_loop_run g' compare Hg') as (i' & order' & E' & _).
  unfold topologicalOrder. rewrite E, E'. simpl.
  assert (order = order') as ->.
  { rewrite (same_ready compare g g' Hg Hg' Hsame) in E.
    by eapply (same_loop compare g g' Hg Hg' Hsame); [apply (same_count compare g g' Hg Hg' Hsame)|..]. }
  destruct Hsame as [Hn _]. by rewrite Hn.
Qed.

Example topologicalOrder_canonical_witness :
  topologicalOrder diamond_example Z.sub = topologicalOrder diamond_example Z.sub.
Proof. apply (topologicalOrder_canonical Z.sub); [apply diamond_wf..|done]. Defined.
