(* ===== verification/Scc.v ===== *)
(** * Tarjan's algorithm finds the strongly connected components

    The proof follows the recursion of [visit] in Graph.v. Every stack node
    reaches a node whose call is still open (a gray node); an emitted component
    is closed together with what was emitted before it. *)

From S2P Require Import Prelude JsString Collections Graph TopoOrder.

Section scc.
Context {Node : Type} `{EqDecision Node} (g : DirectedGraph Node)
  (compare : Node → Node → Z) (Hg : wf_graph g).
Implicit Types (st : @scc_state Node) (gray : list Node) (v x y : Node).

Abbreviation reaches := (rtc (edge g)).

Definition visited st x : Prop := JsMap.has (indices st) x = true.
Definition emitted st : list Node := concat (components st).

(** Mutual reachability, and its classes. *)
Definition is_scc (C : list Node) : Prop :=
  C ≠ [] ∧ ∀ a, a ∈ C → ∀ b, b ∈ C ↔ reaches a b ∧ reaches b a.

Record inv st gray : Prop := {
  i_nodup : NoDup (stack st ++ emitted st);
  i_visited x : visited st x ↔ x ∈ stack st ∨ x ∈ emitted st;
  i_onstack x : x ∈ onStack st ↔ x ∈ stack st;
  i_sorted : StronglySorted (λ a b, index_of st b < index_of st a)%Z (stack st);
  i_next x : visited st x → (index_of st x < nextIndex st)%Z;
  i_low x : visited st x → JsMap.has (lowLinks st) x = true;
  i_closed x y : x ∈ emitted st → edge g x y → y ∈ emitted st;
  i_scc C : C ∈ components st → is_scc C;
  i_gray x : x ∈ gray → x ∈ stack st;
  i_reach x : x ∈ stack st → ∃ z, z ∈ gray ∧ reaches x z;
  i_nodes x : visited st x → x ∈ nodes g;
}.

(** What a call keeps of the state before it. *)
Record extends st st' : Prop := {
  e_visited x : visited st x → visited st' x;
  e_index x : visited st x → index_of st' x = index_of st x;
  e_low x : visited st x → low_of st' x = low_of st x;
  e_emitted x : x ∈ emitted st → x ∈ emitted st';
  e_next : (nextIndex st ≤ nextIndex st')%Z;
}.

Lemma extends_trans st1 st2 st3 : extends st1 st2 → extends st2 st3 → extends st1 st3.
Proof.
  intros H1 H2. split.
  - intros x Hx. by apply H2, H1.
  - intros x Hx. rewrite (e_index _ _ H2); [by apply H1|by apply H1].
  - intros x Hx. rewrite (e_low _ _ H2); [by apply H1|by apply H1].
  - intros x Hx. by apply H2, H1.
  - pose proof (e_next _ _ H1). pose proof (e_next _ _ H2). lia.
Qed.

(** [y] was emitted, or is on the stack at [low] or above. *)
Definition covered st (low : Z) y : Prop :=
  y ∈ emitted st ∨ y ∈ stack st ∧ (low ≤ index_of st y)%Z.

(** The state after [visit] returned from [v]: [T] is what it left on the stack. *)
Record visit_post st gray v st' (T : list Node) : Prop := {
  p_inv : inv st' gray;
  p_extends : extends st st';
  p_stack : stack st' = T ++ stack st;
  p_above x : x ∈ T → (nextIndex st ≤ index_of st' x)%Z;
  p_from x : x ∈ T → reaches v x;
  p_covered x y : x ∈ T → edge g x y → covered st' (low_of st' v) y;
  p_self : covered st' (low_of st' v) v;
  p_visited : visited st' v;
  p_low : (v ∈ emitted st' ∧ (nextIndex st ≤ low_of st' v)%Z) ∨
          ∃ y, y ∈ stack st' ∧ index_of st' y = low_of st' v ∧ reaches v y;
}.

(** The state in the loop over the neighbors of [v]; [seen] are those done. *)
Record visit_loop st gray v st' (T seen : list Node) : Prop := {
  l_inv : inv st' (v :: gray);
  l_extends : extends st st';
  l_stack : stack st' = T ++ v :: stack st;
  l_visited : visited st' v;
  l_index : index_of st' v = nextIndex st;
  l_next : (nextIndex st < nextIndex st')%Z;
  l_above x : x ∈ T → (nextIndex st < index_of st' x)%Z;
  l_from x : x ∈ T → reaches v x;
  l_covered x y : x ∈ T → edge g x y → covered st' (low_of st' v) y;
  l_seen y : y ∈ seen → covered st' (low_of st' v) y;
  l_le : (low_of st' v ≤ index_of st' v)%Z;
  l_low : ∃ y, y ∈ stack st' ∧ index_of st' y = low_of st' v ∧ reaches v y;
}.

(** ** The primitives *)
Lemma pop_component_spec v T S (onStack comp : list Node) :
  v ∉ T →
  let '(S', onStack', comp') := pop_component v (T ++ v :: S) onStack comp in
  S' = S ∧ comp' = comp ++ T ++ [v] ∧
  ∀ x, x ∈ onStack' ↔ x ∈ onStack ∧ x ∉ T ++ [v].
Proof.
  assert (∀ (n x : Node) (s : list Node), x ∈ set_remove n s ↔ x ∈ s ∧ x ≠ n) as Hrm.
  { intros n x s. unfold set_remove. by rewrite elem_of_filterb, negb_true_iff, bool_decide_eq_false. }
  revert onStack comp. induction T as [|t T IH]; intros os comp Hv; cbn [app pop_component]; cbv zeta.
  - rewrite bool_decide_true by done. split_and!; [done..|]. intros x.
    rewrite Hrm. set_solver.
  - apply not_elem_of_cons in Hv as [Hne Hv]. rewrite bool_decide_false by done.
    specialize (IH (set_remove t os) (comp ++ [t]) Hv).
    destruct (pop_component _ _ _ _) as [[S' os'] comp']. destruct IH as (-> & -> & Ho).
    split_and!; [done|by rewrite <- app_assoc|]. intros x. rewrite Ho, Hrm. set_solver.
Qed.

Lemma visited_enter st v x : visited (enter st v) x ↔ x = v ∨ visited st x.
Proof.
  unfold visited, enter. cbn [indices]. rewrite has_set, orb_true_iff, bool_decide_eq_true.
  naive_solver.
Qed.

Lemma index_enter st v x :
  index_of (enter st v) x = if decide (v = x) then nextIndex st else index_of st x.
Proof. apply (count_set (indices st)). Qed.
Lemma low_enter st v x :
  low_of (enter st v) x = if decide (v = x) then nextIndex st else low_of st x.
Proof. apply (count_set (lowLinks st)). Qed.
Lemma low_set_low st v k x :
  low_of (set_low st v k) x = if decide (v = x) then k else low_of st x.
Proof. apply (count_set (lowLinks st)). Qed.

Lemma inv_index_inj st gray x y :
  inv st gray → x ∈ stack st → y ∈ stack st → index_of st x = index_of st y → x = y.
Proof.
  intros Hi. pose proof (i_sorted _ _ Hi) as Hs. clear Hi.
  induction Hs as [|a l Hl IH Ha]; [by intros ?%elem_of_nil|]. rewrite Forall_forall in Ha.
  intros [->|Hx]%elem_of_cons [->|Hy]%elem_of_cons E; [done|..|by auto].
  - specialize (Ha _ Hy). lia.
  - specialize (Ha _ Hx). lia.
Qed.

Lemma not_visited st gray v : inv st gray → ¬ visited st v → v ∉ stack st ∧ v ∉ emitted st.
Proof. intros Hi Hv. rewrite (i_visited _ _ Hi) in Hv. naive_solver. Qed.

Lemma enter_loop st gray v :
  inv st gray → ¬ visited st v → v ∈ nodes g →
  visit_loop st gray v (enter st v) [] [].
Proof.
  intros Hi Hv Hn. destruct (not_visited _ _ _ Hi Hv) as [Hvs Hve].
  assert (∀ x, visited st x → v ≠ x) as Hne by (intros ? ? ->; done).
  split; try (by intros ? ?%elem_of_nil); try (by intros ? ? ?%elem_of_nil).
  - split.
    + cbn [stack enter]. simpl. constructor; [|apply Hi]. rewrite elem_of_app. by intros [].
    + intros x. rewrite visited_enter, (i_visited _ _ Hi). cbn [stack enter].
      rewrite elem_of_cons. unfold emitted. cbn [components enter]. naive_solver.
    + intros x. cbn [onStack stack enter]. pose proof (i_onstack _ _ Hi x).
      destruct (includes _ v) eqn:E.
      * apply includes_true, (i_onstack _ _ Hi) in E. done.
      * rewrite elem_of_app, list_elem_of_singleton, elem_of_cons. naive_solver.
    + cbn [stack enter]. constructor.
      * pose proof (i_sorted _ _ Hi) as Hs.
        assert (∀ x, x ∈ stack st → index_of (enter st v) x = index_of st x) as Hk.
        { intros x Hx. rewrite index_enter, decide_False; [done|]. by intros ->. }
        revert Hs Hk. generalize (stack st). intros S Hs Hk.
        induction Hs as [|a l Hl IH Ha]; constructor.
        -- apply IH. intros. apply Hk. by right.
        -- rewrite Forall_forall in *. intros b Hb. rewrite !Hk by first [by right|left]. auto.
      * apply Forall_forall. intros x Hx.
        rewrite !index_enter, decide_False, decide_True by (done || by intros ->).
        apply (i_next _ _ Hi), (i_visited _ _ Hi). auto.
    + intros x. rewrite visited_enter, index_enter. cbn [nextIndex enter].
      destruct (decide (v = x)); [lia|]. intros [->|Hx]; [done|]. apply (i_next _ _ Hi) in Hx. lia.
    + intros x. rewrite visited_enter. cbn [lowLinks enter].
      rewrite has_set, orb_true_iff, bool_decide_eq_true. intros [->|Hx]; [by left|].
      right. by apply (i_low _ _ Hi).
    + apply Hi.
    + apply Hi.
    + intros x. cbn [stack enter]. rewrite !elem_of_cons. intros [->|Hx]; [by left|].
      right. by apply (i_gray _ _ Hi).
    + intros x. cbn [stack enter]. rewrite elem_of_cons. intros [->|Hx].
      * exists v. split; [left|done].
      * destruct (i_reach _ _ Hi x Hx) as (z & ? & ?). exists z. split; [by right|done].
    + intros x. rewrite visited_enter. intros [->|Hx]; [done|by apply (i_nodes _ _ Hi)].
  - split.
    + intros x Hx. apply visited_enter. by right.
    + intros x Hx. rewrite index_enter, decide_False; [done|by apply Hne].
    + intros x Hx. rewrite low_enter, decide_False; [done|by apply Hne].
    + done.
    + cbn [nextIndex enter]. lia.
  - done.
  - apply visited_enter. by left.
  - by rewrite index_enter, decide_True.
  - cbn [nextIndex enter]. lia.
  - rewrite low_enter, index_enter, !decide_True by done. lia.
  - exists v. rewrite low_enter, index_enter, !decide_True by done.
    split_and!; [left|done|done].
Qed.

Lemma inv_set_low st gray v k : inv st gray → inv (set_low st v k) gray.
Proof.
  intros Hi. split; try solve [apply Hi]. intros x Hx. cbn [lowLinks set_low].
  rewrite has_set, orb_true_iff. right. by apply (i_low _ _ Hi).
Qed.

Lemma covered_mono st st' gray low low' y :
  inv st gray → extends st st' → (∀ x, x ∈ stack st → x ∈ stack st') → (low' ≤ low)%Z →
  covered st low y → covered st' low' y.
Proof.
  intros Hi He Hs Hl [Hy|[Hy Hle]]; [left; by apply He|right].
  split; [by apply Hs|]. rewrite (e_index _ _ He) by (apply (i_visited _ _ Hi); auto). lia.
Qed.

Lemma covered_set_low st v k low y : covered (set_low st v k) low y ↔ covered st low y.
Proof. done. Qed.

(** ** The three kinds of neighbor *)
Lemma loop_call st gray v st1 T seen w st2 T' :
  ¬ visited st v →
  visit_loop st gray v st1 T seen → edge g v w → visit_post st1 (v :: gray) w st2 T' →
  visit_loop st gray v (set_low st2 v (Z.min (low_of st2 v) (low_of st2 w))) (T' ++ T) (seen ++ [w]).
Proof.
  intros Hv Hl Hvw Hp. pose proof (l_inv _ _ _ _ _ _ Hl) as Hi1.
  pose proof (p_extends _ _ _ _ _ Hp) as He. pose proof (p_stack _ _ _ _ _ Hp) as Hs2.
  assert (low_of st2 v = low_of st1 v) as Hlv by (apply He, (l_visited _ _ _ _ _ _ Hl)).
  assert (∀ x, x ∈ stack st1 → visited st1 x) as Hsv by (intros; apply (i_visited _ _ Hi1); auto).
  assert (∀ x, x ∈ stack st1 → x ∈ stack st2) as Hss by (intros; rewrite Hs2; set_solver).
  assert (∀ low y, (low ≤ low_of st1 v)%Z → covered st1 (low_of st1 v) y → covered st2 low y)
    as Hcov by (intros; by eapply covered_mono).
  pose proof (l_le _ _ _ _ _ _ Hl) as Hle. pose proof (l_index _ _ _ _ _ _ Hl) as Hidx.
  assert (index_of st2 v = index_of st1 v) as Hiv by (apply He, (l_visited _ _ _ _ _ _ Hl)).
  set (k := Z.min (low_of st2 v) (low_of st2 w)).
  assert (low_of (set_low st2 v k) v = k) as Hk by (by rewrite low_set_low, decide_True).
  split; rewrite ?Hk.
  - by apply inv_set_low, Hp.
  - pose proof (extends_trans _ _ _ (l_extends _ _ _ _ _ _ Hl) He) as [? ? Hlo ? ?].
    split; try done. intros x Hx. rewrite low_set_low, decide_False; [by apply Hlo|].
    by intros ->.
  - cbn [stack set_low]. by rewrite Hs2, (l_stack _ _ _ _ _ _ Hl), <- app_assoc.
  - apply He, (l_visited _ _ _ _ _ _ Hl).
  - transitivity (index_of st2 v); [done|congruence].
  - pose proof (l_next _ _ _ _ _ _ Hl). pose proof (e_next _ _ He). cbn [nextIndex set_low]. lia.
  - intros x [Hx|Hx]%elem_of_app.
    + pose proof (p_above _ _ _ _ _ Hp x Hx) as Ha. pose proof (l_next _ _ _ _ _ _ Hl).
      unfold index_of in *. cbn [indices set_low]. lia.
    + change (nextIndex st < index_of st2 x)%Z. rewrite (e_index _ _ He).
      * by apply (l_above _ _ _ _ _ _ Hl).
      * apply Hsv. rewrite (l_stack _ _ _ _ _ _ Hl). set_solver.
  - intros x [Hx|Hx]%elem_of_app; [|by apply (l_from _ _ _ _ _ _ Hl)].
    eapply rtc_l; [exact Hvw|]. by apply (p_from _ _ _ _ _ Hp).
  - intros x y [Hx|Hx]%elem_of_app Hxy; rewrite covered_set_low.
    + destruct (p_covered _ _ _ _ _ Hp x y Hx Hxy) as [|[? ?]]; [by left|right]. split; [done|lia].
    + apply Hcov; [lia|]. by apply (l_covered _ _ _ _ _ _ Hl x).
  - intros y [Hy| ->%list_elem_of_singleton]%elem_of_app; rewrite covered_set_low.
    + apply Hcov; [lia|]. by apply (l_seen _ _ _ _ _ _ Hl).
    + destruct (p_self _ _ _ _ _ Hp) as [|[? ?]]; [by left|right]. split; [done|lia].
  - change (k ≤ index_of st2 v)%Z. lia.
  - destruct (l_low _ _ _ _ _ _ Hl) as (y & Hy & Hyi & Hvy).
    destruct (Z.le_gt_cases (low_of st1 v) (low_of st2 w)) as [Hc|Hc].
    + exists y. split_and!; [by apply Hss| |done].
      change (index_of st2 y = k). rewrite (e_index _ _ He) by by apply Hsv. lia.
    + destruct (p_low _ _ _ _ _ Hp) as [[_ Hnext]|(z & Hz & Hzi & Hwz)].
      * pose proof (l_next _ _ _ _ _ _ Hl). lia.
      * exists z. split_and!; [done| |by eapply rtc_l].
        change (index_of st2 z = k). lia.
Qed.

Lemma loop_on_stack st gray v st1 T seen w :
  ¬ visited st v →
  visit_loop st gray v st1 T seen → edge g v w → w ∈ stack st1 →
  visit_loop st gray v (set_low st1 v (Z.min (low_of st1 v) (index_of st1 w))) T (seen ++ [w]).
Proof.
  intros Hv Hl Hvw Hw. set (k := Z.min _ _).
  assert (low_of (set_low st1 v k) v = k) as Hk by (by rewrite low_set_low, decide_True).
  assert (∀ y, covered st1 (low_of st1 v) y → covered st1 k y) as Hcov.
  { intros y [|[? ?]]; [by left|right]. split; [done|lia]. }
  split; rewrite ?Hk; try solve [apply Hl].
  - apply inv_set_low, Hl.
  - destruct (l_extends _ _ _ _ _ _ Hl) as [? ? Hlo ? ?]. split; try done.
    intros x Hx. rewrite low_set_low, decide_False; [by apply Hlo|]. by intros ->.
  - apply (l_visited _ _ _ _ _ _ Hl).
  - apply (l_from _ _ _ _ _ _ Hl).
  - intros x y Hx Hxy. apply Hcov. by apply (l_covered _ _ _ _ _ _ Hl x).
  - intros y [Hy| ->%list_elem_of_singleton]%elem_of_app.
    + by apply Hcov, (l_seen _ _ _ _ _ _ Hl).
    + right. split; [done|]. change (k ≤ index_of st1 w)%Z. lia.
  - change (k ≤ index_of st1 v)%Z. pose proof (l_le _ _ _ _ _ _ Hl). lia.
  - destruct (l_low _ _ _ _ _ _ Hl) as (y & Hy & Hyi & Hvy).
    destruct (Z.le_gt_cases (low_of st1 v) (index_of st1 w)).
    + exists y. split_and!; [done| |done]. change (index_of st1 y = k). lia.
    + exists w. split_and!; [done| |by apply rtc_once]. change (index_of st1 w = k). lia.
Qed.

Lemma loop_skip st gray v st1 T seen w :
  visit_loop st gray v st1 T seen → visited st1 w → w ∉ stack st1 →
  visit_loop st gray v st1 T (seen ++ [w]).
Proof.
  intros Hl Hvis Hw. pose proof Hl as []. split; try done.
  intros y [Hy| ->%list_elem_of_singleton]%elem_of_app; [by apply (l_seen _ _ _ _ _ _ Hl)|].
  left. apply (i_visited _ _ (l_inv _ _ _ _ _ _ Hl)) in Hvis. naive_solver.
Qed.

(** ** The end of a call *)

Lemma loop_covered_all st gray v st1 T seen x y :
  visit_loop st gray v st1 T seen → (∀ w, edge g v w → w ∈ seen) →
  x ∈ T ++ [v] → edge g x y → covered st1 (low_of st1 v) y.
Proof.
  intros Hl Hseen [Hx| ->%list_elem_of_singleton]%elem_of_app Hxy.
  - by apply (l_covered _ _ _ _ _ _ Hl x).
  - by apply (l_seen _ _ _ _ _ _ Hl), Hseen.
Qed.

(** The nodes above [v], and those at [v] or below. *)
Lemma loop_segment st gray v st1 T seen y :
  inv st gray → visit_loop st gray v st1 T seen → y ∈ stack st1 →
  (index_of st1 v ≤ index_of st1 y)%Z ↔ y ∈ T ++ [v].
Proof.
  intros Hi Hl Hy. rewrite (l_index _ _ _ _ _ _ Hl). split.
  - rewrite (l_stack _ _ _ _ _ _ Hl) in Hy. intros Hle. rewrite elem_of_app, list_elem_of_singleton.
    apply elem_of_app in Hy as [|[|Hy]%elem_of_cons]; [by left|by right|].
    assert (visited st y) as Hvis by (apply (i_visited _ _ Hi); auto).
    rewrite (e_index _ _ (l_extends _ _ _ _ _ _ Hl)) in Hle by done.
    apply (i_next _ _ Hi) in Hvis. lia.
  - rewrite elem_of_app, list_elem_of_singleton. intros [Hx| ->].
    + apply (l_above _ _ _ _ _ _ Hl) in Hx. lia.
    + rewrite (l_index _ _ _ _ _ _ Hl). lia.
Qed.

Lemma finish_keep st gray v st1 T :
  inv st gray → ¬ visited st v →
  visit_loop st gray v st1 T (targets g v) → low_of st1 v ≠ index_of st1 v →
  visit_post st gray v st1 (T ++ [v]).
Proof.
  intros Hi Hv Hl Hne. pose proof (l_inv _ _ _ _ _ _ Hl) as Hi1.
  pose proof (l_extends _ _ _ _ _ _ Hl) as He. pose proof (l_stack _ _ _ _ _ _ Hl) as Hst.
  pose proof (l_le _ _ _ _ _ _ Hl) as Hle. pose proof (l_index _ _ _ _ _ _ Hl) as Hidx.
  assert (∃ z, z ∈ gray ∧ reaches v z) as (z & Hz & Hvz).
  { destruct (l_low _ _ _ _ _ _ Hl) as (y & Hy & Hyi & Hvy).
    assert (y ∉ T ++ [v]) as Hseg.
    { rewrite <- (loop_segment st gray v st1 T (targets g v)) by done. lia. }
    assert (y ∈ stack st) as Hys.
    { rewrite Hst in Hy. set_solver. }
    destruct (i_reach _ _ Hi y Hys) as (z & ? & ?). exists z. split; [done|by etrans]. }
  assert (v ∈ stack st1) as Hvs by (rewrite Hst; set_solver).
  split.
  - pose proof Hi1 as []. split; try done.
    + intros x Hx. rewrite Hst. apply (i_gray _ _ Hi) in Hx. set_solver.
    + intros x Hx. destruct (i_reach _ _ Hi1 x Hx) as (u & [->|Hu]%elem_of_cons & Hxu); [|eauto].
      exists z. split; [done|by etrans].
  - done.
  - by rewrite Hst, <- app_assoc.
  - intros x. rewrite elem_of_app, list_elem_of_singleton. intros [Hx| ->]; [|lia].
    apply (l_above _ _ _ _ _ _ Hl) in Hx. lia.
  - intros x. rewrite elem_of_app, list_elem_of_singleton. intros [Hx| ->]; [|done].
    by apply (l_from _ _ _ _ _ _ Hl).
  - intros x y Hx Hxy. by eapply loop_covered_all.
  - by right.
  - apply (l_visited _ _ _ _ _ _ Hl).
  - right. apply (l_low _ _ _ _ _ _ Hl).
Qed.

(** The segment above [v], closed and all reaching [v], is a component. *)
Lemma segment_scc st gray v st1 T :
  inv st gray → ¬ visited st v →
  visit_loop st gray v st1 T (targets g v) → low_of st1 v = index_of st1 v →
  (∀ x y, x ∈ T ++ [v] → edge g x y → y ∈ T ++ [v] ∨ y ∈ emitted st1) ∧ is_scc (T ++ [v]).
Proof.
  intros Hi Hv Hl Heq. pose proof (l_inv _ _ _ _ _ _ Hl) as Hi1.
  pose proof (l_stack _ _ _ _ _ _ Hl) as Hst.
  assert (∀ x y, x ∈ T ++ [v] → edge g x y → y ∈ T ++ [v] ∨ y ∈ emitted st1) as Hclosed.
  { intros x y Hx Hxy.
    destruct (loop_covered_all _ _ _ _ _ _ x y Hl (λ w Hw, Hw) Hx Hxy) as [|[Hy Hle]]; [by right|left].
    rewrite <- (loop_segment st gray v st1 T (targets g v)) by done. lia. }
  split; [done|].
  pose proof (i_nodup _ _ Hi1) as Hnd. rewrite Hst in Hnd.
  assert (∀ x, x ∈ T ++ [v] → x ∉ emitted st1) as Hdisj.
  { intros x Hx He. apply NoDup_app in Hnd as (_ & Hd & _). apply (Hd x); [set_solver|done]. }
  assert (∀ x, x ∈ gray → x ∉ T ++ [v]) as Hgray.
  { intros x Hx%(i_gray _ _ Hi) Hin. apply NoDup_app in Hnd as (Hnd & _ & _).
    change (v :: stack st) with ([v] ++ stack st) in Hnd. rewrite app_assoc in Hnd.
    apply NoDup_app in Hnd as (_ & Hd & _). by apply (Hd x). }
  assert (∀ x y, x ∈ T ++ [v] → reaches x y → y ∈ T ++ [v] ∨ y ∈ emitted st1) as Hpath.
  { intros x y Hx Hxy. apply (rtc_closed (edge g) (λ y, y ∈ T ++ [v] ∨ y ∈ emitted st1) x y); [|done|by left].
    intros a b [Ha|Ha] Hab; [by eapply Hclosed|right]. by eapply (i_closed _ _ Hi1). }
  assert (∀ x, x ∈ T ++ [v] → reaches x v) as Hto.
  { intros x Hx. assert (x ∈ stack st1) as Hxs by (rewrite Hst; set_solver).
    destruct (i_reach _ _ Hi1 x Hxs) as (z & [->|Hz]%elem_of_cons & Hxz); [done|].
    destruct (Hpath x z Hx Hxz) as [Hz'|Hz']; [by apply Hgray in Hz|].
    pose proof (i_gray _ _ Hi z Hz) as Hzs. apply NoDup_app in Hnd as (_ & Hd & _).
    destruct (Hd z); [set_solver|done]. }
  assert (∀ x, x ∈ T ++ [v] → reaches v x) as Hfrom.
  { intros x. rewrite elem_of_app, list_elem_of_singleton. intros [Hx| ->]; [|done].
    by apply (l_from _ _ _ _ _ _ Hl). }
  split; [by intros [_ ?]%app_nil|]. intros a Ha b. split.
  - intros Hb. split; (etrans; [|by apply Hfrom]); by apply Hto.
  - intros [Hab Hba]. destruct (Hpath a b Ha Hab) as [|Hb]; [done|].
    destruct (Hdisj a Ha).
    by apply (rtc_closed (edge g) (λ y, y ∈ emitted st1) b a); [apply (i_closed _ _ Hi1)|..].
Qed.

Lemma is_scc_perm C C' : C ≡ₚ C' → is_scc C → is_scc C'.
Proof.
  intros Hp [Hne HC]. split.
  - intros ->. by apply Permutation_nil_r in Hp.
  - intros a. rewrite <- Hp. intros Ha b. rewrite <- Hp. by apply HC.
Qed.

Lemma finish_emit st gray v st1 T :
  inv st gray → ¬ visited st v →
  visit_loop st gray v st1 T (targets g v) → low_of st1 v = index_of st1 v →
  visit_post st gray v (emit compare st1 v) [].
Proof.
  intros Hi Hv Hl Heq. pose proof (l_inv _ _ _ _ _ _ Hl) as Hi1.
  pose proof (l_extends _ _ _ _ _ _ Hl) as He. pose proof (l_stack _ _ _ _ _ _ Hl) as Hst.
  destruct (segment_scc _ _ _ _ _ Hi Hv Hl Heq) as [Hclosed Hscc].
  pose proof (i_nodup _ _ Hi1) as Hnd. rewrite Hst in Hnd.
  assert (v ∉ T) as HvT.
  { apply NoDup_app in Hnd as (Hnd & _ & _). apply NoDup_app in Hnd as (_ & Hd & _).
    intros HT. apply (Hd v HT). left. }
  pose proof (pop_component_spec v T (stack st) (onStack st1) [] HvT) as Hpop.
  unfold emit. rewrite Hst. destruct (pop_component _ _ _ _) as [[S' os'] C].
  destruct Hpop as (-> & -> & Hos). cbn [app].
  set (st2 := {| stack := stack st |}).
  assert (emitted st2 ≡ₚ emitted st1 ++ (T ++ [v])) as Hem.
  { unfold emitted, st2. cbn [components]. rewrite concat_app. cbn [concat].
    by rewrite app_nil_r, js_sort_perm. }
  assert (∀ x, x ∈ emitted st2 ↔ x ∈ emitted st1 ∨ x ∈ T ++ [v]) as Hin.
  { intros x. by rewrite Hem, elem_of_app. }
  assert (∀ x, x ∈ stack st1 ↔ x ∈ T ++ [v] ∨ x ∈ stack st) as Hstk.
  { intros x. rewrite Hst. set_solver. }
  split; try (by intros ? ?%elem_of_nil); try (by intros ? ? ?%elem_of_nil).
  - split.
    + cbn [stack st2]. rewrite Hem.
      eapply NoDup_Permutation_proper; [|exact Hnd].
      change (v :: stack st) with ([v] ++ stack st). solve_Permutation.
    + intros x. change (visited st2 x) with (visited st1 x). rewrite (i_visited _ _ Hi1), Hin, Hstk.
      cbn [stack st2]. naive_solver.
    + intros x. cbn [onStack stack st2]. rewrite Hos, (i_onstack _ _ Hi1), Hstk.
      split; [naive_solver|]. intros Hx. split; [by right|]. intros Hseg.
      apply NoDup_app in Hnd as (Hnd & _ & _). change (v :: stack st) with ([v] ++ stack st) in Hnd.
      rewrite app_assoc in Hnd. apply NoDup_app in Hnd as (_ & Hd & _). by apply (Hd x).
    + cbn [stack st2]. pose proof (i_sorted _ _ Hi1) as Hs. rewrite Hst in Hs.
      apply StronglySorted_app_1_r in Hs. by apply StronglySorted_inv in Hs as [? _].
    + apply Hi1.
    + apply Hi1.
    + intros x y. rewrite !Hin. intros [Hx|Hx] Hxy.
      * left. by eapply (i_closed _ _ Hi1).
      * destruct (Hclosed x y Hx Hxy); auto.
    + intros C. cbn [components st2]. rewrite elem_of_app, list_elem_of_singleton.
      intros [HC| ->]; [by apply (i_scc _ _ Hi1)|]. eapply is_scc_perm; [|exact Hscc].
      by rewrite js_sort_perm.
    + apply Hi.
    + apply Hi.
    + apply Hi1.
  - destruct He as [H1 H2 H3 H4 H5]. split; try done. intros x Hx. apply Hin. left. by apply H4.
  - done.
  - left. apply Hin. right. set_solver.
  - apply (l_visited _ _ _ _ _ _ Hl).
  - left. split; [apply Hin; right; set_solver|].
    change (nextIndex st ≤ low_of st1 v)%Z. rewrite Heq, (l_index _ _ _ _ _ _ Hl). lia.
Qed.

(** ** The recursion *)
Definition unvisited st : list Node :=
  List.filter (λ n, negb (JsMap.has (indices st) n)) (nodes g).

Lemma elem_of_unvisited st n : n ∈ unvisited st ↔ n ∈ nodes g ∧ ¬ visited st n.
Proof.
  unfold unvisited, visited. by rewrite elem_of_filterb, negb_true_iff, not_true_iff_false.
Qed.

Lemma unvisited_mono st st' :
  (∀ x, visited st x → visited st' x) → length (unvisited st') ≤ length (unvisited st).
Proof.
  intros Hv. apply submseteq_length, NoDup_submseteq; [apply NoDup_filterb, Hg|].
  intros x. rewrite !elem_of_unvisited. naive_solver.
Qed.

Lemma unvisited_strict st st' v :
  (∀ x, visited st x → visited st' x) → v ∈ nodes g → ¬ visited st v → visited st' v →
  length (unvisited st') < length (unvisited st).
Proof.
  intros Hm Hn Hv Hv'. assert (v :: unvisited st' ⊆+ unvisited st) as Hs%submseteq_length.
  { apply NoDup_submseteq.
    - constructor; [rewrite elem_of_unvisited; naive_solver|apply NoDup_filterb, Hg].
    - intros x [->|Hx]%elem_of_cons; [by apply elem_of_unvisited|].
      rewrite elem_of_unvisited in *. naive_solver. }
  done.
Qed.

Lemma visit_total fuel : ∀ st gray v,
  inv st gray → ¬ visited st v → v ∈ nodes g → length (unvisited st) < fuel →
  ∃ st' T, visit fuel g compare st v = Some st' ∧ visit_post st gray v st' T.
Proof.
  induction fuel as [|fuel IH]; intros st gray v Hi Hv Hn Hf; [lia|]. cbn [visit].
  match goal with |- context [foldM ?f _ _] => set (step := f) end.
  assert (∀ rest seen st1 T, visit_loop st gray v st1 T seen →
    (∀ w, w ∈ rest → edge g v w) →
    ∃ st2 T2, foldM step st1 rest = Some st2 ∧ visit_loop st gray v st2 T2 (seen ++ rest)) as Hloop.
  { induction rest as [|w rest IHrest]; intros seen st1 T Hl Hrest; cbn [foldM].
    - exists st1, T. by rewrite app_nil_r.
    - assert (edge g v w) as Hvw by (apply Hrest; left).
      enough (∃ st2 T2, step st1 w = Some st2 ∧ visit_loop st gray v st2 T2 (seen ++ [w]))
        as (st2 & T2 & E & Hl2).
      { rewrite E. simpl. destruct (IHrest _ _ _ Hl2) as (st3 & T3 & ? & Hl3).
        - intros x Hx. apply Hrest. by right.
        - exists st3, T3. by rewrite <- app_assoc in Hl3. }
      unfold step. destruct (JsMap.has (indices st1) w) eqn:Ew; cbn [negb].
      + destruct (includes (onStack st1) w) eqn:Eo.
        * eexists _, T. split; [done|]. eapply loop_on_stack; [done..|].
          by apply (i_onstack _ _ (l_inv _ _ _ _ _ _ Hl)), includes_true.
        * exists st1, T. split; [done|]. eapply loop_skip; [done..|].
          rewrite <- (i_onstack _ _ (l_inv _ _ _ _ _ _ Hl)). by apply includes_false.
      + destruct (IH st1 (v :: gray) w) as (st2 & T2 & E & Hp).
        * apply (l_inv _ _ _ _ _ _ Hl).
        * unfold visited. by rewrite Ew.
        * by apply (wf_edges _ Hg v w).
        * eapply Nat.lt_le_trans; [|apply Nat.lt_succ_r, Hf].
          apply (unvisited_strict st st1 v); [apply (l_extends _ _ _ _ _ _ Hl)|done..|].
          apply (l_visited _ _ _ _ _ _ Hl).
        * rewrite E. eexists _, (T2 ++ T). split; [done|]. by eapply loop_call. }
  destruct (Hloop (js_sort compare (targets g v)) [] (enter st v) [])
    as (st1 & T & E & Hl).
  { by apply enter_loop. }
  { intros w Hw. by apply elem_of_js_sort in Hw. }
  rewrite E. simpl. cbn [app] in Hl.
  assert (visit_loop st gray v st1 T (targets g v)) as Hl'.
  { pose proof Hl as []. split; try done. intros y Hy.
    apply (l_seen _ _ _ _ _ _ Hl). by apply elem_of_js_sort. }
  pose proof (l_visited _ _ _ _ _ _ Hl') as Hvis.
  pose proof (i_low _ _ (l_inv _ _ _ _ _ _ Hl') v Hvis) as Hlow.
  unfold visited, JsMap.has in Hvis, Hlow.
  destruct (JsMap.get (indices st1) v) as [i|] eqn:Ei; [|done].
  destruct (JsMap.get (lowLinks st1) v) as [l|] eqn:El; [|done].
  assert (low_of st1 v = l) as Hlo by (unfold low_of; by rewrite El).
  assert (index_of st1 v = i) as Hio by (unfold index_of; by rewrite Ei).
  case_bool_decide as Heq.
  - eexists _, []. split; [done|]. eapply finish_emit; [done..|]. congruence.
  - eexists _, (T ++ [v]). split; [done|]. apply finish_keep; [done..|]. congruence.
Qed.

(** ** The search from every node *)
Lemma inv_init : inv scc_init [].
Proof.
  split; try by intros ? ?%elem_of_nil.
  - constructor.
  - intros x. rewrite elem_of_nil. unfold visited, emitted. simpl. rewrite elem_of_nil. naive_solver.
  - done.
  - constructor.
  - by intros x ?.
  - by intros x ?.
  - by intros x y ?%elem_of_nil.
  - by intros x ?.
Qed.

Lemma inv_root_stack st : inv st [] → stack st = [].
Proof.
  intros Hi. destruct (stack st) as [|x S] eqn:E; [done|].
  destruct (i_reach _ _ Hi x) as (z & Hz & _); [rewrite E; left|]. by apply elem_of_nil in Hz.
Qed.

Lemma scc_search ns : ∀ st,
  inv st [] → (∀ n, n ∈ ns → n ∈ nodes g) →
  ∃ st', foldM (λ st n, if negb (JsMap.has (indices st) n)
           then visit (S (graph_size g)) g compare st n else Some st) st ns = Some st' ∧
    inv st' [] ∧ (∀ x, visited st x → visited st' x) ∧ ∀ n, n ∈ ns → visited st' n.
Proof.
  induction ns as [|n ns IH]; intros st Hi Hns; cbn [foldM].
  - exists st. split_and!; [done|done|done|]. by intros ? ?%elem_of_nil.
  - enough (∃ st1, (if negb (JsMap.has (indices st) n)
        then visit (S (graph_size g)) g compare st n else Some st) = Some st1 ∧
        inv st1 [] ∧ (∀ x, visited st x → visited st1 x) ∧ visited st1 n)
      as (st1 & -> & Hi1 & Hm & Hn).
    { simpl. destruct (IH st1 Hi1) as (st' & E & Hi' & Hm' & Hns').
      - intros x Hx. apply Hns. by right.
      - exists st'. split_and!; [done|done|auto|]. intros x [->|Hx]%elem_of_cons; auto. }
    destruct (JsMap.has (indices st) n) eqn:E; cbn [negb].
    + by exists st.
    + destruct (visit_total (S (graph_size g)) st [] n) as (st1 & T & -> & Hp).
      * done.
      * unfold visited. by rewrite E.
      * apply Hns. left.
      * apply Nat.lt_succ_r. unfold graph_size.
        transitivity (length (nodes g)); [|lia].
        apply submseteq_length, NoDup_submseteq; [apply NoDup_filterb, Hg|].
        intros x. rewrite elem_of_unvisited. naive_solver.
      * exists st1. split_and!; [done|apply (p_inv _ _ _ _ _ Hp)| |apply (p_visited _ _ _ _ _ Hp)].
        apply (p_extends _ _ _ _ _ Hp).
Qed.
End scc.

Lemma concat_perm {A} (l l' : list (list A)) : l ≡ₚ l' → concat l ≡ₚ concat l'.
Proof.
  induction 1 as [|x l l' _ IH|x y l|l l' l'' _ IH1 _ IH2]; simpl; [done|by rewrite IH| |by etrans].
  rewrite !app_assoc. by rewrite (Permutation_app_comm x y).
Qed.

Lemma scc_result {Node} `{EqDecision Node}
    (g : DirectedGraph Node) (compare : Node → Node → Z) :
  wf_graph g →
  ∃ comps, stronglyConnectedComponents g compare = Some comps ∧
    concat comps ≡ₚ nodes g ∧
    ∀ C, C ∈ comps → is_scc g C.
Proof.
  intros Hg. unfold stronglyConnectedComponents.
  destruct (scc_search g compare Hg (js_sort compare (nodes g)) scc_init)
    as (st & E & Hi & _ & Hvis).
  { exact (inv_init g compare). }
  { intros n. by rewrite elem_of_js_sort. }
  rewrite E. eexists. split; [done|]. pose proof (inv_root_stack _ _ Hi) as Hst. split.
  - rewrite (concat_perm _ (components st)) by apply js_sort_perm. fold (emitted st).
    pose proof (i_nodup _ _ _ Hi) as Hnd. rewrite Hst in Hnd.
    apply NoDup_Permutation; [done|apply Hg|]. intros x. split.
    + intros Hx. apply (i_nodes _ _ _ Hi), (i_visited _ _ _ Hi). by right.
    + intros Hx. apply elem_of_js_sort with (cmp := compare), Hvis, (i_visited _ _ _ Hi) in Hx.
      rewrite Hst in Hx. destruct Hx as [Hx|]; [by apply elem_of_nil in Hx|done].
  - intros C HC%elem_of_js_sort. by apply (i_scc _ _ _ Hi).
Qed.

(** C30. Tarjan's search, with its lowlinks and its one stack, returns the strongly
    connected components: a partition of the nodes whose classes are exactly the
    classes of mutual reachability. Its recursion always ends. *)
Theorem stronglyConnectedComponents_correct {Node} `{EqDecision Node}
    (g : DirectedGraph Node) (compare : Node → Node → Z) :
  wf_graph g →
  ∃ comps, stronglyConnectedComponents g compare = Some comps ∧
    concat comps ≡ₚ nodes g ∧
    ∀ C, C ∈ comps → is_scc g C.
Proof. apply scc_result. Qed.

(** 1 <-> 2 -> 3 *)
Definition cycle_example : DirectedGraph Z :=
  {| nodes := [3; 1; 2]%Z; outgoing := [(1, [2]); (2, [3; 1])]%Z |}.
Lemma cycle_wf : wf_graph cycle_example.
Proof.
  assert (∀ n ts, JsMap.get (outgoing cycle_example) n = Some ts →
            (n = 1 ∧ ts = [2]) ∨ (n = 2 ∧ ts = [3; 1]))%Z as Hget.
  { intros n ts. simpl. repeat case_bool_decide; naive_solver. }
  split.
  - by apply (bool_decide_unpack _).
  - by apply (bool_decide_unpack _).
  - intros n. unfold targets. destruct (JsMap.get _ n) as [ts|] eqn:E; simpl; [|constructor].
    apply Hget in E as [[_ ->]|[_ ->]]; by apply (bool_decide_unpack _).
  - unfold edge, targets. intros a b. destruct (JsMap.get _ a) as [ts|] eqn:E; simpl;
      [|by intros ?%elem_of_nil].
    apply Hget in E as [[-> ->]|[-> ->]]; intros Hb;
      repeat (apply elem_of_cons in Hb as [->|Hb]; [split; by apply (bool_decide_unpack _)|]);
      by apply elem_of_nil in Hb.
Qed.

Example stronglyConnectedComponents_correct_witness :
  ∃ comps, stronglyConnectedComponents cycle_example Z.sub = Some comps ∧
    concat comps ≡ₚ nodes cycle_example ∧
    ∀ C, C ∈ comps → is_scc cycle_example C.
Proof. exact (stronglyConnectedComponents_correct cycle_example Z.sub cycle_wf). Defined.
