(* ===== verification/Resolver.v ===== *)
(** * Capability resolution

    runtime/src/capabilities/resolver.ts: which provider each capability
    requirement is bound to, the activation order that follows, and what to do
    when a provider is lost. The input is the typed copy the boundary of
    JsValue.v makes of the caller's value; the messages of diagnostics are left
    out, their codes and data are kept. *)

From S2P Require Import Prelude JsString Collections JsValue Version Graph.

(** ** Data *)
Record PluginDeploymentIdentity := { applicationId : jstring; pluginId : jstring }.
#[export] Instance identity_eq_dec : EqDecision PluginDeploymentIdentity.
Proof. solve_decision. Defined.

Record CapabilityResolutionProvision := { pr_name : jstring; protocolVersion : jstring }.
#[export] Instance provision_eq_dec : EqDecision CapabilityResolutionProvision.
Proof. solve_decision. Defined.

Inductive ProviderLossAction := degrade | fail | suspend.
#[export] Instance loss_eq_dec : EqDecision ProviderLossAction.
Proof. solve_decision. Defined.

Record PluginCapabilityRequirement := {
  rq_name : jstring;
  rq_protocolRange : jstring;
  rq_optional : option bool;
  rq_lossPolicy : option ProviderLossAction;
}.

Record CapabilityResolutionDeployment := {
  identity : PluginDeploymentIdentity;
  activated : bool;
  ready : bool;
  provides : list CapabilityResolutionProvision;
  requires : list PluginCapabilityRequirement;
  bindings : jsmap jstring PluginDeploymentIdentity;
}.

Record PreviousCapabilityBinding := {
  pb_consumer : PluginDeploymentIdentity;
  pb_capability : jstring;
  pb_provider : PluginDeploymentIdentity;
}.

Record CapabilityResolutionInput := {
  deployments : list CapabilityResolutionDeployment;
  previousBindings : option (list PreviousCapabilityBinding);
}.

Inductive CapabilityResolutionDiagnosticCode :=
| CAPABILITY_AMBIGUOUS
| CAPABILITY_BINDING_MAP_INVALID
| CAPABILITY_BINDING_UNKNOWN
| CAPABILITY_DUPLICATE_DEPLOYMENT
| CAPABILITY_DUPLICATE_PROVIDER
| CAPABILITY_DUPLICATE_PREVIOUS_BINDING
| CAPABILITY_DUPLICATE_REQUIREMENT
| CAPABILITY_EXPLICIT_PROVIDER_INCOMPATIBLE
| CAPABILITY_EXPLICIT_PROVIDER_MISSING
| CAPABILITY_EXPLICIT_PROVIDER_UNREADY
| CAPABILITY_INPUT_INVALID
| CAPABILITY_PROTOCOL_RANGE_INVALID
| CAPABILITY_PROTOCOL_VERSION_INVALID
| CAPABILITY_REQUIRED_CYCLE
| CAPABILITY_REQUIRED_MISSING
| CAPABILITY_REQUIRED_UNAVAILABLE.
#[export] Instance code_eq_dec : EqDecision CapabilityResolutionDiagnosticCode.
Proof. solve_decision. Defined.

Definition code_text (c : CapabilityResolutionDiagnosticCode) : jstring :=
  match c with
  | CAPABILITY_AMBIGUOUS => js "CAPABILITY_AMBIGUOUS"
  | CAPABILITY_BINDING_MAP_INVALID => js "CAPABILITY_BINDING_MAP_INVALID"
  | CAPABILITY_BINDING_UNKNOWN => js "CAPABILITY_BINDING_UNKNOWN"
  | CAPABILITY_DUPLICATE_DEPLOYMENT => js "CAPABILITY_DUPLICATE_DEPLOYMENT"
  | CAPABILITY_DUPLICATE_PROVIDER => js "CAPABILITY_DUPLICATE_PROVIDER"
  | CAPABILITY_DUPLICATE_PREVIOUS_BINDING => js "CAPABILITY_DUPLICATE_PREVIOUS_BINDING"
  | CAPABILITY_DUPLICATE_REQUIREMENT => js "CAPABILITY_DUPLICATE_REQUIREMENT"
  | CAPABILITY_EXPLICIT_PROVIDER_INCOMPATIBLE => js "CAPABILITY_EXPLICIT_PROVIDER_INCOMPATIBLE"
  | CAPABILITY_EXPLICIT_PROVIDER_MISSING => js "CAPABILITY_EXPLICIT_PROVIDER_MISSING"
  | CAPABILITY_EXPLICIT_PROVIDER_UNREADY => js "CAPABILITY_EXPLICIT_PROVIDER_UNREADY"
  | CAPABILITY_INPUT_INVALID => js "CAPABILITY_INPUT_INVALID"
  | CAPABILITY_PROTOCOL_RANGE_INVALID => js "CAPABILITY_PROTOCOL_RANGE_INVALID"
  | CAPABILITY_PROTOCOL_VERSION_INVALID => js "CAPABILITY_PROTOCOL_VERSION_INVALID"
  | CAPABILITY_REQUIRED_CYCLE => js "CAPABILITY_REQUIRED_CYCLE"
  | CAPABILITY_REQUIRED_MISSING => js "CAPABILITY_REQUIRED_MISSING"
  | CAPABILITY_REQUIRED_UNAVAILABLE => js "CAPABILITY_REQUIRED_UNAVAILABLE"
  end.

Record CapabilityResolutionDiagnostic := {
  code : CapabilityResolutionDiagnosticCode;
  dg_consumer : option PluginDeploymentIdentity;
  dg_capability : option jstring;
  candidates : list PluginDeploymentIdentity;
}.

Record ResolvedCapabilityProvider := {
  rp_deployment : PluginDeploymentIdentity;
  rp_capability : CapabilityResolutionProvision;
}.

Record NormalizedCapabilityRequirement := {
  name : jstring;
  protocolRange : jstring;
  optional : bool;
  lossPolicy : ProviderLossAction;
}.

Record ResolvedCapabilityBinding := {
  rb_consumer : PluginDeploymentIdentity;
  rb_requirement : NormalizedCapabilityRequirement;
  rb_provider : option ResolvedCapabilityProvider;
}.

Record ProviderLossDecision := {
  action : ProviderLossAction;
  ld_capability : jstring;
  ld_consumer : PluginDeploymentIdentity;
  ld_provider : PluginDeploymentIdentity;
}.

Record ResolutionResult := {
  ok : bool;
  diagnostics : list CapabilityResolutionDiagnostic;
  providerLossActions : list ProviderLossDecision;
  res_bindings : option (list ResolvedCapabilityBinding);
  order : option (list PluginDeploymentIdentity);
}.

(** ** Small operations *)
Definition providerLossRank (a : ProviderLossAction) : Z :=
  match a with degrade => 1 | suspend => 2 | fail => 3 end.

Definition strongestProviderLoss (actions : list ProviderLossDecision) : option ProviderLossAction :=
  foldl (λ strongest decision,
    match strongest with
    | None => Some (action decision)
    | Some s => if (providerLossRank s <? providerLossRank (action decision))%Z
                then Some (action decision) else strongest
    end) None actions.

(** [ownBinding]: the copy has data properties only. *)
Definition ownBinding (bindings : jsmap jstring PluginDeploymentIdentity) (name : jstring)
  : option PluginDeploymentIdentity := JsMap.get bindings name.

Definition identityKey (i : PluginDeploymentIdentity) : jstring :=
  applicationId i ++ 47%N :: pluginId i.

Definition compareIdentity (left right : PluginDeploymentIdentity) : Z :=
  or_else (compareText (applicationId left) (applicationId right))
    (compareText (pluginId left) (pluginId right)).

Definition diagnostic (code : CapabilityResolutionDiagnosticCode)
    (consumer : option PluginDeploymentIdentity) (capability : option jstring)
    (candidates : list PluginDeploymentIdentity) : CapabilityResolutionDiagnostic :=
  {| code := code; dg_consumer := consumer; dg_capability := capability;
     candidates := js_sort compareIdentity candidates |}.

Definition compareDiagnostic (left right : CapabilityResolutionDiagnostic) : Z :=
  or_else (compareText (code_text (code left)) (code_text (code right)))
    (or_else
       (compareText (from_option identityKey [] (dg_consumer left))
          (from_option identityKey [] (dg_consumer right)))
       (compareText (default [] (dg_capability left)) (default [] (dg_capability right)))).

Definition normalizeRequirement (r : PluginCapabilityRequirement)
  : NormalizedCapabilityRequirement :=
  {| name := rq_name r; protocolRange := rq_protocolRange r;
     optional := default false (rq_optional r); lossPolicy := default fail (rq_lossPolicy r) |}.

Definition requirementKey (consumer : PluginDeploymentIdentity) (capability : jstring) : jstring :=
  identityKey consumer ++ 47%N :: capability.

(** ** [inputDiagnostics] *)
Definition sort_deployments (ds : list CapabilityResolutionDeployment) :=
  js_sort (λ l r, compareIdentity (identity l) (identity r)) ds.

(** One provider, requirement or binding name against the set seen so far. *)
Fixpoint provision_diagnostics (d : CapabilityResolutionDeployment) (seen : list jstring)
    (ps : list CapabilityResolutionProvision) : list CapabilityResolutionDiagnostic :=
  match ps with
  | [] => []
  | p :: ps' =>
      let providerKey := pr_name p ++ js "@" ++ protocolVersion p in
      (if includes seen providerKey
       then [diagnostic CAPABILITY_DUPLICATE_PROVIDER (Some (identity d)) (Some (pr_name p)) []]
       else []) ++
      (if negb (isValidVersion (protocolVersion p))
       then [diagnostic CAPABILITY_PROTOCOL_VERSION_INVALID (Some (identity d)) (Some (pr_name p)) []]
       else []) ++
      provision_diagnostics d (providerKey :: seen) ps'
  end.

Fixpoint requirement_diagnostics (d : CapabilityResolutionDeployment) (seen : list jstring)
    (rs : list PluginCapabilityRequirement) : list CapabilityResolutionDiagnostic :=
  match rs with
  | [] => []
  | r :: rs' =>
      (if includes seen (rq_name r)
       then [diagnostic CAPABILITY_DUPLICATE_REQUIREMENT (Some (identity d)) (Some (rq_name r)) []]
       else []) ++
      (if negb (isValidVersionRange (rq_protocolRange r))
       then [diagnostic CAPABILITY_PROTOCOL_RANGE_INVALID (Some (identity d)) (Some (rq_name r)) []]
       else []) ++
      requirement_diagnostics d (rq_name r :: seen) rs'
  end.

Definition binding_diagnostics (d : CapabilityResolutionDeployment)
  : list CapabilityResolutionDiagnostic :=
  concat (map (λ bindingName,
    if includes (map rq_name (requires d)) bindingName then []
    else [diagnostic CAPABILITY_BINDING_UNKNOWN (Some (identity d)) (Some bindingName) []])
    (JsMap.keys (bindings d))).

Fixpoint deployment_diagnostics (seen : list jstring) (ds : list CapabilityResolutionDeployment)
  : list CapabilityResolutionDiagnostic :=
  match ds with
  | [] => []
  | d :: ds' =>
      let key := identityKey (identity d) in
      (if includes seen key
       then [diagnostic CAPABILITY_DUPLICATE_DEPLOYMENT (Some (identity d)) None []] else []) ++
      provision_diagnostics d [] (provides d) ++
      requirement_diagnostics d [] (requires d) ++
      binding_diagnostics d ++
      deployment_diagnostics (key :: seen) ds'
  end.

Fixpoint previous_diagnostics (seen : list jstring) (bs : list PreviousCapabilityBinding)
  : list CapabilityResolutionDiagnostic :=
  match bs with
  | [] => []
  | b :: bs' =>
      let key := requirementKey (pb_consumer b) (pb_capability b) in
      (if includes seen key
       then [diagnostic CAPABILITY_DUPLICATE_PREVIOUS_BINDING (Some (pb_consumer b))
               (Some (pb_capability b)) [pb_provider b]]
       else []) ++ previous_diagnostics (key :: seen) bs'
  end.

Definition inputDiagnostics (ds : list CapabilityResolutionDeployment)
    (previous : list PreviousCapabilityBinding) : list CapabilityResolutionDiagnostic :=
  js_sort compareDiagnostic
    (deployment_diagnostics [] (sort_deployments ds) ++ previous_diagnostics [] previous).

(** ** Compatibility and loss *)
Definition compatibleProvisions (d : CapabilityResolutionDeployment)
    (r : NormalizedCapabilityRequirement) : list CapabilityResolutionProvision :=
  js_sort (λ left right, compareText (protocolVersion left) (protocolVersion right))
    (List.filter (λ provided, streq (pr_name provided) (name r) &&
       satisfiesVersionRange (protocolVersion provided) (protocolRange r)) (provides d)).

Abbreviation identity_map := (jsmap jstring CapabilityResolutionDeployment).

Definition lossDecision (byIdentity : identity_map) (previous : PreviousCapabilityBinding)
  : option ProviderLossDecision :=
  match JsMap.get byIdentity (identityKey (pb_consumer previous)) with
  | None => None
  | Some consumer =>
      match List.find (λ candidate, streq (rq_name candidate) (pb_capability previous))
              (requires consumer) with
      | None => None
      | Some requirementSource =>
          if negb (activated consumer) then None else
          let explicit := ownBinding (bindings consumer) (pb_capability previous) in
          if match explicit with
             | Some e => negb (streq (identityKey e) (identityKey (pb_provider previous)))
             | None => false
             end then None else
          let requirement := normalizeRequirement requirementSource in
          let available :=
            match JsMap.get byIdentity (identityKey (pb_provider previous)) with
            | Some provider =>
                ready provider && (0 <? length (compatibleProvisions provider requirement))%nat
            | None => false
            end in
          if available then None else
          Some {| action := lossPolicy requirement; ld_capability := name requirement;
                  ld_consumer := identity consumer; ld_provider := pb_provider previous |}
      end
  end.

Definition action_text (a : ProviderLossAction) : jstring :=
  match a with degrade => js "degrade" | fail => js "fail" | suspend => js "suspend" end.

Definition compareLoss (left right : ProviderLossDecision) : Z :=
  or_else (compareIdentity (ld_consumer left) (ld_consumer right))
    (or_else (compareText (ld_capability left) (ld_capability right))
      (or_else (compareIdentity (ld_provider left) (ld_provider right))
        (compareText (action_text (action left)) (action_text (action right))))).

Definition providerLossDecisions (previous : list PreviousCapabilityBinding)
    (byIdentity : identity_map) : list ProviderLossDecision :=
  js_sort compareLoss (omap (lossDecision byIdentity) previous).

(** ** The loop over the requirements *)
Record rstate := {
  st_bindings : list ResolvedCapabilityBinding;
  st_diagnostics : list CapabilityResolutionDiagnostic;
  requiredOutgoing : jsmap jstring (list jstring);
  optionalEdges : list (jstring * jstring);
}.

Definition push_binding (b : ResolvedCapabilityBinding) (s : rstate) : rstate :=
  {| st_bindings := st_bindings s ++ [b]; st_diagnostics := st_diagnostics s;
     requiredOutgoing := requiredOutgoing s; optionalEdges := optionalEdges s |}.
Definition push_diagnostic (d : CapabilityResolutionDiagnostic) (s : rstate) : rstate :=
  {| st_bindings := st_bindings s; st_diagnostics := st_diagnostics s ++ [d];
     requiredOutgoing := requiredOutgoing s; optionalEdges := optionalEdges s |}.

(** [outgoing.get(from)?.add(to)] *)
Definition add_edge (outgoing : jsmap jstring (list jstring)) (from to : jstring)
  : jsmap jstring (list jstring) :=
  match JsMap.get outgoing from with
  | None => outgoing
  | Some ts => if includes ts to then outgoing else JsMap.set outgoing from (ts ++ [to])
  end.
Definition push_required (from to : jstring) (s : rstate) : rstate :=
  {| st_bindings := st_bindings s; st_diagnostics := st_diagnostics s;
     requiredOutgoing := add_edge (requiredOutgoing s) from to; optionalEdges := optionalEdges s |}.
Definition push_optional (from to : jstring) (s : rstate) : rstate :=
  {| st_bindings := st_bindings s; st_diagnostics := st_diagnostics s;
     requiredOutgoing := requiredOutgoing s; optionalEdges := optionalEdges s ++ [(from, to)] |}.

Section resolve.
Context (ds : list CapabilityResolutionDeployment) (byIdentity : identity_map)
  (previousByRequirement : jsmap jstring PreviousCapabilityBinding).

Definition unbound (consumer : CapabilityResolutionDeployment)
    (requirement : NormalizedCapabilityRequirement) : ResolvedCapabilityBinding :=
  {| rb_consumer := identity consumer; rb_requirement := requirement; rb_provider := None |}.

Definition report (code : CapabilityResolutionDiagnosticCode)
    (consumer : CapabilityResolutionDeployment) (requirement : NormalizedCapabilityRequirement)
    (cs : list PluginDeploymentIdentity) : CapabilityResolutionDiagnostic :=
  diagnostic code (Some (identity consumer)) (Some (name requirement)) cs.

(** What follows the selection of a provider. *)
Definition bind_provider (consumer provider : CapabilityResolutionDeployment)
    (requirement : NormalizedCapabilityRequirement) (s : rstate) : rstate :=
  match compatibleProvisions provider requirement with
  | [] => s
  | provision :: _ =>
      let s :=
        if ready provider then
          push_binding {| rb_consumer := identity consumer; rb_requirement := requirement;
            rb_provider := Some {| rp_deployment := identity provider;
                                   rp_capability := provision |} |} s
        else if optional requirement then push_binding (unbound consumer requirement) s
        else s in
      if negb (optional requirement) then
        push_required (identityKey (identity provider)) (identityKey (identity consumer)) s
      else if ready provider then
        push_optional (identityKey (identity provider)) (identityKey (identity consumer)) s
      else s
  end.

(** The provider is named, by the deployment or by the binding it had. *)
Definition resolve_selected (consumer : CapabilityResolutionDeployment)
    (requirement : NormalizedCapabilityRequirement)
    (explicit : option PluginDeploymentIdentity) (persisted : option PreviousCapabilityBinding)
    (selectedIdentity : PluginDeploymentIdentity) (s : rstate) : rstate :=
  match JsMap.get byIdentity (identityKey selectedIdentity) with
  | None => push_diagnostic (report CAPABILITY_EXPLICIT_PROVIDER_MISSING consumer requirement
              [selectedIdentity]) s
  | Some provider =>
      if negb (streq (applicationId (identity provider)) (applicationId (identity consumer))) then
        push_diagnostic (report CAPABILITY_EXPLICIT_PROVIDER_MISSING consumer requirement
          [selectedIdentity]) s
      else
      let matching := List.filter (λ p, streq (pr_name p) (name requirement)) (provides provider) in
      if (length matching =? 0)%nat then
        push_diagnostic (report CAPABILITY_EXPLICIT_PROVIDER_MISSING consumer requirement
          [identity provider]) s
      else if (length (compatibleProvisions provider requirement) =? 0)%nat then
        push_diagnostic (report CAPABILITY_EXPLICIT_PROVIDER_INCOMPATIBLE consumer requirement
          [identity provider]) s
      else if negb (ready provider) then
        match explicit, persisted with
        | None, Some _ =>
            let s := push_binding (unbound consumer requirement) s in
            if negb (optional requirement) then
              push_required (identityKey (identity provider)) (identityKey (identity consumer)) s
            else s
        | _, _ =>
            bind_provider consumer provider requirement
              (push_diagnostic (report CAPABILITY_EXPLICIT_PROVIDER_UNREADY consumer requirement
                 [identity provider]) s)
        end
      else bind_provider consumer provider requirement s
  end.

(** The provider is searched among the deployments of the application. *)
Definition resolve_search (consumer : CapabilityResolutionDeployment)
    (requirement : NormalizedCapabilityRequirement) (s : rstate) : rstate :=
  let compatible := List.filter (λ provider,
    streq (applicationId (identity provider)) (applicationId (identity consumer)) &&
    (0 <? length (compatibleProvisions provider requirement))%nat) ds in
  if (length compatible =? 0)%nat then
    if optional requirement then push_binding (unbound consumer requirement) s
    else push_diagnostic (report CAPABILITY_REQUIRED_MISSING consumer requirement []) s
  else
  match List.filter ready compatible with
  | _ :: _ :: _ as several =>
      push_diagnostic (report CAPABILITY_AMBIGUOUS consumer requirement (map identity several)) s
  | [provider] => bind_provider consumer provider requirement s
  | [] =>
      let s := if optional requirement then s else
        push_diagnostic (report CAPABILITY_REQUIRED_UNAVAILABLE consumer requirement
          (map identity compatible)) s in
      match compatible with
      | [provider] => bind_provider consumer provider requirement s
      | _ => push_binding (unbound consumer requirement) s
      end
  end.

Definition resolve_requirement (consumer : CapabilityResolutionDeployment) (s : rstate)
    (sourceRequirement : PluginCapabilityRequirement) : rstate :=
  let requirement := normalizeRequirement sourceRequirement in
  let persisted :=
    JsMap.get previousByRequirement (requirementKey (identity consumer) (name requirement)) in
  let explicit := ownBinding (bindings consumer) (name requirement) in
  match explicit, persisted with
  | Some selected, _ => resolve_selected consumer requirement explicit persisted selected s
  | None, Some p => resolve_selected consumer requirement explicit persisted (pb_provider p) s
  | None, None => resolve_search consumer requirement s
  end.

Definition sort_requirements (rs : list PluginCapabilityRequirement) :=
  js_sort (λ left right, compareText (rq_name left) (rq_name right)) rs.

Definition resolve_all (s : rstate) : rstate :=
  foldl (λ s consumer,
    foldl (resolve_requirement consumer) s (sort_requirements (requires consumer))) s ds.
End resolve.

(** ** Optional edges that close no cycle *)
Fixpoint reach_loop (fuel : nat) (outgoing : jsmap jstring (list jstring))
    (pending visited : list jstring) (target : jstring) : option bool :=
  match pending with
  | [] => Some false
  | current :: pending' =>
      match fuel with
      | O => None
      | S fuel' =>
          if streq current target then Some true
          else if includes visited current then reach_loop fuel' outgoing pending' visited target
          else reach_loop fuel' outgoing
                 (rev (default [] (JsMap.get outgoing current)) ++ pending')
                 (current :: visited) target
      end
  end.

(** [reachable]: the top of the pending stack is its head; every popped node is
    the start or the target of an edge. *)
Definition reachable (outgoing : jsmap jstring (list jstring)) (start target : jstring)
  : option bool :=
  reach_loop (S (S (length (concat (JsMap.values outgoing))))) outgoing [start] [] target.

Definition add_optional (o : jsmap jstring (list jstring)) (e : jstring * jstring)
  : option (jsmap jstring (list jstring)) :=
  let '(provider, consumer) := e in
  if streq provider consumer then Some o else
  r ← reachable o consumer provider;
  Some (if negb r then add_edge o provider consumer else o).

Definition sort_edges (es : list (jstring * jstring)) :=
  js_sort (λ l r, or_else (compareText l.1 r.1) (compareText l.2 r.2)) es.

(** ** [resolveCapabilities] *)
Definition identity_index (ds : list CapabilityResolutionDeployment) : identity_map :=
  foldl (λ m d, JsMap.set m (identityKey (identity d)) d) [] ds.
Definition previous_index (bs : list PreviousCapabilityBinding)
  : jsmap jstring PreviousCapabilityBinding :=
  foldl (λ m b, JsMap.set m (requirementKey (pb_consumer b) (pb_capability b)) b) [] bs.
Definition empty_outgoing (ds : list CapabilityResolutionDeployment)
  : jsmap jstring (list jstring) :=
  foldl (λ m d, JsMap.set m (identityKey (identity d)) []) [] ds.

Definition identities_of (byIdentity : identity_map) (keys : list jstring)
  : list PluginDeploymentIdentity :=
  omap (λ key, identity <$> JsMap.get byIdentity key) keys.

Definition is_cycle (outgoing : jsmap jstring (list jstring)) (component : list jstring) : bool :=
  if (1 <? length component)%nat then true else
  match component with
  | only :: _ => match JsMap.get outgoing only with Some ts => includes ts only | None => false end
  | [] => false
  end.

Definition failed (diagnostics : list CapabilityResolutionDiagnostic)
    (actions : list ProviderLossDecision) : ResolutionResult :=
  {| ok := false; diagnostics := diagnostics; providerLossActions := actions;
     res_bindings := None; order := None |}.

(** After the boundary: the outer [option] is the fuel of the graph searches. *)
Definition resolve_stable (stableInput : CapabilityResolutionInput) : option ResolutionResult :=
  let ds := sort_deployments (deployments stableInput) in
  let previous := default [] (previousBindings stableInput) in
  let diags := inputDiagnostics ds previous in
  if (0 <? length diags)%nat then Some (failed diags []) else
  let byIdentity := identity_index ds in
  let actions := providerLossDecisions previous byIdentity in
  let s := resolve_all ds byIdentity (previous_index previous)
    {| st_bindings := []; st_diagnostics := []; requiredOutgoing := empty_outgoing ds;
       optionalEdges := [] |} in
  let keys := map (λ d, identityKey (identity d)) ds in
  components ← stronglyConnectedComponents
    {| nodes := keys; outgoing := requiredOutgoing s |} compareText;
  let cycles := List.filter (is_cycle (requiredOutgoing s)) components in
  let diags := js_sort compareDiagnostic (st_diagnostics s ++
    map (λ cycle, diagnostic CAPABILITY_REQUIRED_CYCLE None None (identities_of byIdentity cycle))
      cycles) in
  if (0 <? length diags)%nat then Some (failed diags actions) else
  final ← foldM add_optional (requiredOutgoing s) (sort_edges (optionalEdges s));
  match topologicalOrder {| nodes := keys; outgoing := final |} compareText with
  | None => Some (failed [diagnostic CAPABILITY_REQUIRED_CYCLE None None []] actions)
  | Some order =>
      Some {| ok := true; diagnostics := []; providerLossActions := actions;
              res_bindings := Some (st_bindings s);
              order := Some (identities_of byIdentity order) |}
  end.

(** A value the boundary refused. *)
Definition boundary_failure (path : jstring) : ResolutionResult :=
  failed [diagnostic (if includesStr (js "/bindings") path then CAPABILITY_BINDING_MAP_INVALID
                      else CAPABILITY_INPUT_INVALID) None None []] [].

(** The copied data as a [CapabilityResolutionInput]; [None] when it has not that
    shape, where the code's cast checks nothing. *)
Definition json_field (j : json) (key : jstring) : option json :=
  match j with JObj fields => JsMap.get fields key | _ => None end.
Definition as_string (j : json) : option jstring := match j with JStr s => Some s | _ => None end.
Definition as_bool (j : json) : option bool := match j with JBool b => Some b | _ => None end.
Definition as_list {A} (f : json → option A) (j : json) : option (list A) :=
  match j with JArr items => mapM f items | _ => None end.
(** An optional field. *)
Definition as_optional {A} (f : json → option A) (j : option json) : option (option A) :=
  match j with Some j => x ← f j; Some (Some x) | None => Some None end.

Definition as_identity (j : json) : option PluginDeploymentIdentity :=
  application ← json_field j (js "applicationId") ≫= as_string;
  plugin ← json_field j (js "pluginId") ≫= as_string;
  Some {| applicationId := application; pluginId := plugin |}.
Definition as_provision (j : json) : option CapabilityResolutionProvision :=
  name ← json_field j (js "name") ≫= as_string;
  version ← json_field j (js "protocolVersion") ≫= as_string;
  Some {| pr_name := name; protocolVersion := version |}.
Definition as_lossPolicy (j : json) : option ProviderLossAction :=
  text ← as_string j;
  List.find (λ a, streq (action_text a) text) [degrade; fail; suspend].
Definition as_requirement (j : json) : option PluginCapabilityRequirement :=
  name ← json_field j (js "name") ≫= as_string;
  range ← json_field j (js "protocolRange") ≫= as_string;
  optional ← as_optional as_bool (json_field j (js "optional"));
  policy ← as_optional as_lossPolicy (json_field j (js "lossPolicy"));
  Some {| rq_name := name; rq_protocolRange := range; rq_optional := optional; rq_lossPolicy := policy |}.
Definition as_bindings (j : json) : option (jsmap jstring PluginDeploymentIdentity) :=
  match j with JObj fields => mapM (λ f, i ← as_identity f.2; Some (f.1, i)) fields | _ => None end.
Definition as_deployment (j : json) : option CapabilityResolutionDeployment :=
  identity ← json_field j (js "identity") ≫= as_identity;
  activated ← json_field j (js "activated") ≫= as_bool;
  ready ← json_field j (js "ready") ≫= as_bool;
  provides ← json_field j (js "provides") ≫= as_list as_provision;
  requires ← json_field j (js "requires") ≫= as_list as_requirement;
  bindings ← json_field j (js "bindings") ≫= as_bindings;
  Some {| identity := identity; activated := activated; ready := ready;
          provides := provides; requires := requires; bindings := bindings |}.
Definition as_previous (j : json) : option PreviousCapabilityBinding :=
  consumer ← json_field j (js "consumer") ≫= as_identity;
  capability ← json_field j (js "capability") ≫= as_string;
  provider ← json_field j (js "provider") ≫= as_identity;
  Some {| pb_consumer := consumer; pb_capability := capability; pb_provider := provider |}.
Definition as_input (j : json) : option CapabilityResolutionInput :=
  deployments ← json_field j (js "deployments") ≫= as_list as_deployment;
  previous ← as_optional (as_list as_previous) (json_field j (js "previousBindings"));
  Some {| deployments := deployments; previousBindings := previous |}.

(** [Untyped]: the copied data is not of the declared type. The code goes on and
    in general throws a [TypeError]; that is not modelled. *)
Inductive resolution_stop := SearchFuel | Untyped.

Definition resolveCapabilities (h : heap) (input : jsval) : result resolution_stop ResolutionResult :=
  match clone h input with
  | Ok j =>
      match as_input j with
      | Some stableInput => match resolve_stable stableInput with Some r => Ok r | None => Err SearchFuel end
      | None => Err Untyped
      end
  | Err (Fault path _) => Ok (boundary_failure path)
  | Err OutOfFuel => Err SearchFuel
  end.
