(* ===== verification/ResolverProofs.v ===== *)
(** * Capability resolution is sound, complete and ordered

    The theorems about Resolver.v: what a binding means, which requirements
    are bound, that the activation order starts every required provider before
    its consumer, and that the last error branch of the resolver never runs. *)

From S2P Require Import Prelude JsString Collections JsValue Version Graph TopoOrder Scc Resolver.

(** ** Maps filled from a list *)
Section filled.
Context {A V : Type} (key : A → jstring) (val : A → V).

Lemma fill_other l m k :
  k ∉ map key l → JsMap.get (foldl (λ m a, JsMap.set m (key a) (val a)) m l) k = JsMap.get m k.
Proof.
  revert m. induction l as [|a l IH]; intros m; simpl; [done|].
  intros [Hk Hl]%not_elem_of_cons. rewrite IH by done. by apply JsMap.get_set_ne.
Qed.

Lemma fill_get l m a :
  NoDup (map key l) → a ∈ l →
  JsMap.get (foldl (λ m a, JsMap.set m (key a) (val a)) m l) (key a) = Some (val a).
Proof.
  revert m. induction l as [|b l IH]; intros m Hnd; simpl; [by intros ?%elem_of_nil|].
  simpl in Hnd. apply NoDup_cons in Hnd as [Hb Hl]. intros [->|Ha]%elem_of_cons.
  - rewrite fill_other by done. by apply JsMap.get_set_eq.
  - by apply IH.
Qed.

Lemma fill_keys l m :
  NoDup (JsMap.keys m ++ map key l) →
  JsMap.keys (foldl (λ m a, JsMap.set m (key a) (val a)) m l) = JsMap.keys m ++ map key l.
Proof.
  revert m. induction l as [|a l IH]; intros m Hnd; simpl; [by rewrite app_nil_r|].
  assert (JsMap.keys (JsMap.set m (key a) (val a)) = JsMap.keys m ++ [key a]) as E.
  { rewrite JsMap.keys_set. destruct (JsMap.has m (key a)) eqn:Hh; [|done].
    apply JsMap.has_keys in Hh. simpl in Hnd. apply NoDup_app in Hnd as (_ & Hd & _).
    destruct (Hd _ Hh). left. }
  rewrite IH; rewrite E, <- app_assoc; done.
Qed.
End filled.

(** ** Identities *)
Definition valid_identity (i : PluginDeploymentIdentity) : Prop :=
  47%N ∉ applicationId i ∧ 47%N ∉ pluginId i.

Lemma identityKey_inj i j :
  valid_identity i → valid_identity j → identityKey i = identityKey j → i = j.
Proof.
  destruct i as [a p], j as [b q]. unfold valid_identity, identityKey. simpl.
  intros [Ha Hp] [Hb Hq] E.
  assert ([a; p] = [b; q]) as [= -> ->]; [|done].
  apply (joinc_inj 47); [done|done|by repeat constructor|by repeat constructor|done].
Qed.

#[export] Instance compareIdentity_total : TotalComparator compareIdentity.
Proof.
  split.
  - exact (@comparator_lex _ _ _ (comparator_on applicationId compareText)
             (comparator_on pluginId compareText)).
  - intros [a p] [b q]. unfold compareIdentity. simpl. rewrite or_else_0, !compareText_eq.
    by intros [-> ->].
Qed.

(** ** Edges *)
Abbreviation edges := (jsmap jstring (list jstring)).
Definition oedge (o : edges) (a b : jstring) : Prop := b ∈ default [] (JsMap.get o a).
Definition graph_of (ks : list jstring) (o : edges) : DirectedGraph jstring :=
  {| nodes := ks; outgoing := o |}.

Record wf_edges_on (ks : list jstring) (o : edges) : Prop := {
  we_keys : JsMap.keys o = ks;
  we_nodup : NoDup ks;
  we_targets x : NoDup (default [] (JsMap.get o x));
  we_in a b : oedge o a b → b ∈ ks;
}.

Lemma oedge_source ks o a b : wf_edges_on ks o → oedge o a b → a ∈ ks.
Proof.
  intros Ho Hab. rewrite <- (we_keys _ _ Ho). apply JsMap.has_keys. unfold JsMap.has, oedge in *.
  destruct (JsMap.get o a); [done|]. by apply elem_of_nil in Hab.
Qed.

Lemma wf_edges_graph ks o : wf_edges_on ks o → wf_graph (graph_of ks o).
Proof.
  intros Ho. split.
  - apply Ho.
  - unfold JsMap.wf. simpl. rewrite (we_keys _ _ Ho). apply Ho.
  - apply Ho.
  - intros a b Hab. split; [by eapply oedge_source|by eapply we_in].
Qed.

Lemma add_edge_spec ks o from to a b :
  wf_edges_on ks o → from ∈ ks →
  oedge (add_edge o from to) a b ↔ oedge o a b ∨ a = from ∧ b = to.
Proof.
  intros Ho Hf. rewrite <- (we_keys _ _ Ho) in Hf. apply JsMap.has_keys in Hf.
  unfold add_edge, oedge, JsMap.has in *. destruct (JsMap.get o from) as [ts|] eqn:E; [|done].
  destruct (includes ts to) eqn:Et.
  - apply includes_true in Et. split; [by left|]. intros [|[-> ->]]; [done|]. by rewrite E.
  - destruct (decide (from = a)) as [->|Hne].
    + rewrite JsMap.get_set_eq, E. simpl. rewrite elem_of_app, list_elem_of_singleton. naive_solver.
    + rewrite JsMap.get_set_ne by done. naive_solver.
Qed.

Lemma add_edge_wf ks o from to :
  wf_edges_on ks o → from ∈ ks → to ∈ ks → wf_edges_on ks (add_edge o from to).
Proof.
  intros Ho Hf Ht. pose proof (λ a b, add_edge_spec ks o from to a b Ho Hf) as Hs. split.
  - unfold add_edge. destruct (JsMap.get o from) eqn:E; [|apply Ho].
    destruct (includes _ _); [apply Ho|]. rewrite JsMap.keys_set. unfold JsMap.has.
    rewrite E. apply Ho.
  - apply Ho.
  - intros x. unfold add_edge. destruct (JsMap.get o from) as [ts|] eqn:E; [|apply Ho].
    destruct (includes ts to) eqn:Et; [apply Ho|]. apply includes_false in Et.
    pose proof (we_targets _ _ Ho x) as Hx. destruct (decide (from = x)) as [->|].
    + rewrite JsMap.get_set_eq. rewrite E in Hx. simpl in *. apply NoDup_app.
      split_and!; [done| |apply NoDup_singleton]. intros y Hy ->%list_elem_of_singleton. done.
    + by rewrite JsMap.get_set_ne.
  - intros a b [|[-> ->]]%Hs; [by eapply we_in|done].
Qed.

(** ** The search for a path *)
Definition open_targets (o : edges) (visited : list jstring) : nat :=
  length (concat (map snd (List.filter (λ e, negb (includes visited e.1)) o))).

Lemma open_targets_visit o visited x :
  JsMap.wf o → x ∉ visited →
  open_targets o visited = length (default [] (JsMap.get o x)) + open_targets o (x :: visited).
Proof.
  unfold JsMap.wf, open_targets. intros Ho Hx. induction o as [|[k ts] o IH]; [done|].
  simpl in Ho. apply NoDup_cons in Ho as [Hk Ho]. specialize (IH Ho). simpl.
  assert (∀ y, includes (x :: visited) y = bool_decide (x = y) || includes visited y) as Hinc.
  { intros y. unfold includes. repeat case_bool_decide; set_solver. }
  rewrite Hinc. destruct (decide (k = x)) as [->|Hne].
  - rewrite !bool_decide_true by done. simpl.
    assert (includes visited x = false) as -> by by apply includes_false. simpl.
    rewrite length_app. assert (JsMap.get o x = None) as E by by apply JsMap.get_None.
    rewrite E in IH. simpl in *. lia.
  - rewrite !bool_decide_false by done. simpl. destruct (includes visited k); simpl; [done|].
    rewrite !length_app. lia.
Qed.

Lemma reach_loop_spec o start target : ∀ fuel pending visited,
  JsMap.wf o → length pending + open_targets o visited < fuel →
  target ∉ visited → start ∈ visited ∨ start ∈ pending →
  (∀ x, x ∈ pending → rtc (oedge o) start x) →
  (∀ x y, x ∈ visited → oedge o x y → y ∈ visited ∨ y ∈ pending) →
  ∃ r, reach_loop fuel o pending visited target = Some r ∧
       (r = true ↔ rtc (oedge o) start target).
Proof.
  induction fuel as [|fuel IH]; intros pending visited Ho Hf Ht Hs Hp Hv; [lia|].
  destruct pending as [|x pending]; cbn [reach_loop].
  - exists false. split; [done|]. split; [done|]. intros Hr. destruct Ht.
    destruct Hs as [Hs|Hs]; [|by apply elem_of_nil in Hs].
    apply (rtc_closed (oedge o) (λ x, x ∈ visited) start); [|done..].
    intros a b Ha Hab. destruct (Hv a b Ha Hab) as [|Hb]; [done|by apply elem_of_nil in Hb].
  - destruct (streq x target) eqn:Ex.
    + apply streq_true in Ex as ->. exists true. split; [done|]. split; [|done]. intros _.
      apply Hp. left.
    + apply streq_false in Ex. destruct (includes visited x) eqn:Ei.
      * apply includes_true in Ei. apply IH; [done|simpl in *; lia|done| | |].
        { destruct Hs as [|[->|]%elem_of_cons]; auto. }
        { intros y Hy. apply Hp. by right. }
        intros a b Ha Hab. destruct (Hv a b Ha Hab) as [|[->|]%elem_of_cons]; auto.
      * apply includes_false in Ei. apply IH; [done| | | | |].
        -- rewrite (open_targets_visit o visited x) in Hf by done.
           rewrite length_app, length_rev. simpl in Hf. lia.
        -- rewrite elem_of_cons. naive_solver.
        -- destruct Hs as [|[->|Hs]%elem_of_cons]; [left; by right|left; left|].
           right. apply elem_of_app. by right.
        -- intros y [Hy|Hy]%elem_of_app; [rewrite elem_of_rev in Hy|apply Hp; by right].
           eapply rtc_r; [apply Hp; left|exact Hy].
        -- intros a b [->|Ha]%elem_of_cons Hab.
           ++ right. apply elem_of_app. left. by apply elem_of_rev.
           ++ destruct (Hv a b Ha Hab) as [Hb|[->|Hb]%elem_of_cons]; set_solver.
Qed.

Lemma reachable_spec ks o a b :
  wf_edges_on ks o → ∃ r, reachable o a b = Some r ∧ (r = true ↔ rtc (oedge o) a b).
Proof.
  intros Ho. unfold reachable. apply reach_loop_spec.
  - unfold JsMap.wf. rewrite (we_keys _ _ Ho). apply Ho.
  - unfold open_targets. assert (List.filter (λ e : jstring * list jstring,
      negb (includes [] e.1)) o = o) as ->;
      [|change (map snd o) with (JsMap.values o); simpl; lia].
    clear. induction o as [|e o IH]; [done|]. cbn [List.filter]. rewrite IH. done.
  - apply not_elem_of_nil.
  - right. left.
  - intros x ->%list_elem_of_singleton. done.
  - by intros x y ?%elem_of_nil.
Qed.

(** ** Acyclic graphs *)
Definition acyclic (o : edges) : Prop := ∀ a, ¬ tc (oedge o) a a.

Lemma tc_add_edge (R R' : jstring → jstring → Prop) p c :
  (∀ a b, R' a b → R a b ∨ a = p ∧ b = c) →
  ∀ a b, tc R' a b → tc R a b ∨ rtc R a p ∧ rtc R c b.
Proof.
  intros HR a b Hab. induction Hab as [a b Hab|a x b Hax _ IH].
  - destruct (HR a b Hab) as [|[-> ->]]; [left; by apply tc_once|by right].
  - destruct (HR a x Hax) as [Hax'|[-> ->]].
    + destruct IH as [|[? ?]]; [left; by eapply tc_l|right]. split; [by eapply rtc_l|done].
    + right. split; [done|]. destruct IH as [Hcb|[_ Hcb]]; [|done].
      by apply tc_rtc.
Qed.

Lemma add_edge_acyclic ks o p c :
  wf_edges_on ks o → p ∈ ks → acyclic o → ¬ rtc (oedge o) c p → acyclic (add_edge o p c).
Proof.
  intros Ho Hp Hac Hn a Ha.
  destruct (tc_add_edge (oedge o) (oedge (add_edge o p c)) p c) with (a := a) (b := a)
    as [H|[H1 H2]]; [|done|by apply Hac in H|].
  - intros x y Hxy. by apply add_edge_spec with (ks := ks) in Hxy.
  - apply Hn. by etrans.
Qed.

(** The optional edges: whatever they are, no cycle appears and no edge is lost. *)
Lemma add_optional_all ks es : ∀ o,
  wf_edges_on ks o → acyclic o → (∀ e, e ∈ es → e.1 ∈ ks ∧ e.2 ∈ ks) →
  ∃ o', foldM add_optional o es = Some o' ∧ wf_edges_on ks o' ∧ acyclic o' ∧
        ∀ a b, oedge o a b → oedge o' a b.
Proof.
  induction es as [|[p c] es IH]; intros o Ho Hac Hes; cbn [foldM].
  - by exists o.
  - destruct (Hes (p, c)) as [Hp Hc]; [left|]. cbn [fst snd] in *.
    enough (∃ o1, add_optional o (p, c) = Some o1 ∧ wf_edges_on ks o1 ∧ acyclic o1 ∧
              ∀ a b, oedge o a b → oedge o1 a b) as (o1 & -> & Ho1 & Hac1 & Hm1).
    { simpl. destruct (IH o1 Ho1 Hac1) as (o' & E & ? & ? & Hm).
      - intros e He. apply Hes. by right.
      - exists o'. split_and!; [done..|]. intros. by apply Hm, Hm1. }
    unfold add_optional. destruct (streq p c); [by exists o|].
    destruct (reachable_spec ks o c p Ho) as (r & -> & Hr). simpl.
    destruct r; simpl; [by exists o|].
    assert (¬ rtc (oedge o) c p) as Hn by (intros H; by apply Hr in H).
    eexists. split_and!; [done|by apply add_edge_wf|by eapply add_edge_acyclic|].
    intros a b Hab. eapply add_edge_spec; [done..|]. by left.
Qed.

(** The components tell whether there is a cycle. *)
Lemma components_acyclic ks o comps :
  wf_edges_on ks o →
  stronglyConnectedComponents (graph_of ks o) compareText = Some comps →
  List.filter (is_cycle o) comps = [] → acyclic o.
Proof.
  intros Ho E Hnone a Ha.
  destruct (scc_result (graph_of ks o) compareText (wf_edges_graph _ _ Ho)) as (cs & E' & Hp & Hscc).
  rewrite E in E'. injection E' as <-.
  destruct (tc_step _ _ _ Ha) as (b & Hab & Hba).
  assert (a ∈ concat comps) as HaC.
  { rewrite Hp. by eapply oedge_source. }
  apply list_elem_of_In, in_concat in HaC as (C & HC & HaC). 
  rewrite <- list_elem_of_In in HC. rewrite <- list_elem_of_In in HaC.
  specialize (Hscc C HC) as [_ Hscc].
  assert (b ∈ C) as HbC by (apply (Hscc a HaC); split; [by apply rtc_once|done]).
  rewrite filterb_nil in Hnone. specialize (Hnone C HC). unfold is_cycle in Hnone.
  destruct C as [|x [|y C]]; [by apply elem_of_nil in HaC| |done].
  apply list_elem_of_singleton in HaC as ->. apply list_elem_of_singleton in HbC as ->.
  simpl in Hnone. unfold oedge in Hab. destruct (JsMap.get o x); simpl in *.
  - apply includes_false in Hnone. done.
  - by apply elem_of_nil in Hab.
Qed.

(** ** One requirement *)
Definition dkey (d : CapabilityResolutionDeployment) : jstring := identityKey (identity d).

Lemma dkey_identity d : identityKey (identity d) = dkey d.
Proof. done. Qed.

(** A deployment of the consumer's application with a compatible provision. *)
Definition eligible (consumer provider : CapabilityResolutionDeployment)
    (r : PluginCapabilityRequirement) : Prop :=
  applicationId (identity provider) = applicationId (identity consumer) ∧
  ∃ p, p ∈ provides provider ∧ pr_name p = rq_name r ∧
       satisfiesVersionRange (protocolVersion p) (rq_protocolRange r) = true.

Lemma elem_of_compatible d r p :
  p ∈ compatibleProvisions d (normalizeRequirement r) ↔
  p ∈ provides d ∧ pr_name p = rq_name r ∧
  satisfiesVersionRange (protocolVersion p) (rq_protocolRange r) = true.
Proof.
  unfold compatibleProvisions. rewrite elem_of_js_sort, elem_of_filterb, andb_true_iff, streq_true.
  done.
Qed.

Lemma compatible_eligible consumer provider r :
  applicationId (identity provider) = applicationId (identity consumer) →
  eligible consumer provider r ↔ compatibleProvisions provider (normalizeRequirement r) ≠ [].
Proof.
  intros Ha. unfold eligible. setoid_rewrite <- elem_of_compatible. split.
  - intros (_ & p & Hp) E. rewrite E in Hp. by apply elem_of_nil in Hp.
  - intros Hne. split; [done|]. destruct (compatibleProvisions _ _) as [|p l]; [done|].
    exists p. left.
Qed.

Section loop.
Context (ds : list CapabilityResolutionDeployment) (byIdentity : identity_map)
  (prev : jsmap jstring PreviousCapabilityBinding)
  (Hby : ∀ k d, JsMap.get byIdentity k = Some d → d ∈ ds ∧ k = dkey d).

Definition persisted_for (consumer : CapabilityResolutionDeployment) (r : PluginCapabilityRequirement)
  : option PreviousCapabilityBinding :=
  JsMap.get prev (requirementKey (identity consumer) (rq_name r)).

(** What the provider of a binding is. *)
Definition bound_to (consumer : CapabilityResolutionDeployment) (r : PluginCapabilityRequirement)
    (provider : CapabilityResolutionDeployment) : Prop :=
  provider ∈ ds ∧ ready provider = true ∧ eligible consumer provider r ∧
  (∀ e, ownBinding (bindings consumer) (rq_name r) = Some e → identityKey e = dkey provider) ∧
  (∀ p, ownBinding (bindings consumer) (rq_name r) = None → persisted_for consumer r = Some p →
   identityKey (pb_provider p) = dkey provider) ∧
  (ownBinding (bindings consumer) (rq_name r) = None → persisted_for consumer r = None →
   ∀ q, q ∈ ds → ready q = true → eligible consumer q r → q = provider).

(** Why a binding may have no provider. *)
Definition may_be_unbound (consumer : CapabilityResolutionDeployment)
    (r : PluginCapabilityRequirement) : Prop :=
  default false (rq_optional r) = true ∨
  ownBinding (bindings consumer) (rq_name r) = None ∧
  ∃ p provider, persisted_for consumer r = Some p ∧ provider ∈ ds ∧
    identityKey (pb_provider p) = dkey provider ∧ ready provider = false.

Record good_binding (consumer : CapabilityResolutionDeployment) (r : PluginCapabilityRequirement)
    (b : ResolvedCapabilityBinding) : Prop := {
  gb_consumer : rb_consumer b = identity consumer;
  gb_requirement : rb_requirement b = normalizeRequirement r;
  gb_provider p : rb_provider b = Some p →
    ∃ provider, bound_to consumer r provider ∧ rp_deployment p = identity provider ∧
      rp_capability p ∈ compatibleProvisions provider (normalizeRequirement r);
  gb_unbound : rb_provider b = None → may_be_unbound consumer r;
}.

Definition not_cycle (d : CapabilityResolutionDiagnostic) : Prop :=
  code d ≠ CAPABILITY_REQUIRED_CYCLE.

Record step_post (consumer : CapabilityResolutionDeployment) (r : PluginCapabilityRequirement)
    (s s' : rstate) : Prop := {
  sp_diags : ∃ nd, st_diagnostics s' = st_diagnostics s ++ nd ∧ Forall not_cycle nd;
  sp_bind : st_diagnostics s' = st_diagnostics s → ∃ b,
    st_bindings s' = st_bindings s ++ [b] ∧ good_binding consumer r b ∧
    (default false (rq_optional r) = false → ∀ p, rb_provider b = Some p →
     requiredOutgoing s' =
       add_edge (requiredOutgoing s) (identityKey (rp_deployment p)) (dkey consumer));
  sp_out : requiredOutgoing s' = requiredOutgoing s ∨
    ∃ p, p ∈ ds ∧ requiredOutgoing s' = add_edge (requiredOutgoing s) (dkey p) (dkey consumer);
  sp_opt : ∃ ne, optionalEdges s' = optionalEdges s ++ ne ∧
    ∀ e, e ∈ ne → ∃ p, p ∈ ds ∧ e = (dkey p, dkey consumer);
}.

Lemma app_not_self {A} (l : list A) x k : l ++ x :: k ≠ l.
Proof. intros E. apply (f_equal length) in E. rewrite length_app in E. simpl in E. lia. Qed.

(** A diagnostic and nothing else. *)
Lemma step_diagnostic consumer r d s :
  not_cycle d → step_post consumer r s (push_diagnostic d s).
Proof.
  intros Hd. split; simpl.
  - eexists. split; [done|]. by constructor.
  - intros E. by apply app_not_self in E.
  - by left.
  - exists []. split; [by rewrite app_nil_r|]. by intros ? ?%elem_of_nil.
Qed.

Lemma step_unbound consumer r s :
  may_be_unbound consumer r →
  step_post consumer r s (push_binding (unbound consumer (normalizeRequirement r)) s).
Proof.
  intros Hm. split; simpl.
  - exists []. by rewrite app_nil_r.
  - intros _. eexists. split_and!; [done| |done]. by split.
  - by left.
  - exists []. split; [by rewrite app_nil_r|]. by intros ? ?%elem_of_nil.
Qed.

Lemma step_unbound_edge consumer r s p :
  may_be_unbound consumer r → p ∈ ds →
  step_post consumer r s
    (push_required (dkey p) (dkey consumer) (push_binding (unbound consumer (normalizeRequirement r)) s)).
Proof.
  intros Hm Hp. split; simpl.
  - exists []. by rewrite app_nil_r.
  - intros _. eexists. split_and!; [done| |done]. by split.
  - right. by exists p.
  - exists []. split; [by rewrite app_nil_r|]. by intros ? ?%elem_of_nil.
Qed.

(** After the selection of a provider that is bound to the requirement. *)
Lemma step_bind consumer r provider s :
  provider ∈ ds → applicationId (identity provider) = applicationId (identity consumer) →
  eligible consumer provider r →
  (ready provider = true → bound_to consumer r provider) →
  (ready provider = false → default false (rq_optional r) = true) →
  step_post consumer r s (bind_provider consumer provider (normalizeRequirement r) s).
Proof.
  intros Hin Happ He Hb Hopt. apply compatible_eligible in He; [|done].
  unfold bind_provider. destruct (compatibleProvisions _ _) as [|provision l] eqn:Ec; [done|].
  assert (provision ∈ compatibleProvisions provider (normalizeRequirement r)) as Hprov
    by (rewrite Ec; left).
  change (optional (normalizeRequirement r)) with (default false (rq_optional r)).
  rewrite !dkey_identity. destruct (ready provider) eqn:Er.
  - set (b := {| rb_consumer := _ |}).
    assert (good_binding consumer r b) as Hgood.
    { split; try done. intros p [= <-]. exists provider. auto. }
    destruct (default false (rq_optional r)) eqn:Eo; simpl; split; simpl.
    all: try (exists []; by rewrite app_nil_r).
    + intros _. exists b. split_and!; [done|done|by rewrite ?Eo].
    + by left.
    + eexists. split; [done|]. intros e ->%list_elem_of_singleton. by exists provider.
    + intros _. exists b. split_and!; [done|done|]. by intros _ p [= <-].
    + right. by exists provider.
    + exists []. split; [by rewrite app_nil_r|]. by intros ? ?%elem_of_nil.
  - rewrite Hopt by done. simpl. apply step_unbound. left. auto.
Qed.

(** Whatever happens after a diagnostic, it stays. *)
Lemma step_bind_after consumer r provider d s :
  provider ∈ ds → not_cycle d →
  step_post consumer r s
    (bind_provider consumer provider (normalizeRequirement r) (push_diagnostic d s)).
Proof.
  intros Hin Hd. unfold bind_provider. destruct (compatibleProvisions _ _) as [|provision l];
    [by apply step_diagnostic|].
  rewrite !dkey_identity.
  destruct (ready provider), (optional (normalizeRequirement r)); simpl; split; simpl.
  all: try (eexists; split; [done|by constructor]); try (intros E; by apply app_not_self in E); try (by left);
    try (right; by exists provider).
  all: try (exists []; split; [by rewrite app_nil_r|]; by intros ? ?%elem_of_nil).
  eexists. split; [done|]. intros e ->%list_elem_of_singleton. by exists provider.
Qed.

Lemma length0 {A} (l : list A) : (length l =? 0)%nat = true ↔ l = [].
Proof. by destruct l. Qed.

Lemma step_selected consumer r explicit persisted selected s :
  ownBinding (bindings consumer) (rq_name r) = explicit → persisted_for consumer r = persisted →
  match explicit, persisted with
  | Some e, _ => selected = e
  | None, Some p => selected = pb_provider p
  | None, None => False
  end →
  step_post consumer r s
    (resolve_selected byIdentity consumer (normalizeRequirement r) explicit persisted selected s).
Proof.
  intros Hex Hpe Hsel. unfold resolve_selected.
  destruct (JsMap.get byIdentity _) as [provider|] eqn:E; [|by apply step_diagnostic].
  apply Hby in E as [Hin Hkey].
  destruct (negb (streq _ _)) eqn:Happ; [by apply step_diagnostic|].
  apply negb_false_iff, streq_true in Happ.
  destruct (_ =? 0)%nat eqn:E1; [by apply step_diagnostic|].
  destruct (length (compatibleProvisions _ _) =? 0)%nat eqn:E2; [by apply step_diagnostic|].
  assert (eligible consumer provider r) as He.
  { apply compatible_eligible; [done|]. intros E. by rewrite E in E2. }
  destruct (ready provider) eqn:Er; simpl.
  - apply step_bind; [done..| |congruence]. intros _. split_and!; [done..| | |].
    + intros e He'. rewrite Hex in He'. destruct explicit as [e0|]; [|done].
      injection He' as ->. by rewrite <- Hsel.
    + intros p H1 H2. rewrite Hex in H1. rewrite Hpe in H2. rewrite H1, H2 in Hsel. by rewrite <- Hsel.
    + intros H1 H2. rewrite Hex in H1. rewrite Hpe in H2. rewrite H1, H2 in Hsel. done.
  - destruct explicit as [e|]; [by apply step_bind_after|].
    destruct persisted as [p|]; [|done]. subst selected.
    assert (may_be_unbound consumer r) as Hm.
    { right. split; [done|]. by exists p, provider. }
    rewrite !dkey_identity. change (optional (normalizeRequirement r)) with (default false (rq_optional r)).
    destruct (default false (rq_optional r)); simpl;
      [by apply step_unbound|by apply step_unbound_edge].
Qed.

Lemma step_search consumer r s :
  ownBinding (bindings consumer) (rq_name r) = None → persisted_for consumer r = None →
  step_post consumer r s (resolve_search ds consumer (normalizeRequirement r) s).
Proof.
  intros Hex Hpe. unfold resolve_search. cbv zeta.
  set (compatible := List.filter _ ds).
  assert (∀ d, d ∈ compatible ↔ d ∈ ds ∧
    applicationId (identity d) = applicationId (identity consumer) ∧ eligible consumer d r) as Hc.
  { intros d. unfold compatible. rewrite elem_of_filterb, andb_true_iff, streq_true, Nat.ltb_lt.
    split; intros (? & Ha & Hl); split_and!; try done.
    - apply compatible_eligible; [done|]. intros E. rewrite E in Hl. simpl in Hl. lia.
    - apply compatible_eligible in Hl; [|done]. destruct (compatibleProvisions _ _); [done|simpl; lia]. }
  change (optional (normalizeRequirement r)) with (default false (rq_optional r)).
  destruct (length compatible =? 0)%nat eqn:E0.
  { destruct (default false (rq_optional r)) eqn:Eo; [|by apply step_diagnostic].
    apply step_unbound. by left. }
  destruct (List.filter ready compatible) as [|provider [|q l]] eqn:Er; [| |by apply step_diagnostic].
  - rewrite filterb_nil in Er. destruct compatible as [|provider [|q l]] eqn:Ecomp; [done| |].
    + assert (provider ∈ ds ∧ applicationId (identity provider) = applicationId (identity consumer)
        ∧ eligible consumer provider r) as (H1 & H2 & H3) by (apply Hc; left).
      assert (ready provider = false) as Hr by (apply Er; left).
      destruct (default false (rq_optional r)) eqn:Eo; [|by apply step_bind_after].
      apply step_bind; [done..|congruence|done].
    + destruct (default false (rq_optional r)) eqn:Eo; [apply step_unbound; by left|].
      split; simpl.
      * eexists. split; [done|]. by constructor.
      * intros E. by apply app_not_self in E.
      * by left.
      * exists []. split; [by rewrite app_nil_r|]. by intros ? ?%elem_of_nil.
  - assert (∀ d, d ∈ compatible ∧ ready d = true ↔ d = provider) as Hone.
    { intros d. by rewrite <- elem_of_filterb, Er, list_elem_of_singleton. }
    destruct (Hone provider) as [_ Hp]. destruct (Hp eq_refl) as [Hcp Hr].
    apply Hc in Hcp as (H1 & H2 & H3).
    apply step_bind; [done..| |congruence]. intros _. split_and!; [done..| | |].
    + congruence.
    + congruence.
    + intros _ _ d Hd Hdr He. apply Hone. split; [|done]. apply Hc. split_and!; [done| |done].
      apply He.
Qed.

Lemma step_requirement consumer r s :
  step_post consumer r s (resolve_requirement ds byIdentity prev consumer s r).
Proof.
  unfold resolve_requirement. cbv zeta.
  change (name (normalizeRequirement r)) with (rq_name r). fold (persisted_for consumer r).
  destruct (ownBinding _ _) as [e|] eqn:Ee; [by apply step_selected|].
  destruct (persisted_for consumer r) as [p|] eqn:Ep; [by apply step_selected|by apply step_search].
Qed.
End loop.

(** ** Whom a requirement selects *)
Section selection.
Context (ds : list CapabilityResolutionDeployment) (byIdentity : identity_map)
  (prev : jsmap jstring PreviousCapabilityBinding).

(** The deployment that a requirement depends on, ready or not: the one named,
    else the one of the earlier binding, else the only candidate or the only
    ready one. *)
Definition selects (consumer : CapabilityResolutionDeployment) (r : PluginCapabilityRequirement)
    (provider : CapabilityResolutionDeployment) : Prop :=
  provider ∈ ds ∧ eligible consumer provider r ∧
  match ownBinding (bindings consumer) (rq_name r), persisted_for prev consumer r with
  | Some e, _ => identityKey e = dkey provider
  | None, Some p => identityKey (pb_provider p) = dkey provider
  | None, None =>
      (∀ q, q ∈ ds → eligible consumer q r → q = provider) ∨
      ready provider = true ∧ ∀ q, q ∈ ds → eligible consumer q r → ready q = true → q = provider
  end.

Definition usable (consumer : CapabilityResolutionDeployment) (r : PluginCapabilityRequirement)
    (provider : CapabilityResolutionDeployment) : bool :=
  streq (applicationId (identity provider)) (applicationId (identity consumer)) &&
  (0 <? length (compatibleProvisions provider (normalizeRequirement r)))%nat.
Definition named (consumer : CapabilityResolutionDeployment) (r : PluginCapabilityRequirement)
    (i : PluginDeploymentIdentity) : option CapabilityResolutionDeployment :=
  p ← JsMap.get byIdentity (identityKey i); if usable consumer r p then Some p else None.
Definition searched (consumer : CapabilityResolutionDeployment) (r : PluginCapabilityRequirement)
  : option CapabilityResolutionDeployment :=
  let compatible := List.filter (usable consumer r) ds in
  match List.filter ready compatible with
  | [p] => Some p
  | _ :: _ => None
  | [] => match compatible with [p] => Some p | _ => None end
  end.
Definition selection (consumer : CapabilityResolutionDeployment) (r : PluginCapabilityRequirement)
  : option CapabilityResolutionDeployment :=
  match ownBinding (bindings consumer) (rq_name r), persisted_for prev consumer r with
  | Some e, _ => named consumer r e
  | None, Some p => named consumer r (pb_provider p)
  | None, None => searched consumer r
  end.

Lemma usable_eligible consumer r p : usable consumer r p = true ↔ eligible consumer p r.
Proof.
  unfold usable. rewrite andb_true_iff, streq_true, Nat.ltb_lt. split.
  - intros [Ha Hl]. apply compatible_eligible; [done|]. intros E. rewrite E in Hl. simpl in Hl. lia.
  - intros He. pose proof (proj1 He) as Ha. apply compatible_eligible in He; [|done].
    split; [done|]. destruct (compatibleProvisions _ _); [done|simpl; lia].
Qed.

Lemma bind_required consumer provider r s : usable consumer r provider = true →
  requiredOutgoing (bind_provider consumer provider (normalizeRequirement r) s) =
  if default false (rq_optional r) then requiredOutgoing s
  else add_edge (requiredOutgoing s) (dkey provider) (dkey consumer).
Proof.
  intros Hu. apply usable_eligible in Hu. pose proof (proj1 Hu) as Ha. apply compatible_eligible in Hu; [|done].
  unfold bind_provider. destruct (compatibleProvisions _ _) as [|provision l]; [done|].
  change (optional (normalizeRequirement r)) with (default false (rq_optional r)).
  by destruct (ready provider), (default false (rq_optional r)).
Qed.

Lemma selected_required consumer r explicit persisted i s :
  requiredOutgoing (resolve_selected byIdentity consumer (normalizeRequirement r) explicit persisted i s) =
  if default false (rq_optional r) then requiredOutgoing s
  else match named consumer r i with
       | Some p => add_edge (requiredOutgoing s) (dkey p) (dkey consumer) | None => requiredOutgoing s end.
Proof.
  unfold resolve_selected, named. destruct (JsMap.get byIdentity _) as [p|]; [|by destruct (default false (rq_optional r))]. cbn [mbind option_bind].
  unfold usable at 1. destruct (streq (applicationId (identity p)) _) eqn:Ha; [|by destruct (default false (rq_optional r))]. cbn [negb andb].
  destruct (length (compatibleProvisions p (normalizeRequirement r)) =? 0)%nat eqn:El.
  { apply Nat.eqb_eq in El. rewrite El. cbn [Nat.ltb Nat.leb]. destruct (_ =? 0)%nat; by destruct (default false (rq_optional r)). }
  apply Nat.eqb_neq in El. destruct (Nat.ltb_spec 0 (length (compatibleProvisions p (normalizeRequirement r)))); [|lia].
  assert (usable consumer r p = true) as Hu by (unfold usable; rewrite Ha; apply Nat.ltb_lt; done).
  assert ((length (List.filter (λ p, streq (pr_name p) (name (normalizeRequirement r))) (provides p)) =? 0)%nat = false) as ->.
  { apply Nat.eqb_neq. intros E. apply nil_length_inv in E. rewrite filterb_nil in E.
    destruct (compatibleProvisions p (normalizeRequirement r)) as [|x l] eqn:Ec; [done|].
    assert (x ∈ compatibleProvisions p (normalizeRequirement r)) as (Hx & Hn & _)%elem_of_compatible by (rewrite Ec; left).
    apply E in Hx. cbn in Hx. by rewrite Hn, (proj2 (streq_true _ _)) in Hx. }
  destruct (ready p); cbn [negb]; [by apply bind_required|].
  change (optional (normalizeRequirement r)) with (default false (rq_optional r)).
  destruct explicit, persisted; try (by rewrite bind_required). by destruct (default false (rq_optional r)).
Qed.

Lemma searched_required consumer r s :
  requiredOutgoing (resolve_search ds consumer (normalizeRequirement r) s) =
  if default false (rq_optional r) then requiredOutgoing s
  else match searched consumer r with
       | Some p => add_edge (requiredOutgoing s) (dkey p) (dkey consumer) | None => requiredOutgoing s end.
Proof.
  unfold resolve_search, searched. change (λ provider, _ && _) with (usable consumer r). cbv zeta.
  change (optional (normalizeRequirement r)) with (default false (rq_optional r)).
  assert (∀ p, p ∈ List.filter (usable consumer r) ds → usable consumer r p = true) as Hu
    by (intros p [_ ?]%elem_of_filterb; done).
  destruct (List.filter (usable consumer r) ds) as [|q compatible]; [by destruct (default false (rq_optional r))|].
  change (length (q :: compatible) =? 0)%nat with false. cbv iota.
  destruct (List.filter ready (q :: compatible)) as [|p [|p' l]] eqn:Er; [|
    |by destruct (default false (rq_optional r))].
  - destruct compatible; [|by destruct (default false (rq_optional r))]. rewrite bind_required by (apply Hu; left).
    by destruct (default false (rq_optional r)).
  - apply bind_required, Hu. assert (p ∈ List.filter ready (q :: compatible)) as [? _]%elem_of_filterb by (rewrite Er; left). done.
Qed.

Lemma requirement_required consumer r s :
  requiredOutgoing (resolve_requirement ds byIdentity prev consumer s r) =
  if default false (rq_optional r) then requiredOutgoing s
  else match selection consumer r with
       | Some p => add_edge (requiredOutgoing s) (dkey p) (dkey consumer) | None => requiredOutgoing s end.
Proof.
  unfold resolve_requirement, selection. cbv zeta. change (name (normalizeRequirement r)) with (rq_name r).
  fold (persisted_for prev consumer r). destruct (ownBinding _ _); [apply selected_required|].
  destruct (persisted_for _ _ _); [apply selected_required|apply searched_required].
Qed.

Context (Hby : ∀ k d, JsMap.get byIdentity k = Some d ↔ d ∈ ds ∧ k = dkey d) (Hnd : NoDup ds).

Lemma named_spec consumer r i p :
  named consumer r i = Some p ↔ p ∈ ds ∧ eligible consumer p r ∧ identityKey i = dkey p.
Proof.
  unfold named. rewrite <- usable_eligible. destruct (JsMap.get byIdentity (identityKey i)) as [q|] eqn:E; cbn.
  - apply Hby in E as [Hq Hk]. split.
    + destruct (usable consumer r q) eqn:Hu; [|done]. by intros [= <-].
    + intros (Hp & Hu & Hp'). assert (JsMap.get byIdentity (identityKey i) = Some p) as E1 by by apply Hby.
      assert (JsMap.get byIdentity (identityKey i) = Some q) as E2 by by apply Hby. rewrite E1 in E2. injection E2 as <-. by rewrite Hu.
  - split; [done|]. intros (Hp & _ & Hk). assert (JsMap.get byIdentity (identityKey i) = Some p) by by apply Hby. congruence.
Qed.

Lemma only_element {A} (l : list A) x : NoDup l → l = [x] ↔ x ∈ l ∧ ∀ y, y ∈ l → y = x.
Proof.
  intros Hl. split; [intros ->; split; [left|by intros y ->%list_elem_of_singleton]|].
  intros [Hx Hy]. destruct l as [|a [|b l]]; [by apply elem_of_nil in Hx|by rewrite (Hy a ltac:(left))|].
  rewrite (Hy a ltac:(left)), (Hy b ltac:(right; left)) in Hl. apply NoDup_cons in Hl as [H _]. destruct H. left.
Qed.

Lemma searched_spec consumer r p :
  searched consumer r = Some p ↔ p ∈ ds ∧ eligible consumer p r ∧
    ((∀ q, q ∈ ds → eligible consumer q r → q = p) ∨
     ready p = true ∧ ∀ q, q ∈ ds → eligible consumer q r → ready q = true → q = p).
Proof.
  unfold searched. cbv zeta.
  assert (∀ q, q ∈ List.filter (usable consumer r) ds ↔ q ∈ ds ∧ eligible consumer q r) as Hc
    by (intros q; by rewrite elem_of_filterb, usable_eligible).
  assert (∀ f (l : list CapabilityResolutionDeployment), NoDup l → NoDup (List.filter f l)) as Hf.
  { intros f l Hl. induction Hl as [|x l Hx Hl IH]; cbn; [constructor|]. destruct (f x); [|done].
    constructor; [|done]. rewrite elem_of_filterb. naive_solver. }
  pose proof (only_element (List.filter (usable consumer r) ds) p (Hf _ _ Hnd)) as Hall.
  pose proof (only_element (List.filter ready (List.filter (usable consumer r) ds)) p (Hf _ _ (Hf _ _ Hnd))) as Hready.
  setoid_rewrite elem_of_filterb in Hready. setoid_rewrite Hc in Hready. setoid_rewrite Hc in Hall.
  assert (∀ q, q ∈ List.filter ready (List.filter (usable consumer r) ds) ↔ (q ∈ ds ∧ eligible consumer q r) ∧ ready q = true) as Hcr
    by (intros q; by rewrite elem_of_filterb, Hc).
  destruct (List.filter ready (List.filter (usable consumer r) ds)) as [|x [|y l]] eqn:Er.
  - assert (∀ q, q ∈ ds → eligible consumer q r → ready q = false) as Hno.
    { intros q ??. destruct (ready q) eqn:Eq; [|done]. assert (q ∈ @nil CapabilityResolutionDeployment) as ?%elem_of_nil; [|done].
      by apply Hcr. }
    transitivity (List.filter (usable consumer r) ds = [p]).
    { destruct (List.filter (usable consumer r) ds) as [|z [|? ?]]; split; congruence. }
    rewrite Hall. split.
    + intros [[??] Hone]. split_and!; [done|done|left]. intros q ??. by apply Hone.
    + intros (Hp & He & [H|[H _]]); [|by rewrite Hno in H]. split; [done|]. intros q [??]. by apply H.
  - transitivity ([x] = [p]); [split; congruence|]. rewrite Hready. split.
    { intros [[[??]?] Hone]. split_and!; [done|done|right]. split; [done|]. intros q ???. by apply Hone. }
    intros (Hp & He & [H|[H H']]); [|split; [done|intros q [[??]?]; by apply H']]. assert ((x ∈ ds ∧ eligible consumer x r) ∧ ready x = true) as [[??]?] by (apply Hcr; left).
    assert (x = p) as -> by auto. split; [done|]. intros q [[??]?]. by apply H.
  - split; [done|]. intros (Hp & He & H). exfalso.
    assert ((x ∈ ds ∧ eligible consumer x r) ∧ ready x = true) as [[??]?] by (apply Hcr; left).
    assert ((y ∈ ds ∧ eligible consumer y r) ∧ ready y = true) as [[??]?] by (apply Hcr; right; left).
    assert (x = p ∧ y = p) as [-> ->] by (destruct H as [H|[_ H]]; auto).
    pose proof (Hf ready _ (Hf (usable consumer r) _ Hnd)) as Hd. rewrite Er in Hd. apply NoDup_cons in Hd as [Hd _]. destruct Hd. left.
Qed.

Lemma selection_spec consumer r p : selection consumer r = Some p ↔ selects consumer r p.
Proof.
  unfold selection, selects. destruct (ownBinding _ _); [apply named_spec|].
  destruct (persisted_for _ _ _); [apply named_spec|apply searched_spec].
Qed.
End selection.

(** ** The whole loop *)
Definition work (ds : list CapabilityResolutionDeployment)
  : list (CapabilityResolutionDeployment * PluginCapabilityRequirement) :=
  concat (map (λ c, map (pair c) (sort_requirements (requires c))) ds).

Lemma elem_of_work ds c r : (c, r) ∈ work ds ↔ c ∈ ds ∧ r ∈ requires c.
Proof.
  unfold work, sort_requirements. induction ds as [|d ds IH]; simpl.
  - rewrite !elem_of_nil. naive_solver.
  - rewrite elem_of_app, elem_of_cons, IH. rewrite list_elem_of_fmap.
    setoid_rewrite elem_of_js_sort. naive_solver.
Qed.

Lemma resolve_all_work ds byIdentity prev s :
  resolve_all ds byIdentity prev s =
  foldl (λ s w, resolve_requirement ds byIdentity prev w.1 s w.2) s (work ds).
Proof.
  unfold resolve_all, work.
  generalize (resolve_requirement ds byIdentity prev). intros f.
  revert s. induction ds as [|c ds' IH]; intros s; simpl; [done|].
  rewrite foldl_app, <- IH. f_equal. generalize (sort_requirements (requires c)). intros l.
  revert s. induction l as [|r l IHl]; intros s; simpl; [done|]. apply IHl.
Qed.

Section whole.
Context (ds : list CapabilityResolutionDeployment) (byIdentity : identity_map)
  (prev : jsmap jstring PreviousCapabilityBinding)
  (Hby : ∀ k d, JsMap.get byIdentity k = Some d → d ∈ ds ∧ k = dkey d).
Let ks := map dkey ds.

Lemma dkey_in d : d ∈ ds → dkey d ∈ ks.
Proof. intros Hd. apply list_elem_of_fmap. by exists d. Qed.

(** The binding of a required provider is an edge of the graph. *)
Definition linked (o : edges) (c : CapabilityResolutionDeployment) (r : PluginCapabilityRequirement)
    (b : ResolvedCapabilityBinding) : Prop :=
  default false (rq_optional r) = false → ∀ p, rb_provider b = Some p →
  oedge o (identityKey (rp_deployment p)) (dkey c).

Record loop_post (ws : list (CapabilityResolutionDeployment * PluginCapabilityRequirement))
    (s s' : rstate) : Prop := {
  lp_wf : wf_edges_on ks (requiredOutgoing s');
  lp_mono a b : oedge (requiredOutgoing s) a b → oedge (requiredOutgoing s') a b;
  lp_opt e : e ∈ optionalEdges s' → e ∈ optionalEdges s ∨ e.1 ∈ ks ∧ e.2 ∈ ks;
  lp_diags : ∃ nd, st_diagnostics s' = st_diagnostics s ++ nd ∧ Forall not_cycle nd;
  lp_bind : st_diagnostics s' = st_diagnostics s → ∃ nb, st_bindings s' = st_bindings s ++ nb ∧
    Forall2 (λ w b, good_binding ds prev w.1 w.2 b ∧ linked (requiredOutgoing s') w.1 w.2 b) ws nb;
}.

Lemma loop_works ws : ∀ s,
  (∀ c r, (c, r) ∈ ws → c ∈ ds) → wf_edges_on ks (requiredOutgoing s) →
  loop_post ws s (foldl (λ s w, resolve_requirement ds byIdentity prev w.1 s w.2) s ws).
Proof.
  induction ws as [|[c r] ws IH]; intros s Hws Ho; cbn [foldl fst snd].
  { split; try done.
    - by left.
    - exists []. by rewrite app_nil_r.
    - intros _. exists []. by rewrite app_nil_r. }
  assert (c ∈ ds) as Hc by (eapply Hws; left).
  pose proof (step_requirement ds byIdentity prev Hby c r s) as Hstep.
  set (s1 := resolve_requirement ds byIdentity prev c s r) in *.
  assert (wf_edges_on ks (requiredOutgoing s1) ∧
    ∀ a b, oedge (requiredOutgoing s) a b → oedge (requiredOutgoing s1) a b) as [Ho1 Hm1].
  { destruct (sp_out _ _ _ _ _ _ Hstep) as [->|(p & Hp & ->)]; [done|].
    split; [by apply add_edge_wf; auto using dkey_in|]. intros a b Hab.
    apply add_edge_spec with (ks := ks); auto using dkey_in. }
  destruct (IH s1) as [H1 H2 H3 H4 H5]; [intros c' r' Hw; eapply Hws; by right|done|].
  split; [done|auto|..].
  - intros e He. destruct (H3 e He) as [He'|]; [|by right].
    destruct (sp_opt _ _ _ _ _ _ Hstep) as (ne & E & Hne). rewrite E in He'.
    apply elem_of_app in He' as [|He']; [by left|]. right.
    destruct (Hne e He') as (p & Hp & ->). simpl. auto using dkey_in.
  - destruct (sp_diags _ _ _ _ _ _ Hstep) as (nd & E1 & F1), H4 as (nd' & E2 & F2).
    exists (nd ++ nd'). split; [by rewrite E2, E1, app_assoc|]. by apply Forall_app.
  - intros E. destruct (sp_diags _ _ _ _ _ _ Hstep) as (nd & E1 & _), H4 as (nd' & E2 & _).
    rewrite E2, E1, <- app_assoc in E.
    assert (nd ++ nd' = []) as Hnil.
    { apply (f_equal length) in E. rewrite length_app in E. apply nil_length_inv. lia. }
    apply app_nil in Hnil as [-> ->]. rewrite app_nil_r in *.
    destruct (sp_bind _ _ _ _ _ _ Hstep E1) as (b & Eb & Hb & Hlink).
    destruct (H5 E2) as (nb & Enb & Hnb). exists (b :: nb).
    split; [by rewrite Enb, Eb, <- app_assoc|]. constructor; [|done]. split; [done|].
    intros Hr p Hp. simpl. apply H2. rewrite (Hlink Hr p Hp).
    destruct (gb_provider _ _ _ _ _ Hb p Hp) as (q & (Hq & _) & Eq & _).
    apply add_edge_spec with (ks := ks); [done| |by right].
    rewrite Eq. by apply dkey_in.
Qed.
End whole.

(** ** The required graph and its cycles *)
(** Deployment [a] has to be started before [b]: a required capability of [b]
    selects it. *)
Definition needs (ds : list CapabilityResolutionDeployment) (prev : jsmap jstring PreviousCapabilityBinding)
    (a b : jstring) : Prop :=
  ∃ consumer r provider, consumer ∈ ds ∧ r ∈ requires consumer ∧ default false (rq_optional r) = false ∧
    selects ds prev consumer r provider ∧ a = dkey provider ∧ b = dkey consumer.

Lemma loop_required ds byIdentity prev ws :
  (∀ k d, JsMap.get byIdentity k = Some d ↔ d ∈ ds ∧ k = dkey d) → NoDup ds →
  ∀ s, wf_edges_on (map dkey ds) (requiredOutgoing s) → (∀ c r, (c, r) ∈ ws → c ∈ ds) →
  ∀ a b, oedge (requiredOutgoing (foldl (λ s w, resolve_requirement ds byIdentity prev w.1 s w.2) s ws)) a b ↔
    oedge (requiredOutgoing s) a b ∨
    ∃ c r p, (c, r) ∈ ws ∧ default false (rq_optional r) = false ∧ selects ds prev c r p ∧ a = dkey p ∧ b = dkey c.
Proof.
  intros Hby Hnd. induction ws as [|[c r] ws IH]; intros s Ho Hws a b; cbn [foldl fst snd].
  { split; [by left|]. intros [|(? & ? & ? & ?%elem_of_nil & _)]; done. }
  assert (c ∈ ds) as Hc by (eapply Hws; left).
  set (s1 := resolve_requirement ds byIdentity prev c s r).
  assert (wf_edges_on (map dkey ds) (requiredOutgoing s1) ∧ ∀ a b, oedge (requiredOutgoing s1) a b ↔
    oedge (requiredOutgoing s) a b ∨ ∃ p, default false (rq_optional r) = false ∧ selects ds prev c r p ∧ a = dkey p ∧ b = dkey c)
    as [Ho1 Hs1].
  { unfold s1. rewrite requirement_required. destruct (default false (rq_optional r)); [by split; [|naive_solver]|].
    pose proof (selection_spec ds byIdentity prev Hby Hnd c r) as Hsel. destruct (selection _ _ _ c r) as [p|].
    - assert (selects ds prev c r p) as Hp by by apply Hsel.
      split; [apply add_edge_wf; [done|by apply dkey_in, (proj1 Hp)|by apply dkey_in]|]. intros x y.
      rewrite (add_edge_spec (map dkey ds)) by (done || by apply dkey_in, (proj1 Hp)). split.
      + intros [|[-> ->]]; [by left|right]. by exists p.
      + intros [|(q & _ & Hq & -> & ->)]; [by left|right]. apply Hsel in Hq. by injection Hq as ->.
    - split; [done|]. intros x y. split; [by left|]. intros [|(q & _ & Hq & _)]; [done|]. by apply Hsel in Hq. }
  rewrite IH, Hs1; [|done|intros c' r' Hw; eapply Hws; by right]. split.
  - intros [[|(p & ?)]|(c' & r' & p & ? & ?)]; [by left|right..]; [exists c, r, p|exists c', r', p]; rewrite elem_of_cons; naive_solver.
  - intros [|(c' & r' & p & [[= -> ->]|Hin]%elem_of_cons & ?)]; [by left; left| |right; by exists c', r', p].
    left. right. by exists p.
Qed.

(** A component with a cycle is one whose members reach themselves. *)
Lemma is_cycle_spec ks o C a :
  wf_edges_on ks o → is_scc (graph_of ks o) C → NoDup C → a ∈ C → is_cycle o C = true ↔ tc (oedge o) a a.
Proof.
  intros Ho [_ Hscc] Hnd Ha. pose proof (Hscc a Ha) as Hsa. unfold is_cycle. split.
  - destruct C as [|x [|y C]]; [done| |].
    + apply list_elem_of_singleton in Ha as ->. simpl. intros H. apply tc_once. unfold oedge.
      destruct (JsMap.get o x); [|done]. by apply includes_true in H.
    + intros _. apply NoDup_cons in Hnd as [Hx _].
      assert (∃ b, b ∈ x :: y :: C ∧ b ≠ a) as (b & Hb & Hne).
      { destruct (decide (x = a)) as [->|]; [exists y|exists x]; set_solver. }
      apply Hsa in Hb as [Hab Hba]. destruct Hab as [|a c b Hac Hcb]; [done|].
      eapply tc_rtc_r; [by apply tc_once|]. by etrans.
  - intros Ht. destruct C as [|x [|y C]]; [by apply elem_of_nil in Ha| |done].
    apply list_elem_of_singleton in Ha as ->. simpl. destruct (tc_step _ _ _ Ht) as (b & Hab & Hba).
    assert (b ∈ [x]) as ->%list_elem_of_singleton by (apply Hsa; split; [by apply rtc_once|done]).
    unfold oedge in Hab. destruct (JsMap.get o x); simpl in Hab; [by apply includes_true|by apply elem_of_nil in Hab].
Qed.

(** ** The setup of the loop *)
Lemma deployments_nodup ds seen :
  deployment_diagnostics seen ds = [] →
  NoDup (map dkey ds) ∧ ∀ k, k ∈ map dkey ds → k ∉ seen.
Proof.
  revert seen. induction ds as [|d ds IH]; intros seen; cbn [deployment_diagnostics map].
  - intros _. split; [constructor|]. by intros k ?%elem_of_nil.
  - destruct (includes seen (identityKey (identity d))) eqn:E; [done|]. cbn [app].
    intros (_ & (_ & (_ & H)%app_nil)%app_nil)%app_nil. apply IH in H as [Hnd Hds].
    apply includes_false in E. split.
    + constructor; [|done]. intros Hin. apply Hds in Hin. apply Hin. left.
    + intros k [->|Hk]%elem_of_cons; [done|]. apply Hds in Hk. set_solver.
Qed.

Lemma sort_deployments_perm ds : sort_deployments ds ≡ₚ ds.
Proof. apply js_sort_perm. Qed.

Lemma identity_index_get ds k d :
  NoDup (map dkey ds) → JsMap.get (identity_index ds) k = Some d → d ∈ ds ∧ k = dkey d.
Proof.
  intros Hnd Hget. unfold identity_index in Hget. destruct (decide (k ∈ map dkey ds)) as [Hk|Hk].
  - apply list_elem_of_fmap in Hk as (d' & -> & Hd').
    change (dkey d') with (identityKey (identity d')) in Hget.
    rewrite (fill_get (λ d, identityKey (identity d)) (λ d, d)) in Hget by done.
    by injection Hget as <-.
  - by rewrite (fill_other (λ d, identityKey (identity d)) (λ d, d)) in Hget.
Qed.

Lemma identity_index_some ds d :
  NoDup (map dkey ds) → d ∈ ds → JsMap.get (identity_index ds) (dkey d) = Some d.
Proof. intros. by apply (fill_get (λ d, identityKey (identity d)) (λ d, d)). Qed.

Lemma empty_outgoing_get ds x : default [] (JsMap.get (empty_outgoing ds) x) = [].
Proof.
  unfold empty_outgoing. assert (default [] (JsMap.get ([] : edges) x) = []) as H by done.
  revert H. generalize ([] : edges). induction ds as [|d ds IH]; intros m Hm; simpl; [done|].
  apply IH. destruct (decide (identityKey (identity d) = x)) as [->|].
  - by rewrite JsMap.get_set_eq.
  - by rewrite JsMap.get_set_ne.
Qed.

Lemma empty_outgoing_wf ds : NoDup (map dkey ds) → wf_edges_on (map dkey ds) (empty_outgoing ds).
Proof.
  intros Hnd. split.
  - apply (fill_keys (λ d, identityKey (identity d)) (λ _, [])). done.
  - done.
  - intros x. rewrite empty_outgoing_get. constructor.
  - intros a b. unfold oedge. rewrite empty_outgoing_get. by intros ?%elem_of_nil.
Qed.

Lemma identities_of_keys ds l :
  NoDup (map dkey ds) → (∀ k, k ∈ l → k ∈ map dkey ds) →
  map identityKey (identities_of (identity_index ds) l) = l ∧
  Forall (λ i, ∃ d, d ∈ ds ∧ identity d = i) (identities_of (identity_index ds) l).
Proof.
  intros Hnd. induction l as [|k l IH]; intros Hl; [by split|].
  destruct IH as [E HF]; [intros; apply Hl; by right|].
  assert (k ∈ map dkey ds) as Hk by (apply Hl; left).
  apply list_elem_of_fmap in Hk as (d & -> & Hd).
  unfold identities_of in *. cbn [omap list_omap]. rewrite identity_index_some by done. simpl.
  split; [by f_equal|]. constructor; [by exists d|done].
Qed.

Lemma app_nil_sort {A} (cmp : A → A → Z) l : (0 <? length (js_sort cmp l))%nat = false ↔ l = [].
Proof. rewrite length_js_sort, Nat.ltb_ge. destruct l; simpl; split; done || lia. Qed.

(** ** No cycle diagnostic but the cycles' own *)
Lemma not_cycle_if (b : bool) d : not_cycle d → Forall not_cycle (if b then [d] else []).
Proof. destruct b; by repeat constructor. Qed.

Lemma deployment_diagnostics_codes ds seen : Forall not_cycle (deployment_diagnostics seen ds).
Proof.
  revert seen. induction ds as [|d ds IH]; intros seen; cbn [deployment_diagnostics];
    [constructor|]. repeat (apply Forall_app; split).
  - by apply not_cycle_if.
  - generalize (@nil jstring). induction (provides d) as [|p ps IHp]; intros sp; simpl; [constructor|].
    repeat (apply Forall_app; split); by try apply not_cycle_if.
  - generalize (@nil jstring). induction (requires d) as [|r rs IHr]; intros sr; simpl; [constructor|].
    repeat (apply Forall_app; split); by try apply not_cycle_if.
  - unfold binding_diagnostics. induction (JsMap.keys (bindings d)) as [|k l IHl]; simpl; [constructor|].
    apply Forall_app. split; [|done]. destruct (includes _ _); by repeat constructor.
  - apply IH.
Qed.

Lemma previous_diagnostics_codes bs seen : Forall not_cycle (previous_diagnostics seen bs).
Proof.
  revert seen. induction bs as [|b bs IH]; intros seen; simpl; [constructor|].
  apply Forall_app. split; [by apply not_cycle_if|apply IH].
Qed.

(** ** The two outcomes *)
Definition sorted_input (input : CapabilityResolutionInput) : list CapabilityResolutionDeployment :=
  sort_deployments (deployments input).
Definition previous_of (input : CapabilityResolutionInput) : jsmap jstring PreviousCapabilityBinding :=
  previous_index (default [] (previousBindings input)).

(** The diagnostic of a cycle names the deployments of one component of the
    required graph: all those that have to be started before one another. *)
Definition names_cycle (input : CapabilityResolutionInput) (d : CapabilityResolutionDiagnostic) : Prop :=
  let before := needs (deployments input) (previous_of input) in
  candidates d ≠ [] ∧ NoDup (candidates d) ∧
  ∀ i, i ∈ candidates d →
    (∃ m, m ∈ deployments input ∧ identity m = i) ∧ tc before (identityKey i) (identityKey i) ∧
    ∀ m, m ∈ deployments input →
      (identity m ∈ candidates d ↔ rtc before (identityKey i) (dkey m) ∧ rtc before (dkey m) (identityKey i)).

(** The cycles a result reports are those of the required graph. *)
Definition cycles_exact (input : CapabilityResolutionInput) (r : ResolutionResult) : Prop :=
  (∀ d, d ∈ diagnostics r → code d = CAPABILITY_REQUIRED_CYCLE → names_cycle input d) ∧
  (inputDiagnostics (sorted_input input) (default [] (previousBindings input)) = [] →
   ∀ m, m ∈ deployments input → tc (needs (deployments input) (previous_of input)) (dkey m) (dkey m) →
   ∃ d, d ∈ diagnostics r ∧ code d = CAPABILITY_REQUIRED_CYCLE ∧ identity m ∈ candidates d).

(** What a successful result holds. *)
Record resolved (input : CapabilityResolutionInput) (r : ResolutionResult)
    (bs : list ResolvedCapabilityBinding) (korder : list jstring) (final : edges) : Prop := {
  rs_diagnostics : diagnostics r = [];
  rs_bindings : res_bindings r = Some bs;
  rs_order : order r = Some (identities_of (identity_index (sorted_input input)) korder);
  rs_distinct : NoDup (map dkey (sorted_input input));
  rs_bound : Forall2 (λ w b, good_binding (sorted_input input) (previous_of input) w.1 w.2 b ∧
                             linked final w.1 w.2 b) (work (sorted_input input)) bs;
  rs_perm : korder ≡ₚ map dkey (sorted_input input);
  rs_forward : forward (graph_of (map dkey (sorted_input input)) final) korder;
  rs_acyclic m : m ∈ deployments input → ¬ tc (needs (deployments input) (previous_of input)) (dkey m) (dkey m);
}.

Lemma elem_of_sorted_input input d : d ∈ sorted_input input ↔ d ∈ deployments input.
Proof. unfold sorted_input. by rewrite sort_deployments_perm. Qed.

Lemma needs_iff ds ds' prev a b : (∀ d, d ∈ ds ↔ d ∈ ds') → needs ds prev a b → needs ds' prev a b.
Proof.
  intros Hds (c & r & p & Hc & Hr & Ho & (Hp & He & Hs) & Ha & Hb). exists c, r, p.
  split_and!; [by apply Hds|done|done| |done|done]. split_and!; [by apply Hds|done|].
  destruct (ownBinding _ _); [done|]. destruct (persisted_for _ _ _); [done|].
  destruct Hs as [Hs|[Hr' Hs]]; [left|right]; [|split; [done|]]; intros q Hq; apply Hs; by apply Hds.
Qed.

(** The required graph after the loop. *)
Definition required_graph (input : CapabilityResolutionInput) : edges :=
  let ds := sorted_input input in
  requiredOutgoing (foldl (λ s w, resolve_requirement ds (identity_index ds) (previous_of input) w.1 s w.2)
    {| st_bindings := []; st_diagnostics := []; requiredOutgoing := empty_outgoing ds; optionalEdges := [] |} (work ds)).

Lemma required_graph_needs input a b : NoDup (map dkey (sorted_input input)) →
  oedge (required_graph input) a b ↔ needs (deployments input) (previous_of input) a b.
Proof.
  intros Hnd. unfold required_graph. cbv zeta. rewrite loop_required.
  - cbn [requiredOutgoing]. unfold oedge at 1. rewrite empty_outgoing_get. transitivity (needs (sorted_input input) (previous_of input) a b).
    + unfold needs. split.
      * intros [?%elem_of_nil|(c & r & p & Hw & H)]; [done|]. apply elem_of_work in Hw as [? ?]. by exists c, r, p.
      * intros (c & r & p & Hc & Hr & H). right. exists c, r, p. split; [by apply elem_of_work|done].
    + split; apply needs_iff; intros d; by rewrite elem_of_sorted_input.
  - intros k d. split; [by apply identity_index_get|]. intros [Hd ->]. by apply identity_index_some.
  - by eapply NoDup_fmap_1.
  - by apply empty_outgoing_wf.
  - intros c r Hw. by apply elem_of_work in Hw as [? _].
Qed.

Lemma required_graph_paths input : NoDup (map dkey (sorted_input input)) → ∀ a b,
  (rtc (oedge (required_graph input)) a b ↔ rtc (needs (deployments input) (previous_of input)) a b) ∧
  (tc (oedge (required_graph input)) a b ↔ tc (needs (deployments input) (previous_of input)) a b).
Proof.
  intros Hnd a b. pose proof (λ a b, required_graph_needs input a b Hnd) as H.
  split; split; first [apply (rtc_congruence id)|apply (tc_congruence id)]; intros x y; apply H.
Qed.

(** The diagnostics made of the components of the graph. *)
Section cycles.
Context (input : CapabilityResolutionInput) (comps : list (list jstring)).
Context (Hnd : NoDup (map dkey (sorted_input input))).
Context (Hwf : wf_edges_on (map dkey (sorted_input input)) (required_graph input)).
Context (Hperm : concat comps ≡ₚ map dkey (sorted_input input)).
Context (Hscc : ∀ C, C ∈ comps → is_scc (graph_of (map dkey (sorted_input input)) (required_graph input)) C).
Let report_of (C : list jstring) : CapabilityResolutionDiagnostic :=
  diagnostic CAPABILITY_REQUIRED_CYCLE None None (identities_of (identity_index (sorted_input input)) C).

Lemma component_keys C k : C ∈ comps → k ∈ C → k ∈ map dkey (sorted_input input).
Proof. intros HC Hk. rewrite <- Hperm. apply list_elem_of_In, in_concat. exists C. by rewrite <- !list_elem_of_In. Qed.

Lemma component_nodup C : C ∈ comps → NoDup C.
Proof.
  intros HC. assert (NoDup (concat comps)) as Hn by by rewrite Hperm.
  apply list_elem_of_split in HC as (l1 & l2 & E). rewrite E, concat_app in Hn. cbn in Hn.
  apply NoDup_app in Hn as (_ & _ & Hn). by apply NoDup_app in Hn as (Hn & _).
Qed.

Lemma reported_member C i : C ∈ comps → i ∈ candidates (report_of C) ↔
  identityKey i ∈ C ∧ ∃ m, m ∈ deployments input ∧ identity m = i.
Proof.
  intros HC. cbn. rewrite elem_of_js_sort. unfold identities_of. rewrite list_elem_of_omap. split.
  - intros (k & Hk & E). pose proof (component_keys C k HC Hk) as (d & -> & Hd)%list_elem_of_fmap.
    rewrite identity_index_some in E by done. injection E as <-. split; [done|]. exists d. by rewrite <- elem_of_sorted_input.
  - intros [Hk (m & Hm & <-)]. exists (dkey m). split; [done|]. rewrite <- elem_of_sorted_input in Hm. by rewrite identity_index_some.
Qed.

Lemma reported_nodup C : C ∈ comps → NoDup (candidates (report_of C)) ∧ candidates (report_of C) ≠ [].
Proof.
  intros HC. cbn. rewrite NoDup_js_sort.
  destruct (identities_of_keys (sorted_input input) C Hnd) as [E _]; [intros k; by apply component_keys|]. split.
  - apply (NoDup_fmap_1 identityKey). change (identityKey <$> ?l) with (map identityKey l). rewrite E. by apply component_nodup.
  - intros H. apply (f_equal length) in H. rewrite length_js_sort in H. apply nil_length_inv in H. rewrite H in E.
    destruct (Hscc C HC) as [Hne _]. by destruct C.
Qed.

Lemma reported_cycle C : C ∈ comps → is_cycle (required_graph input) C = true → names_cycle input (report_of C).
Proof.
  intros HC Hcycle. pose proof (reported_nodup C HC) as [Hn Hne]. split_and!; [done|done|].
  intros i [Hi Hm]%reported_member; [|done]. split_and!; [done| |].
  - apply required_graph_paths; [done|]. eapply is_cycle_spec; [done|by apply Hscc|by apply component_nodup|done|done].
  - intros m Hin. rewrite reported_member by done. rewrite <- !(proj1 (required_graph_paths input Hnd _ _)).
    destruct (Hscc C HC) as [_ Hs]. rewrite <- (Hs (identityKey i) Hi (dkey m)). unfold dkey. naive_solver.
Qed.

Lemma cycle_reported m : m ∈ deployments input →
  tc (needs (deployments input) (previous_of input)) (dkey m) (dkey m) →
  ∃ C, C ∈ comps ∧ is_cycle (required_graph input) C = true ∧ identity m ∈ candidates (report_of C).
Proof.
  intros Hm Ht. apply required_graph_paths in Ht; [|done].
  assert (dkey m ∈ concat comps) as HC.
  { rewrite Hperm. apply dkey_in. by apply elem_of_sorted_input. }
  apply list_elem_of_In, in_concat in HC as (C & HC & Hk). rewrite <- list_elem_of_In in HC. rewrite <- list_elem_of_In in Hk.
  exists C. split_and!; [done| |apply reported_member; eauto].
  eapply is_cycle_spec; [done|by apply Hscc|by apply component_nodup|done|done].
Qed.
End cycles.

Lemma resolve_cases input :
  ∃ r, resolve_stable input = Some r ∧
    (ok r = false ∧ diagnostics r ≠ [] ∧ cycles_exact input r ∨
     ok r = true ∧ ∃ bs korder final, resolved input r bs korder final).
Proof.
  unfold resolve_stable. cbv zeta. fold (sorted_input input) (previous_of input).
  set (ds := sorted_input input). set (previous := default [] (previousBindings input)).
  destruct (0 <? length (inputDiagnostics ds previous))%nat eqn:E0.
  { eexists. split; [done|]. left. split_and!; [done| |split].
    - simpl. intros E. by rewrite E in E0.
    - intros d Hd. simpl in Hd. unfold inputDiagnostics in Hd. apply elem_of_js_sort in Hd.
      assert (not_cycle d) as Hn; [|done].
      apply elem_of_app in Hd as [Hd|Hd]; revert d Hd; apply Forall_forall;
        [apply deployment_diagnostics_codes|apply previous_diagnostics_codes].
    - intros E. fold ds previous in E. by rewrite E in E0. }
  apply app_nil_sort, app_nil in E0 as [E0 _].
  apply deployments_nodup in E0 as [Hnd _].
  assert (NoDup (map dkey ds)) as Hnd'.
  { eapply NoDup_Permutation_proper; [|exact Hnd]. apply Permutation_map. symmetry.
    apply sort_deployments_perm. }
  clear Hnd. set (byIdentity := identity_index ds).
  pose proof (λ k d, identity_index_get ds k d Hnd') as Hby. fold byIdentity in Hby.
  rewrite resolve_all_work. set (s0 := {| st_bindings := [] |}).
  pose proof (loop_works ds byIdentity (previous_of input) Hby (work ds) s0) as Hloop.
  destruct Hloop as [Hwf Hmono Hopt (nd & End & Hcodes) Hbind].
  { intros c r Hw. by apply elem_of_work in Hw as [? _]. }
  { by apply empty_outgoing_wf. }
  set (s := foldl _ s0 (work ds)) in *. simpl in End.
  assert (requiredOutgoing s = required_graph input) as Egraph by done.
  destruct (scc_result (graph_of (map dkey ds) (requiredOutgoing s)) compareText
    (wf_edges_graph _ _ Hwf)) as (comps & Ec & Hperm & Hscc).
  change (map (λ d, identityKey (identity d)) ds) with (map dkey ds).
  unfold graph_of in Ec. rewrite Ec. simpl.
  set (cycles := List.filter (is_cycle (requiredOutgoing s)) comps).
  set (cdiags := map _ cycles).
  destruct (0 <? length (js_sort compareDiagnostic (st_diagnostics s ++ cdiags)))%nat eqn:E1.
  { eexists. split; [done|]. left. split_and!; [done| |split].
    - simpl. intros E. by rewrite E in E1.
    - intros d Hd Hcode. simpl in Hd. apply elem_of_js_sort, elem_of_app in Hd as [Hd|Hd].
      + rewrite End in Hd. rewrite Forall_forall in Hcodes. by apply Hcodes in Hd.
      + apply list_elem_of_fmap in Hd as (C & -> & [HC Hcycle]%elem_of_filterb). by eapply reported_cycle.
    - intros _ m Hm Ht. destruct (cycle_reported input comps Hnd' Hwf Hperm Hscc m Hm Ht) as (C & HC & Hcycle & Hin).
      exists (diagnostic CAPABILITY_REQUIRED_CYCLE None None (identities_of byIdentity C)).
      split_and!; [|done|exact Hin]. simpl. apply elem_of_js_sort, elem_of_app. right.
      apply list_elem_of_fmap. exists C. split; [done|]. by apply elem_of_filterb. }
  apply app_nil_sort, app_nil in E1 as [Ed Ecyc].
  apply map_eq_nil in Ecyc.
  pose proof (components_acyclic _ _ _ Hwf Ec Ecyc) as Hac.
  destruct (add_optional_all (map dkey ds) (sort_edges (optionalEdges s)) (requiredOutgoing s) Hwf Hac)
    as (final & Ef & Hwff & Hacf & Hmf).
  { intros e He. apply elem_of_js_sort, Hopt in He as [He|He]; [by apply elem_of_nil in He|done]. }
  rewrite Ef. simpl. change {| nodes := map dkey ds; outgoing := final |} with (graph_of (map dkey ds) final).
  pose proof (topologicalOrder_result (graph_of (map dkey ds) final) compareText
    (wf_edges_graph _ _ Hwff)) as Htopo.
  destruct (topologicalOrder _ _) as [korder|]; [|destruct Htopo as [a Ha]; by apply Hacf in Ha].
  destruct Htopo as (Hp & Hfw & _).
  eexists. split; [done|]. right. split; [done|].
  destruct (Hbind Ed) as (nb & Enb & HF).
  exists nb, korder, final. split; try done.
  - simpl. f_equal. exact Enb.
  - eapply Forall2_impl; [exact HF|]. intros [c r] b [Hgood Hlink]. split; [done|].
    intros Hr p Hp'. by apply Hmf, Hlink.
  - intros m Hm Ht. apply required_graph_paths in Ht; [|done]. rewrite <- Egraph in Ht. by apply Hac in Ht.
Qed.

Lemma resolved_ok input r :
  resolve_stable input = Some r → ok r = true → ∃ bs korder final, resolved input r bs korder final.
Proof.
  intros E Hok. destruct (resolve_cases input) as (r' & E' & Hr). rewrite E in E'.
  injection E' as <-. destruct Hr as [(Hf & _)|[_ Hr]]; [congruence|done].
Qed.

Lemma bound_to_iff ds ds' prev c r p :
  (∀ d, d ∈ ds ↔ d ∈ ds') → bound_to ds prev c r p → bound_to ds' prev c r p.
Proof.
  intros Hds (H1 & H2 & H3 & H4 & H5 & H6). split_and!; [by apply Hds|done..|].
  intros E1 E2 q Hq. apply H6; [done|done|by apply Hds].
Qed.

(** ** What a resolution guarantees *)

(** C24. Every provider a successful resolution binds exists, is ready, belongs to
    the consumer's application and offers the capability in a version of the
    required range; it is the one the deployment names, when it names one; else
    the one of the earlier binding, when there was one; and else the only ready
    candidate. *)
Theorem resolve_bindings_sound (input : CapabilityResolutionInput) (r : ResolutionResult)
    (bs : list ResolvedCapabilityBinding) (b : ResolvedCapabilityBinding)
    (p : ResolvedCapabilityProvider) :
  resolve_stable input = Some r → ok r = true → res_bindings r = Some bs →
  b ∈ bs → rb_provider b = Some p →
  ∃ consumer requirement provider,
    consumer ∈ deployments input ∧ requirement ∈ requires consumer ∧
    rb_consumer b = identity consumer ∧ rb_requirement b = normalizeRequirement requirement ∧
    rp_deployment p = identity provider ∧
    bound_to (deployments input) (previous_of input) consumer requirement provider ∧
    rp_capability p ∈ provides provider ∧ pr_name (rp_capability p) = rq_name requirement ∧
    satisfiesVersionRange (protocolVersion (rp_capability p)) (rq_protocolRange requirement) = true.
Proof.
  intros E Hok Ebs Hb Hp. destruct (resolved_ok _ _ E Hok) as (bs' & ko & fin & H).
  rewrite (rs_bindings _ _ _ _ _ H) in Ebs. injection Ebs as <-.
  apply list_elem_of_lookup in Hb as [i Hi].
  destruct (Forall2_lookup_r _ _ _ _ _ (rs_bound _ _ _ _ _ H) Hi) as ([c rq] & Hw & [Hg _]).
  apply list_elem_of_lookup_2, elem_of_work in Hw as [Hc Hrq]. simpl in *.
  destruct (gb_provider _ _ _ _ _ Hg p Hp) as (q & Hq & Eq & Hcap%elem_of_compatible).
  exists c, rq, q. split_and!; try apply Hcap; try apply Hg; try done.
  - by apply elem_of_sorted_input.
  - eapply bound_to_iff; [apply elem_of_sorted_input|done].
Qed.

(** A successful resolution decides every requirement of every deployment,
    one binding each and in a fixed order. A required capability is left without
    a provider only while the provider it was bound to before is not ready. *)
Theorem resolve_bindings_complete (input : CapabilityResolutionInput) (r : ResolutionResult) :
  resolve_stable input = Some r → ok r = true →
  ∃ bs, res_bindings r = Some bs ∧
    Forall2 (λ w b, rb_consumer b = identity w.1 ∧ rb_requirement b = normalizeRequirement w.2 ∧
      (rb_provider b = None → may_be_unbound (sorted_input input) (previous_of input) w.1 w.2))
      (work (sorted_input input)) bs.
Proof.
  intros E Hok. destruct (resolved_ok _ _ E Hok) as (bs & ko & fin & H).
  exists bs. split; [apply H|]. eapply Forall2_impl; [apply H|].
  intros [c rq] b [Hg _]. simpl in *. split_and!; apply Hg.
Qed.

(** C27. The activation order of a successful resolution lists every deployment
    once, and every required provider before its consumer. *)
Theorem resolve_order_sound (input : CapabilityResolutionInput) (r : ResolutionResult) :
  resolve_stable input = Some r → ok r = true →
  ∃ bs ord, res_bindings r = Some bs ∧ order r = Some ord ∧
    ord ≡ₚ map identity (deployments input) ∧
    ∀ b p, b ∈ bs → optional (rb_requirement b) = false → rb_provider b = Some p →
      ∃ before after, ord = before ++ rb_consumer b :: after ∧ rp_deployment p ∈ before.
Proof.
  intros E Hok. destruct (resolved_ok _ _ E Hok) as (bs & ko & fin & H).
  set (ds := sorted_input input) in *. pose proof (rs_distinct _ _ _ _ _ H) as Hnd.
  exists bs, (identities_of (identity_index ds) ko). split_and!; [apply H|apply H| |].
  - rewrite <- (sort_deployments_perm (deployments input)). fold (sorted_input input). fold ds.
    assert (identities_of (identity_index ds) (map dkey ds) = map identity ds) as <-.
    { assert (∀ l, l ⊆ ds → identities_of (identity_index ds) (map dkey l) = map identity l) as Hl.
      { induction l as [|d l IH]; intros Hl; [done|]. unfold identities_of in *.
        cbn [map omap list_omap]. rewrite identity_index_some by (done || apply Hl; left).
        cbn. f_equal. apply IH. intros x Hx. apply Hl. by right. }
      by apply Hl. }
    unfold identities_of. by rewrite (rs_perm _ _ _ _ _ H).
  - intros b p Hb Hopt Hp. apply list_elem_of_lookup in Hb as [i Hi].
    destruct (Forall2_lookup_r _ _ _ _ _ (rs_bound _ _ _ _ _ H) Hi) as ([c rq] & Hw & [Hg Hlink]).
    apply list_elem_of_lookup_2, elem_of_work in Hw as [Hc Hrq]. simpl in *.
    destruct (gb_provider _ _ _ _ _ Hg p Hp) as (q & (Hq & _) & Eq & _).
    rewrite (gb_requirement _ _ _ _ _ Hg) in Hopt. specialize (Hlink Hopt p Hp).
    assert (dkey c ∈ ko) as Hck.
    { rewrite (rs_perm _ _ _ _ _ H). by apply dkey_in. }
    apply list_elem_of_split in Hck as (k1 & k2 & Eko).
    pose proof (rs_forward _ _ _ _ _ H k1 (dkey c) k2 _ Eko Hlink) as Hpk.
    exists (identities_of (identity_index ds) k1), (identities_of (identity_index ds) k2).
    rewrite Eko, (gb_consumer _ _ _ _ _ Hg). unfold identities_of at 1. rewrite omap_app.
    cbn [omap list_omap]. rewrite identity_index_some by done. split; [done|].
    rewrite Eq in *. change (identityKey (identity q)) with (dkey q) in Hpk.
    unfold identities_of. apply list_elem_of_omap. exists (dkey q). split; [done|].
    by rewrite identity_index_some.
Qed.


(** ** The order of the input *)
(** Neighbours that do not tie, or are equal, may change places before a sort. *)
Section ties.
Context {A} (cmp : A → A → Z) `{!Comparator cmp}.
Definition apart (x y : A) : Prop := cmp x y ≠ 0%Z ∨ x = y.

Lemma insert_swap x y l :
  apart x y → insert_sorted cmp x (insert_sorted cmp y l) = insert_sorted cmp y (insert_sorted cmp x l).
Proof.
  intros Hxy. pose proof (cmp_antisym (cmp := cmp) x y). pose proof (cmp_antisym (cmp := cmp) y x).
  pose proof (cmp_trans (cmp := cmp)) as Ht. destruct Hxy as [Hxy| ->]; [|done]. induction l as [|z l IH]; cbn [insert_sorted].
  - destruct (Z.leb_spec (cmp x y) 0), (Z.leb_spec (cmp y x) 0); (done || lia).
  - specialize (Ht x y z) as Ht1. specialize (Ht y x z) as Ht2.
    destruct (Z.leb_spec (cmp y z) 0) as [Hy|Hy], (Z.leb_spec (cmp x z) 0) as [Hx|Hx]; cbn [insert_sorted].
    + rewrite (proj2 (Z.leb_le _ _) Hx), (proj2 (Z.leb_le _ _) Hy).
      destruct (Z.leb_spec (cmp x y) 0), (Z.leb_spec (cmp y x) 0); (done || lia).
    + destruct (Z.leb_spec (cmp x y) 0); [lia|]. destruct (Z.leb_spec (cmp x z) 0); [lia|].
      by rewrite (proj2 (Z.leb_le _ _) Hy).
    + destruct (Z.leb_spec (cmp y x) 0); [lia|]. destruct (Z.leb_spec (cmp y z) 0); [lia|].
      by rewrite (proj2 (Z.leb_le _ _) Hx).
    + destruct (Z.leb_spec (cmp x z) 0); [lia|]. destruct (Z.leb_spec (cmp y z) 0); [lia|]. by rewrite IH.
Qed.

Lemma sort_perm_apart l l' p q :
  (∀ x y, x ∈ l → y ∈ l → apart x y) → l ≡ₚ l' → js_sort cmp (p ++ l ++ q) = js_sort cmp (p ++ l' ++ q).
Proof.
  intros Hl Hp. induction p as [|z p IH]; cbn [app js_sort]; [|by rewrite IH].
  induction Hp as [|x l l' _ IH|x y l|l1 l2 l3 H12 IH1 _ IH2]; cbn [app js_sort].
  - done.
  - rewrite IH; [done|]. intros ????. apply Hl; by right.
  - apply insert_swap, Hl; [left|right; left].
  - rewrite IH1 by done. apply IH2. intros x y. rewrite <- H12. apply Hl.
Qed.
End ties.

#[export] Instance compareDiagnostic_comparator : Comparator compareDiagnostic.
Proof.
  exact (@comparator_lex _ _ _ (comparator_on (λ d, code_text (code d)) compareText)
    (@comparator_lex _ _ _ (comparator_on (λ d, from_option identityKey [] (dg_consumer d)) compareText)
      (comparator_on (λ d, default [] (dg_capability d)) compareText))).
Qed.

Lemma code_text_inj c c' : code_text c = code_text c' → c = c'.
Proof. destruct c, c'; (done || (intros H; by vm_compute in H)). Qed.

(** A diagnostic of the input of one deployment. *)
Definition concerns (i : PluginDeploymentIdentity) (d : CapabilityResolutionDiagnostic) : Prop :=
  dg_consumer d = Some i ∧ candidates d = [] ∧ (dg_capability d = None ↔ code d = CAPABILITY_DUPLICATE_DEPLOYMENT).

Lemma concerns_apart i x y : concerns i x → concerns i y → apart compareDiagnostic x y.
Proof.
  intros (Hx & Cx & Nx) (Hy & Cy & Ny). destruct (decide (compareDiagnostic x y = 0%Z)) as [E|]; [right|by left].
  unfold compareDiagnostic in E. rewrite !or_else_0, !compareText_eq in E. destruct E as (Ec%code_text_inj & _ & Ecap).
  destruct x as [cx ux kx lx], y as [cy uy ky ly]. cbn in *. subst. f_equal.
  destruct kx as [kx|], ky as [ky|]; cbn in Ecap; [by subst| | |done].
  - discriminate (proj2 Nx (proj1 Ny eq_refl)).
  - discriminate (proj2 Ny (proj1 Nx eq_refl)).
Qed.

Definition own_diagnostics (d : CapabilityResolutionDeployment) : list CapabilityResolutionDiagnostic :=
  provision_diagnostics d [] (provides d) ++ requirement_diagnostics d [] (requires d) ++ binding_diagnostics d.
Definition duplicate_diagnostic (d : CapabilityResolutionDeployment) : CapabilityResolutionDiagnostic :=
  diagnostic CAPABILITY_DUPLICATE_DEPLOYMENT (Some (identity d)) None [].

Lemma deployment_diagnostics_cons seen d ds :
  deployment_diagnostics seen (d :: ds) =
  (if includes seen (dkey d) then [duplicate_diagnostic d] else []) ++ own_diagnostics d ++
  deployment_diagnostics (dkey d :: seen) ds.
Proof. unfold own_diagnostics. by rewrite <- !app_assoc. Qed.

Lemma own_concerns d x : x ∈ own_diagnostics d → concerns (identity d) x.
Proof.
  assert (∀ (b : bool) c capability, c ≠ CAPABILITY_DUPLICATE_DEPLOYMENT →
    x ∈ (if b then [diagnostic c (Some (identity d)) (Some capability) []] else []) → concerns (identity d) x) as Hone.
  { intros b c capability Hc Hx. destruct b; [|by apply elem_of_nil in Hx]. apply list_elem_of_singleton in Hx as ->. done. }
  unfold own_diagnostics. intros [H|[H|H]%elem_of_app]%elem_of_app.
  - revert H. generalize (@nil jstring). induction (provides d) as [|p ps IH]; intros seen; cbn; [by intros ?%elem_of_nil|].
    intros [H|[H|H]%elem_of_app]%elem_of_app; [by eapply Hone, H|by eapply Hone, H|by eapply IH].
  - revert H. generalize (@nil jstring). induction (requires d) as [|r rs IH]; intros seen; cbn; [by intros ?%elem_of_nil|].
    intros [H|[H|H]%elem_of_app]%elem_of_app; [by eapply Hone, H|by eapply Hone, H|by eapply IH].
  - unfold binding_diagnostics in H. induction (JsMap.keys (bindings d)) as [|k l IH]; cbn in H; [by apply elem_of_nil in H|].
    apply elem_of_app in H as [H|H]; [|by apply IH]. destruct (includes _ k); [by apply elem_of_nil in H|by eapply (Hone true), H].
Qed.

(** A deployment may move before others of its identity. *)
Lemma front_diagnostics d post p q : ∀ pre seen, (∀ e, e ∈ pre → identity e = identity d) →
  js_sort compareDiagnostic (p ++ deployment_diagnostics seen (pre ++ d :: post) ++ q) =
  js_sort compareDiagnostic (p ++ deployment_diagnostics seen (d :: pre ++ post) ++ q).
Proof.
  intros pre. revert p. induction pre as [|a pre IH]; intros p seen Hpre; [done|]. cbn [app].
  assert (identity a = identity d) as Ea by (apply Hpre; left). assert (dkey a = dkey d) as Ek by (unfold dkey; by rewrite Ea).
  rewrite (deployment_diagnostics_cons seen a). rewrite <- !app_assoc.
  set (first := if includes seen (dkey a) then [duplicate_diagnostic a] else []).
  rewrite (app_assoc p first), (app_assoc (p ++ first)).
  rewrite IH by (intros e He; apply Hpre; by right). rewrite !deployment_diagnostics_cons, Ek.
  assert (first = if includes seen (dkey d) then [duplicate_diagnostic d] else []) as <-.
  { unfold first, duplicate_diagnostic. by rewrite Ek, Ea. }
  assert (includes (dkey d :: seen) (dkey d) = true) as -> by (apply includes_true; left).
  assert (duplicate_diagnostic a = duplicate_diagnostic d) as -> by (unfold duplicate_diagnostic; by rewrite Ea).
  set (rest := deployment_diagnostics _ (pre ++ post)).
  transitivity (js_sort compareDiagnostic ((p ++ first) ++
    (own_diagnostics a ++ [duplicate_diagnostic d] ++ own_diagnostics d) ++ rest ++ q)); [by rewrite <- !app_assoc|].
  rewrite (sort_perm_apart compareDiagnostic _ (own_diagnostics d ++ [duplicate_diagnostic d] ++ own_diagnostics a)).
  - by rewrite <- !app_assoc.
  - intros x y Hx Hy. apply (concerns_apart (identity d)).
    + apply elem_of_app in Hx as [Hx|[->%list_elem_of_singleton|Hx]%elem_of_app]; [rewrite <- Ea|done|]; by apply own_concerns.
    + apply elem_of_app in Hy as [Hy|[->%list_elem_of_singleton|Hy]%elem_of_app]; [rewrite <- Ea|done|]; by apply own_concerns.
  - solve_Permutation.
Qed.

Lemma sorted_diagnostics q : ∀ ds' ds p seen,
  StronglySorted (λ l r, compareIdentity (identity l) (identity r) ≤ 0)%Z ds →
  StronglySorted (λ l r, compareIdentity (identity l) (identity r) ≤ 0)%Z ds' → ds ≡ₚ ds' →
  js_sort compareDiagnostic (p ++ deployment_diagnostics seen ds ++ q) =
  js_sort compareDiagnostic (p ++ deployment_diagnostics seen ds' ++ q).
Proof.
  induction ds' as [|d ds' IH]; intros ds p seen Hs Hs' Hp.
  { apply Permutation_nil_r in Hp as ->. done. }
  assert (d ∈ ds) as Hd by (rewrite Hp; left). apply list_elem_of_split in Hd as (pre & post & ->).
  apply StronglySorted_inv in Hs' as [Hs' Hmin]. rewrite Forall_forall in Hmin.
  rewrite front_diagnostics.
  - rewrite !deployment_diagnostics_cons, <- !app_assoc. rewrite (app_assoc p), (app_assoc (p ++ _)).
    rewrite (IH (pre ++ post)); [by rewrite <- !app_assoc| |done|].
    + apply StronglySorted_app in Hs as (Hs1 & Hs2 & [Hs3 _]%StronglySorted_inv). apply StronglySorted_app.
      split_and!; [|done|done]. intros x y ??. apply Hs1; [done|by right].
    + apply (Permutation_cons_inv (a := d)). by rewrite Permutation_middle.
  - intros e He. assert (e ∈ d :: ds') as He' by (rewrite <- Hp; apply elem_of_app; by left).
    apply elem_of_cons in He' as [->|He']; [done|]. specialize (Hmin e He').
    apply StronglySorted_app in Hs as (Hs1 & _). specialize (Hs1 e d He ltac:(left)). cbn in Hs1.
    apply (cmp_eq (cmp := compareIdentity)).
    pose proof (cmp_antisym (cmp := compareIdentity) (identity e) (identity d)).
    pose proof (cmp_antisym (cmp := compareIdentity) (identity d) (identity e)). lia.
Qed.

(** The diagnostics of the input do not depend on its order, whether or not it
    holds a deployment twice. *)
Lemma inputDiagnostics_order ds ds' previous : ds ≡ₚ ds' →
  inputDiagnostics (sort_deployments ds) previous = inputDiagnostics (sort_deployments ds') previous.
Proof.
  intros Hp. unfold inputDiagnostics.
  pose proof (comparator_on identity compareIdentity) as Hc.
  assert (∀ l, sort_deployments (sort_deployments l) = sort_deployments l) as Hid.
  { intros l. apply (js_sort_id _). apply (js_sort_sorted _). }
  rewrite !Hid. apply (sorted_diagnostics (previous_diagnostics [] previous) (sort_deployments ds') (sort_deployments ds) []).
  - apply (js_sort_sorted (λ l r, compareIdentity (identity l) (identity r))).
  - apply (js_sort_sorted (λ l r, compareIdentity (identity l) (identity r))).
  - by rewrite !sort_deployments_perm.
Qed.

Lemma duplicate_reported ds previous : ¬ NoDup (map identity ds) → (0 <? length (inputDiagnostics (sort_deployments ds) previous))%nat = true.
Proof.
  intros Hdup. destruct (0 <? length _)%nat eqn:E; [done|]. exfalso. apply Hdup.
  apply app_nil_sort, app_nil in E as [E _]. apply deployments_nodup in E as [E _].
  unfold dkey in E. rewrite !sort_deployments_perm in E. rewrite <- (map_map identity identityKey) in E.
  by eapply NoDup_fmap_1.
Qed.

(** C35. The result does not depend on the order in which the deployments are
    given, not even when one is given twice. *)
Theorem resolve_deployment_order (input : CapabilityResolutionInput)
    (ds : list CapabilityResolutionDeployment) :
  ds ≡ₚ deployments input →
  resolve_stable {| deployments := ds; previousBindings := previousBindings input |} =
  resolve_stable input.
Proof.
  intros Hp. unfold resolve_stable. cbn [deployments previousBindings].
  destruct (decide (NoDup (map identity ds))) as [Hnd|Hdup].
  - assert (sort_deployments ds = sort_deployments (deployments input)) as ->; [|done].
    unfold sort_deployments.
    apply (@js_sort_perm_eq _ _ (comparator_on identity compareIdentity)); [|done].
    intros x y Hx Hy Hxy. apply (cmp_eq (cmp := compareIdentity)) in Hxy. by eapply NoDup_map_inj.
  - rewrite duplicate_reported, (inputDiagnostics_order ds (deployments input)) by done.
    by rewrite duplicate_reported by (intros H; apply Hdup; by rewrite Hp).
Qed.

(** The action taken on lost providers is the strongest one among the
    decisions: none is stronger, and it is one of them. *)
Theorem strongestProviderLoss_max (actions : list ProviderLossDecision) :
  match strongestProviderLoss actions with
  | None => actions = []
  | Some a => (∃ d, d ∈ actions ∧ action d = a) ∧
              ∀ d, d ∈ actions → (providerLossRank (action d) ≤ providerLossRank a)%Z
  end.
Proof.
  unfold strongestProviderLoss. set (f := λ _ _, _).
  assert (∀ l acc, match foldl f acc l with
    | None => acc = None ∧ l = []
    | Some a => (acc = Some a ∨ ∃ d, d ∈ l ∧ action d = a) ∧
        (∀ a', acc = Some a' → (providerLossRank a' ≤ providerLossRank a)%Z) ∧
        ∀ d, d ∈ l → (providerLossRank (action d) ≤ providerLossRank a)%Z
    end) as Hgen.
  { induction l as [|d l IH]; intros acc; cbn [foldl].
    - destruct acc; [|done]. split_and!; [by left|by intros a' [= ->]|by intros ? ?%elem_of_nil].
    - specialize (IH (f acc d)). destruct (foldl f (f acc d) l) as [a|].
      + destruct IH as (Hin & Hacc & Hl).
        assert (f acc d = Some (action d) ∨ f acc d = acc) as Hf.
        { unfold f. destruct acc; [case_match|]; auto. }
        assert ((providerLossRank (action d) ≤ providerLossRank a)%Z ∧
          ∀ a', acc = Some a' → (providerLossRank a' ≤ providerLossRank a)%Z) as [Hd Ha].
        { unfold f in Hacc. destruct acc as [s|]; [|by split; [apply Hacc|]].
          destruct (Z.ltb_spec (providerLossRank s) (providerLossRank (action d)));
            specialize (Hacc _ eq_refl); (split; [lia|intros ? [= <-]; lia]). }
        split_and!; [|done|intros x [->|Hx]%elem_of_cons; auto].
        destruct Hin as [E|(x & Hx & <-)]; [|right; exists x; split; [by right|done]].
        destruct Hf as [Hf|Hf]; rewrite Hf in E; [|by left].
        right. exists d. split; [left|by injection E].
      + destruct IH as [Hf _]. unfold f in Hf. destruct acc; [|done]. by case_match. }
  specialize (Hgen actions None). destruct (foldl f None actions); [|by destruct Hgen].
  destruct Hgen as ([|] & _ & ?); [done|]. split; done.
Qed.

(** ** A database, a cache and an application that needs both *)
Definition sample_identity (plugin : jstring) : PluginDeploymentIdentity :=
  {| applicationId := js "app"; pluginId := plugin |}.
Definition sample_deployment (plugin : jstring) (ps : list CapabilityResolutionProvision)
    (rs : list PluginCapabilityRequirement) : CapabilityResolutionDeployment :=
  {| identity := sample_identity plugin; activated := true; ready := true;
     provides := ps; requires := rs; bindings := [] |}.
Definition sample_requirement (capability range : jstring) (optional : option bool) :=
  {| rq_name := capability; rq_protocolRange := range; rq_optional := optional;
     rq_lossPolicy := Some suspend |}.
Definition sample_input : CapabilityResolutionInput :=
  {| deployments :=
       [sample_deployment (js "api") []
          [sample_requirement (js "db") (js "^1.2") None;
           sample_requirement (js "cache") (js "~2.0") (Some true)];
        sample_deployment (js "store") [{| pr_name := js "db"; protocolVersion := js "1.4.0" |}] []];
     previousBindings := None |}.
Definition sample_result : ResolutionResult :=
  match resolve_stable sample_input with Some r => r | None => failed [] [] end.
Definition sample_provider : ResolvedCapabilityProvider :=
  {| rp_deployment := sample_identity (js "store");
     rp_capability := {| pr_name := js "db"; protocolVersion := js "1.4.0" |} |}.
Definition sample_binding : ResolvedCapabilityBinding :=
  {| rb_consumer := sample_identity (js "api");
     rb_requirement := normalizeRequirement (sample_requirement (js "db") (js "^1.2") None);
     rb_provider := Some sample_provider |}.
Definition sample_bindings : list ResolvedCapabilityBinding :=
  [{| rb_consumer := sample_identity (js "api");
      rb_requirement :=
        normalizeRequirement (sample_requirement (js "cache") (js "~2.0") (Some true));
      rb_provider := None |};
   sample_binding].

Example resolve_bindings_sound_witness :
  ∃ consumer requirement provider,
    consumer ∈ deployments sample_input ∧ requirement ∈ requires consumer ∧
    rb_consumer sample_binding = identity consumer ∧
    rb_requirement sample_binding = normalizeRequirement requirement ∧
    rp_deployment sample_provider = identity provider ∧
    bound_to (deployments sample_input) (previous_of sample_input) consumer requirement provider ∧
    rp_capability sample_provider ∈ provides provider ∧
    pr_name (rp_capability sample_provider) = rq_name requirement ∧
    satisfiesVersionRange (protocolVersion (rp_capability sample_provider))
      (rq_protocolRange requirement) = true.
Proof.
  apply (resolve_bindings_sound sample_input sample_result sample_bindings sample_binding
    sample_provider); [vm_compute; reflexivity..| |reflexivity].
  right. left.
Defined.

Example resolve_bindings_complete_witness :
  ∃ bs, res_bindings sample_result = Some bs ∧
    Forall2 (λ w b, rb_consumer b = identity w.1 ∧ rb_requirement b = normalizeRequirement w.2 ∧
      (rb_provider b = None →
       may_be_unbound (sorted_input sample_input) (previous_of sample_input) w.1 w.2))
      (work (sorted_input sample_input)) bs.
Proof. apply resolve_bindings_complete; vm_compute; reflexivity. Defined.

Example resolve_order_sound_witness :
  ∃ bs ord, res_bindings sample_result = Some bs ∧ order sample_result = Some ord ∧
    ord ≡ₚ map identity (deployments sample_input) ∧
    ∀ b p, b ∈ bs → optional (rb_requirement b) = false → rb_provider b = Some p →
      ∃ before after, ord = before ++ rb_consumer b :: after ∧ rp_deployment p ∈ before.
Proof. apply resolve_order_sound; vm_compute; reflexivity. Defined.

(** The two deployments of one identity of the test of duplicates, in both orders. *)
Definition duplicate_input (ds : list CapabilityResolutionDeployment) : CapabilityResolutionInput :=
  {| deployments := ds; previousBindings := None |}.
Definition duplicate_valid : CapabilityResolutionDeployment :=
  sample_deployment (js "duplicate") [{| pr_name := js "echo"; protocolVersion := js "1.0.0" |}] [].
Definition duplicate_invalid : CapabilityResolutionDeployment :=
  sample_deployment (js "duplicate") [{| pr_name := js "audit"; protocolVersion := js "not-a-version" |}]
    [sample_requirement (js "echo") (js "not-a-range") None].

Example resolve_deployment_order_witness :
  resolve_stable {| deployments := reverse (deployments sample_input); previousBindings := None |} =
  resolve_stable sample_input ∧
  resolve_stable (duplicate_input [duplicate_valid; duplicate_invalid]) =
  resolve_stable (duplicate_input [duplicate_invalid; duplicate_valid]).
Proof.
  split.
  - apply (resolve_deployment_order sample_input), reverse_Permutation.
  - apply (resolve_deployment_order (duplicate_input [duplicate_invalid; duplicate_valid])), perm_swap.
Defined.

Example duplicate_codes :
  map code ∘ diagnostics <$> resolve_stable (duplicate_input [duplicate_valid; duplicate_invalid]) =
  Some [CAPABILITY_DUPLICATE_DEPLOYMENT; CAPABILITY_PROTOCOL_RANGE_INVALID; CAPABILITY_PROTOCOL_VERSION_INVALID].
Proof. by vm_compute. Qed.



