(* ===== verification/Permission.v ===== *)
(** * Permissions and grants

    contracts/src/permission.ts and permission-grant.ts: the permission
    categories, the canonical form of a permission set, and whether a grant
    stays within a request. An error is the path it reports; its message is
    left out. [domainToASCII] is Node's, a parameter. *)

From S2P Require Import Prelude JsString Collections Regex JsValue.

(** ** Data *)
Record CapabilityPermissionEntry := { cp_name : jstring; cp_methods : list jstring }.
Record FilesystemRootPermission := { fr_path : jstring; fr_access : list jstring }.
Record WorkerResourceCeilings := { cpuMillis : Z; memoryBytes : Z; storageBytes : Z }.

Inductive Permission : Type :=
| CapabilityPermission (capabilities : list CapabilityPermissionEntry)
| EnvironmentPermission (names : list jstring)
| ExecutorPermission (executors : list jstring)
| FilesystemPermission (roots : list FilesystemRootPermission)
| NetworkPermission (hosts : list jstring) (ports : list Z) (methods : list jstring)
| SecretPermission (names : list jstring)
| WorkerPermission (labels : jsmap jstring jstring) (resources : WorkerResourceCeilings).

Definition kind_of (p : Permission) : jstring :=
  match p with
  | CapabilityPermission _ => js "capability"
  | EnvironmentPermission _ => js "environment"
  | ExecutorPermission _ => js "executor"
  | FilesystemPermission _ => js "filesystem"
  | NetworkPermission _ _ _ => js "network"
  | SecretPermission _ => js "secret"
  | WorkerPermission _ _ => js "worker"
  end.

(** [PermissionInputError], by its path. *)
Record input_error := PermissionInputError { error_path : jstring }.
Abbreviation checked := (result input_error).

(** ** Patterns and constants *)
Definition name_char (c : N) : bool :=
  is_alnum c || (c =? 46)%N || (c =? 95)%N || (c =? 45)%N.
Definition PORTABLE_NAME : regex := RSeq (RCls is_alnum) (rupto (RCls name_char) 127).
Definition env_start (c : N) : bool := is_upper c || is_lower c || (c =? 95)%N.
Definition env_char (c : N) : bool := is_alnum c || (c =? 95)%N.
Definition ENVIRONMENT_NAME : regex := RSeq (RCls env_start) (rupto (RCls env_char) 127).
Definition HTTP_METHODS : list jstring :=
  [js "DELETE"; js "GET"; js "HEAD"; js "OPTIONS"; js "PATCH"; js "POST"; js "PUT"].
Definition EXECUTOR_KINDS : list jstring := [js "process"; js "remote"; js "thread"].
Definition ACCESS_MODES : list jstring := [js "read"; js "write"].

(** "[a-z0-9](?:[a-z0-9-]{0,61}[a-z0-9])?" and its dotted sequences. *)
Definition host_edge (c : N) : bool := is_digit c || is_lower c.
Definition host_char (c : N) : bool := host_edge c || (c =? 45)%N.
Definition HOST_LABEL : regex :=
  RSeq (RCls host_edge) (ropt (RSeq (rupto (RCls host_char) 61) (RCls host_edge))).
Definition HOST_PATTERN : regex := RSeq HOST_LABEL (RStar (RSeq (ch 46) HOST_LABEL)).

(** ** Accessors of the copied data *)
Definition objectAt (value : json) (path : jstring) : checked (list (jstring * json)) :=
  match value with JObj fields => Ok fields | _ => Err (PermissionInputError path) end.

Definition exactKeys (value : list (jstring * json)) (keys : list jstring) (path : jstring)
  : checked unit :=
  throw_if (negb (bool_decide (js_sort compareText (JsMap.keys value) = js_sort compareText keys)))
    (PermissionInputError path).

Definition arrayAt (value : json) (path : jstring) : checked (list json) :=
  match value with JArr items => Ok items | _ => Err (PermissionInputError path) end.

Definition stringAt (value : json) (path : jstring) : checked jstring :=
  match value with JStr s => Ok s | _ => Err (PermissionInputError path) end.

(** A field that is not there is [undefined], which no accessor takes. *)
Definition field (value : list (jstring * json)) (name : jstring) (path : jstring) : checked json :=
  match JsMap.get value name with Some v => Ok v | None => Err (PermissionInputError path) end.

Definition item_path (path : jstring) (index : nat) : jstring := at_key path (index_key index).

(** [array.map((item, index) => f(item, path/index))], stopping at an error. *)
Fixpoint map_items {B} (f : json → jstring → checked B) (path : jstring) (index : nat)
    (items : list json) : checked (list B) :=
  match items with
  | [] => Ok []
  | item :: rest =>
      b ← f item (item_path path index);
      bs ← map_items f path (S index) rest;
      Ok (b :: bs)
  end.

(** ** Names, hosts, paths, methods *)
Definition portableName (value : json) (path : jstring) : checked jstring :=
  name ← stringAt value path;
  throw_if (negb (re_test PORTABLE_NAME name)) (PermissionInputError path);;
  Ok name.

Definition environmentName (value : json) (path : jstring) : checked jstring :=
  name ← stringAt value path;
  throw_if (negb (re_test ENVIRONMENT_NAME name)) (PermissionInputError path);;
  Ok name.

(** [s.endsWith(c) ? s.slice(0, -1) : s] *)
Definition strip_last (c : N) (s : jstring) : jstring :=
  match rev s with
  | x :: r => if (x =? c)%N then rev r else s
  | [] => s
  end.
Definition ends_in (c : N) (s : jstring) : bool :=
  match rev s with x :: _ => (x =? c)%N | [] => false end.

Section permissions.
Context (domainToASCII : jstring → jstring).

Definition canonicalHost (value : json) (path : jstring) : checked jstring :=
  source ← stringAt value path;
  throw_if (includes source 42%N || includes source 0%N || (length source =? 0)%nat)
    (PermissionInputError path);;
  let withoutDot := strip_last 46 source in
  throw_if (ends_in 46 withoutDot || (length withoutDot =? 0)%nat) (PermissionInputError path);;
  let ascii := toLowerCase (domainToASCII withoutDot) in
  throw_if ((length ascii =? 0)%nat || (253 <? length ascii)%nat || negb (re_test HOST_PATTERN ascii))
    (PermissionInputError path);;
  Ok ascii.

Definition segment_ok (segment : jstring) : bool :=
  negb (streq segment (js ".")) && negb (streq segment (js "..")) &&
  negb (length segment =? 0)%nat && forallb name_char segment.

Definition canonicalRoot (value : json) (path : jstring) : checked jstring :=
  source ← stringAt value path;
  throw_if (negb (startsWith (js "/") source) || includes source 92%N || includes source 0%N ||
            includesStr (js "//") source) (PermissionInputError path);;
  let segments := tail (splitc 47 source) in
  throw_if (negb (forallb segment_ok segments) && negb (streq source (js "/")))
    (PermissionInputError path);;
  Ok (if (1 <? length source)%nat && ends_in 47 source then strip_last 47 source else source).

Definition canonicalMethods (value : json) (path : jstring) : checked (list jstring) :=
  items ← arrayAt value path;
  methods ← map_items (λ item p,
    s ← stringAt item p;
    let method := toUpperCase s in
    throw_if (negb (includes HTTP_METHODS method)) (PermissionInputError p);;
    Ok method) path 0 items;
  Ok (sortedUnique methods compareText).

(** ** Categories *)
Fixpoint capability_items (path : jstring) (index : nat) (seen : list jstring) (items : list json)
  : checked (list CapabilityPermissionEntry) :=
  match items with
  | [] => Ok []
  | item :: rest =>
      let itemPath := item_path (path ++ js "/capabilities") index in
      entry ← objectAt item itemPath;
      exactKeys entry [js "methods"; js "name"] itemPath;;
      nameValue ← field entry (js "name") itemPath;
      name ← portableName nameValue (at_key itemPath (js "name"));
      throw_if (includes seen name) (PermissionInputError itemPath);;
      methodsValue ← field entry (js "methods") itemPath;
      methodItems ← arrayAt methodsValue (at_key itemPath (js "methods"));
      methods ← map_items portableName (at_key itemPath (js "methods")) 0 methodItems;
      others ← capability_items path (S index) (name :: seen) rest;
      Ok ({| cp_name := name; cp_methods := sortedUnique methods compareText |} :: others)
  end.

Definition canonicalCapability (value : list (jstring * json)) (path : jstring) : checked Permission :=
  exactKeys value [js "capabilities"; js "kind"] path;;
  v ← field value (js "capabilities") path;
  items ← arrayAt v (at_key path (js "capabilities"));
  capabilities ← capability_items path 0 [] items;
  Ok (CapabilityPermission
    (js_sort (λ left right, compareText (cp_name left) (cp_name right)) capabilities)).

(** A string of a fixed set. *)
Definition member_of (allowed : list jstring) (value : json) (path : jstring) : checked jstring :=
  match value with
  | JStr s => if includes allowed s then Ok s else Err (PermissionInputError path)
  | _ => Err (PermissionInputError path)
  end.

Definition canonicalExecutor (value : list (jstring * json)) (path : jstring) : checked Permission :=
  exactKeys value [js "executors"; js "kind"] path;;
  v ← field value (js "executors") path;
  items ← arrayAt v (at_key path (js "executors"));
  executors ← map_items (member_of EXECUTOR_KINDS) (at_key path (js "executors")) 0 items;
  Ok (ExecutorPermission (sortedUnique executors compareText)).

(** [Number.isSafeInteger(v) && low <= v && v <= high] *)
Definition integer_in (low high : Z) (value : json) (path : jstring) : checked Z :=
  match value with
  | JNum n =>
      match safe_integer n with
      | Some z => if (low <=? z)%Z && (z <=? high)%Z then Ok z else Err (PermissionInputError path)
      | None => Err (PermissionInputError path)
      end
  | _ => Err (PermissionInputError path)
  end.

Definition canonicalNetwork (value : list (jstring * json)) (path : jstring) : checked Permission :=
  exactKeys value [js "hosts"; js "kind"; js "methods"; js "ports"] path;;
  hostsValue ← field value (js "hosts") path;
  hostItems ← arrayAt hostsValue (at_key path (js "hosts"));
  hosts ← map_items canonicalHost (at_key path (js "hosts")) 0 hostItems;
  portsValue ← field value (js "ports") path;
  portItems ← arrayAt portsValue (at_key path (js "ports"));
  ports ← map_items (integer_in 1 65535) (at_key path (js "ports")) 0 portItems;
  methodsValue ← field value (js "methods") path;
  methods ← canonicalMethods methodsValue (at_key path (js "methods"));
  Ok (NetworkPermission (sortedUnique hosts compareText) (sortedUnique ports Z.sub) methods).

Fixpoint root_items (path : jstring) (index : nat) (seen : list jstring) (items : list json)
  : checked (list FilesystemRootPermission) :=
  match items with
  | [] => Ok []
  | item :: rest =>
      let itemPath := item_path (path ++ js "/roots") index in
      entry ← objectAt item itemPath;
      exactKeys entry [js "access"; js "path"] itemPath;;
      pathValue ← field entry (js "path") itemPath;
      root ← canonicalRoot pathValue (at_key itemPath (js "path"));
      throw_if (includes seen root) (PermissionInputError itemPath);;
      accessValue ← field entry (js "access") itemPath;
      accessItems ← arrayAt accessValue (at_key itemPath (js "access"));
      access ← map_items (member_of ACCESS_MODES) (at_key itemPath (js "access")) 0 accessItems;
      others ← root_items path (S index) (root :: seen) rest;
      Ok ({| fr_path := root; fr_access := sortedUnique access compareText |} :: others)
  end.

Definition canonicalFilesystem (value : list (jstring * json)) (path : jstring) : checked Permission :=
  exactKeys value [js "kind"; js "roots"] path;;
  v ← field value (js "roots") path;
  items ← arrayAt v (at_key path (js "roots"));
  roots ← root_items path 0 [] items;
  Ok (FilesystemPermission (js_sort (λ left right, compareText (fr_path left) (fr_path right)) roots)).

Definition canonicalNames (value : list (jstring * json)) (path : jstring) (environment : bool)
  : checked Permission :=
  exactKeys value [js "kind"; js "names"] path;;
  v ← field value (js "names") path;
  items ← arrayAt v (at_key path (js "names"));
  names ← map_items (if environment then environmentName else portableName)
    (at_key path (js "names")) 0 items;
  let names := sortedUnique names compareText in
  Ok (if environment then EnvironmentPermission names else SecretPermission names).

Definition resource (value : json) (path : jstring) : checked Z :=
  integer_in 0 MAX_SAFE_INTEGER value path.

(** The loop over the sorted names of the labels. *)
Fixpoint label_items (sourceLabels : list (jstring * json)) (path : jstring) (names : list jstring)
    (labels : jsmap jstring jstring) : checked (jsmap jstring jstring) :=
  match names with
  | [] => Ok labels
  | name :: rest =>
      let p := at_key (path ++ js "/labels") name in
      key ← portableName (JStr name) p;
      v ← field sourceLabels name p;
      label ← portableName v p;
      label_items sourceLabels path rest (JsMap.set labels key label)
  end.

Definition canonicalWorker (value : list (jstring * json)) (path : jstring) : checked Permission :=
  exactKeys value [js "kind"; js "labels"; js "resources"] path;;
  labelsValue ← field value (js "labels") path;
  sourceLabels ← objectAt labelsValue (at_key path (js "labels"));
  labels ← label_items sourceLabels path (js_sort compareText (JsMap.keys sourceLabels)) [];
  let resourcesPath := at_key path (js "resources") in
  resourcesValue ← field value (js "resources") path;
  resources ← objectAt resourcesValue resourcesPath;
  exactKeys resources [js "cpuMillis"; js "memoryBytes"; js "storageBytes"] resourcesPath;;
  cpuValue ← field resources (js "cpuMillis") resourcesPath;
  cpu ← resource cpuValue (at_key resourcesPath (js "cpuMillis"));
  memoryValue ← field resources (js "memoryBytes") resourcesPath;
  memory ← resource memoryValue (at_key resourcesPath (js "memoryBytes"));
  storageValue ← field resources (js "storageBytes") resourcesPath;
  storage ← resource storageValue (at_key resourcesPath (js "storageBytes"));
  Ok (WorkerPermission labels
    {| cpuMillis := cpu; memoryBytes := memory; storageBytes := storage |}).

(** ** [canonicalizePermissionSet] *)
Definition canonicalEntry (kind : jstring) (entry : list (jstring * json)) (path : jstring)
  : checked Permission :=
  if streq kind (js "capability") then canonicalCapability entry path
  else if streq kind (js "environment") then canonicalNames entry path true
  else if streq kind (js "secret") then canonicalNames entry path false
  else if streq kind (js "executor") then canonicalExecutor entry path
  else if streq kind (js "filesystem") then canonicalFilesystem entry path
  else if streq kind (js "network") then canonicalNetwork entry path
  else if streq kind (js "worker") then canonicalWorker entry path
  else Err (PermissionInputError (at_key path (js "kind"))).

Fixpoint permission_items (index : nat) (seen : list jstring) (items : list json)
  : checked (list Permission) :=
  match items with
  | [] => Ok []
  | item :: rest =>
      let path := item_path (js "$") index in
      entry ← objectAt item path;
      kindValue ← field entry (js "kind") (at_key path (js "kind"));
      kind ← stringAt kindValue (at_key path (js "kind"));
      throw_if (includes seen kind) (PermissionInputError path);;
      permission ← canonicalEntry kind entry path;
      others ← permission_items (S index) (kind :: seen) rest;
      Ok (permission :: others)
  end.

(** On the copied value. *)
Definition canonicalize (stable : json) : checked (list Permission) :=
  entries ← arrayAt stable (js "$");
  permissions ← permission_items 0 [] entries;
  Ok (js_sort (λ left right, compareText (kind_of left) (kind_of right)) permissions).

(** A copy that runs out of fuel does not occur ([clone_terminates]). *)
Definition canonicalizePermissionSet (h : heap) (input : jsval) : checked (list Permission) :=
  match clone h input with
  | Ok stable => canonicalize stable
  | Err (Fault path _) => Err (PermissionInputError path)
  | Err OutOfFuel => Err (PermissionInputError (js "$"))
  end.

(** ** Comparing two canonical sets *)
Definition containsAll {A} `{EqDecision A} (requested granted : list A) : bool :=
  forallb (includes requested) granted.

Definition containsLogicalPath (root target : jstring) : bool :=
  streq root (js "/") || streq target root || startsWith (root ++ js "/") target.

Definition categorySubset (requested granted : Permission) : bool :=
  match requested, granted with
  | CapabilityPermission maximum, CapabilityPermission capabilities =>
      forallb (λ capability,
        match List.find (λ candidate, streq (cp_name candidate) (cp_name capability)) maximum with
        | Some requestedCapability =>
            containsAll (cp_methods requestedCapability) (cp_methods capability)
        | None => false
        end) capabilities
  | EnvironmentPermission maximum, EnvironmentPermission names => containsAll maximum names
  | ExecutorPermission maximum, ExecutorPermission executors => containsAll maximum executors
  | FilesystemPermission maximum, FilesystemPermission roots =>
      forallb (λ root, existsb (λ requestedRoot,
        containsLogicalPath (fr_path requestedRoot) (fr_path root) &&
        containsAll (fr_access requestedRoot) (fr_access root)) maximum) roots
  | NetworkPermission mh mp mm, NetworkPermission hosts ports methods =>
      containsAll mh hosts && containsAll mp ports && containsAll mm methods
  | SecretPermission maximum, SecretPermission names => containsAll maximum names
  | WorkerPermission ml mr, WorkerPermission labels resources =>
      forallb (λ e, bool_decide (JsMap.get labels e.1 = Some e.2)) ml &&
      (cpuMillis resources <=? cpuMillis mr)%Z && (memoryBytes resources <=? memoryBytes mr)%Z &&
      (storageBytes resources <=? storageBytes mr)%Z
  | _, _ => false
  end.

Inductive PermissionDecisionCode :=
| PERMISSION_ENVELOPE_INVALID
| PERMISSION_GRANT_EXCEEDS_REQUEST.

Record PermissionDecision := {
  allowed : bool;
  pd_diagnostics : list (PermissionDecisionCode * jstring);
  pd_requested : option (list Permission);
  pd_granted : option (list Permission);
}.

(** The loop over the granted categories: the first one outside the request. *)
Definition exceeding (requested granted : list Permission) : option Permission :=
  List.find (λ permission,
    match List.find (λ candidate, streq (kind_of candidate) (kind_of permission)) requested with
    | Some maximum => negb (categorySubset maximum permission)
    | None => true
    end) granted.

Definition validatePermissionGrant (h : heap) (requestedInput grantedInput : jsval)
  : PermissionDecision :=
  let both :=
    requested ← canonicalizePermissionSet h requestedInput;
    granted ← canonicalizePermissionSet h grantedInput;
    Ok (requested, granted) in
  match both with
  | Err invalid =>
      {| allowed := false;
         pd_diagnostics := [(PERMISSION_ENVELOPE_INVALID, error_path invalid)];
         pd_requested := None; pd_granted := None |}
  | Ok (requested, granted) =>
      match exceeding requested granted with
      | Some permission =>
          {| allowed := false;
             pd_diagnostics := [(PERMISSION_GRANT_EXCEEDS_REQUEST,
                                 js "$/granted/" ++ kind_of permission)];
             pd_requested := Some requested; pd_granted := Some granted |}
      | None =>
          {| allowed := true; pd_diagnostics := [];
             pd_requested := Some requested; pd_granted := Some granted |}
      end
  end.
End permissions.
