(* ===== verification/Gate.v ===== *)
(** * The permission gate and the capability schema registry

    runtime/src/permissions/gate.ts and component-boundary.ts: whether one call
    is inside a granted permission set, and the registry that compiles the
    schemas of capability payloads once. Messages are left out. Parameters:
    Node's [domainToASCII]; [stringify], the text [JSON.stringify] gives;
    [parseDefinition] and [compileSchema], the contract parser and the schema
    compiler of contracts/src, which are not modelled. *)

From S2P Require Import Prelude JsString Collections Regex JsValue Permission.

(** ** Calls *)
Inductive PermissionCallAttempt : Type :=
| CallCapability (name method : jstring)
| CallEnvironment (name : jstring)
| CallExecutor (executor : jstring)
| CallFilesystem (path access : jstring)
| CallNetwork (host : jstring) (port : Z) (method : jstring)
| CallSecret (name : jstring)
| CallWorker (labels : jsmap jstring jstring) (resources : WorkerResourceCeilings).

Definition call_kind (c : PermissionCallAttempt) : jstring :=
  match c with
  | CallCapability _ _ => js "capability"
  | CallEnvironment _ => js "environment"
  | CallExecutor _ => js "executor"
  | CallFilesystem _ _ => js "filesystem"
  | CallNetwork _ _ _ => js "network"
  | CallSecret _ => js "secret"
  | CallWorker _ _ => js "worker"
  end.

Record PermissionGateDecision := {
  gd_allowed : bool;
  gd_diagnostics : list (PermissionDecisionCode * jstring);
}.

Definition denied : PermissionGateDecision :=
  {| gd_allowed := false;
     gd_diagnostics := [(PERMISSION_GRANT_EXCEEDS_REQUEST, js "$/attempt")] |}.
Definition invalidPermission : PermissionGateDecision :=
  {| gd_allowed := false; gd_diagnostics := [(PERMISSION_ENVELOPE_INVALID, js "$/attempt")] |}.
Definition permitted : PermissionGateDecision := {| gd_allowed := true; gd_diagnostics := [] |}.

(** [expectedFields[kind]]; a name of [Object.prototype] finds a value that
    fails the comparison of fields. *)
Definition expectedFields (kind : jstring) : option (list jstring) :=
  if streq kind (js "capability") then Some [js "kind"; js "method"; js "name"]
  else if streq kind (js "environment") then Some [js "kind"; js "name"]
  else if streq kind (js "executor") then Some [js "executor"; js "kind"]
  else if streq kind (js "filesystem") then Some [js "access"; js "kind"; js "path"]
  else if streq kind (js "network") then Some [js "host"; js "kind"; js "method"; js "port"]
  else if streq kind (js "secret") then Some [js "kind"; js "name"]
  else if streq kind (js "worker") then Some [js "kind"; js "labels"; js "resources"]
  else None.

Section gate.
Context (domainToASCII : jstring → jstring).

(** The one-entry permission set of a call. *)
Definition holder_source (kind : jstring) (call : list (jstring * json)) : json :=
  let get name := default JNull (JsMap.get call name) in
  if streq kind (js "network") then
    JObj [(js "kind", JStr (js "network")); (js "hosts", JArr [get (js "host")]);
          (js "ports", JArr [get (js "port")]); (js "methods", JArr [get (js "method")])]
  else if streq kind (js "filesystem") then
    JObj [(js "kind", JStr (js "filesystem"));
          (js "roots", JArr [JObj [(js "path", get (js "path"));
                                   (js "access", JArr [get (js "access")])]])]
  else if streq kind (js "worker") then
    JObj [(js "kind", JStr (js "worker")); (js "labels", get (js "labels"));
          (js "resources", get (js "resources"))]
  else if streq kind (js "capability") then
    JObj [(js "kind", JStr (js "capability"));
          (js "capabilities", JArr [JObj [(js "name", get (js "name"));
                                          (js "methods", JArr [get (js "method")])]])]
  else if streq kind (js "executor") then
    JObj [(js "kind", JStr (js "executor")); (js "executors", JArr [get (js "executor")])]
  else JObj [(js "kind", JStr kind); (js "names", JArr [get (js "name")])].

Definition first_or {A} (d : A) (l : list A) : A := match l with a :: _ => a | [] => d end.

Definition call_of (holder : Permission) : option PermissionCallAttempt :=
  match holder with
  | CapabilityPermission [] => None
  | CapabilityPermission (entry :: _) =>
      Some (CallCapability (cp_name entry) (first_or [] (cp_methods entry)))
  | EnvironmentPermission names => Some (CallEnvironment (first_or [] names))
  | SecretPermission names => Some (CallSecret (first_or [] names))
  | ExecutorPermission executors => Some (CallExecutor (first_or (js "process") executors))
  | FilesystemPermission [] => None
  | FilesystemPermission (root :: _) =>
      Some (CallFilesystem (fr_path root) (first_or (js "read") (fr_access root)))
  | NetworkPermission hosts ports methods =>
      Some (CallNetwork (first_or [] hosts) (first_or 0%Z ports) (first_or [] methods))
  | WorkerPermission labels resources => Some (CallWorker labels resources)
  end.

(** On the copied call; [None] is any error. The copy of the one-entry set is
    that set, as it is JSON data already. *)
Definition normalize_stable (stable : json) : option PermissionCallAttempt :=
  match stable with
  | JObj call =>
      match JsMap.get call (js "kind") with
      | Some (JStr kind) =>
          match expectedFields kind with
          | Some expected =>
              if bool_decide (js_sort compareText (JsMap.keys call) = js_sort compareText expected)
              then match canonicalize domainToASCII (JArr [holder_source kind call]) with
                   | Ok (holder :: _) => call_of holder
                   | _ => None
                   end
              else None
          | None => None
          end
      | _ => None
      end
  | _ => None
  end.

Definition normalizeCall (h : heap) (input : jsval) : option PermissionCallAttempt :=
  match clone h input with Ok stable => normalize_stable stable | Err _ => None end.

(** ** The decision *)
Definition covers (permission : Permission) (attempt : PermissionCallAttempt) : bool :=
  match attempt, permission with
  | CallCapability name method, CapabilityPermission capabilities =>
      existsb (λ entry, streq (cp_name entry) name && includes (cp_methods entry) method) capabilities
  | CallEnvironment name, EnvironmentPermission names => includes names name
  | CallSecret name, SecretPermission names => includes names name
  | CallExecutor executor, ExecutorPermission executors => includes executors executor
  | CallFilesystem path access, FilesystemPermission roots =>
      existsb (λ root, containsLogicalPath (fr_path root) path && includes (fr_access root) access) roots
  | CallNetwork host port method, NetworkPermission hosts ports methods =>
      includes hosts host && includes ports port && includes methods method
  | CallWorker labels resources, WorkerPermission plabels presources =>
      forallb (λ e, bool_decide (JsMap.get labels e.1 = Some e.2)) plabels &&
      (cpuMillis resources <=? cpuMillis presources)%Z &&
      (memoryBytes resources <=? memoryBytes presources)%Z &&
      (storageBytes resources <=? storageBytes presources)%Z
  | _, _ => false
  end.

Definition gate_call (granted : list Permission) (attempt : PermissionCallAttempt)
  : PermissionGateDecision :=
  match List.find (λ candidate, streq (kind_of candidate) (call_kind attempt)) granted with
  | None => denied
  | Some permission => if covers permission attempt then permitted else denied
  end.

Definition gatePermission (h : heap) (grantedInput attemptInput : jsval) : PermissionGateDecision :=
  match canonicalizePermissionSet domainToASCII h grantedInput with
  | Err _ => invalidPermission
  | Ok granted =>
      match normalizeCall h attemptInput with
      | None => invalidPermission
      | Some attempt => gate_call granted attempt
      end
  end.
End gate.

(** ** The schema registry *)
Inductive CapabilityPayloadCode :=
| CAPABILITY_PAYLOAD_INVALID
| CAPABILITY_REQUEST_INVALID
| CAPABILITY_RESPONSE_INVALID
| CAPABILITY_SCHEMA_ID_CONFLICT
| CAPABILITY_SCHEMA_INVALID.
#[export] Instance payload_code_eq_dec : EqDecision CapabilityPayloadCode.
Proof. solve_decision. Defined.

(** What a schema validator throws: a diagnostic, by its code, or anything else. *)
Inductive parse_failure := DiagnosticFailure (diagnosticCode : jstring) | OtherFailure.
(** [SchemaValidator]: [parse] returns, or throws. *)
Record SchemaValidator := { sv_parse : json → option parse_failure }.

(** A capability definition: its identity and its two schemas, within its JSON. *)
Record CapabilityDefinition := {
  def_json : json;
  def_name : jstring;
  def_protocolVersion : jstring;
  requestSchema : json;
  responseSchema : json;
}.

Record CapabilitySchemaGate := {
  definition : CapabilityDefinition;
  g_request : SchemaValidator;
  g_response : SchemaValidator;
}.

Record RegisteredSchema := { canonical : jstring; validator : SchemaValidator }.

Record CapabilitySchemaRegistry := {
  gates : jsmap jstring CapabilitySchemaGate;
  schemas : jsmap jstring RegisteredSchema;
}.

Definition new_registry : CapabilitySchemaRegistry := {| gates := []; schemas := [] |}.

(** [schemaId]: the own string property "$id" of an object schema. *)
Definition schemaId (schema : json) : option jstring :=
  match schema with
  | JObj fields => match JsMap.get fields (js "$id") with Some (JStr id) => Some id | _ => None end
  | _ => None
  end.

Section registry.
Context (stringify : json → jstring)
  (parseDefinition : json → option CapabilityDefinition)
  (compileSchema : json → option SchemaValidator).

Definition schema_key (schema : json) : jstring :=
  match schemaId schema with
  | None => js "anonymous:" ++ stringify schema
  | Some id => js "id:" ++ id
  end.

(** [#prepare]: the validator, and the schemas pending for the registry. *)
Definition prepare (registered : jsmap jstring RegisteredSchema) (schema : json)
    (pending : jsmap jstring RegisteredSchema)
  : result CapabilityPayloadCode (SchemaValidator * jsmap jstring RegisteredSchema) :=
  let canonical_text := stringify schema in
  let key := schema_key schema in
  let existing :=
    match JsMap.get pending key with Some e => Some e | None => JsMap.get registered key end in
  match existing with
  | Some existing =>
      if negb (streq (canonical existing) canonical_text) then Err CAPABILITY_SCHEMA_ID_CONFLICT
      else Ok (validator existing, pending)
  | None =>
      match compileSchema schema with
      | None => Err CAPABILITY_SCHEMA_INVALID
      | Some v => Ok (v, JsMap.set pending key {| canonical := canonical_text; validator := v |})
      end
  end.

(** [register], after the copy of the definition. *)
Definition register (r : CapabilitySchemaRegistry) (copied : option json)
  : CapabilitySchemaRegistry * result CapabilityPayloadCode CapabilitySchemaGate :=
  match (j ← copied; parseDefinition j) with
  | None => (r, Err CAPABILITY_SCHEMA_INVALID)
  | Some d =>
      let definitionKey := stringify (def_json d) in
      match JsMap.get (gates r) definitionKey with
      | Some existingGate => (r, Ok existingGate)
      | None =>
          match
            '(request, pending) ← prepare (schemas r) (requestSchema d) [];
            '(response, pending) ← prepare (schemas r) (responseSchema d) pending;
            Ok (request, response, pending)
          with
          | Err code => (r, Err code)
          | Ok (request, response, pending) =>
              let gate := {| definition := d; g_request := request; g_response := response |} in
              ({| gates := JsMap.set (gates r) definitionKey gate;
                  schemas := foldl (λ m e, JsMap.set m e.1 e.2) (schemas r) pending |},
               Ok gate)
          end
      end
  end.

Definition clear_registry (r : CapabilitySchemaRegistry) : CapabilitySchemaRegistry := new_registry.
End registry.

(** ** Payloads *)
Record CapabilityPayloadDecision := {
  pl_allowed : bool;
  pl_diagnostics : list CapabilityPayloadCode;
  pl_value : option json;
}.

(** [payloadGate] on the copy of a payload. *)
Definition payloadGate (gate : CapabilitySchemaGate) (copied : option json) (is_request : bool)
  : CapabilityPayloadDecision :=
  let refuse code := {| pl_allowed := false; pl_diagnostics := [code]; pl_value := None |} in
  match copied with
  | None => refuse CAPABILITY_PAYLOAD_INVALID
  | Some value =>
      match sv_parse (if is_request then g_request gate else g_response gate) value with
      | None => {| pl_allowed := true; pl_diagnostics := []; pl_value := Some value |}
      | Some (DiagnosticFailure code) =>
          refuse (if streq code (js "PROTOCOL_SCHEMA_INVALID") then CAPABILITY_SCHEMA_INVALID
                  else if streq code (js "PROTOCOL_SCHEMA_VALIDATION_FAILED")
                  then if is_request then CAPABILITY_REQUEST_INVALID else CAPABILITY_RESPONSE_INVALID
                  else CAPABILITY_PAYLOAD_INVALID)
      | Some OtherFailure => refuse CAPABILITY_PAYLOAD_INVALID
      end
  end.

(** ** component-boundary.ts: the gates of a component, by capability identity *)
Record boundary := {
  registry : CapabilitySchemaRegistry;
  by_identity : jsmap (jstring * jstring) CapabilitySchemaGate;
}.
Definition new_boundary : boundary := {| registry := new_registry; by_identity := [] |}.

(** [identityKey] is the JSON text of a pair of strings: the pair itself. *)
Definition identityKey (g : CapabilitySchemaGate) : jstring * jstring :=
  (def_name (definition g), def_protocolVersion (definition g)).

Section boundary.
Context (stringify : json → jstring)
  (parseDefinition : json → option CapabilityDefinition)
  (compileSchema : json → option SchemaValidator).

(** [capability.register]: all the definitions, or none and an empty boundary. *)
Fixpoint register_all (b : boundary) (definitions : list (option json))
  : boundary * result CapabilityPayloadCode unit :=
  match definitions with
  | [] => (b, Ok tt)
  | d :: rest =>
      let '(r, registration) := register stringify parseDefinition compileSchema (registry b) d in
      match registration with
      | Err code => (new_boundary, Err code)
      | Ok gate =>
          register_all {| registry := r; by_identity := JsMap.set (by_identity b) (identityKey gate) gate |}
            rest
      end
  end.
End boundary.

Definition missingGate : CapabilityPayloadDecision :=
  {| pl_allowed := false; pl_diagnostics := [CAPABILITY_PAYLOAD_INVALID]; pl_value := None |}.
Definition boundary_call (is_request : bool) (b : boundary) (i : jstring * jstring)
    (copied : option json) : CapabilityPayloadDecision :=
  match JsMap.get (by_identity b) i with
  | None => missingGate
  | Some gate => payloadGate gate copied is_request
  end.
Definition boundary_clear (b : boundary) : boundary := new_boundary.
