(* ===== verification/PermissionProofs.v ===== *)
(** * Permission sets have a canonical form, and grants cannot escalate

    The theorems about Permission.v and Gate.v: canonicalisation is a
    projection, the grant check is a preorder, and what the gate lets through
    under a valid grant it lets through under the request. *)

From S2P Require Import Prelude JsString Collections Regex JsValue Permission Gate.

(** ** Parsers that accept what they return *)
Definition good {B} (f : json → jstring → checked B) (enc : B → json) (v : B) : Prop :=
  ∀ q, f (enc v) q = Ok v.
Definition idem {B} (f : json → jstring → checked B) (enc : B → json) : Prop :=
  ∀ j p v, f j p = Ok v → good f enc v.

Lemma throw_if_false {E B} (e : E) (m : result E B) : (throw_if false e;; m) = m.
Proof. done. Qed.

Lemma map_items_good {B} (f : json → jstring → checked B) enc p i l vs :
  idem f enc → map_items f p i l = Ok vs → Forall (good f enc) vs.
Proof.
  intros Hf. revert i vs. induction l as [|j l IH]; intros i vs H; cbn [map_items] in H.
  - injection H as <-. constructor.
  - inv_ok H. subst. constructor; [by eapply Hf|by eapply IH].
Qed.

Lemma good_map_items {B} (f : json → jstring → checked B) enc p i vs :
  Forall (good f enc) vs → map_items f p i (map enc vs) = Ok vs.
Proof.
  intros H. revert i. induction H as [|v vs Hv Hvs IH]; intros i; [done|].
  cbn [map map_items]. rewrite Hv. cbn. by rewrite IH.
Qed.

Lemma Forall_sortedUnique {A} (P : A → Prop) (cmp : A → A → Z) `{!TotalComparator cmp} l :
  Forall P l → Forall P (sortedUnique l cmp).
Proof.
  rewrite !Forall_forall. intros H x Hx. apply H. by rewrite elem_of_sortedUnique in Hx.
Qed.

Lemma stringAt_ok j p s : stringAt j p = Ok s ↔ j = JStr s.
Proof. destruct j; simpl; naive_solver. Qed.

Ltac open_parser H :=
  inv_ok H;
  repeat match goal with
  | H : stringAt ?j _ = Ok _ |- _ => apply stringAt_ok in H; subst j
  end; subst.

Lemma portableName_idem : idem portableName JStr.
Proof.
  intros j p v H. unfold portableName in H. open_parser H. intros q. unfold portableName. cbn.
  unfold throw_if in *. by rewrite Ha0.
Qed.

Lemma environmentName_idem : idem environmentName JStr.
Proof.
  intros j p v H. unfold environmentName in H. open_parser H. intros q. unfold environmentName. cbn.
  by rewrite Ha0.
Qed.

Lemma member_of_idem allowed : idem (member_of allowed) JStr.
Proof.
  intros j p v H. destruct j; try done. simpl in *. destruct (includes allowed s) eqn:E; [|done].
  injection H as <-. intros q. simpl. by rewrite E.
Qed.

Lemma integer_in_idem low high : idem (integer_in low high) (λ z, JNum (NInt z)).
Proof.
  intros j p v H. destruct j; try done. simpl in *. destruct n; try done. simpl in *.
  destruct (isSafeInteger z) eqn:Es; [|done]. destruct (_ && _) eqn:E; [|done].
  injection H as <-. intros q. simpl. by rewrite Es, E.
Qed.

Definition http_method (item : json) (p : jstring) : checked jstring :=
  s ← stringAt item p;
  let method := toUpperCase s in
  throw_if (negb (includes HTTP_METHODS method)) (PermissionInputError p);;
  Ok method.

Lemma http_method_idem : idem http_method JStr.
Proof.
  intros j p v H. unfold http_method in H. open_parser H. apply negb_false_iff, includes_true in Ha0.
  intros q. unfold http_method. cbn [stringAt]. rewrite bind_ok_l. cbv zeta.
  assert (toUpperCase (toUpperCase a) = toUpperCase a ∧
          includes HTTP_METHODS (toUpperCase a) = true) as [-> ->]; [|done].
  repeat (apply elem_of_cons in Ha0 as [->|Ha0]; [split; vm_compute; reflexivity|]).
  by apply elem_of_nil in Ha0.
Qed.

(** ** Roots *)
Lemma splitc_app_last c s : splitc c (s ++ [c]) = splitc c s ++ [[]].
Proof.
  induction s as [|x s IH]; simpl; [by rewrite N.eqb_refl|].
  destruct (N.eqb_spec x c) as [->|]; [by rewrite IH|]. rewrite IH.
  destruct (splitc c s) as [|w ws] eqn:E; [by apply splitc_nonnil in E|done].
Qed.

Lemma ends_in_spec c s : ends_in c s = true ↔ ∃ s', s = s' ++ [c].
Proof.
  unfold ends_in. split.
  - destruct (rev s) as [|x r] eqn:E; [done|]. intros ->%N.eqb_eq. exists (rev r).
    rewrite <- (rev_involutive s), E. done.
  - intros (s' & ->). rewrite rev_app_distr. simpl. apply N.eqb_refl.
Qed.

(** A trailing slash is always refused, so the root is returned as it is given. *)
Lemma canonicalRoot_id j p r : canonicalRoot j p = Ok r → j = JStr r ∧ startsWith (js "/") r = true.
Proof.
  unfold canonicalRoot. intros H. open_parser H. apply orb_false_iff in Ha0 as [H1 _].
  apply orb_false_iff in H1 as [H1 _]. apply orb_false_iff in H1 as [H1 _].
  apply negb_false_iff in H1.
  destruct ((1 <? length a)%nat && ends_in 47 a) eqn:E; [|by subst].
  apply andb_true_iff in E as [Hl%Nat.ltb_lt (s & ->)%ends_in_spec]. exfalso.
  apply andb_false_iff in Ha1 as [Hseg|Hone].
  - apply negb_false_iff, forallb_forall_in with (x := []) in Hseg; [done|].
    rewrite splitc_app_last. destruct (splitc_cons 47 s) as (w & ws & ->). simpl. set_solver.
  - apply negb_false_iff, streq_true in Hone. rewrite Hone in Hl. simpl in Hl. lia.
Qed.

Lemma canonicalRoot_idem : idem canonicalRoot JStr.
Proof.
  intros j p r H q. pose proof H as Hid. apply canonicalRoot_id in Hid as [-> _].
  unfold canonicalRoot in *. inv_ok H. simpl in Ha. injection Ha as <-. cbn [stringAt].
  rewrite bind_ok_l, Ha0, throw_if_false. cbv zeta. rewrite Ha1, throw_if_false. by rewrite H.
Qed.

(** ** Hosts *)
Lemma lang_HOST_LABEL s :
  lang HOST_LABEL s → forallb host_char s = true ∧ ∃ s' c, s = s' ++ [c] ∧ host_edge c = true.
Proof.
  assert (∀ c, host_edge c = true → host_char c = true) as Hw by (intros c; unfold host_char; by intros ->).
  intros (x & y & -> & (c & -> & Hc) & [Hy|(z & w & -> & [_ Hz]%lang_rupto & (d & -> & Hd))]).
  - simpl in Hy. subst. simpl. rewrite Hw by done. split; [done|]. by exists [], c.
  - split.
    + simpl. rewrite Hw, forallb_app by done. simpl. rewrite Hw, !andb_true_r by done.
      apply forallb_forall_in. by apply Forall_forall.
    + by exists ([c] ++ z), d.
Qed.

(** A host name: letters, digits, dashes and inner dots. *)
Lemma lang_HOST_PATTERN s :
  lang HOST_PATTERN s →
  forallb (λ c, host_char c || (c =? 46)%N) s = true ∧ ∃ s' c, s = s' ++ [c] ∧ host_edge c = true.
Proof.
  assert (∀ w, forallb host_char w = true → forallb (λ c, host_char c || (c =? 46)%N) w = true) as Hw.
  { intros w. rewrite !forallb_forall_in. intros H x Hx. by rewrite H. }
  intros (x & y & -> & [Hx (x' & c & -> & Hc)]%lang_HOST_LABEL & Hy).
  assert (y = [] ∨ ∃ y' c, y = y' ++ [c] ∧ host_edge c = true) as Hlast.
  { induction Hy as [|u v (a & b & -> & ->%lang_ch & [_ (b' & d & -> & Hd)]%lang_HOST_LABEL) _ IH];
      [by left|]. right. destruct IH as [->|(v' & e & -> & He)].
    - exists ([46%N] ++ b'), d. by rewrite app_nil_r, app_assoc.
    - exists (([46%N] ++ b' ++ [d]) ++ v'), e. by rewrite app_assoc. }
  split.
  - rewrite forallb_app, (Hw _ Hx). simpl. clear -Hy Hw.
    induction Hy as [|u v (a & b & -> & ->%lang_ch & [Hb _]%lang_HOST_LABEL) _ IH]; [done|].
    rewrite forallb_app, IH, andb_true_r. simpl. by apply Hw.
  - destruct Hlast as [->|(y' & d & -> & Hd)].
    + rewrite app_nil_r. by exists x', c.
    + exists ((x' ++ [c]) ++ y'), d. by rewrite app_assoc.
Qed.

Section with_ascii.
Context (domainToASCII : jstring → jstring).

(** Mapping a host name to ASCII again changes nothing. *)
Definition ascii_idempotent : Prop := ∀ s,
  let a := toLowerCase (domainToASCII s) in
  re_test HOST_PATTERN a = true → toLowerCase (domainToASCII a) = a.

Lemma canonicalHost_idem : ascii_idempotent → idem (canonicalHost domainToASCII) JStr.
Proof.
  intros Hascii j p r H q. unfold canonicalHost in H. open_parser H.
  set (hst := toLowerCase (domainToASCII (strip_last 46 a))) in *.
  pose proof Ha2 as Hg. apply orb_false_iff in Hg as [Hlen Hpat]. apply negb_false_iff in Hpat.
  pose proof (Hascii _ Hpat) as Hfix. fold hst in Hfix.
  pose proof Hpat as Hlang. apply re_test_spec, lang_HOST_PATTERN in Hlang as [Hchars (s' & c & Hs & Hc)].
  assert (∀ x, host_char x || (x =? 46)%N = false → includes hst x = false) as Hno.
  { intros x Hx. apply includes_false. intros Hin. rewrite forallb_forall_in in Hchars.
    apply Hchars in Hin. cbv beta in Hin. congruence. }
  assert (ends_in 46 hst = false) as Hend.
  { apply not_true_iff_false. intros (t & Ht)%ends_in_spec. rewrite Hs in Ht.
    apply app_inj_tail in Ht as [_ ->]. by vm_compute in Hc. }
  assert (strip_last 46 hst = hst) as Hstrip.
  { unfold strip_last. unfold ends_in in Hend. destruct (rev hst) as [|x l] eqn:E; [done|]. by rewrite Hend. }
  assert ((length hst =? 0)%nat = false) as Hne by (rewrite Hs, length_app; apply Nat.eqb_neq; simpl; lia).
  unfold canonicalHost. cbn [stringAt]. rewrite bind_ok_l, (Hno 42%N eq_refl), (Hno 0%N eq_refl), Hne.
  cbn [orb]. rewrite throw_if_false. cbv zeta. rewrite Hstrip, Hend, Hne. cbn [orb].
  rewrite throw_if_false, Hfix, Ha2. done.
Qed.

(** ** Canonical permissions *)
Definition strictly {A} (cmp : A → A → Z) (l : list A) : Prop :=
  StronglySorted (λ x y, cmp x y < 0)%Z l.

Definition canonical_strings (f : json → jstring → checked jstring) (l : list jstring) : Prop :=
  Forall (good f JStr) l ∧ strictly compareText l.

Definition canonical_permission (p : Permission) : Prop :=
  match p with
  | CapabilityPermission cs =>
      Forall (λ e, good portableName JStr (cp_name e) ∧ canonical_strings portableName (cp_methods e)) cs ∧
      strictly (λ l r, compareText (cp_name l) (cp_name r)) cs
  | EnvironmentPermission names => canonical_strings environmentName names
  | ExecutorPermission executors => canonical_strings (member_of EXECUTOR_KINDS) executors
  | FilesystemPermission roots =>
      Forall (λ r, good canonicalRoot JStr (fr_path r) ∧
                   canonical_strings (member_of ACCESS_MODES) (fr_access r)) roots ∧
      strictly (λ l r, compareText (fr_path l) (fr_path r)) roots
  | NetworkPermission hosts ports methods =>
      canonical_strings (canonicalHost domainToASCII) hosts ∧
      (Forall (good (integer_in 1 65535) (λ z, JNum (NInt z))) ports ∧ strictly Z.sub ports) ∧
      canonical_strings http_method methods
  | SecretPermission names => canonical_strings portableName names
  | WorkerPermission labels r =>
      Forall (λ e, good portableName JStr e.1 ∧ good portableName JStr e.2) labels ∧
      strictly compareText (JsMap.keys labels) ∧
      good resource (λ z, JNum (NInt z)) (cpuMillis r) ∧
      good resource (λ z, JNum (NInt z)) (memoryBytes r) ∧
      good resource (λ z, JNum (NInt z)) (storageBytes r)
  end.

(** A permission set in canonical form: at most one permission of a kind, in
    the order of the kinds. *)
Definition canonical_set (ps : list Permission) : Prop :=
  Forall canonical_permission ps ∧ strictly (λ l r, compareText (kind_of l) (kind_of r)) ps.

Lemma sortedUnique_strings (f : json → jstring → checked jstring) p i items l :
  idem f JStr → map_items f p i items = Ok l → canonical_strings f (sortedUnique l compareText).
Proof.
  intros Hf H. split.
  - apply Forall_sortedUnique; [apply _|]. by eapply map_items_good.
  - apply sortedUnique_strict, _.
Qed.

(** Sorting elements with distinct keys sorts them strictly. *)
Lemma js_sort_strict {A} (key : A → jstring) l :
  NoDup (map key l) →
  strictly (λ x y, compareText (key x) (key y)) (js_sort (λ x y, compareText (key x) (key y)) l).
Proof.
  intros Hnd. pose proof (comparator_on key compareText) as Hc.
  pose proof (js_sort_sorted (λ x y, compareText (key x) (key y)) l) as Hs.
  assert (NoDup (map key (js_sort (λ x y, compareText (key x) (key y)) l))) as Hnd'.
  { eapply NoDup_Permutation_proper; [|exact Hnd]. apply Permutation_map, js_sort_perm. }
  clear Hnd. induction Hs as [|x k Hk IH Hx]; [constructor|]. simpl in Hnd'.
  apply NoDup_cons in Hnd' as [Hnx Hnd']. constructor; [by apply IH|].
  rewrite Forall_forall in *. intros y Hy. specialize (Hx y Hy).
  destruct (Z.eq_dec (compareText (key x) (key y)) 0) as [E|]; [|lia].
  apply compareText_eq in E. destruct Hnx. rewrite E. apply list_elem_of_fmap. eauto.
Qed.

Lemma strictly_sort {A} (cmp : A → A → Z) `{!Comparator cmp} l : strictly cmp l → js_sort cmp l = l.
Proof.
  intros Hs. apply js_sort_id. induction Hs as [|x k Hk IH Hx]; constructor; [done|].
  eapply Forall_impl; [exact Hx|]. simpl. lia.
Qed.

Lemma strictly_NoDup {A} (key : A → jstring) l :
  strictly (λ x y, compareText (key x) (key y)) l → NoDup (map key l).
Proof.
  induction 1 as [|x k Hk IH Hx]; simpl; constructor; [|done].
  intros (y & E & Hy)%list_elem_of_fmap. rewrite Forall_forall in Hx. specialize (Hx y Hy).
  simpl in Hx. rewrite E in Hx. assert (compareText (key y) (key y) = 0%Z) as E0 by (by apply compareText_eq).
  lia.
Qed.

(** ** The parsers return canonical permissions *)
Context (Hascii : ascii_idempotent).

Lemma capability_items_canonical path : ∀ items index seen cs,
  capability_items path index seen items = Ok cs →
  Forall (λ e, good portableName JStr (cp_name e) ∧ canonical_strings portableName (cp_methods e)) cs ∧
  NoDup (map cp_name cs) ∧ ∀ e, e ∈ cs → cp_name e ∉ seen.
Proof.
  induction items as [|item items IH]; intros index seen cs H; cbn [capability_items] in H.
  - injection H as <-. split_and!; [constructor|constructor|by intros ? ?%elem_of_nil].
  - cbv zeta in H. open_parser H.
    match goal with H : capability_items _ _ _ _ = Ok _ |- _ => apply IH in H as (H1 & H2 & H3) end.
    match goal with H : includes seen _ = false |- _ => apply includes_false in H end.
    split_and!.
    + constructor; [|done]. split; [by eapply portableName_idem|].
      eapply sortedUnique_strings; [apply portableName_idem|done].
    + simpl. constructor; [|done]. intros (e & E & He)%list_elem_of_fmap. apply (H3 e He).
      rewrite <- E. left.
    + intros e [->|He]%elem_of_cons; [done|]. specialize (H3 e He). set_solver.
Qed.

Lemma root_items_canonical path : ∀ items index seen rs,
  root_items path index seen items = Ok rs →
  Forall (λ r, good canonicalRoot JStr (fr_path r) ∧
               canonical_strings (member_of ACCESS_MODES) (fr_access r)) rs ∧
  NoDup (map fr_path rs) ∧ ∀ r, r ∈ rs → fr_path r ∉ seen.
Proof.
  induction items as [|item items IH]; intros index seen cs H; cbn [root_items] in H.
  - injection H as <-. split_and!; [constructor|constructor|by intros ? ?%elem_of_nil].
  - cbv zeta in H. open_parser H.
    match goal with H : root_items _ _ _ _ = Ok _ |- _ => apply IH in H as (H1 & H2 & H3) end.
    match goal with H : includes seen _ = false |- _ => apply includes_false in H end.
    split_and!.
    + constructor; [|done]. split; [by eapply canonicalRoot_idem|].
      eapply sortedUnique_strings; [apply member_of_idem|done].
    + simpl. constructor; [|done]. intros (e & E & He)%list_elem_of_fmap. apply (H3 e He).
      rewrite <- E. left.
    + intros e [->|He]%elem_of_cons; [done|]. specialize (H3 e He). set_solver.
Qed.

(** The labels are filled in the order of their names. *)
Lemma set_strictly (labels : jsmap jstring jstring) n l :
  strictly compareText (JsMap.keys labels) →
  (∀ k, k ∈ JsMap.keys labels → (compareText k n ≤ 0)%Z) →
  strictly compareText (JsMap.keys (JsMap.set labels n l)).
Proof.
  intros Hs Hle. rewrite JsMap.keys_set. destruct (JsMap.has labels n) eqn:E; [done|].
  assert (n ∉ JsMap.keys labels) as Hn by (intros Hin; apply JsMap.has_keys in Hin; congruence).
  apply StronglySorted_app. split_and!; [|done|repeat constructor].
  intros x1 x2 Hx ->%list_elem_of_singleton. specialize (Hle _ Hx).
  destruct (Z.eq_dec (compareText x1 n) 0) as [E0|]; [|lia].
  apply compareText_eq in E0 as ->. done.
Qed.

Lemma Forall_set (P : jstring * jstring → Prop) (labels : jsmap jstring jstring) n l :
  Forall P labels → P (n, l) → Forall P (JsMap.set labels n l).
Proof.
  intros HF Hn. induction HF as [|[k v] m Hk Hm IH]; simpl; [by repeat constructor|].
  case_bool_decide; constructor; by subst.
Qed.

Lemma label_items_canonical source path : ∀ names labels labels',
  label_items source path names labels = Ok labels' →
  StronglySorted (λ x y, compareText x y ≤ 0)%Z names →
  strictly compareText (JsMap.keys labels) →
  (∀ k n, k ∈ JsMap.keys labels → n ∈ names → (compareText k n ≤ 0)%Z) →
  Forall (λ e, good portableName JStr e.1 ∧ good portableName JStr e.2) labels →
  strictly compareText (JsMap.keys labels') ∧
  Forall (λ e, good portableName JStr e.1 ∧ good portableName JStr e.2) labels'.
Proof.
  induction names as [|n names IH]; intros labels labels' H Hns Hs Hle Hl; cbn [label_items] in H.
  - injection H as <-. done.
  - cbv zeta in H. apply bind_ok in H as (k & Hk & H). apply bind_ok in H as (v & _ & H).
    apply bind_ok in H as (l & Hlab & H).
    assert (k = n) as -> by (unfold portableName in Hk; inv_ok Hk; simpl in *; congruence).
    apply StronglySorted_inv in Hns as [Hns Hn]. rewrite Forall_forall in Hn.
    apply IH in H; [done|done| | |].
    + apply set_strictly; [done|]. intros k Hin. apply Hle; [done|left].
    + intros k m. rewrite JsMap.keys_set. destruct (JsMap.has labels n).
      * intros. apply Hle; [done|by right].
      * rewrite elem_of_app, list_elem_of_singleton. intros [Hin| ->] Hm; [|by apply Hn].
        apply Hle; [done|by right].
    + apply Forall_set; [done|]. split; simpl; by eapply portableName_idem.
Qed.

Lemma canonicalEntry_canonical kind entry path p :
  canonicalEntry domainToASCII kind entry path = Ok p →
  kind_of p = kind ∧ canonical_permission p.
Proof.
  unfold canonicalEntry. intros H.
  repeat match type of H with
  | (if streq kind ?k then _ else _) = _ =>
      destruct (streq kind k) eqn:?; [match goal with E : streq kind _ = true |- _ =>
        apply streq_true in E; subst kind end|]
  end; [..|done].
  - unfold canonicalCapability in H. open_parser H.
    match goal with H : capability_items _ _ _ _ = Ok _ |- _ =>
      apply capability_items_canonical in H as (H1 & H2 & _) end.
    split; [done|]. split; [by rewrite js_sort_perm|by apply js_sort_strict].
  - unfold canonicalNames in H. open_parser H. split; [done|].
    eapply sortedUnique_strings; [apply environmentName_idem|done].
  - unfold canonicalNames in H. open_parser H. split; [done|].
    eapply sortedUnique_strings; [apply portableName_idem|done].
  - unfold canonicalExecutor in H. open_parser H. split; [done|].
    eapply sortedUnique_strings; [apply member_of_idem|done].
  - unfold canonicalFilesystem in H. open_parser H.
    match goal with H : root_items _ _ _ _ = Ok _ |- _ =>
      apply root_items_canonical in H as (H1 & H2 & _) end.
    split; [done|]. split; [by rewrite js_sort_perm|by apply js_sort_strict].
  - unfold canonicalNetwork, canonicalMethods in H. open_parser H. split; [done|]. split_and!.
    + eapply sortedUnique_strings; [by apply canonicalHost_idem|done].
    + apply Forall_sortedUnique; [apply _|]. eapply map_items_good; [apply integer_in_idem|done].
    + apply sortedUnique_strict, _.
    + eapply sortedUnique_strings; [apply http_method_idem|done].
  - unfold canonicalWorker in H. open_parser H. split; [done|].
    match goal with H : label_items _ _ _ _ = Ok _ |- _ =>
      apply label_items_canonical in H as [H1 H2] end;
      [|apply js_sort_sorted, _|constructor|by intros ? ? ?%elem_of_nil|constructor].
    split_and!; [done|done|..]; by eapply integer_in_idem.
Qed.

Lemma permission_items_canonical : ∀ items index seen ps,
  permission_items domainToASCII index seen items = Ok ps →
  Forall canonical_permission ps ∧ NoDup (map kind_of ps) ∧ ∀ p, p ∈ ps → kind_of p ∉ seen.
Proof.
  induction items as [|item items IH]; intros index seen ps H; cbn [permission_items] in H.
  - injection H as <-. split_and!; [constructor|constructor|by intros ? ?%elem_of_nil].
  - cbv zeta in H. open_parser H.
    match goal with H : permission_items _ _ _ _ = Ok _ |- _ => apply IH in H as (H1 & H2 & H3) end.
    match goal with H : canonicalEntry _ _ _ _ = Ok _ |- _ =>
      apply canonicalEntry_canonical in H as [<- Hc] end.
    match goal with H : includes seen _ = false |- _ => apply includes_false in H end.
    split_and!; [by constructor| |].
    + simpl. constructor; [|done]. intros (e & E & He)%list_elem_of_fmap. apply (H3 e He).
      rewrite <- E. left.
    + intros e [->|He]%elem_of_cons; [done|]. specialize (H3 e He). set_solver.
Qed.

Lemma canonicalize_canonical j ps : canonicalize domainToASCII j = Ok ps → canonical_set ps.
Proof.
  unfold canonicalize. intros H. open_parser H.
  match goal with H : permission_items _ _ _ _ = Ok _ |- _ =>
    apply permission_items_canonical in H as (H1 & H2 & _) end.
  split; [by rewrite js_sort_perm|by apply js_sort_strict].
Qed.

(** ** Printing a permission set, and reading it back *)
Definition strings_json (l : list jstring) : json := JArr (map JStr l).
Definition capability_json (e : CapabilityPermissionEntry) : json :=
  JObj [(js "methods", strings_json (cp_methods e)); (js "name", JStr (cp_name e))].
Definition root_json (r : FilesystemRootPermission) : json :=
  JObj [(js "access", strings_json (fr_access r)); (js "path", JStr (fr_path r))].
Definition integer_json (z : Z) : json := JNum (NInt z).

Definition permission_json (p : Permission) : json :=
  let kind := (js "kind", JStr (kind_of p)) in
  match p with
  | CapabilityPermission cs => JObj [(js "capabilities", JArr (map capability_json cs)); kind]
  | EnvironmentPermission names => JObj [kind; (js "names", strings_json names)]
  | ExecutorPermission executors => JObj [(js "executors", strings_json executors); kind]
  | FilesystemPermission roots => JObj [kind; (js "roots", JArr (map root_json roots))]
  | NetworkPermission hosts ports methods =>
      JObj [(js "hosts", strings_json hosts); kind; (js "methods", strings_json methods);
            (js "ports", JArr (map integer_json ports))]
  | SecretPermission names => JObj [kind; (js "names", strings_json names)]
  | WorkerPermission labels r =>
      JObj [kind; (js "labels", JObj (map (λ e, (e.1, JStr e.2)) labels));
            (js "resources", JObj [(js "cpuMillis", integer_json (cpuMillis r));
                                   (js "memoryBytes", integer_json (memoryBytes r));
                                   (js "storageBytes", integer_json (storageBytes r))])]
  end.

Lemma reread_strings f p i l :
  canonical_strings f l →
  map_items f p i (map JStr l) = Ok l ∧ sortedUnique l compareText = l.
Proof.
  intros [Hg Hs]. split; [by apply good_map_items|]. by apply strict_sortedUnique.
Qed.

Lemma reread_capabilities path : ∀ cs index seen,
  Forall (λ e, good portableName JStr (cp_name e) ∧ canonical_strings portableName (cp_methods e)) cs →
  NoDup (map cp_name cs) → (∀ e, e ∈ cs → cp_name e ∉ seen) →
  capability_items path index seen (map capability_json cs) = Ok cs.
Proof.
  induction cs as [|[n ms] cs IH]; intros index seen HF Hnd Hseen; [done|].
  apply Forall_cons in HF as [[Hn Hm] HF]. simpl in Hnd. apply NoDup_cons in Hnd as [Hnn Hnd].
  cbn [map capability_items]. cbv zeta. 
  change (capability_json {| cp_name := n; cp_methods := ms |})
    with (JObj [(js "methods", strings_json ms); (js "name", JStr n)]).
  cbn [objectAt cp_name cp_methods] in *.
  rewrite bind_ok_l. change (exactKeys _ [js "methods"; js "name"] ?q) with (Ok tt : checked unit).
  rewrite bind_ok_l. change (field _ (js "name") ?q) with (Ok (JStr n) : checked json).
  rewrite bind_ok_l, Hn, bind_ok_l.
  assert (includes seen n = false) as -> by (apply includes_false, (Hseen {| cp_name := n; cp_methods := ms |}); left).
  rewrite throw_if_false. change (field _ (js "methods") ?q) with (Ok (strings_json ms) : checked json).
  rewrite bind_ok_l. cbn [strings_json arrayAt]. rewrite bind_ok_l.
  simpl in Hm. apply (reread_strings _ (at_key (item_path (path ++ js "/capabilities") index) (js "methods")) 0)
    in Hm as [-> Hsu]. rewrite bind_ok_l, Hsu, IH; [done|done|done|].
  intros e He. rewrite not_elem_of_cons. split; [|apply Hseen; by right].
  intros E. apply Hnn. rewrite <- E. apply list_elem_of_fmap. eauto.
Qed.

Lemma reread_roots path : ∀ rs index seen,
  Forall (λ r, good canonicalRoot JStr (fr_path r) ∧
               canonical_strings (member_of ACCESS_MODES) (fr_access r)) rs →
  NoDup (map fr_path rs) → (∀ r, r ∈ rs → fr_path r ∉ seen) →
  root_items path index seen (map root_json rs) = Ok rs.
Proof.
  induction rs as [|[n ms] rs IH]; intros index seen HF Hnd Hseen; [done|].
  apply Forall_cons in HF as [[Hn Hm] HF]. simpl in Hnd. apply NoDup_cons in Hnd as [Hnn Hnd].
  cbn [map root_items]. cbv zeta. 
  change (root_json {| fr_path := n; fr_access := ms |})
    with (JObj [(js "access", strings_json ms); (js "path", JStr n)]).
  cbn [objectAt fr_path fr_access] in *.
  rewrite bind_ok_l. change (exactKeys _ [js "access"; js "path"] ?q) with (Ok tt : checked unit).
  rewrite bind_ok_l. change (field _ (js "path") ?q) with (Ok (JStr n) : checked json).
  rewrite bind_ok_l, Hn, bind_ok_l.
  assert (includes seen n = false) as -> by (apply includes_false, (Hseen {| fr_path := n; fr_access := ms |}); left).
  rewrite throw_if_false. change (field _ (js "access") ?q) with (Ok (strings_json ms) : checked json).
  rewrite bind_ok_l. cbn [strings_json arrayAt]. rewrite bind_ok_l.
  simpl in Hm. apply (reread_strings _ (at_key (item_path (path ++ js "/roots") index) (js "access")) 0)
    in Hm as [-> Hsu]. rewrite bind_ok_l, Hsu, IH; [done|done|done|].
  intros e He. rewrite not_elem_of_cons. split; [|apply Hseen; by right].
  intros E. apply Hnn. rewrite <- E. apply list_elem_of_fmap. eauto.
Qed.

Definition label_json (e : jstring * jstring) : jstring * json := (e.1, JStr e.2).

Lemma label_json_get (labels : jsmap jstring jstring) n v :
  NoDup (JsMap.keys labels) → (n, v) ∈ labels → JsMap.get (map label_json labels) n = Some (JStr v).
Proof.
  intros Hnd Hin. apply JsMap.in_get.
  - unfold JsMap.wf, JsMap.keys. rewrite <- list_fmap_compose. exact Hnd.
  - apply list_elem_of_fmap. by exists (n, v).
Qed.

Lemma strictly_keys_NoDup l : strictly compareText l → NoDup l.
Proof. apply (strict_NoDup compareText). Qed.

Lemma reread_labels path labels : 
  Forall (λ e, good portableName JStr e.1 ∧ good portableName JStr e.2) labels →
  NoDup (JsMap.keys labels) → ∀ rest done, labels = done ++ rest →
  label_items (map label_json labels) path (JsMap.keys rest) done = Ok labels.
Proof.
  intros HF Hnd. induction rest as [|[n v] rest IH]; intros before E; cbn [JsMap.keys fmap list_fmap label_items].
  - by rewrite E, app_nil_r.
  - assert ((n, v) ∈ labels) as Hin by (rewrite E; set_solver).
    rewrite Forall_forall in HF. destruct (HF _ Hin) as [Hn Hv]. cbv zeta.
    cbn [fst snd] in *. rewrite Hn, bind_ok_l. unfold field. rewrite (label_json_get _ n v) by done.
    rewrite bind_ok_l, Hv, bind_ok_l. rewrite JsMap.set_absent.
    + apply IH. by rewrite E, <- app_assoc.
    + rewrite E in Hnd. unfold JsMap.keys in *. rewrite fmap_app in Hnd. simpl in Hnd.
      apply NoDup_app in Hnd as (_ & Hd & _). intros Hk. apply (Hd n Hk). left.
Qed.

(** One category, read back from its text. *)
Lemma reread_entry p path :
  canonical_permission p →
  ∃ fields, permission_json p = JObj fields ∧
    JsMap.get fields (js "kind") = Some (JStr (kind_of p)) ∧
    canonicalEntry domainToASCII (kind_of p) fields path = Ok p.
Proof.
  intros Hp. destruct p as [cs|names|es|rs|hs ps ms|names|ls [c m s]]; eexists;
    (split; [reflexivity|split; [reflexivity|]]); unfold canonicalEntry;
    repeat match goal with
    | |- (if streq ?a ?b then ?x else ?y) = _ =>
        let v := eval vm_compute in (streq a b) in
        change (if streq a b then x else y) with (if v then x else y); cbv iota
    end.
  - destruct Hp as [HF Hs]. unfold canonicalCapability.
    change (exactKeys _ [js "capabilities"; js "kind"] ?q) with (Ok tt : checked unit). rewrite bind_ok_l.
    change (field _ (js "capabilities") ?q) with (Ok (JArr (map capability_json cs)) : checked json).
    rewrite bind_ok_l. cbn [arrayAt]. rewrite bind_ok_l, reread_capabilities.
    + rewrite bind_ok_l, strictly_sort; [done|apply comparator_on, _|done].
    + done.
    + by apply strictly_NoDup.
    + intros e _. apply not_elem_of_nil.
  - destruct (reread_strings _ (at_key path (js "names")) 0 _ Hp) as [E1 E2]. unfold canonicalNames.
    change (exactKeys _ [js "kind"; js "names"] ?q) with (Ok tt : checked unit). rewrite bind_ok_l.
    change (field _ (js "names") ?q) with (Ok (strings_json names) : checked json).
    rewrite bind_ok_l. cbn [strings_json arrayAt]. by rewrite bind_ok_l, E1, bind_ok_l, E2.
  - destruct (reread_strings _ (at_key path (js "executors")) 0 _ Hp) as [E1 E2]. unfold canonicalExecutor.
    change (exactKeys _ [js "executors"; js "kind"] ?q) with (Ok tt : checked unit). rewrite bind_ok_l.
    change (field _ (js "executors") ?q) with (Ok (strings_json es) : checked json).
    rewrite bind_ok_l. cbn [strings_json arrayAt]. by rewrite bind_ok_l, E1, bind_ok_l, E2.
  - destruct Hp as [HF Hs]. unfold canonicalFilesystem.
    change (exactKeys _ [js "kind"; js "roots"] ?q) with (Ok tt : checked unit). rewrite bind_ok_l.
    change (field _ (js "roots") ?q) with (Ok (JArr (map root_json rs)) : checked json).
    rewrite bind_ok_l. cbn [arrayAt]. rewrite bind_ok_l, reread_roots.
    + rewrite bind_ok_l, strictly_sort; [done|apply comparator_on, _|done].
    + done.
    + by apply strictly_NoDup.
    + intros e _. apply not_elem_of_nil.
  - destruct Hp as (Hh & [Hp1 Hp2] & Hm).
    destruct (reread_strings _ (at_key path (js "hosts")) 0 _ Hh) as [E1 E2].
    destruct (reread_strings _ (at_key path (js "methods")) 0 _ Hm) as [E3 E4].
    unfold canonicalNetwork, canonicalMethods.
    change (exactKeys _ [js "hosts"; js "kind"; js "methods"; js "ports"] ?q) with (Ok tt : checked unit).
    rewrite bind_ok_l.
    change (field _ (js "hosts") ?q) with (Ok (strings_json hs) : checked json).
    change (field _ (js "ports") ?q) with (Ok (JArr (map integer_json ps)) : checked json).
    change (field _ (js "methods") ?q) with (Ok (strings_json ms) : checked json).
    rewrite bind_ok_l. cbn [strings_json arrayAt]. rewrite bind_ok_l, E1, !bind_ok_l.
    cbn [arrayAt]. rewrite bind_ok_l. unfold integer_json.
    rewrite (good_map_items (integer_in 1 65535) (λ z, JNum (NInt z))), !bind_ok_l by done.
    cbn [strings_json arrayAt]. rewrite bind_ok_l.
    change (map_items _ (at_key path (js "methods")) 0 (map JStr ms))
      with (map_items http_method (at_key path (js "methods")) 0 (map JStr ms)).
    rewrite E3, !bind_ok_l, E2, E4. do 2 f_equal. by apply strict_sortedUnique.
  - destruct (reread_strings _ (at_key path (js "names")) 0 _ Hp) as [E1 E2]. unfold canonicalNames.
    change (exactKeys _ [js "kind"; js "names"] ?q) with (Ok tt : checked unit). rewrite bind_ok_l.
    change (field _ (js "names") ?q) with (Ok (strings_json names) : checked json).
    rewrite bind_ok_l. cbn [strings_json arrayAt]. by rewrite bind_ok_l, E1, bind_ok_l, E2.
  - destruct Hp as (HF & Hs & Hc & Hm & Hst). cbn [cpuMillis memoryBytes storageBytes] in *.
    unfold canonicalWorker. cbv zeta.
    change (exactKeys _ [js "kind"; js "labels"; js "resources"] ?q) with (Ok tt : checked unit).
    rewrite bind_ok_l.
    change (field _ (js "labels") ?q) with (Ok (JObj (map label_json ls)) : checked json).
    rewrite bind_ok_l. cbn [objectAt]. rewrite bind_ok_l.
    assert (JsMap.keys (map label_json ls) = JsMap.keys ls) as ->.
    { unfold JsMap.keys. change (map label_json ls) with (label_json <$> ls).
      by rewrite <- list_fmap_compose. }
    rewrite strictly_sort by done || apply _.
    rewrite (reread_labels path ls HF (strictly_keys_NoDup _ Hs) ls []) by done.
    rewrite bind_ok_l.
    change (field _ (js "resources") ?q) with (Ok (JObj [(js "cpuMillis", integer_json c);
      (js "memoryBytes", integer_json m); (js "storageBytes", integer_json s)]) : checked json).
    rewrite bind_ok_l. cbn [objectAt]. rewrite bind_ok_l.
    change (exactKeys _ [js "cpuMillis"; js "memoryBytes"; js "storageBytes"] ?q) with (Ok tt : checked unit).
    rewrite bind_ok_l.
    change (field _ (js "cpuMillis") ?q) with (Ok (integer_json c) : checked json).
    rewrite bind_ok_l. unfold integer_json. rewrite Hc, bind_ok_l.
    change (field _ (js "memoryBytes") ?q) with (Ok (JNum (NInt m)) : checked json).
    rewrite bind_ok_l, Hm, bind_ok_l.
    change (field _ (js "storageBytes") ?q) with (Ok (JNum (NInt s)) : checked json).
    by rewrite bind_ok_l, Hst, bind_ok_l.
Qed.

Lemma reread_permissions : ∀ ps index seen,
  Forall canonical_permission ps → NoDup (map kind_of ps) → (∀ p, p ∈ ps → kind_of p ∉ seen) →
  permission_items domainToASCII index seen (map permission_json ps) = Ok ps.
Proof.
  induction ps as [|p ps IH]; intros index seen HF Hnd Hseen; [done|].
  apply Forall_cons in HF as [Hp HF]. simpl in Hnd. apply NoDup_cons in Hnd as [Hnp Hnd].
  cbn [map permission_items]. cbv zeta.
  destruct (reread_entry p (item_path (js "$") index) Hp) as (fields & E1 & E2 & E3).
  rewrite E1. cbn [objectAt]. rewrite bind_ok_l. unfold field. rewrite E2, bind_ok_l.
  cbn [stringAt]. rewrite bind_ok_l.
  assert (includes seen (kind_of p) = false) as -> by (apply includes_false, Hseen; left).
  rewrite throw_if_false, E3, bind_ok_l, IH; [done|done|done|].
  intros q Hq. rewrite not_elem_of_cons. split; [|apply Hseen; by right].
  intros E. apply Hnp. rewrite <- E. apply list_elem_of_fmap. eauto.
Qed.

Lemma reread_set ps :
  canonical_set ps → canonicalize domainToASCII (JArr (map permission_json ps)) = Ok ps.
Proof.
  intros [HF Hs]. unfold canonicalize. cbn [arrayAt]. rewrite bind_ok_l, reread_permissions.
  - rewrite bind_ok_l, strictly_sort; [done|apply comparator_on, _|done].
  - done.
  - by apply strictly_NoDup.
  - intros e _. apply not_elem_of_nil.
Qed.
End with_ascii.

(** ** Containment *)
Definition rooted (p : Permission) : Prop :=
  match p with
  | FilesystemPermission rs => ∀ r, r ∈ rs → startsWith (js "/") (fr_path r) = true
  | _ => True
  end.

Lemma root_items_rooted path : ∀ items index seen rs,
  root_items path index seen items = Ok rs → ∀ r, r ∈ rs → startsWith (js "/") (fr_path r) = true.
Proof.
  induction items as [|item items IH]; intros index seen rs H; cbn [root_items] in H.
  - injection H as <-. by intros ? ?%elem_of_nil.
  - cbv zeta in H. open_parser H. intros r [->|Hr]%elem_of_cons; [|by eapply IH].
    simpl. by eapply canonicalRoot_id.
Qed.

Lemma canonicalEntry_rooted d kind entry path p :
  canonicalEntry d kind entry path = Ok p → kind_of p = kind ∧ rooted p.
Proof.
  unfold canonicalEntry. intros H.
  repeat match type of H with
  | (if streq kind ?k then _ else _) = _ =>
      destruct (streq kind k) eqn:?; [match goal with E : streq kind _ = true |- _ =>
        apply streq_true in E; subst kind end|]
  end; [..|done].
  - unfold canonicalCapability in H. by open_parser H.
  - unfold canonicalNames in H. by open_parser H.
  - unfold canonicalNames in H. by open_parser H.
  - unfold canonicalExecutor in H. by open_parser H.
  - unfold canonicalFilesystem in H. open_parser H. split; [done|]. simpl. intros r Hr.
    apply elem_of_js_sort in Hr. by eapply root_items_rooted.
  - unfold canonicalNetwork, canonicalMethods in H. by open_parser H.
  - unfold canonicalWorker in H. by open_parser H.
Qed.

Lemma permission_items_rooted d : ∀ items index seen ps,
  permission_items d index seen items = Ok ps →
  Forall rooted ps ∧ NoDup (map kind_of ps) ∧ ∀ p, p ∈ ps → kind_of p ∉ seen.
Proof.
  induction items as [|item items IH]; intros index seen ps H; cbn [permission_items] in H.
  - injection H as <-. split_and!; [constructor|constructor|by intros ? ?%elem_of_nil].
  - cbv zeta in H. open_parser H.
    match goal with H : permission_items _ _ _ _ = Ok _ |- _ => apply IH in H as (H1 & H2 & H3) end.
    match goal with H : canonicalEntry _ _ _ _ = Ok _ |- _ =>
      apply canonicalEntry_rooted in H as [<- Hc] end.
    match goal with H : includes seen _ = false |- _ => apply includes_false in H end.
    split_and!; [by constructor| |].
    + simpl. constructor; [|done]. intros (e & E & He)%list_elem_of_fmap. apply (H3 e He).
      rewrite <- E. left.
    + intros e [->|He]%elem_of_cons; [done|]. specialize (H3 e He). set_solver.
Qed.

Lemma canonicalize_rooted d h v ps :
  canonicalizePermissionSet d h v = Ok ps → Forall rooted ps ∧ NoDup (map kind_of ps).
Proof.
  unfold canonicalizePermissionSet. destruct (clone h v) as [j|[]]; [|done..].
  unfold canonicalize. intros H. open_parser H.
  match goal with H : permission_items _ _ _ _ = Ok _ |- _ =>
    apply permission_items_rooted in H as (H1 & H2 & _) end.
  split; [by rewrite js_sort_perm|].
  eapply NoDup_Permutation_proper; [|exact H2]. apply Permutation_map, js_sort_perm.
Qed.

Lemma containsAll_spec {A} `{EqDecision A} (r g : list A) : containsAll r g = true ↔ g ⊆ r.
Proof. unfold containsAll. rewrite forallb_forall_in. by setoid_rewrite includes_true. Qed.

Lemma containsLogicalPath_spec root target :
  containsLogicalPath root target = true ↔
  root = js "/" ∨ target = root ∨ ∃ t, target = root ++ js "/" ++ t.
Proof.
  unfold containsLogicalPath. rewrite !orb_true_iff, !streq_true, startsWith_spec.
  setoid_rewrite <- app_assoc. naive_solver.
Qed.

Lemma containsLogicalPath_trans a b c :
  startsWith (js "/") a = true →
  containsLogicalPath a b = true → containsLogicalPath b c = true → containsLogicalPath a c = true.
Proof.
  rewrite startsWith_spec, !containsLogicalPath_spec.
  intros [a' Ha] [->|[->|[t ->]]] Hc; [by left|done|].
  destruct Hc as [E|[->|[u ->]]].
  - exfalso. rewrite Ha in E. apply (f_equal length) in E. rewrite !length_app in E. simpl in E. lia.
  - right. right. eauto.
  - right. right. exists (t ++ js "/" ++ u). by rewrite <- !app_assoc.
Qed.

Lemma find_kind ps p :
  NoDup (map kind_of ps) → p ∈ ps →
  List.find (λ candidate, streq (kind_of candidate) (kind_of p)) ps = Some p.
Proof.
  intros Hnd Hp. destruct (find_is_some (λ candidate, streq (kind_of candidate) (kind_of p)) ps p)
    as (q & E); [done|by apply streq_true|]. rewrite E. f_equal.
  apply find_some_in in E as [Hq Hk%streq_true].
  by eapply NoDup_map_inj.
Qed.

Lemma exceeding_none requested granted :
  exceeding requested granted = None ↔
  ∀ p, p ∈ granted → ∃ m, m ∈ requested ∧ kind_of m = kind_of p ∧
    List.find (λ candidate, streq (kind_of candidate) (kind_of p)) requested = Some m ∧
    categorySubset m p = true.
Proof.
  unfold exceeding. rewrite find_none_in. split.
  - intros H p Hp. specialize (H p Hp). cbv beta in H.
    destruct (List.find _ requested) as [m|] eqn:E; [|done]. exists m.
    pose proof (find_some_in _ _ _ E) as [Hm Hk%streq_true]. apply negb_false_iff in H. done.
  - intros H p Hp. destruct (H p Hp) as (m & _ & _ & -> & ->). done.
Qed.

(** A labelled map is contained in another. *)
Lemma labels_sub (a b : jsmap jstring jstring) :
  forallb (λ e, bool_decide (JsMap.get b e.1 = Some e.2)) a = true ↔
  ∀ k v, (k, v) ∈ a → JsMap.get b k = Some v.
Proof.
  rewrite forallb_forall_in. setoid_rewrite bool_decide_eq_true. split.
  - intros H k v Hin. by apply (H (k, v)).
  - intros H [k v] Hin. by apply H.
Qed.

Lemma covers_subset m p call :
  rooted m → categorySubset m p = true → covers p call = true → covers m call = true.
Proof.
  intros Hm. destruct m as [mc|mn|me|mr|mh mp mm|ms|ml mres], p as [pc|pn|pe|pr|ph pp pm|pns|pl pres];
    try done; destruct call; simpl; try done; rewrite ?andb_true_iff, ?containsAll_spec, ?includes_true.
  - rewrite forallb_forall_in, !existsb_exists_in.
    intros H (e & He & [<-%streq_true Hmth%includes_true]%andb_true_iff).
    specialize (H e He). cbv beta in H. destruct (List.find _ mc) as [q|] eqn:E; [|done].
    apply find_some_in in E as [Hq Hn]. exists q. split; [done|].
    apply andb_true_iff. split; [done|]. apply includes_true. rewrite containsAll_spec in H. by apply H.
  - auto.
  - auto.
  - rewrite forallb_forall_in, !existsb_exists_in.
    intros H (e & He & [Hpath Hacc%includes_true]%andb_true_iff).
    specialize (H e He). cbv beta in H. apply existsb_exists_in in H as (q & Hq & [Hqp Hqa]%andb_true_iff).
    exists q. split; [done|]. apply andb_true_iff. split.
    + eapply containsLogicalPath_trans; [by apply Hm|done..].
    + apply includes_true. rewrite containsAll_spec in Hqa. by apply Hqa.
  - intros [[H1 H2] H3] [[? ?] ?]. auto.
  - auto.
  - rewrite !Z.leb_le, !labels_sub.
    intros [[[Hsub ?] ?] ?] [[[Hatt ?] ?] ?]. split_and!; try lia.
    intros k v Hin. apply Hatt. apply JsMap.get_in. by apply Hsub.
Qed.

Lemma gate_call_allowed ps call :
  gd_allowed (gate_call ps call) = true ↔
  ∃ p, List.find (λ candidate, streq (kind_of candidate) (call_kind call)) ps = Some p ∧
       covers p call = true.
Proof.
  unfold gate_call. destruct (List.find _ ps) as [p|]; [|naive_solver].
  destruct (covers p call) eqn:E; simpl; naive_solver.
Qed.

Lemma validate_allowed d h rq gr :
  allowed (validatePermissionGrant d h rq gr) = true ↔
  ∃ R G, canonicalizePermissionSet d h rq = Ok R ∧ canonicalizePermissionSet d h gr = Ok G ∧
         exceeding R G = None.
Proof.
  unfold validatePermissionGrant. destruct (canonicalizePermissionSet d h rq) as [R|e]; simpl;
    [|naive_solver].
  destruct (canonicalizePermissionSet d h gr) as [G|e]; simpl; [|naive_solver].
  destruct (exceeding R G) eqn:E; simpl; naive_solver.
Qed.

Lemma gatePermission_allowed d h gr att :
  gd_allowed (gatePermission d h gr att) = true ↔
  ∃ G call, canonicalizePermissionSet d h gr = Ok G ∧ normalizeCall d h att = Some call ∧
            gd_allowed (gate_call G call) = true.
Proof.
  unfold gatePermission. destruct (canonicalizePermissionSet d h gr) as [G|e]; [|naive_solver].
  destruct (normalizeCall d h att) as [call|]; naive_solver.
Qed.

Lemma within_gate R G call :
  Forall rooted R → exceeding R G = None →
  gd_allowed (gate_call G call) = true → gd_allowed (gate_call R call) = true.
Proof.
  rewrite !gate_call_allowed, exceeding_none, Forall_forall.
  intros Hr Hw (p & E & Hc). pose proof (find_some_in _ _ _ E) as [Hp Hk%streq_true].
  destruct (Hw p Hp) as (m & Hm & Hkm & Em & Hs). rewrite Hk in Em. exists m. split; [done|].
  eapply covers_subset; [by apply Hr|done..].
Qed.

Lemma categorySubset_trans a b c :
  rooted a → categorySubset a b = true → categorySubset b c = true → categorySubset a c = true.
Proof.
  intros Ha. destruct a as [ac|an|ae|ar|ah ap am|ans|al ares], b as [bc|bn|be|br|bh bp bm|bns|bl bres];
    try done; destruct c as [cc|cn|ce|cr|ch cp cm|cns|cl cres]; try done; simpl;
    rewrite ?andb_true_iff, ?containsAll_spec.
  - rewrite !forallb_forall_in. intros H1 H2 e He. specialize (H2 e He). cbv beta in H2.
    destruct (List.find _ bc) as [q|] eqn:Eq; [|done].
    apply find_some_in in Eq as [Hq Hqn%streq_true].
    specialize (H1 q Hq). cbv beta in H1. rewrite Hqn in H1. destruct (List.find _ ac); [|done].
    rewrite containsAll_spec in *. by etrans.
  - intros; by etrans.
  - intros; by etrans.
  - rewrite !forallb_forall_in. intros H1 H2 e He. specialize (H2 e He). cbv beta in H2.
    apply existsb_exists_in in H2 as (q & Hq & [Hqp Hqa]%andb_true_iff).
    specialize (H1 q Hq). cbv beta in H1.
    apply existsb_exists_in in H1 as (r & Hr & [Hrp Hra]%andb_true_iff).
    apply existsb_exists_in. exists r. split; [done|]. apply andb_true_iff. split.
    + eapply containsLogicalPath_trans; [by apply Ha|done..].
    + rewrite containsAll_spec in *. by etrans.
  - intros [[? ?] ?] [[? ?] ?]. split_and!; by etrans.
  - intros; by etrans.
  - rewrite !Z.leb_le, !labels_sub.
    intros [[[Hsub ?] ?] ?] [[[Hatt ?] ?] ?]. split_and!; try lia.
    intros k v Hin. apply Hatt. apply JsMap.get_in. by apply Hsub.
Qed.

Lemma exceeding_trans A B C :
  Forall rooted A → exceeding A B = None → exceeding B C = None → exceeding A C = None.
Proof.
  rewrite !exceeding_none, Forall_forall. intros Hr H1 H2 p Hp.
  destruct (H2 p Hp) as (m & Hm & Hk & _ & Hs).
  destruct (H1 m Hm) as (q & Hq & Hkq & Eq & Hsq). exists q. rewrite Hk in Eq, Hkq.
  split_and!; [done..|]. by eapply categorySubset_trans; [apply Hr|..].
Qed.

Lemma categorySubset_refl d p : canonical_permission d p → categorySubset p p = true.
Proof.
  assert (∀ A (E : EqDecision A) (l : list A), containsAll l l = true) as Hall
    by (intros; by apply containsAll_spec).
  destruct p as [cs|names|es|rs|hs ps ms|names|ls r]; simpl; rewrite ?Hall; try done.
  - intros [_ Hs]. apply strictly_NoDup in Hs. apply forallb_forall_in. intros e He.
    destruct (find_is_some (λ candidate, streq (cp_name candidate) (cp_name e)) cs e) as (q & E);
      [done|by apply streq_true|]. rewrite E. apply find_some_in in E as [Hq Hn%streq_true].
    assert (q = e) as -> by (by apply (NoDup_map_inj cp_name cs)). apply Hall.
  - intros _. apply forallb_forall_in. intros e He. apply existsb_exists_in. exists e.
    split; [done|]. rewrite Hall, andb_true_r. apply containsLogicalPath_spec. auto.
  - intros (_ & Hs & _). rewrite !Z.leb_refl, !andb_true_r. apply labels_sub.
    intros k v Hin. apply JsMap.in_get; [|done]. by apply strictly_keys_NoDup.
Qed.

(** ** The registry *)
Section registry.
Context (stringify : json → jstring) (parseDefinition : json → option CapabilityDefinition)
  (compileSchema : json → option SchemaValidator).

(** What is pending is new to the registry. *)
Definition fresh_for (registered pending : jsmap jstring RegisteredSchema) : Prop :=
  ∀ k, k ∈ JsMap.keys pending → JsMap.get registered k = None.

Lemma prepare_spec registered schema pending v pending' :
  fresh_for registered pending →
  prepare stringify compileSchema registered schema pending = Ok (v, pending') →
  fresh_for registered pending' ∧
  (∀ k e, JsMap.get pending k = Some e → JsMap.get pending' k = Some e).
Proof.
  intros Hf. unfold prepare. cbv zeta. set (key := schema_key stringify schema).
  destruct (JsMap.get pending key) as [e|] eqn:Ep.
  { destruct (negb _); [done|]. intros [= _ <-]. done. }
  destruct (JsMap.get registered key) as [e|] eqn:Er.
  { destruct (negb _); [done|]. intros [= _ <-]. done. }
  destruct (compileSchema schema) as [w|]; [|done]. intros [= _ <-]. split.
  - intros k. rewrite JsMap.keys_set. destruct (JsMap.has pending key); [apply Hf|].
    rewrite elem_of_app, list_elem_of_singleton. intros [Hk| ->]; [by apply Hf|done].
  - intros k e Hk. rewrite JsMap.get_set_ne; [done|]. intros ->. congruence.
Qed.

Lemma merge_get (pending registered : jsmap jstring RegisteredSchema) k :
  k ∉ JsMap.keys pending →
  JsMap.get (foldl (λ m e, JsMap.set m e.1 e.2) registered pending) k = JsMap.get registered k.
Proof.
  revert registered. induction pending as [|[i e] pending IH]; intros registered; simpl; [done|].
  intros [Hne Hk]%not_elem_of_cons. rewrite IH by done. by apply JsMap.get_set_ne.
Qed.

Lemma merge_keeps pending registered k e :
  fresh_for registered pending → JsMap.get registered k = Some e →
  JsMap.get (foldl (λ m e, JsMap.set m e.1 e.2) registered pending) k = Some e.
Proof.
  intros Hf He. rewrite merge_get; [done|]. intros Hk. apply Hf in Hk. congruence.
Qed.

Lemma register_spec r copied r' res :
  register stringify parseDefinition compileSchema r copied = (r', res) →
  (∀ k e, JsMap.get (schemas r) k = Some e → JsMap.get (schemas r') k = Some e) ∧
  match res with
  | Err _ => r' = r
  | Ok gate => register stringify parseDefinition compileSchema r' copied = (r', Ok gate)
  end.
Proof.
  unfold register at 1. destruct (copied ≫= _) as [d|] eqn:Ed; [|intros [= <- <-]; done].
  cbv zeta. destruct (JsMap.get (gates r) _) as [gate|] eqn:Eg.
  { intros [= <- <-]. split; [done|]. unfold register. rewrite Ed. cbv zeta. by rewrite Eg. }
  destruct (prepare _ _ (schemas r) (requestSchema d) []) as [[request p1]|code] eqn:E1; simpl;
    [|by intros [= <- <-]].
  destruct (prepare _ _ (schemas r) (responseSchema d) p1) as [[response p2]|code] eqn:E2; simpl;
    [|by intros [= <- <-]].
  intros [= <- <-]. apply prepare_spec in E1 as [Hf1 _]; [|by intros k ?%elem_of_nil].
  apply prepare_spec in E2 as [Hf2 _]; [|done]. split.
  - intros k e Hk. by apply merge_keeps.
  - unfold register. rewrite Ed. cbv zeta. cbn [gates]. by rewrite JsMap.get_set_eq.
Qed.
End registry.

(** ** What the permission rules guarantee *)

(** C23. A grant cannot escalate: under a grant the check accepts, every call the
    gate lets through is one the request itself covers. *)
Theorem gate_within_request (domainToASCII : jstring → jstring) (h : heap)
    (requested granted attempt : jsval) :
  allowed (validatePermissionGrant domainToASCII h requested granted) = true →
  gd_allowed (gatePermission domainToASCII h granted attempt) = true →
  gd_allowed (gatePermission domainToASCII h requested attempt) = true.
Proof.
  rewrite validate_allowed, !gatePermission_allowed.
  intros (R & G & ER & EG & Hw) (G' & call & EG' & Ec & Hg).
  rewrite EG in EG'. injection EG' as <-. exists R, call. split_and!; [done|done|].
  eapply within_gate; [|done|done]. by apply canonicalize_rooted in ER as [? _].
Qed.

(** The grant check is a preorder on permission sets: a set is always a valid
    grant of itself, and a grant of a grant stays within the first request. *)
Theorem grant_preorder (domainToASCII : jstring → jstring) (h : heap) :
  ascii_idempotent domainToASCII →
  (∀ v ps, canonicalizePermissionSet domainToASCII h v = Ok ps →
     allowed (validatePermissionGrant domainToASCII h v v) = true) ∧
  (∀ a b c, allowed (validatePermissionGrant domainToASCII h a b) = true →
     allowed (validatePermissionGrant domainToASCII h b c) = true →
     allowed (validatePermissionGrant domainToASCII h a c) = true).
Proof.
  intros Hascii. split.
  - intros v ps E. apply validate_allowed. exists ps, ps. split_and!; [done|done|].
    pose proof (canonicalize_rooted _ _ _ _ E) as [_ Hnd].
    apply exceeding_none. intros p Hp. exists p. split_and!; [done|done|by apply find_kind|].
    unfold canonicalizePermissionSet in E. destruct (clone h v) as [j|[]]; try done.
    apply canonicalize_canonical in E as [HF _]; [|done]. rewrite Forall_forall in HF.
    by eapply categorySubset_refl, HF.
  - intros a b c. rewrite !validate_allowed.
    intros (A & B & EA & EB & HAB) (B' & C & EB' & EC & HBC). rewrite EB in EB'. injection EB' as <-.
    exists A, C. split_and!; [done|done|]. eapply exceeding_trans; [|done|done].
    by apply canonicalize_rooted in EA as [? _].
Qed.

(** Canonicalisation is a projection: its result is sorted, free of duplicates
    and made of values its own parsers accept, and printing it and reading it
    again gives the same set. *)
Theorem canonicalize_idempotent (domainToASCII : jstring → jstring) (j : json) (ps : list Permission) :
  ascii_idempotent domainToASCII → canonicalize domainToASCII j = Ok ps →
  canonical_set domainToASCII ps ∧
  canonicalize domainToASCII (JArr (map permission_json ps)) = Ok ps.
Proof.
  intros Hascii H. pose proof (canonicalize_canonical _ Hascii _ _ H) as Hc.
  split; [done|by apply reread_set].
Qed.

(** The schema registry never rebinds: a registered schema key keeps its text
    and its validator, a failed registration changes nothing, and registering
    the same definition again returns the same gate. *)
Theorem registry_stable (stringify : json → jstring)
    (parseDefinition : json → option CapabilityDefinition)
    (compileSchema : json → option SchemaValidator) (r : CapabilitySchemaRegistry)
    (copied : option json) :
  let '(r', res) := register stringify parseDefinition compileSchema r copied in
  (∀ k e, JsMap.get (schemas r) k = Some e → JsMap.get (schemas r') k = Some e) ∧
  match res with
  | Err _ => r' = r
  | Ok gate => register stringify parseDefinition compileSchema r' copied = (r', Ok gate)
  end.
Proof. destruct (register _ _ _ _ _) as [r' res] eqn:E. by apply register_spec. Qed.

(** ** An environment request, a smaller grant and a call *)
Definition data (v : jsval) : prop := {| p_enumerable := true; p_value := Some v |}.
Definition plain_object (fields : list (jstring * jsval)) : object :=
  {| o_kind := OPlain; o_proto := ProtoObject; o_props := map (λ f, (KStr f.1, data f.2)) fields |}.
Definition plain_array (items : list jsval) : object :=
  {| o_kind := OArray (length items); o_proto := ProtoArray;
     o_props := imap (λ i v, (KStr (index_key i), data v)) items |}.
Definition sample_heap : heap :=
  list_to_map
    [(1%positive, plain_array [VRef 2]);
     (2%positive, plain_object [(js "kind", VStr (js "environment")); (js "names", VRef 3)]);
     (3%positive, plain_array [VStr (js "PATH"); VStr (js "HOME"); VStr (js "PATH")]);
     (4%positive, plain_array [VRef 5]);
     (5%positive, plain_object [(js "kind", VStr (js "environment")); (js "names", VRef 6)]);
     (6%positive, plain_array [VStr (js "HOME")]);
     (7%positive, plain_object [(js "kind", VStr (js "environment")); (js "name", VStr (js "HOME"))])].


(** The witnesses convert the one host of the sample to itself. *)
Definition sample_ascii (s : jstring) : jstring := js "example.com".

Lemma gate_within_request_witness :
  gd_allowed (gatePermission (λ s, s) sample_heap (VRef 4) (VRef 7)) = true ∧
  gd_allowed (gatePermission (λ s, s) sample_heap (VRef 1) (VRef 7)) = true.
Proof.
  assert (gd_allowed (gatePermission (λ s, s) sample_heap (VRef 4) (VRef 7)) = true) as H
    by (vm_compute; reflexivity).
  split; [exact H|].
  apply (gate_within_request (λ s, s) sample_heap (VRef 1) (VRef 4) (VRef 7));
    [vm_compute; reflexivity|exact H].
Defined.

Lemma grant_preorder_witness :
  allowed (validatePermissionGrant sample_ascii sample_heap (VRef 1) (VRef 1)) = true ∧
  (allowed (validatePermissionGrant sample_ascii sample_heap (VRef 4) (VRef 1)) = true →
   allowed (validatePermissionGrant sample_ascii sample_heap (VRef 1) (VRef 4)) = true →
   allowed (validatePermissionGrant sample_ascii sample_heap (VRef 4) (VRef 4)) = true).
Proof.
  destruct (grant_preorder sample_ascii sample_heap) as [Hrefl Htrans];
    [intros s a Ha; vm_compute; reflexivity|].
  split; [|apply (Htrans (VRef 4) (VRef 1) (VRef 4))].
  apply (Hrefl (VRef 1) [EnvironmentPermission [js "HOME"; js "PATH"]]). vm_compute. reflexivity.
Defined.

Lemma canonicalize_idempotent_witness :
  canonicalize sample_ascii (JArr (map permission_json [EnvironmentPermission [js "HOME"; js "PATH"]]))
  = Ok [EnvironmentPermission [js "HOME"; js "PATH"]].
Proof.
  refine (proj2 (canonicalize_idempotent sample_ascii
    (JArr [JObj [(js "kind", JStr (js "environment"));
                 (js "names", JArr [JStr (js "PATH"); JStr (js "HOME"); JStr (js "PATH")])]])
    [EnvironmentPermission [js "HOME"; js "PATH"]] _ _)).
  - intros s a Ha. vm_compute. reflexivity.
  - vm_compute. reflexivity.
Defined.
