(* ===== verification/Time.v ===== *)
(** * Timestamps

    The part of [Date] the kernel relies on: time values (milliseconds since
    the epoch, within 8.64e15 of it), [toISOString], and [Date.parse] on the
    strings [toISOString] returns. Every other string fails [validTimestamp]:
    a string is accepted only when its own date prints it back. *)

From S2P Require Import Prelude JsString.

Open Scope Z_scope.

(** ** Fixed-width numerals *)
Fixpoint pad (width : nat) (n : Z) : jstring :=
  match width with
  | O => []
  | S w => pad w (n / 10) ++ [Z.to_N (48 + n mod 10)]
  end.

Lemma length_pad w n : length (pad w n) = w.
Proof. revert n. induction w; intros n; simpl; [done|]. rewrite length_app, IHw. simpl. lia. Qed.

Lemma pad_digits w n : forallb is_digit (pad w n) = true.
Proof.
  revert n. induction w; intros n; simpl; [done|]. rewrite forallb_app, IHw. simpl.
  rewrite andb_true_r. apply is_digit_spec. pose proof (Z.mod_pos_bound n 10). lia.
Qed.

Lemma pad_value w n : 0 ≤ n < 10 ^ Z.of_nat w → decimal_value (pad w n) = n.
Proof.
  unfold decimal_value. revert n. induction w as [|w IH]; intros n Hn.
  - change (10 ^ Z.of_nat 0) with 1 in Hn. simpl. lia.
  - cbn [pad]. rewrite Nat2Z.inj_succ, Z.pow_succ_r in Hn by lia.
    rewrite digits_value_app, IH by (split; [apply Z.div_pos|apply Z.div_lt_upper_bound]; lia).
    pose proof (Z.mod_pos_bound n 10). cbn [digits_value]. rewrite Z2N.id by lia.
    pose proof (Z.div_mod n 10). lia.
Qed.

(** ** The calendar *)
Definition day_from_year (y : Z) : Z :=
  365 * (y - 1970) + (y - 1969) / 4 - (y - 1901) / 100 + (y - 1601) / 400.
Definition leap (y : Z) : Z :=
  if (y mod 4 =? 0) && negb (y mod 100 =? 0) || (y mod 400 =? 0) then 1 else 0.

(** The mean year gives the year of a day up to one. *)
Definition year_of_day (d : Z) : Z :=
  let y := 1970 + d * 400 / 146097 in
  if d <? day_from_year y then y - 1 else if day_from_year (y + 1) <=? d then y + 1 else y.

(** The first day of a month (from 0) in the year. *)
Definition month_start (l m : Z) : Z :=
  nth (Z.to_nat m) [0; 31; 59 + l; 90 + l; 120 + l; 151 + l; 181 + l; 212 + l; 243 + l; 273 + l;
                    304 + l; 334 + l; 365 + l] 0.
Definition month_of (l doy : Z) : Z :=
  if doy <? 31 then 0 else if doy <? 59 + l then 1 else if doy <? 90 + l then 2
  else if doy <? 120 + l then 3 else if doy <? 151 + l then 4 else if doy <? 181 + l then 5
  else if doy <? 212 + l then 6 else if doy <? 243 + l then 7 else if doy <? 273 + l then 8
  else if doy <? 304 + l then 9 else if doy <? 334 + l then 10 else 11.

Lemma div_succ a k : 0 < k → (a + 1) / k = a / k + (if (a + 1) mod k =? 0 then 1 else 0).
Proof.
  intros Hk. destruct (Z.eqb_spec ((a + 1) mod k) 0) as [E|E].
  - apply Z.mod_divide in E as [q E]; [|lia]. rewrite E, Z.div_mul by lia.
    symmetry. replace a with (k * (q - 1) + (k - 1)) by lia.
    rewrite Z.mul_comm, Z.div_add_l, (Z.div_small (k - 1)) by lia. lia.
  - rewrite Z.add_0_r. pose proof (Z.mod_pos_bound (a + 1) k Hk). pose proof (Z.div_mod (a + 1) k).
    apply (Z.div_unique _ _ _ ((a + 1) mod k - 1)); lia.
Qed.

Lemma leap_days y : day_from_year (y + 1) - day_from_year y = 365 + leap y.
Proof.
  unfold day_from_year, leap.
  replace (y + 1 - 1969) with (y - 1969 + 1) by lia.
  replace (y + 1 - 1901) with (y - 1901 + 1) by lia.
  replace (y + 1 - 1601) with (y - 1601 + 1) by lia.
  rewrite !div_succ by lia.
  replace (y - 1969 + 1) with (y + (-492) * 4) by lia. replace (y - 1901 + 1) with (y + (-19) * 100) by lia.
  replace (y - 1601 + 1) with (y + (-4) * 400) by lia. rewrite !Z_mod_plus_full.
  destruct (Z.eqb_spec (y mod 4) 0), (Z.eqb_spec (y mod 100) 0), (Z.eqb_spec (y mod 400) 0);
    cbn [andb orb negb]; try lia; exfalso; Z.to_euclidean_division_equations; lia.
Qed.

Lemma day_from_year_mean y :
  146097 * (y - 1970) - 506 ≤ 400 * day_from_year y ≤ 146097 * (y - 1970) + 589.
Proof.
  unfold day_from_year.
  pose proof (Z.div_mod (y - 1969) 4). pose proof (Z.mod_pos_bound (y - 1969) 4).
  pose proof (Z.div_mod (y - 1901) 100). pose proof (Z.mod_pos_bound (y - 1901) 100).
  pose proof (Z.div_mod (y - 1601) 400). pose proof (Z.mod_pos_bound (y - 1601) 400). lia.
Qed.

Lemma year_of_day_spec d :
  day_from_year (year_of_day d) ≤ d < day_from_year (year_of_day d + 1).
Proof.
  unfold year_of_day. pose proof (Z.div_mod (d * 400) 146097). pose proof (Z.mod_pos_bound (d * 400) 146097).
  set (y := 1970 + d * 400 / 146097) in *.
  destruct (Z.ltb_spec d (day_from_year y)); [|destruct (Z.leb_spec (day_from_year (y + 1)) d)].
  - pose proof (day_from_year_mean (y - 1)). replace (y - 1 + 1) with y by lia. lia.
  - pose proof (day_from_year_mean (y + 1 + 1)). lia.
  - lia.
Qed.

Lemma month_of_spec l doy :
  0 ≤ l ≤ 1 → 0 ≤ doy < 365 + l →
  0 ≤ month_of l doy < 12 ∧ 1 ≤ doy - month_start l (month_of l doy) + 1 ≤ 31.
Proof.
  intros Hl Hd. unfold month_of.
  repeat match goal with |- context [?a <? ?b] => destruct (Z.ltb_spec a b) end;
    cbv [month_start nth Z.to_nat Pos.to_nat Pos.iter_op Nat.add]; lia.
Qed.

(** ** Time values *)
Definition MAX_TIME : Z := 8640000000000000.
Definition MS_PER_DAY : Z := 86400000.

Definition year_text (y : Z) : jstring :=
  if (0 <=? y) && (y <=? 9999) then pad 4 y
  else (if y <? 0 then js "-" else js "+") ++ pad 6 (Z.abs y).

(** [new Date(t).toISOString()] of a time value. *)
Definition toISOString (t : Z) : jstring :=
  let d := t / MS_PER_DAY in
  let ms := t mod MS_PER_DAY in
  let y := year_of_day d in
  let doy := d - day_from_year y in
  let m := month_of (leap y) doy in
  year_text y ++ js "-" ++ pad 2 (m + 1) ++ js "-" ++ pad 2 (doy - month_start (leap y) m + 1) ++
  js "T" ++ pad 2 (ms / 3600000) ++ js ":" ++ pad 2 (ms / 60000 mod 60) ++ js ":" ++
  pad 2 (ms / 1000 mod 60) ++ js "." ++ pad 3 (ms mod 1000) ++ js "Z".

(** The time value of the fields of a date. *)
Definition make_time (y m dom h mi s ms : Z) : Z :=
  (day_from_year y + month_start (leap y) (m - 1) + dom - 1) * MS_PER_DAY +
  h * 3600000 + mi * 60000 + s * 1000 + ms.

(** The fields at their places, after the year. *)
Definition parse_fields (y : Z) (rest : jstring) : Z :=
  let at_ i n := decimal_value (take n (drop i rest)) in
  make_time y (at_ 1%nat 2%nat) (at_ 4%nat 2%nat) (at_ 7%nat 2%nat) (at_ 10%nat 2%nat)
    (at_ 13%nat 2%nat) (at_ 16%nat 3%nat).
Definition parse_time (s : jstring) : Z :=
  match s with
  | 43%N :: r => parse_fields (decimal_value (take 6 r)) (drop 6 r)
  | 45%N :: r => parse_fields (- decimal_value (take 6 r)) (drop 6 r)
  | _ => parse_fields (decimal_value (take 4 s)) (drop 4 s)
  end.

(** [validTimestamp]: the string prints the date it denotes. *)
Definition validTimestamp (value : jstring) : bool :=
  let t := parse_time value in
  (Z.abs t <=? MAX_TIME) && streq (toISOString t) value.

(** [Date.parse] of a canonical timestamp. *)
Definition Date_parse (value : jstring) : option Z :=
  if validTimestamp value then Some (parse_time value) else None.

(** ** Round trip *)
Lemma make_time_fields t :
  let d := t / MS_PER_DAY in let ms := t mod MS_PER_DAY in let y := year_of_day d in
  let doy := d - day_from_year y in let m := month_of (leap y) doy in
  make_time y (m + 1) (doy - month_start (leap y) m + 1) (ms / 3600000) (ms / 60000 mod 60)
    (ms / 1000 mod 60) (ms mod 1000) = t.
Proof.
  cbv zeta. unfold make_time, MS_PER_DAY.
  replace (month_of (leap (year_of_day (t / 86400000)))
    (t / 86400000 - day_from_year (year_of_day (t / 86400000))) + 1 - 1)
    with (month_of (leap (year_of_day (t / 86400000)))
    (t / 86400000 - day_from_year (year_of_day (t / 86400000)))) by lia.
  generalize (month_start (leap (year_of_day (t / 86400000)))
    (month_of (leap (year_of_day (t / 86400000)))
       (t / 86400000 - day_from_year (year_of_day (t / 86400000))))).
  generalize (day_from_year (year_of_day (t / 86400000))). intros a b.
  Z.to_euclidean_division_equations. lia.
Qed.

Lemma year_bound t : Z.abs t ≤ MAX_TIME → -271822 ≤ year_of_day (t / MS_PER_DAY) ≤ 275761.
Proof.
  intros Ht. pose proof (year_of_day_spec (t / MS_PER_DAY)).
  pose proof (day_from_year_mean (year_of_day (t / MS_PER_DAY))).
  pose proof (day_from_year_mean (year_of_day (t / MS_PER_DAY) + 1)).
  unfold MAX_TIME, MS_PER_DAY in *. Z.to_euclidean_division_equations. lia.
Qed.

Lemma parse_fields_places y A B C D E F :
  length A = 2%nat → length B = 2%nat → length C = 2%nat → length D = 2%nat →
  length E = 2%nat → length F = 3%nat →
  parse_fields y (js "-" ++ A ++ js "-" ++ B ++ js "T" ++ C ++ js ":" ++ D ++ js ":" ++ E ++
    js "." ++ F ++ js "Z") =
  make_time y (decimal_value A) (decimal_value B) (decimal_value C) (decimal_value D)
    (decimal_value E) (decimal_value F).
Proof.
  intros. destruct A as [|? [|? [|]]]; try done. destruct B as [|? [|? [|]]]; try done.
  destruct C as [|? [|? [|]]]; try done. destruct D as [|? [|? [|]]]; try done.
  destruct E as [|? [|? [|]]]; try done. by destruct F as [|? [|? [|? [|]]]].
Qed.

Lemma parse_fields_text y a b c d e f :
  0 ≤ a < 100 → 0 ≤ b < 100 → 0 ≤ c < 100 → 0 ≤ d < 100 → 0 ≤ e < 100 → 0 ≤ f < 1000 →
  parse_fields y (js "-" ++ pad 2 a ++ js "-" ++ pad 2 b ++ js "T" ++ pad 2 c ++ js ":" ++
    pad 2 d ++ js ":" ++ pad 2 e ++ js "." ++ pad 3 f ++ js "Z") = make_time y a b c d e f.
Proof.
  intros. rewrite parse_fields_places by apply length_pad. by rewrite !pad_value by done.
Qed.

Lemma parse_year y rest :
  Z.abs y < 1000000 → parse_time (year_text y ++ rest) = parse_fields y rest.
Proof.
  intros Hy. unfold year_text. destruct ((0 <=? y) && (y <=? 9999)) eqn:E; to_prop.
  - pose proof (pad_value 4 y ltac:(lia)) as Hv. pose proof (length_pad 4 y) as Hl.
    pose proof (pad_digits 4 y) as Hd.
    destruct (pad 4 y) as [|c1 [|c2 [|c3 [|c4 [|]]]]]; try discriminate Hl.
    apply andb_true_iff in Hd as [Hd _]. apply is_digit_spec in Hd.
    unfold parse_time. cbn [app]. rewrite <- Hv.
    destruct c1 as [|p]; [done|]. do 6 (try destruct p as [p|p|]); try done; lia.
  - pose proof (pad_value 6 (Z.abs y) ltac:(lia)) as Hv. pose proof (length_pad 6 (Z.abs y)) as Hl.
    destruct (Z.ltb_spec y 0); unfold js; cbn [map String.list_ascii_of_string app];
      unfold parse_time; cbn [Ascii.N_of_ascii Ascii.N_of_digits N.add N.mul Pos.add Pos.mul];
      rewrite take_app_length', drop_app_length', Hv by done; f_equal; lia.
Qed.

Lemma parse_toISOString t : Z.abs t ≤ MAX_TIME → parse_time (toISOString t) = t.
Proof.
  intros Ht. unfold toISOString. cbv zeta. pose proof (year_bound _ Ht).
  rewrite parse_year by lia.
  pose proof (year_of_day_spec (t / MS_PER_DAY)) as Hy. pose proof (leap_days (year_of_day (t / MS_PER_DAY))).
  assert (0 ≤ leap (year_of_day (t / MS_PER_DAY)) ≤ 1) as Hl by (unfold leap; case_match; lia).
  pose proof (month_of_spec _ (t / MS_PER_DAY - day_from_year (year_of_day (t / MS_PER_DAY))) Hl ltac:(lia)).
  rewrite parse_fields_text; [apply make_time_fields|..]; unfold MS_PER_DAY in *;
    Z.to_euclidean_division_equations; lia.
Qed.

Lemma valid_toISOString t : Z.abs t ≤ MAX_TIME → validTimestamp (toISOString t) = true.
Proof.
  intros Ht. unfold validTimestamp. rewrite parse_toISOString by done.
  apply andb_true_iff. split; [by apply Z.leb_le|by apply streq_true].
Qed.

Lemma Date_parse_toISOString t : Z.abs t ≤ MAX_TIME → Date_parse (toISOString t) = Some t.
Proof. intros. unfold Date_parse. by rewrite valid_toISOString, parse_toISOString. Qed.
