(* ===== verification/JsonText.v ===== *)
(** * JSON text

    [JSON.stringify] of JSON data, the UTF-8 length of a string, and
    [serializeWireValue] (contracts/src/json.ts) on values that are JSON data
    already: the copy that puts the fields of every object in code-unit order. *)

From S2P Require Import Prelude JsString Collections JsValue.

Open Scope N_scope.

(** ** Strings *)
Definition is_high (c : N) : bool := (55296 <=? c) && (c <=? 56319).
Definition is_low (c : N) : bool := (56320 <=? c) && (c <=? 57343).

Definition hex_digit (n : N) : N := if n <? 10 then 48 + n else 87 + n.
Definition hex4 (c : N) : jstring :=
  [hex_digit (c / 4096); hex_digit (c / 256 mod 16); hex_digit (c / 16 mod 16); hex_digit (c mod 16)].
Definition escape (c : N) : jstring := 92 :: 117 :: hex4 c.

Definition quote_unit (c : N) : jstring :=
  if c =? 8 then [92; 98] else if c =? 9 then [92; 116] else if c =? 10 then [92; 110]
  else if c =? 12 then [92; 102] else if c =? 13 then [92; 114]
  else if (c =? 34) || (c =? 92) then [92; c]
  else if (c <? 32) || is_high c || is_low c then escape c else [c].

(** A surrogate pair is printed raw, a lone surrogate escaped. *)
Fixpoint quote_body (s : jstring) : jstring :=
  match s with
  | [] => []
  | c :: s' =>
      match s' with
      | d :: s'' => if is_high c && is_low d then c :: d :: quote_body s'' else quote_unit c ++ quote_body s'
      | [] => quote_unit c
      end
  end.
Definition quote (s : jstring) : jstring := 34 :: quote_body s ++ [34].

(** The reader of a quoted body, up to the closing quote. *)
Definition hex_value (c : N) : N := if c <? 58 then c - 48 else c - 87.
Fixpoint unquote (s : jstring) : option (jstring * jstring) :=
  match s with
  | [] => None
  | c :: r =>
      if c =? 34 then Some ([], r)
      else if c =? 92 then
        match r with
        | e :: r' =>
            if e =? 117 then
              match r' with
              | h1 :: h2 :: h3 :: h4 :: r'' =>
                  '(u, t) ← unquote r'';
                  Some ((((hex_value h1 * 16 + hex_value h2) * 16 + hex_value h3) * 16 + hex_value h4) :: u, t)
              | _ => None
              end
            else
              '(u, t) ← unquote r';
              Some ((if e =? 98 then 8 else if e =? 116 then 9 else if e =? 110 then 10
                     else if e =? 102 then 12 else if e =? 114 then 13 else e) :: u, t)
        | [] => None
        end
      else '(u, t) ← unquote r; Some (c :: u, t)
  end.

Lemma hex_value_digit n : n < 16 → hex_value (hex_digit n) = n.
Proof. intros. unfold hex_value, hex_digit. destruct (N.ltb_spec n 10); case_match; to_prop; lia. Qed.

Lemma hex4_value c : c < 65536 →
  ((hex_value (hex_digit (c / 4096)) * 16 + hex_value (hex_digit (c / 256 mod 16))) * 16 +
   hex_value (hex_digit (c / 16 mod 16))) * 16 + hex_value (hex_digit (c mod 16)) = c.
Proof.
  intros Hc. pose proof (N.mod_lt (c / 256) 16). pose proof (N.mod_lt (c / 16) 16).
  pose proof (N.mod_lt c 16). assert (c / 4096 < 16) by (apply N.Div0.div_lt_upper_bound; lia).
  rewrite !hex_value_digit by lia.
  pose proof (N.div_mod (c / 256) 16). pose proof (N.div_mod (c / 16) 16). pose proof (N.div_mod c 16).
  replace (c / 4096) with (c / 256 / 16) by (rewrite N.Div0.div_div; done).
  replace (c / 256) with (c / 16 / 16) in * by (rewrite N.Div0.div_div; done). lia.
Qed.

Lemma unquote_unit c rest :
  unquote (quote_unit c ++ rest) = '(u, t) ← unquote rest; Some (c :: u, t).
Proof.
  unfold quote_unit.
  repeat match goal with |- context [if ?a =? ?b then _ else _] =>
    destruct (N.eqb_spec a b) as [->|]; [done|] end.
  destruct ((c =? 34) || (c =? 92)) eqn:E1.
  { apply orb_true_iff in E1 as [->%N.eqb_eq| ->%N.eqb_eq]; done. }
  to_prop. destruct ((c <? 32) || is_high c || is_low c) eqn:E2.
  - unfold escape. cbn [app unquote hex4]. change (92 =? 34) with false. change (92 =? 92) with true.
    change (117 =? 117) with true. cbn [app]. rewrite hex4_value; [done|].
    unfold is_high, is_low in E2. to_prop. destruct E2 as [[E2|E2]%orb_true_iff|E2]; to_prop;
      rewrite ?N.leb_le in *; lia.
  - cbn [app unquote]. destruct (N.eqb_spec c 34), (N.eqb_spec c 92); done.
Qed.

Lemma unquote_raw c rest :
  is_high c || is_low c = true → unquote (c :: rest) = '(u, t) ← unquote rest; Some (c :: u, t).
Proof.
  unfold is_high, is_low. intros Hc. cbn [unquote].
  destruct (N.eqb_spec c 34) as [->|]; [done|]. by destruct (N.eqb_spec c 92) as [->|].
Qed.

Lemma unquote_body s rest : unquote (quote_body s ++ 34 :: rest) = Some (s, rest).
Proof.
  induction (Nat.lt_wf_0_projected length s) as [s _ IH].
  destruct s as [|c [|d s]]; [done| |].
  - cbn [quote_body]. by rewrite unquote_unit.
  - cbn [quote_body]. destruct (is_high c && is_low d) eqn:E.
    + apply andb_true_iff in E as [Ec Ed]. cbn [app].
      rewrite unquote_raw by (by rewrite Ec). rewrite unquote_raw by (rewrite Ed; apply orb_true_r).
      rewrite IH by (simpl; lia). done.
    + rewrite <- app_assoc, unquote_unit.
      change (match s with [] => quote_unit d | d0 :: s'' => if is_high d && is_low d0
        then d :: d0 :: quote_body s'' else quote_unit d ++ quote_body s end)
        with (quote_body (d :: s)).
      rewrite IH by (simpl; lia). done.
Qed.

(** Quoted strings are read back, whatever follows. *)
Lemma quote_inj a b x y : quote a ++ x = quote b ++ y → a = b ∧ x = y.
Proof.
  unfold quote. cbn [app]. intros [= H]. rewrite <- !app_assoc in H. cbn [app] in H.
  pose proof (unquote_body a x) as Ha. rewrite H, unquote_body in Ha. by injection Ha as <- <-.
Qed.

(** ** [Buffer.byteLength(s, "utf8")]: a lone surrogate takes three bytes. *)
Fixpoint utf8_length (s : jstring) : Z :=
  match s with
  | [] => 0
  | c :: s' =>
      match s' with
      | d :: s'' =>
          if is_high c && is_low d then 4 + utf8_length s''
          else (if (c <? 128)%N then 1 else if (c <? 2048)%N then 2 else 3) + utf8_length s'
      | [] => if (c <? 128)%N then 1 else if (c <? 2048)%N then 2 else 3
      end
  end%Z.

(** ** [JSON.stringify] *)

(** Own keys of an object: array indices in numeric order, then the others in
    order of creation. *)
Definition is_index (key : jstring) : bool :=
  isCanonicalDecimal key && (decimal_value key <? 4294967295)%Z.
Definition own_order {A} (fields : list (jstring * A)) : list (jstring * A) :=
  js_sort (λ a b, decimal_value a.1 - decimal_value b.1)%Z (List.filter (λ f, is_index f.1) fields) ++
  List.filter (λ f, negb (is_index f.1)) fields.

Section stringify.
(** The text of a number that is not an integer below 10^21. *)
Context (number_text : jsnum → jstring).

Definition show_number (n : jsnum) : jstring :=
  match n with
  | NInt z =>
      if (Z.abs z <? 10 ^ 21)%Z then (if (z <? 0)%Z then js "-" else []) ++ show_nat (Z.abs z)
      else number_text n
  | NFrac _ _ => number_text n
  | NInf _ | NNaN => js "null"
  end.

Fixpoint stringify (j : json) : jstring :=
  match j with
  | JNull => js "null"
  | JBool true => js "true"
  | JBool false => js "false"
  | JNum n => show_number n
  | JStr s => quote s
  | JArr items => js "[" ++ joinc 44 (map stringify items) ++ js "]"
  | JObj fields =>
      js "{" ++
      joinc 44 (map (λ f, quote f.1 ++ js ":" ++ f.2) (own_order (map (λ f, (f.1, stringify f.2)) fields))) ++
      js "}"
  end.

(** The text of an array of strings determines the strings. *)
Lemma stringify_strings_inj a b :
  stringify (JArr (map JStr a)) = stringify (JArr (map JStr b)) → a = b.
Proof.
  cbn [stringify]. rewrite !map_map. cbn [stringify]. intros [= H].
  assert (∀ x, ∃ t, quote x = 34 :: t) as Hq by (intros; by eexists).
  revert b H. induction a as [|x a IH]; intros [|y b] H.
  - done.
  - exfalso. cbn [map] in H. rewrite joinc_cons in H. destruct (Hq y) as [t E]. by rewrite E in H.
  - exfalso. cbn [map] in H. rewrite joinc_cons in H. destruct (Hq x) as [t E]. by rewrite E in H.
  - cbn [map] in H. rewrite !joinc_cons, <- !app_assoc in H. apply quote_inj in H as [-> H].
    f_equal. apply IH. destruct a, b; cbn [map] in *; try done. cbn [app] in H. by injection H.
Qed.
End stringify.

(** ** [serializeWireValue] on JSON data *)
Fixpoint serialize (j : json) : option json :=
  match j with
  | JNum n => if isFinite n then Some j else None
  | JArr items => items' ← mapM serialize items; Some (JArr items')
  | JObj fields =>
      fields' ← mapM (λ f, v ← serialize f.2; Some (f.1, v)) fields;
      Some (JObj (js_sort (λ a b, compareText a.1 b.1) fields'))
  | JNull | JBool _ | JStr _ => Some j
  end.

(** A copied value is its own copy. *)
Definition wire (j : json) : Prop := serialize j = Some j.

#[export] Instance compare_field {A} : Comparator (λ a b : jstring * A, compareText a.1 b.1).
Proof. exact (comparator_on fst compareText). Qed.

Lemma mapM_some {A B} (f : A → option B) l k :
  mapM f l = Some k ↔ Forall2 (λ x y, f x = Some y) l k.
Proof. apply mapM_Some. Qed.

Lemma serialize_wire j k : serialize j = Some k → wire k.
Proof.
  revert k. induction (Nat.lt_wf_0_projected json_size j) as [j _ IH].
  intros k H. destruct j as [|b|n|s|items|fields]; cbn [serialize] in H.
  1,2,4: by injection H as <-.
  - destruct (isFinite n) eqn:E; [|done]. injection H as <-. unfold wire. cbn. by rewrite E.
  - apply bind_Some in H as (items' & Hm & [= <-]). apply mapM_some in Hm.
    unfold wire. cbn [serialize]. apply bind_Some. exists items'. split; [|done]. apply mapM_some.
    assert (∀ x, x ∈ items → ∀ y, serialize x = Some y → wire y) as HIH.
    { intros x Hx y. apply IH. simpl. pose proof (sum_list_map_le json_size _ _ Hx). lia. }
    clear IH. induction Hm as [|x y l l' Hxy Hm IHm]; constructor.
    + eapply HIH; [left|done].
    + apply IHm. intros z Hz. apply HIH. by right.
  - apply bind_Some in H as (fields' & Hm & [= <-]). apply mapM_some in Hm.
    assert (∀ f, f ∈ fields' → wire f.2) as HF.
    { intros f Hf. apply list_elem_of_lookup in Hf as [i Hi].
      eapply Forall2_lookup_r in Hm as (f' & Hf' & E); [|done].
      apply bind_Some in E as (v & Hv & [= <-]). apply (IH f'.2) in Hv; [done|]. simpl.
      apply list_elem_of_lookup_2 in Hf'. pose proof (sum_list_map_le (λ f, json_size f.2) _ _ Hf'). simpl in *. lia. }
    unfold wire. cbn [serialize]. apply bind_Some. eexists. split.
    + apply mapM_some, Forall_Forall2_diag, Forall_forall. intros [a v] Hf%elem_of_js_sort.
      apply HF in Hf. unfold wire in Hf. cbn in *. by rewrite Hf.
    + do 2 f_equal. apply (js_sort_id _), (js_sort_sorted _).
Qed.

(** ** JSON data *)
Definition data (j : json) : Prop := is_Some (serialize j).

Lemma mapM_data {A B} (f : A → option B) l : is_Some (mapM f l) ↔ Forall (λ x, is_Some (f x)) l.
Proof. apply mapM_is_Some. Qed.

Lemma data_arr l : data (JArr l) ↔ Forall data l.
Proof.
  unfold data. cbn [serialize]. rewrite <- mapM_data. destruct (mapM serialize l); split; intros [? H]; by eauto.
Qed.

Lemma data_obj fields : data (JObj fields) ↔ Forall (λ f, data f.2) fields.
Proof.
  unfold data. cbn [serialize].
  assert (∀ f : jstring * json, is_Some (serialize f.2) ↔ is_Some (v ← serialize f.2; Some (f.1, v))) as E.
  { intros f. destruct (serialize f.2); split; intros [? H]; by eauto. }
  setoid_rewrite E. rewrite <- mapM_data.
  destruct (mapM _ fields); split; intros [? H]; by eauto.
Qed.
