(* ===== verification/Canonical.v ===== *)
(** * Canonical JSON text

    [canonical], which contracts/src/execution.ts, contracts/src/schema.ts,
    runtime/src/tasks/task-service.ts and runtime/src/runtime-operations.ts each
    define: JSON text with the fields of every object in code-unit order. Two
    values have one canonical text exactly when they are equal up to the order
    of their fields, so comparing texts compares data. *)

From S2P Require Import Prelude JsString Collections JsValue JsonText.

Open Scope N_scope.

(** The characters of the text of a number, and its first one. *)
Definition number_char (c : N) : bool := is_digit c || (c =? 45) || (c =? 46) || (c =? 43) || (c =? 101).
Definition number_start (c : N) : bool := is_digit c || (c =? 45).

(** What ECMAScript promises of [Number::toString]: doubles have texts of their
    own, made of those characters. *)
Record number_text_ok (number_text : jsnum → jstring) : Prop := {
  number_text_inj : ∀ n m, isFinite n = true → isFinite m = true →
    show_number number_text n = show_number number_text m → n = m;
  number_text_chars : ∀ n, isFinite n = true → Forall (λ c, number_char c = true) (show_number number_text n);
  number_text_start : ∀ n, isFinite n = true →
    ∃ c t, show_number number_text n = c :: t ∧ number_start c = true;
}.

(** Two texts with one hash: what the identities and fingerprints that hash
    their content exclude. *)
Definition collision (hash : jstring → jstring) : Prop :=
  ∃ t t', t ≠ t' ∧ hash t = hash t'.

Section canonical.
Context (number_text : jsnum → jstring).

Fixpoint canonical (j : json) : jstring :=
  match j with
  | JNull => js "null"
  | JBool true => js "true"
  | JBool false => js "false"
  | JNum n => show_number number_text n
  | JStr s => quote s
  | JArr items => js "[" ++ joinc 44 (map canonical items) ++ js "]"
  | JObj fields =>
      js "{" ++
      joinc 44 (map (λ f, quote f.1 ++ js ":" ++ f.2)
        (js_sort (λ a b, compareText a.1 b.1) (map (λ f, (f.1, canonical f.2)) fields))) ++
      js "}"
  end.

(** ** The text of data is that of its copy *)
Lemma insert_sorted_map {A B} (f : A → B) (c : A → A → Z) (d : B → B → Z) x l :
  (∀ a b, d (f a) (f b) = c a b) →
  insert_sorted d (f x) (map f l) = map f (insert_sorted c x l).
Proof.
  intros Hcd. induction l as [|y l IH]; [done|]. cbn [map insert_sorted]. rewrite Hcd.
  case_match; cbn [map]; [done|by rewrite IH].
Qed.

Lemma js_sort_map {A B} (f : A → B) (c : A → A → Z) (d : B → B → Z) l :
  (∀ a b, d (f a) (f b) = c a b) → js_sort d (map f l) = map f (js_sort c l).
Proof.
  intros Hcd. induction l as [|x l IH]; [done|]. cbn [map js_sort]. rewrite IH. by apply insert_sorted_map.
Qed.

Lemma canonical_obj fields :
  canonical (JObj fields) =
  js "{" ++ joinc 44 (map (λ f, quote f.1 ++ js ":" ++ canonical f.2)
    (js_sort (λ a b, compareText a.1 b.1) fields)) ++ js "}".
Proof.
  cbn [canonical].
  rewrite (js_sort_map (λ f : jstring * json, (f.1, canonical f.2)) (λ a b, compareText a.1 b.1)) by done.
  by rewrite map_map.
Qed.

Lemma canonical_serialize j k : serialize j = Some k → canonical j = canonical k.
Proof.
  revert k. induction (Nat.lt_wf_0_projected json_size j) as [j _ IH].
  intros k H. destruct j as [|b|n|s|items|fields]; cbn [serialize] in H.
  1,2,4: by injection H as <-.
  - destruct (isFinite n); by simplify_eq.
  - apply bind_Some in H as (items' & Hm & [= <-]). apply mapM_some in Hm.
    cbn [canonical]. do 2 f_equal. f_equal.
    assert (∀ x, x ∈ items → ∀ y, serialize x = Some y → canonical x = canonical y) as HIH.
    { intros x Hx y. apply IH. simpl. pose proof (sum_list_map_le json_size _ _ Hx). lia. }
    clear IH. induction Hm as [|x y l l' Hxy Hm IHm]; [done|]. cbn [map]. f_equal.
    + apply (HIH x); [left|done].
    + apply IHm. intros z Hz. apply HIH. by right.
  - apply bind_Some in H as (fields' & Hm & [= <-]). apply mapM_some in Hm.
    cbn [canonical]. do 2 f_equal. f_equal. f_equal.
    rewrite (js_sort_map (λ f : jstring * json, (f.1, canonical f.2)) (λ a b, compareText a.1 b.1)
      (λ a b, compareText a.1 b.1) (js_sort _ fields')) by done.
    rewrite (js_sort_id (λ a b : jstring * json, compareText a.1 b.1) (js_sort _ fields'))
      by apply (js_sort_sorted _).
    rewrite <- (js_sort_map (λ f : jstring * json, (f.1, canonical f.2)) (λ a b, compareText a.1 b.1)
      (λ a b, compareText a.1 b.1) fields') by done.
    f_equal.
    assert (∀ f, f ∈ fields → ∀ y, serialize f.2 = Some y → canonical f.2 = canonical y) as HIH.
    { intros f Hf y. apply IH. simpl. pose proof (sum_list_map_le (λ f, json_size f.2) _ _ Hf). simpl in *. lia. }
    clear IH. induction Hm as [|f g l l' Hfg Hm IHm]; [done|]. cbn [map]. f_equal.
    + apply bind_Some in Hfg as (v & Hv & [= <-]). cbn. f_equal. apply (HIH f); [left|done].
    + apply IHm. intros z Hz. apply HIH. by right.
Qed.

(** ** Copied data *)
Lemma wire_arr items : wire (JArr items) → Forall wire items.
Proof.
  unfold wire at 1. cbn [serialize]. intros (items' & Hm & [= ->])%bind_Some.
  apply mapM_some in Hm. apply Forall_forall. intros x [i Hi]%list_elem_of_lookup.
  exact (Forall2_lookup_lr _ _ _ _ _ _ Hm Hi Hi).
Qed.

Lemma wire_obj fields :
  wire (JObj fields) →
  Forall (λ f, wire f.2) fields ∧ js_sort (λ a b, compareText a.1 b.1) fields = fields.
Proof.
  unfold wire at 1. cbn [serialize]. intros (fields' & Hm & [= E])%bind_Some.
  apply mapM_some in Hm. split.
  - rewrite <- E. apply Forall_forall. intros f Hf%elem_of_js_sort.
    apply list_elem_of_lookup in Hf as [i Hi]. eapply Forall2_lookup_r in Hm as (g & _ & Hg); [|done].
    apply bind_Some in Hg as (v & Hv & [= <-]). by apply serialize_wire in Hv.
  - rewrite <- E. apply (js_sort_id _), (js_sort_sorted _).
Qed.

(** ** Reading a text back *)

(** What may follow a value: nothing that could continue a number. *)
Definition ends (x : jstring) : Prop :=
  match x with [] => True | c :: _ => number_char c = false end.

Lemma number_prefix t u x y :
  Forall (λ c, number_char c = true) t → Forall (λ c, number_char c = true) u → ends x → ends y →
  t ++ x = u ++ y → t = u ∧ x = y.
Proof.
  intros Ht. revert u. induction Ht as [|c t Hc _ IH]; intros [|d u] Hu Hx Hy E; cbn [app] in E.
  - done.
  - subst x. inversion Hu. cbn in Hx. congruence.
  - subst y. cbn in Hy. congruence.
  - injection E as -> E. inversion Hu; subst. by destruct (IH u) as [-> ->].
Qed.

(** The kind of a value shows in the first character of its text. *)
Definition kind_of (j : json) : N :=
  match j with
  | JNull => 110 | JBool true => 116 | JBool false => 102 | JNum _ => 0 | JStr _ => 34 | JArr _ => 91
  | JObj _ => 123
  end.
Definition kind_char (c : N) : N := if number_start c then 0 else c.

Context (Htext : number_text_ok number_text).

Lemma canonical_head j : wire j → ∃ c t, canonical j = c :: t ∧ kind_char c = kind_of j.
Proof.
  intros Hj. destruct j as [|[]|n|s|items|fields]; cbn [canonical kind_of].
  4: { unfold wire in Hj. cbn in Hj. destruct (isFinite n) eqn:E; [|done].
       destruct (number_text_start _ Htext n E) as (c & t & -> & Hc). exists c, t. unfold kind_char.
       by rewrite Hc. }
  all: eexists _, _; split; reflexivity.
Qed.

Lemma canonical_kind j k x y :
  wire j → wire k → canonical j ++ x = canonical k ++ y → kind_of j = kind_of k.
Proof.
  intros Hj Hk E. destruct (canonical_head j Hj) as (c & t & Ec & <-).
  destruct (canonical_head k Hk) as (d & u & Ed & <-). rewrite Ec, Ed in E. by injection E as ->.
Qed.

(** A separated list between brackets. *)
Lemma joined_prefix {A} (f : A → jstring) (P : A → Prop) close l m x y :
  number_char close = false → close ≠ 44 →
  (∀ a, P a → ∃ c t, f a = c :: t ∧ c ≠ close) →
  (∀ a b x y, a ∈ l → P a → P b → ends x → ends y → f a ++ x = f b ++ y → a = b ∧ x = y) →
  Forall P l → Forall P m →
  joinc 44 (map f l) ++ close :: x = joinc 44 (map f m) ++ close :: y → l = m ∧ x = y.
Proof.
  intros Hclose Hne Hhead. revert m. induction l as [|a l IH]; intros [|b m] Hf Hl Hm E.
  - by injection E.
  - exfalso. inversion Hm; subst. destruct (Hhead b) as (c & t & Eb & Hc); [done|].
    cbn [map] in E. rewrite joinc_cons, Eb in E. cbn in E. by injection E.
  - exfalso. inversion Hl; subst. destruct (Hhead a) as (c & t & Ea & Hc); [done|].
    cbn [map] in E. rewrite joinc_cons, Ea in E. cbn in E. by injection E.
  - inversion Hl; inversion Hm; subst. cbn [map] in E. rewrite !joinc_cons, <- !app_assoc in E.
    assert (∀ (r : list jstring) z, ends ((match r with [] => [] | _ => 44 :: joinc 44 r end) ++ close :: z)) as Hends
      by (intros [] z; cbn; [apply Hclose|done]).
    destruct (Hf a b _ _ ltac:(left) ltac:(done) ltac:(done) (Hends _ _) (Hends _ _) E) as [-> E'].
    assert (l = m ∧ x = y) as [-> ->]; [|done].
    destruct l as [|a' l], m as [|b' m]; cbn [map app] in E'.
    + by injection E'.
    + by injection E'.
    + by injection E'.
    + injection E' as E'. apply IH; try done. intros c d z w Hc. apply Hf. by right.
Qed.

Lemma canonical_items_head j : wire j → ∃ c t, canonical j = c :: t ∧ c ≠ 93.
Proof.
  intros Hj. destruct (canonical_head j Hj) as (c & t & -> & Hc). exists c, t. split; [done|]. intros ->.
  by destruct j as [|[]| | | |].
Qed.

Lemma field_prefix (a b : jstring * json) x y :
  (quote a.1 ++ js ":" ++ canonical a.2) ++ x = (quote b.1 ++ js ":" ++ canonical b.2) ++ y →
  a.1 = b.1 ∧ canonical a.2 ++ x = canonical b.2 ++ y.
Proof. rewrite <- !app_assoc. intros [-> E]%quote_inj. by injection E. Qed.

Lemma canonical_prefix j :
  wire j → ∀ k x y, wire k → ends x → ends y → canonical j ++ x = canonical k ++ y → j = k ∧ x = y.
Proof.
  induction (Nat.lt_wf_0_projected json_size j) as [j _ IH]. intros Hj k x y Hk Hx Hy E.
  pose proof (canonical_kind j k x y Hj Hk E) as Hkind.
  destruct j as [|[]|n|s|items|fields], k as [|[]|m|u|items'|fields']; try done; clear Hkind.
  - split; [done|]. by apply app_inv_head in E.
  - split; [done|]. by apply app_inv_head in E.
  - split; [done|]. by apply app_inv_head in E.
  - unfold wire in Hj, Hk. cbn [serialize] in Hj, Hk.
    destruct (isFinite n) eqn:En; [|done]. destruct (isFinite m) eqn:Em; [|done].
    apply number_prefix in E as [E ->]; [|by apply (number_text_chars _ Htext)..|done|done].
    by apply (number_text_inj _ Htext) in E as ->.
  - by apply quote_inj in E as [-> ->].
  - cbn [canonical] in E. rewrite <- !app_assoc in E. injection E as E.
    apply (joined_prefix canonical wire 93) in E as [-> ->]; try done.
    + apply canonical_items_head.
    + intros a b x' y' Ha Hwa Hwb. apply IH; [|done..]. simpl. pose proof (sum_list_map_le json_size _ _ Ha). lia.
    + by apply wire_arr.
    + by apply wire_arr.
  - rewrite !canonical_obj in E. apply wire_obj in Hj as [Hj Sj], Hk as [Hk Sk]. rewrite Sj, Sk in E.
    rewrite <- !app_assoc in E. injection E as E.
    apply (joined_prefix _ (λ f, wire f.2) 125) in E as [-> ->]; try done.
    + intros a _. eexists _, _. split; [reflexivity|done].
    + intros a b x' y' Ha Hwa Hwb Hx' Hy' [E1 E2]%field_prefix.
      apply (IH a.2) in E2 as [E2 ->]; [|..|done|done|done|done].
      * destruct a, b; cbn in *. by subst.
      * simpl. pose proof (sum_list_map_le (λ f, json_size f.2) _ _ Ha). simpl in *. lia.
Qed.

(** Two values have one canonical text exactly when their copies are one. *)
Theorem canonical_exact a b a' b' :
  serialize a = Some a' → serialize b = Some b' → canonical a = canonical b ↔ a' = b'.
Proof.
  intros Ha Hb. rewrite (canonical_serialize _ _ Ha), (canonical_serialize _ _ Hb). split; [|by intros ->].
  intros E. apply (canonical_prefix a' (serialize_wire _ _ Ha) b' [] []); try done.
  - by eapply serialize_wire.
  - by rewrite !app_nil_r.
Qed.
End canonical.

(** ** A printer of numbers

    Not the one of JavaScript, but with its properties: [m / 2^e] as [m], the
    letter e, and [e]. *)
Definition integer_text (z : Z) : jstring := (if (z <? 0)%Z then js "-" else []) ++ show_nat (Z.abs z).
Definition plain_number (n : jsnum) : jstring :=
  match n with
  | NInt z => integer_text z
  | NFrac m e => integer_text m ++ 101 :: show_nat (Z.pos e)
  | NInf _ | NNaN => []
  end.

Lemma show_nat_digits z : (0 ≤ z)%Z → Forall (λ c, is_digit c = true) (show_nat z).
Proof.
  intros Hz. apply Forall_forall. intros c Hc.
  pose proof (isCanonicalDecimal_digits _ (show_nat_canonical z Hz)) as H. rewrite forallb_forall_in in H. by apply H.
Qed.

Lemma show_nat_cons z : (0 ≤ z)%Z → ∃ c t, show_nat z = c :: t ∧ is_digit c = true.
Proof.
  intros Hz. pose proof (show_nat_digits z Hz) as Hd.
  pose proof (isCanonicalDecimal_nonnil _ (show_nat_canonical z Hz)) as Hn.
  destruct (show_nat z) as [|c t]; [done|]. inversion Hd. eauto.
Qed.

Lemma integer_text_start z : ∃ c t, integer_text z = c :: t ∧ number_start c = true.
Proof.
  unfold integer_text. destruct (z <? 0)%Z; [by eexists _, _|].
  destruct (show_nat_cons (Z.abs z)) as (c & t & -> & Hc); [lia|]. exists c, t. unfold number_start. by rewrite Hc.
Qed.

Lemma integer_text_chars z : Forall (λ c, is_digit c || (c =? 45) = true) (integer_text z).
Proof.
  unfold integer_text. apply Forall_app. split; [by destruct (z <? 0)%Z; repeat constructor|].
  eapply Forall_impl; [apply show_nat_digits; lia|]. by intros c ->.
Qed.

Lemma integer_text_inj y z : integer_text y = integer_text z → y = z.
Proof.
  unfold integer_text. intros E.
  destruct (show_nat_cons (Z.abs y)) as (c & t & Ec & Hc); [lia|].
  destruct (show_nat_cons (Z.abs z)) as (d & u & Ed & Hd); [lia|].
  destruct (Z.ltb_spec y 0), (Z.ltb_spec z 0).
  - apply app_inv_head, (f_equal decimal_value) in E. rewrite !show_nat_value in E by lia. lia.
  - exfalso. rewrite Ed in E. injection E as <- _. done.
  - exfalso. rewrite Ec in E. injection E as -> _. done.
  - apply (f_equal decimal_value) in E. cbn [app] in E. rewrite !show_nat_value in E by lia. lia.
Qed.

Lemma plain_number_show n : isFinite n = true → show_number plain_number n = plain_number n.
Proof. destruct n; try done. intros _. cbn. by case_match. Qed.

Lemma plain_number_ok : number_text_ok plain_number.
Proof.
  assert (∀ z, 101 ∉ integer_text z) as He.
  { intros z Hin. pose proof (integer_text_chars z) as H. rewrite Forall_forall in H. by apply H in Hin. }
  assert (∀ z t, 101 ∉ integer_text z ++ 101 :: t → False) as He'.
  { intros z t. rewrite elem_of_app, elem_of_cons. tauto. }
  split.
  - intros n m Hn Hm. rewrite !plain_number_show by done. intros E. destruct n, m; try done; cbn in E.
    + by apply integer_text_inj in E as ->.
    + exfalso. eapply He'. rewrite <- E. apply He.
    + exfalso. eapply He'. rewrite E. apply He.
    + apply (f_equal (splitc 101)) in E. rewrite !splitc_app_sep in E by apply He. injection E as E1 E2.
      apply integer_text_inj in E1 as ->. apply (f_equal (joinc 101)) in E2. rewrite !joinc_splitc in E2.
      apply (f_equal decimal_value) in E2. rewrite !show_nat_value in E2 by lia. by injection E2 as ->.
  - intros n Hn. rewrite plain_number_show by done.
    assert (∀ z, Forall (λ c, number_char c = true) (integer_text z)) as Hi.
    { intros z. eapply Forall_impl; [apply integer_text_chars|]. intros c. unfold number_char. by intros ->. }
    destruct n; try done; cbn; [done|]. apply Forall_app. split; [done|]. constructor; [done|].
    eapply Forall_impl; [apply show_nat_digits; lia|]. intros c. unfold number_char. by intros ->.
  - intros n Hn. rewrite plain_number_show by done.
    destruct n as [z|z e| |]; try done; cbn; destruct (integer_text_start z) as (c & t & -> & Hc); by eexists _, _.
Qed.
