(* ===== verification/JsonParse.v ===== *)
(** * Reading JSON text

    [JSON.parse], over the numbers a host reads. What [JSON.stringify] prints is
    read back; the fields of an object come back in the order the language
    lists them in. *)

From S2P Require Import Prelude JsString Collections Regex JsValue JsonText Canonical.

Open Scope N_scope.

(** ** Tokens *)
Definition is_ws (c : N) : bool := (c =? 9) || (c =? 10) || (c =? 13) || (c =? 32).
Fixpoint skip_ws (s : jstring) : jstring :=
  match s with
  | c :: s' => if is_ws c then skip_ws s' else s
  | [] => []
  end.

(** The text after a literal. *)
Fixpoint after_literal (p s : jstring) : option jstring :=
  match p, s with
  | [], _ => Some s
  | c :: p', d :: s' => if c =? d then after_literal p' s' else None
  | _ :: _, [] => None
  end.

(** The characters a number may have, and the grammar of one. *)
Definition number_part (c : N) : bool := number_char c || (c =? 69).
Fixpoint number_token (s : jstring) : jstring * jstring :=
  match s with
  | c :: s' => if number_part c then let '(t, r) := number_token s' in (c :: t, r) else ([], s)
  | [] => ([], [])
  end.
Definition number_grammar : regex :=
  RSeq (ropt (ch 45)) (RSeq rdecimal (RSeq (ropt (RSeq (ch 46) (rplus (RCls is_digit))))
    (ropt (RSeq (RCls (λ c, (c =? 101) || (c =? 69)))
      (RSeq (ropt (RCls (λ c, (c =? 43) || (c =? 45)))) (rplus (RCls is_digit))))))).

Definition hex_char (c : N) : option N :=
  if is_digit c then Some (c - 48)
  else if (65 <=? c) && (c <=? 70) then Some (c - 55)
  else if (97 <=? c) && (c <=? 102) then Some (c - 87)
  else None.
Definition escaped (c : N) : option N :=
  if c =? 98 then Some 8 else if c =? 116 then Some 9 else if c =? 110 then Some 10
  else if c =? 102 then Some 12 else if c =? 114 then Some 13
  else if (c =? 34) || (c =? 92) || (c =? 47) then Some c else None.

(** The rest of a string, up to its closing quote. *)
Fixpoint read_string (s : jstring) : option (jstring * jstring) :=
  match s with
  | [] => None
  | c :: r =>
      if c =? 34 then Some ([], r)
      else if c =? 92 then
        match r with
        | e :: r' =>
            if e =? 117 then
              match r' with
              | h1 :: h2 :: h3 :: h4 :: r'' =>
                  a ← hex_char h1; b ← hex_char h2; x ← hex_char h3; y ← hex_char h4;
                  '(u, t) ← read_string r'';
                  Some ((((a * 16 + b) * 16 + x) * 16 + y) :: u, t)
              | _ => None
              end
            else d ← escaped e; '(u, t) ← read_string r'; Some (d :: u, t)
        | [] => None
        end
      else if c <? 32 then None
      else '(u, t) ← read_string r; Some (c :: u, t)
  end.

(** ** Values *)
Section parse.
Context (number_of : jstring → jsnum).

Fixpoint parse_value (fuel : nat) (s : jstring) : option (json * jstring) :=
  match fuel with
  | O => None
  | S n =>
      match skip_ws s with
      | [] => None
      | c :: r =>
          if c =? 34 then '(u, t) ← read_string r; Some (JStr u, t)
          else if c =? 91 then
            match skip_ws r with
            | d :: t => if d =? 93 then Some (JArr [], t)
                        else '(items, t) ← parse_items n r; Some (JArr items, t)
            | [] => None
            end
          else if c =? 123 then
            match skip_ws r with
            | d :: t => if d =? 125 then Some (JObj [], t)
                        else '(fields, t) ← parse_fields n r []; Some (JObj fields, t)
            | [] => None
            end
          else if c =? 110 then t ← after_literal (js "null") (c :: r); Some (JNull, t)
          else if c =? 116 then t ← after_literal (js "true") (c :: r); Some (JBool true, t)
          else if c =? 102 then t ← after_literal (js "false") (c :: r); Some (JBool false, t)
          else
            let '(token, t) := number_token (c :: r) in
            if re_test number_grammar token then Some (JNum (number_of token), t) else None
      end
  end
with parse_items (fuel : nat) (s : jstring) : option (list json * jstring) :=
  match fuel with
  | O => None
  | S n =>
      '(v, t) ← parse_value n s;
      match skip_ws t with
      | d :: t' =>
          if d =? 44 then '(items, t'') ← parse_items n t'; Some (v :: items, t'')
          else if d =? 93 then Some ([v], t') else None
      | [] => None
      end
  end
with parse_fields (fuel : nat) (s : jstring) (fields : jsmap jstring json)
  : option (list (jstring * json) * jstring) :=
  match fuel with
  | O => None
  | S n =>
      match skip_ws s with
      | q :: r =>
          if negb (q =? 34) then None
          else
            '(key, t) ← read_string r;
            match skip_ws t with
            | d :: t' =>
                if negb (d =? 58) then None
                else
                  '(v, t'') ← parse_value n t';
                  let fields' := JsMap.set fields key v in
                  match skip_ws t'' with
                  | e :: t3 =>
                      if e =? 44 then parse_fields n t3 fields'
                      else if e =? 125 then Some (fields', t3) else None
                  | [] => None
                  end
            | [] => None
            end
      | [] => None
      end
  end.

(** [JSON.parse] *)
Definition JSON_parse (s : jstring) : option json :=
  '(v, t) ← parse_value (2 * length s + 2) s;
  match skip_ws t with [] => Some v | _ => None end.
End parse.

(** ** What is printed is read *)

(** A value with its fields in the order the language lists them in. *)
Fixpoint owned (j : json) : json :=
  match j with
  | JArr items => JArr (map owned items)
  | JObj fields => JObj (own_order (map (λ f, (f.1, owned f.2)) fields))
  | _ => j
  end.

(** Objects have one field of a name. *)
Fixpoint keyed (j : json) : bool :=
  match j with
  | JArr items => forallb keyed items
  | JObj fields => bool_decide (NoDup fields.*1) && forallb (λ f, keyed f.2) fields
  | _ => true
  end.

(** What ECMAScript promises of printing and reading numbers. *)
Record number_codec (number_text : jsnum → jstring) (number_of : jstring → jsnum) : Prop := {
  nc_text :> number_text_ok number_text;
  nc_grammar : ∀ n, isFinite n = true → re_test number_grammar (show_number number_text n) = true;
  nc_back : ∀ n, isFinite n = true → number_of (show_number number_text n) = n;
}.

Lemma hex_char_digit n : n < 16 → hex_char (hex_digit n) = Some n.
Proof.
  intros Hn. unfold hex_char, hex_digit, is_digit. destruct (N.ltb_spec n 10).
  - destruct (N.leb_spec 48 (48 + n)), (N.leb_spec (48 + n) 57); try lia. cbn. f_equal. lia.
  - destruct (N.leb_spec 48 (87 + n)), (N.leb_spec (87 + n) 57), (N.leb_spec 65 (87 + n)), (N.leb_spec (87 + n) 70),
      (N.leb_spec 97 (87 + n)), (N.leb_spec (87 + n) 102); try lia. cbn. f_equal. lia.
Qed.

Lemma read_escape c rest : c < 65536 →
  read_string (escape c ++ rest) = '(u, t) ← read_string rest; Some (c :: u, t).
Proof.
  intros Hc. unfold escape. cbn [app read_string hex4]. change (92 =? 34) with false. change (92 =? 92) with true.
  change (117 =? 117) with true. cbn [app].
  pose proof (N.mod_lt (c / 256) 16). pose proof (N.mod_lt (c / 16) 16). pose proof (N.mod_lt c 16).
  assert (c / 4096 < 16) by (apply N.Div0.div_lt_upper_bound; lia).
  rewrite !hex_char_digit by lia. cbn [mbind option_bind].
  pose proof (hex4_value c Hc) as E. rewrite !hex_value_digit in E by lia. by rewrite E.
Qed.

Lemma read_unit c rest :
  read_string (quote_unit c ++ rest) = '(u, t) ← read_string rest; Some (c :: u, t).
Proof.
  unfold quote_unit.
  repeat match goal with |- context [if ?a =? ?b then _ else _] =>
    destruct (N.eqb_spec a b) as [->|]; [done|] end.
  destruct ((c =? 34) || (c =? 92)) eqn:E1.
  { apply orb_true_iff in E1 as [->%N.eqb_eq| ->%N.eqb_eq]; done. }
  to_prop. destruct ((c <? 32) || is_high c || is_low c) eqn:E2.
  - apply read_escape. unfold is_high, is_low in E2. to_prop. destruct E2 as [[E2|E2]%orb_true_iff|E2]; to_prop;
      rewrite ?N.leb_le in *; lia.
  - apply orb_false_iff in E2 as [[E2 _]%orb_false_iff _]. cbn [app read_string]. rewrite E2.
    destruct (N.eqb_spec c 34), (N.eqb_spec c 92); done.
Qed.

Lemma read_raw c rest :
  is_high c || is_low c = true → read_string (c :: rest) = '(u, t) ← read_string rest; Some (c :: u, t).
Proof.
  unfold is_high, is_low. intros Hc. cbn [read_string].
  destruct (N.eqb_spec c 34) as [->|]; [done|]. destruct (N.eqb_spec c 92) as [->|]; [done|].
  destruct (N.ltb_spec c 32); [|done]. apply orb_true_iff in Hc as [Hc|Hc]; to_prop; rewrite ?N.leb_le in *; lia.
Qed.

Lemma read_quoted s rest : read_string (quote_body s ++ 34 :: rest) = Some (s, rest).
Proof.
  induction (Nat.lt_wf_0_projected length s) as [s _ IH].
  destruct s as [|c [|d s]]; [done| |].
  - cbn [quote_body]. by rewrite read_unit.
  - cbn [quote_body]. destruct (is_high c && is_low d) eqn:E.
    + apply andb_true_iff in E as [Ec Ed]. cbn [app].
      rewrite read_raw by (by rewrite Ec). rewrite read_raw by (rewrite Ed; apply orb_true_r).
      rewrite IH by (simpl; lia). done.
    + rewrite <- app_assoc, read_unit.
      change (match s with [] => quote_unit d | d0 :: s'' => if is_high d && is_low d0
        then d :: d0 :: quote_body s'' else quote_unit d ++ quote_body s end)
        with (quote_body (d :: s)).
      rewrite IH by (simpl; lia). done.
Qed.

Lemma skip_ws_head c s : is_ws c = false → skip_ws (c :: s) = c :: s.
Proof. intros H. cbn. by rewrite H. Qed.

Lemma number_token_app t x :
  Forall (λ c, number_char c = true) t →
  (match x with [] => True | c :: _ => number_part c = false end) →
  number_token (t ++ x) = (t, x).
Proof.
  intros Ht Hx. induction Ht as [|c t Hc _ IH]; cbn [app number_token].
  - destruct x as [|c x]; [done|]. cbn. by rewrite Hx.
  - unfold number_part at 1. rewrite Hc. cbn [orb]. by rewrite IH.
Qed.

(** What follows a value in a text: the end, or a comma or a closing bracket. *)
Definition follows (x : jstring) : Prop :=
  match x with [] => True | c :: _ => c = 44 ∨ c = 93 ∨ c = 125 end.

Lemma json_size_pos j : (0 < json_size j)%nat.
Proof. destruct j; simpl; lia. Qed.

Lemma own_order_perm {A} (fields : list (jstring * A)) : own_order fields ≡ₚ fields.
Proof.
  unfold own_order. rewrite js_sort_perm. induction fields as [|f fields IH]; [done|]. cbn [List.filter].
  destruct (is_index f.1); cbn [negb]; [by rewrite <- IH at 3|]. rewrite <- IH at 3. by rewrite Permutation_middle.
Qed.

Lemma filter_map_fst {A B} (g : A → B) (p : jstring → bool) (fields : list (jstring * A)) :
  List.filter (λ f, p f.1) (map (λ f, (f.1, g f.2)) fields) = map (λ f, (f.1, g f.2)) (List.filter (λ f, p f.1) fields).
Proof. induction fields as [|f fields IH]; [done|]. cbn [map List.filter]. rewrite IH. cbn. by destruct (p f.1). Qed.

Lemma own_order_map {A B} (g : A → B) (fields : list (jstring * A)) :
  own_order (map (λ f, (f.1, g f.2)) fields) = map (λ f, (f.1, g f.2)) (own_order fields).
Proof.
  unfold own_order. rewrite map_app, (filter_map_fst g is_index), (filter_map_fst g (λ k, negb (is_index k))).
  f_equal. by apply js_sort_map.
Qed.

Section roundtrip.
Context (number_text : jsnum → jstring) (number_of : jstring → jsnum) (Hn : number_codec number_text number_of).
Abbreviation print := (stringify number_text).
Abbreviation read := (parse_value number_of).

(** The first character of a printed value. *)
Definition opens (c : N) : bool := negb (is_ws c) && negb (c =? 93) && negb (c =? 125).

Lemma number_opens c : number_start c = true →
  opens c = true ∧ c ≠ 34 ∧ c ≠ 91 ∧ c ≠ 123 ∧ c ≠ 110 ∧ c ≠ 116 ∧ c ≠ 102.
Proof.
  unfold number_start, is_digit, opens, is_ws. intros [H| ->%N.eqb_eq]%orb_true_iff; [|done].
  apply andb_true_iff in H as [H1%N.leb_le H2%N.leb_le].
  repeat match goal with |- context [?a =? ?b] => destruct (N.eqb_spec a b); try lia end.
Qed.

Lemma print_head j : data j → ∃ c t, print j = c :: t ∧ opens c = true.
Proof.
  intros Hj. destruct j as [|[]|n|s|items|fields]; cbn [stringify].
  4: { destruct (isFinite n) eqn:E; [|by destruct Hj as [? Hj]; cbn in Hj; rewrite E in Hj].
       destruct (number_text_start _ Hn n E) as (c & t & -> & Hc). exists c, t. split; [done|].
       by apply number_opens in Hc as [? _]. }
  all: eexists _, _; split; reflexivity.
Qed.

Lemma read_number n fuel rest :
  isFinite n = true → follows rest → read (S fuel) (show_number number_text n ++ rest) = Some (JNum n, rest).
Proof.
  intros Hf Hr. destruct (number_text_start _ Hn n Hf) as (c & t & E & Hc).
  destruct (number_opens c Hc) as (Ho & H1 & H2 & H3 & H4 & H5 & H6).
  assert (number_token (show_number number_text n ++ rest) = (show_number number_text n, rest)) as Ht.
  { apply number_token_app; [by apply (number_text_chars _ Hn)|]. destruct rest; [done|].
    by destruct Hr as [->|[->| ->]]. }
  pose proof (nc_grammar _ _ Hn n Hf) as Hg. pose proof (nc_back _ _ Hn n Hf) as Hb. rewrite E in *.
  cbn [parse_value app] in *. rewrite skip_ws_head.
  2: { unfold opens in Ho. by destruct (is_ws c). }
  repeat match goal with |- context [?a =? ?b] => destruct (N.eqb_spec a b); [lia|] end.
  rewrite Ht, Hg. by rewrite Hb.
Qed.

Lemma literal_app p rest : after_literal p (p ++ rest) = Some rest.
Proof. induction p as [|c p IH]; [done|]. cbn. by rewrite N.eqb_refl. Qed.

(** A value that is read back, whatever follows it. *)
Definition reads_back (j : json) : Prop :=
  ∀ fuel rest, (2 * json_size j ≤ fuel)%nat → follows rest → read fuel (print j ++ rest) = Some (owned j, rest).

Lemma joinc_tail (w : jstring) ws close rest :
  joinc 44 (w :: ws) ++ close :: rest = w ++ (match ws with [] => close :: rest | _ => 44 :: joinc 44 ws ++ close :: rest end).
Proof. rewrite joinc_cons. destruct ws; rewrite <- app_assoc; done. Qed.

Lemma read_items items fuel rest :
  items ≠ [] → Forall reads_back items → (2 * sum_list (map json_size items) < fuel)%nat →
  parse_items number_of fuel (joinc 44 (map print items) ++ 93 :: rest) = Some (map owned items, rest).
Proof.
  revert fuel. induction items as [|j items IH]; intros fuel Hne Hall Hf; [done|].
  apply Forall_cons in Hall as [Hj Hall]. destruct fuel as [|fuel]; [lia|]. cbn [map parse_items].
  rewrite joinc_tail. cbn [map] in Hf.
  assert (json_size j > 0)%nat by (destruct j; simpl; lia).
  change (sum_list (json_size j :: map json_size items)) with (json_size j + sum_list (map json_size items))%nat in Hf.
  rewrite Hj; [|lia|by destruct items; cbn; tauto]. cbn [mbind option_bind].
  destruct items as [|k items].
  - cbn [map]. rewrite skip_ws_head by done. done.
  - cbn [map]. rewrite skip_ws_head by done. change (44 =? 44) with true. cbn iota.
    change (joinc 44 (print k :: map print items)) with (joinc 44 (map print (k :: items))).
    rewrite IH; [|done|done|lia]. done.
Qed.

Definition field_text (f : jstring * jstring) : jstring := quote f.1 ++ js ":" ++ f.2.

Lemma set_new {V} (m : jsmap jstring V) k v : k ∉ m.*1 → JsMap.set m k v = m ++ [(k, v)].
Proof. apply JsMap.set_absent. Qed.

Lemma read_fields (fields : list (jstring * json)) done_ fuel rest :
  fields ≠ [] → Forall (λ f, reads_back f.2) fields →
  (2 * sum_list (map (λ f, json_size f.2) fields) < fuel)%nat →
  NoDup (done_.*1 ++ fields.*1) →
  parse_fields number_of fuel (joinc 44 (map (λ f, field_text (f.1, print f.2)) fields) ++ 125 :: rest) done_ =
  Some (done_ ++ map (λ f, (f.1, owned f.2)) fields, rest).
Proof.
  revert done_ fuel. induction fields as [|[k j] fields IH]; intros done_ fuel Hne Hall Hf Hnd; [done|].
  apply Forall_cons in Hall as [Hj Hall]. destruct fuel as [|fuel]; [lia|]. cbn [map parse_fields fst snd].
  rewrite joinc_tail. unfold field_text at 1. cbn [fst snd]. unfold quote.
  assert (json_size j > 0)%nat by (destruct j; simpl; lia). cbn [map snd] in Hf.
  change (sum_list (json_size j :: map (λ f : jstring * json, json_size f.2) fields))
    with (json_size j + sum_list (map (λ f : jstring * json, json_size f.2) fields))%nat in Hf.
  rewrite <- !app_assoc. cbn [app]. rewrite skip_ws_head by done. change (negb (34 =? 34)) with false. cbn iota.
  change (js ":") with [58]. cbn [app]. rewrite <- app_assoc. cbn [app]. rewrite read_quoted. cbn [mbind option_bind]. rewrite skip_ws_head by done.
  change (negb (58 =? 58)) with false. cbn iota. cbn [snd] in Hj.
  rewrite Hj; [|lia|by destruct fields; cbn; tauto]. cbn [mbind option_bind].
  assert (k ∉ done_.*1) as Hk.
  { intros Hin. cbn in Hnd. apply NoDup_app in Hnd as (_ & Hd & _). apply (Hd k Hin). left. }
  rewrite set_new by done.
  destruct fields as [|[k' j'] fields].
  - cbn [map]. rewrite skip_ws_head by done. done.
  - cbn [map]. rewrite skip_ws_head by done. change (44 =? 44) with true. cbn iota.
    change (joinc 44 (field_text ((k', j').1, print (k', j').2) :: map (λ f, field_text (f.1, print f.2)) fields))
      with (joinc 44 (map (λ f, field_text (f.1, print f.2)) ((k', j') :: fields))).
    rewrite IH; [|done|done|lia|].
    + rewrite <- app_assoc. done.
    + rewrite fmap_app, <- app_assoc. exact Hnd.
Qed.

Lemma sum_own_order (fields : list (jstring * json)) :
  sum_list (map (λ f, json_size f.2) (own_order fields)) = sum_list (map (λ f, json_size f.2) fields).
Proof. by rewrite own_order_perm. Qed.

Lemma print_fields (fields : list (jstring * json)) :
  own_order (map (λ f, (f.1, print f.2)) fields) = map (λ f, (f.1, print f.2)) (own_order fields) ∧
  own_order (map (λ f, (f.1, owned f.2)) fields) = map (λ f, (f.1, owned f.2)) (own_order fields).
Proof. split; apply own_order_map. Qed.

Theorem print_reads_back j : data j → keyed j = true → reads_back j.
Proof.
  induction (Nat.lt_wf_0_projected json_size j) as [j _ IH]. intros Hd Hk fuel rest Hf Hr.
  destruct fuel as [|fuel]; [pose proof (json_size_pos j); lia|].
  destruct j as [|[]|n|s|items|fields].
  - cbn [stringify owned parse_value]. change (js "null" ++ rest) with (110 :: js "ull" ++ rest).
    rewrite skip_ws_head by done. cbn -[after_literal]. change (110 :: _) with (js "null" ++ rest). by rewrite literal_app.
  - cbn [stringify owned parse_value]. change (js "true" ++ rest) with (116 :: js "rue" ++ rest).
    rewrite skip_ws_head by done. cbn -[after_literal]. change (116 :: _) with (js "true" ++ rest). by rewrite literal_app.
  - cbn [stringify owned parse_value]. change (js "false" ++ rest) with (102 :: js "alse" ++ rest).
    rewrite skip_ws_head by done. cbn -[after_literal]. change (102 :: _) with (js "false" ++ rest). by rewrite literal_app.
  - cbn [stringify owned]. apply read_number; [|done]. destruct Hd as [? Hd]. cbn in Hd. by destruct (isFinite n).
  - cbn [stringify owned parse_value]. unfold quote. cbn [app]. rewrite skip_ws_head by done. cbn -[read_string].
    rewrite <- app_assoc. cbn [app]. by rewrite read_quoted.
  - apply data_arr in Hd. cbn [keyed] in Hk. cbn [json_size] in Hf, IH.
    assert (Forall reads_back items) as Hall.
    { apply Forall_forall. intros x Hx. rewrite Forall_forall in Hd. rewrite forallb_forall_in in Hk. apply IH; [|by apply Hd|exact (Hk _ Hx)].
      pose proof (sum_list_map_le json_size _ _ Hx). simpl. lia. }
    cbn [stringify owned parse_value]. change (js "[") with [91]. change (js "]") with [93]. rewrite <- !app_assoc.
    cbn [app]. rewrite skip_ws_head by done. change (91 =? 34) with false. change (91 =? 91) with true. cbn iota.
    destruct items as [|x items].
    + cbn [map joinc app]. rewrite skip_ws_head by done. done.
    + destruct (print_head x) as (c & t & Ec & Hc); [rewrite Forall_forall in Hd; apply Hd; left|].
      assert (∃ u, joinc 44 (map print (x :: items)) ++ 93 :: rest = c :: u) as [u Eu].
      { cbn [map]. rewrite joinc_tail, Ec. by eexists. }
      pose proof (read_items (x :: items) fuel rest ltac:(done) Hall ltac:(lia)) as Hread. rewrite Eu in *.
      unfold opens in Hc. rewrite skip_ws_head by (by destruct (is_ws c)).
      destruct (N.eqb_spec c 93) as [->|]; [done|]. by rewrite Hread.
  - apply data_obj in Hd. cbn [keyed] in Hk. apply andb_true_iff in Hk as [Hnd Hk].
    apply bool_decide_eq_true in Hnd. cbn [json_size] in Hf, IH.
    assert (Forall (λ f, reads_back f.2) (own_order fields)) as Hall.
    { apply Forall_forall. intros f Hx. rewrite own_order_perm in Hx. rewrite Forall_forall in Hd. rewrite forallb_forall_in in Hk.
      apply IH; [|by apply Hd|exact (Hk _ Hx)].
      pose proof (sum_list_map_le (λ f, json_size f.2) _ _ Hx). simpl in *. lia. }
    cbn [stringify owned parse_value]. destruct (print_fields fields) as [-> ->].
    change (js "{") with [123]. change (js "}") with [125]. rewrite <- !app_assoc. rewrite map_map.
    change (map (λ x, quote (x.1, print x.2).1 ++ js ":" ++ (x.1, print x.2).2) (own_order fields))
      with (map (λ f, field_text (f.1, print f.2)) (own_order fields)).
    cbn [app]. rewrite skip_ws_head by done. change (123 =? 34) with false. change (123 =? 91) with false.
    change (123 =? 123) with true. cbn iota. rewrite <- sum_own_order in Hf.
    assert (NoDup (own_order fields).*1) as Hnd' by (by rewrite own_order_perm).
    destruct (own_order fields) as [|x l].
    + cbn [map joinc app]. rewrite skip_ws_head by done. done.
    + assert (∃ u, joinc 44 (map (λ f, field_text (f.1, print f.2)) (x :: l)) ++ 125 :: rest = 34 :: u) as [u Eu].
      { cbn [map]. rewrite joinc_tail. by eexists. }
      pose proof (read_fields (x :: l) [] fuel rest ltac:(done) Hall ltac:(lia) Hnd') as Hread.
      rewrite Eu in *. rewrite skip_ws_head by done. change (34 =? 125) with false. cbn iota. by rewrite Hread.
Qed.
Lemma joinc_length (ws : list jstring) : (sum_list (map length ws) ≤ length (joinc 44 ws))%nat.
Proof.
  induction ws as [|w ws IH]; [done|]. rewrite joinc_cons, length_app. cbn [map]. destruct ws; [cbn; lia|].
  cbn [length] in *. change (sum_list (length w :: ?l)) with (length w + sum_list l)%nat. simpl in *. lia.
Qed.

Lemma sum_le {A} (f g : A → nat) l : (∀ x, x ∈ l → f x ≤ g x)%nat → (sum_list (map f l) ≤ sum_list (map g l))%nat.
Proof.
  induction l as [|x l IH]; intros H; [done|]. cbn [map].
  change (f x + sum_list (map f l) ≤ g x + sum_list (map g l))%nat. pose proof (H x ltac:(left)).
  assert (sum_list (map f l) ≤ sum_list (map g l))%nat by (apply IH; intros; apply H; by right). lia.
Qed.

Lemma print_length j : data j → (json_size j ≤ length (print j))%nat.
Proof.
  induction (Nat.lt_wf_0_projected json_size j) as [j _ IH]. intros Hd.
  destruct j as [|[]|n|s|items|fields].
  1-5: destruct (print_head _ Hd) as (c & t & -> & _); simpl; lia.
  - apply data_arr in Hd. rewrite Forall_forall in Hd. cbn [stringify json_size].
    rewrite !length_app. pose proof (joinc_length (map print items)) as H. rewrite map_map in H.
    pose proof (sum_le json_size (λ x, length (print x)) items) as H'. simpl. 
    assert (∀ x, x ∈ items → json_size x ≤ length (print x))%nat as Hx.
    { intros x Hx. apply IH; [|by apply Hd]. pose proof (sum_list_map_le json_size _ _ Hx). simpl. lia. }
    specialize (H' Hx). simpl in *. lia.
  - apply data_obj in Hd. rewrite Forall_forall in Hd. cbn [stringify json_size].
    destruct (print_fields fields) as [-> _]. rewrite !length_app, map_map, <- sum_own_order.
    pose proof (joinc_length (map (λ f, quote f.1 ++ js ":" ++ print f.2) (own_order fields))) as H.
    rewrite map_map in H.
    assert (∀ f : jstring * json, f ∈ own_order fields →
      json_size f.2 ≤ length (quote f.1 ++ js ":" ++ print f.2))%nat as Hx.
    { intros f Hf. rewrite own_order_perm in Hf. rewrite !length_app.
      pose proof (sum_list_map_le (λ f, json_size f.2) _ _ Hf). simpl in *.
      assert (json_size f.2 ≤ length (print f.2))%nat by (apply IH; [simpl; lia|by apply Hd]). lia. }
    pose proof (sum_le _ _ _ Hx). simpl in *. lia.
Qed.

(** [JSON.parse(JSON.stringify(v))] is [v], up to the order of fields. *)
Theorem JSON_parse_print j : data j → keyed j = true → JSON_parse number_of (print j) = Some (owned j).
Proof.
  intros Hd Hk. unfold JSON_parse. pose proof (print_reads_back j Hd Hk (2 * length (print j) + 2)%nat []) as H.
  rewrite app_nil_r in H. rewrite H; [done| |done]. pose proof (print_length j Hd). lia.
Qed.
End roundtrip.

(** ** A reader of the numbers of [plain_number] *)
Definition integer_value (t : jstring) : Z :=
  match t with
  | c :: t' => if c =? 45 then (- decimal_value t')%Z else decimal_value t
  | [] => 0%Z
  end.
Definition plain_read (t : jstring) : jsnum :=
  match splitc 101 t with
  | [m] => NInt (integer_value m)
  | m :: e :: _ => NFrac (integer_value m) (Z.to_pos (decimal_value e))
  | [] => NNaN
  end.

Lemma integer_value_text z : integer_value (integer_text z) = z.
Proof.
  unfold integer_text, integer_value. destruct (Z.ltb_spec z 0).
  - cbn [app js]. change (js "-") with [45]. cbn [app]. change (45 =? 45) with true. cbn iota.
    rewrite show_nat_value by lia. lia.
  - cbn [app]. destruct (show_nat_cons (Z.abs z)) as (c & t & E & Hc); [lia|]. rewrite E.
    destruct (N.eqb_spec c 45) as [->|]; [done|]. rewrite <- E, show_nat_value by lia. lia.
Qed.

Lemma decimal_lang z : (0 ≤ z)%Z → lang rdecimal (show_nat z).
Proof.
  intros Hz. pose proof (show_nat_canonical z Hz) as H. destruct (show_nat z) as [|c t]; [done|]. cbn in H.
  destruct (N.eqb_spec c 48) as [->|Hne].
  - destruct t; [|done]. left. by exists 48.
  - right. apply andb_true_iff in H as [Hc Ht]. exists [c], t. split_and!; [done| |].
    + exists c. split; [done|]. apply is_digit_spec in Hc. apply andb_true_iff. rewrite !N.leb_le. lia.
    + clear Hne Hc. induction t as [|d t IH]; [constructor|]. cbn in Ht. apply andb_true_iff in Ht as [Hd Ht].
      apply (star_app _ [d] t); [by exists d|by apply IH].
Qed.

Lemma integer_lang z : ∃ s d, integer_text z = s ++ d ∧ lang (ropt (ch 45)) s ∧ lang rdecimal d.
Proof.
  unfold integer_text. exists (if (z <? 0)%Z then js "-" else []), (show_nat (Z.abs z)). split_and!; [done| |apply decimal_lang; lia].
  destruct (z <? 0)%Z; [right; by exists 45|by left].
Qed.

Lemma plain_codec : number_codec plain_number plain_read.
Proof.
  assert (∀ z, 101 ∉ integer_text z) as He.
  { intros z Hin. pose proof (integer_text_chars z) as H. rewrite Forall_forall in H. by apply H in Hin. }
  split; [exact plain_number_ok| |].
  - intros n Hf. rewrite plain_number_show by done. apply re_test_spec. destruct n as [z|m e| |]; try done; cbn [plain_number].
    + destruct (integer_lang z) as (s & d & -> & Hs & Hd). exists s, d. split_and!; [done|done|].
      exists d, []. split_and!; [by rewrite app_nil_r|done|]. exists [], []. split_and!; [done|by left|by left].
    + destruct (integer_lang m) as (s & d & -> & Hs & Hd). exists s, (d ++ 101 :: show_nat (Z.pos e)).
      split_and!; [by rewrite app_assoc|done|]. eexists d, _. split_and!; [done|done|].
      eexists [], _. split_and!; [done|by left|]. right. eexists [101], _. split_and!; [done|by exists 101|].
      eexists [], _. split_and!; [done|by left|]. pose proof (show_nat_digits (Z.pos e) ltac:(lia)) as Hdig.
      destruct (show_nat_cons (Z.pos e)) as (c & t & E & Hc); [lia|]. rewrite E in *. apply Forall_cons in Hdig as [_ Hdig].
      exists [c], t. split_and!; [done|by exists c|]. clear E. induction Hdig as [|x t Hx _ IH]; [constructor|].
      apply (star_app _ [x] t); [by exists x|done].
  - intros n Hf. rewrite plain_number_show by done. unfold plain_read. destruct n as [z|m e| |]; try done; cbn [plain_number].
    + rewrite splitc_no_sep by apply He. by rewrite integer_value_text.
    + rewrite splitc_app_sep by apply He. destruct (splitc_cons 101 (show_nat (Z.pos e))) as (w & ws & E). rewrite E.
      rewrite splitc_no_sep in E.
      2: { intros Hin. pose proof (show_nat_digits (Z.pos e) ltac:(lia)) as H. rewrite Forall_forall in H. by apply H in Hin. }
      injection E as <- _. rewrite integer_value_text, show_nat_value by lia. done.
Qed.
