(* ===== verification/Bytes.v ===== *)
(** * Bytes

    What the source uses of Node's [Buffer], [DataView] and the text codecs: big
    endian integers, and UTF-8 as [TextEncoder] and [Buffer.from] write it and a
    fatal [TextDecoder] reads it. A byte is a number below 256. *)

From Stdlib Require Import Zify ZifyN ZifyBool.
From S2P Require Import Prelude JsString JsValue JsonText.

Open Scope N_scope.

Abbreviation bytes := (list N).
Definition is_byte (b : N) : Prop := b < 256.

(** ** Unsigned integers *)

(** [setUint16], [setUint32], [writeUInt32BE]: the value modulo the width. *)
Fixpoint put_uint (width : nat) (n : N) : bytes :=
  match width with
  | O => []
  | S w => n / 256 ^ N.of_nat w mod 256 :: put_uint w n
  end.
Fixpoint get_uint_from (acc : N) (b : bytes) : N :=
  match b with
  | [] => acc
  | x :: b' => get_uint_from (acc * 256 + x) b'
  end.
Definition get_uint (b : bytes) : N := get_uint_from 0 b.

Lemma length_put_uint w n : length (put_uint w n) = w.
Proof. induction w as [|w IH]; [done|]. cbn. by rewrite IH. Qed.
Lemma put_uint_bytes w n : Forall is_byte (put_uint w n).
Proof. induction w as [|w IH]; constructor; [|done]. apply N.mod_lt. lia. Qed.

Lemma get_put_from w n acc : get_uint_from acc (put_uint w n) = acc * 256 ^ N.of_nat w + n mod 256 ^ N.of_nat w.
Proof.
  revert acc. induction w as [|w IH]; intros acc.
  - cbn. rewrite N.mod_1_r. lia.
  - cbn [put_uint get_uint_from]. rewrite IH. rewrite Nat2N.inj_succ, N.pow_succ_r'.
    rewrite (N.mul_comm 256), (N.Div0.mod_mul_r n). lia.
Qed.
Lemma get_put w n : n < 256 ^ N.of_nat w → get_uint (put_uint w n) = n.
Proof. intros Hn. unfold get_uint. rewrite get_put_from, N.mod_small by done. lia. Qed.

Lemma get_uint_bound b acc : Forall is_byte b → get_uint_from acc b < (acc + 1) * 256 ^ N.of_nat (length b).
Proof.
  revert acc. induction b as [|x b IH]; intros acc Hb; cbn [get_uint_from length].
  - cbn. lia.
  - apply Forall_cons in Hb as [Hx Hb]. specialize (IH (acc * 256 + x) Hb). unfold is_byte in Hx.
    rewrite Nat2N.inj_succ, N.pow_succ_r'. eapply N.lt_le_trans; [exact IH|].
    rewrite N.mul_assoc. apply N.mul_le_mono_r. lia.
Qed.

(** Bytes read as a number and written again are the bytes. *)
Lemma put_get b : Forall is_byte b → put_uint (length b) (get_uint b) = b.
Proof.
  unfold get_uint. intros Hb. assert (∀ acc, put_uint (length b) (get_uint_from acc b) = b) as H; [|apply H].
  induction Hb as [|x b Hx Hb IH]; intros acc; [done|]. cbn [get_uint_from length put_uint]. f_equal; [|apply IH].
  assert (∀ b acc, Forall is_byte b → get_uint_from acc b / 256 ^ N.of_nat (length b) = acc) as Hdiv.
  { clear. intros b. induction b as [|y b IH]; intros acc Hb; cbn [get_uint_from length].
    - cbn. by rewrite N.div_1_r.
    - apply Forall_cons in Hb as [Hy Hb]. unfold is_byte in Hy. rewrite Nat2N.inj_succ, N.pow_succ_r'.
      rewrite (N.mul_comm 256), <- N.Div0.div_div, IH by done. symmetry. apply (N.div_unique _ _ _ y); lia. }
  rewrite Hdiv by done. unfold is_byte in Hx. symmetry. apply (N.mod_unique _ _ acc); lia.
Qed.

(** ** UTF-8 *)

(** Code points of a string; a lone surrogate counts as U+FFFD. *)
Fixpoint points (s : jstring) : list N :=
  match s with
  | [] => []
  | c :: s' =>
      match s' with
      | d :: s'' =>
          if is_high c && is_low d then (65536 + (c - 55296) * 1024 + (d - 56320)) :: points s''
          else (if is_high c || is_low c then 65533 else c) :: points s'
      | [] => [if is_high c || is_low c then 65533 else c]
      end
  end.
Definition encode_point (c : N) : bytes :=
  if c <? 128 then [c]
  else if c <? 2048 then [192 + c / 64; 128 + c mod 64]
  else if c <? 65536 then [224 + c / 4096; 128 + c / 64 mod 64; 128 + c mod 64]
  else [240 + c / 262144; 128 + c / 4096 mod 64; 128 + c / 64 mod 64; 128 + c mod 64].
(** [TextEncoder.encode], [Buffer.from(s, "utf8")] *)
Definition utf8_encode (s : jstring) : bytes := concat (map encode_point (points s)).

Definition continues (b : N) : bool := (128 <=? b) && (b <? 192).
Definition surrogate (c : N) : bool := (55296 <=? c) && (c <? 57344).
Fixpoint decode_points (s : bytes) : option (list N) :=
  match s with
  | [] => Some []
  | b :: s1 =>
      if b <? 128 then cons b <$> decode_points s1
      else if b <? 192 then None
      else
        match s1 with
        | b1 :: s2 =>
            if negb (continues b1) then None
            else if b <? 224 then
              let c := (b - 192) * 64 + (b1 - 128) in
              if c <? 128 then None else cons c <$> decode_points s2
            else
              match s2 with
              | b2 :: s3 =>
                  if negb (continues b2) then None
                  else if b <? 240 then
                    let c := (b - 224) * 4096 + (b1 - 128) * 64 + (b2 - 128) in
                    if (c <? 2048) || surrogate c then None else cons c <$> decode_points s3
                  else
                    match s3 with
                    | b3 :: s4 =>
                        let c := (b - 240) * 262144 + (b1 - 128) * 4096 + (b2 - 128) * 64 + (b3 - 128) in
                        if negb (continues b3) || (248 <=? b) || (c <? 65536) || (1114112 <=? c) then None
                        else cons c <$> decode_points s4
                    | [] => None
                    end
              | [] => None
              end
        | [] => None
        end
  end.
Definition units_of (c : N) : jstring :=
  if c <? 65536 then [c] else [55296 + (c - 65536) / 1024; 56320 + (c - 65536) mod 1024].
(** A decoder drops a byte order mark at the start. *)
Definition without_mark (s : bytes) : bytes :=
  match s with
  | a :: b :: c :: r => if (a =? 239) && (b =? 187) && (c =? 191) then r else s
  | _ => s
  end.
(** [new TextDecoder("utf-8", { fatal: true }).decode(s)] *)
Definition utf8_decode (s : bytes) : option jstring :=
  (λ l, concat (map units_of l)) <$> decode_points (without_mark s).

(** ** Round trips *)
#[local] Ltac Zify.zify_post_hook ::= Z.div_mod_to_equations.

Lemma decode_encode_point c rest :
  c < 1114112 → surrogate c = false →
  decode_points (encode_point c ++ rest) = cons c <$> decode_points rest.
Proof.
  unfold surrogate. intros Hc Hs. unfold encode_point.
  destruct (N.ltb_spec c 128).
  { cbn [app decode_points]. by rewrite (proj2 (N.ltb_lt c 128)). }
  destruct (N.ltb_spec c 2048).
  { cbn [app decode_points].
    assert (192 + c / 64 <? 128 = false) as -> by lia. assert (192 + c / 64 <? 192 = false) as -> by lia.
    assert (continues (128 + c mod 64) = true) as -> by (unfold continues; lia). cbn [negb].
    assert (192 + c / 64 <? 224 = true) as -> by lia. cbv zeta.
    replace ((192 + c / 64 - 192) * 64 + (128 + c mod 64 - 128)) with c by lia.
    by assert (c <? 128 = false) as -> by lia. }
  destruct (N.ltb_spec c 65536).
  { cbn [app decode_points].
    assert (224 + c / 4096 <? 128 = false) as -> by lia. assert (224 + c / 4096 <? 192 = false) as -> by lia.
    assert (continues (128 + c / 64 mod 64) = true) as -> by (unfold continues; lia). cbn [negb].
    assert (224 + c / 4096 <? 224 = false) as -> by lia.
    assert (continues (128 + c mod 64) = true) as -> by (unfold continues; lia). cbn [negb].
    assert (224 + c / 4096 <? 240 = true) as -> by lia. cbv zeta.
    replace ((224 + c / 4096 - 224) * 4096 + (128 + c / 64 mod 64 - 128) * 64 + (128 + c mod 64 - 128)) with c by lia.
    unfold surrogate. rewrite Hs. by assert (c <? 2048 = false) as -> by lia. }
  cbn [app decode_points].
  assert (240 + c / 262144 <? 128 = false) as -> by lia. assert (240 + c / 262144 <? 192 = false) as -> by lia.
  assert (continues (128 + c / 4096 mod 64) = true) as -> by (unfold continues; lia). cbn [negb].
  assert (240 + c / 262144 <? 224 = false) as -> by lia.
  assert (continues (128 + c / 64 mod 64) = true) as -> by (unfold continues; lia). cbn [negb].
  assert (240 + c / 262144 <? 240 = false) as -> by lia. cbv zeta.
  assert (continues (128 + c mod 64) = true) as -> by (unfold continues; lia). cbn [negb orb].
  replace ((240 + c / 262144 - 240) * 262144 + (128 + c / 4096 mod 64 - 128) * 4096 +
           (128 + c / 64 mod 64 - 128) * 64 + (128 + c mod 64 - 128)) with c by lia.
  assert (248 <=? 240 + c / 262144 = false) as -> by lia. assert (c <? 65536 = false) as -> by lia.
  by assert (1114112 <=? c = false) as -> by lia.
Qed.

(** A string of UTF-16 units without lone surrogates. *)
Fixpoint well_formed (s : jstring) : bool :=
  match s with
  | [] => true
  | c :: s' =>
      match s' with
      | d :: s'' =>
          if is_high c && is_low d then well_formed s''
          else (c <? 65536) && negb (is_high c || is_low c) && well_formed s'
      | [] => (c <? 65536) && negb (is_high c || is_low c)
      end
  end.

Lemma points_spec s : well_formed s = true →
  Forall (λ c, c < 1114112 ∧ surrogate c = false) (points s) ∧ concat (map units_of (points s)) = s.
Proof.
  assert (∀ c, (c <? 65536) && negb (is_high c || is_low c) = true →
    (c < 1114112 ∧ surrogate c = false) ∧ is_high c || is_low c = false ∧ units_of c = [c]) as Hsingle.
  { intros c [Hc%N.ltb_lt Hs%negb_true_iff]%andb_true_iff. split; [|split; [done|]].
    - split; [lia|]. unfold surrogate, is_high, is_low in *. lia.
    - unfold units_of. by rewrite (proj2 (N.ltb_lt _ _) Hc). }
  induction (Nat.lt_wf_0_projected length s) as [s _ IH]. destruct s as [|c [|d s]]; intros Hw.
  - done.
  - cbn in Hw. destruct (Hsingle c Hw) as (? & Hs & Hu). cbn. rewrite Hs. cbn. rewrite Hu. split; [|done]. by constructor.
  - cbn [well_formed] in Hw. cbn [points]. destruct (is_high c && is_low d) eqn:E.
    + destruct (IH s ltac:(simpl; lia) Hw) as [Hf Hc]. apply andb_true_iff in E as [E1 E2]. unfold is_high, is_low in E1, E2.
      split.
      * constructor; [|done]. unfold surrogate. lia.
      * cbn [map concat]. rewrite Hc. unfold units_of.
        assert (65536 + (c - 55296) * 1024 + (d - 56320) <? 65536 = false) as -> by lia.
        replace (55296 + (65536 + (c - 55296) * 1024 + (d - 56320) - 65536) / 1024) with c by lia.
        replace (56320 + (65536 + (c - 55296) * 1024 + (d - 56320) - 65536) mod 1024) with d by lia. done.
    + apply andb_true_iff in Hw as [Hw1 Hw2]. destruct (Hsingle c Hw1) as (? & Hs & Hu). rewrite Hs.
      destruct (IH (d :: s) ltac:(simpl; lia) Hw2) as [Hf Hc]. split; [by constructor|].
      change (concat (map units_of (c :: points (d :: s))) = c :: d :: s). cbn [map concat]. by rewrite Hu, Hc.
Qed.

Lemma decode_encode_points l :
  Forall (λ c, c < 1114112 ∧ surrogate c = false) l → decode_points (concat (map encode_point l)) = Some l.
Proof.
  induction 1 as [|c l [Hc Hs] _ IH]; [done|]. cbn [map concat]. rewrite decode_encode_point by done. by rewrite IH.
Qed.

Lemma encode_no_mark s : head s ≠ Some 65279 → well_formed s = true → without_mark (utf8_encode s) = utf8_encode s.
Proof.
  intros Hh Hw. destruct (points_spec s Hw) as [Hf Hc]. unfold utf8_encode. destruct (points s) as [|c l] eqn:El; [done|].
  apply Forall_cons in Hf as [[Hc1 Hc2] _].
  assert (c ≠ 65279) as Hne.
  { intros ->. apply Hh. rewrite <- Hc. done. }
  cbn [map concat]. generalize (concat (map encode_point l)). intros rest. unfold encode_point.
  assert (∀ x y z r, x ≠ 239 ∨ y ≠ 187 ∨ z ≠ 191 → without_mark (x :: y :: z :: r) = x :: y :: z :: r) as Hno.
  { intros x y z r Hx. cbn. destruct (N.eqb_spec x 239), (N.eqb_spec y 187), (N.eqb_spec z 191); try done; lia. }
  destruct (N.ltb_spec c 128).
  { cbn [app]. destruct rest as [|y [|z r]]; try reflexivity. apply Hno. lia. }
  destruct (N.ltb_spec c 2048).
  { cbn [app]. destruct rest as [|z r]; try reflexivity. apply Hno. lia. }
  destruct (N.ltb_spec c 65536); cbn [app]; apply Hno; lia.
Qed.

(** What is encoded is decoded. *)
Theorem utf8_decode_encode s :
  well_formed s = true → head s ≠ Some 65279 → utf8_decode (utf8_encode s) = Some s.
Proof.
  intros Hw Hh. unfold utf8_decode. rewrite encode_no_mark by done. destruct (points_spec s Hw) as [Hf Hc].
  unfold utf8_encode. rewrite decode_encode_points by done. cbn. f_equal. exact Hc.
Qed.

Lemma points_cons c d s :
  points (c :: d :: s) =
  if is_high c && is_low d then (65536 + (c - 55296) * 1024 + (d - 56320)) :: points s
  else (if is_high c || is_low c then 65533 else c) :: points (d :: s).
Proof. done. Qed.
Lemma utf8_length_cons c d s :
  utf8_length (c :: d :: s) =
  (if is_high c && is_low d then 4 + utf8_length s
   else (if (c <? 128)%N then 1 else if (c <? 2048)%N then 2 else 3) + utf8_length (d :: s))%Z.
Proof. done. Qed.

(** [Buffer.byteLength] is the length of the encoding. *)
Lemma encode_length s : Forall (λ c, c < 65536) s → Z.of_nat (length (utf8_encode s)) = utf8_length s.
Proof.
  assert (∀ c, c < 65536 → Z.of_nat (length (encode_point (if is_high c || is_low c then 65533 else c))) =
    (if (c <? 128)%N then 1 else if (c <? 2048)%N then 2 else 3)%Z) as Hsingle.
  { intros c Hc. unfold is_high, is_low. destruct (_ || _) eqn:E.
    - cbn. destruct (N.ltb_spec c 128), (N.ltb_spec c 2048); lia.
    - unfold encode_point. destruct (N.ltb_spec c 128); [done|]. destruct (N.ltb_spec c 2048); [done|].
      by rewrite (proj2 (N.ltb_lt c 65536)). }
  unfold utf8_encode. induction (Nat.lt_wf_0_projected length s) as [s _ IH]. destruct s as [|c [|d s]]; intros Hs.
  - done.
  - apply Forall_cons in Hs as [Hc _]. cbn [points map concat utf8_length]. rewrite length_app, Nat2Z.inj_add, Hsingle by done.
    cbn. lia.
  - apply Forall_cons in Hs as [Hc Hs]. rewrite points_cons, utf8_length_cons. destruct (is_high c && is_low d) eqn:E.
    + apply Forall_cons in Hs as [Hd Hs]. cbn [map concat]. rewrite length_app, Nat2Z.inj_add, IH by (done || simpl; lia).
      f_equal. unfold encode_point, is_high, is_low in *.
      destruct (N.ltb_spec (65536 + (c - 55296) * 1024 + (d - 56320)) 128); [lia|].
      destruct (N.ltb_spec (65536 + (c - 55296) * 1024 + (d - 56320)) 2048); [lia|].
      destruct (N.ltb_spec (65536 + (c - 55296) * 1024 + (d - 56320)) 65536); [lia|]. done.
    + rewrite map_cons. cbn [concat]. rewrite length_app, Nat2Z.inj_add, Hsingle, IH by (done || simpl; lia). done.
Qed.

Lemma utf8_length_nonneg s : (0 <= utf8_length s)%Z.
Proof.
  induction (Nat.lt_wf_0_projected length s) as [s _ IH]. destruct s as [|c [|d s]]; [done|cbn; repeat case_match; lia|].
  rewrite utf8_length_cons. pose proof (IH s ltac:(simpl; lia)). pose proof (IH (d :: s) ltac:(simpl; lia)).
  repeat case_match; lia.
Qed.
