(* ===== verification/Wire.v ===== *)
(** * JSON as bytes

    [Buffer.from(JSON.stringify(v), "utf8")] and its reader, which the process
    frames and the worker protocol share: a value survives the way. *)

From S2P Require Import Prelude JsString Collections JsValue JsonText Canonical JsonParse Bytes.

Open Scope N_scope.

(** The strings of a value are of 16-bit units. *)
Definition units (s : jstring) : bool := forallb (λ c, c <? 65536) s.
Fixpoint json_units (j : json) : bool :=
  match j with
  | JStr s => units s
  | JArr items => forallb json_units items
  | JObj fields => forallb (λ f, units f.1 && json_units f.2) fields
  | _ => true
  end.

Lemma well_formed_cons c d s :
  well_formed (c :: d :: s) =
  if is_high c && is_low d then well_formed s
  else (c <? 65536) && negb (is_high c || is_low c) && well_formed (d :: s).
Proof. done. Qed.

Lemma well_formed_app a b : well_formed a = true → well_formed b = true → well_formed (a ++ b) = true.
Proof.
  intros Ha Hb. induction (Nat.lt_wf_0_projected length a) as [a _ IH]. destruct a as [|c [|d a]].
  - done.
  - cbn in Ha. cbn [app]. destruct b as [|e b]; [done|]. rewrite well_formed_cons.
    apply andb_true_iff in Ha as [Hc Hs]. rewrite Hc, Hs, Hb.
    apply negb_true_iff, orb_false_iff in Hs as [-> _]. done.
  - cbn [app]. rewrite well_formed_cons in *. destruct (is_high c && is_low d).
    + apply IH; [simpl; lia|done].
    + apply andb_true_iff in Ha as [-> Ha]. apply (IH (d :: a)); [simpl; lia|done].
Qed.

Lemma well_formed_plain s : Forall (λ c, c < 128) s → well_formed s = true.
Proof.
  induction 1 as [|c s Hc _ IH]; [done|]. apply (well_formed_app [c] s); [|done]. cbn. unfold is_high, is_low.
  apply andb_true_iff. split; [apply N.ltb_lt; lia|].
  rewrite negb_true_iff, orb_false_iff, !andb_false_iff, !N.leb_gt. lia.
Qed.

Lemma quote_unit_well_formed c : c < 65536 → well_formed (quote_unit c) = true.
Proof.
  intros Hc. unfold quote_unit.
  repeat match goal with |- context [if ?a =? ?b then _ else _] => destruct (N.eqb_spec a b); [by subst|] end.
  destruct ((c =? 34) || (c =? 92)) eqn:E1; [apply orb_true_iff in E1 as [->%N.eqb_eq| ->%N.eqb_eq]; done|].
  destruct ((c <? 32) || is_high c || is_low c) eqn:E2.
  - apply well_formed_plain. unfold escape, hex4. pose proof (N.mod_lt (c / 256) 16). pose proof (N.mod_lt (c / 16) 16).
    pose proof (N.mod_lt c 16). assert (c / 4096 < 16) by (apply N.Div0.div_lt_upper_bound; lia).
    repeat constructor; unfold hex_digit; case_match; lia.
  - cbn. apply orb_false_iff in E2 as [[_ E3]%orb_false_iff E4]. rewrite E3, E4.
    apply andb_true_iff. split; [by apply N.ltb_lt|done].
Qed.

Lemma quote_body_well_formed s : units s = true → well_formed (quote_body s) = true.
Proof.
  unfold units. induction (Nat.lt_wf_0_projected length s) as [s _ IH]. destruct s as [|c [|d s]]; intros Hu.
  - done.
  - cbn in Hu. apply andb_true_iff in Hu as [Hc%N.ltb_lt _]. by apply quote_unit_well_formed.
  - cbn in Hu. apply andb_true_iff in Hu as [Hc%N.ltb_lt Hu]. cbn [quote_body].
    destruct (is_high c && is_low d) eqn:E.
    + rewrite well_formed_cons, E. apply andb_true_iff in Hu as [_ Hu]. apply IH; [simpl; lia|done].
    + apply well_formed_app; [by apply quote_unit_well_formed|]. apply (IH (d :: s)); [simpl; lia|done].
Qed.

Lemma quote_well_formed s : units s = true → well_formed (quote s) = true.
Proof.
  intros Hs. apply (well_formed_app [34]); [done|]. apply well_formed_app; [by apply quote_body_well_formed|done].
Qed.

Lemma joinc_well_formed ws : Forall (λ w, well_formed w = true) ws → well_formed (joinc 44 ws) = true.
Proof.
  induction 1 as [|w ws Hw _ IH]; [done|]. rewrite joinc_cons. apply well_formed_app; [done|].
  destruct ws; [done|]. by apply (well_formed_app [44]).
Qed.

Section wire.
Context (number_text : jsnum → jstring) (number_of : jstring → jsnum).
Abbreviation print := (stringify number_text).

Definition json_bytes (j : json) : bytes := utf8_encode (print j).
Definition bytes_json (b : bytes) : option json := s ← utf8_decode b; JSON_parse number_of s.

Lemma print_well_formed j : number_text_ok number_text → data j → json_units j = true → well_formed (print j) = true.
Proof.
  intros Ht. induction (Nat.lt_wf_0_projected json_size j) as [j _ IH]. intros Hd Hu.
  destruct j as [|[]|n|s|items|fields]; cbn [stringify]; try done.
  - apply well_formed_plain. destruct (isFinite n) eqn:E.
    + eapply Forall_impl; [by apply (number_text_chars _ Ht)|]. intros c. unfold number_char, is_digit.
      intros [[[[[_ H%N.leb_le]%andb_true_iff|H%N.eqb_eq]%orb_true_iff|H%N.eqb_eq]%orb_true_iff|H%N.eqb_eq]%orb_true_iff
             |H%N.eqb_eq]%orb_true_iff; lia.
    + destruct n; try done; repeat constructor.
  - by apply quote_well_formed.
  - apply data_arr in Hd. rewrite Forall_forall in Hd. cbn in Hu. rewrite forallb_forall_in in Hu.
    apply (well_formed_app [91]); [done|]. apply well_formed_app; [|done]. apply joinc_well_formed, Forall_map, Forall_forall.
    intros x Hx. apply IH; [|by apply Hd|by apply Hu]. pose proof (sum_list_map_le json_size _ _ Hx). simpl. lia.
  - apply data_obj in Hd. rewrite Forall_forall in Hd. cbn in Hu. rewrite forallb_forall_in in Hu.
    apply (well_formed_app [123]); [done|]. apply well_formed_app; [|done]. rewrite own_order_map, map_map.
    apply joinc_well_formed, Forall_map, Forall_forall. intros f Hf. rewrite own_order_perm in Hf. cbn [fst snd].
    pose proof (Hu f Hf) as [Hk Hv]%andb_true_iff.
    apply well_formed_app; [by apply quote_well_formed|]. apply (well_formed_app [58]); [done|].
    apply IH; [|by apply Hd|done]. pose proof (sum_list_map_le (λ f, json_size f.2) _ _ Hf). simpl in *. lia.
Qed.

(** A value written as bytes is read back. *)
Lemma bytes_json_bytes j :
  number_codec number_text number_of → data j → keyed j = true → json_units j = true →
  bytes_json (json_bytes j) = Some (owned j).
Proof.
  intros Hn Hd Hk Hu. unfold bytes_json, json_bytes. destruct (print_head _ _ Hn j Hd) as (c & t & E & Hc).
  rewrite utf8_decode_encode.
  - cbn. by apply (JSON_parse_print _ _ Hn).
  - apply print_well_formed; [exact Hn|done|done].
  - rewrite E. cbn. intros [= ->].
    destruct j as [|[]|n|s|items|fields]; cbn in E; try done.
    destruct (isFinite n) eqn:En; [|by destruct Hd as [? Hd]; cbn in Hd; rewrite En in Hd].
    destruct (number_text_start _ Hn n En) as (c & u & Ec & Hs). rewrite Ec in E. by injection E as -> _.
Qed.
End wire.
