(* ===== verification/Framing.v ===== *)
(** * Process frames

    executor-node/src/process/framing.ts: a length of four bytes and the JSON of
    a value, cut in any way on the pipe between a host and its processes. What
    [JSON.stringify] makes of a value that is not JSON data is not modelled. *)

From S2P Require Import Prelude JsString Collections JsValue Identity JsonText Canonical JsonParse Bytes Wire.

Open Scope N_scope.

Definition PROCESS_EXECUTOR_MAX_FRAME_BYTES : N := 1048576.
Definition PROCESS_EXECUTOR_MAX_BUFFERED_BYTES : N := PROCESS_EXECUTOR_MAX_FRAME_BYTES + 4.
Definition PROCESS_EXECUTOR_MAX_FRAME_DEPTH : nat := 64.
Definition PROCESS_EXECUTOR_MAX_FRAME_NODES : N := 100000.

Definition size (b : bytes) : N := N.of_nat (length b).

(** ** Depth and nodes *)
Definition children (j : json) : list json :=
  match j with
  | JArr items => items
  | JObj fields => (own_order fields).*2
  | _ => []
  end.

(** The stack of values to visit, its top first. *)
Fixpoint complexity_loop (fuel : nat) (pending : list (json * nat)) (nodes : N) : result exn unit :=
  match fuel, pending with
  | _, [] => Ok tt
  | O, _ => Err PlainError
  | S fuel, (value, depth) :: rest =>
      let nodes := nodes + 1 in
      if (PROCESS_EXECUTOR_MAX_FRAME_NODES <? nodes) || (PROCESS_EXECUTOR_MAX_FRAME_DEPTH <? depth)%nat
      then Err (DiagnosticError "PROTOCOL_PROCESS_FRAME_COMPLEXITY_EXCEEDED")
      else complexity_loop fuel (rev (map (λ c, (c, S depth)) (children value)) ++ rest) nodes
  end.
Definition validateComplexity (value : json) : result exn unit :=
  complexity_loop (json_size value) [(value, O)] 0.

(** ** Frames *)
Section framing.
Context (number_text : jsnum → jstring) (number_of : jstring → jsnum).

Definition encodeProcessFrame (value : json) (oversizedCode : exn) : result exn bytes :=
  let payload := json_bytes number_text value in
  if (size payload =? 0) || (PROCESS_EXECUTOR_MAX_FRAME_BYTES <? size payload) then Err oversizedCode
  else Ok (put_uint 4 (size payload) ++ payload).

(** The header bytes so far, and the length and bytes so far of a payload. *)
Record ProcessFrameDecoder := { d_header : bytes; d_payload : option (N * bytes) }.
Definition new_decoder : ProcessFrameDecoder := {| d_header := []; d_payload := None |}.

(** A complete payload. *)
Definition decode_payload (payload : bytes) : result exn json :=
  text ← match utf8_decode payload with
         | Some t => Ok t | None => Err (DiagnosticError "PROTOCOL_PROCESS_FRAME_INVALID") end;
  value ← match JSON_parse number_of text with
          | Some v => Ok v | None => Err (DiagnosticError "PROTOCOL_PROCESS_FRAME_INVALID") end;
  _ ← validateComplexity value;
  Ok value.

Definition length_error : exn := DiagnosticError "PROTOCOL_PROCESS_FRAME_LENGTH_INVALID".

(** The loop of [push]: what is left of the chunk, the values so far. *)
Fixpoint push_loop (fuel : nat) (d : ProcessFrameDecoder) (input : bytes) (values : list json)
  : ProcessFrameDecoder * result exn (list json) :=
  match fuel, input with
  | _, [] => (d, Ok values)
  | O, _ => (d, Err PlainError)
  | S fuel, _ =>
      let filled (length : N) (got rest : bytes) :=
        let taken := take (N.to_nat (N.min (length - size got) (size rest))) rest in
        let rest := drop (N.to_nat (N.min (length - size got) (size rest))) rest in
        let got := got ++ taken in
        if size got <? length then push_loop fuel {| d_header := []; d_payload := Some (length, got) |} rest values
        else
          match decode_payload got with
          | Ok value => push_loop fuel new_decoder rest (values ++ [value])
          | Err e => (new_decoder, Err e)
          end in
      match d_payload d with
      | Some (length, got) => filled length got input
      | None =>
          let header := d_header d ++ take (4 - length (d_header d)) input in
          let rest := drop (4 - length (d_header d)) input in
          if (length header <? 4)%nat then push_loop fuel {| d_header := header; d_payload := None |} rest values
          else
            let length := get_uint header in
            if (length =? 0) || (PROCESS_EXECUTOR_MAX_FRAME_BYTES <? length) then (new_decoder, Err length_error)
            else filled length [] rest
      end
  end.
Definition push (d : ProcessFrameDecoder) (chunk : bytes) : ProcessFrameDecoder * result exn (list json) :=
  push_loop (length chunk) d chunk [].

Definition finish (d : ProcessFrameDecoder) : result exn unit :=
  throw_if (negb (bool_decide (d_header d = [])) || match d_payload d with Some _ => true | None => false end)
    (DiagnosticError "PROTOCOL_PROCESS_FRAME_TRUNCATED").

(** ** One byte at a time *)
Definition feed1 (d : ProcessFrameDecoder) (b : N) : ProcessFrameDecoder * result exn (option json) :=
  match d_payload d with
  | Some (length, got) =>
      let got := got ++ [b] in
      if size got <? length then ({| d_header := []; d_payload := Some (length, got) |}, Ok None)
      else (new_decoder, value ← decode_payload got; Ok (Some value))
  | None =>
      let header := d_header d ++ [b] in
      if (length header <? 4)%nat then ({| d_header := header; d_payload := None |}, Ok None)
      else
        let length := get_uint header in
        if (length =? 0) || (PROCESS_EXECUTOR_MAX_FRAME_BYTES <? length) then (new_decoder, Err length_error)
        else ({| d_header := []; d_payload := Some (length, []) |}, Ok None)
  end.
Fixpoint feed (d : ProcessFrameDecoder) (input : bytes) (values : list json)
  : ProcessFrameDecoder * result exn (list json) :=
  match input with
  | [] => (d, Ok values)
  | b :: rest =>
      match feed1 d b with
      | (d, Ok v) => feed d rest (values ++ match v with Some v => [v] | None => [] end)
      | (d, Err e) => (d, Err e)
      end
  end.

(** Successive chunks, up to the first error. *)
Fixpoint push_all (d : ProcessFrameDecoder) (chunks : list bytes) : ProcessFrameDecoder * result exn (list json) :=
  match chunks with
  | [] => (d, Ok [])
  | chunk :: rest =>
      match push d chunk with
      | (d, Ok values) =>
          match push_all d rest with
          | (d, Ok more) => (d, Ok (values ++ more))
          | (d, Err e) => (d, Err e)
          end
      | (d, Err e) => (d, Err e)
      end
  end.
End framing.

(** ** Complexity is nodes and depth *)
Fixpoint json_depth (j : json) : nat :=
  match j with
  | JArr items => foldr max O (map (λ c, S (json_depth c)) items)
  | JObj fields => foldr max O (map (λ f, S (json_depth f.2)) fields)
  | _ => O
  end.

Definition total (pending : list (json * nat)) : nat := sum_list (map (λ p, json_size p.1) pending).
Definition shallow (pending : list (json * nat)) : bool :=
  forallb (λ p, (p.2 + json_depth p.1 <=? PROCESS_EXECUTOR_MAX_FRAME_DEPTH)%nat) pending.

Lemma total_cons v d pending : total ((v, d) :: pending) = (json_size v + total pending)%nat.
Proof. done. Qed.
Lemma total_app a b : total (a ++ b) = (total a + total b)%nat.
Proof. unfold total. by rewrite map_app, sum_list_with_app. Qed.
Lemma total_rev a : total (rev a) = total a.
Proof. induction a as [|p a IH]; [done|]. cbn [rev]. rewrite total_app, IH. destruct p. rewrite total_cons. cbn. unfold total; simpl. lia. Qed.
Lemma shallow_app a b : shallow (a ++ b) = shallow a && shallow b.
Proof. unfold shallow. by rewrite forallb_app. Qed.
Lemma shallow_rev a : shallow (rev a) = shallow a.
Proof. induction a as [|p a IH]; [done|]. cbn [rev]. rewrite shallow_app, IH. cbn. rewrite andb_true_r. apply andb_comm. Qed.

Lemma max_permutation (a b : list nat) : a ≡ₚ b → foldr max O a = foldr max O b.
Proof. induction 1; cbn; lia. Qed.

Lemma total_children v d : json_size v = S (total (map (λ c, (c, d)) (children v))).
Proof.
  unfold total. destruct v as [| | | |items|fields]; cbn [children json_size]; try done; rewrite !map_map; [done|].
  f_equal. by rewrite own_order_perm.
Qed.

Lemma max_fold_le {A} (f : A → nat) l n : (foldr max O (map f l) <=? n)%nat = forallb (λ x, (f x <=? n)%nat) l.
Proof.
  induction l as [|x l IH]; [done|]. cbn. rewrite <- IH. apply eq_true_iff_eq. rewrite andb_true_iff, !Nat.leb_le. lia.
Qed.
Lemma shallow_children v d :
  (d + json_depth v <=? PROCESS_EXECUTOR_MAX_FRAME_DEPTH)%nat =
  (d <=? PROCESS_EXECUTOR_MAX_FRAME_DEPTH)%nat && shallow (map (λ c, (c, S d)) (children v)).
Proof.
  unfold shallow, PROCESS_EXECUTOR_MAX_FRAME_DEPTH. apply eq_true_iff_eq. rewrite andb_true_iff, !Nat.leb_le.
  assert (json_depth v = foldr max O (map (λ c, S (json_depth c)) (children v))) as ->.
  { destruct v as [| | | |items|fields]; try done. cbn [children json_depth]. rewrite map_map.
    apply max_permutation. by rewrite (own_order_perm fields). }
  generalize (children v). intros l. rewrite forallb_forall_in. split.
  - intros H. split; [lia|]. intros p (c & -> & Hc)%list_elem_of_fmap. cbn. apply Nat.leb_le.
    assert (S (json_depth c) ≤ foldr max O (map (λ c, S (json_depth c)) l))%nat; [|lia].
    clear H. induction Hc; cbn; lia.
  - intros [Hd H]. assert (foldr max O (map (λ c, S (json_depth c)) l) ≤ 64 - d)%nat; [|lia].
    apply Nat.leb_le. rewrite max_fold_le. apply forallb_forall_in. intros c Hc. apply Nat.leb_le.
    specialize (H (c, S d)). rewrite Nat.leb_le in H. cbn in H.
    assert (S d + json_depth c ≤ 64)%nat; [|lia]. apply H. apply list_elem_of_fmap. eauto.
Qed.

Lemma complexity_loop_spec fuel pending nodes :
  (total pending ≤ fuel)%nat → nodes <= PROCESS_EXECUTOR_MAX_FRAME_NODES →
  complexity_loop fuel pending nodes =
  throw_if (negb ((nodes + N.of_nat (total pending) <=? PROCESS_EXECUTOR_MAX_FRAME_NODES) && shallow pending))
    (DiagnosticError "PROTOCOL_PROCESS_FRAME_COMPLEXITY_EXCEEDED").
Proof.
  revert pending nodes. induction fuel as [|fuel IH]; intros [|[v d] rest] nodes Hf Hn.
  1, 3: cbn; rewrite N.add_0_r; apply N.leb_le in Hn as ->; done.
  - rewrite total_cons in Hf. pose proof (json_size_pos v). lia.
  - rewrite total_cons in *. cbn [complexity_loop]. rewrite (total_children v (S d)) in *.
    assert (shallow ((v, d) :: rest) =
      (d <=? PROCESS_EXECUTOR_MAX_FRAME_DEPTH)%nat && shallow (rev (map (λ c, (c, S d)) (children v)) ++ rest)) as ->.
    { rewrite shallow_app, shallow_rev, andb_assoc, <- shallow_children. done. }
    set (next := rev _ ++ rest). assert (total next = total (map (λ c, (c, S d)) (children v)) + total rest)%nat as Ht.
    { unfold next. by rewrite total_app, total_rev. }
    destruct (N.ltb_spec PROCESS_EXECUTOR_MAX_FRAME_NODES (nodes + 1)) as [H1|H1]; cbn [orb].
    + unfold throw_if. destruct (N.leb_spec (nodes + N.of_nat (S (total (map (λ c, (c, S d)) (children v))) + total rest))
        PROCESS_EXECUTOR_MAX_FRAME_NODES); [lia|done].
    + destruct (Nat.ltb_spec PROCESS_EXECUTOR_MAX_FRAME_DEPTH d) as [H2|H2].
      * apply Nat.leb_gt in H2 as ->. cbn [andb]. by rewrite andb_false_r.
      * apply Nat.leb_le in H2 as ->. cbn [andb]. rewrite IH by lia. rewrite Ht.
        do 4 f_equal. lia.
Qed.

Definition simple (v : json) : bool :=
  (N.of_nat (json_size v) <=? PROCESS_EXECUTOR_MAX_FRAME_NODES) && (json_depth v <=? PROCESS_EXECUTOR_MAX_FRAME_DEPTH)%nat.

Lemma validateComplexity_spec v :
  validateComplexity v = throw_if (negb (simple v)) (DiagnosticError "PROTOCOL_PROCESS_FRAME_COMPLEXITY_EXCEEDED").
Proof.
  unfold validateComplexity. rewrite complexity_loop_spec; unfold total, shallow, simple; simpl; [|lia|done].
  by rewrite andb_true_r, Nat.add_0_r.
Qed.

Lemma json_size_owned v : json_size (owned v) = json_size v.
Proof.
  induction (Nat.lt_wf_0_projected json_size v) as [v _ IH]. destruct v as [| | | |items|fields]; cbn [owned json_size]; try done.
  - rewrite map_map. f_equal. f_equal. apply map_ext_in. intros x Hx%list_elem_of_In. apply IH.
    pose proof (sum_list_map_le json_size _ _ Hx). simpl. lia.
  - rewrite own_order_perm, map_map. f_equal. f_equal. apply map_ext_in. intros f Hf%list_elem_of_In. apply IH.
    pose proof (sum_list_map_le (λ f, json_size f.2) _ _ Hf). simpl in *. lia.
Qed.
Lemma json_depth_owned v : json_depth (owned v) = json_depth v.
Proof.
  induction (Nat.lt_wf_0_projected json_size v) as [v _ IH]. destruct v as [| | | |items|fields]; cbn [owned json_depth]; try done.
  - rewrite map_map. f_equal. apply map_ext_in. intros x Hx%list_elem_of_In. f_equal. apply IH.
    pose proof (sum_list_map_le json_size _ _ Hx). simpl. lia.
  - rewrite (max_permutation _ (map (λ f, S (json_depth f.2)) (map (λ f, (f.1, owned f.2)) fields)))
      by (by rewrite own_order_perm).
    rewrite map_map. f_equal. apply map_ext_in. intros f Hf%list_elem_of_In. cbn. f_equal. apply IH.
    pose proof (sum_list_map_le (λ f, json_size f.2) _ _ Hf). simpl in *. lia.
Qed.
Lemma simple_owned v : simple (owned v) = simple v.
Proof. unfold simple. by rewrite json_size_owned, json_depth_owned. Qed.

(** ** Chunks do not matter *)
Lemma size_app a b : size (a ++ b) = size a + size b.
Proof. unfold size. rewrite length_app. lia. Qed.

(** What a decoder holds between two bytes. *)
Definition decoder_ok (d : ProcessFrameDecoder) : Prop :=
  match d_payload d with
  | None => (length (d_header d) < 4)%nat
  | Some (length, got) => d_header d = [] ∧ size got < length ∧ length <= PROCESS_EXECUTOR_MAX_FRAME_BYTES
  end.

Section chunks.
Context (number_of : jstring → jsnum).
Abbreviation feed := (feed number_of).
Abbreviation push := (push number_of).
Abbreviation push_all := (push_all number_of).

Lemma new_decoder_ok : decoder_ok new_decoder.
Proof. cbn. lia. Qed.

Lemma feed1_ok d b : decoder_ok d → decoder_ok (feed1 number_of d b).1.
Proof.
  unfold decoder_ok at 1, feed1. destruct d as [header [[len got]|]]; cbn [d_payload d_header].
  - intros (-> & Hg & Hl). destruct (N.ltb_spec (size (got ++ [b])) len); [done|apply new_decoder_ok].
  - intros Hh. destruct (Nat.ltb_spec (List.length (header ++ [b])) 4); [done|].
    destruct (N.eqb_spec (get_uint (header ++ [b])) 0); [apply new_decoder_ok|].
    destruct (N.ltb_spec PROCESS_EXECUTOR_MAX_FRAME_BYTES (get_uint (header ++ [b]))); [apply new_decoder_ok|].
    cbn. change (size []) with 0. split_and!; [done|lia|lia].
Qed.
Lemma feed_ok d input values : decoder_ok d → decoder_ok (feed d input values).1.
Proof.
  revert d values. induction input as [|b input IH]; intros d values Hd; [done|]. cbn [Framing.feed].
  pose proof (feed1_ok d b Hd). destruct (feed1 number_of d b) as [d' []]; [|done]. by apply IH.
Qed.

Lemma feed_app d a b values :
  feed d (a ++ b) values =
  match feed d a values with (d', Ok values') => feed d' b values' | (d', Err e) => (d', Err e) end.
Proof.
  revert d values. induction a as [|x a IH]; intros d values; [done|]. cbn [app Framing.feed].
  destruct (feed1 number_of d x) as [d' []]; [apply IH|done].
Qed.

Lemma feed_values d input values more :
  feed d input (more ++ values) =
  match feed d input values with (d', Ok values') => (d', Ok (more ++ values')) | (d', Err e) => (d', Err e) end.
Proof.
  revert d values. induction input as [|x input IH]; intros d values; [done|]. cbn [Framing.feed].
  destruct (feed1 number_of d x) as [d' []]; [|done]. by rewrite <- app_assoc, IH.
Qed.

(** The bytes of a header that is not complete. *)
Lemma feed_header header a values :
  (length (header ++ a) < 4)%nat →
  feed {| d_header := header; d_payload := None |} a values = ({| d_header := header ++ a; d_payload := None |}, Ok values).
Proof.
  revert header. induction a as [|b a IH]; intros header Hl; [by rewrite app_nil_r|].
  cbn [Framing.feed]. unfold feed1. cbn [d_payload d_header]. rewrite (cons_middle b), app_assoc in Hl.
  destruct (Nat.ltb_spec (length (header ++ [b])) 4).
  - rewrite app_nil_r, IH by done. by rewrite <- app_assoc.
  - rewrite length_app in Hl. lia.
Qed.
Lemma feed_header_last header a values :
  (length header < 4)%nat → length (header ++ a) = 4%nat →
  feed {| d_header := header; d_payload := None |} a values =
  let length := get_uint (header ++ a) in
  if (length =? 0) || (PROCESS_EXECUTOR_MAX_FRAME_BYTES <? length) then (new_decoder, Err length_error)
  else ({| d_header := []; d_payload := Some (length, []) |}, Ok values).
Proof.
  intros Hh Hl. destruct (exists_last (l := a)) as (a' & b & ->); [intros ->; rewrite app_nil_r in Hl; lia|].
  rewrite app_assoc in *. rewrite length_app in Hl. cbn in Hl.
  rewrite feed_app, feed_header by lia. cbn [Framing.feed]. unfold feed1. cbn [d_payload d_header].
  destruct (Nat.ltb_spec (length ((header ++ a') ++ [b])) 4); [rewrite !length_app in *; simpl in *; lia|].
  cbn zeta. destruct (_ || _); [done|]. by rewrite app_nil_r.
Qed.

(** The bytes of a payload. *)
Lemma feed_payload len got a values :
  size (got ++ a) < len →
  feed {| d_header := []; d_payload := Some (len, got) |} a values =
  ({| d_header := []; d_payload := Some (len, got ++ a) |}, Ok values).
Proof.
  revert got. induction a as [|b a IH]; intros got Hl; [by rewrite app_nil_r|].
  cbn [Framing.feed]. unfold feed1. cbn [d_payload]. rewrite (cons_middle b), app_assoc in Hl.
  destruct (N.ltb_spec (size (got ++ [b])) len).
  - rewrite app_nil_r, IH by done. by rewrite <- app_assoc.
  - rewrite size_app in Hl. lia.
Qed.
Lemma feed_payload_last len got a values :
  size got < len → size (got ++ a) = len →
  feed {| d_header := []; d_payload := Some (len, got) |} a values =
  (new_decoder, value ← decode_payload number_of (got ++ a); Ok (values ++ [value])).
Proof.
  intros Hg Hl. destruct (exists_last (l := a)) as (a' & b & ->); [intros ->; rewrite app_nil_r in Hl; lia|].
  rewrite app_assoc in *. assert (size (got ++ a') < len) by (rewrite size_app in Hl; change (size [b]) with 1 in Hl; lia).
  rewrite feed_app, feed_payload by done. cbn [Framing.feed]. unfold feed1. cbn [d_payload].
  destruct (N.ltb_spec (size ((got ++ a') ++ [b])) len); [lia|].
  by destruct (decode_payload number_of ((got ++ a') ++ [b])).
Qed.

Lemma take_min n (l : bytes) : take (N.to_nat (N.min n (size l))) l = take (N.to_nat n) l.
Proof.
  unfold size. destruct (N.min_spec n (N.of_nat (length l))) as [[? ->]|[? ->]]; [done|].
  rewrite Nat2N.id, firstn_all. by rewrite take_ge by lia.
Qed.
Lemma drop_min n (l : bytes) : drop (N.to_nat (N.min n (size l))) l = drop (N.to_nat n) l.
Proof.
  unfold size. destruct (N.min_spec n (N.of_nat (length l))) as [[? ->]|[? ->]]; [done|].
  rewrite Nat2N.id, skipn_all. by rewrite drop_ge by lia.
Qed.

(** A step of the loop on a payload with [got] in hand. *)
Lemma filled_feed fuel len got rest values :
  (∀ d input values, decoder_ok d → (length input ≤ fuel)%nat → push_loop number_of fuel d input values = feed d input values) →
  size got < len → len <= PROCESS_EXECUTOR_MAX_FRAME_BYTES → (length rest ≤ S fuel)%nat → (rest ≠ [] ∨ (length rest ≤ fuel)%nat) →
  (let taken := take (N.to_nat (N.min (len - size got) (size rest))) rest in
   let rest := drop (N.to_nat (N.min (len - size got) (size rest))) rest in
   let got := got ++ taken in
   if size got <? len then push_loop number_of fuel {| d_header := []; d_payload := Some (len, got) |} rest values
   else
     match decode_payload number_of got with
     | Ok value => push_loop number_of fuel new_decoder rest (values ++ [value])
     | Err e => (new_decoder, Err e)
     end) = feed {| d_header := []; d_payload := Some (len, got) |} rest values.
Proof.
  intros IH Hg Hl Hr Hne. cbn zeta. rewrite take_min, drop_min. set (n := N.to_nat (len - size got)).
  rewrite <- (take_drop n rest) at 5. rewrite feed_app.
  assert (length (drop n rest) ≤ fuel)%nat as Hd.
  { rewrite length_drop. destruct Hne as [Hne|]; [|lia]. destruct rest; [done|]. simpl in *. unfold n. lia. }
  destruct (N.ltb_spec (size (got ++ take n rest)) len) as [H|H].
  - rewrite feed_payload by done. apply IH; [|done]. split_and!; done.
  - assert (size (got ++ take n rest) = len) as E.
    { rewrite size_app in *. unfold size in *. rewrite length_take in *. unfold n in *. lia. }
    rewrite feed_payload_last by done. destruct (decode_payload number_of (got ++ take n rest)); [|done].
    apply IH; [apply new_decoder_ok|done].
Qed.

Lemma push_loop_feed fuel d input values :
  decoder_ok d → (length input ≤ fuel)%nat → push_loop number_of fuel d input values = feed d input values.
Proof.
  revert d input values. induction fuel as [|fuel IH]; intros d input values Hd Hf.
  { destruct input; [done|simpl in Hf; lia]. }
  destruct input as [|b input]; [done|]. cbn [push_loop]. assert (b :: input ≠ []) as Hne by done.
  revert Hne Hf. generalize (b :: input). clear b input. intros input Hne Hf.
  destruct d as [header [[len got]|]]; unfold decoder_ok in Hd; cbn [d_payload d_header] in *.
  - destruct Hd as (-> & Hg & Hl). apply filled_feed; eauto.
  - set (k := (4 - length header)%nat). transitivity (feed {| d_header := header; d_payload := None |} (take k input ++ drop k input) values); [|by rewrite take_drop].
    rewrite feed_app.
    assert (length (drop k input) ≤ fuel)%nat.
    { rewrite length_drop. destruct input; [done|]. simpl in *. unfold k. lia. }
    destruct (Nat.ltb_spec (length (header ++ take k input)) 4) as [H4|H4].
    + rewrite feed_header by done. apply IH; [done|done].
    + assert (length (header ++ take k input) = 4%nat) as E.
      { rewrite length_app, length_take in *. unfold k in *. lia. }
      rewrite feed_header_last by done. cbn zeta.
      destruct (N.eqb_spec (get_uint (header ++ take k input)) 0); [done|].
      destruct (N.ltb_spec PROCESS_EXECUTOR_MAX_FRAME_BYTES (get_uint (header ++ take k input))); [done|]. cbn [orb].
      apply filled_feed; [done|change (size []) with 0; lia|done|lia|by right].
Qed.

Lemma push_feed d chunk : decoder_ok d → push d chunk = feed d chunk [].
Proof. intros Hd. by apply push_loop_feed. Qed.

Lemma push_all_feed d chunks : decoder_ok d → push_all d chunks = feed d (concat chunks) [].
Proof.
  revert d. induction chunks as [|chunk chunks IH]; intros d Hd; [done|]. cbn [Framing.push_all concat].
  rewrite push_feed, feed_app by done. pose proof (feed_ok d chunk [] Hd) as Hd'.
  destruct (feed d chunk []) as [d' [values|e]]; [|done]. rewrite IH by done.
  pose proof (feed_values d' (concat chunks) [] values) as H. rewrite app_nil_r in H. rewrite H. by destruct (feed d' (concat chunks) []) as [? []].
Qed.
End chunks.

(** ** What a process reads is what the other one wrote *)
Section transfer.
Context (number_text : jsnum → jstring) (number_of : jstring → jsnum).

(** A value of JSON data and the frame [encodeProcessFrame] makes of it. The
    sender does not look at depth and nodes. *)
Definition sent (v : json) (frame : bytes) : Prop :=
  data v ∧ keyed v = true ∧ json_units v = true ∧
  ∃ code, encodeProcessFrame number_text v code = Ok frame.

Lemma sent_frame v frame : sent v frame →
  frame = put_uint 4 (size (json_bytes number_text v)) ++ json_bytes number_text v ∧
  0 < size (json_bytes number_text v) <= PROCESS_EXECUTOR_MAX_FRAME_BYTES.
Proof.
  intros (_ & _ & _ & code & E). unfold encodeProcessFrame in E.
  destruct (N.eqb_spec (size (json_bytes number_text v)) 0); [done|].
  destruct (N.ltb_spec PROCESS_EXECUTOR_MAX_FRAME_BYTES (size (json_bytes number_text v))); [done|].
  injection E as <-. split; [done|lia].
Qed.

(** What the receiver makes of it. *)
Definition received (v : json) : result exn json :=
  if simple v then Ok (owned v) else Err (DiagnosticError "PROTOCOL_PROCESS_FRAME_COMPLEXITY_EXCEEDED").

Lemma decode_sent v frame : number_codec number_text number_of → sent v frame →
  decode_payload number_of (json_bytes number_text v) = received v.
Proof.
  intros Hn (Hd & Hk & Hu & _). pose proof (bytes_json_bytes _ _ v Hn Hd Hk Hu) as H.
  unfold bytes_json in H. unfold decode_payload. destruct (utf8_decode (json_bytes number_text v)) as [t|]; [|done].
  cbn in H |- *. rewrite H. cbn. rewrite validateComplexity_spec, simple_owned. unfold received. by destruct (simple v).
Qed.

Lemma feed_frame v frame values : number_codec number_text number_of → sent v frame →
  feed number_of new_decoder frame values = (new_decoder, value ← received v; Ok (values ++ [value])).
Proof.
  intros Hn Hv. destruct (sent_frame v frame Hv) as [-> [H0 H1]]. rewrite feed_app.
  rewrite (feed_header_last number_of []) by (rewrite ?length_app, ?length_put_uint; simpl; lia).
  cbn [app]. rewrite get_put by (unfold PROCESS_EXECUTOR_MAX_FRAME_BYTES in H1; simpl; lia). cbn zeta.
  destruct (N.eqb_spec (size (json_bytes number_text v)) 0); [lia|].
  destruct (N.ltb_spec PROCESS_EXECUTOR_MAX_FRAME_BYTES (size (json_bytes number_text v))); [lia|]. cbn [orb].
  rewrite feed_payload_last by done. cbn [app]. by rewrite (decode_sent v _ Hn Hv).
Qed.

(** A frame cut short. *)
Lemma feed_part v frame part rest values : sent v frame → frame = part ++ rest → rest ≠ [] → part ≠ [] →
  ∃ d, feed number_of new_decoder part values = (d, Ok values) ∧ is_ok (finish d) = false.
Proof.
  intros Hv E Hr Hp. destruct (sent_frame v frame Hv) as [Ef [H0 H1]].
  set (payload := json_bytes number_text v) in *. clearbody payload. rewrite E in Ef. clear E Hv.
  destruct (decide (length part < 4)%nat) as [Hl|Hl].
  - rewrite (feed_header number_of []) by done. eexists. split; [done|]. unfold finish. cbn [app d_header].
    by rewrite bool_decide_false.
  - assert (∃ got, part = put_uint 4 (size payload) ++ got ∧ payload = got ++ rest) as (got & -> & Eg).
    { exists (drop 4 part). pose proof (f_equal (take 4) Ef) as Et. pose proof (f_equal (drop 4) Ef) as Ed.
      rewrite take_app_le in Et by lia. rewrite drop_app_le in Ed by lia.
      rewrite take_app_length' in Et by (by rewrite length_put_uint). rewrite drop_app_length' in Ed by (by rewrite length_put_uint).
      rewrite <- Et, take_drop. done. }
    rewrite feed_app. rewrite (feed_header_last number_of []) by (rewrite ?length_app, ?length_put_uint; simpl; lia).
    cbn [app]. rewrite get_put by (unfold PROCESS_EXECUTOR_MAX_FRAME_BYTES in H1; simpl; lia). cbn zeta.
    destruct (N.eqb_spec (size payload) 0); [lia|].
    destruct (N.ltb_spec PROCESS_EXECUTOR_MAX_FRAME_BYTES (size payload)); [lia|]. cbn [orb].
    rewrite feed_payload; [eexists; split; done|]. cbn [app]. rewrite Eg, size_app.
    destruct rest; [done|]. unfold size. simpl. lia.
Qed.

(** The bytes of a stream of frames that arrived: the frames of a prefix, and
    part of the next one. *)
Definition arrived (frames : list bytes) (input : bytes) (n : nat) (part : bytes) : Prop :=
  (n ≤ length frames)%nat ∧ input = concat (take n frames) ++ part ∧
  (part = [] ∨ ∃ frame rest, frames !! n = Some frame ∧ frame = part ++ rest ∧ rest ≠ []).

Lemma arrived_nil frames : arrived frames [] 0 [].
Proof. split_and!; [lia|done|by left]. Qed.
Lemma arrived_cons frame frames input n part :
  arrived frames input n part → arrived (frame :: frames) (frame ++ input) (S n) part.
Proof.
  intros (Hl & -> & Hp). split_and!; [cbn; lia|by cbn [take concat]; rewrite app_assoc|].
  destruct Hp as [->|(f & r & ?)]; [by left|right; by exists f, r].
Qed.

Lemma stream_arrived frames input rest :
  Forall (λ frame, frame ≠ []) frames → input ++ rest = concat frames →
  ∃ n part, arrived frames input n part ∧ (rest = [] → n = length frames ∧ part = []).
Proof.
  intros Hf. revert input. induction Hf as [|frame frames Hne Hf IH]; intros input E.
  { apply app_nil in E as [-> ->]. exists O, []. split; [apply arrived_nil|done]. }
  cbn [concat] in E. destruct (decide (length frame ≤ length input)%nat) as [Hl|Hl].
  - pose proof (f_equal (take (length frame)) E) as Et. pose proof (f_equal (drop (length frame)) E) as Ed.
    rewrite take_app_le, take_app_length in Et by done. rewrite drop_app_le, drop_app_length in Ed by done.
    destruct (IH _ Ed) as (n & part & Ha & Hr). exists (S n), part. split.
    + rewrite <- (take_drop (length frame) input), Et. by apply arrived_cons.
    + intros H. destruct (Hr H) as [-> ->]. done.
  - exists O, input. pose proof (f_equal (take (length input)) E) as Et. rewrite take_app_length, take_app_le in Et by lia.
    split; [split_and!; [lia|done|]|].
    + right. exists frame, (drop (length input) frame). split_and!; [done|by rewrite Et at 1; rewrite take_drop|].
      intros H. apply (f_equal length) in H. rewrite length_drop in H. simpl in H. lia.
    + intros ->. rewrite app_nil_r in E. rewrite E, length_app in Hl. lia.
Qed.

Lemma feed_frames vs frames values : number_codec number_text number_of → Forall2 sent vs frames →
  feed number_of new_decoder (concat frames) values =
  (new_decoder, if forallb simple vs then Ok (values ++ map owned vs)
                else Err (DiagnosticError "PROTOCOL_PROCESS_FRAME_COMPLEXITY_EXCEEDED")).
Proof.
  intros Hn Hvs. revert values. induction Hvs as [|v frame vs frames Hv Hvs IH]; intros values; [cbn; by rewrite app_nil_r|].
  cbn [concat forallb map]. rewrite feed_app, (feed_frame v frame) by done. unfold received.
  destruct (simple v); cbn; [|done]. by rewrite IH, <- app_assoc.
Qed.

(** C37. Whatever the pipe makes of the frames of a sender - cut anywhere,
    joined, ended early - let [n] of the frames have arrived whole. If all their
    values are within the limits of depth and nodes, which the sender does not
    check, the receiver's [push] calls yield these values, in order and once, and
    [finish] accepts the end exactly when it is the end of a frame; otherwise a
    [push] throws the error of a frame that is too complex. *)
Theorem frames_any_chunks vs frames chunks rest :
  number_codec number_text number_of → Forall2 sent vs frames → concat chunks ++ rest = concat frames →
  ∃ n part d r, push_all number_of new_decoder chunks = (d, r) ∧
    arrived frames (concat chunks) n part ∧ (rest = [] → n = length vs ∧ part = []) ∧
    if forallb simple (take n vs) then r = Ok (map owned (take n vs)) ∧ (finish d = Ok tt ↔ part = [])
    else r = Err (DiagnosticError "PROTOCOL_PROCESS_FRAME_COMPLEXITY_EXCEEDED").
Proof.
  intros Hn Hvs E. rewrite push_all_feed by apply new_decoder_ok.
  destruct (stream_arrived frames (concat chunks) rest) as (n & part & Ha & Hr); [|done|].
  { apply Forall_lookup. intros i f (v & _ & Hv)%(Forall2_lookup_r _ _ _ _ _ Hvs).
    destruct (sent_frame v f Hv) as [-> ?]. done. }
  destruct (feed number_of new_decoder (concat chunks) []) as [d r] eqn:Ef. exists n, part, d, r.
  split_and!; [done|done|by rewrite (Forall2_length _ _ _ Hvs)|]. revert Ef.
  destruct Ha as (_ & -> & Hp). rewrite feed_app, (feed_frames (take n vs)) by (done || by apply Forall2_take).
  destruct (forallb simple (take n vs)); [|by intros [= <- <-]]. cbn [app].
  destruct (decide (part = [])) as [->|Hne]; [by intros [= <- <-]|].
  destruct Hp as [->|(frame & cut & Hf & Ef & Hc)]; [done|].
  destruct (Forall2_lookup_r _ _ _ _ _ Hvs Hf) as (v & _ & Hv).
  destruct (feed_part v frame part cut (map owned (take n vs)) Hv Ef Hc Hne) as (d' & -> & Hd).
  intros [= <- <-]. split; [done|]. split; [intros Hok; by rewrite Hok in Hd|done].
Qed.

Lemma decode_simple payload v : decode_payload number_of payload = Ok v → simple v = true.
Proof.
  unfold decode_payload. intros (t & _ & (w & _ & H)%bind_ok)%bind_ok. revert H.
  rewrite validateComplexity_spec. destruct (simple w) eqn:E; cbn; [|done]. intros [= <-]. done.
Qed.

Lemma feed_simple d input values values' d' :
  forallb simple values = true → feed number_of d input values = (d', Ok values') → forallb simple values' = true.
Proof.
  revert d values. induction input as [|b input IH]; intros d values Hs; [by intros [= _ <-]|]. cbn [feed].
  destruct (feed1 number_of d b) as [d1 [o|]] eqn:E; [|done]. apply IH. rewrite forallb_app, Hs. cbn.
  destruct o as [v|]; [|done]. cbn. rewrite andb_true_r. unfold feed1 in E. destruct (d_payload d) as [[len got]|].
  - destruct (_ <? _); [done|]. destruct (decode_payload number_of (got ++ [b])) eqn:Ed; [|done].
    injection E as _ <-. by apply decode_simple in Ed.
  - destruct (_ <? _)%nat; [done|]. cbn zeta in E. by destruct (_ || _).
Qed.

(** Whatever bytes a process writes, its host holds at most one frame of
    them, and hands on no value of more nodes or depth than the limits. *)
Theorem frames_bounded chunks :
  let d := (push_all number_of new_decoder chunks).1 in
  size (d_header d) + match d_payload d with Some (length, _) => length | None => 0 end <= PROCESS_EXECUTOR_MAX_BUFFERED_BYTES ∧
  ∀ values v, (push_all number_of new_decoder chunks).2 = Ok values → v ∈ values →
    N.of_nat (json_size v) <= PROCESS_EXECUTOR_MAX_FRAME_NODES ∧ (json_depth v ≤ PROCESS_EXECUTOR_MAX_FRAME_DEPTH)%nat.
Proof.
  intros d. unfold d. rewrite push_all_feed by apply new_decoder_ok. clear d. split.
  - pose proof (feed_ok number_of new_decoder (concat chunks) [] new_decoder_ok) as H. unfold decoder_ok, size in *.
    unfold PROCESS_EXECUTOR_MAX_BUFFERED_BYTES. destruct (d_payload _) as [[len got]|]; [destruct H as (Eh & _ & H); rewrite Eh; simpl; lia|lia].
  - intros values v Hok Hv. destruct (feed number_of new_decoder (concat chunks) []) as [d' r] eqn:E. cbn in Hok. subst r.
    pose proof (feed_simple new_decoder _ [] _ _ eq_refl E) as Hs.
    rewrite forallb_forall_in in Hs. specialize (Hs v Hv). unfold simple in Hs.
    apply andb_true_iff in Hs as [?%N.leb_le ?%Nat.leb_le]. done.
Qed.
End transfer.

Section witness.
Abbreviation value := (JObj [(js "id", JStr (js "é€")); (js "retry", JArr [JBool true; JNull])]).
Abbreviation frame := (put_uint 4 (size (json_bytes plain_number value)) ++ json_bytes plain_number value).

(** 65 arrays, one in the other: a frame the sender makes and the receiver refuses. *)
Abbreviation deep := (Nat.iter 65 (λ v, JArr [v]) JNull).
Abbreviation deep_frame := (put_uint 4 (size (json_bytes plain_number deep)) ++ json_bytes plain_number deep).

Lemma value_sent : sent plain_number value frame.
Proof. split; [by eexists; vm_compute|]. do 2 (split; [by vm_compute|]). by exists PlainError; vm_compute. Qed.
Lemma deep_sent : sent plain_number deep deep_frame.
Proof. split; [by eexists; vm_compute|]. do 2 (split; [by vm_compute|]). by exists PlainError; vm_compute. Qed.

Lemma frames_any_chunks_witness :
  (∃ n part d r, push_all plain_read new_decoder [take 3 frame; []; drop 3 frame ++ take 9 frame] = (d, r) ∧
    arrived [frame; frame] (concat [take 3 frame; []; drop 3 frame ++ take 9 frame]) n part ∧
    (drop 9 frame = [] → n = length [value; value] ∧ part = []) ∧
    if forallb simple (take n [value; value])
    then r = Ok (map owned (take n [value; value])) ∧ (finish d = Ok tt ↔ part = [])
    else r = Err (DiagnosticError "PROTOCOL_PROCESS_FRAME_COMPLEXITY_EXCEEDED")) ∧
  (∃ n part d r, push_all plain_read new_decoder [frame ++ deep_frame] = (d, r) ∧
    arrived [frame; deep_frame] (concat [frame ++ deep_frame]) n part ∧ ([] = @nil N → n = length [value; deep] ∧ part = []) ∧
    if forallb simple (take n [value; deep])
    then r = Ok (map owned (take n [value; deep])) ∧ (finish d = Ok tt ↔ part = [])
    else r = Err (DiagnosticError "PROTOCOL_PROCESS_FRAME_COMPLEXITY_EXCEEDED")).
Proof.
  split.
  - apply (frames_any_chunks plain_number plain_read [value; value] [frame; frame] _ (drop 9 frame)).
    + apply plain_codec.
    + exact (List.Forall2_cons _ _ value_sent (List.Forall2_cons _ _ value_sent (List.Forall2_nil _))).
    + by vm_compute.
  - apply (frames_any_chunks plain_number plain_read [value; deep] [frame; deep_frame] _ []).
    + apply plain_codec.
    + exact (List.Forall2_cons _ _ value_sent (List.Forall2_cons _ _ deep_sent (List.Forall2_nil _))).
    + by vm_compute.
Defined.
End witness.
