(* ===== verification/Outbound.v ===== *)
(** * The outbound queue of a process

    executor-node/src/process/outbound-writer.ts: sends queue up behind the one
    write that is on its way. A call or the end of a write is one step: the code
    runs to its next [await] without interruption. The promises the steps settle
    are the outputs. *)

From S2P Require Import Prelude JsString Collections JsValue Identity JsonText Canonical JsonParse Bytes Wire Framing.

Open Scope Z_scope.

Definition PROCESS_OUTBOUND_MAX_QUEUED_FRAMES : Z := 64.
Definition PROCESS_OUTBOUND_MAX_QUEUED_BYTES : Z := Z.of_N PROCESS_EXECUTOR_MAX_FRAME_BYTES * 2.

Inductive ProcessOutboundPriority := Diagnostic | Required.

(** A send is named by its place among the calls. *)
Record PendingWrite := {
  pw_call : nat;
  pw_value : json;
  pw_retainedBytes : Z;
}.

Inductive outbound_output :=
| Settled (call : nat) (r : result exn unit)
| Writing (call : nat) (frame : bytes)
| Flushed (call : nat).

Record ProcessOutboundWriter := {
  ow_queue : list PendingWrite;
  ow_writing : option PendingWrite;
  ow_flushWaiters : list nat;
  ow_active : bool;
  ow_pendingCount : Z;
  ow_pendingBytes : Z;
  ow_droppedDiagnostics : Z;
}.
Definition new_writer : ProcessOutboundWriter := {|
  ow_queue := []; ow_writing := None; ow_flushWaiters := []; ow_active := false;
  ow_pendingCount := 0; ow_pendingBytes := 0; ow_droppedDiagnostics := 0 |}.

Definition queueCapacityError : exn := DiagnosticError "EXECUTOR_OUTPUT_QUEUE_CAPACITY_EXCEEDED".
Definition invalidFrameError : exn := DiagnosticError "PROTOCOL_PROCESS_FRAME_INVALID".

Section writer.
Context (number_text : jsnum → jstring) (number_of : jstring → jsnum).
Context (encode : json → result exn bytes).

Definition snapshot (value : json) : result exn (json * Z) :=
  let serialized := stringify number_text value in
  match JSON_parse number_of serialized with
  | Some (JObj fields) => Ok (JObj fields, utf8_length serialized)
  | _ => Err invalidFrameError
  end.

(** [pendingCount] and [pendingBytes] without a write. *)
Definition released (w : ProcessOutboundWriter) (p : PendingWrite) (queue : list PendingWrite) : ProcessOutboundWriter := {|
  ow_queue := queue; ow_writing := None; ow_flushWaiters := ow_flushWaiters w; ow_active := ow_active w;
  ow_pendingCount := ow_pendingCount w - 1; ow_pendingBytes := ow_pendingBytes w - pw_retainedBytes p;
  ow_droppedDiagnostics := ow_droppedDiagnostics w |}.

(** The loop of [drain] up to its next write; its [finally] when the queue is
    empty. The call that starts a loop again cannot be reached
    ([drain_restart]); the model stops there. *)
Fixpoint drain_loop (queue : list PendingWrite) (w : ProcessOutboundWriter) : ProcessOutboundWriter * list outbound_output :=
  match queue with
  | [] =>
      let w := {| ow_queue := []; ow_writing := None; ow_flushWaiters := ow_flushWaiters w; ow_active := false;
                  ow_pendingCount := ow_pendingCount w; ow_pendingBytes := ow_pendingBytes w;
                  ow_droppedDiagnostics := ow_droppedDiagnostics w |} in
      if ow_pendingCount w =? 0 then
        ({| ow_queue := []; ow_writing := None; ow_flushWaiters := []; ow_active := false;
            ow_pendingCount := 0; ow_pendingBytes := ow_pendingBytes w;
            ow_droppedDiagnostics := ow_droppedDiagnostics w |}, map Flushed (ow_flushWaiters w))
      else (w, [])
  | p :: queue =>
      match encode (pw_value p) with
      | Ok frame =>
          ({| ow_queue := queue; ow_writing := Some p; ow_flushWaiters := ow_flushWaiters w; ow_active := ow_active w;
              ow_pendingCount := ow_pendingCount w; ow_pendingBytes := ow_pendingBytes w;
              ow_droppedDiagnostics := ow_droppedDiagnostics w |}, [Writing (pw_call p) frame])
      | Err e =>
          let '(w, out) := drain_loop queue (released w p queue) in (w, Settled (pw_call p) (Err e) :: out)
      end
  end.
Definition drain (w : ProcessOutboundWriter) : ProcessOutboundWriter * list outbound_output := drain_loop (ow_queue w) w.

Definition start (w : ProcessOutboundWriter) : ProcessOutboundWriter * list outbound_output :=
  if ow_active w then (w, [])
  else drain {| ow_queue := ow_queue w; ow_writing := ow_writing w; ow_flushWaiters := ow_flushWaiters w; ow_active := true;
                ow_pendingCount := ow_pendingCount w; ow_pendingBytes := ow_pendingBytes w;
                ow_droppedDiagnostics := ow_droppedDiagnostics w |}.

Definition send (call : nat) (value : json) (priority : ProcessOutboundPriority) (w : ProcessOutboundWriter)
  : ProcessOutboundWriter * list outbound_output :=
  match snapshot value with
  | Err e => (w, [Settled call (Err e)])
  | Ok (value, retainedBytes) =>
      if (PROCESS_OUTBOUND_MAX_QUEUED_FRAMES <=? ow_pendingCount w) ||
         (PROCESS_OUTBOUND_MAX_QUEUED_BYTES - ow_pendingBytes w <? retainedBytes) then
        match priority with
        | Diagnostic =>
            ({| ow_queue := ow_queue w; ow_writing := ow_writing w; ow_flushWaiters := ow_flushWaiters w; ow_active := ow_active w;
                ow_pendingCount := ow_pendingCount w; ow_pendingBytes := ow_pendingBytes w;
                ow_droppedDiagnostics := ow_droppedDiagnostics w + 1 |}, [Settled call (Ok tt)])
        | Required => (w, [Settled call (Err queueCapacityError)])
        end
      else
        start {| ow_queue := ow_queue w ++ [{| pw_call := call; pw_value := value; pw_retainedBytes := retainedBytes |}];
                 ow_writing := ow_writing w; ow_flushWaiters := ow_flushWaiters w; ow_active := ow_active w;
                 ow_pendingCount := ow_pendingCount w + 1; ow_pendingBytes := ow_pendingBytes w + retainedBytes;
                 ow_droppedDiagnostics := ow_droppedDiagnostics w |}
  end.

Definition flush (call : nat) (w : ProcessOutboundWriter) : ProcessOutboundWriter * list outbound_output :=
  if ow_pendingCount w =? 0 then (w, [Flushed call])
  else ({| ow_queue := ow_queue w; ow_writing := ow_writing w; ow_flushWaiters := ow_flushWaiters w ++ [call];
           ow_active := ow_active w; ow_pendingCount := ow_pendingCount w; ow_pendingBytes := ow_pendingBytes w;
           ow_droppedDiagnostics := ow_droppedDiagnostics w |}, []).

(** The write that is on its way ends: [drain] goes on. *)
Definition written (r : result exn unit) (w : ProcessOutboundWriter) : ProcessOutboundWriter * list outbound_output :=
  match ow_writing w with
  | None => (w, [])
  | Some p => let '(w', out) := drain_loop (ow_queue w) (released w p (ow_queue w)) in (w', Settled (pw_call p) r :: out)
  end.

Inductive outbound_event :=
| Send (value : json) (priority : ProcessOutboundPriority)
| Flush
| Written (r : result exn unit).

(** The calls are counted to name them. *)
Definition outbound_step (s : ProcessOutboundWriter * nat) (e : outbound_event) : (ProcessOutboundWriter * nat) * list outbound_output :=
  let '(w, calls) := s in
  match e with
  | Send value priority => let '(w, out) := send calls value priority w in ((w, S calls), out)
  | Flush => let '(w, out) := flush calls w in ((w, S calls), out)
  | Written r => let '(w, out) := written r w in ((w, calls), out)
  end.
Fixpoint outbound_run (s : ProcessOutboundWriter * nat) (es : list outbound_event) : (ProcessOutboundWriter * nat) * list outbound_output :=
  match es with
  | [] => (s, [])
  | e :: es => let '(s, out) := outbound_step s e in let '(s, out') := outbound_run s es in (s, out ++ out')
  end.
End writer.

(** ** The log of a queue *)
Definition settles (o : outbound_output) : list nat :=
  match o with Settled c _ => [c] | Flushed c => [c] | Writing _ _ => [] end.
Definition settled (out : list outbound_output) : list nat := flat_map settles out.
Definition writes_of (o : outbound_output) : list nat := match o with Writing c _ => [c] | _ => [] end.
Definition writes (out : list outbound_output) : list nat := flat_map writes_of out.
Definition pending (w : ProcessOutboundWriter) : list PendingWrite := option_list (ow_writing w) ++ ow_queue w.
Definition is_call (e : outbound_event) : bool := match e with Written _ => false | _ => true end.
Definition calls_of (es : list outbound_event) : list outbound_event := List.filter is_call es.

Lemma settled_app a b : settled (a ++ b) = settled a ++ settled b.
Proof. apply flat_map_app. Qed.
Lemma writes_app a b : writes (a ++ b) = writes a ++ writes b.
Proof. apply flat_map_app. Qed.
Lemma settled_flushes l : settled (map Flushed l) = l.
Proof. induction l as [|x l IH]; [done|]. cbn. by f_equal. Qed.
Lemma writes_flushes l : writes (map Flushed l) = [].
Proof. by induction l. Qed.

Lemma outbound_sorted_app (a b : list nat) :
  StronglySorted lt (a ++ b) ↔ StronglySorted lt a ∧ StronglySorted lt b ∧ ∀ x y, x ∈ a → y ∈ b → (x < y)%nat.
Proof.
  induction a as [|x a IH]; cbn [app].
  - split; [intros H; split_and!; [constructor|done|]; by intros ?? ?%elem_of_nil|naive_solver].
  - split.
    + intros [Hs Hx]%StronglySorted_inv. apply IH in Hs as (Ha & Hb & Hab). apply Forall_app in Hx as [Hxa Hxb].
      rewrite Forall_forall in Hxb. split_and!; [by constructor|done|]. intros y z [->|Hy]%elem_of_cons Hz; eauto.
    + intros ([Ha Hx]%StronglySorted_inv & Hb & Hab). constructor.
      * apply IH. split_and!; [done..|]. intros y z ??. apply Hab; [by right|done].
      * apply Forall_app. split; [done|]. apply Forall_forall. intros y Hy. apply Hab; [left|done].
Qed.

Section laws.
Context (number_text : jsnum → jstring) (number_of : jstring → jsnum).
Context (encode : json → result exn bytes).
Abbreviation step := (outbound_step number_text number_of encode).
Abbreviation run := (outbound_run number_text number_of encode).
Abbreviation drain_loop := (drain_loop encode).

(** What the fields of a queue say of one another. *)
Record writer_ok (w : ProcessOutboundWriter) : Prop := {
  wk_count : ow_pendingCount w = Z.of_nat (length (pending w));
  wk_bytes : ow_pendingBytes w = foldr Z.add 0 (map pw_retainedBytes (pending w));
  wk_sizes : Forall (λ p, 0 <= pw_retainedBytes p) (pending w);
  wk_max_count : ow_pendingCount w <= PROCESS_OUTBOUND_MAX_QUEUED_FRAMES;
  wk_max_bytes : ow_pendingBytes w <= PROCESS_OUTBOUND_MAX_QUEUED_BYTES;
  wk_active : ow_active w = bool_decide (is_Some (ow_writing w));
  wk_idle : ow_writing w = None → ow_queue w = [] ∧ ow_flushWaiters w = [];
}.

(** The frame of a write is the one its call makes. *)
Definition from_call (log : list outbound_event) (c : nat) (value : json) : Prop :=
  ∃ v priority n, log !! c = Some (Send v priority) ∧ snapshot number_text number_of v = Ok (value, n).

(** A flush ends after every call before it. *)
Definition flush_last (out : list outbound_output) : Prop :=
  ∀ a f b, out = a ++ Flushed f :: b → ∀ c, (c < f)%nat → c ∈ settled a.

(** What the outputs so far and a queue say of the calls so far; [pend] is what
    waits behind the writes. *)
Record history (log : list outbound_event) (out : list outbound_output) (writing : option PendingWrite)
    (queue : list PendingWrite) (waiters : list nat) : Prop := {
  hi_once : settled out ++ map pw_call (option_list writing ++ queue) ++ waiters ≡ₚ seq 0 (length log);
  hi_order : StronglySorted lt (writes out ++ map pw_call queue);
  hi_from : ∀ p, p ∈ queue → from_call log (pw_call p) (pw_value p);
  hi_frames : ∀ c frame, Writing c frame ∈ out → ∃ value, from_call log c value ∧ encode value = Ok frame;
  hi_waiters : StronglySorted lt waiters;
  hi_flush : flush_last out;
}.

Lemma flush_last_snoc out o : flush_last out → match o with Flushed f => ∀ c, (c < f)%nat → c ∈ settled out | _ => True end →
  flush_last (out ++ [o]).
Proof.
  intros H Ho a f b E c Hc. destruct (decide (b = [])) as [->|Hb].
  - apply app_inj_tail in E as [-> ->]. by apply Ho.
  - destruct (exists_last Hb) as (b' & o' & ->). rewrite app_comm_cons, app_assoc in E.
    apply app_inj_tail in E as [-> _]. by apply (H a f b').
Qed.

Lemma flush_last_flushes out l : flush_last out → StronglySorted lt l →
  (∀ f c, f ∈ l → (c < f)%nat → c ∈ settled out ++ l) → flush_last (out ++ map Flushed l).
Proof.
  intros Hout Hl Hf. induction l as [|f l IH] using rev_ind; [by rewrite app_nil_r|].
  apply outbound_sorted_app in Hl as (Hl & _ & Hlast). rewrite map_app, app_assoc. apply flush_last_snoc.
  - apply IH; [done|]. intros g c Hg Hc. specialize (Hf g c ltac:(set_solver) Hc).
    apply elem_of_app in Hf as [?|[?|?%list_elem_of_singleton]%elem_of_app]; [set_solver..|]. subst.
    specialize (Hlast g f Hg ltac:(left)). lia.
  - intros c Hc. rewrite settled_app, settled_flushes. specialize (Hf f c ltac:(set_solver) Hc).
    apply elem_of_app in Hf as [?|[?|?%list_elem_of_singleton]%elem_of_app]; [set_solver..|]. lia.
Qed.

Lemma history_all log out waiters : history log out None [] waiters →
  ∀ c, (c < length log)%nat → c ∈ settled out ++ waiters.
Proof.
  intros H c Hc. pose proof (hi_once _ _ _ _ _ H) as E. cbn in E. rewrite E. apply elem_of_seq. lia.
Qed.

Lemma history_settle log out p queue waiters r :
  history log out (Some p) queue waiters → history log (out ++ [Settled (pw_call p) r]) None queue waiters.
Proof.
  intros [H1 H2 H3 H4 H5 H6]. split; [|by rewrite writes_app, app_nil_r|done| |done|by apply flush_last_snoc].
  - rewrite <- H1, settled_app. cbn. by rewrite <- app_assoc.
  - intros c frame [?|?%list_elem_of_singleton]%elem_of_app; [eauto|done].
Qed.

Lemma history_skip log out p queue waiters r :
  history log out None (p :: queue) waiters → history log (out ++ [Settled (pw_call p) r]) None queue waiters.
Proof.
  intros [H1 H2 H3 H4 H5 H6]. split; [| | | |done|by apply flush_last_snoc].
  - rewrite <- H1, settled_app. cbn. by rewrite <- app_assoc.
  - rewrite writes_app. cbn. rewrite app_nil_r. cbn in H2. apply outbound_sorted_app in H2 as (Ha & [Hb _]%StronglySorted_inv & Hab).
    apply outbound_sorted_app. split_and!; [done..|]. intros x y ??. apply Hab; [done|by right].
  - intros q Hq. apply H3. by right.
  - intros c frame [?|?%list_elem_of_singleton]%elem_of_app; [eauto|done].
Qed.

(** The loop keeps the log, up to the write it begins or the end of the queue. *)
Lemma drain_loop_history log queue : ∀ out w,
  history log out None queue (ow_flushWaiters w) →
  ow_pendingCount w = Z.of_nat (length queue) →
  let '(w', more) := drain_loop queue w in
  history log (out ++ more) (ow_writing w') (ow_queue w') (ow_flushWaiters w').
Proof.
  induction queue as [|p queue IH]; intros out w H Hc; cbn [Outbound.drain_loop].
  - cbn [ow_pendingCount ow_flushWaiters]. rewrite Hc. cbn.
    pose proof (history_all _ _ _ H) as Hall. destruct H as [H1 H2 H3 H4 H5 H6]. split; cbn [ow_writing ow_queue ow_flushWaiters].
    + rewrite settled_app, settled_flushes. cbn in H1 |- *. by rewrite app_nil_r.
    + by rewrite writes_app, writes_flushes, app_nil_r.
    + done.
    + intros c frame [?|(? & ? & ?)%list_elem_of_fmap]%elem_of_app; [eauto|done].
    + constructor.
    + apply flush_last_flushes; [done..|]. intros f c Hf Hlt. apply Hall.
      assert (f ∈ seq 0 (length log)) as Hs by (rewrite <- H1; set_solver). apply elem_of_seq in Hs. lia.
  - destruct (encode (pw_value p)) as [frame|e] eqn:E; cbn.
    + destruct H as [H1 H2 H3 H4 H5 H6]. split; [| | | |done|by apply flush_last_snoc].
      * rewrite settled_app. cbn. by rewrite app_nil_r.
      * rewrite writes_app, <- app_assoc. done.
      * intros q Hq. apply H3. by right.
      * intros c f [?|[= -> ->]%list_elem_of_singleton]%elem_of_app; [eauto|]. eexists. split; [apply H3; left|done].
    + specialize (IH (out ++ [Settled (pw_call p) (Err e)]) (released w p queue)).
      destruct (Outbound.drain_loop encode queue (released w p queue)) as [w' more]. rewrite <- app_assoc in IH.
      apply IH; [by apply history_skip|]. cbn in *. lia.
Qed.

Lemma drain_loop_ok queue : ∀ w, ow_active w = true →
  ow_pendingCount w = Z.of_nat (length queue) → ow_pendingBytes w = foldr Z.add 0 (map pw_retainedBytes queue) →
  Forall (λ p, 0 <= pw_retainedBytes p) queue →
  ow_pendingCount w <= PROCESS_OUTBOUND_MAX_QUEUED_FRAMES → ow_pendingBytes w <= PROCESS_OUTBOUND_MAX_QUEUED_BYTES →
  writer_ok (drain_loop queue w).1.
Proof.
  induction queue as [|p queue IH]; intros w Ha Hc Hb Hs Hmc Hmb; cbn [Outbound.drain_loop].
  - cbn [ow_pendingCount]. rewrite Hc. cbn in *. split; cbn; solve [done | lia | by intros].
  - apply Forall_cons in Hs as [Hp Hs]. cbn in Hc, Hb. destruct (encode (pw_value p)) as [frame|e]; cbn.
    + split; cbn; solve [done | lia | by constructor].
    + specialize (IH (released w p queue)). destruct (Outbound.drain_loop encode queue (released w p queue)) as [w' more].
      apply IH; cbn; try done; lia.
Qed.

(** The branch of [drain] that would start the loop again is not reached. *)
Lemma drain_restart w : writer_ok w → ow_queue w = [] → ∀ p, ow_writing w = Some p →
  ow_pendingCount (released w p (ow_queue w)) = 0.
Proof. intros H Hq p Hp. cbn. rewrite (wk_count _ H). unfold pending. rewrite Hp, Hq. done. Qed.

Lemma start_idle w : ow_writing w = None → ow_active w = false →
  start encode w = drain_loop (ow_queue w) {| ow_queue := ow_queue w; ow_writing := ow_writing w; ow_flushWaiters := ow_flushWaiters w; ow_active := true;
                ow_pendingCount := ow_pendingCount w; ow_pendingBytes := ow_pendingBytes w;
                ow_droppedDiagnostics := ow_droppedDiagnostics w |}.
Proof. intros Hw Ha. unfold start. by rewrite Ha. Qed.

Lemma snapshot_size v value n : snapshot number_text number_of v = Ok (value, n) → 0 <= n.
Proof.
  unfold snapshot. destruct (JSON_parse number_of (stringify number_text v)) as [[]|]; try done. intros [= _ <-].
  apply utf8_length_nonneg.
Qed.

(** ** The calls *)
Lemma from_call_snoc log e c value : from_call log c value → from_call (log ++ [e]) c value.
Proof. intros (v & p & n & Hc & H). exists v, p, n. split; [by apply lookup_app_l_Some|done]. Qed.
Lemma from_call_lt log c value : from_call log c value → (c < length log)%nat.
Proof. intros (v & p & n & Hc & _). by apply lookup_lt_Some in Hc. Qed.

Lemma history_lt log out w q ws : history log out w q ws →
  (∀ c, c ∈ writes out ++ map pw_call q → (c < length log)%nat) ∧ ∀ c, c ∈ ws → (c < length log)%nat.
Proof.
  intros H. split.
  - intros c [(o & Hc & Ho)%list_elem_of_In%in_flat_map|(p & -> & Hp)%list_elem_of_fmap]%elem_of_app.
    + destruct o as [|c' f|]; try done. apply list_elem_of_In in Hc. destruct Ho as [<-|[]]. by apply (hi_frames _ _ _ _ _ H) in Hc as (v & ?%from_call_lt & _).
    + apply (from_call_lt _ _ (pw_value p)). by apply (hi_from _ _ _ _ _ H).
  - intros c Hc. assert (c ∈ seq 0 (length log)) as Hs by (rewrite <- (hi_once _ _ _ _ _ H); set_solver).
    apply elem_of_seq in Hs. lia.
Qed.

Section call.
Context (log : list outbound_event) (out : list outbound_output) (w : option PendingWrite) (q : list PendingWrite) (ws : list nat).
Context (H : history log out w q ws) (e : outbound_event).
Abbreviation n := (length log).

Lemma history_now o : settles o = [n] → writes_of o = [] →
  (match o with Flushed _ => ws = [] ∧ q = [] ∧ w = None | _ => True end) → history (log ++ [e]) (out ++ [o]) w q ws.
Proof.
  intros Ho Hw Hf. destruct H as [H1 H2 H3 H4 H5 H6]. split; [| | | |done|].
  - rewrite length_app, seq_app, <- H1, settled_app. cbn. rewrite Ho. solve_Permutation.
  - rewrite writes_app. cbn. by rewrite Hw, !app_nil_r.
  - intros p Hp. by apply from_call_snoc, H3.
  - intros c f [Hc|Hc%list_elem_of_singleton]%elem_of_app; [|by subst o].
    destruct (H4 _ _ Hc) as (v & ? & ?). exists v. split; [by apply from_call_snoc|done].
  - apply flush_last_snoc; [done|]. destruct o as [| |f]; [done..|]. injection Ho as ->. destruct Hf as (-> & -> & ->). intros c Hc.
    apply (history_all log out []) in Hc; [|done]. by rewrite app_nil_r in Hc.
Qed.

Lemma history_queued v priority value size : e = Send v priority → snapshot number_text number_of v = Ok (value, size) →
  history (log ++ [e]) out w (q ++ [{| pw_call := n; pw_value := value; pw_retainedBytes := size |}]) ws.
Proof.
  intros He Hv. pose proof (history_lt _ _ _ _ _ H) as [Hlt _]. destruct H as [H1 H2 H3 H4 H5 H6]. split; [| | | |done|done].
  - rewrite length_app, seq_app, <- H1. rewrite !map_app. cbn. solve_Permutation.
  - rewrite map_app, app_assoc. apply outbound_sorted_app. split_and!; [done|by repeat constructor|]. cbn.
    intros x y Hx ->%list_elem_of_singleton. by apply Hlt.
  - intros p [Hp| ->%list_elem_of_singleton]%elem_of_app; [by apply from_call_snoc, H3|]. exists v, priority, size. split; [|done].
    subst e. cbn. by apply list_lookup_middle.
  - intros c f Hc. destruct (H4 _ _ Hc) as (u & ? & ?). exists u. split; [by apply from_call_snoc|done].
Qed.

Lemma history_waits : history (log ++ [e]) out w q (ws ++ [n]).
Proof.
  pose proof (history_lt _ _ _ _ _ H) as [_ Hlt]. destruct H as [H1 H2 H3 H4 H5 H6]. split; [|done| | | |done].
  - rewrite length_app, seq_app, <- H1, <- !app_assoc. done.
  - intros p Hp. by apply from_call_snoc, H3.
  - intros c f Hc. destruct (H4 _ _ Hc) as (u & ? & ?). exists u. split; [by apply from_call_snoc|done].
  - apply outbound_sorted_app. split_and!; [done|by repeat constructor|]. intros x y Hx ->%list_elem_of_singleton. by apply Hlt.
Qed.
End call.

Definition state_ok (log : list outbound_event) (out : list outbound_output) (s : ProcessOutboundWriter * nat) : Prop :=
  writer_ok s.1 ∧ s.2 = length log ∧ history log out (ow_writing s.1) (ow_queue s.1) (ow_flushWaiters s.1).

Lemma outbound_step_ok log out s e : state_ok log out s →
  state_ok (log ++ List.filter is_call [e]) (out ++ (step s e).2) (step s e).1.
Proof.
  destruct s as [w calls]. intros (Hok & Hn & H). cbn [fst snd] in *. subst calls. destruct e as [v priority| |r]; cbn [outbound_step List.filter is_call].
  - unfold send. destruct (snapshot number_text number_of v) as [[value size]|e] eqn:E.
    2:{ split_and!; [done|by rewrite length_app, Nat.add_comm|by apply history_now]. }
    destruct ((PROCESS_OUTBOUND_MAX_QUEUED_FRAMES <=? ow_pendingCount w) || _) eqn:Efull; [destruct priority|].
    + split_and!; [by destruct Hok|by rewrite length_app, Nat.add_comm|]. by apply history_now.
    + split_and!; [done|by rewrite length_app, Nat.add_comm|by apply history_now].
    + to_prop. pose proof (snapshot_size _ _ _ E) as Hsize. pose proof (history_queued _ _ _ _ _ H (Send v priority) _ _ _ _ eq_refl E) as Hq.
      destruct Hok as [Kc Kb Ks Kmc Kmb Ka Ki]. destruct (ow_writing w) as [p|] eqn:Ew.
      * unfold start. cbn [ow_active]. rewrite Ka. rewrite bool_decide_true by done. cbn [fst snd]. rewrite app_nil_r.
        split_and!; [|by rewrite length_app, Nat.add_comm|cbn; by rewrite ?Ew].
        unfold pending in *. rewrite ?Ew in *. cbn in Kc, Kb, Ks.
        split; cbn; unfold pending; cbn; rewrite ?Ew, ?map_app, ?length_app; cbn; try done; try lia.
        -- rewrite foldr_app. cbn. rewrite Kb. clear. generalize (map pw_retainedBytes (ow_queue w)). intros l. 
           assert (foldr Z.add (size + 0) l = foldr Z.add 0 l + size) as ->; [|lia]. induction l; cbn; lia.
        -- rewrite app_comm_cons. apply Forall_app. split; [done|by repeat constructor].
      * destruct (Ki eq_refl) as [Eq Ews]. unfold pending in *. rewrite Ew, Eq in *. cbn in Kc, Kb, Ks. cbn [app option_list] in *.
        rewrite start_idle by (cbn; by rewrite ?Ka). cbn [ow_queue].
        match goal with |- context [drain_loop ?q ?w0] =>
          pose proof (drain_loop_history (log ++ [Send v priority]) q out w0) as Hh; pose proof (drain_loop_ok q w0) as Ho;
          destruct (drain_loop q w0) as [w' more] end.
        cbn in Hh, Ho |- *. split_and!; [|by rewrite length_app, Nat.add_comm|].
        -- apply Ho; [done|lia|lia|by repeat constructor|lia|lia].
        -- apply Hh; [by rewrite Ews in *|lia].
  - unfold flush. destruct (Z.eqb_spec (ow_pendingCount w) 0) as [E|E].
    + split_and!; [done|by rewrite length_app, Nat.add_comm|]. apply history_now; [done..|].
      rewrite (wk_count _ Hok) in E. unfold pending in E. destruct (ow_writing w) eqn:Ew; [simpl in E; lia|].
      destruct (wk_idle _ Hok Ew) as [Eq Ews]. by cbn.
    + cbn. rewrite app_nil_r. split_and!; [|by rewrite length_app, Nat.add_comm|by apply history_waits].
      destruct Hok as [Kc Kb Ks Kmc Kmb Ka Ki]. split; try done. cbn. intros Ew. destruct (Ki Ew) as [Eq Ews]. rewrite Kc in E. unfold pending in E.
      rewrite Ew, Eq in E. done.
  - rewrite app_nil_r. unfold written. destruct (ow_writing w) as [p|] eqn:Ew; [|cbn; rewrite app_nil_r; split_and!; cbn; by rewrite ?Ew].
    apply (history_settle _ _ _ _ _ r) in H. destruct Hok as [Kc Kb Ks Kmc Kmb Ka Ki]. unfold pending in *. rewrite Ew in *. cbn in Kc, Kb, Ks.
    apply Forall_cons in Ks as [Kp Ks].
    pose proof (drain_loop_history log (ow_queue w) (out ++ [Settled (pw_call p) r]) (released w p (ow_queue w))) as Hh.
    pose proof (drain_loop_ok (ow_queue w) (released w p (ow_queue w))) as Ho.
    destruct (drain_loop (ow_queue w) (released w p (ow_queue w))) as [w' more]. rewrite <- app_assoc in Hh. cbn in Hh, Ho |- *.
    split_and!; [apply Ho|done|apply Hh]; try done; lia.
Qed.

Lemma outbound_run_ok es : ∀ log out s, state_ok log out s → state_ok (log ++ calls_of es) (out ++ (run s es).2) (run s es).1.
Proof.
  induction es as [|e es IH]; intros log out s H; cbn [outbound_run calls_of List.filter].
  - by rewrite !app_nil_r.
  - pose proof (outbound_step_ok _ _ _ e H) as H1. destruct (step s e) as [s1 o1]. cbn [fst snd] in H1.
    specialize (IH _ _ _ H1). destruct (run s1 es) as [s2 o2]. cbn [fst snd] in *. rewrite <- !app_assoc in IH.
    cbn [List.filter] in IH. unfold calls_of in *. destruct (is_call e); done.
Qed.

Lemma new_ok : state_ok [] [] (new_writer, O).
Proof.
  split_and!; [split; cbn; try done; by intros|done|]. split; cbn; try done; try constructor.
  - intros ? ?%elem_of_nil. done.
  - intros ? ? ?%elem_of_nil. done.
  - intros a f b E. by destruct a.
Qed.

Lemma drain_loop_length queue : ∀ w, (length (pending (drain_loop queue w).1) ≤ length queue)%nat.
Proof.
  induction queue as [|p queue IH]; intros w; cbn [Outbound.drain_loop].
  - by case_match.
  - destruct (encode (pw_value p)); [done|]. specialize (IH (released w p queue)).
    destruct (Outbound.drain_loop encode queue (released w p queue)) as [w' more]. cbn in *. lia.
Qed.

Lemma written_length r w : writer_ok w → (length (pending (written encode r w).1) ≤ Nat.pred (length (pending w)))%nat.
Proof.
  intros H. unfold written. destruct (ow_writing w) as [p|] eqn:E.
  - pose proof (drain_loop_length (ow_queue w) (released w p (ow_queue w))) as Hl.
    destruct (Outbound.drain_loop encode (ow_queue w) (released w p (ow_queue w))) as [w' more].
    unfold pending at 2. rewrite E. done.
  - destruct (wk_idle _ H E) as [Eq _]. unfold pending. cbn. by rewrite E, Eq.
Qed.

Lemma run_written rs : ∀ log out w calls, state_ok log out (w, calls) →
  (length (pending (run (w, calls) (map Written rs)).1.1) ≤ length (pending w) - length rs)%nat.
Proof.
  induction rs as [|r rs IH]; intros log out w calls H; cbn [map outbound_run]; [cbn; lia|].
  pose proof (outbound_step_ok _ _ _ (Written r) H) as H1. pose proof (written_length r w (proj1 H)) as Hl.
  cbn [outbound_step] in *. destruct (written encode r w) as [w1 o1]. cbn [fst snd] in *.
  specialize (IH _ _ _ _ H1). destruct (run (w1, calls) (map Written rs)) as [s2 o2]. cbn [fst] in *. cbn [length]. lia.
Qed.

Lemma outbound_run_app es es' s : run s (es ++ es') = let '(s1, o1) := run s es in let '(s2, o2) := run s1 es' in (s2, o1 ++ o2).
Proof.
  revert s. induction es as [|e es IH]; intros s; cbn [app outbound_run].
  - by destruct (run s es') as [? ?].
  - destruct (step s e) as [s1 o1]. rewrite IH. destruct (run s1 es) as [s2 o2]. destruct (run s2 es') as [s3 o3]. by rewrite app_assoc.
Qed.

(** ** What becomes of a send *)
(** Where the queue is after the events of a run, and what it has put out. *)
Definition writer_after (es : list outbound_event) : ProcessOutboundWriter := (run (new_writer, O) es).1.1.
Definition outputs_of (es : list outbound_event) : list outbound_output := (run (new_writer, O) es).2.

(** The capacity that the writes of a queue leave. *)
Definition full (w : ProcessOutboundWriter) (bytes : Z) : bool :=
  (PROCESS_OUTBOUND_MAX_QUEUED_FRAMES <=? Z.of_nat (length (pending w))) ||
  (PROCESS_OUTBOUND_MAX_QUEUED_BYTES - foldr Z.add 0 (map pw_retainedBytes (pending w)) <? bytes).

(** The queue took a send: its value is JSON data and it found room. *)
Definition accepted (es : list outbound_event) (c : nat) (value : json) (bytes : Z) : Prop :=
  ∃ a v priority b, es = a ++ Send v priority :: b ∧ c = length (calls_of a) ∧
    snapshot number_text number_of v = Ok (value, bytes) ∧ full (writer_after a) bytes = false.

(** The write of a call went out and ended, with [r]. *)
Definition written_with (es : list outbound_event) (c : nat) (frame : bytes) (r : result exn unit) : Prop :=
  ∃ a b, es = a ++ Written r :: b ∧ pw_call <$> ow_writing (writer_after a) = Some c ∧ Writing c frame ∈ outputs_of a.

(** What a send is settled with: the error of its value; its fate at a queue
    without room; the error of its frame; or what its write ended with. *)
Definition outcome (es : list outbound_event) (c : nat) (r : result exn unit) : Prop :=
  ∃ a v priority b, es = a ++ Send v priority :: b ∧ c = length (calls_of a) ∧
    match snapshot number_text number_of v with
    | Err e => r = Err e
    | Ok (value, bytes) =>
        if full (writer_after a) bytes then
          r = match priority with Diagnostic => Ok tt | Required => Err queueCapacityError end
        else match encode value with Err e => r = Err e | Ok frame => written_with es c frame r end
    end.

(** When a write goes out, the ones before it are settled. *)
Definition one_at_a_time (out : list outbound_output) : Prop :=
  ∀ a c frame b, out = a ++ Writing c frame :: b → ∀ c' frame', Writing c' frame' ∈ a → ∃ r, Settled c' r ∈ a.

Lemma outputs_snoc es e : outputs_of (es ++ [e]) = outputs_of es ++ (step (run (new_writer, O) es).1 e).2.
Proof.
  unfold outputs_of. rewrite outbound_run_app. destruct (run (new_writer, O) es) as [s out]. cbn [fst snd outbound_run].
  destruct (step s e). cbn. by rewrite app_nil_r.
Qed.
Lemma after_snoc es e : (run (new_writer, O) (es ++ [e])).1 = (step (run (new_writer, O) es).1 e).1.
Proof.
  rewrite outbound_run_app. destruct (run (new_writer, O) es) as [s out]. cbn [fst outbound_run]. by destruct (step s e).
Qed.
Lemma after_ok es : state_ok (calls_of es) (outputs_of es) (run (new_writer, O) es).1.
Proof. exact (outbound_run_ok es [] [] _ new_ok). Qed.

Lemma full_spec w bytes : writer_ok w →
  full w bytes = (PROCESS_OUTBOUND_MAX_QUEUED_FRAMES <=? ow_pendingCount w) ||
                 (PROCESS_OUTBOUND_MAX_QUEUED_BYTES - ow_pendingBytes w <? bytes).
Proof. intros H. unfold full. by rewrite (wk_count _ H), (wk_bytes _ H). Qed.

Lemma accepted_snoc es e c value bytes : accepted es c value bytes → accepted (es ++ [e]) c value bytes.
Proof.
  intros (a & v & pr & b & -> & H). exists a, v, pr, (b ++ [e]). split; [by rewrite <- app_assoc|done].
Qed.
Lemma outcome_snoc es e c r : outcome es c r → outcome (es ++ [e]) c r.
Proof.
  intros (a & v & pr & b & -> & Hc & H). exists a, v, pr, (b ++ [e]). split_and!; [by rewrite <- app_assoc|done|].
  destruct (snapshot _ _ v) as [[value bytes]|]; [|done]. destruct (full _ _); [done|]. destruct (encode value); [|done].
  destruct H as (a' & b' & -> & H). exists a', (b' ++ [e]). split; [by rewrite <- app_assoc|done].
Qed.

Lemma accepted_failed es c value bytes e : accepted es c value bytes → encode value = Err e → outcome es c (Err e).
Proof. intros (a & v & pr & b & E & Hc & Hs & Hf) He. exists a, v, pr, b. by rewrite Hs, Hf, He. Qed.
Lemma accepted_written es c value bytes frame r :
  accepted es c value bytes → encode value = Ok frame → written_with es c frame r → outcome es c r.
Proof. intros (a & v & pr & b & E & Hc & Hs & Hf) He H. exists a, v, pr, b. by rewrite Hs, Hf, He. Qed.

(** The books of a run: what is on its way and behind it was accepted, what is
    settled has its outcome, and a write goes out when the ones before are
    settled. *)
Record books (es : list outbound_event) (out : list outbound_output) (writing : option PendingWrite)
    (queue : list PendingWrite) : Prop := {
  bk_pending : ∀ p, p ∈ option_list writing ++ queue → accepted es (pw_call p) (pw_value p) (pw_retainedBytes p);
  bk_writing : ∀ p, writing = Some p → ∃ frame, encode (pw_value p) = Ok frame ∧ Writing (pw_call p) frame ∈ out;
  bk_settled : ∀ c r, Settled c r ∈ out → outcome es c r;
  bk_writes : ∀ c frame, Writing c frame ∈ out → (∃ r, Settled c r ∈ out) ∨ pw_call <$> writing = Some c;
  bk_single : one_at_a_time out;
}.

Lemma one_snoc out o : one_at_a_time out →
  match o with Writing _ _ => ∀ c frame, Writing c frame ∈ out → ∃ r, Settled c r ∈ out | _ => True end →
  one_at_a_time (out ++ [o]).
Proof.
  intros H Ho a c frame b E. destruct (decide (b = [])) as [->|Hb].
  - apply app_inj_tail in E as [-> ->]. done.
  - destruct (exists_last Hb) as (b' & o' & ->). rewrite app_comm_cons, app_assoc in E.
    apply app_inj_tail in E as [-> _]. by apply (H a c frame b').
Qed.
Lemma one_flushes out l : one_at_a_time out → one_at_a_time (out ++ map Flushed l).
Proof.
  intros H. induction l as [|f l IH] using rev_ind; [by rewrite app_nil_r|]. rewrite map_app, app_assoc. by apply one_snoc.
Qed.

Lemma books_snoc es e out writing queue : books es out writing queue → books (es ++ [e]) out writing queue.
Proof.
  intros [H1 H2 H3 H4 H5]. split; [|done| |done|done].
  - intros p Hp. by apply accepted_snoc, H1.
  - intros c r Hc. by apply outcome_snoc, H3.
Qed.
Lemma books_settled es out writing queue c r :
  books es out writing queue → outcome es c r → books es (out ++ [Settled c r]) writing queue.
Proof.
  intros [H1 H2 H3 H4 H5] Ho. split; [done| | | |by apply one_snoc].
  - intros p Hp. destruct (H2 p Hp) as (frame & ? & ?). exists frame. set_solver.
  - intros c' r' [?|[= -> ->]%list_elem_of_singleton]%elem_of_app; [by apply H3|done].
  - intros c' frame [Hc| ?%list_elem_of_singleton]%elem_of_app; [|done].
    destruct (H4 _ _ Hc) as [[r' ?]|?]; [left; exists r'; set_solver|by right].
Qed.
Lemma books_ended es out p queue r :
  books es out (Some p) queue → Settled (pw_call p) r ∈ out → books es out None queue.
Proof.
  intros [H1 H2 H3 H4 H5] Hp. split; [|done|done| |done].
  - intros q Hq. apply H1. cbn. by right.
  - intros c frame Hc. left. destruct (H4 _ _ Hc) as [?|[= <-]]; [done|by exists r].
Qed.

Lemma drain_loop_books es queue : ∀ out w,
  books es out None queue → let '(w', more) := drain_loop queue w in books es (out ++ more) (ow_writing w') (ow_queue w').
Proof.
  induction queue as [|p queue IH]; intros out w H; cbn [Outbound.drain_loop].
  - destruct (_ =? 0); cbn [ow_writing ow_queue]; [|by rewrite app_nil_r].
    destruct H as [H1 H2 H3 H4 H5]. split; [done|done| | |by apply one_flushes].
    + intros c r [?|(? & ? & ?)%list_elem_of_fmap]%elem_of_app; [by apply H3|done].
    + intros c frame [Hc|(? & ? & ?)%list_elem_of_fmap]%elem_of_app; [|done].
      destruct (H4 _ _ Hc) as [[r ?]|?]; [left; exists r; set_solver|done].
  - pose proof (bk_pending _ _ _ _ H p ltac:(left)) as Hp. destruct (encode (pw_value p)) as [frame|e] eqn:Ee.
    + cbn [ow_writing ow_queue]. destruct H as [H1 H2 H3 H4 H5]. split.
      * done.
      * intros q [= ->]. exists frame. set_solver.
      * intros c r [?|?%list_elem_of_singleton]%elem_of_app; [by apply H3|done].
      * intros c f [Hc|[= -> ->]%list_elem_of_singleton]%elem_of_app; [|by right].
        destruct (H4 _ _ Hc) as [[r ?]|?]; [left; exists r; set_solver|done].
      * apply one_snoc; [done|]. intros c f Hc. destruct (H4 _ _ Hc) as [?|?]; done.
    + assert (books es out None queue) as H' by (destruct H as [H1 H2 H3 H4 H5]; split; [intros q Hq; apply H1; by right|done..]).
      apply (books_settled _ _ _ _ (pw_call p) (Err e)) in H'; [|by eapply accepted_failed].
      specialize (IH _ (released w p queue) H').
      destruct (Outbound.drain_loop encode queue (released w p queue)) as [w' more]. by rewrite <- app_assoc in IH.
Qed.

Lemma books_flushed es out writing queue f : books es out writing queue → books es (out ++ [Flushed f]) writing queue.
Proof.
  intros [H1 H2 H3 H4 H5]. split; [done| | | |by apply one_snoc].
  - intros p Hp. destruct (H2 p Hp) as (frame & ? & ?). exists frame. set_solver.
  - intros c r [?|?%list_elem_of_singleton]%elem_of_app; [by apply H3|done].
  - intros c frame [Hc|?%list_elem_of_singleton]%elem_of_app; [|done].
    destruct (H4 _ _ Hc) as [[r ?]|?]; [left; exists r; set_solver|by right].
Qed.

Abbreviation books_of es :=
  (books es (outputs_of es) (ow_writing (writer_after es)) (ow_queue (writer_after es))).

Lemma send_books es v priority : books_of es → books_of (es ++ [Send v priority]).
Proof.
  intros H. unfold writer_after in *. rewrite outputs_snoc, after_snoc. pose proof (after_ok es) as (Hok & Hn & _).
  apply (books_snoc _ (Send v priority)) in H.
  assert (∀ c r, c = length (calls_of es) →
    match snapshot number_text number_of v with
    | Err e => r = Err e
    | Ok (value, bytes) => full (writer_after es) bytes = true ∧ r = match priority with Diagnostic => Ok tt | Required => Err queueCapacityError end
    end → outcome (es ++ [Send v priority]) c r) as Hnow.
  { intros c r -> Hr. exists es, v, priority, []. split_and!; [done..|].
    destruct (snapshot _ _ v) as [[value bytes]|]; [|done]. by destruct Hr as [-> ->]. }
  assert (∀ value bytes, snapshot number_text number_of v = Ok (value, bytes) → full (writer_after es) bytes = false →
    accepted (es ++ [Send v priority]) (length (calls_of es)) value bytes) as Hacc.
  { intros value bytes ??. by exists es, v, priority, []. }
  unfold writer_after in Hnow, Hacc. destruct (run (new_writer, O) es) as [[w calls] out]. cbn [fst snd] in *. subst calls.
  cbn [outbound_step]. unfold send. destruct (snapshot number_text number_of v) as [[value bytes]|e].
  2:{ cbn. apply books_settled; [done|]. by apply Hnow. }
  specialize (Hacc _ _ eq_refl). rewrite full_spec in Hacc by done.
  assert (full w bytes = _) as Hfull by (by apply full_spec). rewrite Hfull in Hnow. clear Hfull.
  destruct (_ || _); [destruct priority; cbn; (apply books_settled; [by destruct H|by apply Hnow])|].
  specialize (Hacc eq_refl). clear Hnow. unfold start. cbn [ow_active].
  assert (books (es ++ [Send v priority]) (outputs_of es) (ow_writing w)
    (ow_queue w ++ [{| pw_call := length (calls_of es); pw_value := value; pw_retainedBytes := bytes |}])) as H'.
  { destruct H as [H1 H2 H3 H4 H5]. split; [|done..]. intros p. rewrite app_assoc.
    intros [?| ->%list_elem_of_singleton]%elem_of_app; [by apply H1|done]. }
  pose proof (wk_active _ Hok) as Ka. destruct (ow_active w).
  - cbn. by rewrite app_nil_r.
  - symmetry in Ka. apply bool_decide_eq_false in Ka. destruct (ow_writing w) as [p|] eqn:Ew; [by destruct Ka|].
    unfold drain. cbn [ow_queue ow_writing]. match goal with |- context [drain_loop ?q ?w0] =>
      pose proof (drain_loop_books _ q _ w0 H') as Hd; destruct (drain_loop q w0) as [w' more] end. done.
Qed.

Lemma flush_books es : books_of es → books_of (es ++ [Flush]).
Proof.
  intros H. unfold writer_after in *. rewrite outputs_snoc, after_snoc. apply (books_snoc _ Flush) in H.
  destruct (run (new_writer, O) es) as [[w calls] out]. cbn [outbound_step fst snd] in *. unfold flush.
  destruct (_ =? 0); cbn; [by apply books_flushed|by rewrite app_nil_r].
Qed.

Lemma written_books es r : books_of es → books_of (es ++ [Written r]).
Proof.
  intros H. pose proof (bk_writing _ _ _ _ H) as Hw. pose proof (bk_pending _ _ _ _ H) as Hp.
  apply (books_snoc _ (Written r)) in H.
  assert (∀ p, ow_writing (writer_after es) = Some p → outcome (es ++ [Written r]) (pw_call p) r) as Ho.
  { intros p Ep. destruct (Hw p Ep) as (frame & Ef & Hf). eapply accepted_written; [|done|].
    - apply accepted_snoc, Hp. rewrite Ep. left.
    - exists es, []. by rewrite Ep. }
  clear Hw Hp. unfold writer_after in *. rewrite outputs_snoc, after_snoc.
  destruct (run (new_writer, O) es) as [[w calls] out]. cbn [outbound_step fst snd] in *. unfold written.
  destruct (ow_writing w) as [p|] eqn:Ew; [|cbn; by rewrite app_nil_r, ?Ew].
  apply (books_settled _ _ _ _ (pw_call p) r) in H; [|by apply Ho].
  apply (books_ended _ _ _ _ r) in H; [|set_solver].
  pose proof (drain_loop_books _ (ow_queue w) _ (released w p (ow_queue w)) H) as Hd.
  destruct (drain_loop (ow_queue w) (released w p (ow_queue w))) as [w' more]. by rewrite <- app_assoc in Hd.
Qed.

Lemma run_books es : books_of es.
Proof.
  induction es as [|e es IH] using rev_ind.
  - split; cbn; [by intros p ?%elem_of_nil|done|by intros c r ?%elem_of_nil|by intros c f ?%elem_of_nil|].
    intros a c f b E. by destruct a.
  - destruct e; [by apply send_books|by apply flush_books|by apply written_books].
Qed.

(** C38. However sends, flushes and the ends of writes follow one another, every
    promise is settled once or still waits; a frame goes out only when the write
    before it is settled, in the order of the calls, and is the one the call
    makes; a send is settled with the error of its value or of its frame, with
    what a queue without room answers, or, when it was accepted, with what the
    write of its frame ended with; and a flush ends after every call before
    it. *)
Theorem outbound_in_order es :
  let w := writer_after es in let out := outputs_of es in
  settled out ++ map pw_call (pending w) ++ ow_flushWaiters w ≡ₚ seq 0 (length (calls_of es)) ∧
  StronglySorted lt (writes out) ∧ one_at_a_time out ∧
  (∀ c frame, Writing c frame ∈ out → ∃ value, from_call (calls_of es) c value ∧ encode value = Ok frame) ∧
  (∀ c r, Settled c r ∈ out → outcome es c r) ∧
  (∀ p, p ∈ pending w → accepted es (pw_call p) (pw_value p) (pw_retainedBytes p)) ∧
  flush_last out.
Proof.
  pose proof (run_books es) as [H1 _ H3 _ H5]. destruct (after_ok es) as (_ & _ & [K1 K2 _ K4 _ K6]).
  apply outbound_sorted_app in K2 as (K2 & _). cbn zeta. split_and!; done.
Qed.

(** No order of events makes the queue hold more than 64 frames or two
    frames' worth of bytes, and when 64 writes have ended since, whether they
    failed or not, every promise is settled. *)
Theorem outbound_bounded es rs :
  let '((w, _), out) := run (new_writer, O) es in
  Z.of_nat (length (pending w)) <= PROCESS_OUTBOUND_MAX_QUEUED_FRAMES ∧
  foldr Z.add 0 (map pw_retainedBytes (pending w)) <= PROCESS_OUTBOUND_MAX_QUEUED_BYTES ∧
  (PROCESS_OUTBOUND_MAX_QUEUED_FRAMES <= Z.of_nat (length rs) →
    settled (run (new_writer, O) (es ++ map Written rs)).2 ≡ₚ seq 0 (length (calls_of es))).
Proof.
  pose proof (outbound_run_ok es _ _ _ new_ok) as H. rewrite outbound_run_app. destruct (run (new_writer, O) es) as [[w calls] out].
  cbn [fst snd app] in H. pose proof H as (Hok & _ & _). cbn [fst] in Hok. rewrite <- (wk_bytes _ Hok), <- (wk_count _ Hok).
  split_and!; [apply Hok..|]. intros Hrs. pose proof (run_written rs _ _ _ _ H) as Hl. pose proof (outbound_run_ok (map Written rs) _ _ _ H) as H'.
  destruct (run (w, calls) (map Written rs)) as [[w' calls'] out']. cbn [fst snd] in *. destruct H' as (Hok' & _ & Hh).
  cbn [fst snd] in *. pose proof (wk_max_count _ Hok) as Hm. rewrite (wk_count _ Hok) in Hm.
  assert (pending w' = []) as Hp by (apply length_zero_iff_nil; lia).
  assert (ow_writing w' = None) as Ew by (unfold pending in Hp; by destruct (ow_writing w')).
  destruct (wk_idle _ Hok' Ew) as [Eq Ews]. pose proof (hi_once _ _ _ _ _ Hh) as Ho. rewrite Ew, Eq, Ews in Ho. cbn in Ho.
  rewrite app_nil_r in Ho. rewrite Ho. f_equiv. rewrite length_app. unfold calls_of at 2.
  assert (List.filter is_call (map Written rs) = []) as ->; [|simpl; lia]. clear. by induction rs.
Qed.
End laws.
