(* ===== verification/StateStore.v ===== *)
(** * The in-memory state store

    drivers-local/src/memory-state-store.ts, with the contract of
    contracts/src/state.ts: versioned records, optimistic transactions, the
    operation journal, the outbox with its claims, fencing, watches.

    A [Revision] and a [FencingEpoch] are canonical decimal numerals, given here
    by their values (two canonical numerals are equal when their values are).
    [serializedKey], the JSON text of the three parts of a key, determines the
    key ([stringify_strings_inj]), so the maps it indexes are indexed by the key.
    Stored values are copies and copies of copies are the same
    ([serialize_wire]): only the first copy of a value appears. *)

From S2P Require Import Prelude JsString Collections Regex JsValue JsonText Time Identity.

Open Scope Z_scope.

(** ** Data *)
Record StateKey := { namespace : jstring; collection : jstring; id : jstring }.
#[export] Instance StateKey_eq_dec : EqDecision StateKey.
Proof. solve_decision. Defined.
#[export] Instance StateKey_countable : Countable StateKey.
Proof.
  by apply (inj_countable' (λ k, (namespace k, collection k, id k))
    (λ k, {| namespace := k.1.1; collection := k.1.2; id := k.2 |})); intros [].
Defined.

Inductive StateErrorCode :=
| STATE_CLOSED
| STATE_DATA_INVALID
| STATE_FENCE_STALE
| STATE_IDEMPOTENCY_CONFLICT
| STATE_QUERY_INVALID
| STATE_REVISION_CONFLICT
| PROTOCOL_WIRE_VALUE_INVALID  (** thrown by [serializeWireValue] *)
| DATE_RANGE_ERROR             (** thrown by [toISOString] *)
| WORK_FAILED.                 (** whatever the work of a transaction throws *)
#[export] Instance StateErrorCode_eq_dec : EqDecision StateErrorCode.
Proof. solve_decision. Defined.
Abbreviation checked := (result StateErrorCode).

Inductive ExpectedRevision := AnyRevision | Absent | At (revision : Z).

Record Versioned := { v_value : json; v_revision : Z }.
Record StoredRecord := { r_key : StateKey; r_value : json; r_revision : Z }.
(** [ScannedState] has the fields of a stored record. *)
Abbreviation ScannedState := StoredRecord.

Record StateQuery := {
  q_namespace : jstring;
  q_collection : jstring;
  q_idPrefix : option jstring;
  q_afterId : option jstring;
  q_limit : option jsnum;
}.

Inductive Mutation :=
| PutMutation (key : StateKey) (value : json) (expected : ExpectedRevision)
| DeleteMutation (key : StateKey) (expected : ExpectedRevision).
Definition m_key (m : Mutation) : StateKey :=
  match m with PutMutation k _ _ => k | DeleteMutation k _ => k end.
Definition m_expected (m : Mutation) : ExpectedRevision :=
  match m with PutMutation _ _ e => e | DeleteMutation _ e => e end.

Inductive operation_status := OpCompleted | OpExecuting | OpFailed | OpPlanned.
Record OperationJournalEntry := {
  o_operationId : jstring;
  o_kind : jstring;
  o_status : operation_status;
  o_state : json;
  o_updatedAt : jstring;
}.
Record PersistedOperationJournalEntry := { p_entry : OperationJournalEntry; p_revision : Z }.

Record OutboxMessage := {
  messageId : jstring;
  operationId : jstring;
  topic : jstring;
  payload : json;
  createdAt : jstring;
  availableAt : jstring;
}.
Record OutboxClaim := {
  c_message : OutboxMessage;
  c_owner : jstring;
  c_claimEpoch : Z;
  c_attempt : Z;
  c_claimedAt : jstring;
  c_expiresAt : jstring;
}.
Inductive OutboxAcknowledgementOutcome := Completed | Retry.
#[export] Instance outcome_eq_dec : EqDecision OutboxAcknowledgementOutcome.
Proof. solve_decision. Defined.
Record OutboxAcknowledgement := {
  a_messageId : jstring;
  a_outcome : OutboxAcknowledgementOutcome;
  a_attempt : Z;
  a_acknowledgedAt : jstring;
  a_duplicate : bool;
  a_retryAt : option jstring;
}.
Record StoredOutboxMessage := {
  s_message : OutboxMessage;
  s_enqueueSequence : Z;
  s_attempt : Z;
  s_claim : option OutboxClaim;
  s_acknowledgement : option OutboxAcknowledgement;
  s_acknowledgedClaim : option OutboxClaim;
}.

Record StateFencing := { resource : jstring; epoch : Z }.
Record StateTransactionOptions := {
  t_fencing : option StateFencing;
  t_idempotencyKey : option jstring;
  t_idempotencyFingerprint : option jstring;
}.
Record OutboxClaimRequest := {
  cr_owner : jstring;
  cr_leaseDurationMs : jsnum;
  cr_limit : option jsnum;
  cr_topic : option jstring;
  cr_fencing : option StateFencing;
}.
Record OutboxAcknowledgementRequest := {
  ar_messageId : jstring;
  ar_owner : jstring;
  ar_claimEpoch : Z;
  ar_outcome : OutboxAcknowledgementOutcome;
  ar_retryAt : option jstring;
  ar_fencing : option StateFencing;
}.

Record IdempotencyIdentity := { i_key : jstring; i_fingerprint : jstring }.
Record IdempotencyRecord := { ir_fingerprint : jstring; ir_result : json }.

(** A change: [None] is a delete. *)
Record StateChange := { ch_revision : Z; ch_key : StateKey; ch_value : option json }.

Record OperationJournalCursor := { cu_revision : Z; cu_operationId : jstring }.
Record OperationJournalQuery := {
  jq_after : option OperationJournalCursor;
  jq_limit : option jsnum;
}.

(** ** Checks of the inputs *)
Definition STATE_QUERY_MAX_LIMIT : Z := 100.
Definition OUTBOX_TOPIC_MAX_LENGTH : nat := 128.
Definition OUTBOX_PAYLOAD_MAX_BYTES : Z := 1048576.

(** [value !== undefined && bad(value)] *)
Definition given {A} (bad : A → bool) (value : option A) : bool :=
  match value with Some v => bad v | None => false end.

(** A number that is not an integer of the range. *)
Definition out_of_range (low high : Z) (n : jsnum) : bool :=
  match safe_integer n with Some z => (z <? low) || (high <? z) | None => true end.

Definition assertStateQuery (query : StateQuery) : checked unit :=
  throw_if
    (negb (isPortableStateString (q_namespace query)) ||
     negb (isPortableStateString (q_collection query)) ||
     given (λ s, negb (isPortableStateString s)) (q_idPrefix query) ||
     given (λ s, negb (isPortableStateString s)) (q_afterId query) ||
     given (out_of_range 1 STATE_QUERY_MAX_LIMIT) (q_limit query))
    STATE_QUERY_INVALID.

Definition assertStateKey (key : StateKey) (write : bool) : checked unit :=
  if isPortableStateString (namespace key) && isPortableStateString (collection key) &&
     isPortableStateString (id key)
  then Ok tt else Err (if write then STATE_DATA_INVALID else STATE_QUERY_INVALID).

(** "[A-Za-z0-9][A-Za-z0-9._-]{0,127}" and the same without its bound. *)
Definition token_char (c : N) : bool := is_alnum c || (c =? 46)%N || (c =? 95)%N || (c =? 45)%N.
Definition TOKEN_PATTERN : regex := RSeq (RCls is_alnum) (rupto (RCls token_char) 127).
Definition TOPIC_PATTERN : regex := RSeq (RCls is_alnum) (RStar (RCls token_char)).

Definition assertOutboxClaimRequest (request : OutboxClaimRequest) : checked Z :=
  throw_if
    (negb (re_test TOKEN_PATTERN (cr_owner request)) ||
     given (λ t, negb (re_test TOKEN_PATTERN t)) (cr_topic request) ||
     out_of_range 1 86400000 (cr_leaseDurationMs request) ||
     given (out_of_range 1 100) (cr_limit request))
    STATE_QUERY_INVALID;;
  Ok (default 1 (n ← cr_limit request; safe_integer n)).

Definition assertOutboxAcknowledgementRequest (request : OutboxAcknowledgementRequest) : checked unit :=
  throw_if
    (negb (re_test TOKEN_PATTERN (ar_owner request)) ||
     match ar_outcome request with
     | Retry => match ar_retryAt request with Some t => negb (validTimestamp t) | None => true end
     | Completed => match ar_retryAt request with Some _ => true | None => false end
     end)
    STATE_QUERY_INVALID.

Definition idempotencyIdentity (options : StateTransactionOptions)
  : checked (option IdempotencyIdentity) :=
  match t_idempotencyKey options, t_idempotencyFingerprint options with
  | None, None => Ok None
  | Some key, Some fingerprint =>
      throw_if ((length key =? 0)%nat || (length fingerprint =? 0)%nat) STATE_IDEMPOTENCY_CONFLICT;;
      Ok (Some {| i_key := key; i_fingerprint := fingerprint |})
  | _, _ => Err STATE_IDEMPOTENCY_CONFLICT
  end.

Definition matchesExpectedRevision (record : option StoredRecord) (expected : ExpectedRevision) : bool :=
  match expected with
  | AnyRevision => true
  | Absent => match record with None => true | Some _ => false end
  | At revision => match record with Some r => r_revision r =? revision | None => false end
  end.

(** ** Order of keys and cursors *)
Definition compareKeys (left right : StateKey) : Z :=
  or_else (or_else (compareText (namespace left) (namespace right))
                   (compareText (collection left) (collection right)))
          (compareText (id left) (id right)).

Definition compareOperationJournalCursors (left right : OperationJournalCursor) : Z :=
  let revisionOrder :=
    if cu_revision left <? cu_revision right then -1
    else if cu_revision right <? cu_revision left then 1 else 0 in
  if negb (revisionOrder =? 0) then revisionOrder
  else if str_ltb (cu_operationId left) (cu_operationId right) then -1
  else if str_ltb (cu_operationId right) (cu_operationId left) then 1 else 0.
Definition cursor_of (e : PersistedOperationJournalEntry) : OperationJournalCursor :=
  {| cu_revision := p_revision e; cu_operationId := o_operationId (p_entry e) |}.

(** ** A transaction: a snapshot and what it stages *)
Record MemoryTransaction := {
  tx_snapshot : gmap StateKey StoredRecord;
  tx_mutations : gmap StateKey Mutation;
  tx_operations : list OperationJournalEntry;
  tx_operationIds : list jstring;
  tx_outbox : list OutboxMessage;
  tx_active : bool;
}.
Definition new_transaction (snapshot : gmap StateKey StoredRecord) : MemoryTransaction :=
  {| tx_snapshot := snapshot; tx_mutations := ∅; tx_operations := []; tx_operationIds := [];
     tx_outbox := []; tx_active := true |}.

Definition assertActive (tx : MemoryTransaction) : checked unit :=
  throw_if (negb (tx_active tx)) STATE_CLOSED.
Definition copy (value : json) : checked json :=
  match serialize value with Some v => Ok v | None => Err PROTOCOL_WIRE_VALUE_INVALID end.

Definition zeroRevision : Z := 0.
Definition snapshot_revision (tx : MemoryTransaction) (key : StateKey) : Z :=
  match tx_snapshot tx !! key with Some r => r_revision r | None => zeroRevision end.

Definition tx_get (tx : MemoryTransaction) (key : StateKey) : checked (option Versioned) :=
  assertActive tx;;
  assertStateKey key false;;
  Ok match tx_mutations tx !! key with
     | Some (DeleteMutation _ _) => None
     | Some (PutMutation _ value _) =>
         Some {| v_value := value; v_revision := snapshot_revision tx key |}
     | None =>
         match tx_snapshot tx !! key with
         | None => None
         | Some record => Some {| v_value := r_value record; v_revision := r_revision record |}
         end
     end.

(** The records a scan selects, in order, and the page it returns. *)
Definition selects (query : StateQuery) (record : StoredRecord) : bool :=
  streq (namespace (r_key record)) (q_namespace query) &&
  streq (collection (r_key record)) (q_collection query) &&
  match q_idPrefix query with None => true | Some p => startsWith p (id (r_key record)) end &&
  match q_afterId query with None => true | Some a => 0 <? compareText (id (r_key record)) a end.
Definition map_values {K V} `{Countable K} (m : gmap K V) : list V := (map_to_list m).*2.
Definition matching_records (records : gmap StateKey StoredRecord) (query : StateQuery)
  : list StoredRecord :=
  js_sort (λ left right, compareText (id (r_key left)) (id (r_key right)))
    (List.filter (selects query) (map_values records)).
Definition page {A} (limit : option jsnum) (matching : list A) : list A :=
  match limit with
  | None => matching
  | Some n => match safe_integer n with Some z => take (Z.to_nat z) matching | None => [] end
  end.

(** What a transaction sees: its snapshot under its own mutations. *)
Definition tx_view (tx : MemoryTransaction) : gmap StateKey StoredRecord :=
  map_fold (λ key mutation view,
    match mutation with
    | DeleteMutation _ _ => delete key view
    | PutMutation k value _ =>
        <[key := {| r_key := k; r_value := value; r_revision := snapshot_revision tx key |}]> view
    end) (tx_snapshot tx) (tx_mutations tx).
Definition tx_scan (tx : MemoryTransaction) (query : StateQuery) : checked (list ScannedState) :=
  assertActive tx;;
  assertStateQuery query;;
  Ok (page (q_limit query) (matching_records (tx_view tx) query)).

Definition with_mutations (tx : MemoryTransaction) (m : gmap StateKey Mutation) : MemoryTransaction :=
  {| tx_snapshot := tx_snapshot tx; tx_mutations := m; tx_operations := tx_operations tx;
     tx_operationIds := tx_operationIds tx; tx_outbox := tx_outbox tx; tx_active := tx_active tx |}.

Definition tx_put (tx : MemoryTransaction) (key : StateKey) (value : json)
    (expected : ExpectedRevision) : checked MemoryTransaction :=
  assertActive tx;;
  assertStateKey key true;;
  v ← copy value;
  Ok (with_mutations tx (<[key := PutMutation key v expected]> (tx_mutations tx))).

Definition tx_delete (tx : MemoryTransaction) (key : StateKey) (expected : ExpectedRevision)
  : checked MemoryTransaction :=
  assertActive tx;;
  assertStateKey key true;;
  Ok (with_mutations tx (<[key := DeleteMutation key expected]> (tx_mutations tx))).

(** The operation is marked before its state is copied. *)
Definition tx_appendOperation (tx : MemoryTransaction) (entry : OperationJournalEntry)
  : MemoryTransaction * checked unit :=
  match assertActive tx with
  | Err e => (tx, Err e)
  | Ok _ =>
      if includes (tx_operationIds tx) (o_operationId entry) then (tx, Err STATE_DATA_INVALID)
      else
        let next operations :=
          {| tx_snapshot := tx_snapshot tx; tx_mutations := tx_mutations tx;
             tx_operations := operations;
             tx_operationIds := o_operationId entry :: tx_operationIds tx;
             tx_outbox := tx_outbox tx; tx_active := tx_active tx |} in
        match copy (o_state entry) with
        | Err e => (next (tx_operations tx), Err e)
        | Ok state =>
            (next (tx_operations tx ++
              [{| o_operationId := o_operationId entry; o_kind := o_kind entry;
                  o_status := o_status entry; o_state := state; o_updatedAt := o_updatedAt entry |}]),
             Ok tt)
        end
  end.

Definition tx_enqueueOutbox (tx : MemoryTransaction) (message : OutboxMessage)
  : checked MemoryTransaction :=
  assertActive tx;;
  p ← copy (payload message);
  Ok {| tx_snapshot := tx_snapshot tx; tx_mutations := tx_mutations tx;
        tx_operations := tx_operations tx; tx_operationIds := tx_operationIds tx;
        tx_outbox := tx_outbox tx ++
          [{| messageId := messageId message; operationId := operationId message;
              topic := topic message; payload := p; createdAt := createdAt message;
              availableAt := availableAt message |}];
        tx_active := tx_active tx |}.

Record StagedTransaction := {
  st_mutations : list Mutation;
  st_operations : list OperationJournalEntry;
  st_outbox : list OutboxMessage;
}.
Definition tx_abort (tx : MemoryTransaction) : MemoryTransaction :=
  {| tx_snapshot := tx_snapshot tx; tx_mutations := tx_mutations tx;
     tx_operations := tx_operations tx; tx_operationIds := tx_operationIds tx;
     tx_outbox := tx_outbox tx; tx_active := false |}.
Definition staged_of (tx : MemoryTransaction) : StagedTransaction :=
  {| st_mutations := js_sort (λ left right, compareKeys (m_key left) (m_key right))
       (map_values (tx_mutations tx));
     st_operations := tx_operations tx;
     st_outbox := tx_outbox tx |}.
Definition tx_finish (tx : MemoryTransaction) : checked (MemoryTransaction * StagedTransaction) :=
  assertActive tx;;
  Ok (tx_abort tx, staged_of tx).

(** ** A watch: a queue, and the readers waiting on it

    [w_results] lists what the promises of [next] resolved to, by reader. *)
Record MemoryWatchIterator := {
  w_queue : list StateChange;
  w_waiters : list nat;
  w_closed : bool;
  w_results : list (nat * option StateChange);
}.
Definition watch_next (w : MemoryWatchIterator) (reader : nat) : MemoryWatchIterator :=
  match w_queue w with
  | change :: queue =>
      {| w_queue := queue; w_waiters := w_waiters w; w_closed := w_closed w;
         w_results := w_results w ++ [(reader, Some change)] |}
  | [] =>
      if w_closed w
      then {| w_queue := []; w_waiters := w_waiters w; w_closed := true;
              w_results := w_results w ++ [(reader, None)] |}
      else {| w_queue := []; w_waiters := w_waiters w ++ [reader]; w_closed := false;
              w_results := w_results w |}
  end.
Definition watch_push (change : StateChange) (w : MemoryWatchIterator) : MemoryWatchIterator :=
  if w_closed w then w
  else
    match w_waiters w with
    | [] => {| w_queue := w_queue w ++ [change]; w_waiters := []; w_closed := false;
               w_results := w_results w |}
    | reader :: waiters =>
        {| w_queue := w_queue w; w_waiters := waiters; w_closed := false;
           w_results := w_results w ++ [(reader, Some change)] |}
    end.
Definition watch_close (w : MemoryWatchIterator) : MemoryWatchIterator :=
  if w_closed w then w
  else {| w_queue := []; w_waiters := []; w_closed := true;
          w_results := w_results w ++ map (λ reader, (reader, None)) (w_waiters w) |}.

(** ** The store *)
Inductive store_lifecycle := StoreClosed | StoreCreated | StoreOpen.

Record MemoryStateStore := {
  records : gmap StateKey StoredRecord;
  operations : gmap jstring PersistedOperationJournalEntry;
  operationHistory : list PersistedOperationJournalEntry;
  outbox : gmap jstring StoredOutboxMessage;
  outboxSequence : Z;
  fences : gmap jstring Z;
  changes : list StateChange;
  watchers : gmap nat MemoryWatchIterator;
  idempotency : gmap jstring IdempotencyRecord;
  revision : Z;
  lifecycle : store_lifecycle;
}.
Definition new_store : MemoryStateStore :=
  {| records := ∅; operations := ∅; operationHistory := []; outbox := ∅; outboxSequence := 0;
     fences := ∅; changes := []; watchers := ∅; idempotency := ∅; revision := 0;
     lifecycle := StoreCreated |}.

Definition assertOpen (st : MemoryStateStore) : checked unit :=
  match lifecycle st with StoreOpen => Ok tt | _ => Err STATE_CLOSED end.

Definition with_lifecycle (st : MemoryStateStore) (l : store_lifecycle) (ws : gmap nat MemoryWatchIterator)
  : MemoryStateStore :=
  {| records := records st; operations := operations st; operationHistory := operationHistory st;
     outbox := outbox st; outboxSequence := outboxSequence st; fences := fences st;
     changes := changes st; watchers := ws; idempotency := idempotency st;
     revision := revision st; lifecycle := l |}.
Definition with_watchers (st : MemoryStateStore) (ws : gmap nat MemoryWatchIterator) : MemoryStateStore :=
  with_lifecycle st (lifecycle st) ws.
Definition open (st : MemoryStateStore) : MemoryStateStore * checked unit :=
  match lifecycle st with
  | StoreClosed => (st, Err STATE_CLOSED)
  | _ => (with_lifecycle st StoreOpen (watchers st), Ok tt)
  end.
(** [close]: every watch ends; a closed watch leaves the set. *)
Definition close (st : MemoryStateStore) : MemoryStateStore :=
  match lifecycle st with
  | StoreClosed => st
  | _ => with_lifecycle st StoreClosed (watch_close <$> watchers st)
  end.

Definition read (st : MemoryStateStore) (key : StateKey) : checked (option Versioned) :=
  assertOpen st;;
  assertStateKey key false;;
  Ok match records st !! key with
     | None => None
     | Some record => Some {| v_value := r_value record; v_revision := r_revision record |}
     end.

(** What a scan iterates over; the code also checks that the store is open
    before each record it yields. *)
Definition scan (st : MemoryStateStore) (query : StateQuery) : checked (list ScannedState) :=
  assertOpen st;;
  assertStateQuery query;;
  Ok (page (q_limit query) (matching_records (records st) query)).

Definition assertOperationQuery (query : OperationJournalQuery) : checked unit :=
  throw_if (given (out_of_range 1 MAX_SAFE_INTEGER) (jq_limit query)) STATE_QUERY_INVALID.
Definition after_cursor (query : OperationJournalQuery) (e : PersistedOperationJournalEntry) : bool :=
  match jq_after query with
  | None => true
  | Some after => 0 <? compareOperationJournalCursors (cursor_of e) after
  end.
Definition compare_entries (left right : PersistedOperationJournalEntry) : Z :=
  compareOperationJournalCursors (cursor_of left) (cursor_of right).
Definition scanOperationHistory (st : MemoryStateStore) (query : OperationJournalQuery)
  : checked (list PersistedOperationJournalEntry) :=
  assertOpen st;;
  assertOperationQuery query;;
  Ok (page (jq_limit query)
        (js_sort compare_entries (List.filter (after_cursor query) (operationHistory st)))).
Definition recoverable (e : PersistedOperationJournalEntry) : bool :=
  match o_status (p_entry e) with OpExecuting | OpPlanned => true | _ => false end.
Definition scanOperationJournal (st : MemoryStateStore) (query : OperationJournalQuery)
    (recoverableOnly : bool) : checked (list PersistedOperationJournalEntry) :=
  assertOpen st;;
  assertOperationQuery query;;
  Ok (page (jq_limit query)
        (js_sort compare_entries
           (List.filter (λ e, (negb recoverableOnly || recoverable e) && after_cursor query e)
              (map_values (operations st))))).
Definition scanOperations (st : MemoryStateStore) (query : OperationJournalQuery) :=
  scanOperationJournal st query false.
Definition scanRecoverableOperations (st : MemoryStateStore) (query : OperationJournalQuery) :=
  scanOperationJournal st query true.

(** [watch]: the changes after the cursor, and those to come. *)
Definition watch (st : MemoryStateStore) (w : nat) (cursor : Z) : MemoryStateStore * checked unit :=
  match assertOpen st with
  | Err e => (st, Err e)
  | Ok _ =>
      (with_watchers st (<[w := {| w_queue := List.filter (λ c, cursor <? ch_revision c) (changes st);
                                   w_waiters := []; w_closed := false; w_results := [] |}]>
                           (watchers st)), Ok tt)
  end.
Definition next_change (st : MemoryStateStore) (w reader : nat) : MemoryStateStore :=
  with_watchers st (alter (λ i, watch_next i reader) w (watchers st)).
Definition return_watch (st : MemoryStateStore) (w : nat) : MemoryStateStore :=
  with_watchers st (alter watch_close w (watchers st)).

(** ** Fencing *)
Definition assertFence (st : MemoryStateStore) (fencing : option StateFencing) : checked bool :=
  match fencing with
  | None => Ok false
  | Some f =>
      let currentEpoch := fences st !! resource f in
      throw_if (match currentEpoch with Some e => epoch f <? e | None => false end) STATE_FENCE_STALE;;
      Ok (match currentEpoch with None => true | Some e => e <? epoch f end)
  end.
Definition advance_fence (fencing : option StateFencing) (fs : gmap jstring Z) : gmap jstring Z :=
  match fencing with Some f => <[resource f := epoch f]> fs | None => fs end.

(** ** Commit *)

(** The guards of the mutations, over the records as deletes apply to them. *)
Fixpoint check_mutations (nextRecords : gmap StateKey StoredRecord) (mutations : list Mutation)
  : checked (gmap StateKey StoredRecord * list Mutation) :=
  match mutations with
  | [] => Ok (nextRecords, [])
  | mutation :: rest =>
      let current := nextRecords !! m_key mutation in
      throw_if (negb (matchesExpectedRevision current (m_expected mutation))) STATE_REVISION_CONFLICT;;
      match mutation with
      | DeleteMutation key _ =>
          match current with
          | Some _ =>
              '(next, applied) ← check_mutations (delete key nextRecords) rest;
              Ok (next, mutation :: applied)
          | None => check_mutations nextRecords rest
          end
      | PutMutation _ _ _ =>
          '(next, applied) ← check_mutations nextRecords rest;
          Ok (next, mutation :: applied)
      end
  end.

Section store.
Context (number_text : jsnum → jstring).
Abbreviation json_text := (stringify number_text).

Definition sameOutboxMessage (left right : OutboxMessage) : bool :=
  streq (messageId left) (messageId right) &&
  streq (operationId left) (operationId right) &&
  streq (topic left) (topic right) &&
  match serialize (payload left), serialize (payload right) with
  | Some l, Some r => streq (json_text l) (json_text r)
  | _, _ => false
  end.

Definition assertOutboxMessage (message : OutboxMessage) : checked unit :=
  throw_if
    ((OUTBOX_TOPIC_MAX_LENGTH <? length (topic message))%nat ||
     negb (re_test TOPIC_PATTERN (topic message)) ||
     (OUTBOX_PAYLOAD_MAX_BYTES <? utf8_length (json_text (payload message))))
    STATE_DATA_INVALID.

(** The messages of a commit that are new, in order. *)
Fixpoint new_messages (existing : gmap jstring StoredOutboxMessage)
    (newOutboxById : jsmap jstring OutboxMessage) (messages : list OutboxMessage)
  : checked (jsmap jstring OutboxMessage) :=
  match messages with
  | [] => Ok newOutboxById
  | message :: rest =>
      assertOutboxMessage message;;
      throw_if (negb (validTimestamp (createdAt message)) || negb (validTimestamp (availableAt message)))
        STATE_DATA_INVALID;;
      match JsMap.get newOutboxById (messageId message) with
      | Some stagedExisting =>
          throw_if (negb (sameOutboxMessage stagedExisting message)) STATE_IDEMPOTENCY_CONFLICT;;
          new_messages existing newOutboxById rest
      | None =>
          match existing !! messageId message with
          | None => new_messages existing (JsMap.set newOutboxById (messageId message) message) rest
          | Some stored =>
              if match s_acknowledgement stored with
                 | Some a => bool_decide (a_outcome a = Retry)
                 | None => false
                 end
              then new_messages existing (JsMap.set newOutboxById (messageId message) message) rest
              else
                throw_if (negb (sameOutboxMessage (s_message stored) message)) STATE_IDEMPOTENCY_CONFLICT;;
                new_messages existing newOutboxById rest
          end
      end
  end.

(** The writes of a commit. *)
Definition put_records (rev : Z) (nextRecords : gmap StateKey StoredRecord) (applied : list Mutation)
  : gmap StateKey StoredRecord :=
  foldl (λ m mutation,
    match mutation with
    | PutMutation key value _ =>
        <[key := {| r_key := key; r_value := value; r_revision := rev |}]> m
    | DeleteMutation _ _ => m
    end) nextRecords applied.
Definition persist (rev : Z) (entry : OperationJournalEntry) : PersistedOperationJournalEntry :=
  {| p_entry := entry; p_revision := rev |}.
Definition enqueue_messages (box : gmap jstring StoredOutboxMessage * Z) (messages : list OutboxMessage)
  : gmap jstring StoredOutboxMessage * Z :=
  foldl (λ '(m, sequence) message,
    (<[messageId message :=
         {| s_message := message; s_enqueueSequence := sequence + 1; s_attempt := 0;
            s_claim := None; s_acknowledgement := None; s_acknowledgedClaim := None |}]> m,
     sequence + 1)) box messages.
Definition change_of (rev : Z) (mutation : Mutation) : StateChange :=
  match mutation with
  | PutMutation key value _ => {| ch_revision := rev; ch_key := key; ch_value := Some value |}
  | DeleteMutation key _ => {| ch_revision := rev; ch_key := key; ch_value := None |}
  end.

Definition apply_commit (st : MemoryStateStore) (fencing : option StateFencing) (advancesFence : bool)
    (nextRecords : gmap StateKey StoredRecord) (applied : list Mutation)
    (entries : list OperationJournalEntry) (newOutbox : list OutboxMessage) : MemoryStateStore :=
  let rev := revision st + 1 in
  let persisted := map (persist rev) entries in
  let box := enqueue_messages (outbox st, outboxSequence st) newOutbox in
  let new_changes := map (change_of rev) applied in
  {| records := put_records rev nextRecords applied;
     operations := foldl (λ m e, <[o_operationId (p_entry e) := e]> m) (operations st) persisted;
     operationHistory := operationHistory st ++ persisted;
     outbox := box.1;
     outboxSequence := box.2;
     fences := if advancesFence then advance_fence fencing (fences st) else fences st;
     changes := changes st ++ new_changes;
     watchers := (λ w, foldl (λ w c, watch_push c w) w new_changes) <$> watchers st;
     idempotency := idempotency st;
     revision := rev;
     lifecycle := lifecycle st |}.

Definition remember (st : MemoryStateStore) (identity : option IdempotencyIdentity) (result : json)
  : MemoryStateStore :=
  match identity with
  | None => st
  | Some i =>
      {| records := records st; operations := operations st; operationHistory := operationHistory st;
         outbox := outbox st; outboxSequence := outboxSequence st; fences := fences st;
         changes := changes st; watchers := watchers st;
         idempotency := <[i_key i := {| ir_fingerprint := i_fingerprint i; ir_result := result |}]>
           (idempotency st);
         revision := revision st; lifecycle := lifecycle st |}
  end.

Definition nonempty {A} (l : list A) : bool := match l with [] => false | _ => true end.

(** [#commit]: every check comes before the first write. *)
Definition commit (st : MemoryStateStore) (fencing : option StateFencing)
    (identity : option IdempotencyIdentity) (staged : StagedTransaction) (result : json)
  : checked MemoryStateStore :=
  assertOpen st;;
  '(nextRecords, applied) ← check_mutations (records st) (st_mutations staged);
  newOutboxById ← new_messages (outbox st) [] (st_outbox staged);
  let newOutbox := JsMap.values newOutboxById in
  advancesFence ← assertFence st fencing;
  let mutates := nonempty applied || nonempty (st_operations staged) || nonempty newOutbox ||
                 advancesFence in
  let st' := if mutates
             then apply_commit st fencing advancesFence nextRecords applied (st_operations staged) newOutbox
             else st in
  Ok (remember st' identity result).
End store.

(** ** The outbox *)
Definition with_outbox (st : MemoryStateStore) (box : gmap jstring StoredOutboxMessage)
    (fs : gmap jstring Z) (rev : Z) : MemoryStateStore :=
  {| records := records st; operations := operations st; operationHistory := operationHistory st;
     outbox := box; outboxSequence := outboxSequence st; fences := fs; changes := changes st;
     watchers := watchers st; idempotency := idempotency st; revision := rev;
     lifecycle := lifecycle st |}.

Definition compare_outbox (left right : StoredOutboxMessage) : Z :=
  or_else (compareText (availableAt (s_message left)) (availableAt (s_message right)))
    (if s_enqueueSequence left <? s_enqueueSequence right then -1
     else if s_enqueueSequence right <? s_enqueueSequence left then 1
     else compareText (messageId (s_message left)) (messageId (s_message right))).

(** [Date.parse(text) > now]; not a date is never later. *)
Definition later_than (text : jstring) (now : Z) : bool :=
  match Date_parse text with Some t => now <? t | None => false end.

(** The messages a claim passes over. *)
Definition skipped (request : OutboxClaimRequest) (now : Z) (record : StoredOutboxMessage) : bool :=
  match s_acknowledgement record with
  | Some a => bool_decide (a_outcome a = Completed)
  | None => false
  end ||
  given (λ t, negb (streq (topic (s_message record)) t)) (cr_topic request) ||
  later_than (availableAt (s_message record)) now ||
  match s_claim record with Some c => later_than (c_expiresAt c) now | None => false end.

(** [date.toISOString()], which throws out of the range of dates. *)
Definition iso (t : Z) : checked jstring :=
  if Z.abs t <=? MAX_TIME then Ok (toISOString t) else Err DATE_RANGE_ERROR.

(** The record a claim leaves, and the claim. *)
Definition claim_message (request : OutboxClaimRequest) (now lease : Z) (claimedAt : jstring)
    (record : StoredOutboxMessage) : checked (StoredOutboxMessage * OutboxClaim) :=
  let attempt := s_attempt record + 1 in
  throw_if (negb (isSafeInteger attempt)) STATE_DATA_INVALID;;
  expiresAt ← iso (now + lease);
  let claim :=
    {| c_message := s_message record; c_owner := cr_owner request; c_claimEpoch := attempt;
       c_attempt := attempt; c_claimedAt := claimedAt; c_expiresAt := expiresAt |} in
  Ok ({| s_message := s_message record; s_enqueueSequence := s_enqueueSequence record;
         s_attempt := attempt; s_claim := Some claim; s_acknowledgement := None;
         s_acknowledgedClaim := None |}, claim).

(** The loop over the sorted messages: an error keeps the claims made so far. *)
Fixpoint claim_loop (request : OutboxClaimRequest) (now lease : Z) (claimedAt : jstring)
    (room : nat) (sorted : list StoredOutboxMessage) (box : gmap jstring StoredOutboxMessage)
  : gmap jstring StoredOutboxMessage * checked (list OutboxClaim) :=
  match sorted with
  | [] => (box, Ok [])
  | record :: rest =>
      if skipped request now record then claim_loop request now lease claimedAt room rest box
      else
        match claim_message request now lease claimedAt record with
        | Err e => (box, Err e)
        | Ok (record', claim) =>
            let box' := <[messageId (s_message record) := record']> box in
            match room with
            | S (S _ as room') =>
                let '(box'', claims) := claim_loop request now lease claimedAt room' rest box' in
                (box'', claims ← claims; Ok (claim :: claims))
            | _ => (box', Ok [claim])
            end
        end
  end.

Definition lease_of (request : OutboxClaimRequest) : Z :=
  default 0 (safe_integer (cr_leaseDurationMs request)).

(** The queued part of [claimOutbox]. *)
Definition claimOutbox (st : MemoryStateStore) (request : OutboxClaimRequest) (limit : Z) (now : Z)
  : MemoryStateStore * checked (list OutboxClaim) :=
  match (assertOpen st;; advances ← assertFence st (cr_fencing request);
         claimedAt ← iso now; Ok (advances, claimedAt)) with
  | Err e => (st, Err e)
  | Ok (advancesFence, claimedAt) =>
      let '(box, claimed) := claim_loop request now (lease_of request) claimedAt (Z.to_nat limit)
        (js_sort compare_outbox (map_values (outbox st))) (outbox st) in
      match claimed with
      | Err e => (with_outbox st box (fences st) (revision st), Err e)
      | Ok claims =>
          (if nonempty claims || advancesFence
           then with_outbox st box (advance_fence (cr_fencing request) (fences st)) (revision st + 1)
           else with_outbox st box (fences st) (revision st), Ok claims)
      end
  end.

Definition same_claim (claim : option OutboxClaim) (request : OutboxAcknowledgementRequest) : bool :=
  match claim with
  | Some c => streq (c_owner c) (ar_owner request) && (c_claimEpoch c =? ar_claimEpoch request)
  | None => false
  end.

(** The queued part of [acknowledgeOutbox]. *)
Definition acknowledgeOutbox (st : MemoryStateStore) (request : OutboxAcknowledgementRequest) (now : Z)
  : checked (MemoryStateStore * OutboxAcknowledgement) :=
  assertOpen st;;
  advancesFence ← assertFence st (ar_fencing request);
  let fences' := if (advancesFence : bool) then advance_fence (ar_fencing request) (fences st) else fences st in
  match outbox st !! ar_messageId request with
  | None => Err STATE_QUERY_INVALID
  | Some record =>
      match s_acknowledgement record, same_claim (s_acknowledgedClaim record) request with
      | Some a, true =>
          throw_if (negb (bool_decide (a_outcome a = ar_outcome request)) ||
                    negb (bool_decide (a_retryAt a = ar_retryAt request))) STATE_IDEMPOTENCY_CONFLICT;;
          Ok (if advancesFence then with_outbox st (outbox st) fences' (revision st + 1) else st,
              {| a_messageId := a_messageId a; a_outcome := a_outcome a; a_attempt := a_attempt a;
                 a_acknowledgedAt := a_acknowledgedAt a; a_duplicate := true; a_retryAt := a_retryAt a |})
      | _, _ =>
          match s_claim record with
          | Some claim =>
              throw_if (negb (same_claim (Some claim) request)) STATE_FENCE_STALE;;
              acknowledgedAt ← iso now;
              let acknowledgement :=
                {| a_messageId := ar_messageId request; a_outcome := ar_outcome request;
                   a_attempt := c_attempt claim; a_acknowledgedAt := acknowledgedAt;
                   a_duplicate := false; a_retryAt := ar_retryAt request |} in
              let m := s_message record in
              let message' :=
                match ar_outcome request, ar_retryAt request with
                | Retry, Some retryAt =>
                    {| messageId := messageId m; operationId := operationId m; topic := topic m;
                       payload := payload m; createdAt := createdAt m; availableAt := retryAt |}
                | _, _ => m
                end in
              let record' :=
                {| s_message := message'; s_enqueueSequence := s_enqueueSequence record;
                   s_attempt := s_attempt record; s_claim := None;
                   s_acknowledgement := Some acknowledgement; s_acknowledgedClaim := Some claim |} in
              Ok (with_outbox st (<[ar_messageId request := record']> (outbox st)) fences' (revision st + 1),
                  acknowledgement)
          | None => Err STATE_FENCE_STALE
          end
      end
  end.

(** ** The store at work

    The calls of clients interleave between their awaits; commits, claims and
    acknowledgements wait in one queue ([#commitTail]) and run one at a time.
    A call is a number. The work of a transaction is arbitrary: any sequence of
    operations on its transaction, then a result or an error. *)
Inductive outcome := Pending | Resolved (result : json) | Rejected (code : StateErrorCode).

(** How a call to [transact] proceeds: it returns the committed result, awaits
    the call in flight, or runs its own transaction. *)
Inductive role :=
| Replayed
| Joined (leader : nat)
| Executing (fencing : option StateFencing) (tx : MemoryTransaction).
Record call := {
  k_identity : option IdempotencyIdentity;
  k_role : role;
  k_outcome : outcome;
}.

Inductive pending :=
| PendingCommit (c : nat) (fencing : option StateFencing) (identity : option IdempotencyIdentity)
    (staged : StagedTransaction) (result : json)
| PendingClaim (c : nat) (request : OutboxClaimRequest) (limit : Z)
| PendingAcknowledgement (c : nat) (request : OutboxAcknowledgementRequest).

Record InFlight := { f_leader : nat; f_fingerprint : jstring }.

Record system := {
  store : MemoryStateStore;
  calls : gmap nat call;
  inFlight : gmap jstring InFlight;
  queue : list pending;
  claims : list (nat * checked (list OutboxClaim));
  acknowledgements : list (nat * checked OutboxAcknowledgement);
}.
Definition new_system : system :=
  {| store := new_store; calls := ∅; inFlight := ∅; queue := []; claims := []; acknowledgements := [] |}.

Inductive operation :=
| OpPut (key : StateKey) (value : json) (expected : ExpectedRevision)
| OpDelete (key : StateKey) (expected : ExpectedRevision)
| OpAppend (entry : OperationJournalEntry)
| OpEnqueue (message : OutboxMessage).

Inductive event :=
| EvOpen
| EvClose
| EvTransact (c : nat) (options : StateTransactionOptions)
| EvOperation (c : nat) (o : operation)
| EvWorkReturns (c : nat) (result : json)
| EvWorkThrows (c : nat)
| EvClaim (c : nat) (request : OutboxClaimRequest)
| EvAcknowledge (c : nat) (request : OutboxAcknowledgementRequest)
| EvRun (now : Z)
| EvSettled (key : jstring)
| EvWatch (w : nat) (cursor : Z)
| EvNext (w reader : nat)
| EvReturn (w : nat).

Definition set_store (s : system) (st : MemoryStateStore) : system :=
  {| store := st; calls := calls s; inFlight := inFlight s; queue := queue s; claims := claims s;
     acknowledgements := acknowledgements s |}.
Definition set_call (s : system) (c : nat) (k : call) : system :=
  {| store := store s; calls := <[c := k]> (calls s);
     inFlight := inFlight s; queue := queue s; claims := claims s; acknowledgements := acknowledgements s |}.
Definition set_inFlight (s : system) (f : gmap jstring InFlight) : system :=
  {| store := store s; calls := calls s; inFlight := f; queue := queue s; claims := claims s;
     acknowledgements := acknowledgements s |}.
Definition set_queue (s : system) (q : list pending) : system :=
  {| store := store s; calls := calls s; inFlight := inFlight s; queue := q; claims := claims s;
     acknowledgements := acknowledgements s |}.
Definition log_claim (s : system) (c : nat) (r : checked (list OutboxClaim)) : system :=
  {| store := store s; calls := calls s; inFlight := inFlight s; queue := queue s;
     claims := claims s ++ [(c, r)]; acknowledgements := acknowledgements s |}.
Definition log_acknowledgement (s : system) (c : nat) (r : checked OutboxAcknowledgement) : system :=
  {| store := store s; calls := calls s; inFlight := inFlight s; queue := queue s;
     claims := claims s; acknowledgements := acknowledgements s ++ [(c, r)] |}.

(** The synchronous part of [transact]. A call that joins a settled call has
    its outcome. *)
Definition transact (s : system) (c : nat) (options : StateTransactionOptions) : system :=
  let enter identity r o := set_call s c {| k_identity := identity; k_role := r; k_outcome := o |} in
  match (assertOpen (store s);; idempotencyIdentity options) with
  | Err code => enter None Replayed (Rejected code)
  | Ok identity =>
      let executes := Executing (t_fencing options) (new_transaction (records (store s))) in
      match identity with
      | None => enter identity executes Pending
      | Some i =>
          match idempotency (store s) !! i_key i with
          | Some replay =>
              if negb (streq (i_fingerprint i) (ir_fingerprint replay))
              then enter identity Replayed (Rejected STATE_IDEMPOTENCY_CONFLICT)
              else enter identity Replayed (Resolved (ir_result replay))
          | None =>
              match inFlight s !! i_key i with
              | Some f =>
                  if negb (streq (i_fingerprint i) (f_fingerprint f))
                  then enter identity Replayed (Rejected STATE_IDEMPOTENCY_CONFLICT)
                  else
                    let settled := match calls s !! f_leader f with Some k => k_outcome k | None => Pending end in
                    enter identity (Joined (f_leader f)) settled
              | None =>
                  set_inFlight (enter identity executes Pending)
                    (<[i_key i := {| f_leader := c; f_fingerprint := i_fingerprint i |}]> (inFlight s))
              end
          end
      end
  end.

Definition perform (tx : MemoryTransaction) (o : operation) : MemoryTransaction :=
  match o with
  | OpPut key value expected => match tx_put tx key value expected with Ok tx' => tx' | Err _ => tx end
  | OpDelete key expected => match tx_delete tx key expected with Ok tx' => tx' | Err _ => tx end
  | OpAppend entry => (tx_appendOperation tx entry).1
  | OpEnqueue message => match tx_enqueueOutbox tx message with Ok tx' => tx' | Err _ => tx end
  end.

(** [execution.then(deferred.resolve, deferred.reject)]: the call and those
    that joined it are settled together. *)
Definition settle (s : system) (c : nat) (o : outcome) : system :=
  {| store := store s;
     calls := map_imap (λ i k,
       Some (if bool_decide (i = c) || match k_role k with Joined l => bool_decide (l = c) | _ => false end
             then {| k_identity := k_identity k; k_role := k_role k; k_outcome := o |} else k)) (calls s);
     inFlight := inFlight s; queue := queue s; claims := claims s; acknowledgements := acknowledgements s |}.

Section system.
Context (number_text : jsnum → jstring).

(** One queued commit, claim or acknowledgement. *)
Definition run_pending (s : system) (p : pending) (now : Z) : system :=
  match p with
  | PendingCommit c fencing identity staged result =>
      match commit number_text (store s) fencing identity staged result with
      | Ok st => settle (set_store s st) c (Resolved result)
      | Err code => settle s c (Rejected code)
      end
  | PendingClaim c request limit =>
      let '(st, r) := claimOutbox (store s) request limit now in log_claim (set_store s st) c r
  | PendingAcknowledgement c request =>
      match acknowledgeOutbox (store s) request now with
      | Ok (st, a) => log_acknowledgement (set_store s st) c (Ok a)
      | Err e => log_acknowledgement s c (Err e)
      end
  end.

(** One event. An event that the program cannot produce changes nothing: a
    call number used twice, or the work of a call that is not running. *)
Definition step (s : system) (e : event) : system :=
  match e with
  | EvOpen => set_store s (open (store s)).1
  | EvClose => set_store s (close (store s))
  | EvTransact c options =>
      match calls s !! c with Some _ => s | None => transact s c options end
  | EvOperation c o =>
      match calls s !! c with
      | Some {| k_identity := identity; k_role := Executing fencing tx; k_outcome := out |} =>
          set_call s c {| k_identity := identity; k_role := Executing fencing (perform tx o); k_outcome := out |}
      | _ => s
      end
  | EvWorkReturns c result =>
      match calls s !! c with
      | Some {| k_identity := identity; k_role := Executing fencing tx; k_outcome := out |} =>
          match tx_finish tx with
          | Err _ => s
          | Ok (tx', staged) =>
              let s' := set_call s c {| k_identity := identity; k_role := Executing fencing tx'; k_outcome := out |} in
              match copy result with
              | Ok value => set_queue s' (queue s ++ [PendingCommit c fencing identity staged value])
              | Err code => settle s' c (Rejected code)
              end
          end
      | _ => s
      end
  | EvWorkThrows c =>
      match calls s !! c with
      | Some {| k_identity := identity; k_role := Executing fencing tx; k_outcome := out |} =>
          if tx_active tx then
            settle (set_call s c
              {| k_identity := identity; k_role := Executing fencing (tx_abort tx); k_outcome := out |})
              c (Rejected WORK_FAILED)
          else s
      | _ => s
      end
  | EvClaim c request =>
      match (assertOpen (store s);; assertOutboxClaimRequest request) with
      | Err code => log_claim s c (Err code)
      | Ok limit => set_queue s (queue s ++ [PendingClaim c request limit])
      end
  | EvAcknowledge c request =>
      match (assertOpen (store s);; assertOutboxAcknowledgementRequest request) with
      | Err code => log_acknowledgement s c (Err code)
      | Ok _ => set_queue s (queue s ++ [PendingAcknowledgement c request])
      end
  | EvRun now =>
      match queue s with
      | [] => s
      | p :: rest => run_pending (set_queue s rest) p now
      end
  | EvSettled key =>
      match inFlight s !! key with
      | Some f =>
          match calls s !! f_leader f with
          | Some {| k_identity := _; k_role := _; k_outcome := Pending |} => s
          | _ => set_inFlight s (delete key (inFlight s))
          end
      | None => s
      end
  | EvWatch w cursor =>
      match watchers (store s) !! w with
      | Some _ => s
      | None => set_store s (watch (store s) w cursor).1
      end
  | EvNext w reader => set_store s (next_change (store s) w reader)
  | EvReturn w => set_store s (return_watch (store s) w)
  end.

Definition run (s : system) (events : list event) : system := foldl step s events.
Definition reachable (s : system) : Prop := ∃ events, s = run new_system events.
End system.
