(* ===== verification/StoreProofs.v ===== *)
(** * What the state store guarantees

    Invariants of the store over every interleaving of its calls: the change
    log replays to the records, guarded writes are never lost, fences only
    move forward, an idempotent transaction commits once, watches see every
    change once, outbox claims are exclusive. *)

From S2P Require Import Prelude JsString Collections Regex JsValue JsonText Time Identity StateStore.

Open Scope Z_scope.

(** ** Values of a map *)
Lemma elem_of_map_values {K V} `{Countable K} (m : gmap K V) v :
  v ∈ map_values m ↔ ∃ k, m !! k = Some v.
Proof.
  unfold map_values. rewrite list_elem_of_fmap. setoid_rewrite <- elem_of_map_to_list. split.
  - intros ([k w] & -> & Hin). eauto.
  - intros [k Hk]. by exists (k, v).
Qed.

Lemma NoDup_map_values {K V} `{Countable K} (m : gmap K V) (f : V → K) :
  (∀ k v, m !! k = Some v → f v = k) → NoDup (f <$> map_values m).
Proof.
  intros Hf. unfold map_values. rewrite <- list_fmap_compose.
  rewrite (list_fmap_ext _ fst _); [apply NoDup_fst_map_to_list|].
  intros i [k v] Hi. apply Hf, elem_of_map_to_list, list_elem_of_lookup. eauto.
Qed.

(** ** Transactions *)
Record tx_ok (tx : MemoryTransaction) : Prop := {
  tx_keys k m : tx_mutations tx !! k = Some m → m_key m = k;
  tx_ids o : o ∈ tx_operations tx → o_operationId o ∈ tx_operationIds tx;
  tx_once : NoDup (map o_operationId (tx_operations tx));
}.
Record staged_ok (staged : StagedTransaction) : Prop := {
  staged_keys : NoDup (map m_key (st_mutations staged));
  staged_once : NoDup (map o_operationId (st_operations staged));
}.

Lemma new_transaction_ok snapshot : tx_ok (new_transaction snapshot).
Proof. split; simpl; [|intros ? ?%elem_of_nil; done|constructor]. intros k m. by rewrite lookup_empty. Qed.

Lemma with_mutation_ok tx m :
  tx_ok tx → tx_ok (with_mutations tx (<[m_key m := m]> (tx_mutations tx))).
Proof.
  intros [Hk Hi Ho]. split; simpl; [|done..]. intros k m'.
  destruct (decide (k = m_key m)) as [->|]; [rewrite lookup_insert_eq|rewrite lookup_insert_ne by done];
    naive_solver.
Qed.

Lemma perform_ok tx o : tx_ok tx → tx_ok (perform tx o).
Proof.
  intros Hok. destruct o as [key value expected|key expected|entry|message]; simpl.
  - destruct (tx_put tx key value expected) as [tx'|] eqn:E; [|done]. unfold tx_put in E. inv_ok E.
    subst. by apply (with_mutation_ok tx (PutMutation key _ expected)).
  - destruct (tx_delete tx key expected) as [tx'|] eqn:E; [|done]. unfold tx_delete in E. inv_ok E.
    subst. by apply (with_mutation_ok tx (DeleteMutation key expected)).
  - unfold tx_appendOperation. destruct (assertActive tx); [|done].
    destruct (includes (tx_operationIds tx) (o_operationId entry)) eqn:E; [done|].
    apply includes_false in E. destruct Hok as [Hk Hi Ho].
    destruct (copy (o_state entry)) as [v|]; simpl; split; simpl; try done.
    + intros o [Hin| ->%list_elem_of_singleton]%elem_of_app; [right; auto|left].
    + rewrite map_app. apply NoDup_app. split_and!; [done| |apply NoDup_singleton].
      intros x (o & -> & Hin)%list_elem_of_fmap Hx%list_elem_of_singleton. simpl in Hx.
      apply E. rewrite <- Hx. auto.
    + intros o Hin. right. auto.
  - destruct (tx_enqueueOutbox tx message) as [tx'|] eqn:E; [|done]. unfold tx_enqueueOutbox in E. inv_ok E.
    subst. destruct Hok as [Hk Hi Ho]. by split.
Qed.

Lemma staged_of_ok tx : tx_ok tx → staged_ok (staged_of tx).
Proof.
  intros [Hk _ Ho]. split; simpl; [|done]. rewrite js_sort_perm. by apply NoDup_map_values.
Qed.

(** ** The guards of a commit *)
Lemma check_insert m muts next applied k r :
  check_mutations m muts = Ok (next, applied) → k ∉ map m_key muts →
  check_mutations (<[k := r]> m) muts = Ok (<[k := r]> next, applied).
Proof.
  revert m next applied. induction muts as [|mu muts IH]; intros m next applied H Hk.
  - injection H as <- <-. done.
  - apply not_elem_of_cons in Hk as [Hne Hk]. cbn [check_mutations] in *.
    apply bind_ok in H as (u & Hg & H). rewrite lookup_insert_ne by done. rewrite Hg, bind_ok_l.
    destruct mu as [key v e|key e]; cbn [m_key m_expected] in *.
    + apply bind_ok in H as ([n a] & H & [= <- <-]). by rewrite (IH _ _ _ H) by done.
    + destruct (m !! key).
      * apply bind_ok in H as ([n a] & H & [= <- <-]). rewrite delete_insert_ne by done.
        by rewrite (IH _ _ _ H) by done.
      * by apply IH.
Qed.

(** Applying a change to the records. *)
Definition apply_change (m : gmap StateKey StoredRecord) (c : StateChange) : gmap StateKey StoredRecord :=
  match ch_value c with
  | Some v => <[ch_key c := {| r_key := ch_key c; r_value := v; r_revision := ch_revision c |}]> m
  | None => delete (ch_key c) m
  end.

(** The changes a commit announces are what it does to the records. *)
Lemma check_replay rev muts m next applied :
  check_mutations m muts = Ok (next, applied) → NoDup (map m_key muts) →
  foldl apply_change m (map (change_of rev) applied) = put_records rev next applied.
Proof.
  revert m next applied. induction muts as [|mu muts IH]; intros m next applied H Hnd.
  - by injection H as <- <-.
  - apply NoDup_cons in Hnd as [Hk Hnd]. cbn [check_mutations] in H.
    apply bind_ok in H as (u & _ & H). destruct mu as [key v e|key e]; cbn [m_key] in *.
    + apply bind_ok in H as ([n a] & H & [= <- <-]). cbn [map foldl put_records].
      apply IH; [|done]. by apply check_insert.
    + destruct (m !! key).
      * apply bind_ok in H as ([n a] & H & [= <- <-]). cbn [map foldl put_records]. by apply IH.
      * by apply IH.
Qed.

(** What a mutation leaves of a record. *)
Definition mutated (rev : Z) (mu : Mutation) : option StoredRecord :=
  match mu with
  | PutMutation key value _ => Some {| r_key := key; r_value := value; r_revision := rev |}
  | DeleteMutation _ _ => None
  end.

Lemma check_guards muts m next applied :
  check_mutations m muts = Ok (next, applied) → NoDup (map m_key muts) →
  ∀ mu, mu ∈ muts → matchesExpectedRevision (m !! m_key mu) (m_expected mu) = true.
Proof.
  revert m next applied. induction muts as [|mu muts IH]; intros m next applied H Hnd mu' Hin.
  { by apply elem_of_nil in Hin. }
  apply NoDup_cons in Hnd as [Hk Hnd]. cbn [check_mutations] in H.
  apply bind_ok in H as (u & Hg%throw_if_ok & H). apply negb_false_iff in Hg.
  apply elem_of_cons in Hin as [->|Hin]; [done|].
  destruct mu as [key v e|key e]; cbn [m_key] in *.
  - apply bind_ok in H as ([n a] & H & _). by eapply IH.
  - destruct (m !! key).
    + apply bind_ok in H as ([n a] & H & _). rewrite <- (lookup_delete_ne m key); [by eapply IH|].
      intros ->. apply Hk. by apply list_elem_of_fmap_2.
    + by eapply IH.
Qed.

Lemma check_complete muts m :
  NoDup (map m_key muts) →
  (∀ mu, mu ∈ muts → matchesExpectedRevision (m !! m_key mu) (m_expected mu) = true) →
  ∃ next applied, check_mutations m muts = Ok (next, applied).
Proof.
  revert m. induction muts as [|mu muts IH]; intros m Hnd Hg; [by eexists _, _|].
  apply NoDup_cons in Hnd as [Hk Hnd]. cbn [check_mutations].
  rewrite (Hg mu) by left. cbn [negb throw_if]. rewrite bind_ok_l.
  destruct mu as [key v e|key e]; cbn [m_key m_expected] in *.
  - destruct (IH m Hnd) as (n & a & ->); [intros; apply Hg; by right|]. by eexists _, _.
  - destruct (m !! key).
    + destruct (IH (delete key m) Hnd) as (n & a & ->); [|by eexists _, _].
      intros mu Hin. rewrite lookup_delete_ne; [apply Hg; by right|].
      intros ->. apply Hk. by apply list_elem_of_fmap_2.
    + apply IH; [done|]. intros; apply Hg; by right.
Qed.

Lemma put_records_other rev applied next k :
  k ∉ map m_key applied → put_records rev next applied !! k = next !! k.
Proof.
  revert next. induction applied as [|mu applied IH]; intros next Hk; [done|].
  apply not_elem_of_cons in Hk as [Hne Hk]. cbn [put_records foldl].
  fold (put_records rev (match mu with PutMutation key value _ =>
    <[key := {| r_key := key; r_value := value; r_revision := rev |}]> next
    | DeleteMutation _ _ => next end) applied).
  rewrite IH by done. destruct mu; cbn [m_key] in *; [by rewrite lookup_insert_ne|done].
Qed.

Lemma applied_sub muts m next applied :
  check_mutations m muts = Ok (next, applied) → applied `sublist_of` muts.
Proof.
  revert m next applied. induction muts as [|mu muts IH]; intros m next applied H.
  - by injection H as <- <-.
  - cbn [check_mutations] in H. apply bind_ok in H as (u & _ & H). destruct mu as [key v e|key e]; cbn [m_key] in *.
    + apply bind_ok in H as ([n a] & H & [= <- <-]). apply sublist_skip. by eapply IH.
    + destruct (m !! key).
      * apply bind_ok in H as ([n a] & H & [= <- <-]). apply sublist_skip. by eapply IH.
      * apply sublist_cons. by eapply IH.
Qed.

Lemma next_other muts m next applied k :
  check_mutations m muts = Ok (next, applied) → k ∉ map m_key muts → next !! k = m !! k.
Proof.
  revert m next applied. induction muts as [|mu muts IH]; intros m next applied H Hk.
  - by injection H as <- <-.
  - apply not_elem_of_cons in Hk as [Hne Hk]. cbn [check_mutations] in H.
    apply bind_ok in H as (u & _ & H). destruct mu as [key v e|key e]; cbn [m_key] in *.
    + apply bind_ok in H as ([n a] & H & [= <- <-]). by eapply IH.
    + destruct (m !! key).
      * apply bind_ok in H as ([n a] & H & [= <- <-]). rewrite (IH _ _ _ H Hk).
        by apply lookup_delete_ne.
      * by eapply IH.
Qed.

Lemma keys_of_applied muts m next applied k :
  check_mutations m muts = Ok (next, applied) → k ∉ map m_key muts → k ∉ map m_key applied.
Proof.
  intros H Hk Hin. apply Hk. apply list_elem_of_fmap in Hin as (mu & -> & Hin).
  apply list_elem_of_fmap_2. eapply elem_of_submseteq; [done|].
  by eapply sublist_submseteq, applied_sub.
Qed.

(** The records after a commit: each mutation decides its key. *)
Lemma check_lookup rev muts m next applied :
  check_mutations m muts = Ok (next, applied) → NoDup (map m_key muts) →
  (∀ mu, mu ∈ muts → put_records rev next applied !! m_key mu = mutated rev mu) ∧
  (∀ k, k ∉ map m_key muts → put_records rev next applied !! k = m !! k).
Proof.
  intros H Hnd. split.
  2: { intros k Hk. rewrite put_records_other by (by eapply keys_of_applied). by eapply next_other. }
  revert m next applied H. induction muts as [|mu muts IH]; intros m next applied H mu' Hin.
  { by apply elem_of_nil in Hin. }
  apply NoDup_cons in Hnd as [Hk Hnd]. cbn [check_mutations] in H.
  apply bind_ok in H as (u & _ & H). destruct mu as [key v e|key e]; cbn [m_key] in *.
  - apply bind_ok in H as ([n a] & H & [= <- <-]).
    change (put_records rev n (PutMutation key v e :: a)) with
      (put_records rev (<[key := {| r_key := key; r_value := v; r_revision := rev |}]> n) a).
    pose proof (check_insert _ _ _ _ key {| r_key := key; r_value := v; r_revision := rev |} H Hk) as H'.
    apply elem_of_cons in Hin as [->|Hin]; [|by eapply IH].
    rewrite put_records_other by (by eapply keys_of_applied). simpl. by rewrite lookup_insert_eq.
  - destruct (m !! key) eqn:E.
    + apply bind_ok in H as ([n a] & H & [= <- <-]).
      change (put_records rev n (DeleteMutation key e :: a)) with (put_records rev n a).
      apply elem_of_cons in Hin as [->|Hin]; [|by eapply IH].
      rewrite put_records_other by (by eapply keys_of_applied). simpl.
      rewrite (next_other _ _ _ _ _ H Hk). by rewrite lookup_delete_eq.
    + apply elem_of_cons in Hin as [->|Hin]; [|by eapply IH].
      rewrite put_records_other by (by eapply keys_of_applied). simpl.
      by rewrite (next_other _ _ _ _ _ H Hk).
Qed.

(** ** The outbox *)
Record message_ok (i : jstring) (sequence : Z) (s : StoredOutboxMessage) : Prop := {
  ms_id : messageId (s_message s) = i;
  ms_sequence : 0 < s_enqueueSequence s ≤ sequence;
  ms_attempt : 0 ≤ s_attempt s ≤ MAX_SAFE_INTEGER;
  ms_claim c : s_claim s = Some c → c_claimEpoch c = s_attempt s ∧ c_attempt c = s_attempt s;
  ms_exclusive : s_claim s = None ∨ s_acknowledgement s = None;
  ms_available : validTimestamp (availableAt (s_message s)) = true;
}.
Record outbox_ok (box : gmap jstring StoredOutboxMessage) (sequence : Z) : Prop := {
  ob_message i s : box !! i = Some s → message_ok i sequence s;
  ob_distinct i j s t : box !! i = Some s → box !! j = Some t →
    s_enqueueSequence s = s_enqueueSequence t → i = j;
  ob_sequence : 0 ≤ sequence;
}.

Lemma message_ok_le i sequence sequence' s :
  sequence ≤ sequence' → message_ok i sequence s → message_ok i sequence' s.
Proof. intros Hle [? Hs ????]. split; try done. lia. Qed.

(** Replacing a message by one of the same place. *)
Lemma outbox_ok_update box sequence i s s' :
  outbox_ok box sequence → box !! i = Some s → message_ok i sequence s' →
  s_enqueueSequence s' = s_enqueueSequence s → outbox_ok (<[i := s']> box) sequence.
Proof.
  intros [Hm Hd Hs] Hi Hok E. split; [| |done].
  - intros j t. destruct (decide (i = j)) as [<-|]; [rewrite lookup_insert_eq|rewrite lookup_insert_ne by done];
      naive_solver.
  - intros j k t u.
    destruct (decide (i = j)) as [<-|]; [rewrite lookup_insert_eq|rewrite lookup_insert_ne by done];
    (destruct (decide (i = k)) as [<-|]; [rewrite lookup_insert_eq|rewrite lookup_insert_ne by done]);
    intros Ht Hu E'; simplify_eq; try done.
    + apply (Hd i k s u); congruence.
    + apply (Hd j i t s); congruence.
    + by eapply Hd.
Qed.

Lemma outbox_ok_enqueue box sequence m :
  outbox_ok box sequence → validTimestamp (availableAt m) = true →
  outbox_ok (enqueue_messages (box, sequence) [m]).1 (sequence + 1).
Proof.
  intros [Hm Hd Hs] Hv. simpl. split; [| |lia].
  - intros j t. destruct (decide (messageId m = j)) as [<-|];
      [rewrite lookup_insert_eq|rewrite lookup_insert_ne by done]; intros Ht.
    + injection Ht as <-. split; simpl; (done || lia || auto).
    + apply (message_ok_le _ sequence); [lia|auto].
  - assert (∀ j t, box !! j = Some t → s_enqueueSequence t ≠ sequence + 1) as Hne.
    { intros j t Ht. apply Hm in Ht as [? ? _ _ _ _]. lia. }
    intros j k t u.
    destruct (decide (messageId m = j)) as [<-|]; [rewrite lookup_insert_eq|rewrite lookup_insert_ne by done];
    (destruct (decide (messageId m = k)) as [<-|]; [rewrite lookup_insert_eq|rewrite lookup_insert_ne by done]);
    intros Ht Hu E'; simplify_eq/=; try done.
    + exfalso. by eapply Hne.
    + exfalso. by eapply Hne.
    + by eapply Hd.
Qed.

Lemma outbox_ok_enqueue_all box sequence ms :
  outbox_ok box sequence → Forall (λ m, validTimestamp (availableAt m) = true) ms →
  outbox_ok (enqueue_messages (box, sequence) ms).1 (enqueue_messages (box, sequence) ms).2.
Proof.
  revert box sequence. induction ms as [|m ms IH]; intros box sequence Hok Hv; [done|].
  apply Forall_cons in Hv as [Hm Hv]. pose proof (outbox_ok_enqueue _ _ _ Hok Hm) as Hok'.
  by specialize (IH _ _ Hok' Hv).
Qed.

Section with_text.
Context (number_text : jsnum → jstring).

Lemma new_messages_valid existing acc ms acc' :
  new_messages number_text existing acc ms = Ok acc' →
  Forall (λ m, validTimestamp (availableAt m) = true) (JsMap.values acc) →
  Forall (λ m, validTimestamp (availableAt m) = true) (JsMap.values acc').
Proof.
  revert acc. induction ms as [|m ms IH]; intros acc H Hacc; [by injection H as <-|].
  cbn [new_messages] in H. apply bind_ok in H as (u & _ & H).
  apply bind_ok in H as (u' & [_ Hv%negb_false_iff]%throw_if_ok%orb_false_iff & H).
  destruct (JsMap.get acc (messageId m)) as [e|] eqn:E.
  - apply bind_ok in H as (? & _ & H). by eapply IH.
  - assert (Forall (λ m, validTimestamp (availableAt m) = true)
      (JsMap.values (JsMap.set acc (messageId m) m))) as Hset.
    { rewrite JsMap.set_absent by (by apply JsMap.get_None).
      unfold JsMap.values. rewrite fmap_app. apply Forall_app. split; [done|]. by constructor. }
    destruct (existing !! messageId m) as [stored|]; [|by eapply IH].
    destruct (match s_acknowledgement stored with Some a => _ | None => _ end); [by eapply IH|].
    apply bind_ok in H as (? & _ & H). by eapply IH.
Qed.

(** ** The store *)
Record store_ok (st : MemoryStateStore) : Prop := {
  ok_revision : 0 ≤ revision st;
  ok_replay : foldl apply_change ∅ (changes st) = records st;
  ok_changes : Forall (λ c, 0 < ch_revision c ≤ revision st) (changes st);
  ok_changes_sorted : StronglySorted (λ a b, ch_revision a ≤ ch_revision b) (changes st);
  ok_operations : foldl (λ m e, <[o_operationId (p_entry e) := e]> m) ∅ (operationHistory st) = operations st;
  ok_history : Forall (λ e, 0 < p_revision e ≤ revision st) (operationHistory st);
  ok_cursors : NoDup (map cursor_of (operationHistory st));
  ok_outbox : outbox_ok (outbox st) (outboxSequence st);
}.

(** How the store moves: what is committed stays, what is new is newer. *)
Record evolves (st st' : MemoryStateStore) : Prop := {
  ev_revision : revision st ≤ revision st';
  ev_changes : ∃ more, changes st' = changes st ++ more ∧ Forall (λ c, revision st < ch_revision c) more;
  ev_history : ∃ more, operationHistory st' = operationHistory st ++ more ∧
                       Forall (λ e, revision st < p_revision e) more;
  ev_fences r e : fences st !! r = Some e → ∃ e', fences st' !! r = Some e' ∧ e ≤ e';
  ev_records k r : records st' !! k = Some r → records st !! k = Some r ∨ revision st < r_revision r;
}.

#[export] Instance evolves_preorder : PreOrder evolves.
Proof.
  split.
  - intros st. split; [lia|exists []; by rewrite app_nil_r|exists []; by rewrite app_nil_r| |auto].
    intros r e He. exists e. split; [done|lia].
  - intros a b c [R1 (m1 & C1 & FC1) (h1 & H1 & FH1) F1 K1] [R2 (m2 & C2 & FC2) (h2 & H2 & FH2) F2 K2].
    split; [lia| | | |].
    + exists (m1 ++ m2). rewrite C2, C1, app_assoc. split; [done|]. apply Forall_app. split; [done|].
      eapply Forall_impl; [exact FC2|]. simpl. lia.
    + exists (h1 ++ h2). rewrite H2, H1, app_assoc. split; [done|]. apply Forall_app. split; [done|].
      eapply Forall_impl; [exact FH2|]. simpl. lia.
    + intros r e He. destruct (F1 _ _ He) as (e' & He' & ?). destruct (F2 _ _ He') as (e'' & ? & ?).
      exists e''. split; [done|lia].
    + intros k r Hr. destruct (K2 _ _ Hr) as [Hr'|]; [|right; lia]. destruct (K1 _ _ Hr'); auto.
Qed.

Lemma replay_in m cs k r :
  foldl apply_change m cs !! k = Some r →
  m !! k = Some r ∨ ∃ c, c ∈ cs ∧ ch_key c = k ∧ r_key r = k ∧ r_revision r = ch_revision c.
Proof.
  revert m. induction cs as [|c cs IH]; intros m H; [by left|]. cbn [foldl] in H.
  destruct (IH _ H) as [Hm|(c' & Hc & ?)]; [|right; exists c'; split; [by right|done]].
  unfold apply_change in Hm. destruct (ch_value c).
  - destruct (decide (ch_key c = k)) as [<-|Hne].
    + rewrite lookup_insert_eq in Hm. injection Hm as <-. right. exists c. split; [left|done].
    + rewrite lookup_insert_ne in Hm by done. auto.
  - destruct (decide (ch_key c = k)) as [<-|Hne]; [by rewrite lookup_delete_eq in Hm|].
    rewrite lookup_delete_ne in Hm by done. auto.
Qed.

Lemma ok_records st k r :
  store_ok st → records st !! k = Some r → r_key r = k ∧ 0 < r_revision r ≤ revision st.
Proof.
  intros Hok Hr. rewrite <- (ok_replay _ Hok) in Hr.
  destruct (replay_in _ _ _ _ Hr) as [Hn|(c & Hc & ? & ? & E)]; [by rewrite lookup_empty in Hn|].
  pose proof (ok_changes _ Hok) as HF. rewrite Forall_forall in HF. specialize (HF _ Hc). simpl in HF.
  split; [done|lia].
Qed.

Lemma sorted_app {A} (R : A → A → Prop) l k :
  StronglySorted R l → StronglySorted R k → (∀ x y, x ∈ l → y ∈ k → R x y) → StronglySorted R (l ++ k).
Proof.
  intros Hl Hk H. induction Hl as [|x l Hl IH Hx]; [done|]. simpl. constructor.
  - apply IH. intros. apply H; [by right|done].
  - apply Forall_app. split; [done|]. apply Forall_forall. intros. apply H; [left|done].
Qed.

Lemma assertFence_spec st fencing adv :
  assertFence st fencing = Ok adv →
  match fencing with
  | None => adv = false
  | Some f => (∀ e, fences st !! resource f = Some e → e ≤ epoch f) ∧
              adv = match fences st !! resource f with None => true | Some e => e <? epoch f end
  end.
Proof.
  unfold assertFence. destruct fencing as [f|]; [|by intros [= <-]].
  intros (u & Hg%throw_if_ok & [= <-])%bind_ok. split; [|done]. intros e He. rewrite He in Hg.
  apply Z.ltb_ge in Hg. lia.
Qed.

Lemma advance_fence_mono st fencing adv r e :
  assertFence st fencing = Ok adv → fences st !! r = Some e →
  ∃ e', advance_fence fencing (fences st) !! r = Some e' ∧ e ≤ e'.
Proof.
  intros H%assertFence_spec He. destruct fencing as [f|]; simpl; [|by exists e].
  destruct H as [H _]. destruct (decide (resource f = r)) as [<-|].
  - rewrite lookup_insert_eq. eauto.
  - rewrite lookup_insert_ne by done. eauto with lia.
Qed.

(** Changes to the outbox and the fences only. *)
Lemma with_outbox_ok st box fs rev :
  store_ok st → outbox_ok box (outboxSequence st) → revision st ≤ rev →
  (∀ r e, fences st !! r = Some e → ∃ e', fs !! r = Some e' ∧ e ≤ e') →
  store_ok (with_outbox st box fs rev) ∧ evolves st (with_outbox st box fs rev).
Proof.
  intros [? ? Hc ? ? Hh ? ?] Hbox Hrev Hf. split; split; simpl; try done.
  - lia.
  - eapply Forall_impl; [exact Hc|]. simpl. lia.
  - eapply Forall_impl; [exact Hh|]. simpl. lia.
  - exists []. by rewrite app_nil_r.
  - exists []. by rewrite app_nil_r.
  - auto.
Qed.

Lemma apply_commit_ok st fencing adv next applied muts entries ms :
  store_ok st → check_mutations (records st) muts = Ok (next, applied) →
  NoDup (map m_key muts) → NoDup (map o_operationId entries) →
  Forall (λ m, validTimestamp (availableAt m) = true) ms → assertFence st fencing = Ok adv →
  let st' := apply_commit st fencing adv next applied entries ms in store_ok st' ∧ evolves st st'.
Proof.
  intros Hok Hcheck Hkeys Hids Hms Hfence st'.
  pose proof (check_replay (revision st + 1) _ _ _ _ Hcheck Hkeys) as Hreplay.
  assert (Forall (λ c, ch_revision c = revision st + 1) (map (change_of (revision st + 1)) applied)) as Hnew.
  { apply Forall_forall. intros c ([| ] & -> & _)%list_elem_of_fmap; done. }
  assert (Forall (λ e, p_revision e = revision st + 1) (map (persist (revision st + 1)) entries)) as Hnewh.
  { apply Forall_forall. intros c (? & -> & _)%list_elem_of_fmap; done. }
  pose proof (ok_changes _ Hok) as Hc. pose proof (ok_history _ Hok) as Hh. pose proof (ok_revision _ Hok).
  split; split; subst st'; cbn -[map foldl].
  - lia.
  - by rewrite foldl_app, (ok_replay _ Hok), Hreplay.
  - apply Forall_app. split; [eapply Forall_impl; [exact Hc|]|eapply Forall_impl; [exact Hnew|]]; simpl; lia.
  - apply sorted_app; [apply ok_changes_sorted, Hok| |].
    + clear -Hnew. induction Hnew as [|c cs E Hnew IH]; constructor; [done|].
      eapply Forall_impl; [exact Hnew|]. simpl. lia.
    + rewrite Forall_forall in Hc, Hnew. intros x y Hx Hy. specialize (Hc _ Hx). specialize (Hnew _ Hy).
      simpl in *. lia.
  - by rewrite foldl_app, (ok_operations _ Hok).
  - apply Forall_app. split; [eapply Forall_impl; [exact Hh|]|eapply Forall_impl; [exact Hnewh|]]; simpl; lia.
  - rewrite map_app. apply NoDup_app. split_and!; [apply ok_cursors, Hok| |].
    + intros x (a & -> & Ha)%list_elem_of_fmap (b & E & Hb)%list_elem_of_fmap.
      rewrite Forall_forall in Hh, Hnewh. specialize (Hh _ Ha). specialize (Hnewh _ Hb).
      unfold cursor_of in E. injection E as E _. simpl in *. lia.
    + rewrite map_map. apply (NoDup_fmap_1 cu_operationId). rewrite <- list_fmap_compose. done.
  - by apply outbox_ok_enqueue_all; [apply ok_outbox|].
  - lia.
  - eexists. split; [done|]. eapply Forall_impl; [exact Hnew|]. simpl. lia.
  - eexists. split; [done|]. eapply Forall_impl; [exact Hnewh|]. simpl. lia.
  - intros r e He. destruct adv; [by eapply advance_fence_mono|]. eauto with lia.
  - intros k r Hr. rewrite <- Hreplay in Hr. destruct (replay_in _ _ _ _ Hr) as [|(c & Hc' & _ & _ & E)]; [by left|].
    rewrite Forall_forall in Hnew. specialize (Hnew _ Hc'). simpl in Hnew. right. lia.
Qed.

Lemma remember_ok st identity result : store_ok st → store_ok (remember st identity result).
Proof. intros []. by destruct identity. Qed.
Lemma remember_evolves st st' identity result :
  evolves st st' → evolves st (remember st' identity result).
Proof. intros []. by destruct identity. Qed.

Lemma commit_inv st fencing identity staged result st' :
  commit number_text st fencing identity staged result = Ok st' →
  lifecycle st = StoreOpen ∧ ∃ next applied box adv,
    check_mutations (records st) (st_mutations staged) = Ok (next, applied) ∧
    new_messages number_text (outbox st) [] (st_outbox staged) = Ok box ∧
    assertFence st fencing = Ok adv ∧
    st' = remember
      (if nonempty applied || nonempty (st_operations staged) || nonempty (JsMap.values box) || adv
       then apply_commit st fencing adv next applied (st_operations staged) (JsMap.values box) else st)
      identity result.
Proof.
  unfold commit. intros (u & Ho & H)%bind_ok. apply bind_ok in H as ([next applied] & Hc & H).
  apply bind_ok in H as (box & Hb & H). apply bind_ok in H as (adv & Hf & [= <-]).
  split; [|by eexists _, _, _, _]. unfold assertOpen in Ho. by destruct (lifecycle st).
Qed.

Lemma commit_ok st fencing identity staged result st' :
  store_ok st → staged_ok staged → commit number_text st fencing identity staged result = Ok st' →
  store_ok st' ∧ evolves st st'.
Proof.
  intros Hok [Hkeys Hids] (_ & next & applied & box & adv & Hc & Hb & Hf & ->)%commit_inv.
  case_match.
  - destruct (apply_commit_ok st fencing adv next applied _ (st_operations staged) (JsMap.values box) Hok Hc)
      as [Hok' Hev]; [done..| |done|].
    { eapply new_messages_valid; [done|constructor]. }
    split; [by apply remember_ok|by apply remember_evolves].
  - split; [by apply remember_ok|by apply remember_evolves].
Qed.

(** ** Claims *)
Definition stored_id (s : StoredOutboxMessage) : jstring := messageId (s_message s).
Definition eligible (request : OutboxClaimRequest) (now : Z) (s : StoredOutboxMessage) : bool :=
  negb (skipped request now s).

Lemma claim_message_ok request now lease at_ i sequence s s' c :
  message_ok i sequence s → claim_message request now lease at_ s = Ok (s', c) →
  message_ok i sequence s' ∧ s_message s' = s_message s ∧ s_enqueueSequence s' = s_enqueueSequence s ∧
  s_claim s' = Some c ∧ c_message c = s_message s ∧ c_owner c = cr_owner request ∧
  c_claimEpoch c = s_attempt s + 1 ∧ s_attempt s' = s_attempt s + 1.
Proof.
  intros [? ? ? ? ? ?]. unfold claim_message. intros H.
  apply bind_ok in H as (? & Hs%throw_if_ok%negb_false_iff & H).
  apply bind_ok in H as (expires & _ & [= <- <-]). apply isSafeInteger_spec in Hs. simpl.
  split_and!; try done. split; simpl; try done; [lia| |by right]. by intros c [= <-].
Qed.

Lemma claim_loop_spec request now lease at_ room sorted box sequence box' res :
  claim_loop request now lease at_ room sorted box = (box', res) →
  outbox_ok box sequence → NoDup (map stored_id sorted) →
  (∀ s, s ∈ sorted → box !! stored_id s = Some s) →
  outbox_ok box' sequence ∧
  match res with
  | Err _ => True
  | Ok cs =>
      let chosen := take (Nat.max 1 room) (List.filter (eligible request now) sorted) in
      Forall2 (λ s c, ∃ s', claim_message request now lease at_ s = Ok (s', c) ∧
                            box' !! stored_id s = Some s') chosen cs ∧
      ∀ i, i ∉ map stored_id chosen → box' !! i = box !! i
  end.
Proof.
  revert room box box' res. induction sorted as [|s sorted IH]; intros room box box' res H Hok Hnd Hin.
  { injection H as <- <-. split; [done|]. cbv zeta. cbn [List.filter]. rewrite take_nil.
    by split; [constructor|]. }
  cbn [map] in Hnd. apply NoDup_cons in Hnd as [Hs Hnd]. cbn [claim_loop] in H. cbn [List.filter].
  destruct (eligible request now s) eqn:Ee; unfold eligible in Ee;
    [apply negb_true_iff in Ee|apply negb_false_iff in Ee]; rewrite Ee in H.
  2: { eapply IH; [done..|]. intros; apply Hin; by right. }
  assert (box !! stored_id s = Some s) as Hbox by (apply Hin; left).
  destruct (claim_message request now lease at_ s) as [[s' c]|e] eqn:Ec.
  2: { injection H as <- <-. split; [done|done]. }
  pose proof (ob_message _ _ Hok _ _ Hbox) as Hm.
  destruct (claim_message_ok _ _ _ _ _ _ _ _ _ Hm Ec) as (Hm' & _ & Eq & _).
  assert (outbox_ok (<[stored_id s := s']> box) sequence) as Hok'
    by (by eapply outbox_ok_update).
  change (messageId (s_message s)) with (stored_id s) in H.
  assert (∀ t, t ∈ sorted → <[stored_id s := s']> box !! stored_id t = Some t) as Hin'.
  { intros t Ht. rewrite lookup_insert_ne; [apply Hin; by right|]. intros E. apply Hs.
    rewrite E. by apply list_elem_of_fmap_2. }
  destruct room as [|[|room]].
  1,2: injection H as <- <-; split; [done|]; simpl; split;
    [constructor; [|constructor]; exists s'; by rewrite lookup_insert_eq|];
    intros i Hi%not_elem_of_cons; by rewrite lookup_insert_ne by naive_solver.
  destruct (claim_loop request now lease at_ (S room) sorted _) as [box'' cs] eqn:El.
  injection H as -> <-. destruct (IH _ _ _ _ El Hok' Hnd Hin') as [Hok'' Hspec]. split; [done|].
  destruct cs as [cs|]; [|done]. cbn. destruct Hspec as [HF Hother].
  replace (Nat.max 1 (S room)) with (S room) in * by lia.
  assert (stored_id s ∉ map stored_id (take (S room) (List.filter (eligible request now) sorted))) as Hnot.
  { intros Hc. apply Hs. apply list_elem_of_fmap in Hc as (t & E & Ht). rewrite E.
    apply list_elem_of_fmap_2. apply elem_of_take in Ht as (k & Hk & _). apply list_elem_of_lookup_2 in Hk.
    by apply elem_of_filterb in Hk as [? _]. }
  split.
  - constructor; [|done]. exists s'. split; [done|]. rewrite Hother by done. by rewrite lookup_insert_eq.
  - intros i Hi. apply not_elem_of_cons in Hi as [Hne Hi]. rewrite Hother by done.
    by rewrite lookup_insert_ne.
Qed.

Lemma outbox_sorted_NoDup st :
  store_ok st → NoDup (map stored_id (js_sort compare_outbox (map_values (outbox st)))).
Proof.
  intros Hok. rewrite js_sort_perm. apply NoDup_map_values. intros i s Hs.
  by apply (ms_id _ _ _ (ob_message _ _ (ok_outbox _ Hok) _ _ Hs)).
Qed.

Lemma outbox_sorted_in st s :
  store_ok st → s ∈ js_sort compare_outbox (map_values (outbox st)) → outbox st !! stored_id s = Some s.
Proof.
  intros Hok [i Hi]%elem_of_js_sort%elem_of_map_values. unfold stored_id.
  by rewrite (ms_id _ _ _ (ob_message _ _ (ok_outbox _ Hok) _ _ Hi)).
Qed.

Lemma claimOutbox_ok st request limit now :
  store_ok st →
  let st' := (claimOutbox st request limit now).1 in store_ok st' ∧ evolves st st'.
Proof.
  intros Hok. unfold claimOutbox.
  destruct (assertOpen st;; _) as [[adv at_]|e] eqn:E; [|done].
  inv_ok E. subst. destruct (claim_loop _ _ _ _ _ _ _) as [box cs] eqn:El.
  destruct (claim_loop_spec _ _ _ _ _ _ _ _ _ _ El (ok_outbox _ Hok) (outbox_sorted_NoDup _ Hok)
    (λ s, outbox_sorted_in st s Hok)) as [Hbox _].
  assert (∀ r e, fences st !! r = Some e → ∃ e', fences st !! r = Some e' ∧ e ≤ e') by eauto with lia.
  destruct cs as [cs|e]; simpl; [case_match|]; apply with_outbox_ok; try (done || lia).
  intros r e He. by eapply advance_fence_mono.
Qed.

Lemma acknowledgeOutbox_ok st request now st' a :
  store_ok st → assertOutboxAcknowledgementRequest request = Ok tt →
  acknowledgeOutbox st request now = Ok (st', a) → store_ok st' ∧ evolves st st'.
Proof.
  intros Hok Hreq. unfold acknowledgeOutbox. intros H.
  apply bind_ok in H as (u & _ & H). apply bind_ok in H as (adv & Hf & H).
  assert (∀ r e, fences st !! r = Some e → ∃ e',
    (if adv then advance_fence (ar_fencing request) (fences st) else fences st) !! r = Some e' ∧ e ≤ e') as Hfs.
  { intros r e He. destruct adv; [by eapply advance_fence_mono|]. eauto with lia. }
  destruct (outbox st !! ar_messageId request) as [s|] eqn:Hs; [|done].
  pose proof (ob_message _ _ (ok_outbox _ Hok) _ _ Hs) as Hm.
  destruct (s_acknowledgement s) as [prev|] eqn:Ea.
  - destruct (same_claim (s_acknowledgedClaim s) request).
    + apply bind_ok in H as (? & _ & [= <- <-]). destruct adv; [|done].
      apply with_outbox_ok; [done|apply ok_outbox, Hok|lia|done].
    + destruct (ms_exclusive _ _ _ Hm) as [En|]; [|congruence]. by rewrite En in H.
  - destruct (s_claim s) as [claim|] eqn:Ecl; [|done].
    apply bind_ok in H as (? & _ & H). apply bind_ok in H as (? & _ & [= <- <-]).
    apply with_outbox_ok; [done| |lia|done]. eapply outbox_ok_update; [apply ok_outbox, Hok|done| |done].
    destruct Hm. split; simpl; try done; [|by left|].
    + by destruct (ar_outcome request), (ar_retryAt request).
    + unfold assertOutboxAcknowledgementRequest in Hreq. apply throw_if_ok in Hreq. to_prop.
      destruct (ar_outcome request), (ar_retryAt request); simpl; try done. by apply negb_false_iff.
Qed.

Lemma watchers_ok st l ws : store_ok st → store_ok (with_lifecycle st l ws) ∧ evolves st (with_lifecycle st l ws).
Proof. intros []. split; [by split|]. split; simpl; eauto using app_nil_r with lia. all: exists []; by rewrite app_nil_r. Qed.

(** ** Calls *)
Definition pending_commits (q : list pending) : list nat :=
  omap (λ p, match p with PendingCommit c _ _ _ _ => Some c | _ => None end) q.
Definition rejected (o : outcome) : Prop := match o with Rejected _ => True | _ => False end.

Record calls_ok (s : system) : Prop := {
  co_tx c k f tx : calls s !! c = Some k → k_role k = Executing f tx →
    tx_ok tx ∧ (tx_active tx = true → k_outcome k = Pending ∧ c ∉ pending_commits (queue s));
  co_queue : NoDup (pending_commits (queue s));
  co_commit c f i staged v : PendingCommit c f i staged v ∈ queue s → staged_ok staged ∧
    ∃ tx, calls s !! c = Some {| k_identity := i; k_role := Executing f tx; k_outcome := Pending |};
  co_flying c k i f tx : calls s !! c = Some k → k_role k = Executing f tx → k_identity k = Some i →
    k_outcome k = Pending →
    inFlight s !! i_key i = Some {| f_leader := c; f_fingerprint := i_fingerprint i |} ∧
    idempotency (store s) !! i_key i = None;
  co_resolved c k i v : calls s !! c = Some k → k_identity k = Some i → k_outcome k = Resolved v →
    idempotency (store s) !! i_key i = Some {| ir_fingerprint := i_fingerprint i; ir_result := v |};
  co_leader key f : inFlight s !! key = Some f → ∃ k i fencing tx,
    calls s !! f_leader f = Some k ∧ k_role k = Executing fencing tx ∧ k_identity k = Some i ∧
    i_key i = key ∧ i_fingerprint i = f_fingerprint f;
  co_joined c k l : calls s !! c = Some k → k_role k = Joined l → ∃ k' fencing tx,
    calls s !! l = Some k' ∧ k_role k' = Executing fencing tx ∧ k_outcome k = k_outcome k' ∧
    k_identity k = k_identity k';
  co_unique c c' k k' i i' f f' tx tx' : calls s !! c = Some k → calls s !! c' = Some k' →
    k_role k = Executing f tx → k_role k' = Executing f' tx' →
    k_identity k = Some i → k_identity k' = Some i' → i_key i = i_key i' →
    ¬ rejected (k_outcome k) → ¬ rejected (k_outcome k') → c = c';
}.

Lemma elem_of_pending_commits c q :
  c ∈ pending_commits q ↔ ∃ f i staged v, PendingCommit c f i staged v ∈ q.
Proof.
  unfold pending_commits. rewrite list_elem_of_omap. split.
  - intros ([] & Hin & E); simplify_eq. eauto.
  - intros (f & i & staged & v & Hin). eauto.
Qed.

Lemma settle_lookup s c o i :
  calls (settle s c o) !! i =
  (λ k, if bool_decide (i = c) || match k_role k with Joined l => bool_decide (l = c) | _ => false end
        then {| k_identity := k_identity k; k_role := k_role k; k_outcome := o |} else k) <$> calls s !! i.
Proof. simpl. rewrite map_lookup_imap. by destruct (calls s !! i). Qed.

(** A settled call keeps its identity and its role. *)
Lemma settle_inv s c o i k :
  calls (settle s c o) !! i = Some k →
  ∃ k0, calls s !! i = Some k0 ∧ k_identity k = k_identity k0 ∧ k_role k = k_role k0 ∧
        ((i = c ∨ k_role k0 = Joined c) ∧ k_outcome k = o ∨
         i ≠ c ∧ k_role k0 ≠ Joined c ∧ k = k0).
Proof.
  rewrite settle_lookup. intros (k0 & E & Hk)%fmap_Some. exists k0. split; [done|]. subst k.
  case_match eqn:Eb; simpl; split_and!; try done.
  - left. split; [|done]. apply orb_true_iff in Eb as [Eb|Eb]; [apply bool_decide_eq_true in Eb; by left|].
    right. destruct (k_role k0); try done. apply bool_decide_eq_true in Eb. by subst.
  - right. apply orb_false_iff in Eb as [E1 E2]. apply bool_decide_eq_false in E1.
    split_and!; [done| |done]. intros Ej. rewrite Ej in E2. by apply bool_decide_eq_false in E2.
Qed.

Lemma settle_other s c o i k :
  calls s !! i = Some k → i ≠ c → k_role k ≠ Joined c → calls (settle s c o) !! i = Some k.
Proof.
  intros E Hi Hk. rewrite settle_lookup, E. simpl. rewrite bool_decide_false by done. simpl.
  destruct (k_role k); try done. rewrite bool_decide_false; [done|]. by intros ->.
Qed.

Lemma settle_ok s st c k f tx o :
  calls_ok s → calls s !! c = Some k → k_role k = Executing f tx → tx_active tx = false →
  k_outcome k = Pending → c ∉ pending_commits (queue s) → o ≠ Pending →
  idempotency st =
    match k_identity k, o with
    | Some i, Resolved v =>
        <[i_key i := {| ir_fingerprint := i_fingerprint i; ir_result := v |}]> (idempotency (store s))
    | _, _ => idempotency (store s)
    end →
  calls_ok (settle (set_store s st) c o).
Proof.
  intros Hok Hc Hrole Hact Hout Hq Ho Hst. pose proof (co_flying _ Hok c k) as Hfly.
  split; cbn [queue inFlight settle set_store store].
  - intros c' k' f' tx' (k0 & E & Ei & Er & [[[-> |Hj] Eo]|(Hne & Hj & ->)])%settle_inv Hr'; cbn in E.
    + assert (Executing f tx = Executing f' tx') as [= <- <-] by congruence.
      split; [by apply (co_tx _ Hok c k f tx)|congruence].
    + congruence.
    + by eapply (co_tx _ Hok c').
  - apply Hok.
  - intros c' f' i staged v Hin. destruct (co_commit _ Hok _ _ _ _ _ Hin) as (Hs & tx' & E).
    split; [done|]. exists tx'. apply settle_other; [done| |done]. intros ->. apply Hq, elem_of_pending_commits. eauto.
  - intros c' k' i f' tx' (k0 & E & Ei & Er & [[_ Eo]|(Hne & Hj & ->)])%settle_inv Hr' Hi Hp; [congruence|].
    cbn in E. destruct (co_flying _ Hok c' _ i f' tx' E Hr' Hi Hp) as [Hf Hn]. split; [done|]. rewrite Hst.
    destruct (k_identity k) as [ic|] eqn:Eic; [|done]. destruct o; try done.
    destruct (Hfly ic f tx Hc Hrole eq_refl Hout) as [Hf' _].
    rewrite lookup_insert_ne; [done|]. intros Ek. rewrite Ek in Hf'. congruence.
  - intros c' k' i v (k0 & E & Ei & Er & Hcase)%settle_inv Hi Hv. cbn in E.
    assert (k_identity k0 = k_identity k ∧ o = Resolved v ∨ k' = k0) as [[Eid ->]| ->].
    { destruct Hcase as [[[-> |Hj] Eo]|(_ & _ & ->)]; [left..|by right].
      - split; congruence.
      - destruct (co_joined _ Hok _ _ _ E Hj) as (kl & ? & ? & El & _ & _ & ->). split; congruence. }
    + rewrite Hst, <- Eid, <- Ei, Hi. apply lookup_insert_eq.
    + pose proof (co_resolved _ Hok _ _ _ _ E Hi Hv) as Hr. rewrite Hst.
      destruct (k_identity k) as [ic|] eqn:Eic; [|done]. destruct o; try done.
      destruct (Hfly ic f tx Hc Hrole eq_refl Hout) as [_ Hn].
      rewrite lookup_insert_ne; [done|]. intros Ek. rewrite Ek in Hn. congruence.
  - intros key g Hg. destruct (co_leader _ Hok _ _ Hg) as (k0 & i & f0 & tx0 & E & Er & Hi & ? & ?).
    rewrite settle_lookup. cbn. rewrite E. simpl. eexists _, i, f0, tx0. split; [done|]. clear Hst Hfly. case_match; simpl; auto.
  - intros c' k' l (k0 & E & Ei & Er & Hcase)%settle_inv Hl. cbn in E.
    destruct (co_joined _ Hok c' k0 l E ltac:(congruence)) as (kl & f0 & tx0 & El & Erl & Eo & Eil).
    destruct (decide (l = c)) as [->|Hne].
    + exists {| k_identity := k_identity kl; k_role := k_role kl; k_outcome := o |}, f0, tx0.
      rewrite settle_lookup. cbn. rewrite El. simpl. rewrite bool_decide_true by done. simpl.
      split_and!; try done; [|congruence]. destruct Hcase as [[_ ?]|(_ & Hj & _)]; [done|congruence].
    + exists kl, f0, tx0. rewrite (settle_other _ _ _ _ kl) by (cbn; congruence).
      split_and!; try done; [|congruence]. destruct Hcase as [[[-> |Hj] _]|(_ & _ & ->)]; congruence.
  - intros c1 c2 k1 k2 i1 i2 f1 f2 t1 t2 (k1' & E1 & Ei1 & Er1 & H1)%settle_inv
      (k2' & E2 & Ei2 & Er2 & H2)%settle_inv Hr1 Hr2 Hi1 Hi2 Hk Hn1 Hn2. cbn in E1, E2.
    apply (co_unique _ Hok c1 c2 k1' k2' i1 i2 f1 f2 t1 t2); try congruence.
    + destruct H1 as [[[-> |Hj] _]|(_ & _ & ->)]; [|congruence|done].
      rewrite Hc in E1. injection E1 as <-. rewrite Hout. by intros [].
    + destruct H2 as [[[-> |Hj] _]|(_ & _ & ->)]; [|congruence|done].
      rewrite Hc in E2. injection E2 as <-. rewrite Hout. by intros [].
Qed.

(** What the invariant of the calls depends on. *)
Lemma calls_ok_ext s s' :
  calls s' = calls s → inFlight s' = inFlight s → idempotency (store s') = idempotency (store s) →
  (∀ c f i staged v, PendingCommit c f i staged v ∈ queue s' → PendingCommit c f i staged v ∈ queue s) →
  pending_commits (queue s') = pending_commits (queue s) → calls_ok s → calls_ok s'.
Proof.
  intros Ec Ef Ei Hq Ep [H1 H2 H3 H4 H5 H6 H7 H8].
  split; [|rewrite Ep; exact H2|..]; intros *; rewrite ?Ec, ?Ef, ?Ei, ?Ep.
  - apply H1.
  - intros Hin%Hq. by eapply H3.
  - apply H4.
  - apply H5.
  - apply H6.
  - apply H7.
  - apply H8.
Qed.

Lemma calls_ok_store s st :
  idempotency st = idempotency (store s) → calls_ok s → calls_ok (set_store s st).
Proof. intros. by apply (calls_ok_ext s). Qed.

Lemma calls_ok_pop s p rest : queue s = p :: rest → calls_ok s → calls_ok (set_queue s rest).
Proof.
  intros Eq [H1 H2 H3 H4 H5 H6 H7 H8]. rewrite Eq in *.
  assert (pending_commits rest ⊆ pending_commits (p :: rest)) as Hsub by (destruct p; set_solver).
  split; simpl; try done.
  - intros c k f tx Hc Hr. destruct (H1 _ _ _ _ Hc Hr) as [Hok Ha]. split; [done|].
    intros Hact. destruct (Ha Hact). split; [done|]. auto.
  - destruct p; [by apply NoDup_cons in H2 as [_ H2]|done..].
  - intros c f i staged v Hin. apply (H3 c f i staged v). by right.
Qed.

(** The transaction of a running call moves. *)
Lemma calls_ok_touch s c i f tx tx' out :
  calls s !! c = Some {| k_identity := i; k_role := Executing f tx; k_outcome := out |} →
  tx_ok tx' → (tx_active tx' = true → tx_active tx = true) → calls_ok s →
  calls_ok (set_call s c {| k_identity := i; k_role := Executing f tx'; k_outcome := out |}).
Proof.
  intros Hc Htx Hact [H1 H2 H3 H4 H5 H6 H7 H8].
  assert (∀ c' k', <[c := {| k_identity := i; k_role := Executing f tx'; k_outcome := out |}]> (calls s) !! c' = Some k' →
    ∃ k, calls s !! c' = Some k ∧ k_identity k' = k_identity k ∧ k_outcome k' = k_outcome k ∧
      (k' = k ∨ c' = c ∧ k_role k = Executing f tx ∧ k_role k' = Executing f tx')) as Hback.
  { intros c' k'. destruct (decide (c = c')) as [<-|Hne].
    - rewrite lookup_insert_eq. intros [= <-]. eexists. split; [exact Hc|]. split_and!; [done|done|by right].
    - rewrite lookup_insert_ne by done. intros E. exists k'. auto. }
  assert (∀ c' k, calls s !! c' = Some k →
    ∃ k', <[c := {| k_identity := i; k_role := Executing f tx'; k_outcome := out |}]> (calls s) !! c' = Some k' ∧
      k_identity k' = k_identity k ∧ k_outcome k' = k_outcome k ∧
      (k' = k ∨ c' = c ∧ k_role k' = Executing f tx' ∧ k_role k = Executing f tx)) as Hforth.
  { intros c' k E. destruct (decide (c = c')) as [<-|Hne].
    - rewrite lookup_insert_eq. eexists. split; [done|]. rewrite Hc in E. injection E as <-.
      split_and!; [done|done|by right].
    - rewrite lookup_insert_ne by done. exists k. auto. }
  split; cbn [queue inFlight store set_call calls].
  - intros c' k' f' t' (k & E & Ei & Eo & Hcase)%Hback Hr. rewrite Eo.
    destruct Hcase as [->|(-> & Hrk & Hrk')]; [by eapply H1|].
    rewrite Hrk' in Hr. injection Hr as <- <-. split; [done|]. intros Ha.
    eapply H1; [done..|]. auto.
  - done.
  - intros c' f' i' staged v Hin. destruct (H3 _ _ _ _ _ Hin) as (Hs & t & E). split; [done|].
    destruct (Hforth _ _ E) as ([i2 r2 o2] & E' & Ei & Eo & Hcase). simpl in *.
    destruct Hcase as [Ek|(-> & Hr & Hr')]; [exists t; congruence|exists tx'].
    rewrite E'. congruence.
  - intros c' k' i' f' t' (k & E & Ei & Eo & Hcase)%Hback Hr Hi Hp.
    destruct Hcase as [->|(-> & Hrk & _)]; [by eapply H4|]. eapply H4; [exact E|done|congruence|congruence].
  - intros c' k' i' v (k & E & Ei & Eo & _)%Hback Hi Hv. eapply H5; [done|congruence..].
  - intros key g Hg. destruct (H6 _ _ Hg) as (k & i' & f' & t' & E & Er & ? & ? & ?).
    destruct (Hforth _ _ E) as (k' & E' & Ei & _ & [->|(_ & Hr & _)]).
    + by exists k, i', f', t'.
    + exists k', i', f, tx'. split_and!; try done. congruence.
  - intros c' k' l (k & E & Ei & Eo & Hcase)%Hback Hl.
    destruct Hcase as [->|(-> & _ & Hrk')]; [|congruence].
    destruct (H7 _ _ _ E Hl) as (kl & f' & t' & El & Er & Eo' & Ei').
    destruct (Hforth _ _ El) as (kl' & El' & Eil & Eol & [->|(_ & Hr & _)]).
    + by exists kl, f', t'.
    + exists kl', f, tx'. split_and!; try done; congruence.
  - intros c1 c2 k1' k2' i1 i2 f1 f2 t1 t2 (k1 & E1 & Ei1 & Eo1 & C1)%Hback
      (k2 & E2 & Ei2 & Eo2 & C2)%Hback R1 R2 I1 I2 Ek N1 N2.
    assert (∃ g1 u1, k_role k1 = Executing g1 u1) as (g1 & u1 & R1')
      by (destruct C1 as [->|(_ & ? & _)]; eauto).
    assert (∃ g2 u2, k_role k2 = Executing g2 u2) as (g2 & u2 & R2')
      by (destruct C2 as [->|(_ & ? & _)]; eauto).
    eapply (H8 c1 c2 k1 k2 i1 i2); try done; congruence.
Qed.

Lemma calls_ok_push s c i f tx staged v :
  calls s !! c = Some {| k_identity := i; k_role := Executing f tx; k_outcome := Pending |} →
  tx_active tx = false → c ∉ pending_commits (queue s) → staged_ok staged → calls_ok s →
  calls_ok (set_queue s (queue s ++ [PendingCommit c f i staged v])).
Proof.
  intros Hc Ha Hn Hs [H1 H2 H3 H4 H5 H6 H7 H8].
  assert (pending_commits (queue s ++ [PendingCommit c f i staged v]) = pending_commits (queue s) ++ [c]) as Ep.
  { unfold pending_commits. by rewrite omap_app. }
  split; cbn [queue inFlight store set_queue calls]; try done.
  - intros c' k f' tx' E Hr. destruct (H1 _ _ _ _ E Hr) as [Hok Hact]. split; [done|]. intros Ha'.
    destruct (Hact Ha') as [? Hn']. split; [done|]. rewrite Ep, elem_of_app. intros [|Hin%list_elem_of_singleton]; [done|].
    subst c'. rewrite Hc in E. injection E as <-. simpl in Hr. congruence.
  - rewrite Ep. apply NoDup_app. split_and!; [done| |apply NoDup_singleton].
    intros x Hx Hin%list_elem_of_singleton. congruence.
  - intros c' f' i' staged' v' [Hin|Hin%list_elem_of_singleton]%elem_of_app; [by apply H3 in Hin|].
    injection Hin as -> -> -> -> ->. eauto.
Qed.

(** A call enters. *)
Lemma calls_ok_enter s c k fl :
  calls s !! c = None → calls_ok s →
  (∀ key g, fl !! key = Some g → inFlight s !! key = Some g ∨
     ∃ i f tx, g = {| f_leader := c; f_fingerprint := i_fingerprint i |} ∧ i_key i = key ∧
               k_identity k = Some i ∧ k_role k = Executing f tx ∧ inFlight s !! key = None) →
  (∀ key g, inFlight s !! key = Some g → fl !! key = Some g) →
  (∀ f tx, k_role k = Executing f tx → tx_ok tx ∧ k_outcome k = Pending ∧
     ∀ i, k_identity k = Some i → inFlight s !! i_key i = None ∧ idempotency (store s) !! i_key i = None ∧
       fl !! i_key i = Some {| f_leader := c; f_fingerprint := i_fingerprint i |}) →
  (∀ i v, k_identity k = Some i → k_outcome k = Resolved v →
     idempotency (store s) !! i_key i = Some {| ir_fingerprint := i_fingerprint i; ir_result := v |}) →
  (∀ l, k_role k = Joined l → ∃ k' f tx, calls s !! l = Some k' ∧ k_role k' = Executing f tx ∧
     k_outcome k = k_outcome k' ∧ k_identity k = k_identity k') →
  calls_ok (set_inFlight (set_call s c k) fl).
Proof.
  intros Hc [H1 H2 H3 H4 H5 H6 H7 H8] Hfl Hfl' Hex Hres Hj.
  assert (∀ c' k', <[c := k]> (calls s) !! c' = Some k' → c' = c ∧ k' = k ∨ c' ≠ c ∧ calls s !! c' = Some k') as Hback.
  { intros c' k'. destruct (decide (c = c')) as [<-|].
    - rewrite lookup_insert_eq. intros [= <-]. auto.
    - rewrite lookup_insert_ne by done. auto. }
  assert (∀ c' k', calls s !! c' = Some k' → <[c := k]> (calls s) !! c' = Some k') as Hforth.
  { intros c' k' E. rewrite lookup_insert_ne; [done|]. intros ->. congruence. }
  assert (c ∉ pending_commits (queue s)) as Hnq.
  { intros (f & i & staged & v & Hin)%elem_of_pending_commits. apply H3 in Hin as (_ & tx & E). congruence. }
  split; cbn [queue inFlight store set_call set_inFlight calls].
  - intros c' k' f tx [[-> ->]|[_ E]]%Hback Hr; [|by eapply H1].
    destruct (Hex _ _ Hr) as (? & ? & _). auto.
  - done.
  - intros c' f i staged v Hin. destruct (H3 _ _ _ _ _ Hin) as (? & tx & E). split; [done|]. eauto.
  - intros c' k' i f tx [[-> ->]|[Hne E]]%Hback Hr Hi Hp.
    + destruct (Hex _ _ Hr) as (_ & _ & Hi'). destruct (Hi' _ Hi) as (_ & ? & ?). done.
    + destruct (H4 _ _ _ _ _ E Hr Hi Hp). split; [by apply Hfl'|done].
  - intros c' k' i v [[-> ->]|[Hne E]]%Hback Hi Hv; [by apply Hres|by eapply H5].
  - intros key g Hg. destruct (Hfl _ _ Hg) as [Hold|(i & f & tx & -> & Hk & Hi & Hr & _)].
    + destruct (H6 _ _ Hold) as (k' & i & f & tx & E & ?). exists k', i, f, tx. split; [by apply Hforth|done].
    + exists k, i, f, tx. cbn. by rewrite lookup_insert_eq.
  - intros c' k' l [[-> ->]|[Hne E]]%Hback Hl.
    + destruct (Hj _ Hl) as (k' & f & tx & E & ?). exists k', f, tx. split; [by apply Hforth|done].
    + destruct (H7 _ _ _ E Hl) as (kl & f & tx & El & ?). exists kl, f, tx. split; [by apply Hforth|done].
  - assert (∀ c' k' i i' f tx f' tx', calls s !! c' = Some k' → k_role k = Executing f tx →
      k_role k' = Executing f' tx' → k_identity k = Some i → k_identity k' = Some i' → i_key i = i_key i' →
      ¬ rejected (k_outcome k') → False) as Hnew.
    { intros c' k' i i' f tx f' tx' E Hr Hr' Hi Hi' Ek Hnr.
      destruct (Hex _ _ Hr) as (_ & _ & Hx). destruct (Hx _ Hi) as (Hf & Hid & _).
      destruct (k_outcome k') as [|v|] eqn:Eo.
      - destruct (H4 _ _ _ _ _ E Hr' Hi' Eo) as [Hf' _]. congruence.
      - pose proof (H5 _ _ _ _ E Hi' Eo). congruence.
      - by apply Hnr. }
    intros c1 c2 k1 k2 i1 i2 f1 f2 t1 t2 [[-> ->]|[N1 E1]]%Hback [[-> ->]|[N2 E2]]%Hback R1 R2 I1 I2 Ek X1 X2.
    + done.
    + exfalso. by eapply (Hnew c2 k2).
    + exfalso. by eapply (Hnew c1 k1).
    + by eapply (H8 c1 c2 k1 k2).
Qed.

(** ** Every step *)
Definition request_ok (p : pending) : Prop :=
  match p with
  | PendingCommit _ _ _ _ _ => True
  | PendingClaim _ request limit => assertOutboxClaimRequest request = Ok limit
  | PendingAcknowledgement _ request => assertOutboxAcknowledgementRequest request = Ok tt
  end.
Record sys_ok (s : system) : Prop := {
  so_store : store_ok (store s);
  so_calls : calls_ok s;
  so_queue : Forall request_ok (queue s);
}.

Lemma new_store_ok : store_ok new_store.
Proof.
  split; simpl; try done; try constructor; try done.
Qed.

Lemma new_system_ok : sys_ok new_system.
Proof.
  split; [apply new_store_ok| |constructor].
  split; cbn [calls inFlight queue new_system]; try solve [intros *; by rewrite lookup_empty].
  - constructor.
  - by intros * ?%elem_of_nil.
Qed.

Lemma perform_active tx o : tx_active (perform tx o) = tx_active tx.
Proof.
  destruct o as [key value expected|key expected|entry|message]; simpl.
  - destruct (tx_put tx key value expected) as [tx'|] eqn:E; [|done]. unfold tx_put in E. inv_ok E. by subst.
  - destruct (tx_delete tx key expected) as [tx'|] eqn:E; [|done]. unfold tx_delete in E. inv_ok E. by subst.
  - unfold tx_appendOperation. by repeat case_match.
  - destruct (tx_enqueueOutbox tx message) as [tx'|] eqn:E; [|done]. unfold tx_enqueueOutbox in E. inv_ok E. by subst.
Qed.

(** A call that does not run a transaction. *)
Lemma calls_ok_enter_plain s c k :
  calls s !! c = None → calls_ok s → (∀ f tx, k_role k ≠ Executing f tx) →
  (∀ i v, k_identity k = Some i → k_outcome k = Resolved v →
     idempotency (store s) !! i_key i = Some {| ir_fingerprint := i_fingerprint i; ir_result := v |}) →
  (∀ l, k_role k = Joined l → ∃ k' f tx, calls s !! l = Some k' ∧ k_role k' = Executing f tx ∧
     k_outcome k = k_outcome k' ∧ k_identity k = k_identity k') →
  calls_ok (set_call s c k).
Proof.
  intros Hc Hok Hex Hres Hj.
  assert (set_call s c k = set_inFlight (set_call s c k) (inFlight s)) as -> by (by destruct s).
  apply calls_ok_enter; [exact Hc|exact Hok|by left|done| |exact Hres|exact Hj].
  intros f tx E. by destruct (Hex f tx).
Qed.

Lemma transact_executes_ok s c i fencing snapshot :
  calls s !! c = None → calls_ok s → idempotency (store s) !! i_key i = None →
  inFlight s !! i_key i = None →
  calls_ok (set_inFlight (set_call s c
      {| k_identity := Some i; k_role := Executing fencing (new_transaction snapshot); k_outcome := Pending |})
    (<[i_key i := {| f_leader := c; f_fingerprint := i_fingerprint i |}]> (inFlight s))).
Proof.
  intros Hc Hok Ei Eg. apply calls_ok_enter; [exact Hc|exact Hok|..]; cbn [k_identity k_role k_outcome].
  - intros key g. destruct (decide (i_key i = key)) as [<-|Hne].
    + rewrite lookup_insert_eq. intros [= <-]. right. by eexists i, _, _.
    + rewrite lookup_insert_ne by done. by left.
  - intros key g Hg. rewrite lookup_insert_ne; [done|]. congruence.
  - intros f tx [= <- <-]. split; [apply new_transaction_ok|]. split; [done|].
    intros ? [= <-]. by rewrite lookup_insert_eq.
  - done.
  - done.
Qed.

Lemma transact_ok s c options :
  calls s !! c = None → calls_ok s → calls_ok (transact s c options).
Proof.
  intros Hc Hok. unfold transact.
  destruct (assertOpen (store s);; idempotencyIdentity options) as [[i|]|code].
  - destruct (idempotency (store s) !! i_key i) as [r|] eqn:Ei.
    { destruct (negb _) eqn:Ef; apply calls_ok_enter_plain; try done; simpl.
      intros ? v [= <-] [= <-]. apply negb_false_iff, streq_true in Ef. rewrite Ei, Ef. by destruct r. }
    destruct (inFlight s !! i_key i) as [g|] eqn:Eg; [|by apply transact_executes_ok].
    destruct (negb _) eqn:Ef; apply calls_ok_enter_plain; try done; simpl;
      apply negb_false_iff, streq_true in Ef;
      destruct (co_leader _ Hok _ _ Eg) as (k & i' & f & tx & El & Hr & Hi & Hk & Hfp); rewrite El.
    + intros ? v [= <-] Hv. pose proof (co_resolved _ Hok _ _ _ _ El Hi Hv). congruence.
    + intros l [= <-]. exists k, f, tx. split_and!; try done. rewrite Hi. f_equal.
      destruct i, i'; simpl in *; congruence.
  - assert (∀ k, set_call s c k = set_inFlight (set_call s c k) (inFlight s)) as -> by (intros; by destruct s).
    apply calls_ok_enter; [exact Hc|exact Hok|by left|done|..]; cbn [k_identity k_role k_outcome]; try done.
    intros f tx [= <- <-]. split; [apply new_transaction_ok|done].
  - by apply calls_ok_enter_plain.
Qed.

Lemma commit_idempotency st fencing identity staged result st' :
  commit number_text st fencing identity staged result = Ok st' →
  idempotency st' = match identity with
    | Some i => <[i_key i := {| ir_fingerprint := i_fingerprint i; ir_result := result |}]> (idempotency st)
    | None => idempotency st end.
Proof.
  intros (_ & next & applied & box & adv & _ & _ & _ & ->)%commit_inv.
  destruct identity; simpl; by case_match.
Qed.

Lemma run_pending_ok s p rest now :
  sys_ok s → queue s = p :: rest →
  let s' := run_pending number_text (set_queue s rest) p now in
  sys_ok s' ∧ evolves (store s) (store s').
Proof.
  intros [Hst Hcalls Hq] Eq s'. pose proof (calls_ok_pop _ _ _ Eq Hcalls) as Hpop.
  rewrite Eq in Hq. apply Forall_cons in Hq as [Hp Hq]. subst s'.
  destruct p as [c f i staged v|c request limit|c request]; unfold run_pending.
  - destruct (co_commit _ Hcalls c f i staged v) as (Hs & tx & E); [rewrite Eq; left|].
    assert (c ∉ pending_commits rest) as Hn.
    { pose proof (co_queue _ Hcalls) as Hnd. rewrite Eq in Hnd. by apply NoDup_cons in Hnd as [? _]. }
    assert (tx_active tx = false) as Ha.
    { apply not_true_iff_false. intros Ha. destruct (co_tx _ Hcalls _ _ _ _ E eq_refl) as [_ Hx].
      destruct (Hx Ha) as [_ Hnot]. apply Hnot. rewrite Eq. left. }
    cbn [store set_queue].
    destruct (commit number_text (store s) f i staged v) as [st'|code] eqn:Ec.
    + destruct (commit_ok _ _ _ _ _ _ Hst Hs Ec) as [Hst' Hev]. split; [|done].
      split; [done| |done]. eapply settle_ok; [exact Hpop|exact E|done|done|done|done|done|].
      simpl. by apply commit_idempotency in Ec.
    + split; [|done]. split; [done| |done].
      apply (settle_ok (set_queue s rest) (store s) c _ f tx (Rejected code) Hpop E); try done.
      simpl. by destruct i.
  - cbn [store set_queue]. pose proof (claimOutbox_ok (store s) request limit now Hst) as [Hst' Hev].
    assert (idempotency (claimOutbox (store s) request limit now).1 = idempotency (store s)) as Hi.
    { unfold claimOutbox. destruct (assertOpen (store s);; _) as [[]|]; [|done].
      destruct (claim_loop _ _ _ _ _ _ _) as [? []]; simpl; [by case_match|done]. }
    destruct (claimOutbox (store s) request limit now) as [st' r]. split; [|done].
    split; [done| |done]. eapply calls_ok_ext; [| | | | |exact Hpop]; done.
  - cbn [store set_queue]. destruct (acknowledgeOutbox (store s) request now) as [[st' a]|code] eqn:Ea.
    + destruct (acknowledgeOutbox_ok _ _ _ _ _ Hst Hp Ea) as [Hst' Hev]. split; [|done].
      split; [done| |done]. eapply calls_ok_ext; [| | | | |exact Hpop]; try done. simpl.
      unfold acknowledgeOutbox in Ea. apply bind_ok in Ea as (? & _ & Ea). apply bind_ok in Ea as (adv & _ & Ea).
      destruct (outbox (store s) !! _) as [sm|]; [|done].
      destruct (s_acknowledgement sm), (same_claim (s_acknowledgedClaim sm) request), (s_claim sm); try done;
        repeat (apply bind_ok in Ea as (? & _ & Ea)); injection Ea as <- <-; by try destruct adv.
    + split; [|done]. split; [done| |done]. eapply calls_ok_ext; [| | | | |exact Hpop]; done.
Qed.

Lemma step_ok s e : sys_ok s → sys_ok (step number_text s e) ∧ evolves (store s) (store (step number_text s e)).
Proof.
  intros Hok. pose proof Hok as [Hst Hcalls Hq].
  assert (∀ l ws, sys_ok (set_store s (with_lifecycle (store s) l ws)) ∧
    evolves (store s) (with_lifecycle (store s) l ws)) as Hwatch.
  { intros l ws. destruct (watchers_ok (store s) l ws Hst). split; [|done]. split; [done| |done].
    by apply calls_ok_store. }
  assert (set_store s (store s) = s) as Hid by (by destruct s).
  destruct e as [| |c options|c o|c result|c|c request|c request|now|key|w cursor|w reader|w]; simpl.
  - unfold open. destruct (lifecycle (store s)); simpl; [by rewrite Hid|apply Hwatch..].
  - unfold close. destruct (lifecycle (store s)); simpl; [by rewrite Hid|apply Hwatch..].
  - destruct (calls s !! c) eqn:E; [done|]. 
    assert (store (transact s c options) = store s ∧ queue (transact s c options) = queue s) as [Es Eq]
      by (unfold transact; repeat case_match; done).
    rewrite Es. split; [|done]. split; [by rewrite Es|by apply transact_ok|by rewrite Eq].
  - destruct (calls s !! c) as [[i [|l|f tx] out]|] eqn:E; try done. split; [|done]. split; [done| |done].
    destruct (co_tx _ Hcalls _ _ _ _ E eq_refl) as [Htx _].
    eapply calls_ok_touch; [exact E|by apply perform_ok| |done]. by rewrite perform_active.
  - destruct (calls s !! c) as [[i [|l|f tx] out]|] eqn:E; try done.
    destruct (tx_finish tx) as [[tx' staged]|] eqn:Ef; [|done].
    unfold tx_finish in Ef. apply bind_ok in Ef as (u & Ha%throw_if_ok%negb_false_iff & [= <- <-]).
    destruct (co_tx _ Hcalls _ _ _ _ E eq_refl) as [Htx Hact]. destruct (Hact Ha) as [Hp Hn].
    simpl in Hp. subst out.
    assert (calls_ok (set_call s c {| k_identity := i; k_role := Executing f (tx_abort tx); k_outcome := Pending |}))
      as Htouch by (by apply (calls_ok_touch _ _ _ _ tx); [..|destruct Htx; split| |]).
    destruct (copy result) as [v|code].
    + split; [|done]. split; [done| |apply Forall_app; split; [done|by repeat constructor]].
      eapply (calls_ok_push (set_call s c _) c i f (tx_abort tx)); try done;
        [simpl; by rewrite lookup_insert_eq|by apply staged_of_ok].
    + split; [|done]. split; [done| |done].
      eapply (settle_ok (set_call s c _) (store s) c _ f (tx_abort tx) (Rejected code) Htouch); try done;
        simpl; [by rewrite lookup_insert_eq|done..|by destruct i].
  - destruct (calls s !! c) as [[i [|l|f tx] out]|] eqn:E; try done.
    destruct (tx_active tx) eqn:Ha; [|done]. split; [|done]. split; [done| |done].
    destruct (co_tx _ Hcalls _ _ _ _ E eq_refl) as [Htx Hact]. destruct (Hact Ha) as [Hp Hn].
    simpl in Hp. subst out.
    assert (calls_ok (set_call s c {| k_identity := i; k_role := Executing f (tx_abort tx); k_outcome := Pending |}))
      as Htouch by (by apply (calls_ok_touch _ _ _ _ tx); [..|destruct Htx; split| |]).
    eapply (settle_ok (set_call s c _) (store s) c _ f (tx_abort tx) (Rejected WORK_FAILED) Htouch); try done;
        simpl; [by rewrite lookup_insert_eq|done..|by destruct i].
  - destruct (assertOpen (store s);; assertOutboxClaimRequest request) as [limit|code] eqn:E;
      (split; [|done]; split; [done| |]).
    + apply (calls_ok_ext s); try done; simpl; [|unfold pending_commits; by rewrite omap_app, app_nil_r].
      intros * [|Hin%list_elem_of_singleton]%elem_of_app; done.
    + apply Forall_app. split; [done|]. constructor; [|done]. by apply bind_ok in E as (? & _ & E).
    + by apply (calls_ok_ext s).
    + done.
  - destruct (assertOpen (store s);; assertOutboxAcknowledgementRequest request) as [[]|code] eqn:E;
      (split; [|done]; split; [done| |]).
    + apply (calls_ok_ext s); try done; simpl; [|unfold pending_commits; by rewrite omap_app, app_nil_r].
      intros * [|Hin%list_elem_of_singleton]%elem_of_app; done.
    + apply Forall_app. split; [done|]. constructor; [|done]. by apply bind_ok in E as (? & _ & E).
    + by apply (calls_ok_ext s).
    + done.
  - destruct (queue s) as [|p rest] eqn:Eq; [done|]. by apply run_pending_ok.
  - destruct (inFlight s !! key) as [g|] eqn:Eg; [|done].
    destruct (calls s !! f_leader g) as [[i r out]|] eqn:El.
    2: { destruct (co_leader _ Hcalls _ _ Eg) as (k & ? & ? & ? & E & _). congruence. }
    assert (out ≠ Pending → sys_ok (set_inFlight s (delete key (inFlight s)))) as Hdel.
    { intros Hout. split; [done| |done]. destruct Hcalls as [H1 H2 H3 H4 H5 H6 H7 H8]. split; simpl; try done.
      - intros c k j f tx Hc Hr Hi Hp. destruct (H4 _ _ _ _ _ Hc Hr Hi Hp) as [Hf ?]. split; [|done].
        rewrite lookup_delete_ne; [done|]. intros ->. rewrite Eg in Hf. injection Hf as ->. simpl in El.
        rewrite Hc in El. injection El as ->. done.
      - intros key' g' Hg'. destruct (decide (key = key')) as [<-|]; [by rewrite lookup_delete_eq in Hg'|].
        rewrite lookup_delete_ne in Hg' by done. by apply H6. }
    destruct out; [done|by split; [apply Hdel|]..].
  - destruct (watchers (store s) !! w); [done|]. unfold watch. destruct (assertOpen (store s)); simpl;
      [apply Hwatch|by rewrite Hid].
  - apply Hwatch.
  - apply Hwatch.
Qed.

Lemma reachable_ok s : reachable number_text s → sys_ok s.
Proof.
  intros [events ->]. unfold run. generalize new_system_ok. generalize new_system.
  induction events as [|e events IH]; intros s Hs; [done|]. simpl. apply IH. by apply step_ok.
Qed.

Lemma run_ok s events : sys_ok s → sys_ok (run number_text s events) ∧ evolves (store s) (store (run number_text s events)).
Proof.
  revert s. induction events as [|e events IH]; intros s Hs; [done|]. simpl.
  destruct (step_ok s e Hs) as [Hs' Hev]. destruct (IH _ Hs') as [? ?]. split; [done|]. by etrans.
Qed.
End with_text.
