(* ===== verification/StoreTheorems.v ===== *)
(** * Theorems of the state store

    Each is about every reachable state, over all interleavings of clients. *)

From S2P Require Import Prelude JsString Collections Regex JsValue JsonText Time Identity StateStore StoreProofs.

Open Scope Z_scope.

Lemma filterb_id {A} (f : A → bool) l : Forall (λ x, f x = true) l → List.filter f l = l.
Proof. induction 1 as [|x l Hx _ IH]; simpl; [done|]. by rewrite Hx, IH. Qed.

Lemma filterb_sublist {A} (f : A → bool) l : List.filter f l `sublist_of` l.
Proof.
  induction l as [|x l IH]; simpl; [done|].
  destruct (f x); [by apply sublist_skip|by apply sublist_cons].
Qed.

Lemma run_app number_text s e events :
  run number_text s (e :: events) = run number_text (step number_text s e) events.
Proof. done. Qed.

(** ** Sample runs *)
Definition sample_key : StateKey := {| namespace := js "app"; collection := js "doc"; id := js "1" |}.
Definition no_options : StateTransactionOptions :=
  {| t_fencing := None; t_idempotencyKey := None; t_idempotencyFingerprint := None |}.
Definition sample_text (n : jsnum) : jstring := [].
Definition fenced (e : Z) : StateTransactionOptions :=
  {| t_fencing := Some {| resource := js "leader"; epoch := e |};
     t_idempotencyKey := None; t_idempotencyFingerprint := None |}.
Definition once (key fingerprint : jstring) : StateTransactionOptions :=
  {| t_fencing := None; t_idempotencyKey := Some key; t_idempotencyFingerprint := Some fingerprint |}.
Definition sample_put (value : Z) (expected : ExpectedRevision) : Mutation :=
  PutMutation sample_key (JNum (NInt value)) expected.
(** Write the record, then let two transactions update what they both read. *)
Definition race : list event :=
  [EvOpen;
   EvTransact 0 no_options; EvOperation 0 (OpPut sample_key (JNum (NInt 10)) Absent);
   EvWorkReturns 0 JNull; EvRun 0;
   EvTransact 1 no_options; EvTransact 2 no_options;
   EvOperation 1 (OpPut sample_key (JNum (NInt 11)) (At 1));
   EvOperation 2 (OpPut sample_key (JNum (NInt 12)) (At 1));
   EvWorkReturns 1 JNull; EvWorkReturns 2 JNull].
Definition race_system : system := run sample_text new_system race.
Definition staged_put (m : Mutation) : StagedTransaction :=
  {| st_mutations := [m]; st_operations := []; st_outbox := [] |}.

(** ** The change log *)

(** C33. The change log is the store: replaying it from nothing gives the records,
    its revisions never go back, and no record is newer than the store. *)
Theorem change_log_replays number_text s :
  reachable number_text s →
  foldl apply_change ∅ (changes (store s)) = records (store s) ∧
  StronglySorted (λ a b, ch_revision a ≤ ch_revision b) (changes (store s)) ∧
  (∀ k r, records (store s) !! k = Some r → r_key r = k ∧ 0 < r_revision r ≤ revision (store s)).
Proof.
  intros Hr%reachable_ok. destruct Hr as [Hst _ _].
  split_and!; [by apply ok_replay|by apply ok_changes_sorted|].
  intros k r. by apply ok_records.
Qed.

Lemma change_log_replays_witness :
  length (changes (store (run sample_text new_system (race ++ [EvRun 0; EvRun 0])))) = 2%nat ∧
  foldl apply_change ∅ (changes (store (run sample_text new_system (race ++ [EvRun 0; EvRun 0]))))
  = records (store (run sample_text new_system (race ++ [EvRun 0; EvRun 0]))).
Proof.
  split; [vm_compute; reflexivity|].
  apply (change_log_replays sample_text). exists (race ++ [EvRun 0; EvRun 0]). reflexivity.
Defined.

(** ** Commits *)

(** C25. A commit is atomic and exact: it succeeds precisely when the store is open,
    every guard holds of the records before it, the outbox accepts its messages
    and its fence is not stale; then each mutation decides its key and every
    other record is untouched. *)
Theorem commit_exact number_text st fencing identity staged result :
  staged_ok staged →
  ((∃ st', commit number_text st fencing identity staged result = Ok st') ↔
   lifecycle st = StoreOpen ∧
   (∀ m, m ∈ st_mutations staged → matchesExpectedRevision (records st !! m_key m) (m_expected m) = true) ∧
   (∃ box, new_messages number_text (outbox st) [] (st_outbox staged) = Ok box) ∧
   match fencing with
   | Some f => ∀ e, fences st !! resource f = Some e → e ≤ epoch f
   | None => True
   end) ∧
  (∀ st', commit number_text st fencing identity staged result = Ok st' →
    (∀ m, m ∈ st_mutations staged → records st' !! m_key m = mutated (revision st + 1) m) ∧
    (∀ k, k ∉ map m_key (st_mutations staged) → records st' !! k = records st !! k) ∧
    revision st ≤ revision st' ≤ revision st + 1).
Proof.
  intros [Hkeys _]. split.
  - split.
    + intros (st' & (Ho & next & applied & box & adv & Hc & Hb & Hf & _)%commit_inv).
      split_and!; [done| |by exists box|].
      * intros m Hm. by eapply check_guards.
      * apply assertFence_spec in Hf. destruct fencing; [|done]. by destruct Hf.
    + intros (Ho & Hg & (box & Hb) & Hf).
      destruct (check_complete _ _ Hkeys Hg) as (next & applied & Hc). unfold commit, assertOpen.
      rewrite Ho, bind_ok_l, Hc, bind_ok_l, Hb, bind_ok_l.
      destruct fencing as [f|]; cbn [assertFence]; [|eauto].
      destruct (fences st !! resource f) as [e|]; [|cbn; eauto].
      destruct (Z.ltb_spec (epoch f) e); [|cbn; eauto]. specialize (Hf e eq_refl). lia.
  - intros st' (Ho & next & applied & box & adv & Hc & Hb & Hf & ->)%commit_inv.
    destruct (check_lookup (revision st + 1) _ _ _ _ Hc Hkeys) as [Hin Hout].
    pose proof (check_replay (revision st + 1) _ _ _ _ Hc Hkeys) as Hreplay.
    destruct (nonempty applied || _ || _ || _) eqn:Em.
    + destruct identity; simpl; (split_and!; [done|done|lia|lia]).
    + to_prop. destruct applied; [|done]. simpl in Hreplay. rewrite <- Hreplay in Hin, Hout.
      destruct identity; simpl; (split_and!; [done|done|lia|lia]).
Qed.

Lemma commit_exact_witness :
  ∃ st', commit sample_text (store race_system) None None (staged_put (sample_put 11 (At 1))) JNull = Ok st' ∧
    records st' !! sample_key = Some {| r_key := sample_key; r_value := JNum (NInt 11); r_revision := 2 |}.
Proof.
  assert (staged_ok (staged_put (sample_put 11 (At 1)))) as Hs
    by (split; simpl; [apply NoDup_singleton|constructor]).
  destruct (commit_exact sample_text (store race_system) None None _ JNull Hs) as [Hiff Hall].
  destruct (proj2 Hiff) as [st' Hst'].
  - split_and!; [vm_compute; reflexivity| |by exists []|done].
    intros m ->%list_elem_of_singleton. vm_compute. reflexivity.
  - exists st'. split; [exact Hst'|]. destruct (Hall st' Hst') as [Hin _].
    refine (eq_trans (Hin (sample_put 11 (At 1)) _) _); [apply list_elem_of_here|].
    vm_compute. reflexivity.
Defined.

(** C21. No update is lost: once a transaction that guards a record by a revision
    commits, no transaction that guards the record by the same revision ever
    commits again, whatever runs in between. *)
Theorem no_lost_update number_text s now events c fencing identity staged result rest st1 m n
    fencing' identity' staged' result' m' :
  reachable number_text s → queue s = PendingCommit c fencing identity staged result :: rest →
  commit number_text (store s) fencing identity staged result = Ok st1 →
  m ∈ st_mutations staged → m_expected m = At n →
  staged_ok staged' → m' ∈ st_mutations staged' → m_key m' = m_key m → m_expected m' = At n →
  ∀ st2, commit number_text (store (run number_text s (EvRun now :: events)))
           fencing' identity' staged' result' ≠ Ok st2.
Proof.
  intros Hreach%reachable_ok Hq Hc Hm He [Hkeys' _] Hm' Hk He' st2 H2.
  pose proof Hreach as [Hst Hcalls _].
  destruct (co_commit _ Hcalls c fencing identity staged result) as ([Hkeys _] & _);
    [rewrite Hq; left|].
  rewrite run_app in H2. destruct (step_ok number_text s (EvRun now) Hreach) as [Hok1 _].
  destruct (run_ok number_text _ events Hok1) as [_ Hev].
  assert (store (step number_text s (EvRun now)) = st1) as E1
    by (simpl; rewrite Hq; unfold run_pending; cbn [store set_queue]; rewrite Hc; done).
  rewrite E1 in Hev.
  apply commit_inv in Hc as (_ & next & applied & box & adv & Hc & _ & _ & Est1).
  pose proof (check_guards _ _ _ _ Hc Hkeys m Hm) as Hg. rewrite He in Hg. simpl in Hg.
  destruct (records (store s) !! m_key m) as [r|] eqn:Er; [|done]. apply Z.eqb_eq in Hg.
  destruct (ok_records _ _ _ Hst Er) as [_ Hr].
  destruct (check_lookup (revision (store s) + 1) _ _ _ _ Hc Hkeys) as [Hin _].
  assert (nonempty applied = true) as Hne.
  { destruct applied; [|done]. pose proof (check_replay (revision (store s) + 1) _ _ _ _ Hc Hkeys) as Hrep.
    specialize (Hin _ Hm). cbn [map foldl put_records] in Hrep, Hin. rewrite <- Hrep, Er in Hin.
    destruct m; simpl in Hin; [|done]. injection Hin as ->. simpl in *. lia. }
  rewrite Hne in Est1. cbn [orb] in Est1.
  assert (records st1 !! m_key m = mutated (revision (store s) + 1) m ∧ revision st1 = revision (store s) + 1)
    as [Hrec Hrev] by (rewrite Est1; destruct identity; simpl; auto).
  apply commit_inv in H2 as (_ & next' & applied' & box' & adv' & Hc2 & _).
  pose proof (check_guards _ _ _ _ Hc2 Hkeys' m' Hm') as Hg'. rewrite He', Hk in Hg'.
  cbn [matchesExpectedRevision] in Hg'.
  destruct (records (store (run number_text (step number_text s (EvRun now)) events)) !! m_key m) as [r'|] eqn:Er';
    [|done]. apply Z.eqb_eq in Hg'.
  destruct (ev_records _ _ Hev _ _ Er') as [Hsame|Hnew]; [|lia].
  rewrite Hrec in Hsame. destruct m; simpl in Hsame; [|done]. injection Hsame as <-. simpl in Hg'. lia.
Qed.

Lemma no_lost_update_witness :
  length (queue race_system) = 2%nat ∧
  ∀ st2, commit sample_text (store (run sample_text race_system (EvRun 0 :: []))) None None
    (staged_put (sample_put 12 (At 1))) JNull ≠ Ok st2.
Proof.
  split; [vm_compute; reflexivity|].
  destruct (is_ok_true (commit sample_text (store race_system) None None (staged_put (sample_put 11 (At 1))) JNull))
    as [st1 E]; [vm_compute; reflexivity|].
  refine (no_lost_update sample_text race_system 0 [] 1%nat None None (staged_put (sample_put 11 (At 1))) JNull
    [PendingCommit 2 None None (staged_put (sample_put 12 (At 1))) JNull] st1
    (sample_put 11 (At 1)) 1 None None (staged_put (sample_put 12 (At 1))) JNull (sample_put 12 (At 1))
    _ _ E _ eq_refl _ _ eq_refl eq_refl).
  - exists race. reflexivity.
  - vm_compute. reflexivity.
  - apply list_elem_of_here.
  - split; simpl; [apply NoDup_singleton|constructor].
  - apply list_elem_of_here.
Defined.

(** C26. Fences only move forward: once the store has seen an epoch of a resource,
    nothing under a smaller epoch of it ever commits, claims or acknowledges. *)
Theorem fencing_is_monotone number_text s events f e :
  reachable number_text s → fences (store s) !! resource f = Some e → epoch f < e →
  let st := store (run number_text s events) in
  (∀ identity staged result st', commit number_text st (Some f) identity staged result ≠ Ok st') ∧
  (∀ request limit now, cr_fencing request = Some f → is_ok (claimOutbox st request limit now).2 = false) ∧
  (∀ request now r, ar_fencing request = Some f → acknowledgeOutbox st request now ≠ Ok r).
Proof.
  intros Hs%reachable_ok He Hlt st.
  destruct (run_ok number_text s events Hs) as [_ Hev].
  destruct (ev_fences _ _ Hev _ _ He) as (e' & He' & Hle). fold st in He'.
  assert (∀ adv, assertFence st (Some f) ≠ Ok adv) as Hstale.
  { intros adv H%assertFence_spec. destruct H as [H _]. specialize (H _ He'). lia. }
  split_and!.
  - intros identity staged result st' (_ & ? & ? & ? & adv & _ & _ & H & _)%commit_inv. by eapply Hstale.
  - intros request limit now Hf. unfold claimOutbox. rewrite Hf.
    destruct (assertOpen st) as [u|]; [|done]. rewrite bind_ok_l.
    destruct (assertFence st (Some f)) eqn:E; [by destruct (Hstale a)|done].
  - intros request now r Hf. unfold acknowledgeOutbox. rewrite Hf.
    destruct (assertOpen st) as [u|]; [|done]. rewrite bind_ok_l.
    destruct (assertFence st (Some f)) eqn:E; [by destruct (Hstale a)|done].
Qed.

Definition fenced_system : system :=
  run sample_text new_system [EvOpen; EvTransact 0 (fenced 5); EvWorkReturns 0 JNull; EvRun 0].

Lemma fencing_is_monotone_witness :
  fences (store fenced_system) !! js "leader" = Some 5 ∧
  ∀ st', commit sample_text (store (run sample_text fenced_system [])) (Some {| resource := js "leader"; epoch := 4 |})
    None (staged_put (sample_put 1 AnyRevision)) JNull ≠ Ok st'.
Proof.
  assert (fences (store fenced_system) !! js "leader" = Some 5) as Hf by (vm_compute; reflexivity).
  split; [exact Hf|].
  destruct (fencing_is_monotone sample_text fenced_system [] {| resource := js "leader"; epoch := 4 |} 5) as [H _].
  - by exists [EvOpen; EvTransact 0 (fenced 5); EvWorkReturns 0 JNull; EvRun 0].
  - exact Hf.
  - simpl. lia.
  - apply H.
Defined.

(** ** Idempotency *)

(** C22. An idempotent transaction takes effect once: of all the calls with one
    idempotency key at most one commits, and every call that returns a result
    returns the committed one, under the same fingerprint. *)
Theorem transact_once number_text s c c' k k' i i' :
  reachable number_text s → calls s !! c = Some k → calls s !! c' = Some k' →
  k_identity k = Some i → k_identity k' = Some i' → i_key i = i_key i' →
  (∀ f tx f' tx' v v', k_role k = Executing f tx → k_role k' = Executing f' tx' →
     k_outcome k = Resolved v → k_outcome k' = Resolved v' → c = c') ∧
  (∀ v v', k_outcome k = Resolved v → k_outcome k' = Resolved v' →
     v = v' ∧ i_fingerprint i = i_fingerprint i').
Proof.
  intros [_ Hok _]%reachable_ok Hc Hc' Hi Hi' Ek. split.
  - intros f tx f' tx' v v' Hr Hr' Ho Ho'.
    eapply (co_unique _ Hok c c' k k' i i'); try done; [rewrite Ho|rewrite Ho']; by intros [].
  - intros v v' Ho Ho'. pose proof (co_resolved _ Hok _ _ _ _ Hc Hi Ho) as H1.
    pose proof (co_resolved _ Hok _ _ _ _ Hc' Hi' Ho') as H2. rewrite Ek, H2 in H1.
    by injection H1.
Qed.

(** Two calls race with one key; a third comes after the commit. *)
Definition idempotent_race : list event :=
  [EvOpen; EvTransact 0 (once (js "k") (js "f")); EvTransact 1 (once (js "k") (js "f"));
   EvOperation 0 (OpPut sample_key JNull Absent); EvWorkReturns 0 (JBool true); EvRun 0;
   EvSettled (js "k"); EvTransact 2 (once (js "k") (js "f"))].

Definition idempotent_system : system := run sample_text new_system idempotent_race.

Lemma transact_once_witness :
  k_outcome <$> calls idempotent_system !! 1%nat = Some (Resolved (JBool true)) ∧
  ∃ k1 k2, calls idempotent_system !! 1%nat = Some k1 ∧ calls idempotent_system !! 2%nat = Some k2 ∧
    ∀ v v', k_outcome k1 = Resolved v → k_outcome k2 = Resolved v' → v = v'.
Proof.
  split; [vm_compute; reflexivity|].
  eexists {| k_identity := Some {| i_key := js "k"; i_fingerprint := js "f" |};
             k_role := Joined 0; k_outcome := Resolved (JBool true) |},
          {| k_identity := Some {| i_key := js "k"; i_fingerprint := js "f" |};
             k_role := Replayed; k_outcome := Resolved (JBool true) |}.
  split; [vm_compute; reflexivity|]. split; [vm_compute; reflexivity|].
  intros v v' Hv Hv'.
  refine (proj1 (proj2 (transact_once sample_text idempotent_system 1 2 _ _ _ _ _ _ _ _ _ _) v v' Hv Hv'));
    [by exists idempotent_race|vm_compute; reflexivity..].
Defined.

(** ** Watches *)
Definition delivered (w : MemoryWatchIterator) : list StateChange := omap snd (w_results w).
Definition watching (cursor : Z) (st : MemoryStateStore) (w : MemoryWatchIterator) : Prop :=
  w_closed w = false ∧ (w_queue w = [] ∨ w_waiters w = []) ∧
  delivered w ++ w_queue w = List.filter (λ c, cursor <? ch_revision c) (changes st).
Definition keeps_watching (w : nat) (e : event) : Prop :=
  match e with EvClose => False | EvReturn w' => w' ≠ w | _ => True end.

Lemma watch_push_delivers c w :
  w_closed w = false → (w_queue w = [] ∨ w_waiters w = []) →
  w_closed (watch_push c w) = false ∧ (w_queue (watch_push c w) = [] ∨ w_waiters (watch_push c w) = []) ∧
  delivered (watch_push c w) ++ w_queue (watch_push c w) = (delivered w ++ w_queue w) ++ [c].
Proof.
  intros Ho Hq. unfold watch_push, delivered. rewrite Ho. destruct (w_waiters w) as [|r rs] eqn:E; simpl.
  - split_and!; [done|by right|by rewrite app_assoc].
  - destruct Hq as [Hq|]; [|done]. rewrite Hq, omap_app, !app_nil_r. split_and!; [done|by left|done].
Qed.

Lemma watch_pushes_deliver cs w :
  w_closed w = false → (w_queue w = [] ∨ w_waiters w = []) →
  let w' := foldl (λ w c, watch_push c w) w cs in
  w_closed w' = false ∧ (w_queue w' = [] ∨ w_waiters w' = []) ∧
  delivered w' ++ w_queue w' = (delivered w ++ w_queue w) ++ cs.
Proof.
  revert w. induction cs as [|c cs IH]; intros w Ho Hq; simpl; [by rewrite app_nil_r|].
  destruct (watch_push_delivers c w Ho Hq) as (Ho' & Hq' & E).
  destruct (IH _ Ho' Hq') as (? & ? & E'). split_and!; [done..|]. by rewrite E', E, <- app_assoc.
Qed.

Lemma watch_next_delivers w reader :
  w_closed w = false → (w_queue w = [] ∨ w_waiters w = []) →
  w_closed (watch_next w reader) = false ∧
  (w_queue (watch_next w reader) = [] ∨ w_waiters (watch_next w reader) = []) ∧
  delivered (watch_next w reader) ++ w_queue (watch_next w reader) = delivered w ++ w_queue w.
Proof.
  intros Ho Hq. unfold watch_next, delivered. destruct (w_queue w) as [|c q] eqn:E; simpl.
  - rewrite Ho. simpl. split_and!; [done|by left|done].
  - rewrite omap_app. simpl. split_and!; [done|by right; destruct Hq|by rewrite <- app_assoc].
Qed.

(** What a step does to a watch that stays open. *)
Lemma step_watching number_text s e w cursor wt :
  sys_ok s → keeps_watching w e → cursor ≤ revision (store s) →
  watchers (store s) !! w = Some wt → watching cursor (store s) wt →
  ∃ wt', watchers (store (step number_text s e)) !! w = Some wt' ∧
         watching cursor (store (step number_text s e)) wt'.
Proof.
  intros Hok Hkeep Hcur Hw Hwatch.
  assert (∀ s', watchers (store s') = watchers (store s) → changes (store s') = changes (store s) →
    ∃ wt', watchers (store s') !! w = Some wt' ∧ watching cursor (store s') wt') as Hsame.
  { intros s' -> Ec. exists wt. split; [done|]. unfold watching. by rewrite Ec. }
  destruct e as [| |c options|c o|c result|c|c request|c request|now|key|w' cursor'|w' reader|w']; simpl.
  - unfold open. destruct (lifecycle (store s)); by apply Hsame.
  - done.
  - destruct (calls s !! c); [by apply Hsame|].
    assert (store (transact s c options) = store s) as E by (unfold transact; repeat case_match; done).
    apply Hsame; by rewrite E.
  - repeat case_match; by apply Hsame.
  - repeat case_match; by apply Hsame.
  - repeat case_match; by apply Hsame.
  - repeat case_match; by apply Hsame.
  - repeat case_match; by apply Hsame.
  - destruct (queue s) as [|p rest] eqn:Eq; [by apply Hsame|]. unfold run_pending.
    destruct p as [c f i staged v|c request limit|c request].
    + destruct (commit number_text _ f i staged v) as [st'|] eqn:Ec; [|by apply Hsame].
      apply commit_inv in Ec as (_ & next & applied & box & adv & _ & _ & _ & Est). cbn [store set_queue] in Est.
      match type of Est with context [if ?b then _ else _] => destruct b end.
      2: { subst st'. destruct i; by apply Hsame. }
      destruct Hwatch as (Ho & Hq & Hd).
      destruct (watch_pushes_deliver (map (change_of (revision (store s) + 1)) applied) wt Ho Hq) as (Ho' & Hq' & Hd').
      exists (foldl (λ w c, watch_push c w) wt (map (change_of (revision (store s) + 1)) applied)).
      assert (watchers st' = watchers (apply_commit (store s) f adv next applied (st_operations staged) (JsMap.values box))
        ∧ changes st' = changes (apply_commit (store s) f adv next applied (st_operations staged) (JsMap.values box)))
        as [Ews Ecs] by (subst st'; by destruct i).
      cbn [store settle set_store set_queue].
      split; [rewrite Ews; simpl; by rewrite lookup_fmap, Hw|].
      unfold watching. rewrite Ecs. split_and!; [done..|]. cbn -[foldl map]. rewrite Hd', Hd, List.filter_app. f_equal.
      symmetry. apply filterb_id, Forall_forall. intros c' ([| ] & -> & _)%list_elem_of_fmap; simpl; apply Z.ltb_lt; lia.
    + cbn [store set_queue]. assert (watchers (claimOutbox (store s) request limit now).1 = watchers (store s) ∧
        changes (claimOutbox (store s) request limit now).1 = changes (store s)) as [Ew Ec].
      { unfold claimOutbox. destruct (assertOpen (store s);; _) as [[]|]; [|done].
        destruct (claim_loop _ _ _ _ _ _ _) as [? []]; simpl; [by case_match|done]. }
      destruct (claimOutbox (store s) request limit now). by apply Hsame.
    + cbn [store set_queue]. destruct (acknowledgeOutbox (store s) request now) as [[st' a]|] eqn:Ea; [|by apply Hsame].
      assert (watchers st' = watchers (store s) ∧ changes st' = changes (store s)) as [Ew Ec]; [|by apply Hsame].
      unfold acknowledgeOutbox in Ea. apply bind_ok in Ea as (? & _ & Ea). apply bind_ok in Ea as (adv & _ & Ea).
      destruct (outbox (store s) !! _) as [sm|]; [|done].
      destruct (s_acknowledgement sm), (same_claim (s_acknowledgedClaim sm) request), (s_claim sm); try done;
        repeat (apply bind_ok in Ea as (? & _ & Ea)); injection Ea as <- <-; by try destruct adv.
  - repeat case_match; by apply Hsame.
  - destruct (watchers (store s) !! w') eqn:E; [by apply Hsame|]. unfold watch.
    destruct (assertOpen (store s)); [|by apply Hsame]. simpl.
    exists wt. rewrite lookup_insert_ne by congruence. done.
  - destruct (decide (w = w')) as [<-|Hne].
    + destruct Hwatch as (Ho & Hq & Hd). destruct (watch_next_delivers wt reader Ho Hq) as (? & ? & E).
      exists (watch_next wt reader). rewrite lookup_alter_eq, Hw. split; [done|]. unfold watching. by rewrite E.
    + exists wt. rewrite lookup_alter_ne by done. done.
  - exists wt. rewrite lookup_alter_ne by done. done.
Qed.

(** C34. A watch sees every change once, in order: while it is open, what it has
    delivered and what it still queues are exactly the changes after its
    cursor. (A cursor beyond the revision of the store sees all that follows.) *)
Theorem watch_exact number_text s w cursor events :
  reachable number_text s → watchers (store s) !! w = None → lifecycle (store s) = StoreOpen →
  cursor ≤ revision (store s) → Forall (keeps_watching w) events →
  let st := store (run number_text s (EvWatch w cursor :: events)) in
  ∃ wt, watchers st !! w = Some wt ∧
    delivered wt ++ w_queue wt = List.filter (λ c, cursor <? ch_revision c) (changes st).
Proof.
  intros Hs%reachable_ok Hw Ho Hcur Hkeep. rewrite run_app.
  destruct (step_ok number_text s (EvWatch w cursor) Hs) as [Hs' Hev].
  assert (∃ wt, watchers (store (step number_text s (EvWatch w cursor))) !! w = Some wt ∧
    watching cursor (store (step number_text s (EvWatch w cursor))) wt) as Hstart.
  { simpl. rewrite Hw. unfold watch, assertOpen. rewrite Ho. simpl. rewrite lookup_insert_eq.
    eexists. split; [done|]. split_and!; [done|by right|done]. }
  pose proof (ev_revision _ _ Hev) as Hrev. revert Hs' Hstart Hrev. clear Hev.
  generalize (step number_text s (EvWatch w cursor)). intros s0.
  assert (sys_ok s0 → (∃ wt, watchers (store s0) !! w = Some wt ∧ watching cursor (store s0) wt) →
    cursor ≤ revision (store s0) → ∃ wt, watchers (store (run number_text s0 events)) !! w = Some wt ∧
    watching cursor (store (run number_text s0 events)) wt) as Hrun.
  { clear -Hkeep. revert s0. induction Hkeep as [|e events He Hkeep IH]; intros s0 Hs0 Hstart Hc; [done|].
    rewrite run_app. destruct (step_ok number_text s0 e Hs0) as [Hs1 Hev].
    destruct Hstart as (wt & Hwt & Hwatch). apply IH; [done| |].
    - by eapply step_watching.
    - pose proof (ev_revision _ _ Hev). lia. }
  intros Hs0 Hstart Hrev. destruct (Hrun Hs0 Hstart) as (wt & Hwt & _ & _ & Hd); [lia|].
  by exists wt.
Qed.

Definition written_system : system := run sample_text new_system (take 5 race).

Lemma watch_exact_witness :
  ∃ wt, watchers (store (run sample_text written_system (EvWatch 0 1 :: drop 5 race ++ [EvNext 0 0; EvRun 0]))) !! 0%nat = Some wt ∧
    delivered wt ++ w_queue wt = [{| ch_revision := 2; ch_key := sample_key; ch_value := Some (JNum (NInt 11)) |}].
Proof.
  destruct (watch_exact sample_text written_system 0 1 (drop 5 race ++ [EvNext 0 0; EvRun 0])) as (wt & Hw & Hd).
  - exists (take 5 race). reflexivity.
  - vm_compute. reflexivity.
  - vm_compute. reflexivity.
  - apply Z.leb_le. vm_compute. reflexivity.
  - repeat constructor.
  - exists wt. split; [exact Hw|]. refine (eq_trans Hd _). vm_compute. reflexivity.
Defined.

(** ** The outbox *)
Definition claim_id (c : OutboxClaim) : jstring := messageId (c_message c).

(** Claims are exclusive and complete: a claim takes the first messages, up to
    its limit, that are due, unfinished, of its topic and under no running
    claim; each gets a lease under the next epoch of the message, no message is
    claimed twice, and every other message is untouched. *)
Theorem claims_exclusive number_text s request limit now st' cs :
  reachable number_text s → 1 ≤ limit →
  claimOutbox (store s) request limit now = (st', Ok cs) →
  let due := List.filter (eligible request now) (js_sort compare_outbox (map_values (outbox (store s)))) in
  map claim_id cs = map stored_id (take (Z.to_nat limit) due) ∧
  NoDup (map claim_id cs) ∧
  (∀ c, c ∈ cs → ∃ m m', outbox (store s) !! claim_id c = Some m ∧ eligible request now m = true ∧
     outbox st' !! claim_id c = Some m' ∧ s_claim m' = Some c ∧ c_owner c = cr_owner request ∧
     c_message c = s_message m ∧ c_claimEpoch c = s_attempt m + 1 ∧ s_attempt m' = s_attempt m + 1) ∧
  (∀ i, i ∉ map claim_id cs → outbox st' !! i = outbox (store s) !! i).
Proof.
  intros [Hst _ _]%reachable_ok Hlim H due. unfold claimOutbox in H.
  destruct (assertOpen (store s);; _) as [[adv at_]|e] eqn:E; [|done]. clear E.
  destruct (claim_loop _ _ _ _ _ _ _) as [box res] eqn:El.
  destruct (claim_loop_spec _ _ _ _ _ _ _ _ _ _ El (ok_outbox _ Hst) (outbox_sorted_NoDup _ Hst)
    (λ m, outbox_sorted_in (store s) m Hst)) as [_ Hspec].
  destruct res as [cs'|]; [|done]. injection H as <- <-. cbv zeta in Hspec. fold due in Hspec.
  replace (Nat.max 1 (Z.to_nat limit)) with (Z.to_nat limit) in Hspec by lia.
  destruct Hspec as [HF Hother].
  assert (outbox (if nonempty cs' || adv
    then with_outbox (store s) box (advance_fence (cr_fencing request) (fences (store s))) (revision (store s) + 1)
    else with_outbox (store s) box (fences (store s)) (revision (store s))) = box) as -> by (by case_match).
  assert (∀ m, m ∈ take (Z.to_nat limit) due → outbox (store s) !! stored_id m = Some m ∧ eligible request now m = true) as Hdue.
  { intros m Hm. apply elem_of_take in Hm as (k & Hm%list_elem_of_lookup_2 & _).
    apply elem_of_filterb in Hm as [Hm ?]. split; [by apply outbox_sorted_in|done]. }
  assert (∀ m c, m ∈ take (Z.to_nat limit) due →
    (∃ m', claim_message request now (lease_of request) at_ m = Ok (m', c) ∧ box !! stored_id m = Some m') →
    claim_id c = stored_id m ∧ ∃ m', box !! stored_id m = Some m' ∧ s_claim m' = Some c ∧
      c_owner c = cr_owner request ∧ c_message c = s_message m ∧ c_claimEpoch c = s_attempt m + 1 ∧
      s_attempt m' = s_attempt m + 1) as Hone.
  { intros m c Hm (m' & Hc & Hb). destruct (Hdue _ Hm) as [Hbox _].
    destruct (claim_message_ok _ _ _ _ _ _ _ _ _ (ob_message _ _ (ok_outbox _ Hst) _ _ Hbox) Hc)
      as (_ & _ & _ & ? & Em & ? & ? & ?).
    split; [unfold claim_id; by rewrite Em|]. by exists m'. }
  assert (map claim_id cs' = map stored_id (take (Z.to_nat limit) due)) as Eids.
  { clear Hother El Hdue. revert Hone. generalize (take (Z.to_nat limit) due) HF. clear HF. intros l HF Hone.
    induction HF as [|m c l cs' Hmc HF IH]; [done|]. simpl. f_equal.
    - by apply (Hone m c); [left|].
    - apply IH. intros. apply Hone; [by right|done]. }
  split_and!; [done| | |].
  - rewrite Eids. eapply (sublist_NoDup _ (map stored_id (js_sort compare_outbox (map_values (outbox (store s)))))).
    + by apply outbox_sorted_NoDup.
    + apply (fmap_sublist stored_id). etrans; [apply sublist_take|apply filterb_sublist].
  - intros c Hc. apply list_elem_of_lookup in Hc as [k Hk].
    destruct (Forall2_lookup_r _ _ _ _ _ HF Hk) as (m & Hm & Hmc). apply list_elem_of_lookup_2 in Hm.
    destruct (Hone _ _ Hm Hmc) as (-> & m' & ?). destruct (Hdue _ Hm). by exists m, m'.
  - intros i Hi. apply Hother. by rewrite <- Eids.
Qed.

Definition sample_message (i : jstring) : OutboxMessage :=
  {| messageId := i; operationId := js "op"; topic := js "component.lifecycle"; payload := JNull;
     createdAt := toISOString 0; availableAt := toISOString 0 |}.
Definition sample_claim : OutboxClaimRequest :=
  {| cr_owner := js "worker"; cr_leaseDurationMs := NInt 1000; cr_limit := None; cr_topic := None;
     cr_fencing := None |}.
Definition two_messages : list event :=
  [EvOpen; EvTransact 0 no_options; EvOperation 0 (OpEnqueue (sample_message (js "m1")));
   EvOperation 0 (OpEnqueue (sample_message (js "m2"))); EvWorkReturns 0 JNull; EvRun 0].

Definition queued_system : system := run sample_text new_system two_messages.

Lemma claims_exclusive_witness :
  map claim_id (match (claimOutbox (store queued_system) sample_claim 1 5).2 with Ok cs => cs | Err _ => [] end)
  = [js "m1"].
Proof.
  destruct (is_ok_true (claimOutbox (store queued_system) sample_claim 1 5).2) as [cs Hcs];
    [vm_compute; reflexivity|].
  destruct (claims_exclusive sample_text queued_system sample_claim 1 5
      (claimOutbox (store queued_system) sample_claim 1 5).1 cs)
    as [Hids _].
  - exists two_messages. reflexivity.
  - lia.
  - rewrite <- Hcs. apply surjective_pairing.
  - rewrite Hcs, Hids. vm_compute. reflexivity.
Defined.

(** An acknowledgement needs the current claim and is idempotent: it is accepted
    only from the owner and epoch that hold the message or that last
    acknowledged it, and repeating an accepted one changes nothing and returns
    the same answer, marked as a duplicate. *)
Theorem acknowledgement_idempotent st request now now' st' a :
  acknowledgeOutbox st request now = Ok (st', a) →
  (∃ m, outbox st !! ar_messageId request = Some m ∧
        (same_claim (s_claim m) request = true ∨ same_claim (s_acknowledgedClaim m) request = true)) ∧
  ∃ a', acknowledgeOutbox st' request now' = Ok (st', a') ∧ a_duplicate a' = true ∧
    a_messageId a' = a_messageId a ∧ a_outcome a' = a_outcome a ∧ a_attempt a' = a_attempt a ∧
    a_retryAt a' = a_retryAt a ∧ a_acknowledgedAt a' = a_acknowledgedAt a.
Proof.
  unfold acknowledgeOutbox. intros H. apply bind_ok in H as (u & Ho & H). apply bind_ok in H as (adv & Hf & H).
  assert (∀ box rev, let st1 := with_outbox st box
      (if adv then advance_fence (ar_fencing request) (fences st) else fences st) rev in
    assertOpen st1 = Ok u ∧ assertFence st1 (ar_fencing request) = Ok false) as Hnext.
  { intros box rev. split; [done|]. unfold assertFence in *. destruct (ar_fencing request) as [f|]; [|done].
    apply bind_ok in Hf as (u' & Hg%throw_if_ok & [= Hadv]). simpl.
    destruct (fences st !! resource f) as [e|] eqn:Ee; [destruct (Z.ltb_spec e (epoch f))|]; subst adv; simpl;
      rewrite ?lookup_insert_eq, ?Ee, ?Z.ltb_irrefl; cbn; try done.
    rewrite Hg. cbn. by rewrite (proj2 (Z.ltb_ge _ _)). }
  destruct (outbox st !! ar_messageId request) as [m|] eqn:Hm; [|done].
  destruct (s_acknowledgement m) as [prev|] eqn:Ea; [destruct (same_claim (s_acknowledgedClaim m) request) eqn:Es|].
  - apply bind_ok in H as (u2 & Hsame & [= Est <-]). split; [exists m; auto|].
    exists {| a_messageId := a_messageId prev; a_outcome := a_outcome prev; a_attempt := a_attempt prev;
              a_acknowledgedAt := a_acknowledgedAt prev; a_duplicate := true; a_retryAt := a_retryAt prev |}.
    split; [|done].
    assert (assertOpen st' = Ok u ∧ assertFence st' (ar_fencing request) = Ok false ∧ outbox st' = outbox st)
      as (-> & -> & ->).
    { destruct adv; subst st'; [|done]. by destruct (Hnext (outbox st) (revision st + 1)). }
    rewrite bind_ok_l, bind_ok_l, Hm, Ea, Es, Hsame. done.
  - destruct (s_claim m) as [c|] eqn:Ec; [|done]. apply bind_ok in H as (u2 & Hs%throw_if_ok%negb_false_iff & H).
    apply bind_ok in H as (at_ & _ & [= <- <-]). split; [exists m; rewrite Ec; auto|].
    rewrite (proj1 (Hnext _ _)), bind_ok_l, (proj2 (Hnext _ _)), bind_ok_l. cbn [outbox with_outbox]. rewrite lookup_insert_eq.
    cbn [s_acknowledgement s_acknowledgedClaim a_outcome a_retryAt]. rewrite Hs, !bool_decide_true by done.
    eexists. done.
  - destruct (s_claim m) as [c|] eqn:Ec; [|done]. apply bind_ok in H as (u2 & Hs%throw_if_ok%negb_false_iff & H).
    apply bind_ok in H as (at_ & _ & [= <- <-]). split; [exists m; rewrite Ec; auto|].
    rewrite (proj1 (Hnext _ _)), bind_ok_l, (proj2 (Hnext _ _)), bind_ok_l. cbn [outbox with_outbox]. rewrite lookup_insert_eq.
    cbn [s_acknowledgement s_acknowledgedClaim a_outcome a_retryAt]. rewrite Hs, !bool_decide_true by done.
    eexists. done.
Qed.

Definition sample_acknowledgement : OutboxAcknowledgementRequest :=
  {| ar_messageId := js "m1"; ar_owner := js "worker"; ar_claimEpoch := 1; ar_outcome := Completed;
     ar_retryAt := None; ar_fencing := None |}.

Definition claimed_system : system :=
  run sample_text new_system (two_messages ++ [EvClaim 1 sample_claim; EvRun 5]).

Lemma acknowledgement_idempotent_witness :
  ∃ st' a a', acknowledgeOutbox (store claimed_system) sample_acknowledgement 6 = Ok (st', a) ∧
    acknowledgeOutbox st' sample_acknowledgement 7 = Ok (st', a') ∧ a_duplicate a' = true.
Proof.
  destruct (is_ok_true (acknowledgeOutbox (store claimed_system) sample_acknowledgement 6)) as [[st' a] H];
    [vm_compute; reflexivity|].
  destruct (acknowledgement_idempotent (store claimed_system) sample_acknowledgement 6 7 st' a H) as [_ (a' & Ha & Hd & _)].
  exists st', a, a'. split; [exact H|]. split; [exact Ha|exact Hd].
Defined.

(** ** Scans *)
Definition with_after (query : StateQuery) (after : option jstring) (limit : option jsnum) : StateQuery :=
  {| q_namespace := q_namespace query; q_collection := q_collection query;
     q_idPrefix := q_idPrefix query; q_afterId := after; q_limit := limit |}.
Definition keyed (records : gmap StateKey StoredRecord) : Prop :=
  ∀ k r, records !! k = Some r → r_key r = k.

#[export] Instance by_id : Comparator (λ l r : StoredRecord, compareText (id (r_key l)) (id (r_key r))).
Proof. exact (comparator_on (λ r, id (r_key r)) compareText). Qed.

Lemma selected_distinct rs query x y :
  keyed rs → x ∈ List.filter (selects query) (map_values rs) → y ∈ List.filter (selects query) (map_values rs) →
  compareText (id (r_key x)) (id (r_key y)) = 0 → x = y.
Proof.
  intros Hk [Hx Sx]%elem_of_filterb [Hy Sy]%elem_of_filterb E%compareText_eq.
  apply elem_of_map_values in Hx as [kx Hx], Hy as [ky Hy].
  unfold selects in Sx, Sy. to_prop.
  repeat match goal with H : streq _ _ = true |- _ => apply streq_true in H end.
  enough (kx = ky) by congruence. rewrite <- (Hk _ _ Hx), <- (Hk _ _ Hy).
  destruct (r_key x), (r_key y); simpl in *; congruence.
Qed.

Lemma selects_after query a limit limit' r :
  selects (with_after query (Some a) limit) r =
  selects (with_after query None limit') r && (0 <? compareText (id (r_key r)) a).
Proof. unfold selects, with_after. cbn. by rewrite andb_true_r. Qed.

(** The cursor of a scan only drops the records up to it. *)
Lemma matching_after rs query a limit limit' :
  keyed rs →
  matching_records rs (with_after query (Some a) limit) =
  List.filter (λ r, 0 <? compareText (id (r_key r)) a) (matching_records rs (with_after query None limit')).
Proof.
  intros Hk. unfold matching_records. rewrite (js_sort_filterb _).
  - f_equal. induction (map_values rs) as [|r l IH]; cbn [List.filter]; [done|].
    rewrite (selects_after query a limit limit').
    destruct (selects (with_after query None limit') r); cbn [List.filter andb]; by rewrite IH.
  - intros x y. by apply selected_distinct.
Qed.

Lemma strict_after (l1 l2 : list StoredRecord) r :
  StronglySorted (λ x y, compareText (id (r_key x)) (id (r_key y)) ≤ 0) (l1 ++ r :: l2) →
  (∀ x, x ∈ l2 → compareText (id (r_key r)) (id (r_key x)) = 0 → r = x) → r ∉ l2 →
  List.filter (λ x, 0 <? compareText (id (r_key x)) (id (r_key r))) (l1 ++ r :: l2) = l2.
Proof.
  intros Hs Hsep Hnin. rewrite List.filter_app. cbn [List.filter].
  rewrite (cmp_refl (cmp := compareText)). cbn [Z.ltb Z.compare].
  assert (List.filter (λ x, 0 <? compareText (id (r_key x)) (id (r_key r))) l1 = []) as ->.
  { apply filterb_nil. intros x Hx. apply Z.ltb_ge.
    apply list_elem_of_split in Hx as (a & b & ->). rewrite <- app_assoc in Hs.
    clear -Hs. induction a as [|y a IH]; simpl in Hs.
    - apply StronglySorted_inv in Hs as [_ Hx]. rewrite Forall_forall in Hx. apply Hx.
      rewrite elem_of_app. right. left.
    - apply IH. by apply StronglySorted_inv in Hs as [Hs _]. }
  simpl. apply filterb_id, Forall_forall. intros x Hx. apply Z.ltb_lt.
  assert (compareText (id (r_key r)) (id (r_key x)) ≤ 0) as Hle.
  { clear -Hs Hx. induction l1 as [|y l1 IH]; simpl in Hs.
    - apply StronglySorted_inv in Hs as [_ Hr]. rewrite Forall_forall in Hr. by apply Hr.
    - apply IH. by apply StronglySorted_inv in Hs as [Hs _]. }
  apply (cmp_antisym (cmp := compareText)).
  destruct (Z.eq_dec (compareText (id (r_key r)) (id (r_key x))) 0) as [E|]; [|lia].
  exfalso. apply Hnin. by rewrite (Hsep x Hx E).
Qed.

(** Pages of a scan fit together: the page after the last record of a prefix of
    the whole scan is the next stretch of it, so paging by the last identifier
    visits every record once, in order. *)
Theorem scan_pages number_text s query all prefix r rest limit page :
  reachable number_text s →
  scan (store s) (with_after query None None) = Ok all → all = prefix ++ r :: rest →
  scan (store s) (with_after query (Some (id (r_key r))) (Some (NInt limit))) = Ok page →
  page = take (Z.to_nat limit) rest ∧
  (∀ x, x ∈ all ↔ (∃ k, records (store s) !! k = Some x) ∧ selects (with_after query None None) x = true).
Proof.
  intros [Hst _ _]%reachable_ok Hall Eall Hpage.
  assert (keyed (records (store s))) as Hk by (intros k x Hx; by apply (ok_records _ _ _ Hst Hx)).
  unfold scan in Hall, Hpage. apply bind_ok in Hall as (? & _ & Hall). apply bind_ok in Hall as (? & _ & [= Hall]).
  apply bind_ok in Hpage as (? & _ & Hpage). apply bind_ok in Hpage as (? & Hq & [= Hpage]).
  cbn [with_after q_limit StateStore.page] in Hall, Hpage.
  unfold assertStateQuery in Hq. apply throw_if_ok in Hq. cbn [with_after q_limit given] in Hq. to_prop.
  unfold out_of_range in *. destruct (safe_integer (NInt limit)) as [z|] eqn:Ez; [|done].
  assert (z = limit) as -> by (simpl in Ez; destruct (isSafeInteger limit); congruence).
  change (if isSafeInteger limit then Some limit else None) with (safe_integer (NInt limit)) in Hpage.
  rewrite Ez, (matching_after _ _ _ _ None Hk) in Hpage. split.
  - rewrite <- Hpage. f_equal.
    assert (StronglySorted (λ x y, compareText (id (r_key x)) (id (r_key y)) ≤ 0) (prefix ++ r :: rest)) as Hs.
    { rewrite <- Eall, <- Hall. apply (js_sort_sorted _). }
    assert (NoDup (prefix ++ r :: rest)) as Hnd.
    { rewrite <- Eall, <- Hall. unfold matching_records. apply NoDup_js_sort, NoDup_filterb.
      apply (NoDup_fmap_1 r_key), NoDup_map_values. done. }
    unfold with_after in Hall. cbn in Hall. unfold with_after. cbn [q_namespace q_collection q_idPrefix].
    rewrite Hall, Eall. apply strict_after; [done| |].
    + intros y Hy. apply (selected_distinct _ (with_after query None None) _ _ Hk).
      * apply (elem_of_js_sort (λ l r, compareText (id (r_key l)) (id (r_key r)))).
        fold (matching_records (records (store s)) (with_after query None None)).
        unfold with_after. rewrite Hall, Eall. apply elem_of_app. right. left.
      * apply (elem_of_js_sort (λ l r, compareText (id (r_key l)) (id (r_key r)))).
        fold (matching_records (records (store s)) (with_after query None None)).
        unfold with_after. rewrite Hall, Eall. apply elem_of_app. right. by right.
    + apply NoDup_app in Hnd as (_ & _ & Hnd). by apply NoDup_cons in Hnd as [? _].
  - intros y. rewrite <- Hall. unfold matching_records. by rewrite elem_of_js_sort, elem_of_filterb, elem_of_map_values.
Qed.

(** ** Transactions *)
Lemma tx_view_lookup tx k :
  tx_ok tx →
  tx_view tx !! k = match tx_mutations tx !! k with
    | Some (PutMutation _ v _) => Some {| r_key := k; r_value := v; r_revision := snapshot_revision tx k |}
    | Some (DeleteMutation _ _) => None
    | None => tx_snapshot tx !! k
    end.
Proof.
  intros [Hk _ _]. unfold tx_view.
  apply (map_fold_weak_ind (λ view m, (∀ i m', m !! i = Some m' → m_key m' = i) →
    view !! k = match m !! k with
      | Some (PutMutation _ v _) => Some {| r_key := k; r_value := v; r_revision := snapshot_revision tx k |}
      | Some (DeleteMutation _ _) => None
      | None => tx_snapshot tx !! k
      end)); [by rewrite lookup_empty| |done].
  intros i m' m view Hi IH Hm.
  assert (∀ j m'', m !! j = Some m'' → m_key m'' = j) as Hm'.
  { intros j m'' Hj. apply Hm. rewrite lookup_insert_ne; [done|]. congruence. }
  specialize (IH Hm'). pose proof (Hm i m' ltac:(by rewrite lookup_insert_eq)) as Ekey.
  destruct (decide (i = k)) as [<-|Hne].
  - rewrite lookup_insert_eq. destruct m'; simpl in Ekey; subst; [by rewrite lookup_insert_eq|by rewrite lookup_delete_eq].
  - rewrite lookup_insert_ne by done. destruct m'; [by rewrite lookup_insert_ne|by rewrite lookup_delete_ne].
Qed.

(** A transaction reads its own writes over its snapshot: a read and a scan see
    the same records, the snapshot with the staged mutations applied, and what
    other transactions commit meanwhile does not show. *)
Theorem transaction_view number_text s c k fencing tx key query v rs :
  reachable number_text s → calls s !! c = Some k → k_role k = Executing fencing tx →
  tx_get tx key = Ok v → tx_scan tx (with_after query None None) = Ok rs →
  v = (λ r, {| v_value := r_value r; v_revision := r_revision r |}) <$> tx_view tx !! key ∧
  (∀ r, r ∈ rs ↔ (∃ k, tx_view tx !! k = Some r) ∧ selects (with_after query None None) r = true) ∧
  (∀ key' value expected tx', tx_put tx key' value expected = Ok tx' →
     ∃ value', copy value = Ok value' ∧
       tx_view tx' = <[key' := {| r_key := key'; r_value := value';
                                  r_revision := snapshot_revision tx key' |}]> (tx_view tx)).
Proof.
  intros [_ Hcalls _]%reachable_ok Hc Hr Hget Hscan.
  destruct (co_tx _ Hcalls _ _ _ _ Hc Hr) as [Htx _]. split_and!.
  - unfold tx_get in Hget. apply bind_ok in Hget as (? & _ & Hget). apply bind_ok in Hget as (? & _ & [= <-]).
    rewrite tx_view_lookup by done. destruct (tx_mutations tx !! key) as [[]|]; [done..|].
    by destruct (tx_snapshot tx !! key).
  - unfold tx_scan in Hscan. apply bind_ok in Hscan as (? & _ & Hscan). apply bind_ok in Hscan as (? & _ & [= <-]).
    intros r. cbn [with_after q_limit StateStore.page]. unfold matching_records.
    by rewrite elem_of_js_sort, elem_of_filterb, elem_of_map_values.
  - intros key' value expected tx' Hput. pose proof (perform_ok tx (OpPut key' value expected) Htx) as Htx'.
    simpl in Htx'. rewrite Hput in Htx'. unfold tx_put in Hput. apply bind_ok in Hput as (? & _ & Hput).
    apply bind_ok in Hput as (? & _ & Hput). apply bind_ok in Hput as (v' & Hv & [= <-]).
    exists v'. split; [done|]. apply map_eq. intros i. rewrite tx_view_lookup by done. simpl.
    destruct (decide (key' = i)) as [<-|Hne].
    + by rewrite !lookup_insert_eq.
    + rewrite !lookup_insert_ne by done. by rewrite tx_view_lookup.
Qed.

Definition whole_collection : StateQuery :=
  {| q_namespace := js "app"; q_collection := js "doc"; q_idPrefix := None; q_afterId := None; q_limit := None |}.
Definition doc (i : jstring) : StateKey := {| namespace := js "app"; collection := js "doc"; id := i |}.
Definition three_docs : list event :=
  [EvOpen; EvTransact 0 no_options; EvOperation 0 (OpPut (doc (js "b")) (JBool true) Absent);
   EvOperation 0 (OpPut (doc (js "c")) (JBool false) Absent);
   EvOperation 0 (OpPut (doc (js "a")) JNull Absent); EvWorkReturns 0 JNull; EvRun 0].
Definition doc_record (i : jstring) (v : json) : StoredRecord :=
  {| r_key := doc i; r_value := v; r_revision := 1 |}.

Definition docs_system : system := run sample_text new_system three_docs.

Lemma scan_pages_witness :
  is_ok (scan (store docs_system) (with_after whole_collection (Some (js "a")) (Some (NInt 1)))) = true ∧
  ∀ page, scan (store docs_system) (with_after whole_collection (Some (js "a")) (Some (NInt 1))) = Ok page →
    page = [doc_record (js "b") (JBool true)].
Proof.
  split; [vm_compute; reflexivity|]. intros page Hpage.
  refine (proj1 (scan_pages sample_text docs_system whole_collection _ [] (doc_record (js "a") JNull)
    [doc_record (js "b") (JBool true); doc_record (js "c") (JBool false)] 1 page _ _ eq_refl Hpage)).
  - exists three_docs. reflexivity.
  - vm_compute. reflexivity.
Defined.

Definition sample_tx : MemoryTransaction :=
  perform (new_transaction ∅) (OpPut (doc (js "b")) (JBool true) Absent).
Definition sample_call : call :=
  {| k_identity := None; k_role := Executing None sample_tx; k_outcome := Pending |}.

Definition writing_system : system := run sample_text new_system (take 3 three_docs).

Lemma transaction_view_witness :
  calls writing_system !! 0%nat = Some sample_call ∧
  ∀ v, tx_get sample_tx (doc (js "b")) = Ok v →
    v = (λ r, {| v_value := r_value r; v_revision := r_revision r |}) <$> tx_view sample_tx !! doc (js "b").
Proof.
  assert (calls writing_system !! 0%nat = Some sample_call) as Hc by (vm_compute; reflexivity).
  split; [exact Hc|]. intros v Hv.
  refine (proj1 (transaction_view sample_text writing_system 0 sample_call None sample_tx (doc (js "b")) whole_collection v
    [{| r_key := doc (js "b"); r_value := JBool true; r_revision := 0 |}] _ Hc eq_refl Hv _)).
  - exists (take 3 three_docs). reflexivity.
  - vm_compute. reflexivity.
Defined.
