(* ===== verification/EpochAllocator.v ===== *)
(** * Worker session epochs

    transport-websocket/src/state-worker-epoch-allocator.ts over an interface of
    the state store. [EpochStore] states what the allocator relies on: reading a
    record, one guarded write, and revisions that never return. The in-memory
    store implements it; the allocator's theorem holds of every store that does. *)

From S2P Require Import Prelude JsString Collections Regex JsValue JsonText Identity StateStore StoreProofs.

Open Scope Z_scope.

(** ** The interface *)
Class EpochStore (S : Type) := {
  es_get : S → StateKey → option Versioned;
  es_write : S → option StateFencing → StateKey → json → ExpectedRevision → checked S;
  es_revision : S → Z;
  es_get_revision s k v : es_get s k = Some v → v_revision v ≤ es_revision s;
  es_write_guard s f k v e s' : es_write s f k v e = Ok s' →
    match e with
    | AnyRevision => True
    | Absent => es_get s k = None
    | At r => ∃ v', es_get s k = Some v' ∧ v_revision v' = r
    end;
  es_write_get s f k v e s' : es_write s f k v e = Ok s' →
    ∃ c, copy v = Ok c ∧ es_get s' k = Some {| v_value := c; v_revision := es_revision s' |};
  es_write_other s f k v e s' k' : es_write s f k v e = Ok s' → k' ≠ k → es_get s' k' = es_get s k';
  es_write_revision s f k v e s' : es_write s f k v e = Ok s' → es_revision s < es_revision s';
}.

(** ** The allocator *)
Inductive alloc_error :=
| WORKER_ID_INVALID
| WORKER_EPOCH_RECORD_INVALID
| WORKER_EPOCH_LIMIT_EXCEEDED
| STATE_ERROR (code : StateErrorCode).

Definition MAXIMUM_UNSIGNED_64 : Z := 18446744073709551615.

Definition epochKey (workerId : jstring) : StateKey :=
  {| namespace := js "tego"; collection := js "worker-session-epochs"; id := workerId |}.

Definition epoch_record (workerId : jstring) (epoch : Z) : json :=
  JObj [(js "workerId", JStr workerId); (js "epoch", JStr (show_nat epoch))].

(** The epoch of a record of the worker; anything else is invalid. *)
Definition previous_epoch (workerId : jstring) (value : json) : result alloc_error Z :=
  match value with
  | JObj fields =>
      match JsMap.get fields (js "workerId"), JsMap.get fields (js "epoch") with
      | Some (JStr w), Some (JStr epoch) =>
          if negb (streq w workerId) then Err WORKER_EPOCH_RECORD_INVALID
          else match parseWorkerId (VStr w), parseFencingEpoch (VStr epoch) with
               | Ok _, Ok e => Ok (decimal_value e)
               | _, _ => Err WORKER_EPOCH_RECORD_INVALID
               end
      | _, _ => Err WORKER_EPOCH_RECORD_INVALID
      end
  | _ => Err WORKER_EPOCH_RECORD_INVALID
  end.

(** What the work of [next] writes, and the epoch it returns. *)
Definition next_epoch (workerId : jstring) (current : option Versioned)
  : result alloc_error (json * ExpectedRevision * Z) :=
  previous ← match current with None => Ok 0 | Some v => previous_epoch workerId (v_value v) end;
  throw_if (MAXIMUM_UNSIGNED_64 <=? previous) WORKER_EPOCH_LIMIT_EXCEEDED;;
  let epoch := previous + 1 in
  Ok (epoch_record workerId epoch,
      match current with None => Absent | Some v => At (v_revision v) end, epoch).

(** ** Allocations that interleave

    A call of [next] reads the record, and commits later; other calls of it and
    other clients write in between. *)
Section allocator.
Context {S : Type} `{!EpochStore S} (fencing : option StateFencing).

Record allocations := {
  al_state : S;
  al_reads : gmap nat (jstring * option Versioned);
  al_issued : list (jstring * Z);
}.

Definition next_begin (i : nat) (workerId : jstring) (a : allocations) : result alloc_error allocations :=
  match parseWorkerId (VStr workerId) with
  | Err _ => Err WORKER_ID_INVALID
  | Ok w =>
      Ok {| al_state := al_state a;
            al_reads := <[i := (w, es_get (al_state a) (epochKey w))]> (al_reads a);
            al_issued := al_issued a |}
  end.

Definition next_commit (i : nat) (a : allocations) : allocations * result alloc_error Z :=
  match al_reads a !! i with
  | None => (a, Err WORKER_ID_INVALID)
  | Some (w, current) =>
      let leave r := ({| al_state := al_state a; al_reads := delete i (al_reads a); al_issued := al_issued a |}, r) in
      match next_epoch w current with
      | Err e => leave (Err e)
      | Ok (value, expected, epoch) =>
          match es_write (al_state a) fencing (epochKey w) value expected with
          | Err code => leave (Err (STATE_ERROR code))
          | Ok s' =>
              ({| al_state := s'; al_reads := delete i (al_reads a);
                  al_issued := al_issued a ++ [(w, epoch)] |}, Ok epoch)
          end
      end
  end.

Inductive alloc_step : allocations → allocations → Prop :=
| step_begin i w a a' : al_reads a !! i = None → next_begin i w a = Ok a' → alloc_step a a'
| step_commit i a : alloc_step a (next_commit i a).1
| step_other f k v e s' a :
    collection k ≠ js "worker-session-epochs" → es_write (al_state a) f k v e = Ok s' →
    alloc_step a {| al_state := s'; al_reads := al_reads a; al_issued := al_issued a |}.

Definition idle (s : S) : allocations := {| al_state := s; al_reads := ∅; al_issued := [] |}.

(** What is issued for a worker is at most what its record holds; a read either
    is the record still or has an older revision. *)
Record alloc_ok (a : allocations) : Prop := {
  al_recorded w e : (w, e) ∈ al_issued a → 0 < e ≤ MAXIMUM_UNSIGNED_64 ∧ ∃ v p,
    es_get (al_state a) (epochKey w) = Some v ∧ previous_epoch w (v_value v) = Ok p ∧ e ≤ p;
  al_sorted : StronglySorted (λ x y, x.1 = y.1 → x.2 < y.2) (al_issued a);
  al_read i w cur : al_reads a !! i = Some (w, cur) → re_test IDENTITY_PATTERN w = true ∧
    match cur with
    | None => True
    | Some v => v_revision v ≤ es_revision (al_state a) ∧ ∀ v',
        es_get (al_state a) (epochKey w) = Some v' → v_revision v' = v_revision v → v' = v
    end;
}.

Lemma parse_worker w w' : parseWorkerId (VStr w) = Ok w' ↔ w' = w ∧ re_test IDENTITY_PATTERN w = true.
Proof. unfold parseWorkerId, parseIdentity. destruct (re_test IDENTITY_PATTERN w); naive_solver. Qed.

Lemma epoch_record_copy w e c :
  re_test IDENTITY_PATTERN w = true → 0 ≤ e → copy (epoch_record w e) = Ok c → previous_epoch w c = Ok e.
Proof.
  intros Hw He H. unfold copy, epoch_record in H.
  change (serialize (JObj [(js "workerId", JStr w); (js "epoch", JStr (show_nat e))])) with
    (Some (JObj [(js "epoch", JStr (show_nat e)); (js "workerId", JStr w)])) in H.
  injection H as <-. unfold previous_epoch.
  change (JsMap.get _ (js "workerId")) with (Some (JStr w)).
  change (JsMap.get _ (js "epoch")) with (Some (JStr (show_nat e))). cbv iota beta.
  rewrite (proj2 (streq_true w w) eq_refl). cbn [negb].
  rewrite (proj2 (parse_worker w w)) by done.
  unfold parseFencingEpoch, parseDecimalIdentity. rewrite DECIMAL_PATTERN_spec, show_nat_canonical by done.
  by rewrite show_nat_value.
Qed.

Lemma previous_epoch_nonneg w v p : previous_epoch w v = Ok p → 0 ≤ p.
Proof.
  unfold previous_epoch. destruct v as [| | | | |fields]; try done.
  destruct (JsMap.get fields (js "workerId")) as [[| | |w'| |]|]; try done.
  destruct (JsMap.get fields (js "epoch")) as [[| | |e| |]|]; try done.
  destruct (negb _); [done|]. destruct (parseWorkerId (VStr w')); [|done].
  unfold parseFencingEpoch, parseDecimalIdentity. rewrite DECIMAL_PATTERN_spec.
  destruct (isCanonicalDecimal e) eqn:E; [|done]. intros [= <-]. by apply decimal_value_nonneg.
Qed.

Lemma epochKey_inj w w' : epochKey w = epochKey w' → w = w'.
Proof. by intros [= ->]. Qed.

(** A write elsewhere or newer keeps a read stale or current. *)
Lemma read_stable s s' f k v e w cur :
  es_write s f k v e = Ok s' →
  match cur with
  | None => True
  | Some r => v_revision r ≤ es_revision s ∧ ∀ v',
      es_get s (epochKey w) = Some v' → v_revision v' = v_revision r → v' = r
  end →
  match cur with
  | None => True
  | Some r => v_revision r ≤ es_revision s' ∧ ∀ v',
      es_get s' (epochKey w) = Some v' → v_revision v' = v_revision r → v' = r
  end.
Proof.
  intros Hw. destruct cur as [r|]; [|done]. intros [Hle Hsame].
  pose proof (es_write_revision _ _ _ _ _ _ Hw). split; [lia|]. intros v' Hv' Hr.
  destruct (decide (epochKey w = k)) as [<-|Hne].
  - destruct (es_write_get _ _ _ _ _ _ Hw) as (c & _ & E). rewrite E in Hv'. injection Hv' as <-.
    simpl in Hr. lia.
  - rewrite (es_write_other _ _ _ _ _ _ _ Hw Hne) in Hv'. auto.
Qed.

Lemma next_epoch_ok w cur value expected epoch :
  next_epoch w cur = Ok (value, expected, epoch) →
  value = epoch_record w epoch ∧ 0 < epoch ≤ MAXIMUM_UNSIGNED_64 ∧
  match cur with
  | None => expected = Absent ∧ epoch = 1
  | Some v => expected = At (v_revision v) ∧ previous_epoch w (v_value v) = Ok (epoch - 1)
  end.
Proof.
  unfold next_epoch. intros H. apply bind_ok in H as (p & Hp & H).
  apply bind_ok in H as (u & Hg%throw_if_ok & [= <- <- <-]). apply Z.leb_gt in Hg.
  assert (0 ≤ p) by (destruct cur; [by eapply previous_epoch_nonneg|by injection Hp as <-]).
  split; [done|]. split; [lia|]. destruct cur as [v|].
  - split; [done|]. by replace (p + 1 - 1) with p by lia.
  - injection Hp as <-. split; [done|lia].
Qed.

Lemma alloc_step_ok a a' : alloc_step a a' → alloc_ok a → alloc_ok a'.
Proof.
  intros Hstep [Hrec Hsort Hread]. destruct Hstep as [i w a a' Hi Hb|i a|f k v e s' a Hk Hw].
  - unfold next_begin in Hb. destruct (parseWorkerId (VStr w)) as [w'|] eqn:E; [|done]. injection Hb as <-.
    apply parse_worker in E as [-> Hw]. split; simpl; [done|done|]. intros j w' cur.
    destruct (decide (i = j)) as [<-|]; [rewrite lookup_insert_eq|rewrite lookup_insert_ne by done; apply Hread].
    intros [= <- <-]. split; [done|]. destruct (es_get (al_state a) (epochKey w)) as [r|] eqn:Er; [|done].
    split; [by apply es_get_revision in Er|]. by intros v' [= <-].
  - unfold next_commit. destruct (al_reads a !! i) as [[w cur]|] eqn:Ei; [|by split].
    assert (∀ j w' cur', delete i (al_reads a) !! j = Some (w', cur') → al_reads a !! j = Some (w', cur')) as Hdel.
    { intros j w' cur'. destruct (decide (i = j)) as [<-|]; [by rewrite lookup_delete_eq|by rewrite lookup_delete_ne]. }
    destruct (next_epoch w cur) as [[[value expected] epoch]|] eqn:En; [|by split; simpl; eauto].
    destruct (es_write (al_state a) fencing (epochKey w) value expected) as [s'|] eqn:Ew; [|by split; simpl; eauto].
    destruct (next_epoch_ok _ _ _ _ _ En) as (-> & Hrange & Hcur). destruct (Hread _ _ _ Ei) as [Hpat Hst].
    destruct (es_write_get _ _ _ _ _ _ Ew) as (c & Hc & Hget).
    pose proof (epoch_record_copy w epoch c Hpat ltac:(lia) Hc) as Hprev.
    assert (∀ e, (w, e) ∈ al_issued a → e < epoch) as Hlt.
    { intros e (_ & v & p & Hv & Hp & Hle)%Hrec. pose proof (es_write_guard _ _ _ _ _ _ Ew) as Hg.
      destruct cur as [r|]; destruct Hcur as [-> Hcur]; simpl in Hg; [|congruence].
      destruct Hg as (v' & Hv' & Hr). destruct Hst as [_ Hst]. specialize (Hst _ Hv' Hr) as ->.
      rewrite Hv in Hv'. injection Hv' as ->. rewrite Hcur in Hp. injection Hp as <-. lia. }
    split; simpl.
    + intros w' e [Hin|Hin%list_elem_of_singleton]%elem_of_app.
      * destruct (Hrec _ _ Hin) as (He & v & p & Hv & Hp & Hle). split; [done|].
        destruct (decide (w = w')) as [<-|Hne].
        -- eexists _, epoch. split; [exact Hget|]. split; [done|]. specialize (Hlt _ Hin). lia.
        -- exists v, p. rewrite (es_write_other _ _ _ _ _ _ _ Ew); [done|]. by intros ?%epochKey_inj.
      * injection Hin as -> ->. split; [done|]. eexists _, epoch. split; [exact Hget|]. split; [done|lia].
    + apply sorted_app; [done|repeat constructor|]. intros [w1 e1] y Hin ->%list_elem_of_singleton. simpl.
      intros ->. by apply Hlt.
    + intros j w' cur' Hj%Hdel. destruct (Hread _ _ _ Hj) as [? Hst']. split; [done|].
      by eapply read_stable.
  - split; simpl; [|done|].
    + intros w x Hin. destruct (Hrec _ _ Hin) as (He & r & p & Hr & ?). split; [done|]. exists r, p.
      rewrite (es_write_other _ _ _ _ _ _ _ Hw); [done|]. intros <-. by apply Hk.
    + intros j w cur Hj. destruct (Hread _ _ _ Hj). split; [done|]. by eapply read_stable.
Qed.

Lemma alloc_reachable_ok s a : rtc alloc_step (idle s) a → alloc_ok a.
Proof.
  intros H. assert (alloc_ok (idle s)) as H0.
  { split; simpl; [by intros ?? ?%elem_of_nil|constructor|]. intros i w cur. by rewrite lookup_empty. }
  revert H0. induction H as [a|a a' a'' Hstep _ IH]; [done|]. intros. by eapply IH, alloc_step_ok.
Qed.
End allocator.
Arguments allocations S : clear implicits.

(** ** The in-memory store implements the interface *)
Section memory.
Context (number_text : jsnum → jstring).

(** One transaction that puts one record. *)
Definition put_record (st : MemoryStateStore) (fencing : option StateFencing) (key : StateKey)
    (value : json) (expected : ExpectedRevision) : checked MemoryStateStore :=
  tx ← tx_put (new_transaction (records st)) key value expected;
  commit number_text st fencing None (staged_of tx) JNull.

Lemma put_record_inv st f k v e st' :
  put_record st f k v e = Ok st' → ∃ c,
    copy v = Ok c ∧ matchesExpectedRevision (records st !! k) e = true ∧
    revision st' = revision st + 1 ∧
    records st' !! k = Some {| r_key := k; r_value := c; r_revision := revision st + 1 |} ∧
    (∀ k', k' ≠ k → records st' !! k' = records st !! k') ∧
    (store_ok st → store_ok st').
Proof.
  unfold put_record. intros H. apply bind_ok in H as (tx & Htx & H).
  unfold tx_put in Htx. apply bind_ok in Htx as (? & _ & Htx). apply bind_ok in Htx as (? & _ & Htx).
  apply bind_ok in Htx as (c & Hc & [= <-]). exists c. split; [done|].
  set (staged := staged_of _) in H.
  assert (staged = {| st_mutations := [PutMutation k c e]; st_operations := []; st_outbox := [] |}) as Es.
  { unfold staged, staged_of. simpl. unfold map_values. by rewrite insert_empty, map_to_list_singleton. }
  rewrite Es in H.
  assert (staged_ok {| st_mutations := [PutMutation k c e]; st_operations := []; st_outbox := [] |}) as Hs
    by (split; simpl; [apply NoDup_singleton|constructor]).
  assert (store_ok st → store_ok st') as Hok by (intros Hst; by eapply commit_ok).
  apply commit_inv in H as (_ & next & applied & box & adv & Hcm & _ & _ & E). simpl in Hcm, E.
  apply bind_ok in Hcm as (? & Hg%throw_if_ok%negb_false_iff & [= <- <-]). simpl in E. subst st'.
  split_and!; [done|done| | |exact Hok].
  - simpl. apply lookup_insert_eq.
  - intros k' Hne. simpl. by apply lookup_insert_ne.
Qed.

Record checked_store := { cs_store : MemoryStateStore; cs_ok : store_ok cs_store }.

Definition checked_put (s : checked_store) (fencing : option StateFencing) (key : StateKey)
    (value : json) (expected : ExpectedRevision) : checked checked_store :=
  match put_record (cs_store s) fencing key value expected as r
    return put_record (cs_store s) fencing key value expected = r → checked checked_store with
  | Ok st' => λ E, Ok {| cs_store := st';
      cs_ok := let '(ex_intro _ _ (conj _ (conj _ (conj _ (conj _ (conj _ H)))))) :=
                 put_record_inv _ _ _ _ _ _ E in H (cs_ok s) |}
  | Err code => λ _, Err code
  end eq_refl.

Lemma checked_put_inv s f k v e s' :
  checked_put s f k v e = Ok s' → put_record (cs_store s) f k v e = Ok (cs_store s').
Proof.
  unfold checked_put.
  match goal with |- context [put_record_inv ?a ?b ?c ?d ?e] => generalize (put_record_inv a b c d e) end.
  destruct (put_record (cs_store s) f k v e); [|done]. intros i. by intros [= <-].
Qed.

#[export] Instance memory_epoch_store : EpochStore checked_store.
Proof.
  refine {| es_get s k := (λ r, {| v_value := r_value r; v_revision := r_revision r |}) <$> records (cs_store s) !! k;
            es_write := checked_put; es_revision s := revision (cs_store s) |}.
  - intros [st Hst] k v. simpl. intros (r & Hr & ->)%fmap_Some. simpl. by apply (ok_records _ _ _ Hst Hr).
  - intros s f k v e s' (c & _ & Hm & _)%checked_put_inv%put_record_inv. destruct e as [| |r]; [done| |];
      simpl in Hm; destruct (records (cs_store s) !! k) as [rec|]; try done.
    eexists. split; [done|]. by apply Z.eqb_eq.
  - intros s f k v e s' (c & Hc & _ & Hr & Hg & _)%checked_put_inv%put_record_inv. exists c. split; [done|].
    rewrite Hg, Hr. done.
  - intros s f k v e s' k' (c & _ & _ & _ & _ & Ho & _)%checked_put_inv%put_record_inv Hne. by rewrite Ho.
  - intros s f k v e s' (c & _ & _ & Hr & _)%checked_put_inv%put_record_inv. lia.
Defined.
End memory.

(** Epochs of a worker only grow: over every interleaving of allocations with
    each other and with writes to other collections, on any store that keeps
    the interface, the epochs issued for one worker are strictly increasing (so
    never issued twice) and stay within the unsigned 64 bits of the protocol. *)
Theorem epochs_increase {S} `{!EpochStore S} (fencing : option StateFencing) (s : S) (a : allocations S) :
  rtc (alloc_step fencing) (idle s) a →
  (∀ l1 l2 l3 w e1 e2, al_issued a = l1 ++ (w, e1) :: l2 ++ (w, e2) :: l3 → e1 < e2) ∧
  (∀ w e, (w, e) ∈ al_issued a → 0 < e ≤ MAXIMUM_UNSIGNED_64).
Proof.
  intros Hok%alloc_reachable_ok. split.
  - intros l1 l2 l3 w e1 e2 E. pose proof (al_sorted _ Hok) as Hs. rewrite E in Hs. clear E.
    induction l1 as [|x l1 IH]; simpl in Hs.
    + apply StronglySorted_inv in Hs as [_ Hx]. rewrite Forall_forall in Hx.
      specialize (Hx (w, e2) ltac:(apply elem_of_app; right; left)). by apply Hx.
    + apply IH. by apply StronglySorted_inv in Hs as [Hs _].
  - intros w e Hin. by destruct (al_recorded _ Hok _ _ Hin) as [? _].
Qed.

(** Two allocations read the absent record; the second to commit is refused, and
    succeeds when it tries again. *)
Definition text (n : jsnum) : jstring := [].
Definition open_store : checked_store :=
  {| cs_store := (open new_store).1; cs_ok := proj1 (watchers_ok new_store StoreOpen ∅ new_store_ok) |}.
Abbreviation on_memory := (memory_epoch_store text).
Definition begun (i : nat) (a : allocations checked_store) : allocations checked_store :=
  match next_begin (EpochStore0 := on_memory) i (js "worker-1") a with Ok a' => a' | Err _ => a end.
Definition committed (i : nat) (a : allocations checked_store) : allocations checked_store :=
  (next_commit (EpochStore0 := on_memory) None i a).1.
Definition race_begun : allocations checked_store := begun 2 (begun 1 (idle open_store)).
Definition retried : allocations checked_store := begun 3 (committed 2 (committed 1 race_begun)).

Lemma begun_step i a :
  al_reads a !! i = None → is_ok (next_begin (EpochStore0 := on_memory) i (js "worker-1") a) = true →
  alloc_step (EpochStore0 := on_memory) None a (begun i a).
Proof.
  intros Hi [a' E]%is_ok_true. apply (step_begin (EpochStore0 := on_memory) None i (js "worker-1")); [done|].
  unfold begun. by rewrite E.
Qed.

Lemma epochs_increase_witness :
  al_issued (committed 3 retried) = [(js "worker-1", 1); (js "worker-1", 2)] ∧ 1 < 2.
Proof.
  assert (al_issued (committed 3 retried) = [(js "worker-1", 1); (js "worker-1", 2)]) as E
    by (vm_compute; reflexivity).
  split; [exact E|].
  refine (proj1 (epochs_increase (EpochStore0 := on_memory) None open_store (committed 3 retried) _)
    [] [] [] (js "worker-1") 1 2 E).
  eapply rtc_l; [apply (begun_step 1); vm_compute; reflexivity|].
  eapply rtc_l; [apply (begun_step 2); vm_compute; reflexivity|].
  eapply rtc_l; [apply (step_commit (EpochStore0 := on_memory) None 1)|].
  eapply rtc_l; [apply (step_commit (EpochStore0 := on_memory) None 2)|].
  eapply rtc_l; [apply (begun_step 3); vm_compute; reflexivity|].
  eapply rtc_l; [apply (step_commit (EpochStore0 := on_memory) None 3)|].
  apply rtc_refl.
Defined.
