(* ===== verification/ResultBuffer.v ===== *)
(** * Results and capability calls a worker retains

    transport-websocket/src/result-buffer.ts, the bounded buffer of
    unacknowledged results, with the attempt key and limits of
    remote-protocol.ts; and capability-dedupe.ts, the bounded table of
    capability calls that forgets the least recently used settled call. *)

From S2P Require Import Prelude JsString Collections JsValue JsonText Bytes.

Open Scope Z_scope.

(** ** Results *)

(** An execution result: its two identities, and its JSON. *)
Record ExecutionResult := { x_taskId : jstring; x_attemptId : jstring; x_json : json }.

Inductive buffer_error :=
| EXECUTOR_REMOTE_RESULT_CONFLICT
| EXECUTOR_REMOTE_RESULT_BUFFER_EXHAUSTED
| WIRE_VALUE_INVALID
| LIMIT_INVALID.

Definition attemptKey (taskId attemptId : jstring) : jstring :=
  show_nat (Z.of_nat (length taskId)) ++ js ":" ++ taskId ++ attemptId.

Definition positiveLimit (value : option jsnum) (fallback : Z) : result buffer_error Z :=
  match value with
  | None => Ok fallback
  | Some n =>
      match safe_integer n with
      | Some limit => if limit <=? 0 then Err LIMIT_INVALID else Ok limit
      | None => Err LIMIT_INVALID
      end
  end.

Record BufferedResult := { b_result : ExecutionResult; b_bytes : Z }.
Record ResultBuffer := {
  maxCount : Z;
  maxBytes : Z;
  entries : jsmap jstring BufferedResult;
  bytes : Z;
}.

Definition new_buffer (count size : option jsnum) : result buffer_error ResultBuffer :=
  c ← positiveLimit count 256;
  b ← positiveLimit size 1048576;
  Ok {| maxCount := c; maxBytes := b; entries := []; bytes := 0 |}.

Section buffer.
Context (number_text : jsnum → jstring).

Definition jsonBytes (value : json) : Z := utf8_length (stringify number_text value).

Definition buffer_put (b : ResultBuffer) (r : ExecutionResult) : result buffer_error ResultBuffer :=
  let key := attemptKey (x_taskId r) (x_attemptId r) in
  let size := jsonBytes (x_json r) in
  match JsMap.get (entries b) key with
  | Some existing =>
      if negb (streq (stringify number_text (x_json (b_result existing))) (stringify number_text (x_json r)))
      then Err EXECUTOR_REMOTE_RESULT_CONFLICT
      else Ok b
  | None =>
      if (maxCount b <=? Z.of_nat (length (entries b))) || (maxBytes b <? bytes b + size)
      then Err EXECUTOR_REMOTE_RESULT_BUFFER_EXHAUSTED
      else
        match serialize (x_json r) with
        | None => Err WIRE_VALUE_INVALID
        | Some snapshot =>
            Ok {| maxCount := maxCount b; maxBytes := maxBytes b;
                  entries := JsMap.set (entries b) key
                    {| b_result := {| x_taskId := x_taskId r; x_attemptId := x_attemptId r; x_json := snapshot |};
                       b_bytes := size |};
                  bytes := bytes b + size |}
        end
  end.

Definition buffer_get (b : ResultBuffer) (taskId attemptId : jstring) : option ExecutionResult :=
  b_result <$> JsMap.get (entries b) (attemptKey taskId attemptId).

Definition buffer_acknowledge (b : ResultBuffer) (taskId attemptId : jstring) : ResultBuffer :=
  let key := attemptKey taskId attemptId in
  match JsMap.get (entries b) key with
  | None => b
  | Some entry =>
      {| maxCount := maxCount b; maxBytes := maxBytes b; entries := JsMap.delete (entries b) key;
         bytes := bytes b - b_bytes entry |}
  end.

Definition buffer_list (b : ResultBuffer) : list ExecutionResult :=
  map b_result (JsMap.values (entries b)).

(** A use of the buffer: results arrive, and are acknowledged. *)
Inductive buffer_event := Arrives (r : ExecutionResult) | Acknowledged (taskId attemptId : jstring).
Definition buffer_step (b : ResultBuffer) (e : buffer_event) : ResultBuffer :=
  match e with
  | Arrives r => match buffer_put b r with Ok b' => b' | Err _ => b end
  | Acknowledged t a => buffer_acknowledge b t a
  end.
End buffer.

(** ** Laws *)
Lemma attemptKey_inj t a t' a' : attemptKey t a = attemptKey t' a' → t = t' ∧ a = a'.
Proof.
  unfold attemptKey. intros E.
  assert (∀ n, 58%N ∉ show_nat (Z.of_nat n)) as Hdigits.
  { intros n Hin. pose proof (isCanonicalDecimal_digits _ (show_nat_canonical (Z.of_nat n) ltac:(lia))) as H.
    rewrite forallb_forall_in in H. by apply H in Hin. }
  pose proof (f_equal (splitc 58) E) as Es. change (js ":") with [58%N] in Es. cbn [app] in Es.
  rewrite !splitc_app_sep in Es by apply Hdigits. injection Es as Elen _.
  apply (f_equal decimal_value) in Elen. rewrite !show_nat_value in Elen by lia.
  assert (length t = length t') as Hlen by lia. rewrite Hlen in E. apply app_inv_head in E.
  injection E as E. by apply app_inj_1 in E.
Qed.

Definition total_bytes (es : jsmap jstring BufferedResult) : Z :=
  foldr Z.add 0 (map b_bytes (JsMap.values es)).

Record buffer_ok (b : ResultBuffer) : Prop := {
  bo_wf : JsMap.wf (entries b);
  bo_bytes : bytes b = total_bytes (entries b);
  bo_sizes : Forall (λ e, 0 ≤ b_bytes e) (JsMap.values (entries b));
  bo_count : Z.of_nat (length (entries b)) ≤ maxCount b;
  bo_size : bytes b ≤ maxBytes b;
}.

Lemma total_bytes_app es fs : total_bytes (es ++ fs) = total_bytes es + total_bytes fs.
Proof.
  unfold total_bytes, JsMap.values. rewrite fmap_app, map_app.
  induction (map b_bytes es.*2) as [|x l IH]; cbn [app foldr]; lia.
Qed.

Lemma total_bytes_perm es fs : es ≡ₚ fs → total_bytes es = total_bytes fs.
Proof.
  assert (∀ l l' : list Z, l ≡ₚ l' → foldr Z.add 0 l = foldr Z.add 0 l') as Hsum
    by (induction 1; cbn [foldr]; lia).
  intros H. apply Hsum. unfold JsMap.values. by rewrite H.
Qed.

Lemma buffer_put_ok nt b r b' : buffer_ok b → buffer_put nt b r = Ok b' → buffer_ok b' ∧ maxCount b' = maxCount b ∧ maxBytes b' = maxBytes b.
Proof.
  intros Hok. pose proof Hok as [Hwf Hb Hs Hc Hm]. unfold buffer_put.
  destruct (JsMap.get (entries b) _) as [e|] eqn:E.
  - destruct (negb _); [done|]. by intros [= <-].
  - destruct (_ || _) eqn:Eg; [done|]. to_prop. destruct (serialize (x_json r)) as [snap|]; [|done].
    intros [= <-]. split; [|done]. apply JsMap.get_None in E. split; simpl.
    + by apply JsMap.wf_set.
    + rewrite JsMap.set_absent by done. rewrite total_bytes_app. unfold total_bytes at 2. simpl. lia.
    + rewrite JsMap.set_absent by done. unfold JsMap.values. rewrite fmap_app. apply Forall_app. split; [done|].
      constructor; [|done]. apply utf8_length_nonneg.
    + rewrite JsMap.set_absent, length_app by done. simpl. lia.
    + lia.
Qed.

Lemma buffer_acknowledge_ok b t a :
  buffer_ok b → buffer_ok (buffer_acknowledge b t a) ∧
  maxCount (buffer_acknowledge b t a) = maxCount b ∧ maxBytes (buffer_acknowledge b t a) = maxBytes b.
Proof.
  intros Hok. pose proof Hok as [Hwf Hb Hs Hc Hm]. unfold buffer_acknowledge.
  destruct (JsMap.get (entries b) _) as [e|] eqn:E; [|done]. split; [|done].
  pose proof (JsMap.delete_perm _ _ _ E) as Hp. pose proof (total_bytes_perm _ _ Hp) as Ht.
  change (total_bytes ((attemptKey t a, e) :: JsMap.delete (entries b) (attemptKey t a)))
    with (b_bytes e + total_bytes (JsMap.delete (entries b) (attemptKey t a))) in Ht.
  assert (Forall (λ e, 0 ≤ b_bytes e) (e :: JsMap.values (JsMap.delete (entries b) (attemptKey t a)))) as Hs'.
  { unfold JsMap.values in *. rewrite Hp in Hs. done. }
  apply Forall_cons in Hs' as [He Hs'].
  split; simpl; [by apply JsMap.wf_delete|lia|done| |lia].
  rewrite (JsMap.length_delete _ _ _ E) in Hc. lia.
Qed.

Lemma buffer_run_ok nt b es :
  buffer_ok b → buffer_ok (foldl (buffer_step nt) b es) ∧
  maxCount (foldl (buffer_step nt) b es) = maxCount b ∧ maxBytes (foldl (buffer_step nt) b es) = maxBytes b.
Proof.
  revert b. induction es as [|e es IH]; intros b Hok; [done|]. cbn [foldl].
  assert (buffer_ok (buffer_step nt b e) ∧ maxCount (buffer_step nt b e) = maxCount b ∧
    maxBytes (buffer_step nt b e) = maxBytes b) as (Hok' & E1 & E2).
  { destruct e as [r|t a]; simpl; [|by apply buffer_acknowledge_ok].
    destruct (buffer_put nt b r) eqn:E; [by eapply buffer_put_ok|done]. }
  destruct (IH _ Hok') as (? & ? & ?). split; [done|]. split; congruence.
Qed.

Lemma new_buffer_ok c s b : new_buffer c s = Ok b → buffer_ok b.
Proof.
  assert (∀ v d n, 0 < d → positiveLimit v d = Ok n → 0 < n) as Hpos.
  { intros [n'|] d n Hd; simpl; [|by intros [= <-]]. destruct (safe_integer n'); [|done].
    destruct (Z.leb_spec z 0); [done|]. by intros [= <-]. }
  unfold new_buffer. intros H. apply bind_ok in H as (mc & Hc & H). apply bind_ok in H as (ms & Hs & [= <-]).
  apply Hpos in Hc, Hs; [|lia..]. split; simpl; [constructor|done|constructor|lia|lia].
Qed.

(** An accepted result stays while others come and go. *)
Lemma buffer_keeps nt b es key x :
  buffer_ok b → JsMap.get (entries b) key = Some x →
  (∀ t a, Acknowledged t a ∈ es → attemptKey t a ≠ key) →
  JsMap.get (entries (foldl (buffer_step nt) b es)) key = Some x.
Proof.
  revert b. induction es as [|e es IH]; intros b Hok Hx Hack; [done|]. cbn [foldl].
  apply IH; [apply (buffer_run_ok nt b [e] Hok)| |intros; apply Hack; by right].
  destruct e as [r'|t a]; simpl.
  - destruct (buffer_put nt b r') as [b2|] eqn:E; [|done]. unfold buffer_put in E.
    destruct (JsMap.get (entries b) (attemptKey (x_taskId r') (x_attemptId r'))) as [y|] eqn:Ey.
    { destruct (negb _); [done|]. by injection E as <-. }
    destruct (_ || _); [done|]. destruct (serialize (x_json r')); [|done]. injection E as <-. simpl.
    rewrite JsMap.get_set_ne; [done|]. congruence.
  - unfold buffer_acknowledge. destruct (JsMap.get (entries b) (attemptKey t a)); [|done]. simpl.
    rewrite JsMap.get_delete_ne; [done|]. apply Hack. left.
Qed.

Lemma buffer_put_get nt b r b' :
  buffer_put nt b r = Ok b' → is_Some (JsMap.get (entries b') (attemptKey (x_taskId r) (x_attemptId r))).
Proof.
  unfold buffer_put. destruct (JsMap.get (entries b) _) as [x|] eqn:Ex.
  - destruct (negb _); [done|]. intros [= <-]. rewrite Ex. by eexists.
  - destruct (_ || _); [done|]. destruct (serialize (x_json r)); [|done]. intros [= <-]. simpl.
    rewrite JsMap.get_set_eq. by eexists.
Qed.

(** The result buffer is bounded and loses nothing: whatever arrives and is
    acknowledged, it holds at most its number of results and of bytes, and a
    result it accepted is there until its attempt is acknowledged. *)
Theorem result_buffer_bounded (number_text : jsnum → jstring) (count size : option jsnum)
    (b0 : ResultBuffer) (before after : list buffer_event) (r : ExecutionResult) (b1 : ResultBuffer) :
  new_buffer count size = Ok b0 →
  buffer_put number_text (foldl (buffer_step number_text) b0 before) r = Ok b1 →
  Acknowledged (x_taskId r) (x_attemptId r) ∉ after →
  let b := foldl (buffer_step number_text) b1 after in
  Z.of_nat (length (entries b)) ≤ maxCount b0 ∧ bytes b ≤ maxBytes b0 ∧
  bytes b = total_bytes (entries b) ∧
  buffer_get b (x_taskId r) (x_attemptId r) = buffer_get b1 (x_taskId r) (x_attemptId r) ∧
  is_Some (buffer_get b1 (x_taskId r) (x_attemptId r)).
Proof.
  intros H0%new_buffer_ok Hput Hack.
  destruct (buffer_run_ok number_text b0 before H0) as (Hb & Ec & Eb).
  destruct (buffer_put_ok _ _ _ _ Hb Hput) as (H1 & Ec1 & Eb1).
  destruct (buffer_run_ok number_text b1 after H1) as ([Hwf Hbytes _ Hc Hm] & Ec2 & Eb2).
  destruct (buffer_put_get _ _ _ _ Hput) as [x Hx].
  split_and!; [lia|lia|done| |].
  - unfold buffer_get. rewrite (buffer_keeps _ _ after _ _ H1 Hx), Hx; [done|].
    intros t a Hin [-> ->]%attemptKey_inj. done.
  - unfold buffer_get. rewrite Hx. by eexists.
Qed.

Definition sample_result (t : jstring) (j : json) : ExecutionResult :=
  {| x_taskId := t; x_attemptId := js "1"; x_json := j |}.
Definition sample_number (n : jsnum) : jstring := [].
Definition small_buffer : ResultBuffer :=
  {| maxCount := 2; maxBytes := 20; entries := []; bytes := 0 |}.

Lemma result_buffer_bounded_witness :
  ∃ b1, buffer_put sample_number small_buffer (sample_result (js "a") (JBool true)) = Ok b1 ∧
    buffer_get (foldl (buffer_step sample_number) b1
      [Arrives (sample_result (js "b") JNull); Arrives (sample_result (js "c") JNull); Acknowledged (js "b") (js "1")])
      (js "a") (js "1") = buffer_get b1 (js "a") (js "1").
Proof.
  destruct (is_ok_true (buffer_put sample_number small_buffer (sample_result (js "a") (JBool true)))) as [b1 H];
    [vm_compute; reflexivity|].
  exists b1. split; [exact H|].
  refine (proj1 (proj2 (proj2 (proj2 (result_buffer_bounded sample_number (Some (NInt 2)) (Some (NInt 20))
    small_buffer [] [Arrives (sample_result (js "b") JNull); Arrives (sample_result (js "c") JNull);
      Acknowledged (js "b") (js "1")] (sample_result (js "a") (JBool true)) b1 _ H _))))).
  - vm_compute. reflexivity.
  - intros H'. repeat (apply elem_of_cons in H' as [H'|H']; [vm_compute in H'; discriminate H'|]).
    by apply elem_of_nil in H'.
Defined.

(** A result in canonical form may arrive any number of times. *)
Lemma put_again nt b r b' :
  wire (x_json r) → JsMap.get (entries b) (attemptKey (x_taskId r) (x_attemptId r)) = None →
  buffer_put nt b r = Ok b' → buffer_put nt b' r = Ok b'.
Proof.
  intros Hw En. unfold buffer_put. rewrite En. destruct (_ || _); [done|]. rewrite Hw. intros [= <-]. simpl.
  by rewrite JsMap.get_set_eq, (proj2 (streq_true _ _) eq_refl).
Qed.

(** The buffer compares the text of a copy, whose fields are sorted, with the
    text of what arrives: a result whose fields are in another order conflicts
    with itself. *)
Lemma put_again_conflicts :
  let r := sample_result (js "a") (JObj [(js "status", JStr (js "ok")); (js "at", JNull)]) in
  ∃ b', buffer_put sample_number {| maxCount := 2; maxBytes := 100; entries := []; bytes := 0 |} r = Ok b' ∧
    buffer_put sample_number b' r = Err EXECUTOR_REMOTE_RESULT_CONFLICT.
Proof. eexists. split; [vm_compute; reflexivity|]. vm_compute. reflexivity. Qed.

(** ** Capability calls: capability-dedupe.ts *)
Section dedupe.
Context {T : Type} (settled : T → bool).
Implicit Types entries : jsmap jstring T.

(** A settled call that is looked up becomes the most recently used. *)
Definition getCapabilityEntry entries (key : jstring) : jsmap jstring T * option T :=
  match JsMap.get entries key with
  | Some entry =>
      (if settled entry then JsMap.set (JsMap.delete entries key) key entry else entries, Some entry)
  | None => (entries, None)
  end.

(** The loop makes room by one call at a time; it runs at most once per call. *)
Fixpoint reserve_loop (fuel : nat) entries (maximum : Z) : option (jsmap jstring T * bool) :=
  if Z.of_nat (length entries) <? maximum then Some (entries, true)
  else
    match List.find (λ e, settled e.2) entries with
    | None => Some (entries, false)
    | Some leastRecentlyUsed =>
        match fuel with
        | O => None
        | S fuel => reserve_loop fuel (JsMap.delete entries leastRecentlyUsed.1) maximum
        end
    end.
Definition reserveCapabilityEntry entries (maximum : Z) : option (jsmap jstring T * bool) :=
  reserve_loop (length entries) entries maximum.

Definition countPendingCapabilityEntries entries : Z :=
  foldl (λ pending e, if settled e.2 then pending else pending + 1) 0 entries.

(** The pending calls, in order, and the settled ones but the [k] oldest. *)
Fixpoint forget (k : nat) entries : jsmap jstring T :=
  match entries with
  | [] => []
  | e :: rest =>
      if settled e.2 then match k with O => e :: rest | S k' => forget k' rest end
      else e :: forget k rest
  end.

Lemma forget_0 entries : forget 0 entries = entries.
Proof. induction entries as [|e es IH]; simpl; [done|]. destruct (settled e.2); [done|]. by rewrite IH. Qed.

Lemma forget_S k entries e :
  JsMap.wf entries → List.find (λ e, settled e.2) entries = Some e →
  forget k (JsMap.delete entries e.1) = forget (S k) entries.
Proof.
  unfold JsMap.wf. induction entries as [|[i x] es IH]; intros Hwf Hf; [done|].
  cbn [JsMap.keys fmap list_fmap] in Hwf. apply NoDup_cons in Hwf as [Hi Hwf].
  cbn [List.find snd] in Hf. cbn [forget snd JsMap.delete]. destruct (settled x) eqn:Ex.
  - injection Hf as <-. simpl. by rewrite bool_decide_true.
  - assert (i ≠ e.1) as Hne.
    { intros ->. apply Hi. apply find_some_in in Hf as [Hf _]. apply list_elem_of_fmap. by exists e. }
    rewrite bool_decide_false by done. cbn [forget snd]. rewrite Ex. f_equal. by apply IH.
Qed.

Lemma pending_count entries :
  countPendingCapabilityEntries entries = Z.of_nat (length (List.filter (λ e, negb (settled e.2)) entries)).
Proof.
  unfold countPendingCapabilityEntries.
  enough (∀ n, foldl (λ pending e, if settled e.2 then pending else pending + 1) n entries =
    n + Z.of_nat (length (List.filter (λ e, negb (settled e.2)) entries))) as H by (by rewrite H).
  induction entries as [|e es IH]; intros n; simpl; [lia|]. rewrite IH.
  destruct (settled e.2); simpl; lia.
Qed.

Lemma reserve_loop_spec fuel entries maximum :
  JsMap.wf entries → (length entries ≤ fuel)%nat →
  ∃ k r, reserve_loop fuel entries maximum = Some (forget k entries, r) ∧
    (r = true → Z.of_nat (length (forget k entries)) < maximum) ∧
    (r = true ↔ countPendingCapabilityEntries entries < maximum) ∧
    (k = O ∨ maximum ≤ Z.of_nat (length (forget (k - 1) entries))).
Proof.
  intros Hwf. revert entries Hwf. induction fuel as [|fuel IH]; intros entries Hwf Hlen;
    cbn [reserve_loop]; rewrite pending_count.
  all: assert (length (List.filter (λ e, negb (settled e.2)) entries) ≤ length entries)%nat as Hfl
    by apply List.filter_length_le.
  all: destruct (Z.ltb_spec (Z.of_nat (length entries)) maximum);
    [exists O, true; rewrite forget_0; split_and!; [done|done|split; [lia|done]|by left]|].
  all: destruct (List.find (λ e, settled e.2) entries) as [e|] eqn:Ef.
  - destruct entries; [done|simpl in Hlen; lia].
  - exists O, false. rewrite forget_0. split_and!; [done|done| |by left]. split; [done|].
    rewrite find_none_in in Ef. destruct entries; [simpl in *; lia|simpl in Hlen; lia].
  - pose proof (find_some_in _ _ _ Ef) as [Hin Hs].
    assert (JsMap.get entries e.1 = Some e.2) as Hget by (apply JsMap.in_get; [done|by destruct e]).
    destruct (IH (JsMap.delete entries e.1)) as (k & r & E & Hr & Hp & Hk).
    + by apply JsMap.wf_delete.
    + rewrite (JsMap.length_delete _ _ _ Hget) in Hlen. lia.
    + exists (S k), r. rewrite (forget_S k _ _ Hwf Ef) in E, Hr. rewrite E.
      split_and!; [done|done| |right].
      * rewrite Hp, pending_count. pose proof (JsMap.delete_perm _ _ _ Hget) as Hperm.
        assert (length (List.filter (λ e, negb (settled e.2)) entries) =
          length (List.filter (λ e, negb (settled e.2)) (JsMap.delete entries e.1))) as ->; [|done].
        rewrite Hperm at 1. cbn [List.filter snd]. by rewrite Hs.
      * replace (S k - 1)%nat with k by lia. destruct Hk as [->|Hk]; [by rewrite forget_0|].
        destruct k; [by rewrite forget_0|]. replace (S k - 1)%nat with k in Hk by lia.
        by rewrite <- (forget_S k _ _ Hwf Ef).
  - exists O, false. rewrite forget_0. split_and!; [done|done| |by left]. split; [done|].
    rewrite find_none_in in Ef.
    enough (List.filter (λ e, negb (settled e.2)) entries = entries) as -> by lia.
    clear -Ef. induction entries as [|e es IH]; simpl; [done|].
    rewrite (Ef e) by left. simpl. f_equal. apply IH. intros x Hx. apply Ef. by right.
Qed.
End dedupe.

(** Making room for a capability call forgets only settled calls, oldest use
    first and no more of them than needed; it always ends, and it fails exactly
    when the pending calls alone fill the table. *)
Theorem reserve_exact {T} (settled : T → bool) (entries : jsmap jstring T) (maximum : Z) :
  JsMap.wf entries →
  ∃ k r, reserveCapabilityEntry settled entries maximum = Some (forget settled k entries, r) ∧
    (r = true → Z.of_nat (length (forget settled k entries)) < maximum) ∧
    (r = true ↔ countPendingCapabilityEntries settled entries < maximum) ∧
    (k = O ∨ maximum ≤ Z.of_nat (length (forget settled (k - 1) entries))).
Proof. intros Hwf. by apply reserve_loop_spec. Qed.

Lemma reserve_exact_witness :
  JsMap.wf [(js "a", false); (js "b", true); (js "c", true)] ∧
  ∃ k r, reserveCapabilityEntry id [(js "a", false); (js "b", true); (js "c", true)] 3 =
    Some (forget id k [(js "a", false); (js "b", true); (js "c", true)], r).
Proof.
  assert (JsMap.wf [(js "a", false); (js "b", true); (js "c", true)]) as Hwf
    by (apply (bool_decide_eq_true_1 (NoDup (JsMap.keys [(js "a", false); (js "b", true); (js "c", true)])));
        vm_compute; reflexivity).
  split; [exact Hwf|]. destruct (reserve_exact id _ 3 Hwf) as (k & r & E & _).
  exists k, r. exact E.
Defined.
