(* ===== verification/Lifecycle.v ===== *)
(** * Lifecycles

    runtime/src/runtime-state.ts, readiness.ts and
    reconcile/component-lifecycle.ts: the state machines of the runtime and of
    a component, and when each counts as ready. *)

From S2P Require Import Prelude JsString.

(** ** The runtime *)
Inductive RuntimeLifecycleState :=
| RtCreated | RtOpening | RtRecovering | RtElecting | RtRunning | RtDraining | RtStopping | RtStopped | RtFailed.
#[export] Instance RuntimeLifecycleState_eq_dec : EqDecision RuntimeLifecycleState.
Proof. solve_decision. Defined.

Inductive lifecycle_error := LIFECYCLE_TRANSITION_INVALID.

Definition transitions (s : RuntimeLifecycleState) : list RuntimeLifecycleState :=
  match s with
  | RtCreated => [RtFailed; RtOpening; RtStopping]
  | RtOpening => [RtFailed; RtRecovering; RtStopping]
  | RtRecovering => [RtElecting; RtFailed; RtStopping]
  | RtElecting => [RtFailed; RtRunning; RtStopping]
  | RtRunning => [RtDraining; RtFailed]
  | RtDraining => [RtFailed; RtStopping]
  | RtStopping => [RtFailed; RtStopped]
  | RtStopped => []
  | RtFailed => [RtStopping]
  end.

Definition transitionRuntimeState (current next : RuntimeLifecycleState)
  : result lifecycle_error RuntimeLifecycleState :=
  if includes (transitions current) next then Ok next else Err LIFECYCLE_TRANSITION_INVALID.

Inductive health_status := Degraded | Healthy | Unhealthy.
Record DeploymentReadiness := { dr_desired : bool; dr_essential : bool; dr_ready : bool }.
Record RuntimeReadinessInput := {
  rr_lifecycle : RuntimeLifecycleState;
  rr_drivers : list health_status;
  rr_deployments : list DeploymentReadiness;
}.
Definition isRuntimeReady (input : RuntimeReadinessInput) : bool :=
  bool_decide (rr_lifecycle input = RtRunning) &&
  forallb (λ health, match health with Unhealthy => false | _ => true end) (rr_drivers input) &&
  forallb (λ d, negb (dr_desired d) || negb (dr_essential d) || dr_ready d) (rr_deployments input).

(** ** A component *)
Inductive ComponentLifecycleState :=
| CpCreated | CpPreparing | CpStarting | CpReady | CpDegraded | CpDraining | CpStopping | CpStopped | CpFailed.
#[export] Instance ComponentLifecycleState_eq_dec : EqDecision ComponentLifecycleState.
Proof. solve_decision. Defined.

Definition legalTransitions (s : ComponentLifecycleState) : list ComponentLifecycleState :=
  match s with
  | CpCreated => [CpPreparing; CpDraining; CpFailed]
  | CpPreparing => [CpStarting; CpDraining; CpFailed]
  | CpStarting => [CpReady; CpDegraded; CpDraining; CpFailed]
  | CpReady => [CpDegraded; CpDraining; CpFailed]
  | CpDegraded => [CpReady; CpDraining; CpFailed]
  | CpDraining => [CpStopping; CpFailed]
  | CpStopping => [CpStopped; CpFailed]
  | CpStopped => []
  | CpFailed => [CpDraining; CpPreparing; CpStarting; CpStopping]
  end.

Definition transitionComponentLifecycle (current next : ComponentLifecycleState)
  : result lifecycle_error ComponentLifecycleState :=
  if includes (legalTransitions current) next then Ok next else Err LIFECYCLE_TRANSITION_INVALID.

Record ComponentReadinessInput := {
  ci_desired : bool;
  ci_essential : bool;
  ci_kernelRunning : bool;
  ci_instances : list ComponentLifecycleState;
}.
Definition componentApplicationReady (input : ComponentReadinessInput) : bool :=
  if negb (ci_kernelRunning input) then false
  else if negb (ci_desired input) || negb (ci_essential input) then true
  else existsb (λ i, bool_decide (i = CpReady)) (ci_instances input).

(** ** Histories *)
Definition runtime_step (a b : RuntimeLifecycleState) : Prop := transitionRuntimeState a b = Ok b.
Definition component_step (a b : ComponentLifecycleState) : Prop := transitionComponentLifecycle a b = Ok b.

(** The states left of running. *)
Definition startup (s : RuntimeLifecycleState) : option nat :=
  match s with
  | RtCreated => Some 4 | RtOpening => Some 3 | RtRecovering => Some 2 | RtElecting => Some 1
  | RtRunning => Some 0 | _ => None
  end.

Lemma runtime_step_in a b : runtime_step a b ↔ b ∈ transitions a.
Proof.
  unfold runtime_step, transitionRuntimeState. destruct (includes (transitions a) b) eqn:E.
  - apply includes_true in E. done.
  - apply includes_false in E. naive_solver.
Qed.
Lemma component_step_in a b : component_step a b ↔ b ∈ legalTransitions a.
Proof.
  unfold component_step, transitionComponentLifecycle. destruct (includes (legalTransitions a) b) eqn:E.
  - apply includes_true in E. done.
  - apply includes_false in E. naive_solver.
Qed.

(** A step towards running is one step nearer, or leaves for good. *)
Lemma startup_step a b n : runtime_step a b → startup b = Some n → startup a = Some (S n).
Proof.
  rewrite runtime_step_in. intros Hin.
  destruct a; simpl in Hin; repeat (apply elem_of_cons in Hin as [-> | Hin]; [simpl; congruence|]);
    by apply elem_of_nil in Hin.
Qed.

(** The runtime starts in one way and can always stop: every history that
    reaches running passes created, opening, recovering, electing and running in
    exactly that order, never runs twice, a stopped runtime stays stopped, and
    every other state has a legal path to stopped. *)
Theorem runtime_lifecycle :
  (∀ n a, nsteps runtime_step n a RtRunning → startup a = Some n) ∧
  (∀ s, ¬ tc runtime_step RtRunning RtRunning ∧ ¬ runtime_step RtStopped s) ∧
  (∀ s, rtc runtime_step s RtStopped).
Proof.
  assert (∀ n a, nsteps runtime_step n a RtRunning → startup a = Some n) as Hrun.
  { induction n as [|n IH]; intros a H; [by inversion H; subst|].
    inversion H as [|? ? b ? Hab Hb]; subst. by apply (startup_step a b), IH. }
  split_and!; [done| |].
  - intros s. split; [|by rewrite runtime_step_in; intros ?%elem_of_nil].
    intros [n H]%tc_nsteps. destruct H as [Hn H]. apply Hrun in H. injection H as <-. lia.
  - assert (∀ a b, b ∈ transitions a → rtc runtime_step b RtStopped → rtc runtime_step a RtStopped) as Hs.
    { intros a b Hb. apply rtc_l. by apply runtime_step_in. }
    assert (rtc runtime_step RtStopping RtStopped) as H1 by (apply (Hs _ RtStopped); [set_solver|apply rtc_refl]).
    assert (rtc runtime_step RtDraining RtStopped) as H2 by (apply (Hs _ RtStopping); [set_solver|done]).
    intros []; first [done | apply rtc_refl | by apply (Hs _ RtStopping); [set_solver|]
      | by apply (Hs _ RtDraining); [set_solver|]].
Qed.

Ltac enum_step := repeat
  match goal with
  | H : component_step _ _ |- _ => apply component_step_in in H
  | H : _ ∈ legalTransitions _ |- _ => simpl in H
  | H : _ ∈ _ :: _ |- _ => apply elem_of_cons in H as [-> | H]
  | H : _ ∈ [] |- _ => by apply elem_of_nil in H
  end.

(** A component becomes ready only by being started: it is ready or degraded
    only after starting; one that drains and does not fail only goes on to
    stop; a stopped component stays stopped, and any other can be stopped. *)
Theorem component_lifecycle :
  (∀ a, component_step a CpReady → a = CpStarting ∨ a = CpDegraded) ∧
  (∀ a, rtc (λ x y, component_step x y ∧ y ≠ CpStarting) CpCreated a → a ≠ CpReady ∧ a ≠ CpDegraded) ∧
  (∀ a, rtc (λ x y, component_step x y ∧ y ≠ CpFailed) CpDraining a → a ∈ [CpDraining; CpStopping; CpStopped]) ∧
  (∀ a, ¬ component_step CpStopped a) ∧
  (∀ a, rtc component_step a CpStopped).
Proof.
  split_and!.
  - intros a H%component_step_in. destruct a; simpl in H; set_solver.
  - intros a H. refine (_ (rtc_closed _ (λ s, s ∉ [CpStarting; CpReady; CpDegraded]) _ a _ H _)); [set_solver| |set_solver].
    intros [] y Hx [Hxy Hy]; enum_step; set_solver.
  - intros a H. refine (rtc_closed _ (λ s, s ∈ [CpDraining; CpStopping; CpStopped]) _ a _ H _); [|set_solver].
    intros [] y Hx [Hxy Hy]; enum_step; set_solver.
  - intros a H. enum_step.
  - assert (∀ a b, b ∈ legalTransitions a → rtc component_step b CpStopped → rtc component_step a CpStopped) as Hs.
    { intros a b Hb. apply rtc_l. by apply component_step_in. }
    assert (rtc component_step CpStopping CpStopped) as H1 by (apply (Hs _ CpStopped); [set_solver|apply rtc_refl]).
    assert (rtc component_step CpDraining CpStopped) as H2 by (apply (Hs _ CpStopping); [set_solver|done]).
    intros []; first [done | apply rtc_refl | by apply (Hs _ CpStopping); [set_solver|]
      | by apply (Hs _ CpDraining); [set_solver|]].
Qed.
