(* ===== verification/Retry.v ===== *)
(** * Retry delays

    runtime/src/reconcile/retry.ts: capped exponential backoff with a jitter
    drawn from a 32-bit FNV-1a hash of the operation. Numbers are exact: the
    products are powers of two times a safe integer, and a sum past the safe
    range is past the cap as well. *)

From S2P Require Import Prelude JsString JsValue.

Open Scope Z_scope.

(** ** 32-bit integers *)
Definition to_int32 (z : Z) : Z := (z + 2 ^ 31) mod 2 ^ 32 - 2 ^ 31.
Definition to_uint32 (z : Z) : Z := z mod 2 ^ 32.
(** [Math.imul] *)
Definition imul (a b : Z) : Z := to_int32 (to_int32 a * to_int32 b).

Definition hash_unit (hash : Z) (unit : N) : Z :=
  imul (Z.lxor (to_int32 hash) (Z.of_N unit)) 16777619.
Definition operationHash (operationId : jstring) : Z :=
  to_uint32 (foldl hash_unit 2166136261 operationId).

(** ** The delay *)
Record RetryDelayInput := {
  rd_attempt : jsnum;
  rd_baseDelayMs : jsnum;
  rd_maxDelayMs : jsnum;
  rd_operationId : jstring;
}.
Inductive retry_error := RANGE_ERROR.

Definition backoff (attempt base maximum : Z) : Z :=
  Z.min maximum (base * 2 ^ Z.min (attempt - 1) 52).

Definition deterministicRetryDelay (input : RetryDelayInput) : result retry_error Z :=
  match safe_integer (rd_attempt input), safe_integer (rd_baseDelayMs input), safe_integer (rd_maxDelayMs input) with
  | Some attempt, Some base, Some maximum =>
      if (attempt <=? 0) || (base <=? 0) || (maximum <? base) then Err RANGE_ERROR
      else
        let exponential := backoff attempt base maximum in
        if maximum <=? exponential then Ok maximum
        else
          let jitterRange := Z.max 1 (exponential / 4) in
          Ok (Z.min maximum (exponential + operationHash (rd_operationId input) mod jitterRange))
  | _, _, _ => Err RANGE_ERROR
  end.

Lemma to_uint32_range z : 0 ≤ to_uint32 z < 2 ^ 32.
Proof. apply Z.mod_pos_bound. lia. Qed.

Lemma safe_integer_some n z : safe_integer n = Some z ↔ n = NInt z ∧ isSafeInteger z = true.
Proof.
  destruct n as [x| | |]; simpl; try (split; [done|by intros [? ?]]).
  destruct (isSafeInteger x) eqn:E; (split; [by intros [= <-]|intros [[= <-] ?]; congruence]).
Qed.

Lemma backoff_range attempt base maximum :
  0 < attempt → 0 < base ≤ maximum → base ≤ backoff attempt base maximum ≤ maximum.
Proof.
  intros Ha Hb. unfold backoff. assert (0 < 2 ^ Z.min (attempt - 1) 52) by (apply Z.pow_pos_nonneg; lia). nia.
Qed.

(** One more attempt doubles the backoff, or it is at its cap. *)
Lemma backoff_next attempt base maximum :
  0 < attempt → 0 < base ≤ maximum →
  backoff (attempt + 1) base maximum = Z.min maximum (2 * backoff attempt base maximum) ∨
  backoff (attempt + 1) base maximum = backoff attempt base maximum.
Proof.
  intros Ha Hb. unfold backoff. destruct (Z.le_gt_cases 53 attempt) as [Hle|Hlt].
  - right. by rewrite !(Z.min_r _ 52) by lia.
  - left. replace (attempt + 1 - 1) with (Z.succ (attempt - 1)) by lia.
    rewrite !(Z.min_l _ 52) by lia. rewrite Z.pow_succ_r by lia.
    replace (base * (2 * 2 ^ (attempt - 1))) with (2 * (base * 2 ^ (attempt - 1))) by ring. lia.
Qed.

(** The jitter is less than a quarter of the backoff. *)
Lemma jitter_range hash exponential :
  0 < exponential → 0 ≤ hash mod Z.max 1 (exponential / 4) ∧
  4 * (hash mod Z.max 1 (exponential / 4)) ≤ exponential - 1.
Proof.
  intros He. pose proof (Z.mod_pos_bound hash (Z.max 1 (exponential / 4)) ltac:(lia)).
  pose proof (Z.mul_div_le exponential 4 ltac:(lia)). lia.
Qed.

Lemma delay_spec attempt base maximum operation :
  0 < attempt → 0 < base ≤ maximum →
  isSafeInteger attempt = true → isSafeInteger base = true → isSafeInteger maximum = true →
  let exponential := backoff attempt base maximum in
  deterministicRetryDelay {| rd_attempt := NInt attempt; rd_baseDelayMs := NInt base;
    rd_maxDelayMs := NInt maximum; rd_operationId := operation |} =
  Ok (Z.min maximum (exponential + operationHash operation mod Z.max 1 (exponential / 4))).
Proof.
  intros Ha Hb Sa Sb Sm. cbv zeta. unfold deterministicRetryDelay. cbn [rd_attempt rd_baseDelayMs rd_maxDelayMs safe_integer].
  rewrite Sa, Sb, Sm. pose proof (backoff_range attempt base maximum Ha Hb) as Hr.
  destruct (Z.leb_spec attempt 0), (Z.leb_spec base 0), (Z.ltb_spec maximum base); try lia. cbn [orb].
  destruct (Z.leb_spec maximum (backoff attempt base maximum)).
  - destruct (jitter_range (operationHash operation) (backoff attempt base maximum)); [lia|]. f_equal. lia.
  - done.
Qed.

(** The retry delay is total on positive bounded integers and refuses everything
    else; it lies between the base and the cap, never a quarter or more above
    the exponential backoff, and never shrinks from one attempt to the next. *)
Theorem retry_delay_bounds (input : RetryDelayInput) :
  match deterministicRetryDelay input with
  | Err _ => ∀ attempt base maximum,
      safe_integer (rd_attempt input) = Some attempt → safe_integer (rd_baseDelayMs input) = Some base →
      safe_integer (rd_maxDelayMs input) = Some maximum → ¬ (0 < attempt ∧ 0 < base ≤ maximum)
  | Ok delay => ∃ attempt base maximum,
      rd_attempt input = NInt attempt ∧ rd_baseDelayMs input = NInt base ∧ rd_maxDelayMs input = NInt maximum ∧
      base ≤ delay ≤ maximum ∧ 4 * delay < 5 * backoff attempt base maximum ∧
      (backoff attempt base maximum ≤ delay) ∧
      ∀ next, isSafeInteger (attempt + 1) = true →
        deterministicRetryDelay {| rd_attempt := NInt (attempt + 1); rd_baseDelayMs := NInt base;
          rd_maxDelayMs := NInt maximum; rd_operationId := rd_operationId input |} = Ok next → delay ≤ next
  end.
Proof.
  destruct input as [na nb nm op]. cbn [rd_attempt rd_baseDelayMs rd_maxDelayMs rd_operationId].
  destruct (safe_integer na) as [a|] eqn:Ea, (safe_integer nb) as [b|] eqn:Eb, (safe_integer nm) as [m|] eqn:Em;
    try (unfold deterministicRetryDelay; cbn [rd_attempt rd_baseDelayMs rd_maxDelayMs];
         rewrite ?Ea, ?Eb, ?Em; done).
  apply safe_integer_some in Ea as [-> Sa], Eb as [-> Sb], Em as [-> Sm].
  destruct (decide (0 < a ∧ 0 < b ≤ m)) as [[Ha Hb]|Hn].
  - rewrite delay_spec by done. exists a, b, m.
    pose proof (backoff_range a b m Ha Hb) as Hr.
    destruct (jitter_range (operationHash op) (backoff a b m)) as [Hj Hj4]; [lia|].
    split_and!; try done; try lia. intros next Sn. cbn [rd_operationId]. rewrite delay_spec by (done || lia).
    intros [= <-]. destruct (jitter_range (operationHash op) (backoff (a + 1) b m)) as [Hk _];
      [pose proof (backoff_range (a + 1) b m); lia|].
    destruct (backoff_next a b m Ha Hb) as [E|E]; [|rewrite E; lia]. rewrite E in *. lia.
  - unfold deterministicRetryDelay. cbn [rd_attempt rd_baseDelayMs rd_maxDelayMs safe_integer rd_operationId].
    rewrite Sa, Sb, Sm. destruct (Z.leb_spec a 0), (Z.leb_spec b 0), (Z.ltb_spec m b); cbn [orb]; try lia;
      intros ? ? ? [= <-] [= <-] [= <-]; lia.
Qed.
