(* ===== verification/Placement.v ===== *)
(** * Placement

    runtime/src/reconcile/placement.ts: where a component runs, and whether a
    placement chosen earlier is still the one to run. The permission gate of
    Gate.v decides on JSON data, which the inputs of placement are. *)

From S2P Require Import Prelude JsString Collections JsValue Permission Gate.

(** ** Data *)
Inductive ExecutorKind := Process | Remote | Thread.
#[export] Instance executor_kind_eq_dec : EqDecision ExecutorKind.
Proof. solve_decision. Defined.
Definition executor_text (e : ExecutorKind) : jstring :=
  match e with Process => js "process" | Remote => js "remote" | Thread => js "thread" end.

Record PluginComponent := { pc_componentId : jstring; pc_executors : list ExecutorKind }.
(** The two fields the code tests for arrays are any JSON. *)
Record PlacementWorker := {
  w_workerId : jstring;
  w_labels : json;
  w_resources : json;
  w_executors : json;
  w_preparedArtifacts : json;
}.
Record ComponentPlacement := { cpl_executor : ExecutorKind; cpl_workerId : option jstring }.
#[export] Instance component_placement_eq_dec : EqDecision ComponentPlacement.
Proof. solve_decision. Defined.
Inductive PlacementCode := DEPLOYMENT_EXECUTOR_UNAVAILABLE | PERMISSION_GRANT_EXCEEDED.
Record PlacementInput := {
  pi_artifactDigest : jstring;
  pi_component : PluginComponent;
  pi_grantedPermissions : json;
  pi_supportedExecutors : list ExecutorKind;
  pi_workers : list PlacementWorker;
}.
(** A placement, or a diagnostic about the component. *)
Abbreviation PlacementDecision := (result (PlacementCode * jstring) ComponentPlacement).

Definition executorPreference : list ExecutorKind := [Process; Thread; Remote].

(** [array.includes(s)] of an array of JSON, and [Array.isArray]. *)
Definition json_includes (items : list json) (s : jstring) : bool :=
  existsb (λ item, match item with JStr t => streq t s | _ => false end) items.

Section placement.
Context (domainToASCII : jstring → jstring).

(** [gatePermission] of values that are JSON data: the copies are the values. *)
Definition gatePermission_json (granted attempt : json) : PermissionGateDecision :=
  match canonicalize domainToASCII granted with
  | Err _ => invalidPermission
  | Ok set =>
      match normalize_stable domainToASCII attempt with
      | None => invalidPermission
      | Some call => gate_call set call
      end
  end.

Definition executor_call (e : ExecutorKind) : json :=
  JObj [(js "kind", JStr (js "executor")); (js "executor", JStr (executor_text e))].
Definition worker_call (w : PlacementWorker) : json :=
  JObj [(js "kind", JStr (js "worker")); (js "labels", w_labels w); (js "resources", w_resources w)].

(** A worker that has the artifact and an executor for the component. *)
Definition worker_prepared (input : PlacementInput) (w : PlacementWorker) : bool :=
  match w_preparedArtifacts w, w_executors w with
  | JArr artifacts, JArr executors =>
      json_includes artifacts (pi_artifactDigest input) &&
      existsb (λ e, json_includes executors (executor_text e)) (pc_executors (pi_component input))
  | _, _ => false
  end.

Definition select_worker (input : PlacementInput) : option PlacementWorker :=
  List.find (λ w, worker_prepared input w &&
      gd_allowed (gatePermission_json (pi_grantedPermissions input) (worker_call w)))
    (js_sort (λ a b, compareText (w_workerId a) (w_workerId b)) (pi_workers input)).

Fixpoint place_in (input : PlacementInput) (preference : list ExecutorKind) (permissionDenied : bool)
  : PlacementDecision :=
  match preference with
  | [] =>
      Err (if permissionDenied then PERMISSION_GRANT_EXCEEDED else DEPLOYMENT_EXECUTOR_UNAVAILABLE,
           pc_componentId (pi_component input))
  | executor :: rest =>
      if negb (includes (pc_executors (pi_component input)) executor) ||
         negb (includes (pi_supportedExecutors input) executor)
      then place_in input rest permissionDenied
      else if negb (gd_allowed (gatePermission_json (pi_grantedPermissions input) (executor_call executor)))
      then place_in input rest true
      else if negb (bool_decide (executor = Remote))
      then Ok {| cpl_executor := executor; cpl_workerId := None |}
      else
        match select_worker input with
        | Some w => Ok {| cpl_executor := executor; cpl_workerId := Some (w_workerId w) |}
        | None => place_in input rest permissionDenied
        end
  end.
Definition planPlacement (input : PlacementInput) : PlacementDecision :=
  place_in input executorPreference false.

Definition placementIsEligible (input : PlacementInput) (expected : ComponentPlacement) : bool :=
  if negb (includes (pi_supportedExecutors input) (cpl_executor expected)) then false
  else
    match planPlacement
      {| pi_artifactDigest := pi_artifactDigest input; pi_component := pi_component input;
         pi_grantedPermissions := pi_grantedPermissions input;
         pi_supportedExecutors := [cpl_executor expected];
         pi_workers :=
           if bool_decide (cpl_executor expected = Remote)
           then List.filter (λ w, bool_decide (Some (w_workerId w) = cpl_workerId expected)) (pi_workers input)
           else pi_workers input |}
    with
    | Ok placement => bool_decide (cpl_executor placement = cpl_executor expected) &&
                      bool_decide (cpl_workerId placement = cpl_workerId expected)
    | Err _ => false
    end.

(** ** What a placement means *)

(** On the heap the gate decides as on the data. *)
Lemma gatePermission_copied h granted attempt g a :
  clone h granted = Ok g → clone h attempt = Ok a →
  gatePermission domainToASCII h granted attempt = gatePermission_json g a.
Proof.
  intros Hg Ha. unfold gatePermission, canonicalizePermissionSet, normalizeCall, gatePermission_json.
  by rewrite Hg, Ha.
Qed.

(** The executors a component may run on, permission included. *)
Definition executor_open (input : PlacementInput) (e : ExecutorKind) : bool :=
  includes (pc_executors (pi_component input)) e && includes (pi_supportedExecutors input) e &&
  gd_allowed (gatePermission_json (pi_grantedPermissions input) (executor_call e)).
Definition worker_open (input : PlacementInput) (w : PlacementWorker) : bool :=
  worker_prepared input w &&
  gd_allowed (gatePermission_json (pi_grantedPermissions input) (worker_call w)).

(** A placement that is allowed, whatever the preference. *)
Definition allowed_placement (input : PlacementInput) (p : ComponentPlacement) : Prop :=
  executor_open input (cpl_executor p) = true ∧
  match cpl_executor p, cpl_workerId p with
  | Remote, Some id => ∃ w, w ∈ pi_workers input ∧ w_workerId w = id ∧ worker_open input w = true
  | Remote, None => False
  | _, Some _ => False
  | _, None => True
  end.

Lemma select_worker_some input w :
  select_worker input = Some w → w ∈ pi_workers input ∧ worker_open input w = true.
Proof.
  intros [Hin Hw]%find_some_in. by apply elem_of_js_sort in Hin.
Qed.
Lemma select_worker_is_some input w :
  w ∈ pi_workers input → worker_open input w = true → ∃ w', select_worker input = Some w'.
Proof. intros Hin Hw. eapply find_is_some; [|exact Hw]. by apply elem_of_js_sort. Qed.

Lemma place_in_cons input e rest denied :
  place_in input (e :: rest) denied =
  if executor_open input e then
    match e with
    | Remote =>
        match select_worker input with
        | Some w => Ok {| cpl_executor := Remote; cpl_workerId := Some (w_workerId w) |}
        | None => place_in input rest denied
        end
    | _ => Ok {| cpl_executor := e; cpl_workerId := None |}
    end
  else place_in input rest
    (if includes (pc_executors (pi_component input)) e && includes (pi_supportedExecutors input) e
     then true else denied).
Proof.
  unfold executor_open. cbn [place_in]. destruct (includes (pc_executors _) e), (includes (pi_supportedExecutors _) e);
    cbn [negb orb andb]; try done.
  destruct (gd_allowed _); cbn [negb]; [|done]. by destruct e.
Qed.

(** A decision is the most preferred allowed placement. *)
Lemma planPlacement_ok input p :
  planPlacement input = Ok p →
  allowed_placement input p ∧
  ∀ q, allowed_placement input q →
    match cpl_executor q, cpl_executor p with
    | Process, Thread | Process, Remote | Thread, Remote => False
    | _, _ => True
    end.
Proof.
  unfold planPlacement, executorPreference. rewrite !place_in_cons. cbn [place_in].
  intros H. assert (allowed_placement input p ∧ ∀ e, executor_open input e = true →
    match e, cpl_executor p with Process, Thread | Process, Remote | Thread, Remote => False | _, _ => True end)
    as [Hp Hpref].
  { destruct (executor_open input Process) eqn:E1; [injection H as <-; split; [done|by intros []]|].
    destruct (executor_open input Thread) eqn:E2;
      [injection H as <-; split; [done|]; intros []; try done; congruence|].
    destruct (executor_open input Remote) eqn:E3; [|by destruct (_ && _) in H].
    destruct (select_worker input) as [w|] eqn:Ew; [|by destruct (_ && _) in H]. injection H as <-.
    split; [|intros []; try done; congruence].
    apply select_worker_some in Ew as [Hin Hw]. split; [done|]. by exists w. }
  split; [done|]. intros q [Hq _]. by apply Hpref.
Qed.

Lemma planPlacement_complete input q :
  allowed_placement input q → ∃ p, planPlacement input = Ok p.
Proof.
  intros [Ho Hq]. unfold planPlacement, executorPreference. rewrite !place_in_cons.
  destruct (executor_open input Process) eqn:E1; [eauto|].
  destruct (executor_open input Thread) eqn:E2; [eauto|].
  destruct q as [[] [id|]]; cbn [cpl_executor cpl_workerId] in *; try done; try congruence.
  rewrite Ho. destruct Hq as (w & Hin & _ & Hw). destruct (select_worker_is_some input w Hin Hw) as [w' ->]. eauto.
Qed.

Lemma eligible_spec input p :
  placementIsEligible input p = true ↔ allowed_placement input p.
Proof.
  unfold placementIsEligible. set (narrowed := Build_PlacementInput _ _ _ _ _).
  assert (∀ e, executor_open narrowed e = true ↔ e = cpl_executor p ∧
    includes (pc_executors (pi_component input)) e = true ∧
    gd_allowed (gatePermission_json (pi_grantedPermissions input) (executor_call e)) = true) as Hopen.
  { intros e. unfold executor_open. cbn. rewrite !andb_true_iff, (includes_true [_]), list_elem_of_singleton. tauto. }
  assert (∀ w, worker_open narrowed w = worker_open input w) as Hworker by done.
  split.
  - destruct (includes (pi_supportedExecutors input) _) eqn:Es; cbn [negb]; [|done].
    destruct (planPlacement narrowed) as [q|] eqn:Eq; [|done]. intros [Hk%bool_decide_eq_true Hw%bool_decide_eq_true]%andb_true_iff.
    assert (q = p) as -> by (destruct p, q; cbn in *; congruence).
    apply planPlacement_ok in Eq as [[Ho Hp] _]. apply Hopen in Ho as (_ & Hc & Hg).
    split; [unfold executor_open; by rewrite Hc, Es, Hg|].
    destruct (cpl_executor p) eqn:Ee, (cpl_workerId p) as [id|] eqn:Ei; try done.
    destruct Hp as (w & Hin & Hid & Hw'). exists w. split; [|done].
    cbn in Hin. rewrite bool_decide_true in Hin by done. by apply elem_of_filterb in Hin as [? _].
  - intros [Ho Hp]. pose proof Ho as Ho'. unfold executor_open in Ho'. rewrite !andb_true_iff in Ho'.
    destruct Ho' as [[Hc Hs] Hg]. rewrite Hs. cbn [negb].
    assert (allowed_placement narrowed p) as Hn.
    { split; [by apply Hopen|]. destruct (cpl_executor p) eqn:Ee, (cpl_workerId p) as [id|] eqn:Ei; try done.
      destruct Hp as (w & Hin & Hid & Hw). exists w. split; [|done]. cbn. rewrite bool_decide_true by done.
      apply elem_of_filterb. split; [done|]. apply bool_decide_eq_true. congruence. }
    destruct (planPlacement_complete _ _ Hn) as [q Eq]. rewrite Eq.
    apply planPlacement_ok in Eq as [[Hq Hq'] _]. apply Hopen in Hq as (Ek & _).
    rewrite bool_decide_true by done. cbn [andb]. apply bool_decide_eq_true.
    destruct Hn as [_ Hn]. rewrite Ek in Hq'.
    destruct (cpl_executor p) eqn:Ee, (cpl_workerId p) as [id|], (cpl_workerId q) as [id'|]; try done.
    destruct Hq' as (w & Hin & <- & _). cbn in Hin. rewrite bool_decide_true in Hin by done.
    apply elem_of_filterb in Hin as [_ Hin]. by apply bool_decide_eq_true in Hin.
Qed.
End placement.

(** A component is placed exactly when some placement is allowed: an executor the
    component and the runtime both support and the grant permits, for a remote
    one with a permitted worker that prepared the artifact. The placement
    chosen is allowed and the most preferred; a placement is eligible later
    exactly when it is allowed, so what is planned is eligible. *)
Theorem placement_exact (domainToASCII : jstring → jstring) (input : PlacementInput) :
  (∀ p, placementIsEligible domainToASCII input p = true ↔ allowed_placement domainToASCII input p) ∧
  match planPlacement domainToASCII input with
  | Ok p => allowed_placement domainToASCII input p ∧
      ∀ q, allowed_placement domainToASCII input q →
        match cpl_executor q, cpl_executor p with
        | Process, Thread | Process, Remote | Thread, Remote => False
        | _, _ => True
        end
  | Err (_, component) => component = pc_componentId (pi_component input) ∧
      ∀ q, ¬ allowed_placement domainToASCII input q
  end.
Proof.
  split; [by apply eligible_spec|]. destruct (planPlacement _ input) as [p|[code c]] eqn:E.
  - by apply planPlacement_ok.
  - split; [|intros q Hq; destruct (planPlacement_complete _ _ _ Hq); congruence].
    unfold planPlacement, executorPreference in E. rewrite !place_in_cons in E. cbn [place_in] in E.
    repeat case_match; simplify_eq; done.
Qed.
