(* ===== verification/Execution.v ===== *)
(** * Execution targets and bindings

    contracts/src/execution.ts and the execution-binding part of
    contracts/src/schema.ts: the immutable target of a task, the binding of
    configuration, permissions and capabilities it runs under, and the
    fingerprint that ties the two together.

    Ajv is a third-party validator and a parameter, as are SHA-256 and
    [String.prototype.localeCompare], whose order the host's locale decides. *)

From S2P Require Import Prelude JsString Collections JsValue Identity JsonText Canonical Placement.

Open Scope nat_scope.

(** ** JSON objects *)
Definition jfield (key : jstring) (j : json) : option json :=
  match j with JObj fields => JsMap.get fields key | _ => None end.
(** A field as an untrusted value: the identity parsers want strings. *)
Definition untrusted (j : option json) : jsval :=
  match j with
  | Some (JStr s) => VStr s
  | Some JNull => VNull
  | Some (JBool b) => VBool b
  | Some (JNum n) => VNum n
  | Some (JArr _) | Some (JObj _) => VRef 1
  | None => VUndefined
  end.

(** ** Targets *)
Record TaskExecutor := { tx_id : jstring; tx_type : ExecutorKind; tx_workerId : option jstring }.
Record TaskExecutionTarget := {
  tg_instanceId : jstring;
  tg_deploymentGeneration : jstring;
  tg_artifactDigest : jstring;
  tg_executor : TaskExecutor;
}.
#[export] Instance TaskExecutor_eq_dec : EqDecision TaskExecutor.
Proof. solve_decision. Defined.
#[export] Instance TaskExecutionTarget_eq_dec : EqDecision TaskExecutionTarget.
Proof. solve_decision. Defined.

Definition targetError : exn := DiagnosticError "PROTOCOL_EXECUTION_TARGET_INVALID".

Definition targetObject (value : option json) : result exn (list (jstring * json)) :=
  match value with Some (JObj fields) => Ok fields | _ => Err targetError end.

Definition targetKeys (fields : list (jstring * json)) (required optional : list jstring) : result exn unit :=
  throw_if (existsb (λ k, negb (JsMap.has fields k)) required ||
            existsb (λ f, negb (includes (required ++ optional) f.1)) fields) targetError.

Definition executor_type (value : option json) : option ExecutorKind :=
  match value with
  | Some (JStr s) =>
      if streq s (js "process") then Some Process
      else if streq s (js "remote") then Some Remote
      else if streq s (js "thread") then Some Thread
      else None
  | _ => None
  end.

Definition parseTargetExecutor (value : option json) : result exn TaskExecutor :=
  fields ← targetObject value;
  _ ← targetKeys fields [js "id"; js "type"] [js "workerId"];
  match executor_type (JsMap.get fields (js "type")) with
  | None => Err targetError
  | Some type =>
      let workerId := JsMap.get fields (js "workerId") in
      if bool_decide (type = Remote) && negb (bool_decide (is_Some workerId)) ||
         negb (bool_decide (type = Remote)) && bool_decide (is_Some workerId)
      then Err targetError
      else
        id ← parseExecutorId (untrusted (JsMap.get fields (js "id")));
        if bool_decide (type = Remote)
        then worker ← parseWorkerId (untrusted workerId);
             Ok {| tx_id := id; tx_type := type; tx_workerId := Some worker |}
        else Ok {| tx_id := id; tx_type := type; tx_workerId := None |}
  end.

Definition parseTaskExecutionTarget (input : json) : result exn TaskExecutionTarget :=
  fields ← targetObject (Some input);
  _ ← targetKeys fields [js "instanceId"; js "deploymentGeneration"; js "artifactDigest"; js "executor"] [];
  executor ← parseTargetExecutor (JsMap.get fields (js "executor"));
  instanceId ← parseComponentInstanceId (untrusted (JsMap.get fields (js "instanceId")));
  generation ← parseGeneration (untrusted (JsMap.get fields (js "deploymentGeneration")));
  digest ← parseArtifactDigest (untrusted (JsMap.get fields (js "artifactDigest")));
  Ok {| tg_instanceId := instanceId; tg_deploymentGeneration := generation; tg_artifactDigest := digest;
        tg_executor := executor |}.

(** A target as the JSON data it is. *)
Definition executor_json (x : TaskExecutor) : json :=
  JObj ([(js "id", JStr (tx_id x)); (js "type", JStr (executor_text (tx_type x)))] ++
        match tx_workerId x with Some w => [(js "workerId", JStr w)] | None => [] end).
Definition target_json (t : TaskExecutionTarget) : json :=
  JObj [(js "instanceId", JStr (tg_instanceId t));
        (js "deploymentGeneration", JStr (tg_deploymentGeneration t));
        (js "artifactDigest", JStr (tg_artifactDigest t));
        (js "executor", executor_json (tg_executor t))].

(** ** Bindings *)
Record ExecutionBindingContent := {
  xc_configuration : json;
  xc_permissionGrants : list json;
  xc_capabilityDefinitions : list json;
  xc_capabilityBindings : list json;
}.
Record ExecutionBinding := { xb_content : ExecutionBindingContent; xb_fingerprint : jstring }.
Record ExecutionBindingIdentity := {
  xi_applicationId : jstring;
  xi_pluginId : jstring;
  xi_componentId : jstring;
  xi_target : TaskExecutionTarget;
}.

Definition content_fields (c : ExecutionBindingContent) : list (jstring * json) :=
  [(js "configuration", xc_configuration c);
   (js "permissionGrants", JArr (xc_permissionGrants c));
   (js "capabilityDefinitions", JArr (xc_capabilityDefinitions c));
   (js "capabilityBindings", JArr (xc_capabilityBindings c))].
Definition content_json (c : ExecutionBindingContent) : json := JObj (content_fields c).
Definition binding_json (b : ExecutionBinding) : json :=
  JObj (content_fields (xb_content b) ++ [(js "fingerprint", JStr (xb_fingerprint b))]).
Definition identity_json (i : ExecutionBindingIdentity) : json :=
  JObj [(js "applicationId", JStr (xi_applicationId i)); (js "pluginId", JStr (xi_pluginId i));
        (js "componentId", JStr (xi_componentId i)); (js "target", target_json (xi_target i))].

(** The schemas contracts/src/schema.ts compiles with Ajv. *)
Inductive schema_name :=
| ExecutionBindingSchema | PermissionSetSchema | CapabilityDefinitionSchema | CapabilityBindingSchema
| ExecutionResultSchema | RuntimeDiagnosticSchema.

(** [isJsonValue] of JSON data: its numbers are finite. *)
Definition isJsonData (j : json) : bool := match serialize j with Some _ => true | None => false end.

Section execution.
Context (number_text : jsnum → jstring) (sha256 : jstring → jstring) (localeCompare : jstring → jstring → Z).
Context (ajv : schema_name → json → bool).

Definition parseWithValidator (schema : schema_name) (input : json) (code : String.string) : result exn unit :=
  _ ← throw_if (negb (isJsonData input)) (DiagnosticError code);
  throw_if (negb (ajv schema input)) (DiagnosticError code).
#[local] Arguments parseWithValidator schema input code%_string_scope.

(** [field.localeCompare(other)] of two objects. *)
Definition text_at (path : list jstring) (j : json) : jstring :=
  match foldl (λ v k, v ≫= jfield k) (Some j) path with Some (JStr s) => s | _ => [] end.
Fixpoint locale_order (paths : list (list jstring)) (a b : json) : Z :=
  match paths with
  | [] => 0%Z
  | path :: rest => or_else (localeCompare (text_at path a) (text_at path b)) (locale_order rest a b)
  end.

Definition array_of (j : option json) : list json := match j with Some (JArr items) => items | _ => [] end.
Definition strings_of (items : list json) : list jstring :=
  omap (λ v, match v with JStr s => Some s | _ => None end) items.
Definition sortedStrings (j : option json) : json :=
  JArr (map JStr (js_sort compareText (strings_of (array_of j)))).
Definition compare_numbers (a b : json) : Z :=
  match a, b with JNum (NInt x), JNum (NInt y) => (x - y)%Z | _, _ => 0%Z end.

(** A grant the permission schema accepts; [kind] is one of seven. *)
Definition normalizedPermission (p : json) : json :=
  let kind := text_at [js "kind"] p in
  if streq kind (js "capability") then
    JObj [(js "kind", JStr kind);
          (js "capabilities", JArr (js_sort (locale_order [[js "name"]])
             (map (λ e, JObj [(js "name", JStr (text_at [js "name"] e));
                              (js "methods", sortedStrings (jfield (js "methods") e))])
                (array_of (jfield (js "capabilities") p)))))]
  else if streq kind (js "environment") || streq kind (js "secret") then
    JObj [(js "kind", JStr kind); (js "names", sortedStrings (jfield (js "names") p))]
  else if streq kind (js "executor") then
    JObj [(js "kind", JStr kind); (js "executors", sortedStrings (jfield (js "executors") p))]
  else if streq kind (js "filesystem") then
    JObj [(js "kind", JStr kind);
          (js "roots", JArr (js_sort (locale_order [[js "path"]])
             (map (λ e, JObj [(js "path", JStr (text_at [js "path"] e));
                              (js "access", sortedStrings (jfield (js "access") e))])
                (array_of (jfield (js "roots") p)))))]
  else if streq kind (js "network") then
    JObj [(js "kind", JStr kind);
          (js "hosts", sortedStrings (jfield (js "hosts") p));
          (js "ports", JArr (js_sort compare_numbers (array_of (jfield (js "ports") p))));
          (js "methods", sortedStrings (jfield (js "methods") p))]
  else p.

Fixpoint canonicalMethods (methods : list jstring) : bool :=
  match methods with
  | m :: ((n :: _) as rest) => str_ltb m n && canonicalMethods rest
  | _ => true
  end.

Definition parsePermissionSet (grants : list json) : result exn unit :=
  parseWithValidator PermissionSetSchema (JArr grants) "PERMISSION_ENVELOPE_INVALID".
Definition parseCapabilityDefinition (definition : json) : result exn json :=
  _ ← parseWithValidator CapabilityDefinitionSchema definition "CAPABILITY_DEFINITION_INVALID";
  _ ← throw_if (negb (canonicalMethods (strings_of (array_of (jfield (js "methods") definition)))))
        (DiagnosticError "CAPABILITY_DEFINITION_INVALID");
  Ok definition.
Definition parseCapabilityBinding (binding : json) : result exn json :=
  _ ← parseWithValidator CapabilityBindingSchema binding "CAPABILITY_BINDING_INVALID";
  Ok binding.

Definition normalizeExecutionBindingContent (c : ExecutionBindingContent) : result exn ExecutionBindingContent :=
  _ ← parsePermissionSet (xc_permissionGrants c);
  definitions ← mapM parseCapabilityDefinition (xc_capabilityDefinitions c);
  bindings ← mapM parseCapabilityBinding (xc_capabilityBindings c);
  Ok {| xc_configuration := xc_configuration c;
        xc_permissionGrants :=
          js_sort (λ a b, localeCompare (canonical number_text a) (canonical number_text b))
            (map normalizedPermission (xc_permissionGrants c));
        xc_capabilityDefinitions :=
          js_sort (locale_order [[js "identity"; js "name"]; [js "identity"; js "protocolVersion"]]) definitions;
        xc_capabilityBindings :=
          js_sort (locale_order [[js "capability"; js "name"]; [js "capability"; js "protocolVersion"];
                                 [js "providerDeployment"; js "applicationId"];
                                 [js "providerDeployment"; js "pluginId"]]) bindings |}.

(** The text that is hashed. *)
Definition fingerprint_json (identity : ExecutionBindingIdentity) (c : ExecutionBindingContent) : json :=
  JObj [(js "domain", JStr (js "tego.execution-binding/1.0")); (js "identity", identity_json identity);
        (js "binding", content_json c)].
Definition executionBindingFingerprint (identity : ExecutionBindingIdentity) (c : ExecutionBindingContent) : jstring :=
  sha256 (canonical number_text (fingerprint_json identity c)).

Definition parseExecutionBinding (b : ExecutionBinding) : result exn ExecutionBinding :=
  _ ← parseWithValidator ExecutionBindingSchema (binding_json b) "PROTOCOL_EXECUTION_BINDING_INVALID";
  Ok b.

Definition parseBindingIdentity (i : ExecutionBindingIdentity) : result exn ExecutionBindingIdentity :=
  applicationId ← parseApplicationId (VStr (xi_applicationId i));
  pluginId ← parsePluginId (VStr (xi_pluginId i));
  componentId ← parseComponentId (VStr (xi_componentId i));
  target ← parseTaskExecutionTarget (target_json (xi_target i));
  Ok {| xi_applicationId := applicationId; xi_pluginId := pluginId; xi_componentId := componentId;
        xi_target := target |}.

Definition createExecutionBinding (identityInput : ExecutionBindingIdentity) (contentInput : ExecutionBindingContent)
  : result exn ExecutionBinding :=
  identity ← parseBindingIdentity identityInput;
  candidate ← parseExecutionBinding {| xb_content := contentInput; xb_fingerprint := repeat 48%N 64 |};
  content ← normalizeExecutionBindingContent (xb_content candidate);
  Ok {| xb_content := content; xb_fingerprint := executionBindingFingerprint identity content |}.

Definition assertExecutionBindingMatches (identity : ExecutionBindingIdentity) (input : ExecutionBinding)
  : result exn ExecutionBinding :=
  binding ← parseExecutionBinding input;
  normalized ← normalizeExecutionBindingContent (xb_content binding);
  _ ← throw_if (negb (streq (xb_fingerprint binding) (executionBindingFingerprint identity normalized)))
        (DiagnosticError "PROTOCOL_EXECUTION_BINDING_INVALID");
  Ok binding.

(** ** JSON data *)
Lemma isJsonData_data j : isJsonData j = true ↔ data j.
Proof. unfold isJsonData, data. by destruct (serialize j); split. Qed.

Lemma data_field k j v : data j → jfield k j = Some v → data v.
Proof.
  destruct j as [| | | | |fields]; try done. intros Hj%data_obj H. cbn in H. apply JsMap.get_in in H.
  rewrite Forall_forall in Hj. by apply Hj in H.
Qed.

Lemma data_array j : (∀ v, j = Some v → data v) → Forall data (array_of j).
Proof. destruct j as [[]|]; cbn; intros H; try constructor. by apply data_arr, H. Qed.

Lemma data_strings j : data (sortedStrings j).
Proof. apply data_arr, Forall_map, Forall_forall. intros s _. by eexists. Qed.

Lemma data_sorted (cmp : json → json → Z) l : Forall data l → Forall data (js_sort cmp l).
Proof. rewrite !Forall_forall. intros H x Hx%elem_of_js_sort. by apply H. Qed.

Lemma data_normalized p : data p → data (normalizedPermission p).
Proof.
  intros Hp. unfold normalizedPermission. cbn zeta.
  repeat case_match; try done; apply data_obj; repeat constructor; cbn [snd];
    try apply data_strings; try (by eexists).
  all: apply data_arr, data_sorted; try (apply data_array; intros v; by apply data_field).
  all: apply Forall_map, Forall_forall; intros e _; apply data_obj; repeat constructor; cbn [snd];
    try apply data_strings; by eexists.
Qed.

Lemma content_data c :
  data (content_json c) ↔
  data (xc_configuration c) ∧ Forall data (xc_permissionGrants c) ∧
  Forall data (xc_capabilityDefinitions c) ∧ Forall data (xc_capabilityBindings c).
Proof.
  unfold content_json. rewrite data_obj. unfold content_fields. rewrite !Forall_cons, Forall_nil. cbn [snd].
  rewrite !data_arr. tauto.
Qed.

Lemma mapM_parsed (f : json → result exn json) l k :
  (∀ x y, f x = Ok y → y = x) → mapM f l = Ok k → k = l.
Proof.
  intros Hf H%mapM_ok. induction H as [|x y l' k' Hxy _ IH]; [done|]. f_equal; [by apply Hf|exact IH].
Qed.

(** What normalisation does where it succeeds, and the data it yields. *)
Lemma normalize_data c n : normalizeExecutionBindingContent c = Ok n → data (content_json c) → data (content_json n).
Proof.
  unfold normalizeExecutionBindingContent. intros (_ & _ & H)%bind_ok (Hc & Hg & Hd & Hb)%content_data.
  apply bind_ok in H as (ds & Eds & H). apply bind_ok in H as (bs & Ebs & [= <-]).
  apply mapM_parsed in Eds as ->; [|by intros x y (_ & _ & (_ & _ & [= ->])%bind_ok)%bind_ok].
  apply mapM_parsed in Ebs as ->; [|by intros x y (_ & _ & [= ->])%bind_ok].
  apply content_data. cbn. repeat split; [done|..]; try by apply data_sorted.
  apply data_sorted, Forall_map. eapply Forall_impl; [exact Hg|]. apply data_normalized.
Qed.

Lemma parse_data b b' : parseExecutionBinding b = Ok b' → b' = b ∧ data (content_json (xb_content b)).
Proof.
  unfold parseExecutionBinding, parseWithValidator. intros (u & H & [= <-])%bind_ok. split; [done|].
  apply bind_ok in H as (_ & H%throw_if_ok & _). apply negb_false_iff, isJsonData_data, data_obj in H.
  rewrite Forall_app in H. apply data_obj, H.
Qed.

(** ** The fingerprint *)
Lemma executor_text_inj : Inj (=) (=) executor_text.
Proof. by intros [] []. Qed.

Lemma serialize_executor x :
  serialize (executor_json x) =
  Some (JObj ([(js "id", JStr (tx_id x)); (js "type", JStr (executor_text (tx_type x)))] ++
              match tx_workerId x with Some w => [(js "workerId", JStr w)] | None => [] end)).
Proof. destruct x as [id ty [w|]]; reflexivity. Qed.

Lemma executor_json_inj x y : serialize (executor_json x) = serialize (executor_json y) → x = y.
Proof.
  rewrite !serialize_executor. destruct x as [i t [w|]], y as [i' t' [w'|]]; cbn; intros [=]; subst; try done;
    f_equal; by apply executor_text_inj.
Qed.

Lemma serialize_target t :
  serialize (target_json t) =
  e ← serialize (executor_json (tg_executor t));
  Some (JObj [(js "artifactDigest", JStr (tg_artifactDigest t));
              (js "deploymentGeneration", JStr (tg_deploymentGeneration t)); (js "executor", e);
              (js "instanceId", JStr (tg_instanceId t))]).
Proof. destruct t as [? ? ? [? ? [w|]]]; reflexivity. Qed.

Lemma target_json_inj t u : serialize (target_json t) = serialize (target_json u) → t = u.
Proof.
  rewrite !serialize_target. intros E.
  destruct (serialize (executor_json (tg_executor t))) as [x|] eqn:Et; [|by rewrite serialize_executor in Et].
  destruct (serialize (executor_json (tg_executor u))) as [y|] eqn:Eu; [|by rewrite serialize_executor in Eu].
  cbn [mbind option_bind] in E. injection E as Ed Eg Ee Ei. subst y.
  assert (tg_executor t = tg_executor u) by (apply executor_json_inj; congruence).
  destruct t, u; cbn in *. by subst.
Qed.

Lemma serialize_identity i :
  serialize (identity_json i) =
  t ← serialize (target_json (xi_target i));
  Some (JObj [(js "applicationId", JStr (xi_applicationId i)); (js "componentId", JStr (xi_componentId i));
              (js "pluginId", JStr (xi_pluginId i)); (js "target", t)]).
Proof. destruct i as [? ? ? [? ? ? [? ? [w|]]]]; reflexivity. Qed.

Lemma identity_data i : is_Some (serialize (identity_json i)).
Proof. rewrite serialize_identity, serialize_target, serialize_executor. by eexists. Qed.

Lemma identity_json_inj i j : serialize (identity_json i) = serialize (identity_json j) → i = j.
Proof.
  rewrite !serialize_identity. intros E.
  destruct (serialize (target_json (xi_target i))) as [x|] eqn:Et;
    [|by rewrite serialize_target, serialize_executor in Et].
  destruct (serialize (target_json (xi_target j))) as [y|] eqn:Eu;
    [|by rewrite serialize_target, serialize_executor in Eu].
  cbn [mbind option_bind] in E. injection E as Ea Ec Ep Et'. subst y.
  assert (xi_target i = xi_target j) by (apply target_json_inj; congruence).
  destruct i, j; cbn in *. by subst.
Qed.

Lemma serialize_fingerprint i c :
  serialize (fingerprint_json i c) =
  x ← serialize (identity_json i); y ← serialize (content_json c);
  Some (JObj [(js "binding", y); (js "domain", JStr (js "tego.execution-binding/1.0")); (js "identity", x)]).
Proof.
  unfold fingerprint_json. generalize (identity_json i) as a, (content_json c) as b. intros a b.
  cbn [serialize mapM snd fst]. destruct (serialize a); [|reflexivity]. destruct (serialize b); reflexivity.
Qed.

(** One text hashed for two bindings means one identity and one content. *)
Lemma fingerprint_text_inj i c j d :
  number_text_ok number_text → data (content_json c) → data (content_json d) →
  canonical number_text (fingerprint_json i c) = canonical number_text (fingerprint_json j d) →
  i = j ∧ serialize (content_json c) = serialize (content_json d).
Proof.
  intros Htext [c' Hc] [d' Hd] E. destruct (identity_data i) as [i' Hi], (identity_data j) as [j' Hj].
  eapply (canonical_exact _ Htext) in E; [|rewrite serialize_fingerprint, ?Hi, ?Hj, ?Hc, ?Hd; reflexivity..].
  injection E as -> ->. split; [|congruence]. apply identity_json_inj. congruence.
Qed.
End execution.

(** ** Properties *)

(** A fingerprint names one target and one content: if two hosts, whatever
    the order of strings in their locales, accept two bindings for two targets
    under one fingerprint, then plugin, component, target and executor are the
    same and so is every setting, grant, definition and capability of the two
    contents, unless SHA-256 collides. *)
Theorem fingerprint_binds number_text sha256 ajv (localeCompare localeCompare' : jstring → jstring → Z)
    identity identity' b b' x y :
  number_text_ok number_text →
  assertExecutionBindingMatches number_text sha256 localeCompare ajv identity b = Ok x →
  assertExecutionBindingMatches number_text sha256 localeCompare' ajv identity' b' = Ok y →
  xb_fingerprint b = xb_fingerprint b' →
  (identity = identity' ∧
   ∃ c c', normalizeExecutionBindingContent number_text localeCompare ajv (xb_content b) = Ok c ∧
           normalizeExecutionBindingContent number_text localeCompare' ajv (xb_content b') = Ok c' ∧
           serialize (content_json c) = serialize (content_json c')) ∨
  collision sha256.
Proof.
  intros Htext H H' E. unfold assertExecutionBindingMatches in H, H'.
  apply bind_ok in H as (b1 & [-> Hb]%parse_data & H). apply bind_ok in H' as (b2 & [-> Hb']%parse_data & H').
  apply bind_ok in H as (c & Hc & H). apply bind_ok in H' as (c' & Hc' & H').
  apply bind_ok in H as (? & H%throw_if_ok & _). apply bind_ok in H' as (? & H'%throw_if_ok & _).
  apply negb_false_iff, streq_true in H, H'. rewrite H, H' in E. unfold executionBindingFingerprint in E.
  destruct (decide (canonical number_text (fingerprint_json identity c) =
                    canonical number_text (fingerprint_json identity' c'))) as [Et|Et];
    [left|right; by eexists _, _].
  apply fingerprint_text_inj in Et as [-> Et]; [|done|by eapply normalize_data..].
  split; [done|]. by exists c, c'.
Qed.

(** A sample target and binding. *)
Definition sample_target : TaskExecutionTarget :=
  {| tg_instanceId := js "instance-1"; tg_deploymentGeneration := js "3";
     tg_artifactDigest := js "sha256:" ++ repeat 97%N 64;
     tg_executor := {| tx_id := js "worker/a"; tx_type := Remote; tx_workerId := Some (js "a") |} |}.
Definition sample_identity : ExecutionBindingIdentity :=
  {| xi_applicationId := js "app"; xi_pluginId := js "plugin"; xi_componentId := js "main";
     xi_target := sample_target |}.
Definition sample_content : ExecutionBindingContent :=
  {| xc_configuration := JObj [(js "b", JNum (NInt 2)); (js "a", JNum (NFrac 1 1))];
     xc_permissionGrants :=
       [JObj [(js "kind", JStr (js "secret")); (js "names", JArr [JStr (js "z"); JStr (js "a")])]];
     xc_capabilityDefinitions := []; xc_capabilityBindings := [] |}.
Definition sample_bound : result exn ExecutionBinding :=
  createExecutionBinding plain_number (λ t, t) compareText (λ _ _, true) sample_identity sample_content.
Definition sample_binding : ExecutionBinding :=
  match sample_bound with Ok b => b | Err _ => {| xb_content := sample_content; xb_fingerprint := [] |} end.

Example sample_binding_created : sample_bound = Ok sample_binding.
Proof. vm_compute. reflexivity. Qed.

Example sample_target_parsed : parseTaskExecutionTarget (target_json sample_target) = Ok sample_target.
Proof. vm_compute. reflexivity. Qed.

Lemma fingerprint_binds_witness :
  number_text_ok plain_number ∧
  ((sample_identity = sample_identity ∧
   ∃ c c', normalizeExecutionBindingContent plain_number compareText (λ _ _, true) (xb_content sample_binding) = Ok c ∧
           normalizeExecutionBindingContent plain_number compareText (λ _ _, true) (xb_content sample_binding) = Ok c' ∧
           serialize (content_json c) = serialize (content_json c')) ∨
  collision (λ t, t)).
Proof.
  split; [exact plain_number_ok|].
  apply (fingerprint_binds plain_number (λ t, t) (λ _ _, true) compareText compareText
    sample_identity sample_identity sample_binding sample_binding sample_binding sample_binding).
  - exact plain_number_ok.
  - vm_compute. reflexivity.
  - vm_compute. reflexivity.
  - reflexivity.
Defined.

(** ** The order of the locale

    The order of strings is that of the host: the Lithuanian collation sorts y
    among i. *)
Definition lithuanian (a b : jstring) : Z :=
  let key s := map (λ c, if (c =? 121)%N then 105%N else c) s in
  or_else (compareText (key a) (key b)) (compareText a b).
Definition two_roots : ExecutionBindingContent :=
  {| xc_configuration := JNull;
     xc_permissionGrants :=
       [JObj [(js "kind", JStr (js "filesystem"));
              (js "roots", JArr [JObj [(js "path", JStr (js "/j")); (js "access", JArr [JStr (js "read")])];
                                 JObj [(js "path", JStr (js "/y")); (js "access", JArr [JStr (js "read")])]])]];
     xc_capabilityDefinitions := []; xc_capabilityBindings := [] |}.

(** A binding made on one host is refused on a host with another locale, unless
    SHA-256 collides. *)
Theorem binding_depends_on_locale (sha256 : jstring → jstring) b :
  createExecutionBinding plain_number sha256 compareText (λ _ _, true) sample_identity two_roots = Ok b →
  is_ok (assertExecutionBindingMatches plain_number sha256 lithuanian (λ _ _, true) sample_identity b) = true →
  collision sha256.
Proof.
  intros Hb [b' H]%is_ok_true. unfold assertExecutionBindingMatches in H. unfold createExecutionBinding in Hb.
  change (parseBindingIdentity sample_identity) with (Ok sample_identity : result exn _) in Hb.
  cbn -[executionBindingFingerprint] in Hb. injection Hb as <-.
  apply bind_ok in H as (b1 & [-> _]%parse_data & H). apply bind_ok in H as (c & Hc & H).
  apply bind_ok in H as (u & H%throw_if_ok & _). apply negb_false_iff, streq_true in H.
  eexists _, _. split; [|exact H]. injection Hc as <-. by vm_compute.
Qed.
