(* ===== verification/Codec.v ===== *)
(** * Worker frames

    transport-websocket/src/codec.ts: control frames are the JSON text of an
    envelope, binary frames a header of 16 bytes, the identity of the message
    they belong to and a chunk. The envelope is contracts/src/worker.ts, its
    schema that of contracts/src/schema.ts; the format [date-time], which
    ajv-formats checks, is a parameter. *)

From S2P Require Import Prelude JsString Collections Regex JsValue Identity JsonText Canonical JsonParse Execution Bytes Wire.

Open Scope Z_scope.

Definition BINARY_HEADER_BYTES : Z := 16.
Definition BINARY_MAGIC : N := 84.
Definition BINARY_VERSION : N := 1.

(** ** Limits *)
Record WorkerProtocolLimits := {
  maxFrameBytes : Z;
  maxBinaryBytes : Z;
  maxBinaryChunks : Z;
  maxPendingCorrelations : Z;
  maxInflightMessages : Z;
  maxSequenceGap : Z;
  replayRetention : Z;
}.
Definition DEFAULT_WORKER_PROTOCOL_LIMITS : WorkerProtocolLimits := {|
  maxFrameBytes := 64 * 1024;
  maxBinaryBytes := 8 * 1024 * 1024;
  maxBinaryChunks := 256;
  maxPendingCorrelations := 32;
  maxInflightMessages := 128;
  maxSequenceGap := 32;
  replayRetention := 1024;
|}.
Record WorkerProtocolLimitOverrides := {
  o_maxFrameBytes : option jsnum;
  o_maxBinaryBytes : option jsnum;
  o_maxBinaryChunks : option jsnum;
  o_maxPendingCorrelations : option jsnum;
  o_maxInflightMessages : option jsnum;
  o_maxSequenceGap : option jsnum;
  o_replayRetention : option jsnum;
}.

(** [positiveInteger] of codec.ts, [positiveDuration] of session.ts. *)
Definition positiveInteger (value : jsnum) : result exn Z :=
  match safe_integer value with
  | Some z => if z <=? 0 then Err RangeError else Ok z
  | None => Err RangeError
  end.
Definition positive_or (value : option jsnum) (fallback : Z) : result exn Z :=
  positiveInteger (default (NInt fallback) value).
Definition normalizeLimits (o : WorkerProtocolLimitOverrides) : result exn WorkerProtocolLimits :=
  let d := DEFAULT_WORKER_PROTOCOL_LIMITS in
  frame ← positive_or (o_maxFrameBytes o) (maxFrameBytes d);
  binary ← positive_or (o_maxBinaryBytes o) (maxBinaryBytes d);
  chunks ← positive_or (o_maxBinaryChunks o) (maxBinaryChunks d);
  correlations ← positive_or (o_maxPendingCorrelations o) (maxPendingCorrelations d);
  inflight ← positive_or (o_maxInflightMessages o) (maxInflightMessages d);
  gap ← positive_or (o_maxSequenceGap o) (maxSequenceGap d);
  retention ← positive_or (o_replayRetention o) (replayRetention d);
  Ok {| maxFrameBytes := frame; maxBinaryBytes := binary; maxBinaryChunks := chunks;
        maxPendingCorrelations := correlations; maxInflightMessages := inflight; maxSequenceGap := gap;
        replayRetention := retention |}.

(** ** Envelopes *)
Inductive WorkerMessageType :=
| artifact_prepare | artifact_prepared | authenticate | capability_invoke | component_activate
| component_activated | component_drain | component_stop | heartbeat | hello | session_ready
| session_reconcile | task_acknowledge | task_assign | task_cancel | task_result | worker_register.
#[export] Instance message_type_eq : EqDecision WorkerMessageType.
Proof. solve_decision. Defined.

Definition type_text (t : WorkerMessageType) : jstring :=
  match t with
  | artifact_prepare => js "artifact.prepare" | artifact_prepared => js "artifact.prepared"
  | authenticate => js "authenticate" | capability_invoke => js "capability.invoke"
  | component_activate => js "component.activate" | component_activated => js "component.activated"
  | component_drain => js "component.drain" | component_stop => js "component.stop"
  | heartbeat => js "heartbeat" | hello => js "hello" | session_ready => js "session.ready"
  | session_reconcile => js "session.reconcile" | task_acknowledge => js "task.acknowledge"
  | task_assign => js "task.assign" | task_cancel => js "task.cancel" | task_result => js "task.result"
  | worker_register => js "worker.register"
  end.
Definition message_types : list WorkerMessageType :=
  [artifact_prepare; artifact_prepared; authenticate; capability_invoke; component_activate;
   component_activated; component_drain; component_stop; heartbeat; hello; session_ready;
   session_reconcile; task_acknowledge; task_assign; task_cancel; task_result; worker_register].
Definition type_of_text (s : jstring) : option WorkerMessageType := List.find (λ t, streq (type_text t) s) message_types.

Record WorkerEnvelope := {
  we_messageId : jstring;
  we_sessionId : jstring;
  we_sequence : jstring;
  we_correlationId : jstring;
  we_type : WorkerMessageType;
  we_sentAt : jstring;
  we_payload : json;
  we_binaryBytes : option Z;
  we_binaryChunks : option Z;
}.

(** The object of an envelope, in the order [sendEnvelope] writes it. *)
Definition optional_field (key : jstring) (v : option Z) : list (jstring * json) :=
  match v with Some z => [(key, JNum (NInt z))] | None => [] end.
Definition envelope_fields (e : WorkerEnvelope) : list (jstring * json) :=
  [(js "protocol", JStr (js "1.0")); (js "messageId", JStr (we_messageId e)); (js "sessionId", JStr (we_sessionId e));
   (js "sequence", JStr (we_sequence e)); (js "correlationId", JStr (we_correlationId e));
   (js "type", JStr (type_text (we_type e))); (js "sentAt", JStr (we_sentAt e)); (js "payload", we_payload e)] ++
  optional_field (js "binaryBytes") (we_binaryBytes e) ++ optional_field (js "binaryChunks") (we_binaryChunks e).
Definition envelope_json (e : WorkerEnvelope) : json := JObj (envelope_fields e).

Definition envelope_keys : list jstring :=
  [js "protocol"; js "messageId"; js "sessionId"; js "sequence"; js "correlationId"; js "type"; js "sentAt";
   js "payload"; js "binaryBytes"; js "binaryChunks"].

Record WorkerBinaryChunk := {
  wb_correlationId : jstring;
  wb_chunkIndex : Z;
  wb_totalChunks : Z;
  wb_payload : bytes;
}.

Definition ENVELOPE_INVALID : exn := DiagnosticError "WORKER_ENVELOPE_INVALID".
Definition BINARY_INVALID : exn := DiagnosticError "PROTOCOL_BINARY_INVALID".
Definition FRAME_TOO_LARGE : exn := DiagnosticError "PROTOCOL_FRAME_TOO_LARGE".

Section codec.
Context (number_text : jsnum → jstring) (number_of : jstring → jsnum).
Context (date_time : jstring → bool).

(** ** The schema *)
Definition string_of (j : json) : option jstring := match j with JStr s => Some s | _ => None end.
Definition pattern (p : jstring → bool) (j : json) : option jstring := s ← string_of j; if p s then Some s else None.
Definition identity_field (j : json) : option jstring := pattern (re_test IDENTITY_PATTERN) j.
(** An optional integer of at least [minimum]. *)
Definition count_field (minimum : Z) (j : option json) : option (option Z) :=
  match j with
  | None => Some None
  | Some (JNum (NInt z)) => if minimum <=? z then Some (Some z) else None
  | Some _ => None
  end.

(** The worker-envelope schema, and the envelope it accepts. *)
Definition envelope_schema (j : json) : option WorkerEnvelope :=
  match j with
  | JObj fields =>
      if negb (forallb (λ f, includes envelope_keys f.1) fields) then None
      else
        protocol ← JsMap.get fields (js "protocol") ≫= pattern (streq (js "1.0"));
        messageId ← JsMap.get fields (js "messageId") ≫= identity_field;
        sessionId ← JsMap.get fields (js "sessionId") ≫= identity_field;
        sequence ← JsMap.get fields (js "sequence") ≫= pattern (re_test DECIMAL_PATTERN);
        correlationId ← JsMap.get fields (js "correlationId") ≫= identity_field;
        type ← (JsMap.get fields (js "type") ≫= string_of) ≫= type_of_text;
        sentAt ← JsMap.get fields (js "sentAt") ≫= pattern date_time;
        payload ← JsMap.get fields (js "payload");
        binaryBytes ← count_field 0 (JsMap.get fields (js "binaryBytes"));
        binaryChunks ← count_field 1 (JsMap.get fields (js "binaryChunks"));
        if negb (bool_decide (is_Some binaryBytes ↔ is_Some binaryChunks)) then None
        else
            Some {| we_messageId := messageId; we_sessionId := sessionId; we_sequence := sequence;
                    we_correlationId := correlationId; we_type := type; we_sentAt := sentAt; we_payload := payload;
                    we_binaryBytes := binaryBytes; we_binaryChunks := binaryChunks |}
  | _ => None
  end.

(** [field(input, "protocol")] is [undefined] or 1.0 where [validateControl]
    calls it. *)
Definition parseWorkerEnvelope (input : json) : result exn WorkerEnvelope :=
  match input with
  | JObj fields =>
      match JsMap.get fields (js "protocol") with
      | Some p => throw_if (negb (bool_decide (string_of p = Some (js "1.0")))) (DiagnosticError "WORKER_PROTOCOL_UNSUPPORTED")
      | None => Ok tt
      end
  | _ => Ok tt
  end;;
  throw_if (negb (isJsonData input)) ENVELOPE_INVALID;;
  match envelope_schema input with Some e => Ok e | None => Err ENVELOPE_INVALID end.

(** ** Control frames *)
Context (limits : WorkerProtocolLimits).

Definition asRecord (value : json) : result exn (list (jstring * json)) :=
  match value with JObj fields => Ok fields | _ => Err (DiagnosticError "PROTOCOL_ENVELOPE_INVALID") end.

Definition binary_within (e : WorkerEnvelope) : bool :=
  match we_binaryBytes e with
  | Some b =>
      negb ((maxBinaryBytes limits <? b) ||
            match we_binaryChunks e with Some c => maxBinaryChunks limits <? c | None => true end)
  | None => true
  end.
Definition validateControl (value : json) : result exn WorkerEnvelope :=
  record ← asRecord value;
  throw_if (negb (bool_decide (JsMap.get record (js "protocol") ≫= string_of = Some (js "1.0"))))
    (DiagnosticError "PROTOCOL_VERSION_UNSUPPORTED");;
  envelope ← parseWorkerEnvelope (JObj record);
  throw_if (negb (binary_within envelope)) (DiagnosticError "PROTOCOL_BINARY_LIMIT_EXCEEDED");;
  Ok envelope.

Definition encodeControl (envelope : WorkerEnvelope) : result exn jstring :=
  _ ← validateControl (envelope_json envelope);
  let encoded := stringify number_text (envelope_json envelope) in
  throw_if (maxFrameBytes limits <? utf8_length encoded) FRAME_TOO_LARGE;;
  Ok encoded.
Definition decodeControl (frame : jstring) : result exn WorkerEnvelope :=
  throw_if (maxFrameBytes limits <? utf8_length frame) FRAME_TOO_LARGE;;
  match JSON_parse number_of frame with
  | Some decoded => validateControl decoded
  | None => Err (DiagnosticError "PROTOCOL_JSON_INVALID")
  end.

(** ** Binary frames *)
Definition byteLength (b : bytes) : Z := Z.of_nat (length b).

Definition encodeBinary (chunk : WorkerBinaryChunk) : result exn bytes :=
  let correlation := utf8_encode (wb_correlationId chunk) in
  _ ← parseMessageId (VStr (wb_correlationId chunk));
  throw_if ((byteLength correlation =? 0) || (65535 <? byteLength correlation) ||
            negb (isSafeInteger (wb_chunkIndex chunk)) || (wb_chunkIndex chunk <? 0) ||
            negb (isSafeInteger (wb_totalChunks chunk)) || (wb_totalChunks chunk <=? 0) ||
            (maxBinaryChunks limits <? wb_totalChunks chunk) || (wb_totalChunks chunk <=? wb_chunkIndex chunk) ||
            (maxBinaryBytes limits <? byteLength (wb_payload chunk))) BINARY_INVALID;;
  throw_if (maxFrameBytes limits <? BINARY_HEADER_BYTES + byteLength correlation + byteLength (wb_payload chunk)) FRAME_TOO_LARGE;;
  Ok ([BINARY_MAGIC; BINARY_VERSION] ++ put_uint 2 (Z.to_N (byteLength correlation)) ++
      put_uint 4 (Z.to_N (wb_chunkIndex chunk)) ++ put_uint 4 (Z.to_N (wb_totalChunks chunk)) ++
      put_uint 4 (Z.to_N (byteLength (wb_payload chunk))) ++ correlation ++ wb_payload chunk).

Definition uint_at (offset width : nat) (frame : bytes) : Z := Z.of_N (get_uint (take width (drop offset frame))).

Definition decodeBinary (frame : bytes) : result exn WorkerBinaryChunk :=
  throw_if (maxFrameBytes limits <? byteLength frame) FRAME_TOO_LARGE;;
  throw_if (byteLength frame <? BINARY_HEADER_BYTES) BINARY_INVALID;;
  throw_if (negb (bool_decide (frame !! 0%nat = Some BINARY_MAGIC)) || negb (bool_decide (frame !! 1%nat = Some BINARY_VERSION)))
    BINARY_INVALID;;
  let correlationBytes := uint_at 2 2 frame in
  let chunkIndex := uint_at 4 4 frame in
  let totalChunks := uint_at 8 4 frame in
  let payloadBytes := uint_at 12 4 frame in
  throw_if ((correlationBytes =? 0) || (totalChunks =? 0) || (maxBinaryChunks limits <? totalChunks) ||
            (totalChunks <=? chunkIndex) || (maxBinaryBytes limits <? payloadBytes) ||
            negb (BINARY_HEADER_BYTES + correlationBytes + payloadBytes =? byteLength frame)) BINARY_INVALID;;
  correlationId ← match utf8_decode (take (Z.to_nat correlationBytes) (drop 16 frame)) with
                  | Some s => Ok s | None => Err BINARY_INVALID end;
  _ ← parseMessageId (VStr correlationId);
  Ok {| wb_correlationId := correlationId; wb_chunkIndex := chunkIndex; wb_totalChunks := totalChunks;
        wb_payload := drop (16 + Z.to_nat correlationBytes) frame |}.
End codec.

(** ** What is encoded is decoded *)
Lemma positive_or_pos o f z : positive_or o f = Ok z → 0 < z.
Proof.
  unfold positive_or, positiveInteger. destruct (safe_integer _) as [y|]; [|done].
  destruct (Z.leb_spec y 0); [done|]. by intros [= <-].
Qed.

(** The limits of a codec are positive. *)
Record limits_ok (l : WorkerProtocolLimits) : Prop := {
  lk_frame : 0 < maxFrameBytes l;
  lk_binary : 0 < maxBinaryBytes l;
  lk_chunks : 0 < maxBinaryChunks l;
  lk_correlations : 0 < maxPendingCorrelations l;
  lk_inflight : 0 < maxInflightMessages l;
  lk_gap : 0 < maxSequenceGap l;
  lk_retention : 0 < replayRetention l;
}.
Lemma normalizeLimits_ok o l : normalizeLimits o = Ok l → limits_ok l.
Proof.
  unfold normalizeLimits. intros H. inv_ok H. subst l.
  repeat match goal with H : positive_or _ _ = Ok _ |- _ => apply positive_or_pos in H end. done.
Qed.

Lemma type_of_type_text t : type_of_text (type_text t) = Some t.
Proof. by destruct t. Qed.
Lemma type_of_text_some s t : type_of_text s = Some t → type_text t = s.
Proof. intros [_ H%streq_true]%find_some_in. done. Qed.

Lemma data_owned j : data j → data (owned j).
Proof.
  induction (Nat.lt_wf_0_projected json_size j) as [j _ IH]. intros Hj. destruct j as [| | | |items|fields]; try done; cbn [owned].
  - apply data_arr. apply data_arr in Hj. rewrite Forall_forall in Hj. apply Forall_map, Forall_forall.
    intros x Hx. apply IH; [|by apply Hj]. pose proof (sum_list_map_le json_size _ _ Hx). simpl. lia.
  - apply data_obj. apply data_obj in Hj. rewrite Forall_forall in Hj. rewrite own_order_perm. apply Forall_map, Forall_forall.
    intros f Hf. cbn. apply IH; [|by apply Hj]. pose proof (sum_list_map_le (λ f, json_size f.2) _ _ Hf). simpl in *. lia.
Qed.
(** An envelope as the receiver has it. *)
Definition received (e : WorkerEnvelope) : WorkerEnvelope := {|
  we_messageId := we_messageId e; we_sessionId := we_sessionId e; we_sequence := we_sequence e;
  we_correlationId := we_correlationId e; we_type := we_type e; we_sentAt := we_sentAt e;
  we_payload := owned (we_payload e); we_binaryBytes := we_binaryBytes e; we_binaryChunks := we_binaryChunks e |}.

(** What [encodeControl] asks of an envelope before it prints it. *)
Record envelope_ok (date_time : jstring → bool) (limits : WorkerProtocolLimits) (e : WorkerEnvelope) : Prop := {
  ek_message : re_test IDENTITY_PATTERN (we_messageId e) = true;
  ek_session : re_test IDENTITY_PATTERN (we_sessionId e) = true;
  ek_sequence : re_test DECIMAL_PATTERN (we_sequence e) = true;
  ek_correlation : re_test IDENTITY_PATTERN (we_correlationId e) = true;
  ek_sentAt : date_time (we_sentAt e) = true;
  ek_payload : data (we_payload e);
  ek_binary :
    match we_binaryBytes e, we_binaryChunks e with
    | None, None => True
    | Some b, Some c => 0 ≤ b ≤ maxBinaryBytes limits ∧ 1 ≤ c ≤ maxBinaryChunks limits
    | _, _ => False
    end;
}.

Section laws.
Context (number_text : jsnum → jstring) (number_of : jstring → jsnum).
Context (date_time : jstring → bool) (limits : WorkerProtocolLimits).
Abbreviation validateControl := (validateControl date_time limits).
Abbreviation encodeControl := (encodeControl number_text date_time limits).
Abbreviation decodeControl := (decodeControl number_of date_time limits).

Lemma envelope_data e : data (envelope_json e) ↔ data (we_payload e).
Proof.
  unfold envelope_json. rewrite data_obj. unfold envelope_fields. rewrite Forall_app, !Forall_cons, Forall_app. cbn [snd].
  assert (∀ s, data (JStr s)) as Hs by (intros s; by eexists).
  assert (∀ k o, Forall (λ f : jstring * json, data f.2) (optional_field k o)) as Ho
    by (intros k [z|]; repeat constructor; by eexists).
  split; [naive_solver|]. intros H. pose proof (Forall_nil_2 (λ f : jstring * json, data f.2)). naive_solver.
Qed.

Lemma pattern_str p s : pattern p (JStr s) = if p s then Some s else None.
Proof. done. Qed.
Lemma pattern_some p j s : pattern p j = Some s → j = JStr s ∧ p s = true.
Proof. unfold pattern. destruct j; try done. cbn. case_match; [|done]. by intros [= <-]. Qed.

Lemma envelope_get e :
  JsMap.get (envelope_fields e) (js "protocol") = Some (JStr (js "1.0")) ∧
  JsMap.get (envelope_fields e) (js "messageId") = Some (JStr (we_messageId e)) ∧
  JsMap.get (envelope_fields e) (js "sessionId") = Some (JStr (we_sessionId e)) ∧
  JsMap.get (envelope_fields e) (js "sequence") = Some (JStr (we_sequence e)) ∧
  JsMap.get (envelope_fields e) (js "correlationId") = Some (JStr (we_correlationId e)) ∧
  JsMap.get (envelope_fields e) (js "type") = Some (JStr (type_text (we_type e))) ∧
  JsMap.get (envelope_fields e) (js "sentAt") = Some (JStr (we_sentAt e)) ∧
  JsMap.get (envelope_fields e) (js "payload") = Some (we_payload e) ∧
  JsMap.get (envelope_fields e) (js "binaryBytes") = (λ z, JNum (NInt z)) <$> we_binaryBytes e ∧
  JsMap.get (envelope_fields e) (js "binaryChunks") = (λ z, JNum (NInt z)) <$> we_binaryChunks e.
Proof. destruct e as [mid sid seq cid t at_ pl [b|] [c|]]; split_and!; reflexivity. Qed.

Lemma envelope_known e : forallb (λ f, includes envelope_keys f.1) (envelope_fields e) = true.
Proof. destruct e as [mid sid seq cid t at_ pl [b|] [c|]]; reflexivity. Qed.

Lemma count_field_int m o : count_field m ((λ z, JNum (NInt z)) <$> o) =
  match o with None => Some None | Some z => if m <=? z then Some (Some z) else None end.
Proof. by destruct o. Qed.

Lemma schema_envelope e :
  envelope_schema date_time (envelope_json e) =
  if re_test IDENTITY_PATTERN (we_messageId e) && re_test IDENTITY_PATTERN (we_sessionId e) &&
     re_test DECIMAL_PATTERN (we_sequence e) && re_test IDENTITY_PATTERN (we_correlationId e) && date_time (we_sentAt e) &&
     match we_binaryBytes e, we_binaryChunks e with None, None => true | Some b, Some c => (0 <=? b) && (1 <=? c) | _, _ => false end
  then Some e else None.
Proof.
  destruct (envelope_get e) as (E1 & E2 & E3 & E4 & E5 & E6 & E7 & E8 & E9 & E10).
  unfold envelope_schema, envelope_json. rewrite envelope_known, E1, E2, E3, E4, E5, E6, E7, E8, E9, E10. cbn [negb mbind option_bind].
  unfold identity_field. rewrite !pattern_str. cbn [string_of]. change (streq (js "1.0") (js "1.0")) with true. cbn [mbind option_bind].
  destruct (re_test IDENTITY_PATTERN (we_messageId e)); [|done].
  destruct (re_test IDENTITY_PATTERN (we_sessionId e)); [|done].
  destruct (re_test DECIMAL_PATTERN (we_sequence e)); [|done].
  destruct (re_test IDENTITY_PATTERN (we_correlationId e)); [|done]. cbn [mbind option_bind andb]. rewrite type_of_type_text.
  cbn [mbind option_bind]. destruct (date_time (we_sentAt e)); [|done]. cbn [mbind option_bind andb].
  rewrite !count_field_int. clear. destruct e as [mid sid seq cid t at_ pl [b|] [c|]]; cbn; try done.
  - destruct (0 <=? b); [|done]. cbn. destruct (1 <=? c); [|done]. cbn. done.
  - by destruct (0 <=? b).
  - by destruct (1 <=? c).
Qed.

(** [validateControl] accepts the object of an envelope exactly when its fields
    are in order. *)
Lemma validate_envelope e e' : validateControl (envelope_json e) = Ok e' ↔ e' = e ∧ envelope_ok date_time limits e.
Proof.
  unfold Codec.validateControl, parseWorkerEnvelope. unfold envelope_json at 1. cbn [asRecord].
  rewrite bind_ok_l. destruct (envelope_get e) as (E1 & _). rewrite E1. cbn [mbind option_bind string_of].
  rewrite bool_decide_true by done. cbn [negb throw_if]. rewrite !bind_ok_l.
  change (JObj (envelope_fields e)) with (envelope_json e). rewrite schema_envelope. split.
  - intros H. inv_ok H. destruct (isJsonData (envelope_json e)) eqn:Ed; [|done].
    apply isJsonData_data, envelope_data in Ed.
    match goal with H : (if ?b then Some e else None) = _ |- _ => idtac | H : match (if ?b then Some e else None) with _ => _ end = _ |- _ => destruct b eqn:E; [|done]; injection H as <- end.
    subst e'. split; [done|]. to_prop. destruct e as [mid sid seq cid t at_ pl bb bc]. cbn in *.
    split; cbn; try done. unfold binary_within in *. cbn in *.
    destruct bb as [b|], bc as [c|]; try done. to_prop. lia.
  - intros [-> []]. assert (isJsonData (envelope_json e) = true) as -> by (by apply isJsonData_data, envelope_data).
    cbn [negb throw_if]. rewrite bind_ok_l. rewrite ek_message0, ek_session0, ek_sequence0, ek_correlation0, ek_sentAt0. cbn [andb].
    unfold binary_within. destruct (we_binaryBytes e) as [b|] eqn:Eb, (we_binaryChunks e) as [c|] eqn:Ec; try done.
    + destruct ek_binary0 as ((? & ?) & ? & ?).
      rewrite (proj2 (Z.leb_le 0 b)), (proj2 (Z.leb_le 1 c)) by done. cbn [andb]. rewrite bind_ok_l, Eb, Ec.
      rewrite (proj2 (Z.ltb_ge _ _)), (proj2 (Z.ltb_ge _ _)) by done. done.
    + by rewrite bind_ok_l, Eb.
Qed.

Lemma owned_envelope e : owned (envelope_json e) = envelope_json (received e).
Proof. destruct e as [mid sid seq cid t at_ pl [b|] [c|]]; reflexivity. Qed.

Lemma received_ok e : envelope_ok date_time limits e → envelope_ok date_time limits (received e).
Proof. intros []. split; try done. by apply data_owned. Qed.

Lemma envelope_keyed e : keyed (envelope_json e) = keyed (we_payload e).
Proof.
  destruct e as [mid sid seq cid t at_ pl [b|] [c|]]; cbn [keyed envelope_json];
    (rewrite bool_decide_true by (apply (bool_decide_unpack _); vm_compute; exact I)); cbn; by rewrite ?andb_true_r.
Qed.

(** A control frame that one end encodes is the other end's envelope. *)
Lemma control_decodes e s :
  number_codec number_text number_of → keyed (we_payload e) = true →
  encodeControl e = Ok s → decodeControl s = Ok (received e).
Proof.
  intros Hn Hk H. unfold Codec.encodeControl in H. remember (stringify number_text (envelope_json e)) as text eqn:Et. inv_ok H. subst s.
  apply validate_envelope in Ha as [-> Hok]. unfold Codec.decodeControl.
  rewrite Ha0. cbn [throw_if]. rewrite bind_ok_l.
  rewrite Et, (JSON_parse_print _ _ Hn); [|by apply envelope_data, Hok|by rewrite envelope_keyed].
  rewrite owned_envelope. by apply validate_envelope, conj, received_ok.
Qed.

(** What is decoded has its fields in order. *)
Lemma schema_ok j e : envelope_schema date_time j = Some e →
  re_test IDENTITY_PATTERN (we_messageId e) = true ∧ re_test IDENTITY_PATTERN (we_sessionId e) = true ∧
  re_test DECIMAL_PATTERN (we_sequence e) = true ∧ re_test IDENTITY_PATTERN (we_correlationId e) = true ∧
  date_time (we_sentAt e) = true ∧
  match we_binaryBytes e, we_binaryChunks e with None, None => True | Some b, Some c => 0 <= b ∧ 1 <= c | _, _ => False end ∧
  ∃ fields, j = JObj fields ∧ JsMap.get fields (js "payload") = Some (we_payload e).
Proof.
  destruct j as [| | | | |fields]; try done. unfold envelope_schema. destruct (negb _); [done|].
  intros (p & _ & (mid & (? & _ & [_ Hm]%pattern_some)%bind_Some & (sid & (? & _ & [_ Hs]%pattern_some)%bind_Some &
    (seq & (? & _ & [_ Hq]%pattern_some)%bind_Some & (cid & (? & _ & [_ Hc]%pattern_some)%bind_Some &
    (t & _ & (at_ & (? & _ & [_ Ht]%pattern_some)%bind_Some & (pl & Hp & (bb & Hb & (bc & Hbc & H)%bind_Some)%bind_Some)%bind_Some)%bind_Some)%bind_Some)%bind_Some)%bind_Some)%bind_Some)%bind_Some)%bind_Some.
  destruct (bool_decide (is_Some bb ↔ is_Some bc)) eqn:Hd; cbn [negb] in H; [|done].
  apply bool_decide_eq_true in Hd. injection H as <-. cbn.
  split_and!; try done; [|eauto].
  assert (∀ m o v, count_field m o = Some v → match v with Some z => m <= z | None => True end) as Hcount.
  { intros m [[| |[z| | |] | | |]|] v H; cbn in H; try done.
    - destruct (Z.leb_spec m z); [|done]. by injection H as <-.
    - by injection H as <-. }
  apply Hcount in Hb, Hbc. destruct bb as [b|], bc as [c|]; try done; [naive_solver..].
Qed.

Lemma decodeControl_ok s e : decodeControl s = Ok e → envelope_ok date_time limits e.
Proof.
  unfold Codec.decodeControl. intros H. inv_ok H. destruct (JSON_parse number_of s) as [j|]; [|done].
  unfold Codec.validateControl in H. inv_ok H. subst. destruct j as [| | | | |fields]; try done. cbn in Ha0. injection Ha0 as <-.
  unfold parseWorkerEnvelope in Ha2. rename Ha2 into Hp. inv_ok Hp.
  match goal with H : negb (isJsonData _) = false |- _ => apply negb_false_iff, isJsonData_data in H; rename H into Hdata end.
  destruct (envelope_schema date_time (JObj fields)) as [e'|] eqn:E; [|done]. injection Hp as ->.
  apply schema_ok in E as (? & ? & ? & ? & ? & Hb & fields' & [= <-] & Hpl). split; try done.
  - apply JsMap.get_in in Hpl. apply data_obj in Hdata. rewrite Forall_forall in Hdata. by apply (Hdata (js "payload", we_payload e)).
  - unfold binary_within in *. destruct (we_binaryBytes e), (we_binaryChunks e); try done. to_prop. lia.
Qed.
End laws.

(** ** Binary frames *)
Lemma Ok_inj {E A} (x y : A) : (Ok x : result E A) = Ok y → x = y.
Proof. by injection 1. Qed.

Lemma identity_plain s : re_test IDENTITY_PATTERN s = true → Forall (λ c, (c < 128)%N) s ∧ s ≠ [] ∧ (length s ≤ 128)%nat.
Proof.
  intros (c & t & -> & Hc & Hl & Ht)%IDENTITY_PATTERN_spec. split_and!; [|done|simpl; lia].
  assert (∀ c, is_alnum c = true → (c < 128)%N) as Ha.
  { intros x. unfold is_alnum, is_digit, is_upper, is_lower. intros H. to_prop. repeat (destruct H as [H|H]; to_prop); lia. }
  constructor; [by apply Ha|]. eapply Forall_impl; [exact Ht|]. intros x Hx. unfold portable_char in Hx.
  apply orb_true_iff in Hx as [[[Hx|Hx]%orb_true_iff|Hx]%orb_true_iff|Hx]; [by apply Ha|apply N.eqb_eq in Hx; lia..].
Qed.

Lemma encode_plain s : Forall (λ c, (c < 128)%N) s → utf8_encode s = s.
Proof.
  unfold utf8_encode. intros Hs. induction Hs as [|c s Hc Hs IH]; [done|].
  assert (points (c :: s) = c :: points s) as ->.
  { assert (is_high c = false) as Hh by (unfold is_high; lia). assert (is_low c = false) as Hl by (unfold is_low; lia).
    destruct s as [|d s]; cbn [points]; by rewrite Hh, ?Hl. }
  cbn [map concat]. rewrite IH. unfold encode_point. by rewrite (proj2 (N.ltb_lt c 128)).
Qed.

Lemma decode_plain s : re_test IDENTITY_PATTERN s = true → utf8_decode s = Some s.
Proof.
  intros H. pose proof (identity_plain s H) as (Hs & Hne & _). rewrite <- (encode_plain s Hs) at 1.
  apply utf8_decode_encode; [by apply well_formed_plain|]. destruct Hs; [done|]. cbn. intros [= ->]. lia.
Qed.

Lemma uint_at_mid pre mid post : uint_at (length pre) (length mid) (pre ++ mid ++ post) = Z.of_N (get_uint mid).
Proof. unfold uint_at. by rewrite drop_app_length, take_app_length. Qed.

Lemma uint_at_put pre width n post : (n < 256 ^ N.of_nat width)%N →
  uint_at (length pre) width (pre ++ put_uint width n ++ post) = Z.of_N n.
Proof. intros Hn. rewrite <- (length_put_uint width n) at 1. by rewrite uint_at_mid, get_put. Qed.

Definition binary_header (id : bytes) (index total size : Z) : bytes :=
  [BINARY_MAGIC; BINARY_VERSION] ++ put_uint 2 (Z.to_N (byteLength id)) ++ put_uint 4 (Z.to_N index) ++
  put_uint 4 (Z.to_N total) ++ put_uint 4 (Z.to_N size).

Lemma header_fields id index total size rest :
  0 <= byteLength id < 65536 → 0 <= index < 2 ^ 32 → 0 <= total < 2 ^ 32 → 0 <= size < 2 ^ 32 →
  let frame := binary_header id index total size ++ rest in
  uint_at 2 2 frame = byteLength id ∧ uint_at 4 4 frame = index ∧ uint_at 8 4 frame = total ∧ uint_at 12 4 frame = size.
Proof.
  intros Hid Hi Ht Hs frame. unfold frame, binary_header. rewrite <- !app_assoc.
  set (a := put_uint 2 _). set (b := put_uint 4 (Z.to_N index)). set (c := put_uint 4 (Z.to_N total)). set (d := put_uint 4 (Z.to_N size)).
  split_and!.
  - etrans; [apply (uint_at_put [BINARY_MAGIC; BINARY_VERSION] 2)|]; simpl; lia.
  - rewrite (app_assoc _ a). etrans; [apply (uint_at_put ([BINARY_MAGIC; BINARY_VERSION] ++ a) 4)|]; simpl; lia.
  - rewrite (app_assoc _ a), (app_assoc _ b). etrans; [apply (uint_at_put (([BINARY_MAGIC; BINARY_VERSION] ++ a) ++ b) 4)|]; simpl; lia.
  - rewrite (app_assoc _ a), (app_assoc _ b), (app_assoc _ c). etrans; [apply (uint_at_put ((([BINARY_MAGIC; BINARY_VERSION] ++ a) ++ b) ++ c) 4)|]; simpl; lia.
Qed.

Section binary.
Context (limits : WorkerProtocolLimits).
Abbreviation encodeBinary := (encodeBinary limits).
Abbreviation decodeBinary := (decodeBinary limits).

(** A chunk that one end frames is the other end's chunk; the 32-bit fields
    ask for counts below 2^32. *)
Lemma binary_decodes c f :
  wb_totalChunks c < 2 ^ 32 → byteLength (wb_payload c) < 2 ^ 32 →
  encodeBinary c = Ok f → decodeBinary f = Ok c.
Proof.
  destruct c as [id index total payload]. cbn [wb_totalChunks wb_payload]. intros Ht Hp H.
  unfold Codec.encodeBinary in H. cbn [wb_correlationId wb_chunkIndex wb_totalChunks wb_payload] in H.
  apply bind_ok in H as (id' & Hid & H). apply parseIdentity_ok in Hid as [[= <-] Hid].
  destruct (identity_plain id Hid) as (Hplain & Hne & Hlen). rewrite encode_plain in H by done.
  apply bind_ok in H as (u & Hc & H). apply throw_if_ok in Hc. apply bind_ok in H as (u' & Hs & H). apply throw_if_ok in Hs.
  assert (0 < byteLength id) by (unfold byteLength; destruct id; [done|simpl; lia]).
  assert (0 <= byteLength payload) by (unfold byteLength; lia). to_prop.
  assert (f = binary_header id index total (byteLength payload) ++ id ++ payload) as ->
    by (apply Ok_inj in H; rewrite <- H; unfold binary_header; by rewrite <- !app_assoc).
  clear H. set (frame := binary_header id index total (byteLength payload) ++ id ++ payload).
  destruct (header_fields id index total (byteLength payload) (id ++ payload)) as (E1 & E2 & E3 & E4); [lia..|]. fold frame in E1, E2, E3, E4.
  assert (byteLength frame = BINARY_HEADER_BYTES + byteLength id + byteLength payload) as El.
  { unfold frame, byteLength, binary_header, BINARY_HEADER_BYTES. rewrite !length_app, !length_put_uint. simpl. lia. }
  unfold Codec.decodeBinary. rewrite E1, E2, E3, E4, El.
  rewrite (proj2 (Z.ltb_ge (maxFrameBytes limits) _)) by done. cbn [throw_if]. rewrite bind_ok_l.
  rewrite (proj2 (Z.ltb_ge _ BINARY_HEADER_BYTES)) by (unfold BINARY_HEADER_BYTES; lia). cbn [throw_if]. rewrite bind_ok_l.
  rewrite !bool_decide_true by done. cbn [negb orb throw_if]. rewrite bind_ok_l.
  rewrite Z.eqb_refl. rewrite (proj2 (Z.eqb_neq (byteLength id) 0)), (proj2 (Z.eqb_neq total 0)),
    (proj2 (Z.ltb_ge (maxBinaryChunks limits) total)), (proj2 (Z.leb_gt total index)),
    (proj2 (Z.ltb_ge (maxBinaryBytes limits) (byteLength payload))) by lia. cbn [negb orb throw_if]. rewrite bind_ok_l.
  assert (drop 16 frame = id ++ payload) as -> by done. unfold byteLength. rewrite !Nat2Z.id, take_app_length, decode_plain by done.
  rewrite bind_ok_l. replace (parseMessageId (VStr id)) with (Ok id : result exn jstring) by (symmetry; by apply parseIdentity_ok).
  rewrite bind_ok_l. do 2 f_equal. rewrite <- drop_drop. assert (drop 16 frame = id ++ payload) as -> by done.
  apply drop_app_length.
Qed.
End binary.

(** ** Codecs *)
Record WorkerCodec := {
  wc_limits : WorkerProtocolLimits;
  wc_encodeControl : WorkerEnvelope → result exn jstring;
  wc_decodeControl : jstring → result exn WorkerEnvelope;
  wc_encodeBinary : WorkerBinaryChunk → result exn bytes;
  wc_decodeBinary : bytes → result exn WorkerBinaryChunk;
}.

Definition assertWorkerProtocolVersion (value : jsval) : result exn unit :=
  throw_if (negb match value with VStr s => streq s (js "1.0") | _ => false end) (DiagnosticError "PROTOCOL_VERSION_UNSUPPORTED").

Definition createWorkerCodec number_text number_of date_time (overrides : WorkerProtocolLimitOverrides) (protocol : jsval)
  : result exn WorkerCodec :=
  assertWorkerProtocolVersion protocol;;
  limits ← normalizeLimits overrides;
  Ok {| wc_limits := limits;
        wc_encodeControl := encodeControl number_text date_time limits;
        wc_decodeControl := decodeControl number_of date_time limits;
        wc_encodeBinary := encodeBinary limits;
        wc_decodeBinary := decodeBinary limits |}.

(** What a session relies on. A payload of a session is a copy
    ([serializeWireValue]), so its objects have their keys once. *)
Class CodecLaws (c : WorkerCodec) := {
  cl_limits : limits_ok (wc_limits c);
  cl_control e s : keyed (we_payload e) = true → wc_encodeControl c e = Ok s → wc_decodeControl c s = Ok (received e);
  cl_control_size e s : wc_encodeControl c e = Ok s → utf8_length s <= maxFrameBytes (wc_limits c);
  cl_decoded s e : wc_decodeControl c s = Ok e →
    re_test IDENTITY_PATTERN (we_messageId e) = true ∧ re_test DECIMAL_PATTERN (we_sequence e) = true ∧
    data (we_payload e) ∧
    match we_binaryBytes e, we_binaryChunks e with
    | None, None => True
    | Some b, Some n => 0 <= b <= maxBinaryBytes (wc_limits c) ∧ 1 <= n <= maxBinaryChunks (wc_limits c)
    | _, _ => False
    end;
  cl_binary b f : wb_totalChunks b < 2 ^ 32 → byteLength (wb_payload b) < 2 ^ 32 →
    wc_encodeBinary c b = Ok f → wc_decodeBinary c f = Ok b;
  cl_binary_size b f : wc_encodeBinary c b = Ok f → byteLength f <= maxFrameBytes (wc_limits c);
}.

Lemma encodeControl_size number_text date_time limits e s :
  encodeControl number_text date_time limits e = Ok s → utf8_length s <= maxFrameBytes limits.
Proof.
  unfold encodeControl. intros (a & _ & (u & H & E)%bind_ok)%bind_ok. apply throw_if_ok in H. apply Ok_inj in E as <-.
  by apply Z.ltb_ge.
Qed.
Lemma encodeBinary_size limits b f : encodeBinary limits b = Ok f → byteLength f <= maxFrameBytes limits.
Proof.
  unfold encodeBinary. intros (id & Hid & (u & Hc & (u' & H & E)%bind_ok)%bind_ok)%bind_ok.
  apply throw_if_ok, Z.ltb_ge in H. apply Ok_inj in E as <-. unfold byteLength, BINARY_HEADER_BYTES in *.
  rewrite !length_app, !length_put_uint. simpl. lia.
Qed.

#[export] Instance createWorkerCodec_laws number_text number_of date_time overrides protocol c
  (Hn : number_codec number_text number_of)
  (Hc : createWorkerCodec number_text number_of date_time overrides protocol = Ok c) : CodecLaws c.
Proof.
  unfold createWorkerCodec in Hc. inv_ok Hc. subst c. split; cbn.
  - by eapply normalizeLimits_ok.
  - intros e s Hk He. by eapply control_decodes.
  - intros e s. apply encodeControl_size.
  - intros s e H. apply decodeControl_ok in H. destruct H. split_and!; try done.
    by destruct (we_binaryBytes e), (we_binaryChunks e).
  - apply binary_decodes.
  - intros b f. apply encodeBinary_size.
Qed.

(** C39. The envelopes and chunks one end of a connection frames are, within the
    limits of both, the ones the other end decodes; a payload has the fields the
    sender gave it. *)
Theorem codec_round_trip number_text number_of date_time overrides protocol c :
  number_codec number_text number_of →
  createWorkerCodec number_text number_of date_time overrides protocol = Ok c →
  (∀ e s, keyed (we_payload e) = true → wc_encodeControl c e = Ok s →
    utf8_length s <= maxFrameBytes (wc_limits c) ∧ wc_decodeControl c s = Ok (received e)) ∧
  (∀ b f, wb_totalChunks b < 2 ^ 32 → byteLength (wb_payload b) < 2 ^ 32 → wc_encodeBinary c b = Ok f →
    byteLength f <= maxFrameBytes (wc_limits c) ∧ wc_decodeBinary c f = Ok b).
Proof.
  intros Hn Hc. pose proof (createWorkerCodec_laws _ _ _ _ _ _ Hn Hc) as Hl. split.
  - intros e s Hk He. split; [by eapply cl_control_size|by apply cl_control].
  - intros b f Ht Hp Hf. split; [by eapply cl_binary_size|by apply cl_binary].
Qed.

Section witness.
Abbreviation no_overrides := {| o_maxFrameBytes := None; o_maxBinaryBytes := Some (NInt 100); o_maxBinaryChunks := None;
  o_maxPendingCorrelations := None; o_maxInflightMessages := None; o_maxSequenceGap := None; o_replayRetention := None |}.

Lemma codec_round_trip_witness : ∃ c,
  createWorkerCodec plain_number plain_read (λ _, true) no_overrides (VStr (js "1.0")) = Ok c ∧
  (∀ e s, keyed (we_payload e) = true → wc_encodeControl c e = Ok s →
    utf8_length s <= maxFrameBytes (wc_limits c) ∧ wc_decodeControl c s = Ok (received e)) ∧
  (∀ b f, wb_totalChunks b < 2 ^ 32 → byteLength (wb_payload b) < 2 ^ 32 → wc_encodeBinary c b = Ok f →
    byteLength f <= maxFrameBytes (wc_limits c) ∧ wc_decodeBinary c f = Ok b).
Proof.
  eexists. split; [reflexivity|].
  apply (codec_round_trip plain_number plain_read (λ _, true) no_overrides (VStr (js "1.0"))); [apply plain_codec|reflexivity].
Defined.
End witness.
