(* ===== verification/Session.v ===== *)
(** * Worker sessions

    transport-websocket/src/session.ts and authentication.ts: one end of the
    connection between the main process and a worker. A session handles one
    event at a time: a frame, the end of the transport, a timer, a call of its
    owner, or the end of a registration; each handler is the code up to its next
    [await]. What it does to the outside is its outputs.

    Callbacks are outputs: what a callback does to the session is a later event,
    so the flag that guards the flush of pending messages against it is always
    down. Random identities come from a supply; SHA-256 and HMAC are parameters. *)

From S2P Require Import Prelude JsString Collections Regex JsValue Identity Time JsonText Canonical JsonParse Placement Execution Bytes Codec.

Open Scope Z_scope.

Definition diagnostic_code (code : String.string) : String.string := code.
Arguments diagnostic_code code%_string_scope.
Definition WORKER_HEARTBEAT_EXPIRED : String.string := diagnostic_code "WORKER_HEARTBEAT_EXPIRED".

(** ** Data *)
Inductive WorkerSessionRole := Main | Worker.
#[export] Instance role_eq : EqDecision WorkerSessionRole.
Proof. solve_decision. Defined.
Definition role_text (r : WorkerSessionRole) : jstring := match r with Main => js "main" | Worker => js "worker" end.

Inductive WorkerSessionState := Authenticating | Closed | Ready | Unavailable.
#[export] Instance session_state_eq : EqDecision WorkerSessionState.
Proof. solve_decision. Defined.

Record WorkerRegistration := {
  wr_workerId : jstring;
  wr_labels : json;
  wr_resources : json;
  wr_executors : list ExecutorKind;
  wr_preparedArtifacts : list jstring;
}.
Record WorkerSessionMessage := {
  sm_messageId : jstring;
  sm_correlationId : jstring;
  sm_type : WorkerMessageType;
  sm_payload : json;
  sm_binary : option bytes;
}.
Record PendingBinary := {
  pb_envelope : WorkerEnvelope;
  pb_chunks : list bytes;
  pb_nextChunk : Z;
  pb_receivedBytes : Z;
}.
Record RetainedReplay := { rr_messageId : jstring; rr_fingerprint : jstring }.

Inductive Frame := TextFrame (s : jstring) | BinaryFrame (b : bytes).

(** What a WebSocket hands to a message listener. *)
Inductive socket_data := DataText (s : jstring) | DataParts (parts : list bytes) | DataOther.
Record socket_arguments := { sa_data : socket_data; sa_isBinary : option bool }.

Inductive Output :=
| OSend (frame : Frame)                           (** [socket.send] *)
| OSocketClose (code : Z) (reason : String.string)
| OStateChange (listener : nat) (state : WorkerSessionState)
| OMessage (listener : nat) (message : WorkerSessionMessage)
| OReady (r : result exn unit)                    (** [ready] settles *)
| OResponse (request : jstring) (r : result exn WorkerSessionMessage)
| OAbortTimeout (request : jstring)
| ORegister (registration : WorkerRegistration)   (** [onRegister] is called *)
| OUnavailable
| OClosed
| OReturn (r : result exn jstring)                (** what a call of [send] or [request] gives *)
| ODispatch (e : WorkerEnvelope) (binary : option bytes). (** no effect: [dispatch] is called *)

Arguments OSocketClose code reason%_string_scope.

(** ** The state, by concern *)
Record Life := {
  l_state : WorkerSessionState;
  l_available : bool;
  l_acceptingAssignments : bool;
  l_diagnostic : option String.string;
  l_readySettled : bool;
  l_detached : bool;
  l_closedNotified : bool;
}.
Record Handshake := {
  h_credential : jstring;
  h_sessionId : jstring;
  h_epoch : jstring;
  h_remoteNonce : option jstring;
  h_remoteRole : option WorkerSessionRole;
  h_remoteHelloSessionId : option jstring;
  h_principalWorkerId : option jstring;
  h_principalAuthorized : bool;
  h_peerAuthenticated : bool;
  h_helloSent : bool;
  h_authenticationSent : bool;
  h_registrationSent : bool;
  h_registrationPending : bool;
}.
Record Inbound := {
  i_expectedSequence : Z;
  i_receivedFingerprints : gmap jstring jstring;
  i_receivedReplayOrder : list RetainedReplay;
  i_pendingBinary : gmap jstring PendingBinary;
  i_pendingBinaryBytes : Z;
}.
Record Delivery := {
  d_listeners : list nat;
  d_stateListeners : list nat;
  d_pendingMessages : list WorkerSessionMessage;
  d_pendingMessageBytes : Z;
}.
(** The requests without a response, in the order of their calls. *)
Record Requests := {
  q_pendingRequests : list jstring;
  q_issuedRequestIds : gset jstring;
  q_issuedRequestOrder : list jstring;
}.
Record Outbound := { u_nextSequence : Z; u_identities : nat }.
Record Timing := { t_lastHeartbeatAt : Z; t_heartbeats : bool }.

Record WorkerSession := {
  s_life : Life;
  s_handshake : Handshake;
  s_inbound : Inbound;
  s_delivery : Delivery;
  s_requests : Requests;
  s_outbound : Outbound;
  s_timing : Timing;
}.

Definition with_life (f : Life → Life) (s : WorkerSession) : WorkerSession := {|
  s_life := f (s_life s); s_handshake := s_handshake s; s_inbound := s_inbound s; s_delivery := s_delivery s;
  s_requests := s_requests s; s_outbound := s_outbound s; s_timing := s_timing s |}.
Definition with_handshake (f : Handshake → Handshake) (s : WorkerSession) : WorkerSession := {|
  s_life := s_life s; s_handshake := f (s_handshake s); s_inbound := s_inbound s; s_delivery := s_delivery s;
  s_requests := s_requests s; s_outbound := s_outbound s; s_timing := s_timing s |}.
Definition with_inbound (f : Inbound → Inbound) (s : WorkerSession) : WorkerSession := {|
  s_life := s_life s; s_handshake := s_handshake s; s_inbound := f (s_inbound s); s_delivery := s_delivery s;
  s_requests := s_requests s; s_outbound := s_outbound s; s_timing := s_timing s |}.
Definition with_delivery (f : Delivery → Delivery) (s : WorkerSession) : WorkerSession := {|
  s_life := s_life s; s_handshake := s_handshake s; s_inbound := s_inbound s; s_delivery := f (s_delivery s);
  s_requests := s_requests s; s_outbound := s_outbound s; s_timing := s_timing s |}.
Definition with_requests (f : Requests → Requests) (s : WorkerSession) : WorkerSession := {|
  s_life := s_life s; s_handshake := s_handshake s; s_inbound := s_inbound s; s_delivery := s_delivery s;
  s_requests := f (s_requests s); s_outbound := s_outbound s; s_timing := s_timing s |}.
Definition with_outbound (f : Outbound → Outbound) (s : WorkerSession) : WorkerSession := {|
  s_life := s_life s; s_handshake := s_handshake s; s_inbound := s_inbound s; s_delivery := s_delivery s;
  s_requests := s_requests s; s_outbound := f (s_outbound s); s_timing := s_timing s |}.
Definition with_timing (f : Timing → Timing) (s : WorkerSession) : WorkerSession := {|
  s_life := s_life s; s_handshake := s_handshake s; s_inbound := s_inbound s; s_delivery := s_delivery s;
  s_requests := s_requests s; s_outbound := s_outbound s; s_timing := f (s_timing s) |}.

(** The fields the handlers write. *)
Definition with_state (st : WorkerSessionState) (l : Life) : Life := {|
  l_state := st; l_available := l_available l; l_acceptingAssignments := l_acceptingAssignments l;
  l_diagnostic := l_diagnostic l; l_readySettled := l_readySettled l; l_detached := l_detached l;
  l_closedNotified := l_closedNotified l |}.
Definition with_available (b : bool) (l : Life) : Life := {|
  l_state := l_state l; l_available := b; l_acceptingAssignments := b; l_diagnostic := l_diagnostic l;
  l_readySettled := l_readySettled l; l_detached := l_detached l; l_closedNotified := l_closedNotified l |}.
Definition with_diagnostic (code : String.string) (l : Life) : Life := {|
  l_state := l_state l; l_available := l_available l; l_acceptingAssignments := l_acceptingAssignments l;
  l_diagnostic := Some code; l_readySettled := l_readySettled l; l_detached := l_detached l;
  l_closedNotified := l_closedNotified l |}.
Definition with_readySettled  (l : Life) : Life := {|
  l_state := l_state l; l_available := l_available l; l_acceptingAssignments := l_acceptingAssignments l;
  l_diagnostic := l_diagnostic l; l_readySettled := true; l_detached := l_detached l;
  l_closedNotified := l_closedNotified l |}.
Definition with_detached  (l : Life) : Life := {|
  l_state := l_state l; l_available := l_available l; l_acceptingAssignments := l_acceptingAssignments l;
  l_diagnostic := l_diagnostic l; l_readySettled := l_readySettled l; l_detached := true;
  l_closedNotified := l_closedNotified l |}.
Definition with_closedNotified  (l : Life) : Life := {|
  l_state := l_state l; l_available := l_available l; l_acceptingAssignments := l_acceptingAssignments l;
  l_diagnostic := l_diagnostic l; l_readySettled := l_readySettled l; l_detached := l_detached l;
  l_closedNotified := true |}.
Definition with_remote (nonce : jstring) (role : WorkerSessionRole) (sessionId : jstring) (h : Handshake) : Handshake := {|
  h_credential := h_credential h; h_sessionId := h_sessionId h; h_epoch := h_epoch h;
  h_remoteNonce := Some nonce; h_remoteRole := Some role; h_remoteHelloSessionId := Some sessionId;
  h_principalWorkerId := h_principalWorkerId h; h_principalAuthorized := h_principalAuthorized h;
  h_peerAuthenticated := h_peerAuthenticated h; h_helloSent := h_helloSent h;
  h_authenticationSent := h_authenticationSent h; h_registrationSent := h_registrationSent h;
  h_registrationPending := h_registrationPending h |}.
Definition with_principal (workerId : jstring) (authorized : bool) (h : Handshake) : Handshake := {|
  h_credential := h_credential h; h_sessionId := h_sessionId h; h_epoch := h_epoch h;
  h_remoteNonce := h_remoteNonce h; h_remoteRole := h_remoteRole h;
  h_remoteHelloSessionId := h_remoteHelloSessionId h; h_principalWorkerId := Some workerId;
  h_principalAuthorized := authorized; h_peerAuthenticated := h_peerAuthenticated h;
  h_helloSent := h_helloSent h; h_authenticationSent := h_authenticationSent h;
  h_registrationSent := h_registrationSent h; h_registrationPending := h_registrationPending h |}.
Definition with_credential (credential : jstring) (h : Handshake) : Handshake := {|
  h_credential := credential; h_sessionId := h_sessionId h; h_epoch := h_epoch h;
  h_remoteNonce := h_remoteNonce h; h_remoteRole := h_remoteRole h;
  h_remoteHelloSessionId := h_remoteHelloSessionId h; h_principalWorkerId := h_principalWorkerId h;
  h_principalAuthorized := h_principalAuthorized h; h_peerAuthenticated := h_peerAuthenticated h;
  h_helloSent := h_helloSent h; h_authenticationSent := h_authenticationSent h;
  h_registrationSent := h_registrationSent h; h_registrationPending := h_registrationPending h |}.
Definition with_sessionId (sessionId : jstring) (h : Handshake) : Handshake := {|
  h_credential := h_credential h; h_sessionId := sessionId; h_epoch := h_epoch h;
  h_remoteNonce := h_remoteNonce h; h_remoteRole := h_remoteRole h;
  h_remoteHelloSessionId := h_remoteHelloSessionId h; h_principalWorkerId := h_principalWorkerId h;
  h_principalAuthorized := h_principalAuthorized h; h_peerAuthenticated := h_peerAuthenticated h;
  h_helloSent := h_helloSent h; h_authenticationSent := h_authenticationSent h;
  h_registrationSent := h_registrationSent h; h_registrationPending := h_registrationPending h |}.
Definition with_epoch (epoch : jstring) (h : Handshake) : Handshake := {|
  h_credential := h_credential h; h_sessionId := h_sessionId h; h_epoch := epoch;
  h_remoteNonce := h_remoteNonce h; h_remoteRole := h_remoteRole h;
  h_remoteHelloSessionId := h_remoteHelloSessionId h; h_principalWorkerId := h_principalWorkerId h;
  h_principalAuthorized := h_principalAuthorized h; h_peerAuthenticated := h_peerAuthenticated h;
  h_helloSent := h_helloSent h; h_authenticationSent := h_authenticationSent h;
  h_registrationSent := h_registrationSent h; h_registrationPending := h_registrationPending h |}.
Definition with_helloSent (b : bool) (h : Handshake) : Handshake := {|
  h_credential := h_credential h; h_sessionId := h_sessionId h; h_epoch := h_epoch h;
  h_remoteNonce := h_remoteNonce h; h_remoteRole := h_remoteRole h;
  h_remoteHelloSessionId := h_remoteHelloSessionId h; h_principalWorkerId := h_principalWorkerId h;
  h_principalAuthorized := h_principalAuthorized h; h_peerAuthenticated := h_peerAuthenticated h;
  h_helloSent := b; h_authenticationSent := h_authenticationSent h; h_registrationSent := h_registrationSent h;
  h_registrationPending := h_registrationPending h |}.
Definition with_authenticationSent  (h : Handshake) : Handshake := {|
  h_credential := h_credential h; h_sessionId := h_sessionId h; h_epoch := h_epoch h;
  h_remoteNonce := h_remoteNonce h; h_remoteRole := h_remoteRole h;
  h_remoteHelloSessionId := h_remoteHelloSessionId h; h_principalWorkerId := h_principalWorkerId h;
  h_principalAuthorized := h_principalAuthorized h; h_peerAuthenticated := h_peerAuthenticated h;
  h_helloSent := h_helloSent h; h_authenticationSent := true; h_registrationSent := h_registrationSent h;
  h_registrationPending := h_registrationPending h |}.
Definition with_peerAuthenticated  (h : Handshake) : Handshake := {|
  h_credential := h_credential h; h_sessionId := h_sessionId h; h_epoch := h_epoch h;
  h_remoteNonce := h_remoteNonce h; h_remoteRole := h_remoteRole h;
  h_remoteHelloSessionId := h_remoteHelloSessionId h; h_principalWorkerId := h_principalWorkerId h;
  h_principalAuthorized := h_principalAuthorized h; h_peerAuthenticated := true; h_helloSent := h_helloSent h;
  h_authenticationSent := h_authenticationSent h; h_registrationSent := h_registrationSent h;
  h_registrationPending := h_registrationPending h |}.
Definition with_registrationSent  (h : Handshake) : Handshake := {|
  h_credential := h_credential h; h_sessionId := h_sessionId h; h_epoch := h_epoch h;
  h_remoteNonce := h_remoteNonce h; h_remoteRole := h_remoteRole h;
  h_remoteHelloSessionId := h_remoteHelloSessionId h; h_principalWorkerId := h_principalWorkerId h;
  h_principalAuthorized := h_principalAuthorized h; h_peerAuthenticated := h_peerAuthenticated h;
  h_helloSent := h_helloSent h; h_authenticationSent := h_authenticationSent h; h_registrationSent := true;
  h_registrationPending := h_registrationPending h |}.
Definition with_registrationPending  (h : Handshake) : Handshake := {|
  h_credential := h_credential h; h_sessionId := h_sessionId h; h_epoch := h_epoch h;
  h_remoteNonce := h_remoteNonce h; h_remoteRole := h_remoteRole h;
  h_remoteHelloSessionId := h_remoteHelloSessionId h; h_principalWorkerId := h_principalWorkerId h;
  h_principalAuthorized := h_principalAuthorized h; h_peerAuthenticated := h_peerAuthenticated h;
  h_helloSent := h_helloSent h; h_authenticationSent := h_authenticationSent h;
  h_registrationSent := h_registrationSent h; h_registrationPending := true |}.

Definition state (s : WorkerSession) : WorkerSessionState := l_state (s_life s).
Definition in_state (s : WorkerSession) (t : WorkerSessionState) : bool := bool_decide (state s = t).
(** Closed or unavailable. *)
Definition over (s : WorkerSession) : bool := in_state s Closed || in_state s Unavailable.

(** ** Handlers: state, outputs and exceptions

    The state keeps what was done before an exception. The number of frames
    handed to the socket during the event tells which [send] fails. *)
Record World := { w_session : WorkerSession; w_out : list Output; w_sends : nat }.
Definition M (A : Type) : Type := World → World * result exn A.

#[export] Instance m_ret : MRet M := λ A a w, (w, Ok a).
#[export] Instance m_bind : MBind M := λ A B f m w,
  match m w with (w, Ok a) => f a w | (w, Err e) => (w, Err e) end.
Definition throw {A} (e : exn) : M A := λ w, (w, Err e).
Definition lift {A} (r : result exn A) : M A := λ w, (w, r).
Definition get : M WorkerSession := λ w, (w, Ok (w_session w)).
Definition modify (f : WorkerSession → WorkerSession) : M unit := λ w,
  ({| w_session := f (w_session w); w_out := w_out w; w_sends := w_sends w |}, Ok tt).
Definition emit (os : list Output) : M unit := λ w,
  ({| w_session := w_session w; w_out := w_out w ++ os; w_sends := w_sends w |}, Ok tt).
(** [try { m } catch (e) { h(e) }] *)
Definition handle {A} (m : M A) (h : exn → M A) : M A := λ w,
  match m w with (w, Ok a) => (w, Ok a) | (w, Err e) => h e w end.
Definition guard (b : bool) (code : String.string) : M unit := lift (throw_if b (DiagnosticError code)).
Arguments guard b code%_string_scope.
Definition when (b : bool) (m : M unit) : M unit := if b then m else mret tt.

(** ** The environment of an event *)
Record Env := {
  e_now : Z;               (** [clock.now()] *)
  e_readyState : Z;        (** of the socket *)
  e_sends : nat → bool;    (** the [n]-th [send] of the event succeeds *)
}.

(** ** Configuration *)
Record SessionConfig := {
  c_role : WorkerSessionRole;
  c_codec : WorkerCodec;
  c_resolveCredential : option (jstring → option jstring);
  c_heartbeatIntervalMs : Z;
  c_heartbeatTimeoutMs : Z;
  c_handshakeTimeoutMs : Z;
  c_requestTimeoutMs : Z;
  c_worker : option WorkerRegistration;
  c_onRegister : bool;                  (** the option is given *)
  c_nonce : jstring;
}.

Definition RESERVED_SESSION_MESSAGE_TYPES : list WorkerMessageType :=
  [authenticate; heartbeat; hello; session_ready; worker_register].
Definition MAXIMUM_UNSIGNED_64 : Z := 18446744073709551615.

Definition asObject (value : json) : result exn (list (jstring * json)) :=
  match value with JObj fields => Ok fields | _ => Err (DiagnosticError "PROTOCOL_MESSAGE_INVALID") end.
Definition requireExactFields (record : list (jstring * json)) (fields : list jstring) : result exn unit :=
  throw_if (existsb (λ f, negb (includes fields f.1)) record) (DiagnosticError "PROTOCOL_MESSAGE_INVALID").
Definition positiveDuration (value : option jsnum) (fallback : Z) : result exn Z := positive_or value fallback.

Definition boundedUnsigned64 (value : jstring) : result exn jstring :=
  s ← parseSequence (VStr value);
  throw_if (MAXIMUM_UNSIGNED_64 <? decimal_value s) (DiagnosticError "PROTOCOL_SEQUENCE_LIMIT_EXCEEDED");;
  Ok value.
Definition boundedWorkerEpoch (value : jstring) : result exn jstring :=
  v ← boundedUnsigned64 value;
  parseFencingEpoch (VStr v).
Definition compareWorkerEpoch (left right : jstring) : result exn Z :=
  l ← boundedUnsigned64 left;
  r ← boundedUnsigned64 right;
  Ok (if decimal_value l <? decimal_value r then -1 else if decimal_value r <? decimal_value l then 1 else 0).

Definition normalizeCredential (value : jstring) : result exn jstring :=
  throw_if ((Z.of_nat (length value) =? 0) || (4096 <? Z.of_nat (length value))) TypeError;;
  Ok value.
Definition rejectReservedMessageType (t : WorkerMessageType) : result exn unit :=
  throw_if (includes RESERVED_SESSION_MESSAGE_TYPES t) (DiagnosticError "PROTOCOL_MESSAGE_TYPE_RESERVED").

(** ** Registrations *)
Definition REGISTRATION_INVALID : exn := DiagnosticError "PROTOCOL_REGISTRATION_INVALID".
Definition serializeWireValue (value : option json) : result exn json :=
  match value ≫= serialize with
  | Some j => Ok j
  | None => Err (DiagnosticError "PROTOCOL_WIRE_VALUE_INVALID")
  end.
Definition executors_of (value : option json) : result exn (list ExecutorKind) :=
  match value with
  | Some (JArr items) => mapM (λ i, match executor_type (Some i) with Some k => Ok k | None => Err REGISTRATION_INVALID end) items
  | _ => Err REGISTRATION_INVALID
  end.
Definition artifacts_of (value : option json) : result exn (list jstring) :=
  match value with
  | Some (JArr items) => mapM (λ i, match i with JStr (c :: s) => Ok (c :: s) | _ => Err REGISTRATION_INVALID end) items
  | _ => Err REGISTRATION_INVALID
  end.
Definition is_object (j : json) : bool := match j with JObj _ => true | _ => false end.
Definition normalizeRegistration (value : list (jstring * json)) : result exn WorkerRegistration :=
  workerId ← parseWorkerId (untrusted (JsMap.get value (js "workerId")));
  labels ← serializeWireValue (JsMap.get value (js "labels"));
  resources ← serializeWireValue (JsMap.get value (js "resources"));
  throw_if (negb (is_object labels) || negb (is_object resources)) REGISTRATION_INVALID;;
  executors ← executors_of (JsMap.get value (js "executors"));
  artifacts ← artifacts_of (JsMap.get value (js "preparedArtifacts"));
  digests ← mapM (λ a, parseArtifactDigest (VStr a)) artifacts;
  Ok {| wr_workerId := workerId; wr_labels := labels; wr_resources := resources; wr_executors := executors;
        wr_preparedArtifacts := digests |}.
Definition registration_json (r : WorkerRegistration) : json :=
  JObj [(js "workerId", JStr (wr_workerId r)); (js "labels", wr_labels r); (js "resources", wr_resources r);
        (js "executors", JArr (map (λ k, JStr (executor_text k)) (wr_executors r)));
        (js "preparedArtifacts", JArr (map JStr (wr_preparedArtifacts r)))].

(** ** The socket *)
Fixpoint parts_exceed (max total : Z) (parts : list bytes) : bool :=
  match parts with
  | [] => false
  | p :: parts => let total := total + byteLength p in if max <? total then true else parts_exceed max total parts
  end.
Definition socketMessage (a : socket_arguments) (max : Z) : result exn Frame :=
  match sa_data a with
  | DataText s => throw_if (max <? utf8_length s) FRAME_TOO_LARGE;; Ok (TextFrame s)
  | DataParts parts =>
      throw_if (parts_exceed max 0 parts) FRAME_TOO_LARGE;;
      if bool_decide (sa_isBinary a = Some false) then
        match utf8_decode (concat parts) with
        | Some s => Ok (TextFrame s)
        | None => Err (DiagnosticError "PROTOCOL_JSON_INVALID")
        end
      else Ok (BinaryFrame (concat parts))
  | DataOther => Err (DiagnosticError "PROTOCOL_FRAME_INVALID")
  end.
Definition closeCode (code : String.string) : Z :=
  if String.eqb code "PROTOCOL_FRAME_TOO_LARGE" then 1009
  else if String.prefix "PROTOCOL_" code then 1008 else 1011.
Arguments closeCode code%_string_scope.
(** [isRetryableEndpointClose] of the code and the reason of a close event. *)
Definition isRetryableEndpointClose (code : option Z) (reason : option jstring) : bool :=
  bool_decide (code = Some 1011) && match reason with Some r => streq r (js "COORDINATION_NOT_LEADER") | None => false end.

(** ** Authentication: authentication.ts *)
Definition AUTHENTICATION_DOMAIN : jstring := js "tego-worker-session-v1".
Definition separator : jstring := [0%N].

Section session.
(** The texts of numbers, the two hashes, and the supply of random identities. *)
Context (number_text : jsnum → jstring) (sha256 : jstring → jstring) (hmac : jstring → jstring → jstring) (uuid : nat → jstring).

Definition createAuthenticationProof (credential workerId senderNonce receiverNonce : jstring) (senderRole : WorkerSessionRole) : jstring :=
  hmac credential (AUTHENTICATION_DOMAIN ++ separator ++ workerId ++ separator ++ senderNonce ++ separator ++
                   receiverNonce ++ separator ++ role_text senderRole).
Definition verifyAuthenticationProof (credential workerId senderNonce receiverNonce : jstring) (senderRole : WorkerSessionRole)
    (proof : jstring) : bool :=
  let expected := createAuthenticationProof credential workerId senderNonce receiverNonce senderRole in
  streq (hmac AUTHENTICATION_DOMAIN expected) (hmac AUTHENTICATION_DOMAIN proof).

Definition replayFingerprint (e : WorkerEnvelope) : jstring :=
  sha256 (js "tego.worker-envelope-replay/1.0" ++ separator ++ canonical number_text (envelope_json e)).

(** ** The handlers *)
Section handlers.
Context (cfg : SessionConfig) (env : Env).
Abbreviation limits := (wc_limits (c_codec cfg)).

Definition notifyState : M unit :=
  s ← get;
  emit (map (λ l, OStateChange l (state s)) (d_stateListeners (s_delivery s))).

Definition detach : M unit :=
  s ← get;
  when (negb (l_detached (s_life s)))
    (modify (with_life with_detached);;
     modify (with_delivery (λ d, {| d_listeners := []; d_stateListeners := []; d_pendingMessages := []; d_pendingMessageBytes := 0 |}));;
     when (negb (l_closedNotified (s_life s)))
       (modify (with_life with_closedNotified);;
        emit [OClosed])).

Definition rejectPending (e : exn) : M unit :=
  s ← get;
  emit (flat_map (λ id, [OAbortTimeout id; OResponse id (Err e)]) (q_pendingRequests (s_requests s)));;
  modify (with_requests (λ _, {| q_pendingRequests := []; q_issuedRequestIds := ∅; q_issuedRequestOrder := [] |}));;
  modify (with_inbound (λ i, {| i_expectedSequence := i_expectedSequence i; i_receivedFingerprints := i_receivedFingerprints i;
    i_receivedReplayOrder := i_receivedReplayOrder i; i_pendingBinary := ∅; i_pendingBinaryBytes := 0 |})).

(** The deferred of [ready] settles once. *)
Definition settleReady (r : result exn unit) : M unit :=
  s ← get;
  when (negb (l_readySettled (s_life s)))
    (modify (with_life with_readySettled);;
     emit [OReady r]).

Definition set_state (st : WorkerSessionState) : M unit :=
  modify (with_life (with_state st)).
Definition set_available (b : bool) : M unit :=
  modify (with_life (with_available b)).
Definition set_diagnostic (code : String.string) : M unit :=
  modify (with_life (with_diagnostic code)).
#[local] Arguments set_diagnostic code%_string_scope.

Definition fail (code : String.string) : M unit :=
  s ← get;
  if over s then mret tt
  else
    set_diagnostic code;;
    set_state Closed;;
    notifyState;;
    set_available false;;
    settleReady (Err (DiagnosticError code));;
    rejectPending (DiagnosticError code);;
    emit [OSocketClose (closeCode code) code];;
    detach.
#[local] Arguments fail code%_string_scope.

(** ** Sending *)
Definition newIdentity (prefix : String.string) : M jstring :=
  s ← get;
  modify (with_outbound (λ u, {| u_nextSequence := u_nextSequence u; u_identities := S (u_identities u) |}));;
  mret (js prefix ++ uuid (u_identities (s_outbound s))).
#[local] Arguments newIdentity prefix%_string_scope.

Fixpoint sendFrames (frames : list Frame) : M unit :=
  match frames with
  | [] => mret tt
  | f :: rest =>
      λ w,
        if e_sends env (w_sends w) then
          sendFrames rest {| w_session := w_session w; w_out := w_out w ++ [OSend f]; w_sends := S (w_sends w) |}
        else
          (fail "WORKER_TRANSPORT_ERROR";; throw (DiagnosticError "WORKER_TRANSPORT_ERROR")) w
  end.

Definition maxChunkPayload : Z := Z.max 1 (maxFrameBytes limits - 160).
Definition chunk_count (binary : bytes) : Z := (byteLength binary + maxChunkPayload - 1) / maxChunkPayload.
(** [binary.subarray(start, Math.min(binary.byteLength, start + maxChunkPayload))] *)
Definition chunk_payload (binary : bytes) (chunkIndex : nat) : bytes :=
  take (Z.to_nat maxChunkPayload) (drop (chunkIndex * Z.to_nat maxChunkPayload) binary).
Definition chunk_frames (messageId : jstring) (binary : bytes) : result exn (list Frame) :=
  mapM (λ i, f ← wc_encodeBinary (c_codec cfg)
                   {| wb_correlationId := messageId; wb_chunkIndex := Z.of_nat i; wb_totalChunks := chunk_count binary;
                      wb_payload := chunk_payload binary i |};
             Ok (BinaryFrame f))
    (seq 0 (Z.to_nat (chunk_count binary))).

Definition binary_too_large (binary : bytes) : bool :=
  (byteLength binary =? 0) || (maxBinaryBytes limits <? byteLength binary) || (maxBinaryChunks limits <? chunk_count binary).

Definition sendEnvelope (t : WorkerMessageType) (payload : json) (correlationId : option jstring) (binary : option bytes)
    (suppliedMessageId : option jstring) : M jstring :=
  s ← get;
  guard (over s || negb (e_readyState env =? 1)) "WORKER_SESSION_CLOSED";;
  raw ← match suppliedMessageId with Some id => mret id | None => newIdentity "message-" end;
  messageId ← lift (parseMessageId (VStr raw));
  guard (match binary with Some b => binary_too_large b | None => false end) "PROTOCOL_BINARY_LIMIT_EXCEEDED";;
  s ← get;
  sequence ← lift (parseSequence (VStr (show_nat (u_nextSequence (s_outbound s)))));
  correlation ← lift (parseMessageId (VStr (default messageId correlationId)));
  copy ← lift (serializeWireValue (Some payload));
  control ← lift (wc_encodeControl (c_codec cfg)
    {| we_messageId := messageId; we_sessionId := h_sessionId (s_handshake s); we_sequence := sequence;
       we_correlationId := correlation; we_type := t; we_sentAt := toISOString (e_now env); we_payload := copy;
       we_binaryBytes := byteLength <$> binary; we_binaryChunks := chunk_count <$> binary |});
  chunks ← lift (match binary with Some b => chunk_frames messageId b | None => Ok [] end);
  modify (with_outbound (λ u, {| u_nextSequence := u_nextSequence u + 1; u_identities := u_identities u |}));;
  sendFrames (TextFrame control :: chunks);;
  mret messageId.
Definition sendInternal (t : WorkerMessageType) (payload : json) : M unit :=
  sendEnvelope t payload None None None;; mret tt.

(** ** The handshake *)
Definition set_handshake (f : Handshake → Handshake) : M unit := modify (with_handshake f).

Definition hello_json (s : WorkerSession) : json :=
  JObj ([(js "role", JStr (role_text (c_role cfg))); (js "nonce", JStr (c_nonce cfg))] ++
        match c_role cfg, h_principalWorkerId (s_handshake s) with
        | Worker, Some w => [(js "workerId", JStr w)]
        | _, _ => []
        end).

Definition set_helloSent (b : bool) : M unit :=
  set_handshake (with_helloSent b).
Definition sendHello : M unit :=
  s ← get;
  when (negb (h_helloSent (s_handshake s)))
    (set_helloSent true;;
     handle (sendInternal hello (hello_json s)) (λ e, set_helloSent false;; throw e)).

Definition sendAuthentication : M unit :=
  s ← get;
  let h := s_handshake s in
  match h_remoteNonce h, h_remoteRole h, h_principalWorkerId h with
  | Some remoteNonce, Some _, Some workerId =>
      when (negb (h_authenticationSent h || negb (h_helloSent h)))
        (set_handshake with_authenticationSent;;
         sendInternal authenticate
           (JObj [(js "proof", JStr (createAuthenticationProof (h_credential h) workerId (c_nonce cfg) remoteNonce (c_role cfg)))]))
  | _, _, _ => mret tt
  end.

Definition role_of (j : option json) : option WorkerSessionRole :=
  match j with
  | Some (JStr s) => if streq s (js "main") then Some Main else if streq s (js "worker") then Some Worker else None
  | _ => None
  end.
Definition string_field (j : option json) : option jstring := j ≫= string_of.

Definition receiveHello (e : WorkerEnvelope) : M unit :=
  s ← get;
  guard (bool_decide (is_Some (h_remoteNonce (s_handshake s))) || negb (in_state s Authenticating)) "PROTOCOL_HANDSHAKE_ORDER_INVALID";;
  payload ← lift (asObject (we_payload e));
  let role := role_of (JsMap.get payload (js "role")) in
  lift (requireExactFields payload
    (if bool_decide (role = Some Worker) then [js "role"; js "nonce"; js "workerId"] else [js "role"; js "nonce"]));;
  match role, string_field (JsMap.get payload (js "nonce")) with
  | Some role, Some nonce =>
      guard (bool_decide (role = c_role cfg) || (length nonce <? 16)%nat || (128 <? length nonce)%nat) "PROTOCOL_HANDSHAKE_INVALID";;
      set_handshake (with_remote nonce role (we_sessionId e));;
      match c_role cfg with
      | Worker => mret tt
      | Main =>
          match string_field (JsMap.get payload (js "workerId")) with
          | None => throw (DiagnosticError "PROTOCOL_HANDSHAKE_INVALID")
          | Some id =>
              workerId ← lift (parseWorkerId (VStr id));
              let resolvedCredential := c_resolveCredential cfg ≫= λ f, f workerId in
              set_handshake (with_principal workerId (bool_decide (is_Some resolvedCredential)));;
              match resolvedCredential with
              | None => mret tt
              | Some c =>
                  credential ← lift (normalizeCredential c);
                  set_handshake (with_credential credential)
              end;;
              sessionId ← lift (parseSessionId (VStr (we_sessionId e)));
              set_handshake (with_sessionId sessionId)
          end
      end;;
      sendHello;;
      sendAuthentication
  | _, _ => throw (DiagnosticError "PROTOCOL_HANDSHAKE_INVALID")
  end.

Definition sendRegistration : M unit :=
  s ← get;
  match c_worker cfg with
  | Some worker =>
      when (negb (h_registrationSent (s_handshake s)) && h_peerAuthenticated (s_handshake s))
        (set_handshake with_registrationSent;;
         sendInternal worker_register (registration_json worker))
  | None => mret tt
  end.

Definition receiveAuthentication (e : WorkerEnvelope) : M unit :=
  s ← get;
  let h := s_handshake s in
  match h_remoteNonce h, h_remoteRole h, h_principalWorkerId h with
  | Some remoteNonce, Some remoteRole, Some workerId =>
      guard (h_peerAuthenticated h) "PROTOCOL_HANDSHAKE_ORDER_INVALID";;
      payload ← lift (asObject (we_payload e));
      lift (requireExactFields payload [js "proof"]);;
      let proofValid :=
        match string_field (JsMap.get payload (js "proof")) with
        | Some proof => verifyAuthenticationProof (h_credential h) workerId remoteNonce (c_nonce cfg) remoteRole proof
        | None => false
        end in
      guard (negb proofValid || negb (h_principalAuthorized h)) "PROTOCOL_AUTHENTICATION_FAILED";;
      set_handshake with_peerAuthenticated;;
      when (bool_decide (c_role cfg = Worker)) sendRegistration
  | _, _, _ => throw (DiagnosticError "PROTOCOL_HANDSHAKE_ORDER_INVALID")
  end.

(** [receiveRegistration] up to the call of [onRegister], *)
Definition receiveRegistration (e : WorkerEnvelope) : M unit :=
  s ← get;
  let h := s_handshake s in
  guard (negb (bool_decide (c_role cfg = Main)) || negb (in_state s Authenticating) || h_registrationPending h ||
         negb (h_peerAuthenticated h) || negb (bool_decide (h_remoteRole h = Some Worker)) || negb (c_onRegister cfg) ||
         negb (bool_decide (h_remoteHelloSessionId h = Some (we_sessionId e)))) "PROTOCOL_HANDSHAKE_ORDER_INVALID";;
  payload ← lift (asObject (we_payload e));
  lift (requireExactFields payload [js "workerId"; js "labels"; js "resources"; js "executors"; js "preparedArtifacts"]);;
  registration ← lift (normalizeRegistration payload);
  guard (negb (bool_decide (h_principalWorkerId h = Some (wr_workerId registration)))) "PROTOCOL_AUTHENTICATION_FAILED";;
  set_handshake with_registrationPending;;
  emit [ORegister registration].

Definition set_timing (f : Timing → Timing) : M unit := modify (with_timing f).

(** and from its end on; its [catch] is in [dispatch]. *)
Definition registration_failed (e : exn) : M unit :=
  match e with DiagnosticError code => fail code | _ => fail "PROTOCOL_HANDSHAKE_INVALID" end.
Definition registered (r : result exn jstring) : M unit :=
  s ← get;
  when (h_registrationPending (s_handshake s) && in_state s Authenticating)
    (handle
      (result ← lift r;
       epoch ← lift (boundedWorkerEpoch result);
       set_handshake (with_epoch epoch);;
       set_state Ready;;
       notifyState;;
       set_available true;;
       set_timing (λ t, {| t_lastHeartbeatAt := e_now env; t_heartbeats := t_heartbeats t |});;
       sendInternal session_ready (JObj [(js "epoch", JStr epoch)]);;
       settleReady (Ok tt))
      registration_failed).

Definition sendHeartbeat : M unit :=
  handle (sendInternal heartbeat (JObj []))
    (λ _, set_timing (λ t, {| t_lastHeartbeatAt := t_lastHeartbeatAt t; t_heartbeats := false |})).

Definition receiveReady (e : WorkerEnvelope) : M unit :=
  s ← get;
  let h := s_handshake s in
  guard (negb (bool_decide (c_role cfg = Worker)) || negb (in_state s Authenticating) || negb (h_peerAuthenticated h) ||
         negb (streq (we_sessionId e) (h_sessionId h))) "PROTOCOL_HANDSHAKE_ORDER_INVALID";;
  payload ← lift (asObject (we_payload e));
  lift (requireExactFields payload [js "epoch"]);;
  match string_field (JsMap.get payload (js "epoch")) with
  | None => throw (DiagnosticError "PROTOCOL_MESSAGE_INVALID")
  | Some text =>
      epoch ← lift (boundedWorkerEpoch text);
      set_handshake (with_epoch epoch);;
      set_state Ready;;
      notifyState;;
      set_available true;;
      settleReady (Ok tt);;
      set_timing (λ t, {| t_lastHeartbeatAt := t_lastHeartbeatAt t; t_heartbeats := true |});;
      sendHeartbeat
  end.

(** ** Timers *)
Definition heartbeatTick : M unit :=
  s ← get;
  when (t_heartbeats (s_timing s) && in_state s Ready) sendHeartbeat.

Definition handshakeTimeout : M unit :=
  s ← get;
  when (in_state s Authenticating) (fail "PROTOCOL_HANDSHAKE_TIMEOUT").

Definition expire : M unit :=
  s ← get;
  when (in_state s Ready)
    (set_state Unavailable;;
     notifyState;;
     set_available false;;
     set_diagnostic WORKER_HEARTBEAT_EXPIRED;;
     rejectPending (DiagnosticError WORKER_HEARTBEAT_EXPIRED);;
     emit [OUnavailable; OSocketClose 1001 WORKER_HEARTBEAT_EXPIRED];;
     detach).
(** The loop of [watchHeartbeat], which the main end runs, after a sleep. *)
Definition watchTick : M unit :=
  s ← get;
  when (bool_decide (c_role cfg = Main) && in_state s Ready &&
        (c_heartbeatTimeoutMs cfg <=? e_now env - t_lastHeartbeatAt (s_timing s))) expire.

(** ** Requests *)
Definition set_requests (f : Requests → Requests) : M unit := modify (with_requests f).

Definition issued_retention : Z := replayRetention limits + maxInflightMessages limits.
(** The loop ends by itself ([prune_ends]); the fuel is enough for it. *)
Fixpoint prune_loop (fuel : nat) (q : Requests) : Requests :=
  match fuel with
  | O => q
  | S fuel =>
      if issued_retention <? Z.of_nat (size (q_issuedRequestIds q)) then
        match q_issuedRequestOrder q with
        | [] => q
        | removed :: rest =>
            if includes (q_pendingRequests q) removed then
              prune_loop fuel {| q_pendingRequests := q_pendingRequests q; q_issuedRequestIds := q_issuedRequestIds q;
                                 q_issuedRequestOrder := rest ++ [removed] |}
            else
              prune_loop fuel {| q_pendingRequests := q_pendingRequests q;
                                 q_issuedRequestIds := q_issuedRequestIds q ∖ {[removed]};
                                 q_issuedRequestOrder := rest |}
        end
      else q
  end.
Definition prune_fuel (q : Requests) : nat := S (length (q_issuedRequestOrder q) * S (length (q_issuedRequestOrder q))).
Definition pruneIssuedRequests (q : Requests) : Requests := prune_loop (prune_fuel q) q.

Definition retainIssuedRequest (messageId : jstring) (q : Requests) : Requests :=
  pruneIssuedRequests {| q_pendingRequests := q_pendingRequests q; q_issuedRequestIds := q_issuedRequestIds q ∪ {[messageId]};
                         q_issuedRequestOrder := q_issuedRequestOrder q ++ [messageId] |}.
Definition drop_pending (messageId : jstring) (q : Requests) : Requests :=
  {| q_pendingRequests := List.filter (λ id, negb (streq id messageId)) (q_pendingRequests q);
     q_issuedRequestIds := q_issuedRequestIds q; q_issuedRequestOrder := q_issuedRequestOrder q |}.

Definition not_available (s : WorkerSession) : bool := negb (in_state s Ready) || negb (l_available (s_life s)).

Definition send (t : WorkerMessageType) (payload : json) (correlationId : option jstring) (binary : option bytes) : M jstring :=
  lift (rejectReservedMessageType t);;
  s ← get;
  guard (not_available s) "WORKER_SESSION_NOT_AVAILABLE";;
  sendEnvelope t payload correlationId binary None.

Definition request (t : WorkerMessageType) (payload : json) (binary : option bytes) (timeoutMs : option jsnum) : M jstring :=
  lift (rejectReservedMessageType t);;
  s ← get;
  guard (maxInflightMessages limits <=? Z.of_nat (length (q_pendingRequests (s_requests s)))) "PROTOCOL_INFLIGHT_LIMIT_EXCEEDED";;
  guard (not_available s) "WORKER_SESSION_NOT_AVAILABLE";;
  messageId ← newIdentity "message-";
  set_requests (λ q, {| q_pendingRequests := q_pendingRequests q ++ [messageId]; q_issuedRequestIds := q_issuedRequestIds q;
                        q_issuedRequestOrder := q_issuedRequestOrder q |});;
  set_requests (retainIssuedRequest messageId);;
  _ ← lift (positiveDuration timeoutMs (c_requestTimeoutMs cfg));
  handle (sendEnvelope t payload None binary (Some messageId))
    (λ e,
      set_requests (λ q, {| q_pendingRequests := List.filter (λ id, negb (streq id messageId)) (q_pendingRequests q);
                            q_issuedRequestIds := q_issuedRequestIds q ∖ {[messageId]};
                            q_issuedRequestOrder := q_issuedRequestOrder q |});;
      emit [OAbortTimeout messageId];;
      throw e).

Definition requestTimeout (messageId : jstring) : M unit :=
  s ← get;
  when (includes (q_pendingRequests (s_requests s)) messageId)
    (set_requests (λ q, pruneIssuedRequests (drop_pending messageId q));;
     emit [OResponse messageId (Err (DiagnosticError "WORKER_REQUEST_TIMEOUT"))]).

(** ** Receiving *)
Definition applicationMessageBytes (m : WorkerSessionMessage) : Z :=
  utf8_length (stringify number_text (JObj [(js "messageId", JStr (sm_messageId m)); (js "correlationId", JStr (sm_correlationId m));
    (js "type", JStr (type_text (sm_type m))); (js "payload", sm_payload m)])) +
  match sm_binary m with Some b => byteLength b | None => 0 end.

Definition queue_message (m : WorkerSessionMessage) : M unit :=
  s ← get;
  let d := s_delivery s in
  guard ((maxInflightMessages limits <=? Z.of_nat (length (d_pendingMessages d))) ||
         (maxBinaryBytes limits + maxFrameBytes limits <? d_pendingMessageBytes d + applicationMessageBytes m))
    "PROTOCOL_INFLIGHT_LIMIT_EXCEEDED";;
  modify (with_delivery (λ d, {| d_listeners := d_listeners d; d_stateListeners := d_stateListeners d;
    d_pendingMessages := d_pendingMessages d ++ [m]; d_pendingMessageBytes := d_pendingMessageBytes d + applicationMessageBytes m |})).

Definition deliver (m : WorkerSessionMessage) : M unit :=
  s ← get;
  if negb (streq (sm_correlationId m) (sm_messageId m)) then
    if includes (q_pendingRequests (s_requests s)) (sm_correlationId m) then
      set_requests (λ q, pruneIssuedRequests (drop_pending (sm_correlationId m) q));;
      emit [OAbortTimeout (sm_correlationId m); OResponse (sm_correlationId m) (Ok m)]
    else
      guard (negb (bool_decide (sm_correlationId m ∈ q_issuedRequestIds (s_requests s)))) "PROTOCOL_MESSAGE_INVALID"
  else
    match d_listeners (s_delivery s) with
    | [] => queue_message m
    | listeners => emit (map (λ l, OMessage l m) listeners)
    end.

Definition message_of (e : WorkerEnvelope) (binary : option bytes) : WorkerSessionMessage :=
  {| sm_messageId := we_messageId e; sm_correlationId := we_correlationId e; sm_type := we_type e;
     sm_payload := we_payload e; sm_binary := binary |}.
Definition dispatch (e : WorkerEnvelope) (binary : option bytes) : M unit :=
  emit [ODispatch e binary];;
  match we_type e with
  | hello => receiveHello e
  | authenticate => receiveAuthentication e
  | worker_register => handle (receiveRegistration e) registration_failed
  | session_ready => receiveReady e
  | heartbeat =>
      s ← get;
      when (bool_decide (c_role cfg = Main) && in_state s Ready)
        (set_timing (λ t, {| t_lastHeartbeatAt := e_now env; t_heartbeats := t_heartbeats t |}))
  | _ =>
      s ← get;
      guard (negb (in_state s Ready)) "PROTOCOL_HANDSHAKE_INCOMPLETE";;
      deliver (message_of e binary)
  end.

Definition set_inbound (f : Inbound → Inbound) : M unit := modify (with_inbound f).

Fixpoint forget (removed : list RetainedReplay) (fingerprints : gmap jstring jstring) : gmap jstring jstring :=
  match removed with
  | [] => fingerprints
  | r :: rest => forget rest (delete (rr_messageId r) fingerprints)
  end.
(** The loop drops from the front what is over the limit. *)
Definition retainReplay (r : RetainedReplay) (i : Inbound) : Inbound :=
  let order := i_receivedReplayOrder i ++ [r] in
  let excess := (length order - Z.to_nat (replayRetention limits))%nat in
  {| i_expectedSequence := i_expectedSequence i;
     i_receivedFingerprints := forget (take excess order) (<[rr_messageId r := rr_fingerprint r]> (i_receivedFingerprints i));
     i_receivedReplayOrder := drop excess order;
     i_pendingBinary := i_pendingBinary i; i_pendingBinaryBytes := i_pendingBinaryBytes i |}.
Definition accept_sequence (r : RetainedReplay) (i : Inbound) : Inbound :=
  retainReplay r
    {| i_expectedSequence := i_expectedSequence i + 1; i_receivedFingerprints := i_receivedFingerprints i;
       i_receivedReplayOrder := i_receivedReplayOrder i; i_pendingBinary := i_pendingBinary i;
       i_pendingBinaryBytes := i_pendingBinaryBytes i |}.
Definition with_pendingBinary (id : jstring) (p : PendingBinary) (bytes : Z) (i : Inbound) : Inbound :=
  {| i_expectedSequence := i_expectedSequence i; i_receivedFingerprints := i_receivedFingerprints i;
     i_receivedReplayOrder := i_receivedReplayOrder i; i_pendingBinary := <[id := p]> (i_pendingBinary i);
     i_pendingBinaryBytes := i_pendingBinaryBytes i + bytes |}.
Definition without_pendingBinary (id : jstring) (bytes : Z) (i : Inbound) : Inbound :=
  {| i_expectedSequence := i_expectedSequence i; i_receivedFingerprints := i_receivedFingerprints i;
     i_receivedReplayOrder := i_receivedReplayOrder i; i_pendingBinary := delete id (i_pendingBinary i);
     i_pendingBinaryBytes := i_pendingBinaryBytes i - bytes |}.

Definition receiveControl (e : WorkerEnvelope) : M unit :=
  text ← lift (parseSequence (VStr (we_sequence e)));
  let sequence := decimal_value text in
  let fingerprint := replayFingerprint e in
  s ← get;
  let retained := i_receivedFingerprints (s_inbound s) !! we_messageId e in
  let expected := i_expectedSequence (s_inbound s) in
  if sequence <? expected then
    guard (negb (bool_decide (retained = Some fingerprint))) "PROTOCOL_SEQUENCE_REPLAY"
  else
    guard (maxSequenceGap limits <? sequence - expected) "PROTOCOL_SEQUENCE_GAP_LIMIT_EXCEEDED";;
    guard (expected <? sequence) "PROTOCOL_SEQUENCE_OUT_OF_ORDER";;
    guard (bool_decide (is_Some retained)) "PROTOCOL_SEQUENCE_REPLAY";;
    set_inbound (accept_sequence {| rr_messageId := we_messageId e; rr_fingerprint := fingerprint |});;
    guard (in_state s Ready && negb (streq (we_sessionId e) (h_sessionId (s_handshake s))) &&
           negb (bool_decide (we_type e = hello))) "PROTOCOL_SESSION_ID_MISMATCH";;
    match we_binaryBytes e with
    | Some bytes =>
        guard ((maxPendingCorrelations limits <=? Z.of_nat (size (i_pendingBinary (s_inbound s)))) ||
               (maxBinaryBytes limits <? i_pendingBinaryBytes (s_inbound s) + bytes)) "PROTOCOL_BINARY_LIMIT_EXCEEDED";;
        set_inbound (with_pendingBinary (we_messageId e)
          {| pb_envelope := e; pb_chunks := []; pb_nextChunk := 0; pb_receivedBytes := 0 |} bytes)
    | None => dispatch e None
    end.

Definition receiveBinary (frame : bytes) : M unit :=
  chunk ← lift (wc_decodeBinary (c_codec cfg) frame);
  s ← get;
  match i_pendingBinary (s_inbound s) !! wb_correlationId chunk with
  | None => throw (DiagnosticError "PROTOCOL_BINARY_CORRELATION_UNKNOWN")
  | Some p =>
      guard (negb (wb_chunkIndex chunk =? pb_nextChunk p) ||
             negb (bool_decide (we_binaryChunks (pb_envelope p) = Some (wb_totalChunks chunk)))) "PROTOCOL_BINARY_ORDER_INVALID";;
      let declared := default 0 (we_binaryBytes (pb_envelope p)) in
      let received := pb_receivedBytes p + byteLength (wb_payload chunk) in
      let store (chunks : list bytes) (next : Z) :=
        set_inbound (with_pendingBinary (wb_correlationId chunk)
          {| pb_envelope := pb_envelope p; pb_chunks := chunks; pb_nextChunk := next; pb_receivedBytes := received |} 0) in
      store (pb_chunks p) (pb_nextChunk p);;
      guard ((declared <? received) || (maxBinaryBytes limits <? received)) "PROTOCOL_BINARY_LIMIT_EXCEEDED";;
      let chunks := pb_chunks p ++ [wb_payload chunk] in
      store chunks (pb_nextChunk p + 1);;
      if negb (pb_nextChunk p + 1 =? wb_totalChunks chunk) then mret tt
      else
        guard (negb (bool_decide (Some received = we_binaryBytes (pb_envelope p)))) "PROTOCOL_BINARY_INVALID";;
        set_inbound (without_pendingBinary (wb_correlationId chunk) declared);;
        dispatch (pb_envelope p) (Some (concat chunks))
  end.

(** [receive] with its [catch]. *)
Definition receive_failed (e : exn) : M unit :=
  match e with
  | DiagnosticError code => if bool_decide (e = ENVELOPE_INVALID) then fail "PROTOCOL_MESSAGE_INVALID" else fail code
  | _ => fail "PROTOCOL_FRAME_INVALID"
  end.
Definition receive (a : socket_arguments) : M unit :=
  s ← get;
  if in_state s Closed then mret tt
  else
    handle
      (frame ← lift (socketMessage a (maxFrameBytes limits));
       match frame with
       | TextFrame text => e ← lift (wc_decodeControl (c_codec cfg) text); receiveControl e
       | BinaryFrame b =>
           lift (throw_if (maxFrameBytes limits <? byteLength b) FRAME_TOO_LARGE);;
           receiveBinary b
       end)
      receive_failed.

(** ** The end of a session *)
Definition transport_code (endpointUnavailable : bool) : String.string :=
  if endpointUnavailable then diagnostic_code "WORKER_ENDPOINT_UNAVAILABLE" else diagnostic_code "WORKER_SESSION_CLOSED".
Definition end_transport (code : String.string) : M unit :=
    set_state Closed;;
    notifyState;;
    set_available false;;
    set_diagnostic code;;
    settleReady (Err (DiagnosticError code));;
    rejectPending (DiagnosticError code);;
    detach.
#[local] Arguments end_transport code%_string_scope.
Definition transportClosed (endpointUnavailable : bool) : M unit :=
  s ← get;
  if over s then detach else end_transport (transport_code endpointUnavailable).

Definition close : M unit :=
  s ← get;
  when (negb (in_state s Closed))
    (set_state Closed;;
     notifyState;;
     set_available false;;
     settleReady (Err (DiagnosticError "WORKER_SESSION_CLOSED"));;
     rejectPending (DiagnosticError "WORKER_SESSION_CLOSED");;
     emit [OSocketClose 1000 "WORKER_SESSION_CLOSED"];;
     detach).

Definition replace : M unit :=
  s ← get;
  when (negb (over s))
    (set_state Unavailable;;
     notifyState;;
     set_available false;;
     rejectPending (DiagnosticError "WORKER_SESSION_REPLACED");;
     emit [OUnavailable; OSocketClose 1000 "WORKER_SESSION_REPLACED"];;
     detach).

(** ** Listeners *)

(** [Set.add] *)
Definition add_listener (l : nat) (ls : list nat) : list nat := if includes ls l then ls else ls ++ [l].
Definition onMessage (listener : nat) : M unit :=
  s ← get;
  modify (with_delivery (λ d, {| d_listeners := add_listener listener (d_listeners d); d_stateListeners := d_stateListeners d;
    d_pendingMessages := []; d_pendingMessageBytes :=
      foldl (λ bytes m, Z.max 0 (bytes - applicationMessageBytes m)) (d_pendingMessageBytes d) (d_pendingMessages d) |}));;
  emit (map (OMessage listener) (d_pendingMessages (s_delivery s))).
Definition offMessage (listener : nat) : M unit :=
  modify (with_delivery (λ d, {| d_listeners := List.filter (λ l, negb (l =? listener)%nat) (d_listeners d);
    d_stateListeners := d_stateListeners d; d_pendingMessages := d_pendingMessages d;
    d_pendingMessageBytes := d_pendingMessageBytes d |})).
Definition onStateChange (listener : nat) : M unit :=
  modify (with_delivery (λ d, {| d_listeners := d_listeners d; d_stateListeners := add_listener listener (d_stateListeners d);
    d_pendingMessages := d_pendingMessages d; d_pendingMessageBytes := d_pendingMessageBytes d |})).
Definition offStateChange (listener : nat) : M unit :=
  modify (with_delivery (λ d, {| d_listeners := d_listeners d;
    d_stateListeners := List.filter (λ l, negb (l =? listener)%nat) (d_stateListeners d);
    d_pendingMessages := d_pendingMessages d; d_pendingMessageBytes := d_pendingMessageBytes d |})).

(** ** Events *)
Definition start : M unit :=
  s ← get;
  when (in_state s Authenticating)
    (handle sendHello
      (λ e, match e with DiagnosticError code => fail code | _ => fail "WORKER_TRANSPORT_ERROR" end)).
End handlers.
#[local] Arguments fail code%_string_scope.

Inductive Event :=
| Start                                     (** the microtask of the constructor *)
| Receive (a : socket_arguments)
| TransportClosed (code : option Z) (reason : option jstring)
| TransportError
| Registered (r : result exn jstring)       (** the promise of [onRegister] settles *)
| HandshakeTimer
| HeartbeatTimer
| WatchTimer
| RequestTimer (messageId : jstring)
| Send (t : WorkerMessageType) (payload : json) (correlationId : option jstring) (binary : option bytes)
| Request (t : WorkerMessageType) (payload : json) (binary : option bytes) (timeoutMs : option jsnum)
| OnMessage (listener : nat)
| OffMessage (listener : nat)
| OnStateChange (listener : nat)
| OffStateChange (listener : nat)
| Close
| Replace.

Definition run (m : M unit) (s : WorkerSession) : WorkerSession * list Output :=
  let '(w, _) := m {| w_session := s; w_out := []; w_sends := O |} in (w_session w, w_out w).
(** The listeners of the socket are gone once a session is detached. *)
Definition attached (m : M unit) : M unit := s ← get; when (negb (l_detached (s_life s))) m.
(** The call gives its result, or rejects. *)
Definition returning (m : M jstring) : M unit :=
  r ← handle (id ← m; mret (Ok id)) (λ e, mret (Err e));
  emit [OReturn r].

Definition handler (cfg : SessionConfig) (env : Env) (e : Event) : M unit :=
  match e with
  | Start => start cfg env
  | Receive a => attached (receive cfg env a)
  | TransportClosed code reason => attached (transportClosed (isRetryableEndpointClose code reason))
  | TransportError => attached (fail "WORKER_TRANSPORT_ERROR")
  | Registered r => registered cfg env r
  | HandshakeTimer => handshakeTimeout
  | HeartbeatTimer => heartbeatTick cfg env
  | WatchTimer => watchTick cfg env
  | RequestTimer id => requestTimeout cfg id
  | Send t payload correlationId binary => returning (send cfg env t payload correlationId binary)
  | Request t payload binary timeoutMs => returning (request cfg env t payload binary timeoutMs)
  | OnMessage l => onMessage l
  | OffMessage l => offMessage l
  | OnStateChange l => onStateChange l
  | OffStateChange l => offStateChange l
  | Close => close
  | Replace => replace
  end.
Definition step (cfg : SessionConfig) (s : WorkerSession) (e : Env * Event) : WorkerSession * list Output :=
  run (handler cfg e.1 e.2) s.
Fixpoint steps (cfg : SessionConfig) (s : WorkerSession) (es : list (Env * Event)) : WorkerSession * list Output :=
  match es with
  | [] => (s, [])
  | e :: es => let '(s1, o1) := step cfg s e in let '(s2, o2) := steps cfg s1 es in (s2, o1 ++ o2)
  end.

(** ** The constructor *)
Record WorkerSessionOptions := {
  so_role : WorkerSessionRole;
  so_credential : option jstring;
  so_resolveCredential : option (jstring → option jstring);
  so_heartbeatIntervalMs : option jsnum;
  so_heartbeatTimeoutMs : option jsnum;
  so_handshakeTimeoutMs : option jsnum;
  so_requestTimeoutMs : option jsnum;
  so_worker : option (list (jstring * json));
  so_onRegister : bool;
}.

(** [codec] is [createWorkerCodec(options.limits, options.protocol ?? 1.0)],
    [nonce] the random one. *)
Definition createSession (o : WorkerSessionOptions) (codec : result exn WorkerCodec) (nonce : jstring)
  : result exn (SessionConfig * WorkerSession) :=
  credential ← match so_credential o with None => Ok (js "unauthorized-" ++ uuid 0) | Some c => normalizeCredential c end;
  codec ← codec;
  interval ← positiveDuration (so_heartbeatIntervalMs o) 5000;
  timeout ← positiveDuration (so_heartbeatTimeoutMs o) 15000;
  handshake ← positiveDuration (so_handshakeTimeoutMs o) 10000;
  requestTimeout ← positiveDuration (so_requestTimeoutMs o) 15000;
  worker ← match so_worker o with None => Ok None | Some w => r ← normalizeRegistration w; Ok (Some r) end;
  principal ← match so_role o with
              | Worker =>
                  match so_credential o, worker with
                  | Some _, Some w => Ok (Some (wr_workerId w))
                  | _, _ => Err TypeError
                  end
              | Main => match so_resolveCredential o with Some _ => Ok None | None => Err TypeError end
              end;
  sessionId ← parseSessionId (VStr (js "session-" ++ uuid 1));
  Ok ({| c_role := so_role o; c_codec := codec; c_resolveCredential := so_resolveCredential o;
         c_heartbeatIntervalMs := interval; c_heartbeatTimeoutMs := timeout; c_handshakeTimeoutMs := handshake;
         c_requestTimeoutMs := requestTimeout; c_worker := worker; c_onRegister := so_onRegister o; c_nonce := nonce |},
      {| s_life := {| l_state := Authenticating; l_available := false; l_acceptingAssignments := false; l_diagnostic := None;
                      l_readySettled := false; l_detached := false; l_closedNotified := false |};
         s_handshake := {| h_credential := credential; h_sessionId := sessionId; h_epoch := js "0"; h_remoteNonce := None;
                           h_remoteRole := None; h_remoteHelloSessionId := None; h_principalWorkerId := principal;
                           h_principalAuthorized := bool_decide (so_role o = Worker); h_peerAuthenticated := false;
                           h_helloSent := false; h_authenticationSent := false; h_registrationSent := false;
                           h_registrationPending := false |};
         s_inbound := {| i_expectedSequence := 0; i_receivedFingerprints := ∅; i_receivedReplayOrder := [];
                         i_pendingBinary := ∅; i_pendingBinaryBytes := 0 |};
         s_delivery := {| d_listeners := []; d_stateListeners := []; d_pendingMessages := []; d_pendingMessageBytes := 0 |};
         s_requests := {| q_pendingRequests := []; q_issuedRequestIds := ∅; q_issuedRequestOrder := [] |};
         s_outbound := {| u_nextSequence := 0; u_identities := 2 |};
         s_timing := {| t_lastHeartbeatAt := 0; t_heartbeats := false |} |}).
End session.
