(* ===== verification/SessionSteps.v ===== *)
(** * The steps of a session

    What the handlers of Session.v do, as a sequence of small steps. Each step
    says what changes, when, and what is put out, so that a property of sessions
    is a property of the steps; [step_atoms] is the one place that follows the
    handlers' code. *)

From S2P Require Import Prelude JsString Collections Regex JsValue Identity Time JsonText Canonical JsonParse Placement Execution Bytes Codec Session.

Open Scope Z_scope.

(** ** Reasoning about handlers *)
Definition wp {A} (m : M A) (Q : result exn A → World → Prop) (w : World) : Prop :=
  Q (m w).2 (m w).1.

Lemma swp_mono {A} (m : M A) (Q Q' : result exn A → World → Prop) w : wp m Q w → (∀ r w', Q r w' → Q' r w') → wp m Q' w.
Proof. unfold wp. auto. Qed.
Lemma swp_and {A} (m : M A) Q Q' w : wp m Q w → wp m Q' w → wp m (λ r w', Q r w' ∧ Q' r w') w.
Proof. done. Qed.
Lemma swp_bind {A B} (m : M A) (f : A → M B) Q w :
  wp m (λ r w', match r with Ok a => wp (f a) Q w' | Err e => Q (Err e) w' end) w → wp (m ≫= f) Q w.
Proof. unfold wp, mbind, m_bind. by destruct (m w) as [w' []]. Qed.
Lemma swp_ret {A} (a : A) Q w : Q (Ok a) w → wp (mret a) Q w.
Proof. done. Qed.
Lemma swp_throw {A} e (Q : result exn A → World → Prop) w : Q (Err e) w → wp (throw e) Q w.
Proof. done. Qed.
Lemma swp_lift {A} (r : result exn A) Q w : (∀ x, r = x → Q x w) → wp (lift r) Q w.
Proof. intros H. by apply H. Qed.
Lemma swp_guard b code Q w : (b = true → Q (Err (DiagnosticError code)) w) → (b = false → Q (Ok tt) w) → wp (guard b code) Q w.
Proof. unfold guard, wp. destruct b; cbn; auto. Qed.
Lemma swp_get Q w : Q (Ok (w_session w)) w → wp get Q w.
Proof. done. Qed.
Lemma swp_modify f Q w : Q (Ok tt) {| w_session := f (w_session w); w_out := w_out w; w_sends := w_sends w |} → wp (modify f) Q w.
Proof. done. Qed.
Lemma swp_emit os Q w : Q (Ok tt) {| w_session := w_session w; w_out := w_out w ++ os; w_sends := w_sends w |} → wp (emit os) Q w.
Proof. done. Qed.
Lemma swp_handle {A} (m : M A) h Q w :
  wp m (λ r w', match r with Ok a => Q (Ok a) w' | Err e => wp (h e) Q w' end) w → wp (handle m h) Q w.
Proof. unfold wp, handle. by destruct (m w) as [w' []]. Qed.
Lemma swp_when b m Q w : (b = true → wp m Q w) → (b = false → Q (Ok tt) w) → wp (when b m) Q w.
Proof. intros H1 H2. destruct b; [by apply H1|by apply H2]. Qed.

Lemma in_state_true s t : in_state s t = true ↔ state s = t.
Proof. unfold in_state. apply bool_decide_eq_true. Qed.

(** ** What a step puts out *)
Definition requests_empty : Requests := {| q_pendingRequests := []; q_issuedRequestIds := ∅; q_issuedRequestOrder := [] |}.
Definition delivery_empty : Delivery := {| d_listeners := []; d_stateListeners := []; d_pendingMessages := []; d_pendingMessageBytes := 0 |}.
Definition inbound_cleared (i : Inbound) : Inbound := {|
  i_expectedSequence := i_expectedSequence i; i_receivedFingerprints := i_receivedFingerprints i;
  i_receivedReplayOrder := i_receivedReplayOrder i; i_pendingBinary := ∅; i_pendingBinaryBytes := 0 |}.
Definition notified (s : WorkerSession) (st : WorkerSessionState) : list Output :=
  map (λ l, OStateChange l st) (d_stateListeners (s_delivery s)).
Definition ready_out (s : WorkerSession) (r : result exn unit) : list Output :=
  if l_readySettled (s_life s) then [] else [OReady r].
Definition rejected (s : WorkerSession) (e : exn) : list Output :=
  flat_map (λ id, [OAbortTimeout id; OResponse id (Err e)]) (q_pendingRequests (s_requests s)).
Definition closed_out (s : WorkerSession) : list Output :=
  if l_detached (s_life s) || l_closedNotified (s_life s) then [] else [OClosed].

(** The session when it ends as [st]; [ready] says whether [ready] is rejected,
    [d] is the diagnostic. *)
Definition finished (st : WorkerSessionState) (ready : bool) (d : option String.string) (s : WorkerSession) : WorkerSession := {|
  s_life := {| l_state := st; l_available := false; l_acceptingAssignments := false; l_diagnostic := d;
               l_readySettled := l_readySettled (s_life s) || ready; l_detached := true;
               l_closedNotified := l_closedNotified (s_life s) || negb (l_detached (s_life s)) |};
  s_handshake := s_handshake s;
  s_inbound := inbound_cleared (s_inbound s);
  s_delivery := if l_detached (s_life s) then s_delivery s else delivery_empty;
  s_requests := requests_empty;
  s_outbound := s_outbound s;
  s_timing := s_timing s |}.
Definition finish_out (st : WorkerSessionState) (ready : bool) (e : exn) (extra : list Output) (s : WorkerSession) : list Output :=
  notified s st ++ (if ready then ready_out s (Err e) else []) ++ rejected s e ++ extra ++ closed_out s.

(** Each way to end a session, as one change. *)
Lemma run_get {B} (m : WorkerSession → M B) w : (s ← get; m s) w = m (w_session w) w.
Proof. done. Qed.
#[local] Arguments closeCode : simpl never.
#[local] Arguments diagnostic_code : simpl never.
Lemma run_bind {A B} (m : M A) (f : A → M B) w w' a : m w = (w', Ok a) → (m ≫= f) w = f a w'.
Proof. unfold mbind, m_bind. by intros ->. Qed.
Definition put (w : World) (s : WorkerSession) (os : list Output) : World :=
  {| w_session := s; w_out := w_out w ++ os; w_sends := w_sends w |}.
Lemma run_modify f w : modify f w = (put w (f (w_session w)) [], Ok tt).
Proof. unfold put, modify. by rewrite app_nil_r. Qed.
Lemma run_emit os w : emit os w = (put w (w_session w) os, Ok tt).
Proof. done. Qed.
Lemma run_notifyState w : notifyState w = (put w (w_session w) (notified (w_session w) (state (w_session w))), Ok tt).
Proof. done. Qed.
Lemma run_settleReady r w :
  settleReady r w = (put w (with_life with_readySettled (w_session w)) (ready_out (w_session w) r), Ok tt).
Proof.
  destruct w as [[[st av acc d rs dt cn] h i dl q u t] out n]. unfold settleReady, ready_out, put. cbn.
  destruct rs; cbn; [|done]. by rewrite app_nil_r.
Qed.
Lemma run_rejectPending e w :
  rejectPending e w = (put w (with_requests (λ _, requests_empty) (with_inbound inbound_cleared (w_session w))) (rejected (w_session w) e), Ok tt).
Proof. done. Qed.
Lemma put_put w s os s' os' : put (put w s os) s' os' = put w s' (os ++ os').
Proof. unfold put. cbn. by rewrite app_assoc. Qed.
Definition detached (s : WorkerSession) : WorkerSession := {|
  s_life := {| l_state := state s; l_available := l_available (s_life s); l_acceptingAssignments := l_acceptingAssignments (s_life s);
    l_diagnostic := l_diagnostic (s_life s); l_readySettled := l_readySettled (s_life s); l_detached := true;
    l_closedNotified := l_closedNotified (s_life s) || negb (l_detached (s_life s)) |};
  s_handshake := s_handshake s; s_inbound := s_inbound s;
  s_delivery := if l_detached (s_life s) then s_delivery s else delivery_empty;
  s_requests := s_requests s; s_outbound := s_outbound s; s_timing := s_timing s |}.
Lemma run_detach w : detach w = (put w (detached (w_session w)) (closed_out (w_session w)), Ok tt).
Proof.
  destruct w as [[[st av acc d rs dt cn] h i dl q u t] out n]. unfold detach, closed_out, put, detached. cbn.
  destruct dt; cbn; [by rewrite app_nil_r, orb_false_r|]. destruct cn; cbn; by rewrite ?app_nil_r.
Qed.

Ltac run_end :=
  unfold when; cbn [negb];
  unfold set_state, set_available, set_diagnostic;
  repeat match goal with
  | |- context [(modify ?f ≫= ?k) ?w] => rewrite (run_bind _ k _ _ _ (run_modify f w))
  | |- context [(notifyState ≫= ?k) ?w] => rewrite (run_bind _ k _ _ _ (run_notifyState w))
  | |- context [(settleReady ?r ≫= ?k) ?w] => rewrite (run_bind _ k _ _ _ (run_settleReady r w))
  | |- context [(rejectPending ?e ≫= ?k) ?w] => rewrite (run_bind _ k _ _ _ (run_rejectPending e w))
  | |- context [(emit ?os ≫= ?k) ?w] => rewrite (run_bind _ k _ _ _ (run_emit os w))
  end;
  rewrite run_detach, !put_put; cbn [w_session put];
  match goal with w : World |- _ => destruct w as [[[? ? ? ? ? ? ?] ? ? ? ? ? ?] ? ?] end;
  apply f_equal2; [apply f_equal2|]; [unfold finished, detached; cbn; rewrite ?orb_true_r, ?orb_false_r; reflexivity
    |unfold finish_out; cbn [app]; rewrite <- ?app_assoc; reflexivity|reflexivity].

Lemma run_fail code w :
  fail code w = if over (w_session w) then (w, Ok tt)
  else (put w (finished Closed true (Some code) (w_session w))
    (finish_out Closed true (DiagnosticError code) [OSocketClose (closeCode code) code] (w_session w)), Ok tt).
Proof. unfold fail. rewrite run_get. destruct (over (w_session w)); [done|]. 
  run_end.
Qed.

Lemma run_close w :
  close w = if in_state (w_session w) Closed then (w, Ok tt)
  else (put w (finished Closed true (l_diagnostic (s_life (w_session w))) (w_session w))
    (finish_out Closed true (DiagnosticError "WORKER_SESSION_CLOSED") [OSocketClose 1000 "WORKER_SESSION_CLOSED"] (w_session w)), Ok tt).
Proof. unfold close. rewrite run_get. destruct (in_state (w_session w) Closed); [done|]. run_end. Qed.

Lemma run_replace w :
  replace w = if over (w_session w) then (w, Ok tt)
  else (put w (finished Unavailable false (l_diagnostic (s_life (w_session w))) (w_session w))
    (finish_out Unavailable false (DiagnosticError "WORKER_SESSION_REPLACED")
             [OUnavailable; OSocketClose 1000 "WORKER_SESSION_REPLACED"] (w_session w)), Ok tt).
Proof. unfold replace. rewrite run_get. destruct (over (w_session w)); [done|]. run_end. Qed.

Lemma run_expire w :
  expire w = if in_state (w_session w) Ready then
    (put w (finished Unavailable false (Some WORKER_HEARTBEAT_EXPIRED) (w_session w))
    (finish_out Unavailable false (DiagnosticError WORKER_HEARTBEAT_EXPIRED)
          [OUnavailable; OSocketClose 1001 WORKER_HEARTBEAT_EXPIRED] (w_session w)), Ok tt)
  else (w, Ok tt).
Proof. unfold expire. rewrite run_get. destruct (in_state (w_session w) Ready); [|done]. run_end. Qed.

Lemma run_transportClosed b w :
  l_detached (s_life (w_session w)) = over (w_session w) →
  transportClosed b w = if over (w_session w) then (w, Ok tt)
  else (put w (finished Closed true (Some (transport_code b)) (w_session w))
    (finish_out Closed true (DiagnosticError (transport_code b)) [] (w_session w)), Ok tt).
Proof.
  intros Hd. unfold transportClosed. rewrite run_get. destruct (over (w_session w)).
  - rewrite run_detach. destruct w as [[[st av acc d rs dt cn] h i dl q u t] out n]. cbn in Hd. subst dt.
    unfold put, detached, closed_out. cbn. by rewrite orb_false_r, app_nil_r.
  - clear Hd. unfold transport_code. destruct b; unfold end_transport; run_end.
Qed.

(** ** The small steps *)
Definition bump (s : WorkerSession) : WorkerSession :=
  with_outbound (λ u, {| u_nextSequence := u_nextSequence u; u_identities := S (u_identities u) |}) s.
Definition is_app (t : WorkerMessageType) : bool := negb (includes RESERVED_SESSION_MESSAGE_TYPES t).

(** Two sessions that differ in the handshake and the binaries of messages only,
    which is what an exception may leave undone. *)
Record broken (s s' : WorkerSession) : Prop := {
  br_life : s_life s' = s_life s;
  br_delivery : s_delivery s' = s_delivery s;
  br_requests : s_requests s' = s_requests s;
  br_outbound : s_outbound s' = s_outbound s;
  br_timing : s_timing s' = s_timing s;
  br_inbound : inbound_cleared (s_inbound s') = inbound_cleared (s_inbound s);
  br_over : over s = true → s_inbound s' = s_inbound s;
}.
Lemma broken_refl s : broken s s.
Proof. by split. Qed.

(** What goes out beside the promises when a session ends as [st]. *)
Inductive farewell (st : WorkerSessionState) : list Output → Prop :=
| farewell_none : farewell st []
| farewell_close code reason : st = Closed → farewell st [OSocketClose code reason]
| farewell_unavailable code reason : st = Unavailable → farewell st [OUnavailable; OSocketClose code reason].

Section steps.
Context (number_text : jsnum → jstring) (sha256 : jstring → jstring) (hmac : jstring → jstring → jstring) (uuid : nat → jstring).
Context (cfg : SessionConfig).
(** The frames the socket has handed over. *)
Context (seen : Frame → Prop).
(** What the owner has asked the session to send. *)
Context (asked : WorkerMessageType → json → option jstring → option bytes → Prop).
(** The epochs it has given the worker. *)
Context (told : jstring → Prop).
Abbreviation limits := (wc_limits (c_codec cfg)).
Abbreviation codec := (c_codec cfg).

Definition known (e : WorkerEnvelope) : Prop := ∃ t, seen (TextFrame t) ∧ wc_decodeControl codec t = Ok e.
Definition replay_of (e : WorkerEnvelope) : RetainedReplay :=
  {| rr_messageId := we_messageId e; rr_fingerprint := replayFingerprint number_text sha256 e |}.
Definition accepted (e : WorkerEnvelope) (s : WorkerSession) : WorkerSession := with_inbound (accept_sequence cfg (replay_of e)) s.

(** The next control frame in sequence. *)
Record next_control (s : WorkerSession) (e : WorkerEnvelope) : Prop := {
  nc_known : known e;
  nc_over : over s = false;
  nc_sequence : decimal_value (we_sequence e) = i_expectedSequence (s_inbound s);
  nc_fresh : i_receivedFingerprints (s_inbound s) !! we_messageId e = None;
}.
(** The next chunk of a binary. *)
Record next_chunk (s : WorkerSession) (c : WorkerBinaryChunk) (p : PendingBinary) : Prop := {
  ch_seen : ∃ f, seen (BinaryFrame f) ∧ wc_decodeBinary codec f = Ok c;
  ch_over : over s = false;
  ch_pending : i_pendingBinary (s_inbound s) !! wb_correlationId c = Some p;
  ch_index : wb_chunkIndex c = pb_nextChunk p;
  ch_total : we_binaryChunks (pb_envelope p) = Some (wb_totalChunks c);
  ch_declared : pb_receivedBytes p + byteLength (wb_payload c) <= default 0 (we_binaryBytes (pb_envelope p));
}.
Definition with_chunk (c : WorkerBinaryChunk) (p : PendingBinary) : PendingBinary :=
  {| pb_envelope := pb_envelope p; pb_chunks := pb_chunks p ++ [wb_payload c]; pb_nextChunk := pb_nextChunk p + 1;
     pb_receivedBytes := pb_receivedBytes p + byteLength (wb_payload c) |}.

(** An envelope is complete, with its binary. *)
Inductive intake (s : WorkerSession) : WorkerEnvelope → option bytes → WorkerSession → Prop :=
| intake_control e : next_control s e → we_binaryBytes e = None → intake s e None (accepted e s)
| intake_binary c p : next_chunk s c p → pb_nextChunk p + 1 = wb_totalChunks c →
    Some (pb_receivedBytes p + byteLength (wb_payload c)) = we_binaryBytes (pb_envelope p) →
    intake s (pb_envelope p) (Some (concat (pb_chunks p ++ [wb_payload c])))
      (with_inbound (without_pendingBinary (wb_correlationId c) (default 0 (we_binaryBytes (pb_envelope p)))) s).

(** Where a message goes. *)
Inductive outcome (s : WorkerSession) (m : WorkerSessionMessage) : list Output → WorkerSession → Prop :=
| to_request : sm_correlationId m ≠ sm_messageId m → sm_correlationId m ∈ q_pendingRequests (s_requests s) →
    outcome s m [OAbortTimeout (sm_correlationId m); OResponse (sm_correlationId m) (Ok m)]
      (with_requests (λ q, pruneIssuedRequests cfg (drop_pending (sm_correlationId m) q)) s)
| to_nobody : sm_correlationId m ≠ sm_messageId m → sm_correlationId m ∈ q_issuedRequestIds (s_requests s) → outcome s m [] s
| to_listeners : sm_correlationId m = sm_messageId m → d_listeners (s_delivery s) ≠ [] →
    outcome s m (map (λ l, OMessage l m) (d_listeners (s_delivery s))) s
| to_queue : sm_correlationId m = sm_messageId m → d_listeners (s_delivery s) = [] →
    Z.of_nat (length (d_pendingMessages (s_delivery s))) < maxInflightMessages limits →
    d_pendingMessageBytes (s_delivery s) + applicationMessageBytes number_text m <= maxBinaryBytes limits + maxFrameBytes limits →
    outcome s m []
      (with_delivery (λ d, {| d_listeners := d_listeners d; d_stateListeners := d_stateListeners d;
         d_pendingMessages := d_pendingMessages d ++ [m];
         d_pendingMessageBytes := d_pendingMessageBytes d + applicationMessageBytes number_text m |}) s).

(** A payload of the session itself. *)
Definition own_payload (p : json) : Prop := keyed p = true ∨ ∃ w, c_worker cfg = Some w ∧ p = registration_json w.
(** The frames of an envelope a session makes under its next sequence number. *)
Record made (s : WorkerSession) (id : jstring) (e : WorkerEnvelope) (binary : option bytes) (frames : list Frame) : Prop := {
  md_id : we_messageId e = id;
  md_session : we_sessionId e = h_sessionId (s_handshake s);
  md_sequence : we_sequence e = show_nat (u_nextSequence (s_outbound s));
  md_asked : ∃ payload correlation, serialize payload = Some (we_payload e) ∧ we_correlationId e = default id correlation ∧
    (is_app (we_type e) = true → asked (we_type e) payload correlation binary) ∧
    (is_app (we_type e) = false → own_payload payload);
  md_bytes : we_binaryBytes e = byteLength <$> binary;
  md_chunks : we_binaryChunks e = chunk_count cfg <$> binary;
  md_size : match binary with Some b => binary_too_large cfg b = false | None => True end;
  md_frames : ∃ control chunks, wc_encodeControl codec e = Ok control ∧
    match binary with Some b => chunk_frames cfg id b | None => Ok [] end = Ok chunks ∧ frames = TextFrame control :: chunks;
}.
Definition numbered (s : WorkerSession) : WorkerSession :=
  with_outbound (λ u, {| u_nextSequence := u_nextSequence u + 1; u_identities := u_identities u |}) s.
Definition message_id (s : WorkerSession) : jstring := js "message-" ++ uuid (u_identities (s_outbound s)).

Definition issued (id : jstring) (q : Requests) : Requests :=
  retainIssuedRequest cfg id {| q_pendingRequests := q_pendingRequests q ++ [id]; q_issuedRequestIds := q_issuedRequestIds q;
                                q_issuedRequestOrder := q_issuedRequestOrder q |}.
Definition withdrawn (id : jstring) (q : Requests) : Requests :=
  {| q_pendingRequests := List.filter (λ i, negb (streq i id)) (q_pendingRequests q);
     q_issuedRequestIds := q_issuedRequestIds q ∖ {[id]}; q_issuedRequestOrder := q_issuedRequestOrder q |}.
(** A request may be made. *)
Definition may_request (s : WorkerSession) : Prop :=
  state s = Ready ∧ Z.of_nat (length (q_pendingRequests (s_requests s))) < maxInflightMessages limits.
(** The requests beside which an envelope is sent: its own is among them. *)
Inductive requesting (s : WorkerSession) (id : jstring) : Requests → Prop :=
| requesting_no : requesting s id (s_requests s)
| requesting_yes : may_request s → requesting s id (issued id (s_requests s)).

(** The handshake after a hello. *)
Definition greeted (nonce : jstring) (role : WorkerSessionRole) (sessionId : jstring) (h h' : Handshake) : Prop :=
  match c_role cfg with
  | Worker => h' = with_remote nonce role sessionId h
  | Main => ∃ workerId,
      let resolved := c_resolveCredential cfg ≫= λ f, f workerId in
      h' = with_sessionId sessionId
             (match resolved with Some c => with_credential c | None => λ h, h end
               (with_principal workerId (bool_decide (is_Some resolved)) (with_remote nonce role sessionId h)))
  end.
(** The proof of an envelope is the one its sender makes with the credential. *)
Definition proven (h : Handshake) (e : WorkerEnvelope) : Prop :=
  ∃ workerId nonce role fields proof,
    h_principalWorkerId h = Some workerId ∧ h_remoteNonce h = Some nonce ∧ h_remoteRole h = Some role ∧
    we_type e = authenticate ∧ we_payload e = JObj fields ∧ JsMap.get fields (js "proof") = Some (JStr proof) ∧
    verifyAuthenticationProof hmac (h_credential h) workerId nonce (c_nonce cfg) role proof = true.

Definition ready_session (epoch : jstring) (f : Timing → Timing) (s : WorkerSession) : WorkerSession :=
  with_timing f (with_life (with_available true) (with_life (with_state Ready) (with_handshake (with_epoch epoch) s))).

Inductive atom (s : WorkerSession) : list Output → WorkerSession → Prop :=
(** The session ends, here or at the other side of an exception. *)
| a_finish st ready d e extra s1 :
    over s = false ∨ state s = Unavailable ∧ st = Closed → st = Closed ∧ ready = true ∨ st = Unavailable ∧ ready = false →
    farewell st extra → broken s s1 →
    atom s (finish_out st ready e extra s1) (finished st ready d s1)
| a_late h : over s = true → atom s [] (with_handshake (λ _, h) s)
(** Sending *)
| a_identity : atom s [] (bump s)
| a_envelope e b frames q : over s = false → made s (message_id s) e b frames → requesting s (message_id s) q →
    atom s (map OSend frames) (numbered (bump (with_requests (λ _, q) s)))
| a_envelope_cut e b frames n q d x extra : over s = false → made s (message_id s) e b frames → requesting s (message_id s) q →
    farewell Closed extra →
    atom s (map OSend (take n frames) ++ finish_out Closed true x extra (numbered (bump (with_requests (λ _, q) s))))
      (finished Closed true d (numbered (bump (with_requests (λ _, q) s))))
(** The handshake *)
| a_flag f : (∃ b, f = with_helloSent b) ∨ f = with_authenticationSent ∨ f = with_registrationSent → atom s [] (with_handshake f s)
| a_hello nonce role sessionId h' : state s = Authenticating → h_remoteNonce (s_handshake s) = None → role ≠ c_role cfg →
    greeted nonce role sessionId (s_handshake s) h' → atom s [] (with_handshake (λ _, h') s)
| a_authenticated e : known e → over s = false → proven (s_handshake s) e → h_principalAuthorized (s_handshake s) = true →
    atom s [] (with_handshake with_peerAuthenticated s)
| a_registration r : c_role cfg = Main → state s = Authenticating → h_registrationPending (s_handshake s) = false →
    h_peerAuthenticated (s_handshake s) = true → h_remoteRole (s_handshake s) = Some Worker →
    h_principalWorkerId (s_handshake s) = Some (wr_workerId r) →
    atom s [ORegister r] (with_handshake with_registrationPending s)
| a_ready epoch f : state s = Authenticating →
    h_registrationPending (s_handshake s) = true ∧ told epoch ∨ c_role cfg = Worker ∧ h_peerAuthenticated (s_handshake s) = true →
    decimal_value epoch <= MAXIMUM_UNSIGNED_64 →
    atom s (notified s Ready) (ready_session epoch f s)
| a_settle : state s = Ready → atom s (ready_out s (Ok tt)) (with_life with_readySettled s)
| a_timing f : atom s [] (with_timing f s)
(** Receiving *)
| a_drop e : next_control s e → atom s [] (accepted e s)
| a_open e bytes : next_control s e → we_binaryBytes e = Some bytes →
    Z.of_nat (size (i_pendingBinary (s_inbound s))) < maxPendingCorrelations limits →
    i_pendingBinaryBytes (s_inbound s) + bytes <= maxBinaryBytes limits →
    atom s [] (with_inbound (with_pendingBinary (we_messageId e)
      {| pb_envelope := e; pb_chunks := []; pb_nextChunk := 0; pb_receivedBytes := 0 |} bytes) (accepted e s))
| a_chunk c p : next_chunk s c p → pb_nextChunk p + 1 ≠ wb_totalChunks c →
    atom s [] (with_inbound (with_pendingBinary (wb_correlationId c) (with_chunk c p) 0) s)
| a_intake e b s' : intake s e b s' → atom s [ODispatch e b] s'
| a_message e b s' os s'' : intake s e b s' → state s = Ready → is_app (we_type e) = true → outcome s' (message_of e b) os s'' →
    atom s (ODispatch e b :: os) s''
(** Requests *)
| a_timeout id : id ∈ q_pendingRequests (s_requests s) →
    atom s [OResponse id (Err (DiagnosticError "WORKER_REQUEST_TIMEOUT"))]
      (with_requests (λ q, pruneIssuedRequests cfg (drop_pending id q)) s)
| a_issue : may_request s → atom s [] (bump (with_requests (issued (message_id s)) s))
| a_undo : may_request s → atom s [] (bump (with_requests (λ q, withdrawn (message_id s) (issued (message_id s) q)) s))
| a_note os : (∃ id, os = [OAbortTimeout id]) ∨ (∃ r, os = [OReturn r]) → atom s os s
(** Listeners *)
| a_listeners ls sts : (NoDup (d_listeners (s_delivery s)) → NoDup ls) → atom s [] (with_delivery (λ d, {| d_listeners := ls; d_stateListeners := sts;
    d_pendingMessages := d_pendingMessages d; d_pendingMessageBytes := d_pendingMessageBytes d |}) s)
| a_flush l :
    atom s (map (OMessage l) (d_pendingMessages (s_delivery s)))
      (with_delivery (λ d, {| d_listeners := add_listener l (d_listeners d); d_stateListeners := d_stateListeners d;
         d_pendingMessages := []; d_pendingMessageBytes :=
           foldl (λ bytes m, Z.max 0 (bytes - applicationMessageBytes number_text m)) (d_pendingMessageBytes d) (d_pendingMessages d) |}) s).

Inductive atoms : WorkerSession → list Output → WorkerSession → Prop :=
| atoms_nil s : atoms s [] s
| atoms_cons s os s' os' s'' : atom s os s' → atoms s' os' s'' → atoms s (os ++ os') s''.

Lemma atoms_trans s os s' os' s'' : atoms s os s' → atoms s' os' s'' → atoms s (os ++ os') s''.
Proof.
  induction 1 as [|s os s1 os1 s2 H1 _ IH]; [done|]. intros H. rewrite <- app_assoc. eapply atoms_cons; [done|by apply IH].
Qed.
Lemma atoms_one s os s' : atom s os s' → atoms s os s'.
Proof. intros H. rewrite <- (app_nil_r os). eapply atoms_cons; [done|constructor]. Qed.
Lemma atoms_snoc s os s' os' s'' : atoms s os s' → atom s' os' s'' → atoms s (os ++ os') s''.
Proof. intros H1 H2. eapply atoms_trans; [done|by apply atoms_one]. Qed.

(** An invariant of a session and of all it has put out. *)
Lemma atoms_invariant (P : WorkerSession → list Output → Prop) s os s' out :
  (∀ s os s' out, P s out → atom s os s' → P s' (out ++ os)) → P s out → atoms s os s' → P s' (out ++ os).
Proof.
  intros Hstep H Ha. revert out H. induction Ha as [|s os s1 os1 s2 H1 _ IH]; intros out H; [by rewrite app_nil_r|].
  rewrite app_assoc. apply IH. by eapply Hstep.
Qed.

(** ** The handlers take these steps *)
Definition TRANSPORT_ERROR : String.string := diagnostic_code "WORKER_TRANSPORT_ERROR".

Lemma swp_sendFrames env frames w Q :
  over (w_session w) = false →
  (∀ w', w_session w' = w_session w → w_out w' = w_out w ++ map OSend frames → Q (Ok tt) w') →
  (∀ n w', w_session w' = finished Closed true (Some TRANSPORT_ERROR) (w_session w) →
    w_out w' = w_out w ++ map OSend (take n frames) ++
      finish_out Closed true (DiagnosticError TRANSPORT_ERROR) [OSocketClose (closeCode TRANSPORT_ERROR) TRANSPORT_ERROR] (w_session w) →
    Q (Err (DiagnosticError TRANSPORT_ERROR)) w') →
  wp (sendFrames env frames) Q w.
Proof.
  revert w. induction frames as [|f frames IH]; intros w Ho Hok Herr; cbn [sendFrames].
  - apply swp_ret, Hok; [done|by rewrite app_nil_r].
  - unfold wp. destruct (e_sends env (w_sends w)) eqn:E.
    + apply IH; [done| |].
      * intros w' Hs Hout. apply Hok; [done|]. rewrite Hout. cbn. by rewrite <- app_assoc.
      * intros n w' Hs Hout. apply (Herr (S n)); [done|]. rewrite Hout. cbn. by rewrite <- app_assoc.
    + unfold mbind, m_bind. rewrite run_fail, Ho. apply (Herr O); [done|]. by cbn.
Qed.

(** The three ends of a call: nothing is sent; all is; the socket throws. *)
Definition sender (sup : option jstring) (s : WorkerSession) : WorkerSession := match sup with Some _ => s | None => bump s end.
Definition sender_id (sup : option jstring) (s : WorkerSession) : jstring := match sup with Some id => id | None => message_id s end.

Lemma swp_sendEnvelope env t p c b sup w Q :
  let s := w_session w in
  (is_app t = true → asked t p c b) → (is_app t = false → own_payload p) →
  (∀ e w', w_out w' = w_out w → w_session w' = s ∨ w_session w' = sender sup s → Q (Err e) w') →
  (∀ e frames w', over s = false → we_type e = t → made s (sender_id sup s) e b frames → w_out w' = w_out w ++ map OSend frames →
    w_session w' = numbered (sender sup s) → Q (Ok (sender_id sup s)) w') →
  (∀ e frames n w', over s = false → made s (sender_id sup s) e b frames →
    w_session w' = finished Closed true (Some TRANSPORT_ERROR) (numbered (sender sup s)) →
    w_out w' = w_out w ++ map OSend (take n frames) ++
      finish_out Closed true (DiagnosticError TRANSPORT_ERROR) [OSocketClose (closeCode TRANSPORT_ERROR) TRANSPORT_ERROR] (numbered (sender sup s)) →
    Q (Err (DiagnosticError TRANSPORT_ERROR)) w') →
  wp (sendEnvelope uuid cfg env t p c b sup) Q w.
Proof.
  intros s Hask Hown Herr Hok Hcut. unfold sendEnvelope. apply swp_bind, swp_get. fold s. apply swp_bind, swp_guard; [intros _; by apply Herr; [|left]|].
  intros [Ho _]%orb_false_iff. apply swp_bind.
  assert (∀ Q', Q' (Ok (sender_id sup s)) {| w_session := sender sup s; w_out := w_out w; w_sends := w_sends w |} →
    wp (match sup with Some id => mret id | None => newIdentity uuid (diagnostic_code "message-") end) Q' w) as Hid.
  { intros Q' H. destruct sup; [by destruct w|]. unfold newIdentity. apply swp_bind, swp_get, swp_bind, swp_modify, swp_ret. exact H. }
  apply Hid. clear Hid. apply swp_bind, swp_lift. intros ? Hid. destruct (parseMessageId _) as [id|] eqn:Ep in Hid; subst; [|by apply Herr; [|right]].
  apply parseIdentity_ok in Ep as [[= <-] _]. apply swp_bind, swp_guard; [intros _; by apply Herr; [|right]|]. intros Hbig.
  apply swp_bind, swp_get. cbn [w_session]. apply swp_bind, swp_lift. intros ? Hseq. destruct (parseSequence _) as [seq|] eqn:Ep in Hseq; subst; [|by apply Herr; [|right]].
  apply parseDecimalIdentity_ok in Ep as [[= <-] _]. apply swp_bind, swp_lift. intros ? Hc. destruct (parseMessageId _) as [corr|] eqn:Ep in Hc; subst; [|by apply Herr; [|right]].
  apply parseIdentity_ok in Ep as [[= <-] _].
  apply swp_bind, swp_lift. intros ? Hp. unfold serializeWireValue in Hp. cbn in Hp. destruct (serialize p) as [copy|] eqn:Ecopy; subst; [|by apply Herr; [|right]].
  apply swp_bind, swp_lift. intros ? Hctl. destruct (wc_encodeControl _ _) as [control|] eqn:Ectl in Hctl; subst; [|by apply Herr; [|right]].
  apply swp_bind, swp_lift. intros ? Hch. destruct (match b with Some _ => _ | None => _ end) as [chunks|] eqn:Ech in Hch; subst; [|by apply Herr; [|right]].
  apply swp_bind, swp_modify. apply swp_bind.
  match type of Ectl with wc_encodeControl _ ?e = _ => set (env_ := e) in * end.
  assert (made s (sender_id sup s) env_ b (TextFrame control :: chunks)) as Hmade.
  { split; try done; try (by destruct sup); [by exists p, c|by destruct b|]. by exists control, chunks. }
  apply swp_sendFrames; cbn [w_session w_out].
  - by destruct sup.
  - intros w' Hs Hout. apply swp_ret. by apply (Hok env_ (TextFrame control :: chunks)).
  - intros n w' Hs Hout. by apply (Hcut env_ (TextFrame control :: chunks) n).
Qed.

(** From [w0] on, the steps so far; an exception may leave a broken session. *)
Definition fine {A} (w0 : World) (r : result exn A) (w : World) : Prop :=
  ∃ os s, w_out w = w_out w0 ++ os ∧ atoms (w_session w0) os s ∧
    match r with Ok _ => w_session w = s | Err _ => broken s (w_session w) end.
Definition does (w0 w : World) : Prop := fine w0 (Ok tt) w.

Lemma does_refl w : does w w.
Proof. exists [], (w_session w). rewrite app_nil_r. split_and!; [done|constructor|done]. Qed.
Lemma does_fine {A} w0 (r : result exn A) w : does w0 w → fine w0 r w.
Proof. intros (os & s & ? & ? & <-). exists os, (w_session w). split_and!; [done..|]. destruct r; [done|apply broken_refl]. Qed.
Lemma fine_does {A} w0 (a : A) w : fine w0 (Ok a) w → does w0 w.
Proof. done. Qed.
Lemma fine_trans {A} w0 w1 (r : result exn A) w : does w0 w1 → fine w1 r w → fine w0 r w.
Proof.
  intros (os & s & Ho & Ha & <-) (os' & s' & Ho' & Ha' & Hr). exists (os ++ os'), s'. rewrite Ho', Ho, <- app_assoc.
  split_and!; [done|by eapply atoms_trans|done].
Qed.
Lemma does_atom w0 w os s : does w0 w → atom (w_session w) os s →
  ∀ w', w_session w' = s → w_out w' = w_out w ++ os → does w0 w'.
Proof.
  intros Hd Ha w' <- Ho. eapply fine_trans; [done|]. exists os, (w_session w'). split_and!; [done|by apply atoms_one|done].
Qed.
(** What is broken stays broken when more of the same is left undone. *)
Lemma broken_trans s1 s2 s3 : broken s1 s2 → broken s2 s3 → broken s1 s3.
Proof.
  intros [] []. split; try congruence. intros H. rewrite br_over1, br_over0; [done|done|].
  unfold over, in_state, state in *. by rewrite br_life0.
Qed.

(** The end of a session after an exception. *)
Lemma fail_fine w0 e w code : fine (A := unit) w0 (Err e) w → wp (fail code) (λ r w', r = Ok tt ∧ does w0 w') w.
Proof.
  intros (os & s & Ho & Ha & Hb). unfold wp. rewrite run_fail.
  assert (over (w_session w) = over s) as Eo by (unfold over, in_state, state; by rewrite (br_life _ _ Hb)).
  destruct (over (w_session w)) eqn:E; cbn [fst snd]; (split; [done|]).
  - symmetry in Eo. exists os, (w_session w). split_and!; [done| |done]. rewrite <- (app_nil_r os).
    eapply atoms_snoc; [done|]. pose proof (br_over _ _ Hb Eo) as Hi. destruct Hb.
    replace (w_session w) with (with_handshake (λ _, s_handshake (w_session w)) s); [by apply a_late|].
    destruct s, (w_session w); cbn in *. unfold with_handshake. cbn. congruence.
  - eexists _, _. split_and!; [cbn; by rewrite Ho, <- app_assoc| |done]. eapply atoms_snoc; [done|].
    apply a_finish; [by left; rewrite <- Eo|by left|by constructor|done].
Qed.
Lemma fail_does w0 w code : does w0 w → wp (fail code) (λ r w', r = Ok tt ∧ does w0 w') w.
Proof. intros H. by apply (fail_fine w0 PlainError), does_fine. Qed.

(** A handler that fails with its exceptions. *)
Lemma handle_fail {A} (m : M A) (h : exn → M A) w0 w (Q : result exn A → World → Prop) :
  wp m (fine w0) w → (∀ a w', does w0 w' → Q (Ok a) w') →
  (∀ e w', fine (A := A) w0 (Err e) w' → wp (h e) Q w') → wp (handle m h) Q w.
Proof. intros H Hok Herr. apply swp_handle. eapply swp_mono; [done|]. intros [a|e] w' H'; [by apply Hok|by apply Herr]. Qed.

(** ** Internal messages *)
Lemma sendEnvelope_does env t p c b w0 w : (is_app t = true → asked t p c b) → (is_app t = false → own_payload p) → does w0 w → wp (sendEnvelope uuid cfg env t p c b None) (λ _ w', does w0 w') w.
Proof.
  intros Hask Hown Hw. apply swp_sendEnvelope; [done|done|..].
  - intros e w' Ho [Hs|Hs].
    + destruct Hw as (os & s & ? & ? & <-). exists os, (w_session w). split_and!; congruence.
    + eapply does_atom; [done|apply a_identity|exact Hs|by rewrite Ho, app_nil_r].
  - intros e frames w' Ho _ Hm Hout Hs. eapply does_atom; [done| |exact Hs|exact Hout].
    change (numbered (sender None (w_session w))) with (numbered (bump (with_requests (λ _, s_requests (w_session w)) (w_session w)))).
    eapply a_envelope; [done|done|constructor].
  - intros e frames n w' Ho Hm Hs Hout. eapply does_atom; [done| |exact Hs|exact Hout].
    change (numbered (sender None (w_session w))) with (numbered (bump (with_requests (λ _, s_requests (w_session w)) (w_session w)))).
    eapply a_envelope_cut; [done|done|constructor|by constructor].
Qed.
(** What a session sends itself leaves its life as it is, unless the socket throws. *)
Lemma sendInternal_does env t p w0 w : is_app t = false → own_payload p → does w0 w →
  wp (sendInternal uuid cfg env t p) (λ r w', does w0 w' ∧ (r = Ok tt → s_life (w_session w') = s_life (w_session w))) w.
Proof.
  intros Ht Hp H. assert (is_app t = true → asked t p None None) as Hask by (by rewrite Ht).
  unfold sendInternal. apply swp_bind. eapply swp_mono; [apply swp_and; [by apply sendEnvelope_does|]|].
  - instantiate (1 := λ r w', ∀ id, r = Ok id → s_life (w_session w') = s_life (w_session w)).
    apply swp_sendEnvelope; [done|done|done| |done]. intros e frames w' _ _ _ _ Hs id _. by rewrite Hs.
  - intros [id|e] w' [Hd Hl]; [apply swp_ret; split; [done|intros _; by apply (Hl id)]|by split].
Qed.
Lemma sendInternal_fine env t p w0 w : is_app t = false → own_payload p → does w0 w → wp (sendInternal uuid cfg env t p) (fine w0) w.
Proof. intros Ht Hp H. eapply swp_mono; [by apply sendInternal_does|]. intros r w' [Hd _]. by apply does_fine. Qed.

Lemma flag_does f w0 w : (∃ b, f = with_helloSent b) ∨ f = with_authenticationSent ∨ f = with_registrationSent → does w0 w →
  does w0 {| w_session := with_handshake f (w_session w); w_out := w_out w; w_sends := w_sends w |}.
Proof. intros Hf H. eapply does_atom; [done|by apply a_flag|done|by rewrite app_nil_r]. Qed.

Lemma broken_handshake f s : broken s (with_handshake f s).
Proof. by split. Qed.
Lemma fine_broken {A} w0 w e w' : does w0 w → w_out w' = w_out w → broken (w_session w) (w_session w') → fine (A := A) w0 (Err e) w'.
Proof.
  intros (os & s & Ho & Ha & <-) Hout Hb. exists os, (w_session w). split_and!; [congruence|done|done].
Qed.

(** ** The handshake *)
Lemma hello_keyed s : keyed (hello_json cfg s) = true.
Proof. unfold hello_json. by destruct (c_role cfg), (h_principalWorkerId (s_handshake s)). Qed.
Lemma sendHello_fine env w0 w : does w0 w → wp (sendHello uuid cfg env) (fine w0) w.
Proof.
  intros Hd. unfold sendHello. apply swp_bind, swp_get, swp_when; intros _; [|by apply does_fine].
  apply swp_bind, swp_modify, swp_handle.
  assert (does w0 {| w_session := with_handshake (with_helloSent true) (w_session w); w_out := w_out w; w_sends := w_sends w |}) as Hd1.
  { apply flag_does; eauto. }
  eapply swp_mono; [apply sendInternal_fine; [done|left; apply hello_keyed|done]|]. intros [u|e] w' Hf; [done|]. apply swp_bind, swp_modify, swp_throw.
  destruct Hf as (os & s & Ho & Ha & Hb). exists os, s. split_and!; [done|done|].
  eapply broken_trans; [done|apply broken_handshake].
Qed.

Lemma sendAuthentication_fine env w0 w : does w0 w → wp (sendAuthentication hmac uuid cfg env) (fine w0) w.
Proof.
  intros Hd. unfold sendAuthentication. apply swp_bind, swp_get. repeat case_match; try (by apply does_fine).
  apply swp_when; intros _; [|by apply does_fine]. apply swp_bind, swp_modify. apply sendInternal_fine, flag_does; [done|by left|eauto..].
Qed.

Lemma sendRegistration_fine env w0 w : does w0 w → wp (sendRegistration uuid cfg env) (fine w0) w.
Proof.
  intros Hd. unfold sendRegistration. apply swp_bind, swp_get. case_match; [|by apply does_fine].
  apply swp_when; intros _; [|by apply does_fine]. apply swp_bind, swp_modify. apply sendInternal_fine, flag_does; [done|right; eauto|eauto..].
Qed.

Ltac fine_err := intros; match goal with H : does ?w0 ?w |- fine ?w0 (Err _) ?w => by apply does_fine end.

Lemma receiveHello_fine env e w0 w : does w0 w → wp (receiveHello hmac uuid cfg env e) (fine w0) w.
Proof.
  intros Hd. unfold receiveHello. apply swp_bind, swp_get, swp_bind, swp_guard; [fine_err|]. intros [Hn Ha]%orb_false_iff. to_prop.
  apply swp_bind, swp_lift. intros ? Hp. destruct (asObject (we_payload e)) as [payload|] in Hp; subst; [|by apply does_fine].
  apply swp_bind, swp_lift. intros ? Hx. destruct (requireExactFields _ _) in Hx; subst; [|by apply does_fine].
  destruct (role_of _) as [role|]; [|apply swp_throw; by apply does_fine].
  destruct (string_field (JsMap.get payload (js "nonce"))) as [nonce|]; [|apply swp_throw; by apply does_fine].
  apply swp_bind, swp_guard; [fine_err|]. intros Hr. to_prop. apply swp_bind, swp_modify.
  assert (h_remoteNonce (s_handshake (w_session w)) = None) as Hn'.
  { apply eq_None_not_Some. done. }
  assert (∀ w', (∃ h', greeted nonce role (we_sessionId e) (s_handshake (w_session w)) h' ∧ w_session w' = with_handshake (λ _, h') (w_session w)) →
    w_out w' = w_out w → wp (sendHello uuid cfg env;; sendAuthentication hmac uuid cfg env) (fine w0) w') as Hsend.
  { intros w' (h' & Hg & Hs) Ho. assert (does w0 w') as Hd'.
    { apply in_state_true in Ha. eapply does_atom; [exact Hd|by eapply (a_hello _ nonce role (we_sessionId e) h')|exact Hs|by rewrite Ho, app_nil_r]. }
    apply swp_bind. eapply swp_mono; [by apply sendHello_fine|]. intros [u|x] w1 Hf; [|done]. by apply sendAuthentication_fine. }
  apply swp_bind. unfold greeted in Hsend. destruct (c_role cfg) eqn:Erole.
  2:{ apply swp_ret, Hsend; [|done]. eexists. split; [done|]. done. }
  destruct (string_field (JsMap.get payload (js "workerId"))) as [id|];
    [|apply swp_throw; eapply fine_broken; [exact Hd|done|apply broken_handshake]].
  apply swp_bind, swp_lift. intros ? Hid. destruct (parseWorkerId (VStr id)) as [workerId|] in Hid; subst;
    [|eapply fine_broken; [exact Hd|done|apply broken_handshake]].
  apply swp_bind, swp_modify. apply swp_bind. destruct (c_resolveCredential cfg ≫= λ f, f workerId) as [c|] eqn:Ec.
  - apply swp_bind, swp_lift. intros ? Hcr. destruct (normalizeCredential c) as [c'|] eqn:Enc in Hcr; subst;
      [|eapply fine_broken; [exact Hd|done|]; by eapply broken_trans; apply broken_handshake].
    apply swp_modify. apply swp_bind, swp_lift. intros ? Hsid. destruct (parseSessionId _) as [sid|] eqn:Es in Hsid; subst;
      [|eapply fine_broken; [exact Hd|done|]; eapply broken_trans; [|apply broken_handshake]; eapply broken_trans; apply broken_handshake].
    apply swp_modify, Hsend; [|done]. apply parseIdentity_ok in Es as [[= <-] _]. eexists. split; [|reflexivity]. exists workerId.
    rewrite Ec. unfold normalizeCredential in Enc. inv_ok Enc. by subst c'.
  - apply swp_ret. apply swp_bind, swp_lift. intros ? Hsid. destruct (parseSessionId _) as [sid|] eqn:Es in Hsid; subst;
      [|eapply fine_broken; [exact Hd|done|]; eapply broken_trans; apply broken_handshake].
    apply swp_modify, Hsend; [|done]. apply parseIdentity_ok in Es as [[= <-] _]. eexists. split; [|reflexivity]. exists workerId.
    by rewrite Ec.
Qed.

Lemma receiveAuthentication_fine env e w0 w : known e → over (w_session w) = false → we_type e = authenticate → does w0 w →
  wp (receiveAuthentication hmac uuid cfg env e) (fine w0) w.
Proof.
  intros Hk Hv Ht Hd. unfold receiveAuthentication. apply swp_bind, swp_get.
  destruct (h_remoteNonce (s_handshake (w_session w))) as [nonce|] eqn:En; [|apply swp_throw; by apply does_fine].
  destruct (h_remoteRole (s_handshake (w_session w))) as [role|] eqn:Er; [|apply swp_throw; by apply does_fine].
  destruct (h_principalWorkerId (s_handshake (w_session w))) as [worker|] eqn:Ew; [|apply swp_throw; by apply does_fine].
  apply swp_bind, swp_guard; [fine_err|]. intros _. apply swp_bind, swp_lift. intros ? Hp.
  destruct (we_payload e) as [| | | | |payload] eqn:Ep; cbn in Hp; subst; try (by apply does_fine).
  apply swp_bind, swp_lift. intros ? Hx. destruct (requireExactFields _ _) in Hx; subst; [|by apply does_fine].
  apply swp_bind, swp_guard; [fine_err|]. intros [Hv1 Hau]%orb_false_iff. apply negb_false_iff in Hv1, Hau.
  apply swp_bind, swp_modify.
  destruct (string_field (JsMap.get payload (js "proof"))) as [proof|] eqn:Epr; [|done].
  assert (JsMap.get payload (js "proof") = Some (JStr proof)) as Hpr.
  { unfold string_field in Epr. destruct (JsMap.get payload (js "proof")) as [[]|]; try done. by injection Epr as ->. }
  assert (does w0 {| w_session := with_handshake with_peerAuthenticated (w_session w); w_out := w_out w; w_sends := w_sends w |}) as Hd'.
  { eapply does_atom; [exact Hd|eapply (a_authenticated _ e); [done|done| |done]|done|by rewrite app_nil_r].
    exists worker, nonce, role, payload, proof. done. }
  apply swp_when; intros _; [|by apply does_fine]. by apply sendRegistration_fine.
Qed.

Lemma receiveRegistration_fine e w0 w : does w0 w → wp (receiveRegistration cfg e) (fine w0) w.
Proof.
  intros Hd. unfold receiveRegistration. apply swp_bind, swp_get, swp_bind, swp_guard; [fine_err|]. intros Hg. to_prop.
  apply swp_bind, swp_lift. intros ? Hp. destruct (asObject (we_payload e)) as [payload|] in Hp; subst; [|by apply does_fine].
  apply swp_bind, swp_lift. intros ? Hx. destruct (requireExactFields _ _) in Hx; subst; [|by apply does_fine].
  apply swp_bind, swp_lift. intros ? Hr. destruct (normalizeRegistration payload) as [r|] in Hr; subst; [|by apply does_fine].
  apply swp_bind, swp_guard; [fine_err|]. intros Hw. to_prop. apply swp_bind, swp_modify, swp_emit. apply does_fine.
  eapply does_atom; [exact Hd|eapply (a_registration _ r); try done; by apply in_state_true|done|done].
Qed.

Lemma boundedWorkerEpoch_bound v epoch : boundedWorkerEpoch v = Ok epoch → epoch = v ∧ decimal_value epoch <= MAXIMUM_UNSIGNED_64.
Proof.
  unfold boundedWorkerEpoch, boundedUnsigned64.
  intros (v' & (t & Ht & (u & Hg & E)%bind_ok)%bind_ok & Hf)%bind_ok.
  apply parseDecimalIdentity_ok in Ht as [[= <-] _]. apply Ok_inj in E as <-. apply parseDecimalIdentity_ok in Hf as [[= <-] _].
  apply throw_if_ok in Hg.
  split; [done|]. by apply Z.ltb_ge.
Qed.

(** The session becomes ready; what follows. *)
Lemma become_ready epoch f w0 w :
  does w0 w → state (w_session w) = Authenticating →
  h_registrationPending (s_handshake (w_session w)) = true ∧ told epoch ∨ c_role cfg = Worker ∧ h_peerAuthenticated (s_handshake (w_session w)) = true →
  decimal_value epoch <= MAXIMUM_UNSIGNED_64 →
  does w0 (put w (ready_session epoch f (w_session w)) (notified (w_session w) Ready)).
Proof. intros Hd Ha Hr He. eapply does_atom; [exact Hd|by eapply a_ready|done|done]. Qed.

Lemma settle_does w0 w : does w0 w → state (w_session w) = Ready →
  does w0 (put w (with_life with_readySettled (w_session w)) (ready_out (w_session w) (Ok tt))).
Proof. intros Hd Hs. eapply does_atom; [exact Hd|by apply a_settle|done|done]. Qed.

Lemma timing_does f w0 w : does w0 w → does w0 {| w_session := with_timing f (w_session w); w_out := w_out w; w_sends := w_sends w |}.
Proof. intros Hd. eapply does_atom; [exact Hd|apply (a_timing _ f)|done|by rewrite app_nil_r]. Qed.

Lemma registration_failed_does e w0 w : fine (A := unit) w0 (Err e) w → wp (registration_failed e) (λ r w', r = Ok tt ∧ does w0 w') w.
Proof. intros H. destruct e; by eapply fail_fine. Qed.
Lemma receive_failed_does e w0 w : fine (A := unit) w0 (Err e) w → wp (receive_failed e) (λ r w', r = Ok tt ∧ does w0 w') w.
Proof. intros H. unfold receive_failed. destruct e; try (by eapply fail_fine). case_match; by eapply fail_fine. Qed.

Lemma swp_notify Q w : Q (Ok tt) (put w (w_session w) (notified (w_session w) (state (w_session w)))) → wp notifyState Q w.
Proof. done. Qed.
Lemma swp_settleReady r Q w : Q (Ok tt) (put w (with_life with_readySettled (w_session w)) (ready_out (w_session w) r)) → wp (settleReady r) Q w.
Proof. unfold wp. by rewrite run_settleReady. Qed.

Lemma registered_does env r w0 w : (∀ epoch, r = Ok epoch → told epoch) → does w0 w → wp (registered uuid cfg env r) (λ r w', r = Ok tt ∧ does w0 w') w.
Proof.
  intros Ht Hd. unfold registered. apply swp_bind, swp_get, swp_when; intros Hc; [|done]. to_prop.
  apply handle_fail with (w0 := w0); [|by intros [] w'|intros e w' Hf; by apply registration_failed_does].
  apply swp_bind, swp_lift. intros ? Hr. destruct r as [result|]; subst; [|by apply does_fine].
  apply swp_bind, swp_lift. intros ? He. destruct (boundedWorkerEpoch result) as [epoch|] eqn:E in He; subst; [|by apply does_fine].
  apply boundedWorkerEpoch_bound in E as [-> Hb]. apply swp_bind, swp_modify, swp_bind, swp_modify, swp_bind, swp_notify, swp_bind, swp_modify, swp_bind, swp_modify, swp_bind.
  apply in_state_true in H0. pose proof (become_ready result (λ t, {| t_lastHeartbeatAt := e_now env; t_heartbeats := t_heartbeats t |}) w0 w Hd H0 (or_introl (conj H (Ht _ eq_refl))) Hb) as Hr.
  eapply swp_mono; [apply sendInternal_does; [done|by left|done]|]. intros [u|x] w' [Hf Hl]; [|by apply does_fine]. apply swp_settleReady. apply does_fine.
  apply settle_does; [done|]. unfold state. destruct u. by rewrite Hl.
Qed.

Lemma sendHeartbeat_does env w0 w : does w0 w → wp (sendHeartbeat uuid cfg env) (λ r w', r = Ok tt ∧ does w0 w') w.
Proof.
  intros Hd. unfold sendHeartbeat. apply swp_handle. eapply swp_mono; [apply sendInternal_does; [done|by left|done]|].
  intros [[]|e] w' [Hd' _]; [done|]. apply swp_modify. split; [done|]. by apply timing_does.
Qed.

Lemma receiveReady_fine env e w0 w : does w0 w → wp (receiveReady uuid cfg env e) (fine w0) w.
Proof.
  intros Hd. unfold receiveReady. apply swp_bind, swp_get, swp_bind, swp_guard; [fine_err|]. intros Hg. to_prop.
  apply swp_bind, swp_lift. intros ? Hp. destruct (asObject (we_payload e)) as [payload|] in Hp; subst; [|by apply does_fine].
  apply swp_bind, swp_lift. intros ? Hx. destruct (requireExactFields _ _) in Hx; subst; [|by apply does_fine].
  destruct (string_field _) as [text|]; [|apply swp_throw; by apply does_fine].
  apply swp_bind, swp_lift. intros ? He. destruct (boundedWorkerEpoch text) as [epoch|] eqn:E in He; subst; [|by apply does_fine].
  apply boundedWorkerEpoch_bound in E as [-> Hb]. apply swp_bind, swp_modify, swp_bind, swp_modify, swp_bind, swp_notify, swp_bind, swp_modify.
  match goal with |- wp _ _ ?w' => assert (does w0 w') as Hr end.
  { apply in_state_true in H2. exact (become_ready text (λ t, t) w0 w Hd H2 (or_intror (conj H H1)) Hb). }
  apply swp_bind, swp_settleReady. apply settle_does in Hr; [|done].
  apply swp_bind, swp_modify. eapply timing_does in Hr.
  eapply swp_mono; [apply sendHeartbeat_does, Hr|]. intros r w' [-> Hd']. by apply does_fine.
Qed.

Lemma heartbeatTick_does env w0 w : does w0 w → wp (heartbeatTick uuid cfg env) (λ r w', r = Ok tt ∧ does w0 w') w.
Proof. intros Hd. unfold heartbeatTick. apply swp_bind, swp_get, swp_when; intros _; [by apply sendHeartbeat_does|done]. Qed.

Lemma handshakeTimeout_does w0 w : does w0 w → wp handshakeTimeout (λ r w', r = Ok tt ∧ does w0 w') w.
Proof. intros Hd. unfold handshakeTimeout. apply swp_bind, swp_get, swp_when; intros _; [by apply fail_does|done]. Qed.

Lemma over_ready s : state s = Ready → over s = false.
Proof. intros H. unfold over, in_state. by rewrite H. Qed.
Lemma over_authenticating s : state s = Authenticating → over s = false.
Proof. intros H. unfold over, in_state. by rewrite H. Qed.

Lemma watchTick_does env w0 w : does w0 w → wp (watchTick cfg env) (λ r w', r = Ok tt ∧ does w0 w') w.
Proof.
  intros Hd. unfold watchTick. apply swp_bind, swp_get, swp_when; intros H; [|done]. to_prop. unfold wp. rewrite run_expire.
  match goal with H : in_state _ Ready = true |- _ => rewrite H; apply in_state_true in H end. cbn [fst snd]. split; [done|].
  eapply does_atom; [exact Hd| |done|done].
  apply a_finish; [left; by apply over_ready|by right|by eapply farewell_unavailable|apply broken_refl].
Qed.

Lemma requestTimeout_does id w0 w : does w0 w → wp (requestTimeout cfg id) (λ r w', r = Ok tt ∧ does w0 w') w.
Proof.
  intros Hd. unfold requestTimeout. apply swp_bind, swp_get, swp_when; intros H; [|done]. apply swp_bind, swp_modify, swp_emit.
  split; [done|]. eapply does_atom; [exact Hd|apply a_timeout|done|done]. by apply includes_true.
Qed.

Lemma start_does env w0 w : does w0 w → wp (start uuid cfg env) (λ r w', r = Ok tt ∧ does w0 w') w.
Proof.
  intros Hd. unfold start. apply swp_bind, swp_get, swp_when; intros H; [|done].
  apply handle_fail with (w0 := w0); [by apply sendHello_fine|by intros [] w'|].
  intros e w' Hf. destruct e; by eapply fail_fine.
Qed.

(** ** The calls of the owner *)
Lemma returning_does m w0 w : wp m (λ _ w', does w0 w') w → wp (returning m) (λ r w', r = Ok tt ∧ does w0 w') w.
Proof.
  intros H. unfold returning. apply swp_bind, swp_handle, swp_bind. eapply swp_mono; [exact H|].
  intros [id|e] w' Hd; [apply swp_ret|]; apply swp_emit; (split; [done|]).
  all: eapply does_atom; [exact Hd|eapply a_note; right; by eexists|done|done].
Qed.

Lemma reserved_app t u : rejectReservedMessageType t = Ok u → is_app t = true.
Proof. unfold rejectReservedMessageType, is_app. by destruct (includes _ t). Qed.
Lemma send_does env t p c b w0 w : asked t p c b → does w0 w → wp (send uuid cfg env t p c b) (λ _ w', does w0 w') w.
Proof.
  intros Hask Hd. unfold send. apply swp_bind, swp_lift. intros ? Hr. destruct (rejectReservedMessageType t) eqn:Et in Hr; subst; [|done]. apply reserved_app in Et as Happ.
  apply swp_bind, swp_get, swp_bind, swp_guard; intros _; [done|]. apply sendEnvelope_does; [done|by rewrite Happ|done].
Qed.

Lemma made_as s s' id e b frames : h_sessionId (s_handshake s) = h_sessionId (s_handshake s') →
  u_nextSequence (s_outbound s) = u_nextSequence (s_outbound s') → made s id e b frames → made s' id e b frames.
Proof. intros H1 H2 []. split; congruence. Qed.
Lemma withdrawn_empty id : withdrawn id requests_empty = requests_empty.
Proof. unfold withdrawn, requests_empty. cbn. f_equal. set_solver. Qed.

Lemma request_does env t p b ms w0 w : asked t p None b → does w0 w → wp (request uuid cfg env t p b ms) (λ _ w', does w0 w') w.
Proof.
  intros Hask Hd. unfold request. apply swp_bind, swp_lift. intros ? Hr. destruct (rejectReservedMessageType t) eqn:Et in Hr; subst; [|done]. apply reserved_app in Et as Happ.
  apply swp_bind, swp_get, swp_bind, swp_guard; intros Hroom; [done|]. apply swp_bind, swp_guard; intros Hav; [done|].
  assert (may_request (w_session w)) as Hmay.
  { unfold not_available in Hav. to_prop. match goal with H : in_state _ _ = true |- _ => apply in_state_true in H end. split; [done|]. lia. }
  apply swp_bind. unfold newIdentity. apply swp_bind, swp_get, swp_bind, swp_modify, swp_ret. apply swp_bind, swp_modify, swp_bind, swp_modify.
  match goal with |- wp _ _ ?w' => set (w1 := w') end.
  assert (w_out w1 = w_out w) as Ho1 by done.
  assert (w_session w1 = bump (with_requests (issued (message_id (w_session w))) (w_session w))) as Hs1 by done.
  clearbody w1. fold (message_id (w_session w)).
  apply swp_bind, swp_lift. intros ? Hp. destruct (positiveDuration ms _) in Hp; subst.
  2:{ eapply does_atom; [exact Hd|by apply a_issue|done|by rewrite Ho1, app_nil_r]. }
  apply swp_handle, swp_sendEnvelope; cbn [sender sender_id]; [done|by rewrite Happ|..].
  - intros e w' Ho Hs. assert (w_session w' = w_session w1) as Hs' by (by destruct Hs). clear Hs.
    apply swp_bind, swp_modify, swp_bind, swp_emit, swp_throw. eapply does_atom; [|eapply a_note; left; by eexists| |reflexivity]; [|reflexivity].
    eapply does_atom; [exact Hd|by apply a_undo| |cbn; by rewrite Ho, Ho1, app_nil_r]. cbn. by rewrite Hs', Hs1.
  - intros e frames w' Hv _ Hm Ho Hs. rewrite Hs1 in Hm, Hs. eapply does_atom; [exact Hd| |exact Hs|by rewrite Ho, Ho1].
    eapply a_envelope; [by apply over_ready; destruct Hmay| |by apply requesting_yes]. eapply made_as; [| |exact Hm]; done.
  - intros e frames n w' Hv Hm Hs Ho. rewrite Hs1 in Hm, Hs, Ho.
    apply swp_bind, swp_modify, swp_bind, swp_emit, swp_throw. eapply does_atom; [|eapply a_note; left; by eexists| |reflexivity]; [|reflexivity].
    eapply does_atom; [exact Hd| | |by rewrite Ho, Ho1].
    + eapply (a_envelope_cut _ e b frames n _ (Some TRANSPORT_ERROR)); [by apply over_ready; destruct Hmay| |by apply requesting_yes|by constructor].
      eapply made_as; [| |exact Hm]; done.
    + cbn. rewrite Hs. unfold with_requests, finished. cbn. f_equal. apply withdrawn_empty.
Qed.

(** ** Receiving *)

(** What holds between the events of a session: a session is over once it is
    detached, and the envelopes that wait for their binaries were received. *)
Record grounded (s : WorkerSession) : Prop := {
  gr_detached : l_detached (s_life s) = over s;
  gr_known id p : i_pendingBinary (s_inbound s) !! id = Some p → known (pb_envelope p);
}.

Lemma intake_life s e b s' : intake s e b s' → s_life s' = s_life s.
Proof. by destruct 1. Qed.
Lemma over_life s s' : s_life s' = s_life s → over s' = over s.
Proof. unfold over, in_state, state. by intros ->. Qed.

Lemma deliver_fine e b w0 w1 w : does w0 w1 → intake (w_session w1) e b (w_session w) → state (w_session w1) = Ready →
  is_app (we_type e) = true → w_out w = w_out w1 ++ [ODispatch e b] →
  wp (deliver number_text cfg (message_of e b)) (fine w0) w.
Proof.
  intros Hd Hi Hr Ha Ho.
  assert (∀ os s' w', outcome (w_session w) (message_of e b) os s' → w_session w' = s' → w_out w' = w_out w ++ os → fine w0 (Ok tt) w') as Hok.
  { intros os s' w' Hout Hs Ho'. eapply does_atom; [exact Hd|by eapply a_message|exact Hs|by rewrite Ho', Ho, <- app_assoc]. }
  assert (∀ w', w_session w' = w_session w → w_out w' = w_out w → ∀ x, fine (A := unit) w0 (Err x) w') as Herr.
  { intros w' Hs Ho' x. apply does_fine. eapply does_atom; [exact Hd|by eapply a_intake|exact Hs|congruence]. }
  unfold deliver. apply swp_bind, swp_get. destruct (streq _ _) eqn:E; cbn [negb].
  - apply streq_true in E. destruct (d_listeners _) as [|l ls] eqn:El.
    + unfold queue_message. apply swp_bind, swp_get, swp_bind, swp_guard; [intros _; by apply Herr|]. intros Hq. to_prop. apply swp_modify.
      eapply Hok; [apply to_queue; [done|done|lia|lia]|done|by rewrite app_nil_r].
    + apply swp_emit. eapply Hok; [by apply to_listeners; rewrite ?El|done|]. cbn. by rewrite El.
  - apply streq_false in E. destruct (includes _ _) eqn:Ei.
    + apply includes_true in Ei. apply swp_bind, swp_modify, swp_emit. by eapply Hok; [apply to_request|..].
    + apply swp_guard; intros Hg; to_prop; [by apply Herr|]. eapply Hok; [by apply to_nobody|done|by rewrite app_nil_r].
Qed.

Lemma dispatch_fine env e b w0 w1 w : does w0 w1 → intake (w_session w1) e b (w_session w) → known e → over (w_session w1) = false →
  w_out w = w_out w1 → wp (dispatch number_text hmac uuid cfg env e b) (fine w0) w.
Proof.
  intros Hd Hi Hk Hv Ho. unfold dispatch. apply swp_bind, swp_emit.
  match goal with |- wp _ _ ?w' => set (w2 := w') end.
  assert (does w0 w2) as Hd2. { eapply does_atom; [exact Hd|by apply a_intake|done|by cbn; rewrite Ho]. }
  assert (over (w_session w2) = false) as Hv2. { rewrite <- Hv. by eapply over_life, intake_life. }
  assert (is_app (we_type e) = true → wp (s ← get;
      guard (negb (in_state s Ready)) "PROTOCOL_HANDSHAKE_INCOMPLETE";;
      deliver number_text cfg (message_of e b)) (fine w0) w2) as Happ.
  { intros Ha. apply swp_bind, swp_get, swp_bind, swp_guard; [intros _; by apply does_fine|]. intros Hg. to_prop. apply in_state_true in Hg.
    eapply deliver_fine; [exact Hd|done| |done|by cbn; rewrite Ho]. unfold state in *. by rewrite <- (intake_life _ _ _ _ Hi). }
  destruct (we_type e) eqn:Et; try (by apply Happ).
  - by apply receiveAuthentication_fine.
  - apply swp_bind, swp_get, swp_when; intros _; [apply swp_modify, timing_does, Hd2|by apply does_fine].
  - by apply receiveHello_fine.
  - by apply receiveReady_fine.
  - apply handle_fail with (w0 := w0); [by apply receiveRegistration_fine|done|].
    intros x w' Hf. eapply swp_mono; [by apply registration_failed_does|]. by intros r w3 [-> H3].
Qed.

Lemma receiveControl_fine env e w : known e → over (w_session w) = false →
  wp (receiveControl number_text sha256 hmac uuid cfg env e) (fine w) w.
Proof.
  intros Hk Hv. pose proof (does_refl w) as Hd. unfold receiveControl.
  apply swp_bind, swp_lift. intros ? Hs. destruct (parseSequence _) as [text|] eqn:Ep in Hs; subst; [|by apply does_fine].
  apply parseDecimalIdentity_ok in Ep as [[= <-] _]. apply swp_bind, swp_get. cbn zeta.
  destruct (_ <? _) eqn:Elt; [apply swp_guard; intros _; by apply does_fine|].
  apply swp_bind, swp_guard; [intros _; by apply does_fine|intros _]. apply swp_bind, swp_guard; [intros _; by apply does_fine|intros Hle].
  apply swp_bind, swp_guard; [intros _; by apply does_fine|intros Hf]. to_prop.
  assert (next_control (w_session w) e) as Hn. { split; [done..|lia|by apply eq_None_not_Some]. }
  apply swp_bind, swp_modify.
  match goal with |- wp _ _ ?w' => assert (does w w') as Hd1 end.
  { eapply does_atom; [exact Hd|by apply (a_drop _ e)|done|by rewrite app_nil_r]. }
  apply swp_bind, swp_guard; [intros _; by apply does_fine|intros _].
  destruct (we_binaryBytes e) as [bytes|] eqn:Eb.
  - apply swp_bind, swp_guard; [intros _; by apply does_fine|]. intros Hroom. to_prop. apply swp_modify.
    eapply does_atom; [exact Hd|by apply (a_open _ e bytes); [done..|lia|lia]|done|by rewrite app_nil_r].
  - eapply dispatch_fine; [exact Hd|by apply intake_control|done|done|done].
Qed.

Lemma with_pendingBinary_twice id p q i : with_pendingBinary id p 0 (with_pendingBinary id q 0 i) = with_pendingBinary id p 0 i.
Proof. unfold with_pendingBinary. cbn. f_equal; [apply insert_insert_eq|lia]. Qed.
Lemma without_with_pendingBinary id p n i : without_pendingBinary id n (with_pendingBinary id p 0 i) = without_pendingBinary id n i.
Proof. unfold without_pendingBinary, with_pendingBinary. cbn. f_equal; [apply delete_insert_eq|lia]. Qed.
Lemma broken_binary id p s : over s = false → broken s (with_inbound (with_pendingBinary id p 0) s).
Proof. intros H. split; try done. by rewrite H. Qed.

Lemma receiveBinary_fine env frame w : seen (BinaryFrame frame) → grounded (w_session w) → over (w_session w) = false →
  wp (receiveBinary number_text hmac uuid cfg env frame) (fine w) w.
Proof.
  intros Hf Hg Hv. pose proof (does_refl w) as Hd. unfold receiveBinary.
  apply swp_bind, swp_lift. intros ? Hs. destruct (wc_decodeBinary codec frame) as [c|] eqn:Ec in Hs; subst; [|by apply does_fine].
  apply swp_bind, swp_get. destruct (_ !! wb_correlationId c) as [p|] eqn:Ep; [|apply swp_throw; by apply does_fine].
  apply swp_bind, swp_guard; [intros _; by apply does_fine|]. intros Horder. to_prop. cbn zeta.
  apply swp_bind, swp_modify.
  assert (∀ x q w', w_out w' = w_out w → w_session w' = with_inbound (with_pendingBinary (wb_correlationId c) q 0) (w_session w) →
    fine (A := unit) w (Err x) w') as Herr.
  { intros x q w' Ho Hs. eapply fine_broken; [exact Hd|done|]. rewrite Hs. by apply broken_binary. }
  apply swp_bind, swp_guard; [intros _; by eapply Herr|]. intros Hsize. to_prop.
  assert (next_chunk (w_session w) c p) as Hn. { split; [by exists frame|done|done|lia|done|lia]. }
  apply swp_bind, swp_modify.
  match goal with |- wp _ _ ?w' => set (w1 := w') end.
  assert (w_session w1 = with_inbound (with_pendingBinary (wb_correlationId c) (with_chunk c p) 0) (w_session w)) as Hs1.
  { cbn. unfold with_inbound at 1. cbn. by rewrite with_pendingBinary_twice. }
  assert (w_out w1 = w_out w) as Ho1 by done. clearbody w1.
  destruct (_ =? _) eqn:Elast; cbn [negb]; to_prop.
  - apply swp_bind, swp_guard; [intros _; by eapply Herr|]. intros Hall. to_prop. apply swp_bind, swp_modify.
    eapply dispatch_fine; [exact Hd| |by eapply gr_known|done|done].
    match goal with |- intake _ _ _ ?s =>
      replace s with (with_inbound (without_pendingBinary (wb_correlationId c) (default 0 (we_binaryBytes (pb_envelope p)))) (w_session w)) end.
    { apply (intake_binary _ c p); [done|lia|done]. }
    cbn. rewrite Hs1. unfold with_inbound at 2. cbn. by rewrite without_with_pendingBinary.
  - apply swp_ret. eapply does_atom; [exact Hd|by apply (a_chunk _ c p); [|lia]|exact Hs1|by rewrite app_nil_r].
Qed.

Lemma receive_does env a w : (∀ f, socketMessage a (maxFrameBytes limits) = Ok f → seen f) →
  grounded (w_session w) → over (w_session w) = false →
  wp (receive number_text sha256 hmac uuid cfg env a) (λ r w', r = Ok tt ∧ does w w') w.
Proof.
  intros Hseen Hg Hv. pose proof (does_refl w) as Hd. unfold receive. apply swp_bind, swp_get. destruct (in_state _ Closed); [done|].
  apply handle_fail with (w0 := w); [|by intros [] w'|intros x w' Hf; by apply receive_failed_does].
  apply swp_bind, swp_lift. intros ? Hs. destruct (socketMessage a _) as [[text|f]|] eqn:E in Hs; subst; [..|by apply does_fine].
  - apply swp_bind, swp_lift. intros ? He. destruct (wc_decodeControl codec text) as [e|] eqn:Ed in He; subst; [|by apply does_fine].
    apply receiveControl_fine; [|done]. exists text. split; [by apply Hseen|done].
  - apply swp_bind, swp_lift. intros ? Ht. destruct (throw_if _ _) in Ht; subst; [|by apply does_fine].
    apply receiveBinary_fine; [by apply Hseen|done|done].
Qed.

(** ** Events *)
Definition frame_of (e : Event) : option Frame :=
  match e with
  | Receive a => match socketMessage a (maxFrameBytes limits) with Ok f => Some f | Err _ => None end
  | _ => None
  end.

Definition asks (e : Event) t p c b : Prop :=
  match e with
  | Send t' p' c' b' => (t, p, c, b) = (t', p', c', b')
  | Request t' p' b' _ => (t, p, c, b) = (t', p', None, b')
  | _ => False
  end.

Lemma run_atom m w (s' : WorkerSession) os : atom (w_session w) os s' → m w = (put w s' os, Ok tt) →
  wp m (λ r w', r = Ok tt ∧ does w w') w.
Proof.
  intros Ha Hm. unfold wp. rewrite Hm. split; [done|]. eapply does_atom; [apply does_refl|exact Ha|done|done].
Qed.

Lemma listeners_does f g w : (∀ d, NoDup (d_listeners d) → NoDup (f d)) →
  wp (modify (with_delivery (λ d, {| d_listeners := f d; d_stateListeners := g d; d_pendingMessages := d_pendingMessages d;
    d_pendingMessageBytes := d_pendingMessageBytes d |}))) (λ r w', r = Ok tt ∧ does w w') w.
Proof. intros Hf. eapply run_atom; [apply (a_listeners _ (f (s_delivery (w_session w))) (g (s_delivery (w_session w)))); apply Hf|]. by rewrite run_modify. Qed.

Lemma attached_does m w : grounded (w_session w) →
  (over (w_session w) = false → wp m (λ r w', r = Ok tt ∧ does w w') w) → wp (attached m) (λ r w', r = Ok tt ∧ does w w') w.
Proof.
  intros Hg H. unfold attached. apply swp_bind, swp_get, swp_when; rewrite (gr_detached _ Hg); intros Hn.
  - apply H. by destruct (over _).
  - split; [done|apply does_refl].
Qed.

Lemma handler_does env e w : (∀ f, frame_of e = Some f → seen f) → (∀ t p c b, asks e t p c b → asked t p c b) →
  (∀ epoch, e = Registered (Ok epoch) → told epoch) → grounded (w_session w) →
  wp (handler number_text sha256 hmac uuid cfg env e) (λ r w', r = Ok tt ∧ does w w') w.
Proof.
  intros Hseen Hask Htold Hg. pose proof (does_refl w) as Hd. destruct e; cbn [handler].
  - by apply start_does.
  - apply attached_does; [done|]. intros Hv. apply receive_does; [|done..]. intros f Hf. apply Hseen. cbn. by rewrite Hf.
  - apply attached_does; [done|]. intros Hv. unfold wp. rewrite run_transportClosed by apply Hg. rewrite Hv. split; [done|].
    eapply does_atom; [exact Hd| |done|done]. apply a_finish; [by left|by left|constructor|apply broken_refl].
  - apply attached_does; [done|]. intros _. by apply fail_does.
  - apply registered_does; [|done]. intros epoch ->. by apply Htold.
  - by apply handshakeTimeout_does.
  - by apply heartbeatTick_does.
  - by apply watchTick_does.
  - by apply requestTimeout_does.
  - by apply returning_does, send_does; [by apply Hask|].
  - by apply returning_does, request_does; [by apply Hask|].
  - eapply run_atom; [apply a_flush|]. unfold onMessage. rewrite run_get. 
    erewrite run_bind; [|apply run_modify]. rewrite run_emit, put_put. done.
  - apply (listeners_does _ d_stateListeners). intros d. apply NoDup_filterb.
  - by apply (listeners_does d_listeners).
  - by apply (listeners_does d_listeners).
  - unfold wp. rewrite run_close. destruct (in_state _ Closed) eqn:E; [done|]. split; [done|].
    eapply does_atom; [exact Hd| |done|done]. apply a_finish; [|by left|by constructor|apply broken_refl].
    unfold over. rewrite E. cbn [orb]. unfold in_state. case_bool_decide; [by right|by left].
  - unfold wp. rewrite run_replace. destruct (over _) eqn:E; [done|]. split; [done|].
    eapply does_atom; [exact Hd| |done|done]. apply a_finish; [by left|by right|by eapply farewell_unavailable|apply broken_refl].
Qed.

Lemma step_atoms s e : (∀ f, frame_of e.2 = Some f → seen f) → (∀ t p c b, asks e.2 t p c b → asked t p c b) →
  (∀ epoch, e.2 = Registered (Ok epoch) → told epoch) → grounded s →
  atoms s (step number_text sha256 hmac uuid cfg s e).2 (step number_text sha256 hmac uuid cfg s e).1.
Proof.
  intros Hseen Hask Htold Hg. unfold step, run. set (w := {| w_session := s; w_out := []; w_sends := O |}).
  pose proof (handler_does e.1 e.2 w Hseen Hask Htold Hg) as [_ (os & s' & Ho & Ha & Hs)].
  destruct (handler _ _ _ _ _ _ _ w) as [w' r]. cbn in *. by rewrite Ho, Hs.
Qed.

(** ** Sessions stay grounded *)
Lemma accepted_pending e s : i_pendingBinary (s_inbound (accepted e s)) = i_pendingBinary (s_inbound s).
Proof. done. Qed.

Lemma grounded_same s s' : l_state (s_life s') = l_state (s_life s) → l_detached (s_life s') = l_detached (s_life s) →
  i_pendingBinary (s_inbound s') ⊆ i_pendingBinary (s_inbound s) → grounded s → grounded s'.
Proof.
  intros Hl Hdt Hp [Hd Hk]. split; [by rewrite Hdt, Hd; unfold over, in_state, state; rewrite Hl|].
  intros id p Hi. by eapply Hk, lookup_weaken.
Qed.
Lemma grounded_finished st ready d s : st = Closed ∨ st = Unavailable → grounded (finished st ready d s).
Proof. intros H. split; [by destruct H as [-> | ->]|]. intros id p Hp. cbn in Hp. by apply lookup_empty_Some in Hp. Qed.
Lemma grounded_insert id p n s : known (pb_envelope p) → grounded s → grounded (with_inbound (with_pendingBinary id p n) s).
Proof.
  intros Hk [Hd Hg]. split; [done|]. intros id' p'. cbn. intros [[-> <-]|[_ H]]%lookup_insert_Some; [done|by eapply Hg].
Qed.
Lemma intake_pending s e b s' : intake s e b s' → i_pendingBinary (s_inbound s') ⊆ i_pendingBinary (s_inbound s).
Proof. destruct 1; cbn; [done|apply delete_subseteq]. Qed.
Lemma outcome_same s m os s' : outcome s m os s' → s_life s' = s_life s ∧ s_inbound s' = s_inbound s.
Proof. by destruct 1. Qed.

Lemma grounded_atom s os s' : grounded s → atom s os s' → grounded s'.
Proof.
  intros Hg Ha. pose proof Hg as [Hd Hk]. destruct Ha; try (by apply (grounded_same s)); try (by apply grounded_finished; left).
  - apply grounded_finished. naive_solver.
  - split; [|done]. cbn. rewrite Hd. by rewrite over_authenticating.
  - apply grounded_insert; [by destruct H|]. by apply (grounded_same s).
  - apply grounded_insert; [eapply (Hk _ p), ch_pending; done|done].
  - pose proof (intake_life _ _ _ _ H) as Hl. by eapply grounded_same; [rewrite Hl..|eapply intake_pending|].
  - pose proof (intake_life _ _ _ _ H) as Hl. apply outcome_same in H2 as [Hl' Hi].
    by eapply grounded_same; [rewrite Hl', Hl..|rewrite Hi; eapply intake_pending|].
Qed.
Lemma grounded_atoms s os s' : grounded s → atoms s os s' → grounded s'.
Proof. intros Hg. induction 1; [done|]. eauto using grounded_atom. Qed.

Lemma steps_atoms s es : (∀ e f, e ∈ es → frame_of e.2 = Some f → seen f) →
  (∀ e t p c b, e ∈ es → asks e.2 t p c b → asked t p c b) →
  (∀ e epoch, e ∈ es → e.2 = Registered (Ok epoch) → told epoch) → grounded s →
  atoms s (steps number_text sha256 hmac uuid cfg s es).2 (steps number_text sha256 hmac uuid cfg s es).1.
Proof.
  revert s. induction es as [|e es IH]; intros s Hseen Hask Htold Hg; cbn [steps]; [constructor|].
  assert (atoms s (step number_text sha256 hmac uuid cfg s e).2 (step number_text sha256 hmac uuid cfg s e).1) as H1.
  { apply step_atoms; [intros f; apply Hseen; by left|intros t p c b; apply Hask; by left|intros epoch; apply Htold; by left|done]. }
  destruct (step _ _ _ _ _ s e) as [s1 o1]. cbn in H1.
  specialize (IH s1 ltac:(intros e' f He; apply Hseen; by right)
    ltac:(intros e' t p c b He; apply Hask; by right) ltac:(intros e' epoch He; apply Htold; by right) (grounded_atoms _ _ _ Hg H1)).
  destruct (steps _ _ _ _ _ s1 es) as [s2 o2]. by eapply atoms_trans.
Qed.

(** A session as its constructor leaves it. *)
Record fresh_session (s : WorkerSession) : Prop := {
  fs_life : s_life s = {| l_state := Authenticating; l_available := false; l_acceptingAssignments := false; l_diagnostic := None;
                          l_readySettled := false; l_detached := false; l_closedNotified := false |};
  fs_nonce : h_remoteNonce (s_handshake s) = None;
  fs_peer : h_peerAuthenticated (s_handshake s) = false;
  fs_pending : h_registrationPending (s_handshake s) = false;
  fs_inbound : s_inbound s = {| i_expectedSequence := 0; i_receivedFingerprints := ∅; i_receivedReplayOrder := [];
                                i_pendingBinary := ∅; i_pendingBinaryBytes := 0 |};
  fs_delivery : s_delivery s = delivery_empty;
  fs_requests : s_requests s = requests_empty;
  fs_outbound : u_nextSequence (s_outbound s) = 0;
}.
Lemma fresh_grounded s : fresh_session s → grounded s.
Proof.
  intros []. split; [unfold over, in_state, state; by rewrite fs_life0|]. intros id p. rewrite fs_inbound0. cbn.
  by rewrite lookup_empty.
Qed.
End steps.
