(* ===== verification/SessionLaws.v ===== *)
(** * How a session ends, and its requests

    Properties of every session, from the steps of SessionSteps.v: it ends once,
    silently from then on; each request is answered at most once, and is not
    forgotten; what a session holds is bounded. *)

From S2P Require Import Prelude JsString Collections Regex JsValue Identity Time JsonText Canonical JsonParse Placement Execution Bytes Codec Session SessionSteps.

Open Scope Z_scope.

(** The frames and the calls of a list of events. *)
Definition seen_in (cfg : SessionConfig) (es : list (Env * Event)) (f : Frame) : Prop :=
  ∃ e, e ∈ es ∧ frame_of cfg e.2 = Some f.
Definition asked_in (es : list (Env * Event)) t p c b : Prop := ∃ e, e ∈ es ∧ asks e.2 t p c b.
Definition told_in (es : list (Env * Event)) epoch : Prop := ∃ e, e ∈ es ∧ e.2 = Registered (Ok epoch).

Lemma createSession_fresh uuid o codec nonce cfg s : createSession uuid o codec nonce = Ok (cfg, s) → fresh_session s.
Proof. unfold createSession. intros H. inv_ok H. simplify_eq. by split. Qed.

(** The messages and responses among outputs. *)
Definition ready_results (os : list Output) : list (result exn unit) := omap (λ o, match o with OReady r => Some r | _ => None end) os.
Definition answered (os : list Output) : list jstring := omap (λ o, match o with OResponse id _ => Some id | _ => None end) os.

(** What a session may still put out after its end. *)
Definition quiet (o : Output) : Prop :=
  match o with
  | OStateChange _ st => st = Closed
  | OReady r => ∃ e, r = Err e
  | OSocketClose _ _ | OReturn _ | OAbortTimeout _ => True
  | _ => False
  end.

Lemma omap_none {A B} (f : A → option B) l : (∀ x, x ∈ l → f x = None) → omap f l = [].
Proof.
  induction l as [|x l IH]; intros H; [done|]. cbn. rewrite (H x) by left. apply IH. intros y Hy. apply H. by right.
Qed.
Lemma ready_none os : (∀ r, OReady r ∉ os) → ready_results os = [].
Proof. intros H. apply omap_none. intros [] Hx; try done. by apply H in Hx. Qed.
Lemma answered_none os : (∀ id r, OResponse id r ∉ os) → answered os = [].
Proof. intros H. apply omap_none. intros [] Hx; try done. by apply H in Hx. Qed.
Lemma ready_app a b : ready_results (a ++ b) = ready_results a ++ ready_results b.
Proof. apply omap_app. Qed.
Lemma answered_app a b : answered (a ++ b) = answered a ++ answered b.
Proof. apply omap_app. Qed.

(** What each part of an end puts out. *)
Lemma elem_of_notified s st o : o ∈ notified s st → ∃ l, o = OStateChange l st.
Proof. unfold notified. rewrite list_elem_of_In, in_map_iff. naive_solver. Qed.
Lemma elem_of_ready_out s r o : o ∈ ready_out s r → o = OReady r.
Proof. unfold ready_out. case_match; [by intros ?%elem_of_nil|by intros ?%list_elem_of_singleton]. Qed.
Lemma elem_of_rejected s e o : o ∈ rejected s e → ∃ id, id ∈ q_pendingRequests (s_requests s) ∧ (o = OAbortTimeout id ∨ o = OResponse id (Err e)).
Proof.
  unfold rejected. rewrite list_elem_of_In, in_flat_map. intros (id & Hid & H). exists id. rewrite list_elem_of_In. split; [done|].
  cbn in H. naive_solver.
Qed.
Lemma elem_of_farewell st extra o : farewell st extra → o ∈ extra → (∃ c r, o = OSocketClose c r) ∨ o = OUnavailable ∧ st = Unavailable.
Proof. destruct 1; set_solver. Qed.
Lemma answered_rejected s e : answered (rejected s e) = q_pendingRequests (s_requests s).
Proof. unfold rejected. induction (q_pendingRequests (s_requests s)) as [|id ids IH]; [done|]. cbn. f_equal. exact IH. Qed.
Lemma ready_ready_out s r : ready_results (ready_out s r) = if l_readySettled (s_life s) then [] else [r].
Proof. unfold ready_out. by case_match. Qed.

(** What an end puts out before [OClosed]. *)
Definition finish_body (st : WorkerSessionState) (ready : bool) (e : exn) (extra : list Output) (s : WorkerSession) : list Output :=
  notified s st ++ (if ready then ready_out s (Err e) else []) ++ rejected s e ++ extra.
Lemma finish_split st ready e extra s : finish_out st ready e extra s = finish_body st ready e extra s ++ closed_out s.
Proof. unfold finish_out, finish_body. by rewrite !app_assoc. Qed.
Lemma elem_of_finish_body st ready e extra s o : farewell st extra → o ∈ finish_body st ready e extra s →
  (∃ l, o = OStateChange l st) ∨ (ready = true ∧ o = OReady (Err e)) ∨
  (∃ id, id ∈ q_pendingRequests (s_requests s) ∧ (o = OAbortTimeout id ∨ o = OResponse id (Err e))) ∨
  (∃ c r, o = OSocketClose c r) ∨ o = OUnavailable ∧ st = Unavailable.
Proof.
  intros Hf. unfold finish_body. rewrite !elem_of_app. intros [H|[H|[H|H]]].
  - left. by eapply elem_of_notified.
  - destruct ready; [|by apply elem_of_nil in H]. apply elem_of_ready_out in H. by right; left.
  - apply elem_of_rejected in H. by right; right; left.
  - right; right; right. by eapply elem_of_farewell.
Qed.
Lemma ready_finish st ready e extra s : farewell st extra →
  ready_results (finish_out st ready e extra s) = if ready && negb (l_readySettled (s_life s)) then [Err e] else [].
Proof.
  intros Hf. unfold finish_out. rewrite !ready_app.
  rewrite (ready_none (notified s st)) by (intros r Hr; by apply elem_of_notified in Hr as [? ?]).
  rewrite (ready_none (rejected s e)) by (intros r Hr; apply elem_of_rejected in Hr; naive_solver).
  rewrite (ready_none extra) by (intros r Hr; eapply elem_of_farewell in Hr; naive_solver).
  rewrite (ready_none (closed_out s)) by (intros r; unfold closed_out; case_match; set_solver).
  cbn. rewrite !app_nil_r. destruct ready; [|done]. rewrite ready_ready_out. cbn. by case_match.
Qed.
Lemma answered_finish st ready e extra s : farewell st extra →
  answered (finish_out st ready e extra s) = q_pendingRequests (s_requests s).
Proof.
  intros Hf. unfold finish_out. rewrite !answered_app.
  rewrite (answered_none (notified s st)) by (intros id r Hr; by apply elem_of_notified in Hr as [? ?]).
  rewrite (answered_none (if ready then _ else _)) by (intros id r Hr; destruct ready; [by apply elem_of_ready_out in Hr|by apply elem_of_nil in Hr]).
  rewrite (answered_none extra) by (intros id r Hr; eapply elem_of_farewell in Hr; naive_solver).
  rewrite (answered_none (closed_out s)) by (intros id r; unfold closed_out; case_match; set_solver).
  cbn. by rewrite !app_nil_r, answered_rejected.
Qed.

#[local] Arguments issued : simpl never.
#[local] Arguments pruneIssuedRequests : simpl never.

Section laws.
Context (number_text : jsnum → jstring) (sha256 : jstring → jstring) (hmac : jstring → jstring → jstring) (uuid : nat → jstring).
Context (cfg : SessionConfig) (seen : Frame → Prop) (asked : WorkerMessageType → json → option jstring → option bytes → Prop) (told : jstring → Prop).
Abbreviation atom := (SessionSteps.atom number_text sha256 hmac uuid cfg seen asked told).
Abbreviation limits := (wc_limits (c_codec cfg)).

(** ** The end *)
Record ended (s : WorkerSession) : Prop := {
  en_over : over s = true;
  en_detached : l_detached (s_life s) = true;
  en_notified : l_closedNotified (s_life s) = true;
  en_requests : q_pendingRequests (s_requests s) = [];
  en_messages : d_pendingMessages (s_delivery s) = [];
}.
Record live (s : WorkerSession) : Prop := {
  li_over : over s = false;
  li_detached : l_detached (s_life s) = false;
  li_notified : l_closedNotified (s_life s) = false;
}.

Lemma over_not_authenticating s : over s = true → state s ≠ Authenticating.
Proof. intros H E. by rewrite over_authenticating in H. Qed.
Lemma over_not_ready s : over s = true → state s ≠ Ready.
Proof. intros H E. by rewrite over_ready in H. Qed.
Lemma intake_live s e b s' : intake number_text sha256 cfg seen s e b s' → over s = false.
Proof. destruct 1 as [e [] _|c p [] _ _]; done. Qed.

(** A step that only a session which is not over takes. *)
Ltac alive := exfalso; match goal with H : ended ?s |- _ =>
  apply en_over in H; assert (over s = false) as Hv;
  [first [assumption | by eapply nc_over | by eapply ch_over | by eapply intake_live | by eapply over_authenticating | by eapply over_ready
    | by match goal with H : may_request _ s |- _ => destruct H; eapply over_ready end]
  |by rewrite H in Hv] end.

Lemma ended_atom s os s' : ended s → atom s os s' → ended s' ∧ Forall quiet os.
Proof.
  intros He Ha. destruct Ha; try alive; try (split; [by destruct He|by constructor]).
  - destruct H as [H|[Hu ->]]; [alive|]. destruct H0 as [[_ ->]|[H0 _]]; [|done]. destruct He, H2. split.
    + split; cbn; rewrite ?br_life, ?br_delivery, ?en_detached0, ?en_notified0; done.
    + apply Forall_forall. intros o Ho. rewrite finish_split in Ho. unfold closed_out in Ho. rewrite br_life, en_detached0 in Ho. cbn in Ho.
      rewrite app_nil_r in Ho. eapply elem_of_finish_body in Ho; [|done]. rewrite br_requests, en_requests0 in Ho.
      destruct Ho as [[? ->]|[[_ ->]|[(? & Hx%elem_of_nil & _)|[(? & ? & ->)|[_ ?]]]]]; cbn; by eauto.
  - rewrite (en_requests _ He) in H. by apply elem_of_nil in H.
  - split; [by destruct He|]. destruct H as [[? ->]|[? ->]]; by repeat constructor.
  - destruct He. rewrite en_messages0. split; [by split|constructor].
Qed.

Lemma finish_ends st ready d e extra s : live s → st = Closed ∨ st = Unavailable → farewell st extra →
  ended (finished st ready d s) ∧ ∃ o, finish_out st ready e extra s = o ++ [OClosed] ∧ OClosed ∉ o.
Proof.
  intros [] Hst Hf. split.
  - split; cbn; [by destruct Hst as [-> | ->]|done|rewrite li_detached0; apply orb_true_r|done|by rewrite li_detached0].
  - exists (finish_body st ready e extra s). split.
    + rewrite finish_split. unfold closed_out. by rewrite li_detached0, li_notified0.
    + intros H. eapply elem_of_finish_body in H; [|done]. naive_solver.
Qed.
Lemma live_same s s' : s_life s' = s_life s → live s → live s'.
Proof. intros H []. split; [by rewrite (over_life s s' H)|by rewrite H..]. Qed.

Lemma live_atom s os s' : live s → atom s os s' →
  (live s' ∧ OClosed ∉ os) ∨ (ended s' ∧ ∃ o, os = o ++ [OClosed] ∧ OClosed ∉ o).
Proof.
  intros Hl Ha. destruct Ha; try (left; split; [by apply (live_same s)|set_solver]); try (by rewrite (li_over _ Hl) in *).
  - right. apply finish_ends; [by apply (live_same s), Hl; destruct H2|naive_solver|done].
  - right. edestruct (finish_ends Closed true d x extra (numbered (bump (with_requests (λ _, q) s)))) as [He (o & Ho & Hn)];
      [by apply (live_same s)|by left|done|]. split; [done|]. exists (map OSend (take n frames) ++ o). rewrite Ho, app_assoc. split; [done|].
    intros [(f & ? & ?)%list_elem_of_fmap|?]%elem_of_app; done.
  - left. split.
    + destruct Hl. by split.
    + intros Hc. by apply elem_of_notified in Hc as [? ?].
  - left. split; [by destruct Hl; split|]. intros Hc. by apply elem_of_ready_out in Hc.
  - left. split; [eapply live_same; [eapply intake_life, H|done]|set_solver].
  - left. split.
    + eapply live_same; [|exact Hl]. rewrite (proj1 (outcome_same _ _ _ _ _ _ H2)). by eapply intake_life.
    + intros [?|Hc]%elem_of_cons; [done|]. destruct H2; set_solver.
  - left. split; [done|]. destruct H as [[? ->]|[? ->]]; set_solver.
Qed.

Definition ends_once (s : WorkerSession) (out : list Output) : Prop :=
  (live s ∧ OClosed ∉ out) ∨ (ended s ∧ ∃ o1 o2, out = o1 ++ OClosed :: o2 ∧ OClosed ∉ o1 ∧ Forall quiet o2).
Lemma ends_once_atom s os s' out : ends_once s out → atom s os s' → ends_once s' (out ++ os).
Proof.
  intros [[Hl Hn]|(He & o1 & o2 & -> & Hn & Hq)] Ha.
  - apply live_atom in Ha as [[Hl' Hn']|(He & o & -> & Hn')]; [| |done].
    + left. split; [done|]. rewrite elem_of_app. naive_solver.
    + right. split; [done|]. exists (out ++ o), []. rewrite <- app_assoc. split; [done|]. split; [|constructor].
      rewrite elem_of_app. naive_solver.
  - apply ended_atom in Ha as [He' Hq']; [|done]. right. split; [done|]. exists o1, (o2 ++ os). rewrite <- app_assoc.
    split; [done|]. split; [done|]. by apply Forall_app.
Qed.

(** [ready] settles once. *)
Definition ready_once (s : WorkerSession) (out : list Output) : Prop :=
  length (ready_results out) = if l_readySettled (s_life s) then 1%nat else 0%nat.
Lemma ready_send frames : ready_results (map OSend frames) = [].
Proof. apply ready_none. by intros r (f & ? & ?)%list_elem_of_fmap. Qed.
Lemma ready_once_finish s out pre st ready d e extra s1 : farewell st extra → s_life s1 = s_life s → ready_results pre = [] →
  ready_once s out → ready_once (finished st ready d s1) (out ++ pre ++ finish_out st ready e extra s1).
Proof.
  unfold ready_once. intros Hf Hl Hp Hr. rewrite !ready_app, !length_app, Hr, Hp, ready_finish by done. cbn. rewrite Hl.
  by destruct (l_readySettled (s_life s)), ready.
Qed.
Lemma ready_once_same s out s' os : l_readySettled (s_life s') = l_readySettled (s_life s) → ready_results os = [] →
  ready_once s out → ready_once s' (out ++ os).
Proof. unfold ready_once. intros Hs Ho Hr. by rewrite ready_app, Ho, app_nil_r, Hs. Qed.
Lemma ready_once_atom s os s' out : ready_once s out → atom s os s' → ready_once s' (out ++ os).
Proof.
  intros Hr Ha. destruct Ha; try (apply (ready_once_same s); [done| |done]; first [done|idtac]).
  - apply (ready_once_finish s out []); [done|by destruct H2|done..].
  - apply ready_send.
  - apply (ready_once_finish s out (map OSend (take n frames))); [done|done|apply ready_send|done].
  - apply ready_none. by intros r [? ?]%elem_of_notified.
  - unfold ready_once in *. rewrite ready_app, length_app, Hr, ready_ready_out. cbn. by destruct (l_readySettled _).
  - apply (ready_once_same s); [|done..]. by rewrite (intake_life _ _ _ _ _ _ _ _ H).
  - apply (ready_once_same s); [| |done].
    + rewrite (proj1 (outcome_same _ _ _ _ _ _ H2)). by rewrite (intake_life _ _ _ _ _ _ _ _ H).
    + apply ready_none. intros r [?|Hx]%elem_of_cons; [done|]. destruct H2; set_solver.
  - apply ready_none. destruct H as [[? ->]|[? ->]]; set_solver.
  - apply ready_none. by intros r (f & ? & ?)%list_elem_of_fmap.
Qed.

(** ** Requests *)
Lemma prune_loop_pending fuel q : q_pendingRequests (prune_loop cfg fuel q) = q_pendingRequests q.
Proof.
  revert q. induction fuel as [|fuel IH]; intros q; [done|]. cbn [prune_loop].
  destruct (_ <? _); [|done]. destruct (q_issuedRequestOrder q) as [|r rest]; [done|]. destruct (includes _ _); by rewrite IH.
Qed.
Lemma prune_pending q : q_pendingRequests (pruneIssuedRequests cfg q) = q_pendingRequests q.
Proof. apply prune_loop_pending. Qed.
Lemma issued_pending id q : q_pendingRequests (issued cfg id q) = q_pendingRequests q ++ [id].
Proof. unfold issued, retainIssuedRequest. by rewrite prune_pending. Qed.
Lemma filter_other (id : jstring) l : id ∉ l → List.filter (λ i, negb (streq i id)) l = l.
Proof.
  induction l as [|x l IH]; intros H; [done|]. apply not_elem_of_cons in H as [Hx H]. cbn.
  assert (streq x id = false) as -> by (apply streq_false; congruence). cbn. f_equal. by apply IH.
Qed.
Lemma filter_pending (id : jstring) l : NoDup l → id ∈ l → id :: List.filter (λ i, negb (streq i id)) l ≡ₚ l.
Proof.
  intros Hn Hin. induction Hn as [|x l Hx Hn IH]; [by apply elem_of_nil in Hin|]. cbn.
  destruct (streq x id) eqn:E; cbn.
  - apply streq_true in E as ->. by rewrite filter_other.
  - apply streq_false in E. apply elem_of_cons in Hin as [->|Hin]; [done|]. rewrite perm_swap. f_equiv. by apply IH.
Qed.

Definition identity_below (n : nat) (id : jstring) : Prop := ∃ k, (k < n)%nat ∧ id = js "message-" ++ uuid k.
Abbreviation pending s := (q_pendingRequests (s_requests s)).
Abbreviation identities s := (u_identities (s_outbound s)).

(** What a step does to the requests: those that wait either wait on or are
    answered, and one may be new. *)
Inductive requests_step (s : WorkerSession) (os : list Output) (s' : WorkerSession) : Prop :=
| rs_same : pending s' ++ answered os ≡ₚ pending s → (identities s ≤ identities s')%nat → requests_step s os s'
| rs_new : pending s' ++ answered os ≡ₚ message_id uuid s :: pending s → identities s' = S (identities s) → requests_step s os s'.

Lemma requests_same s os s' : pending s' = pending s → answered os = [] → (identities s ≤ identities s')%nat → requests_step s os s'.
Proof. intros Hp Ho Hi. apply rs_same; [|done]. by rewrite Hp, Ho, app_nil_r. Qed.
Lemma answered_sends frames : answered (map OSend frames) = [].
Proof. apply answered_none. by intros id r (f & ? & ?)%list_elem_of_fmap. Qed.
Lemma answered_messages l ms : answered (map (OMessage l) ms) = [].
Proof. apply answered_none. by intros id r (f & ? & ?)%list_elem_of_fmap. Qed.
Lemma intake_rest s e b s' : intake number_text sha256 cfg seen s e b s' → s_requests s' = s_requests s ∧ s_outbound s' = s_outbound s.
Proof. by destruct 1. Qed.
Lemma drop_pending_step id s os s' : NoDup (pending s) → id ∈ pending s → answered os = [id] → s_outbound s' = s_outbound s →
  s_requests s' = pruneIssuedRequests cfg (drop_pending id (s_requests s)) → requests_step s os s'.
Proof.
  intros Hn Hin Ho Hu Hq. apply rs_same; [|by rewrite Hu]. rewrite Hq, Ho, prune_pending. cbn.
  rewrite <- Permutation_cons_append. by apply filter_pending.
Qed.

Lemma requests_atom s os s' : NoDup (pending s) → message_id uuid s ∉ pending s → atom s os s' → requests_step s os s'.
Proof.
  intros Hn Hf Ha. destruct Ha; try (apply requests_same; [done|done|cbn; lia]).
  - apply rs_same; [|cbn; by destruct H2 as [_ _ _ ->]]. rewrite answered_finish by done. cbn. by destruct H2 as [_ _ -> _].
  - destruct H1.
    + apply requests_same; [done|apply answered_sends|cbn; lia].
    + apply rs_new; [|done]. rewrite answered_sends. cbn. rewrite issued_pending, app_nil_r. by rewrite Permutation_app_comm.
  - destruct H1.
    + apply rs_same; [|cbn; lia]. rewrite answered_app, answered_sends, answered_finish by done. done.
    + apply rs_new; [|done]. rewrite answered_app, answered_sends, answered_finish by done. cbn. rewrite issued_pending.
      by rewrite Permutation_app_comm.
  - apply requests_same; [done| |cbn; lia]. apply answered_none. by intros ? r [? ?]%elem_of_notified.
  - apply requests_same; [done| |cbn; lia]. apply answered_none. by intros ? r ?%elem_of_ready_out.
  - apply intake_rest in H as [Hq Ho]. apply requests_same; [by rewrite Hq|done|by rewrite Ho].
  - apply intake_rest in H as [Hq Ho]. destruct H2.
    + eapply drop_pending_step; [done| |done|done|cbn; by rewrite Hq]. by rewrite <- Hq.
    + apply requests_same; [by rewrite Hq|done|by rewrite Ho].
    + apply requests_same; [by rewrite Hq| |by rewrite Ho]. apply answered_none. set_solver.
    + apply requests_same; [by rewrite <- Hq|done|by rewrite <- Ho].
  - by eapply drop_pending_step.
  - apply rs_new; [|done]. cbn. rewrite issued_pending, app_nil_r. by rewrite Permutation_app_comm.
  - apply requests_same; [|done|cbn; lia]. cbn. rewrite issued_pending, List.filter_app. cbn.
    assert (streq (message_id uuid s) (message_id uuid s) = true) as -> by by apply streq_true. cbn. rewrite app_nil_r. by apply filter_other.
  - apply requests_same; [done| |done]. destruct H as [[? ->]|[? ->]]; done.
  - apply requests_same; [done|apply answered_messages|done].
Qed.

(** Each request is answered at most once. *)
Record requests_once (s : WorkerSession) (out : list Output) : Prop := {
  ro_once : NoDup (pending s ++ answered out);
  ro_below id : id ∈ pending s ++ answered out → identity_below (identities s) id;
}.
Hypothesis uuid_inj : Inj (=) (=) uuid.
Lemma message_id_fresh s : ¬ identity_below (identities s) (message_id uuid s).
Proof. unfold message_id. intros (k & Hk & E). apply app_inv_head in E. apply uuid_inj in E. lia. Qed.
Lemma identity_below_mono n m id : (n ≤ m)%nat → identity_below n id → identity_below m id.
Proof. intros H (k & Hk & E). exists k. split; [by eapply Nat.lt_le_trans|done]. Qed.
Lemma once_step s out os s' : requests_once s out → atom s os s' → requests_step s os s'.
Proof.
  intros [Hn Hb] Ha. eapply requests_atom; [by apply NoDup_app in Hn as [? _]| |done].
  intros H. eapply message_id_fresh, Hb, elem_of_app. by left.
Qed.
Lemma requests_once_atom s os s' out : requests_once s out → atom s os s' → requests_once s' (out ++ os).
Proof.
  intros Ho Ha. pose proof (once_step _ _ _ _ Ho Ha) as Hs. destruct Ho as [Hn Hb].
  assert (pending s' ++ answered (out ++ os) ≡ₚ (pending s' ++ answered os) ++ answered out) as Ep.
  { rewrite answered_app. solve_Permutation. }
  destruct Hs as [Hp Hi|Hp Hi]; rewrite Hp in Ep.
  - split; [by rewrite Ep|]. intros id. rewrite Ep. intros H. eapply identity_below_mono, Hb; done.
  - split.
    + rewrite Ep. cbn. constructor; [|done]. intros H. by eapply message_id_fresh, Hb.
    + intros id. rewrite Ep. cbn. intros [->|H]%elem_of_cons.
      * exists (identities s). split; [lia|done].
      * eapply identity_below_mono, Hb; [lia|done].
Qed.
(** and is not forgotten. *)
Lemma request_kept s out os s' id : requests_once s out → atom s os s' → id ∈ pending s → id ∈ pending s' ∨ id ∈ answered os.
Proof.
  intros Ho Ha Hid. destruct (once_step _ _ _ _ Ho Ha) as [Hp _|Hp _]; rewrite <- elem_of_app, Hp; [done|by right].
Qed.
End laws.

(** ** Runs *)
Section runs.
Context (number_text : jsnum → jstring) (sha256 : jstring → jstring) (hmac : jstring → jstring → jstring) (uuid : nat → jstring).
Context (cfg : SessionConfig).
Abbreviation run_steps := (steps number_text sha256 hmac uuid cfg).

(** What every step keeps holds of every run; [all] are the events there may be. *)
Lemma steps_invariant_from (P : WorkerSession → list Output → Prop) all s es out :
  (∀ e, e ∈ es → e ∈ all) → grounded cfg (seen_in cfg all) s → P s out →
  (∀ s os s' out, P s out → SessionSteps.atom number_text sha256 hmac uuid cfg (seen_in cfg all) (asked_in all) (told_in all) s os s' → P s' (out ++ os)) →
  P (run_steps s es).1 (out ++ (run_steps s es).2) ∧ grounded cfg (seen_in cfg all) (run_steps s es).1.
Proof.
  intros Hsub Hg H0 Hs.
  pose proof (steps_atoms number_text sha256 hmac uuid cfg (seen_in cfg all) (asked_in all) (told_in all) s es
    ltac:(intros e f H1 H2; exists e; eauto) ltac:(intros e t p c b H1 H2; exists e; eauto) ltac:(intros e epoch H1 H2; exists e; eauto) Hg) as Ha.
  split; [by eapply atoms_invariant|by eapply grounded_atoms].
Qed.
Lemma steps_invariant (P : WorkerSession → list Output → Prop) s es : fresh_session s → P s [] →
  (∀ s os s' out, P s out → SessionSteps.atom number_text sha256 hmac uuid cfg (seen_in cfg es) (asked_in es) (told_in es) s os s' → P s' (out ++ os)) →
  P (run_steps s es).1 (run_steps s es).2.
Proof. intros Hf H0 Hs. by apply (steps_invariant_from P es s es []); [|apply fresh_grounded|..]. Qed.
Lemma steps_app s es es' : run_steps s (es ++ es') =
  let r := run_steps s es in let r' := run_steps r.1 es' in (r'.1, r.2 ++ r'.2).
Proof.
  revert s. induction es as [|e es IH]; intros s; [cbn; by destruct (run_steps s es')|]; cbn [steps app].
  destruct (step _ _ _ _ _ s e) as [s1 o1]. rewrite IH. cbn. destruct (run_steps s1 es) as [s2 o2]. cbn.
  destruct (run_steps s2 es') as [s3 o3]. cbn. by rewrite app_assoc.
Qed.

Lemma fresh_live s : fresh_session s → live s.
Proof. intros []. split; [unfold over, in_state, state|..]; by rewrite fs_life. Qed.
Lemma fresh_once s : fresh_session s → requests_once uuid s [].
Proof. intros []. split; rewrite fs_requests; [constructor|]. intros id H. by apply elem_of_nil in H. Qed.

(** What a request that is sent leaves behind. *)
Lemma request_waits env t p b ms w :
  (∀ r, OReturn r ∉ w_out w) →
  wp (request uuid cfg env t p b ms)
    (λ r w', (∀ x, OReturn x ∉ w_out w') ∧ ∀ id, r = Ok id → id ∈ q_pendingRequests (s_requests (w_session w'))) w.
Proof.
  intros Hw. unfold request. apply swp_bind, swp_lift. intros ? Hr. destruct (rejectReservedMessageType t) eqn:Et in Hr; subst; [|by split]. apply reserved_app in Et as Happ.
  apply swp_bind, swp_get, swp_bind, swp_guard; intros _; [by split|]. apply swp_bind, swp_guard; intros _; [by split|].
  apply swp_bind. unfold newIdentity. apply swp_bind, swp_get, swp_bind, swp_modify, swp_ret. apply swp_bind, swp_modify, swp_bind, swp_modify.
  match goal with |- wp _ _ ?w' => set (w1 := w') end.
  assert (w_out w1 = w_out w) as Ho1 by done.
  assert (w_session w1 = bump (with_requests (issued cfg (message_id uuid (w_session w))) (w_session w))) as Hs1 by done.
  clearbody w1. fold (message_id uuid (w_session w)).
  apply swp_bind, swp_lift. intros ? Hp. destruct (positiveDuration ms _) in Hp; subst; [|by rewrite Ho1].
  apply swp_handle, (swp_sendEnvelope _ _ (λ _ _ _ _, True)); cbn [sender sender_id]; [done|by rewrite Happ|..].
  - intros e w' Ho _. apply swp_bind, swp_modify, swp_bind, swp_emit, swp_throw. split; [|done]. cbn. intros x.
    rewrite Ho, Ho1. set_solver.
  - intros e frames w' _ _ _ Ho Hs. rewrite Ho, Ho1, Hs, Hs1. split.
    + intros x [H|(f & ? & ?)%list_elem_of_fmap]%elem_of_app; [by eapply Hw|done].
    + intros id [= <-]. cbn. rewrite issued_pending. set_solver.
  - intros e frames n w' _ _ _ Ho. apply swp_bind, swp_modify, swp_bind, swp_emit, swp_throw. split; [|done]. cbn. intros x.
    rewrite Ho, Ho1, finish_split. intros [[H|[(f & ? & ?)%list_elem_of_fmap|[H|H]%elem_of_app]%elem_of_app]%elem_of_app|H]%elem_of_app; [..|set_solver].
    + by eapply Hw.
    + done.
    + eapply elem_of_finish_body in H; [|by constructor]. naive_solver.
    + unfold closed_out in H. case_match; set_solver.
Qed.
Lemma step_request_waits s env t p b ms id :
  let r := step number_text sha256 hmac uuid cfg s (env, Request t p b ms) in
  OReturn (Ok id) ∈ r.2 → id ∈ q_pendingRequests (s_requests r.1).
Proof.
  unfold step, run. cbn [handler fst snd]. set (w := {| w_session := s; w_out := []; w_sends := O |}).
  assert (wp (returning (request uuid cfg env t p b ms)) (λ _ w', OReturn (Ok id) ∈ w_out w' → id ∈ q_pendingRequests (s_requests (w_session w'))) w) as H.
  { unfold returning. apply swp_bind, swp_handle, swp_bind. eapply swp_mono; [apply request_waits; by intros r ?%elem_of_nil|].
    intros [id'|e] w' [Hn Hid]; [apply swp_ret|]; apply swp_emit; cbn; intros [H|H%list_elem_of_singleton]%elem_of_app; try by apply Hn in H.
    - injection H as ->. by apply Hid.
    - done. }
  unfold wp in H. by destruct (returning _ w) as [w' r].
Qed.

(** ** Properties *)

(** A session ends once: the owner hears of it once, [ready] settles at most
    once, and every request made by then has been answered. From then on nothing is
    sent, delivered, answered or reported; a session that was replaced may still
    become closed. *)
Theorem session_ends_once o codec nonce s es s' out :
  createSession uuid o codec nonce = Ok (cfg, s) → run_steps s es = (s', out) →
  (length (ready_results out) <= 1)%nat ∧ (over s' = true ↔ OClosed ∈ out) ∧
  (over s' = true → q_pendingRequests (s_requests s') = []) ∧
  ∀ o1 o2, out = o1 ++ OClosed :: o2 → OClosed ∉ o1 ∧ Forall quiet o2.
Proof.
  intros Hc Hr. apply createSession_fresh in Hc.
  pose proof (steps_invariant ends_once s es Hc (or_introl (conj (fresh_live s Hc) (not_elem_of_nil _)))
    ltac:(intros; by eapply ends_once_atom)) as He.
  assert (ready_once s []) as H0 by (unfold ready_once; by rewrite (fs_life _ Hc)).
  pose proof (steps_invariant ready_once s es Hc H0 ltac:(intros; by eapply ready_once_atom)) as Hre.
  rewrite Hr in He, Hre. cbn in He, Hre. split; [rewrite Hre; case_match; lia|].
  destruct He as [[Hl Hn]|(He & a & b & -> & Hn & Hq)].
  - rewrite (li_over _ Hl). split_and!; [by split|done|]. intros o1 o2 ->. exfalso. apply Hn. set_solver.
  - rewrite (en_over _ He). split_and!; [set_solver|intros _; apply He|]. intros o1 o2 E.
    apply app_eq_inv in E as [(k & -> & E)|(k & -> & E)].
    + destruct k as [|x k]; cbn in E; [injection E as ->; by rewrite app_nil_r in Hn|].
      exfalso. injection E as <- _. apply Hn. set_solver.
    + destruct k as [|x k]; cbn in E; [injection E as ->; by rewrite app_nil_r|].
      exfalso. injection E as <- ->. rewrite Forall_app, Forall_cons in Hq. by destruct Hq as [_ [[] _]].
Qed.

(** A request that was sent is answered once, by a response or by the reason
    there is none, or it still waits; when the session is over none waits. No
    response is given to a request that was not made, and none twice. *)
Theorem request_answered_once o codec nonce s before env t p b ms after id :
  Inj (=) (=) uuid → createSession uuid o codec nonce = Ok (cfg, s) →
  let s1 := (run_steps s before).1 in
  let r := step number_text sha256 hmac uuid cfg s1 (env, Request t p b ms) in
  OReturn (Ok id) ∈ r.2 →
  let r' := run_steps s (before ++ (env, Request t p b ms) :: after) in
  NoDup (answered r'.2) ∧ (id ∈ q_pendingRequests (s_requests r'.1) ∨ id ∈ answered r'.2) ∧
  (over r'.1 = true → id ∈ answered r'.2).
Proof.
  intros Hu Hc s1 r Hret r'. apply createSession_fresh in Hc. set (all := before ++ (env, Request t p b ms) :: after).
  set (P := λ s out, requests_once uuid s out ∧ ends_once s out).
  assert (∀ s os s' out, P s out → SessionSteps.atom number_text sha256 hmac uuid cfg (seen_in cfg all) (asked_in all) (told_in all) s os s' →
    P s' (out ++ os)) as HP.
  { intros ? ? ? ? [H1 H2] Ha. split; [by eapply requests_once_atom|by eapply ends_once_atom]. }
  assert (P s []) as H0. { split; [by apply fresh_once|]. left. split; [by apply fresh_live|apply not_elem_of_nil]. }
  destruct (steps_invariant_from P all s before [] ltac:(set_solver) (fresh_grounded _ _ _ Hc) H0 HP) as [H1 Hg1]. fold s1 in H1, Hg1.
  destruct (steps_invariant_from P all s1 [(env, Request t p b ms)] _ ltac:(set_solver) Hg1 H1 HP) as [H2 Hg2].
  assert (run_steps s1 [(env, Request t p b ms)] = r) as E.
  { cbn [steps]. fold r. destruct r. by rewrite app_nil_r. }
  rewrite E in H2, Hg2. apply step_request_waits in Hret. fold r in Hret.
  set (P' := λ s out, P s out ∧ (id ∈ q_pendingRequests (s_requests s) ∨ id ∈ answered out)).
  destruct (steps_invariant_from P' all r.1 after _ ltac:(set_solver) Hg2 (conj H2 (or_introl Hret))) as [[H3 Hid] _].
  { intros x os x' out [HPx Hx] Ha. split; [by eapply HP|]. destruct Hx as [Hx|Hx].
    - destruct HPx as [Ho _]. eapply request_kept in Hx as [Hx|Hx]; [by left| |done..]. right. rewrite answered_app. set_solver.
    - right. rewrite answered_app. set_solver. }
  assert (r' = ((run_steps r.1 after).1, (([] ++ (run_steps s before).2) ++ r.2) ++ (run_steps r.1 after).2)) as ->.
  { unfold r'. rewrite steps_app. cbn zeta. fold s1. cbn [steps fst snd]. fold r. destruct r as [sr or]. cbn [fst snd]. rewrite app_nil_l, <- app_assoc.
    by destruct (run_steps sr after) as [sa oa]. }
  cbn [fst snd]. destruct H3 as [[Hn _] He]. split; [by apply NoDup_app in Hn as (_ & _ & ?)|]. split; [done|].
  intros Hov. destruct Hid as [Hid|Hid]; [|done]. destruct He as [[Hl _]|[He _]].
  - by rewrite (li_over _ Hl) in Hov.
  - rewrite (en_requests _ He) in Hid. by apply elem_of_nil in Hid.
Qed.
End runs.
