(* ===== verification/SessionTrust.v ===== *)
(** * Whom a session trusts

    Nothing of a peer reaches the owner of a session, and no worker is registered,
    before the peer has shown that it holds the credential of the worker. *)

From S2P Require Import Prelude JsString Collections Regex JsValue Identity Time JsonText Canonical JsonParse Placement Execution Bytes Codec Session SessionSteps SessionLaws.

Open Scope Z_scope.

(** What an owner takes as coming from the worker, or from the main process. *)
Definition trusted (o : Output) : bool :=
  match o with
  | OMessage _ _ | ORegister _ => true
  | OResponse _ (Ok _) | OReady (Ok _) => true
  | OStateChange _ Ready => true
  | _ => false
  end.

Lemma untrusted_finish st ready e extra s o : st ≠ Ready → farewell st extra → o ∈ finish_out st ready e extra s → trusted o = false.
Proof.
  intros Hst Hf. rewrite finish_split. intros [H|H]%elem_of_app.
  - eapply elem_of_finish_body in H; [|done].
    destruct H as [[? ->]|[[_ ->]|[(? & _ & [-> | ->])|[(? & ? & ->)|[-> _]]]]]; try done. by destruct st.
  - unfold closed_out in H. case_match; [by apply elem_of_nil in H|]. by apply list_elem_of_singleton in H as ->.
Qed.

Section trust.
Context (number_text : jsnum → jstring) (sha256 : jstring → jstring) (hmac : jstring → jstring → jstring) (uuid : nat → jstring).
Context (cfg : SessionConfig) (seen : Frame → Prop) (asked : WorkerMessageType → json → option jstring → option bytes → Prop) (told : jstring → Prop).
(** Whose credential a session checks. *)
Context (own_worker own_credential : option jstring).
Abbreviation atom := (SessionSteps.atom number_text sha256 hmac uuid cfg seen asked told).

Definition entitled (worker credential : jstring) : Prop :=
  match c_role cfg with
  | Main => c_resolveCredential cfg ≫= (λ f, f worker) = Some credential
  | Worker => own_worker = Some worker ∧ own_credential = Some credential
  end.
(** A proof for the worker was received. *)
Record authentic (worker : jstring) (e : WorkerEnvelope) (credential remoteNonce : jstring) (role : WorkerSessionRole) (proof : jstring) : Prop := {
  au_known : known cfg seen e;
  au_type : we_type e = authenticate;
  au_proof : ∃ fields, we_payload e = JObj fields ∧ JsMap.get fields (js "proof") = Some (JStr proof);
  au_role : role ≠ c_role cfg;
  au_entitled : entitled worker credential;
  au_verified : verifyAuthenticationProof hmac credential worker remoteNonce (c_nonce cfg) role proof = true;
}.
Definition vouched (worker : jstring) : Prop := ∃ e credential remoteNonce role proof, authentic worker e credential remoteNonce role proof.

Record trusts (s : WorkerSession) : Prop := {
  tr_authorized : h_principalAuthorized (s_handshake s) = true →
    ∃ w, h_principalWorkerId (s_handshake s) = Some w ∧ entitled w (h_credential (s_handshake s));
  tr_role r : h_remoteRole (s_handshake s) = Some r → r ≠ c_role cfg;
  tr_met : h_peerAuthenticated (s_handshake s) = true → is_Some (h_remoteNonce (s_handshake s));
  tr_peer : h_peerAuthenticated (s_handshake s) = true → ∃ w, h_principalWorkerId (s_handshake s) = Some w ∧ vouched w;
  tr_pending : h_registrationPending (s_handshake s) = true → h_peerAuthenticated (s_handshake s) = true;
  tr_ready : state s = Ready → h_peerAuthenticated (s_handshake s) = true;
}.
Record trust (s : WorkerSession) (out : list Output) : Prop := {
  tt_live : over s = false → trusts s;
  tt_queue : d_pendingMessages (s_delivery s) ≠ [] → ∃ w, vouched w;
  tt_out o : o ∈ out → trusted o = true → ∃ w, vouched w ∧ ∀ r, o = ORegister r → wr_workerId r = w;
}.

(** A step of the handshake part. *)
Lemma trust_same s s' out os : s_handshake s' = s_handshake s → state s' = state s →
  (d_pendingMessages (s_delivery s') ≠ [] → d_pendingMessages (s_delivery s) ≠ [] ∨ ∃ w, vouched w) →
  (∀ o, o ∈ os → trusted o = true → ∃ w, vouched w ∧ ∀ r, o = ORegister r → wr_workerId r = w) →
  trust s out → trust s' (out ++ os).
Proof.
  intros Hh Hs Hq Ho [Hl Hqu Hout]. split.
  - unfold over, in_state. rewrite Hs. intros Hv. destruct (Hl Hv). split; rewrite Hh, ?Hs; done.
  - intros H. destruct (Hq H) as [H'|H']; [by apply Hqu|done].
  - intros o [H|H]%elem_of_app; [by apply Hout|by apply Ho].
Qed.
Lemma trust_handshake s out h' : trust s out → (over s = false → trusts (with_handshake (λ _, h') s)) →
  trust (with_handshake (λ _, h') s) (out ++ []).
Proof. intros [_ Hq Ho] H. rewrite app_nil_r. by split. Qed.

Lemma trusts_hello s nonce role sessionId h' : trusts s → h_remoteNonce (s_handshake s) = None → role ≠ c_role cfg → state s = Authenticating →
  greeted cfg nonce role sessionId (s_handshake s) h' → trusts (with_handshake (λ _, h') s).
Proof.
  intros [Ha Hr Hm Hp Hpe Hre] Hn Hrole Hs Hg.
  assert (h_peerAuthenticated (s_handshake s) = false) as Hpf.
  { destruct (h_peerAuthenticated _); [|done]. destruct (Hm eq_refl) as [x Hx]. by rewrite Hn in Hx. }
  assert (h_registrationPending (s_handshake s) = false) as Hpe'.
  { destruct (h_registrationPending _); [|done]. by rewrite Hpe in Hpf. }
  unfold greeted, entitled in *. destruct (c_role cfg) eqn:Er.
  - destruct Hg as [w ->]. destruct (c_resolveCredential cfg ≫= λ f, f w) as [c|] eqn:Ec; split; cbn; rewrite ?Hpf, ?Hpe', ?Er; try done.
    all: try (intros r [= <-]; done). all: try (intros H; unfold state in H; cbn in H; fold (state s) in H; congruence).
    intros _. exists w. split; [done|]. unfold entitled. by rewrite Er.
  - subst h'. split; cbn; rewrite ?Hpf, ?Hpe', ?Er; try done.
    + intros H. destruct (Ha H) as (w & H1 & H2). exists w. split; [done|]. unfold entitled. by rewrite Er.
    + intros r [= <-]. done.
    + intros H; unfold state in H; cbn in H; fold (state s) in H; congruence.
Qed.

Lemma vouched_ready s : trusts s → state s = Ready → ∃ w, h_principalWorkerId (s_handshake s) = Some w ∧ vouched w.
Proof. intros Ht Hs. by apply Ht, tr_ready. Qed.

Lemma trust_finish st ready d e extra s s1 pre out : st ≠ Ready → st ≠ Authenticating → farewell st extra →
  (∀ o, o ∈ pre → trusted o = false) → s_delivery s1 = s_delivery s →
  trust s out → trust (finished st ready d s1) (out ++ pre ++ finish_out st ready e extra s1).
Proof.
  intros H1 H2 Hf Hpre Hd [_ Hq Ho]. split.
  - intros Hv. assert (over (finished st ready d s1) = true) as Hv' by (by destruct st). by rewrite Hv' in Hv.
  - cbn. rewrite Hd. by destruct (l_detached _).
  - intros o [H|[H|H]%elem_of_app]%elem_of_app Ht; [by apply Ho| |]; exfalso.
    + by rewrite Hpre in Ht.
    + by rewrite (untrusted_finish st ready e extra s1) in Ht.
Qed.
Lemma trusted_sends frames o : o ∈ map OSend frames → trusted o = false.
Proof. by intros (f & -> & _)%list_elem_of_fmap. Qed.

Lemma trust_message s e b s1 os s2 out : trust s out → intake number_text sha256 cfg seen s e b s1 → state s = Ready →
  outcome number_text cfg s1 (message_of e b) os s2 → trust s2 (out ++ ODispatch e b :: os).
Proof.
  intros Ht Hi Hs Ho.
  assert (∃ w, vouched w) as [w Hw].
  { destruct (vouched_ready s) as (w & _ & Hw); [apply Ht; by apply over_ready|done|by exists w]. }
  assert (s_handshake s2 = s_handshake s) as Hh by (transitivity (s_handshake s1); [by destruct Ho|by destruct Hi]).
  assert (s_life s2 = s_life s) as Hl.
  { rewrite (proj1 (outcome_same _ _ _ _ _ _ Ho)). by eapply intake_life. }
  apply (trust_same s); [done|unfold state; by rewrite Hl|by right; exists w| |done].
  intros o [->|Hin]%elem_of_cons Htr; [done|]. exists w. split; [done|]. intros r ->. destruct Ho; set_solver.
Qed.

Lemma trust_atom s os s' out : trust s out → atom s os s' → trust s' (out ++ os).
Proof.
  intros Ht Ha. destruct Ha; try (apply (trust_same s); [done|done|by left|set_solver|done]).
  - apply (trust_finish st ready d e extra s s1 []); [naive_solver..|done|set_solver|by destruct H2|done].
  - apply trust_handshake; [done|]. intros Hv. unfold over, in_state, state in *. cbn in Hv. congruence.
  - apply (trust_finish Closed true d x extra s); [done|done|done|apply trusted_sends|done|done].
  - destruct Ht as [Hl Hq Ho]. split; [|done|by rewrite app_nil_r]. intros Hv. destruct (Hl Hv).
    destruct H as [[? ->]|[-> | ->]]; by split.
  - apply trust_handshake; [done|]. intros Hv. by eapply trusts_hello; [apply Ht, over_authenticating|..].
  - destruct Ht as [Hl Hq Ho]. split; [|done|by rewrite app_nil_r]. intros Hv. destruct (Hl H0) as [Ta Tr Tm Tp Tpe Tre].
    destruct H1 as (w & nonce & role & fields & proof & Hw & Hn & Hr & Hty & Hpl & Hpr & Hvf).
    split; cbn; try done.
    intros _. exists w. split; [done|]. exists e, (h_credential (s_handshake s)), nonce, role, proof.
    split; [done|done|by exists fields|by apply Tr| |done]. destruct (Ta H2) as (w' & Hw' & He). by simplify_eq.
  - destruct Ht as [Hl Hq Ho]. destruct (Hl (over_authenticating _ H0)) as [Ta Tr Tm Tp Tpe Tre]. split; [|done|].
    + intros _. by split.
    + intros o [Hin| ->%list_elem_of_singleton]%elem_of_app Htr; [by apply Ho|].
      destruct (Tp H2) as (w & Hw & Hv). exists w. split; [done|]. intros r' [= <-]. by simplify_eq.
  - destruct Ht as [Hl Hq Ho]. destruct (Hl (over_authenticating _ H)) as [Ta Tr Tm Tp Tpe Tre].
    assert (h_peerAuthenticated (s_handshake s) = true) as Hpa. { destruct H0 as [[H0 _]|[_ H0]]; [by apply Tpe|done]. }
    split; [|done|].
    + intros _. by split.
    + intros o [Hin|[l ->]%elem_of_notified]%elem_of_app Htr; [by apply Ho|]. destruct (Tp Hpa) as (w & _ & Hv).
      exists w. split; [done|]. done.
  - destruct Ht as [Hl Hq Ho]. split; [|done|].
    + intros Hv. destruct (Hl Hv). by split.
    + intros o [Hin| ->%elem_of_ready_out]%elem_of_app Htr; [by apply Ho|].
      destruct (vouched_ready s (Hl (over_ready _ H)) H) as (w & _ & Hv). exists w. by split.
  - apply (trust_same s); [by destruct H|unfold state; by rewrite (intake_life _ _ _ _ _ _ _ _ H)|left; by destruct H|set_solver|done].
  - by eapply trust_message.
  - apply (trust_same s); [done|done|by left| |done]. intros o Ho Htr. destruct H as [[? ->]|[? ->]]; set_solver.
  - destruct Ht as [Hl Hq Ho]. split; [by intros Hv; destruct (Hl Hv); split|done|].
    intros o [Hin|(m & -> & Hm)%list_elem_of_fmap]%elem_of_app Htr; [by apply Ho|].
    destruct Hq as [w Hw]; [by intros E; rewrite E in Hm; apply elem_of_nil in Hm|]. by exists w.
Qed.
End trust.

(** ** Properties *)

Lemma created_principal uuid o codec nonce cfg s : createSession uuid o codec nonce = Ok (cfg, s) →
  h_remoteRole (s_handshake s) = None ∧
  (h_principalAuthorized (s_handshake s) = true → c_role cfg = Worker ∧ so_credential o = Some (h_credential (s_handshake s)) ∧
    h_principalWorkerId (s_handshake s) = wr_workerId <$> c_worker cfg ∧ is_Some (c_worker cfg)).
Proof.
  unfold createSession. intros H. inv_ok H. simplify_eq. split; [done|]. cbn. intros Hr. to_prop. rewrite Hr in *.
  destruct (so_credential o) as [c|]; [|done]. destruct a5 as [w|]; [|done]. simplify_eq/=.
  unfold normalizeCredential in *. inv_ok Ha. by simplify_eq.
Qed.
Lemma created_trust hmac uuid o codec nonce cfg s seen : createSession uuid o codec nonce = Ok (cfg, s) →
  trust hmac cfg seen (wr_workerId <$> c_worker cfg) (so_credential o) s [].
Proof.
  intros Hc. apply created_principal in Hc as HP. apply createSession_fresh in Hc as Hf. destruct HP as [Hr Ha]. destruct Hf.
  split; [|by rewrite fs_delivery|by intros ? ?%elem_of_nil]. intros _.
  split; rewrite ?Hr, ?fs_peer, ?fs_pending; try done.
  - intros H. destruct (Ha H) as (Hrole & Hcr & Hw & [w Hwk]). rewrite Hwk in *. exists (wr_workerId w). split; [done|].
    unfold entitled. by rewrite Hrole.
  - intros H. unfold state in H. by rewrite fs_life in H.
Qed.

(** C8. Whatever a session gives its owner as coming from the peer, a message, a
    response, a registration or that it is ready, it gives after an envelope with
    a proof was received: the proof that the credential of the worker makes, for
    the nonces of this connection, in the role of the peer. A registration is of
    that worker. *)
Theorem session_authenticated number_text sha256 hmac uuid o codec nonce cfg s es x :
  createSession uuid o codec nonce = Ok (cfg, s) →
  x ∈ (steps number_text sha256 hmac uuid cfg s es).2 → trusted x = true →
  ∃ worker e credential remoteNonce role proof,
    authentic hmac cfg (seen_in cfg es) (wr_workerId <$> c_worker cfg) (so_credential o) worker e credential remoteNonce role proof ∧
    ∀ r, x = ORegister r → wr_workerId r = worker.
Proof.
  intros Hc Hx Ht. apply createSession_fresh in Hc as Hf.
  pose proof (steps_invariant number_text sha256 hmac uuid cfg
    (trust hmac cfg (seen_in cfg es) (wr_workerId <$> c_worker cfg) (so_credential o)) s es Hf (created_trust _ _ _ _ _ _ _ _ Hc)
    ltac:(intros; by eapply trust_atom)) as [_ _ Ho].
  destruct (Ho x Hx Ht) as (w & (e & c & n & role & p & Ha) & Hr). by exists w, e, c, n, role, p.
Qed.
