(* ===== verification/SessionBounds.v ===== *)
(** * What a session holds

    A peer cannot make a session hold more than its limits: replays retained,
    binaries and messages that wait, requests in flight and their identities. The
    loop that forgets old requests ends. *)

From S2P Require Import Prelude JsString Collections Regex JsValue Identity Time JsonText Canonical JsonParse Placement Execution Bytes Codec Session SessionSteps SessionLaws.

Open Scope Z_scope.

(** ** Forgetting requests *)
Section prune.
Context (cfg : SessionConfig).

(** An issued identity is in the order. *)
Definition covered (q : Requests) : Prop := ∀ id, id ∈ q_issuedRequestIds q → id ∈ q_issuedRequestOrder q.
Definition requests_room (q : Requests) : Prop := Z.of_nat (length (q_pendingRequests q)) <= issued_retention cfg.
Definition removed (x : jstring) (order : list jstring) (q : Requests) : Requests :=
  {| q_pendingRequests := q_pendingRequests q; q_issuedRequestIds := q_issuedRequestIds q ∖ {[x]}; q_issuedRequestOrder := order |}.

(** A turn of the order: the requests that wait go to its end, and the first
    other is forgotten. *)
Lemma prune_turn pre x rest fuel q :
  issued_retention cfg < Z.of_nat (size (q_issuedRequestIds q)) → q_issuedRequestOrder q = pre ++ x :: rest →
  Forall (λ id, id ∈ q_pendingRequests q) pre → x ∉ q_pendingRequests q →
  prune_loop cfg (length pre + S fuel) q = prune_loop cfg fuel (removed x (rest ++ pre) q).
Proof.
  revert q rest. induction pre as [|y pre IH]; intros q rest Hs Ho Hp Hx; cbn [length Nat.add prune_loop];
    rewrite (proj2 (Z.ltb_lt _ _) Hs), Ho; cbn [app].
  - apply includes_false in Hx. rewrite Hx. unfold removed. by rewrite app_nil_r.
  - apply Forall_cons in Hp as [Hy Hp]. apply includes_true in Hy. rewrite Hy.
    rewrite (IH _ (rest ++ [y])); [|done|cbn; by rewrite <- app_assoc|done|done].
    unfold removed. cbn. by rewrite <- app_assoc.
Qed.

Lemma first_free q : covered q → requests_room q → issued_retention cfg < Z.of_nat (size (q_issuedRequestIds q)) →
  ∃ pre x rest, q_issuedRequestOrder q = pre ++ x :: rest ∧ Forall (λ id, id ∈ q_pendingRequests q) pre ∧ x ∉ q_pendingRequests q.
Proof.
  unfold requests_room. intros Hc Hr Hs.
  assert (Forall (λ id, id ∈ q_pendingRequests q) (q_issuedRequestOrder q) ∨
    ∃ pre x rest, q_issuedRequestOrder q = pre ++ x :: rest ∧ Forall (λ id, id ∈ q_pendingRequests q) pre ∧ x ∉ q_pendingRequests q) as [H|H]; [|exfalso|done].
  { clear. induction (q_issuedRequestOrder q) as [|y order IH]; [by left; constructor|].
    destruct (decide (y ∈ q_pendingRequests q)) as [Hy|Hy]; [|by right; exists [], y, order].
    destruct IH as [IH|(pre & x & rest & -> & Hp & Hx)]; [left; by constructor|].
    right. exists (y :: pre), x, rest. split; [done|]. split; [by constructor|done]. }
  assert (elements (q_issuedRequestIds q) ⊆+ q_pendingRequests q) as Hsub.
  { apply NoDup_submseteq; [apply NoDup_elements|]. intros id Hid%elem_of_elements. rewrite Forall_forall in H. by apply H, Hc. }
  apply submseteq_length in Hsub. unfold size, set_size in Hs. cbn in Hs. lia.
Qed.

Lemma covered_removed pre x rest q : covered q → q_issuedRequestOrder q = pre ++ x :: rest → covered (removed x (rest ++ pre) q).
Proof. unfold covered, removed. cbn. intros Hc Ho id. rewrite elem_of_difference. intros [Hid%Hc Hx]. rewrite Ho in Hid. set_solver. Qed.

(** With fuel for as many turns as the order is long the loop gets within the
    retention, and more fuel changes nothing. *)
Lemma prune_enough n q fuel : covered q → requests_room q → (length (q_issuedRequestOrder q) <= n)%nat → (n * S n < fuel)%nat →
  let q' := prune_loop cfg fuel q in
  Z.of_nat (size (q_issuedRequestIds q')) <= issued_retention cfg ∧ covered q' ∧
  (∀ fuel', (n * S n < fuel')%nat → prune_loop cfg fuel' q = q').
Proof.
  revert q fuel. induction n as [|n IH]; intros q fuel Hc Hr Hn Hf; cbn zeta.
  all: destruct (decide (issued_retention cfg < Z.of_nat (size (q_issuedRequestIds q)))) as [Hs|Hs].
  2,4: assert (∀ f, (0 < f)%nat → prune_loop cfg f q = q) as Hstop by
    (intros [|f] ?; [lia|]; cbn [prune_loop]; by rewrite (proj2 (Z.ltb_ge _ _)) by lia);
    rewrite !Hstop by lia; split_and!; [lia|done|]; intros fuel' Hf'; apply Hstop; lia.
  all: destruct (first_free q Hc Hr Hs) as (pre & x & rest & Ho & Hp & Hx); rewrite Ho, length_app in Hn; cbn in Hn; try lia.
  assert (∀ f, (S n * S (S n) < f)%nat → ∃ f', (n * S n < f')%nat ∧ prune_loop cfg f q = prune_loop cfg f' (removed x (rest ++ pre) q)) as Hturn.
  { intros f Hlt. exists (f - length pre - 1)%nat. split; [nia|].
    rewrite <- (prune_turn pre x rest); [|done..]. f_equal. nia. }
  assert (length (q_issuedRequestOrder (removed x (rest ++ pre) q)) <= n)%nat as Hn' by (cbn; rewrite length_app; lia).
  pose proof (covered_removed pre x rest q Hc Ho) as Hc'.
  destruct (Hturn fuel Hf) as (f' & Hf' & ->). destruct (IH (removed x (rest ++ pre) q) f' Hc' Hr Hn' Hf') as (Ha & Hb & Hd).
  split_and!; [done|done|]. intros fuel' Hlt. destruct (Hturn fuel' Hlt) as (f2 & Hf2 & ->). by apply Hd.
Qed.
Lemma prune_ends q : covered q → requests_room q →
  Z.of_nat (size (q_issuedRequestIds (pruneIssuedRequests cfg q))) <= issued_retention cfg ∧ covered (pruneIssuedRequests cfg q) ∧
  ∀ fuel, (prune_fuel q <= fuel)%nat → prune_loop cfg fuel q = pruneIssuedRequests cfg q.
Proof.
  intros Hc Hr. unfold pruneIssuedRequests. set (n := length (q_issuedRequestOrder q)).
  destruct (prune_enough n q (prune_fuel q) Hc Hr ltac:(lia) ltac:(unfold prune_fuel; fold n; lia)) as (H1 & H2 & H3).
  split_and!; [done|done|]. intros fuel Hf. apply H3. unfold prune_fuel in Hf. fold n in Hf. lia.
Qed.
(** Requests that wait are not forgotten, and none is invented. *)
Lemma prune_keeps fuel q id : id ∈ q_issuedRequestIds (prune_loop cfg fuel q) → id ∈ q_issuedRequestIds q.
Proof.
  revert q. induction fuel as [|fuel IH]; intros q; [done|]. cbn [prune_loop]. destruct (_ <? _); [|done].
  destruct (q_issuedRequestOrder q) as [|r rest]; [done|]. destruct (includes _ _); intros H%IH; [done|]. cbn in H. set_solver.
Qed.
Lemma prune_waiting fuel q id : id ∈ q_pendingRequests q → id ∈ q_issuedRequestIds q → id ∈ q_issuedRequestIds (prune_loop cfg fuel q).
Proof.
  revert q. induction fuel as [|fuel IH]; intros q Hp Hi; [done|]. cbn [prune_loop]. destruct (_ <? _); [|done].
  destruct (q_issuedRequestOrder q) as [|r rest]; [done|]. destruct (includes _ r) eqn:E; apply IH; [done..|]. cbn.
  apply includes_false in E. set_solver.
Qed.
End prune.

(** ** Replays retained *)
Definition replay_ids (i : Inbound) : list jstring := map rr_messageId (i_receivedReplayOrder i).
Record replays_ok (retention : Z) (i : Inbound) : Prop := {
  rp_length : Z.of_nat (length (i_receivedReplayOrder i)) <= retention;
  rp_once : NoDup (replay_ids i);
  rp_domain id : is_Some (i_receivedFingerprints i !! id) ↔ id ∈ replay_ids i;
}.
Lemma forget_lookup rs m id : forget rs m !! id = if decide (id ∈ map rr_messageId rs) then None else m !! id.
Proof.
  revert m. induction rs as [|r rs IH]; intros m; cbn [forget map]; [by rewrite decide_False by apply not_elem_of_nil|].
  rewrite IH. destruct (decide (id ∈ map rr_messageId rs)) as [H|H]; [by rewrite decide_True by by right|].
  destruct (decide (id = rr_messageId r)) as [->|Hne].
  - rewrite decide_True by left. apply lookup_delete_eq.
  - rewrite decide_False; [|by rewrite elem_of_cons; intros [?|?]]. by apply lookup_delete_ne.
Qed.
Lemma retain_ok cfg r i : 0 < replayRetention (wc_limits (c_codec cfg)) → i_receivedFingerprints i !! rr_messageId r = None →
  replays_ok (replayRetention (wc_limits (c_codec cfg))) i → replays_ok (replayRetention (wc_limits (c_codec cfg))) (accept_sequence cfg r i).
Proof.
  intros Hpos Hn [Hl Ho Hd]. unfold accept_sequence, retainReplay. cbn.
  set (order := i_receivedReplayOrder i ++ [r]). set (k := (length order - _)%nat).
  assert (NoDup (map rr_messageId order)) as Hnd.
  { unfold order. rewrite List.map_app. apply NoDup_app. split; [done|]. split; [|apply NoDup_singleton].
    intros id Hid%Hd. cbn. intros ->%list_elem_of_singleton. rewrite Hn in Hid. by destruct Hid. }
  rewrite <- (take_drop k order), List.map_app in Hnd. apply NoDup_app in Hnd as (Hnt & Hdis & Hndr).
  split; cbn.
  - rewrite length_drop. unfold k. lia.
  - done.
  - intros id. rewrite forget_lookup. unfold replay_ids. cbn. case_decide as Hin.
    + split; [by intros []|]. intros H. by apply (Hdis id) in Hin.
    + assert (id ∈ map rr_messageId order ↔ id ∈ map rr_messageId (drop k order)) as E.
      { rewrite <- (take_drop k order) at 1. rewrite List.map_app, elem_of_app. naive_solver. }
      rewrite <- E. unfold order. rewrite List.map_app, elem_of_app. cbn. rewrite list_elem_of_singleton.
      destruct (decide (id = rr_messageId r)) as [->|Hne].
      * rewrite lookup_insert_eq. naive_solver.
      * rewrite lookup_insert_ne by done. rewrite Hd. unfold replay_ids. naive_solver.
Qed.

(** ** Binaries that wait *)
Definition declared (p : PendingBinary) : Z := default 0 (we_binaryBytes (pb_envelope p)).
Definition declared_total (m : gmap jstring PendingBinary) : Z := map_fold (λ _ p n, declared p + n) 0 m.
Definition payload_bytes (chunks : list bytes) : Z := byteLength (concat chunks).
Record pending_ok (p : PendingBinary) : Prop := {
  pk_declared : 0 <= declared p;
  pk_next : pb_nextChunk p = Z.of_nat (length (pb_chunks p));
  pk_received : pb_receivedBytes p = payload_bytes (pb_chunks p);
  pk_bound : pb_receivedBytes p <= declared p;
}.
Lemma declared_insert id p m : m !! id = None → declared_total (<[id := p]> m) = declared p + declared_total m.
Proof. intros H. apply (map_fold_insert_L (λ _ p n, declared p + n)); [intros; lia|done]. Qed.
Lemma declared_delete id p m : m !! id = Some p → declared_total m = declared p + declared_total (delete id m).
Proof. intros H. apply (map_fold_delete_L (λ _ p n, declared p + n)); [intros; lia|done]. Qed.
Lemma declared_nonneg m : (∀ id p, m !! id = Some p → 0 <= declared p) → 0 <= declared_total m.
Proof.
  induction m as [|id p m Hn IH] using map_ind; intros H; [unfold declared_total; by rewrite map_fold_empty|].
  rewrite declared_insert by done. pose proof (H id p (lookup_insert_eq _ _ _)).
  assert (0 <= declared_total m); [|lia]. apply IH. intros i q Hq. apply (H i). rewrite lookup_insert_ne; [done|]. congruence.
Qed.
(** What a binary takes the place of does not make more. *)
Lemma declared_insert_le id p m : (∀ id p, m !! id = Some p → 0 <= declared p) → declared_total (<[id := p]> m) <= declared p + declared_total m.
Proof.
  intros H. destruct (m !! id) as [q|] eqn:E; [|by rewrite declared_insert].
  rewrite <- insert_delete_eq, declared_insert by apply lookup_delete_eq. rewrite (declared_delete id q m E).
  pose proof (H id q E). lia.
Qed.
Lemma declared_insert_same id p q m : m !! id = Some q → declared p = declared q → declared_total (<[id := p]> m) = declared_total m.
Proof.
  intros E H. rewrite <- insert_delete_eq, declared_insert by apply lookup_delete_eq. rewrite (declared_delete id q m E). lia.
Qed.
Lemma payload_snoc chunks b : payload_bytes (chunks ++ [b]) = payload_bytes chunks + byteLength b.
Proof. unfold payload_bytes, byteLength. rewrite concat_app, length_app. cbn. rewrite app_nil_r. lia. Qed.

(** Bytes of the binaries that wait. *)
Definition held (m : gmap jstring PendingBinary) : Z := map_fold (λ _ p n, payload_bytes (pb_chunks p) + n) 0 m.
Lemma held_declared m : (∀ id p, m !! id = Some p → pending_ok p) → held m <= declared_total m.
Proof.
  induction m as [|id p m Hn IH] using map_ind; intros H; [done|].
  rewrite declared_insert by done. unfold held. rewrite (map_fold_insert_L (λ _ p n, payload_bytes (pb_chunks p) + n)) by (done || intros; lia).
  destruct (H id p (lookup_insert_eq _ _ _)). fold (held m).
  assert (held m <= declared_total m); [|lia]. apply IH. intros i q Hq. apply (H i). rewrite lookup_insert_ne; [done|]. congruence.
Qed.
Lemma replays_size n i : replays_ok n i → Z.of_nat (size (i_receivedFingerprints i)) <= n.
Proof.
  intros [Hl Hn Hd]. assert ((map_to_list (i_receivedFingerprints i)).*1 ⊆+ replay_ids i) as Hs.
  { apply NoDup_submseteq; [apply NoDup_fst_map_to_list|]. intros id ([id' v] & -> & Hin)%list_elem_of_fmap.
    apply Hd. exists v. by apply elem_of_map_to_list. }
  apply submseteq_length in Hs. rewrite length_fmap in Hs. unfold replay_ids in Hs. rewrite List.length_map in Hs.
  rewrite length_map_to_list in Hs. lia.
Qed.

Section bounds.
Context (number_text : jsnum → jstring) (sha256 : jstring → jstring) (hmac : jstring → jstring → jstring) (uuid : nat → jstring).
Context (cfg : SessionConfig) (seen : Frame → Prop) (asked : WorkerMessageType → json → option jstring → option bytes → Prop) (told : jstring → Prop).
Context `{Hlaws : !CodecLaws (c_codec cfg)}.
Abbreviation atom := (SessionSteps.atom number_text sha256 hmac uuid cfg seen asked told).
Abbreviation limits := (wc_limits (c_codec cfg)).

Record inbound_ok (i : Inbound) : Prop := {
  io_replays : replays_ok (replayRetention limits) i;
  io_count : Z.of_nat (size (i_pendingBinary i)) <= maxPendingCorrelations limits;
  io_bytes : declared_total (i_pendingBinary i) <= i_pendingBinaryBytes i <= maxBinaryBytes limits;
  io_each id p : i_pendingBinary i !! id = Some p → pending_ok p;
}.
Definition message_bytes (ms : list WorkerSessionMessage) : Z := foldr (λ m n, applicationMessageBytes number_text m + n) 0 ms.
Record delivery_ok (d : Delivery) : Prop := {
  do_count : Z.of_nat (length (d_pendingMessages d)) <= maxInflightMessages limits;
  do_total : d_pendingMessageBytes d = message_bytes (d_pendingMessages d);
  do_bytes : d_pendingMessageBytes d <= maxBinaryBytes limits + maxFrameBytes limits;
}.
Record requests_ok (q : Requests) : Prop := {
  qo_waiting : Z.of_nat (length (q_pendingRequests q)) <= maxInflightMessages limits;
  qo_issued : Z.of_nat (size (q_issuedRequestIds q)) <= issued_retention cfg;
  qo_covered : covered q;
}.
Record bounded (s : WorkerSession) : Prop := {
  bo_inbound : inbound_ok (s_inbound s);
  bo_delivery : delivery_ok (s_delivery s);
  bo_requests : requests_ok (s_requests s);
}.

Lemma cleared_ok i : inbound_ok i → inbound_ok (inbound_cleared i).
Proof.
  intros [Hr Hc Hb He]. split; cbn; [by destruct Hr| | |by intros id p Hp%lookup_empty_Some].
  - rewrite map_size_empty. pose proof (lk_correlations _ cl_limits). lia.
  - unfold declared_total. rewrite map_fold_empty. pose proof (lk_binary _ cl_limits). lia.
Qed.
Lemma accept_ok r i : i_receivedFingerprints i !! rr_messageId r = None → inbound_ok i → inbound_ok (accept_sequence cfg r i).
Proof.
  intros Hn [Hr Hc Hb He]. split; [|done..]. apply retain_ok; [|done..]. apply (lk_retention _ cl_limits).
Qed.
Lemma known_declared e n : known cfg seen e → we_binaryBytes e = Some n → 0 <= n.
Proof.
  intros (t & _ & H) Hn. apply cl_decoded in H as (_ & _ & _ & H). rewrite Hn in H. destruct (we_binaryChunks e); [|done]. lia.
Qed.
Lemma open_ok e n i : known cfg seen e → we_binaryBytes e = Some n → Z.of_nat (size (i_pendingBinary i)) < maxPendingCorrelations limits →
  i_pendingBinaryBytes i + n <= maxBinaryBytes limits → inbound_ok i →
  inbound_ok (with_pendingBinary (we_messageId e) {| pb_envelope := e; pb_chunks := []; pb_nextChunk := 0; pb_receivedBytes := 0 |} n i).
Proof.
  intros Hk Hn Hs Hbytes [Hr Hc Hb He]. pose proof (known_declared e n Hk Hn).
  split; cbn; [by destruct Hr| | |].
  - rewrite map_size_insert. destruct (_ !! _); unfold id; lia.
  - pose proof (declared_insert_le (we_messageId e) {| pb_envelope := e; pb_chunks := []; pb_nextChunk := 0; pb_receivedBytes := 0 |}
      (i_pendingBinary i) (λ id p H, pk_declared p (He id p H))) as Hd.
    unfold declared at 1 in Hd. cbn in Hd. rewrite Hn in Hd. cbn in Hd. lia.
  - intros id p [[<- <-]|[_ Hp]]%lookup_insert_Some; [|by eapply He].
    split; cbn; unfold declared; cbn; rewrite ?Hn; done.
Qed.
Lemma chunk_ok c p i : i_pendingBinary i !! wb_correlationId c = Some p →
  pb_receivedBytes p + byteLength (wb_payload c) <= declared p → inbound_ok i →
  inbound_ok (with_pendingBinary (wb_correlationId c) (with_chunk c p) 0 i).
Proof.
  intros Hp Hle [Hr Hc Hb He]. destruct (He _ _ Hp) as [H1 H2 H3 H4]. split; cbn; [by destruct Hr| | |].
  - rewrite map_size_insert_Some; [done|by eexists].
  - rewrite (declared_insert_same _ _ p) by done. lia.
  - intros id q [[<- <-]|[_ Hq]]%lookup_insert_Some; [|by eapply He]. split; cbn; [done| | |done].
    + rewrite length_app. cbn. lia.
    + rewrite payload_snoc. lia.
Qed.
Lemma complete_binary_ok id p i : i_pendingBinary i !! id = Some p → inbound_ok i → inbound_ok (without_pendingBinary id (declared p) i).
Proof.
  intros Hp [Hr Hc Hb He]. split; cbn; [by destruct Hr| | |].
  - rewrite map_size_delete, Hp. lia.
  - rewrite (declared_delete _ _ _ Hp) in Hb. pose proof (pk_declared p (He _ _ Hp)). lia.
  - intros id' q [_ Hq]%lookup_delete_Some. by eapply He.
Qed.
Lemma intake_ok s e b s' : intake number_text sha256 cfg seen s e b s' → inbound_ok (s_inbound s) → inbound_ok (s_inbound s').
Proof.
  destruct 1 as [e [] _|c p [] _ _]; intros Hi; cbn; [by apply accept_ok|]. by apply complete_binary_ok.
Qed.

Lemma message_bytes_nonneg m : 0 <= applicationMessageBytes number_text m.
Proof.
  unfold applicationMessageBytes. pose proof (utf8_length_nonneg (stringify number_text (JObj [(js "messageId", JStr (sm_messageId m));
    (js "correlationId", JStr (sm_correlationId m)); (js "type", JStr (type_text (sm_type m))); (js "payload", sm_payload m)]))).
  destruct (sm_binary m); unfold byteLength; lia.
Qed.
Lemma message_bytes_snoc ms m : message_bytes (ms ++ [m]) = message_bytes ms + applicationMessageBytes number_text m.
Proof. unfold message_bytes. induction ms as [|x ms IH]; cbn; [lia|]. rewrite IH. lia. Qed.
Lemma message_bytes_flush ms n : n = message_bytes ms →
  foldl (λ bytes m, Z.max 0 (bytes - applicationMessageBytes number_text m)) n ms = 0.
Proof.
  revert n. induction ms as [|m ms IH]; intros n ->; [done|]. cbn. apply IH.
  assert (0 <= message_bytes ms).
  { clear IH. induction ms as [|x ms IH]; cbn; [done|]. pose proof (message_bytes_nonneg x). unfold message_bytes in *. lia. }
  unfold message_bytes in *. lia.
Qed.
Lemma delivery_empty_ok ls sts : delivery_ok {| d_listeners := ls; d_stateListeners := sts; d_pendingMessages := []; d_pendingMessageBytes := 0 |}.
Proof. pose proof (lk_inflight _ cl_limits). pose proof (lk_binary _ cl_limits). pose proof (lk_frame _ cl_limits). split; cbn; [lia|done|lia]. Qed.

Lemma requests_empty_ok : requests_ok requests_empty.
Proof.
  pose proof (lk_inflight _ cl_limits). pose proof (lk_retention _ cl_limits).
  split; [cbn; lia| |by intros id]. unfold issued_retention. cbn [q_issuedRequestIds requests_empty]. rewrite size_empty. lia.
Qed.
Lemma prune_ok q : Z.of_nat (length (q_pendingRequests q)) <= maxInflightMessages limits → covered q → requests_ok (pruneIssuedRequests cfg q).
Proof.
  intros Hq Hc. destruct (prune_ends cfg q Hc) as (H1 & H2 & _).
  { unfold requests_room, issued_retention. pose proof (lk_retention _ cl_limits). lia. }
  split; [by rewrite prune_pending|done|done].
Qed.
Lemma drop_ok id q : requests_ok q → requests_ok (pruneIssuedRequests cfg (drop_pending id q)).
Proof.
  intros [Hw Hi Hc]. apply prune_ok; [|done]. cbn. pose proof (List.filter_length_le (λ i, negb (streq i id)) (q_pendingRequests q)). lia.
Qed.
Lemma issued_ok id q : Z.of_nat (length (q_pendingRequests q)) < maxInflightMessages limits → requests_ok q → requests_ok (issued cfg id q).
Proof.
  intros Hr [Hw Hi Hc]. apply prune_ok; cbn.
  - rewrite length_app. cbn. lia.
  - unfold covered in *. cbn. intros i. set_solver.
Qed.
Lemma withdrawn_ok id q : requests_ok q → requests_ok (withdrawn id q).
Proof.
  intros [Hw Hi Hc]. split; cbn.
  - pose proof (List.filter_length_le (λ i, negb (streq i id)) (q_pendingRequests q)). lia.
  - pose proof (subseteq_size (q_issuedRequestIds q ∖ {[id]}) (q_issuedRequestIds q) ltac:(set_solver)). lia.
  - unfold covered in *. cbn. intros i. set_solver.
Qed.
Lemma requesting_ok s id q : requesting cfg s id q → requests_ok (s_requests s) → requests_ok q.
Proof. destruct 1 as [|[_ Hr]]; [done|]. by apply issued_ok. Qed.

Lemma bounded_finish st ready d s : bounded s → bounded (finished st ready d s).
Proof.
  intros [Hi Hd Hq]. split; [by apply cleared_ok| |apply requests_empty_ok]. cbn. destruct (l_detached _); [done|apply delivery_empty_ok].
Qed.
Lemma bounded_broken s s1 : broken s s1 → bounded s → inbound_ok (inbound_cleared (s_inbound s1)) ∧ delivery_ok (s_delivery s1).
Proof. intros [] [Hi Hd Hq]. rewrite br_inbound, br_delivery. split; [by apply cleared_ok|done]. Qed.
Lemma bounded_request s id q : requesting cfg s id q → bounded s → bounded (numbered (bump (with_requests (λ _, q) s))).
Proof. intros Hq [Hi Hd Hr]. split; [done|done|]. by eapply requesting_ok. Qed.
Lemma outcome_bounded s m os s' : outcome number_text cfg s m os s' → bounded s → bounded s'.
Proof.
  destruct 1 as [_ Hin|_ _|_ _|_ Hl Hc Hb]; intros [Hi Hd Hq]; split; try done; cbn.
  - by apply drop_ok.
  - destruct Hd as [H1 H2 H3]. split; cbn; [rewrite length_app; cbn; lia|rewrite message_bytes_snoc; lia|lia].
Qed.

Lemma bounded_atom s os s' : bounded s → atom s os s' → bounded s'.
Proof.
  intros Hb Ha. pose proof Hb as [Hi Hd Hq]. destruct Ha; try by split.
  - destruct (bounded_broken _ _ H2 Hb) as [H3 H4]. split; [done| |apply requests_empty_ok].
    cbn. destruct (l_detached _); [done|apply delivery_empty_ok].
  - by eapply bounded_request.
  - by eapply bounded_finish, bounded_request.
  - split; [|done|done]. cbn. apply accept_ok; [|done]. by destruct H.
  - split; [|done|done]. cbn. apply open_ok; [by destruct H|done|done|done|]. apply accept_ok; [|done]. by destruct H.
  - split; [|done|done]. cbn. destruct H. by apply chunk_ok.
  - pose proof (intake_ok _ _ _ _ H Hi). by destruct H; split.
  - eapply outcome_bounded; [done|]. pose proof (intake_ok _ _ _ _ H Hi). by destruct H; split.
  - split; [done|done|]. by apply drop_ok.
  - split; [done|done|]. destruct H. by apply issued_ok.
  - split; [done|done|]. destruct H. by apply withdrawn_ok, issued_ok.
  - split; [done| |done]. by destruct Hd.
  - split; [done| |done]. destruct Hd as [H1 H2 H3]. cbn. rewrite message_bytes_flush by done. apply delivery_empty_ok.
Qed.

End bounds.

(** ** Properties *)

(** C9. However a peer and an owner drive it, a session holds no more than the
    limits of its codec allow: fingerprints of control frames, binaries that are
    incomplete and their bytes, messages nobody listens to and their bytes,
    requests without a response and identities of requests. *)
Theorem session_bounded number_text sha256 hmac uuid o codec nonce cfg s es :
  createSession uuid o codec nonce = Ok (cfg, s) → CodecLaws (c_codec cfg) →
  let limits := wc_limits (c_codec cfg) in
  let s' := (steps number_text sha256 hmac uuid cfg s es).1 in
  Z.of_nat (size (i_receivedFingerprints (s_inbound s'))) <= replayRetention limits ∧
  Z.of_nat (length (i_receivedReplayOrder (s_inbound s'))) <= replayRetention limits ∧
  Z.of_nat (size (i_pendingBinary (s_inbound s'))) <= maxPendingCorrelations limits ∧
  held (i_pendingBinary (s_inbound s')) <= i_pendingBinaryBytes (s_inbound s') <= maxBinaryBytes limits ∧
  Z.of_nat (length (d_pendingMessages (s_delivery s'))) <= maxInflightMessages limits ∧
  message_bytes number_text (d_pendingMessages (s_delivery s')) <= maxBinaryBytes limits + maxFrameBytes limits ∧
  Z.of_nat (length (q_pendingRequests (s_requests s'))) <= maxInflightMessages limits ∧
  Z.of_nat (size (q_issuedRequestIds (s_requests s'))) <= replayRetention limits + maxInflightMessages limits.
Proof.
  intros Hc Hl limits s'. apply createSession_fresh in Hc.
  assert (bounded number_text cfg s) as H0.
  { destruct Hc. pose proof (lk_retention _ cl_limits). pose proof (lk_correlations _ cl_limits). pose proof (lk_binary _ cl_limits).
    split; rewrite ?fs_inbound, ?fs_delivery, ?fs_requests; [|by apply delivery_empty_ok|by apply requests_empty_ok].
    split; cbn; [|unfold limits; rewrite map_size_empty; lia|unfold declared_total; rewrite map_fold_empty; lia|by intros id p Hp%lookup_empty_Some].
    split; cbn; [lia|constructor|]. intros id. split; [intros [x Hx]; by rewrite lookup_empty in Hx|by intros ?%elem_of_nil]. }
  pose proof (steps_invariant number_text sha256 hmac uuid cfg (λ s _, bounded number_text cfg s) s es Hc H0
    (λ s os s' _ H Ha, bounded_atom _ _ _ _ _ _ _ _ s os s' H Ha)) as [[Hr Hcount Hbytes Heach] [Hm Ht Hmb] [Hw Hi _]].
  fold s' in Hr, Hcount, Hbytes, Heach, Hm, Ht, Hmb, Hw, Hi. pose proof (held_declared _ Heach).
  rewrite Ht in Hmb. split_and!; [by apply replays_size|apply Hr|done|lia|apply Hbytes|done|done|done|done].
Qed.
