(* ===== verification/SessionDelivery.v ===== *)
(** * From one end to the other

    What the owner of one end of a connection receives is what the owner of the
    other asked it to send, whole and at most once, whatever the network drops,
    repeats or reorders. The sender's side says which frames a session sends, the
    receiver's what it makes of such frames. *)

From S2P Require Import Prelude JsString Collections Regex JsValue Identity Time JsonText Canonical JsonParse Placement Execution Bytes Codec Session SessionSteps SessionLaws.

Open Scope Z_scope.

(** An envelope and its binary, as a session sends them. *)
Definition entry : Type := WorkerEnvelope * option bytes.
Definition entry_id (x : entry) : jstring := we_messageId x.1.

(** A copied value has its keys once, if the value has. *)
Lemma keyed_serialize j k : keyed j = true → serialize j = Some k → keyed k = true.
Proof.
  revert k. induction (Nat.lt_wf_0_projected json_size j) as [j _ IH]. intros k Hk H.
  destruct j as [|b|n|s|items|fields]; cbn [serialize] in H.
  1,2,4: by injection H as <-.
  - destruct (isFinite n); [|done]. by injection H as <-.
  - apply bind_Some in H as (items' & Hm & [= <-]). apply mapM_some in Hm. cbn [keyed] in *.
    rewrite forallb_forall_in in *. intros y Hy. apply list_elem_of_lookup in Hy as [i Hi].
    eapply Forall2_lookup_r in Hm as (x & Hx & E); [|done]. apply list_elem_of_lookup_2 in Hx. eapply IH; [|by apply Hk|done].
    simpl. pose proof (sum_list_map_le json_size _ _ Hx). lia.
  - apply bind_Some in H as (fields' & Hm & [= <-]). apply mapM_some in Hm. cbn [keyed] in *.
    apply andb_true_iff in Hk as [Hnd Hk]. apply bool_decide_eq_true in Hnd. rewrite forallb_forall_in in Hk.
    apply andb_true_iff. split.
    + apply bool_decide_eq_true. rewrite js_sort_perm.
      assert (fields'.*1 = fields.*1) as ->; [|done].
      clear -Hm. induction Hm as [|x y l l' Hxy _ IH]; [done|]. cbn. rewrite IH. f_equal.
      by apply bind_Some in Hxy as (v & _ & [= <-]).
    + rewrite forallb_forall_in. intros y Hy%elem_of_js_sort. apply list_elem_of_lookup in Hy as [i Hi].
      eapply Forall2_lookup_r in Hm as (x & Hx & E); [|done]. apply bind_Some in E as (v & Hv & [= <-]).
      apply list_elem_of_lookup_2 in Hx. cbn. eapply (IH x.2); [|by apply Hk|done].
      simpl. pose proof (sum_list_map_le (λ f, json_size f.2) _ _ Hx). simpl in *. lia.
Qed.

(** ** Chunks *)
Lemma chunks_take k (l : bytes) n : concat (map (λ i, take k (drop (i * k) l)) (seq 0 n)) = take (n * k) l.
Proof.
  induction n as [|n IH]; [done|]. rewrite seq_S, List.map_app, concat_app, IH. cbn [map concat]. rewrite app_nil_r.
  rewrite take_take_drop. f_equal. lia.
Qed.

(** ** The sender *)
Section sender.
Context (number_text : jsnum → jstring) (sha256 : jstring → jstring) (hmac : jstring → jstring → jstring) (uuid : nat → jstring).
Context (cfg : SessionConfig) (seen : Frame → Prop) (asked : WorkerMessageType → json → option jstring → option bytes → Prop) (told : jstring → Prop).
Abbreviation atom := (SessionSteps.atom number_text sha256 hmac uuid cfg seen asked told).
Abbreviation codec := (c_codec cfg).
Abbreviation identities s := (u_identities (s_outbound s)).

(** The frame is one of those of the entry. *)
Definition framed (x : entry) (f : Frame) : Prop :=
  ∃ control chunks, wc_encodeControl codec x.1 = Ok control ∧
    match x.2 with Some b => chunk_frames cfg (entry_id x) b | None => Ok [] end = Ok chunks ∧ f ∈ TextFrame control :: chunks.
(** What the owner, or the session itself, asked to send. *)
Record sent_ok (x : entry) : Prop := {
  se_asked : ∃ payload correlation, serialize payload = Some (we_payload x.1) ∧ we_correlationId x.1 = default (entry_id x) correlation ∧
    (is_app (we_type x.1) = true → asked (we_type x.1) payload correlation x.2) ∧
    (is_app (we_type x.1) = false → own_payload cfg payload);
  se_bytes : we_binaryBytes x.1 = byteLength <$> x.2;
  se_chunks : we_binaryChunks x.1 = chunk_count cfg <$> x.2;
  se_size b : x.2 = Some b → binary_too_large cfg b = false;
}.
Record logged (s : WorkerSession) (out : list Output) (log : list entry) : Prop := {
  lg_frames f : OSend f ∈ out → ∃ x, x ∈ log ∧ framed x f;
  lg_ok x : x ∈ log → sent_ok x;
  lg_once : NoDup (map entry_id log);
  lg_below x : x ∈ log → identity_below uuid (identities s) (entry_id x);
}.

Lemma logged_silent s out log s' os : (∀ f, OSend f ∉ os) → (identities s ≤ identities s')%nat → logged s out log → logged s' (out ++ os) log.
Proof.
  intros Ho Hi [H1 H2 H3 H4]. split; [|done|done|].
  - intros f [H|H]%elem_of_app; [by apply H1|by apply Ho in H].
  - intros x Hx. by eapply identity_below_mono, H4.
Qed.
Lemma finish_silent st ready e extra s f : farewell st extra → OSend f ∉ finish_out st ready e extra s.
Proof.
  intros Hf. rewrite finish_split. intros [H|H]%elem_of_app; [eapply elem_of_finish_body in H; [naive_solver|done]|].
  unfold closed_out in H. case_match; set_solver.
Qed.

Hypothesis uuid_inj : Inj (=) (=) uuid.
Lemma logged_made s out log e b frames n os s' : logged s out log → made cfg asked s (message_id uuid s) e b frames →
  (∀ f, OSend f ∉ os) → identities s' = S (identities s) →
  logged s' (out ++ map OSend (take n frames) ++ os) (log ++ [(e, b)]).
Proof.
  intros [H1 H2 H3 H4] [Hid Hses Hseq Hask Hb Hc Hs (control & chunks & Henc & Hch & ->)] Hos Hi.
  assert (entry_id (e, b) = message_id uuid s) as He by done.
  split.
  - intros f [H|[(g & [= ->] & Hg)%list_elem_of_fmap|H]%elem_of_app]%elem_of_app.
    + destruct (H1 f H) as (x & Hx & Hf). exists x. split; [set_solver|done].
    + exists (e, b). split; [set_solver|]. exists control, chunks. rewrite He. cbn. split_and!; [done|done|].
      by eapply elem_of_take in Hg as (i & Hg & _); eapply list_elem_of_lookup_2.
    + by apply Hos in H.
  - intros x [Hx| ->%list_elem_of_singleton]%elem_of_app; [by apply H2|]. split; cbn; [|done|done|].
    + rewrite He. exact Hask.
    + by intros b' ->.
  - rewrite List.map_app. apply NoDup_app. split; [done|]. split; [|apply NoDup_singleton].
    intros id (x & -> & Hx)%list_elem_of_fmap. cbn. rewrite list_elem_of_singleton. rewrite He. intros E.
    eapply message_id_fresh; [done|]. rewrite <- E. by apply H4.
  - rewrite Hi. intros x [Hx| ->%list_elem_of_singleton]%elem_of_app.
    + eapply identity_below_mono, H4; [lia|done].
    + exists (identities s). split; [lia|done].
Qed.

Lemma logged_atom s os s' out log : logged s out log → atom s os s' → ∃ log', logged s' (out ++ os) log'.
Proof.
  intros Hl Ha.
  assert ((∀ f, OSend f ∉ os) → (identities s ≤ identities s')%nat → ∃ log', logged s' (out ++ os) log') as Hsilent.
  { intros Ho Hi. exists log. by eapply logged_silent. }
  destruct Ha; try (apply Hsilent; [set_solver|cbn; lia]).
  - apply Hsilent; [intros f; by apply finish_silent|]. cbn. destruct H2. by rewrite br_outbound.
  - exists (log ++ [(e, b)]). replace (out ++ map OSend frames) with (out ++ map OSend (take (length frames) frames) ++ []).
    + by eapply logged_made; [..|set_solver|].
    + by rewrite app_nil_r, take_ge.
  - exists (log ++ [(e, b)]). eapply logged_made; [done|done|intros f; by apply finish_silent|done].
  - apply Hsilent; [|cbn; lia]. by intros f' ?%elem_of_ready_out.
  - apply Hsilent; [set_solver|]. by rewrite (proj2 (intake_rest _ _ _ _ _ _ _ _ H)).
  - apply intake_rest in H as [_ H]. apply Hsilent.
    + intros f. rewrite not_elem_of_cons. split; [done|]. destruct H2; set_solver.
    + destruct H2; cbn; by rewrite H.
  - apply Hsilent; [|done]. intros f. destruct H as [[? ->]|[? ->]]; set_solver.
Qed.
End sender.

(** ** The receiver *)
Definition dispatched (out : list Output) : list WorkerEnvelope := omap (λ o, match o with ODispatch e _ => Some e | _ => None end) out.
Lemma dispatched_none os : (∀ e b, ODispatch e b ∉ os) → dispatched os = [].
Proof. intros H. apply omap_none. intros [] Hx; try done. by apply H in Hx. Qed.
Lemma dispatched_app a b : dispatched (a ++ b) = dispatched a ++ dispatched b.
Proof. apply omap_app. Qed.
Lemma elem_of_dispatched e out : e ∈ dispatched out ↔ ∃ b, ODispatch e b ∈ out.
Proof.
  unfold dispatched. rewrite list_elem_of_omap. split.
  - intros ([] & Hin & [= ->]). by eexists.
  - intros [b H]. by eexists.
Qed.
(** A message the owner gets. *)
Definition hears (o : Output) (m : WorkerSessionMessage) : Prop := (∃ l, o = OMessage l m) ∨ ∃ id, o = OResponse id (Ok m).

Section receiver.
Context (number_text : jsnum → jstring) (sha256 : jstring → jstring) (hmac : jstring → jstring → jstring) (uuid : nat → jstring).
Context (cfg : SessionConfig) (seen : Frame → Prop) (asked : WorkerMessageType → json → option jstring → option bytes → Prop) (told : jstring → Prop).
(** The other end, and what it has sent. *)
Context (sender : SessionConfig) (log : list entry).
Context `{Hlaws : !CodecLaws (c_codec cfg)}.
Abbreviation atom := (SessionSteps.atom number_text sha256 hmac uuid cfg seen asked told).
Hypothesis same_codec : c_codec sender = c_codec cfg.
Hypothesis small_frames : maxFrameBytes (wc_limits (c_codec cfg)) < 2 ^ 32.
Hypothesis small_chunks : maxBinaryChunks (wc_limits (c_codec cfg)) < 2 ^ 32.
Hypothesis log_keyed : ∀ x, x ∈ log → keyed (we_payload x.1) = true.
Hypothesis log_sizes : ∀ x, x ∈ log → we_binaryBytes x.1 = byteLength <$> x.2 ∧ we_binaryChunks x.1 = chunk_count sender <$> x.2 ∧
  ∀ b, x.2 = Some b → binary_too_large sender b = false.
Hypothesis log_once : NoDup (map entry_id log).
Hypothesis seen_sent : ∀ f, seen f → ∃ x, x ∈ log ∧ framed sender x f.

Lemma log_same x y : x ∈ log → y ∈ log → entry_id x = entry_id y → x = y.
Proof.
  intros Hx Hy E. apply list_elem_of_lookup in Hx as [i Hi], Hy as [j Hj].
  assert (i = j) as ->; [|by simplify_eq].
  eapply NoDup_lookup; [exact log_once| |]; rewrite list_lookup_fmap; [by rewrite Hi|by rewrite Hj, E].
Qed.
Lemma known_sent e : known cfg seen e → ∃ x, x ∈ log ∧ e = received x.1.
Proof.
  intros (t & Hs & Hd). apply seen_sent in Hs as (x & Hx & (control & chunks & He & Hc & Hin)).
  exists x. split; [done|]. apply elem_of_cons in Hin as [[= ->]|Hin].
  - rewrite same_codec in He. rewrite (cl_control _ _ (log_keyed x Hx) He) in Hd. by injection Hd as ->.
  - exfalso. destruct x.2 as [b|]; [|injection Hc as <-; by apply elem_of_nil in Hin].
    unfold chunk_frames in Hc. apply mapM_ok in Hc. apply list_elem_of_lookup in Hin as [i Hi].
    eapply Forall2_lookup_r in Hc as (k & _ & E); [|done]. by apply bind_ok in E as (f & _ & [= ?]).
Qed.
Lemma chunk_sent f c : seen (BinaryFrame f) → wc_decodeBinary (c_codec cfg) f = Ok c →
  ∃ x b i, x ∈ log ∧ x.2 = Some b ∧ wb_correlationId c = entry_id x ∧ wb_chunkIndex c = Z.of_nat i ∧ 
    wb_totalChunks c = chunk_count sender b ∧ wb_payload c = chunk_payload sender b i.
Proof.
  intros Hs Hd. apply seen_sent in Hs as (x & Hx & (control & chunks & He & Hc & Hin)).
  apply elem_of_cons in Hin as [?|Hin]; [done|]. destruct x.2 as [b|] eqn:Eb; [|injection Hc as <-; by apply elem_of_nil in Hin].
  unfold chunk_frames in Hc. apply mapM_ok in Hc. apply list_elem_of_lookup in Hin as [i Hi].
  eapply Forall2_lookup_r in Hc as (k & Hk & E); [|done]. apply bind_ok in E as (g & Hg & [= <-]).
  exists x, b, k. split; [done|]. split; [done|]. destruct (log_sizes x Hx) as (_ & _ & Hsz). specialize (Hsz b Eb).
  unfold binary_too_large in Hsz. apply orb_false_iff in Hsz as [_ Hcount]. apply Z.ltb_ge in Hcount.
  rewrite same_codec in Hg, Hcount. apply cl_binary in Hg; cbn [wb_totalChunks wb_payload]; [|lia|].
  - rewrite Hg in Hd. by injection Hd as <-.
  - unfold chunk_payload, maxChunkPayload, byteLength. rewrite length_take, same_codec. lia.
Qed.

(** A binary that waits is the first chunks of one that was sent. *)
Definition partial (id : jstring) (p : PendingBinary) : Prop :=
  ∃ x b, x ∈ log ∧ x.2 = Some b ∧ id = entry_id x ∧ pb_envelope p = received x.1 ∧ pb_nextChunk p = Z.of_nat (length (pb_chunks p)) ∧
    pb_chunks p = map (chunk_payload sender b) (seq 0 (length (pb_chunks p))).

Lemma partial_chunk s c p : next_chunk cfg seen s c p → partial (wb_correlationId c) p →
  ∃ x b, x ∈ log ∧ x.2 = Some b ∧ wb_correlationId c = entry_id x ∧ pb_envelope p = received x.1 ∧ wb_totalChunks c = chunk_count sender b ∧
    pb_chunks p ++ [wb_payload c] = map (chunk_payload sender b) (seq 0 (S (length (pb_chunks p)))).
Proof.
  intros [(f & Hf & Hd) _ _ Hi _ _] (x & b & Hx & Hb & Hid & He & Hn & Hc).
  destruct (chunk_sent f c Hf Hd) as (y & b' & i & Hy & Hb' & Hid' & Hi' & Ht & Hp).
  assert (y = x) as -> by (apply log_same; [done..|congruence]). rewrite Hb in Hb'. injection Hb' as <-.
  exists x, b. split_and!; [done..|].
  rewrite seq_S, List.map_app, <- Hc. cbn. rewrite Hp. do 3 f_equal. lia.
Qed.
Lemma partial_with_chunk s c p : next_chunk cfg seen s c p → partial (wb_correlationId c) p → partial (wb_correlationId c) (with_chunk c p).
Proof.
  intros Hn Hp. pose proof Hp as (_ & _ & _ & _ & _ & _ & Hnext & _).
  destruct (partial_chunk s c p Hn Hp) as (x & b & Hx & Hb & Hid & He & Ht & Hc).
  exists x, b. cbn. rewrite length_app. cbn. rewrite Nat.add_1_r. split_and!; [done..|lia|done].
Qed.
Lemma chunk_count_enough b : (length b <= Z.to_nat (chunk_count sender b) * Z.to_nat (maxChunkPayload sender))%nat.
Proof.
  unfold chunk_count. assert (0 < maxChunkPayload sender) by (unfold maxChunkPayload; lia).
  unfold byteLength. pose proof (Z.mul_succ_div_gt (Z.of_nat (length b) + maxChunkPayload sender - 1) (maxChunkPayload sender) ltac:(lia)).
  pose proof (Z.div_pos (Z.of_nat (length b) + maxChunkPayload sender - 1) (maxChunkPayload sender)). nia.
Qed.
(** The last chunk completes it. *)
Lemma partial_complete s c p : next_chunk cfg seen s c p → partial (wb_correlationId c) p → pb_nextChunk p + 1 = wb_totalChunks c →
  ∃ x, x ∈ log ∧ pb_envelope p = received x.1 ∧ wb_correlationId c = entry_id x ∧ x.2 = Some (concat (pb_chunks p ++ [wb_payload c])).
Proof.
  intros Hn Hp Hlast. pose proof Hp as (_ & _ & _ & _ & _ & _ & Hnext & _).
  destruct (partial_chunk s c p Hn Hp) as (x & b & Hx & Hb & Hid & He & Ht & Hc).
  exists x. split_and!; [done..|]. rewrite Hb, Hc. unfold chunk_payload. rewrite chunks_take. f_equal. symmetry. apply take_ge.
  pose proof (chunk_count_enough b). replace (S (length (pb_chunks p))) with (Z.to_nat (chunk_count sender b)) by lia. done.
Qed.

Abbreviation dispatched_ids out := (map we_messageId (dispatched out)).
Abbreviation expected s := (i_expectedSequence (s_inbound s)).
Definition heard (out : list Output) (m : WorkerSessionMessage) : Prop :=
  ∃ e b, ODispatch e b ∈ out ∧ m = message_of e b ∧ is_app (we_type e) = true.
(** What the receiver has taken in so far is from the log, each entry once. *)
Record delivered (s : WorkerSession) (out : list Output) : Prop := {
  dv_partial id p : i_pendingBinary (s_inbound s) !! id = Some p →
    partial id p ∧ decimal_value (we_sequence (pb_envelope p)) < expected s ∧ id ∉ dispatched_ids out;
  dv_sent e b : ODispatch e b ∈ out → ∃ x, x ∈ log ∧ e = received x.1 ∧ b = x.2 ∧ decimal_value (we_sequence e) < expected s;
  dv_once : NoDup (dispatched_ids out);
  dv_heard o m : o ∈ out → hears o m → heard out m;
  dv_queue m : m ∈ d_pendingMessages (s_delivery s) → heard out m;
}.

Lemma heard_mono out os m : heard out m → heard (out ++ os) m.
Proof. intros (e & b & H & E). exists e, b. split; [set_solver|done]. Qed.

(** A step that takes nothing in. *)
Lemma delivered_same s out s' os : expected s <= expected s' → i_pendingBinary (s_inbound s') ⊆ i_pendingBinary (s_inbound s) →
  (∀ m, m ∈ d_pendingMessages (s_delivery s') → m ∈ d_pendingMessages (s_delivery s)) →
  (∀ e b, ODispatch e b ∉ os) → (∀ o m, o ∈ os → hears o m → heard out m) →
  delivered s out → delivered s' (out ++ os).
Proof.
  intros He Hp Hq Hd Hh [H1 H2 H3 H4 H5]. split.
  - intros id p Hl. destruct (H1 id p) as (Ha & Hb & Hc); [by eapply lookup_weaken|].
    rewrite dispatched_app, (dispatched_none os), app_nil_r by done. split_and!; [done|lia|done].
  - intros e b [H|H]%elem_of_app; [|by apply Hd in H]. destruct (H2 e b H) as (x & ? & ? & ? & ?). exists x. split_and!; [done..|lia].
  - by rewrite dispatched_app, (dispatched_none os), app_nil_r.
  - intros o m [H|H]%elem_of_app Ho; apply heard_mono; eauto.
  - intros m Hm. apply heard_mono. eauto.
Qed.
Lemma finish_deaf st ready e extra s : farewell st extra →
  (∀ e' b, ODispatch e' b ∉ finish_out st ready e extra s) ∧ ∀ o m, o ∈ finish_out st ready e extra s → ¬ hears o m.
Proof.
  intros Hf.
  assert (∀ o, o ∈ finish_out st ready e extra s → (∀ e' b, o ≠ ODispatch e' b) ∧ ∀ m, ¬ hears o m) as H.
  { intros o Ho. rewrite finish_split in Ho. apply elem_of_app in Ho as [Ho|Ho].
    - eapply elem_of_finish_body in Ho; [|done].
      destruct Ho as [[? ->]|[[_ ->]|[(? & _ & [-> | ->])|[(? & ? & ->)|[-> _]]]]]; (split; [done|]); by intros m [[? ?]|[? ?]].
    - unfold closed_out in Ho. case_match; [by apply elem_of_nil in Ho|]. apply list_elem_of_singleton in Ho as ->.
      split; [done|]. by intros m [[? ?]|[? ?]]. }
  split; [intros e' b Ho; by apply (proj1 (H _ Ho) e' b)|intros o m Ho; by apply H].
Qed.
Lemma delivered_finish s out st ready d e extra s1 pre : farewell st extra → s_delivery s1 = s_delivery s → expected s1 = expected s →
  (∀ e b, ODispatch e b ∉ pre) → (∀ o m, o ∈ pre → ¬ hears o m) → delivered s out →
  delivered (finished st ready d s1) (out ++ pre ++ finish_out st ready e extra s1).
Proof.
  intros Hf Hd He Hpre1 Hpre2 Hdv. destruct (finish_deaf st ready e extra s1 Hf) as [H1 H2].
  apply (delivered_same s); [cbn; lia|cbn; apply map_empty_subseteq|cbn; rewrite Hd| | |done].
  - destruct (l_detached _); [done|]. by intros m ?%elem_of_nil.
  - intros e' b [H|H]%elem_of_app; [by apply Hpre1 in H|by apply H1 in H].
  - intros o m [H|H]%elem_of_app Ho; exfalso; [by apply (Hpre2 o m)|by apply (H2 o m)].
Qed.

(** The next control frame is of an entry not taken in yet. *)
Lemma fresh_control s out e : delivered s out → next_control cfg seen s e →
  ∃ x, x ∈ log ∧ e = received x.1 ∧ we_messageId e ∉ dispatched_ids out ∧ i_pendingBinary (s_inbound s) !! we_messageId e = None.
Proof.
  intros Hdv [Hk _ Hs _]. destruct (known_sent e Hk) as (x & Hx & He). exists x. split_and!; [done..| |].
  - intros (e' & Hid & (b & Hin)%elem_of_dispatched)%list_elem_of_fmap. destruct (dv_sent _ _ Hdv e' b Hin) as (y & Hy & He' & _ & Hlt).
    assert (y = x) as -> by (apply log_same; [done..|]; subst e e'; by symmetry). subst e e'. lia.
  - apply eq_None_not_Some. intros [p Hp]. destruct (dv_partial _ _ Hdv _ p Hp) as ((y & b & Hy & _ & Hid & He' & _) & Hlt & _).
    assert (y = x) as -> by (apply log_same; [done..|]; by subst e). rewrite He' in Hlt. subst e. lia.
Qed.

(** What an intake takes in is an entry, new, with its own binary. *)
Lemma intake_entry s out e b s' : delivered s out → intake number_text sha256 cfg seen s e b s' →
  (∃ x, x ∈ log ∧ e = received x.1 ∧ b = x.2) ∧ decimal_value (we_sequence e) < expected s' ∧ expected s <= expected s' ∧
  we_messageId e ∉ dispatched_ids out ∧ i_pendingBinary (s_inbound s') = delete (we_messageId e) (i_pendingBinary (s_inbound s)).
Proof.
  intros Hdv [e0 Hn Hb|c p Hn Hlast Hall].
  - destruct (fresh_control s out e0 Hdv Hn) as (x & Hx & -> & Hid & Hp). split_and!.
    + exists x. split_and!; [done..|]. destruct (log_sizes x Hx) as [Hsz _]. cbn in Hb. rewrite Hb in Hsz. by destruct x.2.
    + cbn. destruct Hn as [_ _ Hs _]. cbn in Hs. lia.
    + cbn. lia.
    + done.
    + cbn. by rewrite delete_id.
  - destruct (dv_partial _ _ Hdv _ p (ch_pending _ _ _ _ _ Hn)) as (Hpart & Hlt & Hid).
    destruct (partial_complete s c p Hn Hpart Hlast) as (x & Hx & He & Hcid & Hbin).
    assert (we_messageId (pb_envelope p) = wb_correlationId c) as Eid by (by rewrite He, Hcid). rewrite Eid.
    split_and!; [by exists x|cbn; lia|cbn; lia|done|done].
Qed.

Lemma delivered_intake s out e b s' os s'' : delivered s out → intake number_text sha256 cfg seen s e b s' → s_inbound s'' = s_inbound s' →
  (∀ e b, ODispatch e b ∉ os) → (∀ o m, o ∈ os → hears o m → m = message_of e b ∧ is_app (we_type e) = true) →
  (∀ m, m ∈ d_pendingMessages (s_delivery s'') → m ∈ d_pendingMessages (s_delivery s) ∨ m = message_of e b ∧ is_app (we_type e) = true) →
  delivered s'' (out ++ ODispatch e b :: os).
Proof.
  intros Hdv Hi Hin Hos Hh Hq. destruct (intake_entry s out e b s' Hdv Hi) as ((x & Hx & He & Hb) & Hlt & Hle & Hid & Hp).
  assert (dispatched (ODispatch e b :: os) = [e]) as Hd by (cbn; f_equal; by apply dispatched_none).
  assert (∀ m, m = message_of e b → is_app (we_type e) = true → heard (out ++ ODispatch e b :: os) m) as Hnew.
  { intros m -> Ha. exists e, b. split; [set_solver|done]. }
  destruct Hdv as [H1 H2 H3 H4 H5]. split; rewrite ?dispatched_app, ?Hd, ?Hin, ?List.map_app; cbn [map].
  - rewrite Hp. intros id p [Hne Hl]%lookup_delete_Some. destruct (H1 id p Hl) as (Ha & Hbl & Hc).
    split_and!; [done|lia|]. rewrite elem_of_app, list_elem_of_singleton. intros [?|?]; [done|congruence].
  - intros e' b' [H|[H|H]%elem_of_cons]%elem_of_app; [|injection H as -> ->; by exists x|by apply Hos in H].
    destruct (H2 e' b' H) as (y & ? & ? & ? & ?). exists y. split_and!; [done..|lia].
  - apply NoDup_app. split; [done|]. split; [|apply NoDup_singleton]. intros id Hid'. rewrite list_elem_of_singleton. by intros ->.
  - intros o m [H|[->|H]%elem_of_cons]%elem_of_app Ho; [apply heard_mono; eauto|by destruct Ho as [[? ?]|[? ?]]|].
    destruct (Hh o m H Ho). by apply Hnew.
  - intros m Hm. destruct (Hq m Hm) as [H|[? ?]]; [apply heard_mono; eauto|by apply Hnew].
Qed.

Lemma delivered_open s out e bytes : delivered s out → next_control cfg seen s e → we_binaryBytes e = Some bytes →
  delivered (with_inbound (with_pendingBinary (we_messageId e)
    {| pb_envelope := e; pb_chunks := []; pb_nextChunk := 0; pb_receivedBytes := 0 |} bytes) (accepted number_text sha256 cfg e s)) (out ++ []).
Proof.
  intros Hdv H H0. destruct (fresh_control s out e Hdv H) as (x & Hx & He & Hid & Hp).
  assert (delivered (accepted number_text sha256 cfg e s) (out ++ [])) as Hdv'.
  { apply (delivered_same s); [cbn; lia|done|done|by intros ? ? ?%elem_of_nil|by intros ? ? ?%elem_of_nil|done]. }
  rewrite app_nil_r in *. destruct Hdv' as [H1' H2' H3' H4' H5']. split; [|done..]. cbn.
  intros id p [[<- <-]|[_ Hl]]%lookup_insert_Some; [|by apply H1'].
  cbn. destruct (log_sizes x Hx) as [Hsz _]. split_and!; [|destruct H; lia|done].
  subst e. cbn in H0. rewrite H0 in Hsz. destruct x.2 as [b|] eqn:Eb; [|done].
  by exists x, b.
Qed.
(** Where the message goes, it is the one of the envelope. *)
Lemma outcome_hears s m os s' : outcome number_text cfg s m os s' →
  (∀ e b, ODispatch e b ∉ os) ∧ (∀ o m', o ∈ os → hears o m' → m' = m) ∧
  ∀ m', m' ∈ d_pendingMessages (s_delivery s') → m' ∈ d_pendingMessages (s_delivery s) ∨ m' = m.
Proof.
  intros Ho. split; [|split].
  - intros e' b' Hin. destruct Ho; set_solver.
  - intros o m' Hin Hm. destruct Ho; try (by apply elem_of_nil in Hin).
    + apply elem_of_cons in Hin as [->|Hin]; [by destruct Hm as [[? ?]|[? ?]]|]. apply list_elem_of_singleton in Hin as ->.
      destruct Hm as [[? ?]|[? ?]]; by simplify_eq.
    + apply list_elem_of_fmap in Hin as (l & -> & _). destruct Hm as [[? ?]|[? ?]]; by simplify_eq.
  - intros m' Hm. destruct Ho; try (by left). cbn in Hm. apply elem_of_app in Hm as [Hm|Hm%list_elem_of_singleton]; [by left|by right].
Qed.

Lemma delivered_atom s os s' out : delivered s out → atom s os s' → delivered s' (out ++ os).
Proof.
  intros Hdv Ha. assert (∀ (s1 : WorkerSession) (os1 : list Output), s_inbound s1 = s_inbound s → s_delivery s1 = s_delivery s →
    (∀ o, o ∈ os1 → (∀ e b, o ≠ ODispatch e b) ∧ ∀ m, ¬ hears o m) → delivered s1 (out ++ os1)) as Hsame.
  { intros s1 os1 Hi Hd Ho. apply (delivered_same s); [by rewrite Hi|by rewrite Hi|by rewrite Hd| | |done].
    - intros e b H. by apply (proj1 (Ho _ H) e b).
    - intros o m H Hm. by apply (proj2 (Ho _ H)) in Hm. }
  assert (∀ o frames, o ∈ map OSend frames → (∀ e b, o ≠ ODispatch e b) ∧ ∀ m, ¬ hears o m) as Hsend.
  { intros o fs (f & -> & _)%list_elem_of_fmap. split; [done|]. by intros m [[? ?]|[? ?]]. }
  destruct Ha; try (apply Hsame; [done|done|by intros o ?%elem_of_nil]).
  - apply (delivered_finish s out st ready d e extra s1 []); [done|by destruct H2| |by intros ? ? ?%elem_of_nil|by intros ? ? ?%elem_of_nil|done].
    destruct H2. by injection br_inbound.
  - apply Hsame; [done|done|]. intros o. apply Hsend.
  - apply (delivered_finish s); [done|done|done| | |done].
    + intros e' b' H'. by apply (proj1 (Hsend _ _ H') e' b').
    + intros o m H'. by apply (Hsend _ _ H').
  - apply Hsame; [done|done|]. intros o ->%list_elem_of_singleton. split; [done|]. by intros m [[? ?]|[? ?]].
  - apply Hsame; [done|done|]. intros o [? ->]%elem_of_notified. split; [done|]. by intros m [[? ?]|[? ?]].
  - apply Hsame; [done|done|]. intros o ->%elem_of_ready_out. split; [done|]. by intros m [[? ?]|[? ?]].
  - apply (delivered_same s); [cbn; lia|done|done|by intros ? ? ?%elem_of_nil|by intros ? ? ?%elem_of_nil|done].
  - by apply delivered_open.
  - rewrite app_nil_r. pose proof Hdv as [H1 H2 H3 H4 H5]. destruct (H1 _ p (ch_pending _ _ _ _ _ H)) as (Hp & Hlt & Hid).
    split; [|done..]. cbn. intros id q [[<- <-]|[_ Hl]]%lookup_insert_Some; [|by apply H1].
    split_and!; [by eapply partial_with_chunk|done|done].
  - eapply (delivered_intake s out e b s' []); [done|done|done|by intros ? ? ?%elem_of_nil|by intros ? ? ?%elem_of_nil|].
    intros m Hm. left. by destruct H.
  - assert (s_delivery s' = s_delivery s) as Hds by (by destruct H).
    eapply (delivered_intake s out e b s'); [done|done| | | |].
    + by rewrite (proj2 (outcome_same _ _ _ _ _ _ H2)).
    + by apply outcome_hears in H2 as [? _].
    + apply outcome_hears in H2 as (_ & Hm & _). intros o m Hin Ho. split; [by eapply Hm|done].
    + apply outcome_hears in H2 as (_ & _ & Hm). intros m [?|?]%Hm; [left; by rewrite <- Hds|by right].
  - apply Hsame; [done|done|]. intros o ->%list_elem_of_singleton. split; [done|]. by intros m [[? ?]|[? ?]].
  - apply Hsame; [done|done|]. intros o Ho. destruct H as [[? ->]|[? ->]]; apply list_elem_of_singleton in Ho as ->; (split; [done|]);
      by intros m [[? ?]|[? ?]].
  - apply (delivered_same s); [done|done|done|by intros ? ? ?%elem_of_nil|by intros ? ? ?%elem_of_nil|done].
  - apply (delivered_same s); [done|done|by intros m ?%elem_of_nil| | |done].
    + by intros e b (m & ? & _)%list_elem_of_fmap.
    + intros o m (m' & -> & Hm)%list_elem_of_fmap [[? ?]|[? ?]]; simplify_eq. by apply (dv_queue _ _ Hdv).
Qed.

(** ** Each listener hears a message once *)
Definition hearings (out : list Output) : list (nat * jstring) :=
  omap (λ o, match o with OMessage l m => Some (l, sm_messageId m) | _ => None end) out.
Lemma hearings_app a b : hearings (a ++ b) = hearings a ++ hearings b.
Proof. apply omap_app. Qed.
Lemma hearings_none os : (∀ o m, o ∈ os → ¬ hears o m) → hearings os = [].
Proof. intros H. apply omap_none. intros o Ho. destruct o as [| | |l m| | | | | | | |]; try done. exfalso. eapply H; [done|]. left. by eexists. Qed.
Abbreviation queue s := (d_pendingMessages (s_delivery s)).
Record heard_once (s : WorkerSession) (out : list Output) : Prop := {
  ho_once : NoDup (hearings out);
  ho_queue : NoDup (map sm_messageId (queue s));
  ho_new m l : m ∈ queue s → (l, sm_messageId m) ∉ hearings out;
  ho_listeners : NoDup (d_listeners (s_delivery s));
}.
Lemma heard_same s out s' os : hearings os = [] → queue s' = queue s ∨ queue s' = [] → NoDup (d_listeners (s_delivery s')) →
  heard_once s out → heard_once s' (out ++ os).
Proof.
  intros Ho Hq Hl [H1 H2 H3 H4]. split; rewrite ?hearings_app, ?Ho, ?app_nil_r; [done| | |done].
  - destruct Hq as [-> | ->]; [done|constructor].
  - intros m l. destruct Hq as [-> | ->]; [apply H3|by intros ?%elem_of_nil].
Qed.
Lemma hearings_dispatched s out l id : delivered s out → (l, id) ∈ hearings out → id ∈ dispatched_ids out.
Proof.
  intros Hdv (o & Ho & E)%list_elem_of_omap. destruct o as [| | |l' m| | | | | | | |]; try done. injection E as -> <-.
  destruct (dv_heard _ _ Hdv _ m Ho) as (e & b & Hin & -> & _); [left; by eexists|].
  apply list_elem_of_fmap. exists e. split; [done|]. apply elem_of_dispatched. by exists b.
Qed.
Lemma queue_dispatched s out m : delivered s out → m ∈ queue s → sm_messageId m ∈ dispatched_ids out.
Proof.
  intros Hdv Hm. destruct (dv_queue _ _ Hdv m Hm) as (e & b & Hin & -> & _).
  apply list_elem_of_fmap. exists e. split; [done|]. apply elem_of_dispatched. by exists b.
Qed.
Lemma hearings_messages ls m : hearings (map (λ l, OMessage l m) ls) = map (λ l, (l, sm_messageId m)) ls.
Proof. unfold hearings. induction ls as [|l ls IH]; [done|]. cbn. f_equal. exact IH. Qed.
Lemma hearings_flush l ms : hearings (map (OMessage l) ms) = map (λ m, (l, sm_messageId m)) ms.
Proof. unfold hearings. induction ms as [|m ms IH]; [done|]. cbn. f_equal. exact IH. Qed.

Lemma heard_message s out e b s1 os s2 : delivered s out → heard_once s out → intake number_text sha256 cfg seen s e b s1 →
  outcome number_text cfg s1 (message_of e b) os s2 → heard_once s2 (out ++ ODispatch e b :: os).
Proof.
  intros Hdv Hho Hi Ho. destruct (intake_entry s out e b s1 Hdv Hi) as (_ & _ & _ & Hid & _).
  assert (s_delivery s1 = s_delivery s) as Hd by (by destruct Hi). pose proof Hho as [H1 H2 H3 H4].
  destruct Ho as [_ Hin|_ _|_ Hl|_ Hl Hc Hb]; cbn in *.
  - apply (heard_same s); [done|left; cbn; by rewrite Hd|cbn; by rewrite Hd|done].
  - apply (heard_same s); [done|left; by rewrite Hd|by rewrite Hd|done].
  - rewrite Hd. split; rewrite ?Hd, ?hearings_app; [|done| |done].
    + change (hearings (ODispatch e b :: ?x)) with (hearings x). rewrite hearings_messages. apply NoDup_app. split; [done|].
      split; [|apply NoDup_fmap_2; [by intros ? ? [= ->]|done]].
      intros [l id] Hin (l' & [= -> ->] & _)%list_elem_of_fmap. apply Hid. by eapply hearings_dispatched in Hin.
    + change (hearings (ODispatch e b :: ?x)) with (hearings x). rewrite hearings_messages.
      intros m l Hm [Hin|(l' & [= _ E] & _)%list_elem_of_fmap]%elem_of_app; [by eapply H3|].
      apply Hid. rewrite <- E. by eapply queue_dispatched.
  - split; cbn; rewrite ?Hd, ?hearings_app, ?app_nil_r; [done| | |done].
    + rewrite List.map_app. apply NoDup_app. split; [done|]. split; [|apply NoDup_singleton].
      intros id (m & -> & Hm)%list_elem_of_fmap. cbn. rewrite list_elem_of_singleton. intros E. apply Hid. rewrite <- E.
      by eapply queue_dispatched.
    + intros m l [Hm| ->%list_elem_of_singleton]%elem_of_app; [by apply H3|]. cbn. intros Hin. apply Hid.
      by eapply hearings_dispatched.
Qed.
Lemma add_listener_NoDup l ls : NoDup ls → NoDup (add_listener l ls).
Proof.
  unfold add_listener. intros H. destruct (includes ls l) eqn:E; [done|]. apply includes_false in E.
  apply NoDup_app. split; [done|]. split; [|apply NoDup_singleton]. intros x Hx. rewrite list_elem_of_singleton. by intros ->.
Qed.
Lemma heard_finish s out st ready d e extra s1 pre : farewell st extra → s_delivery s1 = s_delivery s → hearings pre = [] →
  heard_once s out → heard_once (finished st ready d s1) (out ++ pre ++ finish_out st ready e extra s1).
Proof.
  intros Hf Hd Hp Hh. apply (heard_same s); [|cbn; rewrite Hd..|done].
  - rewrite hearings_app, Hp. cbn. apply hearings_none. by apply finish_deaf.
  - destruct (l_detached _); [by left|by right].
  - destruct (l_detached _); [apply Hh|constructor].
Qed.
Lemma heard_atom s os s' out : delivered s out → heard_once s out → atom s os s' → heard_once s' (out ++ os).
Proof.
  intros Hdv Hho Ha. pose proof Hho as [H1 H2 H3 H4].
  assert (∀ frames, hearings (map OSend frames) = []) as Hsend.
  { intros frames. apply hearings_none. by intros o m (f & -> & _)%list_elem_of_fmap [[? ?]|[? ?]]. }
  destruct Ha; try (apply (heard_same s); [done|by left|done|done]).
  - apply (heard_finish s out st ready d e extra s1 []); [done|by match goal with H : broken _ _ |- _ => destruct H end|done|done].
  - by apply (heard_finish s).
  - apply (heard_same s); [|by left|done|done]. apply hearings_none. by intros o m [? ->]%elem_of_notified [[? ?]|[? ?]].
  - apply (heard_same s); [|by left|done|done]. apply hearings_none. by intros o m ->%elem_of_ready_out [[? ?]|[? ?]].
  - assert (s_delivery s' = s_delivery s) as Hd by (by destruct H). apply (heard_same s); [done|left; by rewrite Hd|by rewrite Hd|done].
  - by eapply heard_message.
  - apply (heard_same s); [|by left|done|done]. apply hearings_none. intros o m Ho.
    destruct H as [[? ->]|[? ->]]; apply list_elem_of_singleton in Ho as ->; by intros [[? ?]|[? ?]].
  - apply (heard_same s); [done|by left|by apply H|done].
  - split; rewrite ?hearings_app, ?hearings_flush; cbn; [|constructor|by intros m l' ?%elem_of_nil|by apply add_listener_NoDup].
    apply NoDup_app. split; [done|]. split.
    + intros [l' id] Hin (m & [= -> ->] & Hm)%list_elem_of_fmap. by apply (H3 m l).
    + apply (NoDup_fmap_1 snd). rewrite <- list_fmap_compose. exact H2.
Qed.
End receiver.

(** ** Both ends *)
Lemma createSession_codec uuid o codec nonce cfg s : createSession uuid o codec nonce = Ok (cfg, s) → codec = Ok (c_codec cfg).
Proof. unfold createSession. intros H. inv_ok H. by simplify_eq. Qed.

Section both.
Context (number_text : jsnum → jstring) (sha256 : jstring → jstring) (hmac : jstring → jstring → jstring).
Context (sender_ids receiver_ids : nat → jstring).
Abbreviation sender_steps := (steps number_text sha256 hmac sender_ids).
Abbreviation receiver_steps := (steps number_text sha256 hmac receiver_ids).

(** Values of JavaScript: an object has its keys once. *)
Definition asked_values (cfg : SessionConfig) (es : list (Env * Event)) : Prop :=
  (∀ t p c b, asked_in es t p c b → keyed p = true) ∧ ∀ w, c_worker cfg = Some w → keyed (registration_json w) = true.

Lemma sent_keyed cfg es x : asked_values cfg es → sent_ok cfg (asked_in es) x → keyed (we_payload x.1) = true.
Proof.
  intros [Ha Hw] [(p & c & Hs & _ & Happ & Hown) _ _ _]. eapply keyed_serialize; [|done].
  destruct (is_app (we_type x.1)).
  - by eapply Ha, Happ.
  - destruct (Hown eq_refl) as [H|(w & Hc & ->)]; [done|by apply Hw].
Qed.

(** C7. Over a connection whose frames come from the other end, whatever of them
    is lost, repeated, cut or out of order, an owner only gets messages the other
    owner sent: of the type, with a copy of the payload, with the correlation and
    with the whole binary that was given. The receiver takes in each message at
    most once, and no listener hears one twice. *)
Theorem messages_arrive_intact o1 o2 codec nonce1 nonce2 sender a receiver b es1 es2 :
  createSession sender_ids o1 codec nonce1 = Ok (sender, a) → createSession receiver_ids o2 codec nonce2 = Ok (receiver, b) →
  Inj (=) (=) sender_ids → CodecLaws (c_codec receiver) →
  maxFrameBytes (wc_limits (c_codec receiver)) < 2 ^ 32 → maxBinaryChunks (wc_limits (c_codec receiver)) < 2 ^ 32 →
  asked_values sender es1 →
  (∀ f, seen_in receiver es2 f → OSend f ∈ (sender_steps sender a es1).2) →
  let out := (receiver_steps receiver b es2).2 in
  (∀ o m, o ∈ out → hears o m → ∃ payload correlation copy,
    asked_in es1 (sm_type m) payload correlation (sm_binary m) ∧ serialize payload = Some copy ∧ sm_payload m = owned copy ∧
    sm_correlationId m = default (sm_messageId m) correlation) ∧
  NoDup (map we_messageId (dispatched out)) ∧ NoDup (hearings out).
Proof.
  intros H1 H2 Hinj Hl Hf Hc Hv Hnet out.
  pose proof (createSession_codec _ _ _ _ _ _ H1) as E1. pose proof (createSession_codec _ _ _ _ _ _ H2) as E2.
  assert (c_codec sender = c_codec receiver) as Hcodec by congruence. clear E1 E2.
  apply createSession_fresh in H1, H2.
  destruct (steps_invariant number_text sha256 hmac sender_ids sender
    (λ s out, ∃ log, logged sender_ids sender (asked_in es1) s out log) a es1 H1) as [log [L1 L2 L3 _]].
  { exists []. split; [by intros ? ?%elem_of_nil|by intros ? ?%elem_of_nil|constructor|by intros ? ?%elem_of_nil]. }
  { intros s os s' ou [log Hlog] Ha. by eapply logged_atom. }
  assert (∀ x, x ∈ log → keyed (we_payload x.1) = true) as Lk by (intros x Hx; by eapply sent_keyed, L2).
  assert (∀ x, x ∈ log → we_binaryBytes x.1 = byteLength <$> x.2 ∧ we_binaryChunks x.1 = chunk_count sender <$> x.2 ∧
    ∀ b, x.2 = Some b → binary_too_large sender b = false) as Ls.
  { intros x Hx. by destruct (L2 x Hx) as [_ Hb Hch Hsz]. }
  assert (∀ f, seen_in receiver es2 f → ∃ x, x ∈ log ∧ framed sender x f) as Lf by (intros f Hs; by apply L1, Hnet).
  pose proof (steps_invariant number_text sha256 hmac receiver_ids receiver
    (λ s out, delivered sender log s out ∧ heard_once s out) b es2 H2) as [Hd Hh].
  { destruct H2. split.
    - split; try (by intros ? ? ?%elem_of_nil); [|constructor|].
      + intros id p. by rewrite fs_inbound.
      + intros m. rewrite fs_delivery. by intros ?%elem_of_nil.
    - split; rewrite ?fs_delivery; try constructor. by intros m l ?%elem_of_nil. }
  { intros s os s' ou [Hd Hh] Ha. split; [by eapply delivered_atom|by eapply heard_atom]. }
  fold out in Hd, Hh. split; [|split; [apply Hd|apply Hh]].
  intros o m Ho Hm. destruct (dv_heard _ _ _ _ Hd o m Ho Hm) as (e & bin & Hin & -> & Happ).
  destruct (dv_sent _ _ _ _ Hd e bin Hin) as (x & Hx & -> & -> & _).
  destruct (L2 x Hx) as [(p & c & Hs & Hcorr & Ha & _) _ _ _]. exists p, c, (we_payload x.1). cbn in *. split_and!; [by apply Ha|done..].
Qed.
End both.
