(* ===== verification/SessionExample.v ===== *)
(** * A connection, run

    The main process and a worker, from their hellos to a message with a binary:
    the runs at which the theorems on sessions are applied. *)

From S2P Require Import Prelude JsString Collections Regex JsValue Identity Time JsonText Canonical JsonParse Placement Execution Bytes Codec Session SessionSteps SessionLaws SessionTrust SessionBounds SessionDelivery.

Open Scope Z_scope.

(** The value of a computation that succeeds. *)
Definition value_of {E A} (r : result E A) : is_ok r = true → A :=
  match r with Ok x => λ _, x | Err _ => λ H, False_rect _ (diff_false_true H) end.
Lemma value_of_ok {E A} (r : result E A) H : r = Ok (value_of r H).
Proof. by destruct r. Qed.

#[export] Instance frame_eq : EqDecision Frame.
Proof. solve_decision. Defined.

Section example.
Abbreviation no_overrides := {| o_maxFrameBytes := None; o_maxBinaryBytes := None; o_maxBinaryChunks := None;
  o_maxPendingCorrelations := None; o_maxInflightMessages := None; o_maxSequenceGap := None; o_replayRetention := None |}.
Abbreviation example_codec := (createWorkerCodec plain_number plain_read (λ _, true) no_overrides (VStr (js "1.0"))).
(** Not hashes, but functions. *)
Definition example_hmac (key text : jstring) : jstring := key ++ js ":" ++ text.
Definition example_hash (text : jstring) : jstring := text.
Definition main_ids (n : nat) : jstring := js "m" ++ replicate n 49%N.
Definition worker_ids (n : nat) : jstring := js "w" ++ replicate n 49%N.
Lemma worker_ids_inj : Inj (=) (=) worker_ids.
Proof. intros n k E. apply (f_equal length) in E. unfold worker_ids in E. rewrite !length_app, !length_replicate in E. lia. Qed.

Definition example_options role credential resolve worker onRegister : WorkerSessionOptions := {|
  so_role := role; so_credential := credential; so_resolveCredential := resolve; so_heartbeatIntervalMs := None;
  so_heartbeatTimeoutMs := None; so_handshakeTimeoutMs := None; so_requestTimeoutMs := None; so_worker := worker; so_onRegister := onRegister |}.
Definition example_registration : list (jstring * json) :=
  [(js "workerId", JStr (js "w1")); (js "labels", JObj []); (js "resources", JObj []); (js "executors", JArr [JStr (js "process")]);
   (js "preparedArtifacts", JArr [])].
Definition main_options := example_options Main None (Some (λ w, if streq w (js "w1") then Some (js "secret") else None)) None true.
Definition worker_options := example_options Worker (Some (js "secret")) None (Some example_registration) false.
Definition main_nonce := js "nonce-main-0123456789".
Definition worker_nonce := js "nonce-work-0123456789".
Definition main_created := createSession main_ids main_options example_codec main_nonce.
Definition worker_created := createSession worker_ids worker_options example_codec worker_nonce.
Lemma main_ok : is_ok main_created = true.
Proof. vm_compute. reflexivity. Defined.
Lemma worker_ok : is_ok worker_created = true.
Proof. vm_compute. reflexivity. Defined.
Definition main_config : SessionConfig := (value_of main_created main_ok).1.
Definition main_session : WorkerSession := (value_of main_created main_ok).2.
Definition worker_config : SessionConfig := (value_of worker_created worker_ok).1.
Definition worker_session : WorkerSession := (value_of worker_created worker_ok).2.
Lemma main_createSession : createSession main_ids main_options example_codec main_nonce = Ok (main_config, main_session).
Proof. unfold main_config, main_session. rewrite <- surjective_pairing. apply value_of_ok. Qed.
Lemma worker_createSession : createSession worker_ids worker_options example_codec worker_nonce = Ok (worker_config, worker_session).
Proof. unfold worker_config, worker_session. rewrite <- surjective_pairing. apply value_of_ok. Qed.

Abbreviation main_steps := (steps plain_number example_hash example_hmac main_ids main_config).
Abbreviation worker_steps := (steps plain_number example_hash example_hmac worker_ids worker_config).

Definition example_env : Env := {| e_now := 1700000000000; e_readyState := 1; e_sends := λ _, true |}.
Definition sends (out : list Output) : list Frame := omap (λ o, match o with OSend f => Some f | _ => None end) out.
Definition arrives (f : Frame) : Env * Event :=
  (example_env, Receive match f with
    | TextFrame s => {| sa_data := DataParts [utf8_encode s]; sa_isBinary := Some false |}
    | BinaryFrame b => {| sa_data := DataParts [b]; sa_isBinary := Some true |}
    end).
Definition does_now (e : Event) : Env * Event := (example_env, e).

(** The two sides in turn: hello, authentication and registration, the answer to
    it, and a request with a binary. *)
Definition main_start := (main_steps main_session [does_now Start]).2.
Definition worker_events1 := does_now Start :: map arrives (sends main_start).
Definition worker_out1 := (worker_steps worker_session worker_events1).2.
Definition main_events1 := does_now Start :: map arrives (sends worker_out1).
Definition main_out1 := (main_steps main_session main_events1).2.
Definition worker_events2 := worker_events1 ++ map arrives (drop (length (sends main_start)) (sends main_out1)).
Definition worker_out2 := (worker_steps worker_session worker_events2).2.
Definition main_events2 := main_events1 ++ map arrives (drop (length (sends worker_out1)) (sends worker_out2)) ++ [does_now (Registered (Ok (js "7")))].
Definition main_out2 := (main_steps main_session main_events2).2.
Definition example_request : Event := Request task_result (JObj [(js "a", JNum (NInt 3))]) (Some (replicate 5 7%N)) None.
Definition worker_ready := worker_events2 ++ map arrives (drop (length (sends main_out1)) (sends main_out2)).
Definition worker_events3 := worker_ready ++ [does_now example_request].
Definition worker_out3 := (worker_steps worker_session worker_events3).2.
Definition main_events3 := main_events2 ++ map arrives (drop (length (sends worker_out2)) (sends worker_out3)) ++ [does_now (OnMessage 0)].
Definition main_out3 := (main_steps main_session main_events3).2.

(** Both ends are ready, and the message has arrived. *)
Example connection_runs :
  state (main_steps main_session main_events3).1 = Ready ∧ state (worker_steps worker_session worker_events3).1 = Ready ∧
  omap (λ o, match o with OMessage l m => Some (l, sm_type m, sm_payload m, sm_binary m) | _ => None end) main_out3 =
    [(0%nat, task_result, JObj [(js "a", JNum (NInt 3))], Some (replicate 5 7%N))].
Proof. vm_compute. done. Qed.

(** A request with a timeout that is refused stays pending, and holds its place. *)
Definition invalid_request : Event := Request task_result JNull None (Some (NInt 0)).
Example invalid_timeout_leaks :
  let r := step plain_number example_hash example_hmac worker_ids worker_config (worker_steps worker_session worker_ready).1 (does_now invalid_request) in
  (∃ e, r.2 = [OReturn (Err e)]) ∧ length (q_pendingRequests (s_requests r.1)) = 1%nat.
Proof. vm_compute. split; [by eexists|done]. Qed.
(** Requests that cannot be sent leave their identities in the order. *)
Definition oversized_request : Event := Request task_result JNull (Some []) None.
Example failed_requests_stay_in_order :
  let r := worker_steps (worker_steps worker_session worker_ready).1 (replicate 5 (does_now oversized_request)) in
  q_pendingRequests (s_requests r.1) = [] ∧ elements (q_issuedRequestIds (s_requests r.1)) = [] ∧
  length (q_issuedRequestOrder (s_requests r.1)) = 5%nat.
Proof. vm_compute. done. Qed.

(** ** The theorems at this connection *)
Lemma main_laws : CodecLaws (c_codec main_config).
Proof. eapply createWorkerCodec_laws; [exact plain_codec|]. exact (createSession_codec _ _ _ _ _ _ main_createSession). Qed.

(** What arrived was sent. *)
Lemma network_checked cfg es out :
  forallb (λ e, match frame_of cfg e.2 with Some f => bool_decide (f ∈ sends out) | None => true end) es = true →
  ∀ f, seen_in cfg es f → OSend f ∈ out.
Proof.
  rewrite forallb_forall_in. intros H f (e & He & Hf). specialize (H e He). rewrite Hf in H. apply bool_decide_eq_true in H.
  unfold sends in H. apply list_elem_of_omap in H as (o & Ho & E). destruct o; try done. by injection E as ->.
Qed.
Lemma values_checked cfg es :
  forallb (λ e, match e.2 with Send _ p _ _ | Request _ p _ _ => keyed p | _ => true end) es = true →
  match c_worker cfg with Some w => keyed (registration_json w) | None => true end = true → asked_values cfg es.
Proof.
  rewrite forallb_forall_in. intros H Hw. split.
  - intros t p c b (e & He & Ha). specialize (H e He). destruct (e.2); try done; cbn in Ha; by injection Ha as -> -> -> ->.
  - intros w E. by rewrite E in Hw.
Qed.

Lemma session_ends_once_witness : ∃ out,
  (main_steps main_session (main_events3 ++ [does_now Close; does_now Close])).2 = out ∧ OClosed ∈ out ∧
  (length (ready_results out) <= 1)%nat ∧ ∀ o1 o2, out = o1 ++ OClosed :: o2 → OClosed ∉ o1 ∧ Forall quiet o2.
Proof.
  eexists. split; [reflexivity|].
  destruct (session_ends_once plain_number example_hash example_hmac main_ids main_config main_options example_codec main_nonce
    main_session (main_events3 ++ [does_now Close; does_now Close]) _ _ main_createSession (surjective_pairing _)) as (H1 & H2 & _ & H3).
  split_and!; [apply H2; vm_compute; reflexivity|exact H1|exact H3].
Defined.

Lemma request_answered_once_witness :
  let id := js "message-" ++ worker_ids 6 in
  let out := (worker_steps worker_session (worker_ready ++ does_now example_request :: [does_now (RequestTimer id)])).2 in
  NoDup (answered out) ∧ id ∈ answered out.
Proof.
  cbn zeta. unfold does_now, example_request.
  destruct (request_answered_once plain_number example_hash example_hmac worker_ids worker_config worker_options example_codec worker_nonce
    worker_session worker_ready example_env task_result (JObj [(js "a", JNum (NInt 3))]) (Some (replicate 5 7%N)) None
    [does_now (RequestTimer (js "message-" ++ worker_ids 6))] (js "message-" ++ worker_ids 6) worker_ids_inj worker_createSession) as (H1 & [H2|H2] & _).
  - apply (list_elem_of_lookup_2 _ 2). vm_compute. reflexivity.
  - exfalso. revert H2. apply (bool_decide_unpack (_ ∉ _)). vm_compute. exact I.
  - split; [exact H1|exact H2].
Defined.

Lemma session_authenticated_witness : ∃ worker e credential remoteNonce role proof,
  OReady (Ok tt) ∈ main_out3 ∧
  authentic example_hmac main_config (seen_in main_config main_events3) (wr_workerId <$> c_worker main_config) (so_credential main_options)
    worker e credential remoteNonce role proof.
Proof.
  assert (OReady (Ok tt) ∈ main_out3) as H by (apply (list_elem_of_lookup_2 _ 7); vm_compute; reflexivity).
  destruct (session_authenticated plain_number example_hash example_hmac main_ids main_options example_codec main_nonce main_config main_session
    main_events3 (OReady (Ok tt)) main_createSession H eq_refl) as (w & e & c & n & r & p & Ha & _).
  exists w, e, c, n, r, p. split; [exact H|exact Ha].
Defined.

Lemma session_bounded_witness :
  let limits := wc_limits (c_codec main_config) in
  let s' := (main_steps main_session main_events3).1 in
  Z.of_nat (size (i_receivedFingerprints (s_inbound s'))) <= replayRetention limits ∧
  held (i_pendingBinary (s_inbound s')) <= maxBinaryBytes limits.
Proof.
  destruct (session_bounded plain_number example_hash example_hmac main_ids main_options example_codec main_nonce main_config main_session
    main_events3 main_createSession main_laws) as (H1 & _ & _ & [H2 H3] & _).
  split; [exact H1|]. etransitivity; [exact H2|exact H3].
Defined.

Lemma messages_arrive_intact_witness :
  (∃ m, OMessage 0 m ∈ main_out3 ∧ ∃ payload correlation copy,
    asked_in worker_events3 (sm_type m) payload correlation (sm_binary m) ∧ serialize payload = Some copy ∧ sm_payload m = owned copy ∧
    sm_correlationId m = default (sm_messageId m) correlation) ∧
  NoDup (map we_messageId (dispatched main_out3)) ∧ NoDup (hearings main_out3).
Proof.
  destruct (messages_arrive_intact plain_number example_hash example_hmac worker_ids main_ids worker_options main_options example_codec
    worker_nonce main_nonce worker_config worker_session main_config main_session worker_events3 main_events3
    worker_createSession main_createSession worker_ids_inj main_laws) as (H1 & H2 & H3).
  - vm_compute. reflexivity.
  - vm_compute. reflexivity.
  - apply values_checked; vm_compute; reflexivity.
  - apply network_checked. vm_compute. reflexivity.
  - split; [|split; [exact H2|exact H3]].
    assert (∃ m, main_out3 !! 10%nat = Some (OMessage 0 m)) as [m Hm].
    { eexists. vm_compute. reflexivity. }
    apply list_elem_of_lookup_2 in Hm. exists m. split; [exact Hm|]. apply (H1 _ m Hm). left. by exists 0%nat.
Defined.
End example.
