(* ===== verification/Endpoint.v ===== *)
(** * The two ends that own sessions

    transport-websocket/src/main-endpoint.ts and worker-endpoint.ts. An endpoint
    keeps its sessions, of which at most one is the current one of a worker. The
    main end gives each registration an epoch of an allocator it is handed; the
    registrations of a worker wait for each other. What an endpoint does between two
    awaits is one event here, and events come in any order the promises allow. *)

From S2P Require Import Prelude JsString Collections Regex JsValue Identity Time JsonText Canonical JsonParse Placement Execution Bytes Codec Session.

Open Scope Z_scope.

(** ** Epochs from memory *)

(** [MemoryWorkerEpochAllocator] *)
Abbreviation MemoryEpochs := (gmap jstring Z).
Fixpoint createMemoryWorkerEpochAllocator (highWaterMarks : list (jstring * jstring)) (epochs : MemoryEpochs) : result exn MemoryEpochs :=
  match highWaterMarks with
  | [] => Ok epochs
  | (workerId, epoch) :: rest =>
      w ← parseWorkerId (VStr workerId);
      e ← parseFencingEpoch (VStr epoch);
      createMemoryWorkerEpochAllocator rest (<[w := decimal_value e]> epochs)
  end.
Definition next (workerIdValue : jstring) (epochs : MemoryEpochs) : MemoryEpochs * result exn jstring :=
  match parseWorkerId (VStr workerIdValue) with
  | Err e => (epochs, Err e)
  | Ok workerId =>
      let nextEpoch := default 0 (epochs !! workerId) + 1 in
      match parseFencingEpoch (VStr (show_nat nextEpoch)) with
      | Err e => (epochs, Err e)
      | Ok parsed => (<[workerId := nextEpoch]> epochs, Ok parsed)
      end
  end.

(** ** State of the main end *)

(** A call of the allocator. *)
Inductive Allocation := NotAsked | Asked | Settled (r : result exn jstring).
(** How far a registration is: it waits for the one before it; for the race of the
    allocator against the end of the session; the race is over; the epoch is on
    record; [registrationAttempt] has settled; the session was told. *)
Inductive Phase :=
| Queued
| Allocating
| Raced (r : result exn jstring)
| Recorded (epoch : jstring)
| Claimed (r : result exn jstring)
| Delivered (r : result exn jstring).
#[export] Instance phase_eq : EqDecision Phase.
Proof. intros a b. unfold Decision. repeat decide equality; apply exn_eq_dec. Defined.

Record Claim := {
  cl_worker : jstring;
  cl_session : nat;
  cl_registration : WorkerRegistration;
  cl_predecessor : option nat;                (** whose tail it waits for *)
  cl_phase : Phase;
  cl_allocation : Allocation;
  cl_late : bool;                             (** the epoch is to be recorded when it comes *)
}.
Definition with_phase (p : Phase) (c : Claim) : Claim := {|
  cl_worker := cl_worker c; cl_session := cl_session c; cl_registration := cl_registration c;
  cl_predecessor := cl_predecessor c; cl_phase := p; cl_allocation := cl_allocation c; cl_late := cl_late c |}.
Definition with_allocation (a : Allocation) (c : Claim) : Claim := {|
  cl_worker := cl_worker c; cl_session := cl_session c; cl_registration := cl_registration c;
  cl_predecessor := cl_predecessor c; cl_phase := cl_phase c; cl_allocation := a; cl_late := cl_late c |}.
Definition with_late (b : bool) (c : Claim) : Claim := {|
  cl_worker := cl_worker c; cl_session := cl_session c; cl_registration := cl_registration c;
  cl_predecessor := cl_predecessor c; cl_phase := cl_phase c; cl_allocation := cl_allocation c; cl_late := b |}.

(** A session object, with what its constructor fixed. *)
Abbreviation SessionObject := (SessionConfig * WorkerSession)%type.

Record MainEndpoint := {
  me_objects : list SessionObject;            (** every session ever attached *)
  me_sessions : list nat;                     (** [#sessions], a set in the order of insertion *)
  me_current : gmap jstring nat;
  me_registrations : gmap jstring WorkerRegistration;
  me_claims : list Claim;                     (** every call of [#register] *)
  me_registrationTails : gmap jstring nat;
  me_lastEpochs : gmap jstring jstring;
  me_closed : bool;
}.
Definition with_objects f (m : MainEndpoint) : MainEndpoint := {|
  me_objects := f (me_objects m); me_sessions := me_sessions m; me_current := me_current m;
  me_registrations := me_registrations m; me_claims := me_claims m; me_registrationTails := me_registrationTails m;
  me_lastEpochs := me_lastEpochs m; me_closed := me_closed m |}.
Definition with_sessions f (m : MainEndpoint) : MainEndpoint := {|
  me_objects := me_objects m; me_sessions := f (me_sessions m); me_current := me_current m;
  me_registrations := me_registrations m; me_claims := me_claims m; me_registrationTails := me_registrationTails m;
  me_lastEpochs := me_lastEpochs m; me_closed := me_closed m |}.
Definition with_current f g (m : MainEndpoint) : MainEndpoint := {|
  me_objects := me_objects m; me_sessions := me_sessions m; me_current := f (me_current m);
  me_registrations := g (me_registrations m); me_claims := me_claims m; me_registrationTails := me_registrationTails m;
  me_lastEpochs := me_lastEpochs m; me_closed := me_closed m |}.
Definition with_claims f (m : MainEndpoint) : MainEndpoint := {|
  me_objects := me_objects m; me_sessions := me_sessions m; me_current := me_current m;
  me_registrations := me_registrations m; me_claims := f (me_claims m); me_registrationTails := me_registrationTails m;
  me_lastEpochs := me_lastEpochs m; me_closed := me_closed m |}.
Definition with_tails f (m : MainEndpoint) : MainEndpoint := {|
  me_objects := me_objects m; me_sessions := me_sessions m; me_current := me_current m;
  me_registrations := me_registrations m; me_claims := me_claims m; me_registrationTails := f (me_registrationTails m);
  me_lastEpochs := me_lastEpochs m; me_closed := me_closed m |}.
Definition with_lastEpochs f (m : MainEndpoint) : MainEndpoint := {|
  me_objects := me_objects m; me_sessions := me_sessions m; me_current := me_current m;
  me_registrations := me_registrations m; me_claims := me_claims m; me_registrationTails := me_registrationTails m;
  me_lastEpochs := f (me_lastEpochs m); me_closed := me_closed m |}.
Definition with_closed (m : MainEndpoint) : MainEndpoint := {|
  me_objects := me_objects m; me_sessions := me_sessions m; me_current := me_current m;
  me_registrations := me_registrations m; me_claims := me_claims m; me_registrationTails := me_registrationTails m;
  me_lastEpochs := me_lastEpochs m; me_closed := true |}.

(** ** Options *)
Record WorkerSessionEndpointOptions := {
  eo_protocol : option jsval;
  eo_codec : result exn WorkerCodec;          (** of the protocol and the limits *)
  eo_heartbeatIntervalMs : option jsnum;
  eo_heartbeatTimeoutMs : option jsnum;
  eo_handshakeTimeoutMs : option jsnum;
  eo_requestTimeoutMs : option jsnum;
}.
Record MainEndpointOptions := {
  mo_session : WorkerSessionEndpointOptions;
  mo_credential : option jstring;
  mo_workerId : option jstring;
  mo_credentials : list (jstring * jstring);  (** the entries *)
}.

Fixpoint bind_credentials (entries : list (jstring * jstring)) (credentials : gmap jstring jstring) : result exn (gmap jstring jstring) :=
  match entries with
  | [] => Ok credentials
  | (workerId, credential) :: rest =>
      w ← parseWorkerId (VStr workerId);
      bind_credentials rest (<[w := credential]> credentials)
  end.
(** The constructor: the credentials, by worker. *)
Definition endpointCredentials (o : MainEndpointOptions) : result exn (gmap jstring jstring) :=
  assertWorkerProtocolVersion (default (VStr (js "1.0")) (eo_protocol (mo_session o)));;
  credentials ← bind_credentials (mo_credentials o) ∅;
  credentials ← match mo_credential o, mo_workerId o with
                | None, None => Ok credentials
                | Some credential, Some workerId => w ← parseWorkerId (VStr workerId); Ok (<[w := credential]> credentials)
                | _, _ => Err TypeError
                end;
  throw_if (bool_decide (credentials = ∅)) TypeError;;
  Ok credentials.
Definition createMainEndpoint (o : MainEndpointOptions) : result exn (gmap jstring jstring * MainEndpoint) :=
  credentials ← endpointCredentials o;
  Ok (credentials, {| me_objects := []; me_sessions := []; me_current := ∅; me_registrations := ∅; me_claims := [];
                      me_registrationTails := ∅; me_lastEpochs := ∅; me_closed := false |}).

Section main.
Context (number_text : jsnum → jstring) (sha256 : jstring → jstring) (hmac : jstring → jstring → jstring).
(** The identities of each session. *)
Context (uuid : nat → nat → jstring).
Context (o : WorkerSessionEndpointOptions) (credentials : gmap jstring jstring).

Definition main_options : WorkerSessionOptions := {|
  so_role := Main; so_credential := None; so_resolveCredential := Some (λ workerId, credentials !! workerId);
  so_heartbeatIntervalMs := eo_heartbeatIntervalMs o; so_heartbeatTimeoutMs := eo_heartbeatTimeoutMs o;
  so_handshakeTimeoutMs := eo_handshakeTimeoutMs o; so_requestTimeoutMs := eo_requestTimeoutMs o;
  so_worker := None; so_onRegister := true |}.

Definition object_state (m : MainEndpoint) (id : nat) : option WorkerSessionState := (λ x : SessionObject, state x.2) <$> me_objects m !! id.
Definition authenticating (m : MainEndpoint) (id : nat) : bool := bool_decide (object_state m id = Some Authenticating).
Definition activeSessionCount (m : MainEndpoint) : nat := length (me_sessions m).
Definition current (m : MainEndpoint) (workerId : jstring) : result exn (option nat) :=
  w ← parseWorkerId (VStr workerId); Ok (me_current m !! w).
Definition registration (m : MainEndpoint) (workerId : jstring) : result exn (option WorkerRegistration) :=
  w ← parseWorkerId (VStr workerId); Ok (me_registrations m !! w).

(** ** Registrations *)
Definition settled (p : Phase) : bool := match p with Claimed _ | Delivered _ => true | _ => false end.
Definition update_claim (i : nat) (f : Claim → Claim) : MainEndpoint → MainEndpoint := with_claims (alter f i).

(** The callback of a session: the claim takes its place in the queue of the worker. *)
Definition register (id : nat) (r : WorkerRegistration) (m : MainEndpoint) : MainEndpoint :=
  let workerId := wr_workerId r in
  let i := length (me_claims m) in
  with_tails (insert workerId i)
    (with_claims (λ l, l ++ [{| cl_worker := workerId; cl_session := id; cl_registration := r;
       cl_predecessor := me_registrationTails m !! workerId; cl_phase := Queued; cl_allocation := NotAsked; cl_late := false |}]) m).

Definition delete_worker {A} (p : jstring → bool) (x : gmap jstring A) : gmap jstring A := filter (λ '(w, _), p w = false) x.
Definition held_by (m : MainEndpoint) (id : nat) (workerId : jstring) : bool := bool_decide (me_current m !! workerId = Some id).
Definition release (id : nat) (m : MainEndpoint) : MainEndpoint :=
  with_current (delete_worker (held_by m id)) (delete_worker (held_by m id))
    (with_sessions (List.filter (λ i, negb (i =? id)%nat)) m).

(** What a session tells its endpoint. *)
Definition hear (id : nat) (out : Output) (m : MainEndpoint) : MainEndpoint :=
  match out with
  | ORegister r => register id r m
  | OClosed => release id m
  | _ => m
  end.
(** The listener of [#allocateEpoch], which is on the session during the race. *)
Definition SESSION_CLOSED : exn := PlainError.
Definition race_lost (id : nat) (c : Claim) : Claim :=
  if (cl_session c =? id)%nat && bool_decide (cl_phase c = Allocating) then with_phase (Raced (Err SESSION_CLOSED)) c else c.
Definition session_event (id : nat) (e : Env * Event) (m : MainEndpoint) : MainEndpoint * list Output :=
  match me_objects m !! id with
  | None => (m, [])
  | Some (cfg, s) =>
      let '(s', out) := step number_text sha256 hmac (uuid id) cfg s e in
      let m := with_objects (insert id (cfg, s')) m in
      let m := if in_state s' Authenticating then m else with_claims (map (race_lost id)) m in
      (foldl (λ m x, hear id x m) m out, out)
  end.

Definition assertRegistrationCandidate (id : nat) (m : MainEndpoint) : result exn unit :=
  throw_if (me_closed m) PlainError;;
  throw_if (negb (includes (me_sessions m) id) || negb (authenticating m id)) SESSION_CLOSED.

Definition recordAllocatedEpoch (workerId nextEpoch : jstring) (m : MainEndpoint) : result exn (option MainEndpoint) :=
  let lastEpoch := default (js "0") (me_lastEpochs m !! workerId) in
  c ← compareWorkerEpoch nextEpoch lastEpoch;
  Ok (if c <=? 0 then None else Some (with_lastEpochs (insert workerId nextEpoch) m)).

(** [#claimRegistration] up to the race in [#allocateEpoch], *)
Definition claim_start (i : nat) (m : MainEndpoint) : MainEndpoint :=
  match me_claims m !! i with
  | Some c =>
      let free := match cl_predecessor c with
                  | None => true
                  | Some p => match me_claims m !! p with Some x => settled (cl_phase x) | None => false end
                  end in
      if bool_decide (cl_phase c = Queued) && free then
        match assertRegistrationCandidate (cl_session c) m with
        | Err e => update_claim i (with_phase (Claimed (Err e))) m
        | Ok _ => update_claim i (λ c, with_allocation Asked (with_phase Allocating c)) m
        end
      else m
  | None => m
  end.
(** the allocator's promise settles, *)
Definition claim_allocated (i : nat) (r : result exn jstring) (m : MainEndpoint) : MainEndpoint :=
  match me_claims m !! i with
  | Some c =>
      match cl_allocation c with
      | Asked =>
          let parsed := epoch ← r; parseFencingEpoch (VStr epoch) in
          update_claim i (λ c, with_allocation (Settled parsed)
            (if bool_decide (cl_phase c = Allocating) then with_phase (Raced parsed) c else c)) m
      | _ => m
      end
  | None => m
  end.
(** the rest of [#allocateEpoch], *)
Definition claim_raced (i : nat) (m : MainEndpoint) : MainEndpoint :=
  match me_claims m !! i with
  | Some c =>
      match cl_phase c with
      | Raced r =>
          let recorded :=
            epoch ← r;
            m' ← recordAllocatedEpoch (cl_worker c) epoch m;
            match m' with Some m' => Ok (epoch, m') | None => Err PlainError end in
          match recorded with
          | Ok (epoch, m') => update_claim i (with_phase (Recorded epoch)) m'
          | Err e =>
              update_claim i (λ c, with_late (negb (authenticating m (cl_session c))) (with_phase (Claimed (Err e)) c)) m
          end
      | _ => m
      end
  | None => m
  end.
(** the epoch of a registration that has failed is recorded still, *)
Definition claim_late (i : nat) (m : MainEndpoint) : MainEndpoint :=
  match me_claims m !! i with
  | Some c =>
      match cl_late c, cl_allocation c with
      | true, Settled r =>
          let m := update_claim i (with_late false) m in
          match (epoch ← r; recordAllocatedEpoch (cl_worker c) epoch m) with
          | Ok (Some m') => m'
          | _ => m
          end
      | _, _ => m
      end
  | None => m
  end.
(** and the rest of [#claimRegistration]: [publishable] is what the owner's
    [assertRegistrationPublishable] says. *)
Definition claim_publish (i : nat) (env : Env) (publishable : result exn unit) (m : MainEndpoint) : MainEndpoint * list (nat * Output) :=
  match me_claims m !! i with
  | Some c =>
      match cl_phase c with
      | Recorded epoch =>
          match (assertRegistrationCandidate (cl_session c) m;; publishable) with
          | Err e => (update_claim i (with_phase (Claimed (Err e))) m, [])
          | Ok _ =>
              let predecessor := me_current m !! cl_worker c in
              let m := with_current (insert (cl_worker c) (cl_session c)) (insert (cl_worker c) (cl_registration c))
                         (update_claim i (with_phase (Claimed (Ok epoch))) m) in
              match predecessor with
              | Some p => let '(m', out) := session_event p (env, Replace) m in (m', map (pair p) out)
              | None => (m, [])
              end
          end
      | _ => (m, [])
      end
  | None => (m, [])
  end.
(** The end of [#register]: the queue forgets its last claim, the session goes on. *)
Definition claim_delivered (i : nat) (env : Env) (m : MainEndpoint) : MainEndpoint * list (nat * Output) :=
  match me_claims m !! i with
  | Some c =>
      match cl_phase c with
      | Claimed r =>
          let m := update_claim i (with_phase (Delivered r)) m in
          let m := if bool_decide (me_registrationTails m !! cl_worker c = Some i) then with_tails (delete (cl_worker c)) m else m in
          let '(m', out) := session_event (cl_session c) (env, Registered r) m in
          (m', map (pair (cl_session c)) out)
      | _ => (m, [])
      end
  | None => (m, [])
  end.

(** ** Events *)
Definition attach (nonce : jstring) (m : MainEndpoint) : result exn MainEndpoint :=
  throw_if (me_closed m) PlainError;;
  let id := length (me_objects m) in
  object ← createSession (uuid id) main_options (eo_codec o) nonce;
  Ok (with_sessions (λ l, l ++ [id]) (with_objects (λ l, l ++ [object]) m)).

(** [close] up to its [await]: every session is closed in turn, *)
Fixpoint close_sessions (ids : list nat) (env : Env) (m : MainEndpoint) : MainEndpoint * list (nat * Output) :=
  match ids with
  | [] => (m, [])
  | id :: rest =>
      let '(m1, out1) := session_event id (env, Close) m in
      let '(m2, out2) := close_sessions rest env m1 in
      (m2, map (pair id) out1 ++ out2)
  end.
Definition close_begin (env : Env) (m : MainEndpoint) : MainEndpoint * list (nat * Output) :=
  if me_closed m then (m, []) else close_sessions (me_sessions m) env (with_closed m).
(** and after it. *)
Definition close_end (m : MainEndpoint) : MainEndpoint :=
  if me_closed m then with_current (λ _, ∅) (λ _, ∅) (with_sessions (λ _, []) m) else m.

Inductive MainEvent :=
| Attach (nonce : jstring)
| Session (id : nat) (env : Env) (e : Event)  (** the socket, a timer or the owner of a session *)
| ClaimStart (i : nat)
| ClaimAllocated (i : nat) (r : result exn jstring)
| ClaimRaced (i : nat)
| ClaimLate (i : nat)
| ClaimPublish (i : nat) (env : Env) (publishable : result exn unit)
| ClaimDelivered (i : nat) (env : Env)
| CloseEndpoint (env : Env)
| EndpointClosed.

(** Only the endpoint answers a registration. *)
Definition from_owner (e : Event) : bool := match e with Registered _ => false | _ => true end.
Definition main_step (m : MainEndpoint) (e : MainEvent) : MainEndpoint * list (nat * Output) :=
  match e with
  | Attach nonce => (match attach nonce m with Ok m' => m' | Err _ => m end, [])
  | Session id env e =>
      if from_owner e then let '(m', out) := session_event id (env, e) m in (m', map (pair id) out) else (m, [])
  | ClaimStart i => (claim_start i m, [])
  | ClaimAllocated i r => (claim_allocated i r m, [])
  | ClaimRaced i => (claim_raced i m, [])
  | ClaimLate i => (claim_late i m, [])
  | ClaimPublish i env publishable => claim_publish i env publishable m
  | ClaimDelivered i env => claim_delivered i env m
  | CloseEndpoint env => close_begin env m
  | EndpointClosed => (close_end m, [])
  end.
Fixpoint main_steps (m : MainEndpoint) (es : list MainEvent) : MainEndpoint * list (nat * Output) :=
  match es with
  | [] => (m, [])
  | e :: es => let '(m1, o1) := main_step m e in let '(m2, o2) := main_steps m1 es in (m2, o1 ++ o2)
  end.
End main.

(** ** The worker's end *)
Record WorkerEndpoint := {
  wk_objects : list SessionObject;
  wk_sessions : list nat;
  wk_current : option nat;
  wk_highestAcceptedEpoch : jstring;
  wk_reactions : list nat;                    (** sessions whose [ready] has resolved *)
  wk_failures : list nat;                     (** and those whose [ready] was rejected *)
  wk_closed : bool;
}.
Record WorkerRegistrationInput := {
  wi_labels : json; wi_resources : json; wi_executors : json; wi_preparedArtifacts : json
}.
Definition registrationFrom (workerId : jstring) (registration : option WorkerRegistrationInput) : result exn (list (jstring * json)) :=
  w ← parseWorkerId (VStr workerId);
  let r := default {| wi_labels := JObj []; wi_resources := JObj []; wi_executors := JArr []; wi_preparedArtifacts := JArr [] |} registration in
  Ok [(js "workerId", JStr w); (js "labels", wi_labels r); (js "resources", wi_resources r); (js "executors", wi_executors r);
      (js "preparedArtifacts", wi_preparedArtifacts r)].
Record WorkerEndpointOptions := {
  wo_session : WorkerSessionEndpointOptions;
  wo_credential : jstring;
  wo_workerId : jstring;
  wo_registration : option WorkerRegistrationInput;
}.
Definition createWorkerEndpoint (o : WorkerEndpointOptions) : result exn (list (jstring * json) * WorkerEndpoint) :=
  assertWorkerProtocolVersion (default (VStr (js "1.0")) (eo_protocol (wo_session o)));;
  registration ← registrationFrom (wo_workerId o) (wo_registration o);
  Ok (registration, {| wk_objects := []; wk_sessions := []; wk_current := None; wk_highestAcceptedEpoch := js "0";
                       wk_reactions := []; wk_failures := []; wk_closed := false |}).

Section worker.
Context (number_text : jsnum → jstring) (sha256 : jstring → jstring) (hmac : jstring → jstring → jstring).
Context (uuid : nat → nat → jstring).
Context (o : WorkerEndpointOptions) (registration : list (jstring * json)).

Definition worker_options : WorkerSessionOptions := {|
  so_role := Worker; so_credential := Some (wo_credential o); so_resolveCredential := None;
  so_heartbeatIntervalMs := eo_heartbeatIntervalMs (wo_session o); so_heartbeatTimeoutMs := eo_heartbeatTimeoutMs (wo_session o);
  so_handshakeTimeoutMs := eo_handshakeTimeoutMs (wo_session o); so_requestTimeoutMs := eo_requestTimeoutMs (wo_session o);
  so_worker := Some registration; so_onRegister := false |}.

Definition remove_id (id : nat) : list nat → list nat := List.filter (λ i, negb (i =? id)%nat).
(** [onClosed], and the promise [ready] of a session. *)
Definition worker_hear (id : nat) (out : Output) (w : WorkerEndpoint) : WorkerEndpoint :=
  match out with
  | OClosed => {|
      wk_objects := wk_objects w; wk_sessions := remove_id id (wk_sessions w);
      wk_current := if bool_decide (wk_current w = Some id) then None else wk_current w;
      wk_highestAcceptedEpoch := wk_highestAcceptedEpoch w; wk_reactions := wk_reactions w; wk_failures := wk_failures w;
      wk_closed := wk_closed w |}
  | OReady (Ok _) => {|
      wk_objects := wk_objects w; wk_sessions := wk_sessions w; wk_current := wk_current w;
      wk_highestAcceptedEpoch := wk_highestAcceptedEpoch w; wk_reactions := wk_reactions w ++ [id]; wk_failures := wk_failures w;
      wk_closed := wk_closed w |}
  | OReady (Err _) => {|
      wk_objects := wk_objects w; wk_sessions := wk_sessions w; wk_current := wk_current w;
      wk_highestAcceptedEpoch := wk_highestAcceptedEpoch w; wk_reactions := wk_reactions w; wk_failures := wk_failures w ++ [id];
      wk_closed := wk_closed w |}
  | _ => w
  end.
Definition worker_event (id : nat) (e : Env * Event) (w : WorkerEndpoint) : WorkerEndpoint * list Output :=
  match wk_objects w !! id with
  | None => (w, [])
  | Some (cfg, s) =>
      let '(s', out) := step number_text sha256 hmac (uuid id) cfg s e in
      (foldl (λ w x, worker_hear id x w)
         {| wk_objects := <[id := (cfg, s')]> (wk_objects w); wk_sessions := wk_sessions w; wk_current := wk_current w;
            wk_highestAcceptedEpoch := wk_highestAcceptedEpoch w; wk_reactions := wk_reactions w; wk_failures := wk_failures w;
            wk_closed := wk_closed w |} out, out)
  end.
Definition worker_attach (nonce : jstring) (w : WorkerEndpoint) : result exn WorkerEndpoint :=
  throw_if (wk_closed w) PlainError;;
  let id := length (wk_objects w) in
  object ← createSession (uuid id) worker_options (eo_codec (wo_session o)) nonce;
  Ok {| wk_objects := wk_objects w ++ [object]; wk_sessions := wk_sessions w ++ [id]; wk_current := wk_current w;
        wk_highestAcceptedEpoch := wk_highestAcceptedEpoch w; wk_reactions := wk_reactions w; wk_failures := wk_failures w;
        wk_closed := wk_closed w |}.
(** What follows [ready]. [Err]: the comparison of the epochs throws. *)
Definition accept (id : nat) (epoch : jstring) (w : WorkerEndpoint) : WorkerEndpoint := {|
  wk_objects := wk_objects w; wk_sessions := wk_sessions w; wk_current := Some id; wk_highestAcceptedEpoch := epoch;
  wk_reactions := wk_reactions w; wk_failures := wk_failures w; wk_closed := wk_closed w |}.
Definition on_ready (id : nat) (env : Env) (w : WorkerEndpoint) : WorkerEndpoint * list (nat * Output) :=
  match wk_objects w !! id with
  | None => (w, [])
  | Some (_, s) =>
      let replace_session p w := let '(w', out) := worker_event p (env, Replace) w in (w', map (pair p) out) in
      if wk_closed w || negb (in_state s Ready) then (w, [])
      else
        let predecessor := wk_current w in
        let epoch := h_epoch (s_handshake s) in
        match compareWorkerEpoch epoch (wk_highestAcceptedEpoch w) with
        | Err _ => (w, [])
        | Ok c =>
            if 0 <? c then
              match predecessor with
              | Some p => if (p =? id)%nat then (accept id epoch w, []) else replace_session p (accept id epoch w)
              | None => (accept id epoch w, [])
              end
            else if bool_decide (predecessor = Some id) then (w, []) else replace_session id w
        end
  end.
Definition with_reactions f g (w : WorkerEndpoint) : WorkerEndpoint := {|
  wk_objects := wk_objects w; wk_sessions := wk_sessions w; wk_current := wk_current w;
  wk_highestAcceptedEpoch := wk_highestAcceptedEpoch w; wk_reactions := f (wk_reactions w); wk_failures := g (wk_failures w);
  wk_closed := wk_closed w |}.
Definition drop_session (id : nat) (w : WorkerEndpoint) : WorkerEndpoint := {|
  wk_objects := wk_objects w; wk_sessions := remove_id id (wk_sessions w); wk_current := wk_current w;
  wk_highestAcceptedEpoch := wk_highestAcceptedEpoch w; wk_reactions := wk_reactions w; wk_failures := wk_failures w;
  wk_closed := wk_closed w |}.
Fixpoint close_worker_sessions (ids : list nat) (env : Env) (w : WorkerEndpoint) : WorkerEndpoint * list (nat * Output) :=
  match ids with
  | [] => (w, [])
  | id :: rest =>
      let '(w1, out1) := worker_event id (env, Close) w in
      let '(w2, out2) := close_worker_sessions rest env w1 in
      (w2, map (pair id) out1 ++ out2)
  end.
Definition worker_close_begin (env : Env) (w : WorkerEndpoint) : WorkerEndpoint * list (nat * Output) :=
  if wk_closed w then (w, [])
  else close_worker_sessions (wk_sessions w) env
    {| wk_objects := wk_objects w; wk_sessions := wk_sessions w; wk_current := wk_current w;
       wk_highestAcceptedEpoch := wk_highestAcceptedEpoch w; wk_reactions := wk_reactions w; wk_failures := wk_failures w;
       wk_closed := true |}.
Definition worker_close_end (w : WorkerEndpoint) : WorkerEndpoint :=
  if wk_closed w then
    {| wk_objects := wk_objects w; wk_sessions := []; wk_current := None; wk_highestAcceptedEpoch := wk_highestAcceptedEpoch w;
       wk_reactions := wk_reactions w; wk_failures := wk_failures w; wk_closed := true |}
  else w.

Inductive WorkerEvent :=
| WAttach (nonce : jstring)
| WSession (id : nat) (env : Env) (e : Event)
| WReady (env : Env)                          (** the first of the reactions that wait *)
| WFailed
| WClose (env : Env)
| WClosed.
Definition worker_step (w : WorkerEndpoint) (e : WorkerEvent) : WorkerEndpoint * list (nat * Output) :=
  match e with
  | WAttach nonce => (match worker_attach nonce w with Ok w' => w' | Err _ => w end, [])
  | WSession id env e => let '(w', out) := worker_event id (env, e) w in (w', map (pair id) out)
  | WReady env =>
      match wk_reactions w with
      | id :: rest => on_ready id env (with_reactions (λ _, rest) (λ l, l) w)
      | [] => (w, [])
      end
  | WFailed =>
      match wk_failures w with
      | id :: rest => (drop_session id (with_reactions (λ l, l) (λ _, rest) w), [])
      | [] => (w, [])
      end
  | WClose env => worker_close_begin env w
  | WClosed => (worker_close_end w, [])
  end.
Fixpoint worker_steps (w : WorkerEndpoint) (es : list WorkerEvent) : WorkerEndpoint * list (nat * Output) :=
  match es with
  | [] => (w, [])
  | e :: es => let '(w1, o1) := worker_step w e in let '(w2, o2) := worker_steps w1 es in (w2, o1 ++ o2)
  end.
End worker.
