(* ===== verification/EndpointLaws.v ===== *)
(** * What an endpoint relies on, and keeps

    [main_moves] is what an endpoint has to know of one step of a session at the
    main end; [main_ok] what every event of the endpoint keeps. *)

From S2P Require Import Prelude JsString Collections Regex JsValue Identity Time JsonText Canonical JsonParse Placement Execution Bytes Codec Session SessionSteps SessionLaws Endpoint.

Open Scope Z_scope.

(** ** Steps of a session *)
Definition registers (os : list Output) : list WorkerRegistration := omap (λ o, match o with ORegister r => Some r | _ => None end) os.
Abbreviation pend s := (h_registrationPending (s_handshake s)).
Abbreviation principal s := (h_principalWorkerId (s_handshake s)).
Abbreviation epoch_of s := (h_epoch (s_handshake s)).

Lemma registers_app a b : registers (a ++ b) = registers a ++ registers b.
Proof. apply omap_app. Qed.
Lemma registers_none os : (∀ r, ORegister r ∉ os) → registers os = [].
Proof. intros H. apply omap_none. intros [] Hx; try done. by apply H in Hx. Qed.

(** Between the events a session is live or has ended, and whoever registers has
    said hello. *)
Record vital (s : WorkerSession) : Prop := {
  vt_life : live s ∨ ended s;
  vt_peer : over s = false → h_peerAuthenticated (s_handshake s) = true → is_Some (h_remoteNonce (s_handshake s));
  vt_pend : over s = false → pend s = true → is_Some (h_remoteNonce (s_handshake s));
}.

Record main_moves (told : jstring → Prop) (s : WorkerSession) (os : list Output) (s' : WorkerSession) : Prop := {
  mm_vital : vital s';
  mm_closed : OClosed ∈ os ↔ over s = false ∧ over s' = true;
  mm_over : over s = true → over s' = true ∧ registers os = [];
  mm_registers : registers os = [] ∨ ∃ r, registers os = [r] ∧ pend s = false ∧
    (over s' = false → pend s' = true ∧ principal s' = Some (wr_workerId r));
  mm_pending : over s' = false → registers os = [] → pend s' = pend s ∧ (pend s = true → principal s' = principal s);
  mm_auth : state s' = Authenticating → state s = Authenticating;
  mm_ready : state s' = Ready → state s = Ready ∧ epoch_of s' = epoch_of s ∨ state s = Authenticating ∧ told (epoch_of s');
}.

Lemma main_moves_refl told s : vital s → main_moves told s [] s.
Proof.
  intros Hv. split; [done| |done|by left|done|done|by left]. split; [by intros ?%elem_of_nil|intros [H1 H2]; congruence].
Qed.
Lemma main_moves_trans told s os s1 os1 s2 : main_moves told s os s1 → main_moves told s1 os1 s2 → main_moves told s (os ++ os1) s2.
Proof.
  intros [V1 C1 O1 R1 P1 A1 E1] [V2 C2 O2 R2 P2 A2 E2].
  assert (over s2 = false → over s1 = false) as Hback by (destruct (over s1); [by intros H; destruct (O2 eq_refl); congruence|done]).
  split; [done| | | | |by auto|].
  - rewrite elem_of_app, C1, C2. destruct (over s), (over s1), (over s2); naive_solver.
  - intros H. destruct (O1 H) as [H1 H2], (O2 H1) as [H3 H4]. by rewrite registers_app, H2, H4.
  - rewrite registers_app. destruct R1 as [R1|(r & R1 & Hp & Hr)]; rewrite R1.
    + destruct R2 as [R2|(r & R2 & Hp & Hr)]; rewrite R2; [by left|right]. exists r. split_and!; [done| |done].
      destruct (over s1) eqn:Ev; [destruct (O2 eq_refl) as [_ H]; by rewrite H in R2|]. destruct (P1 eq_refl R1) as [<- _]. done.
    + right. exists r. destruct R2 as [R2|(r2 & R2 & Hp2 & _)]; rewrite R2.
      * split_and!; [done..|]. intros Hv. pose proof (Hback Hv) as Hv1. destruct (Hr Hv1) as [H1 H2], (P2 Hv R2) as [-> H3].
        split; [done|by rewrite H3].
      * exfalso. destruct (over s1) eqn:Ev; [destruct (O2 eq_refl) as [_ H]; by rewrite H in R2|].
        destruct (Hr eq_refl) as [H _]. congruence.
  - intros Hv. rewrite registers_app. intros [H1 H2]%app_eq_nil. destruct (P2 Hv H2) as [-> Hp2], (P1 (Hback Hv) H1) as [-> Hp1].
    split; [done|]. intros H. rewrite Hp2; [by apply Hp1|]. by destruct (P1 (Hback Hv) H1) as [-> _].
  - intros H. destruct (E2 H) as [[H1 ->]|[H1 H2]]; [by apply E1|]. right. by split; [apply A1|].
Qed.

Section session.
Context (number_text : jsnum → jstring) (sha256 : jstring → jstring) (hmac : jstring → jstring → jstring) (uuid : nat → jstring).
Context (cfg : SessionConfig) (seen : Frame → Prop) (asked : WorkerMessageType → json → option jstring → option bytes → Prop) (told : jstring → Prop).
Hypothesis is_main : c_role cfg = Main.
Abbreviation atom := (SessionSteps.atom number_text sha256 hmac uuid cfg seen asked told).

(** Steps that leave the state and the handshake alone. *)
Lemma moves_live s os s' : vital s → live s → live s' → s_handshake s' = s_handshake s → state s' = state s →
  OClosed ∉ os → registers os = [] → main_moves told s os s'.
Proof.
  intros [_ Hn Hp] H1 H2 Hh Hs Hc Hr. pose proof (li_over _ H1) as O1. pose proof (li_over _ H2) as O2.
  split; rewrite ?Hh, ?Hs, ?Hr; rewrite ?O1, ?O2; try done; [|by split; [|intros [? ?]]|by left|by left].
  split; rewrite ?O2, ?Hh; [by left|auto..].
Qed.
Lemma moves_ended s os s' : vital s → ended s → ended s' → Forall quiet os → main_moves told s os s'.
Proof.
  intros [_ Hn Hp] H1 H2 Hq. pose proof (en_over _ H1) as O1. pose proof (en_over _ H2) as O2. rewrite Forall_forall in Hq.
  assert (registers os = []) as Hr by (apply registers_none; intros r Hin; by apply Hq in Hin).
  split; rewrite ?Hr; rewrite ?O1, ?O2; try done.
  - split; rewrite ?O2; [by right|done..].
  - split; [|by intros [? ?]]. intros Hin. by apply Hq in Hin.
  - by left.
  - intros H. apply over_authenticating in H. congruence.
  - intros H. apply over_ready in H. congruence.
Qed.
Lemma moves_handshake s h : vital s →
  (over s = false → (h_peerAuthenticated h = true → is_Some (h_remoteNonce h)) ∧ (h_registrationPending h = true → is_Some (h_remoteNonce h)) ∧
     h_registrationPending h = pend s ∧ (pend s = true → h_principalWorkerId h = principal s) ∧ (state s = Ready → h_epoch h = epoch_of s)) →
  main_moves told s [] (with_handshake (λ _, h) s).
Proof.
  intros [Hl Hn Hp] H.
  assert (over (with_handshake (λ _, h) s) = over s) as Ho by done.
  split; rewrite ?Ho; try done.
  - split; rewrite ?Ho; [|naive_solver..]. destruct Hl as [[]|[]]; [left|right]; by split.
  - split; [by intros ?%elem_of_nil|]. intros [? ?]; congruence.
  - by left.
  - intros Hv _. destruct (H Hv) as (_ & _ & ? & ? & _). done.
  - intros Hs. left. split; [done|]. apply H; [|done]. by apply over_ready.
Qed.
Lemma registers_sends frames : registers (map OSend frames) = [].
Proof. apply registers_none. by intros r (f & ? & ?)%list_elem_of_fmap. Qed.
Lemma registers_finish st ready e extra s : farewell st extra → registers (finish_out st ready e extra s) = [].
Proof.
  intros Hf. apply registers_none. intros r. rewrite finish_split. intros [H|H]%elem_of_app.
  - eapply elem_of_finish_body in H; [|done]. naive_solver.
  - unfold closed_out in H. case_match; set_solver.
Qed.

(** Only a registration registers. *)
Lemma registers_outcome s m os s' : outcome number_text cfg s m os s' → registers os = [].
Proof. destruct 1; try done. apply registers_none. by intros r (f & ? & ?)%list_elem_of_fmap. Qed.
Lemma registers_atom s os s' : atom s os s' → registers os = [] ∨ ∃ r, os = [ORegister r].
Proof.
  destruct 1; try (by left); try (by right; eexists); left.
  - by apply registers_finish.
  - apply registers_sends.
  - by rewrite registers_app, registers_sends, registers_finish.
  - apply registers_none. by intros r [? ?]%elem_of_notified.
  - apply registers_none. by intros r ?%elem_of_ready_out.
  - by eapply registers_outcome in H2.
  - by destruct H as [[? ->]|[? ->]].
  - apply registers_none. by intros r (m & ? & _)%list_elem_of_fmap.
Qed.

(** A step at which a live session ends. *)
Lemma moves_end s os s' : registers os = [] → live s → ended s' → OClosed ∈ os → main_moves told s os s'.
Proof.
  intros Hr Hl He Ho. pose proof (en_over _ He) as Hv. pose proof (li_over _ Hl) as Hw.
  split; rewrite ?Hr.
  - split; [by right|by rewrite Hv..].
  - by rewrite Hv, Hw.
  - by rewrite Hw.
  - by left.
  - by rewrite Hv.
  - intros H. apply over_authenticating in H. congruence.
  - intros H. apply over_ready in H. congruence.
Qed.

Lemma moves_atom s os s' : vital s → atom s os s' → main_moves told s os s'.
Proof.
  intros Hv Ha. destruct (vt_life _ Hv) as [Hl|He].
  2: { edestruct ended_atom as [? ?]; [exact He|exact Ha|]. by apply moves_ended. }
  pose proof Hv as [_ Hn Hp]. specialize (Hn (li_over _ Hl)). specialize (Hp (li_over _ Hl)).
  pose proof (registers_atom _ _ _ Ha) as Hreg.
  pose proof (live_atom _ _ _ _ _ _ _ _ _ _ _ Hl Ha) as [[Hl' Hc]|[He' (o & -> & Hc)]].
  2: { apply moves_end; [|done..|set_solver]. destruct Hreg as [?|[r E]]; [done|].
    by apply (app_inj_2 _ []) in E as [_ ?]. }
  destruct Ha; try (by apply moves_live).
  - exfalso. pose proof (li_over _ Hl') as H3. by destruct H0 as [[-> _]|[-> _]].
  - rewrite (li_over _ Hl) in H. done.
  - apply moves_live; [done..|apply registers_sends].
  - exfalso. by pose proof (li_over _ Hl').
  - apply (moves_handshake s (f (s_handshake s))); [done|]. intros _. destruct H as [[b ->]|[-> | ->]]; by split_and!.
  - apply moves_handshake; [done|]. intros _. unfold greeted in H2. rewrite is_main in H2. destruct H2 as [w ->].
    rewrite H0 in Hn, Hp. unfold state in H. unfold state.
    assert (h_peerAuthenticated (s_handshake s) = false ∧ pend s = false) as [E1 E2].
    { split; apply not_true_iff_false; intros E; [destruct (Hn E)|destruct (Hp E)]; done. }
    destruct (c_resolveCredential cfg ≫= _); cbn; rewrite E1, E2, H; by split_and!.
  - apply moves_handshake; [done|]. intros _. destruct H1 as (w & nonce & ? & ? & ? & _ & H1 & _). cbn. rewrite H1. by split_and!.
  - split; cbn; rewrite ?H1; try done.
    + split; [by left|done|]. intros _ _. cbn. by apply Hn.
    + split; [set_solver|]. change (over (with_handshake with_registrationPending s)) with (over s). intros [? ?]; congruence.
    + by rewrite (li_over _ Hl).
    + right. exists r. by split_and!.
    + by left.
  - destruct H0 as [[H0 Ht]|[H0 _]]; [|by rewrite is_main in H0].
    assert (over (ready_session epoch f s) = false) as Ho by done.
    split; cbn; rewrite ?Ho; try done.
    + split; [by left|by intros _|]. intros _ _. cbn. by apply Hp.
    + split; [done|by intros [? ?]].
    + by rewrite (li_over _ Hl).
    + left. destruct Hreg as [?|[r E]]; [done|]. exfalso. assert (ORegister r ∈ notified s Ready) as [? ?]%elem_of_notified; [|done].
      rewrite E. by apply list_elem_of_singleton.
    + by right.
  - apply moves_live; [done..|]. apply registers_none. by intros r ?%elem_of_ready_out.
  - pose proof (intake_life _ _ _ _ _ _ _ _ H) as Hlife. apply moves_live; [done..|by destruct H|unfold state; by rewrite Hlife|done|done].
  - pose proof (intake_life _ _ _ _ _ _ _ _ H) as Hlife. apply moves_live; [done..| |unfold state|done|by eapply registers_outcome in H2].
    + transitivity (s_handshake s'); [by destruct H2|by destruct H].
    + by rewrite (proj1 (outcome_same _ _ _ _ _ _ H2)), Hlife.
  - apply moves_live; [done..|]. by destruct H as [[? ->]|[? ->]].
  - apply moves_live; [done..|]. apply registers_none. by intros r (m & ? & _)%list_elem_of_fmap.
Qed.
Lemma moves_atoms s os s' : vital s → SessionSteps.atoms number_text sha256 hmac uuid cfg seen asked told s os s' → main_moves told s os s'.
Proof.
  intros Hv. induction 1 as [|s os s1 os1 s2 H1 _ IH]; [by apply main_moves_refl|].
  apply moves_atom in H1; [|done]. eapply main_moves_trans; [done|]. by apply IH, H1.
Qed.
End session.

(** One event. *)
Definition tells (e : Event) (epoch : jstring) : Prop := e = Registered (Ok epoch).
Lemma step_moves number_text sha256 hmac uuid cfg s env e : c_role cfg = Main → grounded cfg (λ _, True) s → vital s →
  let r := step number_text sha256 hmac uuid cfg s (env, e) in
  main_moves (tells e) s r.2 r.1 ∧ grounded cfg (λ _, True) r.1.
Proof.
  intros Hm Hg Hv r.
  pose proof (step_atoms number_text sha256 hmac uuid cfg (λ _, True) (λ _ _ _ _, True) (tells e) s (env, e)
    ltac:(done) ltac:(done) ltac:(by intros epoch ?) Hg) as Ha.
  split; [by eapply moves_atoms|by eapply grounded_atoms].
Qed.
Lemma fresh_vital s : fresh_session s → vital s.
Proof. intros Hf. split; [left; by apply fresh_live|by rewrite (fs_peer _ Hf)|by rewrite (fs_pending _ Hf)]. Qed.

(** ** The endpoint after an event of a session *)
Definition closes (os : list Output) : bool := existsb (λ o, match o with OClosed => true | _ => false end) os.
Lemma closes_spec os : closes os = true ↔ OClosed ∈ os.
Proof.
  unfold closes. rewrite existsb_exists. split.
  - intros (o & Hin & Ho). destruct o; try done. by apply list_elem_of_In.
  - intros H. exists OClosed. split; [by apply list_elem_of_In|done].
Qed.
Definition register_all (id : nat) (rs : list WorkerRegistration) (m : MainEndpoint) : MainEndpoint := foldl (λ m r, register id r m) m rs.
Lemma register_release id id' r m : register id r (release id' m) = release id' (register id r m).
Proof. done. Qed.
Lemma register_all_release id id' rs m : register_all id rs (release id' m) = release id' (register_all id rs m).
Proof. revert m. induction rs as [|r rs IH]; intros m; [done|]. unfold register_all in *. cbn [foldl]. rewrite register_release. apply IH. Qed.
Lemma delete_worker_lookup {A} (p : jstring → bool) (x : gmap jstring A) w : delete_worker p x !! w = if p w then None else x !! w.
Proof.
  unfold delete_worker. destruct (p w) eqn:E.
  - apply map_lookup_filter_None. right. cbn. by rewrite E.
  - destruct (x !! w) eqn:Ex; [by apply map_lookup_filter_Some|apply map_lookup_filter_None; by left].
Qed.
Lemma release_twice id m : release id (release id m) = release id m.
Proof.
  unfold release, with_current, with_sessions. cbn. f_equal.
  - induction (me_sessions m) as [|i l IH]; [done|]. cbn. destruct (i =? id)%nat eqn:E; cbn; [done|]. by rewrite E; cbn; rewrite IH.
  - apply map_eq. intros w. rewrite !delete_worker_lookup. unfold held_by. cbn. rewrite delete_worker_lookup.
    unfold held_by. by repeat case_bool_decide.
  - apply map_eq. intros w. rewrite !delete_worker_lookup. unfold held_by. cbn. rewrite delete_worker_lookup.
    unfold held_by. by repeat case_bool_decide.
Qed.
Lemma hear_all id os m :
  foldl (λ m x, hear id x m) m os = if closes os then release id (register_all id (registers os) m) else register_all id (registers os) m.
Proof.
  revert m. induction os as [|o os IH]; intros m; [done|]. cbn [foldl]. rewrite IH.
  destruct o; try done. cbn [hear registers omap list_omap closes existsb]. fold (closes os). fold (registers os).
  rewrite register_all_release, orb_true_l. destruct (closes os); [by rewrite release_twice|done].
Qed.

Definition raced_claims (id : nat) (s' : WorkerSession) (l : list Claim) : list Claim :=
  if in_state s' Authenticating then l else map (race_lost id) l.
Definition session_moved id cfg s' os m : MainEndpoint :=
  let m := with_claims (raced_claims id s') (with_objects (insert id (cfg, s')) m) in
  let m := register_all id (registers os) m in
  if closes os then release id m else m.
Lemma session_event_moved number_text sha256 hmac uuid id e m cfg s : me_objects m !! id = Some (cfg, s) →
  let r := step number_text sha256 hmac (uuid id) cfg s e in
  session_event number_text sha256 hmac uuid id e m = (session_moved id cfg r.1 r.2 m, r.2).
Proof.
  intros H r. unfold session_event. rewrite H. fold r. destruct r as [s' os]. cbn. rewrite hear_all.
  unfold session_moved, raced_claims. by destruct (in_state s' Authenticating), m.
Qed.

(** ** The sessions *)
Definition epoch_recorded (p : Phase) : option jstring :=
  match p with Recorded e | Claimed (Ok e) | Delivered (Ok e) => Some e | _ => None end.
Definition published (p : Phase) : bool := match p with Claimed (Ok _) | Delivered (Ok _) => true | _ => false end.
Definition alive (m : MainEndpoint) (id : nat) : Prop := ∃ x, me_objects m !! id = Some x ∧ over x.2 = false.

(** [except] is a session that is being replaced. *)
Record sessions_ok (except : option nat) (m : MainEndpoint) : Prop := {
  so_objects id x : me_objects m !! id = Some x → c_role x.1 = Main ∧ grounded x.1 (λ _, True) x.2 ∧ vital x.2;
  so_sessions id : id ∈ me_sessions m ↔ alive m id;
  so_claims i c : me_claims m !! i = Some c → wr_workerId (cl_registration c) = cl_worker c ∧
    ∃ x, me_objects m !! cl_session c = Some x ∧ (over x.2 = false → pend x.2 = true ∧ principal x.2 = Some (cl_worker c));
  so_unique i j c d : me_claims m !! i = Some c → me_claims m !! j = Some d → cl_session c = cl_session d → i = j;
  so_pending id x : me_objects m !! id = Some x → over x.2 = false → pend x.2 = true → ∃ i c, me_claims m !! i = Some c ∧ cl_session c = id;
  so_racing i c : me_claims m !! i = Some c → cl_phase c = Allocating → object_state m (cl_session c) = Some Authenticating;
  so_ready id x : me_objects m !! id = Some x → state x.2 = Ready →
    ∃ i c, me_claims m !! i = Some c ∧ cl_session c = id ∧ cl_phase c = Delivered (Ok (epoch_of x.2));
  so_published i c : me_claims m !! i = Some c → published (cl_phase c) = true → alive m (cl_session c) →
    me_current m !! cl_worker c = Some (cl_session c) ∨ except = Some (cl_session c);
  so_current w id : me_current m !! w = Some id → alive m id ∧ ∃ i c, me_claims m !! i = Some c ∧ cl_session c = id ∧ cl_worker c = w ∧
    published (cl_phase c) = true ∧ me_registrations m !! w = Some (cl_registration c);
  so_registrations w : is_Some (me_registrations m !! w) → is_Some (me_current m !! w);
}.

(** The claims after an event of a session. *)
Definition new_claim (m : MainEndpoint) (id : nat) (r : WorkerRegistration) : Claim := {|
  cl_worker := wr_workerId r; cl_session := id; cl_registration := r; cl_predecessor := me_registrationTails m !! wr_workerId r;
  cl_phase := Queued; cl_allocation := NotAsked; cl_late := false |}.
Lemma race_lost_fields id c : cl_worker (race_lost id c) = cl_worker c ∧ cl_session (race_lost id c) = cl_session c ∧
  cl_registration (race_lost id c) = cl_registration c ∧ cl_predecessor (race_lost id c) = cl_predecessor c.
Proof. unfold race_lost. by case_match. Qed.
Lemma race_lost_phase id c : cl_phase (race_lost id c) = cl_phase c ∨
  cl_session c = id ∧ cl_phase c = Allocating ∧ cl_phase (race_lost id c) = Raced (Err SESSION_CLOSED).
Proof. unfold race_lost. case_match; [|by left]. to_prop. by right. Qed.
Lemma raced_claims_lookup id s' l i c' : raced_claims id s' l !! i = Some c' →
  ∃ c, l !! i = Some c ∧ (c' = c ∨ state s' ≠ Authenticating ∧ c' = race_lost id c).
Proof.
  unfold raced_claims. destruct (in_state s' Authenticating) eqn:E; [intros H; exists c'; auto|].
  change (map (race_lost id) l) with (race_lost id <$> l). rewrite list_lookup_fmap, fmap_Some. intros (c & Hc & ->). exists c. split; [done|right]. split; [|done].
  intros H. apply in_state_true in H. congruence.
Qed.

Record same_claim (c c' : Claim) : Prop := {
  sc_worker : cl_worker c' = cl_worker c;
  sc_session : cl_session c' = cl_session c;
  sc_registration : cl_registration c' = cl_registration c;
  sc_predecessor : cl_predecessor c' = cl_predecessor c;
}.
(** A claim before an event of the session [id], and after it. *)
Definition claim_after (id : nat) (s' : WorkerSession) (c c' : Claim) : Prop :=
  same_claim c c' ∧
  (cl_phase c' = cl_phase c ∧ (cl_phase c = Allocating → cl_session c = id → state s' = Authenticating) ∨
   cl_session c = id ∧ cl_phase c = Allocating ∧ cl_phase c' = Raced (Err SESSION_CLOSED) ∧ state s' ≠ Authenticating).
Lemma raced_claim id s' l i c : l !! i = Some c → ∃ c', raced_claims id s' l !! i = Some c' ∧ claim_after id s' c c'.
Proof.
  intros H. unfold raced_claims. destruct (in_state s' Authenticating) eqn:E.
  - apply in_state_true in E. exists c. split; [done|]. split; [by split|]. by left.
  - assert (state s' ≠ Authenticating) as Hn by (intros Hs; apply in_state_true in Hs; congruence).
    exists (race_lost id c). change (map (race_lost id) l) with (race_lost id <$> l). rewrite list_lookup_fmap, H. split; [done|].
    split; [by destruct (race_lost_fields id c) as (? & ? & ? & ?)|]. unfold race_lost.
    destruct (_ && _) eqn:Ec; [to_prop; right; by subst|left]. split; [done|]. intros H1 H2. exfalso.
    by rewrite H1, H2, Nat.eqb_refl, bool_decide_true in Ec.
Qed.

Section moved.
Context (id : nat) (cfg : SessionConfig) (s s' : WorkerSession) (os : list Output) (m : MainEndpoint).
Abbreviation m' := (session_moved id cfg s' os m).
Lemma register_all_fields rs x : me_objects (register_all id rs x) = me_objects x ∧ me_sessions (register_all id rs x) = me_sessions x ∧
  me_current (register_all id rs x) = me_current x ∧ me_registrations (register_all id rs x) = me_registrations x ∧
  me_lastEpochs (register_all id rs x) = me_lastEpochs x ∧ me_closed (register_all id rs x) = me_closed x.
Proof. revert x. induction rs as [|r rs IH]; intros x; [done|]. unfold register_all in *. cbn [foldl]. by destruct (IH (register id r x)) as (-> & -> & -> & -> & -> & ->). Qed.
Lemma moved_objects : me_objects m' = <[id := (cfg, s')]> (me_objects m).
Proof. unfold session_moved. by destruct (closes os); cbn; rewrite (proj1 (register_all_fields _ _)). Qed.
Lemma moved_sessions j : j ∈ me_sessions m' ↔ j ∈ me_sessions m ∧ ¬ (closes os = true ∧ j = id).
Proof.
  unfold session_moved. pose proof (register_all_fields (registers os) (with_claims (raced_claims id s') (with_objects (insert id (cfg, s')) m)))
    as (_ & E & _). destruct (closes os); cbn; rewrite E; cbn; [|naive_solver].
  rewrite !list_elem_of_In, filter_In. rewrite negb_true_iff, Nat.eqb_neq. naive_solver.
Qed.
Lemma moved_lookup w : me_current m' !! w = (if closes os && held_by m id w then None else me_current m !! w) ∧
  me_registrations m' !! w = if closes os && held_by m id w then None else me_registrations m !! w.
Proof.
  unfold session_moved. pose proof (register_all_fields (registers os) (with_claims (raced_claims id s') (with_objects (insert id (cfg, s')) m)))
    as (_ & _ & E1 & E2 & _). destruct (closes os); cbn; rewrite ?E1, ?E2; cbn; [|done].
  rewrite !delete_worker_lookup. unfold held_by. by rewrite E1.
Qed.
Lemma moved_alive j : is_Some (me_objects m !! id) → alive m' j ↔ j = id ∧ over s' = false ∨ j ≠ id ∧ alive m j.
Proof.
  intros Hid. unfold alive. rewrite moved_objects. destruct (decide (j = id)) as [->|Hn].
  - rewrite list_lookup_insert_eq by by apply lookup_lt_is_Some. split; [intros (x & [= <-] & H); by left|].
    intros [[_ H]|[? _]]; [by eexists|done].
  - rewrite list_lookup_insert_ne by done. naive_solver.
Qed.
Lemma moved_claims : (∀ r1 r2 rs, registers os ≠ r1 :: r2 :: rs) →
  me_claims m' = raced_claims id s' (me_claims m) ++ map (new_claim m id) (registers os) ∧
  me_registrationTails m' = foldr (λ r, insert (wr_workerId r) (length (me_claims m))) (me_registrationTails m) (registers os).
Proof.
  intros H. assert (length (raced_claims id s' (me_claims m)) = length (me_claims m)) as El.
  { unfold raced_claims. case_match; [done|apply length_map]. }
  unfold session_moved. destruct (registers os) as [|r1 [|r2 rs]]; [| |by destruct (H r1 r2 rs)]; unfold register_all; cbn [foldl].
  - destruct (closes os); cbn; by rewrite app_nil_r.
  - destruct (closes os); cbn; by rewrite El.
Qed.
Lemma moved_claim i c' : (∀ r1 r2 rs, registers os ≠ r1 :: r2 :: rs) → me_claims m' !! i = Some c' →
  (∃ c, me_claims m !! i = Some c ∧ claim_after id s' c c') ∨
  ∃ r, registers os = [r] ∧ i = length (me_claims m) ∧ c' = new_claim m id r.
Proof.
  intros Hr. rewrite (proj1 (moved_claims Hr)). intros [H|[Hl H]]%lookup_app_Some.
  - destruct (me_claims m !! i) as [c|] eqn:E.
    + left. exists c. split; [done|]. destruct (raced_claim id s' _ _ _ E) as (x & Hx & Ha). rewrite H in Hx. by injection Hx as ->.
    + exfalso. apply lookup_lt_Some in H. apply lookup_ge_None in E. unfold raced_claims in H. case_match; [lia|].
      rewrite length_map in H. lia.
  - right. assert (length (raced_claims id s' (me_claims m)) = length (me_claims m)) as El.
    { unfold raced_claims. case_match; [done|apply length_map]. } rewrite El in Hl, H.
    destruct (registers os) as [|r [|r2 rs]]; [done| |by destruct (Hr r r2 rs)]. cbn in H.
    apply list_lookup_singleton_Some in H as [Hi <-]. exists r. split_and!; [done|lia|done].
Qed.
Lemma claim_moved i c : (∀ r1 r2 rs, registers os ≠ r1 :: r2 :: rs) → me_claims m !! i = Some c →
  ∃ c', me_claims m' !! i = Some c' ∧ claim_after id s' c c'.
Proof.
  intros Hr H. rewrite (proj1 (moved_claims Hr)). destruct (raced_claim id s' _ _ _ H) as (c' & Hc & Ha). exists c'.
  split; [by apply lookup_app_l_Some|done].
Qed.
End moved.

Lemma one_registration told s os s' : main_moves told s os s' → ∀ r1 r2 rs, registers os ≠ r1 :: r2 :: rs.
Proof. intros Hm r1 r2 rs E. destruct (mm_registers _ _ _ _ Hm) as [H|(r & H & _)]; rewrite E in H; done. Qed.

(** A session whose owner is answered has been given the epoch on record. *)
Definition answered_by (m : MainEndpoint) (id : nat) (epoch : jstring) : Prop :=
  ∃ i c, me_claims m !! i = Some c ∧ cl_session c = id ∧ cl_phase c = Delivered (Ok epoch).

Lemma published_after id s' c c' : claim_after id s' c c' → published (cl_phase c') = published (cl_phase c).
Proof. intros [_ [[-> _]|(_ & -> & -> & _)]]; done. Qed.

Section moved_ok.
Context (ex : option nat) (id : nat) (cfg : SessionConfig) (s s' : WorkerSession) (os : list Output) (m : MainEndpoint) (told : jstring → Prop).
Context (Hok : sessions_ok ex m) (Hid : me_objects m !! id = Some (cfg, s)) (Hm : main_moves told s os s').
Context (Hg : grounded cfg (λ _, True) s') (Ht : ∀ epoch, told epoch → answered_by m id epoch).
Abbreviation m' := (session_moved id cfg s' os m).
#[local] Lemma moved_some : is_Some (me_objects m !! id).
Proof. by eexists. Qed.
#[local] Lemma moved_new : me_objects m' !! id = Some (cfg, s').
Proof. by rewrite moved_objects, list_lookup_insert_eq by by eapply lookup_lt_Some. Qed.
#[local] Lemma moved_self x : me_objects m' !! id = Some x → x = (cfg, s').
Proof. rewrite moved_new. by intros [= <-]. Qed.
#[local] Lemma moved_other j : j ≠ id → me_objects m' !! j = me_objects m !! j.
Proof. intros Hj. by rewrite moved_objects, list_lookup_insert_ne. Qed.
#[local] Lemma moved_alive_self : alive m id ↔ over s = false.
Proof. split; [intros (x & Hx & Hv); rewrite Hid in Hx; by injection Hx as <-|by exists (cfg, s)]. Qed.
#[local] Lemma moved_back : over s' = false → over s = false.
Proof. intros Hv. destruct (over s) eqn:E; [|done]. destruct (mm_over _ _ _ _ Hm E). congruence. Qed.
#[local] Ltac setup :=
  pose proof Hok as [O S C U P R Y B T G]; pose proof (one_registration _ _ _ _ Hm) as H1; pose proof moved_some as Hsome;
  pose proof moved_self as Hself; pose proof moved_other as Hother; pose proof moved_alive_self as Halive;
  pose proof moved_new as Hnew; pose proof moved_back as Hback.
Lemma moved_objects_ok : ∀ j x, me_objects m' !! j = Some x → c_role x.1 = Main ∧ grounded x.1 (λ _, True) x.2 ∧ vital x.2.
Proof.
  setup.
  intros j x Hj. destruct (decide (j = id)) as [->|Hn]; [|rewrite Hother in Hj by done; by eapply O].
  rewrite (Hself x Hj). destruct (O id _ Hid) as (Hr & _ & _). split_and!; [done|done|by eapply mm_vital].
Qed.
Lemma moved_sessions_ok : ∀ j, j ∈ me_sessions m' ↔ alive m' j.
Proof.
  setup.
  intros j. rewrite moved_sessions, moved_alive, S, closes_spec, (mm_closed _ _ _ _ Hm) by done.
  destruct (decide (j = id)) as [->|Hn]; [rewrite Halive|naive_solver]. destruct (over s'); [|naive_solver].
  destruct (over s); naive_solver.
Qed.
Lemma moved_claims_ok : ∀ i c', me_claims m' !! i = Some c' → wr_workerId (cl_registration c') = cl_worker c' ∧
  ∃ x, me_objects m' !! cl_session c' = Some x ∧ (over x.2 = false → pend x.2 = true ∧ principal x.2 = Some (cl_worker c')).
Proof.
  setup.
  intros i c' Hc. apply moved_claim in Hc as [(c & Hc & Ha & _)|(r & Hr & -> & ->)]; [| |done].
  + destruct (C i c Hc) as [Hw (x & Hx & Hp)]. destruct Ha as [-> -> -> _]. split; [done|].
    destruct (decide (cl_session c = id)) as [E|Hn]; [|exists x; by rewrite Hother].
    rewrite E in *. rewrite Hid in Hx. injection Hx as <-. exists (cfg, s'). split; [done|]. cbn in *. intros Hv.
    destruct (Hp (Hback Hv)) as [Hpe Hpr].
    destruct (mm_registers _ _ _ _ Hm) as [Hr|(r & _ & Hr & _)]; [|congruence].
    destruct (mm_pending _ _ _ _ Hm Hv Hr) as [-> ->]; done.
  + cbn. split; [done|]. exists (cfg, s'). split; [done|].
    destruct (mm_registers _ _ _ _ Hm) as [E|(r' & E & _ & Hp)]; rewrite Hr in E; [done|]. injection E as <-. done.
Qed.
Lemma moved_unique_ok : ∀ i j ci cj, me_claims m' !! i = Some ci → me_claims m' !! j = Some cj → cl_session ci = cl_session cj → i = j.
Proof.
  setup.
  assert (∀ i c r, me_claims m !! i = Some c → registers os = [r] → cl_session c ≠ id) as Hfresh.
  { intros i c r Hc Hr E. destruct (mm_registers _ _ _ _ Hm) as [H|(r' & _ & Hp & _)]; [by rewrite Hr in H|].
    destruct (C i c Hc) as [_ (x & Hx & Hp')]. rewrite E, Hid in Hx. injection Hx as <-. cbn in Hp'.
    destruct (over s) eqn:Ev; [destruct (mm_over _ _ _ _ Hm Ev) as [_ H]; by rewrite Hr in H|].
    destruct (Hp' eq_refl). congruence. }
  intros i j ci cj Hi Hj Hs. apply moved_claim in Hi as [(c & Hc & Ha & _)|(r & Hr & -> & ->)]; [| |done];
    apply moved_claim in Hj as [(d & Hd & Hb & _)|(r' & Hr' & -> & ->)]; try done.
  + apply (U i j c d); [done..|]. by rewrite <- (sc_session _ _ Ha), <- (sc_session _ _ Hb).
  + exfalso. cbn in Hs. rewrite (sc_session _ _ Ha) in Hs. by eapply Hfresh.
  + exfalso. cbn in Hs. rewrite (sc_session _ _ Hb) in Hs. by eapply Hfresh.
Qed.
Lemma moved_pending_ok : ∀ j x, me_objects m' !! j = Some x → over x.2 = false → pend x.2 = true → ∃ i c, me_claims m' !! i = Some c ∧ cl_session c = j.
Proof.
  setup.
  intros j x Hj Hv Hp. destruct (decide (j = id)) as [->|Hn].
  + rewrite (Hself x Hj) in Hv, Hp. cbn in Hv, Hp. destruct (mm_registers _ _ _ _ Hm) as [Hr|(r & Hr & _ & _)].
    * destruct (mm_pending _ _ _ _ Hm Hv Hr) as [E _]. rewrite E in Hp. destruct (P id _ Hid (Hback Hv) Hp) as (i & c & Hc & Hs).
      destruct (claim_moved id cfg s' os m i c H1 Hc) as (c' & Hc' & Ha & _). exists i, c'. split; [done|]. by rewrite (sc_session _ _ Ha).
    * exists (length (me_claims m)), (new_claim m id r). split; [|done]. rewrite (proj1 (moved_claims _ _ _ _ _ H1)), Hr. cbn.
      assert (length (raced_claims id s' (me_claims m)) = length (me_claims m)) as El by (unfold raced_claims; case_match; [done|apply length_map]).
      by rewrite lookup_app_r, El, Nat.sub_diag by lia.
  + rewrite Hother in Hj by done. destruct (P j x Hj Hv Hp) as (i & c & Hc & Hs).
    destruct (claim_moved id cfg s' os m i c H1 Hc) as (c' & Hc' & Ha & _). exists i, c'. split; [done|]. by rewrite (sc_session _ _ Ha).
Qed.
Lemma moved_racing_ok : ∀ i c', me_claims m' !! i = Some c' → cl_phase c' = Allocating → object_state m' (cl_session c') = Some Authenticating.
Proof.
  setup.
  intros i c' Hc Hp. unfold object_state. apply moved_claim in Hc as [(c & Hc & Ha & Hph)|(r & _ & _ & ->)]; [|done..].
  destruct Hph as [[E Hs]|(_ & _ & E & _)]; rewrite E in Hp; [|done]. pose proof (R i c Hc Hp) as Hst.
  rewrite (sc_session _ _ Ha). destruct (decide (cl_session c = id)) as [E'|Hn].
  + rewrite E', Hnew. cbn. by rewrite Hs.
  + by rewrite Hother.
Qed.
Lemma moved_ready_ok : ∀ j x, me_objects m' !! j = Some x → state x.2 = Ready →
  ∃ i c, me_claims m' !! i = Some c ∧ cl_session c = j ∧ cl_phase c = Delivered (Ok (epoch_of x.2)).
Proof.
  setup.
  intros j x Hj Hs. assert (∃ i c, me_claims m !! i = Some c ∧ cl_session c = j ∧ cl_phase c = Delivered (Ok (epoch_of x.2))) as (i & c & Hc & Hcs & Hph).
  { destruct (decide (j = id)) as [->|Hn]; [|rewrite Hother in Hj by done; by eapply Y].
    rewrite (Hself x Hj) in Hs |- *. cbn [snd]. destruct (mm_ready _ _ _ _ Hm Hs) as [[Hrs He]|[_ Htold]]; [|by apply Ht].
    rewrite He. by apply (Y id (cfg, s)). }
  destruct (claim_moved id cfg s' os m i c H1 Hc) as (c' & Hc' & Ha & Hx). exists i, c'. split; [done|].
  rewrite (sc_session _ _ Ha). split; [done|]. destruct Hx as [[-> _]|(_ & Hx & _)]; [done|congruence].
Qed.
Lemma moved_published_ok : ∀ i c', me_claims m' !! i = Some c' → published (cl_phase c') = true → alive m' (cl_session c') →
  me_current m' !! cl_worker c' = Some (cl_session c') ∨ ex = Some (cl_session c').
Proof.
  setup.
  intros i c' Hc Hp Hal. apply moved_claim in Hc as [(c & Hc & Ha)|(r & _ & _ & ->)]; [|done..].
  rewrite (published_after _ _ _ _ Ha) in Hp. destruct Ha as [[-> Es _ _] _]. rewrite Es in *. apply moved_alive in Hal; [|done].
  assert (alive m (cl_session c)) as Hal' by (destruct Hal as [[-> ?]|[_ ?]]; [apply Halive; auto|done]).
  rewrite (proj1 (moved_lookup _ _ _ _ _ _)). destruct (B i c Hc Hp Hal') as [Hb|Hb]; [|by right].
  left. destruct (closes os) eqn:Ec; [|done]. cbn. unfold held_by. rewrite Hb. case_bool_decide as Hd; [|done].
  injection Hd as Hd. apply closes_spec, (mm_closed _ _ _ _ Hm) in Ec as [_ Ec]. 
  destruct Hal as [[_ ?]|[? _]]; congruence.
Qed.
Lemma moved_current_ok : ∀ w j, me_current m' !! w = Some j → alive m' j ∧ ∃ i c, me_claims m' !! i = Some c ∧ cl_session c = j ∧ cl_worker c = w ∧
  published (cl_phase c) = true ∧ me_registrations m' !! w = Some (cl_registration c).
Proof.
  setup.
  intros w j. rewrite (proj1 (moved_lookup _ _ _ _ _ _)), (proj2 (moved_lookup _ _ _ _ _ _)).
  destruct (closes os && held_by m id w) eqn:E; [done|]. intros Hw. destruct (T w j Hw) as (Hal & i & c & Hc & Hs & Hcw & Hp & Hreg).
  split.
  + apply moved_alive; [done|]. destruct (decide (j = id)) as [->|Hn]; [left|by right]. split; [done|].
    apply andb_false_iff in E as [E|E].
    * destruct (over s') eqn:Ev; [|done]. assert (closes os = true); [|congruence]. by apply closes_spec, (mm_closed _ _ _ _ Hm), conj; [apply Halive|].
    * unfold held_by in E. rewrite Hw in E. by rewrite bool_decide_true in E.
  + destruct (claim_moved id cfg s' os m i c H1 Hc) as (c' & Hc' & Ha). exists i, c'. pose proof (published_after _ _ _ _ Ha) as Hpa.
    destruct Ha as [[-> -> -> _] _]. rewrite Hpa. done.
Qed.
Lemma moved_registrations_ok : ∀ w, is_Some (me_registrations m' !! w) → is_Some (me_current m' !! w).
Proof.
  setup.
  intros w. rewrite (proj1 (moved_lookup _ _ _ _ _ _)), (proj2 (moved_lookup _ _ _ _ _ _)).
  destruct (_ && _); [done|apply G].
Qed.
Lemma sessions_moved : sessions_ok ex m'.
Proof.
  split; [apply moved_objects_ok|apply moved_sessions_ok|apply moved_claims_ok|apply moved_unique_ok|apply moved_pending_ok
    |apply moved_racing_ok|apply moved_ready_ok|apply moved_published_ok|apply moved_current_ok|apply moved_registrations_ok].
Qed.
End moved_ok.
