(* ===== verification/EndpointQueue.v ===== *)
(** * Registrations at an endpoint

    The claims of a worker wait for each other, their epochs rise, and the changes
    to a claim keep what EndpointLaws.v says of the sessions. *)

From S2P Require Import Prelude JsString Collections Regex JsValue Identity Time JsonText Canonical JsonParse Placement Execution Bytes Codec Session SessionSteps SessionLaws Endpoint EndpointLaws.

Open Scope Z_scope.

(** ** The queue of a worker *)
Record queue_ok (m : MainEndpoint) : Prop := {
  qo_predecessor i c p : me_claims m !! i = Some c → cl_predecessor c = Some p →
    (p < i)%nat ∧ (∃ d, me_claims m !! p = Some d ∧ cl_worker d = cl_worker c) ∧
    ∀ j e, (p < j < i)%nat → me_claims m !! j = Some e → cl_worker e ≠ cl_worker c;
  qo_first i c j d : me_claims m !! i = Some c → cl_predecessor c = None → (j < i)%nat → me_claims m !! j = Some d →
    cl_worker d = cl_worker c → settled (cl_phase d) = true;
  qo_tail w i : me_registrationTails m !! w = Some i →
    (∃ c, me_claims m !! i = Some c ∧ cl_worker c = w ∧ ∀ r, cl_phase c ≠ Delivered r) ∧
    ∀ j e, (i < j)%nat → me_claims m !! j = Some e → cl_worker e ≠ w;
  qo_idle w j d : me_registrationTails m !! w = None → me_claims m !! j = Some d → cl_worker d = w → settled (cl_phase d) = true;
  qo_started i c j d : me_claims m !! i = Some c → cl_phase c ≠ Queued → (j < i)%nat → me_claims m !! j = Some d →
    cl_worker d = cl_worker c → settled (cl_phase d) = true;
}.
(** What only depends on the claims and the tails. *)
Lemma queue_same m m' : me_claims m' = me_claims m → me_registrationTails m' = me_registrationTails m → queue_ok m → queue_ok m'.
Proof. intros E1 E2 [P F T I S]. split; rewrite ?E1, ?E2; eauto. Qed.

Lemma update_lookup i f m j c' : me_claims (update_claim i f m) !! j = Some c' →
  ∃ c, me_claims m !! j = Some c ∧ (j = i ∧ c' = f c ∨ j ≠ i ∧ c' = c).
Proof.
  cbn. destruct (decide (j = i)) as [->|Hn].
  - rewrite list_lookup_alter_eq, fmap_Some. intros (c & Hc & ->). exists c. auto.
  - rewrite list_lookup_alter_ne by done. intros H. exists c'. auto.
Qed.
Lemma lookup_update i f m j c : me_claims m !! j = Some c →
  me_claims (update_claim i f m) !! j = Some (if decide (j = i) then f c else c).
Proof.
  intros H. cbn. destruct (decide (j = i)) as [->|Hn]; [by rewrite list_lookup_alter_eq, H|by rewrite list_lookup_alter_ne].
Qed.

(** A change of one claim. *)
Record advance (m : MainEndpoint) (c c' : Claim) : Prop := {
  av_same : same_claim c c';
  av_settled : settled (cl_phase c) = true → settled (cl_phase c') = true;
  av_delivered r : cl_phase c' = Delivered r → cl_phase c = Delivered r;
  av_started : cl_phase c = Queued → cl_phase c' ≠ Queued →
    ∀ p, cl_predecessor c = Some p → ∃ d, me_claims m !! p = Some d ∧ settled (cl_phase d) = true;
}.
Lemma settled_started p : settled p = true → p ≠ Queued.
Proof. by destruct p. Qed.

(** Who may start has nobody before him. *)
Lemma free_earlier m i c j d : queue_ok m → me_claims m !! i = Some c →
  (∀ p, cl_predecessor c = Some p → ∃ d, me_claims m !! p = Some d ∧ settled (cl_phase d) = true) →
  (j < i)%nat → me_claims m !! j = Some d → cl_worker d = cl_worker c → settled (cl_phase d) = true.
Proof.
  intros [P F T I S] Hc Hp Hj Hd Hw. destruct (cl_predecessor c) as [p|] eqn:E; [|by apply (F i c j d)].
  destruct (P i c p Hc E) as (Hlt & (x & Hx & Hxw) & Hbetween). destruct (Hp p eq_refl) as (x' & Hx' & Hs).
  rewrite Hx in Hx'. injection Hx' as <-. destruct (Nat.lt_trichotomy j p) as [H|[->|H]].
  - apply (S p x j d); [done|by apply settled_started|done..|congruence].
  - congruence.
  - by destruct (Hbetween j d).
Qed.

Lemma queue_update m i f c : queue_ok m → me_claims m !! i = Some c → advance m c (f c) → queue_ok (update_claim i f m).
Proof.
  intros Hq Hc Hadv. pose proof Hq as [P F T I S].
  assert (∀ j d', me_claims (update_claim i f m) !! j = Some d' → ∃ d, me_claims m !! j = Some d ∧ same_claim d d' ∧
    (settled (cl_phase d) = true → settled (cl_phase d') = true) ∧ (∀ r, cl_phase d' = Delivered r → cl_phase d = Delivered r) ∧
    (j ≠ i ∧ d' = d ∨ j = i ∧ d = c ∧ d' = f c)) as Hback.
  { intros j d' (d & Hd & [[-> ->]|[Hn ->]])%update_lookup.
    - rewrite Hc in Hd. injection Hd as <-. exists c. destruct Hadv. split_and!; auto.
    - exists d. split_and!; auto. by split. }
  split.
  - intros j d' p (d & Hd & [Hw _ _ Hpr] & _)%Hback Hp. rewrite Hpr in Hp. rewrite Hw. destruct (P j d p Hd Hp) as (Hlt & (x & Hx & Hxw) & Hb).
    split_and!; [done| |].
    + eexists. split; [by apply lookup_update|]. case_decide; [|done]. subst. rewrite Hc in Hx. injection Hx as <-.
      destruct Hadv as [[-> _ _ _] _ _ _]. done.
    + intros k e' Hk (e & He & [-> _ _ _] & _)%Hback. by eapply Hb.
  - intros j d' k e' (d & Hd & [Hw _ _ Hpr] & _)%Hback Hn Hk (e & He & [Hew _ _ _] & Hs & _)%Hback Heq. apply Hs.
    eapply (F j d k e); congruence.
  - intros w j Hw. destruct (T w j Hw) as ((d & Hd & Hdw & Hnd) & Hlater). split.
    + eexists. split; [by apply lookup_update|]. case_decide; [|done]. subst. rewrite Hc in Hd. injection Hd as <-.
      destruct Hadv as [[-> _ _ _] _ Hdl _]. split; [done|]. intros r Hr. by eapply Hnd, Hdl.
    + intros k e' Hk (e & He & [-> _ _ _] & _)%Hback. by eapply Hlater.
  - intros w j d' Hw (d & Hd & [-> _ _ _] & Hs & _)%Hback Hdw. apply Hs. by eapply I.
  - intros j d' k e' (d & Hd & [Hw _ _ _] & _ & _ & Hcase)%Hback Hn Hk (e & He & [Hew _ _ _] & Hs & _)%Hback Heq. apply Hs.
    rewrite Hw, Hew in Heq. destruct Hcase as [[_ ->]|(-> & -> & ->)]; [by eapply (S j d)|].
    destruct (decide (cl_phase c = Queued)) as [Eq|Eq]; [|by eapply (S i c)].
    eapply free_earlier; [done|exact Hc| |done..]. by apply Hadv.
Qed.

(** A new claim goes to the end of the queue. *)
Lemma queue_register id r m : queue_ok m → queue_ok (register id r m).
Proof.
  intros [P F T I S]. set (w := wr_workerId r). set (n := length (me_claims m)). set (x := new_claim m id r).
  assert (∀ j c, me_claims (register id r m) !! j = Some c → me_claims m !! j = Some c ∧ (j < n)%nat ∨ j = n ∧ c = x) as Hback.
  { intros j c [H|[H1 H2]]%lookup_app_Some; [left; split; [done|by eapply lookup_lt_Some]|right].
    apply list_lookup_singleton_Some in H2 as [H2 <-]. unfold n. split; [lia|done]. }
  assert (∀ j c, me_claims m !! j = Some c → me_claims (register id r m) !! j = Some c) as Hold by (intros j c; apply lookup_app_l_Some).
  assert (∀ j c, me_claims m !! j = Some c → (j < n)%nat) as Hlt by (intros j c; apply lookup_lt_Some).
  split.
  - intros i c p [[Hc Hi]|[-> ->]]%Hback Hp.
    + destruct (P i c p Hc Hp) as (H1 & (d & H2 & H3) & H4). split_and!; [done|by eauto|].
      intros j e Hj [[He _]|[-> _]]%Hback; [by eapply H4|lia].
    + cbn in Hp. destruct (T w p Hp) as ((d & Hd & Hdw & _) & Hl). split_and!; [by eapply Hlt|by eauto|].
      intros j e Hj [[He _]|[-> _]]%Hback; [|lia]. apply (Hl j e); [lia|done].
  - intros i c j d [[Hc Hi]|[-> ->]]%Hback Hp Hj [[Hd _]|[-> _]]%Hback Hw; try lia; [by eapply (F i c j d)|].
    cbn in Hp, Hw. by eapply I.
  - intros w' i. cbn. intros [[<- <-]|[Hn Hi]]%lookup_insert_Some.
    + split.
      * exists x. split_and!; [unfold x, n; by rewrite lookup_app_r, Nat.sub_diag|done|done].
      * intros j e Hj He. apply Hback in He as [[_ He]|[-> _]]; unfold n in *; lia.
    + destruct (T w' i Hi) as ((d & Hd & Hdw & Hnd) & Hl). split; [exists d; by auto|].
      intros j e Hj [[He _]|[-> ->]]%Hback; [by eapply Hl|done].
  - intros w' j d. cbn. intros [H Hn]%lookup_insert_None [[Hd _]|[-> ->]]%Hback Hw; [by eapply I|done].
  - intros i c j d [[Hc Hi]|[-> ->]]%Hback Hp Hj [[Hd _]|[-> _]]%Hback Hw; try lia; [by eapply (S i c j d)|done].
Qed.

Lemma race_lost_advance m id c : advance m c (race_lost id c).
Proof.
  destruct (race_lost_fields id c) as (H1 & H2 & H3 & H4). destruct (race_lost_phase id c) as [E|(_ & Hp & E)]; rewrite ?E, ?Hp; split; rewrite ?E, ?Hp; try done.
Qed.
(** The loss of the race is one change of each claim. *)
Lemma queue_map f m : queue_ok m → (∀ c, same_claim c (f c) ∧ (cl_phase (f c) = cl_phase c ∨ cl_phase c = Allocating ∧ cl_phase (f c) = Raced (Err SESSION_CLOSED))) →
  queue_ok (with_claims (map f) m).
Proof.
  intros [P F T I S] Hf.
  assert (∀ j c', me_claims (with_claims (map f) m) !! j = Some c' → ∃ c, me_claims m !! j = Some c ∧ c' = f c) as Hback.
  { intros j c'. cbn. change (map f (me_claims m)) with (f <$> me_claims m). rewrite list_lookup_fmap, fmap_Some. naive_solver. }
  assert (∀ j c, me_claims m !! j = Some c → me_claims (with_claims (map f) m) !! j = Some (f c)) as Hold.
  { intros j c H. cbn. change (map f (me_claims m)) with (f <$> me_claims m). by rewrite list_lookup_fmap, H. }
  assert (∀ c, cl_worker (f c) = cl_worker c ∧ cl_predecessor (f c) = cl_predecessor c ∧ settled (cl_phase (f c)) = settled (cl_phase c) ∧
    (∀ r, cl_phase (f c) = Delivered r → cl_phase c = Delivered r) ∧ (cl_phase (f c) ≠ Queued → cl_phase c ≠ Queued)) as Hfields.
  { intros c. destruct (Hf c) as [[-> _ _ ->] [-> |[-> ->]]]; by split_and!. }
  split.
  - intros i c' p (c & Hc & ->)%Hback Hp. destruct (Hfields c) as (Hw & Hpr & _). rewrite Hpr in Hp. rewrite Hw.
    destruct (P i c p Hc Hp) as (H1 & (d & H2 & H3) & H4). split_and!; [done| |].
    + exists (f d). split; [by apply Hold|]. by destruct (Hfields d) as [-> _].
    + intros j e' Hj (e & He & ->)%Hback. destruct (Hfields e) as [-> _]. by eapply H4.
  - intros i c' j d' (c & Hc & ->)%Hback Hp Hj (d & Hd & ->)%Hback. destruct (Hfields c) as (-> & Hpr & _), (Hfields d) as (-> & _ & -> & _).
    rewrite Hpr in Hp. by eapply (F i c j d).
  - intros w i Hw. destruct (T w i Hw) as ((d & Hd & Hdw & Hnd) & Hl). split.
    + exists (f d). destruct (Hfields d) as (-> & _ & _ & Hdl & _). split_and!; [by apply Hold|done|]. intros r Hr. by eapply Hnd, Hdl.
    + intros j e' Hj (e & He & ->)%Hback. destruct (Hfields e) as [-> _]. by eapply Hl.
  - intros w j d' Hw (d & Hd & ->)%Hback. destruct (Hfields d) as (-> & _ & -> & _). by eapply I.
  - intros i c' j d' (c & Hc & ->)%Hback Hp Hj (d & Hd & ->)%Hback. destruct (Hfields c) as (-> & _ & _ & _ & Hq), (Hfields d) as (-> & _ & -> & _).
    by eapply (S i c j d); [|apply Hq|..].
Qed.
Lemma queue_register_all id rs m : queue_ok m → queue_ok (register_all id rs m).
Proof. revert m. induction rs as [|r rs IH]; intros m H; [done|]. unfold register_all in *. cbn [foldl]. by apply IH, queue_register. Qed.
Lemma queue_moved id cfg s' os m : queue_ok m → queue_ok (session_moved id cfg s' os m).
Proof.
  intros H. unfold session_moved.
  assert (queue_ok (register_all id (registers os) (with_claims (raced_claims id s') (with_objects (insert id (cfg, s')) m)))) as H2.
  { apply queue_register_all. unfold raced_claims. destruct (in_state s' Authenticating); [by apply (queue_same m)|].
    apply (queue_map (race_lost id)); [by apply (queue_same m)|]. intros c. split.
    - destruct (race_lost_fields id c) as (? & ? & ? & ?). by split.
    - destruct (race_lost_phase id c) as [->|(_ & H1 & H2)]; auto. }
  destruct (closes os); [|done]. by eapply queue_same; [..|exact H2].
Qed.

(** The last of a worker's claims leaves the queue when its session is told. *)
Lemma queue_delivered m i c r : queue_ok m → me_claims m !! i = Some c → cl_phase c = Claimed r →
  let m1 := update_claim i (with_phase (Delivered r)) m in
  queue_ok (if bool_decide (me_registrationTails m1 !! cl_worker c = Some i) then with_tails (delete (cl_worker c)) m1 else m1).
Proof.
  intros [P F T I S] Hc Hr m1.
  assert (∀ j d', me_claims m1 !! j = Some d' → ∃ d, me_claims m !! j = Some d ∧ (j = i ∧ d = c ∧ d' = with_phase (Delivered r) c ∨ j ≠ i ∧ d' = d)) as Hback.
  { intros j d' (d & Hd & [[-> ->]|[Hn ->]])%update_lookup; [|by eauto]. rewrite Hc in Hd. injection Hd as <-. exists c. split; [done|by left]. }
  assert (∀ j d', me_claims m1 !! j = Some d' → ∃ d, me_claims m !! j = Some d ∧ same_claim d d' ∧ settled (cl_phase d') = settled (cl_phase d) ∧
    (cl_phase d' ≠ Queued → cl_phase d ≠ Queued)) as Hback2.
  { intros j d' (d & Hd & [(-> & -> & ->)|[Hn ->]])%Hback; eexists; (split; [done|]); cbn; rewrite ?Hr; (split; [by split|by split]). }
  assert (∀ j d, me_claims m !! j = Some d → ∃ d', me_claims m1 !! j = Some d' ∧ same_claim d d') as Hold.
  { intros j d Hd. eexists. split; [by apply lookup_update|]. case_decide; by split. }
  assert (∀ t, (t = me_registrationTails m ∧ me_registrationTails m !! cl_worker c ≠ Some i ∨
                t = delete (cl_worker c) (me_registrationTails m) ∧ me_registrationTails m !! cl_worker c = Some i) →
     queue_ok {| me_objects := me_objects m; me_sessions := me_sessions m; me_current := me_current m; me_registrations := me_registrations m;
       me_claims := me_claims m1; me_registrationTails := t; me_lastEpochs := me_lastEpochs m; me_closed := me_closed m |}) as H.
  { intros t Ht. split; cbn [me_claims me_registrationTails].
    - intros j d' p (d & Hd & [-> _ _ ->] & _)%Hback2 Hp. destruct (P j d p Hd Hp) as (H1 & (x & H2 & H3) & H4). split_and!; [done| |].
      + destruct (Hold p x H2) as (x' & Hx' & [Hx'w _ _ _]). exists x'. split; [done|congruence].
      + intros k e' Hk (e & He & [-> _ _ _] & _)%Hback2. by eapply H4.
    - intros j d' k e' (d & Hd & [-> _ _ ->] & _)%Hback2 Hp Hk (e & He & [-> _ _ _] & -> & _)%Hback2. by eapply (F j d k e).
    - intros w j Hw.
      assert (me_registrationTails m !! w = Some j ∧ j ≠ i) as [Hw' Hj].
      { destruct Ht as [[-> Ht]|[-> Ht]].
        - split; [done|]. intros ->. destruct (T w i Hw) as ((x & Hx & <- & _) & _). congruence.
        - apply lookup_delete_Some in Hw as [Hw1 Hw2]. split; [done|]. intros ->.
          destruct (T w i Hw2) as ((x & Hx & <- & _) & _). congruence. }
      destruct (T w j Hw') as ((d & Hd & Hdw & Hnd) & Hl). split.
      + exists d. split_and!; [|done|done]. unfold m1. rewrite (lookup_update _ _ _ _ _ Hd). by rewrite decide_False.
      + intros k e' Hk (e & He & [-> _ _ _] & _)%Hback2. by eapply Hl.
    - intros w j d' Hw (d & Hd & [-> _ _ _] & -> & _)%Hback2 Hdw.
      destruct Ht as [[-> _]|[-> Ht]]; [by eapply I|]. destruct (decide (w = cl_worker c)) as [->|Hn]; [|rewrite lookup_delete_ne in Hw by done; by eapply I].
      destruct (T _ _ Ht) as (_ & Hl). destruct (Nat.lt_trichotomy j i) as [Hlt|[->|Hgt]].
      + apply (S i c j d); [done|by rewrite Hr|done..].
      + rewrite Hc in Hd. injection Hd as <-. by rewrite Hr.
      + by destruct (Hl j d).
    - intros j d' k e' (d & Hd & [-> _ _ _] & _ & Hq)%Hback2 Hp Hk (e & He & [-> _ _ _] & -> & _)%Hback2. eapply (S j d k e); auto. }
  case_bool_decide as E; [|by apply (H (me_registrationTails m)); left]. apply (H (delete (cl_worker c) (me_registrationTails m))). by right.
Qed.

(** ** Epochs *)
Definition last_epoch (m : MainEndpoint) (w : jstring) : Z := decimal_value (default (js "0") (me_lastEpochs m !! w)).
Record epochs_ok (m : MainEndpoint) : Prop := {
  eo_last i c e : me_claims m !! i = Some c → epoch_recorded (cl_phase c) = Some e → decimal_value e <= last_epoch m (cl_worker c);
  eo_rise i j c d e f : (i < j)%nat → me_claims m !! i = Some c → me_claims m !! j = Some d → cl_worker c = cl_worker d →
    epoch_recorded (cl_phase c) = Some e → epoch_recorded (cl_phase d) = Some f → decimal_value e < decimal_value f;
}.
Lemma compareWorkerEpoch_later a b c : compareWorkerEpoch a b = Ok c → (c <=? 0) = false → decimal_value b < decimal_value a.
Proof.
  assert (∀ v x, boundedUnsigned64 v = Ok x → x = v) as Hv.
  { intros v x. unfold boundedUnsigned64. destruct (parseSequence _); [|done]. cbn. unfold throw_if. by destruct (_ <? _); intros [= <-]. }
  unfold compareWorkerEpoch. intros H Hc. destruct (boundedUnsigned64 a) as [x|] eqn:Ea; [|done].
  destruct (boundedUnsigned64 b) as [y|] eqn:Eb; [|done]. apply Hv in Ea as ->. apply Hv in Eb as ->.
  cbn in H. repeat case_match; simplify_eq; lia.
Qed.
Lemma recordAllocatedEpoch_rises w e m m' : recordAllocatedEpoch w e m = Ok (Some m') →
  m' = with_lastEpochs (insert w e) m ∧ last_epoch m w < decimal_value e.
Proof.
  unfold recordAllocatedEpoch. destruct (compareWorkerEpoch _ _) as [c|] eqn:E; [|done]. cbn. destruct (c <=? 0) eqn:Ec; [done|].
  intros [= <-]. split; [done|]. unfold last_epoch. by eapply compareWorkerEpoch_later.
Qed.

(** Claims whose epochs are those before. *)
Lemma epochs_same m m' : epochs_ok m → (∀ w, last_epoch m w <= last_epoch m' w) →
  (∀ i c', me_claims m' !! i = Some c' → epoch_recorded (cl_phase c') = None ∨
     ∃ c, me_claims m !! i = Some c ∧ cl_worker c' = cl_worker c ∧ epoch_recorded (cl_phase c') = epoch_recorded (cl_phase c)) → epochs_ok m'.
Proof.
  intros [L R] Hl Hb. split.
  - intros i c' e Hc He. destruct (Hb i c' Hc) as [H|(c & Hc' & Hw & E)]; [congruence|]. rewrite E in He. pose proof (L i c e Hc' He).
    pose proof (Hl (cl_worker c)). rewrite Hw. lia.
  - intros i j c' d' e f Hij Hc Hd Hw He Hf. destruct (Hb i c' Hc) as [H|(c & Hc' & Hcw & E)]; [congruence|].
    destruct (Hb j d' Hd) as [H|(d & Hd' & Hdw & F)]; [congruence|]. rewrite E in He. rewrite F in Hf. apply (R i j c d); congruence.
Qed.
Lemma epochs_moved id cfg s' os m : (∀ r1 r2 rs, registers os ≠ r1 :: r2 :: rs) → epochs_ok m → epochs_ok (session_moved id cfg s' os m).
Proof.
  intros H1 He. eapply epochs_same; [exact He| |].
  - intros w. unfold last_epoch, session_moved.
    pose proof (register_all_fields id (registers os) (with_claims (raced_claims id s') (with_objects (insert id (cfg, s')) m))) as (_ & _ & _ & _ & E & _).
    destruct (closes os); cbn; rewrite E; cbn; lia.
  - intros i c' Hc. apply moved_claim in Hc as [(c & Hc & [Hs Hp])|(r & _ & _ & ->)]; [right|by left|done].
    exists c. split; [done|]. split; [apply Hs|]. destruct Hp as [[-> _]|(_ & -> & -> & _)]; done.
Qed.
Lemma epochs_update m i c f : epochs_ok m → me_claims m !! i = Some c → cl_worker (f c) = cl_worker c →
  epoch_recorded (cl_phase (f c)) = None ∨ epoch_recorded (cl_phase (f c)) = epoch_recorded (cl_phase c) → epochs_ok (update_claim i f m).
Proof.
  intros He Hc Hw Hp. eapply epochs_same; [exact He|done|]. intros j d' (d & Hd & [[-> ->]|[Hn ->]])%update_lookup; [|right; by eauto].
  rewrite Hc in Hd. injection Hd as <-. destruct Hp as [Hp|Hp]; [by left|right; by eauto].
Qed.
(** The epoch of a claim is recorded: those before it are settled, those after it wait. *)
Lemma epochs_recorded m i c r e m' : queue_ok m → epochs_ok m → me_claims m !! i = Some c → cl_phase c = Raced r →
  recordAllocatedEpoch (cl_worker c) e m = Ok (Some m') → epochs_ok (update_claim i (with_phase (Recorded e)) m').
Proof.
  intros [_ _ _ _ S] [L R] Hc Hr [-> Hlt]%recordAllocatedEpoch_rises.
  assert (∀ w, last_epoch m w <= last_epoch (with_lastEpochs (insert (cl_worker c) e) m) w) as Hl.
  { intros w. unfold last_epoch in *. cbn. destruct (decide (w = cl_worker c)) as [->|Hn]; [rewrite lookup_insert_eq; cbn; lia|by rewrite lookup_insert_ne]. }
  assert (last_epoch (with_lastEpochs (insert (cl_worker c) e) m) (cl_worker c) = decimal_value e) as Hnew.
  { unfold last_epoch. cbn. by rewrite lookup_insert_eq. }
  assert (∀ j d', me_claims (update_claim i (with_phase (Recorded e)) (with_lastEpochs (insert (cl_worker c) e) m)) !! j = Some d' →
    j = i ∧ d' = with_phase (Recorded e) c ∨ j ≠ i ∧ me_claims m !! j = Some d') as Hback.
  { intros j d' (d & Hd & [[-> ->]|[Hn ->]])%update_lookup; [left|by right]. cbn in Hd. rewrite Hc in Hd. by injection Hd as <-. }
  split.
  - intros j d' f [[-> ->]|[Hn Hd]]%Hback Hf; [cbn in *; injection Hf as ->; unfold last_epoch in *; cbn in *; lia|].
    pose proof (L j d' f Hd Hf). pose proof (Hl (cl_worker d')). unfold last_epoch in *. cbn in *. lia.
  - intros j k c1 c2 e1 e2 Hjk [[-> ->]|[Hnj Hj]]%Hback [[-> ->]|[Hnk Hk]]%Hback Hw He1 He2; cbn in *; try lia.
    + exfalso. assert (settled (cl_phase c) = true) as Hs; [|by rewrite Hr in Hs].
      eapply (S k c2 i c); [done| |done..]. by intros E; rewrite E in He2.
    + injection He2 as <-. pose proof (L j c1 e1 Hj He1) as Hle. rewrite Hw in Hle. lia.
    + by eapply (R j k c1 c2).
Qed.

(** ** The sessions when a claim changes *)
Lemma sessions_update ex m i c f : sessions_ok ex m → me_claims m !! i = Some c → same_claim c (f c) →
  (cl_phase (f c) = Allocating → object_state m (cl_session c) = Some Authenticating) →
  (∀ r, cl_phase c = Delivered r → cl_phase (f c) = Delivered r) → published (cl_phase (f c)) = published (cl_phase c) →
  sessions_ok ex (update_claim i f m).
Proof.
  intros [O Se C U P R Y B T G] Hc Hs Hal Hdl Hpub.
  assert (∀ j d', me_claims (update_claim i f m) !! j = Some d' → ∃ d, me_claims m !! j = Some d ∧ same_claim d d' ∧
    (cl_phase d' = Allocating → object_state m (cl_session d) = Some Authenticating) ∧ published (cl_phase d') = published (cl_phase d)) as Hback.
  { intros j d' (d & Hd & [[-> ->]|[Hn ->]])%update_lookup; exists d; (split; [done|]).
    - rewrite Hc in Hd. injection Hd as <-. done.
    - split; [by split|]. split; [by eapply R|done]. }
  assert (∀ j d, me_claims m !! j = Some d → ∃ d', me_claims (update_claim i f m) !! j = Some d' ∧ same_claim d d' ∧
    (∀ r, cl_phase d = Delivered r → cl_phase d' = Delivered r) ∧ published (cl_phase d') = published (cl_phase d)) as Hold.
  { intros j d Hd. eexists. split; [by apply lookup_update|]. case_decide as E; [|split_and!; [by split|done..]].
    subst. rewrite Hc in Hd. injection Hd as <-. done. }
  split; try done.
  - intros j d' (d & Hd & [-> -> -> _] & _)%Hback. by eapply C.
  - intros j k d1 d2 (d & Hd & [_ -> _ _] & _)%Hback (e & He & [_ -> _ _] & _)%Hback. by eapply U.
  - intros id x Hx Hv Hp. destruct (P id x Hx Hv Hp) as (j & d & Hd & Hds). destruct (Hold j d Hd) as (d' & Hd' & [_ E _ _] & _).
    exists j, d'. split; [done|congruence].
  - intros j d' (d & Hd & [_ -> _ _] & H & _)%Hback. done.
  - intros id x Hx Hst. destruct (Y id x Hx Hst) as (j & d & Hd & Hds & Hph). destruct (Hold j d Hd) as (d' & Hd' & [_ E _ _] & H & _).
    exists j, d'. split_and!; [done|congruence|by apply H].
  - intros j d' (d & Hd & [-> -> _ _] & _ & ->)%Hback. by apply (B j).
  - intros w id Hw. destruct (T w id Hw) as (Ha & j & d & Hd & Hds & Hdw & Hp & Hr). split; [done|].
    destruct (Hold j d Hd) as (d' & Hd' & [Ew Es Er _] & _ & Ep). exists j, d'. rewrite Ew, Es, Er, Ep. done.
Qed.
