(* ===== verification/EndpointTheorems.v ===== *)
(** * What the main end promises

    A worker has at most one session that is ready, the current one; its
    registrations are served in turn under rising epochs; a closed endpoint has no
    sessions. *)

From S2P Require Import Prelude JsString Collections Regex JsValue Identity Time JsonText Canonical JsonParse Placement Execution Bytes Codec Session SessionSteps SessionLaws SessionExample Endpoint EndpointLaws EndpointQueue.

Open Scope Z_scope.

Section endpoint.
Context (number_text : jsnum → jstring) (sha256 : jstring → jstring) (hmac : jstring → jstring → jstring).
Context (uuid : nat → nat → jstring) (o : WorkerSessionEndpointOptions) (credentials : gmap jstring jstring).
Abbreviation session_event := (session_event number_text sha256 hmac uuid).
Abbreviation main_step := (main_step number_text sha256 hmac uuid o credentials).
Abbreviation main_steps := (main_steps number_text sha256 hmac uuid o credentials).

Record endpoint_ok (except : option nat) (m : MainEndpoint) : Prop := {
  ep_sessions : sessions_ok except m;
  ep_queue : queue_ok m;
  ep_epochs : epochs_ok m;
}.
(** Between the events. *)
Definition main_ok (m : MainEndpoint) : Prop := endpoint_ok None m ∧ (me_closed m = true → me_sessions m = []).

(** ** Events of a session *)
Lemma event_ok ex id env e m : endpoint_ok ex m → (∀ epoch, e = Registered (Ok epoch) → answered_by m id epoch) →
  endpoint_ok ex (session_event id (env, e) m).1 ∧
  (∀ j, alive (session_event id (env, e) m).1 j → alive m j) ∧ me_closed (session_event id (env, e) m).1 = me_closed m.
Proof.
  intros [Hs Hq He] Ht. destruct (me_objects m !! id) as [[cfg s]|] eqn:E; [|unfold Endpoint.session_event; rewrite E; by split_and!].
  pose proof (session_event_moved number_text sha256 hmac uuid id (env, e) m cfg s E) as Ev. cbn zeta in Ev. rewrite Ev. cbn [fst].
  destruct (so_objects _ _ Hs id _ E) as (Hr & Hg & Hv).
  destruct (step_moves number_text sha256 hmac (uuid id) cfg s env e Hr Hg Hv) as [Hm Hg'].
  set (r := step number_text sha256 hmac (uuid id) cfg s (env, e)) in *. split_and!.
  - split; [|by apply queue_moved|by eapply epochs_moved; [eapply one_registration|]].
    by eapply sessions_moved; [..|exact Ht].
  - intros j. rewrite moved_alive by by eexists. intros [[-> H]|[_ H]]; [|done]. exists (cfg, s). split; [done|]. cbn.
    destruct (over s) eqn:Ho; [|done]. destruct (mm_over _ _ _ _ Hm Ho). congruence.
  - unfold session_moved. destruct (closes r.2); cbn;
    by pose proof (register_all_fields id (registers r.2) (with_claims (raced_claims id r.1) (with_objects (insert id (cfg, r.1)) m))) as (_ & _ & _ & _ & _ & ->).
Qed.
Lemma ended_event id env e m : (∀ cfg s, over (step number_text sha256 hmac (uuid id) cfg s (env, e)).1 = true) →
  ¬ alive (session_event id (env, e) m).1 id.
Proof.
  intros Ho (x & Hx & Hv). destruct (me_objects m !! id) as [[cfg s]|] eqn:E; [|unfold Endpoint.session_event in Hx; rewrite E in Hx; cbn in Hx; congruence].
  pose proof (session_event_moved number_text sha256 hmac uuid id (env, e) m cfg s E) as Ev. cbn zeta in Ev. rewrite Ev in Hx. cbn [fst] in Hx.
  rewrite moved_objects, list_lookup_insert_eq in Hx by by eapply lookup_lt_Some. injection Hx as <-. cbn in Hv. by rewrite Ho in Hv.
Qed.
Lemma close_over id cfg s env : over (step number_text sha256 hmac (uuid id) cfg s (env, Close)).1 = true.
Proof.
  unfold step, run. cbn [handler fst snd]. rewrite run_close. cbn [w_session]. destruct (in_state s Closed) eqn:E; cbn; [unfold over; by rewrite E|done].
Qed.
Lemma replace_over id cfg s env : over (step number_text sha256 hmac (uuid id) cfg s (env, Replace)).1 = true.
Proof. unfold step, run. cbn [handler fst snd]. rewrite run_replace. cbn [w_session]. by destruct (over s) eqn:E. Qed.

Lemma except_dead p m : endpoint_ok (Some p) m → ¬ alive m p → endpoint_ok None m.
Proof.
  intros [[O S C U P R Y B T G] Hq He] Hp. split; [|done..]. split; try done. intros i c Hc Hpub Hal.
  destruct (B i c Hc Hpub Hal) as [H|[= ->]]; [by left|done].
Qed.

(** ** Registrations *)
Lemma candidate_ok id m u : assertRegistrationCandidate id m = Ok u →
  me_closed m = false ∧ id ∈ me_sessions m ∧ object_state m id = Some Authenticating.
Proof.
  unfold assertRegistrationCandidate, throw_if. destruct (me_closed m); [done|]. cbn. destruct (negb _ || negb _) eqn:E; [done|]. intros _.
  to_prop. unfold authenticating in *. to_prop. split_and!; [done| |done]. by apply includes_true.
Qed.
Lemma update_ok ex m i c f : endpoint_ok ex m → me_claims m !! i = Some c → advance m c (f c) →
  (cl_phase (f c) = Allocating → object_state m (cl_session c) = Some Authenticating) →
  (∀ r, cl_phase c = Delivered r → cl_phase (f c) = Delivered r) → published (cl_phase (f c)) = published (cl_phase c) →
  epoch_recorded (cl_phase (f c)) = None ∨ epoch_recorded (cl_phase (f c)) = epoch_recorded (cl_phase c) → endpoint_ok ex (update_claim i f m).
Proof.
  intros [Hs Hq He] Hc Ha H1 H2 H3 H4. pose proof (av_same _ _ _ Ha). split.
  - by apply (sessions_update ex m i c f).
  - by apply (queue_update m i f c).
  - apply (epochs_update m i c f); [done|done|by apply sc_worker|done].
Qed.
Lemma claim_start_ok m i : endpoint_ok None m → endpoint_ok None (claim_start i m).
Proof.
  intros Hm. unfold claim_start. destruct (me_claims m !! i) as [c|] eqn:Hc; [|done].
  destruct (bool_decide (cl_phase c = Queued) && _) eqn:E; [|done]. to_prop.
  assert (∀ p, cl_predecessor c = Some p → ∃ d, me_claims m !! p = Some d ∧ settled (cl_phase d) = true) as Hfree.
  { intros p Hp. rewrite Hp in H0. destruct (me_claims m !! p) as [d|]; [by exists d|done]. }
  destruct (assertRegistrationCandidate _ _) as [u|e] eqn:Ea.
  - apply candidate_ok in Ea as (_ & _ & Ha).
    apply (update_ok _ _ _ _ _ Hm Hc); cbn; rewrite ?H; try done; try (by left); by split; cbn; rewrite ?H; try done.
  - apply (update_ok _ _ _ _ _ Hm Hc); cbn; rewrite ?H; try done; try (by left); by split; cbn; rewrite ?H; try done.
Qed.
Lemma allocated_ok m i r : endpoint_ok None m → endpoint_ok None (claim_allocated i r m).
Proof.
  intros Hm. unfold claim_allocated. destruct (me_claims m !! i) as [c|] eqn:Hc; [|done].
  destruct (cl_allocation c); try done. set (x := (epoch ← r; _)). clearbody x.
  apply (update_ok _ _ _ _ _ Hm Hc); case_bool_decide as E; cbn; rewrite ?E; try done.
  - by split; cbn; rewrite ?E; try done.
  - by left.
  - by right.
Qed.
#[local] Arguments recordAllocatedEpoch : simpl never.
Lemma raced_ok m i : endpoint_ok None m → endpoint_ok None (claim_raced i m).
Proof.
  intros Hm. unfold claim_raced. destruct (me_claims m !! i) as [c|] eqn:Hc; [|done].
  destruct (cl_phase c) as [| |r|e|r|r] eqn:E; try done.
  assert (∀ e (b : Claim → bool), endpoint_ok None (update_claim i (λ c, with_late (b c) (with_phase (Claimed (Err e)) c)) m)) as Herr.
  { intros e b. apply (update_ok _ _ _ _ _ Hm Hc); cbn; rewrite ?E; try done; try (by left); by split; cbn; rewrite ?E; try done. }
  destruct r as [epoch|e]; cbn; [|apply (Herr e (λ c, negb (authenticating m (cl_session c))))].
  destruct (recordAllocatedEpoch (cl_worker c) epoch m) as [[m'|]|e] eqn:Er; cbn; try apply (Herr _ (λ c, negb (authenticating m (cl_session c)))).
  pose proof (epochs_recorded m i c _ epoch m' (ep_queue _ _ Hm) (ep_epochs _ _ Hm) Hc E Er) as Hep.
  apply recordAllocatedEpoch_rises in Er as [-> _].
  set (m1 := with_lastEpochs (insert (cl_worker c) epoch) m) in *.
  assert (sessions_ok None m1) as H1 by (by destruct Hm as [[] _ _]).
  assert (queue_ok m1) as H2 by by apply (queue_same m), Hm.
  assert (me_claims m1 !! i = Some c) as H3 by done.
  split; [apply (sessions_update _ _ _ _ _ H1 H3)|apply (queue_update _ _ _ _ H2 H3)|done]; cbn; rewrite ?E; try done.
  by split; cbn; rewrite ?E; try done.
Qed.
Lemma late_ok m i : endpoint_ok None m → endpoint_ok None (claim_late i m).
Proof.
  intros Hm. unfold claim_late. destruct (me_claims m !! i) as [c|] eqn:Hc; [|done].
  destruct (cl_late c); [|done]. destruct (cl_allocation c) as [| |r]; try done.
  assert (endpoint_ok None (update_claim i (with_late false) m)) as H1.
  { apply (update_ok _ _ _ _ _ Hm Hc); cbn; try done; [exact (so_racing _ _ (ep_sessions _ _ Hm) i c Hc)|by right]. }
  set (m1 := update_claim i (with_late false) m) in *. clearbody m1.
  destruct (epoch ← r; _) as [[m'|]|e] eqn:E; try done. destruct r as [epoch|]; [|done]. cbn in E.
  apply recordAllocatedEpoch_rises in E as [-> Hl]. destruct H1 as [Hs Hq He]. split; [by destruct Hs|by apply (queue_same m1)|].
  eapply epochs_same; [exact He| |intros j c' H; right; by exists c'].
  intros w. unfold last_epoch in *. cbn. destruct (decide (w = cl_worker c)) as [->|Hn]; [rewrite lookup_insert_eq; cbn; lia|by rewrite lookup_insert_ne].
Qed.

Lemma sessions_publish m i c epoch : sessions_ok None m → me_claims m !! i = Some c → cl_phase c = Recorded epoch → alive m (cl_session c) →
  sessions_ok (me_current m !! cl_worker c)
    (with_current (insert (cl_worker c) (cl_session c)) (insert (cl_worker c) (cl_registration c))
       (update_claim i (with_phase (Claimed (Ok epoch))) m)).
Proof.
  intros [O S C U P R Y B T G] Hc Hr Ha. set (m' := with_current _ _ _).
  assert (∀ j d', me_claims m' !! j = Some d' → ∃ d, me_claims m !! j = Some d ∧ same_claim d d' ∧ cl_phase d' ≠ Allocating ∨
     me_claims m !! j = Some d' ∧ j ≠ i) as Hback.
  { intros j d' (d & Hd & [[-> ->]|[Hn ->]])%update_lookup; exists d; [left|by right]. by split_and!; [|split|]. }
  assert (∀ j d', me_claims m' !! j = Some d' → ∃ d, me_claims m !! j = Some d ∧ same_claim d d') as Hback2.
  { intros j d' [d [(?&?&_)|[? _]]]%Hback; [by exists d|exists d'; split; [done|by split]]. }
  assert (∀ j d, me_claims m !! j = Some d → ∃ d', me_claims m' !! j = Some d' ∧ same_claim d d' ∧
    (published (cl_phase d) = true → d' = d)) as Hold.
  { intros j d Hd. eexists. split; [by apply lookup_update|]. case_decide; [subst|split; [by split|done]].
    rewrite Hc in Hd. injection Hd as <-. rewrite Hr. by split; [split|]. }
  split; try done.
  - intros j d' (d & Hd & [-> -> -> _])%Hback2. by eapply C.
  - intros j k d1 d2 (d & Hd & [_ -> _ _])%Hback2 (e & He & [_ -> _ _])%Hback2. by eapply U.
  - intros id x Hx Hv Hp. destruct (P id x Hx Hv Hp) as (j & d & Hd & Hds). destruct (Hold j d Hd) as (d' & Hd' & [_ E _ _] & _).
    exists j, d'. split; [done|congruence].
  - intros j d' [d [(_ & _ & Hn)|[Hd _]]]%Hback Hp; [done|]. by eapply R.
  - intros id x Hx Hst. destruct (Y id x Hx Hst) as (j & d & Hd & Hds & Hph). destruct (Hold j d Hd) as (d' & Hd' & _ & E).
    rewrite Hph in E. rewrite (E eq_refl) in Hd'. by exists j, d.
  - intros j d' Hd Hp Hal. cbn. destruct (Hback j d' Hd) as [d [(Hd0 & _)|[Hd0 Hn]]].
    + apply update_lookup in Hd as (d2 & Hd2 & [[-> ->]|[Hn ->]]).
      * rewrite Hc in Hd2. injection Hd2 as <-. left. by rewrite lookup_insert_eq.
      * destruct (decide (cl_worker d2 = cl_worker c)) as [E|E]; [right|left; rewrite lookup_insert_ne by done];
          destruct (B j d2 Hd2 Hp Hal) as [H|]; congruence.
    + destruct (decide (cl_worker d' = cl_worker c)) as [E|E]; [right|left; rewrite lookup_insert_ne by done];
        destruct (B j d' Hd0 Hp Hal) as [H|]; congruence.
  - intros w id. cbn. intros [[<- <-]|[Hn Hw]]%lookup_insert_Some.
    + split; [done|]. exists i, (with_phase (Claimed (Ok epoch)) c). rewrite lookup_insert_eq. split_and!; try done.
      rewrite list_lookup_alter_eq, Hc. done.
    + destruct (T w id Hw) as (Hal & j & d & Hd & Hds & Hdw & Hp & Hreg). split; [done|]. exists j, d.
      destruct (Hold j d Hd) as (d' & Hd' & _ & E). rewrite (E Hp) in Hd'. rewrite lookup_insert_ne by done. by split_and!.
  - intros w. cbn. destruct (decide (w = cl_worker c)) as [->|Hn]; [intros _; rewrite lookup_insert_eq; by eexists|rewrite !lookup_insert_ne by done; apply G].
Qed.
Lemma publish_ok m i env r : endpoint_ok None m →
  endpoint_ok None (claim_publish number_text sha256 hmac uuid i env r m).1 ∧
  (∀ j, alive (claim_publish number_text sha256 hmac uuid i env r m).1 j → alive m j) ∧
  me_closed (claim_publish number_text sha256 hmac uuid i env r m).1 = me_closed m.
Proof.
  intros Hm. unfold claim_publish. destruct (me_claims m !! i) as [c|] eqn:Hc; [|by split_and!].
  destruct (cl_phase c) as [| |x|epoch|x|x] eqn:E; try by split_and!.
  destruct (assertRegistrationCandidate (cl_session c) m) as [u|e] eqn:Ea; cbn.
  2: { split_and!; [|done..]. by apply (update_ok _ _ _ _ _ Hm Hc); cbn; rewrite ?E; try done; try (by left); split; cbn; rewrite ?E. }
  destruct r as [[]|e].
  2: { split_and!; [|done..]. by apply (update_ok _ _ _ _ _ Hm Hc); cbn; rewrite ?E; try done; try (by left); split; cbn; rewrite ?E. }
  apply candidate_ok in Ea as (_ & Hin & _). destruct Hm as [Hs Hq He].
  assert (alive m (cl_session c)) as Ha by by apply Hs.
  set (m1 := with_current _ _ _).
  assert (endpoint_ok (me_current m !! cl_worker c) m1) as H1.
  { split; [by apply sessions_publish| |].
    - apply (queue_same (update_claim i (with_phase (Claimed (Ok epoch))) m)); [done..|].
      apply (queue_update m i _ c); [done..|]. by split; cbn; rewrite ?E; try done; split.
    - eapply (epochs_same (update_claim i (with_phase (Claimed (Ok epoch))) m)); [|done|intros j c' H; right; by exists c'].
      apply (epochs_update m i c); [done..|]. right. by rewrite E. }
  destruct (me_current m !! cl_worker c) as [p|]; [|by split_and!].
  destruct (event_ok (Some p) p env Replace m1 H1 ltac:(done)) as (H2 & H3 & H4).
  destruct (Endpoint.session_event _ _ _ _ p (env, Replace) m1) as [m2 out] eqn:Em. cbn in *. split_and!; [|by apply H3|done].
  eapply except_dead; [exact H2|]. replace m2 with (session_event p (env, Replace) m1).1 by by rewrite Em.
  apply ended_event. intros cfg s. apply replace_over.
Qed.
Lemma delivered_ok m i env : endpoint_ok None m →
  endpoint_ok None (claim_delivered number_text sha256 hmac uuid i env m).1 ∧
  (∀ j, alive (claim_delivered number_text sha256 hmac uuid i env m).1 j → alive m j) ∧
  me_closed (claim_delivered number_text sha256 hmac uuid i env m).1 = me_closed m.
Proof.
  intros Hm. unfold claim_delivered. destruct (me_claims m !! i) as [c|] eqn:Hc; [|by split_and!].
  destruct (cl_phase c) as [| |x|epoch|r|x] eqn:E; try by split_and!. destruct Hm as [Hs Hq He].
  set (m1 := update_claim i (with_phase (Delivered r)) m). set (m2 := if bool_decide _ then _ else m1).
  assert (me_claims m2 = me_claims m1 ∧ me_objects m2 = me_objects m1 ∧ me_closed m2 = me_closed m1) as (F1 & F2 & F3) by (unfold m2; by case_match).
  assert (endpoint_ok None m2) as H2.
  { assert (sessions_ok None m1) as Hs1.
    { apply (sessions_update None m i c); [done|done|by split|done|by rewrite E|]. cbn. by rewrite E; destruct r. }
    split.
    - unfold m2. case_match; [by destruct Hs1|done].
    - by apply (queue_delivered m i c r).
    - assert (epochs_ok m1) by (apply (epochs_update m i c); [done..|]; right; cbn; by rewrite E; destruct r).
      unfold m2. case_match; [|done]. eapply (epochs_same m1); [done|done|intros j c' Hx; right; by exists c']. }
  destruct (event_ok None (cl_session c) env (Registered r) m2 H2) as (H3 & H4 & H5).
  { intros epoch [= ->]. exists i, (with_phase (Delivered (Ok epoch)) c). rewrite F1. split_and!; [|done..].
    unfold m1. by rewrite (lookup_update _ _ _ _ _ Hc), decide_True. }
  destruct (Endpoint.session_event _ _ _ _ _ _ m2) as [m3 out]. cbn in *. split_and!; [done| |congruence].
  intros j Hj. apply H4 in Hj. unfold alive in *. by rewrite F2 in Hj.
Qed.

(** ** Attaching and closing *)
Lemma createSession_role u so codec nonce x : createSession u so codec nonce = Ok x → c_role x.1 = so_role so.
Proof. unfold createSession. intros H. repeat match type of H with _ ≫= _ = _ => let H' := fresh in apply bind_ok in H as (? & _ & H'); rename H' into H end. by injection H as <-. Qed.
#[local] Arguments createSession : simpl never.
Lemma attach_ok nonce m m' : endpoint_ok None m → attach uuid o credentials nonce m = Ok m' → endpoint_ok None m' ∧ me_closed m' = false.
Proof.
  intros [[O S C U P R Y B T G] Hq He]. unfold attach. unfold throw_if. destruct (me_closed m) eqn:Ec; [done|]. cbn.
  destruct (createSession _ _ _ _) as [x|] eqn:Ex; [|done]. cbn. intros [= <-]. split; [|done].
  pose proof (createSession_role _ _ _ _ _ Ex) as Hrole. destruct x as [cfg s]. apply createSession_fresh in Ex as Hf.
  pose proof (fresh_vital _ Hf) as Hv. assert (over s = false) as Ho by by apply li_over, fresh_live.
  set (n := length (me_objects m)). set (m' := with_sessions _ _).
  assert (∀ id, me_objects m' !! id = if decide (id = n) then Some (cfg, s) else me_objects m !! id) as Hobj.
  { intros id. cbn. case_decide; [subst; unfold n; by rewrite lookup_app_r, Nat.sub_diag by lia|].
    destruct (decide (id < n)%nat) as [Hl|Hl]; [by rewrite lookup_app_l|]. rewrite !lookup_ge_None_2; [done|unfold n in *; lia|].
    rewrite length_app. cbn. unfold n in *. lia. }
  assert (∀ id x, me_objects m !! id = Some x → me_objects m' !! id = Some x ∧ id ≠ n) as Hold.
  { intros id x H. pose proof (lookup_lt_Some _ _ _ H). rewrite Hobj, decide_False by (unfold n; lia). split; [done|unfold n; lia]. }
  assert (∀ id, alive m' id ↔ id = n ∨ alive m id) as Hal.
  { intros id. unfold alive. rewrite Hobj. case_decide as E; [|naive_solver]. split; [by left|]. intros _. by exists (cfg, s). }
  split; [|by apply (queue_same m)|by eapply (epochs_same m); [done|done|intros j c' H; right; by exists c']].
  split.
  - intros id x. rewrite Hobj. case_decide; [|apply O]. intros [= <-]. by split_and!; [|apply fresh_grounded|].
  - intros id. rewrite Hal. cbn. rewrite elem_of_app, S, list_elem_of_singleton. naive_solver.
  - intros i c Hc. destruct (C i c Hc) as (H1 & x & H2 & H3). split; [done|]. exists x. split; [by apply Hold|done].
  - done.
  - intros id x. rewrite Hobj. case_decide; [|apply P]. intros [= <-] _ Hpe. cbn in Hpe. by rewrite (fs_pending _ Hf) in Hpe.
  - intros i c Hc Hp. pose proof (R i c Hc Hp) as H. unfold object_state in *. destruct (me_objects m !! cl_session c) eqn:E; [|done].
    by rewrite (proj1 (Hold _ _ E)).
  - intros id x. rewrite Hobj. case_decide; [|apply Y]. intros [= <-] Hst. unfold state in Hst. cbn in Hst. by rewrite (fs_life _ Hf) in Hst.
  - intros i c Hc Hp [H|H]%Hal; [|by apply (B i)]. destruct (C i c Hc) as (_ & x & H2 & _). by apply Hold in H2 as [_ ?].
  - intros w id Hw. destruct (T w id Hw) as [H1 H2]. split; [apply Hal; by right|done].
  - done.
Qed.

Lemma close_sessions_ok ids env m : endpoint_ok None m →
  endpoint_ok None (close_sessions number_text sha256 hmac uuid ids env m).1 ∧
  (∀ j, alive (close_sessions number_text sha256 hmac uuid ids env m).1 j → alive m j ∧ j ∉ ids).
Proof.
  revert m. induction ids as [|id ids IH]; intros m Hm; [split; [done|]; intros j H; split; [done|apply not_elem_of_nil]|].
  cbn [close_sessions]. destruct (event_ok None id env Close m Hm ltac:(done)) as (H1 & H2 & _).
  pose proof (ended_event id env Close m (λ cfg s, close_over id cfg s env)) as H3.
  destruct (Endpoint.session_event _ _ _ _ id (env, Close) m) as [m1 o1]. cbn in *.
  destruct (IH m1 H1) as [H4 H5]. destruct (close_sessions _ _ _ _ ids env m1) as [m2 o2]. cbn in *. split; [done|].
  intros j [Hj Hn]%H5. split; [by apply H2|]. intros [->|?]%elem_of_cons; done.
Qed.
Lemma no_sessions m : sessions_ok None m → (∀ j, ¬ alive m j) → me_sessions m = [].
Proof.
  intros Hs H. destruct (me_sessions m) as [|j l] eqn:E; [done|]. exfalso. apply (H j), (so_sessions _ _ Hs). rewrite E. by left.
Qed.
Lemma closed_empty m : endpoint_ok None m → me_sessions m = [] → me_current m = ∅ ∧ me_registrations m = ∅ ∧ ∀ j, ¬ alive m j.
Proof.
  intros [Hs _ _] He. assert (∀ j, ¬ alive m j) as Ha. { intros j Hj. apply (so_sessions _ _ Hs) in Hj. rewrite He in Hj. by apply elem_of_nil in Hj. }
  assert (me_current m = ∅) as Hc. { apply map_empty. intros w. apply eq_None_not_Some. intros [id Hid]. by destruct (so_current _ _ Hs w id Hid) as [H _]; apply Ha in H. }
  split_and!; [done| |done]. apply map_empty. intros w. apply eq_None_not_Some. intros H%(so_registrations _ _ Hs). rewrite Hc in H. by destruct H.
Qed.

(** ** Every event *)
Lemma stays_ok m m' : main_ok m → endpoint_ok None m' → (∀ j, alive m' j → alive m j) → me_closed m' = me_closed m → main_ok m'.
Proof.
  intros [Hm Hc] H1 H2 H3. split; [done|]. rewrite H3. intros H. apply no_sessions; [apply H1|]. intros j Hj.
  by eapply (proj2 (proj2 (closed_empty m Hm (Hc H)))), H2.
Qed.
Lemma claim_fields m f : me_objects (f m) = me_objects m ∧ me_closed (f m) = me_closed m → main_ok m → endpoint_ok None (f m) → main_ok (f m).
Proof. intros [H1 H2] Hm He. apply (stays_ok m); [done..| |done]. unfold alive. by rewrite H1. Qed.

Lemma main_step_ok m e : main_ok m → main_ok (main_step m e).1.
Proof.
  intros Hm. pose proof Hm as [He Hc]. destruct e as [nonce|id env e|i|i r|i|i|i env r|i env|env|]; cbn [Endpoint.main_step fst].
  - destruct (attach _ _ _ _ _) as [m'|] eqn:E; [|done]. apply attach_ok in E as [H1 H2]; [|done]. split; [done|congruence].
  - destruct (from_owner e) eqn:Eo; [|done]. destruct (event_ok None id env e m He) as (H1 & H2 & H3); [by intros epoch ->|].
    destruct (Endpoint.session_event _ _ _ _ _ _ _) as [m' out]. cbn in *. by apply (stays_ok m).
  - apply claim_fields; [|done|by apply claim_start_ok]. unfold claim_start. repeat case_match; done.
  - apply claim_fields; [|done|by apply allocated_ok]. unfold claim_allocated. repeat case_match; done.
  - apply claim_fields; [|done|by apply raced_ok]. unfold claim_raced. destruct (me_claims m !! i); [|done]. destruct (cl_phase c); try done.
    destruct r as [epoch|e]; cbn; [|done]. destruct (recordAllocatedEpoch _ _ _) as [[m'|]|] eqn:E; try done. by apply recordAllocatedEpoch_rises in E as [-> _].
  - apply claim_fields; [|done|by apply late_ok]. unfold claim_late. destruct (me_claims m !! i); [|done]. destruct (cl_late c); [|done].
    destruct (cl_allocation c) as [| |[epoch|e]]; try done. cbn. destruct (recordAllocatedEpoch _ _ _) as [[m'|]|] eqn:E; try done.
    by apply recordAllocatedEpoch_rises in E as [-> _].
  - destruct (publish_ok m i env r He) as (H1 & H2 & H3). by apply (stays_ok m).
  - destruct (delivered_ok m i env He) as (H1 & H2 & H3). by apply (stays_ok m).
  - unfold close_begin. destruct (me_closed m) eqn:E; [done|].
    assert (endpoint_ok None (with_closed m)) as H0.
    { destruct He as [[] Hq Hep]. split; [by split|by apply (queue_same m)|by eapply (epochs_same m); [done|done|intros j c' H; right; by exists c']]. }
    destruct (close_sessions_ok (me_sessions m) env (with_closed m) H0) as [H1 H2]. split; [done|]. intros _. apply no_sessions; [apply H1|].
    intros j [Hj Hn]%H2. apply Hn. by apply (so_sessions _ _ (ep_sessions _ _ He)).
  - unfold close_end. destruct (me_closed m) eqn:E; [|done]. destruct (closed_empty m He (Hc eq_refl)) as (H1 & H2 & H3).
    replace (with_current _ _ _) with m; [done|]. destruct m; cbn in *. rewrite H1, H2, (Hc eq_refl). done.
Qed.
Lemma main_steps_ok m es : main_ok m → main_ok (main_steps m es).1.
Proof.
  revert m. induction es as [|e es IH]; intros m Hm; [done|]. cbn [Endpoint.main_steps]. apply (main_step_ok m e) in Hm.
  destruct (Endpoint.main_step _ _ _ _ _ _ m e) as [m1 o1]. cbn [fst] in Hm. apply IH in Hm.
  by destruct (Endpoint.main_steps _ _ _ _ _ _ m1 es).
Qed.
End endpoint.

(** ** Properties *)
Lemma created_ok opts credentials m : createMainEndpoint opts = Ok (credentials, m) → main_ok m.
Proof.
  unfold createMainEndpoint. destruct (endpointCredentials opts); [|done]. cbn. intros [= _ <-]. split; [|done].
  assert (∀ id (x : SessionObject), ([] : list SessionObject) !! id = Some x → False) as Hn by done. split.
  - split; cbn; try done.
    + intros id. split; [by intros ?%elem_of_nil|by intros (x & ? & _)].
    + intros w. rewrite !lookup_empty. by intros [? ?].
  - split; cbn; done.
  - by split.
Qed.

Section properties.
Context (number_text : jsnum → jstring) (sha256 : jstring → jstring) (hmac : jstring → jstring → jstring) (uuid : nat → nat → jstring).
Abbreviation steps_of opts credentials := (Endpoint.main_steps number_text sha256 hmac uuid (mo_session opts) credentials).

(** C10. However sockets, timers, the allocator and the calls of the owner
    interleave, a session that is ready is the current one of the worker it has
    authenticated, with the registration of that worker, so no worker has two; the
    endpoint keeps exactly the sessions that are not over, and none once it is closed. *)
Theorem one_ready_session opts credentials m0 es :
  createMainEndpoint opts = Ok (credentials, m0) →
  let m := (steps_of opts credentials m0 es).1 in
  (∀ id cfg s, me_objects m !! id = Some (cfg, s) → state s = Ready →
    ∃ w r, principal s = Some w ∧ me_current m !! w = Some id ∧ me_registrations m !! w = Some r ∧ wr_workerId r = w) ∧
  (∀ id1 id2 x1 x2, me_objects m !! id1 = Some x1 → me_objects m !! id2 = Some x2 → state x1.2 = Ready → state x2.2 = Ready →
    principal x1.2 = principal x2.2 → id1 = id2) ∧
  (∀ id, id ∈ me_sessions m ↔ ∃ x, me_objects m !! id = Some x ∧ over x.2 = false) ∧
  (me_closed m = true → me_sessions m = [] ∧ me_current m = ∅ ∧ me_registrations m = ∅).
Proof.
  intros Hc m. destruct (main_steps_ok number_text sha256 hmac uuid (mo_session opts) credentials m0 es (created_ok _ _ _ Hc)) as [Hm Hcl].
  fold m in Hm, Hcl. pose proof (ep_sessions _ _ Hm) as Hs.
  assert (∀ id x, me_objects m !! id = Some x → state x.2 = Ready →
    ∃ w r, principal x.2 = Some w ∧ me_current m !! w = Some id ∧ me_registrations m !! w = Some r ∧ wr_workerId r = w) as Hr.
  { intros id x Hx Hst. destruct (so_ready _ _ Hs id x Hx Hst) as (i & c & Hc' & <- & Hp).
    destruct (so_claims _ _ Hs i c Hc') as [Hw (x' & Hx' & Hpr)]. rewrite Hx in Hx'. injection Hx' as <-.
    pose proof (over_ready _ Hst) as Ho. destruct (Hpr Ho) as [_ Hprin].
    destruct (so_published _ _ Hs i c Hc') as [Hcur|?]; [by rewrite Hp|by exists x| |done].
    destruct (so_current _ _ Hs _ _ Hcur) as (_ & j & d & Hd & Hds & _ & _ & Hreg).
    assert (i = j) as <- by by eapply (so_unique _ _ Hs). rewrite Hc' in Hd. injection Hd as <-. exists (cl_worker c), (cl_registration c). done. }
  split_and!.
  - intros id cfg s. apply (Hr id (cfg, s)).
  - intros id1 id2 x1 x2 H1 H2 R1 R2 Hp. destruct (Hr _ _ H1 R1) as (w1 & _ & P1 & C1 & _), (Hr _ _ H2 R2) as (w2 & _ & P2 & C2 & _). congruence.
  - apply Hs.
  - intros H. pose proof (Hcl H) as He. destruct (closed_empty m Hm He) as (? & ? & _). done.
Qed.

(** C11. The registrations of a worker are served one at a time in the order they
    came, and each that succeeds has a later epoch than all before it, whatever the
    allocator returns and however late; the epoch of a ready session is the one its
    registration was given. No registration waits for the allocator once its session
    has left the handshake, and the queue keeps none that is done. *)
Theorem registrations_in_order opts credentials m0 es :
  createMainEndpoint opts = Ok (credentials, m0) →
  let m := (steps_of opts credentials m0 es).1 in
  (∀ i j c d, (i < j)%nat → me_claims m !! i = Some c → me_claims m !! j = Some d → cl_worker c = cl_worker d →
    (cl_phase d ≠ Queued → settled (cl_phase c) = true) ∧
    ∀ e f, epoch_recorded (cl_phase c) = Some e → epoch_recorded (cl_phase d) = Some f → decimal_value e < decimal_value f) ∧
  (∀ id x, me_objects m !! id = Some x → state x.2 = Ready →
    ∃ i c, me_claims m !! i = Some c ∧ cl_session c = id ∧ cl_phase c = Delivered (Ok (epoch_of x.2))) ∧
  (∀ i c, me_claims m !! i = Some c → cl_phase c = Allocating → object_state m (cl_session c) = Some Authenticating) ∧
  (∀ w i c r, me_registrationTails m !! w = Some i → me_claims m !! i = Some c → cl_phase c ≠ Delivered r).
Proof.
  intros Hc m. destruct (main_steps_ok number_text sha256 hmac uuid (mo_session opts) credentials m0 es (created_ok _ _ _ Hc)) as [[Hs Hq He] _].
  fold m in Hs, Hq, He. split_and!.
  - intros i j c d Hij Hi Hj Hw. split; [intros Hp; by eapply (qo_started _ Hq j d i c)|]. intros e f. by eapply (eo_rise _ He i j).
  - apply Hs.
  - apply Hs.
  - intros w i c r Hw Hi. destruct (qo_tail _ Hq w i Hw) as ((c' & Hc' & _ & Hn) & _). rewrite Hi in Hc'. injection Hc' as <-. apply Hn.
Qed.
End properties.

(** ** Two connections of one worker *)
Section example.
Definition endpoint_options : MainEndpointOptions := {|
  mo_session := {| eo_protocol := None;
    eo_codec := createWorkerCodec plain_number plain_read (λ _, true) {| o_maxFrameBytes := None; o_maxBinaryBytes := None; o_maxBinaryChunks := None;
      o_maxPendingCorrelations := None; o_maxInflightMessages := None; o_maxSequenceGap := None; o_replayRetention := None |} (VStr (js "1.0"));
    eo_heartbeatIntervalMs := None; eo_heartbeatTimeoutMs := None; eo_handshakeTimeoutMs := None; eo_requestTimeoutMs := None |};
  mo_credential := Some (js "secret"); mo_workerId := Some (js "w1"); mo_credentials := [] |}.
Lemma endpoint_created : is_ok (createMainEndpoint endpoint_options) = true.
Proof. vm_compute. reflexivity. Defined.
Definition endpoint_credentials := (value_of _ endpoint_created).1.
Definition endpoint_start := (value_of _ endpoint_created).2.
Lemma createMainEndpoint_example : createMainEndpoint endpoint_options = Ok (endpoint_credentials, endpoint_start).
Proof. unfold endpoint_credentials, endpoint_start. rewrite <- surjective_pairing. apply value_of_ok. Qed.

Definition connection (id : nat) : list MainEvent :=
  Attach main_nonce :: map (λ e, Endpoint.Session id e.1 e.2) (removelast main_events2).
Definition claimed (i : nat) (epoch : jstring) : list MainEvent :=
  [ClaimStart i; ClaimAllocated i (Ok epoch); ClaimRaced i; ClaimPublish i example_env (Ok tt); ClaimDelivered i example_env].
Abbreviation run_endpoint := (Endpoint.main_steps plain_number example_hash example_hmac (λ _, main_ids) (mo_session endpoint_options) endpoint_credentials).
Definition two_connections : list MainEvent := connection 0 ++ connection 1 ++ claimed 0 (js "7") ++ claimed 1 (js "9").
Definition endpoint_end := (run_endpoint endpoint_start two_connections).1.
Example second_connection_replaces : map (λ x : SessionObject, (state x.2, epoch_of x.2)) (me_objects endpoint_end) =
  [(Unavailable, js "7"); (Ready, js "9")] ∧ map_to_list (me_current endpoint_end) = [(js "w1", 1%nat)] ∧ me_sessions endpoint_end = [1%nat].
Proof. vm_compute. done. Qed.
(** An epoch that is not later is refused, and the session fails. *)
Example stale_epoch_refused :
  map (λ x : SessionObject, state x.2) (me_objects (run_endpoint endpoint_start (connection 0 ++ connection 1 ++ claimed 0 (js "7") ++ claimed 1 (js "7"))).1) =
  [Ready; Closed].
Proof. vm_compute. done. Qed.

Lemma one_ready_session_witness : ∃ cfg s, me_objects endpoint_end !! 1%nat = Some (cfg, s) ∧ state s = Ready ∧
  ∃ w r, principal s = Some w ∧ me_current endpoint_end !! w = Some 1%nat ∧ me_registrations endpoint_end !! w = Some r ∧ wr_workerId r = w.
Proof.
  assert ((λ y : SessionObject, state y.2) <$> me_objects endpoint_end !! 1%nat = Some Ready) as E by (vm_compute; reflexivity).
  apply fmap_Some in E as ([cfg s] & E & Hs). cbn in Hs. symmetry in Hs.
  exists cfg, s. split; [done|split; [done|]].
  destruct (one_ready_session plain_number example_hash example_hmac (λ _, main_ids) endpoint_options endpoint_credentials endpoint_start
    two_connections createMainEndpoint_example) as (H & _). exact (H 1%nat cfg s E Hs).
Defined.
Lemma registrations_in_order_witness : ∃ c d, me_claims endpoint_end !! 0%nat = Some c ∧ me_claims endpoint_end !! 1%nat = Some d ∧
  decimal_value (js "7") < decimal_value (js "9") ∧ settled (cl_phase c) = true.
Proof.
  assert ((λ c, (cl_phase c, cl_worker c)) <$> me_claims endpoint_end !! 0%nat = Some (Delivered (Ok (js "7")), js "w1")) as E0 by (vm_compute; reflexivity).
  assert ((λ c, (cl_phase c, cl_worker c)) <$> me_claims endpoint_end !! 1%nat = Some (Delivered (Ok (js "9")), js "w1")) as E1 by (vm_compute; reflexivity).
  apply fmap_Some in E0 as (c & E0 & [= P0 W0]). apply fmap_Some in E1 as (d & E1 & [= P1 W1]).
  exists c, d. split; [done|split; [done|]].
  destruct (registrations_in_order plain_number example_hash example_hmac (λ _, main_ids) endpoint_options endpoint_credentials endpoint_start
    two_connections createMainEndpoint_example) as (H & _).
  destruct (H 0%nat 1%nat c d ltac:(lia) E0 E1) as [H1 H2].
  { by rewrite <- W0, <- W1. }
  split; [apply H2; [by rewrite <- P0|by rewrite <- P1]|apply H1; by rewrite <- P1].
Defined.
End example.
