(* ===== verification/Leadership.v ===== *)
(** * Leadership

    runtime/src/leadership-controller.ts. The loop of the controller awaits one
    promise at a time; a state says which, and an event is the answer with the code
    up to the next await. A race keeps what settled first until the loop goes on. *)

From S2P Require Import Prelude JsString Collections Regex JsValue Identity JsonText.

Open Scope Z_scope.

Definition initialRetryDelayMs : Z := 100.
Definition maximumRetryDelayMs : Z := 1000.

(** ** Leaderships *)
Record Leadership := { le_resource : jstring; le_epoch : jstring }.
#[export] Instance leadership_eq : EqDecision Leadership.
Proof. solve_decision. Defined.
(** What a coordination provider hands out: its identity, and the value of its
    field [leadership]. *)
Record LeadershipHandle := { lh_id : nat; lh_leadership : json }.

(** [parseLeadership] (contracts/src/schema.ts). *)
Definition parseLeadership (input : json) : result exn Leadership :=
  match input with
  | JObj fields =>
      match JsMap.get fields (js "resource"), JsMap.get fields (js "epoch") with
      | Some (JStr resource), Some (JStr epoch) =>
          if forallb (λ f, includes [js "resource"; js "epoch"] f.1) fields && negb (bool_decide (resource = [])) && re_test DECIMAL_PATTERN epoch
          then Ok {| le_resource := resource; le_epoch := epoch |}
          else Err (DiagnosticError "COORDINATION_LEADERSHIP_INVALID")
      | _, _ => Err (DiagnosticError "COORDINATION_LEADERSHIP_INVALID")
      end
  | _ => Err (DiagnosticError "COORDINATION_LEADERSHIP_INVALID")
  end.
Definition validateLeadership (resource : jstring) (handle : LeadershipHandle) : result exn Leadership :=
  leadership ← parseLeadership (lh_leadership handle);
  throw_if (negb (streq (le_resource leadership) resource)) (DiagnosticError "COORDINATION_LEADERSHIP_RESOURCE_MISMATCH");;
  Ok leadership.

(** ** State *)
Inductive CampaignOutcome := Acquired (handle : LeadershipHandle) | Failed (error : exn) | Stopped.
Inductive LossOutcome := Lost | LossStopped.
(** What follows when a leadership was given up. *)
Inductive Afterwards := ToStop | ToBackoff.

Inductive Phase :=
| Created                                             (** no loop yet *)
| Campaigning (settled : option CampaignOutcome)      (** the race for a leadership *)
| ReleasingInvalid (handle : LeadershipHandle)
| Acquiring (handle : LeadershipHandle) (leadership : Leadership)              (** [onAcquired] *)
| Holding (handle : LeadershipHandle) (leadership : Leadership) (settled : option LossOutcome)
| Deactivating (handle : LeadershipHandle) (leadership : Leadership) (after : Afterwards)  (** [onLost], then [release] *)
| Releasing (handle : LeadershipHandle) (after : Afterwards) (failed : bool)
| Notifying (leadership : Leadership)                 (** [onLost] of a leadership that is gone *)
| Backoff
| Ended (error : option exn).

Record Controller := {
  lc_phase : Phase;
  lc_running : bool;
  lc_retryDelayMs : Z;
  lc_firstAuthority : option (result exn unit);
  (** The promise of the last campaign, if it has settled. *)
  lc_campaign : option (result exn LeadershipHandle);
  (** The loop has gone, and the handle is to be released when it comes. *)
  lc_late : bool;
}.
Definition createController : Controller := {|
  lc_phase := Created; lc_running := false; lc_retryDelayMs := initialRetryDelayMs; lc_firstAuthority := None;
  lc_campaign := None; lc_late := false |}.

Definition with_phase (p : Phase) (c : Controller) : Controller := {|
  lc_phase := p; lc_running := lc_running c; lc_retryDelayMs := lc_retryDelayMs c; lc_firstAuthority := lc_firstAuthority c;
  lc_campaign := lc_campaign c; lc_late := lc_late c |}.
Definition with_running (b : bool) (c : Controller) : Controller := {|
  lc_phase := lc_phase c; lc_running := b; lc_retryDelayMs := lc_retryDelayMs c; lc_firstAuthority := lc_firstAuthority c;
  lc_campaign := lc_campaign c; lc_late := lc_late c |}.
Definition with_delay (d : Z) (c : Controller) : Controller := {|
  lc_phase := lc_phase c; lc_running := lc_running c; lc_retryDelayMs := d; lc_firstAuthority := lc_firstAuthority c;
  lc_campaign := lc_campaign c; lc_late := lc_late c |}.
Definition with_campaign (r : option (result exn LeadershipHandle)) (c : Controller) : Controller := {|
  lc_phase := lc_phase c; lc_running := lc_running c; lc_retryDelayMs := lc_retryDelayMs c; lc_firstAuthority := lc_firstAuthority c;
  lc_campaign := r; lc_late := lc_late c |}.
Definition with_late (b : bool) (c : Controller) : Controller := {|
  lc_phase := lc_phase c; lc_running := lc_running c; lc_retryDelayMs := lc_retryDelayMs c; lc_firstAuthority := lc_firstAuthority c;
  lc_campaign := lc_campaign c; lc_late := b |}.

Inductive Output :=
| OCampaign
| OAcquired (leadership : Leadership)                 (** a call of [onAcquired] *)
| OLost (leadership : Leadership)
| ORelease (handle : LeadershipHandle)
| OSleep (delayMs : Z)
| OAbort                                              (** the sleep is aborted *)
| ODiagnostic (code : String.string)
| OAuthority (r : result exn unit)                    (** the promise of [waitForAuthority] settles *)
| OStart (r : result exn unit).

(** ** The loop *)
Definition diagnostic_code (code : String.string) : String.string := code.
#[local] Arguments diagnostic_code code%_string_scope.
#[local] Arguments ODiagnostic code%_string_scope.
Definition CAMPAIGN_FAILED : String.string := diagnostic_code "COORDINATION_CAMPAIGN_FAILED".
Definition CALLBACK_FAILED : String.string := diagnostic_code "COORDINATION_LEADERSHIP_CALLBACK_FAILED".
Definition RELEASE_FAILED : String.string := diagnostic_code "COORDINATION_LEADERSHIP_RELEASE_FAILED".
Definition shutdownError : exn := DiagnosticError "COORDINATION_LEADERSHIP_SHUTDOWN_FAILED".
(** [#emitDiagnostic] *)
Definition emitted (error : exn) : Output :=
  match error with DiagnosticError code => ODiagnostic code | _ => ODiagnostic "COORDINATION_LEADERSHIP_INVALID" end.

Definition Step : Type := Controller * list Output.
Definition say (out : list Output) (s : Step) : Step := (s.1, out ++ s.2).
Definition settleFirstAuthority (r : result exn unit) (c : Controller) : Step :=
  match lc_firstAuthority c with
  | Some _ => (c, [])
  | None =>
      ({| lc_phase := lc_phase c; lc_running := lc_running c; lc_retryDelayMs := lc_retryDelayMs c; lc_firstAuthority := Some r;
          lc_campaign := lc_campaign c; lc_late := lc_late c |}, [OAuthority r])
  end.

(** The loop returns, or throws. *)
Definition return_ (c : Controller) : Step := (with_running false (with_phase (Ended None) c), []).
Definition throw (e : exn) (c : Controller) : Step :=
  let '(c, out) := settleFirstAuthority (Err e) c in (with_running false (with_phase (Ended (Some e)) c), out).
(** The head of the loop. *)
Definition iterate (c : Controller) : Step :=
  if lc_running c then (with_campaign None (with_phase (Campaigning None) c), [OCampaign]) else return_ c.
Definition backoff (c : Controller) : Step :=
  if lc_running c then (with_phase Backoff c, [OSleep (lc_retryDelayMs c)]) else return_ c.
(** [#deactivateAndRelease], up to its first await. *)
Definition deactivate (h : LeadershipHandle) (l : Leadership) (after : Afterwards) (c : Controller) : Step :=
  (with_phase (Deactivating h l after) c, [OLost l]).
(** The campaign of the loop has an outcome. *)
Definition campaigned (resource : jstring) (outcome : CampaignOutcome) (c : Controller) : Step :=
  match outcome with
  | Stopped => let '(c, out) := return_ c in (with_late true c, out)
  | Failed _ => say [ODiagnostic CAMPAIGN_FAILED] (backoff c)
  | Acquired h =>
      match validateLeadership resource h with
      | Err e =>
          let '(c, out) := settleFirstAuthority (Err e) c in
          (with_phase (ReleasingInvalid h) c, emitted e :: out ++ [ORelease h])
      | Ok l => (with_phase (Acquiring h l) c, [OAcquired l])
      end
  end.
(** [onAcquired] has returned. *)
Definition acquired (r : result exn unit) (h : LeadershipHandle) (l : Leadership) (c : Controller) : Step :=
  match r with
  | Err _ => say [ODiagnostic CALLBACK_FAILED] (deactivate h l ToBackoff c)
  | Ok _ =>
      let '(c, out) := settleFirstAuthority (Ok tt) c in
      let c := with_delay initialRetryDelayMs c in
      say out (if lc_running c then (with_phase (Holding h l None) c, []) else deactivate h l ToStop c)
  end.
Definition released (r : result exn unit) (failed : bool) (after : Afterwards) (c : Controller) : Step :=
  let failed := failed || negb (is_ok r) in
  say (if is_ok r then [] else [ODiagnostic RELEASE_FAILED])
    (if failed then throw shutdownError c else match after with ToStop => return_ c | ToBackoff => backoff c end).

Inductive Event :=
| Start
| Stop
| CampaignSettles (r : result exn LeadershipHandle)
| LossSignal (r : result exn unit)                    (** [handle.lost] settles while it is awaited *)
| Resume                                              (** the race is over *)
| AcquiredReturns (r : result exn unit)
| LostReturns (r : result exn unit)
| ReleaseReturns (r : result exn unit)
| SleepReturns (r : result exn unit)
| LateResumes                                         (** the handle that came too late *)
| LateReleased (r : result exn unit).

Definition settle_campaign (o : CampaignOutcome) (p : Phase) : Phase :=
  match p with Campaigning None => Campaigning (Some o) | _ => p end.
Definition settle_loss (o : LossOutcome) (p : Phase) : Phase :=
  match p with Holding h l None => Holding h l (Some o) | _ => p end.

Definition start (c : Controller) : Step :=
  if lc_running c then (c, [OStart (Ok tt)])
  else match lc_phase c with
       | Created => let '(c, out) := iterate (with_running true c) in (c, out ++ [OStart (Ok tt)])
       | _ => (c, [OStart (Err PlainError)])
       end.
Definition stop (c : Controller) : Step :=
  if negb (lc_running c) then (c, [])
  else
    let abort := match lc_phase c with Backoff => [OAbort] | _ => [] end in
    let '(c, out) := settleFirstAuthority (Ok tt) (with_running false c) in
    (with_phase (settle_loss LossStopped (settle_campaign Stopped (lc_phase c))) c, abort ++ out).
(** What [stop] returns once the loop has ended. *)
Definition stop_result (c : Controller) : option (result exn unit) :=
  match lc_phase c with
  | Created | Ended None => Some (Ok tt)
  | Ended (Some e) => Some (Err e)
  | _ => None
  end.

Definition step (resource : jstring) (c : Controller) (e : Event) : Step :=
  match e, lc_phase c with
  | Start, _ => start c
  | Stop, _ => stop c
  | CampaignSettles r, p =>
      match lc_campaign c, p with
      | None, Campaigning _ =>
          (with_campaign (Some r) (with_phase (settle_campaign (match r with Ok h => Acquired h | Err e => Failed e end) p) c), [])
      | None, Ended _ => if lc_late c then (with_campaign (Some r) c, []) else (c, [])
      | _, _ => (c, [])
      end
  | LossSignal r, Holding h l None =>
      (with_phase (Holding h l (Some Lost)) c, if is_ok r then [] else [ODiagnostic CAMPAIGN_FAILED])
  | LossSignal r, Holding h l (Some _) => (c, if is_ok r then [] else [ODiagnostic CAMPAIGN_FAILED])
  | Resume, Campaigning (Some o) => campaigned resource o c
  | Resume, Holding h l (Some Lost) => (with_phase (Notifying l) c, [OLost l])
  | Resume, Holding h l (Some LossStopped) => deactivate h l ToStop c
  | AcquiredReturns r, Acquiring h l => acquired r h l c
  | LostReturns r, Deactivating h l after =>
      (with_phase (Releasing h after (negb (is_ok r))) c, (if is_ok r then [] else [ODiagnostic CALLBACK_FAILED]) ++ [ORelease h])
  | LostReturns r, Notifying l =>
      if is_ok r then iterate c else say [ODiagnostic CALLBACK_FAILED] (throw shutdownError c)
  | ReleaseReturns r, Releasing h after failed => released r failed after c
  | ReleaseReturns r, ReleasingInvalid h => released r false ToStop c
  | SleepReturns r, Backoff =>
      if negb (lc_running c) then return_ c
      else match r with
           | Ok _ => iterate (with_delay (Z.min (lc_retryDelayMs c * 2) maximumRetryDelayMs) c)
           | Err e => throw e c
           end
  | LateResumes, _ =>
      if lc_late c then
        match lc_campaign c with
        | Some (Ok h) => (with_late false c, [ORelease h])
        | Some (Err _) => (with_late false c, [ODiagnostic RELEASE_FAILED])
        | None => (c, [])
        end
      else (c, [])
  | LateReleased r, _ => (c, if is_ok r then [] else [ODiagnostic RELEASE_FAILED])
  | _, _ => (c, [])
  end.
Fixpoint steps (resource : jstring) (c : Controller) (es : list Event) : Step :=
  match es with
  | [] => (c, [])
  | e :: es => let '(c1, o1) := step resource c e in let '(c2, o2) := steps resource c1 es in (c2, o1 ++ o2)
  end.

(** ** What the loop keeps *)
Definition acquired_of (out : list Output) : list Leadership := omap (λ o, match o with OAcquired l => Some l | _ => None end) out.
Definition lost_of (out : list Output) : list Leadership := omap (λ o, match o with OLost l => Some l | _ => None end) out.
Definition released_of (out : list Output) : list LeadershipHandle := omap (λ o, match o with ORelease h => Some h | _ => None end) out.
Definition authority_of (out : list Output) : list (result exn unit) := omap (λ o, match o with OAuthority r => Some r | _ => None end) out.
(** The leadership the owner acts under. *)
Definition active (c : Controller) : list Leadership :=
  match lc_phase c with Acquiring _ l | Holding _ l _ => [l] | _ => [] end.
(** The handle that is neither given back nor lost yet. *)
Definition campaign_handle (c : Controller) : list LeadershipHandle := match lc_campaign c with Some (Ok h) => [h] | _ => [] end.
Definition held (c : Controller) : list LeadershipHandle :=
  match lc_phase c with
  | Campaigning _ => campaign_handle c
  | Ended _ => if lc_late c then campaign_handle c else []
  | Acquiring h _ | Holding h _ _ | Deactivating h _ _ => [h]
  | _ => []
  end.
(** The handles a provider has given to the loop, and those it has taken back. *)
Definition given (c : Controller) (e : Event) : list LeadershipHandle :=
  match e, lc_campaign c, lc_phase c with
  | CampaignSettles (Ok h), None, Campaigning _ => [h]
  | CampaignSettles (Ok h), None, Ended _ => if lc_late c then [h] else []
  | _, _, _ => []
  end.
Definition taken (c : Controller) (e : Event) : list LeadershipHandle :=
  match e, lc_phase c with Resume, Holding h _ (Some Lost) => [h] | _, _ => [] end.
Fixpoint collect {A} (f : Controller → Event → list A) (resource : jstring) (c : Controller) (es : list Event) : list A :=
  match es with [] => [] | e :: es => f c e ++ collect f resource (step resource c e).1 es end.

Definition DELAYS : list Z := [100; 200; 400; 800; 1000].
Record controller_ok (c : Controller) : Prop := {
  co_stopped : lc_running c = false → lc_phase c ≠ Campaigning None ∧ ∀ h l, lc_phase c ≠ Holding h l None;
  co_created : lc_phase c = Created → lc_running c = false ∧ lc_firstAuthority c = None;
  co_ended e : lc_phase c = Ended e → lc_running c = false;
  co_pending : lc_phase c = Campaigning None → lc_campaign c = None;
  co_acquired h : lc_phase c = Campaigning (Some (Acquired h)) → lc_campaign c = Some (Ok h);
  co_failed e : lc_phase c = Campaigning (Some (Failed e)) → lc_campaign c = Some (Err e);
  co_stop : lc_phase c = Campaigning (Some Stopped) → lc_running c = false;
  co_late : lc_late c = true → ∃ e, lc_phase c = Ended e;
  co_delay : lc_retryDelayMs c ∈ DELAYS;
}.

Section laws.
Context (resource : jstring).

(** What one event adds: the owner's leaderships, the handles, and what is said of
    authority. *)
Record step_ok (c : Controller) (e : Event) (s : Step) : Prop := {
  sk_ok : controller_ok s.1;
  sk_active : active c ++ acquired_of s.2 = lost_of s.2 ++ active s.1;
  sk_held : held c ++ given c e ≡ₚ released_of s.2 ++ taken c e ++ held s.1;
  sk_authority : (lc_firstAuthority s.1 = lc_firstAuthority c ∧ authority_of s.2 = []) ∨
    (lc_firstAuthority c = None ∧ ∃ r, lc_firstAuthority s.1 = Some r ∧ authority_of s.2 = [r]);
  sk_sleep d : OSleep d ∈ s.2 → d ∈ DELAYS ∧ lc_running s.1 = true;
  sk_campaign : OCampaign ∈ s.2 → held s.1 = [] ∧ lc_running s.1 = true;
  sk_acquired l : OAcquired l ∈ s.2 → le_resource l = resource;
  sk_running : lc_running s.1 = true → lc_running c = true ∨ e = Start;
}.
Lemma delays_double d : d ∈ DELAYS → Z.min (d * 2) maximumRetryDelayMs ∈ DELAYS.
Proof. unfold DELAYS. rewrite !elem_of_cons. intros [->|[->|[->|[->|[->|[]%elem_of_nil]]]]]; vm_compute; tauto. Qed.
Lemma validate_resource h l : validateLeadership resource h = Ok l → le_resource l = resource.
Proof.
  unfold validateLeadership. intros (l' & _ & H)%bind_ok. apply bind_ok in H as (u & H & [= <-]). apply throw_if_ok in H.
  apply negb_false_iff in H. by apply streq_true in H.
Qed.

Lemma omap_nothing {A B} (f : A → option B) l : (∀ x, x ∈ l → f x = None) → omap f l = [].
Proof. induction l as [|x l IH]; intros H; [done|]. cbn. rewrite (H x) by by left. apply IH. intros y Hy. apply H. by right. Qed.
Definition diagnostic (o : Output) : Prop := match o with ODiagnostic _ | OStart _ | OAbort => True | _ => False end.
Lemma step_same c e out : controller_ok c → given c e = [] → taken c e = [] → Forall diagnostic out → step_ok c e (c, out).
Proof.
  intros Hc Hg Ht Ho. rewrite Forall_forall in Ho.
  assert (acquired_of out = [] ∧ lost_of out = [] ∧ released_of out = [] ∧ authority_of out = []) as (E1 & E2 & E3 & E4).
  { split_and!; apply omap_nothing; intros x Hx; specialize (Ho x Hx); by destruct x. }
  split; cbn [fst snd]; rewrite ?E1, ?E2, ?E3, ?E4, ?Hg, ?Ht, ?app_nil_r; try done; try (by left).
  1-3: intros; exfalso; by match goal with H : _ ∈ _ |- _ => apply Ho in H end.
Qed.
#[local] Ltac expand :=
  unfold start, stop, campaigned, acquired, released, deactivate, throw, backoff, iterate, return_, settleFirstAuthority, say; cbn;
  repeat (case_match; simplify_eq; cbn).
Lemma emitted_diagnostic e : ∃ code, emitted e = ODiagnostic code.
Proof. destruct e; by eexists. Qed.
#[local] Ltac field :=
  cbn; intros;
  repeat match goal with H : _ ∈ _ :: _ |- _ => apply elem_of_cons in H as [H|H] | H : _ ∈ [] |- _ => by apply elem_of_nil in H end;
  simplify_eq; eauto.
Lemma step_laws c e : controller_ok c → step_ok c e (step resource c e).
Proof.
  intros Hc. pose proof Hc as [A1 A2 A3 A4 A5 A6 A7 A8 A9].
  destruct c as [p running delay authority campaign late]. cbn in *.
  destruct e, p; cbn; try (by apply step_same; [|try destruct r..|constructor]); expand; try (by apply step_same; [|try destruct r..|repeat constructor]);
    try (by destruct A8 as [? ?]); try (by discriminate (A3 _ eq_refl)); try (by discriminate (proj1 (A2 eq_refl)));
    try (assert (late = false) as -> by (by destruct late; [destruct A8|])); try (rewrite (A5 _ eq_refl)); try (rewrite (A6 _ eq_refl)).
  all: try (destruct (A2 eq_refl) as [-> _]; done).
  all: try (destruct (emitted_diagnostic e) as [code ->]).
  all: split; [try (by split; cbn; intros; simplify_eq; eauto)|..].
  all: try solve [field].
  all: try solve [destruct campaign as [[]|]; field].
  all: try solve [destruct late, campaign as [[]|]; field].
  all: try solve [split; cbn; intros; simplify_eq; eauto; by left].
  - destruct c as [h|x|]; [by discriminate (A5 h eq_refl)|by discriminate (A6 x eq_refl)|]. by split; cbn; intros; simplify_eq; eauto.
  - field. by eapply validate_resource.
  - split; cbn; intros; simplify_eq; eauto. by apply delays_double.
Qed.

(** ** Once it was told to stop *)
(** The answer the loop waits for. *)
Definition awaited (c : Controller) (e : Event) : bool :=
  match e, lc_phase c with
  | Resume, Campaigning (Some _) | Resume, Holding _ _ (Some _) | AcquiredReturns _, Acquiring _ _ | LostReturns _, Deactivating _ _ _
  | LostReturns _, Notifying _ | ReleaseReturns _, Releasing _ _ _ | ReleaseReturns _, ReleasingInvalid _ | SleepReturns _, Backoff => true
  | _, _ => false
  end.
(** The answers it needs at most when it is not running. *)
Definition answers_left (c : Controller) : nat :=
  match lc_phase c with
  | Campaigning _ => 4
  | Acquiring _ _ | Holding _ _ _ => 3
  | Deactivating _ _ _ => 2
  | Releasing _ _ _ | ReleasingInvalid _ | Notifying _ | Backoff => 1
  | Created | Ended _ => 0
  end%nat.
Record stopping (c : Controller) : Prop := {
  st_ok : controller_ok c;
  st_running : lc_running c = false;
  st_started : lc_phase c ≠ Created;
}.
Lemma step_stopping c e : stopping c →
  stopping (step resource c e).1 ∧ (∀ d, OSleep d ∉ (step resource c e).2) ∧ OCampaign ∉ (step resource c e).2 ∧
  (answers_left (step resource c e).1 + (if awaited c e then 1 else 0) <= answers_left c)%nat.
Proof.
  intros [Hok Hr Hs]. pose proof (step_laws c e Hok) as H.
  assert (lc_running (step resource c e).1 = false ∧ lc_phase (step resource c e).1 ≠ Created ∧
    (answers_left (step resource c e).1 + (if awaited c e then 1 else 0) <= answers_left c)%nat) as (H1 & H2 & H3).
  { clear H. destruct c as [p running delay authority campaign late]. cbn in *. subst running.
    destruct e, p; cbn; expand; cbn; split_and!; try done; lia. }
  split_and!; [split; [apply H|done|done]| | |done].
  - intros d Hd. apply (sk_sleep _ _ _ H) in Hd as [_ Hd]. congruence.
  - intros Hc. apply (sk_campaign _ _ _ H) in Hc as [_ Hc]. congruence.
Qed.
(** Some answer is awaited as long as the loop has not ended. *)
Lemma stopping_awaits c : stopping c → (∃ e, lc_phase c = Ended e) ∨ ∃ e, awaited c e = true.
Proof.
  intros [[A1 _ _ _ _ _ _ _ _] Hr Hs]. specialize (A1 Hr). unfold awaited. destruct (lc_phase c) as [|[o|]|h|h l|h l [o|]|h l a|h a f|l| |e]; try done; try (by left; eexists); right.
  - by exists Resume.
  - by destruct (proj1 A1).
  - by exists (ReleaseReturns (Ok tt)).
  - by exists (AcquiredReturns (Ok tt)).
  - by exists Resume.
  - by destruct (proj2 A1 h l).
  - by exists (LostReturns (Ok tt)).
  - by exists (ReleaseReturns (Ok tt)).
  - by exists (LostReturns (Ok tt)).
  - by exists (SleepReturns (Ok tt)).
Qed.

(** ** Properties *)
Lemma controller_created_ok : controller_ok createController.
Proof. split; cbn; try done. by left. Qed.
Lemma steps_laws c es : controller_ok c →
  let s := steps resource c es in
  controller_ok s.1 ∧ active c ++ acquired_of s.2 = lost_of s.2 ++ active s.1 ∧
  held c ++ collect given resource c es ≡ₚ released_of s.2 ++ collect taken resource c es ++ held s.1 ∧
  (lc_firstAuthority s.1 = lc_firstAuthority c ∧ authority_of s.2 = [] ∨
   lc_firstAuthority c = None ∧ ∃ r, lc_firstAuthority s.1 = Some r ∧ authority_of s.2 = [r]) ∧
  (∀ d, OSleep d ∈ s.2 → d ∈ DELAYS) ∧ (∀ l, OAcquired l ∈ s.2 → le_resource l = resource).
Proof.
  revert c. induction es as [|e es IH]; intros c Hc; cbn zeta.
  - split_and!; cbn; [done|by rewrite app_nil_r|by rewrite app_nil_r|by left|by intros ? ?%elem_of_nil..].
  - cbn [steps collect]. pose proof (step_laws c e Hc) as [K1 K2 K3 K4 K5 _ K6 _].
    destruct (step resource c e) as [c1 o1]. cbn [fst snd] in *. destruct (IH c1 K1) as (I1 & I2 & I3 & I4 & I5 & I6).
    destruct (steps resource c1 es) as [c2 o2]. cbn [fst snd] in *. unfold acquired_of, lost_of, released_of, authority_of in *. rewrite !omap_app.
    split_and!; [done| | | | |].
    + by rewrite app_assoc, K2, <- !app_assoc, I2.
    + rewrite app_assoc, K3, <- !app_assoc, (Permutation_app_comm (taken c e)), <- !app_assoc. 
      rewrite (app_assoc (held c1)), I3. solve_Permutation.
    + destruct K4 as [[E1 ->]|(E1 & r & E2 & ->)], I4 as [[F1 ->]|(F1 & r' & F2 & ->)]; try congruence.
      * left. split; [congruence|done].
      * right. split; [congruence|]. by exists r'.
      * right. split; [done|]. exists r. split; [congruence|done].
    + intros d [H|H]%elem_of_app; [by apply K5|by apply I5].
    + intros l [H|H]%elem_of_app; [by apply K6|by apply I6].
Qed.

Definition answers (c : Controller) (es : list Event) : nat :=
  length (collect (λ c e, if awaited c e then [tt] else []) resource c es).
Lemma steps_stopping c es : stopping c → let s := steps resource c es in
  stopping s.1 ∧ (∀ d, OSleep d ∉ s.2) ∧ OCampaign ∉ s.2 ∧ (answers_left s.1 + answers c es <= answers_left c)%nat.
Proof.
  unfold answers. revert c. induction es as [|e es IH]; intros c Hc; cbn zeta.
  - cbn. split_and!; [done|by intros d ?%elem_of_nil|apply not_elem_of_nil|lia].
  - cbn [steps collect]. destruct (step_stopping c e Hc) as (H1 & H2 & H3 & H4).
    destruct (step resource c e) as [c1 o1]. cbn [fst snd] in *. destruct (IH c1 H1) as (I1 & I2 & I3 & I4).
    destruct (steps resource c1 es) as [c2 o2]. cbn [fst snd] in *. split_and!; [done| | |].
    + intros d [H|H]%elem_of_app; [by eapply H2|by eapply I2].
    + by intros [H|H]%elem_of_app.
    + rewrite length_app. destruct (awaited c e); cbn in *; lia.
Qed.

(** C12. Whatever the provider, the callbacks and the clock answer, and in whatever
    order: the calls of [onAcquired] and [onLost] alternate, one for one and under the
    resource of the controller; every handle a campaign gave is released once, or was
    lost, or is the one still held; no campaign is begun while one is held; authority
    is announced at most once; and a retry waits for 100 to 1000 ms, doubled each time. *)
Theorem leadership_paired es :
  let s := steps resource createController es in
  acquired_of s.2 = lost_of s.2 ++ active s.1 ∧ (∀ l, OAcquired l ∈ s.2 → le_resource l = resource) ∧
  collect given resource createController es ≡ₚ released_of s.2 ++ collect taken resource createController es ++ held s.1 ∧
  (∀ e, OCampaign ∈ (step resource s.1 e).2 → held (step resource s.1 e).1 = []) ∧
  (length (authority_of s.2) <= 1)%nat ∧ (∀ d, OSleep d ∈ s.2 → d ∈ DELAYS).
Proof.
  intros s. destruct (steps_laws createController es controller_created_ok) as (H1 & H2 & H3 & H4 & H5 & H6). fold s in H1, H2, H3, H4, H5, H6.
  split_and!; [done|done|done| | |done].
  - intros e He. by apply (sk_campaign _ _ _ (step_laws s.1 e H1)) in He as [? _].
  - destruct H4 as [[_ ->]|(_ & r & _ & ->)]; cbn; lia.
Qed.

(** Once the controller was stopped it begins no campaign and no wait, and its
    loop ends when at most four of the answers it still awaits have come, whatever
    they are; until then one is awaited, and when it has ended no leadership is in
    force. *)
Theorem leadership_stops es es' :
  let c := (steps resource createController es).1 in
  lc_running c = false → lc_phase c ≠ Created →
  let s := steps resource c es' in
  OCampaign ∉ s.2 ∧ (∀ d, OSleep d ∉ s.2) ∧
  ((4 <= answers c es')%nat → ∃ e, lc_phase s.1 = Ended e) ∧
  ((∃ e, lc_phase s.1 = Ended e ∧ active s.1 = []) ∨ ∃ e, awaited s.1 e = true).
Proof.
  intros c Hr Hp s. destruct (steps_laws createController es controller_created_ok) as (H1 & _). fold c in H1.
  assert (stopping c) as Hc by by split. destruct (steps_stopping c es' Hc) as (K1 & K2 & K3 & K4). fold s in K1, K2, K3, K4.
  split_and!; [done|done| |].
  - intros Ha. destruct K1 as [_ _ Hn]. assert (answers_left s.1 = 0%nat) as E.
    { assert (answers_left c <= 4)%nat by (unfold answers_left; case_match; lia). lia. }
    unfold answers_left in E. destruct (lc_phase s.1) eqn:Es; try done; by eexists.
  - destruct (stopping_awaits _ K1) as [[e He]|H]; [left|by right]. exists e. split; [done|]. unfold active. by rewrite He.
Qed.
End laws.

(** ** A controller, run *)
Section example.
Definition example_leadership : json := JObj [(js "resource", JStr (js "main")); (js "epoch", JStr (js "1"))].
Definition example_handle (i : nat) : LeadershipHandle := {| lh_id := i; lh_leadership := example_leadership |}.
(** A failed campaign, a leadership that is lost, and one that is held at the stop. *)
Definition example_events : list Event :=
  [Start; CampaignSettles (Err PlainError); Resume; SleepReturns (Ok tt); CampaignSettles (Ok (example_handle 0)); Resume; AcquiredReturns (Ok tt);
   LossSignal (Ok tt); Resume; LostReturns (Ok tt); CampaignSettles (Ok (example_handle 1)); Resume; AcquiredReturns (Ok tt); Stop].
Example example_runs :
  (steps (js "main") createController (example_events ++ [Resume; LostReturns (Ok tt); ReleaseReturns (Ok tt)])).2 =
  [OCampaign; OStart (Ok tt); ODiagnostic CAMPAIGN_FAILED; OSleep 100; OCampaign;
   OAcquired {| le_resource := js "main"; le_epoch := js "1" |}; OAuthority (Ok tt); OLost {| le_resource := js "main"; le_epoch := js "1" |}; OCampaign;
   OAcquired {| le_resource := js "main"; le_epoch := js "1" |}; OLost {| le_resource := js "main"; le_epoch := js "1" |}; ORelease (example_handle 1)].
Proof. vm_compute. reflexivity. Qed.
Lemma leadership_stops_witness :
  let c := (steps (js "main") createController example_events).1 in
  lc_running c = false ∧ OCampaign ∉ (steps (js "main") c [Resume; LostReturns (Ok tt); ReleaseReturns (Err PlainError)]).2.
Proof.
  destruct (leadership_stops (js "main") example_events [Resume; LostReturns (Ok tt); ReleaseReturns (Err PlainError)]) as (H & _).
  - vm_compute. reflexivity.
  - vm_compute. discriminate.
  - split; [vm_compute; reflexivity|exact H].
Defined.
End example.
