(* ===== verification/LocalCoordination.v ===== *)
(** * Coordination in one process

    drivers-local/src/local-coordination.ts: leadership, leases, guarded values and
    their watches, in memory. Each method is its code up to the next await. *)

From S2P Require Import Prelude JsString Collections Regex JsValue Identity Time JsonText Canonical JsonParse.

Open Scope Z_scope.

Definition COORDINATION_CLOSED : exn := DiagnosticError "COORDINATION_CLOSED".
Definition COORDINATION_REQUEST_INVALID : exn := DiagnosticError "COORDINATION_REQUEST_INVALID".
Definition localEpoch : jstring := js "1".

Section coordination.
Context (number_text : jsnum → jstring) (number_of : jstring → jsnum).

(** [serializeWireValue], which throws on what is no JSON data. *)
Definition serializeWireValue (value : json) : result exn json :=
  match serialize value with Some v => Ok v | None => Err (DiagnosticError "PROTOCOL_WIRE_VALUE_INVALID") end.
Definition cloneJson (value : json) : result exn json :=
  v ← serializeWireValue value;
  match JSON_parse number_of (stringify number_text v) with
  | Some parsed => serializeWireValue parsed
  | None => Err PlainError
  end.

(** ** A watch *)
Record CoordinationChange := { cc_key : jstring; cc_revision : Z; cc_value : json }.
Record CoordinationWatchIterator := {
  wi_queue : list CoordinationChange;
  wi_waiters : list nat;
  wi_closed : bool;
  wi_results : list (nat * option CoordinationChange);   (** what the promises of [next] resolved to *)
}.
Definition clone_change (c : CoordinationChange) : result exn CoordinationChange :=
  v ← cloneJson (cc_value c);
  Ok {| cc_key := cc_key c; cc_revision := cc_revision c; cc_value := v |}.
Definition new_watch (changes : list CoordinationChange) : result exn CoordinationWatchIterator :=
  queue ← mapM clone_change changes;
  Ok {| wi_queue := queue; wi_waiters := []; wi_closed := false; wi_results := [] |}.
Definition next (reader : nat) (w : CoordinationWatchIterator) : CoordinationWatchIterator :=
  match wi_queue w with
  | change :: queue =>
      {| wi_queue := queue; wi_waiters := wi_waiters w; wi_closed := wi_closed w; wi_results := wi_results w ++ [(reader, Some change)] |}
  | [] =>
      if wi_closed w
      then {| wi_queue := []; wi_waiters := wi_waiters w; wi_closed := true; wi_results := wi_results w ++ [(reader, None)] |}
      else {| wi_queue := []; wi_waiters := wi_waiters w ++ [reader]; wi_closed := false; wi_results := wi_results w |}
  end.
Definition push (change : CoordinationChange) (w : CoordinationWatchIterator) : result exn CoordinationWatchIterator :=
  if wi_closed w then Ok w
  else
    cloned ← clone_change change;
    Ok match wi_waiters w with
       | [] => {| wi_queue := wi_queue w ++ [cloned]; wi_waiters := []; wi_closed := false; wi_results := wi_results w |}
       | reader :: waiters =>
           {| wi_queue := wi_queue w; wi_waiters := waiters; wi_closed := false; wi_results := wi_results w ++ [(reader, Some cloned)] |}
       end.
Definition close_watch (w : CoordinationWatchIterator) : CoordinationWatchIterator :=
  if wi_closed w then w
  else {| wi_queue := []; wi_waiters := []; wi_closed := true;
          wi_results := wi_results w ++ map (λ reader, (reader, None)) (wi_waiters w) |}.
(** [return] also answers its own caller. *)
Definition return_watch (reader : nat) (w : CoordinationWatchIterator) : CoordinationWatchIterator :=
  let w := close_watch w in
  {| wi_queue := wi_queue w; wi_waiters := wi_waiters w; wi_closed := wi_closed w; wi_results := wi_results w ++ [(reader, None)] |}.

(** ** The provider *)
Record CoordinationRecord := { cr_value : json; cr_revision : Z }.
Record Handle := { ha_resource : jstring; ha_released : bool }.
Inductive Lifecycle := Closed | Created | Open.
Record LocalCoordinationProvider := {
  lp_records : gmap jstring CoordinationRecord;
  lp_handles : list Handle;                       (** every handle ever made *)
  lp_leadership : jsmap jstring nat;
  lp_changes : list CoordinationChange;
  lp_iterators : list CoordinationWatchIterator;  (** every watch ever made *)
  lp_watchers : list nat;                         (** [#watchers], in the order of insertion *)
  lp_revision : Z;
  lp_lifecycle : Lifecycle;
}.
Definition createProvider : LocalCoordinationProvider := {|
  lp_records := ∅; lp_handles := []; lp_leadership := []; lp_changes := []; lp_iterators := []; lp_watchers := [];
  lp_revision := 0; lp_lifecycle := Created |}.

Definition with_lifecycle (l : Lifecycle) (p : LocalCoordinationProvider) : LocalCoordinationProvider := {|
  lp_records := lp_records p; lp_handles := lp_handles p; lp_leadership := lp_leadership p; lp_changes := lp_changes p;
  lp_iterators := lp_iterators p; lp_watchers := lp_watchers p; lp_revision := lp_revision p; lp_lifecycle := l |}.
Definition with_leadership (hs : list Handle) (l : jsmap jstring nat) (p : LocalCoordinationProvider) : LocalCoordinationProvider := {|
  lp_records := lp_records p; lp_handles := hs; lp_leadership := l; lp_changes := lp_changes p;
  lp_iterators := lp_iterators p; lp_watchers := lp_watchers p; lp_revision := lp_revision p; lp_lifecycle := lp_lifecycle p |}.
Definition with_watches (iterators : list CoordinationWatchIterator) (ws : list nat) (p : LocalCoordinationProvider) : LocalCoordinationProvider := {|
  lp_records := lp_records p; lp_handles := lp_handles p; lp_leadership := lp_leadership p; lp_changes := lp_changes p;
  lp_iterators := iterators; lp_watchers := ws; lp_revision := lp_revision p; lp_lifecycle := lp_lifecycle p |}.
Definition with_revision (r : Z) (p : LocalCoordinationProvider) : LocalCoordinationProvider := {|
  lp_records := lp_records p; lp_handles := lp_handles p; lp_leadership := lp_leadership p; lp_changes := lp_changes p;
  lp_iterators := lp_iterators p; lp_watchers := lp_watchers p; lp_revision := r; lp_lifecycle := lp_lifecycle p |}.
Definition with_record (rs : gmap jstring CoordinationRecord) (cs : list CoordinationChange) (p : LocalCoordinationProvider) : LocalCoordinationProvider := {|
  lp_records := rs; lp_handles := lp_handles p; lp_leadership := lp_leadership p; lp_changes := cs;
  lp_iterators := lp_iterators p; lp_watchers := lp_watchers p; lp_revision := lp_revision p; lp_lifecycle := lp_lifecycle p |}.

Definition assertOpen (p : LocalCoordinationProvider) : result exn unit :=
  match lp_lifecycle p with Open => Ok tt | _ => Err COORDINATION_CLOSED end.
Definition assertResource (resource : jstring) : result exn unit :=
  throw_if (bool_decide (resource = [])) COORDINATION_REQUEST_INVALID.
Definition open (p : LocalCoordinationProvider) : LocalCoordinationProvider * result exn unit :=
  match lp_lifecycle p with Closed => (p, Err COORDINATION_CLOSED) | _ => (with_lifecycle Open p, Ok tt) end.

(** *** Leadership *)
Definition campaign (resource : jstring) (p : LocalCoordinationProvider) : LocalCoordinationProvider * result exn nat :=
  match (assertOpen p;; assertResource resource) with
  | Err e => (p, Err e)
  | Ok _ =>
      match JsMap.get (lp_leadership p) resource with
      | Some existing => (p, Ok existing)
      | None =>
          let id := length (lp_handles p) in
          (with_leadership (lp_handles p ++ [{| ha_resource := resource; ha_released := false |}]) (JsMap.set (lp_leadership p) resource id) p, Ok id)
      end
  end.
(** [release] of a handle; [true] says that its [lost] resolves. *)
Definition release (id : nat) (p : LocalCoordinationProvider) : LocalCoordinationProvider * bool :=
  match lp_handles p !! id with
  | Some h =>
      if ha_released h then (p, false)
      else
        (with_leadership (<[id := {| ha_resource := ha_resource h; ha_released := true |}]> (lp_handles p))
           (if bool_decide (JsMap.get (lp_leadership p) (ha_resource h) = Some id) then JsMap.delete (lp_leadership p) (ha_resource h) else lp_leadership p)
           p, true)
  | None => (p, false)
  end.

(** *** Leases *)
Record LeaseRequest := { lq_resource : jstring; lq_owner : jstring; lq_durationMs : jsnum }.
Record Lease := { ls_resource : jstring; ls_owner : jstring; ls_epoch : jstring; ls_acquiredAt : Z; ls_expiresAt : Z }.
Definition positive_number (n : jsnum) : bool := match n with NInt z => 0 <? z | NFrac m _ => 0 <? m | _ => false end.
(** The time of [new Date(n)], which [toISOString] needs. *)
Definition time_value (n : jsnum) : result exn Z :=
  let clip z := if Z.abs z <=? 8640000000000000 then Ok z else Err RangeError in
  match n with NInt z => clip z | NFrac m e => clip (Z.quot m (2 ^ Zpos e)) | _ => Err RangeError end.
(** [now] is the time of the clock; the sum is the one of the language. *)
Definition acquireLease (add : jsnum → jsnum → jsnum) (now : Z) (r : LeaseRequest) (p : LocalCoordinationProvider) : result exn Lease :=
  assertOpen p;;
  assertResource (lq_resource r);;
  throw_if (bool_decide (lq_owner r = [])) COORDINATION_REQUEST_INVALID;;
  throw_if (negb (positive_number (lq_durationMs r))) COORDINATION_REQUEST_INVALID;;
  acquiredAt ← time_value (NInt now);
  expiresAt ← time_value (add (NInt now) (lq_durationMs r));
  Ok {| ls_resource := lq_resource r; ls_owner := lq_owner r; ls_epoch := localEpoch; ls_acquiredAt := acquiredAt; ls_expiresAt := expiresAt |}.
Definition nextEpoch (resource : jstring) (p : LocalCoordinationProvider) : result exn jstring :=
  assertOpen p;; assertResource resource;; Ok localEpoch.

(** *** Guarded values *)
Inductive ExpectedRevision := Absent | At (revision : Z).
Record CompareAndSetRequest := { cs_key : jstring; cs_expectedRevision : option ExpectedRevision; cs_value : json }.
Record CasResult := { ca_applied : bool; ca_value : option json; ca_revision : option Z }.
Definition matches (expected : option ExpectedRevision) (current : option CoordinationRecord) : bool :=
  match expected, current with
  | None, _ => true
  | Some Absent, c => negb (bool_decide (is_Some c))
  | Some (At r), Some c => cr_revision c =? r
  | Some (At _), None => false
  end.
(** The watchers get the change in turn; what one throws ends the loop. *)
Fixpoint push_all (change : CoordinationChange) (ws : list nat) (iterators : list CoordinationWatchIterator)
  : list CoordinationWatchIterator * result exn unit :=
  match ws with
  | [] => (iterators, Ok tt)
  | w :: ws =>
      match iterators !! w with
      | Some i =>
          match push change i with
          | Ok i' => push_all change ws (<[w := i']> iterators)
          | Err e => (iterators, Err e)
          end
      | None => push_all change ws iterators
      end
  end.
(** The write of [compareAndSet] under the next revision. *)
Definition apply_set (r : CompareAndSetRequest) (p : LocalCoordinationProvider) : LocalCoordinationProvider * result exn CasResult :=
  let revision := lp_revision p + 1 in
  let p := with_revision revision p in
  match cloneJson (cs_value r) with
  | Err e => (p, Err e)
  | Ok value =>
      let rs := <[cs_key r := {| cr_value := value; cr_revision := revision |}]> (lp_records p) in
      match cloneJson value with
      | Err e => (with_record rs (lp_changes p) p, Err e)
      | Ok copy =>
          let change := {| cc_key := cs_key r; cc_revision := revision; cc_value := copy |} in
          let p := with_record rs (lp_changes p ++ [change]) p in
          let '(iterators, pushed) := push_all change (lp_watchers p) (lp_iterators p) in
          (with_watches iterators (lp_watchers p) p,
           pushed;; v ← cloneJson value; Ok {| ca_applied := true; ca_value := Some v; ca_revision := Some revision |})
      end
  end.
Definition compareAndSet (r : CompareAndSetRequest) (p : LocalCoordinationProvider) : LocalCoordinationProvider * result exn CasResult :=
  match (assertOpen p;; throw_if (bool_decide (cs_key r = [])) COORDINATION_REQUEST_INVALID) with
  | Err e => (p, Err e)
  | Ok _ =>
      let current := lp_records p !! cs_key r in
      if negb (matches (cs_expectedRevision r) current) then
        (p, match current with
            | None => Ok {| ca_applied := false; ca_value := None; ca_revision := None |}
            | Some c => v ← cloneJson (cr_value c); Ok {| ca_applied := false; ca_value := Some v; ca_revision := Some (cr_revision c) |}
            end)
      else apply_set r p
  end.

(** *** Watches *)
Definition watch (cursor : Z) (p : LocalCoordinationProvider) : LocalCoordinationProvider * result exn nat :=
  match (assertOpen p;; new_watch (List.filter (λ c, cursor <? cc_revision c) (lp_changes p))) with
  | Err e => (p, Err e)
  | Ok w => let id := length (lp_iterators p) in (with_watches (lp_iterators p ++ [w]) (lp_watchers p ++ [id]) p, Ok id)
  end.
Definition watch_next (id reader : nat) (p : LocalCoordinationProvider) : LocalCoordinationProvider :=
  with_watches (alter (next reader) id (lp_iterators p)) (lp_watchers p) p.
Definition remove_watcher (id : nat) : list nat → list nat := List.filter (λ i, negb (i =? id)%nat).
Definition watch_return (id reader : nat) (p : LocalCoordinationProvider) : LocalCoordinationProvider :=
  with_watches (alter (return_watch reader) id (lp_iterators p)) (remove_watcher id (lp_watchers p)) p.

(** *** The end: the handles are released, and the watches closed an await later. *)
Definition close_begin (p : LocalCoordinationProvider) : LocalCoordinationProvider * list nat :=
  match lp_lifecycle p with
  | Closed => (p, [])
  | _ =>
      foldl (λ '(p, lost) id, let '(p', l) := release id p in (p', if l then lost ++ [id] else lost))
        (with_lifecycle Closed p, []) (JsMap.values (lp_leadership p))
  end.
Definition close_end (p : LocalCoordinationProvider) : LocalCoordinationProvider :=
  match lp_lifecycle p with
  | Closed => with_watches (foldl (λ l id, alter close_watch id l) (lp_iterators p) (lp_watchers p)) [] p
  | _ => p
  end.

Inductive Event :=
| EOpen
| ECampaign (resource : jstring)
| ERelease (handle : nat)
| ESet (r : CompareAndSetRequest)
| EWatch (cursor : Z)
| ENext (watch reader : nat)
| EReturn (watch reader : nat)
| EClose
| EClosed.
Definition step (p : LocalCoordinationProvider) (e : Event) : LocalCoordinationProvider :=
  match e with
  | EOpen => (open p).1
  | ECampaign resource => (campaign resource p).1
  | ERelease id => (release id p).1
  | ESet r => (compareAndSet r p).1
  | EWatch cursor => (watch cursor p).1
  | ENext w reader => watch_next w reader p
  | EReturn w reader => watch_return w reader p
  | EClose => (close_begin p).1
  | EClosed => close_end p
  end.
Definition steps : LocalCoordinationProvider → list Event → LocalCoordinationProvider := foldl step.
End coordination.
