(* ===== verification/CoordinationLaws.v ===== *)
(** * Laws of the local coordination

    Copies are exact, a guarded write does what it says, the log replays to the
    values, a watch misses nothing, and a resource has one leadership. *)

From S2P Require Import Prelude JsString Collections Regex JsValue Identity Time JsonText Canonical JsonParse LocalCoordination.

Open Scope Z_scope.

(** ** Copies *)
Lemma mapM_fields_fst (f : json → option json) fields k :
  mapM (λ x : jstring * json, v ← f x.2; Some (x.1, v)) fields = Some k → k.*1 = fields.*1.
Proof.
  intros H. apply mapM_some in H. induction H as [|x y l l' Hxy _ IH]; [done|]. cbn. apply bind_Some in Hxy as (v & _ & [= <-]). cbn. by rewrite IH.
Qed.
Lemma serialize_keyed j k : serialize j = Some k → keyed j = true → keyed k = true.
Proof.
  revert k. induction (Nat.lt_wf_0_projected json_size j) as [j _ IH]. intros k H Hk.
  destruct j as [|b|n|s|items|fields]; cbn [serialize] in H; try (by injection H as <-).
  - destruct (isFinite n); [|done]. by injection H as <-.
  - apply bind_Some in H as (items' & Hm & [= <-]). cbn [keyed] in *. rewrite forallb_forall_in in Hk. apply forallb_forall_in. intros y Hy.
    apply mapM_some in Hm. apply list_elem_of_lookup in Hy as [i Hi]. eapply Forall2_lookup_r in Hm as (x & Hx & E); [|done].
    apply list_elem_of_lookup_2 in Hx. eapply IH; [|done|by apply Hk]. simpl. pose proof (sum_list_map_le json_size _ _ Hx). lia.
  - apply bind_Some in H as (fields' & Hm & [= <-]). cbn [keyed] in *. apply andb_true_iff in Hk as [Hnd Hk]. apply bool_decide_eq_true in Hnd.
    rewrite forallb_forall_in in Hk. apply andb_true_iff. split.
    + apply bool_decide_eq_true. rewrite (js_sort_perm _ fields'). by rewrite (mapM_fields_fst _ _ _ Hm).
    + apply forallb_forall_in. intros y Hy. rewrite elem_of_js_sort in Hy. apply mapM_some in Hm.
      apply list_elem_of_lookup in Hy as [i Hi]. eapply Forall2_lookup_r in Hm as (x & Hx & E); [|done].
      apply bind_Some in E as (v & Hv & [= <-]). apply list_elem_of_lookup_2 in Hx. cbn. eapply IH; [|done|by apply (Hk x)].
      simpl. pose proof (sum_list_map_le (λ f, json_size f.2) _ _ Hx). simpl in *. lia.
Qed.
Lemma mapM_perm {A B} (f : A → option B) l l' : l ≡ₚ l' → ∀ k, mapM f l = Some k → ∃ k', mapM f l' = Some k' ∧ k ≡ₚ k'.
Proof.
  induction 1 as [|x l l' _ IH|x y l|l l' l'' _ IH _ IH']; intros k H.
  - exists []. by injection H as <-.
  - cbn in *. apply bind_Some in H as (v & -> & H). apply bind_Some in H as (vs & H & [= <-]).
    destruct (IH _ H) as (k' & Hk & Hp). cbn. rewrite Hk. exists (v :: k'). split; [done|]. by rewrite Hp.
  - cbn in *. apply bind_Some in H as (v & -> & H). apply bind_Some in H as (vs & H & [= <-]).
    apply bind_Some in H as (w & -> & H). apply bind_Some in H as (ws & -> & [= <-]).
    exists (w :: v :: ws). split; [done|]. constructor.
  - destruct (IH _ H) as (k' & Hk & Hp). destruct (IH' _ Hk) as (k'' & Hk' & Hp'). exists k''. split; [done|]. by rewrite Hp.
Qed.

Lemma Forall2_impl_in {A B} (P Q : A → B → Prop) l k :
  Forall2 P l k → (∀ x y, x ∈ l → y ∈ k → P x y → Q x y) → Forall2 Q l k.
Proof.
  induction 1 as [|x y l k H _ IH]; intros Hi; constructor.
  - by apply Hi; [left|left|].
  - apply IH. intros a b Ha Hb. by apply Hi; right.
Qed.
Lemma fields_same (l : list (jstring * json)) : NoDup l.*1 → ∀ x y, x ∈ l → y ∈ l → compareText x.1 y.1 = 0 → x = y.
Proof.
  intros Hnd [a v] [b w] Hx Hy E%compareText_eq. cbn in E. subst b.
  apply list_elem_of_lookup in Hx as [i Hi]. apply list_elem_of_lookup in Hy as [k Hk].
  assert (i = k) as ->; [|congruence].
  eapply (NoDup_lookup l.*1); [done| |]; by rewrite list_lookup_fmap, ?Hi, ?Hk.
Qed.

(** The order in which the fields are listed does not show in the copy. *)
Lemma serialize_owned j k : serialize j = Some k → keyed j = true → serialize (owned j) = Some k.
Proof.
  revert k. induction (Nat.lt_wf_0_projected json_size j) as [j _ IH]. intros k H Hk.
  destruct j as [|b|n|s|items|fields]; try done; cbn [owned serialize] in *.
  - apply bind_Some in H as (items' & Hm & [= <-]). cbn [keyed] in Hk. rewrite forallb_forall_in in Hk.
    apply bind_Some. exists items'. split; [|done]. apply mapM_some. apply mapM_some in Hm.
    change (map owned items) with (owned <$> items). rewrite Forall2_fmap_l. refine (Forall2_impl_in _ _ _ _ Hm _).
    intros x y Hx _ E. apply IH; [|done|by apply Hk]. simpl. pose proof (sum_list_map_le json_size _ _ Hx). lia.
  - apply bind_Some in H as (fields' & Hm & [= <-]). cbn [keyed] in Hk. apply andb_true_iff in Hk as [Hnd Hk]. apply bool_decide_eq_true in Hnd.
    rewrite forallb_forall_in in Hk.
    assert (mapM (λ f : jstring * json, v ← serialize f.2; Some (f.1, v)) (map (λ f : jstring * json, (f.1, owned f.2)) fields) = Some fields') as Hm'.
    { apply mapM_some. pose proof (proj1 (mapM_some _ _ _) Hm) as H2. change (map ?f fields) with (f <$> fields). rewrite Forall2_fmap_l.
      refine (Forall2_impl_in _ _ _ _ H2 _). intros x y Hx _ E. apply bind_Some in E as (v & Hv & [= <-]). cbn.
      rewrite (IH x.2) with (k := v); [done| |done|by apply (Hk x)]. simpl. pose proof (sum_list_map_le (λ f, json_size f.2) _ _ Hx). simpl in *. lia. }
    destruct (mapM_perm _ _ _ (symmetry (own_order_perm _)) _ Hm') as (k' & Hk' & Hp). rewrite Hk'. cbn. do 2 f_equal.
    apply (js_sort_perm_eq _); [|by symmetry].
    intros x y Hx Hy. rewrite <- Hp in Hx, Hy. eapply fields_same; [|exact Hx|exact Hy]. by rewrite (mapM_fields_fst _ _ _ Hm).
Qed.

Lemma if_bool_decide_same {A} (P Q : Prop) `{Decision P, Decision Q} (x y : A) : (P ↔ Q) → (if bool_decide P then x else y) = (if bool_decide Q then x else y).
Proof. intros H1. by rewrite (bool_decide_ext _ _ H1). Qed.

Section laws.
Context (number_text : jsnum → jstring) (number_of : jstring → jsnum) (codec : number_codec number_text number_of).
Abbreviation clone := (cloneJson number_text number_of).

(** [cloneJson] is [serializeWireValue]: the way through text changes nothing. *)
Lemma cloneJson_serialize v : keyed v = true → clone v = serializeWireValue v.
Proof.
  intros Hv. unfold cloneJson, serializeWireValue. destruct (serialize v) as [k|] eqn:E; [|done]. cbn [mbind result_bind].
  pose proof (serialize_keyed _ _ E Hv) as Hk. pose proof (serialize_wire _ _ E) as Hw.
  rewrite (JSON_parse_print _ _ codec k); [|by exists k|done]. by rewrite (serialize_owned _ _ Hw Hk).
Qed.
(** A value that is its own copy. *)
Definition stored (v : json) : Prop := wire v ∧ keyed v = true.
Lemma cloneJson_stored v : stored v → clone v = Ok v.
Proof. intros [Hw Hk]. rewrite cloneJson_serialize by done. unfold serializeWireValue. by rewrite Hw. Qed.
Lemma cloneJson_ok v k : keyed v = true → clone v = Ok k → serialize v = Some k ∧ stored k.
Proof.
  intros Hv. rewrite cloneJson_serialize by done. unfold serializeWireValue. destruct (serialize v) as [k'|] eqn:E; [|done].
  intros [= ->]. split; [done|]. split; [by eapply serialize_wire|by eapply serialize_keyed].
Qed.
Lemma clone_change_stored c : stored (cc_value c) → clone_change number_text number_of c = Ok c.
Proof. intros Hc. unfold clone_change. rewrite cloneJson_stored by done. by destruct c. Qed.

(** ** Watches *)
(** The changes after a cursor. *)
Definition after (cursor : Z) (p : LocalCoordinationProvider) : list CoordinationChange := List.filter (λ c, cursor <? cc_revision c) (lp_changes p).
(** What the readers of a watch were given. *)
Definition delivered (i : CoordinationWatchIterator) : list CoordinationChange := omap snd (wi_results i).

Record watch_law (changes : list CoordinationChange) (i : CoordinationWatchIterator) : Prop := {
  wl_open : wi_closed i = false → delivered i ++ wi_queue i = changes;
  wl_closed : wi_closed i = true → delivered i `prefix_of` changes ∧ wi_queue i = [] ∧ wi_waiters i = [];
  wl_waits : wi_waiters i ≠ [] → wi_queue i = [];
}.
Definition pushed (c : CoordinationChange) (i : CoordinationWatchIterator) : CoordinationWatchIterator :=
  match push number_text number_of c i with Ok i' => i' | Err _ => i end.

Lemma delivered_app i r l : wi_results i = l ++ r → delivered i = omap snd l ++ omap snd r.
Proof. unfold delivered. intros ->. by rewrite omap_app. Qed.
Lemma next_law changes reader i : watch_law changes i → watch_law changes (next reader i) ∧ wi_closed (next reader i) = wi_closed i.
Proof.
  intros [Ho Hc Hw]. unfold next. destruct i as [[|c queue] waiters [] results]; cbn in *; (split; [|done]); unfold delivered in *; cbn in *.
  - destruct (Hc eq_refl) as (H1 & _ & H2). split; [done| |done]. intros _. unfold delivered. cbn. by rewrite omap_app, app_nil_r.
  - by split.
  - by destruct (Hc eq_refl) as (_ & H1 & _).
  - split; [|done|intros H1; by apply Hw in H1]. intros _. unfold delivered. cbn. rewrite omap_app, <- app_assoc. by apply Ho.
Qed.
Lemma close_watch_law changes i : watch_law changes i → watch_law changes (close_watch i) ∧ wi_closed (close_watch i) = true.
Proof.
  intros [Ho Hc Hw]. unfold close_watch. destruct (wi_closed i) eqn:E; [split; [by split; rewrite ?E|done]|]. split; [|done]. split; cbn; [done| |done]. intros _.
  unfold delivered in *. cbn. rewrite omap_app. assert (omap snd (map (λ r : nat, (r, @None CoordinationChange)) (wi_waiters i)) = []) as ->.
  { clear. by induction (wi_waiters i) as [|r ws IH]. }
  rewrite app_nil_r. split; [|done]. exists (wi_queue i). by rewrite Ho.
Qed.
Lemma return_watch_law changes reader i : watch_law changes i → watch_law changes (return_watch reader i) ∧ wi_closed (return_watch reader i) = true.
Proof.
  intros H. destruct (close_watch_law _ _ H) as [[Ho Hc Hw] E]. unfold return_watch. split; [|done]. split; cbn; [congruence| |done]. intros _.
  unfold delivered in *. cbn. rewrite omap_app. cbn. rewrite app_nil_r. by apply Hc.
Qed.
Lemma push_stored c i : stored (cc_value c) → push number_text number_of c i = Ok (pushed c i).
Proof. intros Hs. unfold pushed, push. destruct (wi_closed i); [done|]. by rewrite clone_change_stored by done. Qed.
Lemma pushed_law changes c i : stored (cc_value c) → watch_law changes i →
  watch_law (if wi_closed i then changes else changes ++ [c]) (pushed c i) ∧ wi_closed (pushed c i) = wi_closed i.
Proof.
  intros Hs [Ho Hc Hw]. unfold pushed, push. destruct (wi_closed i) eqn:E.
  - split; [|done]. split; [by rewrite ?E|by rewrite ?E|done].
  - rewrite clone_change_stored by done. cbn. unfold delivered in *. destruct (wi_waiters i) as [|r ws] eqn:Ew; (split; [|done]); split; cbn; try done.
    + intros _. by rewrite app_assoc, Ho.
    + intros _. rewrite Hw in * by done. unfold delivered. cbn. rewrite omap_app. cbn. rewrite app_nil_r in *. by rewrite Ho.
    + intros _. by apply Hw.
Qed.
Lemma new_watch_stored changes : Forall (λ c, stored (cc_value c)) changes →
  new_watch number_text number_of changes = Ok {| wi_queue := changes; wi_waiters := []; wi_closed := false; wi_results := [] |}.
Proof.
  intros H. unfold new_watch. assert (mapM (clone_change number_text number_of) changes = Ok changes) as ->; [|done].
  apply mapM_ok. apply Forall_Forall2_diag. eapply Forall_impl; [done|]. intros c Hc. by apply clone_change_stored.
Qed.
(** Every watcher gets the change. *)
Lemma push_all_pushed c ws its : stored (cc_value c) → NoDup ws →
  ∃ its', push_all number_text number_of c ws its = (its', Ok tt) ∧ ∀ w, its' !! w = if bool_decide (w ∈ ws) then pushed c <$> its !! w else its !! w.
Proof.
  intros Hs. revert its. induction ws as [|w ws IH]; intros its Hnd; cbn [push_all]; [by exists its|]. apply NoDup_cons in Hnd as [Hw Hnd].
  destruct (its !! w) as [i|] eqn:E.
  - rewrite push_stored by done. destruct (IH (<[w := pushed c i]> its) Hnd) as (its' & -> & H). exists its'. split; [done|]. intros x. rewrite H.
    destruct (decide (x = w)) as [->|Hx].
    + rewrite bool_decide_false by done. rewrite bool_decide_true by by left. rewrite list_lookup_insert_eq by by eapply lookup_lt_Some. by rewrite E.
    + rewrite list_lookup_insert_ne by done. apply if_bool_decide_same. rewrite elem_of_cons. tauto.
  - destruct (IH its Hnd) as (its' & -> & H). exists its'. split; [done|]. intros x. rewrite H.
    destruct (decide (x = w)) as [->|Hx].
    + rewrite bool_decide_false by done. rewrite bool_decide_true by by left. by rewrite E.
    + apply if_bool_decide_same. rewrite elem_of_cons. tauto.
Qed.
End laws.
