(* ===== verification/CoordinationTheorems.v ===== *)
(** * What the local coordination promises

    A watch misses nothing, a guarded write does what it says and the log replays
    to the values, and a resource has at most one leadership that is not released. *)

From S2P Require Import Prelude JsString Collections Regex JsValue Identity Time JsonText Canonical JsonParse LocalCoordination CoordinationLaws.

Open Scope Z_scope.

(** The value the last change of a key gave it. *)
Definition latest (k : jstring) (changes : list CoordinationChange) : option CoordinationRecord :=
  foldl (λ current c, if bool_decide (cc_key c = k) then Some {| cr_value := cc_value c; cr_revision := cc_revision c |} else current) None changes.
Lemma latest_snoc k changes c :
  latest k (changes ++ [c]) = if bool_decide (cc_key c = k) then Some {| cr_value := cc_value c; cr_revision := cc_revision c |} else latest k changes.
Proof. unfold latest. by rewrite foldl_app. Qed.

(** A JavaScript object has one field of a name. *)
Definition event_keyed (e : Event) : Prop := match e with ESet r => keyed (cs_value r) = true | _ => True end.

Record log_ok (p : LocalCoordinationProvider) : Prop := {
  lo_revisions : StronglySorted Z.lt (cc_revision <$> lp_changes p);
  lo_changes : Forall (λ c, 0 < cc_revision c <= lp_revision p ∧ stored (cc_value c)) (lp_changes p);
  lo_records : ∀ k, lp_records p !! k = latest k (lp_changes p);
  lo_revision : 0 <= lp_revision p;
}.
Record watchers_ok (p : LocalCoordinationProvider) : Prop := {
  wo_once : NoDup (lp_watchers p);
  wo_open : ∀ id, id ∈ lp_watchers p ↔ ∃ i, lp_iterators p !! id = Some i ∧ wi_closed i = false;
}.
Record leaders_ok (p : LocalCoordinationProvider) : Prop := {
  ao_wf : JsMap.wf (lp_leadership p);
  ao_held : ∀ id h, lp_handles p !! id = Some h → (ha_released h = false ↔ JsMap.get (lp_leadership p) (ha_resource h) = Some id);
  ao_known : ∀ resource id, JsMap.get (lp_leadership p) resource = Some id → ∃ h, lp_handles p !! id = Some h ∧ ha_resource h = resource;
  ao_closed : lp_lifecycle p = Closed → ∀ resource, JsMap.get (lp_leadership p) resource = None;
}.

Section provider.
Context (number_text : jsnum → jstring) (number_of : jstring → jsnum) (codec : number_codec number_text number_of).
Abbreviation steps := (steps number_text number_of).
Abbreviation step := (step number_text number_of).

(** ** The write *)
(** What a write of a stored value leaves behind. *)
Definition after_set (key : jstring) (v : json) (p p' : LocalCoordinationProvider) : Prop :=
  let c := {| cc_key := key; cc_revision := lp_revision p + 1; cc_value := v |} in
  lp_records p' = <[key := {| cr_value := v; cr_revision := lp_revision p + 1 |}]> (lp_records p) ∧
  lp_changes p' = lp_changes p ++ [c] ∧ lp_revision p' = lp_revision p + 1 ∧
  lp_handles p' = lp_handles p ∧ lp_leadership p' = lp_leadership p ∧ lp_lifecycle p' = lp_lifecycle p ∧ lp_watchers p' = lp_watchers p ∧
  ∀ w, lp_iterators p' !! w = if bool_decide (w ∈ lp_watchers p) then pushed number_text number_of c <$> lp_iterators p !! w else lp_iterators p !! w.

Lemma apply_set_ok r p : keyed (cs_value r) = true → NoDup (lp_watchers p) →
  match serialize (cs_value r) with
  | Some v => stored v ∧ ∃ p', apply_set number_text number_of r p = (p', Ok {| ca_applied := true; ca_value := Some v; ca_revision := Some (lp_revision p + 1) |}) ∧ after_set (cs_key r) v p p'
  | None => apply_set number_text number_of r p = (with_revision (lp_revision p + 1) p, Err (DiagnosticError "PROTOCOL_WIRE_VALUE_INVALID"))
  end.
Proof.
  intros Hk Hw. unfold apply_set. pose proof (cloneJson_serialize _ _ codec _ Hk) as E. unfold serializeWireValue in E. destruct (serialize (cs_value r)) as [v|] eqn:Es; [|by rewrite E].
  rewrite E. assert (stored v) as Hs by (split; [by eapply serialize_wire|by eapply serialize_keyed]). split; [done|].
  rewrite (cloneJson_stored _ _ codec _ Hs). cbn [with_record with_revision lp_watchers lp_iterators lp_changes lp_records].
  destruct (push_all_pushed _ _ codec {| cc_key := cs_key r; cc_revision := lp_revision p + 1; cc_value := v |} (lp_watchers p) (lp_iterators p) Hs Hw) as (its & Hp & Hi).
  rewrite Hp. cbn. eexists. split; [done|]. by split_and!.
Qed.

(** ** Steps *)
(** The two ways a write ends: nothing is written, or a stored value is. *)
Lemma set_cases r p : keyed (cs_value r) = true → NoDup (lp_watchers p) → ∃ p',
  (compareAndSet number_text number_of r p).1 = p' ∧
  (p' = p ∨ p' = with_revision (lp_revision p + 1) p ∨ ∃ v, stored v ∧ after_set (cs_key r) v p p').
Proof.
  intros Hk Hw. unfold compareAndSet. destruct (assertOpen p;; _) as [u|e]; [|eexists; split; [done|by left]].
  destruct (negb _); [eexists; split; [done|by left]|]. pose proof (apply_set_ok r p Hk Hw) as H. destruct (serialize (cs_value r)) as [v|].
  - destruct H as (Hs & p' & -> & H). exists p'. split; [done|]. right; right. by exists v.
  - rewrite H. eexists. split; [done|]. by right; left.
Qed.

Lemma after_set_log key v p p' : stored v → after_set key v p p' → log_ok p → log_ok p'.
Proof.
  intros Hs (Hr & Hc & Hv & _) [H1 H2 H3 H4]. split; rewrite ?Hc, ?Hv; [| | |lia].
  - rewrite fmap_app. cbn. apply StronglySorted_app. split_and!; [|done|by repeat constructor]. intros x y Hx Hy. apply list_elem_of_singleton in Hy as ->.
    apply list_elem_of_fmap in Hx as (c & -> & Hc'). rewrite Forall_forall in H2. apply H2 in Hc'. cbn. lia.
  - apply Forall_app. split; [eapply Forall_impl; [exact H2|]; intros c [? ?]; split; [lia|done]|]. repeat constructor; cbn; try done; try lia; apply Hs.
  - intros k. rewrite Hr, latest_snoc. cbn. destruct (decide (key = k)) as [->|Hne].
    + by rewrite lookup_insert_eq, bool_decide_true by done.
    + rewrite lookup_insert_ne by done. by rewrite bool_decide_false.
Qed.
Lemma pushed_closed c i : stored (cc_value c) → wi_closed (pushed number_text number_of c i) = wi_closed i.
Proof.
  intros Hs. unfold pushed, push. destruct (wi_closed i) eqn:E; [done|]. rewrite (clone_change_stored _ _ codec) by done. cbn. by destruct (wi_waiters i).
Qed.
Lemma after_set_watchers key v p p' : stored v → after_set key v p p' → watchers_ok p → watchers_ok p'.
Proof.
  intros Hs (_ & _ & _ & _ & _ & _ & Hw & Hi) [H1 H2]. split; rewrite Hw; [done|]. intros id. rewrite H2, Hi.
  assert (stored (cc_value {| cc_key := key; cc_revision := lp_revision p + 1; cc_value := v |})) as Hc by done.
  case_bool_decide as Hin; [|done]. split.
  - intros (i & E & Ho). rewrite E. eexists. split; [done|]. by rewrite pushed_closed.
  - intros (i' & E & Ho). apply fmap_Some in E as (i & E & ->). rewrite pushed_closed in Ho by done. by exists i.
Qed.

Lemma alter_watchers f id p : watchers_ok p → (∀ i, wi_closed (f i) = wi_closed i) → watchers_ok (with_watches (alter f id (lp_iterators p)) (lp_watchers p) p).
Proof.
  intros [H1 H2] Hf. split; cbn; [done|]. intros x. rewrite H2. destruct (decide (x = id)) as [->|Hx].
  - rewrite list_lookup_alter_eq. split.
    + intros (i & E & Ho). exists (f i). by rewrite E, Hf.
    + intros (i' & E & Ho). apply fmap_Some in E as (i & E & ->). exists i. by rewrite Hf in Ho.
  - by rewrite list_lookup_alter_ne by done.
Qed.
Lemma next_closed reader i : wi_closed (next reader i) = wi_closed i.
Proof. unfold next. destruct (wi_queue i); [|done]. by destruct (wi_closed i). Qed.
Lemma close_watch_closed i : wi_closed (close_watch i) = true.
Proof. unfold close_watch. by destruct (wi_closed i) eqn:E. Qed.
Lemma close_all_lookup ws (its : list CoordinationWatchIterator) id :
  foldl (λ l w, alter close_watch w l) its ws !! id = if bool_decide (id ∈ ws) then close_watch <$> its !! id else its !! id.
Proof.
  revert its. induction ws as [|w ws IH]; intros its; cbn [foldl]; [done|]. rewrite IH. destruct (decide (id = w)) as [->|Hne].
  - rewrite list_lookup_alter_eq. rewrite (bool_decide_true (w ∈ w :: ws)) by by left. case_bool_decide; [|done].
    destruct (its !! w) as [i|]; [|done]. cbn. f_equal. unfold close_watch at 1. by rewrite close_watch_closed.
  - rewrite list_lookup_alter_ne by done. apply if_bool_decide_same. rewrite elem_of_cons. tauto.
Qed.

(** *** Leadership *)
Lemma release_state id p : (release id p).1 = p ∨ ∃ h, lp_handles p !! id = Some h ∧ ha_released h = false ∧
  (release id p).1 = with_leadership (<[id := {| ha_resource := ha_resource h; ha_released := true |}]> (lp_handles p))
    (if bool_decide (JsMap.get (lp_leadership p) (ha_resource h) = Some id) then JsMap.delete (lp_leadership p) (ha_resource h) else lp_leadership p) p.
Proof.
  unfold release. destruct (lp_handles p !! id) as [h|] eqn:E; [|by left]. destruct (ha_released h) eqn:Er; [by left|]. right. by exists h.
Qed.
Lemma release_log id p : let p' := (release id p).1 in
  lp_records p' = lp_records p ∧ lp_changes p' = lp_changes p ∧ lp_iterators p' = lp_iterators p ∧ lp_watchers p' = lp_watchers p ∧
  lp_revision p' = lp_revision p ∧ lp_lifecycle p' = lp_lifecycle p.
Proof. cbn. by destruct (release_state id p) as [->|(h & _ & _ & ->)]. Qed.
(** What holds of the handles whatever the lifecycle. *)
Definition held_ok (p : LocalCoordinationProvider) : Prop :=
  JsMap.wf (lp_leadership p) ∧
  (∀ id h, lp_handles p !! id = Some h → (ha_released h = false ↔ JsMap.get (lp_leadership p) (ha_resource h) = Some id)) ∧
  (∀ resource id, JsMap.get (lp_leadership p) resource = Some id → ∃ h, lp_handles p !! id = Some h ∧ ha_resource h = resource).
Lemma release_held id p : held_ok p →
  held_ok (release id p).1 ∧ ∀ resource x, JsMap.get (lp_leadership (release id p).1) resource = Some x ↔ JsMap.get (lp_leadership p) resource = Some x ∧ x ≠ id.
Proof.
  intros (H1 & H2 & H3).
  destruct (release_state id p) as [E|(h & Hh & Er & E)].
  - rewrite E. split; [by split_and!|]. intros resource x. split; [|tauto]. intros Hx. split; [done|]. intros ->.
    destruct (H3 _ _ Hx) as (h & Hh & Hr). subst resource. pose proof (proj2 (H2 _ _ Hh) Hx) as Er.
    unfold release in E. rewrite Hh, Er, bool_decide_true in E by done. cbn in E. apply (f_equal lp_leadership) in E. cbn in E.
    rewrite <- E, JsMap.get_delete_eq in Hx by done. done.
  - pose proof (proj1 (H2 _ _ Hh) Er) as Hg. rewrite E, bool_decide_true by done. unfold held_ok. cbn.
    assert (∀ resource x, JsMap.get (JsMap.delete (lp_leadership p) (ha_resource h)) resource = Some x ↔ JsMap.get (lp_leadership p) resource = Some x ∧ x ≠ id) as Hd.
    { intros resource x. destruct (decide (resource = ha_resource h)) as [->|Hne].
      - rewrite JsMap.get_delete_eq by done. rewrite Hg. split; [done|]. by intros [[= ->] ?].
      - rewrite JsMap.get_delete_ne by done. split; [|tauto]. intros Hx. split; [done|]. intros ->. apply H3 in Hx as (h' & Hh' & <-). naive_solver. }
    split; [|done]. split_and!; [by apply JsMap.wf_delete| |].
    + intros x hx Hx. rewrite Hd. destruct (decide (x = id)) as [->|Hne].
      * rewrite list_lookup_insert_eq in Hx by by eapply lookup_lt_Some. injection Hx as <-. cbn. naive_solver.
      * rewrite list_lookup_insert_ne in Hx by done. rewrite (H2 _ _ Hx). tauto.
    + intros resource x. rewrite Hd. intros [Hx Hne]. destruct (H3 _ _ Hx) as (h' & Hh' & Hr). exists h'. split; [|done]. by rewrite list_lookup_insert_ne by done.
Qed.

Definition close_release : LocalCoordinationProvider * list nat → nat → LocalCoordinationProvider * list nat :=
  λ '(p, lost) id, let '(p', l) := release id p in (p', if l then lost ++ [id] else lost).
Lemma close_releases ids a : held_ok a.1 → let a' := foldl close_release a ids in
  held_ok a'.1 ∧ (∀ resource x, JsMap.get (lp_leadership a'.1) resource = Some x → JsMap.get (lp_leadership a.1) resource = Some x ∧ x ∉ ids) ∧
  lp_records a'.1 = lp_records a.1 ∧ lp_changes a'.1 = lp_changes a.1 ∧ lp_iterators a'.1 = lp_iterators a.1 ∧ lp_watchers a'.1 = lp_watchers a.1 ∧
  lp_revision a'.1 = lp_revision a.1 ∧ lp_lifecycle a'.1 = lp_lifecycle a.1.
Proof.
  cbn zeta. revert a. induction ids as [|id ids IH]; intros a Ha; cbn [foldl].
  - split; [done|]. split; [|done]. intros resource x Hx. split; [done|set_solver].
  - assert ((close_release a id).1 = (release id a.1).1) as E by (destruct a as [p lost]; cbn; by destruct (release id p)).
    destruct (release_held id _ Ha) as [Hh Hg]. destruct (release_log id a.1) as (L1 & L2 & L3 & L4 & L5 & L6).
    destruct (IH (close_release a id)) as (K1 & K2 & K3 & K4 & K5 & K6 & K7 & K8); [by rewrite E|]. rewrite E in *.
    split; [done|]. split; [|by split_and!; etrans].
    intros resource x Hx. apply K2 in Hx as [Hx Hn]. apply Hg in Hx as [Hx Hne]. split; [done|]. set_solver.
Qed.
Lemma held_leaders p : held_ok p → (lp_lifecycle p = Closed → ∀ resource, JsMap.get (lp_leadership p) resource = None) → leaders_ok p.
Proof. intros (H1 & H2 & H3) H4. by split. Qed.
Lemma leaders_held p : leaders_ok p → held_ok p.
Proof. by intros [H1 H2 H3 _]. Qed.

Lemma close_begin_same p : leaders_ok p → let p' := (close_begin p).1 in
  leaders_ok p' ∧ lp_records p' = lp_records p ∧ lp_changes p' = lp_changes p ∧ lp_iterators p' = lp_iterators p ∧ lp_watchers p' = lp_watchers p ∧ lp_revision p' = lp_revision p ∧ lp_lifecycle p' = Closed.
Proof.
  cbn zeta. intros H. unfold close_begin. destruct (lp_lifecycle p) eqn:E; [done| |].
  all: destruct (close_releases (JsMap.values (lp_leadership p)) (with_lifecycle Closed p, []) (leaders_held _ H)) as (K1 & K2 & K3 & K4 & K5 & K6 & K7 & K8).
  all: match goal with |- context [foldl ?f _ _] => change f with close_release end; (split; [|done]).
  all: apply held_leaders; [done|]; intros _ resource; destruct (JsMap.get _ resource) as [x|] eqn:Ex; [|done]; apply K2 in Ex as [Ex Hn]; destruct Hn.
  all: apply JsMap.get_in in Ex; unfold JsMap.values; apply list_elem_of_fmap; by exists (resource, x).
Qed.
Lemma campaign_held resource p : held_ok p → held_ok (campaign resource p).1.
Proof.
  intros (H1 & H2 & H3). unfold campaign. destruct (assertOpen p;; _) as [u|e]; [|done]. destruct (JsMap.get (lp_leadership p) resource) as [x|] eqn:Ex; [done|].
  unfold held_ok. cbn.
  split_and!; [by apply JsMap.wf_set| |].
  - intros id h Hh. apply lookup_app_Some in Hh as [Hh|[Hle Hh]].
    + rewrite (H2 _ _ Hh). destruct (decide (resource = ha_resource h)) as [<-|Hne]; [|by rewrite JsMap.get_set_ne].
      rewrite JsMap.get_set_eq, Ex. split; [done|]. intros [= <-]. apply lookup_lt_Some in Hh. lia.
    + apply list_lookup_singleton_Some in Hh as [Hid <-]. cbn. rewrite JsMap.get_set_eq. assert (id = length (lp_handles p)) as -> by lia. tauto.
  - intros r id Hr. destruct (decide (resource = r)) as [->|Hne].
    + rewrite JsMap.get_set_eq in Hr. injection Hr as <-. eexists. split; [by apply list_lookup_middle|done].
    + rewrite JsMap.get_set_ne in Hr by done. destruct (H3 _ _ Hr) as (h & Hh & E). exists h. split; [|done]. by apply lookup_app_l_Some.
Qed.

(** *** Every event *)
Record provider_ok (p : LocalCoordinationProvider) : Prop := { po_log : log_ok p; po_watchers : watchers_ok p; po_leaders : leaders_ok p }.

Lemma provider_log_same p p' : lp_records p' = lp_records p → lp_changes p' = lp_changes p → lp_revision p <= lp_revision p' → log_ok p → log_ok p'.
Proof.
  intros E1 E2 E3 [H1 H2 H3 H4]. split; rewrite ?E1, ?E2; [done| |done|lia].
  eapply Forall_impl; [exact H2|]. intros c [? ?]. split; [lia|done].
Qed.
Lemma watchers_same p p' : lp_iterators p' = lp_iterators p → lp_watchers p' = lp_watchers p → watchers_ok p → watchers_ok p'.
Proof. intros E1 E2 [H1 H2]. by split; rewrite ?E1, ?E2. Qed.
Lemma leaders_same p p' : lp_handles p' = lp_handles p → lp_leadership p' = lp_leadership p → lp_lifecycle p' = lp_lifecycle p → leaders_ok p → leaders_ok p'.
Proof. intros E1 E2 E3 [H1 H2 H3 H4]. by split; rewrite ?E1, ?E2, ?E3. Qed.
Lemma with_watches_ok its ws p : provider_ok p → watchers_ok (with_watches its ws p) → provider_ok (with_watches its ws p).
Proof. intros [H1 H2 H3] H. split; [|done|]; [by eapply provider_log_same; [..|exact H1]; cbn; try done; lia|by eapply leaders_same; [..|exact H3]]. Qed.
(** Closing a watch takes it from the watchers. *)
Lemma close_one_ok f id p : (∀ i, wi_closed (f i) = true) → watchers_ok p → watchers_ok (with_watches (alter f id (lp_iterators p)) (remove_watcher id (lp_watchers p)) p).
Proof.
  intros Hf [H1 H2]. split; cbn; unfold remove_watcher.
  - by apply NoDup_filterb.
  - intros x. rewrite elem_of_filterb, H2, negb_true_iff, Nat.eqb_neq. destruct (decide (x = id)) as [->|Hne].
    + rewrite list_lookup_alter_eq. split; [tauto|]. intros (i' & E & Ho). apply fmap_Some in E as (i & E & ->). by rewrite Hf in Ho.
    + rewrite list_lookup_alter_ne by done. tauto.
Qed.

Lemma created_provider_ok : provider_ok createProvider.
Proof.
  split; split; cbn; try done; try (by constructor).
  intros id. split; [set_solver|]. by intros (i & Hi & _).
Qed.
Lemma watch_ok cursor p : provider_ok p → (watch number_text number_of cursor p).1 = p ∨
  (watch number_text number_of cursor p).1 = with_watches (lp_iterators p ++ [{| wi_queue := after cursor p; wi_waiters := []; wi_closed := false; wi_results := [] |}]) (lp_watchers p ++ [length (lp_iterators p)]) p.
Proof.
  intros H. unfold watch. destruct (assertOpen p); [|by left]. cbn. rewrite (new_watch_stored _ _ codec); [by right|].
  apply Forall_forall. intros c Hc%elem_of_filterb. pose proof (lo_changes _ (po_log _ H)) as Hl. rewrite Forall_forall in Hl. by apply (Hl c (proj1 Hc)).
Qed.
Lemma add_watcher_ok i p : wi_closed i = false → watchers_ok p → watchers_ok (with_watches (lp_iterators p ++ [i]) (lp_watchers p ++ [length (lp_iterators p)]) p).
Proof.
  intros Hi [H1 H2].
  split; cbn.
  - apply NoDup_app. split_and!; [done| |apply NoDup_singleton]. intros x Hx%H2 ->%list_elem_of_singleton. destruct Hx as (j & Hj & _). apply lookup_lt_Some in Hj. lia.
  - intros x. rewrite elem_of_app, list_elem_of_singleton, H2. split.
    + intros [(j & Hj & Ho)| ->]; [exists j; split; [by apply lookup_app_l_Some|done]|]. exists i. split; [by apply list_lookup_middle|done].
    + intros (j & Hj & Ho). apply lookup_app_Some in Hj as [Hj|[Hle Hj]]; [left; by exists j|]. right. apply list_lookup_singleton_Some in Hj as [Hj _]. lia.
Qed.
Lemma provider_step_ok e p : event_keyed e → provider_ok p → provider_ok (step p e).
Proof.
  intros He H. destruct H as [H1 H2 H3]. destruct e; cbn [LocalCoordination.step event_keyed] in *.
  - unfold open. destruct (lp_lifecycle p) eqn:E; cbn; [by split| |]; (split; [by eapply provider_log_same; [..|exact H1]; cbn; try done; lia|by eapply watchers_same; [..|exact H2]|by apply held_leaders; [exact (leaders_held _ H3)|]]).
  - split; [| |apply held_leaders; [by apply campaign_held, leaders_held|]]; unfold campaign.
    all: destruct (assertOpen p;; assertResource resource) as [u|x] eqn:E; [|done || apply H3].
    all: destruct (JsMap.get (lp_leadership p) resource) eqn:Eg; [done || apply H3|]; cbn.
    + by eapply provider_log_same; [..|exact H1]; cbn; try done; lia.
    + by eapply watchers_same; [..|exact H2].
    + intros Hc. unfold assertOpen in E. by rewrite Hc in E.
  - destruct (release_log handle p) as (L1 & L2 & L3 & L4 & L5 & L6). destruct (release_held handle p (leaders_held _ H3)) as [Hh Hg].
    split; [by eapply provider_log_same; [..|exact H1]; try done; lia|by eapply watchers_same; [..|exact H2]|]. apply held_leaders; [done|]. rewrite L6. intros Hc resource.
    destruct (JsMap.get (lp_leadership (release handle p).1) resource) as [x|] eqn:Ex; [|done]. apply Hg in Ex as [Ex _]. by rewrite (ao_closed _ H3 Hc) in Ex.
  - destruct (set_cases r p He (wo_once _ H2)) as (p' & -> & [-> | [-> | (v & Hs & Ha)]]); [by split| |].
    + split; [by eapply provider_log_same; [..|exact H1]; cbn; try done; lia|by eapply watchers_same; [..|exact H2]|by eapply leaders_same; [..|exact H3]].
    + split; [by eapply after_set_log|by eapply after_set_watchers|]. destruct Ha as (_ & _ & _ & E1 & E2 & E3 & _). by eapply leaders_same; [..|exact H3].
  - destruct (watch_ok cursor p ltac:(by split)) as [-> | ->]; [by split|]. apply with_watches_ok; [by split|]. by apply add_watcher_ok.
  - apply with_watches_ok; [by split|]. apply alter_watchers; [done|]. apply next_closed.
  - apply with_watches_ok; [by split|]. apply close_one_ok; [|done]. intros i. unfold return_watch. cbn. apply close_watch_closed.
  - destruct (close_begin_same p H3) as (K1 & K2 & K3 & K4 & K5 & K6 & K7). split; [by eapply provider_log_same; [..|exact H1]; try done; lia|by eapply watchers_same; [..|exact H2]|done].
  - unfold close_end. destruct (lp_lifecycle p) eqn:E; [|by split|by split]. apply with_watches_ok; [by split|]. split; cbn; [constructor|]. intros id.
    split; [set_solver|]. intros (i & Hi & Ho). rewrite close_all_lookup in Hi. exfalso. case_bool_decide as Hin.
    + apply fmap_Some in Hi as (i' & _ & ->). by rewrite close_watch_closed in Ho.
    + apply Hin, (wo_open _ H2). by exists i.
Qed.
Lemma provider_steps_ok es p : Forall event_keyed es → provider_ok p → provider_ok (steps p es).
Proof. unfold LocalCoordination.steps. revert p. induction es as [|e es IH]; intros p He Hp; cbn; [done|]. apply Forall_cons in He as [He Hes]. by apply IH, provider_step_ok. Qed.

(** ** Watches *)
(** What a watch opened after [n] changes owes its readers. *)
Definition due (cursor : Z) (n : nat) (p : LocalCoordinationProvider) : list CoordinationChange :=
  List.filter (λ c, cursor <? cc_revision c) (take n (lp_changes p)) ++ drop n (lp_changes p).
Definition watched (cursor : Z) (n id : nat) (p : LocalCoordinationProvider) : Prop :=
  (n <= length (lp_changes p))%nat ∧ ∃ i, lp_iterators p !! id = Some i ∧ watch_law (due cursor n p) i.

Lemma watched_same cursor n id p p' : lp_changes p' = lp_changes p → lp_iterators p' = lp_iterators p → watched cursor n id p → watched cursor n id p'.
Proof. unfold watched, due. by intros -> ->. Qed.
Lemma watched_alter cursor n id f x ws p : (∀ l i, watch_law l i → watch_law l (f i)) →
  watched cursor n id p → watched cursor n id (with_watches (alter f x (lp_iterators p)) ws p).
Proof.
  intros Hf (Hn & i & Hi & Hl). split; [done|]. cbn. destruct (decide (id = x)) as [->|Hne].
  - exists (f i). split; [by rewrite list_lookup_alter_eq, Hi|by apply Hf].
  - exists i. split; [by rewrite list_lookup_alter_ne by done|done].
Qed.
Lemma watch_law_closed l l' i : wi_closed i = true → l `prefix_of` l' → watch_law l i → watch_law l' i.
Proof.
  intros Hc Hp [H1 H2 H3]. split; [congruence| |done]. intros _. destruct (H2 Hc) as (H4 & H5 & H6). split; [by etrans|done].
Qed.
Lemma due_snoc cursor n p p' c : (n <= length (lp_changes p))%nat → lp_changes p' = lp_changes p ++ [c] → due cursor n p' = due cursor n p ++ [c].
Proof. intros Hn E. unfold due. rewrite E, take_app_le, drop_app_le by done. by rewrite app_assoc. Qed.
Lemma set_watched cursor n id key v p p' : watchers_ok p → stored v → after_set key v p p' → watched cursor n id p → watched cursor n id p'.
Proof.
  intros Hw Hs (_ & Hc & _ & _ & _ & _ & _ & Hi) (Hn & i & E & Hl). split; [rewrite Hc, length_app; lia|]. rewrite (due_snoc _ _ _ _ _ Hn Hc).
  destruct (pushed_law _ _ codec _ {| cc_key := key; cc_revision := lp_revision p + 1; cc_value := v |} i Hs Hl) as [Hp Hx]. setoid_rewrite Hi. rewrite E. case_bool_decide as Hin.
  - eexists. split; [done|]. destruct (wi_closed i) eqn:Eo; [|done]. apply (wo_open _ Hw) in Hin as (i' & E' & ?). congruence.
  - exists i. split; [done|]. destruct (wi_closed i) eqn:Eo; [|destruct Hin; apply (wo_open _ Hw); by exists i]. eapply watch_law_closed; [done| |done]. by eexists.
Qed.
Lemma step_watched cursor n id e p : event_keyed e → provider_ok p → watched cursor n id p → watched cursor n id (step p e).
Proof.
  intros He H Hw. destruct e; cbn [LocalCoordination.step event_keyed] in *.
  - unfold open. by destruct (lp_lifecycle p).
  - unfold campaign. destruct (assertOpen p;; _); [|done]. by destruct (JsMap.get _ _).
  - destruct (release_log handle p) as (_ & L1 & L2 & _). by eapply watched_same.
  - destruct (set_cases r p He (wo_once _ (po_watchers _ H))) as (p' & -> & [-> | [-> | (v & Hs & Ha)]]); [done|done|]. eapply set_watched; [|done|done|done]. apply H.
  - destruct (watch_ok cursor0 p H) as [-> | ->]; [done|]. destruct Hw as (Hn & i & Hi & Hl). split; [done|]. exists i. split; [by apply lookup_app_l_Some|done].
  - apply watched_alter; [|done]. intros l i Hl. by apply next_law.
  - apply watched_alter; [|done]. intros l i Hl. by apply return_watch_law.
  - destruct (close_begin_same p (po_leaders _ H)) as (_ & _ & L1 & L2 & _). by eapply watched_same.
  - unfold close_end. destruct (lp_lifecycle p); [|done..]. destruct Hw as (Hn & i & Hi & Hl). split; [done|]. cbn. rewrite close_all_lookup, Hi.
    case_bool_decide; [|by exists i]. eexists. split; [done|]. by apply close_watch_law.
Qed.
Lemma steps_watched cursor n id es p : Forall event_keyed es → provider_ok p → watched cursor n id p → watched cursor n id (steps p es).
Proof.
  unfold LocalCoordination.steps. revert p. induction es as [|e es IH]; intros p He Hp Hw; cbn; [done|]. apply Forall_cons in He as [He Hes].
  apply IH; [done|by apply provider_step_ok|by apply step_watched].
Qed.
Lemma filterb_all {A} (f : A → bool) l : (∀ x, x ∈ l → f x = true) → List.filter f l = l.
Proof. induction l as [|x l IH]; intros H; cbn; [done|]. rewrite (H x (list_elem_of_here _ _)). f_equal. apply IH. intros y Hy. apply H. by right. Qed.
(** The log grows at its end. *)
Lemma step_log e p : event_keyed e → provider_ok p → ∃ cs, lp_changes (step p e) = lp_changes p ++ cs ∧ Forall (λ c, lp_revision p < cc_revision c) cs ∧ lp_revision p <= lp_revision (step p e).
Proof.
  intros He H. destruct e; cbn [LocalCoordination.step event_keyed] in *.
  4: { destruct (set_cases r p He (wo_once _ (po_watchers _ H))) as (p' & -> & [-> | [-> | (v & Hs & _ & Hc & Hr & _)]]).
    - exists []. rewrite app_nil_r. by split_and!.
    - exists []. rewrite app_nil_r. split_and!; [done|by constructor|cbn; lia].
    - eexists. split; [done|]. rewrite Hr. split; [|lia]. repeat constructor. cbn. lia. }
  all: exists []; rewrite app_nil_r; (split; [|split; [by constructor|]]).
  1,2: unfold open; by destruct (lp_lifecycle p).
  1,2: unfold campaign; destruct (assertOpen p;; _); [|done]; by destruct (JsMap.get _ _).
  1,2: destruct (release_log handle p) as (_ & L1 & _ & _ & L2 & _); rewrite ?L1, ?L2; done.
  1,2: by destruct (watch_ok cursor p H) as [-> | ->].
  1-4: done.
  1,2: destruct (close_begin_same p (po_leaders _ H)) as (_ & _ & L1 & _ & _ & L2 & _); rewrite ?L1, ?L2; done.
  1,2: unfold close_end; by destruct (lp_lifecycle p).
Qed.
Lemma steps_log es p : Forall event_keyed es → provider_ok p → ∃ cs, lp_changes (steps p es) = lp_changes p ++ cs ∧ Forall (λ c, lp_revision p < cc_revision c) cs ∧ lp_revision p <= lp_revision (steps p es).
Proof.
  unfold LocalCoordination.steps. revert p. induction es as [|e es IH]; intros p He Hp; cbn [foldl]; [exists []; rewrite app_nil_r; by split_and!|].
  apply Forall_cons in He as [He Hes]. destruct (step_log e p He Hp) as (cs & E & Hc & Hr). destruct (IH (step p e) Hes (provider_step_ok _ _ He Hp)) as (cs' & E' & Hc' & Hr').
  exists (cs ++ cs'). rewrite E', E, app_assoc. split; [done|]. split; [|lia]. apply Forall_app. split; [done|]. eapply Forall_impl; [exact Hc'|]. cbn. intros c ?. lia.
Qed.

(** ** Theorems *)
(** A watch loses no change and repeats none: while it is open, what its readers
    were given and what is queued are the changes after its cursor when it was opened,
    in the order they were made, and then every change made since; a reader waits only
    when it was given all of them. Once closed, it gave a beginning of them. With a
    cursor the provider reached already, they are the changes after the cursor. *)
Theorem watch_misses_nothing es es' cursor p' id :
  Forall event_keyed es → Forall event_keyed es' →
  let p := steps createProvider es in
  watch number_text number_of cursor p = (p', Ok id) →
  let q := steps p' es' in
  ∃ i, lp_iterators q !! id = Some i ∧
    let owed := after cursor p ++ drop (length (lp_changes p)) (lp_changes q) in
    (if wi_closed i then delivered i `prefix_of` owed else delivered i ++ wi_queue i = owed ∧ (wi_waiters i ≠ [] → delivered i = owed)) ∧
    (cursor <= lp_revision p → owed = after cursor q).
Proof.
  intros He He' p Hw q. assert (provider_ok p) as Hp by (apply provider_steps_ok; [done|apply created_provider_ok]).
  assert (p' = with_watches (lp_iterators p ++ [{| wi_queue := after cursor p; wi_waiters := []; wi_closed := false; wi_results := [] |}]) (lp_watchers p ++ [length (lp_iterators p)]) p ∧ id = length (lp_iterators p)) as [-> ->].
  { unfold watch in Hw. destruct (assertOpen p); [|done]. cbn in Hw. rewrite (new_watch_stored _ _ codec) in Hw; [by injection Hw as <- <-|].
    apply Forall_forall. intros c Hc%elem_of_filterb. pose proof (lo_changes _ (po_log _ Hp)) as Hl. rewrite Forall_forall in Hl. by apply (Hl c (proj1 Hc)). }
  set (p' := with_watches _ _ p) in *. assert (provider_ok p') as Hp' by (apply with_watches_ok; [done|]; by apply add_watcher_ok, Hp).
  assert (watched cursor (length (lp_changes p)) (length (lp_iterators p)) p') as Hd.
  { split; [done|]. eexists. split; [by apply list_lookup_middle|]. unfold due. cbn. rewrite take_ge, drop_ge, app_nil_r by lia. by split. }
  destruct (steps_watched _ _ _ _ _ He' Hp' Hd) as (Hn & i & Hi & [H1 H2 H3]). fold q in Hi, Hn, H1, H2. destruct (steps_log _ _ He' Hp') as (cs & Hcs & Hr & _). fold q in Hcs. cbn in Hcs, Hr.
  assert (due cursor (length (lp_changes p)) q = after cursor p ++ drop (length (lp_changes p)) (lp_changes q)) as Ed.
  { unfold due, after. by rewrite Hcs, take_app_length. }
  rewrite Ed in *. exists i. split; [done|]. cbn zeta. split.
  - destruct (wi_closed i); [by apply H2|]. specialize (H1 eq_refl). split; [done|]. intros E. by rewrite (H3 E), app_nil_r in H1.
  - intros Hc. unfold after. rewrite Hcs, drop_app_length, List.filter_app. f_equal. symmetry. apply filterb_all. intros c Hin. rewrite Forall_forall in Hr.
    apply Z.ltb_lt. specialize (Hr c Hin). lia.
Qed.

(** C13. A guarded write is applied exactly when the expected revision is the one of the
    key, no matter what went before. Applied, it gives the key the copied value under
    the next revision, above every one in use, appends it to the log and leaves the
    other keys alone; otherwise nothing changes and the answer is the value and revision
    the key has. It fails only when the provider is not open, the key is empty or the
    value is no JSON data, and then writes nothing. The values are what the log, with
    rising revisions, replays to. *)
Theorem guarded_values es r :
  Forall event_keyed es → keyed (cs_value r) = true →
  let p := steps createProvider es in
  let current := lp_records p !! cs_key r in
  let expected := matches (cs_expectedRevision r) current in
  (expected = true ↔ match cs_expectedRevision r with
                     | None => True
                     | Some Absent => current = None
                     | Some (At n) => cr_revision <$> current = Some n
                     end) ∧
  (∀ k, lp_records p !! k = latest k (lp_changes p)) ∧ StronglySorted Z.lt (cc_revision <$> lp_changes p) ∧
  Forall (λ c, cc_revision c <= lp_revision p) (lp_changes p) ∧
  match compareAndSet number_text number_of r p with
  | (p', Ok result) =>
      lp_lifecycle p = Open ∧ cs_key r ≠ [] ∧ ca_applied result = expected ∧
      if expected
      then ∃ v, serialize (cs_value r) = Some v ∧ after_set (cs_key r) v p p' ∧
             ca_value result = Some v ∧ ca_revision result = Some (lp_revision p + 1)
      else p' = p ∧ ca_value result = cr_value <$> current ∧ ca_revision result = cr_revision <$> current
  | (p', Err e) =>
      (lp_lifecycle p ≠ Open ∨ cs_key r = [] ∨ expected = true ∧ serialize (cs_value r) = None) ∧
      lp_records p' = lp_records p ∧ lp_changes p' = lp_changes p ∧ lp_iterators p' = lp_iterators p
  end.
Proof.
  intros He Hk p current expected. assert (provider_ok p) as Hp by (apply provider_steps_ok; [done|apply created_provider_ok]). destruct (po_log _ Hp) as [L1 L2 L3 L4].
  split.
  { unfold expected, matches. destruct (cs_expectedRevision r) as [[|n]|], current as [c|]; cbn; try done. rewrite Z.eqb_eq. split; [by intros ->|by intros [= ->]]. }
  split; [done|]. split; [done|]. split; [eapply Forall_impl; [exact L2|]; intros c [? _]; lia|].
  unfold compareAndSet. fold current. fold expected. destruct (assertOpen p) as [u|e] eqn:Eo.
  2: { cbn. split; [|done]. left. intros E. unfold assertOpen in Eo. by rewrite E in Eo. }
  assert (lp_lifecycle p = Open) as Ho by (unfold assertOpen in Eo; by destruct (lp_lifecycle p)).
  unfold throw_if. cbn [mbind result_bind]. case_bool_decide as Ek; [by split; [right; left|]|].
  destruct expected eqn:Ex; cbn [negb].
  - pose proof (apply_set_ok r p Hk (wo_once _ (po_watchers _ Hp))) as H. destruct (serialize (cs_value r)) as [v|] eqn:Es.
    + destruct H as (Hs & p' & -> & H). split_and!; [done|done|done|]. by exists v.
    + rewrite H. split; [right; right; done|done].
  - unfold current in *. destruct (lp_records p !! cs_key r) as [c|] eqn:Ec; [|done].
    assert (stored (cr_value c)) as Hs.
    { rewrite L3 in Ec. clear -L2 Ec. unfold latest in Ec. revert Ec L2. induction (lp_changes p) as [|x l IH] using rev_ind; [done|]. rewrite foldl_app. cbn.
      intros Hc [Hl Hx]%Forall_app. apply Forall_singleton in Hx as [_ Hx]. case_bool_decide; [by injection Hc as <-|by apply IH]. }
    by rewrite (cloneJson_stored _ _ codec _ Hs).
Qed.

(** C40. A resource has at most one leadership that is not released, and none once the
    provider is closed. A campaign gives the one there is, or makes one; a leadership
    is released once, with the end of its promise [lost]. *)
Theorem one_leadership es :
  Forall event_keyed es →
  let p := steps createProvider es in
  (∀ x y h g, lp_handles p !! x = Some h → lp_handles p !! y = Some g → ha_released h = false → ha_released g = false → ha_resource h = ha_resource g → x = y) ∧
  (lp_lifecycle p = Closed → ∀ h, h ∈ lp_handles p → ha_released h = true) ∧
  (∀ resource, lp_lifecycle p = Open → resource ≠ [] → ∃ id p', campaign resource p = (p', Ok id) ∧
     lp_handles p' !! id = Some {| ha_resource := resource; ha_released := false |} ∧
     (∀ y, lp_handles p !! y = Some {| ha_resource := resource; ha_released := false |} → id = y ∧ p' = p)) ∧
  (∀ id h, lp_handles p !! id = Some h → (release id p).2 = negb (ha_released h) ∧ release id (release id p).1 = ((release id p).1, false)).
Proof.
  intros He p. assert (provider_ok p) as Hp by (apply provider_steps_ok; [done|apply created_provider_ok]). destruct (po_leaders _ Hp) as [A1 A2 A3 A4]. split_and!.
  - intros x y h g Hx Hy Hh Hg E. apply (A2 _ _ Hx) in Hh. apply (A2 _ _ Hy) in Hg. rewrite E in Hh. congruence.
  - intros Hc h [x Hx]%list_elem_of_lookup. destruct (ha_released h) eqn:E; [done|]. apply (A2 _ _ Hx) in E. by rewrite (A4 Hc) in E.
  - intros resource Ho Hr. unfold campaign, assertOpen. rewrite Ho. unfold assertResource, throw_if. cbn [mbind result_bind]. rewrite bool_decide_false by done.
    destruct (JsMap.get (lp_leadership p) resource) as [x|] eqn:Ex.
    + destruct (A3 _ _ Ex) as (h & Hh & E). pose proof (proj2 (A2 _ _ Hh)) as Hu. rewrite E in Hu. specialize (Hu Ex). exists x, p. destruct h as [hr hu]. cbn in *. subst.
      split_and!; [done|done|]. intros y Hy. pose proof (proj1 (A2 _ _ Hy) eq_refl) as E. cbn in E. split; [congruence|done].
    + eexists _, _. split; [done|]. cbn. split; [by apply list_lookup_middle|]. intros y Hy. pose proof (proj1 (A2 _ _ Hy) eq_refl) as E. cbn in E. congruence.
  - intros id h H. unfold release. rewrite H. destruct (ha_released h) eqn:E; cbn; (split; [done|]); [by rewrite H, E|].
    by rewrite list_lookup_insert_eq by by eapply lookup_lt_Some.
Qed.
End provider.

(** ** A run *)
Section example.
Abbreviation steps := (steps plain_number plain_read).
Definition write (key : jstring) (expected : option ExpectedRevision) (n : Z) : CompareAndSetRequest :=
  {| cs_key := key; cs_expectedRevision := expected; cs_value := JObj [(js "n", JNum (NInt n)); (js "a", JStr (js "x"))] |}.
Definition example_events : list Event :=
  [EOpen; ECampaign (js "r"); ESet (write (js "a") (Some Absent) 1); ESet (write (js "b") None 2); ESet (write (js "a") (Some Absent) 3); ERelease 0].
Definition example_later : list Event :=
  [ESet (write (js "a") (Some (At 1)) 4); ENext 0 0; ENext 0 1; ENext 0 2; ESet (write (js "b") None 5); EReturn 0 3; ESet (write (js "b") None 6)].

Lemma watch_misses_nothing_witness :
  let p := steps createProvider example_events in
  lp_revision p = 2 ∧ ∃ p', watch plain_number plain_read 1 p = (p', Ok 0%nat) ∧
  ∃ i, lp_iterators (steps p' example_later) !! 0%nat = Some i.
Proof.
  split; [vm_compute; reflexivity|]. eexists. split; [vm_compute; reflexivity|].
  edestruct (watch_misses_nothing plain_number plain_read plain_codec example_events example_later 1) as (i & Hi & _).
  - repeat constructor.
  - repeat constructor.
  - vm_compute. reflexivity.
  - exists i. exact Hi.
Defined.
Lemma guarded_values_witness :
  let p := steps createProvider example_events in
  (∀ k, lp_records p !! k = latest k (lp_changes p)) ∧
  ca_revision <$> (match (compareAndSet plain_number plain_read (write (js "a") (Some (At 1)) 4) p).2 with Ok r => Some r | Err _ => None end) = Some (Some 3).
Proof.
  destruct (guarded_values plain_number plain_read plain_codec example_events (write (js "a") (Some (At 1)) 4)) as (_ & H & _).
  - repeat constructor.
  - vm_compute. reflexivity.
  - split; [exact H|vm_compute; reflexivity].
Defined.
Lemma one_leadership_witness :
  let p := steps createProvider (example_events ++ [EClose]) in
  length (lp_handles p) = 1%nat ∧ ∀ h, h ∈ lp_handles p → ha_released h = true.
Proof.
  destruct (one_leadership plain_number plain_read plain_codec (example_events ++ [EClose])) as (_ & H & _).
  - repeat constructor.
  - split; [vm_compute; reflexivity|]. apply H. vm_compute. reflexivity.
Defined.
End example.
