(* ===== verification/Task.v ===== *)
(** * Task records

    contracts/src/operations.ts: requests to run a task, the durable record of a
    task, and the checks a record passes whenever it is read or written; with
    the diagnostics (contracts/src/diagnostic.ts) and results it carries. A
    record is typed here: what is checked is everything the types leave open.
    A parser that accepts a field returns it, so a checked record is the record.

    Ajv's schemas, SHA-256 and [localeCompare] are parameters, as in
    Execution.v; the details of a schema diagnostic are left out. *)

From S2P Require Import Prelude JsString Collections JsValue Identity JsonText Canonical Time Placement Execution.

Open Scope Z_scope.

(** ** Requests *)
Inductive OrphanPolicy := OrphanCancel | FinishAndBuffer | FinishAndPersist.
Record RunTaskRequest := {
  rq_applicationId : jstring;
  rq_pluginId : jstring;
  rq_componentId : jstring;
  rq_input : json;
  rq_deadline : jstring;
  rq_orphanPolicy : OrphanPolicy;
  rq_operationId : option jstring;
}.

Definition orphan_text (p : OrphanPolicy) : jstring :=
  match p with
  | OrphanCancel => js "cancel" | FinishAndBuffer => js "finish-and-buffer"
  | FinishAndPersist => js "finish-and-persist"
  end.
Definition optional {A} (key : String.string) (f : A → json) (v : option A) : list (jstring * json) :=
  match v with Some a => [(js key, f a)] | None => [] end.
#[local] Arguments optional {A} key%_string_scope f v.

Definition request_json (r : RunTaskRequest) : json :=
  JObj ([(js "applicationId", JStr (rq_applicationId r)); (js "pluginId", JStr (rq_pluginId r));
         (js "componentId", JStr (rq_componentId r)); (js "input", rq_input r);
         (js "deadline", JStr (rq_deadline r)); (js "orphanPolicy", JStr (orphan_text (rq_orphanPolicy r)))] ++
        optional "operationId" JStr (rq_operationId r)).

(** ** Diagnostics *)
Record RuntimeDiagnostic := {
  dg_code : jstring;
  dg_severity : jstring;
  dg_message : jstring;
  dg_source : jstring * jstring;
  dg_retryable : bool;
  dg_details : option json;
  dg_observedAt : jstring;
}.
Definition runtimeDiagnostic (code message : String.string) (source : String.string) (id : jstring)
    (retryable : bool) (details : option json) (observedAt : jstring) : RuntimeDiagnostic :=
  {| dg_code := js code; dg_severity := js "error"; dg_message := js message; dg_source := (js source, id);
     dg_retryable := retryable; dg_details := details; dg_observedAt := observedAt |}.
Arguments runtimeDiagnostic (code message source)%_string_scope id retryable details observedAt.

Definition diagnostic_json (d : RuntimeDiagnostic) : json :=
  JObj ([(js "code", JStr (dg_code d)); (js "severity", JStr (dg_severity d));
         (js "message", JStr (dg_message d));
         (js "source", JObj [(js "kind", JStr (dg_source d).1); (js "id", JStr (dg_source d).2)]);
         (js "retryable", JBool (dg_retryable d))] ++
        optional "details" (λ j, j) (dg_details d) ++ [(js "observedAt", JStr (dg_observedAt d))]).

(** ** Results *)
Inductive ExecutionTerminalStatus := Cancelled | FailedStatus | Indeterminate | RejectedStatus | Succeeded | TimedOut.
#[export] Instance ExecutionTerminalStatus_eq_dec : EqDecision ExecutionTerminalStatus.
Proof. solve_decision. Defined.
Record ExecutionExecutor := { xe_kind : ExecutorKind; xe_workerId : option jstring; xe_metadata : option json }.
Record ExecutionResult := {
  rs_taskId : jstring;
  rs_attemptId : jstring;
  rs_executor : ExecutionExecutor;
  rs_status : ExecutionTerminalStatus;
  rs_output : option json;
  rs_diagnostic : option RuntimeDiagnostic;
  rs_startedAt : jstring;
  rs_completedAt : jstring;
}.

Definition status_text (s : ExecutionTerminalStatus) : jstring :=
  match s with
  | Cancelled => js "cancelled" | FailedStatus => js "failed" | Indeterminate => js "indeterminate"
  | RejectedStatus => js "rejected" | Succeeded => js "succeeded" | TimedOut => js "timed-out"
  end.
Definition result_json (r : ExecutionResult) : json :=
  JObj ([(js "taskId", JStr (rs_taskId r)); (js "attemptId", JStr (rs_attemptId r));
         (js "executor", JObj ([(js "kind", JStr (executor_text (xe_kind (rs_executor r))))] ++
            optional "workerId" JStr (xe_workerId (rs_executor r)) ++
            optional "metadata" (λ j, j) (xe_metadata (rs_executor r))));
         (js "status", JStr (status_text (rs_status r)))] ++
        optional "output" (λ j, j) (rs_output r) ++
        optional "diagnostic" diagnostic_json (rs_diagnostic r) ++
        [(js "startedAt", JStr (rs_startedAt r)); (js "completedAt", JStr (rs_completedAt r))]).

(** ** Records *)
Inductive TaskRecordState := Accepted | Running | Terminal.
#[export] Instance TaskRecordState_eq_dec : EqDecision TaskRecordState.
Proof. solve_decision. Defined.

Record RuntimeAuthority := { au_resource : jstring; au_epoch : jstring }.
#[export] Instance RuntimeAuthority_eq_dec : EqDecision RuntimeAuthority.
Proof. solve_decision. Defined.
Record TaskCancellationIntent := { ca_requestedAt : jstring; ca_authority : RuntimeAuthority }.

Record TaskRecord := {
  t_taskId : jstring;
  t_attemptId : jstring;
  t_request : RunTaskRequest;
  t_state : TaskRecordState;
  t_createdAt : jstring;
  t_updatedAt : jstring;
  t_target : option TaskExecutionTarget;
  t_binding : option ExecutionBinding;
  t_executor : option (jstring * ExecutorKind);
  t_authority : option RuntimeAuthority;
  t_cancellation : option TaskCancellationIntent;
  t_diagnostic : option RuntimeDiagnostic;
  t_result : option ExecutionResult;
}.

Definition state_text (s : TaskRecordState) : jstring :=
  match s with Accepted => js "accepted" | Running => js "running" | Terminal => js "terminal" end.
Definition authority_json (a : RuntimeAuthority) : json :=
  JObj [(js "resource", JStr (au_resource a)); (js "epoch", JStr (au_epoch a))].
Definition cancellation_json (c : TaskCancellationIntent) : json :=
  JObj [(js "requestedAt", JStr (ca_requestedAt c)); (js "authority", authority_json (ca_authority c))].
Definition record_json (t : TaskRecord) : json :=
  JObj ([(js "taskId", JStr (t_taskId t)); (js "attemptId", JStr (t_attemptId t));
         (js "request", request_json (t_request t)); (js "state", JStr (state_text (t_state t)));
         (js "createdAt", JStr (t_createdAt t)); (js "updatedAt", JStr (t_updatedAt t))] ++
        optional "target" target_json (t_target t) ++ optional "binding" binding_json (t_binding t) ++
        optional "executor" (λ e, JObj [(js "id", JStr e.1); (js "type", JStr (executor_text e.2))]) (t_executor t) ++
        optional "authority" authority_json (t_authority t) ++
        optional "cancellation" cancellation_json (t_cancellation t) ++
        optional "diagnostic" diagnostic_json (t_diagnostic t) ++ optional "result" result_json (t_result t)).

(** ** Checks *)
Definition operationError : exn := DiagnosticError "PROTOCOL_OPERATION_INVALID".
Definition runtimeOperationMaxBytes : Z := 1048576.

(** The pattern of four-digit years: canonical UTC text of that length. *)
Definition timestamp (value : jstring) : result exn unit :=
  throw_if (negb (validTimestamp value && (length value =? 24)%nat)) operationError.

Definition optionally {A} (check : A → result exn unit) (v : option A) : result exn unit :=
  match v with Some a => check a | None => Ok tt end.
(** A parser whose value is the one it was given. *)
Definition checks {A} (r : result exn A) : result exn unit := _ ← r; Ok tt.

Section task.
Context (number_text : jsnum → jstring) (sha256 : jstring → jstring) (localeCompare : jstring → jstring → Z).
Context (ajv : schema_name → json → bool).

Definition assertSerializedLimit (value : json) : result exn unit :=
  throw_if (runtimeOperationMaxBytes <? utf8_length (stringify number_text value)) operationError.

(** [cloneStrictJson] of JSON data. *)
Definition cloneStrictJson (value : json) : result exn unit := throw_if (negb (isJsonData value)) operationError.

Definition parseRunTaskRequest (r : RunTaskRequest) : result exn unit :=
  _ ← checks (parseApplicationId (VStr (rq_applicationId r)));
  _ ← checks (parsePluginId (VStr (rq_pluginId r)));
  _ ← checks (parseComponentId (VStr (rq_componentId r)));
  _ ← cloneStrictJson (rq_input r);
  _ ← timestamp (rq_deadline r);
  _ ← optionally (λ o, checks (parseOperationId (VStr o))) (rq_operationId r);
  assertSerializedLimit (request_json r).

Definition schema_check (schema : schema_name) (code : String.string) (value : json) : result exn unit :=
  throw_if (negb (isJsonData value) || negb (ajv schema value)) (DiagnosticError code).
#[local] Arguments schema_check schema code%_string_scope value.
Definition parseExecutionResult (r : ExecutionResult) : result exn unit :=
  schema_check ExecutionResultSchema "EXECUTOR_RESULT_INVALID" (result_json r).
Definition parseRuntimeDiagnostic (d : RuntimeDiagnostic) : result exn unit :=
  schema_check RuntimeDiagnosticSchema "PROTOCOL_DIAGNOSTIC_INVALID" (diagnostic_json d).

Definition binding_identity (r : RunTaskRequest) (target : TaskExecutionTarget) : ExecutionBindingIdentity :=
  {| xi_applicationId := rq_applicationId r; xi_pluginId := rq_pluginId r; xi_componentId := rq_componentId r;
     xi_target := target |}.
Definition check_binding (t : TaskRecord) (binding : ExecutionBinding) : result exn unit :=
  match t_target t with
  | None => Err operationError
  | Some target =>
      checks (assertExecutionBindingMatches number_text sha256 localeCompare ajv
        (binding_identity (t_request t) target) binding)
  end.

Definition same_executor (target : TaskExecutionTarget) (executor : jstring * ExecutorKind) : bool :=
  streq (tx_id (tg_executor target)) executor.1 && bool_decide (tx_type (tg_executor target) = executor.2).

(** The result is of this task and of the executor the record names. *)
Definition result_matches (t : TaskRecord) (r : ExecutionResult) : bool :=
  streq (rs_taskId r) (t_taskId t) && streq (rs_attemptId r) (t_attemptId t) &&
  match t_target t with
  | Some target =>
      let executor := tg_executor target in
      bool_decide (xe_kind (rs_executor r) = tx_type executor) &&
      (if bool_decide (tx_type executor = Remote)
       then bool_decide (xe_workerId (rs_executor r) = tx_workerId executor)
       else bool_decide (xe_workerId (rs_executor r) = None))
  | None =>
      match t_executor t with
      | Some executor => bool_decide (xe_kind (rs_executor r) = executor.2)
      | None => true
      end
  end.

Definition before (a b : jstring) : bool :=
  match Date_parse a, Date_parse b with Some x, Some y => x <? y | _, _ => false end.

Definition parseTaskRecord (t : TaskRecord) : result exn TaskRecord :=
  _ ← optionally (λ e, checks (parseExecutorId (VStr e.1))) (t_executor t);
  _ ← parseRunTaskRequest (t_request t);
  _ ← optionally (λ target, checks (parseTaskExecutionTarget (target_json target))) (t_target t);
  _ ← optionally (check_binding t) (t_binding t);
  _ ← throw_if (match t_target t, t_executor t with
                | Some target, Some executor => negb (same_executor target executor)
                | _, _ => false end) operationError;
  _ ← optionally (λ a, checks (parseFencingEpoch (VStr (au_epoch a)))) (t_authority t);
  _ ← optionally (λ c, _ ← timestamp (ca_requestedAt c);
                       checks (parseFencingEpoch (VStr (au_epoch (ca_authority c))))) (t_cancellation t);
  _ ← optionally parseExecutionResult (t_result t);
  _ ← optionally parseRuntimeDiagnostic (t_diagnostic t);
  _ ← throw_if (negb (Bool.eqb (bool_decide (t_state t = Terminal))
                               (match t_result t with Some _ => true | None => false end))) operationError;
  _ ← checks (parseTaskId (VStr (t_taskId t)));
  _ ← checks (parseAttemptId (VStr (t_attemptId t)));
  _ ← timestamp (t_createdAt t);
  _ ← timestamp (t_updatedAt t);
  _ ← throw_if (before (t_updatedAt t) (t_createdAt t)) operationError;
  _ ← throw_if (match t_result t with Some r => negb (result_matches t r) | None => false end) operationError;
  _ ← assertSerializedLimit (record_json t);
  Ok t.

(** What a checked record promises. *)
Lemma parseTaskRecord_ok t u :
  parseTaskRecord t = Ok u →
  u = t ∧ (t_state t = Terminal ↔ is_Some (t_result t)) ∧
  (∀ r, t_result t = Some r → result_matches t r = true).
Proof.
  unfold parseTaskRecord. intros H.
  repeat (let u := fresh "u" in let Hu := fresh "Hu" in apply bind_ok in H as (u & Hu & H)).
  injection H as <-.
  repeat match goal with Hu : throw_if _ _ = Ok _ |- _ => apply throw_if_ok in Hu end.
  split; [done|]. split.
  - destruct (t_result t), (bool_decide_reflect (t_state t = Terminal)); try done; split; try done; by eauto.
  - intros r Er. rewrite Er in *. destruct (result_matches t r); done.
Qed.

(** ** The text of a request *)

(** Two requests that differ at most in the order of the fields of their inputs. *)
Definition same_request (q r : RunTaskRequest) : Prop :=
  rq_applicationId q = rq_applicationId r ∧ rq_pluginId q = rq_pluginId r ∧ rq_componentId q = rq_componentId r ∧
  serialize (rq_input q) = serialize (rq_input r) ∧ rq_deadline q = rq_deadline r ∧
  rq_orphanPolicy q = rq_orphanPolicy r ∧ rq_operationId q = rq_operationId r.

Lemma serialize_request r :
  serialize (request_json r) =
  input ← serialize (rq_input r);
  Some (JObj ([(js "applicationId", JStr (rq_applicationId r)); (js "componentId", JStr (rq_componentId r));
               (js "deadline", JStr (rq_deadline r)); (js "input", input)] ++
              match rq_operationId r with Some o => [(js "operationId", JStr o)] | None => [] end ++
              [(js "orphanPolicy", JStr (orphan_text (rq_orphanPolicy r))); (js "pluginId", JStr (rq_pluginId r))])).
Proof.
  destruct r as [a p c input d o [op|]]; unfold request_json; cbn [optional app serialize mapM snd fst rq_input
    rq_applicationId rq_pluginId rq_componentId rq_deadline rq_orphanPolicy rq_operationId];
    destruct (serialize input); reflexivity.
Qed.

Lemma orphan_text_inj : Inj (=) (=) orphan_text.
Proof. by intros [] []. Qed.

Lemma request_parsed r u : parseRunTaskRequest r = Ok u → data (rq_input r).
Proof.
  unfold parseRunTaskRequest.
  intros (? & _ & (? & _ & (? & _ & (? & H & _)%bind_ok)%bind_ok)%bind_ok)%bind_ok.
  apply throw_if_ok, negb_false_iff, isJsonData_data in H. done.
Qed.

(** One fingerprint means one request. *)
Lemma request_text_inj q r :
  number_text_ok number_text → data (rq_input q) → data (rq_input r) →
  canonical number_text (request_json q) = canonical number_text (request_json r) → same_request q r.
Proof.
  intros Htext [x Hx] [y Hy] E.
  eapply (canonical_exact _ Htext) in E; [|rewrite serialize_request, ?Hx, ?Hy; reflexivity..].
  unfold same_request. rewrite Hx, Hy. destruct q as [? ? ? ? ? o [?|]], r as [? ? ? ? ? o' [?|]]; cbn in *;
    injection E; intros; subst; repeat split; try done; try congruence; by apply orphan_text_inj.
Qed.

Lemma record_parsed t u : parseTaskRecord t = Ok u → data (rq_input (t_request t)).
Proof.
  unfold parseTaskRecord. intros (? & _ & (? & H & _)%bind_ok)%bind_ok. by eapply request_parsed.
Qed.
End task.
