(* ===== verification/Async.v ===== *)
(** * Asynchronous programs

    An [async] function as a program: a tree of effects, one per await or
    synchronous block, that ends in a value or a thrown error. Programs run as
    the threads of a pool; any thread may run between two effects of another.

    A program is verified alone: [wp] says what holds when it ends, if the other
    threads only take the world from a state to a related one ([R]) and keep an
    invariant ([I]), and if it does the same. [pool_sound] puts the programs
    together. *)

From S2P Require Import Prelude.

(** ** Programs *)
Inductive prog (E : Type → Type) (X A : Type) : Type :=
| Ret (a : A)
| Throw (x : X)
| Do (B : Type) (e : E B) (k : B → prog E X A).
Arguments Ret {E X A} a.
Arguments Throw {E X A} x.
Arguments Do {E X A B} e k.

Fixpoint prog_bind {E X A B} (f : A → prog E X B) (p : prog E X A) : prog E X B :=
  match p with
  | Ret a => f a
  | Throw x => Throw x
  | Do e k => Do e (λ b, prog_bind f (k b))
  end.

#[export] Instance prog_mret {E X} : MRet (prog E X) := @Ret E X.
#[export] Instance prog_mbind {E X} : MBind (prog E X) := @prog_bind E X.

(** An effect that may throw, and a computation that may. *)
Definition of_result {E X A} (r : result X A) : prog E X A :=
  match r with Ok a => Ret a | Err x => Throw x end.
Definition attempt {E X A} (e : E (result X A)) : prog E X A := Do e of_result.
Definition effect {E X A} (e : E A) : prog E X A := Do e Ret.

(** [try { p } catch (x) { h(x) }], and a program whose outcome is a value. *)
Fixpoint catch {E X A} (p : prog E X A) (h : X → prog E X A) : prog E X A :=
  match p with
  | Ret a => Ret a
  | Throw x => h x
  | Do e k => Do e (λ b, catch (k b) h)
  end.
Fixpoint settled {E X A} (p : prog E X A) : prog E X (result X A) :=
  match p with
  | Ret a => Ret (Ok a)
  | Throw x => Ret (Err x)
  | Do e k => Do e (λ b, settled (k b))
  end.
(** [try { p } finally { q }] *)
Definition finally {E X A} (p : prog E X A) (q : prog E X unit) : prog E X A :=
  r ← settled p; _ ← q; of_result r.

(** ** Pools *)

(** A thread runs in a context [C] (the process it belongs to); the environment
    answers its effects with an [A]. *)
Record pool (E : Type → Type) (X W C : Type) := {
  p_world : W;
  p_threads : list (C * prog E X unit);
}.
Arguments p_world {E X W C} _.
Arguments p_threads {E X W C} _.
Arguments Build_pool {E X W C} _ _.

Section pools.
Context {E : Type → Type} {X W C A J : Type}.

(** What an effect does: nothing while it waits, or an answer, a world and the
    programs it starts. *)
Context (handle : C → A → W → ∀ B, E B → option (B * W * list J)).
Context (start : J → prog E X unit).

Definition run_thread (a : A) (w : W) (t : C * prog E X unit)
  : option ((C * prog E X unit) * W * list J) :=
  match t.2 with
  | Do e k => '(b, w', js) ← handle t.1 a w _ e; Some ((t.1, k b), w', js)
  | _ => None
  end.

Definition spawned (c : C) (js : list J) : list (C * prog E X unit) := map (λ j, (c, start j)) js.

(** One effect of the [i]-th thread. *)
Definition run_at (i : nat) (a : A) (p : pool E X W C) : pool E X W C :=
  match p_threads p !! i with
  | Some t =>
      match run_thread a (p_world p) t with
      | Some (t', w', js) => Build_pool w' (<[i := t']> (p_threads p) ++ spawned t.1 js)
      | None => p
      end
  | None => p
  end.

(** ** Reasoning about one program *)
Context (I : W → Prop) (R : W → W → Prop) (good : C → W → J → Prop).
Context `{!PreOrder R}.

Fixpoint wp (c : C) {B} (p : prog E X B) (Q : result X B → W → Prop) (w : W) : Prop :=
  match p with
  | Ret b => ∀ w', R w w' → I w' → Q (Ok b) w'
  | Throw x => ∀ w', R w w' → I w' → Q (Err x) w'
  | Do e k => ∀ a w1 b w2 js, R w w1 → I w1 → handle c a w1 _ e = Some (b, w2, js) →
      I w2 ∧ R w1 w2 ∧ Forall (good c w2) js ∧ wp c (k b) Q w2
  end.

Lemma wp_later c {B} (p : prog E X B) Q w w' : R w w' → wp c p Q w → wp c p Q w'.
Proof.
  intros Hw. destruct p as [b|x|D e k]; cbn [wp]; intros H.
  - intros w1 Hw1. apply H. by transitivity w'.
  - intros w1 Hw1. apply H. by transitivity w'.
  - intros a w1 b w2 js Hw1. apply H. by transitivity w'.
Qed.

Lemma wp_mono c {B} (p : prog E X B) (Q Q' : result X B → W → Prop) w :
  (∀ r w', R w w' → I w' → Q r w' → Q' r w') → wp c p Q w → wp c p Q' w.
Proof.
  revert w. induction p as [b|x|D e k IH]; cbn [wp]; intros w HQ H.
  - auto.
  - auto.
  - intros a w1 b w2 js Hw1 HI E'. destruct (H a w1 b w2 js Hw1 HI E') as (? & HR & ? & Hk).
    split_and!; try done. apply IH; [|done]. intros r w' Hw'. apply HQ. transitivity w1; [done|]. by transitivity w2.
Qed.

Lemma wp_ret c {B} (b : B) (Q : result X B → W → Prop) w :
  (∀ w', R w w' → I w' → Q (Ok b) w') → wp c (Ret b) Q w.
Proof. done. Qed.

Lemma wp_throw c {B} (x : X) (Q : result X B → W → Prop) w :
  (∀ w', R w w' → I w' → Q (Err x) w') → wp c (Throw x : prog E X B) Q w.
Proof. done. Qed.

(** The rest of a program may assume a world in which the invariant holds. *)
Lemma wp_bind c {B D} (p : prog E X B) (f : B → prog E X D) (Q : result X D → W → Prop) w :
  I w →
  wp c p (λ r w', match r with Ok b => wp c (f b) Q w' | Err x => Q (Err x) w' end) w →
  wp c (p ≫= f) Q w.
Proof.
  revert w. induction p as [b|x|F e k IH]; intros w HI H.
  - by apply H.
  - exact H.
  - cbn in *. intros a w1 b w2 js Hw1 HI1 E'. destruct (H a w1 b w2 js Hw1 HI1 E') as (? & ? & ? & Hk).
    split_and!; try done. by apply IH.
Qed.

Lemma wp_catch c {B} (p : prog E X B) (h : X → prog E X B) (Q : result X B → W → Prop) w :
  I w →
  wp c p (λ r w', match r with Ok b => Q (Ok b) w' | Err x => wp c (h x) Q w' end) w →
  wp c (catch p h) Q w.
Proof.
  revert w. induction p as [b|x|F e k IH]; intros w HI H.
  - exact H.
  - by apply H.
  - cbn in *. intros a w1 b w2 js Hw1 HI1 E'. destruct (H a w1 b w2 js Hw1 HI1 E') as (? & ? & ? & Hk).
    split_and!; try done. by apply IH.
Qed.

Lemma wp_settled c {B} (p : prog E X B) (Q : result X (result X B) → W → Prop) w :
  wp c p (λ r w', Q (Ok r) w') w → wp c (settled p) Q w.
Proof.
  revert w. induction p as [b|x|F e k IH]; intros w H; [exact H|exact H|].
  cbn in *. intros a w1 b w2 js Hw1 HI1 E'. destruct (H a w1 b w2 js Hw1 HI1 E') as (? & ? & ? & Hk).
  split_and!; try done. by apply IH.
Qed.

Lemma wp_do c {B D} (e : E B) (k : B → prog E X D) (Q : result X D → W → Prop) w :
  (∀ a w1 b w2 js, R w w1 → I w1 → handle c a w1 _ e = Some (b, w2, js) →
     I w2 ∧ R w1 w2 ∧ Forall (good c w2) js ∧ wp c (k b) Q w2) →
  wp c (Do e k) Q w.
Proof. done. Qed.

(** ** The pool *)
Context (start_ok : ∀ c w j, I w → good c w j → wp c (start j) (λ _ _, True) w).

Definition pool_ok (p : pool E X W C) : Prop :=
  I (p_world p) ∧ Forall (λ t, wp t.1 t.2 (λ _ _, True) (p_world p)) (p_threads p).

Lemma threads_later w w' (ts : list (C * prog E X unit)) :
  R w w' → Forall (λ t, wp t.1 t.2 (λ _ _, True) w) ts → Forall (λ t, wp t.1 t.2 (λ _ _, True) w') ts.
Proof. intros Hw H. eapply Forall_impl; [exact H|]. intros t. by apply wp_later. Qed.

Lemma spawned_ok c w js :
  I w → Forall (good c w) js → Forall (λ t, wp t.1 t.2 (λ _ _, True) w) (spawned c js).
Proof. intros HI H. apply Forall_map. eapply Forall_impl; [exact H|]. intros j. by apply start_ok. Qed.

Lemma run_at_sound i a p : pool_ok p → pool_ok (run_at i a p) ∧ R (p_world p) (p_world (run_at i a p)).
Proof.
  intros [HI Hts]. unfold run_at. destruct (p_threads p !! i) as [[c q]|] eqn:Ei; [|by split].
  pose proof (Forall_lookup_1 _ _ _ _ Hts Ei) as Hq. unfold run_thread. cbn in *.
  destruct q as [b|x|B e k]; [by split|by split|].
  destruct (handle c a (p_world p) B e) as [[[b w'] js]|] eqn:Eh; [|by split]. cbn.
  destruct (Hq a _ b w' js ltac:(reflexivity) HI Eh) as (HI' & HR & Hjs & Hk). split; [|done].
  split; [done|]. cbn. apply Forall_app. split; [|by apply spawned_ok].
  apply Forall_insert; [|done]. by eapply threads_later.
Qed.

(** A new thread, and a change of the world from outside. *)
Lemma thread_sound c j p :
  pool_ok p → good c (p_world p) j →
  pool_ok (Build_pool (p_world p) (p_threads p ++ [(c, start j)])).
Proof.
  intros [HI Hts] Hj. split; [done|]. cbn. apply Forall_app. split; [done|]. constructor; [|constructor].
  by apply start_ok.
Qed.

Lemma world_sound w p : pool_ok p → I w → R (p_world p) w → pool_ok (Build_pool w (p_threads p)).
Proof. intros [_ Hts] HI HR. split; [done|]. cbn. by eapply threads_later. Qed.
End pools.

(** ** Threads that own what they do

    A pool whose threads differ in what they own (a promise, a claim). What the others
    do ([R], for the owner of [c]) is less than what a thread does ([G]): a thread may
    rely on it that nobody else does what is its own to do, which one relation for all
    ([wp]) cannot say. The threads start no others. *)

(** A preorder for every thread. *)
Class Preorders {C W} (R : C → W → W → Prop) := preorders c :: PreOrder (R c).

Section owned.
Context {E : Type → Type} {X W C A J O : Type}.
Context (handle : C → A → W → ∀ B, E B → option (B * W * list J)) (start : J → prog E X unit).
Context (I : W → Prop) (owner : C → O) (R G : C → W → W → Prop).
Context `{!Preorders R} (G_R : ∀ c c' w w', owner c ≠ owner c' → G c w w' → R c' w w').

Fixpoint owp (c : C) {B} (p : prog E X B) (Q : result X B → W → Prop) (w : W) : Prop :=
  match p with
  | Ret b => ∀ w', R c w w' → I w' → Q (Ok b) w'
  | Throw x => ∀ w', R c w w' → I w' → Q (Err x) w'
  | Do e k => ∀ a w1 b w2 js, R c w w1 → I w1 → handle c a w1 _ e = Some (b, w2, js) →
      I w2 ∧ G c w1 w2 ∧ js = [] ∧ owp c (k b) Q w2
  end.

Lemma owp_later c {B} (p : prog E X B) Q w w' : R c w w' → owp c p Q w → owp c p Q w'.
Proof. intros Hw. destruct p; cbn [owp]; intros H; intros; eapply H; eauto; by etrans. Qed.

(** A weaker outcome; [T] is what becomes of the world whoever moves. *)
Lemma owp_mono (T : W → W → Prop) `{!PreOrder T} c {B} (p : prog E X B) (Q Q' : result X B → W → Prop) w :
  (∀ w w', R c w w' → T w w') → (∀ w w', G c w w' → T w w') →
  (∀ r w', T w w' → I w' → Q r w' → Q' r w') → owp c p Q w → owp c p Q' w.
Proof.
  intros HR HG. revert w. induction p as [b|x|D e k IH]; cbn [owp]; intros w HQ H; [auto|auto|].
  intros a w1 b w2 js H1 HI Eh. destruct (H a w1 b w2 js H1 HI Eh) as (? & Hg & ? & Hk). split_and!; try done.
  apply IH; [|done]. intros r w' Hw'. apply HQ. etrans; [by apply HR|]. etrans; [by apply HG|done].
Qed.

(** A program inside another: [m] is the context of its outcome, such as [catch]. *)
Lemma owp_bind c {B D} (p : prog E X B) (f : B → prog E X D) (Q : result X D → W → Prop) w :
  I w → owp c p (λ r w', match r with Ok b => owp c (f b) Q w' | Err x => Q (Err x) w' end) w → owp c (p ≫= f) Q w.
Proof.
  revert w. induction p as [b|x|F e k IH]; intros w HI H; [by apply H|done|].
  cbn in *. intros a w1 b w2 js HR H1 Eh. destruct (H a w1 b w2 js HR H1 Eh) as (? & ? & ? & ?). split_and!; auto.
Qed.
Lemma owp_catch c {B} (p : prog E X B) (h : X → prog E X B) (Q : result X B → W → Prop) w :
  I w → owp c p (λ r w', match r with Ok b => Q (Ok b) w' | Err x => owp c (h x) Q w' end) w → owp c (catch p h) Q w.
Proof.
  revert w. induction p as [b|x|F e k IH]; intros w HI H; [done|by apply H|].
  cbn in *. intros a w1 b w2 js HR H1 Eh. destruct (H a w1 b w2 js HR H1 Eh) as (? & ? & ? & ?). split_and!; auto.
Qed.
Lemma owp_settled c {B} (p : prog E X B) (Q : result X (result X B) → W → Prop) w :
  owp c p (λ r w', Q (Ok r) w') w → owp c (settled p) Q w.
Proof.
  revert w. induction p as [b|x|F e k IH]; intros w H; [done|done|].
  cbn in *. intros a w1 b w2 js HR H1 Eh. destruct (H a w1 b w2 js HR H1 Eh) as (? & ? & ? & ?). split_and!; auto.
Qed.
Lemma owp_result c {B} (r : result X B) (Q : result X B → W → Prop) w : (∀ w', R c w w' → I w' → Q r w') → owp c (of_result r) Q w.
Proof. by destruct r. Qed.
(** One effect, and what comes of its answer. *)
Lemma owp_effect c {B} (e : E B) (Q : result X B → W → Prop) w :
  (∀ a w1 b w2 js, R c w w1 → I w1 → handle c a w1 _ e = Some (b, w2, js) →
     I w2 ∧ G c w1 w2 ∧ js = [] ∧ ∀ w3, R c w2 w3 → I w3 → Q (Ok b) w3) → owp c (effect e) Q w.
Proof. done. Qed.
Lemma owp_attempt c {B} (e : E (result X B)) (Q : result X B → W → Prop) w :
  (∀ a w1 b w2 js, R c w w1 → I w1 → handle c a w1 _ e = Some (b, w2, js) →
     I w2 ∧ G c w1 w2 ∧ js = [] ∧ ∀ w3, R c w2 w3 → I w3 → Q b w3) → owp c (attempt e) Q w.
Proof.
  intros H a w1 b w2 js HR H1 Eh. destruct (H a w1 b w2 js HR H1 Eh) as (? & ? & ? & Hq). split_and!; [done..|].
  by apply owp_result.
Qed.

(** ** The pool *)
Definition owned (p : pool E X W C) : Prop :=
  I (p_world p) ∧ NoDup (map (λ t, owner t.1) (p_threads p)) ∧ Forall (λ t, owp t.1 t.2 (λ _ _, True) (p_world p)) (p_threads p).

Lemma owned_world p w : owned p → I w → (∀ t, t ∈ p_threads p → R t.1 (p_world p) w) → owned (Build_pool w (p_threads p)).
Proof.
  intros (_ & Hn & Ht) HI HR. split_and!; [done|done|]. cbn. rewrite Forall_forall in *. intros t Hin. eapply owp_later; eauto.
Qed.
Lemma owned_thread p c q :
  owned p → owner c ∉ map (λ t, owner t.1) (p_threads p) → owp c q (λ _ _, True) (p_world p) →
  owned (Build_pool (p_world p) (p_threads p ++ [(c, q)])).
Proof.
  intros (HI & Hn & Ht) Hc Hq. split_and!; [done| |].
  - cbn. rewrite map_app. apply NoDup_app. split_and!; [done| |by apply NoDup_singleton].
    intros x Hx. cbn. intros ->%list_elem_of_singleton. done.
  - cbn. apply Forall_app. split; [done|]. by constructor.
Qed.
Lemma owned_run_at i a p : owned p → owned (run_at handle start i a p).
Proof.
  intros Hp. pose proof Hp as (HI & Hn & Ht). unfold run_at. destruct (p_threads p !! i) as [[c q]|] eqn:Ei; [|done].
  pose proof (Forall_lookup_1 _ _ _ _ Ht Ei) as Hq. unfold run_thread. cbn in *.
  destruct q as [b|x|B e k]; [done|done|].
  destruct (handle c a (p_world p) B e) as [[[b w'] js]|] eqn:Eh; [|done]. cbn.
  destruct (Hq a _ b w' js ltac:(reflexivity) HI Eh) as (HI' & HG & -> & Hk). cbn. rewrite app_nil_r.
  split_and!; cbn; [done| |].
  - replace (map (λ t, owner t.1) (<[i := (c, k b)]> (p_threads p))) with (map (λ t, owner t.1) (p_threads p)); [done|].
    rewrite list_fmap_insert. cbn. symmetry. apply list_insert_id. by rewrite list_lookup_fmap, Ei.
  - apply Forall_lookup. intros j t Hj. destruct (decide (j = i)) as [->|Hne].
    + rewrite list_lookup_insert_eq in Hj by (by eapply lookup_lt_Some). by injection Hj as <-.
    + rewrite list_lookup_insert_ne in Hj by done. rewrite Forall_lookup in Ht. eapply owp_later; [|by eapply Ht].
      eapply (G_R c); [|done]. intros Ho. apply Hne. eapply NoDup_lookup; [exact Hn| |]; rewrite list_lookup_fmap.
      * by rewrite Hj.
      * rewrite Ei. cbn. by rewrite Ho.
Qed.
End owned.
