(* ===== verification/TaskService.v ===== *)
(** * The task service

    runtime/src/tasks/task-service.ts: admitting tasks once per operation,
    dispatching them to executors, recording their results, cancelling them and
    recovering them when authority or a worker returns.

    Several services (processes) share one store. Every async method is a
    program of Async.v whose effects are its awaits and the synchronous blocks
    between them, so calls interleave wherever the code awaits. The environment
    answers: executors do as they like, a transaction may fail before or after
    it has committed, a timeout may fire, authority moves. The store is a typed
    view of the two collections the service uses. *)

From S2P Require Import Prelude JsString Collections JsValue Identity JsonText Canonical Time Placement Execution Task Async.

Open Scope Z_scope.

(** ** Errors *)
Inductive task_error := Diagnostic (d : RuntimeDiagnostic) | OtherError.

Definition diagnosticCode (e : task_error) : option jstring :=
  match e with Diagnostic d => Some (dg_code d) | OtherError => None end.
Definition has_code (e : task_error) (code : String.string) : bool :=
  match diagnosticCode e with Some c => streq c (js code) | None => false end.
Arguments has_code e code%_string_scope.

(** An error of a parser. *)
Definition thrown (e : exn) : task_error :=
  match e with
  | DiagnosticError code => Diagnostic (runtimeDiagnostic code "" "protocol" [] false None [])
  | _ => OtherError
  end.
Definition lift {A} (r : result exn A) : result task_error A :=
  match r with Ok a => Ok a | Err e => Err (thrown e) end.

(** ** Executors *)
Record Executor := { ex_id : jstring; ex_type : ExecutorKind; ex_resumes : bool }.
Record TaskExecutorSelection := { sl_target : TaskExecutionTarget; sl_binding : ExecutionBinding; sl_executor : Executor }.
Record ExecutionRequest := {
  er_taskId : jstring;
  er_attemptId : jstring;
  er_applicationId : jstring;
  er_pluginId : jstring;
  er_componentId : jstring;
  er_target : TaskExecutionTarget;
  er_binding : ExecutionBinding;
  er_input : json;
  er_deadline : jstring;
  er_orphanPolicy : OrphanPolicy;
}.
Record ExecutionHandle := { h_taskId : jstring; h_attemptId : jstring }.
Inductive AttemptStatus := AttemptOpen (running : bool) | AttemptTerminal (result : ExecutionResult).
Inductive ObservationOutcome := Observed (value : option AttemptStatus) | ObservationTimeout.
Inductive selection_outcome :=
| Selected (value : TaskExecutorSelection) | SelectionFailed (e : task_error) | SelectionAborted (e : task_error)
| SelectionTimeout.

(** A registration is an object: [rg_id] is its identity. *)
Record ExecutorRegistration := { rg_executor : Executor; rg_authority : RuntimeAuthority; rg_id : nat }.

(** ** The store *)
Record TaskOperationIdentity := { oi_taskId : jstring; oi_attemptId : jstring; oi_fingerprint : jstring }.
Record TaskStore := {
  ts_tasks : gmap jstring (TaskRecord * Z);
  ts_operations : gmap jstring TaskOperationIdentity;
  ts_fences : gmap jstring Z;
  ts_idempotency : gmap jstring (jstring * TaskRecord);
  ts_revision : Z;
}.
Definition empty_store : TaskStore :=
  {| ts_tasks := ∅; ts_operations := ∅; ts_fences := ∅; ts_idempotency := ∅; ts_revision := 0 |}.

Inductive task_put :=
| PutTask (record : TaskRecord) (expected : option Z)
| PutOperation (operationId : jstring) (identity : TaskOperationIdentity).

(** The expected revision of a put; [None] is absent. *)
Definition put_expected (st : TaskStore) (p : task_put) : bool :=
  match p with
  | PutTask record expected => bool_decide (snd <$> ts_tasks st !! t_taskId record = expected)
  | PutOperation operationId _ => bool_decide (ts_operations st !! operationId = None)
  end.
Definition apply_put (revision : Z) (st : TaskStore) (p : task_put) : TaskStore :=
  match p with
  | PutTask record _ =>
      {| ts_tasks := <[t_taskId record := (record, revision)]> (ts_tasks st); ts_operations := ts_operations st;
         ts_fences := ts_fences st; ts_idempotency := ts_idempotency st; ts_revision := ts_revision st |}
  | PutOperation operationId identity =>
      {| ts_tasks := ts_tasks st; ts_operations := <[operationId := identity]> (ts_operations st);
         ts_fences := ts_fences st; ts_idempotency := ts_idempotency st; ts_revision := ts_revision st |}
  end.

Definition state_error (code : String.string) : task_error :=
  Diagnostic (runtimeDiagnostic code "" "state" [] false None []).
#[local] Arguments state_error code%_string_scope.

Definition with_revision (st : TaskStore) (fences : gmap jstring Z) (revision : Z) : TaskStore :=
  {| ts_tasks := ts_tasks st; ts_operations := ts_operations st; ts_fences := fences;
     ts_idempotency := ts_idempotency st; ts_revision := revision |}.
Definition remember (key : option (jstring * jstring)) (record : TaskRecord) (st : TaskStore) : TaskStore :=
  match key with
  | None => st
  | Some (k, fingerprint) =>
      {| ts_tasks := ts_tasks st; ts_operations := ts_operations st; ts_fences := ts_fences st;
         ts_idempotency := <[k := (fingerprint, record)]> (ts_idempotency st); ts_revision := ts_revision st |}
  end.

(** One transaction, under its fence and its idempotency key with fingerprint. *)
Definition transact (fencing : RuntimeAuthority) (key : option (jstring * jstring))
    (work : TaskStore → result task_error (TaskRecord * list task_put)) (st : TaskStore)
  : result task_error TaskRecord * TaskStore :=
  match key ≫= λ k, ts_idempotency st !! k.1 with
  | Some (committed, record) =>
      if bool_decide (snd <$> key = Some committed) then (Ok record, st)
      else (Err (state_error "STATE_IDEMPOTENCY_CONFLICT"), st)
  | None =>
      match work st with
      | Err e => (Err e, st)
      | Ok (record, puts) =>
          if negb (forallb (put_expected st) puts) then (Err (state_error "STATE_REVISION_CONFLICT"), st)
          else
            let epoch := decimal_value (au_epoch fencing) in
            let current := ts_fences st !! au_resource fencing in
            if match current with Some c => epoch <? c | None => false end
            then (Err (state_error "STATE_FENCE_STALE"), st)
            else
              let advances := match current with Some c => c <? epoch | None => true end in
              let revision := if advances || match puts with [] => false | _ => true end then ts_revision st + 1 else ts_revision st in
              let st' := foldl (apply_put revision) st puts in
              (Ok record, remember key record
                 (with_revision st' (<[au_resource fencing := epoch]> (ts_fences st')) revision))
      end
  end.

(** ** A service *)
Inductive owner := OfRun (request : RunTaskRequest) | OfTask (taskId : jstring) | OfNothing.
Abbreviation settlement := (result task_error (option TaskRecord)).
Record TaskService := {
  sv_records : gmap jstring (TaskRecord * Z);
  sv_executors : gmap jstring ExecutorRegistration;
  sv_dispatches : gmap jstring nat;
  sv_cancellations : gmap jstring nat;
  sv_remoteCompletions : gmap jstring nat;
  sv_waiters : gmap jstring (list nat);
  sv_ephemeralTerminal : gmap jstring TaskRecord;
  sv_authority : option RuntimeAuthority;
  sv_closed : bool;
  sv_promises : gmap nat settlement;   (** the settled ones *)
  sv_owners : gmap nat owner;          (** what each promise and registration is for *)
  sv_next : nat;                       (** no promise or registration has this number *)
}.
Definition new_service : TaskService :=
  {| sv_records := ∅; sv_executors := ∅; sv_dispatches := ∅; sv_cancellations := ∅; sv_remoteCompletions := ∅;
     sv_waiters := ∅; sv_ephemeralTerminal := ∅; sv_authority := None; sv_closed := false; sv_promises := ∅;
     sv_owners := ∅; sv_next := 0 |}.

Definition set_records (m : gmap jstring (TaskRecord * Z)) (s : TaskService) : TaskService :=
  {| sv_records := m; sv_executors := sv_executors s; sv_dispatches := sv_dispatches s;
     sv_cancellations := sv_cancellations s; sv_remoteCompletions := sv_remoteCompletions s;
     sv_waiters := sv_waiters s; sv_ephemeralTerminal := sv_ephemeralTerminal s;
     sv_authority := sv_authority s; sv_closed := sv_closed s; sv_promises := sv_promises s;
     sv_owners := sv_owners s; sv_next := sv_next s |}.
Definition set_executors m (s : TaskService) : TaskService :=
  {| sv_records := sv_records s; sv_executors := m; sv_dispatches := sv_dispatches s;
     sv_cancellations := sv_cancellations s; sv_remoteCompletions := sv_remoteCompletions s;
     sv_waiters := sv_waiters s; sv_ephemeralTerminal := sv_ephemeralTerminal s;
     sv_authority := sv_authority s; sv_closed := sv_closed s; sv_promises := sv_promises s;
     sv_owners := sv_owners s; sv_next := sv_next s |}.
Definition set_dispatches m (s : TaskService) : TaskService :=
  {| sv_records := sv_records s; sv_executors := sv_executors s; sv_dispatches := m;
     sv_cancellations := sv_cancellations s; sv_remoteCompletions := sv_remoteCompletions s;
     sv_waiters := sv_waiters s; sv_ephemeralTerminal := sv_ephemeralTerminal s;
     sv_authority := sv_authority s; sv_closed := sv_closed s; sv_promises := sv_promises s;
     sv_owners := sv_owners s; sv_next := sv_next s |}.
Definition set_cancellations m (s : TaskService) : TaskService :=
  {| sv_records := sv_records s; sv_executors := sv_executors s; sv_dispatches := sv_dispatches s;
     sv_cancellations := m; sv_remoteCompletions := sv_remoteCompletions s; sv_waiters := sv_waiters s;
     sv_ephemeralTerminal := sv_ephemeralTerminal s; sv_authority := sv_authority s; sv_closed := sv_closed s;
     sv_promises := sv_promises s; sv_owners := sv_owners s; sv_next := sv_next s |}.
Definition set_remoteCompletions m (s : TaskService) : TaskService :=
  {| sv_records := sv_records s; sv_executors := sv_executors s; sv_dispatches := sv_dispatches s;
     sv_cancellations := sv_cancellations s; sv_remoteCompletions := m; sv_waiters := sv_waiters s;
     sv_ephemeralTerminal := sv_ephemeralTerminal s; sv_authority := sv_authority s; sv_closed := sv_closed s;
     sv_promises := sv_promises s; sv_owners := sv_owners s; sv_next := sv_next s |}.
Definition set_waiters m (s : TaskService) : TaskService :=
  {| sv_records := sv_records s; sv_executors := sv_executors s; sv_dispatches := sv_dispatches s;
     sv_cancellations := sv_cancellations s; sv_remoteCompletions := sv_remoteCompletions s; sv_waiters := m;
     sv_ephemeralTerminal := sv_ephemeralTerminal s; sv_authority := sv_authority s; sv_closed := sv_closed s;
     sv_promises := sv_promises s; sv_owners := sv_owners s; sv_next := sv_next s |}.
Definition set_ephemeral m (s : TaskService) : TaskService :=
  {| sv_records := sv_records s; sv_executors := sv_executors s; sv_dispatches := sv_dispatches s;
     sv_cancellations := sv_cancellations s; sv_remoteCompletions := sv_remoteCompletions s;
     sv_waiters := sv_waiters s; sv_ephemeralTerminal := m; sv_authority := sv_authority s;
     sv_closed := sv_closed s; sv_promises := sv_promises s; sv_owners := sv_owners s; sv_next := sv_next s |}.
Definition set_state a c (s : TaskService) : TaskService :=
  {| sv_records := sv_records s; sv_executors := sv_executors s; sv_dispatches := sv_dispatches s;
     sv_cancellations := sv_cancellations s; sv_remoteCompletions := sv_remoteCompletions s;
     sv_waiters := sv_waiters s; sv_ephemeralTerminal := sv_ephemeralTerminal s; sv_authority := a;
     sv_closed := c; sv_promises := sv_promises s; sv_owners := sv_owners s; sv_next := sv_next s |}.
Definition set_promises m (s : TaskService) : TaskService :=
  {| sv_records := sv_records s; sv_executors := sv_executors s; sv_dispatches := sv_dispatches s;
     sv_cancellations := sv_cancellations s; sv_remoteCompletions := sv_remoteCompletions s;
     sv_waiters := sv_waiters s; sv_ephemeralTerminal := sv_ephemeralTerminal s; sv_authority := sv_authority s;
     sv_closed := sv_closed s; sv_promises := m; sv_owners := sv_owners s; sv_next := sv_next s |}.
Definition set_owners m n (s : TaskService) : TaskService :=
  {| sv_records := sv_records s; sv_executors := sv_executors s; sv_dispatches := sv_dispatches s;
     sv_cancellations := sv_cancellations s; sv_remoteCompletions := sv_remoteCompletions s;
     sv_waiters := sv_waiters s; sv_ephemeralTerminal := sv_ephemeralTerminal s; sv_authority := sv_authority s;
     sv_closed := sv_closed s; sv_promises := sv_promises s; sv_owners := m; sv_next := n |}.

(** A fresh number, and the settlement of a promise: the first one counts. *)
Definition fresh (o : owner) (s : TaskService) : nat * TaskService :=
  (sv_next s, set_owners (<[sv_next s := o]> (sv_owners s)) (S (sv_next s)) s).
Definition settle (p : nat) (r : settlement) (s : TaskService) : TaskService :=
  match sv_promises s !! p with
  | Some _ => s
  | None => set_promises (<[p := r]> (sv_promises s)) s
  end.

(** ** Effects *)

(** What a service starts without awaiting it; the number is the promise it settles. *)
Inductive job :=
| JobRun (p : nat) (request : RunTaskRequest)
| JobStatus (p : nat) (taskId : jstring)
| JobWait (p : nat) (taskId : jstring)
| JobCancel (p : nat) (taskId : jstring)
| JobCancelling (p : nat) (taskId : jstring)
| JobSetAuthority (p : nat) (authority : option RuntimeAuthority)
| JobRecoverRemoteWorker (p : nat) (workerId : jstring)
| JobRecoverPending (p : nat) (record : TaskRecord) (authority : RuntimeAuthority)
| JobDispatch (p : nat) (record : TaskRecord) (authority : RuntimeAuthority)
| JobCompletion (record : TaskRecord) (handle : ExecutionHandle) (authority : RuntimeAuthority)
    (registration : ExecutorRegistration)
| JobRemoteCompletion (p : nat) (record : TaskRecord) (handle : ExecutionHandle) (authority : RuntimeAuthority)
    (registration : ExecutorRegistration)
| JobClose.

Inductive eff : Type → Type :=
| Sync {B} (f : Z → TaskService → B * TaskService * list job) : eff B
| ReadTask (taskId : jstring) : eff (result task_error (option (TaskRecord * Z)))
| ReadOperation (operationId : jstring) : eff (result task_error (option TaskOperationIdentity))
| ScanTasks : eff (result task_error (list (TaskRecord * Z)))
| Transact (fencing : RuntimeAuthority) (key : option (jstring * jstring))
    (work : Z → TaskService → TaskStore → result task_error (TaskRecord * list task_put))
  : eff (result task_error TaskRecord)
| CreateIdentity (request : RunTaskRequest) : eff (jstring * jstring)
| SelectExecutor (request : RunTaskRequest) (target : option TaskExecutionTarget)
    (binding : option ExecutionBinding) (identity : option (jstring * jstring)) : eff selection_outcome
| Submit (executor : Executor) (request : ExecutionRequest) : eff (result task_error ExecutionHandle)
| Observe (executor : Executor) (taskId attemptId : jstring) : eff (result task_error ObservationOutcome)
| CancelAttempt (executor : Executor) (taskId attemptId : jstring) : eff (result task_error unit)
| Resume (executor : Executor) (taskId attemptId : jstring) : eff (result task_error (option ExecutionHandle))
| HandleResult (h : ExecutionHandle) : eff (result task_error ExecutionResult)
| Await (p : nat) : eff settlement
| AwaitBounded (p : nat) : eff (result task_error (option TaskRecord)).

Abbreviation task A := (prog eff task_error A).

Definition sync {B} (f : Z → TaskService → result task_error B) : task B :=
  attempt (Sync (λ now s, (f now s, s, []))).
Definition modify (f : TaskService → TaskService) : task unit := effect (Sync (λ _ s, (tt, f s, []))).
Definition asks {B} (f : TaskService → B) : task B := effect (Sync (λ _ s, (f s, s, []))).

(** ** Diagnostics of the service *)
Definition iso_now (now : Z) : jstring := toISOString now.
Definition service_error (code message : String.string) (kind : String.string) (id : jstring) (now : Z) : task_error :=
  Diagnostic (runtimeDiagnostic code message kind id false None (iso_now now)).
#[local] Arguments service_error (code message kind)%_string_scope id now.
Definition stoppedError (now : Z) : task_error :=
  service_error "BOOTSTRAP_STOPPED" "Task service stopped before the task reached a terminal state" "runtime"
    (js "tasks") now.
Definition missing (taskId : jstring) (now : Z) : task_error :=
  service_error "EXECUTOR_TASK_NOT_FOUND" "Task record does not exist" "executor" taskId now.
Definition corrupt (taskId : jstring) (now : Z) : task_error :=
  service_error "STATE_TASK_CORRUPT" "Task identity refers to a missing durable record" "state" taskId now.
Definition idempotencyConflict (id : jstring) (now : Z) : task_error :=
  service_error "STATE_IDEMPOTENCY_CONFLICT" "Task operation identity was reused with a different payload" "state"
    id now.
Definition invalidResult (taskId : jstring) (message : String.string) (now : Z) : task_error :=
  service_error "EXECUTOR_RESULT_INVALID" message "executor" taskId now.
#[local] Arguments invalidResult taskId message%_string_scope now.
Definition notLeaderError (now : Z) : task_error :=
  service_error "COORDINATION_NOT_LEADER" "Task mutation requires active runtime leadership" "coordination"
    (js "tasks") now.
Definition fenceRejectedError (resource : jstring) (now : Z) : task_error :=
  service_error "COORDINATION_FENCE_REJECTED" "Task authority changed while the operation was active" "coordination"
    resource now.
Definition targetMismatch (taskId : jstring) (fields : list jstring) (now : Z) : task_error :=
  Diagnostic (runtimeDiagnostic "EXECUTOR_TARGET_MISMATCH"
    "Selected executor does not match the immutable execution target" "executor" taskId false
    (Some (JObj [(js "mismatchedFields", JArr (map JStr fields))])) (iso_now now)).
Definition targetUnavailable (taskId : jstring) (executorId : option jstring) (cause : option task_error) (now : Z)
  : task_error :=
  Diagnostic (runtimeDiagnostic "EXECUTOR_TARGET_UNAVAILABLE" "The immutable execution target is unavailable"
    "executor" taskId true
    (Some (JObj (match cause ≫= diagnosticCode with Some c => [(js "causeCode", JStr c)] | None => [] end ++
                 match cause with
                 | Some (Diagnostic d) => match dg_details d with Some j => [(js "causeDetails", j)] | None => [] end
                 | _ => []
                 end ++
                 match executorId with Some i => [(js "executorId", JStr i)] | None => [] end)))
    (iso_now now)).

(** ** Authority *)
Definition requireAuthority (now : Z) (s : TaskService) : result task_error RuntimeAuthority :=
  match sv_authority s with Some a => Ok a | None => Err (notLeaderError now) end.
Definition assertAuthority (expected : RuntimeAuthority) (now : Z) (s : TaskService) : result task_error unit :=
  match sv_authority s with
  | Some current => throw_if (negb (bool_decide (current = expected))) (fenceRejectedError (au_resource expected) now)
  | None => Err (notLeaderError now)
  end.
Definition assertOpen (now : Z) (s : TaskService) : result task_error unit :=
  throw_if (sv_closed s) (stoppedError now).

(** ** Targets *)
Definition targetMismatchedFields (expected selected : TaskExecutionTarget) : list jstring :=
  let x := tg_executor expected in
  let y := tg_executor selected in
  (if streq (tg_artifactDigest expected) (tg_artifactDigest selected) then [] else [js "artifactDigest"]) ++
  (if streq (tg_deploymentGeneration expected) (tg_deploymentGeneration selected) then [] else [js "deploymentGeneration"]) ++
  (if streq (tx_id x) (tx_id y) then [] else [js "executor.id"]) ++
  (if bool_decide (tx_type x = tx_type y) then [] else [js "executor.type"]) ++
  (if bool_decide (tx_workerId x = tx_workerId y) then [] else [js "executor.workerId"]) ++
  (if streq (tg_instanceId expected) (tg_instanceId selected) then [] else [js "instanceId"]).
Definition sameTarget (left right : TaskExecutionTarget) : bool :=
  match targetMismatchedFields left right with [] => true | _ => false end.

Definition resultExecutor (record : TaskRecord) : ExecutionExecutor :=
  let plain k := {| xe_kind := k; xe_workerId := None; xe_metadata := None |} in
  match t_target record with
  | Some target =>
      let x := tg_executor target in
      if bool_decide (tx_type x = Remote)
      then {| xe_kind := Remote; xe_workerId := tx_workerId x; xe_metadata := None |}
      else plain (tx_type x)
  | None => match t_executor record with Some e => plain e.2 | None => plain Process end
  end.
Definition is_remote (record : TaskRecord) : bool :=
  match t_target record with Some target => bool_decide (tx_type (tg_executor target) = Remote) | None => false end.

(** [definiteAdmissionRejections]: whether the rejection may be retried. *)
Definition definiteAdmissionRejections (code : jstring) : option bool :=
  if streq code (js "EXECUTOR_ATTEMPT_CAPACITY_EXCEEDED") then Some true
  else if streq code (js "EXECUTOR_DRAINING") then Some true
  else if streq code (js "EXECUTOR_INPUT_LIMIT_EXCEEDED") then Some false
  else if streq code (js "EXECUTOR_QUEUE_CAPACITY_EXCEEDED") then Some true
  else None.
Definition maxResultBytes : Z := 1048576.

(** A record rewritten: [{ ...record, state, authority, ... }]. *)
Definition updated (record : TaskRecord) (state : TaskRecordState) (now : Z) (authority : option RuntimeAuthority)
    (cancellation : option TaskCancellationIntent) (diagnostic : option RuntimeDiagnostic)
    (result : option ExecutionResult) : TaskRecord :=
  {| t_taskId := t_taskId record; t_attemptId := t_attemptId record; t_request := t_request record;
     t_state := state; t_createdAt := t_createdAt record; t_updatedAt := iso_now now;
     t_target := t_target record; t_binding := t_binding record; t_executor := t_executor record;
     t_authority := authority; t_cancellation := cancellation; t_diagnostic := diagnostic; t_result := result |}.

Section service.
Context (number_text : jsnum → jstring) (sha256 : jstring → jstring) (localeCompare : jstring → jstring → Z).
Context (ajv : schema_name → json → bool).
Abbreviation parse := (parseTaskRecord number_text sha256 localeCompare ajv).
Abbreviation fingerprint_of request := (canonical number_text (request_json request)).

Definition check_authority (authority : RuntimeAuthority) : task unit := sync (assertAuthority authority).
Definition clock_now : task Z := effect (Sync (λ now s, (now, s, []))).
Definition throw_now {B} (e : Z → task_error) : task B := sync (λ now _, Err (e now)).

(** ** Reading *)

(** [#load]: the record is checked and cached. *)
Definition load (taskId : jstring) : task (option (TaskRecord * Z)) :=
  stored ← attempt (ReadTask taskId);
  match stored with
  | None => Ret None
  | Some (value, revision) =>
      record ← of_result (lift (parse value));
      _ ← modify (λ s, set_records (<[taskId := (record, revision)]> (sv_records s)) s);
      Ret (Some (record, revision))
  end.

Definition status (taskId : jstring) : task (option TaskRecord) :=
  _ ← sync assertOpen;
  _ ← of_result (lift (checks (parseTaskId (VStr taskId))));
  loaded ← load taskId;
  match loaded with
  | Some (record, _) =>
      if bool_decide (t_state record = Terminal)
      then _ ← modify (λ s, set_ephemeral (delete taskId (sv_ephemeralTerminal s)) s); Ret (Some record)
      else asks (λ s, Some (default record (sv_ephemeralTerminal s !! taskId)))
  | None => asks (λ s, sv_ephemeralTerminal s !! taskId)
  end.

(** [#notify] *)
Definition notify_service (record : TaskRecord) (s : TaskService) : TaskService :=
  let s' := foldl (λ s w, settle w (Ok (Some record)) s) s (default [] (sv_waiters s !! t_taskId record)) in
  set_waiters (delete (t_taskId record) (sv_waiters s')) s'.
Definition notify (record : TaskRecord) : task unit := modify (notify_service record).

(** ** Writing *)


Fixpoint transition_loop (attempts : nat) (taskId : jstring) (authority : RuntimeAuthority)
    (update : Z → TaskRecord → TaskRecord) : task TaskRecord :=
  match attempts with
  | O => throw_now (corrupt taskId)
  | S attempts =>
      _ ← check_authority authority;
      loaded ← load taskId;
      match loaded with
      | None => throw_now (missing taskId)
      | Some (record, revision) =>
          if bool_decide (t_state record = Terminal) then Ret record
          else
            next ← sync (λ now _, lift (parse (update now record)));
            catch
              (_ ← attempt (Transact authority None (λ now s _,
                     _ ← assertAuthority authority now s; Ok (next, [PutTask next (Some revision)])));
               _ ← check_authority authority;
               persisted ← load taskId;
               match persisted with
               | None => throw_now (corrupt taskId)
               | Some (record, _) => Ret record
               end)
              (λ e, if has_code e "STATE_REVISION_CONFLICT" then transition_loop attempts taskId authority update
                    else Throw e)
      end
  end.
Definition transition (taskId : jstring) (authority : RuntimeAuthority) (update : Z → TaskRecord → TaskRecord)
  : task TaskRecord := transition_loop 4 taskId authority update.

(** The record of an uncertain end. *)
Definition uncertain_diagnostic (record : TaskRecord) (error : task_error) (now : Z) : RuntimeDiagnostic :=
  match error with
  | Diagnostic d =>
      if has_code error "EXECUTOR_TARGET_MISMATCH" || has_code error "EXECUTOR_TARGET_UNAVAILABLE" ||
         has_code error "EXECUTOR_RESULT_INVALID"
      then {| dg_code := dg_code d; dg_severity := dg_severity d; dg_message := dg_message d;
              dg_source := dg_source d; dg_retryable := false; dg_details := dg_details d;
              dg_observedAt := iso_now now |}
      else runtimeDiagnostic "EXECUTOR_RESULT_INDETERMINATE"
        "The execution or persistence boundary cannot prove an authoritative task result" "executor"
        (t_taskId record) false None (iso_now now)
  | OtherError =>
      runtimeDiagnostic "EXECUTOR_RESULT_INDETERMINATE"
        "The execution or persistence boundary cannot prove an authoritative task result" "executor"
        (t_taskId record) false None (iso_now now)
  end.
Definition indeterminate (record : TaskRecord) (error : task_error) (now : Z) : TaskRecord :=
  updated record Terminal now (t_authority record) (t_cancellation record) (t_diagnostic record)
    (Some {| rs_taskId := t_taskId record; rs_attemptId := t_attemptId record;
             rs_executor := resultExecutor record; rs_status := Indeterminate; rs_output := None;
             rs_diagnostic := Some (uncertain_diagnostic record error now);
             rs_startedAt := t_createdAt record; rs_completedAt := iso_now now |}).

Definition keeps_authority (authority : RuntimeAuthority) : task bool :=
  effect (Sync (λ now s, (is_ok (assertAuthority authority now s), s, []))).

Definition settleUncertain (record : TaskRecord) (error : task_error) (authority : RuntimeAuthority)
    (allowEphemeral : bool) : task unit :=
  known ← asks (λ s, match sv_ephemeralTerminal s !! t_taskId record with Some _ => true | None => false end);
  if (known : bool) then Ret tt
  else
    held ← keeps_authority authority;
    if negb held then Ret tt
    else
      terminal ← sync (λ now _, lift (parse (indeterminate record error now)));
      outcome ← settled (persisted ← transition (t_taskId record) authority (λ _ _, terminal); notify persisted);
      match outcome with
      | Ok _ => Ret tt
      | Err e =>
          held ← keeps_authority authority;
          if negb held || has_code e "STATE_REVISION_CONFLICT" || has_code e "COORDINATION_FENCE_REJECTED" ||
             has_code e "COORDINATION_NOT_LEADER" || negb allowEphemeral
          then Ret tt
          else
            _ ← modify (λ s, set_ephemeral (<[t_taskId record := terminal]> (sv_ephemeralTerminal s)) s);
            notify terminal
      end.

Definition unknown_diagnostic (code : String.string) (taskId : jstring) (now : Z) : RuntimeDiagnostic :=
  runtimeDiagnostic code "Executor acknowledgement is unavailable; durable reconciliation remains pending" "executor"
    taskId true None (iso_now now).
Definition mark (record : TaskRecord) (authority : RuntimeAuthority) (diagnostic : Z → RuntimeDiagnostic) : task unit :=
  _ ← transition (t_taskId record) authority (λ now current,
        updated current (t_state current) now (Some authority) (t_cancellation current) (Some (diagnostic now))
          (t_result current));
  Ret tt.
Definition markUnknown (record : TaskRecord) (authority : RuntimeAuthority) (code : String.string) : task unit :=
  mark record authority (unknown_diagnostic code (t_taskId record)).
#[local] Arguments markUnknown record authority code%_string_scope.
Definition markTargetUnavailable (record : TaskRecord) (authority : RuntimeAuthority) (d : RuntimeDiagnostic) : task unit :=
  mark record authority (λ _, d).
Definition run_state (record : TaskRecord) (authority : RuntimeAuthority) : task TaskRecord :=
  transition (t_taskId record) authority (λ now current,
    updated current Running now (Some authority) (t_cancellation current) (t_diagnostic current) (t_result current)).

Definition rejection (record : TaskRecord) (code : jstring) (retryable : bool) (now : Z) : ExecutionResult :=
  {| rs_taskId := t_taskId record; rs_attemptId := t_attemptId record; rs_executor := resultExecutor record;
     rs_status := RejectedStatus; rs_output := None;
     rs_diagnostic :=
       Some {| dg_code := code; dg_severity := js "error";
               dg_message := js "Executor rejected the task before creating an attempt";
               dg_source := (js "executor", t_taskId record); dg_retryable := retryable; dg_details := None;
               dg_observedAt := iso_now now |};
     rs_startedAt := t_createdAt record; rs_completedAt := iso_now now |}.
Definition rejectAdmission (record : TaskRecord) (error : task_error) (authority : RuntimeAuthority) (retryable : bool)
  : task TaskRecord :=
  now ← clock_now;
  terminal ← transition (t_taskId record) authority (λ _ current,
    updated current Terminal now (Some authority) (t_cancellation current) (t_diagnostic current)
      (Some (rejection record (default (js "EXECUTOR_SUBMISSION_REJECTED") (diagnosticCode error)) retryable now)));
  _ ← notify terminal;
  Ret terminal.

Definition unregister (taskId : jstring) (registration : option ExecutorRegistration) : task unit :=
  modify (λ s,
    if match registration with
       | None => true
       | Some r => match sv_executors s !! taskId with Some q => (rg_id q =? rg_id r)%nat | None => false end
       end
    then set_executors (delete taskId (sv_executors s)) s else s).

Definition complete (record : TaskRecord) (result : ExecutionResult) (authority : RuntimeAuthority)
    (registration : option ExecutorRegistration) : task unit :=
  finally
    (catch
      (_ ← of_result (lift (parseExecutionResult ajv result));
       _ ← sync (λ now _, throw_if (negb (streq (rs_taskId result) (t_taskId record)) ||
                                    negb (streq (rs_attemptId result) (t_attemptId record)))
             (invalidResult (t_taskId record) "Executor result identity does not match the task" now));
       _ ← sync (λ now _, throw_if (match rs_output result with
                                    | Some output => maxResultBytes <? utf8_length (stringify number_text output)
                                    | None => false end)
             (invalidResult (t_taskId record) "Executor output exceeds the durable result limit" now));
       terminal ← transition (t_taskId record) authority (λ now current,
         updated current Terminal now (Some authority) (t_cancellation current) (t_diagnostic current) (Some result));
       notify terminal)
      (λ e, settleUncertain record e authority true))
    (unregister (t_taskId record) registration).

(** ** Executors *)
Definition validateSelection (selection : TaskExecutorSelection) (taskId : jstring) : task unit :=
  let x := sl_executor selection in
  let t := tg_executor (sl_target selection) in
  let fields := (if streq (ex_id x) (tx_id t) then [] else [js "executor.id"]) ++
                (if bool_decide (ex_type x = tx_type t) then [] else [js "executor.type"]) in
  match fields with [] => Ret tt | _ => throw_now (targetMismatch taskId fields) end.

Definition selectExecutorBounded (request : RunTaskRequest) (authority : RuntimeAuthority) (taskId : jstring)
    (target : option TaskExecutionTarget) (binding : option ExecutionBinding) (attemptId : jstring)
  : task TaskExecutorSelection :=
  let executorId := tx_id <$> (tg_executor <$> target) in
  outcome ← effect (SelectExecutor request target binding (Some (taskId, attemptId)));
  match outcome with
  | Selected value => _ ← check_authority authority; Ret value
  | SelectionAborted e => Throw e
  | SelectionFailed e =>
      if has_code e "BOOTSTRAP_STOPPED" || has_code e "COORDINATION_FENCE_REJECTED" ||
         has_code e "COORDINATION_NOT_LEADER"
      then Throw e
      else throw_now (targetUnavailable taskId executorId (Some e))
  | SelectionTimeout => throw_now (targetUnavailable taskId executorId None)
  end.

(** The target and binding a record must have to be executed. *)
Definition bound (record : TaskRecord) : task (TaskExecutionTarget * ExecutionBinding) :=
  match t_target record, t_binding record with
  | None, _ => throw_now (invalidResult (t_taskId record) "Task execution target is missing")
  | _, None => throw_now (invalidResult (t_taskId record) "Task execution binding is missing")
  | Some target, Some binding => Ret (target, binding)
  end.

Definition resolveExecutor (record : TaskRecord) (authority : RuntimeAuthority) : task Executor :=
  '(target, binding) ← bound record;
  registration ← asks (λ s, sv_executors s !! t_taskId record);
  match registration with
  | Some r =>
      if bool_decide (rg_authority r = authority) && streq (ex_id (rg_executor r)) (tx_id (tg_executor target)) &&
         bool_decide (ex_type (rg_executor r) = tx_type (tg_executor target))
      then Ret (Some (rg_executor r)) else Ret None
  | None => Ret None
  end ≫= λ retained : option Executor,
  match retained with
  | Some executor => Ret executor
  | None =>
      resolved ← selectExecutorBounded (t_request record) authority (t_taskId record) (Some target) (Some binding)
                   (t_attemptId record);
      _ ← validateSelection resolved (t_taskId record);
      match targetMismatchedFields target (sl_target resolved) with
      | [] =>
          if streq (xb_fingerprint (sl_binding resolved)) (xb_fingerprint binding) then Ret (sl_executor resolved)
          else throw_now (targetMismatch (t_taskId record) [js "binding.fingerprint"])
      | fields => throw_now (targetMismatch (t_taskId record) fields)
      end
  end.

(** A new registration of the executor of a task. *)
Definition register (taskId : jstring) (executor : Executor) (authority : RuntimeAuthority) : task ExecutorRegistration :=
  effect (Sync (λ _ s,
    let '(n, s') := fresh (OfTask taskId) s in
    let r := {| rg_executor := executor; rg_authority := authority; rg_id := n |} in
    (r, set_executors (<[taskId := r]> (sv_executors s')) s', []))).

Definition execution_request (record : TaskRecord) (target : TaskExecutionTarget) (binding : ExecutionBinding)
  : ExecutionRequest :=
  let r := t_request record in
  {| er_taskId := t_taskId record; er_attemptId := t_attemptId record; er_applicationId := rq_applicationId r;
     er_pluginId := rq_pluginId r; er_componentId := rq_componentId r; er_target := target; er_binding := binding;
     er_input := rq_input r; er_deadline := rq_deadline r; er_orphanPolicy := rq_orphanPolicy r |}.

(** [(await this.status(id)) ?? record] *)
Definition current_or (record : TaskRecord) : task TaskRecord :=
  current ← status (t_taskId record); Ret (default record current).

(** What follows a submission that threw. *)
Definition submission_failed (record : TaskRecord) (error : task_error) (authority : RuntimeAuthority)
    (registration : ExecutorRegistration) : task TaskRecord :=
  let executor := rg_executor registration in
  match diagnosticCode error ≫= definiteAdmissionRejections with
  | Some retryable =>
      finally (rejectAdmission record error authority retryable) (unregister (t_taskId record) (Some registration))
  | None =>
      outcome ← settled (attempt (Observe executor (t_taskId record) (t_attemptId record)));
      _ ← match outcome with
          | Ok (Observed (Some (AttemptTerminal result))) => complete record result authority (Some registration)
          | _ =>
              if negb (bool_decide (ex_type executor = Remote)) then settleUncertain record error authority true
              else markUnknown record authority "EXECUTOR_SUBMISSION_UNKNOWN"
          end;
      current_or record
  end.

(** The handle a submission returned is of this attempt: the task runs, and its
    result is awaited apart. *)
Definition submitted (record : TaskRecord) (handle : ExecutionHandle) (authority : RuntimeAuthority)
    (registration : ExecutorRegistration) : task TaskRecord :=
  if negb (streq (h_taskId handle) (t_taskId record)) || negb (streq (h_attemptId handle) (t_attemptId record)) then
    now ← clock_now;
    _ ← settleUncertain record
          (invalidResult (t_taskId record) "Executor handle identity does not match the task" now) authority true;
    current_or record
  else
    running ← settled (run_state record authority);
    match running with
    | Err e =>
        _ ← settleUncertain record e authority true;
        uncertain ← asks (λ s, sv_ephemeralTerminal s !! t_taskId record);
        match uncertain with
        | Some record => Ret record
        | None =>
            persisted ← status (t_taskId record);
            match persisted with Some record => Ret record | None => Throw e end
        end
    | Ok running =>
        _ ← effect (Sync (λ _ s, (tt, s, [JobCompletion running handle authority registration])));
        Ret running
    end.

Definition dispatch (record : TaskRecord) (authority : RuntimeAuthority) : task TaskRecord :=
  _ ← check_authority authority;
  executor ← resolveExecutor record authority;
  '(target, binding) ← bound record;
  _ ← check_authority authority;
  registration ← register (t_taskId record) executor authority;
  outcome ← effect (Submit executor (execution_request record target binding));
  match outcome with
  | Err e => submission_failed record e authority registration
  | Ok handle => submitted record handle authority registration
  end.

(** An awaited promise of a task. *)
Definition await_record (p : nat) : task TaskRecord :=
  r ← attempt (Await p);
  match r with Some record => Ret record | None => Throw OtherError end.

(** [#ensureDispatch]: one dispatch of a task at a time. *)
Definition ensureDispatch (record : TaskRecord) (authority : RuntimeAuthority) : task TaskRecord :=
  p ← effect (Sync (λ _ s,
        match sv_dispatches s !! t_taskId record with
        | Some p => (p, s, [])
        | None =>
            let '(p, s') := fresh (OfTask (t_taskId record)) s in
            (p, set_dispatches (<[t_taskId record := p]> (sv_dispatches s')) s', [JobDispatch p record authority])
        end));
  await_record p.

(** ** Recovery *)
Definition resumeRemoteCompletion (record : TaskRecord) (executor : Executor) (authority : RuntimeAuthority)
    (registration : ExecutorRegistration) : task unit :=
  pending ← asks (λ s, match sv_remoteCompletions s !! t_taskId record with Some _ => true | None => false end);
  if pending || negb (ex_resumes executor) then Ret tt
  else
    handle ← attempt (Resume executor (t_taskId record) (t_attemptId record));
    match handle with
    | None => Ret tt
    | Some handle =>
        if negb (streq (h_taskId handle) (t_taskId record)) || negb (streq (h_attemptId handle) (t_attemptId record))
        then
          now ← clock_now;
          settleUncertain record
            (invalidResult (t_taskId record) "Recovered executor handle identity does not match" now) authority true
        else
          effect (Sync (λ _ s,
            let '(p, s') := fresh (OfTask (t_taskId record)) s in
            (tt, set_remoteCompletions (<[t_taskId record := p]> (sv_remoteCompletions s')) s',
             [JobRemoteCompletion p record handle authority registration])))
    end.

(** What is done about an executor that cannot be resolved. *)
Definition unresolved (record : TaskRecord) (error : task_error) (authority : RuntimeAuthority) : task unit :=
  if has_code error "EXECUTOR_TARGET_MISMATCH" then settleUncertain record error authority true
  else if is_remote record then
    match error with
    | Diagnostic d =>
        if has_code error "EXECUTOR_TARGET_UNAVAILABLE" then markTargetUnavailable record authority d
        else markUnknown record authority "EXECUTOR_OBSERVATION_UNKNOWN"
    | OtherError => markUnknown record authority "EXECUTOR_OBSERVATION_UNKNOWN"
    end
  else settleUncertain record error authority true.

(** What is done with what the executor shows of the attempt. *)
Definition observed (record : TaskRecord) (value : option AttemptStatus) (authority : RuntimeAuthority)
    (registration : ExecutorRegistration) : task unit :=
  _ ← match value with
      | Some (AttemptTerminal result) => complete record result authority (Some registration)
      | Some (AttemptOpen true) =>
          if bool_decide (t_state record = Accepted) then _ ← run_state record authority; Ret tt else Ret tt
      | Some (AttemptOpen false) => Ret tt
      | None =>
          if negb (is_remote record) then
            if bool_decide (t_state record = Accepted) then _ ← ensureDispatch record authority; Ret tt
            else settleUncertain record OtherError authority true
          else markUnknown record authority "EXECUTOR_OBSERVATION_UNKNOWN"
      end;
  match value with
  | Some (AttemptOpen _) =>
      if is_remote record then resumeRemoteCompletion record (rg_executor registration) authority registration
      else Ret tt
  | _ => Ret tt
  end.

Definition recoverRecord (record : TaskRecord) (authority : RuntimeAuthority) : task unit :=
  match t_binding record, t_target record with
  | None, _ =>
      now ← clock_now;
      settleUncertain record (invalidResult (t_taskId record) "Task execution binding is missing" now) authority true
  | Some _, None => settleUncertain record OtherError authority true
  | Some _, Some _ =>
      resolved ← settled (resolveExecutor record authority);
      match resolved with
      | Err e => unresolved record e authority
      | Ok executor =>
          _ ← check_authority authority;
          registration ← register (t_taskId record) executor authority;
          _ ← match t_cancellation record with
              | Some _ =>
                  _ ← check_authority authority;
                  _ ← attempt (CancelAttempt executor (t_taskId record) (t_attemptId record));
                  check_authority authority
              | None => Ret tt
              end;
          outcome ← settled (attempt (Observe executor (t_taskId record) (t_attemptId record)));
          match outcome with
          | Ok ObservationTimeout =>
              (* inside the try block: a failure to mark is settled as one to observe *)
              catch (markUnknown record authority "EXECUTOR_OBSERVATION_UNKNOWN")
                (λ e, if is_remote record then Ret tt else settleUncertain record e authority true)
          | Err e => if is_remote record then Ret tt else settleUncertain record e authority true
          | Ok (Observed value) => _ ← check_authority authority; observed record value authority registration
          end
      end
  end.

(** [Promise.all] of the recoveries, each a job. *)
Fixpoint await_all (ps : list nat) : task unit :=
  match ps with [] => Ret tt | p :: ps => _ ← attempt (Await p); await_all ps end.
Fixpoint fresh_jobs (records : list TaskRecord) (authority : RuntimeAuthority) (s : TaskService)
  : list nat * TaskService * list job :=
  match records with
  | [] => ([], s, [])
  | record :: rest =>
      let '(p, s1) := fresh (OfTask (t_taskId record)) s in
      let '(ps, s2, js) := fresh_jobs rest authority s1 in
      (p :: ps, s2, JobRecoverPending p record authority :: js)
  end.
(** The records [select] picks of those in memory. *)
Definition recoverPending (select : TaskRecord → bool) (authority : RuntimeAuthority) : task unit :=
  ps ← effect (Sync (λ _ s,
         fresh_jobs (List.filter select (map (λ e, e.2.1) (map_to_list (sv_records s)))) authority s));
  await_all ps.
Definition recover_pending (record : TaskRecord) (authority : RuntimeAuthority) : task unit :=
  catch (recoverRecord record authority)
    (λ e, if negb (is_remote record) then settleUncertain record e authority true else Ret tt).

Definition open_record (record : TaskRecord) : bool := negb (bool_decide (t_state record = Terminal)).

Fixpoint recover_loop (stored : list (TaskRecord * Z)) : task unit :=
  match stored with
  | [] => Ret tt
  | (value, revision) :: rest =>
      record ← of_result (lift (parse value));
      _ ← modify (λ s, set_records (<[t_taskId record := (record, revision)]> (sv_records s)) s);
      recover_loop rest
  end.
Definition recover : task unit :=
  _ ← sync assertOpen;
  _ ← modify (set_records ∅);
  stored ← attempt ScanTasks;
  recover_loop stored.

Definition setAuthority (authority : option RuntimeAuthority) : task unit :=
  _ ← sync assertOpen;
  _ ← modify (λ s, set_state authority (sv_closed s) s);
  match authority with
  | None => Ret tt
  | Some authority =>
      _ ← recover;
      _ ← check_authority authority;
      recoverPending open_record authority
  end.

Definition on_worker (workerId : jstring) (record : TaskRecord) : bool :=
  open_record record && is_remote record &&
  match t_target record with
  | Some target => bool_decide (tx_workerId (tg_executor target) = Some workerId)
  | None => false
  end.
Definition recoverRemoteWorker (workerId : jstring) : task unit :=
  _ ← sync assertOpen;
  authority ← sync requireAuthority;
  _ ← of_result (lift (checks (parseWorkerId (VStr workerId))));
  recoverPending (on_worker workerId) authority.

(** ** Running *)
Definition findReplay (request : RunTaskRequest) (fingerprint : jstring) : task (option TaskRecord) :=
  match rq_operationId request with
  | None => Ret None
  | Some operationId =>
      identity ← attempt (ReadOperation operationId);
      match identity with
      | None => Ret None
      | Some i =>
          if negb (streq (oi_fingerprint i) fingerprint) then throw_now (idempotencyConflict operationId)
          else
            loaded ← load (oi_taskId i);
            match loaded with
            | None => throw_now (corrupt (oi_taskId i))
            | Some (record, _) => Ret (Some record)
            end
      end
  end.

(** The transaction of [#admit]: an existing record, or the candidate and its
    operation. *)
Definition admit_work (request : RunTaskRequest) (fingerprint : jstring) (candidate : TaskRecord) (now : Z)
    (_ : TaskService) (st : TaskStore) : result task_error (TaskRecord * list task_put) :=
  let fresh_task :=
    match ts_tasks st !! t_taskId candidate with
    | Some (existing, _) =>
        record ← lift (parse existing);
        if negb (streq (fingerprint_of (t_request record)) fingerprint)
        then Err (idempotencyConflict (default (t_taskId candidate) (rq_operationId request)) now)
        else Ok (record, [])
    | None =>
        Ok (candidate, PutTask candidate None ::
          match rq_operationId request with
          | Some operationId =>
              [PutOperation operationId {| oi_taskId := t_taskId candidate; oi_attemptId := t_attemptId candidate;
                                           oi_fingerprint := fingerprint |}]
          | None => []
          end)
    end in
  match rq_operationId request with
  | None => fresh_task
  | Some operationId =>
      match ts_operations st !! operationId with
      | None => fresh_task
      | Some i =>
          if negb (streq (oi_fingerprint i) fingerprint) then Err (idempotencyConflict operationId now)
          else
            match ts_tasks st !! oi_taskId i with
            | None => Err (corrupt (oi_taskId i) now)
            | Some (existing, _) => record ← lift (parse existing); Ok (record, [])
            end
      end
  end.

Definition candidate_of (request : RunTaskRequest) (proposed : jstring * jstring) (selection : TaskExecutorSelection)
    (authority : RuntimeAuthority) (now : Z) : TaskRecord :=
  {| t_taskId := proposed.1; t_attemptId := proposed.2; t_request := request; t_state := Accepted;
     t_createdAt := iso_now now; t_updatedAt := iso_now now; t_target := Some (sl_target selection);
     t_binding := Some (sl_binding selection); t_executor := None; t_authority := Some authority;
     t_cancellation := None; t_diagnostic := None; t_result := None |}.

Definition admitTask (request : RunTaskRequest) (fingerprint : jstring) (proposed : jstring * jstring)
    (selection : TaskExecutorSelection) (authority : RuntimeAuthority) : task TaskRecord :=
  _ ← check_authority authority;
  candidate ← sync (λ now _, lift (parse (candidate_of request proposed selection authority now)));
  admitted ← attempt (Transact authority
    ((λ o, (js "task:" ++ o, fingerprint)) <$> rq_operationId request) (admit_work request fingerprint candidate));
  _ ← check_authority authority;
  loaded ← load (t_taskId admitted);
  match loaded with
  | None => throw_now (corrupt (t_taskId admitted))
  | Some (record, _) => Ret record
  end.

(** The executor of the selection, where the record was admitted for it. *)
Definition selected_for (record : TaskRecord) (selection : TaskExecutorSelection) : bool :=
  match t_target record, t_binding record with
  | Some target, Some binding =>
      streq (xb_fingerprint binding) (xb_fingerprint (sl_binding selection)) && sameTarget target (sl_target selection)
  | _, _ => false
  end.

(** A task that was admitted before. *)
Definition replayed (record : TaskRecord) : task TaskRecord :=
  if bool_decide (t_state record = Terminal) then Ret record
  else
    active ← asks (λ s, sv_dispatches s !! t_taskId record);
    match active with
    | Some p => await_record p
    | None =>
        authority ← sync requireAuthority;
        _ ← recoverRecord record authority;
        current_or record
    end.

(** A task that is admitted now. *)
Definition admitted (request : RunTaskRequest) (fingerprint : jstring) (authority : RuntimeAuthority)
  : task TaskRecord :=
  proposed ← effect (CreateIdentity request);
  selected ← selectExecutorBounded request authority proposed.1 None None proposed.2;
  _ ← validateSelection selected proposed.1;
  _ ← check_authority authority;
  record ← admitTask request fingerprint proposed selected authority;
  _ ← (if selected_for record selected
       then _ ← register (t_taskId record) (sl_executor selected) authority; Ret tt else Ret tt);
  existing ← asks (λ s, sv_dispatches s !! t_taskId record);
  match existing with
  | Some p => await_record p
  | None =>
      if negb (bool_decide (t_state record = Accepted)) then Ret record else ensureDispatch record authority
  end.

Definition run (request : RunTaskRequest) : task TaskRecord :=
  _ ← sync assertOpen;
  authority ← sync requireAuthority;
  _ ← of_result (lift (parseRunTaskRequest number_text request));
  replay ← findReplay request (fingerprint_of request);
  match replay with
  | Some record => replayed record
  | None => admitted request (fingerprint_of request) authority
  end.

(** ** Waiting *)
Definition add_waiter (taskId : jstring) (p : nat) (s : TaskService) : TaskService :=
  set_waiters (<[taskId := default [] (sv_waiters s !! taskId) ++ [p]]> (sv_waiters s)) s.
Definition remove_waiter (taskId : jstring) (p : nat) (s : TaskService) : TaskService :=
  match sv_waiters s !! taskId with
  | None => s
  | Some ps =>
      match List.filter (λ q, negb (q =? p)%nat) ps with
      | [] => set_waiters (delete taskId (sv_waiters s)) s
      | rest => set_waiters (<[taskId := rest]> (sv_waiters s)) s
      end
  end.

Definition wait (taskId : jstring) : task TaskRecord :=
  _ ← sync assertOpen;
  current ← status taskId;
  match current with
  | None => throw_now (missing taskId)
  | Some current =>
      if bool_decide (t_state current = Terminal) then Ret current
      else
        waiter ← effect (Sync (λ now s,
          let '(p, s1) := fresh (OfTask taskId) s in
          let s2 := add_waiter taskId p s1 in
          ((p, sv_closed s), if sv_closed s then settle p (Err (stoppedError now)) s2 else s2, [])));
        _ ← (if waiter.2 : bool then Ret tt
             else
               catch
                 (after ← status taskId;
                  match after with
                  | Some record => if bool_decide (t_state record = Terminal) then notify record else Ret tt
                  | None => Ret tt
                  end)
                 (λ e, modify (settle waiter.1 (Err e))));
        finally (await_record waiter.1) (modify (remove_waiter taskId waiter.1))
  end.

(** [#waitBounded]: a wait of its own, and a timeout. *)
Definition waitBounded (taskId : jstring) : task (option TaskRecord) :=
  p ← effect (Sync (λ _ s, let '(p, s') := fresh (OfTask taskId) s in (p, s', [JobWait p taskId])));
  attempt (AwaitBounded p).

(** ** Cancelling *)
Definition request_cancellation (authority : RuntimeAuthority) (now : Z) (record : TaskRecord) : TaskRecord :=
  updated record (t_state record) now (t_authority record)
    (Some {| ca_requestedAt := iso_now now; ca_authority := authority |}) (t_diagnostic record) (t_result record).

Definition cancelling (taskId : jstring) : task TaskRecord :=
  authority ← sync requireAuthority;
  current ← status taskId;
  match current with
  | None => throw_now (missing taskId)
  | Some current =>
      if bool_decide (t_state current = Terminal) then Ret current
      else
        intended ← match t_cancellation current with
                   | None => transition taskId authority (request_cancellation authority)
                   | Some _ => Ret current
                   end;
        _ ← check_authority authority;
        executor ← asks (λ s, sv_executors s !! taskId);
        _ ← match executor with
            | Some _ => Ret tt
            | None =>
                dispatch ← asks (λ s, sv_dispatches s !! taskId);
                match dispatch with
                | Some p => _ ← settled (attempt (Await p)); Ret tt
                | None => Ret tt
                end
            end;
        registration ← asks (λ s, sv_executors s !! taskId);
        shown ← match registration with
          | Some r =>
              let active := rg_executor r in
              _ ← check_authority authority;
              _ ← attempt (CancelAttempt active (t_taskId intended) (t_attemptId intended));
              _ ← check_authority authority;
              attempt (Observe active (t_taskId intended) (t_attemptId intended))
          | None => Ret ObservationTimeout
          end;
        _ ← check_authority authority;
        _ ← match shown with
            | Observed (Some (AttemptTerminal result)) => complete intended result authority registration
            | _ => Ret tt
            end;
        completed ← waitBounded taskId;
        match completed with
        | Some record => Ret record
        | None =>
            after ← status taskId;
            match after with
            | Some record =>
                if bool_decide (t_state record = Terminal) then Ret record
                else _ ← settleUncertain intended OtherError authority true; current_or intended
            | None => _ ← settleUncertain intended OtherError authority true; current_or intended
            end
        end
  end.

(** [cancel]: one cancellation of a task is kept for all calls. *)
Definition cancel (taskId : jstring) : task TaskRecord :=
  _ ← sync assertOpen;
  _ ← sync requireAuthority;
  _ ← of_result (lift (checks (parseTaskId (VStr taskId))));
  p ← effect (Sync (λ _ s,
        match sv_cancellations s !! taskId with
        | Some p => (p, s, [])
        | None =>
            let '(p, s') := fresh (OfTask taskId) s in
            (p, set_cancellations (<[taskId := p]> (sv_cancellations s')) s', [JobCancelling p taskId])
        end));
  await_record p.

Definition settle_all (ps : list nat) (r : settlement) (s : TaskService) : TaskService :=
  foldl (λ s p, settle p r s) s ps.
Definition close : task unit :=
  effect (Sync (λ now s,
    if sv_closed s then (tt, s, [])
    else
      let s1 := settle_all (concat (map snd (map_to_list (sv_waiters s)))) (Err (stoppedError now)) s in
      (tt, set_waiters ∅ (set_state None true s1), []))).

(** ** Jobs *)
Definition forget_if (p : nat) (taskId : jstring) (m : gmap jstring nat) : gmap jstring nat :=
  if bool_decide (m !! taskId = Some p) then delete taskId m else m.

(** A job that settles its promise. *)
Definition promised {B} (p : nat) (value : B → option TaskRecord) (body : task B) (after : bool → TaskService → TaskService)
  : task unit :=
  outcome ← settled body;
  modify (λ s, after (is_ok outcome)
    (settle p (match outcome with Ok b => Ok (value b) | Err e => Err e end) s)).

Definition start (j : job) : task unit :=
  let nothing := λ (_ : bool) (s : TaskService), s in
  match j with
  | JobRun p request => promised p Some (run request) nothing
  | JobStatus p taskId => promised p id (status taskId) nothing
  | JobWait p taskId => promised p Some (wait taskId) nothing
  | JobCancel p taskId => promised p Some (cancel taskId) nothing
  | JobCancelling p taskId =>
      promised p Some (cancelling taskId) (λ ok s,
        if ok then s else set_cancellations (forget_if p taskId (sv_cancellations s)) s)
  | JobSetAuthority p authority => promised p (λ _, None) (setAuthority authority) nothing
  | JobRecoverRemoteWorker p workerId => promised p (λ _, None) (recoverRemoteWorker workerId) nothing
  | JobRecoverPending p record authority => promised p (λ _, None) (recover_pending record authority) nothing
  | JobDispatch p record authority =>
      promised p Some (dispatch record authority) (λ _ s,
        set_dispatches (forget_if p (t_taskId record) (sv_dispatches s)) s)
  | JobCompletion record handle authority registration =>
      outcome ← effect (HandleResult handle);
      catch
        (match outcome with
         | Ok result => complete record result authority (Some registration)
         | Err e => settleUncertain record e authority true
         end) (λ _, Ret tt)
  | JobRemoteCompletion p record handle authority registration =>
      outcome ← effect (HandleResult handle);
      _ ← catch
        (match outcome with
         | Ok result => complete record result authority (Some registration)
         | Err e => settleUncertain record e authority true
         end) (λ _, Ret tt);
      modify (λ s, set_remoteCompletions (forget_if p (t_taskId record) (sv_remoteCompletions s)) s)
  | JobClose => close
  end.
End service.

(** ** The world

    What the environment answers, and the effects of a service of it. *)
Inductive answer :=
| Proceed
| StoreFails (e : task_error)    (** before the transaction commits, or a read *)
| StoreUncertain (e : task_error) (** the transaction commits, the answer is lost *)
| TimesOut
| Identifies (taskId attemptId : jstring)
| Selects (outcome : selection_outcome)
| Submits (outcome : result task_error ExecutionHandle)
| Shows (outcome : result task_error ObservationOutcome)
| CancelsAttempt (outcome : result task_error unit)
| Resumes (outcome : result task_error (option ExecutionHandle))
| Finishes (outcome : result task_error ExecutionResult).

Record world := {
  wd_store : TaskStore;
  wd_services : gmap nat TaskService;
  wd_now : Z;
  wd_submissions : list (nat * Executor * ExecutionRequest);
}.
Definition service (w : world) (i : nat) : TaskService := default new_service (wd_services w !! i).
Definition set_service (w : world) (i : nat) (s : TaskService) : world :=
  {| wd_store := wd_store w; wd_services := <[i := s]> (wd_services w); wd_now := wd_now w;
     wd_submissions := wd_submissions w |}.
Definition set_store (w : world) (st : TaskStore) : world :=
  {| wd_store := st; wd_services := wd_services w; wd_now := wd_now w; wd_submissions := wd_submissions w |}.
Definition log_submission (w : world) (i : nat) (x : Executor) (r : ExecutionRequest) : world :=
  {| wd_store := wd_store w; wd_services := wd_services w; wd_now := wd_now w;
     wd_submissions := wd_submissions w ++ [(i, x, r)] |}.

(** A read of the store, which may fail. *)
Definition reads {B} (a : answer) (w : world) (v : B) : option (result task_error B * world * list job) :=
  match a with
  | Proceed => Some (Ok v, w, [])
  | StoreFails e => Some (Err e, w, [])
  | _ => None
  end.

Definition handle (i : nat) (a : answer) (w : world) (B : Type) (e : eff B) : option (B * world * list job) :=
  match e in eff B return option (B * world * list job) with
  | Sync f => let '(b, s, js) := f (wd_now w) (service w i) in Some (b, set_service w i s, js)
  | ReadTask taskId => reads a w (ts_tasks (wd_store w) !! taskId)
  | ReadOperation operationId => reads a w (ts_operations (wd_store w) !! operationId)
  | ScanTasks => reads a w (map snd (map_to_list (ts_tasks (wd_store w))))
  | Transact fencing key work =>
      let '(r, st) := transact fencing key (work (wd_now w) (service w i)) (wd_store w) in
      match a with
      | Proceed => Some (r, set_store w st, [])
      | StoreFails e => Some (Err e, w, [])
      | StoreUncertain e => Some (Err e, set_store w st, [])
      | _ => None
      end
  | CreateIdentity _ => match a with Identifies taskId attemptId => Some ((taskId, attemptId), w, []) | _ => None end
  | SelectExecutor _ _ _ _ => match a with Selects outcome => Some (outcome, w, []) | _ => None end
  | Submit x r => match a with Submits outcome => Some (outcome, log_submission w i x r, []) | _ => None end
  | Observe _ _ _ => match a with Shows outcome => Some (outcome, w, []) | _ => None end
  | CancelAttempt _ _ _ => match a with CancelsAttempt outcome => Some (outcome, w, []) | _ => None end
  | Resume _ _ _ => match a with Resumes outcome => Some (outcome, w, []) | _ => None end
  | HandleResult _ => match a with Finishes outcome => Some (outcome, w, []) | _ => None end
  | Await p => r ← sv_promises (service w i) !! p; Some (r, w, [])
  | AwaitBounded p =>
      match a with
      | TimesOut => Some (Ok None, w, [])
      | StoreFails e => Some (Err e, w, [])
      | _ => r ← sv_promises (service w i) !! p; Some (r, w, [])
      end
  end.

(** A history: threads run, clients call methods, time passes. A call takes the
    next number for its promise. *)
Inductive method :=
| CallRun (request : RunTaskRequest) | CallStatus (taskId : jstring) | CallWait (taskId : jstring)
| CallCancel (taskId : jstring) | CallSetAuthority (authority : option RuntimeAuthority)
| CallRecoverRemoteWorker (workerId : jstring) | CallClose.
Inductive happening :=
| Runs (thread : nat) (a : answer)
| Calls (service : nat) (m : method)
| Time (now : Z).

Section history.
Context (number_text : jsnum → jstring) (sha256 : jstring → jstring) (localeCompare : jstring → jstring → Z).
Context (ajv : schema_name → json → bool).
Abbreviation tasks_pool := (pool eff task_error world nat).
Abbreviation starts := (start number_text sha256 localeCompare ajv).

Definition job_of (m : method) (p : nat) : job :=
  match m with
  | CallRun request => JobRun p request
  | CallStatus taskId => JobStatus p taskId
  | CallWait taskId => JobWait p taskId
  | CallCancel taskId => JobCancel p taskId
  | CallSetAuthority authority => JobSetAuthority p authority
  | CallRecoverRemoteWorker workerId => JobRecoverRemoteWorker p workerId
  | CallClose => JobClose
  end.
Definition owner_of (m : method) : owner :=
  match m with
  | CallRun request => OfRun request
  | CallStatus taskId | CallWait taskId | CallCancel taskId => OfTask taskId
  | CallSetAuthority _ | CallRecoverRemoteWorker _ | CallClose => OfNothing
  end.

Definition happens (q : tasks_pool) (h : happening) : tasks_pool :=
  match h with
  | Runs thread a => run_at handle starts thread a q
  | Calls i m =>
      let '(p, s) := fresh (owner_of m) (service (p_world q) i) in
      Build_pool (set_service (p_world q) i s) (p_threads q ++ [(i, starts (job_of m p))])
  | Time now =>
      let w := p_world q in
      Build_pool {| wd_store := wd_store w; wd_services := wd_services w; wd_now := now;
                    wd_submissions := wd_submissions w |} (p_threads q)
  end.
Definition no_tasks : tasks_pool :=
  Build_pool {| wd_store := empty_store; wd_services := ∅; wd_now := 0; wd_submissions := [] |} [].
Definition history (q : tasks_pool) (hs : list happening) : tasks_pool := foldl happens q hs.
End history.
