(* ===== verification/TaskLaws.v ===== *)
(** * Laws of the task store

    What stays true of the store and of every service of TaskService.v while
    their programs run: how records may change, what each service knows of the
    records it holds, and the rules for one effect of a program. *)

From S2P Require Import Prelude JsString Collections JsValue Identity JsonText Canonical Time Placement Execution Task Async TaskService.

Open Scope Z_scope.

#[local] Arguments canonical : simpl never.
#[local] Arguments request_json : simpl never.

(** ** Records *)

(** What an admitted task is: nothing of this ever changes. *)
Definition same_task (a b : TaskRecord) : Prop :=
  t_taskId a = t_taskId b ∧ t_attemptId a = t_attemptId b ∧ t_request a = t_request b ∧
  t_target a = t_target b ∧ t_binding a = t_binding b ∧ t_executor a = t_executor b ∧
  t_createdAt a = t_createdAt b.
#[export] Instance same_task_equiv : Equivalence same_task.
Proof.
  split.
  - by intros a.
  - intros a b (?&?&?&?&?&?&?). by repeat split.
  - intros a b c (?&?&?&?&?&?&?) (?&?&?&?&?&?&?). repeat split; congruence.
Qed.

Definition rank (s : TaskRecordState) : Z := match s with Accepted => 0 | Running => 1 | Terminal => 2 end.

(** One change of a record: it has not ended, and its state does not go back. *)
Definition changes (a b : TaskRecord) : Prop :=
  t_state a ≠ Terminal ∧ same_task a b ∧ rank (t_state a) ≤ rank (t_state b).

Lemma changes_trans a b c : changes a b → changes b c → changes a c.
Proof.
  intros (? & ? & ?) (? & ? & ?). split; [done|]. split; [by transitivity b|]. etransitivity; eassumption.
Qed.

(** ** The order of stores *)
Definition store_later (st st' : TaskStore) : Prop :=
  ts_revision st ≤ ts_revision st' ∧
  (∀ id r v, ts_tasks st !! id = Some (r, v) →
     ∃ r' v', ts_tasks st' !! id = Some (r', v') ∧ ((r' = r ∧ v' = v) ∨ (v < v' ∧ changes r r'))) ∧
  ts_operations st ⊆ ts_operations st' ∧
  (∀ resource e, ts_fences st !! resource = Some e → ∃ e', ts_fences st' !! resource = Some e' ∧ e ≤ e').

#[export] Instance store_later_preorder : PreOrder store_later.
Proof.
  split.
  - intros st. split_and!; [done|intros; by eauto 8|done|intros; by eauto with lia].
  - intros a b c (Rab & Tab & Oab & Fab) (Rbc & Tbc & Obc & Fbc). split_and!; [lia| |by transitivity (ts_operations b)|].
    + intros id r v H. destruct (Tab _ _ _ H) as (r' & v' & H' & C). destruct (Tbc _ _ _ H') as (r'' & v'' & H'' & C').
      exists r'', v''. split; [done|].
      destruct C as [[-> ->]|[? ?]], C' as [[-> ->]|[? ?]]; [by left|by right|by right|right].
      split; [lia|]. by eapply changes_trans.
    + intros resource e H. destruct (Fab _ _ H) as (e' & H' & ?). destruct (Fbc _ _ H') as (e'' & H'' & ?).
      exists e''. split; [done|lia].
Qed.

(** ** What a service may hold *)
Definition known (st : TaskStore) (r : TaskRecord) : Prop :=
  ∃ r' v, ts_tasks st !! t_taskId r = Some (r', v) ∧ same_task r r'.

Lemma known_later st st' r : store_later st st' → known st r → known st' r.
Proof.
  intros (_ & Ht & _) (r' & v & H & E). destruct (Ht _ _ _ H) as (r'' & v'' & H'' & C). exists r'', v''.
  split; [done|]. destruct C as [[-> _]|[_ (_ & ? & _)]]; [done|by transitivity r'].
Qed.

Lemma known_same st r r' : same_task r r' → known st r → known st r'.
Proof.
  intros E (q & v & H & Hq). pose proof E as (Eid & _). exists q, v. rewrite <- Eid. split; [done|].
  by rewrite <- Hq, E.
Qed.

Section laws.
Context (number_text : jsnum → jstring) (sha256 : jstring → jstring) (localeCompare : jstring → jstring → Z).
Context (ajv : schema_name → json → bool).
Abbreviation parse := (parseTaskRecord number_text sha256 localeCompare ajv).
Abbreviation fingerprint_of request := (canonical number_text (request_json request)).

(** The operation of a request names the task. *)
Definition answers (st : TaskStore) (q : RunTaskRequest) (r : TaskRecord) : Prop :=
  ∀ op, rq_operationId q = Some op →
    ∃ i, ts_operations st !! op = Some i ∧ oi_taskId i = t_taskId r ∧ oi_attemptId i = t_attemptId r ∧
         oi_fingerprint i = fingerprint_of q.

Definition delivers (st : TaskStore) (o : owner) (r : TaskRecord) : Prop :=
  known st r ∧
  match o with
  | OfTask id => t_taskId r = id
  | OfRun q => answers st q r ∧ data (rq_input q)
  | OfNothing => True
  end.

Lemma answers_later st st' q r : store_later st st' → answers st q r → answers st' q r.
Proof.
  intros (_ & _ & Ho & _) H op Hop. destruct (H op Hop) as (i & Hi & ?). exists i. split; [|done].
  by eapply lookup_weaken.
Qed.

Lemma delivers_later st st' o r : store_later st st' → delivers st o r → delivers st' o r.
Proof.
  intros Hst [Hk Ho]. split; [by eapply known_later|].
  destruct o; [destruct Ho; split; [by eapply answers_later|done]|done|done].
Qed.

(** ** Invariants *)
Record store_ok (st : TaskStore) : Prop := {
  so_task : ∀ id r v, ts_tasks st !! id = Some (r, v) →
    t_taskId r = id ∧ v ≤ ts_revision st ∧ parse r = Ok r;
  so_operation : ∀ op i, ts_operations st !! op = Some i →
    ∃ r v, ts_tasks st !! oi_taskId i = Some (r, v) ∧ t_attemptId r = oi_attemptId i ∧
           fingerprint_of (t_request r) = oi_fingerprint i;
  so_admitted : ∀ id r v op, ts_tasks st !! id = Some (r, v) → rq_operationId (t_request r) = Some op →
    ∃ i, ts_operations st !! op = Some i ∧ oi_taskId i = id;
  so_idempotency : ∀ k fingerprint r, ts_idempotency st !! k = Some (fingerprint, r) →
    known st r ∧ fingerprint_of (t_request r) = fingerprint;
}.

Definition promise_of (s : TaskService) (id : jstring) (p : nat) : Prop := sv_owners s !! p = Some (OfTask id).

Record service_ok (st : TaskStore) (s : TaskService) : Prop := {
  sk_next : ∀ p o, sv_owners s !! p = Some o → (p < sv_next s)%nat;
  sk_records : ∀ id e, sv_records s !! id = Some e → known st e.1;
  sk_ephemeral : ∀ id r, sv_ephemeralTerminal s !! id = Some r → t_taskId r = id ∧ known st r;
  sk_promises : ∀ p r, sv_promises s !! p = Some (Ok (Some r)) → ∃ o, sv_owners s !! p = Some o ∧ delivers st o r;
  sk_dispatches : ∀ id p, sv_dispatches s !! id = Some p → promise_of s id p;
  sk_cancellations : ∀ id p, sv_cancellations s !! id = Some p → promise_of s id p;
  sk_waiters : ∀ id ps, sv_waiters s !! id = Some ps → Forall (promise_of s id) ps;
}.

Lemma service_ok_later st st' s : store_later st st' → service_ok st s → service_ok st' s.
Proof.
  intros Hst [Hn Hr He Hp Hd Hc Hw]. split; try done.
  - intros id e H. by eapply known_later, Hr.
  - intros id r H. destruct (He id r H). split; [done|]. by eapply known_later.
  - intros p r H. destruct (Hp p r H) as (o & Ho & Hr'). exists o. split; [done|]. by eapply delivers_later.
Qed.

Lemma new_service_ok st : service_ok st new_service.
Proof. split; cbn; intros *; rewrite lookup_empty; done. Qed.

(** What is submitted is an admitted task, to the executor of its target. *)
Definition submission_ok (st : TaskStore) (e : nat * Executor * ExecutionRequest) : Prop :=
  ∃ r target binding, known st r ∧ t_target r = Some target ∧ t_binding r = Some binding ∧
    e.2 = execution_request r target binding ∧
    ex_id e.1.2 = tx_id (tg_executor target) ∧ ex_type e.1.2 = tx_type (tg_executor target).

Definition world_ok (w : world) : Prop :=
  store_ok (wd_store w) ∧ (∀ i, service_ok (wd_store w) (service w i)) ∧
  Forall (submission_ok (wd_store w)) (wd_submissions w).

Definition world_later (w w' : world) : Prop :=
  store_later (wd_store w) (wd_store w') ∧ ∀ i, sv_owners (service w i) ⊆ sv_owners (service w' i).

#[export] Instance world_later_preorder : PreOrder world_later.
Proof.
  split.
  - intros w. by split.
  - intros a b c [Sab Oab] [Sbc Obc]. split; [by transitivity (wd_store b)|].
    intros i. by transitivity (sv_owners (service b i)).
Qed.

(** What a job needs when it starts. *)
Definition job_ok (i : nat) (w : world) (j : job) : Prop :=
  let owned p o := sv_owners (service w i) !! p = Some o in
  match j with
  | JobRun p request => owned p (OfRun request)
  | JobStatus p id | JobWait p id | JobCancel p id | JobCancelling p id => owned p (OfTask id)
  | JobSetAuthority p _ | JobRecoverRemoteWorker p _ => True
  | JobRecoverPending p record _ => known (wd_store w) record
  | JobDispatch p record _ => owned p (OfTask (t_taskId record)) ∧ known (wd_store w) record
  | JobCompletion record _ _ _ | JobRemoteCompletion _ record _ _ _ => known (wd_store w) record
  | JobClose => True
  end.

(** ** Records seen before *)
Definition seen (w : world) (id : jstring) (r : TaskRecord) (v : Z) : Prop :=
  ∃ st, store_ok st ∧ store_later st (wd_store w) ∧ ts_tasks st !! id = Some (r, v).

Lemma seen_later w w' id r v : world_later w w' → seen w id r v → seen w' id r v.
Proof. intros [Hst _] (st & ? & ? & ?). exists st. split_and!; try done. by transitivity (wd_store w). Qed.

Lemma seen_known w id r v : seen w id r v → t_taskId r = id ∧ parse r = Ok r ∧ known (wd_store w) r.
Proof.
  intros (st & Hok & Hst & H). destruct (so_task _ Hok _ _ _ H) as (<- & _ & Hp). split_and!; try done.
  eapply known_later; [done|]. by exists r, v.
Qed.

Lemma seen_current w id r v r' : seen w id r v → ts_tasks (wd_store w) !! id = Some (r', v) → r' = r.
Proof.
  intros (st & Hok & (_ & Ht & _) & H) H'. destruct (Ht _ _ _ H) as (q & u & Hq & C). rewrite Hq in H'.
  injection H' as -> ->. destruct C as [[-> _]|[? _]]; [done|lia].
Qed.

(** ** Transactions *)
Lemma known_weaken st st' r : ts_tasks st = ts_tasks st' → known st r → known st' r.
Proof. unfold known. by intros ->. Qed.

(** The fence and the idempotency key of a commit. *)
Lemma fenced_commit_ok st fencing key record fences :
  store_ok st → known st record →
  (∀ k fingerprint, key = Some (k, fingerprint) → fingerprint_of (t_request record) = fingerprint) →
  ∀ revision, ts_revision st ≤ revision →
  store_ok (remember key record (with_revision st (<[fencing := fences]> (ts_fences st)) revision)).
Proof.
  intros [Ht Ho Ha Hi] Hk Hfp revision Hrev.
  assert (ts_tasks (remember key record (with_revision st (<[fencing := fences]> (ts_fences st)) revision)) = ts_tasks st ∧
          ts_operations (remember key record (with_revision st (<[fencing := fences]> (ts_fences st)) revision)) = ts_operations st ∧
          ts_revision (remember key record (with_revision st (<[fencing := fences]> (ts_fences st)) revision)) = revision)
    as (Et & Eo & Er) by (by destruct key as [[]|]).
  split.
  - intros id r v H. rewrite Et in H. destruct (Ht id r v H) as (? & ? & ?). split_and!; try done. rewrite Er. lia.
  - rewrite Et, Eo. exact Ho.
  - rewrite Et, Eo. exact Ha.
  - intros k fingerprint r H. assert (known st r ∧ fingerprint_of (t_request r) = fingerprint) as [? ?];
      [|split; [by eapply known_weaken|done]].
    destruct key as [[k' fp]|]; cbn in H; [|by eapply Hi].
    destruct (decide (k' = k)) as [->|Hne]; [|rewrite lookup_insert_ne in H by done; by eapply Hi].
    rewrite lookup_insert_eq in H. injection H as <- <-. by split; [|eapply Hfp].
Qed.

Lemma commit_later st fencing key record epoch revision :
  ts_revision st ≤ revision →
  (∀ e, ts_fences st !! fencing = Some e → e ≤ epoch) →
  store_later st (remember key record (with_revision st (<[fencing := epoch]> (ts_fences st)) revision)).
Proof.
  intros Hrev Hf. split_and!.
  - by destruct key as [[]|].
  - intros id r v H. exists r, v. by destruct key as [[]|]; split; try done; left.
  - by destruct key as [[]|].
  - intros resource e H.
    assert (<[fencing := epoch]> (ts_fences st) !! resource = Some (if decide (fencing = resource) then epoch else e)) as E.
    { destruct (decide _) as [->|]; [by rewrite lookup_insert_eq|by rewrite lookup_insert_ne]. }
    exists (if decide (fencing = resource) then epoch else e). split; [by destruct key as [[]|]|].
    destruct (decide _) as [->|]; [by apply Hf|done].
Qed.

Lemma puts_fences revision puts st : ts_fences (foldl (apply_put revision) st puts) = ts_fences st.
Proof. revert st. induction puts as [|[] puts IH]; intros st; [done|..]; cbn; by rewrite IH. Qed.
Lemma puts_idempotency revision puts st : ts_idempotency (foldl (apply_put revision) st puts) = ts_idempotency st.
Proof. revert st. induction puts as [|[] puts IH]; intros st; [done|..]; cbn; by rewrite IH. Qed.

(** The store a transaction leaves, before its fence and key are recorded. *)
Definition written (puts : list task_put) (revision : Z) (st : TaskStore) : TaskStore :=
  with_revision (foldl (apply_put revision) st puts) (ts_fences st) revision.

Definition sound_write (st : TaskStore) (record : TaskRecord) (puts : list task_put) : Prop :=
  ∀ revision, ts_revision st ≤ revision → (puts ≠ [] → ts_revision st < revision) →
    store_ok (written puts revision st) ∧ store_later st (written puts revision st) ∧
    known (written puts revision st) record.

Lemma task_transact_ok fencing key work st :
  store_ok st →
  (∀ record puts, work st = Ok (record, puts) → forallb (put_expected st) puts = true →
     sound_write st record puts ∧
     ∀ k fingerprint, key = Some (k, fingerprint) → fingerprint_of (t_request record) = fingerprint) →
  store_ok (transact fencing key work st).2 ∧ store_later st (transact fencing key work st).2 ∧
  ∀ r, (transact fencing key work st).1 = Ok r →
    known (transact fencing key work st).2 r ∧
    ∀ k fingerprint, key = Some (k, fingerprint) → fingerprint_of (t_request r) = fingerprint.
Proof.
  intros Hok Hwork. unfold transact.
  destruct (key ≫= λ k, ts_idempotency st !! k.1) as [[committed record]|] eqn:Ek.
  { case_bool_decide as Ec; cbn; split_and!; try done. intros r [= <-].
    apply bind_Some in Ek as ([k fp] & -> & Hi). cbn in Ec, Hi. injection Ec as ->.
    destruct (so_idempotency _ Hok _ _ _ Hi). split; [done|]. by intros ? ? [= _ <-]. }
  destruct (work st) as [[record puts]|e] eqn:Ew; [|cbn; split_and!; try done].
  destruct (forallb (put_expected st) puts) eqn:Ep; [|cbn; split_and!; try done]. cbn [negb].
  destruct (Hwork _ _ eq_refl Ep) as [Hsound Hfp].
  destruct (match ts_fences st !! au_resource fencing with Some c => decimal_value (au_epoch fencing) <? c | None => false end)
    eqn:Ef; [cbn; by split_and!|].
  match goal with |- context [apply_put ?r] => set (revision := r) end. cbn [fst snd].
  rewrite puts_fences.
  destruct (Hsound revision) as (Hok' & Hlater & Hknown).
  { subst revision. match goal with |- context [if ?b then _ else _] => destruct b end; lia. }
  { intros Hne. subst revision. destruct puts; [done|]. rewrite orb_true_r. lia. }
  assert (store_later (written puts revision st)
    (remember key record (with_revision (written puts revision st)
      (<[au_resource fencing := decimal_value (au_epoch fencing)]> (ts_fences st)) revision))) as Hl.
  { apply (commit_later (written puts revision st)); [done|]. cbn. intros e He. rewrite He in Ef. lia. }
  split_and!.
  - exact (fenced_commit_ok (written puts revision st) _ _ _ _ Hok' Hknown Hfp revision (Z.le_refl _)).
  - etransitivity; [exact Hlater|exact Hl].
  - intros r [= <-]. split; [|done]. eapply known_later; [exact Hl|done].
Qed.

(** A record replaced by one that follows it. *)
Lemma update_sound st record next v :
  store_ok st → ts_tasks st !! t_taskId next = Some (record, v) → changes record next → parse next = Ok next →
  sound_write st next [PutTask next (Some v)].
Proof.
  intros [Ht Ho Ha Hi] H (Hnt & Hs & Hrank) Hp revision _ Hrev. specialize (Hrev ltac:(done)).
  destruct (Ht _ _ _ H) as (Hid & Hv & _). pose proof Hs as (_ & Eatt & Ereq & _).
  assert (store_later st (written [PutTask next (Some v)] revision st)) as Hl.
  { split_and!; [cbn; lia| |done|cbn; intros; by eauto with lia]. cbn. intros id r u Hr.
    destruct (decide (t_taskId next = id)) as [<-|Hne].
    - rewrite lookup_insert_eq. rewrite H in Hr. injection Hr as <- <-. eexists _, _. split; [done|].
      right. split; [lia|done].
    - rewrite lookup_insert_ne by done. eexists _, _. split; [done|by left]. }
  split_and!; [|done|].
  2: { exists next, revision. cbn. by rewrite lookup_insert_eq. }
  split; cbn.
  - intros id r u Hr. destruct (decide (t_taskId next = id)) as [<-|Hne].
    + rewrite lookup_insert_eq in Hr. injection Hr as <- <-. split_and!; [done|lia|done].
    + rewrite lookup_insert_ne in Hr by done. destruct (Ht _ _ _ Hr) as (? & ? & ?). split_and!; [done|lia|done].
  - intros op i Hop. destruct (Ho _ _ Hop) as (r & u & Hr & Hatt & Hfp).
    destruct (decide (t_taskId next = oi_taskId i)) as [Eid|Hne].
    + rewrite Eid, lookup_insert_eq. rewrite <- Eid, H in Hr. injection Hr as <- <-. eexists _, _. split; [done|].
      split; congruence.
    + rewrite lookup_insert_ne by done. by eauto.
  - intros id r u op Hr Hop. destruct (decide (t_taskId next = id)) as [<-|Hne].
    + rewrite lookup_insert_eq in Hr. injection Hr as <- <-. rewrite <- Ereq in Hop. by eapply Ha.
    + rewrite lookup_insert_ne in Hr by done. by eapply Ha.
  - intros k fp r Hk. destruct (Hi _ _ _ Hk) as [Hkn ?]. split; [|done]. by eapply (known_later st).
Qed.

(** An admission: a new task, with its operation where it has one. *)
Definition admission (candidate : TaskRecord) : list task_put :=
  PutTask candidate None ::
  match rq_operationId (t_request candidate) with
  | Some op => [PutOperation op {| oi_taskId := t_taskId candidate; oi_attemptId := t_attemptId candidate;
                                   oi_fingerprint := fingerprint_of (t_request candidate) |}]
  | None => []
  end.

Lemma admission_sound st candidate :
  store_ok st → ts_tasks st !! t_taskId candidate = None →
  (∀ op, rq_operationId (t_request candidate) = Some op → ts_operations st !! op = None) →
  parse candidate = Ok candidate →
  sound_write st candidate (admission candidate).
Proof.
  intros [Ht Ho Ha Hi] Hnew Hop Hp revision _ Hrev. specialize (Hrev ltac:(done)).
  assert (ts_tasks (written (admission candidate) revision st) = <[t_taskId candidate := (candidate, revision)]> (ts_tasks st)) as Et
    by (unfold written, admission; by destruct (rq_operationId _)).
  assert (ts_idempotency (written (admission candidate) revision st) = ts_idempotency st) as Ei
    by (cbn -[admission]; apply puts_idempotency).
  set (i := {| oi_taskId := t_taskId candidate; oi_attemptId := t_attemptId candidate;
               oi_fingerprint := fingerprint_of (t_request candidate) |}).
  assert (∀ op j, ts_operations (written (admission candidate) revision st) !! op = Some j ↔
    (rq_operationId (t_request candidate) = Some op ∧ j = i) ∨
    (rq_operationId (t_request candidate) ≠ Some op ∧ ts_operations st !! op = Some j)) as Eo.
  { intros op j. unfold written, admission. destruct (rq_operationId (t_request candidate)) as [o|]; cbn; [|naive_solver].
    destruct (decide (o = op)) as [->|Hne]; [rewrite lookup_insert_eq|rewrite lookup_insert_ne by done]; naive_solver. }
  assert (store_later st (written (admission candidate) revision st)) as Hl.
  { split_and!; [cbn; lia| | |cbn; intros; by eauto with lia].
    - rewrite Et. intros id r v Hr. exists r, v. split; [|by left].
      rewrite lookup_insert_ne; [done|]. intros <-. congruence.
    - apply map_subseteq_spec. intros op j Hj. apply Eo. right. split; [|done]. intros E. apply Hop in E. congruence. }
  split_and!; [|done|].
  2: { exists candidate, revision. rewrite Et. by rewrite lookup_insert_eq. }
  split.
  - rewrite Et. intros id r v Hr. cbn [written with_revision ts_revision].
    destruct (decide (t_taskId candidate = id)) as [<-|Hne].
    + rewrite lookup_insert_eq in Hr. injection Hr as <- <-. split_and!; [done|cbn; lia|done].
    + rewrite lookup_insert_ne in Hr by done. destruct (Ht _ _ _ Hr) as (? & ? & ?). split_and!; [done|cbn; lia|done].
  - rewrite Et. intros op j [[E ->]|[_ Hj]]%Eo.
    + exists candidate, revision. cbn. by rewrite lookup_insert_eq.
    + destruct (Ho _ _ Hj) as (r & v & Hr & ?). exists r, v. split; [|done]. rewrite lookup_insert_ne; [done|].
      intros E. congruence.
  - rewrite Et. intros id r v op Hr Hro. destruct (decide (t_taskId candidate = id)) as [<-|Hne].
    + rewrite lookup_insert_eq in Hr. injection Hr as <- <-. exists i. split; [|done]. apply Eo. by left.
    + rewrite lookup_insert_ne in Hr by done. destruct (Ha _ _ _ _ Hr Hro) as (j & Hj & <-). exists j.
      split; [|done]. apply Eo. right. split; [|done]. intros E. apply Hop in E. congruence.
  - rewrite Ei. intros k fp r Hk. destruct (Hi _ _ _ Hk) as [Hkn ?]. split; [|done]. by eapply (known_later st).
Qed.

(** A transaction that finds what it would write. *)
Lemma found_sound st record : store_ok st → known st record → sound_write st record [].
Proof.
  intros [Ht Ho Ha Hi] Hk revision Hrev _. split_and!.
  - split; try done. intros id r v H. destruct (Ht _ _ _ H) as (? & ? & ?). split_and!; [done|cbn; lia|done].
  - split_and!; [done| |done|cbn; intros; by eauto with lia]. intros id r v H. exists r, v. split; [done|by left].
  - done.
Qed.
End laws.
