(* ===== verification/TaskPrograms.v ===== *)
(** * The programs of the task service

    Every program of TaskService.v keeps the invariants of TaskLaws.v and
    returns what it promises, whatever the other programs do between its
    effects and however the environment answers. *)

From S2P Require Import Prelude JsString Collections JsValue Identity JsonText Canonical Time Placement Execution Task Async TaskService TaskLaws.

Open Scope Z_scope.

#[local] Arguments canonical : simpl never.
#[local] Arguments request_json : simpl never.
#[local] Arguments parseTaskRecord : simpl never.

Lemma service_set w i s : service (set_service w i s) i = s.
Proof. unfold service. cbn. by rewrite lookup_insert_eq. Qed.
Lemma service_set_ne w i j s : i ≠ j → service (set_service w i s) j = service w j.
Proof. intros. unfold service. cbn. by rewrite lookup_insert_ne. Qed.

(** The two branches of a program. *)
Ltac branch :=
  match goal with |- context [if ?b then _ else _] => destruct b eqn:? end.

Section programs.
Context (number_text : jsnum → jstring) (sha256 : jstring → jstring) (localeCompare : jstring → jstring → Z).
Context (ajv : schema_name → json → bool).
Abbreviation parse := (parseTaskRecord number_text sha256 localeCompare ajv).
Abbreviation world_ok := (world_ok number_text sha256 localeCompare ajv).
Abbreviation service_ok := (service_ok number_text).
Abbreviation seen := (seen number_text sha256 localeCompare ajv).
Abbreviation fingerprint_of request := (canonical number_text (request_json request)).

(** If [p] returns, then with [P]. *)
Definition returns (i : nat) {B} (p : task B) (P : B → world → Prop) (w : world) : Prop :=
  wp handle world_ok world_later job_ok i p (λ r w', match r with Ok b => P b w' | Err _ => True end) w.

(** ** Rules *)
Section rules.
Context (i : nat) {B : Type}.
Implicit Types (P : B → world → Prop).

Lemma returns_later (p : task B) P w w' : world_later w w' → returns i p P w → returns i p P w'.
Proof. apply wp_later. apply _. Qed.

Lemma returns_mono (p : task B) P P' w :
  (∀ b w', world_later w w' → world_ok w' → P b w' → P' b w') → returns i p P w → returns i p P' w.
Proof. intros H. apply wp_mono; [apply _|]. intros [b|] w' Hw Hok; [by apply H|done]. Qed.

Lemma returns_ret (b : B) P w :
  (∀ w', world_later w w' → world_ok w' → P b w') → returns i (Ret b) P w.
Proof. done. Qed.

Lemma returns_throw e P w : returns i (Throw e : task B) P w.
Proof. done. Qed.

Lemma returns_of_result (r : result task_error B) P w :
  (∀ b w', r = Ok b → world_later w w' → world_ok w' → P b w') → returns i (of_result r) P w.
Proof. destruct r; [intros H; apply returns_ret; auto|done]. Qed.

Lemma returns_bind {D} (p : task D) (f : D → task B) P w :
  world_ok w → returns i p (λ d w', returns i (f d) P w') w → returns i (p ≫= f) P w.
Proof.
  intros Hok H. apply wp_bind; [apply _|done|]. eapply wp_mono; [apply _| |exact H]. by intros [d|e] w' _ _ Hd.
Qed.

Lemma returns_catch (p : task B) h P w :
  world_ok w → returns i p P w →
  (∀ e w', world_later w w' → world_ok w' → returns i (h e) P w') → returns i (catch p h) P w.
Proof.
  intros Hok Hp Hh. apply wp_catch; [apply _|done|]. eapply wp_mono; [apply _| |exact Hp].
  intros [b|e] w' Hw Hok' Hb; [done|by apply Hh].
Qed.

Lemma returns_settled (p : task B) P w :
  returns i p P w → returns i (settled p) (λ r w', match r with Ok b => P b w' | Err _ => True end) w.
Proof. intros H. apply wp_settled. exact H. Qed.

(** An effect that leaves the world as it is. *)
Definition quiet {D} (e : eff D) : Prop := ∀ a w d w' js, handle i a w D e = Some (d, w', js) → w' = w ∧ js = [].

Lemma returns_effect (e : eff B) P w :
  quiet e →
  (∀ a b w1 w2, world_later w w1 → world_ok w1 → handle i a w1 B e = Some (b, w1, []) → world_later w1 w2 →
     world_ok w2 → P b w2) →
  returns i (effect e) P w.
Proof.
  intros Hq H. apply wp_do. intros a w1 b w2 js Hw Hok Hh. pose proof Hh as [-> ->]%Hq.
  split_and!; [done|done|constructor|]. intros w3 Hw3 Hok3. by eapply H.
Qed.

Lemma returns_attempt (e : eff (result task_error B)) P w :
  quiet e →
  (∀ a b w1 w2, world_later w w1 → world_ok w1 → handle i a w1 _ e = Some (Ok b, w1, []) → world_later w1 w2 →
     world_ok w2 → P b w2) →
  returns i (attempt e) P w.
Proof.
  intros Hq H. apply wp_do. intros a w1 r w2 js Hw Hok Hh. pose proof Hh as [-> ->]%Hq.
  split_and!; [done|done|constructor|]. destruct r as [b|x]; [|done]. intros w3 Hw3 Hok3. by eapply H.
Qed.

(** A synchronous block. *)
Lemma set_service_ok w s :
  world_ok w → service_ok (wd_store w) s → sv_owners (service w i) ⊆ sv_owners s →
  world_ok (set_service w i s) ∧ world_later w (set_service w i s).
Proof.
  intros (Hst & Hsv & Hsub) Hs Ho. split.
  - split_and!; [done| |done]. intros j. destruct (decide (i = j)) as [<-|Hne].
    + by rewrite service_set.
    + rewrite service_set_ne by done. apply Hsv.
  - split; [done|]. intros j. destruct (decide (i = j)) as [<-|Hne].
    + by rewrite service_set.
    + by rewrite service_set_ne.
Qed.

Lemma returns_block (f : Z → TaskService → B * TaskService * list job) P w :
  (∀ w1, world_later w w1 → world_ok w1 →
     let '(b, s, js) := f (wd_now w1) (service w1 i) in
     service_ok (wd_store w1) s ∧ sv_owners (service w1 i) ⊆ sv_owners s ∧
     ∀ w2, w2 = set_service w1 i s → Forall (job_ok i w2) js ∧
       ∀ w3, world_later w2 w3 → world_ok w3 → P b w3) →
  returns i (effect (Sync f)) P w.
Proof.
  intros H. apply wp_do. intros a w1 b w2 js Hw Hok Hh. cbn in Hh. specialize (H w1 Hw Hok).
  destruct (f (wd_now w1) (service w1 i)) as [[b' s] js']. injection Hh as <- <- <-.
  destruct H as (Hs & Ho & H). destruct (H _ eq_refl) as [Hjs HP].
  destruct (set_service_ok w1 s Hok Hs Ho) as [Hok2 Hl2]. by split_and!.
Qed.

Lemma world_service w : world_ok w → service_ok (wd_store w) (service w i).
Proof. intros (_ & H & _). apply H. Qed.

Lemma returns_sync (f : Z → TaskService → result task_error B) P w :
  (∀ b w1 w3, world_later w w1 → world_ok w1 → f (wd_now w1) (service w1 i) = Ok b → world_later w1 w3 →
     world_ok w3 → P b w3) →
  returns i (sync f) P w.
Proof.
  intros H. apply wp_do. intros a w1 b w2 js Hw Hok Hh. cbn in Hh. injection Hh as <- <- <-.
  destruct (set_service_ok w1 (service w1 i) Hok) as [Hok2 Hl2]; [by apply world_service|done|].
  split_and!; [done|done|constructor|]. destruct (f (wd_now w1) (service w1 i)) as [b|e] eqn:Ef; [|done].
  intros w3 Hw3 Hok3. eapply H; try done. by transitivity (set_service w1 i (service w1 i)).
Qed.

Lemma returns_asks (f : TaskService → B) P w :
  (∀ w1 w3, world_later w w1 → world_ok w1 → world_later w1 w3 → world_ok w3 → P (f (service w1 i)) w3) →
  returns i (asks f) P w.
Proof.
  intros H. apply returns_block. intros w1 Hw Hok. split_and!; [by apply world_service|done|].
  intros w2 ->. split; [constructor|]. intros w3 Hw3 Hok3. apply H; try done.
  etransitivity; [|exact Hw3]. apply set_service_ok; [done|by apply world_service|done].
Qed.
End rules.

Lemma returns_modify i (f : TaskService → TaskService) (P : unit → world → Prop) w :
  (∀ w1, world_later w w1 → world_ok w1 →
     service_ok (wd_store w1) (f (service w1 i)) ∧ sv_owners (service w1 i) ⊆ sv_owners (f (service w1 i))) →
  (∀ w3, world_later w w3 → world_ok w3 → P tt w3) →
  returns i (modify f) P w.
Proof.
  intros Hf HP. apply returns_block. intros w1 Hw Hok. destruct (Hf w1 Hw Hok) as [Hs Ho].
  split_and!; [done|done|]. intros w2 ->. split; [constructor|]. intros w3 Hw3 Hok3. apply HP; [|done].
  transitivity w1; [done|]. etransitivity; [|exact Hw3]. by apply set_service_ok.
Qed.

Lemma returns_finally i {B} (p : task B) q P w :
  world_ok w → returns i p P w → (∀ b w1 w2, world_later w1 w2 → P b w1 → P b w2) →
  (∀ w', world_later w w' → world_ok w' → returns i q (λ _ _, True) w') →
  returns i (finally p q) P w.
Proof.
  intros Hok Hp HP Hq. apply returns_bind; [done|]. eapply returns_mono; [|by apply returns_settled].
  intros r w' Hw Hok' Hr. apply returns_bind; [done|]. eapply returns_mono; [|by apply Hq].
  intros _ w2 Hw2 Hok2 _. apply returns_of_result. intros b w3 -> Hw3 _. eapply HP; [|exact Hr]. by transitivity w2.
Qed.

Lemma returns_throw_now i {B} (e : Z → task_error) (P : B → world → Prop) w : returns i (throw_now e) P w.
Proof. by apply returns_sync. Qed.

Lemma returns_true i {B} (p : task B) P w : returns i p P w → returns i p (λ _ _, True) w.
Proof. by apply returns_mono. Qed.

(** ** What services keep *)
Lemma set_records_ok st m s :
  service_ok st s → (∀ id e, m !! id = Some e → known st e.1) → service_ok st (set_records m s).
Proof. intros [] H. by split. Qed.
Lemma set_executors_ok st m s : service_ok st s → service_ok st (set_executors m s).
Proof. intros []. by split. Qed.
Lemma set_state_ok st a c s : service_ok st s → service_ok st (set_state a c s).
Proof. intros []. by split. Qed.
Lemma set_remoteCompletions_ok st m s : service_ok st s → service_ok st (set_remoteCompletions m s).
Proof. intros []. by split. Qed.
Lemma set_ephemeral_ok st m s :
  service_ok st s → (∀ id r, m !! id = Some r → t_taskId r = id ∧ known st r) → service_ok st (set_ephemeral m s).
Proof. intros [] H. by split. Qed.
Lemma set_dispatches_ok st m s :
  service_ok st s → (∀ id p, m !! id = Some p → promise_of s id p) → service_ok st (set_dispatches m s).
Proof. intros [] H. by split. Qed.
Lemma set_cancellations_ok st m s :
  service_ok st s → (∀ id p, m !! id = Some p → promise_of s id p) → service_ok st (set_cancellations m s).
Proof. intros [] H. by split. Qed.
Lemma set_waiters_ok st m s :
  service_ok st s → (∀ id ps, m !! id = Some ps → Forall (promise_of s id) ps) → service_ok st (set_waiters m s).
Proof. intros [] H. by split. Qed.

Lemma owners_fresh st o s : service_ok st s → sv_owners s ⊆ sv_owners (fresh o s).2.
Proof.
  intros Hs. cbn. apply insert_subseteq. destruct (sv_owners s !! sv_next s) eqn:E; [|done].
  pose proof (sk_next _ _ _ Hs _ _ E). lia.
Qed.

Lemma fresh_ok st o s : service_ok st s → service_ok st (fresh o s).2.
Proof.
  intros Hs. pose proof (owners_fresh st o s Hs) as Ho. destruct Hs as [Hn Hr He Hp Hd Hc Hw].
  split; try done.
  - intros p q H. cbn in *. destruct (decide (sv_next s = p)) as [<-|Hne]; [lia|].
    rewrite lookup_insert_ne in H by done. apply Hn in H. lia.
  - intros p r H. destruct (Hp p r H) as (q & Hq & ?). exists q. split; [|done]. by eapply lookup_weaken.
  - intros id p H. eapply lookup_weaken; [by apply Hd|done].
  - intros id p H. eapply lookup_weaken; [by apply Hc|done].
  - intros id ps H. eapply Forall_impl; [by apply Hw|]. intros p Hpp. by eapply lookup_weaken.
Qed.

Lemma fresh_owner o s : sv_owners (fresh o s).2 !! (fresh o s).1 = Some o.
Proof. cbn. by rewrite lookup_insert_eq. Qed.

Lemma settle_promise_ok st p r s :
  service_ok st s →
  (∀ record, r = Ok (Some record) → ∃ o, sv_owners s !! p = Some o ∧ delivers number_text st o record) →
  service_ok st (settle p r s) ∧ sv_owners (settle p r s) = sv_owners s.
Proof.
  intros Hs Hr. unfold settle. destruct (sv_promises s !! p) eqn:E; [by split|]. split; [|done].
  destruct Hs as [Hn Hre He Hp Hd Hc Hw]. split; try done. intros q rec H. cbn in H.
  destruct (decide (p = q)) as [<-|Hne].
  - rewrite lookup_insert_eq in H. injection H as ->. by apply Hr.
  - rewrite lookup_insert_ne in H by done. by apply Hp.
Qed.

Lemma settle_waiters st ps id r s :
  service_ok st s → Forall (promise_of s id) ps →
  (∀ record, r = Ok (Some record) → t_taskId record = id ∧ known st record) →
  service_ok st (settle_all ps r s) ∧ sv_owners (settle_all ps r s) = sv_owners s.
Proof.
  revert s. induction ps as [|p ps IH]; intros s Hs Hps Hr; [by split|]. inversion_clear Hps as [|? ? Hp Hps'].
  cbn. destruct (settle_promise_ok st p r s Hs) as [Hs' Eo].
  { intros record E. destruct (Hr _ E). by exists (OfTask id). }
  destruct (IH (settle p r s) Hs') as [Hs2 Eo2]; [|done|split; [exact Hs2|exact (eq_trans Eo2 Eo)]].
  eapply Forall_impl; [exact Hps'|]. intros q. unfold promise_of. by rewrite Eo.
Qed.

Lemma notify_service_ok st record s :
  service_ok st s → known st record →
  service_ok st (notify_service record s) ∧ sv_owners (notify_service record s) = sv_owners s.
Proof.
  intros Hs Hk. unfold notify_service.
  change (foldl _ s ?l) with (settle_all l (Ok (Some record)) s).
  destruct (settle_waiters st (default [] (sv_waiters s !! t_taskId record)) (t_taskId record) (Ok (Some record)) s)
    as [Hs' Eo]; [done| |by intros ? [= <-]|].
  { destruct (sv_waiters s !! t_taskId record) as [ps|] eqn:E; [|constructor]. by eapply sk_waiters. }
  cbn zeta. split; [|done]. apply set_waiters_ok; [done|]. intros id ps [_ H]%lookup_delete_Some.
  by eapply sk_waiters.
Qed.

(** ** Reading *)
Definition task_of (id : jstring) (r : TaskRecord) (w : world) : Prop := t_taskId r = id ∧ known (wd_store w) r.

Lemma task_of_later id r w w' : world_later w w' → task_of id r w → task_of id r w'.
Proof. intros [Hst _] [? ?]. split; [done|]. by eapply known_later. Qed.

Lemma seen_task w id r v : seen w id r v → task_of id r w.
Proof. intros (? & _ & ?)%seen_known. by split. Qed.

Lemma returns_read_task i id w :
  returns i (attempt (ReadTask id)) (λ o w', ∀ r v, o = Some (r, v) → seen w' id r v) w.
Proof.
  apply returns_attempt.
  - intros a w1 d w' js H. unfold handle, reads in H. destruct a; by simplify_eq.
  - intros a b w1 w2 Hw (Hok & _) H Hw2 _ r v ->. unfold handle, reads in H. destruct a; simplify_eq.
    exists (wd_store w1). split_and!; [done|apply Hw2|done].
Qed.

Lemma load_ok i id w :
  world_ok w →
  returns i (load number_text sha256 localeCompare ajv id) (λ o w', ∀ r v, o = Some (r, v) → seen w' id r v) w.
Proof.
  intros Hok. apply returns_bind; [done|]. eapply returns_mono; [|apply returns_read_task].
  intros o w1 Hw1 Hok1 Ho. destruct o as [[value v]|]; [|by apply returns_ret].
  specialize (Ho value v eq_refl). destruct (seen_known _ _ _ _ _ _ _ _ Ho) as (Hid & Hp & Hk).
  rewrite Hp. cbn [lift of_result]. apply returns_bind; [done|]. apply returns_ret. intros w2 Hw2 Hok2.
  apply returns_bind; [done|]. apply returns_modify.
  - intros w3 Hw3 Hok3. split; [|done]. apply set_records_ok; [by apply world_service|].
    intros id' e He. destruct (decide (id = id')) as [<-|Hne].
    + rewrite lookup_insert_eq in He. injection He as <-. cbn. eapply known_later; [|exact Hk].
      transitivity (wd_store w2); [apply Hw2|apply Hw3].
    + rewrite lookup_insert_ne in He by done. by eapply sk_records; [apply world_service|].
  - intros w3 Hw3 Hok3. apply returns_ret. intros w4 Hw4 Hok4 r u [= <- <-].
    eapply seen_later; [|exact Ho]. transitivity w2; [done|]. by transitivity w3.
Qed.

Lemma status_ok i id w :
  world_ok w →
  returns i (status number_text sha256 localeCompare ajv id) (λ o w', ∀ r, o = Some r → task_of id r w') w.
Proof.
  intros Hok. apply returns_bind; [done|]. apply returns_sync. intros _ _ w1 _ _ _ _ Hok1.
  apply returns_bind; [done|]. apply returns_of_result. intros _ w2 _ _ Hok2.
  apply returns_bind; [done|]. eapply returns_mono; [|by apply load_ok].
  intros o w3 _ Hok3 Ho.
  assert (∀ (d : TaskRecord) w4, task_of id d w4 → ∀ s, service_ok (wd_store w4) s →
    task_of id (default d (sv_ephemeralTerminal s !! id)) w4) as Hdefault.
  { intros d w4 Hd s Hs. destruct (sv_ephemeralTerminal s !! id) eqn:E; [|done]. by eapply sk_ephemeral in E as []. }
  destruct o as [[r v]|].
  - specialize (Ho r v eq_refl). apply seen_task in Ho. case_bool_decide.
    + apply returns_bind; [done|]. apply returns_modify.
      * intros w4 _ Hok4. split; [|done]. apply set_ephemeral_ok; [by apply world_service|].
        intros id' q [_ H']%lookup_delete_Some. by eapply sk_ephemeral; [apply world_service|].
      * intros w4 Hw4 _. apply returns_ret. intros w5 Hw5 _ q [= <-]. eapply task_of_later; [|exact Ho].
        by transitivity w4.
    + apply returns_asks. intros w4 w5 Hw4 Hok4 Hw5 _ q [= <-]. eapply task_of_later; [exact Hw5|].
      apply Hdefault; [by eapply task_of_later|by apply world_service].
  - apply returns_asks. intros w4 w5 Hw4 Hok4 Hw5 _ q Hq. eapply task_of_later; [exact Hw5|].
    by eapply sk_ephemeral in Hq as []; [split|apply world_service].
Qed.

Lemma notify_ok i record w :
  known (wd_store w) record → returns i (notify record) (λ _ _, True) w.
Proof.
  intros Hk. apply returns_modify; [|done]. intros w1 Hw1 Hok1.
  destruct (notify_service_ok (wd_store w1) record (service w1 i)) as [? E]; [by apply world_service| |split; [done|by rewrite E]].
  eapply known_later; [apply Hw1|done].
Qed.

(** ** Writing *)
Lemma seen_same w id r v q : seen w id r v → task_of id q w → same_task q r.
Proof.
  intros Hs [Hid (q' & u & Hq' & E)]. destruct Hs as (st & Hok & (_ & Ht & _) & H).
  destruct (Ht _ _ _ H) as (r' & v' & Hr' & C). rewrite Hid, Hr' in Hq'. injection Hq' as -> ->.
  rewrite E. destruct C as [[-> _]|[_ (_ & ? & _)]]; done.
Qed.

(** A store transaction of a program. *)
Lemma returns_transact i fencing key work (P : TaskRecord → world → Prop) w :
  (∀ w1, world_later w w1 → world_ok w1 →
     let t := transact fencing key (work (wd_now w1) (service w1 i)) (wd_store w1) in
     store_ok number_text sha256 localeCompare ajv t.2 ∧ store_later (wd_store w1) t.2 ∧
     ∀ r, t.1 = Ok r → ∀ w3, world_later (set_store w1 t.2) w3 → world_ok w3 → P r w3) →
  returns i (attempt (Transact fencing key work)) P w.
Proof.
  intros H. apply wp_do. intros a w1 r w2 js Hw Hok Hh. unfold handle in Hh.
  destruct (H w1 Hw Hok) as (Hst & Hl & HP). clear H.
  destruct (transact fencing key (work (wd_now w1) (service w1 i)) (wd_store w1)) as [t st]. cbn in *.
  assert (world_ok (set_store w1 st) ∧ world_later w1 (set_store w1 st)) as [Hok2 Hl2].
  { destruct Hok as (_ & Hsv & Hsub). split; [|by split].
    split_and!; [done| |].
    - intros j. eapply service_ok_later; [exact Hl|apply Hsv].
    - eapply Forall_impl; [exact Hsub|]. intros [[j x] e] (q & target & binding & Hq & ?).
      exists q, target, binding. split; [by eapply known_later|done]. }
  destruct a; simplify_eq; split_and!; try done; try constructor.
  match goal with |- context [of_result ?x] => destruct x as [r'|] end; [|done].
  intros w3 Hw3 Hok3. by apply HP.
Qed.

Lemma parse_ok r r' : parse r = Ok r' → r' = r.
Proof. intros H. by apply parseTaskRecord_ok in H as [? _]. Qed.

Lemma update_transact i authority next record v w :
  world_ok w → seen w (t_taskId next) record v → changes record next → parse next = Ok next →
  returns i (attempt (Transact authority None (λ now s _,
    _ ← assertAuthority authority now s; Ok (next, [PutTask next (Some v)])))) (λ _ _, True) w.
Proof.
  intros Hok Hseen Hc Hp. apply returns_transact. intros w1 Hw Hok1. cbn zeta.
  destruct (task_transact_ok number_text sha256 localeCompare ajv authority None
    (λ _, _ ← assertAuthority authority (wd_now w1) (service w1 i); Ok (next, [PutTask next (Some v)])) (wd_store w1))
    as (Hst & Hl & Hr); [apply Hok1| |by split_and!].
  intros r puts Hwork Hputs. apply bind_ok in Hwork as (_ & _ & [= <- <-]). split; [|done].
  cbn in Hputs. rewrite andb_true_r in Hputs. apply bool_decide_eq_true in Hputs.
  destruct (ts_tasks (wd_store w1) !! t_taskId next) as [[q u]|] eqn:Eq; [|done]. cbn in Hputs. injection Hputs as ->.
  pose proof (seen_later _ _ _ _ _ _ _ _ _ Hw Hseen) as Hseen1.
  rewrite (seen_current _ _ _ _ _ _ _ _ _ Hseen1 Eq) in Eq.
  eapply update_sound; [apply Hok1|exact Eq|done|done].
Qed.

Lemma transition_loop_ok i n id authority update w :
  world_ok w →
  (∀ now r v w', world_later w w' → seen w' id r v → t_state r ≠ Terminal → parse (update now r) = Ok (update now r) →
     changes r (update now r)) →
  returns i (transition_loop number_text sha256 localeCompare ajv n id authority update) (λ r w', task_of id r w') w.
Proof.
  revert w. induction n as [|n IH]; intros w Hok Hup; [apply returns_throw_now|]. cbn [transition_loop].
  apply returns_bind; [done|]. apply returns_sync. intros _ wa w1 Hwa _ _ Hw1 Hok1.
  apply returns_bind; [done|]. eapply returns_mono; [|by apply load_ok].
  intros o w2 Hw2 Hok2 Ho. destruct o as [[record v]|]; [|apply returns_throw_now]. specialize (Ho record v eq_refl).
  case_bool_decide as Hterm.
  { apply returns_ret. intros w3 Hw3 _. eapply task_of_later; [done|]. by eapply seen_task. }
  apply returns_bind; [done|]. apply returns_sync. intros next wb w3 Hwb _ Hnext Hw3 Hok3.
  assert (world_later w w3) as Hw.
  { transitivity wa; [done|]. transitivity w1; [done|]. transitivity w2; [done|]. by transitivity wb. }
  assert (seen w3 id record v) as Hseen.
  { eapply seen_later; [|exact Ho]. by transitivity wb. }
  set (now := wd_now wb) in *. clearbody now.
  unfold lift in Hnext. destruct (parse (update now record)) as [x|] eqn:Ep; [|done]. injection Hnext as ->.
  pose proof (parse_ok _ _ Ep) as ->.
  assert (changes record (update now record)) as Hc by (by eapply Hup).
  assert (t_taskId (update now record) = id) as Hid.
  { destruct Hc as (_ & [E _] & _). rewrite <- E. by eapply seen_known in Hseen as [? _]. }
  apply returns_catch; [done| |].
  - apply returns_bind; [done|]. eapply returns_mono; [|eapply update_transact; [done|by rewrite Hid|done|done]].
    intros _ w4 _ Hok4 _. apply returns_bind; [done|]. apply returns_sync. intros _ _ w5 _ _ _ _ Hok5.
    apply returns_bind; [done|]. eapply returns_mono; [|by apply load_ok].
    intros o w6 _ Hok6 Ho6. destruct o as [[r u]|]; [|apply returns_throw_now]. apply returns_ret. intros w7 Hw7 _.
    eapply task_of_later; [done|]. eapply seen_task. by apply Ho6.
  - intros e w4 Hw4 Hok4. destruct (has_code e "STATE_REVISION_CONFLICT"); [|done].
    apply IH; [done|]. intros now' r u w5 Hw5. apply Hup. transitivity w3; [done|]. by transitivity w4.
Qed.

Lemma updated_changes r state now authority cancellation diagnostic result :
  t_state r ≠ Terminal → rank (t_state r) ≤ rank state →
  changes r (updated r state now authority cancellation diagnostic result).
Proof. intros. by repeat split. Qed.

Lemma transition_ok i id authority update w :
  world_ok w →
  (∀ now r v w', world_later w w' → seen w' id r v → t_state r ≠ Terminal → parse (update now r) = Ok (update now r) →
     changes r (update now r)) →
  returns i (transition number_text sha256 localeCompare ajv id authority update) (λ r w', task_of id r w') w.
Proof. apply transition_loop_ok. Qed.

(** An update that rewrites the current record. *)
Lemma transition_updated i id authority (f : Z → TaskRecord → TaskRecord) w :
  world_ok w →
  (∀ now r, t_state r ≠ Terminal → ∃ state n a c d x, f now r = updated r state n a c d x ∧ rank (t_state r) ≤ rank state) →
  returns i (transition number_text sha256 localeCompare ajv id authority f) (λ r w', task_of id r w') w.
Proof.
  intros Hok Hf. apply transition_ok; [done|]. intros now r v w' _ _ Ht _.
  destruct (Hf now r Ht) as (state & n & a & c & d & x & -> & Hr). by apply updated_changes.
Qed.

Lemma rank_terminal s : rank s ≤ rank Terminal.
Proof. by destruct s. Qed.

Lemma same_indeterminate record e now : same_task record (indeterminate record e now).
Proof. by repeat split. Qed.

Lemma settleUncertain_ok i record e authority allow w :
  world_ok w → known (wd_store w) record →
  returns i (settleUncertain number_text sha256 localeCompare ajv record e authority allow) (λ _ _, True) w.
Proof.
  intros Hok Hk. apply returns_bind; [done|]. apply returns_asks. intros wa w1 Hwa _ Hw1 Hok1.
  branch; [done|]. apply returns_bind; [done|].
  apply returns_block. intros w2 Hw2 Hok2. split_and!; [by apply world_service|done|].
  intros w3 ->. split; [constructor|]. intros w4 Hw4 Hok4. branch; [done|].
  apply returns_bind; [done|]. apply returns_sync. intros terminal w5 w6 Hw5 _ Hterm Hw6 Hok6.
  set (now := wd_now w5) in *. clearbody now.
  unfold lift in Hterm. destruct (parse (indeterminate record e now)) as [x|] eqn:Ep; [|done]. injection Hterm as ->.
  pose proof (parse_ok _ _ Ep) as ->.
  assert (world_later w w6) as Hw.
  { transitivity wa; [done|]. transitivity w1; [done|]. transitivity w2; [done|].
    transitivity w4; [etransitivity; [|exact Hw4]; apply set_service_ok; [done|by apply world_service|done]|].
    by transitivity w5. }
  assert (known (wd_store w6) record) as Hk6 by (eapply known_later; [apply Hw|done]).
  assert (∀ w', world_later w6 w' → task_of (t_taskId record) (indeterminate record e now) w') as Hkt.
  { intros w' Hw'. split; [done|]. eapply known_later; [apply Hw'|].
    eapply known_same; [apply same_indeterminate|done]. }
  apply returns_bind; [done|]. eapply returns_mono; [|apply (returns_settled i _ (λ _ _, True))].
  2: { apply returns_bind; [done|]. eapply returns_mono; [|apply transition_ok; [done|]].
       - intros r w7 _ Hok7 [_ Hr]. by apply notify_ok.
       - intros now' r v w7 Hw7 Hs Ht _. split; [done|]. split; [|apply rank_terminal].
         symmetry. eapply seen_same; [exact Hs|by apply Hkt]. }
  intros r w7 Hw7 Hok7 _. destruct r as [?|x]; [done|].
  apply returns_bind; [done|]. apply returns_block. intros w8 Hw8 Hok8.
  split_and!; [by apply world_service|done|]. intros w9 ->. split; [constructor|]. intros w10 Hw10 Hok10.
  branch; [done|]. apply returns_bind; [done|].
  assert (world_later w6 w10) as Hw610.
  { transitivity w7; [done|]. transitivity w8; [done|]. etransitivity; [|exact Hw10].
    apply set_service_ok; [done|by apply world_service|done]. }
  apply returns_modify.
  - intros w11 Hw11 Hok11. split; [|done]. apply set_ephemeral_ok; [by apply world_service|].
    intros id q H'. destruct (decide (t_taskId record = id)) as [<-|Hne].
    + rewrite lookup_insert_eq in H'. injection H' as <-. apply Hkt. by transitivity w10.
    + rewrite lookup_insert_ne in H' by done. by eapply sk_ephemeral; [apply world_service|].
  - intros w11 Hw11 _. apply notify_ok. apply (Hkt w11). by transitivity w10.
Qed.

Abbreviation tr p := (p number_text sha256 localeCompare ajv).

Lemma mark_ok i record authority d w :
  world_ok w → returns i (tr mark record authority d) (λ _ _, True) w.
Proof.
  intros Hok. apply returns_bind; [done|]. eapply returns_mono; [|apply transition_updated; [done|]]; [done|].
  intros now r _. by eexists _, _, _, _, _, _.
Qed.

Lemma run_state_ok i record authority w :
  world_ok w → returns i (tr run_state record authority) (λ r w', task_of (t_taskId record) r w') w.
Proof.
  intros Hok. apply transition_updated; [done|]. intros now r Hr. eexists _, _, _, _, _, _. split; [reflexivity|].
  by destruct (t_state r).
Qed.

Lemma clock_ok i (P : Z → world → Prop) w : (∀ now w', world_later w w' → world_ok w' → P now w') → returns i clock_now P w.
Proof.
  intros H. apply returns_block. intros w1 Hw Hok. split_and!; [by apply world_service|done|]. intros w2 ->.
  split; [constructor|]. intros w3 Hw3 Hok3. apply H; [|done]. transitivity w1; [done|]. etransitivity; [|exact Hw3].
  apply set_service_ok; [done|by apply world_service|done].
Qed.

Lemma rejectAdmission_ok i record e authority retryable w :
  world_ok w → returns i (tr rejectAdmission record e authority retryable) (λ r w', task_of (t_taskId record) r w') w.
Proof.
  intros Hok. apply returns_bind; [done|]. apply clock_ok. intros now w1 _ Hok1.
  apply returns_bind; [done|]. eapply returns_mono; [|apply transition_updated; [done|]].
  2: { intros _ r _. eexists _, _, _, _, _, _. split; [reflexivity|apply rank_terminal]. }
  intros r w2 _ Hok2 Hr. apply returns_bind; [done|]. eapply returns_mono; [|apply notify_ok, Hr].
  intros _ w3 Hw3 _ _. apply returns_ret. intros w4 Hw4 _. eapply task_of_later; [|exact Hr]. by transitivity w3.
Qed.

Lemma modify_executors_ok (i : nat) (f : TaskService → gmap jstring ExecutorRegistration)
    (b : TaskService → bool) (w : world) :
  returns i (modify (λ s, if b s then set_executors (f s) s else s)) (λ _ _, True) w.
Proof.
  apply returns_modify; [|done]. intros w1 _ Hok1. pose proof (world_service i w1 Hok1).
  destruct (b (service w1 i)); [|done]. split; [by apply set_executors_ok|done].
Qed.

Lemma complete_ok i record result authority registration w :
  world_ok w → known (wd_store w) record →
  returns i (tr complete record result authority registration) (λ _ _, True) w.
Proof.
  intros Hok Hk. apply returns_finally; [done| |done|].
  - apply returns_catch; [done| |].
    + apply returns_bind; [done|]. apply returns_of_result. intros _ w1 _ _ Hok1.
      apply returns_bind; [done|]. apply returns_sync. intros _ _ w2 _ _ _ _ Hok2.
      apply returns_bind; [done|]. apply returns_sync. intros _ _ w3 _ _ _ _ Hok3.
      apply returns_bind; [done|]. eapply returns_mono; [|apply transition_updated; [done|]].
      2: { intros now r _. eexists _, _, _, _, _, _. split; [reflexivity|apply rank_terminal]. }
      intros r w4 _ _ [_ Hr]. by apply notify_ok.
    + intros e w1 Hw1 Hok1. apply settleUncertain_ok; [done|]. eapply known_later; [apply Hw1|done].
  - intros w1 _ Hok1. apply modify_executors_ok.
Qed.

(** ** Executors *)
Definition fits (target : TaskExecutionTarget) (x : Executor) : Prop :=
  ex_id x = tx_id (tg_executor target) ∧ ex_type x = tx_type (tg_executor target).

Lemma app_nil {A} (k l : list A) : k ++ l = [] → k = [] ∧ l = [].
Proof. by destruct k. Qed.

Lemma validateSelection_ok i selection id w :
  returns i (validateSelection selection id) (λ _ _, fits (sl_target selection) (sl_executor selection)) w.
Proof.
  unfold validateSelection. cbn zeta.
  destruct (_ ++ _) as [|] eqn:E; [|apply returns_throw_now].
  apply returns_ret. intros _ _ _. apply app_nil in E as [E1 E2]. unfold fits.
  destruct (streq (ex_id (sl_executor selection)) _) eqn:Eid; [|done]. apply streq_true in Eid.
  by case_bool_decide.
Qed.

Lemma same_target_fits target selected x :
  targetMismatchedFields target selected = [] → fits selected x → fits target x.
Proof.
  unfold targetMismatchedFields, fits. cbn zeta.
  intros (_ & (_ & (E1 & (E2 & _)%app_nil)%app_nil)%app_nil)%app_nil [-> ->].
  destruct (streq (tx_id (tg_executor target)) _) eqn:Eid; [|done]. apply streq_true in Eid as ->.
  by case_bool_decide.
Qed.

Lemma quiet_select i request target binding identity : quiet i (SelectExecutor request target binding identity).
Proof. intros a w d w' js H. destruct a; by simplify_eq/=. Qed.

Lemma selectExecutor_ok i request authority id target binding attempt w :
  world_ok w →
  returns i (selectExecutorBounded request authority id target binding attempt) (λ _ _, True) w.
Proof.
  intros Hok. apply returns_bind; [done|]. apply returns_effect; [apply quiet_select|].
  intros _ outcome _ w1 _ _ _ _ Hok1. destruct outcome as [v|e|e|]; [| |apply returns_throw|apply returns_throw_now].
  - apply returns_bind; [done|]. apply returns_sync. intros _ _ w2 _ _ _ _ Hok2. done.
  - branch; [apply returns_throw|apply returns_throw_now].
Qed.

Lemma bound_ok i record w :
  returns i (bound record) (λ b _, t_target record = Some b.1 ∧ t_binding record = Some b.2) w.
Proof.
  unfold bound. destruct (t_target record), (t_binding record); try apply returns_throw_now. by apply returns_ret.
Qed.

Lemma resolveExecutor_ok i record authority w :
  world_ok w →
  returns i (resolveExecutor record authority) (λ x _, ∀ target, t_target record = Some target → fits target x) w.
Proof.
  intros Hok. apply returns_bind; [done|]. eapply returns_mono; [|apply bound_ok].
  intros [target binding] w1 _ Hok1 [Et Eb]. cbn in Et, Eb.
  apply returns_bind; [done|]. apply returns_asks. intros w2 w3 _ _ _ Hok3.
  apply returns_bind; [done|].
  eapply (returns_mono _ _ (λ o _, ∀ x, o = Some x → fits target x)).
  2: { destruct (sv_executors (service w2 i) !! t_taskId record) as [r|]; [|by apply returns_ret].
       destruct (_ && _ && _) eqn:E; [|by apply returns_ret]. apply returns_ret. intros _ _ _ x [= <-].
       apply andb_true_iff in E as [[_ E1]%andb_true_iff E2]. apply streq_true in E1.
       by apply bool_decide_eq_true in E2. }
  intros [x|] w4 _ Hok4 Hx.
  { apply returns_ret. intros _ _ _ target' E. rewrite Et in E. injection E as <-. by apply Hx. }
  apply returns_bind; [done|]. eapply returns_mono; [|by apply selectExecutor_ok]. intros resolved w5 _ Hok5 _.
  apply returns_bind; [done|]. eapply returns_mono; [|apply validateSelection_ok]. intros [] w6 _ Hok6 Hfit.
  destruct (targetMismatchedFields target (sl_target resolved)) eqn:E; [|apply returns_throw_now].
  branch; [|apply returns_throw_now]. apply returns_ret. intros _ _ _ target' E'. rewrite Et in E'.
  injection E' as <-. by eapply same_target_fits.
Qed.

(** A block that takes a number. *)
Definition owned (i p : nat) (o : owner) (w : world) : Prop := sv_owners (service w i) !! p = Some o.
Lemma owned_later i p o w w' : world_later w w' → owned i p o w → owned i p o w'.
Proof. intros [_ H] Ho. by eapply lookup_weaken. Qed.

Lemma register_ok i id x authority w :
  returns i (register id x authority) (λ r _, rg_executor r = x) w.
Proof.
  apply returns_block. intros w1 _ Hok1. pose proof (world_service i w1 Hok1) as Hs. cbn -[fresh].
  pose proof (fresh_ok _ (OfTask id) _ Hs). pose proof (owners_fresh _ (OfTask id) _ Hs).
  destruct (fresh (OfTask id) (service w1 i)) as [n s'] eqn:E. cbn in *.
  split_and!; [by apply set_executors_ok|done|]. intros w2 ->. split; [constructor|done].
Qed.

Lemma submit_ok i x request w (P : result task_error ExecutionHandle → world → Prop) :
  (∀ w1, world_later w w1 → world_ok w1 → submission_ok (wd_store w1) (i, x, request)) →
  (∀ outcome w', world_later w w' → world_ok w' → P outcome w') →
  returns i (effect (Submit x request)) P w.
Proof.
  intros Hs HP. apply wp_do. intros a w1 b w2 js Hw Hok Hh. unfold handle in Hh. destruct a; simplify_eq.
  assert (world_later w1 (log_submission w1 i x request)) as Hl by (by split).
  refine (conj _ (conj Hl (conj (Forall_nil_2 _) _))).
  - pose proof Hok as (Hst & Hsv & Hsub). split_and!; [done|done|]. apply Forall_app. split; [done|].
    constructor; [|constructor]. by apply (Hs w1).
  - intros w3 Hw3 Hok3. apply HP; [|done]. transitivity w1; [done|]. by etransitivity.
Qed.
End programs.
