(* ===== verification/TaskRuns.v ===== *)
(** * Running tasks

    The programs of TaskService.v that dispatch, recover, admit, wait for and
    cancel tasks keep the invariants of TaskLaws.v and return records of the
    task they are about; a run returns a record of its operation. *)

From S2P Require Import Prelude JsString Collections JsValue Identity JsonText Canonical Time Placement Execution Task Async TaskService TaskLaws TaskPrograms.

Open Scope Z_scope.

#[local] Arguments canonical : simpl never.
#[local] Arguments request_json : simpl never.
#[local] Arguments parseTaskRecord : simpl never.

Section runs.
Context (number_text : jsnum → jstring) (sha256 : jstring → jstring) (localeCompare : jstring → jstring → Z).
Context (ajv : schema_name → json → bool).
Abbreviation parse := (parseTaskRecord number_text sha256 localeCompare ajv).
Abbreviation world_ok := (world_ok number_text sha256 localeCompare ajv).
Abbreviation service_ok := (service_ok number_text).
Abbreviation returns := (returns number_text sha256 localeCompare ajv).
Abbreviation submission_ok := TaskLaws.submission_ok.
Abbreviation tr p := (p number_text sha256 localeCompare ajv).
Abbreviation anything := (λ _ _, True).

(** First [p], by a lemma. *)
Ltac first_by lem := apply returns_bind; [assumption|]; eapply returns_mono; [|apply lem]; try assumption.

Lemma check_ok i authority w : returns i (check_authority authority) anything w.
Proof. by apply returns_sync. Qed.
Lemma unregister_ok i id registration w : returns i (unregister id registration) anything w.
Proof. apply modify_executors_ok. Qed.
Lemma returns_quiet (i : nat) {B} (e : eff (result task_error B)) w :
  (∀ j, quiet j e) → returns i (attempt e) anything w.
Proof. intros H. by apply returns_attempt. Qed.
Lemma returns_asks_any (i : nat) {B} (f : TaskService → B) w : returns i (asks f) anything w.
Proof. by apply returns_asks. Qed.
Lemma settled_any (i : nat) {B} (p : task B) w : returns i p anything w → returns i (settled p) anything w.
Proof. intros H. eapply returns_mono; [|by apply returns_settled]. done. Qed.
Lemma pure_any (i : nat) {B} (r : result task_error B) w : returns i (of_result r) anything w.
Proof. by apply returns_of_result. Qed.

Lemma quiet_observe i x id attempt : quiet i (Observe x id attempt).
Proof. intros a w d w' js H. destruct a; by simplify_eq/=. Qed.
Lemma quiet_cancel i x id attempt : quiet i (CancelAttempt x id attempt).
Proof. intros a w d w' js H. destruct a; by simplify_eq/=. Qed.
Lemma quiet_resume i x id attempt : quiet i (Resume x id attempt).
Proof. intros a w d w' js H. destruct a; by simplify_eq/=. Qed.
Lemma quiet_scan i : quiet i ScanTasks.
Proof. intros a w d w' js H. unfold handle, reads in H. destruct a; by simplify_eq/=. Qed.
Lemma quiet_await i p : quiet i (Await p).
Proof. intros a w d w' js H. unfold handle in H. apply bind_Some in H as (r & _ & H). by simplify_eq/=. Qed.
Lemma quiet_operation i op : quiet i (ReadOperation op).
Proof. intros a w d w' js H. unfold handle, reads in H. destruct a; by simplify_eq/=. Qed.

Lemma current_or_ok i record w :
  world_ok w → known (wd_store w) record →
  returns i (tr current_or record) (λ r w', task_of (t_taskId record) r w') w.
Proof.
  intros Hok Hk. first_by status_ok. intros o w1 Hw1 Hok1 Ho. apply returns_ret. intros w2 Hw2 Hok2.
  destruct o as [r|]; cbn.
  - eapply task_of_later; [done|]. by apply Ho.
  - split; [done|]. eapply known_later; [|done]. transitivity (wd_store w1); [apply Hw1|apply Hw2].
Qed.

(** ** Promises *)
Lemma await_record_ok i p o w :
  world_ok w → owned i p o w →
  returns i (await_record p) (λ r w', delivers number_text (wd_store w') o r) w.
Proof.
  intros Hok Ho. apply returns_bind; [done|].
  eapply (returns_mono _ _ _ _ _ _ (λ r w', ∀ record, r = Some record → delivers number_text (wd_store w') o record)).
  2: { apply returns_attempt; [apply quiet_await|]. intros a b w1 w2 Hw Hok1 H Hw2 _ record ->.
       unfold handle in H. apply bind_Some in H as (r & H & Er). injection Er as ->.
       destruct (sk_promises _ _ _ (world_service _ _ _ _ i w1 Hok1) _ _ H) as (o' & Ho' & Hd).
       pose proof (owned_later _ _ _ _ _ Hw Ho) as Ho1. unfold owned in Ho1. rewrite Ho' in Ho1. injection Ho1 as ->.
       eapply delivers_later; [apply Hw2|done]. }
  intros [record|] w1 _ _ H; [|apply returns_throw]. apply returns_ret. intros w2 Hw2 _.
  eapply delivers_later; [apply Hw2|by apply H].
Qed.

Lemma await_task_ok i p id w :
  world_ok w → owned i p (OfTask id) w → returns i (await_record p) (λ r w', task_of id r w') w.
Proof.
  intros Hok Ho. eapply returns_mono; [|by apply await_record_ok]. intros r w' _ _ []. by split.
Qed.

(** A block that starts a job for a new promise. *)
Lemma returns_fresh (i : nat) {B} (o : owner) (f : nat → TaskService → B * TaskService * list job)
    (P : B → world → Prop) w :
  (∀ w1, world_later w w1 → world_ok w1 →
     let '(p, s0) := fresh o (service w1 i) in
     service_ok (wd_store w1) s0 → sv_owners s0 !! p = Some o →
     let '(b, s, js) := f p s0 in
     service_ok (wd_store w1) s ∧ sv_owners s = sv_owners s0 ∧
     ∀ w2, w2 = set_service w1 i s → Forall (job_ok i w2) js ∧
       ∀ w3, world_later w2 w3 → world_ok w3 → P b w3) →
  returns i (effect (Sync (λ _ s, let '(p, s0) := fresh o s in f p s0))) P w.
Proof.
  intros H. apply returns_block. intros w1 Hw Hok. specialize (H w1 Hw Hok).
  pose proof (world_service _ _ _ _ i w1 Hok) as Hs.
  pose proof (fresh_ok _ _ o _ Hs) as Hs0. pose proof (owners_fresh _ _ o _ Hs) as Ho.
  pose proof (fresh_owner o (service w1 i)) as Hp.
  destruct (fresh o (service w1 i)) as [p s0]. cbn in *. specialize (H Hs0 Hp).
  destruct (f p s0) as [[b s] js]. destruct H as (? & E & ?). split_and!; [done|by rewrite E|done].
Qed.

Lemma owned_set i p o w s : sv_owners s !! p = Some o → owned i p o (set_service w i s).
Proof. unfold owned. by rewrite service_set. Qed.
(** ** Dispatching *)
Lemma completion_ok i record authority registration (outcome : result task_error ExecutionResult) w :
  world_ok w → known (wd_store w) record →
  returns i (match outcome with
             | Ok result => tr complete record result authority (Some registration)
             | Err e => tr settleUncertain record e authority true
             end) anything w.
Proof. intros. destruct outcome; [by apply complete_ok|by apply settleUncertain_ok]. Qed.

Lemma submission_failed_ok i record e authority registration w :
  world_ok w → known (wd_store w) record →
  returns i (tr submission_failed record e authority registration) (λ r w', task_of (t_taskId record) r w') w.
Proof.
  intros Hok Hk. unfold submission_failed. cbn zeta. destruct (diagnosticCode e ≫= definiteAdmissionRejections) as [b|].
  - apply returns_finally; [done|by apply rejectAdmission_ok| |].
    + intros r w1 w2. apply task_of_later.
    + intros w1 _ _. apply unregister_ok.
  - apply returns_bind; [done|]. eapply returns_mono; [|apply settled_any, returns_quiet; intros; apply quiet_observe].
    intros outcome w1 Hw1 Hok1 _. assert (known (wd_store w1) record) as Hk1 by (eapply known_later; [apply Hw1|done]).
    apply returns_bind; [done|]. eapply (returns_mono _ _ _ _ _ _ anything).
    + intros [] w2 Hw2 Hok2 _. apply current_or_ok; [done|]. eapply known_later; [apply Hw2|done].
    + assert (∀ code, returns i (if negb (bool_decide (ex_type (rg_executor registration) = Remote))
        then tr settleUncertain record e authority true
        else tr markUnknown record authority code) anything w1) as H.
      { intros code. branch; [by apply settleUncertain_ok|by apply mark_ok]. }
      destruct outcome as [[[[|result]|]|]|]; try exact (H _). by apply complete_ok.
Qed.

Lemma ephemeral_ok i id w :
  returns i (asks (λ s, sv_ephemeralTerminal s !! id)) (λ o w', ∀ r, o = Some r → task_of id r w') w.
Proof.
  apply returns_asks. intros w1 w2 Hw Hok1 Hw2 _ r H. eapply task_of_later; [done|].
  by destruct (sk_ephemeral _ _ _ (world_service _ _ _ _ i w1 Hok1) _ _ H).
Qed.

Lemma returns_jobs (i : nat) js w :
  (∀ w1, world_later w w1 → Forall (job_ok i w1) js) →
  returns i (effect (Sync (λ _ s, (tt, s, js)))) anything w.
Proof.
  intros H. apply returns_block. intros w1 Hw Hok1. split_and!; [exact (world_service _ _ _ _ i w1 Hok1)|done|].
  intros w2 ->. split; [|done]. apply H. transitivity w1; [done|].
  eapply (set_service_ok number_text sha256 localeCompare ajv i w1 (service w1 i) Hok1); [|done].
  exact (world_service _ _ _ _ i w1 Hok1).
Qed.

Lemma submitted_ok i record handle authority registration w :
  world_ok w → known (wd_store w) record →
  returns i (tr submitted record handle authority registration) (λ r w', task_of (t_taskId record) r w') w.
Proof.
  intros Hok Hk. unfold submitted. branch.
  - apply returns_bind; [done|]. apply clock_ok. intros now w1 Hw1 Hok1.
    assert (known (wd_store w1) record) by (eapply known_later; [apply Hw1|done]).
    first_by settleUncertain_ok. intros [] w2 Hw2 Hok2 _. apply current_or_ok; [done|].
    eapply known_later; [apply Hw2|done].
  - apply returns_bind; [done|]. eapply returns_mono; [|by apply returns_settled, run_state_ok].
    intros [running|e] w1 Hw1 Hok1 Hr.
    + apply returns_bind; [done|]. eapply returns_mono; [|apply returns_jobs].
      * intros [] w2 Hw2 Hok2 _. apply returns_ret. intros w3 Hw3 _.
        eapply task_of_later; [|exact Hr]. by transitivity w2.
      * intros w2 Hw2. constructor; [|constructor]. eapply known_later; [apply Hw2|apply Hr].
    + assert (known (wd_store w1) record) by (eapply known_later; [apply Hw1|done]).
      first_by settleUncertain_ok. intros [] w2 Hw2 Hok2 _. first_by ephemeral_ok.
      intros [r|] w3 Hw3 Hok3 H3.
      * apply returns_ret. intros w4 Hw4 _. eapply task_of_later; [done|]. by apply H3.
      * first_by status_ok. intros [r|] w4 Hw4 Hok4 H4; [|apply returns_throw]. apply returns_ret. intros w5 Hw5 _.
        eapply task_of_later; [done|]. by apply H4.
Qed.

Lemma dispatch_ok i record authority w :
  world_ok w → known (wd_store w) record →
  returns i (tr dispatch record authority) (λ r w', task_of (t_taskId record) r w') w.
Proof.
  intros Hok Hk. first_by check_ok. intros [] w1 Hw1 Hok1 _.
  first_by resolveExecutor_ok. intros x w2 Hw2 Hok2 Hx.
  first_by bound_ok. intros [target binding] w3 Hw3 Hok3 [Et Eb]. cbn in Et, Eb.
  first_by check_ok. intros [] w4 Hw4 Hok4 _.
  first_by register_ok. intros registration w5 Hw5 Hok5 _.
  assert (world_later w w5) as Hw.
  { transitivity w1; [done|]. transitivity w2; [done|]. transitivity w3; [done|]. by transitivity w4. }
  apply returns_bind; [done|]. apply submit_ok.
  - intros w6 Hw6 Hok6. exists record, target, binding. split_and!; try done; [|by apply Hx..].
    eapply known_later; [|done]. transitivity (wd_store w5); [apply Hw|apply Hw6].
  - intros outcome w6 Hw6 Hok6.
    assert (known (wd_store w6) record).
    { eapply known_later; [|done]. transitivity (wd_store w5); [apply Hw|apply Hw6]. }
    destruct outcome; [by apply submitted_ok|by apply submission_failed_ok].
Qed.

Lemma ensureDispatch_ok i record authority w :
  world_ok w → known (wd_store w) record →
  returns i (ensureDispatch record authority) (λ r w', task_of (t_taskId record) r w') w.
Proof.
  intros Hok Hk. apply returns_bind; [done|].
  eapply (returns_mono _ _ _ _ _ _ (λ p w', owned i p (OfTask (t_taskId record)) w')).
  { intros p w1 _ Hok1 Hp. by apply await_task_ok. }
  apply returns_block. intros w1 Hw Hok1. pose proof (world_service _ _ _ _ i w1 Hok1) as Hs.
  destruct (sv_dispatches (service w1 i) !! t_taskId record) as [p|] eqn:E.
  - split_and!; [done|done|]. intros w2 ->. split; [constructor|]. intros w3 Hw3 _.
    eapply owned_later; [exact Hw3|]. apply owned_set. by eapply sk_dispatches.
  - cbn -[fresh]. pose proof (fresh_ok _ _ (OfTask (t_taskId record)) _ Hs) as Hs'.
    pose proof (owners_fresh _ _ (OfTask (t_taskId record)) _ Hs) as Ho.
    pose proof (fresh_owner (OfTask (t_taskId record)) (service w1 i)) as Hp.
    destruct (fresh (OfTask (t_taskId record)) (service w1 i)) as [p s']. cbn in *. split_and!; [|done|].
    + apply set_dispatches_ok; [done|]. intros id q Hq. destruct (decide (t_taskId record = id)) as [<-|Hne].
      * rewrite lookup_insert_eq in Hq. by injection Hq as <-.
      * rewrite lookup_insert_ne in Hq by done. by eapply sk_dispatches.
    + intros w2 ->. split.
      * constructor; [|constructor]. split; [by apply (owned_set i p)|]. eapply known_later; [apply Hw|done].
      * intros w3 Hw3 _. eapply owned_later; [exact Hw3|]. by apply owned_set.
Qed.
(** ** Recovery *)
Lemma resumeRemoteCompletion_ok i record x authority registration w :
  world_ok w → known (wd_store w) record →
  returns i (tr resumeRemoteCompletion record x authority registration) anything w.
Proof.
  intros Hok Hk. first_by returns_asks_any. intros pending w1 Hw1 Hok1 _. branch; [by apply returns_ret|].
  first_by returns_quiet; [|intros; apply quiet_resume]. intros [h|] w2 Hw2 Hok2 _; [|by apply returns_ret].
  assert (known (wd_store w2) record) as Hk2.
  { eapply known_later; [|done]. transitivity (wd_store w1); [apply Hw1|apply Hw2]. }
  branch.
  - apply returns_bind; [done|]. apply clock_ok. intros now w3 Hw3 Hok3. apply settleUncertain_ok; [done|].
    eapply known_later; [apply Hw3|done].
  - apply (returns_fresh i (OfTask (t_taskId record)) (λ p s',
      (tt, set_remoteCompletions (<[t_taskId record := p]> (sv_remoteCompletions s')) s',
       [JobRemoteCompletion p record h authority registration]))).
    intros w3 Hw3 Hok3. destruct (fresh _ _) as [p s0]. intros Hs0 Hp.
    split_and!; [by apply set_remoteCompletions_ok|done|]. intros w4 ->. split; [|done].
    constructor; [|constructor]. eapply known_later; [apply Hw3|done].
Qed.

Lemma unresolved_ok i record e authority w :
  world_ok w → known (wd_store w) record → returns i (tr unresolved record e authority) anything w.
Proof.
  intros Hok Hk. unfold unresolved. branch; [by apply settleUncertain_ok|].
  branch; [|by apply settleUncertain_ok]. destruct e; [branch|]; by apply mark_ok.
Qed.

Lemma observed_ok i record value authority registration w :
  world_ok w → known (wd_store w) record → returns i (tr observed record value authority registration) anything w.
Proof.
  intros Hok Hk. apply returns_bind; [done|]. eapply (returns_mono _ _ _ _ _ _ anything).
  - intros [] w1 Hw1 Hok1 _. assert (known (wd_store w1) record) by (eapply known_later; [apply Hw1|done]).
    destruct value as [[|]|]; [branch| |]; by (apply resumeRemoteCompletion_ok || apply returns_ret).
  - destruct value as [[[]|result]|].
    + branch; [|by apply returns_ret]. first_by run_state_ok. intros; by apply returns_ret.
    + by apply returns_ret.
    + by apply complete_ok.
    + branch; [|by apply mark_ok]. branch; [|by apply settleUncertain_ok].
      first_by ensureDispatch_ok. intros; by apply returns_ret.
Qed.

Lemma recoverRecord_ok i record authority w :
  world_ok w → known (wd_store w) record → returns i (tr recoverRecord record authority) anything w.
Proof.
  intros Hok Hk. unfold recoverRecord. destruct (t_binding record) as [binding|].
  2: { apply returns_bind; [done|]. apply clock_ok. intros now w1 Hw1 Hok1. apply settleUncertain_ok; [done|].
       eapply known_later; [apply Hw1|done]. }
  destruct (t_target record) as [target|]; [|by apply settleUncertain_ok].
  first_by settled_any; [|by eapply returns_true, resolveExecutor_ok].
  intros outcome w1 Hw1 Hok1 _. assert (known (wd_store w1) record) as Hk1 by (eapply known_later; [apply Hw1|done]).
  destruct outcome as [x|e]; [|by apply unresolved_ok].
  first_by check_ok. intros [] w2 Hw2 Hok2 _. first_by register_ok. intros registration w3 Hw3 Hok3 _.
  apply returns_bind; [done|]. eapply (returns_mono _ _ _ _ _ _ anything).
  2: { destruct (t_cancellation record); [|by apply returns_ret]. first_by check_ok. intros [] w4 _ Hok4 _.
       first_by returns_quiet; [|intros; apply quiet_cancel]. intros [] w5 _ Hok5 _. apply check_ok. }
  intros [] w4 Hw4 Hok4 _. first_by settled_any; [|apply returns_quiet; intros; apply quiet_observe].
  intros shown w5 Hw5 Hok5 _. assert (known (wd_store w5) record) as Hk5.
  { eapply known_later; [|exact Hk1]. transitivity (wd_store w2); [apply Hw2|].
    transitivity (wd_store w3); [apply Hw3|]. transitivity (wd_store w4); [apply Hw4|apply Hw5]. }
  assert (∀ e w', world_later w5 w' → world_ok w' → returns i
    (if is_remote record then Ret tt else tr settleUncertain record e authority true) anything w') as Hfail.
  { intros e w' Hw' Hok'. branch; [by apply returns_ret|]. apply settleUncertain_ok; [done|].
    eapply known_later; [apply Hw'|done]. }
  destruct shown as [[value|]|e].
  - first_by check_ok. intros [] w6 Hw6 Hok6 _. apply observed_ok; [done|]. eapply known_later; [apply Hw6|done].
  - apply returns_catch; [done|by apply mark_ok|]. intros e w'. apply Hfail.
  - by apply Hfail.
Qed.

Lemma await_all_ok i ps w : world_ok w → returns i (await_all ps) anything w.
Proof.
  revert w. induction ps as [|p ps IH]; intros w Hok; [by apply returns_ret|].
  first_by returns_quiet; [|intros; apply quiet_await]. intros r w1 _ Hok1 _. by apply IH.
Qed.

Lemma fresh_jobs_ok st records authority s :
  service_ok st s → Forall (known st) records →
  let '(ps, s', js) := fresh_jobs records authority s in
  service_ok st s' ∧ sv_owners s ⊆ sv_owners s' ∧
  Forall (λ j, ∃ p record, j = JobRecoverPending p record authority ∧ known st record) js.
Proof.
  revert s. induction records as [|record records IH]; intros s Hs Hr; [split_and!; [done..|constructor]|].
  apply Forall_cons in Hr as [Hk Hr]. cbn [fresh_jobs].
  pose proof (fresh_ok _ _ (OfTask (t_taskId record)) _ Hs) as Hs'.
  pose proof (owners_fresh _ _ (OfTask (t_taskId record)) _ Hs) as Ho.
  destruct (fresh (OfTask (t_taskId record)) s) as [p s1]. cbn [snd] in *. specialize (IH s1 Hs' Hr).
  destruct (fresh_jobs records authority s1) as [[ps s2] js]. destruct IH as (? & ? & ?).
  split_and!; [done|by etransitivity|constructor; [by eauto|done]].
Qed.

Lemma recoverPending_ok i select authority w :
  world_ok w → returns i (recoverPending select authority) anything w.
Proof.
  intros Hok. apply returns_bind; [done|]. eapply (returns_mono _ _ _ _ _ _ anything).
  { intros ps w1 _ Hok1 _. by apply await_all_ok. }
  apply returns_block. intros w1 Hw1 Hok1. pose proof (world_service _ _ _ _ i w1 Hok1) as Hs.
  set (records := List.filter select (map (λ e, e.2.1) (map_to_list (sv_records (service w1 i))))).
  assert (Forall (known (wd_store w1)) records) as Hr.
  { apply List.Forall_forall. intros record [Hin _]%List.filter_In. apply List.in_map_iff in Hin as ([id [q v]] & <- & Hin).
    apply list_elem_of_In, elem_of_map_to_list in Hin. exact (sk_records _ _ _ Hs _ _ Hin). }
  pose proof (fresh_jobs_ok _ _ authority _ Hs Hr) as Hf.
  destruct (fresh_jobs records authority (service w1 i)) as [[ps s'] js]. destruct Hf as (? & ? & Hjs).
  split_and!; [done|done|]. intros w2 ->. split; [|done].
  eapply Forall_impl; [exact Hjs|]. by intros j (p & record & -> & ?).
Qed.

Lemma recover_pending_ok i record authority w :
  world_ok w → known (wd_store w) record → returns i (tr recover_pending record authority) anything w.
Proof.
  intros Hok Hk. apply returns_catch; [done|by apply recoverRecord_ok|]. intros e w1 Hw1 Hok1.
  branch; [|by apply returns_ret]. apply settleUncertain_ok; [done|]. eapply known_later; [apply Hw1|done].
Qed.

(** ** Authority *)
Lemma cached_ok st id record revision s :
  service_ok st s → known st record → service_ok st (set_records (<[id := (record, revision)]> (sv_records s)) s).
Proof.
  intros Hs Hk. apply set_records_ok; [done|]. intros id' e [[<- <-]|[_ H]]%lookup_insert_Some; [done|].
  by eapply sk_records.
Qed.

Lemma recover_loop_ok i stored w :
  world_ok w → Forall (λ e, ∃ id, seen number_text sha256 localeCompare ajv w id e.1 e.2) stored →
  returns i (tr recover_loop stored) anything w.
Proof.
  revert w. induction stored as [|[value revision] stored IH]; intros w Hok Hst; [by apply returns_ret|].
  apply Forall_cons in Hst as [[id Hseen] Hst]. cbn [recover_loop].
  destruct (seen_known _ _ _ _ _ _ _ _ Hseen) as (Hid & Hp & Hk). cbn in Hp. rewrite Hp. cbn [lift of_result].
  apply returns_bind; [done|]. apply returns_ret. intros w1 Hw1 Hok1. apply returns_bind; [done|]. apply returns_modify.
  - intros w2 Hw2 Hok2. split; [|done]. apply cached_ok; [exact (world_service _ _ _ _ i w2 Hok2)|].
    eapply known_later; [|exact Hk]. transitivity (wd_store w1); [apply Hw1|apply Hw2].
  - intros w2 Hw2 Hok2. apply IH; [done|]. eapply Forall_impl; [exact Hst|]. intros e [id' He]. exists id'.
    eapply seen_later; [|exact He]. by transitivity w1.
Qed.

Lemma scan_ok i w :
  returns i (attempt ScanTasks) (λ stored w', Forall (λ e, ∃ id, seen number_text sha256 localeCompare ajv w' id e.1 e.2) stored) w.
Proof.
  apply returns_attempt; [apply quiet_scan|]. intros a stored w1 w2 _ (Hok & _) H [Hw _] _.
  unfold handle, reads in H. destruct a; simplify_eq. apply List.Forall_forall. intros [r v] Hin.
  apply List.in_map_iff in Hin as ([id e] & Ee & Hin). cbn in Ee. subst e. exists id, (wd_store w1).
  split_and!; [done|done|]. by apply elem_of_map_to_list, list_elem_of_In.
Qed.

Lemma sync_any (i : nat) {B} (f : Z → TaskService → result task_error B) w : returns i (sync f) anything w.
Proof. by apply returns_sync. Qed.

Lemma modify_ok (i : nat) (f : TaskService → TaskService) w :
  (∀ st s, service_ok st s → service_ok st (f s)) → (∀ s, sv_owners (f s) = sv_owners s) →
  returns i (modify f) anything w.
Proof.
  intros Hf Ho. apply returns_modify; [|done]. intros w1 _ Hok1. rewrite Ho. split; [|done].
  apply Hf. exact (world_service _ _ _ _ i w1 Hok1).
Qed.

Lemma recover_ok i w : world_ok w → returns i (tr recover) anything w.
Proof.
  intros Hok. first_by sync_any. intros [] w1 _ Hok1 _. apply returns_bind; [done|].
  eapply returns_mono; [|apply modify_ok; [|done]].
  2: { intros st s Hs. apply set_records_ok; [done|]. intros id e. by rewrite lookup_empty. }
  intros [] w2 _ Hok2 _. first_by scan_ok. intros stored w3 _ Hok3 Hst. by apply recover_loop_ok.
Qed.

Lemma setAuthority_ok i authority w : world_ok w → returns i (tr setAuthority authority) anything w.
Proof.
  intros Hok. first_by sync_any. intros [] w1 _ Hok1 _. apply returns_bind; [done|].
  eapply returns_mono; [|apply modify_ok; [|done]; intros; by apply set_state_ok]. intros [] w2 _ Hok2 _.
  destruct authority as [authority|]; [|by apply returns_ret]. first_by recover_ok. intros [] w3 _ Hok3 _.
  first_by check_ok. intros [] w4 _ Hok4 _. by apply recoverPending_ok.
Qed.

Lemma recoverRemoteWorker_ok i workerId w : world_ok w → returns i (recoverRemoteWorker workerId) anything w.
Proof.
  intros Hok. first_by sync_any. intros [] w1 _ Hok1 _. first_by sync_any. intros authority w2 _ Hok2 _.
  first_by pure_any. intros ? w3 _ Hok3 _. by apply recoverPending_ok.
Qed.
End runs.
