(* ===== verification/TaskCalls.v ===== *)
(** * Calls of the task service

    The rest of the programs of TaskService.v: admission, waiting, cancelling
    and the jobs they start. A run returns the record of its operation. *)

From S2P Require Import Prelude JsString Collections JsValue Identity JsonText Canonical Time Placement Execution Task Async TaskService TaskLaws TaskPrograms TaskRuns.

Open Scope Z_scope.

#[local] Arguments canonical : simpl never.
#[local] Arguments request_json : simpl never.
#[local] Arguments parseTaskRecord : simpl never.

Section calls.
Context (number_text : jsnum → jstring) (sha256 : jstring → jstring) (localeCompare : jstring → jstring → Z).
Context (ajv : schema_name → json → bool).
Context (Htext : number_text_ok number_text).
Abbreviation parse := (parseTaskRecord number_text sha256 localeCompare ajv).
Abbreviation store_ok := (store_ok number_text sha256 localeCompare ajv).
Abbreviation world_ok := (world_ok number_text sha256 localeCompare ajv).
Abbreviation service_ok := (service_ok number_text).
Abbreviation returns := (returns number_text sha256 localeCompare ajv).
Abbreviation tr p := (p number_text sha256 localeCompare ajv).
Abbreviation anything := (λ _ _, True).
Abbreviation fingerprint_of request := (canonical number_text (request_json request)).
Abbreviation answers := (answers number_text).

Ltac first_by lem := apply returns_bind; [assumption|]; eapply returns_mono; [|apply lem]; try assumption.

(** ** Records of an operation *)
Lemma known_same_task st a b : known st a → known st b → t_taskId a = t_taskId b → same_task a b.
Proof.
  intros (r & v & Hr & Er) (r' & v' & Hr' & Er') E. rewrite E, Hr' in Hr. injection Hr as -> ->.
  by rewrite Er, Er'.
Qed.

Lemma answers_same st q a b :
  answers st q a → known st a → known st b → t_taskId a = t_taskId b → answers st q b.
Proof.
  intros H Ha Hb E op Hop. destruct (known_same_task _ _ _ Ha Hb E) as (_ & Eatt & _).
  destruct (H op Hop) as (i & ? & ? & ? & ?). exists i. split_and!; congruence.
Qed.

(** A stored record with the fingerprint of a request is of its operation. *)
Lemma fingerprint_answers st q r :
  store_ok st → known st r → data (rq_input q) → fingerprint_of (t_request r) = fingerprint_of q → answers st q r.
Proof.
  intros Hok (r' & v & Hr & (Eid & Eatt & Ereq & _)) Hq Efp op Hop.
  destruct (so_task _ _ _ _ _ Hok _ _ _ Hr) as (Hid & _ & Hp). apply record_parsed in Hp.
  rewrite Ereq in Efp. pose proof (request_text_inj _ _ _ Htext Hp Hq Efp) as (_ & _ & _ & _ & _ & _ & Eop).
  rewrite Hop in Eop. destruct (so_admitted _ _ _ _ _ Hok _ _ _ _ Hr Eop) as (i & Hi & Ei).
  destruct (so_operation _ _ _ _ _ Hok _ _ Hi) as (q' & u & Hq' & Ea & Ef). rewrite Ei, Hr in Hq'.
  injection Hq' as <- <-. exists i. split_and!; [done|congruence|congruence|congruence].
Qed.

(** ** Admission *)
Lemma returns_read_operation i op w :
  returns i (attempt (ReadOperation op)) (λ o w', ∀ j, o = Some j →
    ∃ st, store_ok st ∧ store_later st (wd_store w') ∧ ts_operations st !! op = Some j) w.
Proof.
  apply returns_attempt; [apply quiet_operation|]. intros a o w1 w2 Hw (Hok & _) H [Hw2 _] _ j ->.
  unfold handle, reads in H. destruct a; simplify_eq. by exists (wd_store w1).
Qed.

Definition answered (q : RunTaskRequest) (r : TaskRecord) (w : world) : Prop :=
  delivers number_text (wd_store w) (OfRun q) r.
Lemma answered_later q r w w' : world_later w w' → answered q r w → answered q r w'.
Proof. intros [Hst _]. by apply delivers_later. Qed.
Lemma answered_task q a r w : answered q a w → task_of (t_taskId a) r w → answered q r w.
Proof. intros (Ha & Hq & Hd) [E Hr]. split; [done|]. split; [by apply (answers_same _ _ a)|done]. Qed.

Lemma findReplay_ok i request w :
  world_ok w → data (rq_input request) →
  returns i (tr findReplay request (fingerprint_of request)) (λ o w', ∀ r, o = Some r → answered request r w') w.
Proof.
  intros Hok Hd. unfold findReplay. destruct (rq_operationId request) as [op|] eqn:Eop; [|by apply returns_ret].
  first_by returns_read_operation. intros [j|] w1 Hw1 Hok1 Hj; [|by apply returns_ret].
  destruct (Hj j eq_refl) as (st & Hst & Hl & Hop). clear Hj.
  destruct (streq (oi_fingerprint j) _) eqn:Ef; [|apply returns_throw_now]. apply streq_true in Ef. cbn [negb].
  first_by load_ok. intros [[r v]|] w2 Hw2 Hok2 Hr; [|apply returns_throw_now]. apply returns_ret.
  intros w3 Hw3 Hok3 _ [= <-]. apply (answered_later request r w2 w3 Hw3).
  specialize (Hr r v eq_refl). pose proof (seen_known _ _ _ _ _ _ _ _ Hr) as (Hid & _ & Hk).
  destruct (so_operation _ _ _ _ _ Hst _ _ Hop) as (q & u & Hq & Eatt & Efp).
  destruct (so_task _ _ _ _ _ Hst _ _ _ Hq) as (Hid' & _).
  assert (store_later st (wd_store w2)) as Hl2 by (transitivity (wd_store w1); [done|apply Hw2]).
  assert (known (wd_store w2) q) as Hkq by (eapply known_later; [exact Hl2|]; exists q, u; by rewrite Hid').
  split; [done|]. split; [|done]. intros op' Hop'. rewrite Eop in Hop'. injection Hop' as <-. exists j.
  destruct (known_same_task _ _ _ Hkq Hk) as (_ & Ea & _); [congruence|].
  split_and!; [|congruence..]. eapply lookup_weaken; [exact Hop|apply Hl2].
Qed.

Lemma admit_work_ok request candidate now s st record puts :
  store_ok st → parse candidate = Ok candidate → t_request candidate = request →
  tr admit_work request (fingerprint_of request) candidate now s st = Ok (record, puts) →
  sound_write number_text sha256 localeCompare ajv st record puts ∧
  fingerprint_of (t_request record) = fingerprint_of request.
Proof.
  intros Hok Hp Ereq. set (fresh_task := match ts_tasks st !! t_taskId candidate with
    | Some (existing, _) =>
        record ← lift (parse existing);
        if negb (streq (fingerprint_of (t_request record)) (fingerprint_of request))
        then Err (idempotencyConflict (default (t_taskId candidate) (rq_operationId request)) now)
        else Ok (record, [])
    | None => Ok (candidate, admission number_text candidate)
    end).
  assert ((∀ op, rq_operationId request = Some op → ts_operations st !! op = None) →
    fresh_task = Ok (record, puts) →
    sound_write number_text sha256 localeCompare ajv st record puts ∧
    fingerprint_of (t_request record) = fingerprint_of request) as Hfresh.
  { intros Hop. subst fresh_task. destruct (ts_tasks st !! t_taskId candidate) as [[r v]|] eqn:Er.
    - destruct (so_task _ _ _ _ _ Hok _ _ _ Er) as (Hid & _ & Hpr). rewrite Hpr. cbn [lift mbind result_bind].
      destruct (streq _ _) eqn:Ef; [|done]. apply streq_true in Ef. intros [= <- <-]. split; [|done].
      apply found_sound; [done|]. exists r, v. by rewrite Hid.
    - intros [= <- <-]. split; [|congruence]. apply admission_sound; try done. by rewrite Ereq. }
  unfold admit_work. unfold fresh_task, admission in Hfresh. rewrite Ereq in Hfresh. cbv zeta.
  destruct (rq_operationId request) as [op|] eqn:Eop.
  2: { apply Hfresh. by intros. }
  destruct (ts_operations st !! op) as [i|] eqn:Ei.
  2: { apply Hfresh. by intros ? [= <-]. }
  destruct (streq (oi_fingerprint i) _) eqn:Ef; [|done]. apply streq_true in Ef. cbn [negb].
  destruct (so_operation _ _ _ _ _ Hok _ _ Ei) as (r & v & Hr & _ & Efp). rewrite Hr.
  destruct (so_task _ _ _ _ _ Hok _ _ _ Hr) as (Hid & _ & Hpr). rewrite Hpr. cbn [lift mbind result_bind].
  intros [= <- <-]. split; [|congruence]. apply found_sound; [done|]. exists r, v. by rewrite Hid.
Qed.

Lemma admit_ok i request proposed selection authority w :
  world_ok w → data (rq_input request) →
  returns i (tr admitTask request (fingerprint_of request) proposed selection authority) (answered request) w.
Proof.
  intros Hok Hd. first_by check_ok. intros [] w1 _ Hok1 _. apply returns_bind; [done|]. apply returns_sync.
  intros candidate wa w2 _ _ Hc _ Hok2. unfold lift in Hc.
  destruct (parse (candidate_of request proposed selection authority (wd_now wa))) as [x|] eqn:Ep; [|done].
  injection Hc as <-. pose proof (parse_ok _ _ _ _ _ _ Ep) as ->.
  set (candidate := candidate_of request proposed selection authority (wd_now wa)) in *.
  assert (t_request candidate = request) as Ereq by done. clearbody candidate.
  apply returns_bind; [done|]. eapply (returns_mono _ _ _ _ _ _ (answered request)).
  2: { apply returns_transact. intros w3 _ Hok3. cbv zeta.
       destruct (task_transact_ok number_text sha256 localeCompare ajv authority
         ((λ o, (js "task:" ++ o, fingerprint_of request)) <$> rq_operationId request)
         (admit_work number_text sha256 localeCompare ajv request (fingerprint_of request) candidate (wd_now w3)
            (service w3 i)) (wd_store w3)) as (Hst & Hl & Hr); [apply Hok3| |].
       - intros r puts Hwork _. destruct (admit_work_ok _ _ _ _ _ _ _ (proj1 Hok3) Ep Ereq Hwork) as [Hs Hf].
         split; [exact Hs|]. intros k fp E. destruct (rq_operationId request); [|done]. by injection E as _ <-.
       - split; [exact Hst|]. split; [exact Hl|]. intros r Er w4 Hw4 _. apply (answered_later _ _ _ _ Hw4).
         destruct (Hr r Er) as [Hk Hf]. split; [exact Hk|]. split; [|exact Hd]. intros op Hop.
         rewrite Hop in Hf. by apply (fingerprint_answers _ _ _ Hst Hk Hd (Hf _ _ eq_refl)). }
  intros admitted w3 _ Hok3 Ha. first_by check_ok. intros [] w4 Hw4 Hok4 _.
  first_by load_ok. intros [[r v]|] w5 Hw5 Hok5 Hr; [|apply returns_throw_now]. apply returns_ret. intros w6 Hw6 _.
  apply (answered_later _ _ _ _ Hw6). apply (answered_task _ admitted).
  - eapply answered_later; [|exact Ha]. by transitivity w4.
  - eapply seen_task. by apply Hr.
Qed.
(** ** Running *)
Lemma returns_task_answered (i : nat) (p : task TaskRecord) request record w :
  answered request record w → returns i p (λ r w', task_of (t_taskId record) r w') w →
  returns i p (answered request) w.
Proof.
  intros Ha. apply returns_mono. intros r w' Hw' _. apply answered_task. by eapply answered_later.
Qed.

(** The active dispatch of a task. *)
Lemma dispatches_ok (i : nat) id w :
  returns i (asks (λ s, sv_dispatches s !! id)) (λ o w', ∀ p, o = Some p → owned i p (OfTask id) w') w.
Proof.
  apply returns_asks. intros w1 w2 Hw Hok1 Hw2 _ p H. eapply owned_later; [done|].
  exact (sk_dispatches _ _ _ (world_service _ _ _ _ i w1 Hok1) _ _ H).
Qed.

Lemma replayed_ok i request record w :
  world_ok w → answered request record w → returns i (tr replayed record) (answered request) w.
Proof.
  intros Hok Ha. unfold replayed. branch.
  { apply returns_ret. intros w' Hw' _. by eapply answered_later. }
  apply (returns_task_answered i _ request record); [done|].
  first_by dispatches_ok. intros [p|] w1 Hw1 Hok1 Hp; [apply await_task_ok; [done|by apply Hp]|].
  first_by sync_any. intros authority w2 Hw2 Hok2 _. apply returns_bind; [done|].
  assert (∀ w', world_later w2 w' → known (wd_store w') record) as Hk.
  { intros w' Hw'. eapply known_later; [|apply Ha]. transitivity (wd_store w1); [apply Hw1|].
    transitivity (wd_store w2); [apply Hw2|apply Hw']. }
  eapply returns_mono; [|apply recoverRecord_ok; [done|by apply Hk]]. intros [] w3 Hw3 Hok3 _.
  apply current_or_ok; [done|by apply Hk].
Qed.

Lemma admitted_ok i request authority w :
  world_ok w → data (rq_input request) →
  returns i (tr admitted request (fingerprint_of request) authority) (answered request) w.
Proof.
  intros Hok Hd. apply returns_bind; [done|]. eapply (returns_mono _ _ _ _ _ _ anything).
  2: { apply returns_effect; [|done]. intros a w1 d w' js H. destruct a; by simplify_eq/=. }
  intros proposed w1 _ Hok1 _. first_by selectExecutor_ok. intros selected w2 _ Hok2 _.
  apply returns_bind; [done|]. eapply returns_mono; [|by eapply returns_true, validateSelection_ok].
  intros [] w3 _ Hok3 _. first_by check_ok. intros [] w4 _ Hok4 _. first_by admit_ok. intros record w5 _ Hok5 Ha.
  apply (returns_task_answered i _ request record); [done|].
  apply returns_bind; [done|]. eapply (returns_mono _ _ _ _ _ _ anything).
  2: { branch; [|by apply returns_ret]. first_by register_ok. intros; by apply returns_ret. }
  intros [] w6 Hw6 Hok6 _. first_by dispatches_ok. intros [p|] w7 Hw7 Hok7 Hp.
  { apply await_task_ok; [done|by apply Hp]. }
  assert (∀ w', world_later w7 w' → known (wd_store w') record) as Hk.
  { intros w' Hw'. eapply known_later; [|apply Ha]. transitivity (wd_store w6); [apply Hw6|].
    transitivity (wd_store w7); [apply Hw7|apply Hw']. }
  branch; [|by apply ensureDispatch_ok; [|apply Hk]]. apply returns_ret. intros w8 Hw8 _. split; [done|by apply Hk].
Qed.

Lemma run_answers i request w : world_ok w → returns i (tr run request) (answered request) w.
Proof.
  intros Hok. first_by sync_any. intros [] w1 _ Hok1 _. first_by sync_any. intros authority w2 _ Hok2 _.
  apply returns_bind; [done|]. apply returns_of_result. intros u w3 Hparse _ Hok3.
  assert (data (rq_input request)) as Hd.
  { unfold lift in Hparse. destruct (parseRunTaskRequest number_text request) eqn:E; [|done].
    by eapply request_parsed. }
  first_by findReplay_ok. intros [record|] w4 _ Hok4 Hr; [apply replayed_ok; [done|by apply Hr]|].
  by apply admitted_ok.
Qed.

(** ** Waiting *)
Lemma settle_error_ok st p e s : service_ok st s → service_ok st (settle p (Err e) s).
Proof. intros Hs. by apply settle_promise_ok. Qed.
Lemma settle_owners p r s : sv_owners (settle p r s) = sv_owners s.
Proof. unfold settle. by destruct (sv_promises s !! p). Qed.

Lemma add_waiter_ok st id p s :
  service_ok st s → sv_owners s !! p = Some (OfTask id) → service_ok st (add_waiter id p s).
Proof.
  intros Hs Hp. apply set_waiters_ok; [done|]. intros id' ps [[<- <-]|[_ H]]%lookup_insert_Some.
  - apply Forall_app. split; [|by constructor]. destruct (sv_waiters s !! id) as [ps|] eqn:E; [|constructor].
    by eapply sk_waiters.
  - by eapply sk_waiters.
Qed.

Lemma remove_waiter_ok st id p s : service_ok st s → service_ok st (remove_waiter id p s).
Proof.
  intros Hs. unfold remove_waiter. destruct (sv_waiters s !! id) as [ps|] eqn:E; [|done].
  pose proof (sk_waiters _ _ _ Hs _ _ E) as Hps.
  assert (Forall (promise_of s id) (List.filter (λ q, negb (q =? p)%nat) ps)) as Hf.
  { apply List.Forall_forall. intros q [Hq _]%List.filter_In. by eapply List.Forall_forall in Hps. }
  destruct (List.filter _ _) as [|q rest].
  - apply set_waiters_ok; [done|]. intros id' qs [_ H]%lookup_delete_Some. by eapply sk_waiters.
  - apply set_waiters_ok; [done|]. intros id' qs [[<- <-]|[_ H]]%lookup_insert_Some; [done|]. by eapply sk_waiters.
Qed.
Lemma remove_waiter_owners id p s : sv_owners (remove_waiter id p s) = sv_owners s.
Proof. unfold remove_waiter. destruct (sv_waiters s !! id); [|done]. by destruct (List.filter _ _). Qed.

Lemma wait_ok i id w : world_ok w → returns i (tr wait id) (task_of id) w.
Proof.
  intros Hok. first_by sync_any. intros [] w1 _ Hok1 _. first_by status_ok.
  intros [current|] w2 _ Hok2 Hc; [|apply returns_throw_now]. specialize (Hc current eq_refl). branch.
  { apply returns_ret. intros w3 Hw3 _. by eapply task_of_later. }
  apply returns_bind; [done|]. eapply (returns_mono _ _ _ _ _ _ (λ x w', owned i x.1 (OfTask id) w')).
  2: { apply returns_block. intros w3 Hw3 Hok3. pose proof (world_service _ _ _ _ i w3 Hok3) as Hs. cbn -[fresh].
       pose proof (fresh_ok _ _ (OfTask id) _ Hs) as Hs0. pose proof (owners_fresh _ _ (OfTask id) _ Hs) as Ho.
       pose proof (fresh_owner (OfTask id) (service w3 i)) as Hp.
       destruct (fresh (OfTask id) (service w3 i)) as [p s0]. cbn [fst snd] in *.
       set (s2 := if sv_closed (service w3 i) then _ else _).
       assert (service_ok (wd_store w3) s2 ∧ sv_owners s2 = sv_owners s0) as [Hs2 E].
       { subst s2. pose proof (add_waiter_ok _ _ _ _ Hs0 Hp). destruct (sv_closed _); [|done].
         split; [by apply settle_error_ok|by rewrite settle_owners]. }
       split; [done|]. split; [by rewrite E|]. intros w4 ->. split; [constructor|]. intros w5 Hw5 _. cbn.
       eapply owned_later; [exact Hw5|]. apply owned_set. by rewrite E. }
  intros [p closed] w3 _ Hok3 Hp. cbn [fst snd] in *.
  apply returns_bind; [done|]. eapply (returns_mono _ _ _ _ _ _ anything).
  - intros [] w4 Hw4 Hok4 _. apply returns_finally; [done| | |].
    + apply await_task_ok; [done|]. by eapply owned_later.
    + intros r w5 w6. apply task_of_later.
    + intros w5 _ _. apply modify_ok; intros; [by apply remove_waiter_ok|apply remove_waiter_owners].
  - destruct closed; [by apply returns_ret|]. apply returns_catch; [done| |].
    + first_by status_ok. intros [r|] w4 _ Hok4 Hr; [|by apply returns_ret]. branch; [|by apply returns_ret].
      apply notify_ok. by apply Hr.
    + intros e w4 _ _. apply modify_ok; intros; [by apply settle_error_ok|apply settle_owners].
Qed.

Lemma waitBounded_ok i id w :
  world_ok w → returns i (waitBounded id) (λ o w', ∀ r, o = Some r → task_of id r w') w.
Proof.
  intros Hok. apply returns_bind; [done|]. eapply (returns_mono _ _ _ _ _ _ (λ p w', owned i p (OfTask id) w')).
  2: { apply (returns_fresh number_text sha256 localeCompare ajv i (OfTask id) (λ p s', (p, s', [JobWait p id]))).
       intros w1 _ _. destruct (fresh _ _) as [p s0]. intros Hs0 Hp. split_and!; [done|done|]. intros w2 ->.
       split; [constructor; [by apply (owned_set i p)|constructor]|]. intros w3 Hw3 _.
       eapply owned_later; [exact Hw3|]. by apply owned_set. }
  intros p w1 _ _ Hp. apply returns_attempt.
  - intros a w2 d w' js H. unfold handle in H. destruct a; try (apply bind_Some in H as (? & _ & H)); by simplify_eq.
  - intros a b w2 w3 Hw2 Hok2 H Hw3 _ r ->. unfold handle in H.
    assert (sv_promises (service w2 i) !! p = Some (Ok (Some r))) as Hr.
    { destruct a; try (apply bind_Some in H as (x & Hx & H)); by simplify_eq. }
    destruct (sk_promises _ _ _ (world_service _ _ _ _ i w2 Hok2) _ _ Hr) as (o & Ho & Hd).
    pose proof (owned_later _ _ _ _ _ Hw2 Hp) as Hp2. unfold owned in Hp2. rewrite Ho in Hp2. injection Hp2 as ->.
    eapply task_of_later; [exact Hw3|]. destruct Hd. by split.
Qed.
(** ** Cancelling *)
Lemma cancelling_ok i id w : world_ok w → returns i (tr cancelling id) (task_of id) w.
Proof.
  intros Hok. first_by sync_any. intros authority w1 _ Hok1 _. first_by status_ok.
  intros [current|] w2 _ Hok2 Hc; [|apply returns_throw_now]. specialize (Hc current eq_refl). branch.
  { apply returns_ret. intros w3 Hw3 _. by eapply task_of_later. }
  apply returns_bind; [done|]. eapply (returns_mono _ _ _ _ _ _ (task_of id)).
  2: { destruct (t_cancellation current); [apply returns_ret; intros w3 Hw3 _; by eapply task_of_later|].
       apply transition_updated; [done|]. intros now r _. by eexists _, _, _, _, _, _. }
  intros intended w3 _ Hok3 Hi. first_by check_ok. intros [] w4 Hw4 Hok4 _.
  first_by returns_asks_any. intros executor w5 Hw5 Hok5 _.
  apply returns_bind; [done|]. eapply (returns_mono _ _ _ _ _ _ anything).
  2: { destruct executor; [by apply returns_ret|]. first_by returns_asks_any. intros [p|] w6 _ Hok6 _; [|by apply returns_ret].
       first_by settled_any; [|apply returns_quiet; intros; apply quiet_await]. intros; by apply returns_ret. }
  intros [] w6 Hw6 Hok6 _. first_by returns_asks_any. intros registration w7 Hw7 Hok7 _.
  apply returns_bind; [done|]. eapply (returns_mono _ _ _ _ _ _ anything).
  2: { destruct registration as [r|]; [|by apply returns_ret]. cbv zeta. first_by check_ok. intros [] w8 _ Hok8 _.
       first_by returns_quiet; [|intros; apply quiet_cancel]. intros [] w9 _ Hok9 _.
       first_by check_ok. intros [] w10 _ Hok10 _. apply returns_quiet; intros; apply quiet_observe. }
  intros shown w8 Hw8 Hok8 _. first_by check_ok. intros [] w9 Hw9 Hok9 _.
  assert (∀ w', world_later w9 w' → task_of id intended w') as Hi'.
  { intros w' Hw'. eapply task_of_later; [|exact Hi]. transitivity w4; [done|]. transitivity w5; [done|].
    transitivity w6; [done|]. transitivity w7; [done|]. transitivity w8; [done|]. by transitivity w9. }
  apply returns_bind; [done|]. eapply (returns_mono _ _ _ _ _ _ anything).
  2: { destruct shown as [[[|result]|]|]; try by apply returns_ret. apply complete_ok; [done|]. by apply Hi'. }
  intros [] w10 Hw10 Hok10 _. first_by waitBounded_ok. intros [record|] w11 Hw11 Hok11 Hr.
  { apply returns_ret. intros w12 Hw12 _. eapply task_of_later; [done|]. by apply Hr. }
  first_by status_ok. intros after w12 Hw12 Hok12 Ha.
  assert (∀ w', world_later w12 w' → task_of id intended w') as Hi2.
  { intros w' Hw'. apply Hi'. transitivity w10; [done|]. transitivity w11; [done|]. by transitivity w12. }
  assert (returns i (_ ← tr settleUncertain intended OtherError authority true; tr current_or intended) (task_of id) w12)
    as Hlast.
  { apply returns_bind; [done|]. eapply returns_mono; [|apply settleUncertain_ok; [done|]; by apply Hi2].
    intros [] w13 Hw13 Hok13 _. destruct (Hi2 _ Hw13) as [<- Hk]. by apply current_or_ok. }
  destruct after as [record|]; [|exact Hlast]. branch; [|exact Hlast]. apply returns_ret. intros w13 Hw13 _.
  eapply task_of_later; [done|]. by apply Ha.
Qed.

Lemma cancel_ok i id w : world_ok w → returns i (cancel id) (task_of id) w.
Proof.
  intros Hok. first_by sync_any. intros [] w1 _ Hok1 _. first_by sync_any. intros ? w2 _ Hok2 _.
  first_by pure_any. intros ? w3 _ Hok3 _. apply returns_bind; [done|].
  eapply (returns_mono _ _ _ _ _ _ (λ p w', owned i p (OfTask id) w')).
  { intros p w4 _ Hok4 Hp. by apply await_task_ok. }
  apply returns_block. intros w4 _ Hok4. pose proof (world_service _ _ _ _ i w4 Hok4) as Hs.
  destruct (sv_cancellations (service w4 i) !! id) as [p|] eqn:E.
  - split_and!; [done|done|]. intros w5 ->. split; [constructor|]. intros w6 Hw6 _.
    eapply owned_later; [exact Hw6|]. apply owned_set. by eapply sk_cancellations.
  - cbn -[fresh]. pose proof (fresh_ok _ _ (OfTask id) _ Hs) as Hs'.
    pose proof (owners_fresh _ _ (OfTask id) _ Hs) as Ho. pose proof (fresh_owner (OfTask id) (service w4 i)) as Hp.
    destruct (fresh (OfTask id) (service w4 i)) as [p s']. cbn in *. split_and!; [|done|].
    + apply set_cancellations_ok; [done|]. intros id' q [[<- <-]|[_ Hq]]%lookup_insert_Some; [done|].
      by eapply sk_cancellations.
    + intros w5 ->. split; [constructor; [by apply (owned_set i p)|constructor]|].
      intros w6 Hw6 _. eapply owned_later; [exact Hw6|]. by apply owned_set.
Qed.

Lemma settle_all_ok st ps e s :
  service_ok st s → service_ok st (settle_all ps (Err e) s) ∧ sv_owners (settle_all ps (Err e) s) = sv_owners s.
Proof.
  revert s. induction ps as [|p ps IH]; intros s Hs; [done|]. cbn.
  destruct (IH (settle p (Err e) s)) as [H E]; [by apply settle_error_ok|].
  split; [exact H|exact (eq_trans E (settle_owners _ _ _))].
Qed.

Lemma close_ok i w : returns i close anything w.
Proof.
  apply returns_block. intros w1 _ Hok1. pose proof (world_service _ _ _ _ i w1 Hok1) as Hs.
  destruct (sv_closed (service w1 i)).
  - split_and!; [done|done|]. by intros w2 ->.
  - cbv zeta. destruct (settle_all_ok _ (concat (map snd (map_to_list (sv_waiters (service w1 i)))))
      (stoppedError (wd_now w1)) _ Hs) as [Hs' E].
    split_and!; [|cbn; by rewrite E|by intros w2 ->]. apply set_waiters_ok; [by apply set_state_ok|].
    intros id ps. by rewrite lookup_empty.
Qed.

(** ** Jobs *)
Lemma forget_if_some p id m id' q : forget_if p id m !! id' = Some q → m !! id' = Some q.
Proof. unfold forget_if. case_bool_decide; [|done]. by intros [_ Hq]%lookup_delete_Some. Qed.

Lemma promised_ok (i : nat) p o {B} (value : B → option TaskRecord) (body : task B) after w :
  world_ok w → (owned i p o w ∨ ∀ b, value b = None) →
  returns i body (λ b w', ∀ r, value b = Some r → delivers number_text (wd_store w') o r) w →
  (∀ b st s, service_ok st s → service_ok st (after b s) ∧ sv_owners (after b s) = sv_owners s) →
  returns i (promised p value body after) anything w.
Proof.
  intros Hok Hp Hbody Hafter. apply returns_bind; [done|]. eapply returns_mono; [|by apply returns_settled].
  intros outcome w1 Hw1 Hok1 Ho. apply returns_modify; [|done]. intros w2 Hw2 Hok2.
  destruct (settle_promise_ok number_text (wd_store w2) p (match outcome with Ok b => Ok (value b) | Err e => Err e end)
    (service w2 i)) as [Hs E].
  - exact (world_service _ _ _ _ i w2 Hok2).
  - intros record Er. destruct outcome as [b|e]; [|done]. injection Er as Er.
    destruct Hp as [Hp|Hp]; [|by rewrite Hp in Er]. exists o. split.
    + eapply owned_later; [|exact Hp]. by transitivity w1.
    + eapply delivers_later; [apply Hw2|]. by apply Ho.
  - destruct (Hafter (is_ok outcome) _ _ Hs) as [Hs' E']. split; [exact Hs'|]. by rewrite E', E.
Qed.

(** A promise of a task. *)
Lemma task_delivers (i : nat) {B} (value : B → option TaskRecord) (p : task B) id w :
  returns i p (λ b w', ∀ r, value b = Some r → task_of id r w') w →
  returns i p (λ b w', ∀ r, value b = Some r → delivers number_text (wd_store w') (OfTask id) r) w.
Proof. apply returns_mono. intros b w' _ _ H r Hr. by destruct (H r Hr). Qed.

Lemma result_ok i record handle authority registration w :
  world_ok w → known (wd_store w) record →
  returns i (outcome ← effect (HandleResult handle);
             catch (match outcome with
                    | Ok result => tr complete record result authority (Some registration)
                    | Err e => tr settleUncertain record e authority true
                    end) (λ _, Ret tt)) anything w.
Proof.
  intros Hok Hk. apply returns_bind; [done|]. apply returns_effect.
  - intros a w1 d w' js H. destruct a; by simplify_eq/=.
  - intros _ outcome w1 w2 Hw1 _ _ Hw2 Hok2.
    apply returns_catch; [done| |by intros; apply returns_ret]. apply completion_ok; [done|].
    eapply known_later; [|exact Hk]. transitivity (wd_store w1); [apply Hw1|apply Hw2].
Qed.

(** A job that is given what it needs keeps the world. *)
Lemma start_ok i w j : world_ok w → job_ok i w j → returns i (tr start j) anything w.
Proof.
  intros Hok Hj. destruct j; cbn [start job_ok] in *.
  - eapply promised_ok; [done|by left| |done]. eapply returns_mono; [|by apply run_answers].
    intros r w1 _ _ Ha r' [= <-]. exact Ha.
  - eapply promised_ok; [done|by left| |done]. apply task_delivers. by apply status_ok.
  - eapply promised_ok; [done|by left| |done]. apply task_delivers. eapply returns_mono; [|by apply wait_ok].
    by intros r w1 _ _ Ha r' [= <-].
  - eapply promised_ok; [done|by left| |done]. apply task_delivers. eapply returns_mono; [|by apply cancel_ok].
    by intros r w1 _ _ Ha r' [= <-].
  - eapply promised_ok; [done|by left| |].
    + apply task_delivers. eapply returns_mono; [|by apply cancelling_ok]. by intros r w1 _ _ Ha r' [= <-].
    + intros [] st s Hs; [done|]. split; [|done]. apply set_cancellations_ok; [done|].
      intros id q Hq%forget_if_some. by eapply sk_cancellations.
  - eapply (promised_ok _ _ OfNothing); [done|by right| |done]. eapply returns_mono; [|by apply setAuthority_ok]. done.
  - eapply (promised_ok _ _ OfNothing); [done|by right| |done]. eapply returns_mono; [|by apply recoverRemoteWorker_ok]. done.
  - eapply (promised_ok _ _ OfNothing); [done|by right| |done]. eapply returns_mono; [|by apply recover_pending_ok]. done.
  - destruct Hj as [Hp Hk]. eapply promised_ok; [done|by left| |].
    + apply task_delivers. eapply returns_mono; [|by apply dispatch_ok]. by intros r w1 _ _ Ha r' [= <-].
    + intros b st s Hs. split; [|done]. apply set_dispatches_ok; [done|].
      intros id q Hq%forget_if_some. by eapply sk_dispatches.
  - by apply result_ok.
  - pose proof (result_ok i record handle authority registration w Hok Hj) as H.
    apply returns_bind; [done|]. apply returns_effect.
    + intros a w1 d w' js H'. destruct a; by simplify_eq/=.
    + intros _ outcome w1 w2 Hw1 _ _ Hw2 Hok2. apply returns_bind; [done|].
      eapply (returns_mono _ _ _ _ _ _ anything).
      * intros [] w3 _ _ _. apply modify_ok; [|done]. intros st s. apply set_remoteCompletions_ok.
      * apply returns_catch; [done| |by intros; apply returns_ret]. apply completion_ok; [done|].
        eapply known_later; [|exact Hj]. transitivity (wd_store w1); [apply Hw1|apply Hw2].
  - apply close_ok.
Qed.

(** ** Histories *)
Abbreviation tasks_pool := (pool eff task_error world nat).
Definition tasks_ok (q : tasks_pool) : Prop := pool_ok handle world_ok world_later job_ok q.

Lemma start_sound i w j :
  world_ok w → job_ok i w j → wp handle world_ok world_later job_ok i (tr start j) (λ _ _, True) w.
Proof.
  intros Hok Hj. eapply wp_mono; [apply _| |by apply start_ok]. done.
Qed.

Lemma no_tasks_ok : tasks_ok no_tasks.
Proof.
  split; [|constructor]. split_and!.
  - split; cbn; intros *; by rewrite lookup_empty.
  - intros i. apply new_service_ok.
  - constructor.
Qed.

Lemma happens_ok q h :
  tasks_ok q → tasks_ok (happens number_text sha256 localeCompare ajv q h) ∧
  world_later (p_world q) (p_world (happens number_text sha256 localeCompare ajv q h)).
Proof.
  intros Hq. pose proof Hq as [Hok _]. destruct h as [thread a|i m|now]; cbn [happens].
  - apply run_at_sound; [apply _|apply start_sound|done].
  - pose proof (world_service _ _ _ _ i _ Hok) as Hs.
    pose proof (fresh_ok _ _ (owner_of m) _ Hs) as Hs'. pose proof (owners_fresh _ _ (owner_of m) _ Hs) as Ho.
    pose proof (fresh_owner (owner_of m) (service (p_world q) i)) as Hp.
    destruct (fresh (owner_of m) (service (p_world q) i)) as [p s]. cbn [fst snd] in *.
    destruct (set_service_ok number_text sha256 localeCompare ajv i (p_world q) s Hok Hs' Ho) as [Hok' Hl].
    split; [|exact Hl].
    pose proof (world_sound handle world_ok world_later job_ok _ q Hq Hok' Hl) as Hq'.
    refine (thread_sound handle (tr start) world_ok world_later job_ok start_sound i (job_of m p) _ Hq' _).
    pose proof (owned_set i p (owner_of m) (p_world q) s Hp) as Hown. by destruct m.
  - set (w := {| wd_store := _; wd_services := _; wd_now := now; wd_submissions := _ |}).
    assert (world_ok w) as Hw by exact Hok. assert (world_later (p_world q) w) as Hl by done.
    split; [|exact Hl]. exact (world_sound handle world_ok world_later job_ok w q Hq Hw Hl).
Qed.

Lemma history_ok q hs :
  tasks_ok q → tasks_ok (history number_text sha256 localeCompare ajv q hs) ∧
  world_later (p_world q) (p_world (history number_text sha256 localeCompare ajv q hs)).
Proof.
  revert q. induction hs as [|h hs IH]; intros q Hq; [by split|].
  destruct (happens_ok q h Hq) as [Hq' Hl]. destruct (IH _ Hq') as [Hq2 Hl2]. split; [exact Hq2|].
  etransitivity; [exact Hl|exact Hl2].
Qed.
End calls.
