(* ===== verification/TaskTheorems.v ===== *)
(** * What the task service promises

    The theorems about every history of TaskService.v: any number of services on
    one store, their calls interleaved in any way, and an environment that
    answers as it likes. *)

From S2P Require Import Prelude JsString Collections JsValue Identity JsonText Canonical Time Placement Execution Task Async TaskService TaskLaws TaskPrograms TaskRuns TaskCalls.

Open Scope Z_scope.

#[local] Arguments canonical : simpl never.
#[local] Arguments request_json : simpl never.
#[local] Arguments parseTaskRecord : simpl never.

(** ** A history

    One service admits and dispatches a task; its cancellation is recorded;
    then the executor fails. *)
Definition sample_request : RunTaskRequest :=
  {| rq_applicationId := js "app"; rq_pluginId := js "plugin"; rq_componentId := js "main"; rq_input := JNull;
     rq_deadline := toISOString 5000000; rq_orphanPolicy := OrphanCancel; rq_operationId := Some (js "op-1") |}.
Definition sample_executor : Executor := {| ex_id := js "local"; ex_type := Process; ex_resumes := false |}.
Definition sample_execution_target : TaskExecutionTarget :=
  {| tg_instanceId := js "instance-1"; tg_deploymentGeneration := js "3";
     tg_artifactDigest := js "sha256:" ++ repeat 97%N 64;
     tg_executor := {| tx_id := js "local"; tx_type := Process; tx_workerId := None |} |}.
Definition sample_task_binding : ExecutionBinding :=
  match createExecutionBinding plain_number (λ t, t) compareText (λ _ _, true)
          (binding_identity sample_request sample_execution_target) sample_content with
  | Ok b => b
  | Err _ => sample_binding
  end.
Definition sample_selection : TaskExecutorSelection :=
  {| sl_target := sample_execution_target; sl_binding := sample_task_binding; sl_executor := sample_executor |}.
Definition sample_authority : RuntimeAuthority := {| au_resource := js "main"; au_epoch := js "1" |}.
Definition sample_handle : ExecutionHandle := {| h_taskId := js "task-1"; h_attemptId := js "attempt-1" |}.

Abbreviation sample_history := (history plain_number (λ t, t) compareText (λ _ _, true)).
Definition steps (n thread : nat) : list happening := repeat (Runs thread Proceed) n.

(** The service takes authority and is asked to run the task. *)
Definition admission_steps : list happening :=
  [Calls 0 (CallSetAuthority (Some sample_authority))] ++ steps 20 0 ++
  [Calls 0 (CallRun sample_request)] ++ steps 20 1 ++
  [Runs 1 (Identifies (js "task-1") (js "attempt-1")); Runs 1 (Selects (Selected sample_selection))] ++ steps 30 1 ++
  steps 10 2 ++ [Runs 2 (Submits (Ok sample_handle))] ++ steps 30 2 ++ steps 5 1.
(** The cancellation is recorded, and the executor told. *)
Definition cancellation_steps : list happening :=
  [Calls 0 (CallCancel (js "task-1"))] ++ steps 10 4 ++ steps 30 5 ++ [Runs 5 (CancelsAttempt (Ok tt))] ++ steps 5 5 ++
  [Runs 5 (Shows (Ok (Observed (Some (AttemptOpen true)))))] ++ steps 10 5.
(** The result of the attempt is lost. *)
Definition failure_steps : list happening := [Runs 3 (Finishes (Err OtherError))] ++ steps 30 3.
(** The same operation is asked for again, elsewhere. *)
Definition replay_steps : list happening :=
  [Calls 1 (CallSetAuthority (Some sample_authority))] ++ steps 20 4 ++ [Calls 1 (CallRun sample_request)] ++
  steps 30 5.

Definition task_at (q : pool eff task_error world nat) (id : jstring) : option TaskRecord :=
  fst <$> ts_tasks (wd_store (p_world q)) !! id.

Section theorems.
Context (number_text : jsnum → jstring) (sha256 : jstring → jstring) (localeCompare : jstring → jstring → Z).
Context (ajv : schema_name → json → bool).
Context (Htext : number_text_ok number_text).
Abbreviation all_ok := (tasks_ok number_text sha256 localeCompare ajv).

Lemma reached_ok hs : all_ok (history number_text sha256 localeCompare ajv no_tasks hs).
Proof. apply history_ok; [done|apply no_tasks_ok]. Qed.

Lemma history_app q hs hs' :
  history number_text sha256 localeCompare ajv q (hs ++ hs') =
  history number_text sha256 localeCompare ajv (history number_text sha256 localeCompare ajv q hs) hs'.
Proof. apply foldl_app. Qed.

Lemma result_identity t r : parseTaskRecord number_text sha256 localeCompare ajv t = Ok t → t_result t = Some r →
  rs_taskId r = t_taskId t ∧ rs_attemptId r = t_attemptId t.
Proof.
  intros (_ & _ & H)%parseTaskRecord_ok Er. specialize (H r Er). unfold result_matches in H.
  apply andb_true_iff in H as [[H1%streq_true H2%streq_true]%andb_true_iff _]. done.
Qed.

(** What a later store holds of a record. *)
Definition evolves (r r' : TaskRecord) : Prop :=
  same_task r r' ∧ rank (t_state r) ≤ rank (t_state r') ∧ (t_state r = Terminal → r' = r).

Lemma stored_later st st' id r v :
  store_later st st' → ts_tasks st !! id = Some (r, v) →
  ∃ r' v', ts_tasks st' !! id = Some (r', v') ∧ evolves r r' ∧ v ≤ v'.
Proof.
  intros (_ & Ht & _) H. destruct (Ht _ _ _ H) as (r' & v' & H' & C). exists r', v'. split; [done|].
  destruct C as [[-> ->]|[Hv (Hnt & Hs & Hr)]]; [done|]. split; [|lia]. by split_and!.
Qed.

(** What a run of an operation returned. *)
Lemma run_returns st s p request r op :
  store_ok number_text sha256 localeCompare ajv st → service_ok number_text st s →
  sv_owners s !! p = Some (OfRun request) → sv_promises s !! p = Some (Ok (Some r)) → rq_operationId request = Some op →
  ∃ e, ts_operations st !! op = Some e ∧ oi_taskId e = t_taskId r ∧ oi_attemptId e = t_attemptId r ∧
       known st r ∧ same_request request (t_request r).
Proof.
  intros Hst Hs Ho Hr Hop. destruct (sk_promises _ _ _ Hs _ _ Hr) as (o & Ho' & Hk & Hd). rewrite Ho in Ho'.
  injection Ho' as <-. destruct Hd as [Ha Hdata]. destruct (Ha op Hop) as (e & He & E1 & E2 & E3). exists e.
  split_and!; try done. destruct (so_operation _ _ _ _ _ Hst _ _ He) as (r' & v & Hr' & _ & Ef).
  destruct (so_task _ _ _ _ _ Hst _ _ _ Hr') as (Eid & _ & Hp). apply record_parsed in Hp.
  destruct Hk as (r2 & v2 & Hr2 & (_ & _ & E & _)). rewrite <- E1, Hr' in Hr2. injection Hr2 as <- <-. rewrite E.
  eapply request_text_inj; try done. congruence.
Qed.

Lemma record_binding t target binding :
  parseTaskRecord number_text sha256 localeCompare ajv t = Ok t → t_target t = Some target → t_binding t = Some binding →
  is_ok (assertExecutionBindingMatches number_text sha256 localeCompare ajv
           (binding_identity (t_request t) target) binding) = true.
Proof.
  unfold parseTaskRecord. intros (? & _ & (? & _ & (? & _ & (u & H & _)%bind_ok)%bind_ok)%bind_ok)%bind_ok Et Eb.
  rewrite Eb in H. cbn [optionally] in H. unfold check_binding in H. rewrite Et in H.
  apply bind_ok in H as (? & H & _). by rewrite H.
Qed.
End theorems.

(** ** Properties *)

(** C5. A stored task never changes what it is: at any later point of any
    history its record has the same identity, attempt, request, target, binding
    and creation time; its state never goes back, and a record that has ended
    stays as it is, to the letter. *)
Theorem task_records_evolve number_text sha256 localeCompare ajv (hs hs' : list happening) id r v :
  number_text_ok number_text →
  ts_tasks (wd_store (p_world (history number_text sha256 localeCompare ajv no_tasks hs))) !! id = Some (r, v) →
  ∃ r' v', ts_tasks (wd_store (p_world (history number_text sha256 localeCompare ajv no_tasks (hs ++ hs')))) !! id =
             Some (r', v') ∧
           evolves r r' ∧ v ≤ v'.
Proof.
  intros Htext H. rewrite history_app. destruct (history_ok _ sha256 localeCompare ajv Htext _ hs'
    (reached_ok _ sha256 localeCompare ajv Htext hs)) as [_ [Hst _]]. by eapply stored_later.
Qed.

(** C36. The store of tasks is well formed at every point of every history: a
    record is kept under its own identity and passes the parser, so it has ended
    exactly when it has a result, and the result names its task and attempt; an
    operation names a stored task, its attempt and the text of its request; and
    the task of a request that has an operation is the task of the operation. *)
Theorem task_store_well_formed number_text sha256 localeCompare ajv (hs : list happening) :
  number_text_ok number_text →
  let st := wd_store (p_world (history number_text sha256 localeCompare ajv no_tasks hs)) in
  (∀ id r v, ts_tasks st !! id = Some (r, v) →
     t_taskId r = id ∧ parseTaskRecord number_text sha256 localeCompare ajv r = Ok r ∧
     (t_state r = Terminal ↔ is_Some (t_result r)) ∧
     (∀ x, t_result r = Some x → rs_taskId x = id ∧ rs_attemptId x = t_attemptId r) ∧
     (∀ op, rq_operationId (t_request r) = Some op → ∃ i, ts_operations st !! op = Some i ∧ oi_taskId i = id)) ∧
  (∀ op i, ts_operations st !! op = Some i →
     ∃ r v, ts_tasks st !! oi_taskId i = Some (r, v) ∧ t_attemptId r = oi_attemptId i ∧
            canonical number_text (request_json (t_request r)) = oi_fingerprint i).
Proof.
  intros Htext st. destruct (reached_ok _ sha256 localeCompare ajv Htext hs) as [[Hok _] _]. fold st in Hok.
  split; [|apply Hok]. intros id r v H. destruct (so_task _ _ _ _ _ Hok _ _ _ H) as (<- & _ & Hp).
  split; [done|]. split; [done|]. split; [by eapply parseTaskRecord_ok in Hp as (_ & ? & _)|]. split.
  - intros x. by eapply result_identity.
  - intros op Hop. by eapply so_admitted.
Qed.

(** C4. One operation is one task: whatever services two runs were asked of, and
    whatever failed between, if both runs of one operation return records then
    the records are of one task and one attempt, and the two requests, and the
    one that was stored, are the same up to the order of the fields of their
    inputs. *)
Theorem operation_runs_one_task number_text sha256 localeCompare ajv (hs : list happening) i j p q request request' r r' op :
  number_text_ok number_text →
  let w := p_world (history number_text sha256 localeCompare ajv no_tasks hs) in
  sv_owners (service w i) !! p = Some (OfRun request) → sv_promises (service w i) !! p = Some (Ok (Some r)) →
  sv_owners (service w j) !! q = Some (OfRun request') → sv_promises (service w j) !! q = Some (Ok (Some r')) →
  rq_operationId request = Some op → rq_operationId request' = Some op →
  t_taskId r = t_taskId r' ∧ t_attemptId r = t_attemptId r' ∧ same_task r r' ∧
  same_request request (t_request r) ∧ same_request request' (t_request r').
Proof.
  intros Htext w Hp Hr Hq Hr' Hop Hop'. destruct (reached_ok _ sha256 localeCompare ajv Htext hs) as [(Hst & Hsv & _) _].
  fold w in Hst, Hsv. destruct (run_returns _ sha256 localeCompare ajv Htext _ _ _ _ _ op Hst (Hsv i) Hp Hr Hop) as (e & He & E1 & E2 & S1).
  destruct (run_returns _ sha256 localeCompare ajv Htext _ _ _ _ _ op Hst (Hsv j) Hq Hr' Hop') as (e' & He' & E1' & E2' & S2).
  rewrite He in He'. injection He' as <-. destruct S1 as [Hk1 S1], S2 as [Hk2 S2].
  split_and!; try congruence; try done. eapply known_same_task; [exact Hk1|exact Hk2|congruence].
Qed.

(** C6. What is executed was admitted: every submission of any service to any
    executor carries the identity, attempt, input and deadline of a stored task,
    goes to the executor its target names, and carries a binding that was
    checked to be that target's. *)
Theorem executes_what_was_admitted number_text sha256 localeCompare ajv (hs : list happening) i x e :
  number_text_ok number_text →
  (i, x, e) ∈ wd_submissions (p_world (history number_text sha256 localeCompare ajv no_tasks hs)) →
  ∃ r v target binding,
    ts_tasks (wd_store (p_world (history number_text sha256 localeCompare ajv no_tasks hs))) !! er_taskId e = Some (r, v) ∧
    t_target r = Some target ∧ t_binding r = Some binding ∧ e = execution_request r target binding ∧
    ex_id x = tx_id (tg_executor target) ∧ ex_type x = tx_type (tg_executor target) ∧
    is_ok (assertExecutionBindingMatches number_text sha256 localeCompare ajv
             (binding_identity (t_request r) target) binding) = true.
Proof.
  intros Htext H. destruct (reached_ok _ sha256 localeCompare ajv Htext hs) as [(Hst & _ & Hsub) _].
  rewrite Forall_forall in Hsub. destruct (Hsub _ H) as (q & target & binding & (r & v & Hr & E) & Et & Eb & Ee & Hx).
  cbn in Ee, Hx. subst e. destruct E as (E1 & E2 & E3 & E4 & E5 & _). rewrite E4 in Et. rewrite E5 in Eb.
  exists r, v, target, binding. split_and!; try done.
  - unfold execution_request. by rewrite E1, E2, E3.
  - apply Hx.
  - apply Hx.
  - eapply record_binding; [|exact Et|exact Eb]. by destruct (so_task _ _ _ _ _ Hst _ _ _ Hr) as (_ & _ & ?).
Qed.

(** ** A cancellation that is lost *)
Abbreviation after hs := (p_world (sample_history no_tasks hs)).
Definition state_and_intent (hs : list happening) : option (TaskRecordState * bool) :=
  r ← fst <$> ts_tasks (wd_store (after hs)) !! js "task-1";
  Some (t_state r, match t_cancellation r with Some _ => true | None => false end).

(** The record of an uncertain end is built from the record its caller held,
    not from the stored one: a cancellation that was recorded after the task
    began to run is no longer in the record the task ends with. *)
Theorem cancellation_lost :
  state_and_intent (admission_steps ++ cancellation_steps) = Some (Running, true) ∧
  state_and_intent (admission_steps ++ cancellation_steps ++ failure_steps) = Some (Terminal, false).
Proof. split; vm_compute; reflexivity. Qed.

(** ** Witnesses *)
Lemma some_of {A} (o : option A) : (match o with Some _ => true | None => false end) = true → is_Some o.
Proof. destruct o; [by eexists|done]. Qed.

Lemma admitted_at : is_Some (ts_tasks (wd_store (after admission_steps)) !! js "task-1").
Proof. apply some_of. vm_compute. reflexivity. Qed.

Lemma task_records_evolve_witness :
  ∃ r v, ts_tasks (wd_store (after admission_steps)) !! js "task-1" = Some (r, v) ∧
  ∃ r' v', ts_tasks (wd_store (after (admission_steps ++ failure_steps))) !! js "task-1" = Some (r', v') ∧
           evolves r r' ∧ v ≤ v'.
Proof.
  destruct admitted_at as [[r v] H]. exists r, v. split; [exact H|].
  exact (task_records_evolve plain_number (λ t, t) compareText (λ _ _, true) admission_steps failure_steps _ r v
    plain_number_ok H).
Defined.

Lemma task_store_well_formed_witness :
  number_text_ok plain_number ∧
  ∃ r v, ts_tasks (wd_store (after admission_steps)) !! js "task-1" = Some (r, v) ∧
         (t_state r = Terminal ↔ is_Some (t_result r)).
Proof.
  split; [exact plain_number_ok|]. destruct admitted_at as [[r v] H]. exists r, v. split; [exact H|].
  destruct (task_store_well_formed plain_number (λ t, t) compareText (λ _ _, true) admission_steps plain_number_ok)
    as [Ht _].
  destruct (Ht _ _ _ H) as (_ & _ & E & _). exact E.
Defined.

(** The promises of the two runs. *)
Definition promised_record (w : world) (i p : nat) : option TaskRecord :=
  match sv_promises (service w i) !! p with Some (Ok o) => o | _ => None end.
Lemma promised_record_some w i p r :
  promised_record w i p = Some r → sv_promises (service w i) !! p = Some (Ok (Some r)).
Proof. unfold promised_record. destruct (sv_promises (service w i) !! p) as [[[x|]|]|]; by intros [=->]. Qed.

Definition twice : list happening := admission_steps ++ failure_steps ++ replay_steps.
Lemma first_run : is_Some (promised_record (after twice) 0 1).
Proof. apply some_of. vm_compute. reflexivity. Qed.
Lemma second_run : is_Some (promised_record (after twice) 1 1).
Proof. apply some_of. vm_compute. reflexivity. Qed.

Lemma operation_runs_one_task_witness :
  sv_owners (service (after twice) 0) !! 1%nat = Some (OfRun sample_request) ∧
  sv_owners (service (after twice) 1) !! 1%nat = Some (OfRun sample_request) ∧
  ∃ r r', sv_promises (service (after twice) 0) !! 1%nat = Some (Ok (Some r)) ∧
          sv_promises (service (after twice) 1) !! 1%nat = Some (Ok (Some r')) ∧
          t_taskId r = t_taskId r' ∧ t_attemptId r = t_attemptId r' ∧ same_task r r'.
Proof.
  assert (sv_owners (service (after twice) 0) !! 1%nat = Some (OfRun sample_request)) as H0 by (vm_compute; reflexivity).
  assert (sv_owners (service (after twice) 1) !! 1%nat = Some (OfRun sample_request)) as H1 by (vm_compute; reflexivity).
  split; [exact H0|]. split; [exact H1|].
  destruct first_run as [r Hr%promised_record_some], second_run as [r' Hr'%promised_record_some]. exists r, r'.
  split; [exact Hr|]. split; [exact Hr'|].
  destruct (operation_runs_one_task plain_number (λ t, t) compareText (λ _ _, true) twice 0 1 1 1
    sample_request sample_request r r' (js "op-1") plain_number_ok H0 Hr H1 Hr' eq_refl eq_refl) as (E1 & E2 & E3 & _).
  split; [exact E1|]. split; [exact E2|exact E3].
Defined.

Lemma one_submission : match wd_submissions (after admission_steps) with [_] => true | _ => false end = true.
Proof. vm_compute. reflexivity. Qed.

Lemma executes_what_was_admitted_witness :
  ∃ i x e, (i, x, e) ∈ wd_submissions (after admission_steps) ∧
  ∃ r v target binding,
    ts_tasks (wd_store (after admission_steps)) !! er_taskId e = Some (r, v) ∧
    t_target r = Some target ∧ t_binding r = Some binding ∧ e = execution_request r target binding ∧
    ex_id x = tx_id (tg_executor target) ∧ ex_type x = tx_type (tg_executor target) ∧
    is_ok (assertExecutionBindingMatches plain_number (λ t, t) compareText (λ _ _, true)
             (binding_identity (t_request r) target) binding) = true.
Proof.
  pose proof one_submission as H1.
  destruct (wd_submissions (after admission_steps)) as [|[[i x] e] [|]] eqn:E; try discriminate H1.
  assert ((i, x, e) ∈ wd_submissions (after admission_steps)) as H.
  { rewrite E. apply list_elem_of_singleton. reflexivity. }
  exists i, x, e. split; [rewrite <- E; exact H|].
  exact (executes_what_was_admitted plain_number (λ t, t) compareText (λ _ _, true) admission_steps i x e
    plain_number_ok H).
Defined.
