(* ===== verification/Plan.v ===== *)
(** * The reconcile plan

    runtime/src/reconcile/plan.ts: the identities of a component's instances and
    effects, and the plan that says which effect each instance needs next.
    Diagnostics are their codes. Parameters: Node's [domainToASCII] and the
    hexadecimal SHA-256 of a text. Activations are canonical decimals, as every
    loader parses them. *)

From S2P Require Import Prelude JsString Collections Regex JsValue Identity JsonText Permission Lifecycle Placement.

(** ** Data *)
Inductive ReconcileEffectKind := EffectDrain | EffectPrepare | EffectStart | EffectStop.
#[export] Instance effect_kind_eq_dec : EqDecision ReconcileEffectKind.
Proof. solve_decision. Defined.
Definition kind_text (k : ReconcileEffectKind) : jstring :=
  match k with
  | EffectDrain => js "drain" | EffectPrepare => js "prepare"
  | EffectStart => js "start" | EffectStop => js "stop"
  end.

Abbreviation Activation := jstring.

Inductive PluginDeploymentState := Active | Disabled.
#[export] Instance deployment_state_eq_dec : EqDecision PluginDeploymentState.
Proof. solve_decision. Defined.
Record PluginDeployment := {
  d_applicationId : jstring;
  d_pluginId : jstring;
  d_artifactDigest : jstring;
  d_generation : jstring;
  d_state : PluginDeploymentState;
}.

(** A persisted instance; [activation] is absent from the oldest records. *)
Record PersistedComponentInstance := {
  i_instanceId : jstring;
  i_activation : option Activation;
  i_hasStarted : option bool;
  i_applicationId : jstring;
  i_pluginId : jstring;
  i_componentId : jstring;
  i_deploymentGeneration : jstring;
  i_observedGeneration : jstring;
  i_lifecycle : ComponentLifecycleState;
  i_executor : ExecutorKind;
  i_workerId : option jstring;
  i_artifactDigest : option jstring;
  i_executionBinding : option json;
  i_attempt : option Z;
  i_retryAt : option jstring;
  i_retryEffect : option ReconcileEffectKind;
  i_diagnostic : option jstring;
  i_completedOperationId : option jstring;
  i_completedOperationIds : option (list jstring);
}.
(** An instance as it is loaded. *)
Record ComponentInstance := {
  ci_value : PersistedComponentInstance;
  ci_activation : Activation;
  ci_legacyActivation : bool;
  ci_revision : Z;
}.

(** The pre-execution gate of a deployment that has an artifact. *)
Record ArtifactDeploymentGate := {
  ag_components : list PluginComponent;
  ag_capability_ok : bool;
  ag_capability_diagnostics : list jstring;
  ag_permission_allowed : bool;
  ag_permission_diagnostics : list jstring;
  ag_granted : option json;
  ag_order : list (jstring * jstring);
}.

Record ReconcileEffect := {
  e_kind : ReconcileEffectKind;
  e_activation : Activation;
  e_operationId : jstring;
  e_messageId : jstring;
  e_instanceId : jstring;
  e_applicationId : jstring;
  e_pluginId : jstring;
  e_componentId : jstring;
  e_deploymentGeneration : jstring;
  e_artifactDigest : jstring;
  e_executor : ExecutorKind;
  e_workerId : option jstring;
  e_executionBinding : option json;
}.
Record ReconcilePlanStep := {
  s_effect : ReconcileEffect;
  s_expectedRevision : option Z;   (* [None] is "absent" *)
  s_currentLifecycle : ComponentLifecycleState;
  s_legacyActivation : bool;
}.
Record ReconcileSnapshot := {
  sn_deployment : PluginDeployment;
  sn_gate : ArtifactDeploymentGate;
  sn_instances : list ComponentInstance;
  sn_now : jstring;
  sn_supportedExecutors : list ExecutorKind;
  sn_workers : list PlacementWorker;
  sn_suspended : bool;
  sn_activations : jsmap jstring Activation;
}.
Inductive plan_diagnostic :=
| GateDiagnostic (code : jstring)
| DEPLOYMENT_INSTANCE_INCONSISTENT (componentId : jstring) (instanceIds : list jstring)
| PlacementFailed (code : PlacementCode) (componentId : jstring).
Record ReconcilePlan := {
  rp_deploymentGeneration : jstring;
  rp_blocked : bool;
  rp_diagnostics : list plan_diagnostic;
  rp_steps : list ReconcilePlanStep;
}.

Record GenerationIdentity := { gi_applicationId : jstring; gi_pluginId : jstring; gi_generation : jstring }.
Record EffectIdentities := { ei_instanceId : jstring; ei_operationId : jstring; ei_messageId : jstring }.

Section plan.
Context (domainToASCII : jstring → jstring) (sha256 : jstring → jstring).

(** ** Identities *)
Definition replaceAll (c : N) (by_ : jstring) (s : jstring) : jstring :=
  concat (map (λ x, if (x =? c)%N then by_ else [x]) s).
Definition escape_part (part : jstring) : jstring :=
  replaceAll 46 (js "_d") (replaceAll 95 (js "_u") part).
(** [JSON.stringify(parts)] of strings. *)
Definition parts_text (parts : list jstring) : jstring :=
  stringify (λ _, []) (JArr (map JStr parts)).
Definition portableStableId (parts : list jstring) : jstring :=
  let candidate := joinc 46 (map escape_part parts) in
  if (length candidate <=? 128)%nat then candidate
  else take 63 candidate ++ js "." ++ sha256 (parts_text parts).

Definition generation_of (d : PluginDeployment) : GenerationIdentity :=
  {| gi_applicationId := d_applicationId d; gi_pluginId := d_pluginId d; gi_generation := d_generation d |}.

Definition instance_parts (d : GenerationIdentity) (componentId : jstring) : list jstring :=
  [gi_applicationId d; gi_pluginId d; componentId; js "g" ++ gi_generation d].

Definition identities_at (instanceId effectId : jstring) : result exn EffectIdentities :=
  operationId ← parseOperationId (VStr effectId);
  messageId ← parseMessageId (VStr effectId);
  Ok {| ei_instanceId := instanceId; ei_operationId := operationId; ei_messageId := messageId |}.

Definition reconcileEffectIdentities (d : GenerationIdentity) (componentId : jstring)
    (kind : ReconcileEffectKind) (activation : Activation) : result exn EffectIdentities :=
  canonicalActivation ← parseActivation (VStr activation);
  let parts := instance_parts d componentId ++ [js "a" ++ canonicalActivation] in
  identities_at (portableStableId parts)
    (portableStableId (js "reconcile" :: parts ++ [kind_text kind])).

Definition legacyReconcileInstanceId (d : GenerationIdentity) (componentId : jstring) : jstring :=
  portableStableId (instance_parts d componentId).

Definition legacyReconcileEffectIdentities (d : GenerationIdentity) (componentId : jstring)
    (kind : ReconcileEffectKind) : result exn EffectIdentities :=
  identities_at (legacyReconcileInstanceId d componentId)
    (portableStableId (js "reconcile" :: instance_parts d componentId ++ [kind_text kind])).

Definition identities (legacy : bool) (d : GenerationIdentity) (componentId : jstring)
    (kind : ReconcileEffectKind) (activation : Activation) : result exn EffectIdentities :=
  if legacy then legacyReconcileEffectIdentities d componentId kind
  else reconcileEffectIdentities d componentId kind activation.

(** ** Steps *)
Definition step (deployment : PluginDeployment) (componentId : jstring) (kind : ReconcileEffectKind)
    (placement : ComponentPlacement) (expectedRevision : option Z)
    (currentLifecycle : ComponentLifecycleState) (activation : Activation) (legacyActivation : bool)
    (executionBinding : option json) : result exn ReconcilePlanStep :=
  i ← identities legacyActivation (generation_of deployment) componentId kind activation;
  Ok {| s_effect :=
          {| e_kind := kind; e_activation := activation;
             e_operationId := ei_operationId i; e_messageId := ei_messageId i;
             e_instanceId := ei_instanceId i;
             e_applicationId := d_applicationId deployment; e_pluginId := d_pluginId deployment;
             e_componentId := componentId; e_deploymentGeneration := d_generation deployment;
             e_artifactDigest := d_artifactDigest deployment;
             e_executor := cpl_executor placement; e_workerId := cpl_workerId placement;
             e_executionBinding := executionBinding |};
        s_expectedRevision := expectedRevision;
        s_currentLifecycle := currentLifecycle;
        s_legacyActivation := legacyActivation |}.

(** The step of a loaded instance. *)
Definition instance_step (deployment : PluginDeployment) (instance : ComponentInstance)
    (kind : ReconcileEffectKind) (componentId : jstring) (placement : ComponentPlacement)
    (activation : Activation) : result exn (option ReconcilePlanStep) :=
  s ← step deployment componentId kind placement (Some (ci_revision instance))
        (i_lifecycle (ci_value instance)) activation (ci_legacyActivation instance)
        (i_executionBinding (ci_value instance));
  Ok (Some s).

Definition later (retryAt : option jstring) (now : jstring) : bool :=
  match retryAt with Some t => str_ltb now t | None => false end.

Definition completed (i : PersistedComponentInstance) (operationId : jstring) : bool :=
  bool_decide (i_completedOperationId i = Some operationId) ||
  match i_completedOperationIds i with Some ids => includes ids operationId | None => false end.

Definition old_deployment (deployment : PluginDeployment) (i : PersistedComponentInstance) : PluginDeployment :=
  {| d_applicationId := d_applicationId deployment; d_pluginId := d_pluginId deployment;
     d_artifactDigest := default (d_artifactDigest deployment) (i_artifactDigest i);
     d_generation := i_deploymentGeneration i; d_state := d_state deployment |}.

Definition oldInstanceStep (deployment : PluginDeployment) (instance : ComponentInstance) (now : jstring)
  : result exn (option ReconcilePlanStep) :=
  let i := ci_value instance in
  let oldDeployment := old_deployment deployment i in
  let placement := {| cpl_executor := i_executor i; cpl_workerId := i_workerId i |} in
  let to kind := instance_step oldDeployment instance kind (i_componentId i) placement (ci_activation instance) in
  match i_lifecycle i with
  | CpFailed =>
      match i_retryEffect i with
      | Some kind => if later (i_retryAt i) now then Ok None else to kind
      | None => Ok None
      end
  | CpDraining =>
      drain ← identities (ci_legacyActivation instance) (generation_of oldDeployment) (i_componentId i)
                EffectDrain (ci_activation instance);
      if negb (completed i (ei_operationId drain)) then to EffectDrain else to EffectStop
  | CpStopping => to EffectStop
  | CpStopped => Ok None
  | _ => to EffectDrain
  end.

Definition currentInstanceStep (snapshot : ReconcileSnapshot) (instance : option ComponentInstance)
    (componentId : jstring) (placement : ComponentPlacement) (activation : Activation)
  : result exn (option ReconcilePlanStep) :=
  let prepare_new :=
    s ← step (sn_deployment snapshot) componentId EffectPrepare placement None CpCreated activation false None;
    Ok (Some s) in
  match instance with
  | None => prepare_new
  | Some instance =>
      let i := ci_value instance in
      let to kind := instance_step (sn_deployment snapshot) instance kind componentId placement activation in
      if bool_decide (i_diagnostic i = Some (js "LIFECYCLE_RESTORE_FAILED")) && later (i_retryAt i) (sn_now snapshot)
      then Ok None
      else
        match i_lifecycle i with
        | CpStopped => prepare_new
        | CpCreated => to EffectPrepare
        | CpPreparing | CpStarting => to EffectStart
        | CpDraining | CpStopping => to EffectStop
        | CpFailed =>
            match i_retryEffect i with
            | Some kind => if later (i_retryAt i) (sn_now snapshot) then Ok None else to kind
            | None => Ok None
            end
        | CpReady | CpDegraded => Ok None
        end
  end.

(** ** The plan *)
Definition gate_diagnostics (gate : ArtifactDeploymentGate) : list plan_diagnostic :=
  map GateDiagnostic (ag_capability_diagnostics gate ++ ag_permission_diagnostics gate).

Definition of_component (deployment : PluginDeployment) (componentId : jstring) (instance : ComponentInstance) : bool :=
  streq (i_componentId (ci_value instance)) componentId &&
  streq (i_deploymentGeneration (ci_value instance)) (d_generation deployment).

Definition live (instance : ComponentInstance) : bool :=
  negb (bool_decide (i_lifecycle (ci_value instance) = CpFailed)) &&
  negb (bool_decide (i_lifecycle (ci_value instance) = CpStopped)).

Definition inconsistent_components (deployment : PluginDeployment) (instances : list ComponentInstance)
    (components : list PluginComponent) : list plan_diagnostic :=
  omap (λ component,
    let live_instances :=
      List.filter (λ i, of_component deployment (pc_componentId component) i && live i) instances in
    if (1 <? length live_instances)%nat
    then Some (DEPLOYMENT_INSTANCE_INCONSISTENT (pc_componentId component)
                 (map (λ i, i_instanceId (ci_value i)) live_instances))
    else None) components.

(** The highest activation of the instances, the first of equals. *)
Definition highest_activation (instances : list ComponentInstance) : option Activation :=
  foldl (λ highest instance,
    match highest with
    | None => Some (ci_activation instance)
    | Some h => if (decimal_value h <? decimal_value (ci_activation instance))%Z
                then Some (ci_activation instance) else highest
    end) None instances.

Definition obsolete (snapshot : ReconcileSnapshot) (instance : ComponentInstance) : bool :=
  bool_decide (d_state (sn_deployment snapshot) = Disabled) ||
  negb (streq (i_deploymentGeneration (ci_value instance)) (d_generation (sn_deployment snapshot))) ||
  sn_suspended snapshot.

Definition placement_input (snapshot : ReconcileSnapshot) (component : PluginComponent) : PlacementInput :=
  {| pi_artifactDigest := d_artifactDigest (sn_deployment snapshot);
     pi_component := component;
     pi_grantedPermissions := default (JArr []) (ag_granted (sn_gate snapshot));
     pi_supportedExecutors := sn_supportedExecutors snapshot;
     pi_workers := sn_workers snapshot |}.

(** The steps of the obsolete instances, in order. *)
Definition obsolete_steps (snapshot : ReconcileSnapshot) (instances : list ComponentInstance)
  : result exn (list ReconcilePlanStep) :=
  steps ← mapM (λ instance, oldInstanceStep (sn_deployment snapshot) instance (sn_now snapshot))
            (List.filter (obsolete snapshot) instances);
  Ok (omap id steps).

(** The instance a component is planned for, and its activation. *)
Definition current_activation (snapshot : ReconcileSnapshot) (componentId : jstring)
    (currentInstances : list ComponentInstance) : Activation :=
  match JsMap.get (sn_activations snapshot) componentId with
  | Some a => a
  | None => default (js "1") (highest_activation currentInstances)
  end.

Definition component_step (snapshot : ReconcileSnapshot) (instances : list ComponentInstance)
    (component : PluginComponent) (placement : ComponentPlacement) : result exn (option ReconcilePlanStep) :=
  let currentInstances := List.filter (of_component (sn_deployment snapshot) (pc_componentId component)) instances in
  let activation := current_activation snapshot (pc_componentId component) currentInstances in
  let current := List.find (λ i, streq (ci_activation i) activation) currentInstances in
  currentInstanceStep snapshot current (pc_componentId component) placement activation.

(** The loop over the components: the steps and the placement diagnostics. *)
Fixpoint current_steps (snapshot : ReconcileSnapshot) (instances : list ComponentInstance)
    (components : list PluginComponent) : result exn (list ReconcilePlanStep * list plan_diagnostic) :=
  match components with
  | [] => Ok ([], [])
  | component :: rest =>
      match planPlacement domainToASCII (placement_input snapshot component) with
      | Err (code, id) =>
          '(steps, diagnostics) ← current_steps snapshot instances rest;
          Ok (steps, PlacementFailed code id :: diagnostics)
      | Ok placement =>
          next ← component_step snapshot instances component placement;
          '(steps, diagnostics) ← current_steps snapshot instances rest;
          Ok (match next with Some s => s :: steps | None => steps end, diagnostics)
      end
  end.

Definition planReconcile (snapshot : ReconcileSnapshot) : result exn ReconcilePlan :=
  let deployment := sn_deployment snapshot in
  let gate := sn_gate snapshot in
  let blocked diagnostics :=
    {| rp_deploymentGeneration := d_generation deployment; rp_blocked := true;
       rp_diagnostics := diagnostics; rp_steps := [] |} in
  if negb (ag_capability_ok gate) || negb (ag_permission_allowed gate)
  then Ok (blocked (gate_diagnostics gate))
  else
    let instances :=
      js_sort (λ a b, compareText (i_instanceId (ci_value a)) (i_instanceId (ci_value b)))
        (List.filter (λ i, streq (i_applicationId (ci_value i)) (d_applicationId deployment))
           (sn_instances snapshot)) in
    let inconsistent := inconsistent_components deployment instances (ag_components gate) in
    match inconsistent with
    | _ :: _ => Ok (blocked inconsistent)
    | [] =>
        old ← obsolete_steps snapshot instances;
        '(current, placementDiagnostics) ←
          (if bool_decide (d_state deployment = Active) && negb (sn_suspended snapshot)
           then current_steps snapshot instances
                  (js_sort (λ a b, compareText (pc_componentId a) (pc_componentId b)) (ag_components gate))
           else Ok ([], []));
        Ok {| rp_deploymentGeneration := d_generation deployment;
              rp_blocked := match placementDiagnostics with [] => false | _ => true end;
              rp_diagnostics := gate_diagnostics gate ++ placementDiagnostics;
              rp_steps := match placementDiagnostics with [] => old ++ current | _ => [] end |}
    end.
End plan.
