(* ===== verification/PlanProofs.v ===== *)
(** * The plan is right

    Laws of the identities in Plan.v: effects and instances have identities of
    their own, which the identity parsers accept, unless SHA-256 collides. *)

From S2P Require Import Prelude JsString Collections Regex JsValue Identity JsonText Canonical Permission Lifecycle Placement Plan.

Open Scope nat_scope.

(** ** Identities *)

(** What the code relies on of Node's SHA-256: 64 lower-case hexadecimal digits. *)
Definition is_hex (c : N) : bool := is_digit c || ((97 <=? c) && (c <=? 102))%N.
Definition sha256_ok (sha256 : jstring → jstring) : Prop :=
  ∀ t, length (sha256 t) = 64 ∧ Forall (λ c, is_hex c = true) (sha256 t).

Lemma replaceAll_cons c r x s : replaceAll c r (x :: s) = (if (x =? c)%N then r else [x]) ++ replaceAll c r s.
Proof. done. Qed.

Lemma escape_cons x s :
  escape_part (x :: s) =
  (if (x =? 95)%N then js "_u" else if (x =? 46)%N then js "_d" else [x]) ++ escape_part s.
Proof.
  unfold escape_part. rewrite replaceAll_cons. unfold replaceAll at 1. rewrite map_app, concat_app.
  f_equal. destruct (N.eqb_spec x 95) as [->|]; [done|]. simpl. by destruct (N.eqb_spec x 46).
Qed.

Lemma escape_no_dot s : (46 : N) ∉ escape_part s.
Proof.
  induction s as [|x s IH]; [by apply not_elem_of_nil|]. rewrite escape_cons, elem_of_app. intros [H|H]; [|done].
  destruct (N.eqb_spec x 95), (N.eqb_spec x 46); vm_compute in H;
    repeat (apply elem_of_cons in H as [?|H]; [simplify_eq|]); by apply elem_of_nil in H.
Qed.

Lemma escape_inj s t : escape_part s = escape_part t → s = t.
Proof.
  revert t. induction s as [|x s IH]; intros [|y t]; rewrite ?escape_cons; [done| | |].
  1,2: by intros H; repeat case_match.
  destruct (N.eqb_spec x 95) as [->|], (N.eqb_spec y 95) as [->|]; [| | |];
    try destruct (N.eqb_spec x 46) as [->|]; try destruct (N.eqb_spec y 46) as [->|];
    vm_compute (js "_u"); vm_compute (js "_d"); cbn [app]; intros [= ?]; subst; f_equal; auto; done.
Qed.

(** Splitting on either side of a separator. *)
Lemma splitc_app c x s : splitc c (x ++ c :: s) = splitc c x ++ splitc c s.
Proof.
  induction x as [|y x IH]; cbn [app splitc]; [by rewrite N.eqb_refl|].
  rewrite IH. destruct (N.eqb_spec y c); [done|]. by destruct (splitc_cons c x) as (v & vs & ->).
Qed.

Lemma last_segment c x w : c ∉ w → last (splitc c (x ++ c :: w)) = Some w.
Proof. intros Hw. by rewrite splitc_app, (splitc_no_sep c w), last_snoc. Qed.

Lemma hex_no_dot l : Forall (λ c, is_hex c = true) l → (46 : N) ∉ l.
Proof. intros H Hin. rewrite Forall_forall in H. by apply H in Hin. Qed.

Section identities.
Context (sha256 : jstring → jstring) (Hsha : sha256_ok sha256).

Definition short_last (parts : list jstring) : Prop :=
  ∃ front w, parts = front ++ [w] ∧ length (escape_part w) < 64.

Lemma candidate_split parts :
  parts ≠ [] → splitc 46 (joinc 46 (map escape_part parts)) = map escape_part parts.
Proof.
  intros. apply splitc_joinc; [by destruct parts|]. apply Forall_map, Forall_true, escape_no_dot.
Qed.

Lemma short_candidate parts x t :
  short_last parts → joinc 46 (map escape_part parts) ≠ x ++ js "." ++ sha256 t.
Proof.
  intros (front & w & -> & Hw) E.
  assert (last (splitc 46 (joinc 46 (map escape_part (front ++ [w])))) = Some (escape_part w)) as Hl.
  { rewrite candidate_split by (by destruct front). rewrite map_app. apply last_snoc. }
  rewrite E in Hl. change (js "." ++ sha256 t) with (46%N :: sha256 t) in Hl.
  rewrite last_segment in Hl by apply hex_no_dot, Hsha. injection Hl as Hl.
  destruct (Hsha t) as [Hlen _]. rewrite Hl in Hlen. lia.
Qed.

(** Equal portable identities have equal parts, or the digest collides. *)
Lemma portable_inj p q :
  short_last p → short_last q → portableStableId sha256 p = portableStableId sha256 q →
  p = q ∨ collision sha256.
Proof.
  intros Hp Hq. unfold portableStableId.
  assert (p ≠ [] ∧ q ≠ []) as [Hp0 Hq0].
  { destruct Hp as (f & ? & -> & _), Hq as (g & ? & -> & _). by destruct f, g. }
  destruct (Nat.leb_spec (length (joinc 46 (map escape_part p))) 128) as [Lp|Lp],
    (Nat.leb_spec (length (joinc 46 (map escape_part q))) 128) as [Lq|Lq]; intros E.
  - left. apply (f_equal (splitc 46)) in E. rewrite !candidate_split in E by done.
    revert E. apply (list_fmap_eq_inj escape_part). exact escape_inj.
  - by apply short_candidate in E.
  - symmetry in E. by apply short_candidate in E.
  - apply app_inj_1 in E as [_ E]; [|rewrite !length_take; lia].
    destruct (decide (parts_text p = parts_text q)) as [Et|Et].
    + left. by apply stringify_strings_inj in Et.
    + right. exists (parts_text p), (parts_text q). split; [done|]. by injection E.
Qed.

(** ** What identifies an effect *)
Definition effect_parts (legacy : bool) (d : GenerationIdentity) (componentId : jstring)
    (kind : ReconcileEffectKind) (activation : Activation) : list jstring :=
  js "reconcile" :: (instance_parts d componentId ++ if legacy then [] else [js "a" ++ activation]) ++
  [kind_text kind].
Definition own_parts (legacy : bool) (d : GenerationIdentity) (componentId : jstring)
    (activation : Activation) : list jstring :=
  instance_parts d componentId ++ if legacy then [] else [js "a" ++ activation].

Lemma effect_parts_inj l d c k a l' d' c' k' a' :
  effect_parts l d c k a = effect_parts l' d' c' k' a' →
  l = l' ∧ d = d' ∧ c = c' ∧ k = k' ∧ (l = false → a = a').
Proof.
  destruct d as [d1 d2 d3], d' as [e1 e2 e3]. unfold effect_parts, instance_parts. cbn [gi_applicationId gi_pluginId gi_generation].
  destruct l, l'; cbn [app]; intros E; injection E; intros; subst; try (by destruct k, k').
  all: assert (k = k') as -> by (by destruct k, k'); done.
Qed.

Lemma own_parts_inj l d c a l' d' c' a' :
  own_parts l d c a = own_parts l' d' c' a' → l = l' ∧ d = d' ∧ c = c' ∧ (l = false → a = a').
Proof.
  destruct d as [d1 d2 d3], d' as [e1 e2 e3]. unfold own_parts, instance_parts. cbn [gi_applicationId gi_pluginId gi_generation].
  destruct l, l'; cbn [app]; intros E; injection E; intros; subst; done.
Qed.

Lemma effect_parts_short l d c k a : short_last (effect_parts l d c k a).
Proof.
  exists (js "reconcile" :: (instance_parts d c ++ if l then [] else [js "a" ++ a])), (kind_text k).
  split; [done|]. destruct k; vm_compute; lia.
Qed.

Lemma escape_id s : Forall (λ c, is_alnum c = true) s → escape_part s = s.
Proof.
  induction 1 as [|x s Hx _ IH]; [done|]. rewrite escape_cons, IH.
  destruct (N.eqb_spec x 95) as [->|]; [done|]. by destruct (N.eqb_spec x 46) as [->|].
Qed.

Lemma decimal_alnum s : isCanonicalDecimal s = true → Forall (λ c, is_alnum c = true) s.
Proof.
  intros H%isCanonicalDecimal_digits. rewrite forallb_forall_in in H. apply Forall_forall. intros c Hc%H.
  unfold is_alnum. by rewrite Hc.
Qed.

Lemma decimal_short s : isCanonicalDecimal s = true → (decimal_value s < 2 ^ 64)%Z → length s ≤ 20.
Proof.
  intros Hs Hv. pose proof (exceeds_uint64_spec s Hs) as He. apply Z.ltb_lt in Hv. rewrite Hv in He.
  unfold exceeds_uint64 in He. apply orb_false_iff in He as [He%Nat.ltb_ge _]. done.
Qed.

(** Generations and activations are short. *)
Lemma own_parts_short l d c a :
  isCanonicalDecimal (gi_generation d) = true → (decimal_value (gi_generation d) < 2 ^ 64)%Z →
  (l = false → isCanonicalDecimal a = true ∧ (decimal_value a < 2 ^ 64)%Z) →
  short_last (own_parts l d c a).
Proof.
  assert (∀ x s, is_alnum x = true → isCanonicalDecimal s = true → (decimal_value s < 2 ^ 64)%Z →
    length (escape_part (x :: s)) < 64) as Hshort.
  { intros x s Hx Hs Hv. rewrite escape_id by (constructor; [done|by apply decimal_alnum]).
    pose proof (decimal_short s Hs Hv). simpl. lia. }
  intros Hg Hv Ha. unfold own_parts, instance_parts. destruct l.
  - exists [gi_applicationId d; gi_pluginId d; c], (js "g" ++ gi_generation d). split; [done|]. by apply Hshort.
  - destruct Ha as [Ha Hva]; [done|].
    exists [gi_applicationId d; gi_pluginId d; c; js "g" ++ gi_generation d], (js "a" ++ a).
    split; [done|]. by apply Hshort.
Qed.

Lemma identities_ok legacy d c k a i :
  identities sha256 legacy d c k a = Ok i →
  ei_operationId i = portableStableId sha256 (effect_parts legacy d c k a) ∧
  ei_messageId i = ei_operationId i ∧
  ei_instanceId i = portableStableId sha256 (own_parts legacy d c a) ∧
  (legacy = false → isCanonicalDecimal a = true ∧ (decimal_value a < 2 ^ 64)%Z).
Proof.
  assert (∀ p q, identities_at p q = Ok i → ei_operationId i = q ∧ ei_messageId i = q ∧ ei_instanceId i = p) as Hat.
  { intros p q H. unfold identities_at in H. apply bind_ok in H as (o & Ho & H).
    apply bind_ok in H as (m & Hm & [= <-]). apply parseIdentity_ok in Ho as [[= ->] _], Hm as [[= ->] _]. done. }
  unfold identities, effect_parts, own_parts. destruct legacy.
  - unfold legacyReconcileEffectIdentities. intros (-> & -> & ->)%Hat.
    unfold legacyReconcileInstanceId. by rewrite app_nil_r.
  - unfold reconcileEffectIdentities. intros (a' & Ha & H)%bind_ok.
    apply parseActivation_ok in Ha as ([= <-] & Ha). apply Hat in H as (-> & -> & ->). done.
Qed.
End identities.

(** Effects do not share identities: two effects with one operation identity are
    the same effect (deployment, generation, component, kind, activation), and
    two instances with one instance identity the same instance, unless the
    digest of a long identity collides. Dots and underscores in names never
    make two identities meet. *)
Theorem effect_identities_injective (sha256 : jstring → jstring)
    (l l' : bool) (d d' : GenerationIdentity) (c c' : jstring) (k k' : ReconcileEffectKind)
    (a a' : Activation) (i i' : EffectIdentities) :
  sha256_ok sha256 →
  identities sha256 l d c k a = Ok i → identities sha256 l' d' c' k' a' = Ok i' →
  is_ok (parseGeneration (VStr (gi_generation d))) = true →
  is_ok (parseGeneration (VStr (gi_generation d'))) = true →
  (ei_operationId i = ei_operationId i' →
     (l = l' ∧ d = d' ∧ c = c' ∧ k = k' ∧ (l = false → a = a')) ∨ collision sha256) ∧
  (ei_instanceId i = ei_instanceId i' →
     (l = l' ∧ d = d' ∧ c = c' ∧ (l = false → a = a')) ∨ collision sha256).
Proof.
  intros Hsha Hi Hi' [g Hg]%is_ok_true [g' Hg']%is_ok_true.
  apply parseGeneration_ok in Hg as ([= <-] & Hg & Hgv), Hg' as ([= <-] & Hg' & Hgv').
  apply identities_ok in Hi as (Eo & _ & Ei & Ha), Hi' as (Eo' & _ & Ei' & Ha').
  rewrite Eo, Eo', Ei, Ei'. split; intros E; apply portable_inj in E; try done.
  - destruct E as [E|E]; [left; by apply effect_parts_inj|by right].
  - apply effect_parts_short.
  - apply effect_parts_short.
  - destruct E as [E|E]; [left; by apply own_parts_inj|by right].
  - by apply own_parts_short.
  - by apply own_parts_short.
Qed.

Definition sample_sha256 (t : jstring) : jstring := repeat 48%N 64.
Lemma sample_sha256_ok : sha256_ok sample_sha256.
Proof. split; [done|]. by repeat constructor. Qed.

Lemma effect_identities_injective_witness :
  ∃ i i',
    identities sample_sha256 false {| gi_applicationId := js "a.b"; gi_pluginId := js "c"; gi_generation := js "1" |}
      (js "x") EffectStart (js "1") = Ok i ∧
    identities sample_sha256 false {| gi_applicationId := js "a"; gi_pluginId := js "b.c"; gi_generation := js "1" |}
      (js "x") EffectStart (js "1") = Ok i' ∧
    (ei_operationId i = ei_operationId i' → js "a.b" = js "a" ∨ collision sample_sha256).
Proof.
  eexists _, _. split; [vm_compute; reflexivity|]. split; [vm_compute; reflexivity|]. intros E.
  refine (match proj1 (effect_identities_injective sample_sha256 false false
    {| gi_applicationId := js "a.b"; gi_pluginId := js "c"; gi_generation := js "1" |}
    {| gi_applicationId := js "a"; gi_pluginId := js "b.c"; gi_generation := js "1" |}
    (js "x") (js "x") EffectStart EffectStart (js "1") (js "1") _ _ sample_sha256_ok _ _ _ _) E with
    | or_introl H => or_introl (f_equal gi_applicationId (proj1 (proj2 H)))
    | or_intror H => or_intror H end); vm_compute; reflexivity.
Defined.
