(* ===== verification/Reconciler.v ===== *)
(** * The reconciler

    runtime/src/reconcile/reconciler.ts: how a planned effect is persisted,
    claimed, performed at most once per checkpoint, and committed or retried; how
    persisted sessions are restored, and what a provider loss commits; and the
    passes that do all this until nothing is left to do.

    The state is a typed view of what the reconciler keeps in the state store:
    deployments, component instances, provider losses and the lifecycle outbox,
    under one revision. A read and the transaction that follows it are one step,
    so the three attempts of a commit are one; performing an effect is a step of
    its own, and anything may happen before its outcome is committed. What is
    decided on records outside this view is an argument: [gate], what gateDeployment
    answers, [prerequisites], what recoveryPrerequisitesReady answers, and in
    [pass_environment] the clean-up of bindings and what reconcileProviderLosses
    decides; Bindings.v, Evidence.v and ProviderLoss.v define them. *)

From S2P Require Import Prelude JsString Collections JsValue Identity JsonText Time Permission Lifecycle Placement Retry Plan.

Open Scope Z_scope.

(** ** Durable state *)
Inductive outbox_state := OutPending | OutRetry | OutCompleted.
#[export] Instance outbox_state_eq_dec : EqDecision outbox_state.
Proof. solve_decision. Defined.

(** A lifecycle message. Its payload is an effect, with whether the activation
    was left out, or nothing [parseReconcileEffect] accepts. *)
Record LifecycleMessage := {
  m_messageId : jstring;
  m_operationId : jstring;
  m_payload : option (ReconcileEffect * bool);
  m_availableAt : Z;
  m_sequence : Z;
  m_attempt : Z;
  m_leasedUntil : option Z;
  m_state : outbox_state;
}.

Inductive loss_action := LossDegrade | LossFail | LossSuspend.
#[export] Instance loss_action_eq_dec : EqDecision loss_action.
Proof. solve_decision. Defined.
Record PersistedProviderLoss := {
  l_applicationId : jstring;
  l_pluginId : jstring;
  l_deploymentGeneration : jstring;
  l_action : loss_action;
  l_recoveryActivations : option (jsmap jstring Activation);
}.

Inductive journal_status := JournalPlanned | JournalExecuting | JournalCompleted | JournalFailed.

Record Durable := {
  du_deployments : list PluginDeployment;
  du_instances : gmap jstring (PersistedComponentInstance * Z);
  du_losses : list PersistedProviderLoss;
  du_outbox : gmap jstring LifecycleMessage;
  du_operations : list (jstring * journal_status);
  du_sequence : Z;
  du_revision : Z;
}.

Definition empty_durable : Durable :=
  {| du_deployments := []; du_instances := ∅; du_losses := []; du_outbox := ∅; du_operations := [];
     du_sequence := 0; du_revision := 0 |}.

Definition with_instances (d : Durable) (instances : gmap jstring (PersistedComponentInstance * Z)) : Durable :=
  {| du_deployments := du_deployments d; du_instances := instances; du_losses := du_losses d;
     du_outbox := du_outbox d; du_operations := du_operations d; du_sequence := du_sequence d;
     du_revision := du_revision d |}.
Definition with_outbox (d : Durable) (box : gmap jstring LifecycleMessage) (sequence : Z) : Durable :=
  {| du_deployments := du_deployments d; du_instances := du_instances d; du_losses := du_losses d;
     du_outbox := box; du_operations := du_operations d; du_sequence := sequence;
     du_revision := du_revision d |}.
Definition with_losses (d : Durable) (losses : list PersistedProviderLoss) : Durable :=
  {| du_deployments := du_deployments d; du_instances := du_instances d; du_losses := losses;
     du_outbox := du_outbox d; du_operations := du_operations d; du_sequence := du_sequence d;
     du_revision := du_revision d |}.

(** A transaction that journals an operation, under the next revision. *)
Definition journal (d : Durable) (operationId : jstring) (status : journal_status) : Durable :=
  {| du_deployments := du_deployments d; du_instances := du_instances d; du_losses := du_losses d;
     du_outbox := du_outbox d; du_operations := du_operations d ++ [(operationId, status)];
     du_sequence := du_sequence d; du_revision := du_revision d + 1 |}.
(** A put in the transaction whose revision the journal has just made. *)
Definition put_instance (d : Durable) (key : jstring) (i : PersistedComponentInstance) : Durable :=
  with_instances d (<[key := (i, du_revision d)]> (du_instances d)).

(** [isDeepStrictEqual] on JSON data: the order of fields does not matter. *)
Fixpoint json_eqb (a b : json) : bool :=
  match a, b with
  | JNull, JNull => true
  | JBool x, JBool y => Bool.eqb x y
  | JNum (NInt x), JNum (NInt y) => x =? y
  | JNum (NFrac x e), JNum (NFrac y f) => (x =? y) && (e =? f)%positive
  | JNum (NInf x), JNum (NInf y) => Bool.eqb x y
  | JNum NNaN, JNum NNaN => true
  | JStr x, JStr y => streq x y
  | JArr xs, JArr ys =>
      (fix go xs ys := match xs, ys with
        | [], [] => true | x :: xs, y :: ys => json_eqb x y && go xs ys | _, _ => false end) xs ys
  | JObj xs, JObj ys =>
      (fix go xs ys := match xs, ys with
        | [], [] => true
        | (k, x) :: xs, (l, y) :: ys => streq k l && json_eqb x y && go xs ys
        | _, _ => false end) xs ys
  | _, _ => false
  end.
Definition deep_equal (a b : json) : bool :=
  match serialize a, serialize b with Some x, Some y => json_eqb x y | _, _ => false end.
Definition same_binding (a b : option json) : bool :=
  match a, b with
  | None, None => true
  | Some x, Some y => deep_equal x y
  | _, _ => false
  end.

(** Two payloads the store counts as one message. *)
Definition same_payload (a b : option (ReconcileEffect * bool)) : bool :=
  match a, b with
  | Some (x, l), Some (y, m) =>
      bool_decide (e_kind x = e_kind y) && (Bool.eqb l m) && (l || streq (e_activation x) (e_activation y)) &&
      streq (e_operationId x) (e_operationId y) && streq (e_messageId x) (e_messageId y) &&
      streq (e_instanceId x) (e_instanceId y) && streq (e_applicationId x) (e_applicationId y) &&
      streq (e_pluginId x) (e_pluginId y) && streq (e_componentId x) (e_componentId y) &&
      streq (e_deploymentGeneration x) (e_deploymentGeneration y) &&
      streq (e_artifactDigest x) (e_artifactDigest y) && bool_decide (e_executor x = e_executor y) &&
      bool_decide (e_workerId x = e_workerId y) && same_binding (e_executionBinding x) (e_executionBinding y)
  | _, _ => false
  end.

(** [enqueueOutbox] in a commit: a new message, a retried one again, or one that
    is there; [None] is STATE_IDEMPOTENCY_CONFLICT. *)
Definition enqueue (d : Durable) (messageId operationId : jstring) (payload : option (ReconcileEffect * bool))
    (now : Z) : option Durable :=
  let fresh :=
    with_outbox d
      (<[messageId := {| m_messageId := messageId; m_operationId := operationId; m_payload := payload;
            m_availableAt := now; m_sequence := du_sequence d + 1; m_attempt := 0; m_leasedUntil := None;
            m_state := OutPending |}]> (du_outbox d)) (du_sequence d + 1) in
  match du_outbox d !! messageId with
  | None => Some fresh
  | Some m =>
      if bool_decide (m_state m = OutRetry) then Some fresh
      else if streq (m_operationId m) operationId && same_payload (m_payload m) payload then Some d
      else None
  end.

(** ** Loading *)

(** [compareActivations] and [nextActivation]. *)
Definition compareActivations (left right : Activation) : Z :=
  if decimal_value left <? decimal_value right then -1
  else if decimal_value right <? decimal_value left then 1 else 0.
Definition nextActivation (current : Activation) : result exn Activation :=
  c ← parseActivation (VStr current);
  parseActivation (VStr (show_nat (decimal_value c + 1))).

Definition parsePersistedActivation (i : PersistedComponentInstance) : result exn Activation :=
  parseActivation (VStr (default (js "1") (i_activation i))).

Definition inferComponentHasStarted (i : PersistedComponentInstance) : bool :=
  match i_hasStarted i with
  | Some b => b
  | None => bool_decide (i_lifecycle i = CpReady) || bool_decide (i_lifecycle i = CpDegraded)
  end.

Record LoadedComponentInstance := {
  li_storageId : jstring;
  li_value : ComponentInstance;
  li_legacyActivation : bool;
}.

Definition load_instance (storageId : jstring) (i : PersistedComponentInstance) (revision : Z)
  : result exn LoadedComponentInstance :=
  let legacy := match i_activation i with None => true | Some _ => false end in
  activation ← parsePersistedActivation i;
  Ok {| li_storageId := storageId;
        li_value := {| ci_value := i; ci_activation := activation; ci_legacyActivation := legacy;
                       ci_revision := revision |};
        li_legacyActivation := legacy |}.

(** The scan of the store is in the order of the identifiers. *)
Definition loadInstances (d : Durable) : result exn (list LoadedComponentInstance) :=
  mapM (λ e, load_instance e.1 e.2.1 e.2.2)
    (js_sort (λ a b, compareText a.1 b.1) (map_to_list (du_instances d))).

Definition instance_generation (i : PersistedComponentInstance) : GenerationIdentity :=
  {| gi_applicationId := i_applicationId i; gi_pluginId := i_pluginId i;
     gi_generation := i_deploymentGeneration i |}.

Definition same_deployment (applicationId pluginId : jstring) (d : PluginDeployment) : bool :=
  streq (d_applicationId d) applicationId && streq (d_pluginId d) pluginId.

(** ** The reconciler's handlers *)
Section reconciler.
Context (domainToASCII : jstring → jstring) (sha256 : jstring → jstring).

(** The identity an instance should have; one that cannot be computed throws. *)
Definition canonical_instance_id (r : LoadedComponentInstance) : result exn jstring :=
  let i := ci_value (li_value r) in
  if li_legacyActivation r then Ok (legacyReconcileInstanceId sha256 (instance_generation i) (i_componentId i))
  else
    x ← reconcileEffectIdentities sha256 (instance_generation i) (i_componentId i) EffectPrepare
          (ci_activation (li_value r));
    Ok (ei_instanceId x).

Definition isCanonicalInstance (r : LoadedComponentInstance) : result exn bool :=
  let i := ci_value (li_value r) in
  if negb (streq (li_storageId r) (i_instanceId i)) then Ok false
  else
    x ← canonical_instance_id r;
    Ok (streq x (i_instanceId i)).

Definition isInstanceContextConsistent (r : LoadedComponentInstance) (deployments : list PluginDeployment)
  : result exn bool :=
  canonical ← isCanonicalInstance r;
  let i := ci_value (li_value r) in
  if negb canonical then Ok false
  else
    match List.find (λ d, same_deployment (i_applicationId i) (i_pluginId i) d &&
                       streq (d_generation d) (i_deploymentGeneration i)) deployments with
    | None => Ok true
    | Some current =>
        Ok (bool_decide (i_artifactDigest i = Some (d_artifactDigest current)) &&
            streq (i_observedGeneration i) (d_generation current))
    end.

(** *** Persisting a step *)

(** [transitionComponentLifecycle], unless the state is there already. *)
Definition move_to (next : ComponentLifecycleState) (i : PersistedComponentInstance)
  : result exn ComponentLifecycleState :=
  if bool_decide (i_lifecycle i = next) then Ok next
  else match transitionComponentLifecycle (i_lifecycle i) next with
       | Ok l => Ok l
       | Err LIFECYCLE_TRANSITION_INVALID => Err (DiagnosticError "LIFECYCLE_TRANSITION_INVALID")
       end.

Definition preEffectLifecycle (kind : ReconcileEffectKind) (i : PersistedComponentInstance)
  : result exn ComponentLifecycleState :=
  match kind with
  | EffectStart => move_to CpStarting i
  | EffectDrain => move_to CpDraining i
  | EffectStop => move_to CpStopping i
  | EffectPrepare => Ok (i_lifecycle i)
  end.

Definition with_lifecycle (l : ComponentLifecycleState) (i : PersistedComponentInstance) : PersistedComponentInstance :=
  {| i_instanceId := i_instanceId i; i_activation := i_activation i; i_hasStarted := i_hasStarted i;
     i_applicationId := i_applicationId i; i_pluginId := i_pluginId i; i_componentId := i_componentId i;
     i_deploymentGeneration := i_deploymentGeneration i; i_observedGeneration := i_observedGeneration i;
     i_lifecycle := l; i_executor := i_executor i; i_workerId := i_workerId i;
     i_artifactDigest := i_artifactDigest i; i_executionBinding := i_executionBinding i;
     i_attempt := i_attempt i; i_retryAt := i_retryAt i; i_retryEffect := i_retryEffect i;
     i_diagnostic := i_diagnostic i; i_completedOperationId := i_completedOperationId i;
     i_completedOperationIds := i_completedOperationIds i |}.

(** A new instance, and one prepared anew where its effect goes. *)
Definition created_instance (s : ReconcilePlanStep) : PersistedComponentInstance :=
  let e := s_effect s in
  {| i_instanceId := e_instanceId e;
     i_activation := if s_legacyActivation s then None else Some (e_activation e);
     i_hasStarted := Some false;
     i_applicationId := e_applicationId e; i_pluginId := e_pluginId e; i_componentId := e_componentId e;
     i_deploymentGeneration := e_deploymentGeneration e; i_observedGeneration := e_deploymentGeneration e;
     i_lifecycle := CpCreated; i_executor := e_executor e; i_workerId := e_workerId e;
     i_artifactDigest := Some (e_artifactDigest e); i_executionBinding := None;
     i_attempt := None; i_retryAt := None; i_retryEffect := None; i_diagnostic := None;
     i_completedOperationId := None; i_completedOperationIds := None |}.
Definition placed_instance (s : ReconcilePlanStep) (i : PersistedComponentInstance) : PersistedComponentInstance :=
  let e := s_effect s in
  {| i_instanceId := i_instanceId i;
     i_activation := if s_legacyActivation s then i_activation i else Some (e_activation e);
     i_hasStarted := i_hasStarted i;
     i_applicationId := i_applicationId i; i_pluginId := i_pluginId i; i_componentId := i_componentId i;
     i_deploymentGeneration := i_deploymentGeneration i; i_observedGeneration := i_observedGeneration i;
     i_lifecycle := i_lifecycle i; i_executor := e_executor e; i_workerId := e_workerId e;
     i_artifactDigest := Some (e_artifactDigest e); i_executionBinding := i_executionBinding i;
     i_attempt := i_attempt i; i_retryAt := i_retryAt i; i_retryEffect := i_retryEffect i;
     i_diagnostic := i_diagnostic i; i_completedOperationId := i_completedOperationId i;
     i_completedOperationIds := i_completedOperationIds i |}.

(** The instance a step leaves. *)
Definition stepped_instance (s : ReconcilePlanStep) (current : option PersistedComponentInstance)
  : result exn PersistedComponentInstance :=
  match current with
  | None => Ok (created_instance s)
  | Some i =>
      let i :=
        if bool_decide (e_kind (s_effect s) = EffectPrepare) &&
           (bool_decide (i_lifecycle i = CpCreated) || bool_decide (i_lifecycle i = CpFailed))
        then placed_instance s i else i in
      next ← preEffectLifecycle (e_kind (s_effect s)) i;
      Ok (with_lifecycle next i)
  end.

(** [#persistStep]: the state, and whether it must be planned again. *)
Definition persistStep (d : Durable) (deployment : PluginDeployment) (s : ReconcilePlanStep) (now : Z)
  : result exn (Durable * bool) :=
  let e := s_effect s in
  match List.find (same_deployment (d_applicationId deployment) (d_pluginId deployment)) (du_deployments d) with
  | None => Ok (d, true)
  | Some desired =>
      if negb (streq (d_generation desired) (d_generation deployment)) ||
         negb (bool_decide (d_state desired = d_state deployment)) ||
         negb (streq (d_artifactDigest desired) (d_artifactDigest deployment))
      then Ok (d, true)
      else
        let current := du_instances d !! e_instanceId e in
        if negb (bool_decide (snd <$> current = s_expectedRevision s)) then Ok (d, true)
        else
          i ← stepped_instance s (fst <$> current);
          let d' := put_instance (journal d (e_operationId e) JournalPlanned) (e_instanceId e) i in
          match enqueue d' (e_messageId e) (e_operationId e) (Some (e, s_legacyActivation s)) now with
          | Some d'' => Ok (d'', false)
          | None => Ok (d, false)
          end
  end.

(** *** Claims *)
Record OutboxClaim := { k_message : LifecycleMessage; k_attempt : Z; k_claimedAt : Z }.
Definition claimLeaseMs : Z := 30000.

Definition claimable (now : Z) (m : LifecycleMessage) : bool :=
  negb (bool_decide (m_state m = OutCompleted)) && (m_availableAt m <=? now) &&
  match m_leasedUntil m with Some t => t <=? now | None => true end.

Definition compare_messages (a b : LifecycleMessage) : Z :=
  or_else (m_availableAt a - m_availableAt b)
    (or_else (m_sequence a - m_sequence b) (compareText (m_messageId a) (m_messageId b))).

Definition set_message (d : Durable) (m : LifecycleMessage) : Durable :=
  with_outbox d (<[m_messageId m := m]> (du_outbox d)) (du_sequence d).

(** [#claimNext]: the store leases the first message that is due. *)
Definition claimNext (d : Durable) (now : Z) : Durable * option OutboxClaim :=
  match List.find (claimable now) (js_sort compare_messages ((map_to_list (du_outbox d)).*2)) with
  | None => (d, None)
  | Some m =>
      let m' := {| m_messageId := m_messageId m; m_operationId := m_operationId m; m_payload := m_payload m;
                   m_availableAt := m_availableAt m; m_sequence := m_sequence m; m_attempt := m_attempt m + 1;
                   m_leasedUntil := Some (now + claimLeaseMs); m_state := OutPending |} in
      (set_message d m', Some {| k_message := m'; k_attempt := m_attempt m + 1; k_claimedAt := now |})
  end.

(** [acknowledgeOutbox] of a message that is claimed. *)
Definition settle_message (d : Durable) (messageId : jstring) (retryAt : option Z) : Durable :=
  match du_outbox d !! messageId with
  | None => d
  | Some m =>
      set_message d
        {| m_messageId := m_messageId m; m_operationId := m_operationId m; m_payload := m_payload m;
           m_availableAt := default (m_availableAt m) retryAt; m_sequence := m_sequence m;
           m_attempt := m_attempt m; m_leasedUntil := None;
           m_state := match retryAt with Some _ => OutRetry | None => OutCompleted end |}
  end.
Definition acknowledge (d : Durable) (claim : OutboxClaim) : Durable :=
  settle_message d (m_messageId (k_message claim)) None.
Definition retryClaim (d : Durable) (claim : OutboxClaim) (requestedRetryAt : option jstring) (now : Z) : Durable :=
  let retryAt :=
    match requestedRetryAt ≫= Date_parse with
    | Some requested => if now <? requested then requested else now + 60000
    | None => now + 60000
    end in
  settle_message d (m_messageId (k_message claim)) (Some retryAt).
Definition rejectInvalidClaim (d : Durable) (claim : OutboxClaim) (now : Z) : Durable :=
  retryClaim (journal d (m_operationId (k_message claim)) JournalFailed) claim None now.

(** *** The decision on a claimed effect *)
Inductive gate_outcome := GateOpen (gate : ArtifactDeploymentGate) | GateError (code : jstring).

Inductive claim_decision :=
| ClaimConflict
| ClaimReject
| ClaimAcknowledge (replan : bool)
| ClaimRetry (retryAt : option jstring) (replan : bool)
| ClaimPerform (effect : ReconcileEffect) (exactRecoveryEffect : bool)
    (retryPreState : option ComponentLifecycleState).

Definition expectedLifecycle (kind : ReconcileEffectKind) : ComponentLifecycleState :=
  match kind with
  | EffectPrepare => CpCreated
  | EffectStart => CpStarting
  | EffectDrain => CpDraining
  | EffectStop => CpStopping
  end.

Definition loss_of (applicationId pluginId : jstring) (l : PersistedProviderLoss) : bool :=
  streq (l_applicationId l) applicationId && streq (l_pluginId l) pluginId.
Definition holds (e : ReconcileEffect) (l : PersistedProviderLoss) : bool :=
  loss_of (e_applicationId e) (e_pluginId e) l &&
  streq (l_deploymentGeneration l) (e_deploymentGeneration e) &&
  negb (bool_decide (l_action l = LossDegrade)).
Definition recovers (e : ReconcileEffect) (l : PersistedProviderLoss) : bool :=
  match l_recoveryActivations l with
  | Some activations => bool_decide (JsMap.get activations (e_componentId e) = Some (e_activation e))
  | None => false
  end.

Definition matches_instance (e : ReconcileEffect) (i : PersistedComponentInstance) (activation : Activation) : bool :=
  streq (i_instanceId i) (e_instanceId e) && streq activation (e_activation e) &&
  streq (i_applicationId i) (e_applicationId e) && streq (i_pluginId i) (e_pluginId e) &&
  streq (i_componentId i) (e_componentId e) &&
  streq (i_deploymentGeneration i) (e_deploymentGeneration e) &&
  streq (i_observedGeneration i) (e_deploymentGeneration e) &&
  bool_decide (i_artifactDigest i = Some (e_artifactDigest e)) &&
  bool_decide (i_executor i = e_executor e) && bool_decide (i_workerId i = e_workerId e) &&
  same_binding (i_executionBinding i) (e_executionBinding e).

(** The deployment the effect is for is the one desired now. *)
Definition desires (e : ReconcileEffect) (desired : option PluginDeployment) : bool :=
  match desired with
  | Some d => bool_decide (d_state d = Active) && streq (d_generation d) (e_deploymentGeneration e) &&
              streq (d_artifactDigest d) (e_artifactDigest e)
  | None => false
  end.

Section decisions.
Context (supportedExecutors : list ExecutorKind) (workers : list PlacementWorker)
  (gate : Durable → PluginDeployment → option gate_outcome)
  (prerequisites : Durable → PersistedProviderLoss → bool).

(** The last checks: the state of the instance. *)
Definition decide_lifecycle (e : ReconcileEffect) (i : PersistedComponentInstance) (exactRecoveryEffect : bool)
    (now : Z) : claim_decision :=
  let retryableFailure :=
    bool_decide (i_lifecycle i = CpFailed) && bool_decide (i_retryEffect i = Some (e_kind e)) &&
    negb (later (i_retryAt i) (toISOString now)) in
  if negb (bool_decide (i_lifecycle i = expectedLifecycle (e_kind e))) && negb retryableFailure
  then ClaimAcknowledge true
  else ClaimPerform e exactRecoveryEffect
    (if retryableFailure && (bool_decide (e_kind e = EffectStart) || bool_decide (e_kind e = EffectStop))
     then Some (expectedLifecycle (e_kind e)) else None).

(** Prepare and start: the gate, the component and its placement. *)
Definition decide_gated (e : ReconcileEffect) (i : PersistedComponentInstance) (exactRecoveryEffect : bool)
    (g : option gate_outcome) (now : Z) : claim_decision :=
  match g with
  | None => ClaimAcknowledge true
  | Some (GateError _) => ClaimRetry None true
  | Some (GateOpen g) =>
      if negb (ag_capability_ok g) || negb (ag_permission_allowed g) then ClaimRetry None true
      else
        match List.find (λ c, streq (pc_componentId c) (e_componentId e)) (ag_components g) with
        | None => ClaimAcknowledge true
        | Some component =>
            if negb (placementIsEligible domainToASCII
                 {| pi_artifactDigest := e_artifactDigest e; pi_component := component;
                    pi_grantedPermissions := default (JArr []) (ag_granted g);
                    pi_supportedExecutors := supportedExecutors; pi_workers := workers |}
                 {| cpl_executor := e_executor e; cpl_workerId := e_workerId e |})
            then ClaimRetry None true
            else decide_lifecycle e i exactRecoveryEffect now
        end
  end.

(** The desired state, the losses and the gate. *)
Definition decide_effect (d : Durable) (e : ReconcileEffect) (i : PersistedComponentInstance) (now : Z)
  : claim_decision :=
  let desired := List.find (same_deployment (e_applicationId e) (e_pluginId e)) (du_deployments d) in
  let gated := match desired with Some dep => Some (gate d dep) | None => None end in
  match gated with
  | Some None => ClaimConflict
  | _ =>
      let currentGate := match gated with Some g => g | None => None end in
      let providerLossHold := List.find (holds e) (du_losses d) in
      let suspendedLoss :=
        match providerLossHold with
        | Some l => if bool_decide (l_action l = LossSuspend) then Some l else None
        | None => None
        end in
      let exactRecoveryEffect := match suspendedLoss with Some l => recovers e l | None => false end in
      let recoveryPermitted :=
        match suspendedLoss with Some l => exactRecoveryEffect && prerequisites d l | None => false end in
      let suspended :=
        match providerLossHold with
        | Some l => bool_decide (l_action l = LossFail) ||
                    (bool_decide (l_action l = LossSuspend) && negb recoveryPermitted)
        | None => false
        end in
      match e_kind e with
      | EffectPrepare | EffectStart =>
          if negb (desires e desired) || suspended
          then if exactRecoveryEffect then ClaimRetry None true else ClaimAcknowledge true
          else decide_gated e i exactRecoveryEffect currentGate now
      | EffectDrain | EffectStop =>
          if negb suspended && desires e desired then ClaimAcknowledge true
          else decide_lifecycle e i exactRecoveryEffect now
      end
  end.

(** The envelope, the canonical identities and the persisted tuple. *)
Definition decide_claim (d : Durable) (claim : OutboxClaim) (now : Z) : result exn claim_decision :=
  let m := k_message claim in
  match m_payload m with
  | None => Ok ClaimReject
  | Some (e, legacyProvenance) =>
      if negb (streq (e_messageId e) (m_messageId m)) || negb (streq (e_operationId e) (m_operationId m))
      then Ok ClaimReject
      else
        let current := fst <$> du_instances d !! e_instanceId e in
        let legacyActivation :=
          match current with
          | Some i => match i_activation i with None => legacyProvenance | Some _ => false end
          | None => false
          end in
        canonical ← identities sha256 legacyActivation
          {| gi_applicationId := e_applicationId e; gi_pluginId := e_pluginId e;
             gi_generation := e_deploymentGeneration e |} (e_componentId e) (e_kind e) (e_activation e);
        if negb (streq (e_instanceId e) (ei_instanceId canonical)) ||
           negb (streq (e_operationId e) (ei_operationId canonical)) ||
           negb (streq (e_messageId e) (ei_messageId canonical))
        then Ok ClaimReject
        else
          match current with
          | None => Ok (ClaimAcknowledge true)
          | Some i =>
              activation ← parsePersistedActivation i;
              if negb (matches_instance e i activation) then Ok ClaimReject
              else if completed i (e_operationId e) then Ok (ClaimAcknowledge false)
              else if bool_decide (e_kind e = EffectStart) && bool_decide (i_lifecycle i = CpStarting) &&
                      bool_decide (i_diagnostic i = Some (js "LIFECYCLE_RESTORE_FAILED")) &&
                      later (i_retryAt i) (toISOString now)
              then Ok (ClaimRetry (i_retryAt i) false)
              else
                loadInstances d;;
                Ok (decide_effect d e i now)
          end
  end.

(** *** Performing an effect *)
Inductive RecoveryEffectAuthorization := Abandoned | Authorized | RetryAuthorization | Superseded.

(** A stable instance: no failure on record. *)
Definition settled_instance (l : ComponentLifecycleState) (i : PersistedComponentInstance) : PersistedComponentInstance :=
  {| i_instanceId := i_instanceId i; i_activation := i_activation i; i_hasStarted := i_hasStarted i;
     i_applicationId := i_applicationId i; i_pluginId := i_pluginId i; i_componentId := i_componentId i;
     i_deploymentGeneration := i_deploymentGeneration i; i_observedGeneration := i_observedGeneration i;
     i_lifecycle := l; i_executor := i_executor i; i_workerId := i_workerId i;
     i_artifactDigest := i_artifactDigest i; i_executionBinding := i_executionBinding i;
     i_attempt := None; i_retryAt := None; i_retryEffect := None; i_diagnostic := None;
     i_completedOperationId := i_completedOperationId i; i_completedOperationIds := i_completedOperationIds i |}.

Definition is_consumer_instance (e : ReconcileEffect) (r : LoadedComponentInstance) : bool :=
  let i := ci_value (li_value r) in
  streq (i_instanceId i) (e_instanceId e) && streq (ci_activation (li_value r)) (e_activation e) &&
  streq (i_applicationId i) (e_applicationId e) && streq (i_pluginId i) (e_pluginId e) &&
  streq (i_componentId i) (e_componentId e) &&
  streq (i_deploymentGeneration i) (e_deploymentGeneration e) &&
  streq (i_observedGeneration i) (e_deploymentGeneration e) &&
  bool_decide (i_artifactDigest i = Some (e_artifactDigest e)).

(** The loss without its recovery activations, which ends the attempt. *)
Definition invalidate_loss (e : ReconcileEffect) (l : PersistedProviderLoss) : PersistedProviderLoss :=
  if loss_of (e_applicationId e) (e_pluginId e) l
  then {| l_applicationId := l_applicationId l; l_pluginId := l_pluginId l;
          l_deploymentGeneration := l_deploymentGeneration l; l_action := l_action l;
          l_recoveryActivations := None |}
  else l.

(** [#authorizeRecoveryEffect], and the transaction it may write in. *)
Definition authorizeRecoveryEffect (d : Durable) (e : ReconcileEffect)
    (expected : ComponentLifecycleState) (expectedRevision : Z)
  : result exn (Durable * RecoveryEffectAuthorization) :=
  match List.find (loss_of (e_applicationId e) (e_pluginId e)) (du_losses d) with
  | None => Ok (d, Superseded)
  | Some loss =>
      if negb (bool_decide (l_action loss = LossSuspend)) ||
         negb (streq (l_deploymentGeneration loss) (e_deploymentGeneration e)) || negb (recovers e loss)
      then Ok (d, Superseded)
      else
        instances ← loadInstances d;
        let consumer := List.find (same_deployment (e_applicationId e) (e_pluginId e)) (du_deployments d) in
        match List.find (is_consumer_instance e) instances with
        | None => Ok (d, Superseded)
        | Some r =>
            let i := ci_value (li_value r) in
            if negb (bool_decide (i_lifecycle i = expected)) then Ok (d, Superseded)
            else if negb (ci_revision (li_value r) =? expectedRevision) then Ok (d, RetryAuthorization)
            else if desires e consumer && prerequisites d loss then Ok (d, Authorized)
            else
              let d' := with_losses d (map (invalidate_loss e) (du_losses d)) in
              Ok (with_instances d' (<[e_instanceId e := (settled_instance CpStopped i, du_revision d + 1)]>
                                       (du_instances d')), Abandoned)
        end
  end.

(** The transaction before the effect: the journal says it is executing. *)
Definition begin_effect (d : Durable) (e : ReconcileEffect) (i : PersistedComponentInstance) (revision : Z)
    (exactRecoveryEffect : bool) (retryPreState : option ComponentLifecycleState)
  : result exn (Durable * RecoveryEffectAuthorization) :=
  '(d1, authorization) ←
    (if exactRecoveryEffect then authorizeRecoveryEffect d e (i_lifecycle i) revision else Ok (d, Authorized));
  match authorization with
  | Authorized =>
      let d2 := journal d1 (e_operationId e) JournalExecuting in
      let d3 := match retryPreState with
                | Some l => put_instance d2 (e_instanceId e) (with_lifecycle l i)
                | None => d2
                end in
      (if exactRecoveryEffect
       then authorizeRecoveryEffect d3 e (default (i_lifecycle i) retryPreState) revision
       else Ok (d3, Authorized))
  | _ => Ok (d1, authorization)
  end.

(** What became of the effect: it may also end with the process. *)
Inductive effect_result := EffectDone (executionBinding : option json) | EffectThrew | EffectInterrupted.

Definition successfulLifecycle (kind : ReconcileEffectKind) (i : PersistedComponentInstance)
  : result exn ComponentLifecycleState :=
  move_to (match kind with
           | EffectPrepare => CpPreparing
           | EffectStart => CpReady
           | EffectStop => CpStopped
           | EffectDrain => CpDraining
           end) i.

(** Each operation once, where it came first. *)
Definition complete_operation (operationId : jstring) (i : PersistedComponentInstance) : list jstring :=
  foldl (λ ids id, if includes ids id then ids else ids ++ [id]) []
    (default [] (i_completedOperationIds i) ++ [operationId]).

Definition committed_instance (e : ReconcileEffect) (binding : option json) (l : ComponentLifecycleState)
    (i : PersistedComponentInstance) : PersistedComponentInstance :=
  {| i_instanceId := i_instanceId i; i_activation := i_activation i;
     i_hasStarted := if bool_decide (e_kind e = EffectStart) then Some true else i_hasStarted i;
     i_applicationId := i_applicationId i; i_pluginId := i_pluginId i; i_componentId := i_componentId i;
     i_deploymentGeneration := i_deploymentGeneration i; i_observedGeneration := e_deploymentGeneration e;
     i_lifecycle := l; i_executor := i_executor i; i_workerId := i_workerId i;
     i_artifactDigest := i_artifactDigest i;
     i_executionBinding :=
       match binding with
       | Some b => if bool_decide (e_kind e = EffectPrepare) then Some b else i_executionBinding i
       | None => i_executionBinding i
       end;
     i_attempt := None; i_retryAt := None; i_retryEffect := None; i_diagnostic := None;
     i_completedOperationId := Some (e_operationId e);
     i_completedOperationIds := Some (complete_operation (e_operationId e) i) |}.

(** The instance is still the one the effect was for. *)
Definition still_current (e : ReconcileEffect) (i : PersistedComponentInstance) : result exn bool :=
  activation ← parsePersistedActivation i;
  Ok (streq activation (e_activation e) && streq (i_deploymentGeneration i) (e_deploymentGeneration e) &&
      streq (i_componentId i) (e_componentId e)).

(** [#commitEffect] *)
Definition commitEffect (d : Durable) (e : ReconcileEffect) (claim : OutboxClaim) (binding : option json)
  : result exn (Durable * bool) :=
  match du_instances d !! e_instanceId e with
  | None => Ok (d, false)
  | Some (i, _) =>
      current ← still_current e i;
      if negb current then Ok (d, true)
      else
        l ← successfulLifecycle (e_kind e) i;
        let d' := put_instance (journal d (e_operationId e) JournalCompleted) (e_instanceId e)
                    (committed_instance e binding l i) in
        Ok (acknowledge d' claim, false)
  end.

Definition effect_diagnostic (kind : ReconcileEffectKind) : jstring :=
  match kind with
  | EffectStart => js "LIFECYCLE_START_FAILED"
  | EffectPrepare => js "LIFECYCLE_PREPARE_FAILED"
  | EffectDrain => js "LIFECYCLE_DRAIN_FAILED"
  | EffectStop => js "LIFECYCLE_STOP_FAILED"
  end.

Definition failed_instance (e : ReconcileEffect) (attempt : Z) (retryAt : jstring) (l : ComponentLifecycleState)
    (i : PersistedComponentInstance) : PersistedComponentInstance :=
  {| i_instanceId := i_instanceId i; i_activation := i_activation i; i_hasStarted := i_hasStarted i;
     i_applicationId := i_applicationId i; i_pluginId := i_pluginId i; i_componentId := i_componentId i;
     i_deploymentGeneration := i_deploymentGeneration i; i_observedGeneration := i_observedGeneration i;
     i_lifecycle := l; i_executor := i_executor i; i_workerId := i_workerId i;
     i_artifactDigest := i_artifactDigest i; i_executionBinding := i_executionBinding i;
     i_attempt := Some attempt; i_retryAt := Some retryAt; i_retryEffect := Some (e_kind e);
     i_diagnostic := Some (effect_diagnostic (e_kind e));
     i_completedOperationId := i_completedOperationId i; i_completedOperationIds := i_completedOperationIds i |}.

(** [#commitFailedEffect] *)
Definition commitFailedEffect (d : Durable) (e : ReconcileEffect) (claim : OutboxClaim) (now : Z)
  : result exn (Durable * bool) :=
  match deterministicRetryDelay {| rd_attempt := NInt (k_attempt claim); rd_baseDelayMs := NInt 1000;
          rd_maxDelayMs := NInt 60000; rd_operationId := e_operationId e |} with
  | Err RANGE_ERROR => Err RangeError
  | Ok retryDelay =>
      let retryAt := now + retryDelay in
      match du_instances d !! e_instanceId e with
      | None => Ok (d, false)
      | Some (i, _) =>
          current ← still_current e i;
          if negb current then Ok (d, true)
          else
            l ← move_to CpFailed i;
            let d' := put_instance (journal d (e_operationId e) JournalFailed) (e_instanceId e)
                        (failed_instance e (k_attempt claim) (toISOString retryAt) l i) in
            Ok (settle_message d' (m_messageId (k_message claim)) (Some retryAt), false)
      end
  end.

(** What a claim led to. *)
Inductive claim_outcome := OutcomeConflict | OutcomeSettled | OutcomePerformed (e : ReconcileEffect) | OutcomeInterrupted (e : ReconcileEffect).

(** [#executeClaim]: the state, whether to plan again, and the outcome.
    [perform] is the component effect executor. *)
Definition executeClaim (perform : ReconcileEffect → effect_result) (d : Durable) (claim : OutboxClaim)
    (batchNow : Z) : result exn (Durable * bool * claim_outcome) :=
  let now := Z.max (k_claimedAt claim) batchNow in
  decision ← decide_claim d claim now;
  match decision with
  | ClaimConflict => Ok (d, false, OutcomeConflict)
  | ClaimReject => Ok (rejectInvalidClaim d claim now, false, OutcomeSettled)
  | ClaimAcknowledge replan => Ok (acknowledge d claim, replan, OutcomeSettled)
  | ClaimRetry at_ replan => Ok (retryClaim d claim at_ now, replan, OutcomeSettled)
  | ClaimPerform e exactRecoveryEffect retryPreState =>
      match du_instances d !! e_instanceId e with
      | None => Ok (d, false, OutcomeSettled)
      | Some (i, revision) =>
          '(d1, authorization) ← begin_effect d e i revision exactRecoveryEffect retryPreState;
          match authorization with
          | Authorized =>
              match perform e with
              | EffectThrew =>
                  '(d2, replan) ← commitFailedEffect d1 e claim now;
                  Ok (d2, replan, OutcomePerformed e)
              | EffectInterrupted => Ok (d1, false, OutcomeInterrupted e)
              | EffectDone binding =>
                  '(d2, replan) ← commitEffect d1 e claim binding;
                  Ok (d2, replan, OutcomePerformed e)
              end
          | RetryAuthorization => Ok (retryClaim d1 claim None now, true, OutcomeSettled)
          | Abandoned | Superseded => Ok (acknowledge d1 claim, true, OutcomeSettled)
          end
      end
  end.

(** *** Persisted sessions

    What [#restorePersistedComponents] does of the persisted instances: the
    identities of a restoration, the records it keeps, and the loop. *)
Definition LIFECYCLE_RESTORE_FAILED : jstring := js "LIFECYCLE_RESTORE_FAILED".
Definition instance_identities (i : ComponentInstance) (kind : ReconcileEffectKind) : result exn EffectIdentities :=
  identities sha256 (ci_legacyActivation i) (instance_generation (ci_value i)) (i_componentId (ci_value i)) kind
    (ci_activation i).
Definition restorationOperationId (i : ComponentInstance) : result exn jstring :=
  x ← instance_identities i EffectPrepare;
  parseOperationId (VStr (take (length (ei_operationId x) - 7) (ei_operationId x) ++ js "restore")).
Definition startingEffect (i : ComponentInstance) : result exn ReconcileEffect :=
  let v := ci_value i in
  match i_artifactDigest v with
  | Some digest =>
      if bool_decide (i_lifecycle v = CpStarting) then
        x ← instance_identities i EffectStart;
        Ok {| e_kind := EffectStart; e_activation := ci_activation i; e_operationId := ei_operationId x;
              e_messageId := ei_messageId x; e_instanceId := ei_instanceId x;
              e_applicationId := i_applicationId v; e_pluginId := i_pluginId v; e_componentId := i_componentId v;
              e_deploymentGeneration := i_deploymentGeneration v; e_artifactDigest := digest;
              e_executor := i_executor v; e_workerId := i_workerId v; e_executionBinding := i_executionBinding v |}
      else Err TypeError
  | None => Err TypeError
  end.


Definition stopping_instance (v : PersistedComponentInstance) : result exn PersistedComponentInstance :=
  let step l next :=
    match transitionComponentLifecycle l next with
    | Ok l => Ok l
    | Err _ => Err (DiagnosticError "LIFECYCLE_TRANSITION_INVALID")
    end in
  draining ← (if bool_decide (i_lifecycle v = CpReady) || bool_decide (i_lifecycle v = CpDegraded)
              then step (i_lifecycle v) CpDraining else Ok (i_lifecycle v));
  l ← step draining CpStopping;
  Ok (with_lifecycle l v).

Definition unrestored_instance (attempt : Z) (retryAt : jstring) (i : PersistedComponentInstance) : PersistedComponentInstance :=
  {| i_instanceId := i_instanceId i; i_activation := i_activation i; i_hasStarted := i_hasStarted i;
     i_applicationId := i_applicationId i; i_pluginId := i_pluginId i; i_componentId := i_componentId i;
     i_deploymentGeneration := i_deploymentGeneration i; i_observedGeneration := i_observedGeneration i;
     i_lifecycle := i_lifecycle i; i_executor := i_executor i; i_workerId := i_workerId i;
     i_artifactDigest := i_artifactDigest i; i_executionBinding := i_executionBinding i;
     i_attempt := Some attempt; i_retryAt := Some retryAt; i_retryEffect := i_retryEffect i;
     i_diagnostic := Some LIFECYCLE_RESTORE_FAILED;
     i_completedOperationId := i_completedOperationId i; i_completedOperationIds := i_completedOperationIds i |}.

Definition unfailed (i : PersistedComponentInstance) : bool := negb (bool_decide (i_diagnostic i = Some LIFECYCLE_RESTORE_FAILED)).

Definition retries_termination (v : PersistedComponentInstance) : bool :=
  bool_decide (i_lifecycle v = CpFailed) &&
  (bool_decide (i_retryEffect v = Some EffectDrain) || bool_decide (i_retryEffect v = Some EffectStop)).
Definition restorable_lifecycle (v : PersistedComponentInstance) : bool :=
  bool_decide (i_lifecycle v ∈ [CpPreparing; CpStarting; CpReady; CpDegraded; CpDraining; CpStopping]) ||
  retries_termination v.
Definition historical_lifecycle (v : PersistedComponentInstance) : bool :=
  bool_decide (i_lifecycle v ∈ [CpReady; CpDegraded; CpDraining; CpStopping]) || retries_termination v.

(** A transaction that appends operations, under the next revision. *)
Definition appended (d : Durable) (operations : list (jstring * journal_status)) : Durable :=
  {| du_deployments := du_deployments d; du_instances := du_instances d; du_losses := du_losses d;
     du_outbox := du_outbox d; du_operations := du_operations d ++ operations;
     du_sequence := du_sequence d; du_revision := du_revision d + 1 |}.

(** [#markTerminationRestored]: what was loaded decides whether, what is stored is written. *)
Definition mark_termination_restored (d : Durable) (i : ComponentInstance) : result exn Durable :=
  let key := i_instanceId (ci_value i) in
  if bool_decide (i_lifecycle (ci_value i) = CpStopping) then Ok d
  else
    match du_instances d !! key with
    | None => Ok d
    | Some (v, _) =>
        if bool_decide (i_lifecycle v = CpStopping) then Ok d
        else v' ← stopping_instance v; Ok (put_instance (appended d []) key v')
    end.

(** [#recordRestorationFailure] *)
Definition record_restoration_failure (d : Durable) (i : ComponentInstance) (now : Z) : result exn Durable :=
  operationId ← restorationOperationId i;
  let key := i_instanceId (ci_value i) in
  match du_instances d !! key with
  | None => Ok d
  | Some (v, _) =>
      let nextAttempt := default 0 (i_attempt v) + 1 in
      match deterministicRetryDelay {| rd_attempt := NInt nextAttempt; rd_baseDelayMs := NInt 1000;
              rd_maxDelayMs := NInt 60000; rd_operationId := operationId |} with
      | Err _ => Err RangeError
      | Ok delay =>
          Ok (put_instance (journal d operationId JournalFailed) key
                (unrestored_instance nextAttempt (toISOString (now + delay)) v))
      end
  end.

(** [#clearRestorationFailure] *)
Definition clear_restoration_failure (d : Durable) (i : ComponentInstance) : result exn Durable :=
  let key := i_instanceId (ci_value i) in
  if unfailed (ci_value i) then Ok d
  else
    match du_instances d !! key with
    | None => Ok d
    | Some (v, revision) =>
        if unfailed v then Ok d
        else
          loaded ← load_instance (i_instanceId v) v revision;
          operationId ← restorationOperationId (li_value loaded);
          Ok (put_instance (journal d operationId JournalCompleted) key (settled_instance (i_lifecycle v) v))
    end.

(** The component lifecycle of the executor: which sessions live when a pass comes to
    them, and whether a call brings the session back; a start and a termination are
    restored only where the executor can. *)
Record ComponentLifecycleExecutor := {
  cx_isLive : ComponentInstance → bool;
  cx_restore : ComponentInstance → bool;
  cx_restoreStarting : option (ReconcileEffect → bool);
  cx_restoreTermination : option (ComponentInstance → bool);
}.

(** What a pass is decided by besides the gates: whether a stale binding could be
    deleted ([#cleanupCapabilityBindings]), what [#reconcileProviderLosses] commits,
    the executor's component lifecycle, the installed artifacts, and
    [#isPersistedRemotePlacementEligible]. *)
Inductive loss_transition := ToReady | ToDegraded.
Definition loss_lifecycle (t : loss_transition) : ComponentLifecycleState :=
  match t with ToReady => CpReady | ToDegraded => CpDegraded end.
Record loss_commit := {
  lc_losses : list PersistedProviderLoss;
  lc_fenced : list (jstring * Z);
  lc_moving : list (jstring * Z);
  lc_next : option loss_transition;
  lc_steps : list ReconcilePlanStep;
}.
Record pass_environment := {
  pe_cleanup : Durable → bool;
  pe_losses : Durable → list (PluginDeployment * gate_outcome) → list (PluginDeployment * list jstring) + loss_commit;
  pe_lifecycle : option ComponentLifecycleExecutor;
  pe_isInstalled : jstring → jstring → bool;
  pe_remoteEligible : Durable → ComponentInstance → bool;
}.
Context (env : pass_environment).

(** The active deployment an instance is of, at its generation and artifact. *)
Definition active_of (v : PersistedComponentInstance) (p : PluginDeployment) : bool :=
  bool_decide (d_state p = Active) && same_deployment (i_applicationId v) (i_pluginId v) p &&
  streq (d_generation p) (i_deploymentGeneration v) && bool_decide (Some (d_artifactDigest p) = i_artifactDigest v).
Definition restorable (d : Durable) (now : jstring) (i : ComponentInstance) : bool :=
  let v := ci_value i in
  restorable_lifecycle v && negb (later (i_retryAt v) now) &&
  match i_workerId v with
  | None => true
  | Some w => existsb (λ x, streq (w_workerId x) w) workers
  end &&
  negb (bool_decide (i_artifactDigest v = None)) && includes supportedExecutors (i_executor v) &&
  (existsb (active_of v) (du_deployments d) ||
   negb (bool_decide (i_executionBinding v = None)) && historical_lifecycle v &&
   existsb (same_deployment (i_applicationId v) (i_pluginId v)) (du_deployments d) &&
   match i_artifactDigest v with Some digest => pe_isInstalled env (i_pluginId v) digest | None => false end).
Definition requiresHistoricalTermination (d : Durable) (v : PersistedComponentInstance) : bool :=
  match List.find (same_deployment (i_applicationId v) (i_pluginId v)) (du_deployments d) with
  | None => false
  | Some p =>
      negb (bool_decide (i_executionBinding v = None)) &&
      (bool_decide (d_state p = Disabled) || negb (streq (d_generation p) (i_deploymentGeneration v)) ||
       negb (bool_decide (Some (d_artifactDigest p) = i_artifactDigest v)))
  end.
Definition holds_instance (v : PersistedComponentInstance) (l : PersistedProviderLoss) : bool :=
  loss_of (i_applicationId v) (i_pluginId v) l && streq (l_deploymentGeneration l) (i_deploymentGeneration v) &&
  negb (bool_decide (l_action l = LossDegrade)).
(** An instance, as [#authorizeRecoveryEffect] looks at it. *)
Definition recovery_target (i : ComponentInstance) : ReconcileEffect :=
  let v := ci_value i in
  {| e_kind := EffectPrepare; e_activation := ci_activation i; e_operationId := []; e_messageId := [];
     e_instanceId := i_instanceId v; e_applicationId := i_applicationId v; e_pluginId := i_pluginId v;
     e_componentId := i_componentId v; e_deploymentGeneration := i_deploymentGeneration v;
     e_artifactDigest := default [] (i_artifactDigest v); e_executor := i_executor v; e_workerId := i_workerId v;
     e_executionBinding := i_executionBinding v |}.

(** [try { ... } catch (error) { await this.#recordRestorationFailure(...) }]: what the
    body has committed before it throws stays. *)
Definition restore_termination (f : ComponentInstance → bool) (d : Durable) (i : ComponentInstance) (now : Z)
  : result exn Durable :=
  if f i then
    match mark_termination_restored d i with
    | Err _ => record_restoration_failure d i now
    | Ok d' =>
        match clear_restoration_failure d' i with
        | Err _ => record_restoration_failure d' i now
        | Ok d'' => Ok d''
        end
    end
  else record_restoration_failure d i now.
Definition restore_cleared (d : Durable) (i : ComponentInstance) (restored : bool) (now : Z) : result exn Durable :=
  if restored then
    match clear_restoration_failure d i with
    | Err _ => record_restoration_failure d i now
    | Ok d' => Ok d'
    end
  else record_restoration_failure d i now.

(** One instance: [d0] is what the pass has loaded, [d] the state it is restored in. *)
Definition restore_instance (x : ComponentLifecycleExecutor) (d0 d : Durable) (now : Z) (i : ComponentInstance)
  : result exn (Durable * bool) :=
  let v := ci_value i in
  let kept r := d' ← r; Ok (d', false) in
  let terminated :=
    match cx_restoreTermination x with
    | None => Ok (d, false)
    | Some f => kept (restore_termination f d i now)
    end in
  if requiresHistoricalTermination d0 v then terminated
  else
    let hold := List.find (holds_instance v) (du_losses d0) in
    let suspended :=
      match hold with
      | Some l => if bool_decide (l_action l = LossSuspend) then Some l else None
      | None => None
      end in
    let recovering := match suspended with Some l => recovers (recovery_target i) l | None => false end in
    let ready := match suspended with Some l => prerequisites d0 l | None => false end in
    if recovering && negb ready then Ok (d, false)
    else if negb recovering && (match hold with Some _ => true | None => false end) then
      if bool_decide (i_lifecycle v = CpPreparing) then Ok (d, false) else terminated
    else if bool_decide (i_executor v = Remote) && negb (pe_remoteEligible env d0 i) then Ok (d, false)
    else if bool_decide (i_lifecycle v = CpStarting) then
      match cx_restoreStarting x with
      | None => Ok (d, false)
      | Some f =>
          kept (restore_cleared d i (match startingEffect i with Ok e => f e | Err _ => false end) now)
      end
    else if (bool_decide (i_lifecycle v = CpReady) || bool_decide (i_lifecycle v = CpDegraded)) && cx_isLive x i
    then
      d' ← clear_restoration_failure d i; Ok (d', false)
    else if recovering then
      '(d1, authorization) ← authorizeRecoveryEffect d (recovery_target i) (i_lifecycle v) (ci_revision i);
      match authorization with
      | Authorized => kept (restore_cleared d1 i (cx_restore x i) now)
      | _ => Ok (d1, true)
      end
    else kept (restore_cleared d i (cx_restore x i) now).
Fixpoint restore_instances (x : ComponentLifecycleExecutor) (d0 d : Durable) (now : Z) (l : list ComponentInstance)
  : result exn (Durable * bool) :=
  match l with
  | [] => Ok (d, false)
  | i :: l' =>
      '(d1, replan) ← restore_instance x d0 d now i;
      '(d2, replan') ← restore_instances x d0 d1 now l';
      Ok (d2, replan || replan')
  end.

Fixpoint consistent_instances (loaded : list LoadedComponentInstance) (deployments : list PluginDeployment)
  : result exn (list ComponentInstance) :=
  match loaded with
  | [] => Ok []
  | r :: rest =>
      consistent ← isInstanceContextConsistent r deployments;
      others ← consistent_instances rest deployments;
      Ok (if (consistent : bool) then li_value r :: others else others)
  end.

(** [#restorePersistedComponents]: the state, and whether a recovery was not authorized. *)
Definition restorePersistedComponents (d : Durable) (loaded : list LoadedComponentInstance) (now : Z)
  : result exn (Durable * bool) :=
  match pe_lifecycle env with
  | None => Ok (d, false)
  | Some x =>
      good ← consistent_instances loaded (du_deployments d);
      restore_instances x d d now
        (js_sort (λ a b, compareText (i_instanceId (ci_value a)) (i_instanceId (ci_value b)))
          (List.filter (restorable d (toISOString now)) good))
  end.

(** *** Provider losses *)

(** The instance a recovery creates. *)
Definition recovery_instance (e : ReconcileEffect) : PersistedComponentInstance :=
  {| i_instanceId := e_instanceId e; i_activation := Some (e_activation e); i_hasStarted := None;
     i_applicationId := e_applicationId e; i_pluginId := e_pluginId e; i_componentId := e_componentId e;
     i_deploymentGeneration := e_deploymentGeneration e; i_observedGeneration := e_deploymentGeneration e;
     i_lifecycle := CpCreated; i_executor := e_executor e; i_workerId := e_workerId e;
     i_artifactDigest := Some (e_artifactDigest e); i_executionBinding := None;
     i_attempt := None; i_retryAt := None; i_retryEffect := None; i_diagnostic := None;
     i_completedOperationId := None; i_completedOperationIds := None |}.

(** An instance as it is stored at the revision it was loaded at. *)
Definition expected_instance (d : Durable) (x : jstring * Z) : option PersistedComponentInstance :=
  match du_instances d !! x.1 with
  | Some (v, revision) => if revision =? x.2 then Some v else None
  | None => None
  end.
Definition moved_instance (next : option loss_transition) (v : PersistedComponentInstance)
  : result exn PersistedComponentInstance :=
  match transitionComponentLifecycle (i_lifecycle v) (default (i_lifecycle v) (loss_lifecycle <$> next)) with
  | Ok l => Ok (with_lifecycle l v)
  | Err LIFECYCLE_TRANSITION_INVALID => Err (DiagnosticError "LIFECYCLE_TRANSITION_INVALID")
  end.

(** What the transaction of [#reconcileProviderLosses] commits: it writes the instances
    it relies on again, as they are, moves the consumer's, and creates those of a
    recovery. [None] is a transaction that came too late. *)
Definition staged_instances (d : Durable) (w : loss_commit) : option (result exn (list (jstring * PersistedComponentInstance))) :=
  fenced ← mapM (λ x, v ← expected_instance d x; Some (x.1, v)) (lc_fenced w);
  moving ← mapM (λ x, v ← expected_instance d x; Some (x.1, v)) (lc_moving w);
  if existsb (λ s, negb (bool_decide (du_instances d !! e_instanceId (s_effect s) = None))) (lc_steps w) then None
  else
    Some (
      moved ← mapM (λ x : jstring * PersistedComponentInstance, v ← moved_instance (lc_next w) x.2; Ok (x.1, v)) moving;
      Ok (fenced ++ moved ++ map (λ s, (e_instanceId (s_effect s), recovery_instance (s_effect s))) (lc_steps w))).
Definition enqueue_step (now : Z) (d : option Durable) (s : ReconcilePlanStep) : option Durable :=
  d ← d;
  enqueue d (e_messageId (s_effect s)) (e_operationId (s_effect s)) (Some (s_effect s, false)) now.
Definition commit_losses (d : Durable) (w : loss_commit) (now : Z) : result exn Durable :=
  match staged_instances d w with
  | None => Ok d
  | Some staged =>
      puts ← staged;
      let d' := with_losses (appended d (map (λ s, (e_operationId (s_effect s), JournalPlanned)) (lc_steps w))) (lc_losses w) in
      let d2 := foldl (λ d x, put_instance d x.1 x.2) d' puts in
      match foldl (enqueue_step now) (Some d2) (lc_steps w) with
      | Some d3 => Ok d3
      | None => Err (DiagnosticError "STATE_IDEMPOTENCY_CONFLICT")
      end
  end.

(** *** Passes *)
Definition deploymentKey (d : PluginDeployment) : jstring := d_applicationId d ++ js "/" ++ d_pluginId d.
Definition by_key (a b : PluginDeployment) : Z := compareText (deploymentKey a) (deploymentKey b).

Definition of_deployment (d : PluginDeployment) (i : ComponentInstance) : bool :=
  streq (i_applicationId (ci_value i)) (d_applicationId d) && streq (i_pluginId (ci_value i)) (d_pluginId d).

(** The instances whose identity and context are consistent, and the others. *)
Fixpoint sort_instances (loaded : list LoadedComponentInstance) (deployments : list PluginDeployment)
  : result exn (list ComponentInstance * list ComponentInstance) :=
  match loaded with
  | [] => Ok ([], [])
  | r :: rest =>
      consistent ← isInstanceContextConsistent r deployments;
      rest_sorted ← sort_instances rest deployments;
      Ok (if (consistent : bool) then (li_value r :: rest_sorted.1, rest_sorted.2) else (rest_sorted.1, li_value r :: rest_sorted.2))
  end.

(** The gates of the deployments that have no inconsistent instance; [None] is a
    conflict of capability bindings. *)
Fixpoint collect_gates (d : Durable) (bad : list ComponentInstance) (deployments : list PluginDeployment)
  : option (list (PluginDeployment * gate_outcome)) :=
  match deployments with
  | [] => Some []
  | dep :: rest =>
      if existsb (of_deployment dep) bad then collect_gates d bad rest
      else
        outcome ← gate d dep;
        gates ← collect_gates d bad rest;
        Some ((dep, outcome) :: gates)
  end.

(** The rank of a deployment in the first activation order that names it. *)
Definition order_ranks (gates : list (PluginDeployment * gate_outcome)) : jsmap jstring Z :=
  foldl (λ ranks g,
    match g.2 with
    | GateOpen gate =>
        (foldl (λ '(ranks, index) identity,
           let key := identity.1 ++ js "/" ++ identity.2 in
           (if JsMap.has ranks key then ranks else JsMap.set ranks key index, index + 1))
          (ranks, 0) (ag_order gate)).1
    | GateError _ => ranks
    end) [] gates.
Definition compare_ranked (ranks : jsmap jstring Z) (a b : PluginDeployment) : Z :=
  if negb (streq (d_applicationId a) (d_applicationId b)) then compareText (d_applicationId a) (d_applicationId b)
  else match JsMap.get ranks (deploymentKey a), JsMap.get ranks (deploymentKey b) with
       | None, None => by_key a b
       | None, Some _ => 1
       | Some _, None => -1
       | Some x, Some y => or_else (x - y) (by_key a b)
       end.

(** The steps of a plan, one transaction each. *)
Fixpoint persist_steps (d : Durable) (deployment : PluginDeployment) (steps : list ReconcilePlanStep) (now : Z)
  : result exn (Durable * bool) :=
  match steps with
  | [] => Ok (d, false)
  | s :: rest =>
      '(d1, replan) ← persistStep d deployment s now;
      '(d2, replan') ← persist_steps d1 deployment rest now;
      Ok (d2, replan || replan')
  end.

Definition held (dep : PluginDeployment) (l : PersistedProviderLoss) : bool :=
  loss_of (d_applicationId dep) (d_pluginId dep) l && streq (l_deploymentGeneration l) (d_generation dep) &&
  negb (bool_decide (l_action l = LossDegrade)).

(** What a deployment is planned on: a recovery that is not ready hides its
    instances and suspends the rest. *)
Definition planning_snapshot (d : Durable) (dep : PluginDeployment) (g : ArtifactDeploymentGate)
    (instances : list ComponentInstance) (now : Z) : ReconcileSnapshot :=
  let hold := List.find (held dep) (du_losses d) in
  let suspension :=
    match hold with
    | Some l => if bool_decide (l_action l = LossSuspend) then Some l else None
    | None => None
    end in
  let own := List.filter (of_deployment dep) instances in
  let ready :=
    match suspension with
    | Some l => match l_recoveryActivations l with Some _ => prerequisites d l | None => false end
    | None => false
    end in
  {| sn_deployment := dep; sn_gate := g;
     sn_instances :=
       match suspension ≫= l_recoveryActivations with
       | Some activations =>
           if ready then own
           else List.filter (λ i, negb (bool_decide
                  (JsMap.get activations (i_componentId (ci_value i)) = Some (ci_activation i)))) own
       | None => own
       end;
     sn_now := toISOString now;
     sn_supportedExecutors := supportedExecutors; sn_workers := workers;
     sn_suspended :=
       match hold with Some l => bool_decide (l_action l = LossFail) | None => false end ||
       match suspension with Some _ => negb ready | None => false end;
     sn_activations := [] |}.

(** The codes of the diagnostics of a blocked deployment. *)
Definition diagnostic_code (p : plan_diagnostic) : jstring :=
  match p with
  | GateDiagnostic code => code
  | DEPLOYMENT_INSTANCE_INCONSISTENT _ _ => js "DEPLOYMENT_INSTANCE_INCONSISTENT"
  | PlacementFailed DEPLOYMENT_EXECUTOR_UNAVAILABLE _ => js "DEPLOYMENT_EXECUTOR_UNAVAILABLE"
  | PlacementFailed PERMISSION_GRANT_EXCEEDED _ => js "PERMISSION_GRANT_EXCEEDS_REQUEST"
  end.
Abbreviation blocked_deployments := (list (PluginDeployment * list jstring)).

(** The deployments in order: the state, whether to plan again, and the
    deployments that are blocked. [d0] is what the pass has loaded. *)
Fixpoint plan_deployments (d0 d : Durable) (gates : list (PluginDeployment * gate_outcome))
    (instances bad : list ComponentInstance) (deployments : list PluginDeployment) (now : Z)
  : result exn (Durable * bool * blocked_deployments) :=
  match deployments with
  | [] => Ok (d, false, [])
  | dep :: rest =>
      let block codes :=
        '(d', replan, blocked) ← plan_deployments d0 d gates instances bad rest now;
        Ok (d', replan, (dep, codes) :: blocked) in
      if existsb (of_deployment dep) bad then block [js "DEPLOYMENT_INSTANCE_INCONSISTENT"]
      else
        match List.find (λ g, streq (deploymentKey g.1) (deploymentKey dep)) gates with
        | None => plan_deployments d0 d gates instances bad rest now
        | Some (_, GateError code) => block [code]
        | Some (_, GateOpen g) =>
            plan ← planReconcile domainToASCII sha256 (planning_snapshot d0 dep g instances now);
            if rp_blocked plan then block (map diagnostic_code (rp_diagnostics plan))
            else
              '(d1, replan) ← persist_steps d dep (rp_steps plan) now;
              '(d2, replan', blocked) ← plan_deployments d0 d1 gates instances bad rest now;
              Ok (d2, replan || replan', blocked)
        end
  end.

(** *** Readiness *)
Context (isLive : ComponentInstance → bool).
Definition isReadyAndLive (i : ComponentInstance) : bool :=
  bool_decide (i_lifecycle (ci_value i) = CpReady) && isLive i.

Definition restore_waits (i : PersistedComponentInstance) (now : jstring) : bool :=
  bool_decide (i_diagnostic i = Some (js "LIFECYCLE_RESTORE_FAILED")) && later (i_retryAt i) now.

(** [#needsImmediateReconcile] *)
Definition needsImmediateReconcile (i : PersistedComponentInstance) (now : jstring) : bool :=
  if restore_waits i now then false
  else match i_lifecycle i with
       | CpCreated | CpPreparing | CpStarting | CpDraining | CpStopping => true
       | CpFailed => match i_retryEffect i with Some _ => negb (later (i_retryAt i) now) | None => false end
       | CpReady | CpDegraded | CpStopped => false
       end.

(** The latest instance of a component: the highest activation, the first of equals. *)
Definition latest_of (componentId : jstring) (instances : list ComponentInstance) : option ComponentInstance :=
  head (js_sort (λ a b, compareActivations (ci_activation b) (ci_activation a))
          (List.filter (λ i, streq (i_componentId (ci_value i)) componentId) instances)).

Context (installed : PluginDeployment → option (list PluginComponent)).

(** [#refreshReadiness]: whether a deployment that is not blocked is ready. *)
Definition deployment_ready (d : Durable) (good : list ComponentInstance) (dep : PluginDeployment) : bool :=
  let all := List.filter (of_deployment dep) good in
  let own := List.filter (λ i, streq (i_deploymentGeneration (ci_value i)) (d_generation dep)) all in
  bool_decide (d_state dep = Active) &&
  forallb (λ i, bool_decide (i_diagnostic (ci_value i) = None)) all &&
  negb (existsb (held dep) (du_losses d)) &&
  match installed dep with
  | None => false
  | Some components =>
      forallb (λ c, match latest_of (pc_componentId c) own with Some i => isReadyAndLive i | None => false end)
        components
  end.

(** The codes of a deployment's diagnostics after the readiness is refreshed. *)
Definition refreshed_codes (d : Durable) (good : list ComponentInstance) (blocked : blocked_deployments)
    (dep : PluginDeployment) : list jstring :=
  if bool_decide (d_state dep = Active) &&
     existsb (λ l, held dep l && bool_decide (l_action l = LossFail)) (du_losses d)
  then [js "CAPABILITY_PROVIDER_LOST"]
  else
    match omap (λ i, i_diagnostic (ci_value i)) (List.filter (of_deployment dep) good) with
    | [] => concat (map snd (List.filter (λ b, streq (deploymentKey b.1) (deploymentKey dep)) blocked))
    | failed => failed
    end.
Definition blocks (code : jstring) : bool :=
  startsWith (js "ARTIFACT_") code || startsWith (js "CAPABILITY_") code ||
  startsWith (js "DEPLOYMENT_") code || startsWith (js "PERMISSION_") code.

(** What the passes still have to do, once one has worked; the losses are those the
    pass has loaded. *)
Definition more_work (losses : list PersistedProviderLoss) (d : Durable) (blocked : blocked_deployments) (now : Z) : result exn bool :=
  loaded ← loadInstances d;
  sorted ← sort_instances loaded (du_deployments d);
  let good := sorted.1 in
  let codes := refreshed_codes d good blocked in
  let recovery_waits i :=
    match List.find (λ l, loss_of (i_applicationId (ci_value i)) (i_pluginId (ci_value i)) l &&
            streq (l_deploymentGeneration l) (i_deploymentGeneration (ci_value i)) &&
            bool_decide (l_action l = LossSuspend) &&
            match l_recoveryActivations l with
            | Some activations => bool_decide (JsMap.get activations (i_componentId (ci_value i)) = Some (ci_activation i))
            | None => false
            end) losses with
    | Some l => negb (prerequisites d l)
    | None => false
    end in
  Ok (existsb (λ i, negb (recovery_waits i) &&
        negb (existsb (λ dep, of_deployment dep i && existsb blocks (codes dep)) (du_deployments d)) &&
        needsImmediateReconcile (ci_value i) (toISOString now)) good ||
      existsb (λ dep, bool_decide (d_state dep = Active) && negb (deployment_ready d good dep) &&
        negb (existsb blocks (codes dep))) (du_deployments d) ||
      existsb (λ dep, existsb (startsWith (js "CAPABILITY_")) (codes dep)) (du_deployments d)).

Inductive pass_result := PassStopped | PassPending (again : bool).

(** A diagnostic of the losses is replaced by one of the plan. *)
Definition merge_blocked (exhausted blocked : blocked_deployments) : blocked_deployments :=
  List.filter (λ b, negb (existsb (λ c, streq (deploymentKey c.1) (deploymentKey b.1)) blocked)) exhausted ++ blocked.

(** [#reconcilePass]: persisted sessions are restored, a claim that waits is executed,
    the gates are opened and the losses settled, then the deployments are planned and,
    when there was no claim before, one is executed now. [seen] is what the pass has
    loaded when it plans: its losses are those of the last load. *)
Definition reconcilePass (perform : ReconcileEffect → effect_result) (d : Durable) (now : Z)
  : result exn (Durable * pass_result) :=
  persisted ← loadInstances d;
  if negb (pe_cleanup env d) then Ok (d, PassPending true)
  else
  '(restored, replan0) ← restorePersistedComponents d persisted now;
  loadInstances restored;;
  let '(d0, existingClaim) := claimNext restored now in
  '(d1, replan1, outcome1) ←
    match existingClaim with
    | Some claim => executeClaim perform d0 claim now
    | None => Ok (d0, false, OutcomeSettled)
    end;
  match outcome1 with
  | OutcomeConflict => Ok (d1, PassPending true)
  | OutcomeInterrupted _ => Ok (d1, PassStopped)
  | _ =>
      loaded ← loadInstances d1;
      let reloaded := match existingClaim with Some _ => true | None => false end in
      if reloaded && negb (pe_cleanup env d1) then Ok (d1, PassPending true)
      else
      let seen := if reloaded then d1 else with_losses d1 (du_losses d) in
      sorted ← sort_instances loaded (du_deployments seen);
      let good := sorted.1 in
      let bad := sorted.2 in
      let lexical := js_sort by_key (du_deployments seen) in
      match collect_gates seen bad lexical with
      | None => Ok (d1, PassPending true)
      | Some gates =>
          match pe_losses env seen gates with
          | inr w => d2 ← commit_losses d1 w now; Ok (d2, PassPending true)
          | inl exhausted =>
              '(d2, replan2, blocked) ←
                plan_deployments seen d1 gates good bad (js_sort (compare_ranked (order_ranks gates)) lexical) now;
              let '(d3, claim) := match existingClaim with Some _ => (d2, None) | None => claimNext d2 now end in
              '(d4, replan4, outcome4) ←
                match claim with
                | Some claim => executeClaim perform d3 claim now
                | None => Ok (d3, false, OutcomeSettled)
                end;
              match outcome4 with
              | OutcomeConflict => Ok (d4, PassPending true)
              | OutcomeInterrupted _ => Ok (d4, PassStopped)
              | _ =>
                  more ← more_work (du_losses seen) d4 (merge_blocked exhausted blocked) now;
                  let worked := match existingClaim, claim with None, None => false | _, _ => true end in
                  Ok (d4, PassPending ((worked || replan0 || replan1 || replan2 || replan4) && more))
              end
          end
      end
  end.

(** [#reconcileUntilQuiescent] with its budget of passes. *)
Fixpoint reconcileUntilQuiescent (perform : ReconcileEffect → effect_result) (maxConvergencePasses : nat)
    (d : Durable) (now : Z) : result exn Durable :=
  match maxConvergencePasses with
  | O => Err (DiagnosticError "LIFECYCLE_RECONCILE_DID_NOT_CONVERGE")
  | S budget =>
      '(d', r) ← reconcilePass perform d now;
      match r with
      | PassStopped | PassPending false => Ok d'
      | PassPending true => reconcileUntilQuiescent perform budget d' now
      end
  end.
End decisions.
End reconciler.
