(* ===== verification/ReconcilerLaws.v ===== *)
(** * What the reconciler guarantees of one effect

    Laws of Reconciler.v without any assumption on the environment: when an
    effect is performed, that a committed effect is never performed again, and
    that an instance only moves along the legal transitions, whichever transaction
    of a pass writes it. *)

From S2P Require Import Prelude JsString Collections JsValue Identity JsonText Time Permission Lifecycle Placement Retry Plan PlanProofs Reconciler.

Open Scope Z_scope.

(** ** The operations an instance has completed *)
Lemma foldl_distinct (acc l : list jstring) :
  let r := foldl (λ (ids : list jstring) id, if includes ids id then ids else ids ++ [id]) acc l in
  (∀ x, x ∈ r ↔ x ∈ acc ∨ x ∈ l) ∧ (NoDup acc → NoDup r).
Proof.
  revert acc. induction l as [|y l IH]; intros acc; cbn [foldl].
  - split; [|done]. intros x. rewrite elem_of_nil. tauto.
  - destruct (includes acc y) eqn:E; [apply includes_true in E|apply includes_false in E].
    + destruct (IH acc) as [H1 H2]. split; [|done]. intros x. rewrite H1, elem_of_cons. split; [tauto|]. intros [?|[->|?]]; auto.
    + destruct (IH (acc ++ [y])) as [H1 H2]. split.
      * intros x. rewrite H1, elem_of_cons, elem_of_app, list_elem_of_singleton. tauto.
      * intros Hn. apply H2, NoDup_app. split_and!; [done| |apply NoDup_singleton].
        intros z Hz ->%list_elem_of_singleton. done.
Qed.

Lemma complete_operation_in operationId i x :
  x ∈ complete_operation operationId i ↔ x ∈ default [] (i_completedOperationIds i) ∨ x = operationId.
Proof.
  unfold complete_operation. destruct (foldl_distinct [] (default [] (i_completedOperationIds i) ++ [operationId])) as [H _].
  rewrite H, elem_of_nil, elem_of_app, list_elem_of_singleton. tauto.
Qed.

Lemma completed_committed e b l i operationId :
  completed (committed_instance e b l i) operationId = true ↔
  operationId = e_operationId e ∨ operationId ∈ default [] (i_completedOperationIds i).
Proof.
  unfold completed. cbn. rewrite orb_true_iff, bool_decide_eq_true, includes_true, complete_operation_in.
  split; [intros [[= <-]|[?|?]]; auto|intros [->|?]; auto].
Qed.

Section laws.
Context (domainToASCII : jstring → jstring) (sha256 : jstring → jstring)
  (supportedExecutors : list ExecutorKind) (workers : list PlacementWorker)
  (gate : Durable → PluginDeployment → option gate_outcome)
  (prerequisites : Durable → PersistedProviderLoss → bool).
Abbreviation decide_effect := (decide_effect domainToASCII supportedExecutors workers gate prerequisites).
Abbreviation decide_claim := (decide_claim domainToASCII sha256 supportedExecutors workers gate prerequisites).
Abbreviation executeClaim := (executeClaim domainToASCII sha256 supportedExecutors workers gate prerequisites).

(** ** When an effect is performed *)

(** The instance waits for the effect: it is where the effect starts from, or
    failed in it and the retry is due. *)
Definition awaits (i : PersistedComponentInstance) (kind : ReconcileEffectKind) (now : Z) : Prop :=
  i_lifecycle i = expectedLifecycle kind ∨
  (i_lifecycle i = CpFailed ∧ i_retryEffect i = Some kind ∧ later (i_retryAt i) (toISOString now) = false).

(** The deployment wants the effect's component to run, and its gate lets it. *)
Definition admitted (d : Durable) (e : ReconcileEffect) : Prop :=
  ∃ dep g c,
    dep ∈ du_deployments d ∧ d_applicationId dep = e_applicationId e ∧ d_pluginId dep = e_pluginId e ∧
    d_state dep = Active ∧ d_generation dep = e_deploymentGeneration e ∧
    d_artifactDigest dep = e_artifactDigest e ∧
    gate d dep = Some (GateOpen g) ∧ ag_capability_ok g = true ∧ ag_permission_allowed g = true ∧
    c ∈ ag_components g ∧ pc_componentId c = e_componentId e ∧
    allowed_placement domainToASCII
      {| pi_artifactDigest := e_artifactDigest e; pi_component := c;
         pi_grantedPermissions := default (JArr []) (ag_granted g);
         pi_supportedExecutors := supportedExecutors; pi_workers := workers |}
      {| cpl_executor := e_executor e; cpl_workerId := e_workerId e |}.

(** A provider loss that holds the effect back: a failing one, or a suspending
    one the effect does not recover from with its prerequisites ready. *)
Definition held_back (d : Durable) (e : ReconcileEffect) : Prop :=
  ∃ l, List.find (holds e) (du_losses d) = Some l ∧
    (l_action l = LossFail ∨
     (l_action l = LossSuspend ∧ (recovers e l = false ∨ prerequisites d l = false))).

Lemma decide_lifecycle_perform e i x now e' x' pre :
  decide_lifecycle e i x now = ClaimPerform e' x' pre → e' = e ∧ awaits i (e_kind e) now.
Proof.
  unfold decide_lifecycle. set (r := bool_decide (i_lifecycle i = CpFailed) && _ && _).
  destruct (bool_decide (i_lifecycle i = expectedLifecycle (e_kind e))) eqn:El; cbn [negb andb].
  - intros [= <- _ _]. apply bool_decide_eq_true in El. split; [done|by left].
  - destruct r eqn:Er; cbn [negb]; [|done]. intros [= <- _ _]. split; [done|]. right. unfold r in Er.
    rewrite !andb_true_iff, !bool_decide_eq_true, negb_true_iff in Er. tauto.
Qed.

Lemma same_deployment_true a p d :
  same_deployment a p d = true ↔ d_applicationId d = a ∧ d_pluginId d = p.
Proof. unfold same_deployment. by rewrite andb_true_iff, 2!streq_true. Qed.

Lemma desires_true e desired :
  desires e desired = true ↔
  ∃ dep, desired = Some dep ∧ d_state dep = Active ∧ d_generation dep = e_deploymentGeneration e ∧
    d_artifactDigest dep = e_artifactDigest e.
Proof.
  destruct desired as [dep|]; cbn; [|split; [done|by intros (? & ? & _)]].
  rewrite 2!andb_true_iff, bool_decide_eq_true, 2!streq_true. split; [|by intros (? & [= <-] & ? & ? & ?)].
  intros [[? ?] ?]. by exists dep.
Qed.

Lemma decide_gated_perform e i x g now e' x' pre :
  decide_gated domainToASCII supportedExecutors workers e i x (Some (GateOpen g)) now = ClaimPerform e' x' pre →
  e' = e ∧ awaits i (e_kind e) now ∧
  ag_capability_ok g = true ∧ ag_permission_allowed g = true ∧
  ∃ c, c ∈ ag_components g ∧ pc_componentId c = e_componentId e ∧
    allowed_placement domainToASCII
      {| pi_artifactDigest := e_artifactDigest e; pi_component := c;
         pi_grantedPermissions := default (JArr []) (ag_granted g);
         pi_supportedExecutors := supportedExecutors; pi_workers := workers |}
      {| cpl_executor := e_executor e; cpl_workerId := e_workerId e |}.
Proof.
  cbn [decide_gated]. destruct (ag_capability_ok g), (ag_permission_allowed g); cbn [negb orb]; try done.
  destruct (List.find _ (ag_components g)) as [c|] eqn:Ec; [|done].
  destruct (placementIsEligible _ _ _) eqn:Ep; cbn [negb]; [|done]. intros [-> Ha]%decide_lifecycle_perform.
  apply eligible_spec in Ep. apply find_some_in in Ec as [Hc Hid%streq_true]. naive_solver.
Qed.

Lemma decide_effect_perform d e i now e' x pre :
  decide_effect d e i now = ClaimPerform e' x pre →
  e' = e ∧ awaits i (e_kind e) now ∧
  match e_kind e with
  | EffectPrepare | EffectStart => admitted d e ∧ ¬ held_back d e
  | EffectDrain | EffectStop =>
      desires e (List.find (same_deployment (e_applicationId e) (e_pluginId e)) (du_deployments d)) = false ∨
      held_back d e
  end.
Proof.
  unfold Reconciler.decide_effect. set (desired := List.find (same_deployment _ _) _).
  set (hold := List.find (holds e) (du_losses d)).
  set (suspended := match hold with Some l => _ | None => false end).
  assert (suspended = true ↔ held_back d e) as Hsus.
  { unfold suspended, held_back. fold hold. destruct hold as [l|]; [|split; [done|by intros (? & ? & _)]].
    split.
    - intros H. exists l. split; [done|]. destruct (l_action l); cbn in H |- *; try done; [by left|right].
      change (bool_decide (LossSuspend = LossSuspend)) with true in H.
      change (bool_decide (LossSuspend = LossFail)) with false in H.
      split; [done|]. destruct (recovers e l); [right|by left]. by destruct (prerequisites d l).
    - intros (l' & [= <-] & [Hl|[Hl Hr]]); rewrite Hl; [done|].
      change (bool_decide (LossSuspend = LossSuspend)) with true.
      by destruct Hr as [-> | ->]; [|rewrite andb_false_r]. }
  set (exact := match match hold with _ => _ end with Some l => recovers e l | None => false end).
  destruct (match desired with Some dep => Some (gate d dep) | None => None end) as [g|] eqn:Eg.
  - destruct desired as [dep|] eqn:Edep; [|done]. injection Eg as Eg. destruct g as [g|]; [|done].
    destruct (e_kind e) eqn:Ek.
    1,4: destruct (negb suspended && desires e (Some dep)) eqn:Ed; [done|];
      intros (-> & Ha)%decide_lifecycle_perform; rewrite Ek in Ha; split_and!; [done..|];
      apply andb_false_iff in Ed as [Ed%negb_false_iff|Ed]; [right; by apply Hsus|by left].
    all: destruct (negb (desires e (Some dep)) || suspended) eqn:Ed; [by destruct exact|];
      apply orb_false_iff in Ed as [Ed%negb_false_iff Esus]; destruct g as [g|code]; [|done];
      intros (-> & Ha & Hc & Hp & c & Hin & Hid & Hal)%decide_gated_perform;
      rewrite Ek in Ha; split_and!; [done..| |by rewrite <- Hsus, Esus];
      apply desires_true in Ed as (? & [= <-] & ? & ? & ?);
      apply find_some_in in Edep as [Hdep [? ?]%same_deployment_true]; by exists dep, g, c.
  - assert (desired = None) as Edes by (by destruct desired).
    destruct (e_kind e) eqn:Ek.
    1,4: destruct (negb suspended && desires e desired) eqn:Ed; [done|]; intros (-> & Ha)%decide_lifecycle_perform;
      rewrite Ek in Ha; split_and!; [done..|]; left; by rewrite Edes.
    all: rewrite Edes; cbn [desires negb orb]; by destruct exact.
Qed.

(** The envelope of a claim that reaches its effect. *)
Lemma decide_claim_perform d claim now e x pre :
  decide_claim d claim now = Ok (ClaimPerform e x pre) →
  ∃ i revision legacy canonical,
    m_payload (k_message claim) = Some (e, legacy) ∧
    e_messageId e = m_messageId (k_message claim) ∧ e_operationId e = m_operationId (k_message claim) ∧
    du_instances d !! e_instanceId e = Some (i, revision) ∧
    identities sha256 (match i_activation i with None => legacy | Some _ => false end)
      {| gi_applicationId := e_applicationId e; gi_pluginId := e_pluginId e;
         gi_generation := e_deploymentGeneration e |} (e_componentId e) (e_kind e) (e_activation e)
    = Ok canonical ∧
    canonical = {| ei_instanceId := e_instanceId e; ei_operationId := e_operationId e;
                   ei_messageId := e_messageId e |} ∧
    (∃ a, parsePersistedActivation i = Ok a ∧ matches_instance e i a = true) ∧
    completed i (e_operationId e) = false ∧
    decide_effect d e i now = ClaimPerform e x pre.
Proof.
  unfold Reconciler.decide_claim. destruct (m_payload (k_message claim)) as [[e0 legacy]|] eqn:Ep; [|done].
  destruct (streq (e_messageId e0) _) eqn:Em; cbn [negb orb]; [|done].
  destruct (streq (e_operationId e0) _) eqn:Eo; cbn [negb orb]; [|done].
  intros (canonical & Hcan & H)%bind_ok. revert H.
  destruct (streq (e_instanceId e0) _) eqn:E1; cbn [negb orb]; [|done].
  destruct (streq (e_operationId e0) (ei_operationId _)) eqn:E2; cbn [negb orb]; [|done].
  destruct (streq (e_messageId e0) (ei_messageId _)) eqn:E3; cbn [negb orb]; [|done].
  apply streq_true in Em, Eo, E1, E2, E3.
  destruct (du_instances d !! e_instanceId e0) as [[i revision]|] eqn:Ei; cbn in Hcan |- *; [|done].
  intros (a & Ha & H)%bind_ok. revert H.
  destruct (matches_instance e0 i a) eqn:Hm; cbn [negb]; [|done].
  destruct (completed i (e_operationId e0)) eqn:Hc; [done|].
  destruct (_ && _); [done|]. intros (loaded & Hl & H)%bind_ok.
  injection H as H. assert (e = e0) as -> by (by apply decide_effect_perform in H as [-> _]).
  exists i, revision, legacy, canonical. split_and!; try done; [|by exists a].
  destruct canonical; cbn in *; congruence.
Qed.

(** The effect a claim performs: where an interruption would hit. *)
Definition effect_of_claim (d : Durable) (claim : OutboxClaim) (batchNow : Z) : option ReconcileEffect :=
  match executeClaim (λ _, EffectInterrupted) d claim batchNow with
  | Ok (_, _, OutcomeInterrupted e) => Some e
  | _ => None
  end.

Lemma effect_of_claim_some d claim batchNow e :
  effect_of_claim d claim batchNow = Some e →
  ∃ x pre i revision d1,
    decide_claim d claim (Z.max (k_claimedAt claim) batchNow) = Ok (ClaimPerform e x pre) ∧
    du_instances d !! e_instanceId e = Some (i, revision) ∧
    begin_effect prerequisites d e i revision x pre = Ok (d1, Authorized).
Proof.
  unfold effect_of_claim, Reconciler.executeClaim. cbv zeta.
  destruct (Reconciler.decide_claim _ _ _ _ _ _ _ _ _) as [dec|] eqn:Ed; [|done]. rewrite bind_ok_l.
  destruct dec as [| | | |e0 x pre]; try done.
  destruct (du_instances d !! e_instanceId e0) as [[i revision]|] eqn:Ei; [|done].
  destruct (begin_effect _ _ _ _ _ _ _) as [[d1 auth]|] eqn:Eb; [|done]. rewrite bind_ok_l.
  destruct auth; try done. intros [= <-]. by exists x, pre, i, revision, d1.
Qed.

(** The executor only sees the effect of the claim. *)
Lemma executeClaim_perform_ext perform perform' d claim batchNow :
  (∀ e, effect_of_claim d claim batchNow = Some e → perform e = perform' e) →
  executeClaim perform d claim batchNow = executeClaim perform' d claim batchNow.
Proof.
  unfold effect_of_claim, Reconciler.executeClaim. cbv zeta.
  destruct (Reconciler.decide_claim _ _ _ _ _ _ _ _ _) as [dec|] eqn:Ed; [|done]. rewrite !bind_ok_l.
  destruct dec as [| | | |e0 x pre]; try done.
  destruct (du_instances d !! e_instanceId e0) as [[i revision]|] eqn:Ei; [|done].
  destruct (begin_effect _ _ _ _ _ _ _) as [[d1 auth]|] eqn:Eb; [|done]. rewrite !bind_ok_l.
  destruct auth; try done. intros H. by rewrite (H e0 eq_refl).
Qed.

(** ** Histories *)

(** One transaction of a reconciler, or a change of anything but the instances. The
    transactions come in any order, from any number of reconcilers: those of a plan's
    step, of a claim before and after its effect, of the restoration of a session, and
    of a provider loss. *)
Inductive moves (d : Durable) : Durable → Prop :=
| moves_persist dep s now d' replan : persistStep d dep s now = Ok (d', replan) → moves d d'
| moves_begin claim now e x pre i revision d' authorization :
    decide_claim d claim now = Ok (ClaimPerform e x pre) →
    du_instances d !! e_instanceId e = Some (i, revision) →
    begin_effect prerequisites d e i revision x pre = Ok (d', authorization) → moves d d'
| moves_commit e claim binding d' replan : commitEffect d e claim binding = Ok (d', replan) → moves d d'
| moves_fail e claim now d' replan : commitFailedEffect d e claim now = Ok (d', replan) → moves d d'
| moves_authorize e l r d' authorization :
    authorizeRecoveryEffect prerequisites d e l r = Ok (d', authorization) → moves d d'
| moves_terminated i d' : mark_termination_restored d i = Ok d' → moves d d'
| moves_unrestored i now d' : record_restoration_failure sha256 d i now = Ok d' → moves d d'
| moves_cleared i d' : clear_restoration_failure sha256 d i = Ok d' → moves d d'
| moves_losses w now d' : commit_losses d w now = Ok d' → moves d d'
| moves_environment d' : du_instances d' = du_instances d → moves d d'.

(** A legal transition, or none; a restored termination goes through draining at once,
    and an abandoned recovery stops its instance. *)
Definition lifecycle_move (l l' : ComponentLifecycleState) : Prop :=
  l' = l ∨ Lifecycle.component_step l l' ∨ (l ∈ [CpReady; CpDegraded] ∧ l' = CpStopping) ∨ l' = CpStopped.

(** What becomes of an instance: it stays what it is an instance of. *)
Record evolves (i i' : PersistedComponentInstance) : Prop := {
  evolves_lifecycle : lifecycle_move (i_lifecycle i) (i_lifecycle i');
  evolves_stopped : i_lifecycle i = CpStopped → i_lifecycle i' = CpStopped;
  evolves_generation : i_deploymentGeneration i' = i_deploymentGeneration i;
  evolves_component : i_componentId i' = i_componentId i;
  evolves_plugin : i_pluginId i' = i_pluginId i;
  evolves_application : i_applicationId i' = i_applicationId i;
  evolves_id : i_instanceId i' = i_instanceId i;
  evolves_completed operationId : completed i operationId = true → completed i' operationId = true;
}.
(** An instance starts created, with nothing done and nothing failed. *)
Record fresh (i : PersistedComponentInstance) : Prop := {
  fresh_lifecycle : i_lifecycle i = CpCreated;
  fresh_completed operationId : completed i operationId = false;
  fresh_diagnostic : i_diagnostic i = None;
}.

(** What the code writes: a record under its own identifier, the last completed
    operation among the completed ones, each once, and a failure of an effect or of a
    restoration recorded in full or not at all. *)
Record instance_ok (k : jstring) (i : PersistedComponentInstance) : Prop := {
  ok_key : i_instanceId i = k;
  ok_completed operationId :
    i_completedOperationId i = Some operationId → operationId ∈ default [] (i_completedOperationIds i);
  ok_distinct : NoDup (default [] (i_completedOperationIds i));
  ok_failure :
    (i_attempt i = None ∧ i_retryAt i = None ∧ i_retryEffect i = None ∧ i_diagnostic i = None) ∨
    (is_Some (i_attempt i) ∧ is_Some (i_retryAt i) ∧
     ((∃ kind, i_retryEffect i = Some kind ∧ i_diagnostic i = Some (effect_diagnostic kind)) ∨
      i_diagnostic i = Some LIFECYCLE_RESTORE_FAILED));
}.
Definition well_formed (d : Durable) : Prop :=
  ∀ k i revision, du_instances d !! k = Some (i, revision) → instance_ok k i.

#[export] Instance evolves_refl : Reflexive evolves.
Proof. intros i. split; try done. by left. Qed.

Lemma evolves_stop i j i' : evolves i j → evolves j i' → i_lifecycle i' = CpStopped → evolves i i'.
Proof.
  intros [] [] Hl. split; try congruence; [|by auto]. rewrite Hl. by right; right; right.
Qed.

Lemma with_lifecycle_evolves l i :
  lifecycle_move (i_lifecycle i) l → (i_lifecycle i = CpStopped → l = CpStopped) → evolves i (with_lifecycle l i).
Proof. by split. Qed.

Lemma move_to_ok next i l :
  move_to next i = Ok l → l = next ∧ lifecycle_move (i_lifecycle i) next ∧
  (i_lifecycle i = CpStopped → next = CpStopped).
Proof.
  unfold move_to. case_bool_decide as He; [intros [= <-]; split_and!; [done|by left|congruence]|].
  unfold transitionComponentLifecycle. destruct (includes _ _) eqn:E; [|done]. intros [= <-].
  apply includes_true in E. split_and!; [done|right; left; by apply component_step_in|].
  intros H. rewrite H in E. by apply elem_of_nil in E.
Qed.

Lemma completed_in k i operationId :
  instance_ok k i → completed i operationId = true ↔ operationId ∈ default [] (i_completedOperationIds i).
Proof.
  intros Hok. unfold completed. rewrite orb_true_iff, bool_decide_eq_true. split.
  - intros [H|H]; [by apply (ok_completed _ _ Hok)|]. destruct (i_completedOperationIds i) as [ids|]; [|done].
    by apply includes_true in H.
  - destruct (i_completedOperationIds i) as [ids|]; cbn; [|by intros ?%elem_of_nil]. intros H. right.
    by apply includes_true.
Qed.

Lemma stepped_instance_ok k s i i' :
  instance_ok k i → stepped_instance s (Some i) = Ok i' → instance_ok k i' ∧ evolves i i'.
Proof.
  unfold stepped_instance. intros Hok.
  set (move := bool_decide (e_kind (s_effect s) = EffectPrepare) && _). set (j := if move then _ else i).
  assert (instance_ok k j ∧ evolves i j ∧ i_lifecycle j = i_lifecycle i) as (Hokj & Hj & Hl).
  { unfold j. destruct (_ && _); [|done]. split_and!; [by destruct Hok|..]; [|done]. split; try done. by left. }
  intros (next & Hnext & [= <-])%bind_ok.
  assert (lifecycle_move (i_lifecycle j) next ∧ (i_lifecycle j = CpStopped → next = CpStopped)) as [Hm Hs].
  { destruct (e_kind (s_effect s)); cbn [preEffectLifecycle] in Hnext;
      try (injection Hnext as <-; split; [by left|done]); apply move_to_ok in Hnext as (-> & ? & ?); done. }
  rewrite Hl in Hm, Hs. split; [destruct Hokj|destruct Hj]; split; cbn; done.
Qed.

Lemma created_instance_ok s :
  instance_ok (e_instanceId (s_effect s)) (created_instance s) ∧ fresh (created_instance s).
Proof. split; split; cbn; try done; [apply NoDup_nil_2|by left]. Qed.
Lemma recovery_instance_ok e : instance_ok (e_instanceId e) (recovery_instance e) ∧ fresh (recovery_instance e).
Proof. split; split; cbn; try done; [apply NoDup_nil_2|by left]. Qed.

Lemma settled_instance_ok k l i :
  instance_ok k i → l = CpStopped ∨ l = i_lifecycle i →
  instance_ok k (settled_instance l i) ∧ evolves i (settled_instance l i).
Proof.
  intros [H1 H2 H3 H4] Hl. split; split; cbn; try done; [by left|unfold lifecycle_move|]; by destruct Hl as [-> | ->]; auto.
Qed.

(** A session that is terminated again goes on to be stopped. *)
Lemma stopping_instance_ok k i i' :
  instance_ok k i → stopping_instance i = Ok i' → instance_ok k i' ∧ evolves i i'.
Proof.
  intros [H1 H2 H3 H4]. unfold stopping_instance. intros (l & Hl & H)%bind_ok. revert H.
  intros (l' & Hl' & [= <-])%bind_ok. revert Hl'. unfold transitionComponentLifecycle at 1.
  destruct (includes (legalTransitions l) CpStopping) eqn:E; [|done]. intros [= <-].
  assert (lifecycle_move (i_lifecycle i) CpStopping ∧ i_lifecycle i ≠ CpStopped) as [Hm Hs].
  { destruct (i_lifecycle i) eqn:Ei; cbn in Hl; injection Hl as <-; try (vm_compute in E; discriminate E);
      (split; [|done]).
    1,2: right; right; left; split; [|done]; apply includes_true; vm_compute; reflexivity.
    all: right; left; reflexivity. }
  split; split; cbn; try done.
Qed.

Lemma unrestored_instance_ok k attempt retryAt i :
  instance_ok k i → instance_ok k (unrestored_instance attempt retryAt i) ∧ evolves i (unrestored_instance attempt retryAt i).
Proof.
  intros [H1 H2 H3 H4]. split; split; cbn; try done; [|by left]. right. split_and!; [done..|]. by right.
Qed.

Lemma moved_instance_ok k next i i' :
  instance_ok k i → moved_instance next i = Ok i' → instance_ok k i' ∧ evolves i i'.
Proof.
  unfold moved_instance, transitionComponentLifecycle. intros [H1 H2 H3 H4].
  destruct (includes _ _) eqn:E; [|done]. intros [= <-]. apply includes_true in E.
  split; [by split|]. apply with_lifecycle_evolves; [by right; left; apply component_step_in|].
  intros Hs. rewrite Hs in E. by apply elem_of_nil in E.
Qed.

Lemma committed_instance_ok k e b l i :
  instance_ok k i → successfulLifecycle (e_kind e) i = Ok l →
  instance_ok k (committed_instance e b l i) ∧ evolves i (committed_instance e b l i).
Proof.
  intros Hok Hl. unfold successfulLifecycle in Hl. apply move_to_ok in Hl as (-> & Hm & Hs).
  assert (instance_ok k (committed_instance e b (match e_kind e with EffectPrepare => CpPreparing
    | EffectStart => CpReady | EffectStop => CpStopped | EffectDrain => CpDraining end) i)) as Hok'.
  { split; cbn; [apply Hok| | |by left].
    - intros ? [= <-]. apply complete_operation_in. by right.
    - apply foldl_distinct. apply NoDup_nil_2. }
  split; [done|]. split; cbn; try done. intros o Ho. apply (completed_in k) in Ho; [|done].
  apply (completed_in k); [done|]. cbn. apply complete_operation_in. by left.
Qed.

Lemma failed_instance_ok k e attempt retryAt l i :
  instance_ok k i → move_to CpFailed i = Ok l →
  instance_ok k (failed_instance e attempt retryAt l i) ∧ evolves i (failed_instance e attempt retryAt l i).
Proof.
  intros Hok (-> & Hm & Hs)%move_to_ok. destruct Hok as [H1 H2 H3 H4].
  split; split; cbn; try done. right. split_and!; [done..|]. left. by exists (e_kind e).
Qed.

(** Each instance of a state goes on in another, and a new one is fresh. *)
Definition carries (d d' : Durable) : Prop :=
  ∀ k, match du_instances d !! k, du_instances d' !! k with
       | Some (i, _), Some (i', _) => evolves i i'
       | Some _, None => False
       | None, Some (i', _) => fresh i'
       | None, None => True
       end.

#[export] Instance carries_refl : Reflexive carries.
Proof. intros d k. by destruct (du_instances d !! k) as [[i r]|]. Qed.

Lemma carries_same d d' : du_instances d' = du_instances d → well_formed d → well_formed d' ∧ carries d d'.
Proof.
  intros H Hwf. unfold well_formed, carries. rewrite H. split; [done|]. apply (carries_refl d).
Qed.

Lemma carries_update d d' k i' r' :
  du_instances d' = <[k := (i', r')]> (du_instances d) →
  instance_ok k i' → match du_instances d !! k with Some (i, _) => evolves i i' | None => fresh i' end →
  well_formed d → well_formed d' ∧ carries d d'.
Proof.
  intros H Hok Hev Hwf. unfold well_formed, carries. rewrite H. split.
  - intros k' i r. destruct (decide (k = k')) as [<- | Hne].
    + rewrite lookup_insert_eq. by intros [= <- <-].
    + rewrite lookup_insert_ne by done. apply Hwf.
  - intros k'. destruct (decide (k = k')) as [<- | Hne].
    + rewrite lookup_insert_eq. by destruct (du_instances d !! k) as [[i r]|].
    + rewrite lookup_insert_ne by done. apply (carries_refl d).
Qed.

Lemma enqueue_instances d messageId operationId payload now d' :
  enqueue d messageId operationId payload now = Some d' → du_instances d' = du_instances d.
Proof.
  unfold enqueue. destruct (du_outbox d !! messageId); [|by intros [= <-]].
  case_bool_decide; [by intros [= <-]|]. destruct (_ && _); [by intros [= <-]|done].
Qed.

Lemma persistStep_carries d dep s now d' replan :
  persistStep d dep s now = Ok (d', replan) → well_formed d → well_formed d' ∧ carries d d'.
Proof.
  unfold persistStep. destruct (List.find _ _) as [desired|]; [|by intros [= <- <-]; apply carries_same].
  destruct (_ || _); [by intros [= <- <-]; apply carries_same|].
  destruct (negb _); [by intros [= <- <-]; apply carries_same|].
  intros (i' & Hi & H)%bind_ok Hwf. revert H.
  destruct (enqueue _ _ _ _ _) as [d''|] eqn:Ee; [|by intros [= <- <-]; apply carries_same].
  intros [= <- <-]. apply enqueue_instances in Ee.
  destruct (du_instances d !! e_instanceId (s_effect s)) as [[i r]|] eqn:Ei; cbn in Hi.
  - destruct (stepped_instance_ok (e_instanceId (s_effect s)) s i i') as [Hok Hev]; [by eapply Hwf|done|].
    eapply carries_update; [exact Ee|done|by rewrite Ei|done].
  - injection Hi as <-. destruct (created_instance_ok s). eapply carries_update; [exact Ee|done|by rewrite Ei|done].
Qed.

Lemma commitEffect_carries d e claim b d' replan :
  commitEffect d e claim b = Ok (d', replan) → well_formed d → well_formed d' ∧ carries d d'.
Proof.
  unfold commitEffect. destruct (du_instances d !! e_instanceId e) as [[i r]|] eqn:Ei;
    [|by intros [= <- <-]; apply carries_same].
  intros (cur & Hcur & H)%bind_ok Hwf. destruct cur; cbn [negb] in H; [|by injection H as <- <-; apply carries_same].
  apply bind_ok in H as (l & Hl & [= <- <-]).
  destruct (committed_instance_ok (e_instanceId e) e b l i) as [Hok Hev]; [by eapply Hwf|done|].
  eapply carries_update; [|done|by rewrite Ei|done].
  unfold acknowledge, settle_message. by destruct (du_outbox _ !! _).
Qed.

Lemma commitFailedEffect_carries d e claim now d' replan :
  commitFailedEffect d e claim now = Ok (d', replan) → well_formed d → well_formed d' ∧ carries d d'.
Proof.
  unfold commitFailedEffect. destruct (deterministicRetryDelay _) as [delay|[]]; [|done].
  destruct (du_instances d !! e_instanceId e) as [[i r]|] eqn:Ei; [|by intros [= <- <-]; apply carries_same].
  intros (cur & Hcur & H)%bind_ok Hwf. destruct cur; cbn [negb] in H; [|by injection H as <- <-; apply carries_same].
  apply bind_ok in H as (l & Hl & [= <- <-]).
  destruct (failed_instance_ok (e_instanceId e) e (k_attempt claim) (toISOString (now + delay)) l i) as [Hok Hev];
    [by eapply Hwf|done|].
  eapply carries_update; [|done|by rewrite Ei|done].
  unfold settle_message. by destruct (du_outbox _ !! _).
Qed.

(** A record is put in the place of the one stored there. *)
Lemma put_carries d d1 key i r i' :
  du_instances d1 = du_instances d → du_instances d !! key = Some (i, r) → instance_ok key i' → evolves i i' →
  well_formed d → well_formed (put_instance d1 key i') ∧ carries d (put_instance d1 key i').
Proof.
  intros H Hi Hok Hev. eapply carries_update; [|done|by rewrite Hi]. cbn. by rewrite H.
Qed.

Lemma mark_termination_restored_carries d i d' :
  mark_termination_restored d i = Ok d' → well_formed d → well_formed d' ∧ carries d d'.
Proof.
  unfold mark_termination_restored. case_bool_decide; [by intros [= <-]; apply carries_same|].
  destruct (du_instances d !! _) as [[v r]|] eqn:Ei; [|by intros [= <-]; apply carries_same].
  case_bool_decide; [by intros [= <-]; apply carries_same|]. intros (v' & Hv & [= <-])%bind_ok Hwf.
  destruct (stopping_instance_ok _ _ _ (Hwf _ _ _ Ei) Hv). by eapply put_carries.
Qed.

Lemma record_restoration_failure_carries d i now d' :
  record_restoration_failure sha256 d i now = Ok d' → well_formed d → well_formed d' ∧ carries d d'.
Proof.
  unfold record_restoration_failure. intros (o & _ & H)%bind_ok. revert H.
  destruct (du_instances d !! _) as [[v r]|] eqn:Ei; [|by intros [= <-]; apply carries_same].
  destruct (deterministicRetryDelay _) as [delay|]; [|done]. intros [= <-] Hwf.
  edestruct unrestored_instance_ok; [exact (Hwf _ _ _ Ei)|]. by eapply put_carries.
Qed.

Lemma clear_restoration_failure_carries d i d' :
  clear_restoration_failure sha256 d i = Ok d' → well_formed d → well_formed d' ∧ carries d d'.
Proof.
  unfold clear_restoration_failure. destruct (unfailed _); [by intros [= <-]; apply carries_same|].
  destruct (du_instances d !! _) as [[v r]|] eqn:Ei; [|by intros [= <-]; apply carries_same].
  destruct (unfailed v); [by intros [= <-]; apply carries_same|].
  intros (loaded & _ & H)%bind_ok Hwf. apply bind_ok in H as (o & _ & [= <-]).
  destruct (settled_instance_ok _ (i_lifecycle v) v (Hwf _ _ _ Ei)); [by right|]. by eapply put_carries.
Qed.

(** The puts of a provider loss, each on what the transaction has read. *)
Definition rightful (d : Durable) (x : jstring * PersistedComponentInstance) : Prop :=
  instance_ok x.1 x.2 ∧ match du_instances d !! x.1 with Some (i, _) => evolves i x.2 | None => fresh x.2 end.
Lemma rightful_puts d puts : Forall (rightful d) puts → ∀ d1,
  well_formed d1 ∧ carries d d1 →
  let d2 := foldl (λ d x, put_instance d x.1 x.2) d1 puts in well_formed d2 ∧ carries d d2.
Proof.
  induction 1 as [|[k v] puts [Hok Hev] _ IH]; intros d1 [Hwf Hc]; [done|]. apply IH. cbn in Hok, Hev.
  split; [|]; unfold well_formed, carries; cbn.
  - intros k' i r. destruct (decide (k = k')) as [<- | Hne].
    + rewrite lookup_insert_eq. by intros [= <- <-].
    + rewrite lookup_insert_ne by done. apply Hwf.
  - intros k'. destruct (decide (k = k')) as [<- | Hne].
    + rewrite lookup_insert_eq. by destruct (du_instances d !! k) as [[i r]|].
    + rewrite lookup_insert_ne by done. apply Hc.
Qed.

Lemma expected_instances d l l' :
  mapM (λ x, v ← expected_instance d x; Some (x.1, v)) l = Some l' →
  Forall (λ x, ∃ r, du_instances d !! x.1 = Some (x.2, r)) l'.
Proof.
  intros H%mapM_Some. induction H as [|[k r] y l l' H _ IH]; constructor; [|done].
  unfold expected_instance in H. cbn in H. destruct (du_instances d !! k) as [[v r']|] eqn:Ei; [|done].
  destruct (r' =? r); [|done]. injection H as <-. by exists r'.
Qed.
Lemma staged_rightful d w puts :
  well_formed d → staged_instances d w = Some (Ok puts) → Forall (rightful d) puts.
Proof.
  unfold staged_instances. intros Hwf (fenced & Hf & H)%bind_Some. apply bind_Some in H as (moving & Hm & H).
  destruct (existsb _ (lc_steps w)) eqn:Es; [done|]. injection H as H. apply bind_ok in H as (moved & Hmv & [= <-]).
  assert (∀ l l', mapM (λ x, v ← expected_instance d x; Some (x.1, v)) l = Some l' →
    Forall (λ x, instance_ok x.1 x.2 ∧ ∃ r, du_instances d !! x.1 = Some (x.2, r)) l') as Hexp.
  { intros l l' H'%expected_instances. eapply Forall_impl; [exact H'|]. intros x [r Hx]. split; [by eapply Hwf|by exists r]. }
  apply Hexp in Hf, Hm. apply Forall_app. split; [|apply Forall_app; split].
  - eapply Forall_impl; [exact Hf|]. intros [k v] [Hok [r Hk]]. split; [done|]. cbn in *. by rewrite Hk.
  - apply mapM_ok in Hmv. clear -Hm Hmv. induction Hmv as [|[k v] y l l' H _ IH]; [constructor|].
    apply Forall_cons in Hm as [[Hok [r Hk]] Hm]. constructor; [|by apply IH].
    apply bind_ok in H as (v' & Hv & [= <-]). destruct (moved_instance_ok _ _ _ _ Hok Hv).
    split; [done|]. cbn in *. by rewrite Hk.
  - apply Forall_fmap, Forall_forall. intros s Hs. destruct (recovery_instance_ok (s_effect s)). split; [done|]. cbn.
    rewrite existsb_false_in in Es. specialize (Es s Hs). apply negb_false_iff, bool_decide_eq_true in Es. by rewrite Es.
Qed.

Lemma enqueue_steps_instances now steps : ∀ d d',
  foldl (enqueue_step now) (Some d) steps = Some d' → du_instances d' = du_instances d.
Proof.
  assert (∀ l, foldl (enqueue_step now) None l = None) as Hn by (intros l; by induction l).
  induction steps as [|s steps IH]; intros d d'; cbn; [by intros [= <-]|].
  destruct (enqueue d _ _ _ _) as [d1|] eqn:E; [|by rewrite Hn]. intros H%IH. rewrite H. by eapply enqueue_instances.
Qed.

Lemma enqueue_steps_deployments now steps : ∀ d d',
  foldl (enqueue_step now) (Some d) steps = Some d' → du_deployments d' = du_deployments d.
Proof.
  assert (∀ l, foldl (enqueue_step now) None l = None) as Hn by (intros l; by induction l).
  induction steps as [|s steps IH]; intros d d'; cbn; [by intros [= <-]|].
  destruct (enqueue d _ _ _ _) as [d1|] eqn:E; [|by rewrite Hn]. intros H%IH. rewrite H.
  revert E. unfold enqueue. destruct (du_outbox d !! _); [|by intros [= <-]].
  case_bool_decide; [by intros [= <-]|]. destruct (_ && _); [by intros [= <-]|done].
Qed.

Lemma commit_losses_carries d w now d' :
  commit_losses d w now = Ok d' → well_formed d → well_formed d' ∧ carries d d'.
Proof.
  unfold commit_losses. destruct (staged_instances d w) as [staged|] eqn:Es; [|by intros [= <-]; apply carries_same].
  intros (puts & -> & H)%bind_ok Hwf. apply staged_rightful in Es; [|done].
  destruct (foldl (enqueue_step now) _ _) as [d3|] eqn:E3; [|done]. injection H as <-.
  apply enqueue_steps_instances in E3.
  set (d1 := with_losses _ _) in E3.
  destruct (rightful_puts d puts Es d1) as [Hwf2 Hc2]; [by apply (carries_same d)|].
  unfold well_formed, carries. rewrite E3. by split.
Qed.

Lemma loadInstances_in d loaded r :
  loadInstances d = Ok loaded → r ∈ loaded →
  ∃ k i revision, du_instances d !! k = Some (i, revision) ∧ load_instance k i revision = Ok r.
Proof.
  intros Hl%mapM_ok Hr. apply list_elem_of_lookup in Hr as [n Hn].
  destruct (Forall2_lookup_r _ _ _ _ _ Hl Hn) as ([k [i revision]] & Hk & Hload).
  apply list_elem_of_lookup_2, elem_of_js_sort, elem_of_map_to_list in Hk. by exists k, i, revision.
Qed.

Lemma load_instance_ok k i revision r :
  load_instance k i revision = Ok r →
  li_storageId r = k ∧ ci_value (li_value r) = i ∧ ci_revision (li_value r) = revision.
Proof. unfold load_instance. by intros (a & _ & [= <-])%bind_ok. Qed.

Lemma authorizeRecoveryEffect_ok d e expected revision d' authorization :
  well_formed d → authorizeRecoveryEffect prerequisites d e expected revision = Ok (d', authorization) →
  d' = d ∨
  (authorization = Abandoned ∧ ∃ i r, du_instances d !! e_instanceId e = Some (i, r) ∧
     du_instances d' = <[e_instanceId e := (settled_instance CpStopped i, du_revision d + 1)]> (du_instances d)).
Proof.
  unfold authorizeRecoveryEffect. intros Hwf.
  destruct (List.find _ (du_losses d)) as [loss|]; [|intros [= <- <-]; by left].
  destruct (_ || _); [intros [= <- <-]; by left|]. intros (loaded & Hl & H)%bind_ok. revert H.
  destruct (List.find _ loaded) as [r|] eqn:Er; [|intros [= <- <-]; by left].
  apply find_some_in in Er as [Hin Hr].
  destruct (negb _); [intros [= <- <-]; by left|]. destruct (negb _); [intros [= <- <-]; by left|].
  destruct (_ && _); [intros [= <- <-]; by left|]. intros [= <- <-]. right. split; [done|].
  destruct (loadInstances_in _ _ _ Hl Hin) as (k & i & revision' & Hk & (_ & Hi & _)%load_instance_ok).
  assert (k = e_instanceId e) as ->.
  { apply Hwf, ok_key in Hk. unfold is_consumer_instance in Hr. rewrite !andb_true_iff in Hr.
    destruct Hr as [[[[[[[Hr%streq_true _] _] _] _] _] _] _]. congruence. }
  exists i, revision'. by rewrite Hi.
Qed.

Lemma authorizeRecoveryEffect_carries d e expected revision d' authorization :
  authorizeRecoveryEffect prerequisites d e expected revision = Ok (d', authorization) →
  well_formed d → well_formed d' ∧ carries d d'.
Proof.
  intros H Hwf. destruct (authorizeRecoveryEffect_ok _ _ _ _ _ _ Hwf H) as [-> | (_ & i & r & Hi & H')].
  { by apply carries_same. }
  destruct (settled_instance_ok (e_instanceId e) CpStopped i) as [Hok Hev]; [by eapply Hwf|by left|].
  eapply carries_update; [exact H'|done|by rewrite Hi|done].
Qed.

(** A retried start or stop leaves the failed state first. *)
Lemma decide_effect_pre d e i now e' x l :
  decide_effect d e i now = ClaimPerform e' x (Some l) → i_lifecycle i = CpFailed ∧ l ∈ [CpStarting; CpStopping].
Proof.
  intros H. assert (∃ x', decide_lifecycle e i x' now = ClaimPerform e' x (Some l)) as [x' H'].
  { unfold Reconciler.decide_effect, decide_gated in H. cbv zeta in H.
    repeat (case_match; try done); by eexists. }
  revert H'. unfold decide_lifecycle. set (f := bool_decide (i_lifecycle i = CpFailed) && _ && _).
  destruct (negb _ && negb _); [done|]. intros [= _ _ Hl].
  destruct f eqn:Ef; [|done]. unfold f in Ef. rewrite !andb_true_iff, bool_decide_eq_true in Ef.
  split; [tauto|]. destruct (e_kind e); cbn in Hl; try done; injection Hl as <-; set_solver.
Qed.

Lemma journal_carries d operationId status :
  well_formed d → well_formed (journal d operationId status) ∧ carries d (journal d operationId status).
Proof. by apply carries_same. Qed.

(** What the transaction before an effect leaves, in two steps at most: the retried
    instance as it starts again, and the same instance stopped. *)
Lemma begin_effect_carries d e i revision x pre d' authorization :
  du_instances d !! e_instanceId e = Some (i, revision) →
  (∀ l, pre = Some l → i_lifecycle i = CpFailed ∧ l ∈ [CpStarting; CpStopping]) →
  begin_effect prerequisites d e i revision x pre = Ok (d', authorization) →
  well_formed d → well_formed d' ∧ carries d d'.
Proof.
  intros Hi Hpre. unfold begin_effect. intros ([d1 a1] & H1 & H2)%bind_ok Hwf.
  assert (well_formed d1 ∧ carries d d1 ∧ (a1 = Authorized → d1 = d)) as (Hwf1 & Hc1 & Hsame).
  { destruct x; [|by injection H1 as <- <-; split_and!; [done|reflexivity|]].
    pose proof (authorizeRecoveryEffect_carries _ _ _ _ _ _ H1 Hwf) as [? ?]. split_and!; [done..|].
    intros ->. by destruct (authorizeRecoveryEffect_ok _ _ _ _ _ _ Hwf H1) as [-> | [? _]]. }
  destruct a1; try (by injection H2 as <- <-).
  specialize (Hsame eq_refl) as ->. clear H1 Hwf1 Hc1.
  set (d3 := match pre with Some l => _ | None => _ end) in H2.
  set (j := match pre with Some l => with_lifecycle l i | None => i end).
  assert (well_formed d3 ∧ carries d d3) as [Hwf3 Hc3].
  { unfold d3. destruct pre as [l|]; [|by apply journal_carries].
    destruct (Hpre l eq_refl) as [Hf Hl]. eapply put_carries; [done|exact Hi| | |done].
    - by destruct (Hwf _ _ _ Hi).
    - apply with_lifecycle_evolves; [|congruence]. right; left. apply component_step_in. rewrite Hf. set_solver. }
  destruct x; [|by injection H2 as <- <-].
  assert (∃ r, du_instances d3 = <[e_instanceId e := (j, r)]> (du_instances d)) as [r Hd3].
  { unfold d3, j. destruct pre; eexists; [done|]. symmetry. apply insert_id. exact Hi. }
  destruct (authorizeRecoveryEffect_ok _ _ _ _ _ _ Hwf3 H2) as [-> | (_ & j' & r' & Hj & Hd')]; [done|].
  rewrite Hd3, lookup_insert_eq in Hj. injection Hj as <- <-.
  assert (instance_ok (e_instanceId e) j ∧ evolves i j) as [Hok Hev].
  { split; [eapply (Hwf3 _ _ r); rewrite Hd3; apply lookup_insert_eq|].
    specialize (Hc3 (e_instanceId e)). by rewrite Hi, Hd3, lookup_insert_eq in Hc3. }
  destruct (settled_instance_ok (e_instanceId e) CpStopped j) as [Hok' Hev']; [done|by left|].
  eapply (carries_update d d' (e_instanceId e)); [rewrite Hd', Hd3; apply insert_insert_eq|done| |done].
  rewrite Hi. by eapply evolves_stop.
Qed.

Lemma moves_carries d d' : moves d d' → well_formed d → well_formed d' ∧ carries d d'.
Proof.
  intros [dep s now d1 replan H|claim now e x pre i revision d1 a Hd Hi H|e claim b d1 replan H
    |e claim now d1 replan H|e l r d1 a H|i d1 H|i now d1 H|i d1 H|w now d1 H|d1 H] Hwf.
  - by eapply persistStep_carries.
  - eapply begin_effect_carries; [exact Hi| |exact H|done]. intros l ->.
    apply decide_claim_perform in Hd as (i' & r & ? & ? & _ & _ & _ & Hi' & _ & _ & _ & _ & Hd).
    rewrite Hi in Hi'. injection Hi' as <- <-. by eapply decide_effect_pre.
  - by eapply commitEffect_carries.
  - by eapply commitFailedEffect_carries.
  - by eapply authorizeRecoveryEffect_carries.
  - by eapply mark_termination_restored_carries.
  - by eapply record_restoration_failure_carries.
  - by eapply clear_restoration_failure_carries.
  - by eapply commit_losses_carries.
  - by apply carries_same.
Qed.

Lemma history_well_formed d d' : rtc moves d d' → well_formed d → well_formed d'.
Proof. induction 1 as [|d1 d2 d3 H _ IH]; intros Hwf; [done|]. by apply IH, (moves_carries _ _ H). Qed.

Lemma history_carries d d' :
  rtc moves d d' → well_formed d →
  ∀ k i r, du_instances d !! k = Some (i, r) → ∃ i' r', du_instances d' !! k = Some (i', r') ∧ rtc evolves i i'.
Proof.
  induction 1 as [|d1 d2 d3 H _ IH]; intros Hwf k i r Hk; [by exists i, r|].
  destruct (moves_carries _ _ H Hwf) as [Hwf2 Hc]. specialize (Hc k). rewrite Hk in Hc.
  destruct (du_instances d2 !! k) as [[i2 r2]|] eqn:E; [|done].
  destruct (IH Hwf2 _ _ _ E) as (i3 & r3 & Hk3 & He). exists i3, r3. split; [done|]. by eapply rtc_l.
Qed.

(** What a chain of changes keeps of an instance. *)
Lemma evolves_keeps i i' :
  rtc evolves i i' →
  instance_generation i' = instance_generation i ∧ i_componentId i' = i_componentId i ∧
  i_instanceId i' = i_instanceId i ∧ (i_lifecycle i = CpStopped → i_lifecycle i' = CpStopped) ∧
  ∀ operationId, completed i operationId = true → completed i' operationId = true.
Proof.
  induction 1 as [i|x y z [] _ (Hg & Hc & Hi & Hs & Ho)]; [by split_and!|].
  split_and!; [rewrite Hg; unfold instance_generation; congruence|congruence|congruence|by auto|by auto].
Qed.

(** ** The passes are histories *)
Lemma claimNext_moves d now : rtc moves d (claimNext d now).1.
Proof.
  apply rtc_once, moves_environment. unfold claimNext. by destruct (List.find _ _).
Qed.

Lemma same_instances_moves d d' : du_instances d' = du_instances d → rtc moves d d'.
Proof. intros H. by apply rtc_once, moves_environment. Qed.

Lemma settle_message_instances d messageId retryAt :
  du_instances (settle_message d messageId retryAt) = du_instances d.
Proof. unfold settle_message. by destruct (du_outbox d !! messageId). Qed.

Lemma executeClaim_moves perform d claim now d' replan outcome :
  executeClaim perform d claim now = Ok (d', replan, outcome) → rtc moves d d'.
Proof.
  unfold Reconciler.executeClaim. cbv zeta. intros (dec & Hd & H)%bind_ok.
  destruct dec as [| |again|at_ again|e x pre].
  1-4: injection H as <- <- <-; apply same_instances_moves; try done; (etrans; [apply settle_message_instances|done]).
  destruct (du_instances d !! e_instanceId e) as [[i revision]|] eqn:Ei; [|by injection H as <- <- <-].
  apply bind_ok in H as ([d1 a] & Hb & H).
  assert (rtc moves d d1) as Hd1 by (eapply rtc_once, moves_begin; [exact Hd|exact Ei|exact Hb]).
  etrans; [exact Hd1|]. destruct a.
  1,3,4: injection H as <- <- <-; apply same_instances_moves; (etrans; [apply settle_message_instances|done]).
  destruct (perform e) as [b| |].
  - apply bind_ok in H as ([d2 r2] & Hc & [= <- <- <-]). by eapply rtc_once, moves_commit.
  - apply bind_ok in H as ([d2 r2] & Hc & [= <- <- <-]). by eapply rtc_once, moves_fail.
  - by injection H as <- <- <-.
Qed.

Lemma persist_steps_moves dep steps now : ∀ d d' replan,
  persist_steps d dep steps now = Ok (d', replan) → rtc moves d d'.
Proof.
  induction steps as [|s steps IH]; intros d d' replan; cbn [persist_steps]; [by intros [= <- <-]|].
  intros ([d1 r1] & H1 & H)%bind_ok. apply bind_ok in H as ([d2 r2] & H2 & [= <- <-]).
  eapply rtc_l; [by eapply moves_persist|by eapply IH].
Qed.

Lemma plan_deployments_moves d0 gates instances bad deps now : ∀ d d' replan blocked,
  plan_deployments domainToASCII sha256 supportedExecutors workers prerequisites d0 d gates instances bad deps now
    = Ok (d', replan, blocked) → rtc moves d d'.
Proof.
  induction deps as [|dep deps IH]; intros d d' replan blocked; cbn [plan_deployments]; [by intros [= <- <- <-]|].
  assert (∀ codes, ('(d'', replan', blocked') ← plan_deployments domainToASCII sha256 supportedExecutors workers
      prerequisites d0 d gates instances bad deps now; Ok (d'', replan', (dep, codes) :: blocked'))
      = Ok (d', replan, blocked) → rtc moves d d') as Hblock.
  { intros codes ([[d1 r1] b1] & H1 & [= <- <- <-])%bind_ok. by eapply IH. }
  destruct (existsb _ bad); [apply Hblock|].
  destruct (List.find _ gates) as [[? [g|code]]|]; [|apply Hblock|apply IH].
  intros (plan & Hp & H)%bind_ok. destruct (rp_blocked plan); [by eapply Hblock|].
  apply bind_ok in H as ([d1 r1] & H1 & H). apply bind_ok in H as ([[d2 r2] b2] & H2 & [= <- <- <-]).
  etrans; [by eapply persist_steps_moves|by eapply IH].
Qed.

Context (env : pass_environment).
Abbreviation restore_instance := (restore_instance sha256 prerequisites).
Abbreviation restorePersistedComponents :=
  (restorePersistedComponents sha256 supportedExecutors workers prerequisites env).

(** What the transactions of a restoration keep, the restoration keeps. *)
Lemma restore_termination_keeps (P : Durable → Prop) f d i now d' :
  (∀ d d', mark_termination_restored d i = Ok d' → P d → P d') →
  (∀ d d', record_restoration_failure sha256 d i now = Ok d' → P d → P d') →
  (∀ d d', clear_restoration_failure sha256 d i = Ok d' → P d → P d') →
  restore_termination sha256 f d i now = Ok d' → P d → P d'.
Proof.
  intros Hm Hr Hc. unfold restore_termination. destruct (f i); [|apply Hr].
  destruct (mark_termination_restored d i) as [d1|] eqn:E1; [|apply Hr].
  destruct (clear_restoration_failure sha256 d1 i) as [d2|] eqn:E2.
  - intros [= <-] Hd. eapply Hc; [exact E2|by eapply Hm].
  - intros H Hd. eapply Hr; [exact H|by eapply Hm].
Qed.
Lemma restore_cleared_keeps (P : Durable → Prop) d i b now d' :
  (∀ d d', record_restoration_failure sha256 d i now = Ok d' → P d → P d') →
  (∀ d d', clear_restoration_failure sha256 d i = Ok d' → P d → P d') →
  restore_cleared sha256 d i b now = Ok d' → P d → P d'.
Proof.
  intros Hr Hc. unfold restore_cleared. destruct b; [|apply Hr].
  destruct (clear_restoration_failure sha256 d i) as [d1|] eqn:E1; [|apply Hr]. intros [= <-]. by apply Hc.
Qed.
Lemma restore_instance_keeps (P : Durable → Prop) x d0 d now i d' replan :
  (∀ d d', mark_termination_restored d i = Ok d' → P d → P d') →
  (∀ d d', record_restoration_failure sha256 d i now = Ok d' → P d → P d') →
  (∀ d d', clear_restoration_failure sha256 d i = Ok d' → P d → P d') →
  (∀ d d' l r a, authorizeRecoveryEffect prerequisites d (recovery_target i) l r = Ok (d', a) → P d → P d') →
  restore_instance env x d0 d now i = Ok (d', replan) → P d → P d'.
Proof.
  intros Hm Hr Hc Ha. unfold Reconciler.restore_instance.
  assert (∀ f, (d' ← restore_termination sha256 f d i now; Ok (d', false)) = Ok (d', replan) → P d → P d') as Ht.
  { intros f (d1 & H1 & [= <- _])%bind_ok. by eapply restore_termination_keeps. }
  assert (∀ b d, (d' ← restore_cleared sha256 d i b now; Ok (d', false)) = Ok (d', replan) → P d → P d') as Hb.
  { intros b d1 (d2 & H1 & [= <- _])%bind_ok. by eapply restore_cleared_keeps. }
  assert (∀ d, Ok (d, false) = Ok (E := exn) (d', replan) → P d → P d') as Hs by (by intros ? [= <- _]).
  assert ((d' ← clear_restoration_failure sha256 d i; Ok (d', false)) = Ok (d', replan) → P d → P d') as Hk.
  { intros (d1 & Hd1 & [= <- _])%bind_ok. by eapply Hc. }
  assert (('(d1, authorization) ← authorizeRecoveryEffect prerequisites d (recovery_target i) (i_lifecycle (ci_value i))
      (ci_revision i);
    match authorization with
    | Authorized => d' ← restore_cleared sha256 d1 i (cx_restore x i) now; Ok (d', false)
    | _ => Ok (d1, true)
    end) = Ok (d', replan) → P d → P d') as Hau.
  { intros ([d1 a] & Hd1 & Hend)%bind_ok Hd. assert (P d1) as HP1 by (by eapply Ha).
    destruct a; [|by eapply Hb|..]; by injection Hend as <- _. }
  repeat first [exact (Hs _) | exact (Ht _) | exact (Hb _ _) | exact Hk | exact Hau | case_match].
Qed.
Lemma restore_instances_keeps (P : Durable → Prop) x d0 now l : (∀ i, i ∈ l →
  (∀ d d', mark_termination_restored d i = Ok d' → P d → P d') ∧
  (∀ d d', record_restoration_failure sha256 d i now = Ok d' → P d → P d') ∧
  (∀ d d', clear_restoration_failure sha256 d i = Ok d' → P d → P d') ∧
  (∀ d d' l r a, authorizeRecoveryEffect prerequisites d (recovery_target i) l r = Ok (d', a) → P d → P d')) →
  ∀ d d' replan, restore_instances sha256 prerequisites env x d0 d now l = Ok (d', replan) → P d → P d'.
Proof.
  induction l as [|i l IH]; intros Hl d d' replan; cbn [restore_instances]; [by intros [= <- _]|].
  intros ([d1 r1] & H1 & H)%bind_ok Hd. apply bind_ok in H as ([d2 r2] & H2 & [= <- _]).
  destruct (Hl i) as (? & ? & ? & ?); [by left|].
  eapply IH; [|exact H2|by eapply restore_instance_keeps]. intros j Hj. apply Hl. by right.
Qed.

Lemma consistent_instances_in loaded deployments : ∀ good x,
  consistent_instances sha256 loaded deployments = Ok good → x ∈ good →
  ∃ r, r ∈ loaded ∧ li_value r = x ∧ isInstanceContextConsistent sha256 r deployments = Ok true.
Proof.
  induction loaded as [|r loaded IH]; intros good x; cbn [consistent_instances].
  { intros [= <-] Hx. by apply elem_of_nil in Hx. }
  intros (c & Hc & H)%bind_ok Hx. apply bind_ok in H as (rest & Hrest & [= <-]).
  destruct c; [apply elem_of_cons in Hx as [-> | Hx]; [exists r; split; [by left|done]|]|];
    (destruct (IH _ _ Hrest Hx) as (r' & ? & ? & ?); exists r'; split; [by right|done]).
Qed.

(** The instances that are restored: those loaded that are restorable. *)
Lemma restorePersistedComponents_keeps (P : Durable → Prop) d loaded now d' replan :
  (∀ i, (∃ r, r ∈ loaded ∧ li_value r = i ∧ isInstanceContextConsistent sha256 r (du_deployments d) = Ok true) →
     restorable supportedExecutors workers env d (toISOString now) i = true →
     (∀ d d', mark_termination_restored d i = Ok d' → P d → P d') ∧
     (∀ d d', record_restoration_failure sha256 d i now = Ok d' → P d → P d') ∧
     (∀ d d', clear_restoration_failure sha256 d i = Ok d' → P d → P d') ∧
     (∀ d d' l r a, authorizeRecoveryEffect prerequisites d (recovery_target i) l r = Ok (d', a) → P d → P d')) →
  restorePersistedComponents d loaded now = Ok (d', replan) → P d → P d'.
Proof.
  intros HP. unfold Reconciler.restorePersistedComponents. destruct (pe_lifecycle env) as [x|]; [|by intros [= <- _]].
  intros (good & Hg & H)%bind_ok. eapply restore_instances_keeps; [|exact H].
  intros i [Hi Hr]%elem_of_js_sort%elem_of_filterb. apply HP; [|done]. by eapply consistent_instances_in.
Qed.

Lemma restorePersistedComponents_moves d loaded now d' replan :
  restorePersistedComponents d loaded now = Ok (d', replan) → rtc moves d d'.
Proof.
  intros H. eapply (restorePersistedComponents_keeps (rtc moves d)); [|exact H|done].
  intros i _ _. split_and!; intros; (etrans; [done|]); apply rtc_once.
  - by eapply moves_terminated.
  - by eapply moves_unrestored.
  - by eapply moves_cleared.
  - by eapply moves_authorize.
Qed.

Context (isLive : ComponentInstance → bool) (installed : PluginDeployment → option (list PluginComponent)).
Abbreviation reconcilePass :=
  (reconcilePass domainToASCII sha256 supportedExecutors workers gate prerequisites env isLive installed).
Abbreviation reconcileUntilQuiescent :=
  (reconcileUntilQuiescent domainToASCII sha256 supportedExecutors workers gate prerequisites env isLive installed).

(** What the parts of a pass keep, the pass keeps. *)
Lemma reconcilePass_keeps (P : Durable → Prop) perform d now d' r :
  (∀ d loaded d' replan, loadInstances d = Ok loaded →
     restorePersistedComponents d loaded now = Ok (d', replan) → P d → P d') →
  (∀ d, P d → P (claimNext d now).1) →
  (∀ d claim d' replan outcome, executeClaim perform d claim now = Ok (d', replan, outcome) → P d → P d') →
  (∀ d w d', commit_losses d w now = Ok d' → P d → P d') →
  (∀ seen d loaded sorted gates d' replan blocked,
     du_instances seen = du_instances d → du_deployments seen = du_deployments d →
     loadInstances d = Ok loaded → sort_instances sha256 loaded (du_deployments d) = Ok sorted →
     plan_deployments domainToASCII sha256 supportedExecutors workers prerequisites seen d gates sorted.1 sorted.2
       (js_sort (compare_ranked (order_ranks gates)) (js_sort by_key (du_deployments d))) now
       = Ok (d', replan, blocked) → P d → P d') →
  reconcilePass perform d now = Ok (d', r) → P d → P d'.
Proof.
  intros Hrestore Hclaim Hexec Hloss Hplan. unfold Reconciler.reconcilePass.
  intros (persisted & Hp & H)%bind_ok Hd. revert H. destruct (negb _); [by intros [= <- _]|].
  intros ([dr rr] & Hr & H)%bind_ok. assert (P dr) as Hdr by (by eapply Hrestore). clear Hp Hr Hd.
  apply bind_ok in H as (persisted' & _ & H).
  specialize (Hclaim dr Hdr) as Hc. destruct (claimNext dr now) as [d0 existing]. cbn in Hc.
  apply bind_ok in H as ([[d1 r1] o1] & H1 & H).
  assert (P d1) as Hd1 by (destruct existing; [by eapply Hexec|by injection H1 as <- _ _]).
  clear H1 Hc. destruct o1; try (by injection H as <- _);
  (apply bind_ok in H as (loaded & Hl & H); cbv zeta in H;
   match type of H with context [if ?b then Ok (d1, PassPending true) else _] => destruct b; [by injection H as <- _|] end;
   set (seen := if match existing with Some _ => true | None => false end then d1 else with_losses d1 (du_losses d)) in H;
   assert (du_instances seen = du_instances d1 ∧ du_deployments seen = du_deployments d1) as [Hsi Hsd]
     by (unfold seen; by destruct existing);
   rewrite Hsd in H;
   apply bind_ok in H as (sorted & Hs & H);
   destruct (collect_gates _ _ _ _) as [gates|]; [|by injection H as <- _];
   destruct (pe_losses env seen gates) as [exhausted|w];
     [|apply bind_ok in H as (d2 & H2 & [= <- _]); by eapply Hloss];
   apply bind_ok in H as ([[d2 r2] blocked] & H2 & H);
   assert (P d2) as Hd2 by (by eapply (Hplan seen d1));
   destruct (match existing with Some _ => (d2, None) | None => claimNext d2 now end) as [d3 claim] eqn:E3;
   assert (P d3) as Hd3 by
     (destruct existing; [by injection E3 as <- _|];
      specialize (Hclaim d2 Hd2); by rewrite E3 in Hclaim);
   apply bind_ok in H as ([[d4 r4] o4] & H4 & H);
   assert (P d4) as Hd4 by (destruct claim; [by eapply Hexec|by injection H4 as <- _ _]);
   destruct o4; try (by injection H as <- _); by apply bind_ok in H as (more & _ & [= <- _])).
Qed.

Lemma reconcilePass_moves perform d now d' r :
  reconcilePass perform d now = Ok (d', r) → rtc moves d d'.
Proof.
  intros H. eapply (reconcilePass_keeps (rtc moves d)); [| | | | |exact H|done].
  - intros d1 loaded d2 replan _ H2%restorePersistedComponents_moves H1. by etrans.
  - intros d1 H1. etrans; [exact H1|apply claimNext_moves].
  - intros d1 claim d2 replan o H2%executeClaim_moves H1. by etrans.
  - intros d1 w d2 H2 H1. etrans; [exact H1|]. by eapply rtc_once, moves_losses.
  - intros seen d1 loaded sorted gates d2 replan blocked _ _ _ _ H2%plan_deployments_moves H1. by etrans.
Qed.

Lemma quiescent_moves perform budget : ∀ d now d',
  reconcileUntilQuiescent perform budget d now = Ok d' → rtc moves d d'.
Proof.
  induction budget as [|budget IH]; intros d now d'; cbn [Reconciler.reconcileUntilQuiescent]; [done|].
  intros ([d1 r] & H1%reconcilePass_moves & H)%bind_ok. etrans; [exact H1|].
  destruct r as [|[]]; [by injection H as <-|by eapply IH|by injection H as <-].
Qed.
End laws.
