(* ===== verification/PlanSteps.v ===== *)
(** * What a plan asks for

    Where each step of a plan comes from, and that it is about the instance it
    comes from: lemmas the reconciler's theorems share. *)

From S2P Require Import Prelude JsString Collections JsValue Identity JsonText Time Permission Lifecycle Placement Retry Plan PlanProofs Reconciler ReconcilerLaws.

Open Scope Z_scope.

Section plan_steps.
Context (domainToASCII : jstring → jstring) (sha256 : jstring → jstring).

(** The instance identity does not depend on the effect. *)
Lemma identities_instance l d c k k' a i i' :
  identities sha256 l d c k a = Ok i → identities sha256 l d c k' a = Ok i' → ei_instanceId i = ei_instanceId i'.
Proof. intros (_ & _ & H & _)%identities_ok (_ & _ & H' & _)%identities_ok. congruence. Qed.

(** An instance's identity, from what it is loaded as. *)
Definition own_identity (x : ComponentInstance) : jstring :=
  portableStableId sha256
    (own_parts (ci_legacyActivation x) (instance_generation (ci_value x)) (i_componentId (ci_value x)) (ci_activation x)).

(** A step about an instance that is there. *)
Definition about (x : ComponentInstance) (s : ReconcilePlanStep) : Prop :=
  s_expectedRevision s = Some (ci_revision x) ∧ e_instanceId (s_effect s) = own_identity x ∧
  s_legacyActivation s = ci_legacyActivation x.

Lemma instance_step_ok dep x kind c p a s :
  instance_step sha256 dep x kind c p a = Ok (Some s) →
  s_expectedRevision s = Some (ci_revision x) ∧ e_kind (s_effect s) = kind ∧
  e_instanceId (s_effect s) =
    portableStableId sha256 (own_parts (ci_legacyActivation x) (generation_of dep) c a) ∧
  s_legacyActivation s = ci_legacyActivation x.
Proof.
  unfold instance_step, step. intros (s' & Hs & [= <-])%bind_ok. apply bind_ok in Hs as (i & Hi & [= <-]).
  apply identities_ok in Hi as (_ & _ & Hi & _). done.
Qed.

Lemma instance_step_some dep x kind c p a o : instance_step sha256 dep x kind c p a = Ok o → is_Some o.
Proof. unfold instance_step. intros (s & _ & [= <-])%bind_ok. by eexists. Qed.

(** ** Where the steps of a plan come from *)
Inductive planned (snapshot : ReconcileSnapshot) (s : ReconcilePlanStep) : Prop :=
| planned_old x :
    x ∈ sn_instances snapshot → obsolete snapshot x = true →
    oldInstanceStep sha256 (sn_deployment snapshot) x (sn_now snapshot) = Ok (Some s) → planned snapshot s
| planned_current o component placement activation :
    d_state (sn_deployment snapshot) = Active → sn_suspended snapshot = false →
    component ∈ ag_components (sn_gate snapshot) →
    (∀ x, o = Some x → x ∈ sn_instances snapshot ∧ ci_activation x = activation ∧
       of_component (sn_deployment snapshot) (pc_componentId component) x = true) →
    planPlacement domainToASCII (placement_input snapshot component) = Ok placement →
    currentInstanceStep sha256 snapshot o (pc_componentId component) placement activation = Ok (Some s) →
    planned snapshot s.

Lemma obsolete_steps_planned snapshot instances steps s :
  obsolete_steps sha256 snapshot instances = Ok steps → instances ⊆ sn_instances snapshot →
  s ∈ steps → planned snapshot s.
Proof.
  unfold obsolete_steps. intros (os & Hos & [= <-])%bind_ok Hsub Hs.
  apply list_elem_of_omap in Hs as (o & Ho & Hs). cbn in Hs. subst o.
  apply mapM_ok in Hos. apply list_elem_of_lookup in Ho as [n Hn].
  destruct (Forall2_lookup_r _ _ _ _ _ Hos Hn) as (x & Hx & Hstep).
  apply list_elem_of_lookup_2, elem_of_filterb in Hx as [Hx Hob]. eapply planned_old; [by apply Hsub|done|done].
Qed.

Lemma current_steps_planned snapshot instances components : ∀ steps diagnostics s,
  current_steps domainToASCII sha256 snapshot instances components = Ok (steps, diagnostics) →
  d_state (sn_deployment snapshot) = Active → sn_suspended snapshot = false →
  instances ⊆ sn_instances snapshot → components ⊆ ag_components (sn_gate snapshot) →
  s ∈ steps → planned snapshot s.
Proof.
  induction components as [|c components IH]; intros steps diagnostics s; cbn [current_steps].
  { intros [= <- <-] ? ? ? ? Hs. by apply elem_of_nil in Hs. }
  intros H Ha Hsus Hsub Hcs Hs. assert (components ⊆ ag_components (sn_gate snapshot)) as Hcs' by set_solver.
  assert (c ∈ ag_components (sn_gate snapshot)) as Hc by set_solver.
  destruct (planPlacement _ _) as [placement|[code id]] eqn:Ep.
  - apply bind_ok in H as (next & Hnext & H). apply bind_ok in H as ([steps' diags'] & H' & [= <- <-]).
    destruct next as [s'|]; [|by eapply IH].
    apply elem_of_cons in Hs as [-> | Hs]; [|by eapply IH].
    eapply planned_current; [done|done|exact Hc| |exact Ep|exact Hnext].
    intros x Hx%find_some_in. destruct Hx as [Hx Hact%streq_true].
    apply elem_of_filterb in Hx as [Hx Hof]. split_and!; [by apply Hsub|done|done].
  - apply bind_ok in H as ([steps' diags'] & H' & [= <- <-]). by eapply IH.
Qed.

Lemma planReconcile_planned snapshot plan s :
  planReconcile domainToASCII sha256 snapshot = Ok plan → s ∈ rp_steps plan → planned snapshot s.
Proof.
  unfold planReconcile. destruct (_ || _); [by intros [= <-] ?%elem_of_nil|].
  set (instances := js_sort _ _). assert (instances ⊆ sn_instances snapshot) as Hsub.
  { intros x Hx%elem_of_js_sort. by apply elem_of_filterb in Hx as [? _]. }
  destruct (inconsistent_components _ _ _); [|by intros [= <-] ?%elem_of_nil].
  intros (old & Hold & H)%bind_ok Hs. apply bind_ok in H as ([current diags] & Hcur & [= <-]).
  cbn [rp_steps] in Hs. destruct diags; [|by apply elem_of_nil in Hs].
  apply elem_of_app in Hs as [Hs|Hs]; [by eapply obsolete_steps_planned|].
  destruct (bool_decide (d_state (sn_deployment snapshot) = Active)) eqn:Ea; cbn [andb] in Hcur;
    [|injection Hcur as <-; by apply elem_of_nil in Hs].
  destruct (sn_suspended snapshot) eqn:Esus; cbn [negb] in Hcur; [injection Hcur as <-; by apply elem_of_nil in Hs|].
  apply bool_decide_eq_true in Ea.
  eapply current_steps_planned; [exact Hcur|done|done|done| |done].
  intros c Hc. by apply elem_of_js_sort in Hc.
Qed.

(** A step is for an instance not there yet, or about the one it comes from. *)
Lemma planned_about snapshot s :
  (∀ x, x ∈ sn_instances snapshot → of_deployment (sn_deployment snapshot) x = true) →
  planned snapshot s →
  s_expectedRevision s = None ∨
  ∃ x, x ∈ sn_instances snapshot ∧ about x s ∧
    (oldInstanceStep sha256 (sn_deployment snapshot) x (sn_now snapshot) = Ok (Some s) ∨
     (d_state (sn_deployment snapshot) = Active ∧
      i_deploymentGeneration (ci_value x) = d_generation (sn_deployment snapshot))).
Proof.
  intros Hof [x Hx Hob Hs|o c placement a Ha Hsus Hc Ho Hp Hs].
  - right. exists x. enough (about x s) by (by split_and!; [..|left]). specialize (Hof x Hx). unfold of_deployment in Hof.
    apply andb_true_iff in Hof as [Happ%streq_true Hplug%streq_true].
    assert (∀ kind, instance_step sha256 (old_deployment (sn_deployment snapshot) (ci_value x)) x kind
      (i_componentId (ci_value x)) {| cpl_executor := i_executor (ci_value x); cpl_workerId := i_workerId (ci_value x) |}
      (ci_activation x) = Ok (Some s) → about x s) as Hto.
    { intros kind (Hr & _ & Hid & Hl)%instance_step_ok. split_and!; [done| |done]. rewrite Hid.
      unfold own_identity, instance_generation, generation_of, old_deployment. cbn. by rewrite Happ, Hplug. }
    unfold oldInstanceStep in Hs. destruct (i_lifecycle (ci_value x)) eqn:El; try done; try (by eapply Hto).
    + apply bind_ok in Hs as (drain & _ & Hs). case_match; by eapply Hto.
    + destruct (i_retryEffect (ci_value x)); [|done]. case_match; [done|]. by eapply Hto.
  - assert (∀ x kind, o = Some x → instance_step sha256 (sn_deployment snapshot) x kind (pc_componentId c) placement a
      = Ok (Some s) → ∃ x, x ∈ sn_instances snapshot ∧ about x s ∧
        (oldInstanceStep sha256 (sn_deployment snapshot) x (sn_now snapshot) = Ok (Some s) ∨
         (d_state (sn_deployment snapshot) = Active ∧
          i_deploymentGeneration (ci_value x) = d_generation (sn_deployment snapshot)))) as Hto.
    { intros x kind Hx (Hr & _ & Hid & Hl)%instance_step_ok. destruct (Ho x Hx) as (Hin & <- & Hcomp).
      exists x. enough (about x s) by (split_and!; [done..|right; split; [done|];
        by apply andb_true_iff in Hcomp as [_ ?%streq_true]]).
      split_and!; [done| |done]. rewrite Hid.
      specialize (Hof x Hin). unfold of_deployment in Hof. unfold of_component in Hcomp.
      apply andb_true_iff in Hof as [Happ%streq_true Hplug%streq_true], Hcomp as [Hcid%streq_true Hgen%streq_true].
      unfold own_identity, instance_generation, generation_of. by rewrite Happ, Hplug, Hcid, Hgen. }
    assert (∀ p r, (s ← step sha256 (sn_deployment snapshot) (pc_componentId c) EffectPrepare p None CpCreated a false None;
       Ok (Some s)) = Ok (Some r) → s_expectedRevision r = None) as Hnew.
    { intros p r (s' & Hs' & [= <-])%bind_ok. by apply bind_ok in Hs' as (i & _ & [= <-]). }
    unfold currentInstanceStep in Hs. destruct o as [x|]; [|left; by eapply Hnew].
    destruct (_ && _); [done|].
    destruct (i_lifecycle (ci_value x)); try done; try (right; by eapply Hto); try (left; by eapply Hnew).
    destruct (i_retryEffect (ci_value x)); [|done]. case_match; [done|]. right. by eapply Hto.
Qed.

(** ** The instances a pass plans on *)
Lemma sort_instances_good loaded deployments : ∀ sorted x,
  sort_instances sha256 loaded deployments = Ok sorted → x ∈ sorted.1 →
  ∃ r, r ∈ loaded ∧ li_value r = x ∧ isInstanceContextConsistent sha256 r deployments = Ok true.
Proof.
  induction loaded as [|r loaded IH]; intros sorted x; cbn [sort_instances].
  { intros [= <-] Hx. by apply elem_of_nil in Hx. }
  intros (c & Hc & H)%bind_ok Hx. apply bind_ok in H as (rest & Hrest & [= <-]).
  destruct c; cbn in Hx.
  - apply elem_of_cons in Hx as [-> | Hx]; [by exists r; split; [left|]|].
    destruct (IH _ _ Hrest Hx) as (r' & ? & ? & ?). exists r'. split; [by right|done].
  - destruct (IH _ _ Hrest Hx) as (r' & ? & ? & ?). exists r'. split; [by right|done].
Qed.

(** A consistent instance is stored under its own identity. *)
Lemma loaded_own d loaded r :
  loadInstances d = Ok loaded → r ∈ loaded →
  li_legacyActivation r = ci_legacyActivation (li_value r) ∧
  du_instances d !! li_storageId r = Some (ci_value (li_value r), ci_revision (li_value r)).
Proof.
  intros Hload Hr. destruct (loadInstances_in _ _ _ Hload Hr) as (k & i & revision & Hk & Hl). split.
  - unfold load_instance in Hl. by apply bind_ok in Hl as (a & _ & [= <-]).
  - apply load_instance_ok in Hl as (-> & -> & ->). done.
Qed.

Lemma consistent_own r deployments :
  isInstanceContextConsistent sha256 r deployments = Ok true →
  li_legacyActivation r = ci_legacyActivation (li_value r) →
  li_storageId r = own_identity (li_value r).
Proof.
  unfold isInstanceContextConsistent, isCanonicalInstance. intros (c & Hc & H)%bind_ok Hl.
  destruct c; cbn [negb] in H; [|done]. clear H.
  destruct (streq (li_storageId r) _) eqn:Es; cbn [negb] in Hc; [|done]. apply streq_true in Es.
  apply bind_ok in Hc as (id & Hid & [= Heq]). apply streq_true in Heq. rewrite Es, <- Heq.
  unfold canonical_instance_id in Hid. rewrite Hl in Hid. unfold own_identity, own_parts.
  destruct (ci_legacyActivation (li_value r)).
  - injection Hid as <-. unfold legacyReconcileInstanceId. by rewrite app_nil_r.
  - apply bind_ok in Hid as (i & Hi & [= <-]).
    by apply (identities_ok _ false) in Hi as (_ & _ & Hi & _).
Qed.

Lemma good_instance d loaded sorted deployments x :
  loadInstances d = Ok loaded → sort_instances sha256 loaded deployments = Ok sorted → x ∈ sorted.1 →
  du_instances d !! own_identity x = Some (ci_value x, ci_revision x).
Proof.
  intros Hload Hsort Hx. destruct (sort_instances_good _ _ _ _ Hsort Hx) as (r & Hr & <- & Hc).
  destruct (loadInstances_in _ _ _ Hload Hr) as (k & i & revision & Hk & Hl).
  assert (li_legacyActivation r = ci_legacyActivation (li_value r)) as Hleg.
  { unfold load_instance in Hl. by apply bind_ok in Hl as (a & _ & [= <-]). }
  rewrite <- (consistent_own _ _ Hc Hleg). apply load_instance_ok in Hl as (-> & -> & ->). done.
Qed.

(** ** What a handler leaves alone *)
Definition frame (k : jstring) (d d' : Durable) : Prop :=
  du_deployments d' = du_deployments d ∧ ∀ k', k' ≠ k → du_instances d' !! k' = du_instances d !! k'.

Lemma frame_refl k d : frame k d d.
Proof. done. Qed.
Lemma frame_put k d o status key i : key = k → frame k d (put_instance (journal d o status) key i).
Proof. intros ->. split; [done|]. intros k' Hk. by apply lookup_insert_ne. Qed.
Lemma frame_trans k d1 d2 d3 : frame k d1 d2 → frame k d2 d3 → frame k d1 d3.
Proof. intros [H1 H2] [H3 H4]. split; [congruence|]. intros k' Hk. by rewrite H4, H2. Qed.
Lemma frame_settle k d m r : frame k d (settle_message d m r).
Proof. unfold settle_message. by destruct (du_outbox d !! m). Qed.

Lemma frame_authorize prerequisites k d e l r d' a :
  e_instanceId e = k → authorizeRecoveryEffect prerequisites d e l r = Ok (d', a) → frame k d d'.
Proof.
  intros <-. unfold authorizeRecoveryEffect.
  destruct (List.find _ (du_losses d)); [|by intros [= <- _]].
  destruct (_ || _); [by intros [= <- _]|]. intros (loaded & _ & H)%bind_ok. revert H.
  destruct (List.find _ loaded); [|by intros [= <- _]].
  destruct (negb _); [by intros [= <- _]|]. destruct (negb _); [by intros [= <- _]|].
  destruct (_ && _); intros [= <- _]; [done|]. split; [done|]. intros k' Hk. by apply lookup_insert_ne.
Qed.

Lemma frame_begin prerequisites k d e i r x pre d' a :
  e_instanceId e = k → begin_effect prerequisites d e i r x pre = Ok (d', a) → frame k d d'.
Proof.
  intros He. unfold begin_effect. intros ([d1 a1] & H1 & H2)%bind_ok.
  assert (frame k d d1) as Hf by (destruct x; [by eapply frame_authorize|by injection H1 as <- _]).
  eapply frame_trans; [exact Hf|]. destruct a1; try (by injection H2 as <- _).
  set (d3 := match pre with Some l => _ | None => _ end) in H2.
  assert (frame k d1 d3) as Hf3 by (unfold d3; destruct pre; [by apply frame_put|done]).
  eapply frame_trans; [exact Hf3|]. destruct x; [by eapply frame_authorize|by injection H2 as <- _].
Qed.

Lemma frame_commit k d e claim b d' replan :
  e_instanceId e = k → commitEffect d e claim b = Ok (d', replan) → frame k d d'.
Proof.
  intros He. unfold commitEffect. destruct (du_instances d !! _) as [[i r]|]; [|by intros [= <- _]].
  intros (c & _ & H)%bind_ok. destruct c; cbn [negb] in H; [|by injection H as <- _].
  apply bind_ok in H as (l & _ & [= <- _]).
  eapply frame_trans; [by apply frame_put|apply frame_settle].
Qed.

Lemma frame_fail k d e claim now d' replan :
  e_instanceId e = k → commitFailedEffect d e claim now = Ok (d', replan) → frame k d d'.
Proof.
  intros He. unfold commitFailedEffect. destruct (deterministicRetryDelay _) as [delay|[]]; [|done].
  destruct (du_instances d !! _) as [[i r]|]; [|by intros [= <- _]].
  intros (c & _ & H)%bind_ok. destruct c; cbn [negb] in H; [|by injection H as <- _].
  apply bind_ok in H as (l & _ & [= <- _]).
  eapply frame_trans; [by apply frame_put|apply frame_settle].
Qed.

Lemma frame_mark k d i d' :
  i_instanceId (ci_value i) = k → mark_termination_restored d i = Ok d' → frame k d d'.
Proof.
  intros Hi. unfold mark_termination_restored. case_bool_decide; [by intros [= <-]|].
  destruct (du_instances d !! _) as [[v r]|]; [|by intros [= <-]].
  case_bool_decide; [by intros [= <-]|]. intros (v' & _ & [= <-])%bind_ok.
  split; [done|]. intros k' Hk. apply lookup_insert_ne. congruence.
Qed.
Lemma frame_record k d i now d' :
  i_instanceId (ci_value i) = k → record_restoration_failure sha256 d i now = Ok d' → frame k d d'.
Proof.
  intros Hi. unfold record_restoration_failure. intros (o & _ & H)%bind_ok. revert H.
  destruct (du_instances d !! _) as [[v r]|]; [|by intros [= <-]].
  destruct (deterministicRetryDelay _) as [delay|]; [|done]. intros [= <-]. by apply frame_put.
Qed.
Lemma frame_clear k d i d' :
  i_instanceId (ci_value i) = k → clear_restoration_failure sha256 d i = Ok d' → frame k d d'.
Proof.
  intros Hi. unfold clear_restoration_failure. destruct (unfailed _); [by intros [= <-]|].
  destruct (du_instances d !! _) as [[v r]|]; [|by intros [= <-]].
  destruct (unfailed v); [by intros [= <-]|]. intros (loaded & _ & H)%bind_ok.
  apply bind_ok in H as (o & _ & [= <-]). by apply frame_put.
Qed.

Lemma frame_claimNext k d now : frame k d (claimNext d now).1.
Proof. unfold claimNext. by destruct (List.find _ _). Qed.

Lemma executeClaim_frame supportedExecutors workers gate prerequisites perform d claim now d' replan o :
  executeClaim domainToASCII sha256 supportedExecutors workers gate prerequisites perform d claim now
    = Ok (d', replan, o) →
  (du_deployments d' = du_deployments d ∧ du_instances d' = du_instances d) ∨
  ∃ e x pre, decide_claim domainToASCII sha256 supportedExecutors workers gate prerequisites d claim
      (Z.max (k_claimedAt claim) now) = Ok (ClaimPerform e x pre) ∧ frame (e_instanceId e) d d'.
Proof.
  unfold executeClaim. cbv zeta. intros (dec & Hd & H)%bind_ok.
  assert (∀ k d1 m r, frame k d d1 → frame k d (settle_message d1 m r)) as Hset
    by (intros; eapply frame_trans; [eassumption|apply frame_settle]).
  assert (∀ d1 m r, du_deployments d1 = du_deployments d → du_instances d1 = du_instances d →
    du_deployments (settle_message d1 m r) = du_deployments d ∧ du_instances (settle_message d1 m r) = du_instances d)
    as Hsame by (intros d1 m r ? ?; rewrite settle_message_instances; unfold settle_message; by destruct (du_outbox d1 !! m)).
  destruct dec as [| |again|at_ again|e x pre].
  1-4: injection H as <- _ _; left; try done; by apply Hsame.
  destruct (du_instances d !! e_instanceId e) as [[i revision]|] eqn:Ei; [|injection H as <- _ _; by left].
  right. exists e, x, pre. split; [done|]. apply bind_ok in H as ([d1 a] & Hb & H).
  apply (frame_begin _ (e_instanceId e)) in Hb; [|done]. destruct a.
  1,3,4: injection H as <- _ _; by apply Hset.
  destruct (perform e) as [b| |].
  - apply bind_ok in H as ([d2 r2] & Hc & [= <- _ _]). eapply frame_trans; [exact Hb|by eapply frame_commit].
  - apply bind_ok in H as ([d2 r2] & Hc & [= <- _ _]). eapply frame_trans; [exact Hb|by eapply frame_fail].
  - by injection H as <- _ _.
Qed.

Lemma enqueue_deployments d messageId operationId payload now d' :
  enqueue d messageId operationId payload now = Some d' → du_deployments d' = du_deployments d.
Proof.
  unfold enqueue. destruct (du_outbox d !! messageId); [|by intros [= <-]].
  case_bool_decide; [by intros [= <-]|]. destruct (_ && _); [by intros [= <-]|done].
Qed.

(** A step persisted is none at all, or the stepped instance in its place. *)
Lemma persistStep_writes d dep s now d' replan :
  persistStep d dep s now = Ok (d', replan) →
  d' = d ∨
  (snd <$> du_instances d !! e_instanceId (s_effect s) = s_expectedRevision s ∧
   du_deployments d' = du_deployments d ∧
   ∃ i, stepped_instance s (fst <$> du_instances d !! e_instanceId (s_effect s)) = Ok i ∧
     du_instances d' = <[e_instanceId (s_effect s) := (i, du_revision d + 1)]> (du_instances d)).
Proof.
  unfold persistStep. destruct (List.find _ _) as [desired|]; [|intros [= <- _]; by left].
  destruct (_ || _); [intros [= <- _]; by left|].
  destruct (negb _) eqn:Er; [intros [= <- _]; by left|]. apply negb_false_iff, bool_decide_eq_true in Er.
  intros (i' & Hi & H)%bind_ok. revert H.
  destruct (enqueue _ _ _ _ _) as [d''|] eqn:Ee; intros [= <- _]; [|by left]. right.
  split_and!; [done|by apply enqueue_deployments in Ee|].
  exists i'. split; [done|]. by apply enqueue_instances in Ee.
Qed.
End plan_steps.
