(* ===== verification/ReconcilerTheorems.v ===== *)
(** * What the reconciler guarantees

    Properties of the reconciler in every environment: when an effect reaches
    the component effect executor, that a committed effect is not performed
    again, and how an instance may change; with a small concrete installation
    on which they are run. *)

From S2P Require Import Prelude JsString Collections JsValue Identity JsonText Time Permission Lifecycle Placement Retry Plan PlanProofs Reconciler ReconcilerLaws.

Open Scope Z_scope.

(** ** A concrete installation: one plugin of two components. *)
Module Sample.
Definition components : list PluginComponent :=
  [{| pc_componentId := js "a"; pc_executors := [Process] |};
   {| pc_componentId := js "b"; pc_executors := [Process; Thread] |}].
Definition deployment (generation : jstring) (state : PluginDeploymentState) : PluginDeployment :=
  {| d_applicationId := js "app"; d_pluginId := js "plug"; d_artifactDigest := js "sha256:x";
     d_generation := generation; d_state := state |}.
Definition granted : json :=
  JArr [JObj [(js "kind", JStr (js "executor")); (js "executors", JArr [JStr (js "process")])]].
Definition open_gate : ArtifactDeploymentGate :=
  {| ag_components := components; ag_capability_ok := true; ag_capability_diagnostics := [];
     ag_permission_allowed := true; ag_permission_diagnostics := []; ag_granted := Some granted;
     ag_order := [(js "app", js "plug")] |}.
Definition gate (_ : Durable) (_ : PluginDeployment) : option gate_outcome := Some (GateOpen open_gate).
Definition prerequisites (_ : Durable) (_ : PersistedProviderLoss) : bool := true.
Definition isLive (_ : ComponentInstance) : bool := true.
Definition installed (_ : PluginDeployment) : option (list PluginComponent) := Some components.
Definition domainToASCII (s : jstring) : jstring := s.
(** No binding is stale, no provider lost, every session lives and can be ended. *)
Definition lifecycle : ComponentLifecycleExecutor :=
  {| cx_isLive := isLive; cx_restore := λ _, true; cx_restoreStarting := None;
     cx_restoreTermination := Some (λ _, true) |}.
Definition env : pass_environment :=
  {| pe_cleanup := λ _, true; pe_losses := λ _ _, inl []; pe_lifecycle := Some lifecycle;
     pe_isInstalled := λ _ _, true; pe_remoteEligible := λ _ _, true |}.
Definition perform (e : ReconcileEffect) : effect_result := EffectDone None.
Definition deployed (generation : jstring) (d : Durable) : Durable :=
  {| du_deployments := [deployment generation Active]; du_instances := du_instances d; du_losses := du_losses d;
     du_outbox := du_outbox d; du_operations := du_operations d; du_sequence := du_sequence d;
     du_revision := du_revision d |}.
Definition run (perform : ReconcileEffect → effect_result) (budget : nat) (d : Durable) (now : Z) : result exn Durable :=
  reconcileUntilQuiescent domainToASCII sample_sha256 [Process] [] gate prerequisites env isLive installed perform
    budget d now.
(** The lifecycles in a state, in the order of the identifiers. *)
Definition lifecycles (d : Durable) : list ComponentLifecycleState :=
  map (λ e : jstring * (PersistedComponentInstance * Z), i_lifecycle e.2.1)
    (js_sort (λ a b, compareText a.1 b.1) (map_to_list (du_instances d))).
(** The first claim of a state, and the state after its plan is persisted. *)
Definition planned : Durable :=
  match run (λ _, EffectInterrupted) 1 (deployed (js "1") empty_durable) 1000000 with Ok d => d | Err _ => empty_durable end.
Definition claim : OutboxClaim :=
  match claimNext planned 2000000 with
  | (_, Some c) => c
  | (_, None) => {| k_message := {| m_messageId := []; m_operationId := []; m_payload := None; m_availableAt := 0;
                      m_sequence := 0; m_attempt := 0; m_leasedUntil := None; m_state := OutPending |};
                    k_attempt := 0; k_claimedAt := 0 |}
  end.
Definition effect : option ReconcileEffect :=
  effect_of_claim domainToASCII sample_sha256 [Process] [] gate prerequisites planned claim 2000000.

Definition first_effect : ReconcileEffect :=
  {| e_kind := EffectPrepare; e_activation := js "1";
     e_operationId := js "reconcile.app.plug.a.g1.a1.prepare"; e_messageId := js "reconcile.app.plug.a.g1.a1.prepare";
     e_instanceId := js "app.plug.a.g1.a1"; e_applicationId := js "app"; e_pluginId := js "plug";
     e_componentId := js "a"; e_deploymentGeneration := js "1"; e_artifactDigest := js "sha256:x";
     e_executor := Process; e_workerId := None; e_executionBinding := None |}.
Definition committed : Durable :=
  match commitEffect planned first_effect claim None with Ok (d, _) => d | Err _ => planned end.
(** The pass after, which starts what is prepared. *)
Definition replanned : Durable :=
  match reconcilePass domainToASCII sample_sha256 [Process] [] gate prerequisites env isLive installed perform
          committed 3000000 with Ok (d, _) => d | Err _ => committed end.
Definition next_claim : OutboxClaim :=
  match claimNext replanned 4000000 with (_, Some c) => c | (_, None) => claim end.

Example planned_lifecycles : lifecycles planned = [CpCreated; CpCreated].
Proof. vm_compute. reflexivity. Qed.
Example converged :
  match run perform 8 (deployed (js "1") empty_durable) 1000000 with
  | Ok d => lifecycles d = [CpReady; CpReady] ∧
      match run perform 16 (deployed (js "2") d) 2000000 with
      | Ok d' => lifecycles d' = [CpStopped; CpReady; CpStopped; CpReady]
      | Err _ => False
      end
  | Err _ => False
  end.
Proof. vm_compute. split; reflexivity. Qed.
Example first_effect_claimed : effect = Some first_effect.
Proof. vm_compute. reflexivity. Qed.
End Sample.

Section properties.
Context (domainToASCII : jstring → jstring) (sha256 : jstring → jstring)
  (supportedExecutors : list ExecutorKind) (workers : list PlacementWorker)
  (gate : Durable → PluginDeployment → option gate_outcome)
  (prerequisites : Durable → PersistedProviderLoss → bool).

(** The instance an effect is for is in the state as the effect has it. *)
Record addressed (d : Durable) (claim : OutboxClaim) (e : ReconcileEffect) (i : PersistedComponentInstance) : Prop := {
  addressed_payload : ∃ legacy, m_payload (k_message claim) = Some (e, legacy);
  addressed_envelope : e_messageId e = m_messageId (k_message claim) ∧ e_operationId e = m_operationId (k_message claim);
  addressed_instance : ∃ revision, du_instances d !! e_instanceId e = Some (i, revision);
  addressed_canonical : ∃ legacy,
    identities sha256 legacy
      {| gi_applicationId := e_applicationId e; gi_pluginId := e_pluginId e;
         gi_generation := e_deploymentGeneration e |} (e_componentId e) (e_kind e) (e_activation e)
    = Ok {| ei_instanceId := e_instanceId e; ei_operationId := e_operationId e; ei_messageId := e_messageId e |};
  addressed_tuple : ∃ a, parsePersistedActivation i = Ok a ∧ matches_instance e i a = true;
}.

(** C2. The executor is called at most once per claim, with the effect the claim
    carries and nothing else, and only when that effect is due: its envelope and
    its canonical identities agree, the persisted instance is the one it names,
    at the lifecycle the effect starts from (or failed in it with its retry due),
    and the operation is not already complete; a preparation or a start only for
    a deployment that is active at this generation and artifact, whose gate
    admits it and whose placement is allowed, with no provider loss holding it;
    a drain or a stop only when the deployment does not want the instance. *)
Theorem effect_admission (d : Durable) (claim : OutboxClaim) (now : Z) (perform perform' : ReconcileEffect → effect_result) :
  let asked := effect_of_claim domainToASCII sha256 supportedExecutors workers gate prerequisites d claim now in
  let at_ := Z.max (k_claimedAt claim) now in
  let execute p := executeClaim domainToASCII sha256 supportedExecutors workers gate prerequisites p d claim now in
  ((∀ e, asked = Some e → perform e = perform' e) → execute perform = execute perform') ∧
  match asked with
  | None => True
  | Some e =>
      ∃ i, addressed d claim e i ∧ completed i (e_operationId e) = false ∧ awaits i (e_kind e) at_ ∧
        match e_kind e with
        | EffectPrepare | EffectStart =>
            admitted domainToASCII supportedExecutors workers gate d e ∧ ¬ held_back prerequisites d e
        | EffectDrain | EffectStop =>
            desires e (List.find (same_deployment (e_applicationId e) (e_pluginId e)) (du_deployments d)) = false ∨
            held_back prerequisites d e
        end
  end.
Proof.
  split; [apply executeClaim_perform_ext|].
  destruct (effect_of_claim _ _ _ _ _ _ _ _ _) as [e|] eqn:E; [|done].
  apply effect_of_claim_some in E as (x & pre & i & revision & d1 & Hd & Hi & _).
  apply decide_claim_perform in Hd as (i' & r & legacy & canonical & Hp & Hm & Ho & Hi' & Hcan & -> & Ht & Hc & He).
  rewrite Hi in Hi'. injection Hi' as <- <-. apply decide_effect_perform in He as (_ & Ha & Hk).
  exists i. split_and!; [|done..]. split; eauto.
Qed.

(** C3. Once an effect is committed its operation is never performed again:
    whatever plans, claims, commits, failures, restorations, provider losses and
    restarts come after, and whatever changes in the deployments, the losses or the
    outbox, no claim brings the executor an effect with that operation on that
    instance. *)
Theorem committed_once (d0 d1 d2 : Durable) (e e' : ReconcileEffect) (claim claim' : OutboxClaim)
    (binding : option json) (now : Z) :
  well_formed d0 → is_Some (du_instances d0 !! e_instanceId e) →
  commitEffect d0 e claim binding = Ok (d1, false) →
  rtc (moves domainToASCII sha256 supportedExecutors workers gate prerequisites) d1 d2 →
  effect_of_claim domainToASCII sha256 supportedExecutors workers gate prerequisites d2 claim' now = Some e' →
  e_instanceId e' = e_instanceId e → e_operationId e' ≠ e_operationId e.
Proof.
  intros Hwf [[i r] Hi] Hc Hmoves He' Eid Eop.
  assert (well_formed d1) as Hwf1 by (by eapply commitEffect_carries).
  assert (∃ i1 r1, du_instances d1 !! e_instanceId e = Some (i1, r1) ∧ completed i1 (e_operationId e) = true)
    as (i1 & r1 & Hi1 & Hdone).
  { unfold commitEffect in Hc. rewrite Hi in Hc. apply bind_ok in Hc as (cur & _ & Hc).
    destruct cur; cbn [negb] in Hc; [|done]. apply bind_ok in Hc as (l & _ & [= <-]).
    unfold acknowledge. rewrite settle_message_instances.
    eexists _, _. split; [apply lookup_insert_eq|]. unfold completed. cbn. by rewrite bool_decide_eq_true_2. }
  destruct (history_carries _ _ _ _ _ _ _ _ Hmoves Hwf1 _ _ _ Hi1) as (i2 & r2 & Hi2 & Hev).
  assert (completed i2 (e_operationId e) = true) as Hdone2 by (by apply (evolves_keeps _ _ Hev)).
  apply effect_of_claim_some in He' as (x & pre & i' & revision & d3 & Hd & _ & _).
  apply decide_claim_perform in Hd as (i'' & r'' & legacy & canonical & _ & _ & _ & Hi'' & _ & _ & _ & Hnot & _).
  rewrite Eid, Hi2 in Hi''. injection Hi'' as <- <-. by rewrite Eop, Hdone2 in Hnot.
Qed.

End properties.

Lemma planned_well_formed : well_formed Sample.planned.
Proof.
  assert (well_formed (Sample.deployed (js "1") empty_durable)) as H by done.
  destruct (Sample.run (λ _, EffectInterrupted) 1 (Sample.deployed (js "1") empty_durable) 1000000) as [d|e] eqn:E.
  - unfold Sample.planned. rewrite E. eapply history_well_formed; [by eapply quiescent_moves|done].
  - unfold Sample.planned. by rewrite E.
Qed.

Lemma replanned_history :
  rtc (moves Sample.domainToASCII sample_sha256 [Process] [] Sample.gate Sample.prerequisites)
    Sample.committed Sample.replanned.
Proof.
  unfold Sample.replanned. destruct (reconcilePass _ _ _ _ _ _ _ _ _ _ _ _) as [[d r]|] eqn:E; [|done].
  by eapply reconcilePass_moves.
Qed.

Lemma committed_once_witness :
  ∃ e', effect_of_claim Sample.domainToASCII sample_sha256 [Process] [] Sample.gate Sample.prerequisites
          Sample.replanned Sample.next_claim 4000000 = Some e' ∧
        e_operationId e' ≠ e_operationId Sample.first_effect.
Proof.
  eexists. split; [vm_compute; reflexivity|].
  refine (committed_once Sample.domainToASCII sample_sha256 [Process] [] Sample.gate Sample.prerequisites
    Sample.planned Sample.committed Sample.replanned Sample.first_effect _ Sample.claim Sample.next_claim None 4000000
    planned_well_formed _ _ _ _ _).
  - eexists. vm_compute. reflexivity.
  - vm_compute. reflexivity.
  - exact replanned_history.
  - vm_compute. reflexivity.
  - vm_compute. reflexivity.
Defined.

(** After the commit a restoration of the instance fails, and then succeeds. *)
Definition restored_key : jstring := js "app.plug.a.g1.a1".
Definition loaded_instance (d : Durable) : ComponentInstance :=
  match du_instances d !! restored_key with
  | Some (i, r) => {| ci_value := i; ci_activation := js "1"; ci_legacyActivation := false; ci_revision := r |}
  | None => {| ci_value := recovery_instance Sample.first_effect; ci_activation := js "1";
               ci_legacyActivation := false; ci_revision := 0 |}
  end.
Definition unrestored : Durable :=
  match record_restoration_failure sample_sha256 Sample.committed (loaded_instance Sample.committed) 4000000 with
  | Ok d => d | Err _ => Sample.committed end.
Definition restored_again : Durable :=
  match clear_restoration_failure sample_sha256 unrestored (loaded_instance unrestored) with
  | Ok d => d | Err _ => unrestored end.
Definition diagnostic_at (d : Durable) : option (option jstring * option Z * bool) :=
  match du_instances d !! restored_key with
  | Some (i, _) => Some (i_diagnostic i, i_attempt i, completed i (e_operationId Sample.first_effect))
  | None => None
  end.
Example restoration_recorded :
  diagnostic_at unrestored = Some (Some LIFECYCLE_RESTORE_FAILED, Some 1, true) ∧
  diagnostic_at restored_again = Some (None, None, true).
Proof. vm_compute. split; reflexivity. Qed.

