(* ===== verification/StuckPreparation.v ===== *)
(** * Failed preparations of old generations

    A preparation that failed is only tried again while its deployment wants the
    generation; after that no plan drains or stops the instance, and its
    failure stays on the record of a deployment that runs otherwise. *)

From S2P Require Import Prelude JsString Collections JsValue Identity JsonText Time Permission Lifecycle Placement Retry Plan PlanProofs Reconciler ReconcilerLaws PlanSteps ReconcilerTheorems.

Open Scope Z_scope.

Section stuck.
Context (domainToASCII : jstring → jstring) (sha256 : jstring → jstring)
  (supportedExecutors : list ExecutorKind) (workers : list PlacementWorker)
  (gate : Durable → PluginDeployment → option gate_outcome)
  (prerequisites : Durable → PersistedProviderLoss → bool).

(** No deployment wants the generation of the instance. *)
Definition unwanted (d : Durable) (i : PersistedComponentInstance) : Prop :=
  ∀ dep, dep ∈ du_deployments d → d_applicationId dep = i_applicationId i → d_pluginId dep = i_pluginId i →
    d_state dep = Active → d_generation dep ≠ i_deploymentGeneration i.

Definition failed_preparation (i : PersistedComponentInstance) : Prop :=
  i_lifecycle i = CpFailed ∧ i_retryEffect i = Some EffectPrepare.

(** The record of the key is an unwanted failed preparation with this diagnostic. *)
Definition stuck (k : jstring) (diagnostic : option jstring) (g : GenerationIdentity) (d : Durable) : Prop :=
  ∃ i r, du_instances d !! k = Some (i, r) ∧ failed_preparation i ∧ unwanted d i ∧
    i_diagnostic i = diagnostic ∧ instance_generation i = g.

Lemma stuck_same k dg g d d' :
  du_deployments d' = du_deployments d → du_instances d' !! k = du_instances d !! k → stuck k dg g d → stuck k dg g d'.
Proof.
  intros Hd Hi (i & r & Hk & Hf & Hu & H). exists i, r. rewrite Hi. split_and!; try done; [|apply H..].
  unfold unwanted. by rewrite Hd.
Qed.

Lemma stuck_claim perform k dg g d claim now d' replan o :
  executeClaim domainToASCII sha256 supportedExecutors workers gate prerequisites perform d claim now
    = Ok (d', replan, o) → stuck k dg g d → stuck k dg g d'.
Proof.
  intros [[Hd Hi] | (e & x & pre & Hdec & Hd & Hf)]%executeClaim_frame Hs; [by eapply stuck_same; [|rewrite Hi|]|].
  eapply stuck_same; [exact Hd| |exact Hs]. apply Hf. intros ->.
  destruct Hs as (i & r & Hk & (Hl & Hr) & Hu & _).
  apply decide_claim_perform in Hdec as (i' & r' & ? & ? & _ & _ & _ & Hk' & _ & _ & (a & _ & Hm) & _ & He).
  rewrite Hk in Hk'. injection Hk' as <- <-.
  apply decide_effect_perform in He as (_ & Haw & He).
  assert (e_kind e = EffectPrepare) as Ekind.
  { destruct Haw as [Haw|(_ & Haw & _)]; [rewrite Hl in Haw; by destruct (e_kind e)|]. congruence. }
  rewrite Ekind in He. destruct He as [(dep & g' & c & Hin & Ha & Hp & Hst & Hg & _) _].
  unfold matches_instance in Hm. rewrite !andb_true_iff in Hm.
  destruct Hm as [[[[[[[[[[_ _] Ma%streq_true] Mp%streq_true] _] Mg%streq_true] _] _] _] _] _].
  eapply Hu; [exact Hin|congruence..].
Qed.

Lemma stuck_persist k dg g d dep s now d' replan :
  (e_instanceId (s_effect s) = k → s_expectedRevision s = None ∨ e_kind (s_effect s) = EffectPrepare) →
  persistStep d dep s now = Ok (d', replan) → stuck k dg g d → stuck k dg g d'.
Proof.
  intros Hs [-> | (Hrev & Hdep & i' & Hi' & Hins)]%persistStep_writes Hst; [done|].
  destruct (decide (e_instanceId (s_effect s) = k)) as [Ek|Hne].
  2:{ eapply stuck_same; [done| |done]. rewrite Hins. by apply lookup_insert_ne. }
  destruct Hst as (i & r & Hk & (Hl & Hr) & Hu & Hdg & Hg). rewrite Ek, Hk in Hrev, Hi'. cbn in Hrev, Hi'.
  destruct (Hs Ek) as [Hnone|Hkind]; [congruence|].
  unfold stepped_instance in Hi'. rewrite Hkind, Hl in Hi'. cbn in Hi'. injection Hi' as <-.
  exists (with_lifecycle CpFailed (placed_instance s i)), (du_revision d + 1). rewrite Hins, Ek, lookup_insert_eq.
  split_and!; try done; [by rewrite Hl|]. unfold unwanted. by rewrite Hdep.
Qed.

Lemma stuck_persists k dg g dep steps now : ∀ d d' replan,
  (∀ s, s ∈ steps → e_instanceId (s_effect s) = k →
     s_expectedRevision s = None ∨ e_kind (s_effect s) = EffectPrepare) →
  persist_steps d dep steps now = Ok (d', replan) → stuck k dg g d → stuck k dg g d'.
Proof.
  induction steps as [|s steps IH]; intros d d' replan Hs; cbn [persist_steps]; [by intros [= <- _]|].
  intros ([d1 r1] & H1 & H)%bind_ok Hst. apply bind_ok in H as ([d2 r2] & H2 & [= <- _]).
  eapply IH; [|exact H2|]; [intros; apply Hs; [by right|done]|].
  eapply stuck_persist; [|exact H1|done]. apply Hs. by left.
Qed.

(** The planned steps for the key only prepare. *)
Lemma stuck_planned k dg g d loaded sorted dep gt now s :
  loadInstances d = Ok loaded → sort_instances sha256 loaded (du_deployments d) = Ok sorted →
  stuck k dg g d → dep ∈ du_deployments d →
  planned domainToASCII sha256 (planning_snapshot supportedExecutors workers prerequisites d dep gt sorted.1 now) s →
  e_instanceId (s_effect s) = k → s_expectedRevision s = None ∨ e_kind (s_effect s) = EffectPrepare.
Proof.
  intros Hl Hsort (i & r & Hk & (Hf & Hr) & Hu & _) Hdep Hs Ek.
  set (snapshot := planning_snapshot _ _ _ _ _ _ _ _) in Hs.
  assert (∀ x, x ∈ sn_instances snapshot → x ∈ sorted.1 ∧ of_deployment dep x = true) as Hsub.
  { intros x. cbn. assert (∀ x, x ∈ List.filter (of_deployment dep) sorted.1 →
      x ∈ sorted.1 ∧ of_deployment dep x = true) as Hown by (intros y Hy; by apply elem_of_filterb in Hy).
    destruct (_ ≫= l_recoveryActivations); [|apply Hown].
    destruct (match _ with Some l => _ | None => false end); [apply Hown|].
    intros Hx. apply elem_of_filterb in Hx as [Hx _]. by apply Hown. }
  apply planned_about in Hs; [|intros x Hx; by apply Hsub].
  destruct Hs as [Hs|(x & Hx & (_ & Hid & _) & Horig)]; [by left|right].
  destruct (Hsub x Hx) as [Hgood Hof]. pose proof (good_instance _ _ _ _ _ _ Hl Hsort Hgood) as Hown.
  rewrite <- Hid, Ek, Hk in Hown. injection Hown as Hi _.
  unfold of_deployment in Hof. rewrite <- Hi, andb_true_iff, !streq_true in Hof. destruct Hof as [Ha Hp].
  destruct Horig as [Hold|[Hact Hgen]].
  - unfold oldInstanceStep in Hold. rewrite <- Hi, Hf, Hr in Hold. revert Hold. case_match; [done|].
    by intros (_ & ? & _)%instance_step_ok.
  - rewrite <- Hi in Hgen. exfalso. change (sn_deployment snapshot) with dep in Hact, Hgen. eapply Hu; [exact Hdep|congruence..].
Qed.

(** A provider loss does not move a failed instance. *)
Lemma stuck_losses k dg g d w now d' :
  commit_losses d w now = Ok d' → stuck k dg g d → stuck k dg g d'.
Proof.
  unfold commit_losses. destruct (staged_instances d w) as [staged|] eqn:Es; [|by intros [= <-]].
  intros (puts & -> & H)%bind_ok Hst. destruct (foldl (enqueue_step now) _ _) as [d3|] eqn:E3; [|done].
  injection H as <-. pose proof (enqueue_steps_instances _ _ _ _ E3) as Hi.
  pose proof (enqueue_steps_deployments _ _ _ _ E3) as Hd.
  destruct Hst as (i & r & Hk & Hf & Hu & Hdg).
  assert (∀ v, (k, v) ∈ puts → v = i) as Hputs.
  { intros v Hv. unfold staged_instances in Es. apply bind_Some in Es as (fenced & Hfe & Es).
    apply bind_Some in Es as (moving & Hmo & Es). destruct (existsb _ (lc_steps w)) eqn:Ex; [done|].
    injection Es as Es. apply bind_ok in Es as (moved & Hmv & [= <-]).
    apply expected_instances in Hfe, Hmo. rewrite !elem_of_app in Hv. destruct Hv as [Hv|[Hv|Hv]].
    - rewrite Forall_forall in Hfe. destruct (Hfe _ Hv) as [r' Hr]. cbn in Hr. congruence.
    - apply mapM_ok in Hmv. apply list_elem_of_lookup in Hv as [n Hn].
      destruct (Forall2_lookup_r _ _ _ _ _ Hmv Hn) as ([k' v'] & Hx & Hy).
      apply bind_ok in Hy as (v2 & Hy & [= -> ->]). rewrite Forall_forall in Hmo.
      apply list_elem_of_lookup_2 in Hx. destruct (Hmo _ Hx) as [r' Hr]. cbn in Hr. rewrite Hk in Hr.
      injection Hr as <- _. unfold moved_instance in Hy. cbn in Hy. rewrite (proj1 Hf) in Hy.
      by destruct (lc_next w) as [[]|].
    - apply list_elem_of_fmap in Hv as (s & [= -> ->] & Hs). rewrite existsb_false_in in Ex.
      specialize (Ex s Hs). apply negb_false_iff, bool_decide_eq_true in Ex. congruence. }
  assert (∃ r', du_instances d3 !! k = Some (i, r')) as [r' Hk'].
  { rewrite Hi. clear Hi Hd E3 Es. set (d1 := with_losses _ _).
    assert (∃ r', du_instances d1 !! k = Some (i, r')) as H1 by (by exists r). clearbody d1. revert d1 H1.
    induction puts as [|[k1 v] puts IH]; intros d1 H1; [done|]. apply IH; [intros ? ?; apply Hputs; by right|]. cbn.
    destruct (decide (k1 = k)) as [-> | Hne]; [|by rewrite lookup_insert_ne].
    rewrite lookup_insert_eq. rewrite (Hputs v); [by eexists|by left]. }
  exists i, r'. split_and!; [done|done| |apply Hdg..]. unfold unwanted. rewrite Hd.
  assert (∀ d1, du_deployments (foldl (λ d x, put_instance d x.1 x.2) d1 puts) = du_deployments d1) as ->.
  { clear. induction puts as [|x puts IH]; intros d1; [done|]. cbn. by rewrite IH. }
  exact Hu.
Qed.

Context (env : pass_environment).

(** It is not among the instances that are restored. *)
Lemma stuck_restored k dg g d loaded now d' replan :
  loadInstances d = Ok loaded →
  restorePersistedComponents sha256 supportedExecutors workers prerequisites env d loaded now = Ok (d', replan) →
  stuck k dg g d → stuck k dg g d'.
Proof.
  intros Hl Hr Hst. refine (restorePersistedComponents_keeps _ _ _ _ _ (stuck k dg g) _ _ _ _ _ _ Hr Hst).
  intros i (x & Hx & <- & Hcons) Hres.
  assert (i_instanceId (ci_value (li_value x)) ≠ k) as Hne.
  { intros Hk. destruct (loaded_own _ _ _ Hl Hx) as [_ Hown].
    assert (li_storageId x = k) as Hs.
    { unfold isInstanceContextConsistent, isCanonicalInstance in Hcons. apply bind_ok in Hcons as (c & Hc & Hcons).
      destruct (streq (li_storageId x) _) eqn:E; [by apply streq_true in E; congruence|].
      injection Hc as <-. done. }
    destruct Hst as (i & r & Hk' & (Hlc & Hre) & _). rewrite Hs, Hk' in Hown. injection Hown as Hi _.
    unfold restorable, restorable_lifecycle, retries_termination in Hres. rewrite <- Hi, Hlc, Hre in Hres. done. }
  assert (∀ d d', frame (i_instanceId (ci_value (li_value x))) d d' → stuck k dg g d → stuck k dg g d') as Hfr.
  { intros d1 d2 [Hd Hf]. apply stuck_same; [done|]. apply Hf. congruence. }
  split_and!; intros; (eapply Hfr; [|done]).
  - by eapply frame_mark.
  - by eapply frame_record.
  - by eapply frame_clear.
  - by eapply (frame_authorize _ _ _ (recovery_target _)).
Qed.

Context (isLive : ComponentInstance → bool) (installed : PluginDeployment → option (list PluginComponent)).
Abbreviation reconcilePass :=
  (reconcilePass domainToASCII sha256 supportedExecutors workers gate prerequisites env isLive installed).

Lemma stuck_deployments k dg g d0 gates sorted bad deps now loaded :
  loadInstances d0 = Ok loaded → sort_instances sha256 loaded (du_deployments d0) = Ok sorted →
  stuck k dg g d0 → deps ⊆ du_deployments d0 →
  ∀ d d' replan blocked,
    plan_deployments domainToASCII sha256 supportedExecutors workers prerequisites d0 d gates sorted.1 bad deps now
      = Ok (d', replan, blocked) → stuck k dg g d → stuck k dg g d'.
Proof.
  intros Hl Hsort Hst. induction deps as [|dep deps IH]; intros Hdeps d d' replan blocked;
    cbn [plan_deployments]; [by intros [= <- _ _]|].
  assert (deps ⊆ du_deployments d0) as Hdeps' by set_solver.
  assert (dep ∈ du_deployments d0) as Hdep by set_solver.
  assert (∀ codes, ('(d'', replan', blocked') ← plan_deployments domainToASCII sha256 supportedExecutors workers
      prerequisites d0 d gates sorted.1 bad deps now; Ok (d'', replan', (dep, codes) :: blocked'))
      = Ok (d', replan, blocked) → stuck k dg g d → stuck k dg g d') as Hblock.
  { intros codes ([[d1 r1] b1] & H1 & [= <- _ _])%bind_ok. by eapply IH. }
  destruct (existsb _ bad); [apply Hblock|].
  destruct (List.find _ gates) as [[? [gt|code]]|]; [|apply Hblock|by apply IH].
  intros (plan & Hp & H)%bind_ok Hd. destruct (rp_blocked plan); [by eapply Hblock|].
  apply bind_ok in H as ([d1 r1] & H1 & H). apply bind_ok in H as ([[d2 r2] b2] & H2 & [= <- _ _]).
  eapply IH; [done|exact H2|]. eapply stuck_persists; [|exact H1|done].
  intros s Hs Ek. eapply stuck_planned; [exact Hl|exact Hsort|exact Hst|exact Hdep| |exact Ek].
  by eapply planReconcile_planned.
Qed.

Lemma stuck_pass perform k dg g d now d' r :
  reconcilePass perform d now = Ok (d', r) → stuck k dg g d → stuck k dg g d'.
Proof.
  apply reconcilePass_keeps.
  - intros d1 loaded d2 replan. apply stuck_restored.
  - intros d1. unfold claimNext. destruct (List.find _ _); [|done]. by apply stuck_same.
  - intros d1 claim d2 replan o. apply stuck_claim.
  - intros d1 w d2. apply stuck_losses.
  - intros seen d1 loaded sorted gates d2 replan blocked Hsi Hsd Hl Hs H Hst.
    assert (loadInstances seen = Ok loaded) as Hl' by (unfold loadInstances; by rewrite Hsi).
    eapply (stuck_deployments k dg g seen); [exact Hl'|by rewrite Hsd| | |exact H|exact Hst].
    + by eapply stuck_same; [|rewrite Hsi|].
    + intros dep Hdep. rewrite !elem_of_js_sort in Hdep. by rewrite Hsd.
Qed.

Lemma stuck_quiescent perform budget k dg g : ∀ d now d',
  reconcileUntilQuiescent domainToASCII sha256 supportedExecutors workers gate prerequisites env isLive installed
    perform budget d now = Ok d' → stuck k dg g d → stuck k dg g d'.
Proof.
  induction budget as [|budget IH]; intros d now d'; cbn [Reconciler.reconcileUntilQuiescent]; [done|].
  intros ([d1 r] & H1 & H)%bind_ok Hst. apply stuck_pass with (k := k) (dg := dg) (g := g) in H1; [|done].
  destruct r as [|[]]; [by injection H as <-|by eapply IH|by injection H as <-].
Qed.

(** A deployment with a diagnostic among its instances is not ready. *)
Lemma diagnosed_not_ready d good dep x :
  x ∈ good → of_deployment dep x = true → is_Some (i_diagnostic (ci_value x)) →
  deployment_ready isLive installed d good dep = false.
Proof.
  intros Hx Hof [dg Hdg]. unfold deployment_ready.
  assert (forallb (λ i, bool_decide (i_diagnostic (ci_value i) = None)) (List.filter (of_deployment dep) good) = false)
    as ->; [|by rewrite andb_false_r].
  apply forallb_false_in. exists x. split; [by apply elem_of_filterb|]. by rewrite Hdg.
Qed.

(** C32. A preparation that failed in a generation no deployment wants any more is
    never cleaned up: however long the reconciler runs, whatever its executor
    answers, the instance stays failed with its diagnostic, it is neither drained
    nor stopped, and its deployment is not ready, whatever its new generation does. *)
Theorem failed_preparation_stays (perform : ReconcileEffect → effect_result) (budget : nat) (d d' : Durable)
    (now : Z) (k : jstring) (i : PersistedComponentInstance) (r : Z) :
  du_instances d !! k = Some (i, r) → failed_preparation i → unwanted d i → is_Some (i_diagnostic i) →
  reconcileUntilQuiescent domainToASCII sha256 supportedExecutors workers gate prerequisites env isLive installed
    perform budget d now = Ok d' →
  ∃ i' r', du_instances d' !! k = Some (i', r') ∧ failed_preparation i' ∧ i_diagnostic i' = i_diagnostic i ∧
    unwanted d' i' ∧
    ∀ loaded sorted x dep,
      loadInstances d' = Ok loaded → sort_instances sha256 loaded (du_deployments d') = Ok sorted →
      x ∈ sorted.1 → ci_value x = i' → of_deployment dep x = true →
      deployment_ready isLive installed d' sorted.1 dep = false.
Proof.
  intros Hk Hf Hu Hdg Hrun.
  destruct (stuck_quiescent _ _ k (i_diagnostic i) (instance_generation i) _ _ _ Hrun) as (i' & r' & Hk' & Hf' & Hu' & Hdg' & _).
  { by exists i, r. }
  exists i', r'. split_and!; try done. intros loaded sorted x dep _ _ Hx Hi Hof.
  eapply diagnosed_not_ready; [exact Hx|done|]. by rewrite Hi, Hdg'.
Qed.
End stuck.

(** The preparations of generation 1 fail; generation 2 replaces it. *)
Definition upgraded : Durable :=
  match Sample.run (λ _, EffectThrew) 10 (Sample.deployed (js "1") empty_durable) 1000000 with
  | Ok d => Sample.deployed (js "2") d
  | Err _ => empty_durable
  end.
Definition settled : Durable :=
  match Sample.run Sample.perform 40 upgraded 90000000 with Ok d => d | Err _ => empty_durable end.
Definition sample_key : jstring := js "app.plug.a.g1.a1".
Definition sample_instance (d : Durable) : PersistedComponentInstance :=
  match du_instances d !! sample_key with
  | Some (i, _) => i
  | None => created_instance {| s_effect := Sample.first_effect; s_expectedRevision := None;
                                s_currentLifecycle := CpCreated; s_legacyActivation := false |}
  end.
(** Whether each deployment is ready. *)
Definition readiness (d : Durable) : result exn (list bool) :=
  loaded ← loadInstances d;
  sorted ← sort_instances sample_sha256 loaded (du_deployments d);
  Ok (map (deployment_ready Sample.isLive Sample.installed d sorted.1) (du_deployments d)).

Lemma settled_run :
  reconcileUntilQuiescent Sample.domainToASCII sample_sha256 [Process] [] Sample.gate Sample.prerequisites
    Sample.env Sample.isLive Sample.installed Sample.perform 40 upgraded 90000000 = Ok settled.
Proof.
  assert (is_ok (Sample.run Sample.perform 40 upgraded 90000000) = true) as [d E]%is_ok_true by (vm_compute; reflexivity).
  unfold settled. rewrite E. exact E.
Qed.
Lemma upgraded_instance :
  du_instances upgraded !! sample_key = Some (sample_instance upgraded, 4).
Proof. vm_compute. reflexivity. Qed.
Lemma upgraded_deployments : du_deployments upgraded = [Sample.deployment (js "2") Active].
Proof. vm_compute. reflexivity. Qed.
(** Generation 2 runs, and is not ready. *)
Example settled_lifecycles :
  Sample.lifecycles settled = [CpFailed; CpReady; CpFailed; CpReady] ∧ readiness settled = Ok [false].
Proof. vm_compute. split; reflexivity. Qed.

Lemma failed_preparation_stays_witness :
  failed_preparation (sample_instance upgraded) ∧ unwanted upgraded (sample_instance upgraded) ∧
  ∃ i r, du_instances settled !! sample_key = Some (i, r) ∧ failed_preparation i.
Proof.
  assert (failed_preparation (sample_instance upgraded)) as Hf by (vm_compute; split; reflexivity).
  assert (unwanted upgraded (sample_instance upgraded)) as Hu.
  { intros dep Hdep _ _ _. rewrite upgraded_deployments, list_elem_of_singleton in Hdep. subst dep. vm_compute. discriminate. }
  split; [exact Hf|]. split; [exact Hu|].
  destruct (failed_preparation_stays Sample.domainToASCII sample_sha256 [Process] [] Sample.gate Sample.prerequisites
    Sample.env Sample.isLive Sample.installed Sample.perform 40 upgraded settled 90000000 sample_key (sample_instance upgraded) 4
    upgraded_instance Hf Hu ltac:(vm_compute; eexists; reflexivity) settled_run) as (i & r & Hi & Hfi & _).
  exists i, r. split; [exact Hi|exact Hfi].
Defined.
