(* ===== verification/Calm.v ===== *)
(** * A calm installation

    The setting in which the reconciler converges: every deployment's gate is
    open, its components can be placed and have short valid identities, no
    provider is lost, no stale binding is in the way, and no effect, restored session
    or termination fails. This file has the state such an installation is in between
    two passes, and what is left to do in it. *)

From S2P Require Import Prelude JsString Collections JsValue Identity JsonText Time Permission Lifecycle Placement Retry Plan PlanProofs Reconciler ReconcilerLaws PlanSteps.

Open Scope Z_scope.

#[export] Instance generation_identity_eq_dec : EqDecision GenerationIdentity.
Proof. solve_decision. Defined.

Section identities.
Context (sha256 : jstring → jstring).

(** The identities of the first activation of a component. *)
Definition instance_key (g : GenerationIdentity) (c : jstring) : jstring :=
  portableStableId sha256 (own_parts false g c (js "1")).
Definition message_key (g : GenerationIdentity) (c : jstring) (kind : ReconcileEffectKind) : jstring :=
  portableStableId sha256 (effect_parts false g c kind (js "1")).

(** The names are valid and short enough to be identities as they are. *)
Record named (g : GenerationIdentity) (c : jstring) : Prop := {
  named_valid kind : is_ok (reconcileEffectIdentities sha256 g c kind (js "1")) = true;
  named_short : (length (joinc 46 (map escape_part (own_parts false g c (js "1")))) ≤ 128)%nat;
  named_short_effect kind :
    (length (joinc 46 (map escape_part (effect_parts false g c kind (js "1")))) ≤ 128)%nat;
}.

Lemma named_identities g c kind :
  named g c →
  reconcileEffectIdentities sha256 g c kind (js "1") =
    Ok {| ei_instanceId := instance_key g c; ei_operationId := message_key g c kind;
          ei_messageId := message_key g c kind |}.
Proof.
  intros [Hv _ _]. destruct (is_ok_true _ (Hv kind)) as [i Hi]. rewrite Hi.
  apply (identities_ok sha256 false) in Hi as (Ho & Hm & Hid & _). f_equal.
  destruct i as [i1 i2 i3]. cbn in *. unfold instance_key, message_key. by rewrite Hm, Ho, Hid.
Qed.

Lemma short_inj parts parts' :
  (length (joinc 46 (map escape_part parts)) ≤ 128)%nat → (length (joinc 46 (map escape_part parts')) ≤ 128)%nat →
  parts ≠ [] → parts' ≠ [] → portableStableId sha256 parts = portableStableId sha256 parts' → parts = parts'.
Proof.
  intros H H' Hn Hn'. unfold portableStableId. apply Nat.leb_le in H, H'. rewrite H, H'. intros E.
  apply (f_equal (splitc 46)) in E. rewrite !candidate_split in E by done.
  revert E. apply (list_fmap_eq_inj escape_part). exact escape_inj.
Qed.

Lemma instance_key_inj g c g' c' :
  named g c → named g' c' → instance_key g c = instance_key g' c' → g = g' ∧ c = c'.
Proof.
  intros [_ H _] [_ H' _] E. apply short_inj in E; [|done|done|done|done].
  apply own_parts_inj in E as (_ & ? & ? & _). done.
Qed.

Lemma message_key_inj g c k g' c' k' :
  named g c → named g' c' → message_key g c k = message_key g' c' k' → g = g' ∧ c = c' ∧ k = k'.
Proof.
  intros [_ _ H] [_ _ H'] E. apply short_inj in E; [|done|done|done|done].
  apply effect_parts_inj in E as (_ & ? & ? & ? & _). done.
Qed.
End identities.

Section calm.
Context (domainToASCII : jstring → jstring) (sha256 : jstring → jstring)
  (supportedExecutors : list ExecutorKind) (workers : list PlacementWorker)
  (gates : PluginDeployment → ArtifactDeploymentGate).

(** ** The environment *)
Definition calm_gate (_ : Durable) (dep : PluginDeployment) : option gate_outcome := Some (GateOpen (gates dep)).

Definition placement_for (dep : PluginDeployment) (c : PluginComponent) : PlacementInput :=
  {| pi_artifactDigest := d_artifactDigest dep; pi_component := c;
     pi_grantedPermissions := default (JArr []) (ag_granted (gates dep));
     pi_supportedExecutors := supportedExecutors; pi_workers := workers |}.

Record deployable (dep : PluginDeployment) : Prop := {
  dp_capabilities : ag_capability_ok (gates dep) = true;
  dp_permissions : ag_permission_allowed (gates dep) = true;
  dp_distinct : NoDup (map pc_componentId (ag_components (gates dep)));
  dp_placed c : d_state dep = Active → c ∈ ag_components (gates dep) → is_ok (planPlacement domainToASCII (placement_for dep c)) = true;
  dp_named c : c ∈ ag_components (gates dep) → named sha256 (generation_of dep) (pc_componentId c);
}.
Record installation (deps : list PluginDeployment) : Prop := {
  in_distinct : NoDup (map deploymentKey deps);
  in_deployable dep : dep ∈ deps → deployable dep;
}.

(** ** Instances *)

(** The effect of a kind that the instance is next for. *)
Definition effect_for (i : PersistedComponentInstance) (kind : ReconcileEffectKind) : ReconcileEffect :=
  {| e_kind := kind; e_activation := js "1";
     e_operationId := message_key sha256 (instance_generation i) (i_componentId i) kind;
     e_messageId := message_key sha256 (instance_generation i) (i_componentId i) kind;
     e_instanceId := instance_key sha256 (instance_generation i) (i_componentId i);
     e_applicationId := i_applicationId i; e_pluginId := i_pluginId i; e_componentId := i_componentId i;
     e_deploymentGeneration := i_deploymentGeneration i;
     e_artifactDigest := default [] (i_artifactDigest i);
     e_executor := i_executor i; e_workerId := i_workerId i;
     e_executionBinding := i_executionBinding i |}.

Definition message_of (i : PersistedComponentInstance) (kind : ReconcileEffectKind) : jstring :=
  message_key sha256 (instance_generation i) (i_componentId i) kind.
Definition done_ (i : PersistedComponentInstance) (kind : ReconcileEffectKind) : bool := completed i (message_of i kind).

Definition wants (dep : PluginDeployment) (i : PersistedComponentInstance) : Prop :=
  instance_generation i = generation_of dep.

Definition wanted (d : Durable) (i : PersistedComponentInstance) : bool :=
  existsb (λ dep, bool_decide (instance_generation i = generation_of dep)) (du_deployments d).

(** What a deployment that wants the instance has it at. *)
Definition at_home (dep : PluginDeployment) (i : PersistedComponentInstance) : Prop :=
  d_state dep = Active ∧ i_artifactDigest i = Some (d_artifactDigest dep) ∧
  i_lifecycle i ∈ [CpCreated; CpPreparing; CpStarting; CpReady] ∧
  ∃ c, c ∈ ag_components (gates dep) ∧ pc_componentId c = i_componentId i ∧
    planPlacement domainToASCII (placement_for dep c) =
      Ok {| cpl_executor := i_executor i; cpl_workerId := i_workerId i |}.

Definition pending (box : gmap jstring LifecycleMessage) (id : jstring) : Prop :=
  ∃ m, box !! id = Some m ∧ m_state m = OutPending.

(** The messages and the operations of an instance at each lifecycle. A
    preparation or a start of an instance that is no longer wanted may have been
    acknowledged without effect, and one whose termination was restored stops without
    a message yet. *)
Definition phase (is_wanted : bool) (box : gmap jstring LifecycleMessage) (i : PersistedComponentInstance) : Prop :=
  let absent kind := box !! message_of i kind = None ∧ done_ i kind = false in
  let due kind := pending box (message_of i kind) ∧ done_ i kind = false in
  match i_lifecycle i with
  | CpCreated => (is_wanted = true → due EffectPrepare) ∧ absent EffectStart ∧ absent EffectDrain ∧ absent EffectStop
  | CpPreparing => absent EffectStart ∧ absent EffectDrain ∧ absent EffectStop
  | CpStarting => (is_wanted = true → due EffectStart) ∧ absent EffectDrain ∧ absent EffectStop
  | CpReady => absent EffectDrain ∧ absent EffectStop
  | CpDraining => (due EffectDrain ∨ done_ i EffectDrain = true) ∧ absent EffectStop
  | CpStopping => due EffectStop ∨ absent EffectStop
  | CpStopped => True
  | CpDegraded | CpFailed => False
  end.

Record calm_instance (d : Durable) (k : jstring) (i : PersistedComponentInstance) : Prop := {
  cl_named : named sha256 (instance_generation i) (i_componentId i);
  cl_key : k = instance_key sha256 (instance_generation i) (i_componentId i);
  cl_id : i_instanceId i = k;
  cl_activation : i_activation i = Some (js "1");
  cl_observed : i_observedGeneration i = i_deploymentGeneration i;
  cl_digest : is_Some (i_artifactDigest i);
  cl_diagnostic : i_diagnostic i = None;
  cl_binding : same_binding (i_executionBinding i) (i_executionBinding i) = true;
  cl_deployed : ∃ dep, dep ∈ du_deployments d ∧ same_deployment (i_applicationId i) (i_pluginId i) dep = true;
  cl_home dep : dep ∈ du_deployments d → wants dep i → at_home dep i;
  cl_phase : phase (wanted d i) (du_outbox d) i;
}.

(** A message belongs to an instance; one that is pending is due and matches it. *)
Record calm_message (d : Durable) (now : Z) (id : jstring) (m : LifecycleMessage) : Prop := {
  cm_id : m_messageId m = id;
  cm_operation : m_operationId m = id;
  cm_available : m_availableAt m ≤ now;
  cm_lease : m_leasedUntil m = None;
  cm_state : m_state m = OutPending ∨ m_state m = OutCompleted;
  cm_owner : ∃ k i r kind, du_instances d !! k = Some (i, r) ∧ id = message_of i kind ∧
    (m_state m = OutPending → m_payload m = Some (effect_for i kind, false));
}.

Record calm (d : Durable) (now : Z) : Prop := {
  cs_losses : du_losses d = [];
  cs_installation : installation (du_deployments d);
  cs_instances k i r : du_instances d !! k = Some (i, r) → calm_instance d k i;
  cs_messages id m : du_outbox d !! id = Some m → calm_message d now id m;
}.

(** No binding is stale and no provider lost, or the deployments are the reconciler's
    own and both are left alone ([loadDeployments]); and no session fails that is
    restored. Which sessions live and which artifacts are installed is arbitrary. *)
Record calm_environment (env : pass_environment) : Prop := {
  ce_cleanup d : pe_cleanup env d = true;
  ce_losses d gates : pe_losses env d gates = inl [];
  ce_restore x i : pe_lifecycle env = Some x → cx_restore x i = true;
  ce_starting x f e : pe_lifecycle env = Some x → cx_restoreStarting x = Some f → f e = true;
  ce_termination x f i : pe_lifecycle env = Some x → cx_restoreTermination x = Some f → f i = true;
}.

(** ** What is left to do *)
Definition rank (box : gmap jstring LifecycleMessage) (i : PersistedComponentInstance) : nat :=
  match i_lifecycle i with
  | CpCreated => 5 | CpPreparing => 4 | CpStarting | CpReady => 3 | CpDraining => 2
  | CpStopping => if bool_decide (box !! message_of i EffectStop = None) then 2 else 1
  | CpStopped | CpDegraded | CpFailed => 0
  end.
Definition open_message (m : LifecycleMessage) : nat := if bool_decide (m_state m = OutCompleted) then 0 else 1.

Definition map_total {A} (f : A → nat) (x : gmap jstring A) : nat := sum_list_with (λ e, f e.2) (map_to_list x).

(** The components of active deployments that have no instance yet. *)
Definition missing (d : Durable) : list jstring :=
  List.filter (λ k, bool_decide (du_instances d !! k = None))
    (flat_map (λ dep, if bool_decide (d_state dep = Active)
                      then map (λ c, instance_key sha256 (generation_of dep) (pc_componentId c)) (ag_components (gates dep))
                      else []) (du_deployments d)).

Definition work (d : Durable) : nat :=
  map_total (λ e : PersistedComponentInstance * Z, rank (du_outbox d) e.1) (du_instances d) +
  map_total open_message (du_outbox d) + 6 * length (missing d).

(** Everything wanted is there and ready, everything else is stopped. *)
Definition converged (d : Durable) : Prop :=
  (∀ k i r, du_instances d !! k = Some (i, r) →
     i_lifecycle i = if wanted d i then CpReady else CpStopped) ∧
  missing d = [].
End calm.
