(* ===== verification/CalmSteps.v ===== *)
(** * A calm installation stays calm

    What persisting a step and executing a claim do to the state between two
    passes: both keep it calm, a step never adds to the work, a claim takes some
    away. *)

From S2P Require Import Prelude JsString Collections JsValue Identity JsonText Time Permission Lifecycle Placement Retry Plan PlanProofs Reconciler ReconcilerLaws PlanSteps Calm.

Open Scope Z_scope.

(** ** Totals over a map *)
Lemma map_total_new {A} (f : A → nat) (x : gmap jstring A) k v :
  x !! k = None → map_total f (<[k := v]> x) = (f v + map_total f x)%nat.
Proof. intros H. unfold map_total. by rewrite (map_to_list_insert x k v H). Qed.

Lemma map_total_old {A} (f : A → nat) (x : gmap jstring A) k u v :
  x !! k = Some u → (map_total f (<[k := v]> x) + f u = f v + map_total f x)%nat.
Proof.
  intros H. rewrite <- (insert_delete_id x k u H) at 2. rewrite <- (insert_delete_eq x k v).
  rewrite !map_total_new by apply lookup_delete_eq. lia.
Qed.

(** The same, when the measure changes too, but not elsewhere. *)
Lemma map_total_ext {A} (f g : A → nat) (x : gmap jstring A) :
  (∀ k v, x !! k = Some v → f v = g v) → map_total f x = map_total g x.
Proof.
  intros H. unfold map_total. assert (∀ e, e ∈ map_to_list x → f e.2 = g e.2) as He.
  { intros [k v] Hv%elem_of_map_to_list. by apply (H k). }
  induction (map_to_list x) as [|e l IH]; [done|]. cbn. rewrite (He e) by (by left). f_equal. apply IH. intros; apply He; by right.
Qed.
Lemma map_total_changed {A} (f g : A → nat) (x : gmap jstring A) k u v :
  x !! k = Some u → (∀ k' w, k' ≠ k → x !! k' = Some w → g w = f w) →
  (map_total g (<[k := v]> x) + f u = g v + map_total f x)%nat.
Proof.
  intros H Hother. rewrite <- (insert_delete_id x k u H) at 2. rewrite <- (insert_delete_eq x k v).
  rewrite !map_total_new by apply lookup_delete_eq.
  assert (map_total g (delete k x) = map_total f (delete k x)) as ->; [|lia].
  apply map_total_ext. intros k' w Hw. apply lookup_delete_Some in Hw as [Hne Hw]. apply (Hother k'); congruence.
Qed.
Lemma map_total_added {A} (f g : A → nat) (x : gmap jstring A) k v :
  x !! k = None → (∀ k' w, x !! k' = Some w → g w = f w) →
  map_total g (<[k := v]> x) = (g v + map_total f x)%nat.
Proof. intros H Hother. rewrite map_total_new by done. f_equal. by apply map_total_ext. Qed.

(** ** The state around one instance *)
Section steps.
Context (domainToASCII : jstring → jstring) (sha256 : jstring → jstring)
  (supportedExecutors : list ExecutorKind) (workers : list PlacementWorker)
  (gates : PluginDeployment → ArtifactDeploymentGate).
Abbreviation calm := (calm domainToASCII sha256 supportedExecutors workers gates).
Abbreviation calm_instance := (calm_instance domainToASCII sha256 supportedExecutors workers gates).
Abbreviation calm_message := (calm_message sha256).
Abbreviation message_of := (message_of sha256).
Abbreviation effect_for := (effect_for sha256).
Abbreviation work := (work sha256 gates).
Abbreviation missing := (missing sha256 gates).
Abbreviation phase := (phase sha256).
Abbreviation done_ := (done_ sha256).
Abbreviation rank := (rank sha256).

Lemma message_of_inj i j kind kind' :
  named sha256 (instance_generation i) (i_componentId i) → named sha256 (instance_generation j) (i_componentId j) →
  message_of i kind = message_of j kind' →
  instance_generation i = instance_generation j ∧ i_componentId i = i_componentId j ∧ kind = kind'.
Proof. intros Hi Hj E. by apply message_key_inj in E. Qed.

(** Two calm instances at one key are instances of the same component. *)
Lemma calm_instance_same d d' k i j :
  calm_instance d k i → calm_instance d' k j →
  instance_generation i = instance_generation j ∧ i_componentId i = i_componentId j.
Proof.
  intros Hi Hj. pose proof (cl_key _ _ _ _ _ _ _ _ Hi) as Ei. pose proof (cl_key _ _ _ _ _ _ _ _ Hj) as Ej.
  rewrite Ei in Ej. apply instance_key_inj in Ej; [done|apply Hi|apply Hj].
Qed.

Lemma wanted_same d d' i j :
  du_deployments d' = du_deployments d → instance_generation j = instance_generation i → wanted d' j = wanted d i.
Proof. intros Hd Hg. unfold wanted. by rewrite Hd, Hg. Qed.

Lemma phase_ext w box box' i :
  (∀ kind, box' !! message_of i kind = box !! message_of i kind) → phase w box i → phase w box' i.
Proof.
  intros H. unfold Calm.phase, pending. rewrite !H. done.
Qed.

(** The rank of an instance looks at its own messages. *)
Lemma rank_others d box now k i j k' r' kind :
  calm d now → named sha256 (instance_generation i) (i_componentId i) →
  k = instance_key sha256 (instance_generation i) (i_componentId i) →
  (∀ id, id ≠ message_of i kind → box !! id = du_outbox d !! id) →
  k' ≠ k → du_instances d !! k' = Some (j, r') → rank box j = rank (du_outbox d) j.
Proof.
  intros Hc Hi Hk Hbox Hne Hj. pose proof (cs_instances _ _ _ _ _ _ _ Hc _ _ _ Hj) as Hcj.
  unfold Calm.rank. destruct (i_lifecycle j); try done. rewrite Hbox; [done|].
  intros (Eg & Ec & _)%message_of_inj; [|apply Hcj|done]. apply Hne.
  rewrite Hk, (cl_key _ _ _ _ _ _ _ _ Hcj). by rewrite Eg, Ec.
Qed.

(** One instance and one of its messages change. *)
Lemma calm_put d d' now k i r kind :
  calm d now →
  du_deployments d' = du_deployments d → du_losses d' = du_losses d →
  du_instances d' = <[k := (i, r)]> (du_instances d) →
  calm_instance d' k i →
  (∀ id, id ≠ message_of i kind → du_outbox d' !! id = du_outbox d !! id) →
  (∀ m, du_outbox d' !! message_of i kind = Some m → calm_message d' now (message_of i kind) m) →
  (∀ j r' kind', du_instances d !! k = Some (j, r') → kind' ≠ kind →
     pending (du_outbox d) (message_of j kind') → effect_for i kind' = effect_for j kind') →
  calm d' now.
Proof.
  intros Hc Hdep Hloss Hins Hi Hbox Hm Heff. split.
  - rewrite Hloss. apply Hc.
  - rewrite Hdep. apply Hc.
  - intros k' j r'. rewrite Hins. destruct (decide (k = k')) as [<-|Hne].
    { rewrite lookup_insert_eq. by intros [= <- <-]. }
    rewrite lookup_insert_ne by done. intros Hj. pose proof (cs_instances _ _ _ _ _ _ _ Hc _ _ _ Hj) as Hcj.
    destruct Hcj as [H1 H2 H3 H4 H5 H6 H7 H8 Hdp H9 H10]. split; try done.
    + by rewrite Hdep.
    + intros dep. rewrite Hdep. apply H9.
    + replace (wanted d' j) with (wanted d j) by (unfold wanted; by rewrite Hdep).
      eapply phase_ext; [|exact H10]. intros kind'. apply Hbox. intros E. apply message_of_inj in E; [|done|apply Hi].
      destruct E as (Eg & Ec & _). apply Hne. rewrite H2, (cl_key _ _ _ _ _ _ _ _ Hi). by rewrite Eg, Ec.
  - intros id m Hid. destruct (decide (id = message_of i kind)) as [->|Hne]; [by apply Hm|].
    rewrite Hbox in Hid by done. destruct (cs_messages _ _ _ _ _ _ _ Hc _ _ Hid) as [M1 M2 M3 M4 M5 (k' & j & r' & kind' & Hj & Eid & Mp)].
    split; try done. destruct (decide (k = k')) as [<-|Hk].
    + pose proof (cs_instances _ _ _ _ _ _ _ Hc _ _ _ Hj) as Hcj.
      destruct (calm_instance_same _ _ _ _ _ Hi Hcj) as [Eg Ec].
      assert (message_of i kind' = message_of j kind') as Em by (unfold Calm.message_of; by rewrite Eg, Ec).
      exists k, i, r, kind'. split_and!; [by rewrite Hins, lookup_insert_eq|by rewrite Em|].
      intros Hp. rewrite Mp by done. do 2 f_equal. symmetry. eapply Heff; [exact Hj| |].
      * intros ->. by rewrite Em in Hne.
      * exists m. by rewrite <- Eid.
    + exists k', j, r', kind'. split_and!; [by rewrite Hins, lookup_insert_ne|done|done].
Qed.

(** ** Persisting a step *)
Definition fresh_instance (dep : PluginDeployment) (c : PluginComponent) (p : ComponentPlacement) : PersistedComponentInstance :=
  {| i_instanceId := instance_key sha256 (generation_of dep) (pc_componentId c);
     i_activation := Some (js "1"); i_hasStarted := Some false;
     i_applicationId := d_applicationId dep; i_pluginId := d_pluginId dep; i_componentId := pc_componentId c;
     i_deploymentGeneration := d_generation dep; i_observedGeneration := d_generation dep;
     i_lifecycle := CpCreated; i_executor := cpl_executor p; i_workerId := cpl_workerId p;
     i_artifactDigest := Some (d_artifactDigest dep); i_executionBinding := None;
     i_attempt := None; i_retryAt := None; i_retryEffect := None; i_diagnostic := None;
     i_completedOperationId := None; i_completedOperationIds := None |}.
Definition new_step (dep : PluginDeployment) (c : PluginComponent) (p : ComponentPlacement) : ReconcilePlanStep :=
  {| s_effect := effect_for (fresh_instance dep c p) EffectPrepare; s_expectedRevision := None;
     s_currentLifecycle := CpCreated; s_legacyActivation := false |}.
Definition step_of (i : PersistedComponentInstance) (r : Z) (kind : ReconcileEffectKind) : ReconcilePlanStep :=
  {| s_effect := effect_for i kind; s_expectedRevision := Some r; s_currentLifecycle := i_lifecycle i;
     s_legacyActivation := false |}.

(** What the plan asks of an instance. *)
Definition next_effect (is_wanted : bool) (i : PersistedComponentInstance) : option ReconcileEffectKind :=
  match is_wanted, i_lifecycle i with
  | true, CpCreated => Some EffectPrepare
  | true, (CpPreparing | CpStarting) => Some EffectStart
  | true, _ => None
  | false, CpDraining => Some (if done_ i EffectDrain then EffectStop else EffectDrain)
  | false, CpStopping => Some EffectStop
  | false, (CpCreated | CpPreparing | CpStarting | CpReady) => Some EffectDrain
  | false, _ => None
  end.
Definition lifecycle_before (kind : ReconcileEffectKind) : ComponentLifecycleState := expectedLifecycle kind.

Inductive apt (d : Durable) (dep : PluginDeployment) (s : ReconcilePlanStep) : Prop :=
| apt_new c p :
    d_state dep = Active → c ∈ ag_components (gates dep) →
    planPlacement domainToASCII (placement_for supportedExecutors workers gates dep c) = Ok p →
    du_instances d !! instance_key sha256 (generation_of dep) (pc_componentId c) = None →
    s = new_step dep c p → apt d dep s
| apt_old k i r kind :
    du_instances d !! k = Some (i, r) → same_deployment (i_applicationId i) (i_pluginId i) dep = true →
    next_effect (wanted d i) i = Some kind → s = step_of i r kind → apt d dep s.

Lemma same_payload_refl e : same_binding (e_executionBinding e) (e_executionBinding e) = true →
  same_payload (Some (e, false)) (Some (e, false)) = true.
Proof.
  intros H. unfold same_payload. rewrite H. rewrite !bool_decide_eq_true_2 by done. cbn.
  by rewrite !(proj2 (streq_true _ _) eq_refl).
Qed.

Lemma find_deployment dep deps :
  NoDup (map deploymentKey deps) → dep ∈ deps →
  List.find (same_deployment (d_applicationId dep) (d_pluginId dep)) deps = Some dep.
Proof.
  intros Hnd Hin. destruct (List.find _ deps) as [dep'|] eqn:E.
  - apply find_some_in in E as [Hin' [Ha Hp]%same_deployment_true]. f_equal.
    eapply (NoDup_map_inj deploymentKey deps); [done|done|done|]. unfold deploymentKey. by rewrite Ha, Hp.
  - rewrite find_none_in in E. specialize (E _ Hin). by rewrite (proj2 (same_deployment_true _ _ _)) in E.
Qed.

(** What the outbox holds of an instance's next effect. *)
Record queued (i : PersistedComponentInstance) (kind : ReconcileEffectKind) (now : Z) (m : LifecycleMessage) : Prop := {
  qu_id : m_messageId m = message_of i kind;
  qu_operation : m_operationId m = message_of i kind;
  qu_available : m_availableAt m ≤ now;
  qu_lease : m_leasedUntil m = None;
  qu_state : m_state m = OutPending;
  qu_payload : m_payload m = Some (effect_for i kind, false);
}.

Lemma calm_queued d now k i r kind m :
  calm d now → du_instances d !! k = Some (i, r) → du_outbox d !! message_of i kind = Some m →
  m_state m = OutPending → queued i kind now m.
Proof.
  intros Hc Hi Hm Hp. destruct (cs_messages _ _ _ _ _ _ _ Hc _ _ Hm) as [M1 M2 M3 M4 M5 (k' & j & r' & kind' & Hj & Eid & Mp)].
  pose proof (cs_instances _ _ _ _ _ _ _ Hc _ _ _ Hi) as Hci. pose proof (cs_instances _ _ _ _ _ _ _ Hc _ _ _ Hj) as Hcj.
  apply message_of_inj in Eid as (Eg & Ec & <-); [|apply Hci|apply Hcj].
  assert (k' = k) as ->.
  { rewrite (cl_key _ _ _ _ _ _ _ _ Hci), (cl_key _ _ _ _ _ _ _ _ Hcj). by rewrite Eg, Ec. }
  rewrite Hi in Hj. injection Hj as <- <-. split; try done. by apply Mp.
Qed.

(** Enqueueing the next effect of an instance leaves it pending once. *)
Lemma enqueue_next d d1 now i kind :
  du_outbox d1 = du_outbox d →
  same_binding (i_executionBinding i) (i_executionBinding i) = true →
  (du_outbox d !! message_of i kind = None ∨
   ∃ m, du_outbox d !! message_of i kind = Some m ∧ queued i kind now m) →
  ∃ box sequence,
    enqueue d1 (message_of i kind) (message_of i kind) (Some (effect_for i kind, false)) now
      = Some (with_outbox d1 box sequence) ∧
    (∀ id, id ≠ message_of i kind → box !! id = du_outbox d !! id) ∧
    (∃ m, box !! message_of i kind = Some m ∧ queued i kind now m) ∧
    (map_total open_message box ≤ map_total open_message (du_outbox d) +
       (if bool_decide (du_outbox d !! message_of i kind = None) then 1 else 0))%nat.
Proof.
  intros Hbox Hb [Hnone|(m & Hm & Hq)]; unfold enqueue; rewrite Hbox.
  - rewrite Hnone. eexists _, _. split; [done|]. split_and!.
    + intros id Hid. by apply lookup_insert_ne.
    + eexists. split; [apply lookup_insert_eq|]. split; cbn; try done; lia.
    + rewrite map_total_new by done. rewrite (bool_decide_eq_true_2 (None = None)) by done. unfold open_message at 1. cbn [m_state]. rewrite (bool_decide_eq_false_2 (OutPending = OutCompleted)) by done. lia.
  - rewrite Hm. destruct Hq as [Q1 Q2 Q3 Q4 Q5 Q6]. rewrite Q5. cbn. rewrite Q2, Q6.
    rewrite (proj2 (streq_true _ _) eq_refl), same_payload_refl by done. cbn [andb].
    exists (du_outbox d1), (du_sequence d1). split; [by destruct d1|]. rewrite Hbox. split_and!; [done| |].
    + by exists m.
    + lia.
Qed.

Lemma stepped_step_of i r kind :
  next_effect true i = Some kind ∨ next_effect false i = Some kind →
  i_activation i = Some (js "1") → is_Some (i_artifactDigest i) →
  stepped_instance (step_of i r kind) (Some i) = Ok (with_lifecycle (lifecycle_before kind) i).
Proof.
  intros Hn Ha [g Hg]. unfold stepped_instance. cbn [s_effect step_of e_kind].
  assert (placed_instance (step_of i r kind) i = i) as Hp.
  { destruct i. unfold placed_instance, step_of. cbn in *. by rewrite Hg, Ha. }
  assert (∀ b : bool, (if b then placed_instance (step_of i r kind) i else i) = i) as -> by (by intros []).
  change (e_kind (effect_for i kind)) with kind. assert (preEffectLifecycle kind i = Ok (lifecycle_before kind)) as ->; [|done].
  unfold next_effect in Hn. destruct (i_lifecycle i) eqn:El;
    destruct Hn as [Hn|Hn]; try done; try (destruct (done_ i EffectDrain));
    injection Hn as <-; cbn [preEffectLifecycle]; unfold move_to; by rewrite El.
Qed.

(** The step of an instance leads to the next phase, at no more work. *)
Lemma next_phase box i w kind :
  named sha256 (instance_generation i) (i_componentId i) →
  phase w box i → next_effect w i = Some kind →
  (box !! message_of i kind = None ∨ pending box (message_of i kind)) ∧
  ∀ box', (∀ id, id ≠ message_of i kind → box' !! id = box !! id) → pending box' (message_of i kind) →
    phase w box' (with_lifecycle (lifecycle_before kind) i) ∧
    (rank box' (with_lifecycle (lifecycle_before kind) i) +
       (if bool_decide (box !! message_of i kind = None) then 1 else 0) ≤ rank box i)%nat.
Proof.
  intros Hnm. assert (∀ k k', k ≠ k' → message_of i k ≠ message_of i k') as Hne.
  { intros k k' Hk E. by apply message_of_inj in E as (_ & _ & ?). }
  unfold Calm.phase, next_effect, Calm.rank. change (i_lifecycle (with_lifecycle (lifecycle_before kind) i)) with (lifecycle_before kind).
  change (done_ (with_lifecycle (lifecycle_before kind) i)) with (done_ i).
  change (message_of (with_lifecycle (lifecycle_before kind) i)) with (message_of i).
  intros Hp Hn. destruct (i_lifecycle i) eqn:El; try done; destruct w; try done;
    try match type of Hn with context [done_ i EffectDrain] => destruct (done_ i EffectDrain) eqn:Ed end;
    injection Hn as <-; cbn [lifecycle_before expectedLifecycle].
  all: split; [naive_solver|intros box' Hbox Hpend].
  all: try (rewrite !Hbox by (apply Hne; done)).
  all: split; [naive_solver|].
  all: destruct Hpend as (m' & Hm' & _); rewrite ?Hm', ?(bool_decide_eq_false_2 (Some m' = None)) by done.
  all: try (case_bool_decide; lia).
  all: rewrite bool_decide_eq_false_2; [lia|]; unfold pending in Hp; naive_solver congruence.
Qed.

(** *** The components without an instance *)
Lemma filter_le {A} (f g : A → bool) l :
  (∀ x, f x = true → g x = true) → (length (List.filter f l) ≤ length (List.filter g l))%nat.
Proof.
  intros H. induction l as [|x l IH]; [done|]. cbn. destruct (f x) eqn:Ef.
  - rewrite (H _ Ef). cbn. lia.
  - destruct (g x); cbn; lia.
Qed.

Lemma filter_lt {A} (f g : A → bool) l x :
  (∀ x, f x = true → g x = true) → x ∈ l → f x = false → g x = true →
  (S (length (List.filter f l)) ≤ length (List.filter g l))%nat.
Proof.
  intros H Hx Hf Hg. apply list_elem_of_split in Hx as (l1 & l2 & ->).
  rewrite !List.filter_app, !length_app. cbn. rewrite Hf, Hg. cbn.
  pose proof (filter_le f g l1 H). pose proof (filter_le f g l2 H). lia.
Qed.

Lemma missing_old d d' k i r i' r' :
  du_deployments d' = du_deployments d → du_instances d !! k = Some (i, r) →
  du_instances d' = <[k := (i', r')]> (du_instances d) → length (missing d') = length (missing d).
Proof.
  intros Hdep Hk Hins. unfold Calm.missing. rewrite Hdep, Hins. f_equal. apply List.filter_ext. intros x.
  destruct (decide (k = x)) as [<-|Hne]; [|by rewrite lookup_insert_ne].
  rewrite lookup_insert_eq, Hk. done.
Qed.

Lemma missing_new d d' dep c k i r :
  du_deployments d' = du_deployments d → du_instances d !! k = None →
  du_instances d' = <[k := (i, r)]> (du_instances d) →
  dep ∈ du_deployments d → d_state dep = Active → c ∈ ag_components (gates dep) →
  k = instance_key sha256 (generation_of dep) (pc_componentId c) →
  (S (length (missing d')) ≤ length (missing d))%nat.
Proof.
  intros Hdep Hk Hins Hin Hact Hc ->. unfold Calm.missing. rewrite Hdep, Hins.
  apply (filter_lt _ _ _ (instance_key sha256 (generation_of dep) (pc_componentId c))).
  - intros x. rewrite !bool_decide_eq_true. rewrite lookup_insert_None. tauto.
  - apply list_elem_of_In, in_flat_map. exists dep. rewrite <- !list_elem_of_In. split; [done|].
    rewrite bool_decide_eq_true_2 by done. by apply (list_elem_of_fmap_2 (λ c, instance_key sha256 (generation_of dep) (pc_componentId c))).
  - rewrite lookup_insert_eq. done.
  - by rewrite bool_decide_eq_true.
Qed.

(** *** What a persisted step leaves *)
Record persisted (d : Durable) (s : ReconcilePlanStep) (now : Z) (d' : Durable) : Prop := {
  ps_calm : calm d' now;
  ps_work : (work d' ≤ work d)%nat;
  ps_frame : frame (e_instanceId (s_effect s)) d d';
  ps_pending : pending (du_outbox d') (e_messageId (s_effect s));
  ps_keeps id : pending (du_outbox d) id → pending (du_outbox d') id;
  ps_moved i r : du_instances d' !! e_instanceId (s_effect s) = Some (i, r) →
    wanted d' i = false → i_lifecycle i ∈ [CpDraining; CpStopping; CpStopped];
}.

Lemma wanted_home d now k i r :
  calm d now → du_instances d !! k = Some (i, r) → wanted d i = true →
  ∃ dep, dep ∈ du_deployments d ∧ wants dep i ∧
    at_home domainToASCII supportedExecutors workers gates dep i.
Proof.
  intros Hc Hi Hw. unfold wanted in Hw. apply existsb_exists_in in Hw as (dep & Hdep & Hwd).
  apply bool_decide_eq_true in Hwd. exists dep. split_and!; [done|done|].
  by apply (cl_home _ _ _ _ _ _ _ _ (cs_instances _ _ _ _ _ _ _ Hc _ _ _ Hi)).
Qed.


(** A queued message is a calm one. *)
Lemma queued_calm d now k i r kind m :
  du_instances d !! k = Some (i, r) → queued i kind now m → calm_message d now (message_of i kind) m.
Proof.
  intros Hi [Q1 Q2 Q3 Q4 Q5 Q6]. split; [done..|by left|]. exists k, i, r, kind. by split_and!.
Qed.

(** The instance of the next phase is calm. *)
Lemma calm_instance_next d d' now k i r kind :
  calm d now → du_deployments d' = du_deployments d → du_instances d !! k = Some (i, r) →
  next_effect (wanted d i) i = Some kind →
  (∀ id, id ≠ message_of i kind → du_outbox d' !! id = du_outbox d !! id) →
  pending (du_outbox d') (message_of i kind) →
  calm_instance d' k (with_lifecycle (lifecycle_before kind) i).
Proof.
  intros Hc Hdep Hi Hn Hbox Hp. pose proof (cs_instances _ _ _ _ _ _ _ Hc _ _ _ Hi) as Hci.
  pose proof (next_phase _ _ _ _ (cl_named _ _ _ _ _ _ _ _ Hci) (cl_phase _ _ _ _ _ _ _ _ Hci) Hn) as [_ Hph].
  destruct Hci as [H1 H2 H3 H4 H5 H6 H7 H8 Hdp H9 H10]. split; try done.
  { by rewrite Hdep. }
  2:{ rewrite (wanted_same d d' i) by done. by apply (Hph (du_outbox d')). }
  intros dep Hin Hw. rewrite Hdep in Hin. destruct (H9 dep Hin Hw) as (Hact & Hdig & Hl & Hpl).
  split_and!; [done|done| |done]. cbn.
  assert (wanted d i = true) as Hwt.
  { unfold wanted. apply existsb_exists_in. exists dep. split; [done|]. by apply bool_decide_eq_true. }
  rewrite Hwt in Hn. unfold next_effect in Hn.
  destruct (i_lifecycle i); try done; injection Hn as <-; cbn; set_solver.
Qed.

Lemma persist_old d now dep k i r kind :
  calm d now → dep ∈ du_deployments d → du_instances d !! k = Some (i, r) →
  next_effect (wanted d i) i = Some kind →
  ∃ d', persistStep d dep (step_of i r kind) now = Ok (d', false) ∧ persisted d (step_of i r kind) now d'.
Proof.
  intros Hc Hdep Hi Hn. pose proof (cs_instances _ _ _ _ _ _ _ Hc _ _ _ Hi) as Hci.
  pose proof (next_phase _ _ _ _ (cl_named _ _ _ _ _ _ _ _ Hci) (cl_phase _ _ _ _ _ _ _ _ Hci) Hn) as [Hq Hq'].
  assert (e_instanceId (s_effect (step_of i r kind)) = k) as Ek by (by rewrite (cl_key _ _ _ _ _ _ _ _ Hci)).
  assert (stepped_instance (step_of i r kind) (Some i) = Ok (with_lifecycle (lifecycle_before kind) i)) as Hst.
  { apply stepped_step_of; [destruct (wanted d i); [by left|by right]|apply Hci|apply Hci]. }
  set (i' := with_lifecycle (lifecycle_before kind) i) in *.
  set (d1 := put_instance (journal d (message_of i kind) JournalPlanned) k i').
  destruct (enqueue_next d d1 now i kind) as (box & sq & Henq & Hbox & (m & Hm & Hqm) & Hopen); [done|apply Hci| |].
  { destruct Hq as [Hq|(m & Hm & Hs)]; [by left|right]. exists m. split; [done|]. by eapply calm_queued. }
  exists (with_outbox d1 box sq). split.
  { unfold persistStep. rewrite (find_deployment dep) by (done || apply Hc).
    rewrite !(proj2 (streq_true _ _) eq_refl), bool_decide_eq_true_2 by done. cbn [negb orb].
    rewrite Ek, Hi. cbn [fmap option_fmap option_map fst snd s_expectedRevision step_of].
    rewrite bool_decide_eq_true_2 by done. cbn [negb]. fold (step_of i r kind). rewrite Hst, bind_ok_l.
    change (e_operationId (s_effect (step_of i r kind))) with (message_of i kind).
    change (e_messageId (s_effect (step_of i r kind))) with (message_of i kind).
    change (s_effect (step_of i r kind)) with (effect_for i kind). fold d1. change (s_legacyActivation (step_of i r kind)) with false. by rewrite Henq. }
  assert (pending box (message_of i kind)) as Hpend by (exists m; split; [done|apply Hqm]).
  split; cbn [with_outbox du_outbox].
  - eapply (calm_put d _ now k i' (du_revision d + 1) kind); [done|done|done|done| | | |].
    + by eapply calm_instance_next.
    + exact Hbox.
    + intros m' Hm'. cbn in Hm'. change (message_of i' kind) with (message_of i kind) in *. rewrite Hm in Hm'. injection Hm' as <-.
      eapply (queued_calm _ now k i' (du_revision d + 1)); [by apply lookup_insert_eq|by destruct Hqm].
    + intros j r' kind' Hj _ _. rewrite Hi in Hj. by injection Hj as <- <-.
  - unfold Calm.work. rewrite (missing_old d _ k i r i' (du_revision d + 1)) by done. cbn [with_outbox du_outbox du_instances].
    pose proof (map_total_changed (λ e : PersistedComponentInstance * Z, rank (du_outbox d) e.1)
      (λ e : PersistedComponentInstance * Z, rank box e.1) (du_instances d) k (i, r) (i', du_revision d + 1) Hi) as Ht.
    change (du_instances d1) with (<[k:=(i', du_revision d + 1)]> (du_instances d)). cbn [fst] in Ht.
    destruct (Hq' box Hbox) as [_ Hr]; [by exists m; split; [|apply Hqm]|]. fold i' in Hr.
    specialize (Ht ltac:(intros k' [j r'] Hne Hj; by eapply (rank_others d box now k i j k' r' kind Hc); [apply Hci|apply Hci|..])).
    lia.
  - rewrite Ek. split; [done|]. intros k' Hk'. by apply lookup_insert_ne.
  - exact Hpend.
  - intros id Hid. destruct (decide (id = message_of i kind)) as [->|Hne]; [exact Hpend|].
    unfold pending. cbn. by rewrite Hbox.
  - rewrite Ek. intros j r'. change (du_instances (with_outbox d1 box sq)) with (<[k:=(i', du_revision d + 1)]> (du_instances d)).
    rewrite lookup_insert_eq. intros [= <- <-].
    rewrite (wanted_same d _ i) by done. intros Hw. rewrite Hw in Hn. unfold next_effect in Hn. cbn.
    destruct (i_lifecycle i); try done; try (destruct (done_ i EffectDrain)); injection Hn as <-; cbn; set_solver.
Qed.

Lemma absent_messages d now g c kind :
  calm d now → named sha256 g c → du_instances d !! instance_key sha256 g c = None →
  du_outbox d !! message_key sha256 g c kind = None.
Proof.
  intros Hc Hnm Hnone. destruct (du_outbox d !! message_key sha256 g c kind) as [m|] eqn:Em; [|done].
  destruct (cs_messages _ _ _ _ _ _ _ Hc _ _ Em) as [_ _ _ _ _ (k & i & r & kind' & Hi & E & _)].
  pose proof (cs_instances _ _ _ _ _ _ _ Hc _ _ _ Hi) as Hci.
  apply message_key_inj in E as (Eg & Ec & _); [|done|apply Hci].
  rewrite (cl_key _ _ _ _ _ _ _ _ Hci), <- Eg, <- Ec, Hnone in Hi. done.
Qed.

Lemma calm_fresh d d' now dep c p :
  calm d now → dep ∈ du_deployments d → d_state dep = Active → c ∈ ag_components (gates dep) →
  planPlacement domainToASCII (placement_for supportedExecutors workers gates dep c) = Ok p →
  du_instances d !! instance_key sha256 (generation_of dep) (pc_componentId c) = None →
  du_deployments d' = du_deployments d →
  (∀ id, id ≠ message_of (fresh_instance dep c p) EffectPrepare → du_outbox d' !! id = du_outbox d !! id) →
  pending (du_outbox d') (message_of (fresh_instance dep c p) EffectPrepare) →
  calm_instance d' (instance_key sha256 (generation_of dep) (pc_componentId c)) (fresh_instance dep c p).
Proof.
  intros Hc Hdep Hact Hcin Hp Hnone Hd Hbox Hpend. set (i := fresh_instance dep c p) in *.
  assert (named sha256 (instance_generation i) (i_componentId i)) as Hnm.
  { eapply dp_named; [|exact Hcin]. by apply Hc. }
  split; try done.
  - rewrite Hd. exists dep. split; [done|]. by apply same_deployment_true.
  - intros dep' Hdep' Hw. rewrite Hd in Hdep'. assert (dep' = dep) as ->.
    { eapply (NoDup_map_inj deploymentKey (du_deployments d)); [apply Hc|done|done|].
      assert (generation_of dep = generation_of dep') as Hg by exact Hw.
      pose proof (f_equal gi_applicationId Hg) as Ea. pose proof (f_equal gi_pluginId Hg) as Ep.
      cbn in Ea, Ep. unfold deploymentKey. congruence. }
    split_and!; [done|done|cbn; set_solver|]. exists c. split_and!; [done|done|]. rewrite Hp. by destruct p.
  - assert (∀ kind, kind ≠ EffectPrepare → du_outbox d' !! message_of i kind = None) as Habs.
    { intros kind Hk. rewrite Hbox by (intros E; apply message_of_inj in E as (_ & _ & E); done).
      by apply (absent_messages d now (generation_of dep)). }
    unfold Calm.phase. cbn [i_lifecycle fresh_instance i]. rewrite !Habs by done. done.
Qed.

Lemma persist_new d now dep c p :
  calm d now → dep ∈ du_deployments d → d_state dep = Active → c ∈ ag_components (gates dep) →
  planPlacement domainToASCII (placement_for supportedExecutors workers gates dep c) = Ok p →
  du_instances d !! instance_key sha256 (generation_of dep) (pc_componentId c) = None →
  ∃ d', persistStep d dep (new_step dep c p) now = Ok (d', false) ∧ persisted d (new_step dep c p) now d'.
Proof.
  intros Hc Hdep Hact Hcin Hp Hnone. set (i := fresh_instance dep c p).
  set (k := instance_key sha256 (generation_of dep) (pc_componentId c)) in *.
  assert (named sha256 (generation_of dep) (pc_componentId c)) as Hnm by (eapply dp_named; [|done]; by apply Hc).
  assert (du_outbox d !! message_of i EffectPrepare = None) as Habs by (by eapply absent_messages).
  set (d1 := put_instance (journal d (message_of i EffectPrepare) JournalPlanned) k i).
  destruct (enqueue_next d d1 now i EffectPrepare) as (box & sq & Henq & Hbox & (m & Hm & Hqm) & Hopen); [done|done|by left|].
  assert (pending box (message_of i EffectPrepare)) as Hpend by (exists m; split; [done|apply Hqm]).
  exists (with_outbox d1 box sq). split.
  { unfold persistStep. rewrite (find_deployment dep) by (done || apply Hc).
    rewrite !(proj2 (streq_true _ _) eq_refl), bool_decide_eq_true_2 by done. cbn [negb orb].
    change (e_instanceId (s_effect (new_step dep c p))) with k. rewrite Hnone.
    cbn [fmap option_fmap option_map s_expectedRevision new_step].
    rewrite bool_decide_eq_true_2 by done. cbn [negb]. fold (new_step dep c p).
    change (stepped_instance (new_step dep c p) None) with (Ok i : result exn _). rewrite bind_ok_l.
    change (e_operationId (s_effect (new_step dep c p))) with (message_of i EffectPrepare).
    change (e_messageId (s_effect (new_step dep c p))) with (message_of i EffectPrepare).
    change (s_effect (new_step dep c p)) with (effect_for i EffectPrepare). fold d1.
    change (s_legacyActivation (new_step dep c p)) with false. by rewrite Henq. }
  split; cbn [with_outbox du_outbox].
  - eapply (calm_put d _ now k i (du_revision d + 1) EffectPrepare); [done|done|done|done| | | |].
    + eapply (calm_fresh d); try done.
    + exact Hbox.
    + intros m' Hm'. cbn in Hm'. rewrite Hm in Hm'. injection Hm' as <-.
      eapply (queued_calm _ now k i (du_revision d + 1)); [by apply lookup_insert_eq|by destruct Hqm].
    + intros j r' kind' Hj. by rewrite Hnone in Hj.
  - unfold Calm.work. pose proof (missing_new d (with_outbox d1 box sq) dep c k i (du_revision d + 1)
      eq_refl Hnone eq_refl Hdep Hact Hcin eq_refl) as Hmiss. cbn [with_outbox du_outbox du_instances].
    change (du_instances d1) with (<[k:=(i, du_revision d + 1)]> (du_instances d)).
    rewrite (map_total_added (λ e : PersistedComponentInstance * Z, rank (du_outbox d) e.1)); [|done|].
    2:{ intros k' [j r'] Hj. eapply (rank_others d box now k i j k' r' EffectPrepare Hc); [exact Hnm|done|exact Hbox| |exact Hj].
        intros ->. by rewrite Hnone in Hj. }
    rewrite bool_decide_eq_true_2 in Hopen by done. cbn [fst Calm.rank i fresh_instance i_lifecycle].
    change (du_instances (with_outbox d1 box sq)) with (<[k:=(i, du_revision d + 1)]> (du_instances d)) in Hmiss.
    lia.
  - split; [done|]. intros k' Hk'. by apply lookup_insert_ne.
  - exact Hpend.
  - intros id Hid. destruct (decide (id = message_of i EffectPrepare)) as [->|Hne]; [exact Hpend|].
    unfold pending. cbn. by rewrite Hbox.
  - intros j r'. change (du_instances (with_outbox d1 box sq)) with (<[k:=(i, du_revision d + 1)]> (du_instances d)).
    change (e_instanceId (s_effect (new_step dep c p))) with k. rewrite lookup_insert_eq. intros [= <- <-] Hw.
    exfalso. assert (wanted (with_outbox d1 box sq) i = true) as Ht; [|by rewrite Ht in Hw].
    apply existsb_exists_in. exists dep. split; [done|]. by apply bool_decide_eq_true.
Qed.

Lemma persist_apt d now dep s :
  calm d now → dep ∈ du_deployments d → apt d dep s →
  ∃ d', persistStep d dep s now = Ok (d', false) ∧ persisted d s now d'.
Proof.
  intros Hc Hdep [c p Ha Hcin Hp Hnone -> | k i r kind Hi _ Hn ->]; [by apply persist_new|by eapply persist_old].
Qed.
End steps.
