(* ===== verification/CalmClaims.v ===== *)
(** * Claims in a calm installation

    Which decision a claim gets, and what its execution leaves: the effect an
    instance waits for is performed and committed, any other is acknowledged. *)

From S2P Require Import Prelude JsString Collections JsValue Identity JsonText Time Permission Lifecycle Placement Retry Plan PlanProofs Reconciler ReconcilerLaws PlanSteps Calm CalmSteps.

Open Scope Z_scope.

Section claims.
Context (domainToASCII : jstring → jstring) (sha256 : jstring → jstring)
  (supportedExecutors : list ExecutorKind) (workers : list PlacementWorker)
  (gates : PluginDeployment → ArtifactDeploymentGate)
  (prerequisites : Durable → PersistedProviderLoss → bool)
  (binding : ReconcileEffect → option json)
  (binding_data : ∀ e b, binding e = Some b → same_binding (Some b) (Some b) = true).
Abbreviation calm := (calm domainToASCII sha256 supportedExecutors workers gates).
Abbreviation calm_instance := (calm_instance domainToASCII sha256 supportedExecutors workers gates).
Abbreviation calm_message := (calm_message sha256).
Abbreviation message_of := (message_of sha256).
Abbreviation effect_for := (effect_for sha256).
Abbreviation work := (work sha256 gates).
Abbreviation missing := (missing sha256 gates).
Abbreviation phase := (phase sha256).
Abbreviation done_ := (done_ sha256).
Abbreviation rank := (rank sha256).
Abbreviation decide_claim := (decide_claim domainToASCII sha256 supportedExecutors workers (calm_gate gates) prerequisites).
Abbreviation decide_effect := (decide_effect domainToASCII supportedExecutors workers (calm_gate gates) prerequisites).

(** No effect fails. *)
Definition performs (e : ReconcileEffect) : effect_result := EffectDone (binding e).
Abbreviation executeClaim :=
  (executeClaim domainToASCII sha256 supportedExecutors workers (calm_gate gates) prerequisites performs).

(** The effect the instance waits for. *)
Definition waits (is_wanted : bool) (i : PersistedComponentInstance) (kind : ReconcileEffectKind) : bool :=
  bool_decide (i_lifecycle i = expectedLifecycle kind) && negb (done_ i kind) &&
  match kind with EffectPrepare | EffectStart => is_wanted | EffectDrain | EffectStop => true end.

Lemma desires_wanted d now k i r kind :
  calm d now → du_instances d !! k = Some (i, r) →
  desires (effect_for i kind) (List.find (same_deployment (i_applicationId i) (i_pluginId i)) (du_deployments d))
  = wanted d i.
Proof.
  intros Hc Hi. destruct (wanted d i) eqn:Hw.
  - destruct (wanted_home _ _ _ _ _ _ _ _ _ _ Hc Hi Hw) as (dep & Hdep & Hg & Hact & Hdig & _).
    unfold wants in Hg. pose proof (f_equal gi_applicationId Hg) as Ea. pose proof (f_equal gi_pluginId Hg) as Ep.
    pose proof (f_equal gi_generation Hg) as Eg. cbn in Ea, Ep, Eg.
    rewrite Ea, Ep, (find_deployment dep) by (done || apply Hc). apply desires_true. exists dep.
    split_and!; [done|done|by cbn|]. cbn. by rewrite Hdig.
  - apply not_true_iff_false. intros (dep & Hf & Hact & Hg & Hdig)%desires_true.
    apply find_some_in in Hf as [Hdep [Ha Hp]%same_deployment_true]. apply not_true_iff_false in Hw. apply Hw.
    apply existsb_exists_in. exists dep. split; [done|]. apply bool_decide_eq_true.
    unfold instance_generation, generation_of. cbn in Hg. congruence.
Qed.

Lemma decide_lifecycle_calm e i x now :
  i_lifecycle i ≠ CpFailed →
  decide_lifecycle e i x now =
    if bool_decide (i_lifecycle i = expectedLifecycle (e_kind e)) then ClaimPerform e x None else ClaimAcknowledge true.
Proof.
  intros Hf. unfold decide_lifecycle. rewrite (bool_decide_eq_false_2 (i_lifecycle i = CpFailed)) by done. cbn [andb negb].
  by destruct (bool_decide _).
Qed.

Lemma phase_not_failed w box i : phase w box i → i_lifecycle i ≠ CpFailed.
Proof. unfold Calm.phase. by intros H E; rewrite E in H. Qed.

(** The home of a wanted instance admits its preparation and its start. *)
Lemma gated_calm d now k i r kind :
  calm d now → du_instances d !! k = Some (i, r) → wanted d i = true →
  ∃ dep, List.find (same_deployment (i_applicationId i) (i_pluginId i)) (du_deployments d) = Some dep ∧
    decide_gated domainToASCII supportedExecutors workers (effect_for i kind) i false (Some (GateOpen (gates dep))) now
    = decide_lifecycle (effect_for i kind) i false now.
Proof.
  intros Hc Hi Hw. destruct (wanted_home _ _ _ _ _ _ _ _ _ _ Hc Hi Hw) as (dep & Hdep & Hg & Hact & Hdig & _ & c & Hcin & Hid & Hp).
  unfold wants in Hg. pose proof (f_equal gi_applicationId Hg) as Ea. pose proof (f_equal gi_pluginId Hg) as Ep. cbn in Ea, Ep.
  exists dep. split; [by rewrite Ea, Ep, (find_deployment dep) by (done || apply Hc)|].
  assert (deployable domainToASCII sha256 supportedExecutors workers gates dep) as Hok by (by apply Hc).
  cbn [decide_gated]. rewrite (dp_capabilities _ _ _ _ _ _ Hok), (dp_permissions _ _ _ _ _ _ Hok). cbn [negb orb].
  assert (List.find (λ c, streq (pc_componentId c) (i_componentId i)) (ag_components (gates dep)) = Some c) as Hf.
  { destruct (find_is_some (λ c, streq (pc_componentId c) (i_componentId i)) (ag_components (gates dep)) c) as [c' Hc']; [done|by apply streq_true|].
    rewrite Hc'. f_equal. apply find_some_in in Hc' as [Hin' E%streq_true].
    eapply (NoDup_map_inj pc_componentId); [by apply Hok|done|done|]. congruence. }
  change (e_componentId (effect_for i kind)) with (i_componentId i). rewrite Hf.
  assert (placementIsEligible domainToASCII (placement_for supportedExecutors workers gates dep c)
    {| cpl_executor := i_executor i; cpl_workerId := i_workerId i |} = true) as He.
  { apply eligible_spec. by apply planPlacement_ok in Hp as [? _]. }
  unfold placement_for in He. cbn [e_artifactDigest e_executor e_workerId Calm.effect_for].
  rewrite Hdig. cbn [default id]. by rewrite He.
Qed.

Lemma home_not_draining d now k i r :
  calm d now → du_instances d !! k = Some (i, r) → wanted d i = true →
  i_lifecycle i ≠ CpDraining ∧ i_lifecycle i ≠ CpStopping.
Proof.
  intros Hc Hi Hw. destruct (wanted_home _ _ _ _ _ _ _ _ _ _ Hc Hi Hw) as (dep & _ & _ & _ & _ & Hl & _).
  split; intros E; rewrite E in Hl; set_solver.
Qed.

Lemma decide_effect_calm d d0 now k i r kind :
  calm d now → du_instances d !! k = Some (i, r) →
  du_deployments d0 = du_deployments d → du_losses d0 = [] → done_ i kind = false →
  decide_effect d0 (effect_for i kind) i now =
    if waits (wanted d i) i kind then ClaimPerform (effect_for i kind) false None else ClaimAcknowledge true.
Proof.
  intros Hc Hi Hdep Hloss Hdone. pose proof (desires_wanted d now k i r kind Hc Hi) as Hdes.
  pose proof (phase_not_failed _ _ _ (cl_phase _ _ _ _ _ _ _ _ (cs_instances _ _ _ _ _ _ _ Hc _ _ _ Hi))) as Hnf.
  unfold Reconciler.decide_effect, waits. rewrite Hdep, Hloss, Hdone. cbn [List.find negb].
  change (e_applicationId (effect_for i kind)) with (i_applicationId i).
  change (e_pluginId (effect_for i kind)) with (i_pluginId i). rewrite Hdes.
  change (e_kind (effect_for i kind)) with kind. rewrite andb_true_r.
  destruct (wanted d i) eqn:Hw; cbn [negb orb andb].
  - destruct (gated_calm d now k i r kind Hc Hi Hw) as (dep & -> & Hgate). cbn [calm_gate].
    destruct (home_not_draining _ _ _ _ _ Hc Hi Hw) as [H1 H2].
    destruct kind; [by rewrite bool_decide_eq_false_2|..|by rewrite bool_decide_eq_false_2].
    all: unfold calm_gate; rewrite Hgate, decide_lifecycle_calm by done; by rewrite andb_true_r.
  - destruct (List.find _ (du_deployments d)) as [dep|]; cbn [calm_gate]; destruct kind;
      rewrite ?andb_false_r; try done; rewrite decide_lifecycle_calm by done; by rewrite andb_true_r.
Qed.

Lemma matches_effect_for i d k kind :
  calm_instance d k i → matches_instance (effect_for i kind) i (js "1") = true.
Proof.
  intros [H1 H2 H3 H4 H5 [g H6] H7 H8 Hdp H9 H10]. unfold matches_instance.
  cbn [Calm.effect_for e_instanceId e_activation e_applicationId e_pluginId e_componentId e_deploymentGeneration
    e_artifactDigest e_executor e_workerId e_executionBinding].
  rewrite H3, H2, H5, H6, H8, !(proj2 (streq_true _ _) eq_refl).
  by rewrite !bool_decide_eq_true_2.
Qed.

Lemma load_calm_instance d k i r :
  calm_instance d k i →
  load_instance k i r =
    Ok {| li_storageId := k;
          li_value := {| ci_value := i; ci_activation := js "1"; ci_legacyActivation := false; ci_revision := r |};
          li_legacyActivation := false |}.
Proof.
  intros H. unfold load_instance, parsePersistedActivation. rewrite (cl_activation _ _ _ _ _ _ _ _ H). cbn [default id].
  assert (parseActivation (VStr (js "1")) = Ok (js "1")) as -> by (vm_compute; reflexivity). done.
Qed.

(** All records load, in the order of their keys. *)
Definition loaded_of (e : jstring * (PersistedComponentInstance * Z)) : LoadedComponentInstance :=
  {| li_storageId := e.1;
     li_value := {| ci_value := e.2.1; ci_activation := js "1"; ci_legacyActivation := false; ci_revision := e.2.2 |};
     li_legacyActivation := false |}.
Lemma loadInstances_calm d d0 now :
  calm d now → du_instances d0 = du_instances d →
  loadInstances d0 = Ok (map loaded_of (js_sort (λ a b, compareText a.1 b.1) (map_to_list (du_instances d)))).
Proof.
  intros Hc Hins. unfold loadInstances. rewrite Hins. apply mapM_ok.
  assert (∀ e, e ∈ js_sort (λ a b : jstring * (PersistedComponentInstance * Z), compareText a.1 b.1) (map_to_list (du_instances d)) →
    load_instance e.1 e.2.1 e.2.2 = Ok (loaded_of e)) as H.
  { intros [k [i r]] He%elem_of_js_sort%elem_of_map_to_list. eapply load_calm_instance. by eapply cs_instances. }
  revert H. generalize (js_sort (λ a b : jstring * (PersistedComponentInstance * Z), compareText a.1 b.1) (map_to_list (du_instances d))).
  intros l. induction l as [|e l IH]; intros H; constructor; [apply H; by left|apply IH; intros; apply H; by right].
Qed.

(** The decision on a message of a calm installation. *)
Lemma decide_claim_calm d d0 now k i r kind m claim :
  calm d now → du_instances d !! k = Some (i, r) →
  du_deployments d0 = du_deployments d → du_losses d0 = [] → du_instances d0 = du_instances d →
  k_message claim = m → m_messageId m = message_of i kind → m_operationId m = message_of i kind →
  m_payload m = Some (effect_for i kind, false) →
  decide_claim d0 claim now =
    Ok (if waits (wanted d i) i kind then ClaimPerform (effect_for i kind) false None
        else ClaimAcknowledge (negb (done_ i kind))).
Proof.
  intros Hc Hi Hdep Hloss Hins Hk Hid Hop Hpay. pose proof (cs_instances _ _ _ _ _ _ _ Hc _ _ _ Hi) as Hci.
  unfold Reconciler.decide_claim. rewrite Hk, Hpay, Hid, Hop.
  change (e_messageId (effect_for i kind)) with (message_of i kind).
  change (e_operationId (effect_for i kind)) with (message_of i kind).
  rewrite !(proj2 (streq_true _ _) eq_refl). cbn [negb orb].
  assert (e_instanceId (effect_for i kind) = k) as Ek by (by rewrite (cl_key _ _ _ _ _ _ _ _ Hci)).
  rewrite Hins, Ek, Hi. cbn [fmap option_fmap option_map fst].
  rewrite (cl_activation _ _ _ _ _ _ _ _ Hci).
  change (identities sha256 false
    {| gi_applicationId := e_applicationId (effect_for i kind); gi_pluginId := e_pluginId (effect_for i kind);
       gi_generation := e_deploymentGeneration (effect_for i kind) |}
    (e_componentId (effect_for i kind)) (e_kind (effect_for i kind)) (e_activation (effect_for i kind)))
    with (reconcileEffectIdentities sha256 (instance_generation i) (i_componentId i) kind (js "1")).
  rewrite named_identities by apply Hci. rewrite bind_ok_l. cbn [ei_instanceId ei_operationId ei_messageId].
  rewrite <- (cl_key _ _ _ _ _ _ _ _ Hci).
  fold (message_of i kind). rewrite !(proj2 (streq_true _ _) eq_refl). cbn [negb orb].
  unfold parsePersistedActivation. rewrite (cl_activation _ _ _ _ _ _ _ _ Hci). cbn [default id].
  assert (parseActivation (VStr (js "1")) = Ok (js "1")) as -> by (vm_compute; reflexivity). rewrite bind_ok_l.
  rewrite (matches_effect_for i d k kind Hci). cbn [negb].
  change (completed i (message_of i kind)) with (done_ i kind).
  destruct (done_ i kind) eqn:Hdone.
  { unfold waits. rewrite Hdone. cbn [negb]. rewrite andb_false_r. done. }
  rewrite (cl_diagnostic _ _ _ _ _ _ _ _ Hci).
  rewrite (bool_decide_eq_false_2 (None = Some (js "LIFECYCLE_RESTORE_FAILED"))) by done.
  rewrite andb_false_r. cbn [andb].
  rewrite (loadInstances_calm d d0 now Hc Hins), bind_ok_l. f_equal.
  rewrite (decide_effect_calm d d0 now k i r kind) by done. done.
Qed.

(** ** The next claim *)
Definition leased (m : LifecycleMessage) (now : Z) : LifecycleMessage :=
  {| m_messageId := m_messageId m; m_operationId := m_operationId m; m_payload := m_payload m;
     m_availableAt := m_availableAt m; m_sequence := m_sequence m; m_attempt := m_attempt m + 1;
     m_leasedUntil := Some (now + claimLeaseMs); m_state := OutPending |}.
Definition claim_of (m : LifecycleMessage) (now : Z) : OutboxClaim :=
  {| k_message := leased m now; k_attempt := m_attempt m + 1; k_claimedAt := now |}.

Lemma claimNext_calm d now :
  calm d now →
  (claimNext d now = (d, None) ∧ ∀ id, ¬ pending (du_outbox d) id) ∨
  ∃ id m, du_outbox d !! id = Some m ∧ m_state m = OutPending ∧
    claimNext d now = (set_message d (leased m now), Some (claim_of m now)).
Proof.
  intros Hc. unfold claimNext. set (l := js_sort compare_messages _).
  assert (∀ m, m ∈ l ↔ ∃ id, du_outbox d !! id = Some m) as Hl.
  { intros m. unfold l. rewrite elem_of_js_sort, list_elem_of_fmap. split.
    - intros ([id m'] & -> & H%elem_of_map_to_list). by exists id.
    - intros [id H]. exists (id, m). split; [done|]. by apply elem_of_map_to_list. }
  destruct (List.find (claimable now) l) as [m|] eqn:E.
  - right. apply find_some_in in E as [Hin Hcl]. apply Hl in Hin as [id Hid]. exists id, m. split_and!; [done| |done].
    destruct (cs_messages _ _ _ _ _ _ _ Hc _ _ Hid) as [_ _ _ _ [Hs|Hs] _]; [done|].
    unfold claimable in Hcl. by rewrite Hs in Hcl.
  - left. split; [done|]. intros id (m & Hid & Hs). rewrite find_none_in in E.
    specialize (E m (proj2 (Hl m) (ex_intro _ id Hid))).
    destruct (cs_messages _ _ _ _ _ _ _ Hc _ _ Hid) as [_ _ Ha Hle _ _].
    unfold claimable in E. rewrite Hs, Hle in E. cbn in E. apply Z.leb_le in Ha. by rewrite Ha in E.
Qed.

(** The message when its claim is settled. *)
Definition settled_message (m : LifecycleMessage) (now : Z) : LifecycleMessage :=
  {| m_messageId := m_messageId m; m_operationId := m_operationId m; m_payload := m_payload m;
     m_availableAt := m_availableAt m; m_sequence := m_sequence m; m_attempt := m_attempt m + 1;
     m_leasedUntil := None; m_state := OutCompleted |}.

Lemma settle_claimed d0 d m now id :
  m_messageId m = id → du_outbox d0 = <[id := leased m now]> (du_outbox d) →
  settle_message d0 id None = with_outbox d0 (<[id := settled_message m now]> (du_outbox d)) (du_sequence d0).
Proof.
  intros <- Hbox. unfold settle_message. rewrite Hbox, lookup_insert_eq. unfold set_message, with_outbox.
  cbn [m_messageId leased]. rewrite Hbox, insert_insert_eq. done.
Qed.

(** The messages of a state with one more that is completed. *)
Lemma open_settled (box : gmap jstring LifecycleMessage) id m now :
  box !! id = Some m → m_state m = OutPending →
  map_total open_message box = S (map_total open_message (<[id := settled_message m now]> box)).
Proof.
  intros Hm Hs. pose proof (map_total_old open_message box id m (settled_message m now) Hm) as H.
  assert (open_message m = 1%nat) as Ho by (unfold open_message; rewrite Hs; done).
  assert (open_message (settled_message m now) = 0%nat) as Ho' by done. lia.
Qed.

(** Acknowledging a message nothing waits for. *)
Lemma phase_acknowledged w box i kind m now :
  named sha256 (instance_generation i) (i_componentId i) →
  phase w box i → waits w i kind = false → box !! message_of i kind = Some m →
  phase w (<[message_of i kind := settled_message m now]> box) i.
Proof.
  intros Hnm Hp Hw Hm. assert (∀ k, k ≠ kind → <[message_of i kind := settled_message m now]> box !! message_of i k = box !! message_of i k) as Hne.
  { intros k Hk. apply lookup_insert_ne. intros E. apply Hk. symmetry. by apply message_of_inj in E as (_ & _ & ?). }
  unfold waits in Hw. unfold Calm.phase, pending in *.
  destruct (i_lifecycle i) eqn:El; try done; destruct kind; cbn [expectedLifecycle] in Hw;
    rewrite ?(Hne EffectPrepare), ?(Hne EffectStart), ?(Hne EffectDrain), ?(Hne EffectStop) by done; try done;
    try (rewrite bool_decide_eq_true_2 in Hw by done); try (destruct w);
    clear Hne Hnm; rewrite ?Hm in Hp; try tauto; try (by destruct_and!).
  all: cbn in Hw; rewrite ?andb_true_r in Hw; apply negb_false_iff in Hw; rewrite Hw in Hp |- *;
    clear -Hp; naive_solver.
Qed.

(** Performing and committing the effect an instance waits for. *)
Definition lifecycle_after (kind : ReconcileEffectKind) : ComponentLifecycleState :=
  match kind with
  | EffectPrepare => CpPreparing | EffectStart => CpReady | EffectDrain => CpDraining | EffectStop => CpStopped
  end.
Definition performed (i : PersistedComponentInstance) (kind : ReconcileEffectKind) : PersistedComponentInstance :=
  committed_instance (effect_for i kind) (binding (effect_for i kind)) (lifecycle_after kind) i.

Lemma waits_lifecycle w i kind :
  waits w i kind = true →
  i_lifecycle i = expectedLifecycle kind ∧ done_ i kind = false ∧
  match kind with EffectPrepare | EffectStart => w = true | _ => True end.
Proof.
  unfold waits. rewrite !andb_true_iff, bool_decide_eq_true, negb_true_iff. intros [[H1 H2] H3].
  split_and!; [done|done|by destruct kind].
Qed.

Lemma successful_after i kind :
  i_lifecycle i = expectedLifecycle kind → successfulLifecycle kind i = Ok (lifecycle_after kind).
Proof. intros H. unfold successfulLifecycle, move_to. rewrite H. by destruct kind. Qed.

Lemma done_performed i kind kind' :
  named sha256 (instance_generation i) (i_componentId i) →
  done_ (performed i kind) kind = true ∧
  (kind' ≠ kind → done_ i kind' = false → done_ (performed i kind) kind' = false).
Proof.
  intros Hnm. unfold Calm.done_. change (message_of (performed i kind)) with (message_of i). split.
  - unfold performed. rewrite completed_committed. by left.
  - intros Hne Hf. apply not_true_iff_false. intros Ht. unfold performed in Ht. rewrite completed_committed in Ht. destruct Ht as [Ht|Ht].
    + change (e_operationId (effect_for i kind)) with (message_of i kind) in Ht.
      by apply message_of_inj in Ht as (_ & _ & ?).
    + apply not_true_iff_false in Hf. apply Hf. unfold completed. apply orb_true_iff. right.
      destruct (i_completedOperationIds i); [by apply includes_true|by apply elem_of_nil in Ht].
Qed.

Lemma phase_performed w box i kind m now :
  named sha256 (instance_generation i) (i_componentId i) →
  phase w box i → waits w i kind = true → box !! message_of i kind = Some m →
  phase w (<[message_of i kind := settled_message m now]> box) (performed i kind).
Proof.
  intros Hnm Hp (Hl & Hd & Hw)%waits_lifecycle Hm.
  assert (∀ k, k ≠ kind → <[message_of i kind := settled_message m now]> box !! message_of i k = box !! message_of i k) as Hne.
  { intros k Hk. apply lookup_insert_ne. intros E. apply Hk. symmetry. by apply message_of_inj in E as (_ & _ & ?). }
  assert (∀ k, k ≠ kind → box !! message_of i k = None ∧ done_ i k = false →
    <[message_of i kind := settled_message m now]> box !! message_of i k = None ∧ done_ (performed i kind) k = false) as Habs.
  { intros k Hk [H1 H2]. rewrite Hne by done. split; [done|]. by apply done_performed. }
  pose proof (proj1 (done_performed i kind kind Hnm)) as Hdone.
  unfold Calm.phase in *. change (message_of (performed i kind)) with (message_of i).
  change (i_lifecycle (performed i kind)) with (lifecycle_after kind). rewrite Hl in Hp.
  destruct kind; cbn [expectedLifecycle lifecycle_after] in *.
  - destruct Hp as [_ Hp]. split; [by right|]. by apply Habs.
  - destruct Hp as (_ & H1 & H2 & H3). split_and!; by apply Habs.
  - destruct Hp as (_ & H1 & H2). split_and!; by apply Habs.
  - done.
Qed.

(** ** Executing a claim *)

(** What is left after a claim is settled. *)
Record settled (d d' : Durable) (now : Z) : Prop := {
  st_calm : calm d' now;
  st_deployments : du_deployments d' = du_deployments d;
  st_work : (S (work d') ≤ work d)%nat;
  st_quiet k i r : du_instances d' !! k = Some (i, r) →
    ∃ j r', du_instances d !! k = Some (j, r') ∧ wanted d' i = wanted d j ∧
      (wanted d j = false → i_lifecycle j ∈ [CpDraining; CpStopping; CpStopped] →
       i_lifecycle i ∈ [CpDraining; CpStopping; CpStopped]);
}.

Lemma settled_message_calm d now k i r kind m :
  du_instances d !! k = Some (i, r) → calm_message d now (message_of i kind) m →
  calm_message d now (message_of i kind) (settled_message m now).
Proof.
  intros Hi [M1 M2 M3 M4 M5 _]. split; cbn; try done; [by right|]. by exists k, i, r, kind.
Qed.

(** The state after one instance and its message are settled. *)
Lemma settle_calm d d' now k i r kind m i' r' :
  calm d now → du_instances d !! k = Some (i, r) → du_outbox d !! message_of i kind = Some m → m_state m = OutPending →
  du_deployments d' = du_deployments d → du_losses d' = du_losses d →
  du_instances d' = <[k := (i', r')]> (du_instances d) →
  du_outbox d' = <[message_of i kind := settled_message m now]> (du_outbox d) →
  instance_generation i' = instance_generation i → i_componentId i' = i_componentId i →
  calm_instance d' k i' →
  (∀ kind', kind' ≠ kind → pending (du_outbox d) (message_of i kind') → effect_for i' kind' = effect_for i kind') →
  (rank (du_outbox d') i' ≤ rank (du_outbox d) i)%nat →
  (wanted d i = false → i_lifecycle i ∈ [CpDraining; CpStopping; CpStopped] →
   i_lifecycle i' ∈ [CpDraining; CpStopping; CpStopped]) →
  settled d d' now.
Proof.
  intros Hc Hi Hm Hs Hdep Hloss Hins Hbox Hg Hcid Hci' Heff Hrank Hquiet.
  assert (message_of i' = message_of i) as Emsg.
  { unfold Calm.message_of. by rewrite Hg, Hcid. }
  assert (du_instances d' !! k = Some (i', r')) as Hi' by (by rewrite Hins, lookup_insert_eq).
  pose proof (cs_messages _ _ _ _ _ _ _ Hc _ _ Hm) as Hcm.
  split.
  - eapply (calm_put domainToASCII sha256 supportedExecutors workers gates d d' now k i' r' kind); try done.
    + intros id Hid. rewrite Emsg in Hid. rewrite Hbox. by apply lookup_insert_ne.
    + rewrite Emsg. intros m'. rewrite Hbox, lookup_insert_eq. intros [= <-]. rewrite <- Emsg.
      destruct Hcm as [M1 M2 M3 M4 M5 _]. split; cbn; [by rewrite Emsg|by rewrite Emsg|done|done|by right|].
      exists k, i', r', kind. by split_and!.
    + intros j r0 kind' Hj Hne Hp. rewrite Hi in Hj. injection Hj as <- <-. by apply Heff.
  - done.
  - unfold Calm.work. rewrite (missing_old sha256 gates d d' k i r i' r') by done.
    rewrite Hins, Hbox. rewrite (open_settled (du_outbox d) (message_of i kind) m now Hm Hs).
    rewrite <- Hbox.
    pose proof (map_total_changed (λ e : PersistedComponentInstance * Z, rank (du_outbox d) e.1)
      (λ e : PersistedComponentInstance * Z, rank (du_outbox d') e.1) (du_instances d) k (i, r) (i', r') Hi) as Ht.
    cbn [fst] in Ht. pose proof (cs_instances _ _ _ _ _ _ _ Hc _ _ _ Hi) as Hci.
    assert (∀ id, id ≠ message_of i kind → du_outbox d' !! id = du_outbox d !! id) as Hother
      by (intros id Hid; rewrite Hbox; by apply lookup_insert_ne).
    specialize (Ht ltac:(intros k' [j r0] Hne Hj; by eapply (rank_others domainToASCII sha256 supportedExecutors workers gates d
      (du_outbox d') now k i j k' r0 kind Hc); [apply Hci|apply Hci|..])).
    lia.
  - intros k' j r0. rewrite Hins. destruct (decide (k = k')) as [<-|Hne].
    + rewrite lookup_insert_eq. intros [= <- <-]. exists i, r. split_and!; [done| |done].
      by apply wanted_same.
    + rewrite lookup_insert_ne by done. intros Hj. exists j, r0. split_and!; [done| |done]. by apply wanted_same.
Qed.

(** A message that is replaced counts as before. *)
Lemma rank_settled (box : gmap jstring LifecycleMessage) id m m' i :
  box !! id = Some m → rank (<[id := m']> box) i = rank box i.
Proof.
  intros Hm. unfold Calm.rank. destruct (i_lifecycle i); try done.
  destruct (decide (id = message_of i EffectStop)) as [-> | Hne]; [|by rewrite lookup_insert_ne].
  by rewrite lookup_insert_eq, Hm.
Qed.

Lemma execute_acknowledged d d' now k i r kind m :
  calm d now → du_instances d !! k = Some (i, r) → du_outbox d !! message_of i kind = Some m → m_state m = OutPending →
  waits (wanted d i) i kind = false →
  du_deployments d' = du_deployments d → du_losses d' = du_losses d → du_instances d' = du_instances d →
  du_outbox d' = <[message_of i kind := settled_message m now]> (du_outbox d) →
  settled d d' now.
Proof.
  intros Hc Hi Hm Hs Hw Hdep Hloss Hins Hbox. pose proof (cs_instances _ _ _ _ _ _ _ Hc _ _ _ Hi) as Hci.
  eapply (settle_calm d d' now k i r kind m i r); try done.
  - by rewrite Hins, insert_id.
  - destruct Hci as [H1 H2 H3 H4 H5 H6 H7 H8 Hdp H9 H10]. split; try done.
    + by rewrite Hdep.
    + intros dep Hd. rewrite Hdep in Hd. by apply H9.
    + rewrite Hbox, (wanted_same d d' i i) by done. by apply phase_acknowledged.
  - by rewrite Hbox, (rank_settled _ _ m).
Qed.

Lemma execute_performed d d' now k i r kind m r' :
  calm d now → du_instances d !! k = Some (i, r) → du_outbox d !! message_of i kind = Some m → m_state m = OutPending →
  waits (wanted d i) i kind = true →
  du_deployments d' = du_deployments d → du_losses d' = du_losses d →
  du_instances d' = <[k := (performed i kind, r')]> (du_instances d) →
  du_outbox d' = <[message_of i kind := settled_message m now]> (du_outbox d) →
  settled d d' now.
Proof.
  intros Hc Hi Hm Hs Hw Hdep Hloss Hins Hbox. pose proof (cs_instances _ _ _ _ _ _ _ Hc _ _ _ Hi) as Hci.
  pose proof (waits_lifecycle _ _ _ Hw) as (Hl & Hd & Hwt).
  pose proof (phase_performed _ _ _ _ _ now (cl_named _ _ _ _ _ _ _ _ Hci) (cl_phase _ _ _ _ _ _ _ _ Hci) Hw Hm) as Hph.
  eapply (settle_calm d d' now k i r kind m (performed i kind) r'); try done.
  - destruct Hci as [H1 H2 H3 H4 H5 H6 H7 H8 Hdp H9 H10]. split; try done.
    + unfold performed. cbn. destruct (binding (effect_for i kind)) as [b|] eqn:Eb; [|done].
      case_bool_decide; [by eapply binding_data|done].
    + by rewrite Hdep.
    + intros dep Hin Hwd. rewrite Hdep in Hin. destruct (H9 dep Hin Hwd) as (Hact & Hdig & Hlc & Hpl).
      split_and!; [done|done| |done]. cbn. rewrite Hl in Hlc. destruct kind; cbn in Hlc |- *; set_solver.
    + rewrite Hbox, (wanted_same d d' i) by done. done.
  - intros kind' Hne (m' & Hm' & Hs'). destruct kind.
    1,3,4: unfold performed, committed_instance, Calm.effect_for; cbn; by destruct (binding _).
    exfalso. pose proof (cl_phase _ _ _ _ _ _ _ _ Hci) as Hp. unfold Calm.phase in Hp. rewrite Hl in Hp. cbn in Hp.
    destruct Hp as (_ & [H1 _] & [H2 _] & [H3 _]). destruct kind'; congruence.
  - rewrite Hbox, (rank_settled _ _ m) by done. unfold Calm.rank. rewrite Hl.
    destruct kind; cbn [performed committed_instance i_lifecycle lifecycle_after expectedLifecycle]; lia.
  - rewrite Hl. intros _ Hin. destruct kind; cbn in Hin |- *; set_solver.
Qed.

Lemma execute_calm d now id m :
  calm d now → du_outbox d !! id = Some m → m_state m = OutPending →
  ∃ d' replan outcome,
    executeClaim (set_message d (leased m now)) (claim_of m now) now = Ok (d', replan, outcome) ∧
    (outcome = OutcomeSettled ∨ ∃ e, outcome = OutcomePerformed e) ∧ settled d d' now.
Proof.
  intros Hc Hm Hs. destruct (cs_messages _ _ _ _ _ _ _ Hc _ _ Hm) as [M1 M2 M3 M4 M5 (k & i & r & kind & Hi & -> & Mp)].
  specialize (Mp Hs). pose proof (cs_instances _ _ _ _ _ _ _ Hc _ _ _ Hi) as Hci.
  assert (e_instanceId (effect_for i kind) = k) as Ek by (by rewrite (cl_key _ _ _ _ _ _ _ _ Hci)).
  set (d0 := set_message d (leased m now)).
  assert (du_outbox d0 = <[message_of i kind := leased m now]> (du_outbox d)) as Hbox0.
  { unfold d0, set_message. cbn. by rewrite M1. }
  assert (du_losses d0 = []) as Hloss0 by (exact (cs_losses _ _ _ _ _ _ _ Hc)).
  unfold Reconciler.executeClaim. cbn [k_claimedAt claim_of]. rewrite Z.max_id.
  rewrite (decide_claim_calm d d0 now k i r kind (leased m now)) by done. rewrite bind_ok_l.
  destruct (waits (wanted d i) i kind) eqn:Hw.
  - rewrite Ek. change (du_instances d0) with (du_instances d). rewrite Hi.
    assert (begin_effect prerequisites d0 (effect_for i kind) i r false None
      = Ok (journal d0 (message_of i kind) JournalExecuting, Authorized)) as -> by reflexivity.
    rewrite bind_ok_l. cbn beta iota. unfold performs.
    unfold commitEffect. rewrite Ek. change (du_instances (journal d0 _ JournalExecuting)) with (du_instances d). rewrite Hi.
    assert (still_current (effect_for i kind) i = Ok true) as ->.
    { unfold still_current, parsePersistedActivation. rewrite (cl_activation _ _ _ _ _ _ _ _ Hci). cbn [default id].
      assert (parseActivation (VStr (js "1")) = Ok (js "1")) as -> by (vm_compute; reflexivity). rewrite bind_ok_l.
      f_equal. cbn [Calm.effect_for e_activation e_deploymentGeneration e_componentId].
      by rewrite !(proj2 (streq_true _ _) eq_refl). }
    rewrite bind_ok_l. cbn [negb]. pose proof (waits_lifecycle _ _ _ Hw) as (Hl & _ & _).
    change (e_kind (effect_for i kind)) with kind. rewrite (successful_after i kind Hl), bind_ok_l. cbn beta iota.
    eexists _, _, _. split; [reflexivity|]. split; [right; by eexists|].
    unfold acknowledge. cbn [k_message claim_of leased m_messageId]. rewrite M1.
    erewrite (settle_claimed _ d m now) by (first [exact M1|exact Hbox0]).
    eapply (execute_performed d _ now k i r kind m (du_revision d + 1 + 1)); try done.
  - eexists _, _, _. split; [reflexivity|]. split; [by left|].
    unfold acknowledge. cbn [k_message claim_of leased m_messageId]. rewrite M1.
    rewrite (settle_claimed d0 d m now) by done. by eapply (execute_acknowledged d _ now k i r kind m).
Qed.
End claims.
