(* ===== verification/CalmPlans.v ===== *)
(** * Plans of a calm installation

    The instances a pass plans on, and the plan of each deployment: it is never
    blocked, each of its steps is what an instance or a missing component is
    next for, and it is empty only when the deployment has converged. *)

From S2P Require Import Prelude JsString Collections JsValue Identity JsonText Time Permission Lifecycle Placement Retry Plan PlanProofs Reconciler ReconcilerLaws PlanSteps Calm CalmSteps CalmClaims.

Open Scope Z_scope.

Section plans.
Context (domainToASCII : jstring → jstring) (sha256 : jstring → jstring)
  (supportedExecutors : list ExecutorKind) (workers : list PlacementWorker)
  (gates : PluginDeployment → ArtifactDeploymentGate)
  (prerequisites : Durable → PersistedProviderLoss → bool).
Abbreviation calm := (calm domainToASCII sha256 supportedExecutors workers gates).
Abbreviation calm_instance := (calm_instance domainToASCII sha256 supportedExecutors workers gates).
Abbreviation message_of := (message_of sha256).
Abbreviation effect_for := (effect_for sha256).
Abbreviation next_effect := (next_effect sha256).
Abbreviation step_of := (step_of sha256).
Abbreviation new_step := (new_step sha256).
Abbreviation apt := (apt domainToASCII sha256 supportedExecutors workers gates).

(** ** The instances *)
Definition entries (d : Durable) : list (jstring * (PersistedComponentInstance * Z)) :=
  js_sort (λ a b, compareText a.1 b.1) (map_to_list (du_instances d)).
Definition instance_of (e : jstring * (PersistedComponentInstance * Z)) : ComponentInstance :=
  {| ci_value := e.2.1; ci_activation := js "1"; ci_legacyActivation := false; ci_revision := e.2.2 |}.
Definition goods (d : Durable) : list ComponentInstance := map instance_of (entries d).

Lemma elem_of_entries d e : e ∈ entries d ↔ du_instances d !! e.1 = Some e.2.
Proof. unfold entries. rewrite elem_of_js_sort. destruct e as [k v]. apply elem_of_map_to_list. Qed.

Lemma elem_of_goods d x :
  x ∈ goods d ↔ ∃ k i r, du_instances d !! k = Some (i, r) ∧ x = instance_of (k, (i, r)).
Proof.
  unfold goods. rewrite list_elem_of_fmap. split.
  - intros ([k [i r]] & -> & H%elem_of_entries). by exists k, i, r.
  - intros (k & i & r & H & ->). exists (k, (i, r)). split; [done|]. by apply elem_of_entries.
Qed.

Lemma canonical_calm d k i r deps :
  calm_instance d k i → deps = du_deployments d →
  isInstanceContextConsistent sha256 (loaded_of (k, (i, r))) deps = Ok true.
Proof.
  intros Hi ->. unfold isInstanceContextConsistent, isCanonicalInstance.
  cbn [loaded_of li_storageId li_value ci_value ci_activation li_legacyActivation fst snd].
  rewrite (cl_id _ _ _ _ _ _ _ _ Hi), (proj2 (streq_true _ _) eq_refl). cbn [negb].
  unfold canonical_instance_id. cbn [loaded_of li_legacyActivation li_value ci_value ci_activation fst snd].
  rewrite named_identities by apply Hi. rewrite ?bind_ok_l. cbn [ei_instanceId].
  rewrite <- (cl_key _ _ _ _ _ _ _ _ Hi), (proj2 (streq_true _ _) eq_refl), ?bind_ok_l. cbn [negb].
  destruct (List.find _ (du_deployments d)) as [dep|] eqn:E; [|done].
  apply find_some_in in E as [Hdep E]. apply andb_true_iff in E as [[Ha Hp]%same_deployment_true Hg%streq_true].
  assert (wants dep i) as Hw by (unfold wants, instance_generation, generation_of; congruence).
  destruct (cl_home _ _ _ _ _ _ _ _ Hi dep Hdep Hw) as (_ & Hdig & _).
  rewrite Hdig, bool_decide_eq_true_2 by done. rewrite (cl_observed _ _ _ _ _ _ _ _ Hi), Hg.
  by rewrite (proj2 (streq_true _ _) eq_refl).
Qed.

Lemma sort_instances_calm d now :
  calm d now →
  sort_instances sha256 (map loaded_of (entries d)) (du_deployments d) = Ok (goods d, []).
Proof.
  intros Hc. unfold goods. assert (∀ e, e ∈ entries d → calm_instance d e.1 e.2.1) as H.
  { intros [k [i r]] He%elem_of_entries. by eapply cs_instances. }
  revert H. generalize (entries d). intros l. induction l as [|e l IH]; intros H; [done|].
  cbn [map sort_instances]. destruct e as [k [i r]].
  rewrite (canonical_calm d) by (first [done|exact (H (k, (i, r)) ltac:(by left))]). rewrite bind_ok_l.
  rewrite IH by (intros; apply H; by right). done.
Qed.

(** ** The gates *)
Definition open_gates (deps : list PluginDeployment) : list (PluginDeployment * gate_outcome) :=
  map (λ dep, (dep, GateOpen (gates dep))) deps.
Lemma collect_gates_calm d deps : collect_gates (calm_gate gates) d [] deps = Some (open_gates deps).
Proof. induction deps as [|dep deps IH]; [done|]. cbn. by rewrite IH. Qed.

Lemma find_gate deps dep :
  NoDup (map deploymentKey deps) → dep ∈ deps →
  List.find (λ g, streq (deploymentKey g.1) (deploymentKey dep)) (open_gates deps) = Some (dep, GateOpen (gates dep)).
Proof.
  intros Hnd Hin. destruct (List.find _ _) as [g|] eqn:E.
  - apply find_some_in in E as [Hg E%streq_true]. apply list_elem_of_fmap in Hg as (dep' & -> & Hin'). cbn in E.
    assert (dep' = dep) as -> by (by eapply (NoDup_map_inj deploymentKey deps)). done.
  - rewrite find_none_in in E. specialize (E (dep, GateOpen (gates dep))). cbn in E.
    rewrite (proj2 (streq_true _ _) eq_refl) in E. discriminate E. apply list_elem_of_fmap. by exists dep.
Qed.

(** ** The steps *)
Lemma instance_step_calm dep d k i r kind :
  calm_instance d k i → generation_of dep = instance_generation i →
  d_artifactDigest dep = default [] (i_artifactDigest i) →
  instance_step sha256 dep (instance_of (k, (i, r))) kind (i_componentId i)
    {| cpl_executor := i_executor i; cpl_workerId := i_workerId i |} (js "1") = Ok (Some (step_of i r kind)).
Proof.
  intros Hi Hg Hdig. unfold instance_step, step. cbn [instance_of ci_legacyActivation ci_value ci_revision fst snd].
  change (identities sha256 false (generation_of dep) (i_componentId i) kind (js "1"))
    with (reconcileEffectIdentities sha256 (generation_of dep) (i_componentId i) kind (js "1")).
  rewrite Hg, named_identities by apply Hi. rewrite !bind_ok_l. cbn [ei_instanceId ei_operationId ei_messageId cpl_executor cpl_workerId].
  unfold CalmSteps.step_of, Calm.effect_for. rewrite <- Hdig.
  pose proof (f_equal gi_applicationId Hg) as Ea. pose proof (f_equal gi_pluginId Hg) as Ep.
  pose proof (f_equal gi_generation Hg) as Eg. cbn in Ea, Ep, Eg. by rewrite Ea, Ep, Eg.
Qed.

Definition old_step (x : ComponentInstance) : option ReconcilePlanStep :=
  step_of (ci_value x) (ci_revision x) <$> next_effect false (ci_value x).

Lemma oldInstanceStep_calm dep d k i r t :
  calm_instance d k i → of_deployment dep (instance_of (k, (i, r))) = true →
  oldInstanceStep sha256 dep (instance_of (k, (i, r))) t = Ok (old_step (instance_of (k, (i, r)))).
Proof.
  intros Hi Hof. unfold of_deployment in Hof. cbn in Hof. apply andb_true_iff in Hof as [Ha%streq_true Hp%streq_true].
  assert (generation_of (old_deployment dep i) = instance_generation i) as Hg.
  { unfold generation_of, instance_generation, old_deployment. cbn. congruence. }
  assert (∀ kind, instance_step sha256 (old_deployment dep i) (instance_of (k, (i, r))) kind (i_componentId i)
    {| cpl_executor := i_executor i; cpl_workerId := i_workerId i |} (js "1") = Ok (Some (step_of i r kind))) as Hto.
  { intros kind. apply (instance_step_calm _ d); [done|done|]. destruct (cl_digest _ _ _ _ _ _ _ _ Hi) as [g E].
    unfold old_deployment. cbn. by rewrite E. }
  pose proof (phase_not_failed _ _ _ _ (cl_phase _ _ _ _ _ _ _ _ Hi)) as Hnf.
  unfold oldInstanceStep, old_step, CalmSteps.next_effect. cbn [instance_of ci_value ci_activation ci_legacyActivation ci_revision fst snd].
  destruct (i_lifecycle i) eqn:El; try done; try (by rewrite Hto).
  - pose proof (cl_phase _ _ _ _ _ _ _ _ Hi) as Hph. unfold phase in Hph. by rewrite El in Hph.
  - change (identities sha256 false (generation_of (old_deployment dep i)) (i_componentId i) EffectDrain (js "1"))
      with (reconcileEffectIdentities sha256 (generation_of (old_deployment dep i)) (i_componentId i) EffectDrain (js "1")).
    rewrite Hg, named_identities by apply Hi. rewrite bind_ok_l. cbn [ei_operationId].
    change (completed i (message_key sha256 (instance_generation i) (i_componentId i) EffectDrain)) with (done_ sha256 i EffectDrain).
    destruct (done_ sha256 i EffectDrain); cbn [negb]; by rewrite Hto.
Qed.

Lemma all_first (l : list ComponentInstance) :
  (∀ x, x ∈ l → ci_activation x = js "1") →
  default (js "1") (highest_activation l) = js "1" ∧
  List.find (λ i, streq (ci_activation i) (js "1")) l = head l.
Proof.
  intros H. split.
  - unfold highest_activation.
    assert (∀ acc, acc = None ∨ acc = Some (js "1") →
      default (js "1") (foldl (λ highest instance, match highest with
        | None => Some (ci_activation instance)
        | Some h => if (decimal_value h <? decimal_value (ci_activation instance))%Z
                    then Some (ci_activation instance) else highest end) acc l) = js "1") as Hf; [|apply Hf; by left].
    induction l as [|x l IH]; intros acc Hacc; cbn [foldl]; [by destruct Hacc as [-> | ->]|].
    apply IH; [intros; apply H; by right|]. rewrite (H x) by (by left).
    destruct Hacc as [-> | ->]; [by right|]. right. by rewrite Z.ltb_irrefl.
  - destruct l as [|x l]; [done|]. cbn. by rewrite (H x), (proj2 (streq_true _ _) eq_refl) by (by left).
Qed.

Definition current_step (d : Durable) (dep : PluginDeployment) (c : PluginComponent) : option ReconcilePlanStep :=
  match planPlacement domainToASCII (placement_for supportedExecutors workers gates dep c) with
  | Ok p =>
      match du_instances d !! instance_key sha256 (generation_of dep) (pc_componentId c) with
      | None => Some (new_step dep c p)
      | Some (i, r) => step_of i r <$> next_effect true i
      end
  | Err _ => None
  end.

(** The instance of a component is at home. *)
Lemma instance_at_home d now dep c i r :
  calm d now → dep ∈ du_deployments d → c ∈ ag_components (gates dep) →
  du_instances d !! instance_key sha256 (generation_of dep) (pc_componentId c) = Some (i, r) →
  instance_generation i = generation_of dep ∧ i_componentId i = pc_componentId c ∧
  at_home domainToASCII supportedExecutors workers gates dep i.
Proof.
  intros Hc Hdep Hcin Hi. pose proof (cs_instances _ _ _ _ _ _ _ Hc _ _ _ Hi) as Hci.
  assert (named sha256 (generation_of dep) (pc_componentId c)) as Hnm by (eapply dp_named; [|done]; by apply Hc).
  pose proof (cl_key _ _ _ _ _ _ _ _ Hci) as Ek. apply instance_key_inj in Ek as [Eg Ec]; [|done|apply Hci].
  split_and!; [done|done|]. by apply (cl_home _ _ _ _ _ _ _ _ Hci).
Qed.

Definition calm_snapshot (d : Durable) (dep : PluginDeployment) (now : Z) : ReconcileSnapshot :=
  {| sn_deployment := dep; sn_gate := gates dep; sn_instances := List.filter (of_deployment dep) (goods d);
     sn_now := toISOString now; sn_supportedExecutors := supportedExecutors; sn_workers := workers;
     sn_suspended := false; sn_activations := [] |}.

Lemma planning_snapshot_calm d dep now :
  du_losses d = [] →
  planning_snapshot supportedExecutors workers prerequisites d dep (gates dep) (goods d) now = calm_snapshot d dep now.
Proof. intros H. unfold planning_snapshot. rewrite H. done. Qed.

(** The instances of a deployment, each once. *)
Definition own (d : Durable) (dep : PluginDeployment) (l : list ComponentInstance) : Prop :=
  (∀ x, x ∈ l ↔ x ∈ goods d ∧ of_deployment dep x = true) ∧ NoDup (map (λ x, i_instanceId (ci_value x)) l).

Lemma currentInstanceStep_calm d now dep c k i r p :
  calm d now → calm_instance d k i → instance_generation i = generation_of dep → i_componentId i = pc_componentId c →
  at_home domainToASCII supportedExecutors workers gates dep i →
  planPlacement domainToASCII (placement_for supportedExecutors workers gates dep c) = Ok p →
  NoDup (map pc_componentId (ag_components (gates dep))) → c ∈ ag_components (gates dep) →
  currentInstanceStep sha256 (calm_snapshot d dep now) (Some (instance_of (k, (i, r)))) (pc_componentId c) p (js "1")
  = Ok (step_of i r <$> next_effect true i).
Proof.
  intros Hc Hci Hg Hid (Hact & Hdig & Hl & c' & Hcin' & Hid' & Hp') Hp Hnd Hcin.
  assert (c' = c) as -> by (eapply (NoDup_map_inj pc_componentId); [exact Hnd|done|done|congruence]).
  rewrite Hp' in Hp. injection Hp as <-.
  assert (∀ kind, instance_step sha256 dep (instance_of (k, (i, r))) kind (pc_componentId c)
    {| cpl_executor := i_executor i; cpl_workerId := i_workerId i |} (js "1") = Ok (Some (step_of i r kind))) as Hto.
  { intros kind. rewrite <- Hid. apply (instance_step_calm _ d); [done|done|]. by rewrite Hdig. }
  unfold currentInstanceStep. cbn [instance_of ci_value ci_revision fst snd calm_snapshot sn_deployment sn_now].
  rewrite (cl_diagnostic _ _ _ _ _ _ _ _ Hci), bool_decide_eq_false_2 by done. cbn [andb].
  unfold CalmSteps.next_effect. destruct (i_lifecycle i) eqn:El; try (by rewrite Hto); try done;
    exfalso; clear -Hl; set_solver.
Qed.

Lemma component_step_calm d now dep c p l :
  calm d now → dep ∈ du_deployments d → d_state dep = Active → c ∈ ag_components (gates dep) →
  planPlacement domainToASCII (placement_for supportedExecutors workers gates dep c) = Ok p → own d dep l →
  component_step sha256 (calm_snapshot d dep now) l c p = Ok (current_step d dep c).
Proof.
  intros Hc Hdep Hact Hcin Hp [Hown Hnd]. unfold component_step, current_activation.
  change (JsMap.get (sn_activations (calm_snapshot d dep now)) (pc_componentId c)) with (None : option jstring).
  change (sn_deployment (calm_snapshot d dep now)) with dep. cbv iota.
  set (cur := List.filter (of_component dep (pc_componentId c)) l).
  assert (∀ x, x ∈ cur → ∃ i r, x = instance_of (instance_key sha256 (generation_of dep) (pc_componentId c), (i, r)) ∧
    du_instances d !! instance_key sha256 (generation_of dep) (pc_componentId c) = Some (i, r)) as Hcur.
  { intros x Hx. apply elem_of_filterb in Hx as [Hx Hof]. apply Hown in Hx as [Hg Hd].
    apply elem_of_goods in Hg as (k & i & r & Hk & ->). exists i, r.
    pose proof (cs_instances _ _ _ _ _ _ _ Hc _ _ _ Hk) as Hci.
    unfold of_component in Hof. unfold of_deployment in Hd. cbn in Hof, Hd.
    apply andb_true_iff in Hof as [Hid%streq_true Hgen%streq_true], Hd as [Ha%streq_true Hpl%streq_true].
    assert (k = instance_key sha256 (generation_of dep) (pc_componentId c)) as <-; [|done].
    rewrite (cl_key _ _ _ _ _ _ _ _ Hci), Hid. f_equal. unfold instance_generation, generation_of. congruence. }
  destruct (all_first cur) as [Hdef Hfind].
  { intros x Hx. by destruct (Hcur x Hx) as (i & r & -> & _). }
  rewrite Hdef, Hfind. unfold current_step. rewrite Hp.
  destruct (du_instances d !! instance_key sha256 (generation_of dep) (pc_componentId c)) as [[i r]|] eqn:Ek.
  - destruct (instance_at_home d now dep c i r Hc Hdep Hcin Ek) as (Hg & Hid & Hhome).
    assert (instance_of (instance_key sha256 (generation_of dep) (pc_componentId c), (i, r)) ∈ cur) as Hin.
    { apply elem_of_filterb. split.
      - apply Hown. split; [apply elem_of_goods; by eexists _, _, _|].
        pose proof (f_equal gi_applicationId Hg) as Ea. pose proof (f_equal gi_pluginId Hg) as Ep. cbn in Ea, Ep.
        unfold of_deployment. cbn. rewrite Ea, Ep. by rewrite !(proj2 (streq_true _ _) eq_refl).
      - pose proof (f_equal gi_generation Hg) as Eg. cbn in Eg. unfold of_component. cbn. rewrite Hid, Eg.
        by rewrite !(proj2 (streq_true _ _) eq_refl). }
    assert (head cur = Some (instance_of (instance_key sha256 (generation_of dep) (pc_componentId c), (i, r)))) as ->.
    { destruct cur as [|x cur']; [by apply elem_of_nil in Hin|]. cbn. f_equal.
      destruct (Hcur x) as (i' & r' & -> & [= <- <-]); [by left|done]. }
    pose proof (cs_instances _ _ _ _ _ _ _ Hc _ _ _ Ek) as Hci.
    assert (NoDup (map pc_componentId (ag_components (gates dep)))) as Hndc.
    { eapply dp_distinct. by apply (in_deployable _ _ _ _ _ _ (cs_installation _ _ _ _ _ _ _ Hc)). }
    by eapply currentInstanceStep_calm.
  - assert (head cur = None) as ->.
    { destruct cur as [|x cur']; [done|]. by destruct (Hcur x) as (i' & r' & _ & ?); [left|]. }
    unfold currentInstanceStep. cbn [calm_snapshot sn_deployment]. unfold step.
    change (identities sha256 false (generation_of dep) (pc_componentId c) EffectPrepare (js "1"))
      with (reconcileEffectIdentities sha256 (generation_of dep) (pc_componentId c) EffectPrepare (js "1")).
    rewrite named_identities.
    + rewrite !bind_ok_l. done.
    + eapply dp_named; [|done]. by apply Hc.
Qed.

(** ** The plan *)
Definition own_list (d : Durable) (dep : PluginDeployment) : list ComponentInstance :=
  js_sort (λ a b, compareText (i_instanceId (ci_value a)) (i_instanceId (ci_value b)))
    (List.filter (λ i, streq (i_applicationId (ci_value i)) (d_applicationId dep))
       (List.filter (of_deployment dep) (goods d))).

Lemma goods_distinct d now : calm d now → NoDup (map (λ x, i_instanceId (ci_value x)) (goods d)).
Proof.
  intros Hc. unfold goods. rewrite map_map. rewrite (map_ext_in _ fst).
  - change (NoDup (fst <$> entries d)). unfold entries.
    rewrite (fmap_Permutation fst _ _ (js_sort_perm _ (map_to_list (du_instances d)))). apply NoDup_fst_map_to_list.
  - intros [k [i r]] He. apply list_elem_of_In, elem_of_entries in He. cbn.
    by apply (cl_id _ _ _ _ _ _ _ _ (cs_instances _ _ _ _ _ _ _ Hc _ _ _ He)).
Qed.

Lemma NoDup_map_filterb {A B} (f : A → B) (g : A → bool) l : NoDup (map f l) → NoDup (map f (List.filter g l)).
Proof.
  induction l as [|x l IH]; [done|]. cbn. intros [Hx Hl]%NoDup_cons. destruct (g x); [|by apply IH].
  cbn. apply NoDup_cons. split; [|by apply IH]. intros Hin. apply Hx.
  apply list_elem_of_fmap in Hin as (y & -> & Hy). apply elem_of_filterb in Hy as [Hy _]. apply list_elem_of_fmap. by exists y.
Qed.

Lemma own_list_own d now dep : calm d now → own d dep (own_list d dep).
Proof.
  intros Hc. split.
  - intros x. unfold own_list. rewrite elem_of_js_sort, !elem_of_filterb. split; [tauto|]. intros [Hg Hof].
    split_and!; [done|done|]. unfold of_deployment in Hof. by apply andb_true_iff in Hof as [? _].
  - unfold own_list. rewrite (fmap_Permutation _ _ _ (js_sort_perm _ _)).
    apply NoDup_map_filterb, NoDup_map_filterb. by eapply goods_distinct.
Qed.

Lemma wanted_by_own d now dep k i r :
  calm d now → dep ∈ du_deployments d → du_instances d !! k = Some (i, r) →
  of_deployment dep (instance_of (k, (i, r))) = true →
  wanted d i = bool_decide (instance_generation i = generation_of dep).
Proof.
  intros Hc Hdep Hi Hof. unfold of_deployment in Hof. cbn in Hof. apply andb_true_iff in Hof as [Ha%streq_true Hp%streq_true].
  apply eq_true_iff_eq. rewrite bool_decide_eq_true. unfold wanted. rewrite existsb_exists_in. split.
  - intros (dep' & Hdep' & Hw). apply bool_decide_eq_true in Hw. assert (dep' = dep) as ->; [|done].
    eapply (NoDup_map_inj deploymentKey); [apply (cs_installation _ _ _ _ _ _ _ Hc)|done|done|].
    pose proof (f_equal gi_applicationId Hw) as Ea. pose proof (f_equal gi_pluginId Hw) as Ep. cbn in Ea, Ep.
    unfold deploymentKey. congruence.
  - intros Hw. exists dep. split; [done|]. by apply bool_decide_eq_true.
Qed.

Lemma obsolete_calm d now dep k i r :
  calm d now → dep ∈ du_deployments d → du_instances d !! k = Some (i, r) →
  of_deployment dep (instance_of (k, (i, r))) = true →
  obsolete (calm_snapshot d dep now) (instance_of (k, (i, r))) = negb (wanted d i).
Proof.
  intros Hc Hdep Hi Hof. rewrite (wanted_by_own d now dep k i r) by done.
  pose proof (cs_instances _ _ _ _ _ _ _ Hc _ _ _ Hi) as Hci.
  unfold of_deployment in Hof. cbn in Hof. apply andb_true_iff in Hof as [Ha%streq_true Hp%streq_true].
  unfold obsolete. cbn [calm_snapshot sn_deployment sn_suspended instance_of ci_value fst snd]. rewrite orb_false_r.
  case_bool_decide as Hst; cbn [orb].
  - rewrite bool_decide_eq_false_2; [done|]. intros Hw. destruct (cl_home _ _ _ _ _ _ _ _ Hci dep Hdep Hw) as [Hact _]. congruence.
  - f_equal. apply eq_true_iff_eq. rewrite streq_true, bool_decide_eq_true. unfold instance_generation, generation_of.
    split; [congruence|]. by intros [= _ _ ->].
Qed.

Lemma inconsistent_calm d now dep l comps :
  calm d now → own d dep l → inconsistent_components dep l comps = [].
Proof.
  intros Hc [Hown Hnd]. unfold inconsistent_components. induction comps as [|c comps IH]; [done|]. cbn [omap list_omap].
  set (f := λ i : ComponentInstance, of_component dep (pc_componentId c) i && live i).
  assert (length (List.filter f l) ≤ 1)%nat as Hlen.
  { assert (∀ x y, x ∈ List.filter f l → y ∈ List.filter f l → x = y) as Hsame.
    { intros x y [Hx Hfx]%elem_of_filterb [Hy Hfy]%elem_of_filterb.
      eapply (NoDup_map_inj (λ x, i_instanceId (ci_value x))); [exact Hnd|done|done|].
      apply Hown in Hx as [Hgx Hdx], Hy as [Hgy Hdy].
      apply elem_of_goods in Hgx as (kx & ix & rx & Hkx & ->), Hgy as (ky & iy & ry & Hky & ->).
      pose proof (cs_instances _ _ _ _ _ _ _ Hc _ _ _ Hkx) as Hcx. pose proof (cs_instances _ _ _ _ _ _ _ Hc _ _ _ Hky) as Hcy.
      cbn. rewrite (cl_id _ _ _ _ _ _ _ _ Hcx), (cl_id _ _ _ _ _ _ _ _ Hcy), (cl_key _ _ _ _ _ _ _ _ Hcx), (cl_key _ _ _ _ _ _ _ _ Hcy).
      unfold f, of_component in Hfx, Hfy. unfold of_deployment in Hdx, Hdy. cbn in Hfx, Hfy, Hdx, Hdy.
      apply andb_true_iff in Hfx as [[Cx%streq_true Gx%streq_true]%andb_true_iff _], Hfy as [[Cy%streq_true Gy%streq_true]%andb_true_iff _],
        Hdx as [Ax%streq_true Px%streq_true], Hdy as [Ay%streq_true Py%streq_true].
      f_equal; [unfold instance_generation; f_equal|]; congruence. }
    assert (NoDup (List.filter f l)) as Hndf.
    { apply NoDup_filterb. by apply (NoDup_fmap_1 (λ x, i_instanceId (ci_value x))). }
    destruct (List.filter f l) as [|x [|y rest]]; [cbn; lia|cbn; lia|].
    assert (x = y) as -> by (apply Hsame; [by left|by right; left]).
    apply NoDup_cons in Hndf as [Hx _]. exfalso. apply Hx. by left. }
  apply Nat.ltb_ge in Hlen. rewrite Hlen. exact IH.
Qed.

Definition planned_steps (d : Durable) (dep : PluginDeployment) (now : Z) : list ReconcilePlanStep :=
  omap old_step (List.filter (obsolete (calm_snapshot d dep now)) (own_list d dep)) ++
  (if bool_decide (d_state dep = Active)
   then omap (current_step d dep) (js_sort (λ a b, compareText (pc_componentId a) (pc_componentId b)) (ag_components (gates dep)))
   else []).

Lemma mapM_total {A B} (f : A → result exn B) (g : A → B) l :
  (∀ x, x ∈ l → f x = Ok (g x)) → mapM f l = Ok (map g l).
Proof.
  intros H. apply mapM_ok. induction l as [|x l IH]; constructor; [apply H; by left|].
  apply IH. intros y Hy. apply H. by right.
Qed.

Lemma omap_map {A B} (f : A → option B) l : omap id (map f l) = omap f l.
Proof. induction l as [|x l IH]; [done|]. cbn. rewrite <- IH. by destruct (f x). Qed.

Lemma current_steps_calm d now dep l comps :
  calm d now → dep ∈ du_deployments d → d_state dep = Active → own d dep l →
  comps ⊆ ag_components (gates dep) →
  current_steps domainToASCII sha256 (calm_snapshot d dep now) l comps = Ok (omap (current_step d dep) comps, []).
Proof.
  intros Hc Hdep Hact Hl. induction comps as [|c comps IH]; intros Hsub; [done|]. cbn [current_steps].
  assert (c ∈ ag_components (gates dep)) as Hcin by set_solver.
  assert (deployable domainToASCII sha256 supportedExecutors workers gates dep) as Hok by (by apply Hc).
  destruct (is_ok_true _ (dp_placed _ _ _ _ _ _ Hok c Hact Hcin)) as [p Hp].
  change (placement_input (calm_snapshot d dep now) c) with (placement_for supportedExecutors workers gates dep c).
  rewrite Hp, (component_step_calm d now dep c p l) by done. rewrite bind_ok_l, IH by set_solver. rewrite bind_ok_l.
  cbn. by destruct (current_step d dep c).
Qed.

Lemma planReconcile_calm d now dep :
  calm d now → dep ∈ du_deployments d →
  ∃ diagnostics,
    planReconcile domainToASCII sha256 (calm_snapshot d dep now) =
      Ok {| rp_deploymentGeneration := d_generation dep; rp_blocked := false; rp_diagnostics := diagnostics;
            rp_steps := planned_steps d dep now |}.
Proof.
  intros Hc Hdep. exists (gate_diagnostics (gates dep) ++ []). unfold planReconcile.
  cbn [calm_snapshot sn_deployment sn_gate sn_instances sn_suspended negb]. rewrite andb_true_r.
  assert (deployable domainToASCII sha256 supportedExecutors workers gates dep) as Hok by (by apply Hc).
  rewrite (dp_capabilities _ _ _ _ _ _ Hok), (dp_permissions _ _ _ _ _ _ Hok). cbn [negb orb].
  pose proof (own_list_own d now dep Hc) as Hown. fold (own_list d dep).
  rewrite (inconsistent_calm d now) by done.
  assert (obsolete_steps sha256 (calm_snapshot d dep now) (own_list d dep)
    = Ok (omap old_step (List.filter (obsolete (calm_snapshot d dep now)) (own_list d dep)))) as Hold.
  { unfold obsolete_steps. rewrite (mapM_total _ old_step).
    - rewrite bind_ok_l. by rewrite omap_map.
    - intros x [Hx _]%elem_of_filterb. apply Hown in Hx as [Hg Hof].
      apply elem_of_goods in Hg as (k & i & r & Hk & ->). eapply oldInstanceStep_calm; [|done]. by eapply cs_instances. }
  fold (calm_snapshot d dep now). rewrite Hold, bind_ok_l. unfold planned_steps.
  case_bool_decide as Hact; [|by rewrite bind_ok_l].
  rewrite (current_steps_calm d now) by (done || (intros c Hcin; by apply elem_of_js_sort in Hcin)).
  by rewrite bind_ok_l.
Qed.

(** Every step is apt, no two are about one instance. *)
Lemma planned_steps_apt d now dep s :
  calm d now → dep ∈ du_deployments d → s ∈ planned_steps d dep now → apt d dep s.
Proof.
  intros Hc Hdep Hs. unfold planned_steps in Hs. apply elem_of_app in Hs as [Hs|Hs].
  - apply list_elem_of_omap in Hs as (x & Hx & Hs). apply elem_of_filterb in Hx as [Hx Hob].
    apply (own_list_own d now dep Hc) in Hx as [Hg Hof]. apply elem_of_goods in Hg as (k & i & r & Hk & ->).
    rewrite (obsolete_calm d now dep k i r) in Hob by done. apply negb_true_iff in Hob.
    unfold old_step in Hs. cbn [instance_of ci_value ci_revision fst snd] in Hs.
    destruct (next_effect false i) as [kind|] eqn:En; [|done]. injection Hs as <-.
    eapply apt_old; [exact Hk| |by rewrite Hob|done].
    unfold of_deployment in Hof. cbn in Hof. apply andb_true_iff in Hof as [Ha%streq_true Hp%streq_true].
    apply same_deployment_true. by split.
  - case_bool_decide as Hact; [|by apply elem_of_nil in Hs].
    apply list_elem_of_omap in Hs as (c & Hcin & Hs). apply elem_of_js_sort in Hcin.
    unfold current_step in Hs. destruct (planPlacement _ _) as [p|] eqn:Ep; [|done].
    destruct (du_instances d !! _) as [[i r]|] eqn:Ek.
    + destruct (instance_at_home d now dep c i r Hc Hdep Hcin Ek) as (Hg & _ & _).
      assert (wanted d i = true) as Hw.
      { unfold wanted. apply existsb_exists_in. exists dep. split; [done|]. by apply bool_decide_eq_true. }
      destruct (next_effect true i) as [kind|] eqn:En; [|done]. injection Hs as <-.
      eapply apt_old; [exact Ek| |by rewrite Hw|done].
      pose proof (f_equal gi_applicationId Hg) as Ea. pose proof (f_equal gi_pluginId Hg) as Epl. cbn in Ea, Epl.
      by apply same_deployment_true.
    + injection Hs as <-. by eapply apt_new.
Qed.

Definition step_key (s : ReconcilePlanStep) : jstring := e_instanceId (s_effect s).

Lemma NoDup_omap {A B K} (f : A → option B) (g : A → K) (h : B → K) l :
  (∀ x y, x ∈ l → f x = Some y → h y = g x) → NoDup (map g l) → NoDup (map h (omap f l)).
Proof.
  induction l as [|x l IH]; intros H Hnd; [constructor|]. cbn in Hnd. apply NoDup_cons in Hnd as [Hx Hnd]. cbn.
  assert (NoDup (map h (omap f l))) as Hl by (apply IH; [intros; apply H; [by right|done]|done]).
  destruct (f x) as [y|] eqn:Ef; [|done]. cbn. apply NoDup_cons. split; [|done].
  rewrite (H x y) by (done || by left). intros Hin. apply Hx. apply list_elem_of_fmap in Hin as (z & Ez & Hz).
  apply list_elem_of_omap in Hz as (w & Hw & Ew). rewrite Ez, (H w z) by (done || by right). apply list_elem_of_fmap. by exists w.
Qed.

Lemma old_step_key d k i r s :
  calm_instance d k i → old_step (instance_of (k, (i, r))) = Some s → step_key s = k.
Proof.
  intros Hi Hs. unfold old_step in Hs. destruct (next_effect _ _); [|done]. injection Hs as <-.
  symmetry. apply (cl_key _ _ _ _ _ _ _ _ Hi).
Qed.
Lemma current_step_key d now dep c s :
  calm d now → dep ∈ du_deployments d → c ∈ ag_components (gates dep) →
  current_step d dep c = Some s → step_key s = instance_key sha256 (generation_of dep) (pc_componentId c).
Proof.
  intros Hc Hdep Hcin Hs. unfold current_step in Hs. destruct (planPlacement _ _); [|done].
  destruct (du_instances d !! _) as [[i r]|] eqn:Ek; [|by injection Hs as <-].
  destruct (instance_at_home d now dep c i r Hc Hdep Hcin Ek) as (Hg & Hid & _).
  destruct (next_effect true i); [|done]. injection Hs as <-. unfold step_key. cbn. by rewrite Hg, Hid.
Qed.

Lemma planned_steps_distinct d now dep :
  calm d now → dep ∈ du_deployments d → NoDup (map step_key (planned_steps d dep now)).
Proof.
  intros Hc Hdep. unfold planned_steps. rewrite map_app. apply NoDup_app. split_and!.
  - eapply (NoDup_omap _ (λ x, i_instanceId (ci_value x))).
    + intros x s [Hx _]%elem_of_filterb Hs. apply (own_list_own d now dep Hc) in Hx as [Hg _].
      apply elem_of_goods in Hg as (k & i & r & Hk & ->). pose proof (cs_instances _ _ _ _ _ _ _ Hc _ _ _ Hk) as Hci.
      rewrite (old_step_key d k i r s) by done. cbn. by rewrite (cl_id _ _ _ _ _ _ _ _ Hci).
    + apply NoDup_map_filterb. by apply own_list_own with (now := now).
  - intros k Hk1 Hk2. case_bool_decide as Hact; [|by apply elem_of_nil in Hk2].
    apply list_elem_of_fmap in Hk1 as (s1 & -> & Hs1), Hk2 as (s2 & Ek & Hs2).
    apply list_elem_of_omap in Hs1 as (x & Hx & Hs1), Hs2 as (c & Hcin & Hs2). apply elem_of_js_sort in Hcin.
    rewrite (current_step_key d now dep c s2) in Ek by done.
    apply elem_of_filterb in Hx as [Hx Hob]. apply (own_list_own d now dep Hc) in Hx as [Hg Hof].
    apply elem_of_goods in Hg as (k & i & r & Hk & ->). pose proof (cs_instances _ _ _ _ _ _ _ Hc _ _ _ Hk) as Hci.
    rewrite (old_step_key d k i r s1) in Ek by done. subst k.
    destruct (instance_at_home d now dep c i r Hc Hdep Hcin Hk) as (Hg & _ & _).
    rewrite (obsolete_calm d now dep _ i r), (wanted_by_own d now dep _ i r), Hg, bool_decide_eq_true_2 in Hob by done. done.
  - case_bool_decide as Hact; [|constructor].
    eapply (NoDup_omap _ (λ c, instance_key sha256 (generation_of dep) (pc_componentId c))).
    + intros c s Hcin Hs. apply elem_of_js_sort in Hcin. by eapply current_step_key.
    + rewrite (fmap_Permutation _ _ _ (js_sort_perm _ _)).
      assert (deployable domainToASCII sha256 supportedExecutors workers gates dep) as Hok by (by apply Hc).
      pose proof (dp_distinct _ _ _ _ _ _ Hok) as Hnd.
      assert (∀ l, l ⊆ ag_components (gates dep) → NoDup (map pc_componentId l) →
        NoDup (map (λ c, instance_key sha256 (generation_of dep) (pc_componentId c)) l)) as Hgen; [|by apply Hgen].
      induction l as [|c l IH]; intros Hsub Hl; [constructor|]. cbn in Hl |- *. apply NoDup_cons in Hl as [Hx Hl].
      apply NoDup_cons. split; [|apply IH; [set_solver|done]]. intros Hin. apply Hx.
      apply list_elem_of_fmap in Hin as (c' & E & Hin). apply list_elem_of_fmap. exists c'. split; [|done].
      apply instance_key_inj in E as [_ E]; [done|eapply dp_named; [done|set_solver]|eapply dp_named; [done|set_solver]].
Qed.

(** What a plan leaves out is done. *)
Lemma planned_old d now dep k i r :
  calm d now → dep ∈ du_deployments d → du_instances d !! k = Some (i, r) →
  of_deployment dep (instance_of (k, (i, r))) = true → wanted d i = false →
  i_lifecycle i = CpStopped ∨ ∃ s, s ∈ planned_steps d dep now ∧ step_key s = k.
Proof.
  intros Hc Hdep Hk Hof Hw. pose proof (cs_instances _ _ _ _ _ _ _ Hc _ _ _ Hk) as Hci.
  destruct (old_step (instance_of (k, (i, r)))) as [s|] eqn:Es.
  - right. exists s. split; [|by eapply old_step_key]. unfold planned_steps. apply elem_of_app. left.
    apply list_elem_of_omap. exists (instance_of (k, (i, r))). split; [|done]. apply elem_of_filterb. split.
    + apply (own_list_own d now dep Hc). split; [|done]. apply elem_of_goods. by exists k, i, r.
    + rewrite (obsolete_calm d now dep k i r) by done. by rewrite Hw.
  - left. unfold old_step, CalmSteps.next_effect in Es. cbn in Es.
    pose proof (cl_phase _ _ _ _ _ _ _ _ Hci) as Hp. unfold phase in Hp.
    by destruct (i_lifecycle i).
Qed.

Lemma planned_current d now dep c :
  calm d now → dep ∈ du_deployments d → d_state dep = Active → c ∈ ag_components (gates dep) →
  (∃ i r, du_instances d !! instance_key sha256 (generation_of dep) (pc_componentId c) = Some (i, r) ∧
     i_lifecycle i = CpReady) ∨
  ∃ s, s ∈ planned_steps d dep now ∧ step_key s = instance_key sha256 (generation_of dep) (pc_componentId c).
Proof.
  intros Hc Hdep Hact Hcin. destruct (current_step d dep c) as [s|] eqn:Es.
  - right. exists s. split; [|by eapply current_step_key]. unfold planned_steps. apply elem_of_app. right.
    rewrite bool_decide_eq_true_2 by done. apply list_elem_of_omap. exists c. split; [by apply elem_of_js_sort|done].
  - left. unfold current_step in Es.
    assert (deployable domainToASCII sha256 supportedExecutors workers gates dep) as Hok by (by apply Hc).
    destruct (is_ok_true _ (dp_placed _ _ _ _ _ _ Hok c Hact Hcin)) as [p Hp]. rewrite Hp in Es.
    destruct (du_instances d !! _) as [[i r]|] eqn:Ek; [|done]. exists i, r. split; [done|].
    destruct (instance_at_home d now dep c i r Hc Hdep Hcin Ek) as (_ & _ & _ & _ & Hl & _).
    unfold CalmSteps.next_effect in Es. destruct (i_lifecycle i); try done; exfalso; clear -Hl; set_solver.
Qed.
End plans.
