(* ===== verification/Convergence.v ===== *)
(** * The reconciler converges

    In a calm installation every pass of the reconciler that asks for another
    takes some of the work away, and a pass that does not leaves the
    installation converged: what is wanted runs, what is not has stopped. *)

From S2P Require Import Prelude JsString Collections JsValue Identity JsonText Time Permission Lifecycle Placement Retry Plan PlanProofs Reconciler ReconcilerLaws PlanSteps Calm CalmSteps CalmClaims CalmPlans ReconcilerTheorems.

Open Scope Z_scope.

#[export] Instance plugin_deployment_eq_dec : EqDecision PluginDeployment.
Proof. solve_decision. Defined.

Lemma existsb_eq {A} (f g : A → bool) l : (∀ x, f x = g x) → existsb f l = existsb g l.
Proof. intros H. induction l as [|x l IH]; [done|]. cbn. by rewrite H, IH. Qed.

Section convergence.
Context (domainToASCII : jstring → jstring) (sha256 : jstring → jstring)
  (supportedExecutors : list ExecutorKind) (workers : list PlacementWorker)
  (gates : PluginDeployment → ArtifactDeploymentGate)
  (prerequisites : Durable → PersistedProviderLoss → bool)
  (binding : ReconcileEffect → option json)
  (binding_data : ∀ e b, binding e = Some b → same_binding (Some b) (Some b) = true).
Abbreviation calm := (calm domainToASCII sha256 supportedExecutors workers gates).
Abbreviation calm_instance := (calm_instance domainToASCII sha256 supportedExecutors workers gates).
Abbreviation message_of := (message_of sha256).
Abbreviation work := (work sha256 gates).
Abbreviation apt := (apt domainToASCII sha256 supportedExecutors workers gates).
Abbreviation persisted := (persisted domainToASCII sha256 supportedExecutors workers gates).
Abbreviation planned_steps := (planned_steps domainToASCII sha256 supportedExecutors workers gates).

Definition moved (i : PersistedComponentInstance) : Prop := i_lifecycle i ∈ [CpDraining; CpStopping; CpStopped].

(** ** Persisting a plan *)
Lemma apt_frame d d1 now dep s k :
  calm d now → frame k d d1 → step_key s ≠ k → apt d dep s → apt d1 dep s.
Proof.
  intros Hc [Hdep Hf] Hne [c p Ha Hcin Hp Hnone -> | j i r kind Hi Hs Hn ->].
  - eapply apt_new; [done|done|done| |done]. by rewrite Hf.
  - eapply apt_old; [|done| |done].
    + rewrite Hf; [exact Hi|]. intros ->. apply Hne.
      symmetry. apply (cl_key _ _ _ _ _ _ _ _ (cs_instances _ _ _ _ _ _ _ Hc _ _ _ Hi)).
    + by rewrite (wanted_same d d1 i i).
Qed.

Record steps_persisted (d : Durable) (steps : list ReconcilePlanStep) (now : Z) (d' : Durable) : Prop := {
  sp_calm : calm d' now;
  sp_deployments : du_deployments d' = du_deployments d;
  sp_work : (work d' ≤ work d)%nat;
  sp_frame k : k ∉ map step_key steps → du_instances d' !! k = du_instances d !! k;
  sp_keeps id : pending (du_outbox d) id → pending (du_outbox d') id;
  sp_pending s : s ∈ steps → pending (du_outbox d') (e_messageId (s_effect s));
  sp_moved s i r : s ∈ steps → du_instances d' !! step_key s = Some (i, r) → wanted d' i = false → moved i;
}.

Lemma persist_steps_calm dep now steps : ∀ d,
  calm d now → dep ∈ du_deployments d → (∀ s, s ∈ steps → apt d dep s) → NoDup (map step_key steps) →
  ∃ d', persist_steps d dep steps now = Ok (d', false) ∧ steps_persisted d steps now d'.
Proof.
  induction steps as [|s steps IH]; intros d Hc Hdep Hapt Hnd; cbn [persist_steps].
  { exists d. split; [done|]. split; try done; intros; by (match goal with H : _ ∈ [] |- _ => apply elem_of_nil in H end). }
  cbn [map] in Hnd. apply NoDup_cons in Hnd as [Hs Hnd].
  destruct (persist_apt _ _ _ _ _ d now dep s Hc Hdep) as (d1 & E1 & [P1 P2 P3 P4 P5 P6]); [apply Hapt; by left|].
  destruct (IH d1) as (d2 & E2 & [S1 S2 S3 S4 S5 S6 S7]); [done|by rewrite (proj1 P3)| |done|].
  { intros s' Hs'. eapply (apt_frame d d1 now); [done|exact P3| |apply Hapt; by right].
    intros E. apply Hs. change (e_instanceId (s_effect s)) with (step_key s) in E. rewrite <- E.
    apply list_elem_of_fmap. by exists s'. }
  exists d2. split; [by rewrite E1, bind_ok_l, E2, bind_ok_l|]. split.
  - done.
  - by rewrite S2, (proj1 P3).
  - lia.
  - intros k Hk. cbn [map] in Hk. apply not_elem_of_cons in Hk as [Hk1 Hk2]. rewrite S4 by done. by apply P3.
  - intros id Hid. by apply S5, P5.
  - intros s' [->|Hs']%elem_of_cons; [by apply S5|by apply S6].
  - intros s' i r Hs' Hi Hw. apply elem_of_cons in Hs' as [->|Hs']; [|by eapply S7].
    rewrite S4 in Hi by done. eapply P6; [exact Hi|]. by rewrite <- (wanted_same d1 d2 i i).
Qed.

(** ** Planning the deployments *)

(** The keys of the instances of a deployment, of whatever generation. *)
Definition key_of (dep : PluginDeployment) (k : jstring) : Prop :=
  ∃ g c, named sha256 g c ∧ k = instance_key sha256 g c ∧
    gi_applicationId g = d_applicationId dep ∧ gi_pluginId g = d_pluginId dep.

Lemma key_of_same dep dep' k : key_of dep k → key_of dep' k → deploymentKey dep = deploymentKey dep'.
Proof.
  intros (g & c & Hn & -> & Ha & Hp) (g' & c' & Hn' & E & Ha' & Hp').
  apply instance_key_inj in E as [-> _]; [|done|done]. unfold deploymentKey. congruence.
Qed.

Lemma apt_key d now dep s : calm d now → dep ∈ du_deployments d → apt d dep s → key_of dep (step_key s).
Proof.
  intros Hc Hdep [c p Ha Hcin Hp Hnone -> | j i r kind Hi Hs Hn ->].
  - exists (generation_of dep), (pc_componentId c). split_and!; try done. eapply dp_named; [|done]. by apply Hc.
  - apply same_deployment_true in Hs as [Ea Ep]. exists (instance_generation i), (i_componentId i).
    split_and!; [|done|done|done]. eapply cl_named. by eapply cs_instances.
Qed.

Lemma instance_key_of d now dep k i r :
  calm d now → du_instances d !! k = Some (i, r) → same_deployment (i_applicationId i) (i_pluginId i) dep = true →
  key_of dep k.
Proof.
  intros Hc Hi [Ea Ep]%same_deployment_true. pose proof (cs_instances _ _ _ _ _ _ _ Hc _ _ _ Hi) as Hci.
  exists (instance_generation i), (i_componentId i). split_and!; [apply Hci|apply Hci|done|done].
Qed.

Record deployments_planned (d0 d : Durable) (deps : list PluginDeployment) (now : Z) (d' : Durable) : Prop := {
  pt_calm : calm d' now;
  pt_deployments : du_deployments d' = du_deployments d;
  pt_work : (work d' ≤ work d)%nat;
  pt_keeps id : pending (du_outbox d) id → pending (du_outbox d') id;
  pt_pending dep s : dep ∈ deps → s ∈ planned_steps d0 dep now → pending (du_outbox d') (e_messageId (s_effect s));
  pt_frame k : (∀ dep s, dep ∈ deps → s ∈ planned_steps d0 dep now → step_key s ≠ k) →
    du_instances d' !! k = du_instances d !! k;
  pt_moved dep k i r : dep ∈ deps → du_instances d' !! k = Some (i, r) →
    same_deployment (i_applicationId i) (i_pluginId i) dep = true → wanted d' i = false → moved i;
}.

Lemma plan_deployments_calm d0 now deps : ∀ d,
  calm d0 now → calm d now → du_deployments d = du_deployments d0 → NoDup (map deploymentKey deps) →
  deps ⊆ du_deployments d0 →
  (∀ k dep, dep ∈ deps → key_of dep k → du_instances d !! k = du_instances d0 !! k) →
  ∃ d', plan_deployments domainToASCII sha256 supportedExecutors workers prerequisites d0 d
      (open_gates gates (js_sort by_key (du_deployments d0))) (goods d0) [] deps now = Ok (d', false, []) ∧
    deployments_planned d0 d deps now d'.
Proof.
  induction deps as [|dep deps IH]; intros d Hc0 Hc Hd Hnd Hsub Hagree; cbn [plan_deployments].
  { exists d. split; [done|]. split; try done; intros; by (match goal with H : _ ∈ [] |- _ => apply elem_of_nil in H end). }
  cbn [map] in Hnd. apply NoDup_cons in Hnd as [Hnew Hnd].
  assert (dep ∈ du_deployments d0) as Hdep0 by set_solver.
  assert (dep ∈ du_deployments d) as Hdep by (by rewrite Hd).
  assert (∀ dep' k, dep' ∈ deps → key_of dep' k → ¬ key_of dep k) as Hdisj.
  { intros dep' k Hdep' Hk' Hk. apply Hnew. rewrite (key_of_same dep dep' k) by done. apply list_elem_of_fmap. by exists dep'. }
  cbn [existsb]. rewrite find_gate.
  2:{ rewrite (fmap_Permutation _ _ _ (js_sort_perm _ _)). apply (cs_installation _ _ _ _ _ _ _ Hc0). }
  2:{ by apply elem_of_js_sort. }
  rewrite planning_snapshot_calm by apply Hc0.
  destruct (planReconcile_calm domainToASCII sha256 supportedExecutors workers gates prerequisites d0 now dep Hc0 Hdep0) as [diags ->].
  rewrite bind_ok_l. cbn [rp_blocked rp_steps].
  destruct (persist_steps_calm dep now (planned_steps d0 dep now) d Hc Hdep) as (d1 & E1 & [S1 S2 S3 S4 S5 S6 S7]).
  { intros s Hs. pose proof (planned_steps_apt _ _ _ _ _ prerequisites d0 now dep s Hc0 Hdep0 Hs) as Hapt.
    pose proof (apt_key d0 now dep s Hc0 Hdep0 Hapt) as Hkey.
    destruct Hapt as [c p Ha Hcin Hp Hnone -> | j i r kind Hi Hsd Hn ->].
    - eapply apt_new; [done|done|done| |done]. rewrite (Hagree _ dep); [done|by left|exact Hkey].
    - eapply apt_old; [|done| |done].
      + rewrite (Hagree j dep); [exact Hi|by left|]. exact (instance_key_of d0 now dep j i r Hc0 Hi Hsd).
      + by rewrite (wanted_same d0 d i i). }
  { by apply planned_steps_distinct. }
  assert (∀ s, s ∈ planned_steps d0 dep now → key_of dep (step_key s)) as Hkeys.
  { intros s Hs. eapply (apt_key d0 now); [done|done|]. by eapply planned_steps_apt. }
  assert (∀ k, ¬ key_of dep k → du_instances d1 !! k = du_instances d !! k) as Hout.
  { intros k Hk. apply S4. intros Hin. apply list_elem_of_fmap in Hin as (s & -> & Hs). by apply Hk, Hkeys. }
  destruct (IH d1) as (d2 & E2 & [T1 T2 T3 T4 T5 T6 T7]); [done|done|by rewrite S2|done|set_solver| |].
  { intros k dep' Hdep' Hk. rewrite Hout by (by eapply Hdisj). apply (Hagree k dep'); [by right|done]. }
  exists d2. split; [by rewrite E1, bind_ok_l, E2, bind_ok_l|].
  assert (∀ k, key_of dep k → du_instances d2 !! k = du_instances d1 !! k) as Hkeep.
  { intros k Hk. apply T6. intros dep' s Hdep' Hs <-. apply (Hdisj dep' (step_key s)); [done| |done].
    eapply (apt_key d0 now); [done|set_solver|]. eapply planned_steps_apt; [exact prerequisites|done|set_solver|done]. }
  split.
  - done.
  - by rewrite T2.
  - lia.
  - intros id Hid. by apply T4, S5.
  - intros dep' s [->|Hdep']%elem_of_cons Hs; [by apply T4, S6|by eapply T5].
  - intros k Hk. rewrite T6 by (intros; eapply Hk; [by right|done]). apply S4.
    intros Hin. apply list_elem_of_fmap in Hin as (s & -> & Hs). by apply (Hk dep s); [left| |].
  - intros dep' k i r [->|Hdep']%elem_of_cons Hi Hsd Hw; [|by eapply T7].
    pose proof (instance_key_of d2 now dep k i r T1 Hi Hsd) as Hk. rewrite Hkeep in Hi by done.
    assert (wanted d1 i = false) as Hw1 by (by rewrite <- (wanted_same d1 d2 i i)).
    destruct (decide (k ∈ map step_key (planned_steps d0 dep now))) as [Hin|Hnin].
    + apply list_elem_of_fmap in Hin as (s & -> & Hs). by eapply (S7 s).
    + rewrite S4, (Hagree k dep) in Hi by (first [done|by left]).
      assert (wanted d0 i = false) as Hw0 by (by rewrite <- (wanted_same d0 d1 i i) by (done || by rewrite S2)).
      destruct (planned_old domainToASCII sha256 supportedExecutors workers gates prerequisites d0 now dep k i r) as [Hst|(s & Hs & <-)];
        [done|done|done| |done| |].
      * apply same_deployment_true in Hsd as [Ea Ep]. unfold of_deployment. cbn. rewrite Ea, Ep.
        by rewrite !(proj2 (streq_true _ _) eq_refl).
      * unfold moved. rewrite Hst. set_solver.
      * exfalso. apply Hnin. apply list_elem_of_fmap. by exists s.
Qed.

(** ** When there is nothing more to do *)
Context (isLive : ComponentInstance → bool) (installed : PluginDeployment → option (list PluginComponent))
  (live : ∀ x, i_lifecycle (ci_value x) = CpReady → isLive x = true)
  (is_installed : ∀ dep, installed dep = Some (ag_components (gates dep))).
Abbreviation converged := (converged sha256 gates).
Abbreviation deployment_ready := (deployment_ready isLive installed).

Lemma refreshed_calm d now dep : calm d now → refreshed_codes d (goods d) [] dep = [].
Proof.
  intros Hc. unfold refreshed_codes. rewrite (cs_losses _ _ _ _ _ _ _ Hc). cbn [existsb]. rewrite andb_false_r.
  assert (omap (λ i, i_diagnostic (ci_value i)) (List.filter (of_deployment dep) (goods d)) = []) as ->; [|done].
  assert (∀ x, x ∈ List.filter (of_deployment dep) (goods d) → i_diagnostic (ci_value x) = None) as H.
  { intros x [Hx _]%elem_of_filterb. apply elem_of_goods in Hx as (k & i & r & Hk & ->).
    apply (cl_diagnostic _ _ _ _ _ _ _ _ (cs_instances _ _ _ _ _ _ _ Hc _ _ _ Hk)). }
  induction (List.filter (of_deployment dep) (goods d)) as [|x l IH]; [done|]. cbn.
  rewrite (H x) by (by left). apply IH. intros; apply H; by right.
Qed.

Lemma more_work_calm d now :
  calm d now →
  more_work sha256 prerequisites isLive installed [] d [] now =
    Ok (existsb (λ x, needsImmediateReconcile (ci_value x) (toISOString now)) (goods d) ||
        existsb (λ dep, bool_decide (d_state dep = Active) && negb (deployment_ready d (goods d) dep)) (du_deployments d)).
Proof.
  intros Hc. unfold more_work. rewrite (loadInstances_calm _ _ _ _ _ d d now) by done. rewrite bind_ok_l.
  fold (entries d). rewrite (sort_instances_calm _ _ _ _ _ d now) by done. rewrite bind_ok_l. cbn [fst].
  f_equal. cbn [List.find negb andb].
  assert (∀ dep, existsb blocks (refreshed_codes d (goods d) [] dep) = false) as Hb
    by (intros dep; by rewrite (refreshed_calm d now)).
  assert (existsb (λ dep, existsb (startsWith (js "CAPABILITY_")) (refreshed_codes d (goods d) [] dep)) (du_deployments d) = false) as ->.
  { apply existsb_false_in. intros dep _. by rewrite (refreshed_calm d now). }
  rewrite orb_false_r. f_equal.
  - apply existsb_eq. intros x.
    assert (existsb (λ dep, of_deployment dep x && existsb blocks (refreshed_codes d (goods d) [] dep)) (du_deployments d) = false) as ->.
    { apply existsb_false_in. intros dep _. by rewrite Hb, andb_false_r. }
    done.
  - apply existsb_eq. intros dep. by rewrite Hb, andb_true_r.
Qed.

Lemma latest_in c l x : latest_of c l = Some x → x ∈ l ∧ i_componentId (ci_value x) = c.
Proof.
  unfold latest_of. intros H. assert (x ∈ js_sort (λ a b, compareActivations (ci_activation b) (ci_activation a))
    (List.filter (λ i, streq (i_componentId (ci_value i)) c) l)) as Hx by (destruct (js_sort _ _); [done|]; injection H as ->; by left).
  apply elem_of_js_sort, elem_of_filterb in Hx as [Hx Hc%streq_true]. done.
Qed.

Lemma missing_nil d :
  missing sha256 gates d = [] ↔
  ∀ dep c, dep ∈ du_deployments d → d_state dep = Active → c ∈ ag_components (gates dep) →
    is_Some (du_instances d !! instance_key sha256 (generation_of dep) (pc_componentId c)).
Proof.
  unfold missing. rewrite filterb_nil. split.
  - intros H dep c Hdep Hact Hcin.
    specialize (H (instance_key sha256 (generation_of dep) (pc_componentId c))).
    destruct (du_instances d !! _) as [v|] eqn:E; [by eexists|]. exfalso.
    assert (bool_decide (None = (None : option (PersistedComponentInstance * Z))) = false) as Hf; [|done].
    apply H. apply list_elem_of_In, in_flat_map. exists dep. rewrite <- !list_elem_of_In. split; [done|].
    rewrite bool_decide_eq_true_2 by done. apply list_elem_of_fmap. by exists c.
  - intros H k Hk. apply list_elem_of_In, in_flat_map in Hk as (dep & Hdep & Hk). apply list_elem_of_In in Hdep, Hk.
    case_bool_decide as Hact; [|by apply elem_of_nil in Hk]. apply list_elem_of_fmap in Hk as (c & -> & Hcin).
    destruct (H dep c Hdep Hact Hcin) as [v ->]. done.
Qed.

Lemma goods_of d now dep c i r :
  calm d now → dep ∈ du_deployments d → c ∈ ag_components (gates dep) →
  du_instances d !! instance_key sha256 (generation_of dep) (pc_componentId c) = Some (i, r) ↔
  ∃ k, instance_of (k, (i, r)) ∈ goods d ∧ of_deployment dep (instance_of (k, (i, r))) = true ∧
    i_deploymentGeneration i = d_generation dep ∧ i_componentId i = pc_componentId c.
Proof.
  intros Hc Hdep Hcin. split.
  - intros Hi. destruct (instance_at_home _ _ _ _ _ d now dep c i r Hc Hdep Hcin Hi) as (Hg & Hid & _).
    pose proof (f_equal gi_applicationId Hg) as Ea. pose proof (f_equal gi_pluginId Hg) as Ep.
    pose proof (f_equal gi_generation Hg) as Eg. cbn in Ea, Ep, Eg. eexists. split_and!; [|..]; try done.
    + apply elem_of_goods. by eexists _, i, r.
    + unfold of_deployment. cbn. rewrite Ea, Ep. by rewrite !(proj2 (streq_true _ _) eq_refl).
  - intros (k & Hg & Hof & Hgen & Hid). apply elem_of_goods in Hg as (k' & i' & r' & Hk & [= <- <-]).
    pose proof (cs_instances _ _ _ _ _ _ _ Hc _ _ _ Hk) as Hci.
    unfold of_deployment in Hof. cbn in Hof. apply andb_true_iff in Hof as [Ea%streq_true Ep%streq_true].
    assert (k' = instance_key sha256 (generation_of dep) (pc_componentId c)) as <-; [|done].
    rewrite (cl_key _ _ _ _ _ _ _ _ Hci), Hid. f_equal. unfold instance_generation, generation_of. congruence.
Qed.

(** A deployment is ready exactly when its components are there and ready. *)
Lemma ready_calm d now dep :
  calm d now → dep ∈ du_deployments d → d_state dep = Active →
  deployment_ready d (goods d) dep = true ↔
  ∀ c, c ∈ ag_components (gates dep) →
    ∃ i r, du_instances d !! instance_key sha256 (generation_of dep) (pc_componentId c) = Some (i, r) ∧ i_lifecycle i = CpReady.
Proof.
  intros Hc Hdep Hact. unfold Reconciler.deployment_ready. rewrite (bool_decide_eq_true_2 _ Hact), is_installed, (cs_losses _ _ _ _ _ _ _ Hc).
  set (all := List.filter (of_deployment dep) (goods d)).
  assert (forallb (λ i, bool_decide (i_diagnostic (ci_value i) = None)) all = true) as ->.
  { apply forallb_forall_in. intros x [Hx _]%elem_of_filterb. apply elem_of_goods in Hx as (k & i & r & Hk & ->).
    apply bool_decide_eq_true. apply (cl_diagnostic _ _ _ _ _ _ _ _ (cs_instances _ _ _ _ _ _ _ Hc _ _ _ Hk)). }
  cbn [existsb negb andb]. set (own := List.filter _ all).
  assert (∀ x c, c ∈ ag_components (gates dep) → x ∈ own → i_componentId (ci_value x) = pc_componentId c →
    ∃ i r, x = instance_of (instance_key sha256 (generation_of dep) (pc_componentId c), (i, r)) ∧
      du_instances d !! instance_key sha256 (generation_of dep) (pc_componentId c) = Some (i, r)) as Hown.
  { intros x c Hcin [[Hx Hof]%elem_of_filterb Hgen%streq_true]%elem_of_filterb Hid.
    pose proof Hx as Hx'. apply elem_of_goods in Hx' as (k & i & r & Hk & ->).
    exists i, r. split; [done|]. apply (goods_of d now); [done|done|done|]. by exists k. }
  rewrite forallb_forall_in. split; intros H c Hcin; specialize (H c Hcin).
  - destruct (latest_of (pc_componentId c) own) as [x|] eqn:Ex; [|done]. apply latest_in in Ex as [Hx Hid].
    destruct (Hown x c Hcin Hx Hid) as (i & r & -> & Hi). exists i, r. split; [done|].
    unfold isReadyAndLive in H. apply andb_true_iff in H as [H _]. by apply bool_decide_eq_true in H.
  - destruct H as (i & r & Hi & Hr). pose proof Hi as Hi'. apply (goods_of d now) in Hi' as (k & Hg & Hof & Hgen & Hid); [|done..].
    assert (instance_of (k, (i, r)) ∈ own) as Hin.
    { apply elem_of_filterb. split; [by apply elem_of_filterb|]. cbn. by apply streq_true. }
    destruct (latest_of (pc_componentId c) own) as [x|] eqn:Ex.
    + apply latest_in in Ex as [Hx Hxid]. destruct (Hown x c Hcin Hx Hxid) as (i' & r' & -> & Hi').
      rewrite Hi in Hi'. injection Hi' as <- <-. unfold isReadyAndLive.
      rewrite live by done. cbn. by rewrite bool_decide_eq_true_2.
    + exfalso. unfold latest_of in Ex. set (l := js_sort _ _) in Ex.
      assert (instance_of (k, (i, r)) ∈ l) as Hl.
      { unfold l. apply elem_of_js_sort, elem_of_filterb. split; [done|]. by apply streq_true. }
      destruct l; [by apply elem_of_nil in Hl|done].
Qed.

(** Nothing waits, everything unwanted is on its way out: converged. *)
Lemma settled_converged d now :
  calm d now → (∀ k i r, du_instances d !! k = Some (i, r) → wanted d i = false → moved i) →
  existsb (λ x, needsImmediateReconcile (ci_value x) (toISOString now)) (goods d) ||
  existsb (λ dep, bool_decide (d_state dep = Active) && negb (deployment_ready d (goods d) dep)) (du_deployments d) = false →
  converged d.
Proof.
  intros Hc Hmoved [Hneed Hready]%orb_false_iff. rewrite existsb_false_in in Hneed. rewrite existsb_false_in in Hready. split.
  - intros k i r Hi. pose proof (cs_instances _ _ _ _ _ _ _ Hc _ _ _ Hi) as Hci.
    specialize (Hneed (instance_of (k, (i, r)))). cbn [instance_of ci_value fst snd] in Hneed.
    assert (needsImmediateReconcile i (toISOString now) = false) as Hn by (apply Hneed, elem_of_goods; by exists k, i, r).
    unfold needsImmediateReconcile, restore_waits in Hn. rewrite (cl_diagnostic _ _ _ _ _ _ _ _ Hci) in Hn.
    rewrite bool_decide_eq_false_2 in Hn by done. cbn [andb] in Hn.
    destruct (wanted d i) eqn:Hw.
    + destruct (wanted_home _ _ _ _ _ _ _ _ _ _ Hc Hi Hw) as (dep & _ & _ & _ & _ & Hl & _).
      destruct (i_lifecycle i); try done; exfalso; clear -Hl; set_solver.
    + specialize (Hmoved k i r Hi Hw). unfold moved in Hmoved.
      destruct (i_lifecycle i); try done; exfalso; clear -Hmoved; set_solver.
  - apply missing_nil. intros dep c Hdep Hact Hcin. specialize (Hready dep Hdep).
    rewrite (bool_decide_eq_true_2 _ Hact) in Hready. cbn [andb] in Hready. apply negb_false_iff in Hready.
    destruct (proj1 (ready_calm d now dep Hc Hdep Hact) Hready c Hcin) as (i & r & -> & _). by eexists.
Qed.

(** No plan has a step: converged. *)
Lemma unplanned_converged d now :
  calm d now → (∀ dep s, dep ∈ du_deployments d → s ∉ planned_steps d dep now) → converged d.
Proof.
  intros Hc Hno. split.
  - intros k i r Hi. pose proof (cs_instances _ _ _ _ _ _ _ Hc _ _ _ Hi) as Hci.
    destruct (cl_deployed _ _ _ _ _ _ _ _ Hci) as (dep & Hdep & [Ea Ep]%same_deployment_true).
    assert (of_deployment dep (instance_of (k, (i, r))) = true) as Hof.
    { unfold of_deployment. cbn. rewrite Ea, Ep. by rewrite !(proj2 (streq_true _ _) eq_refl). }
    destruct (wanted d i) eqn:Hw.
    + rewrite (wanted_by_own _ _ _ _ _ d now dep k i r) in Hw by done. apply bool_decide_eq_true in Hw.
      destruct (cl_home _ _ _ _ _ _ _ _ Hci dep Hdep Hw) as (Hact & _ & _ & c & Hcin & Hid & _).
      destruct (planned_current domainToASCII sha256 supportedExecutors workers gates d now dep c Hc Hdep Hact Hcin)
        as [(i' & r' & Hi' & Hr)|(s & Hs & _)]; [|by apply Hno in Hs].
      rewrite Hid, <- Hw, <- (cl_key _ _ _ _ _ _ _ _ Hci), Hi in Hi'. by injection Hi' as <- <-.
    + destruct (planned_old domainToASCII sha256 supportedExecutors workers gates prerequisites d now dep k i r) as [?|(s & Hs & _)];
        try done. by apply Hno in Hs.
  - apply missing_nil. intros dep c Hdep Hact Hcin.
    destruct (planned_current domainToASCII sha256 supportedExecutors workers gates d now dep c Hc Hdep Hact Hcin)
      as [(i' & r' & -> & Hr)|(s & Hs & _)]; [by eexists|by apply Hno in Hs].
Qed.

(** ** Restoring the persisted sessions *)
Context (env : pass_environment) (quiet : calm_environment env).
Abbreviation restorePersistedComponents :=
  (restorePersistedComponents sha256 supportedExecutors workers prerequisites env).

(** Some unwanted instances are stopping that were not. *)
Record terminated (d d' : Durable) : Prop := {
  tm_deployments : du_deployments d' = du_deployments d;
  tm_instances k i r : du_instances d !! k = Some (i, r) →
    ∃ i' r', du_instances d' !! k = Some (i', r') ∧ (i' = i ∨ i_lifecycle i' = CpStopping);
}.
Lemma terminated_refl d : terminated d d.
Proof. split; [done|]. intros k i r Hk. exists i, r. by split; [|left]. Qed.

(** An unwanted instance that is ready or draining goes on to be stopped. *)
Lemma calm_stopping d now k i r d' :
  calm d now → du_instances d !! k = Some (i, r) → wanted d i = false → i_lifecycle i ∈ [CpReady; CpDraining] →
  d' = put_instance (appended d []) k (with_lifecycle CpStopping i) →
  calm d' now ∧ (work d' ≤ work d)%nat.
Proof.
  intros Hc Hi Hw Hl ->. pose proof (cs_instances _ _ _ _ _ _ _ Hc _ _ _ Hi) as Hci.
  set (i' := with_lifecycle CpStopping i). set (d' := put_instance _ _ _).
  assert (du_instances d' = <[k := (i', du_revision d + 1)]> (du_instances d)) as Hins by done.
  assert (du_outbox d' !! message_of i EffectStop = None ∧ done_ sha256 i EffectStop = false) as Habs.
  { pose proof (cl_phase _ _ _ _ _ _ _ _ Hci) as Hp. unfold phase in Hp.
    apply elem_of_cons in Hl as [Hl|Hl%list_elem_of_singleton]; rewrite Hl in Hp; tauto. }
  split.
  - eapply (calm_put domainToASCII sha256 supportedExecutors workers gates d d' now k i' (du_revision d + 1) EffectStop);
      [done|done|done|done| |done| |].
    + destruct Hci as [H1 H2 H3 H4 H5 H6 H7 H8 Hdp H9 H10]. split; try done; [|].
      * intros dep Hdep Hwd. exfalso. apply not_true_iff_false in Hw. apply Hw.
        apply existsb_exists_in. exists dep. split; [done|]. by apply bool_decide_eq_true.
      * rewrite (wanted_same d d' i i') by done. unfold phase. cbn [i' with_lifecycle i_lifecycle]. right. exact Habs.
    + intros m Hm. change (message_of i' EffectStop) with (message_of i EffectStop) in Hm. by rewrite (proj1 Habs) in Hm.
    + intros j r' kind' Hj _ _. rewrite Hi in Hj. by injection Hj as <- <-.
  - unfold Calm.work. rewrite (missing_old sha256 gates d d' k i r i' (du_revision d + 1)) by done. rewrite Hins.
    pose proof (map_total_old (λ e : PersistedComponentInstance * Z, rank sha256 (du_outbox d) e.1) (du_instances d) k
      (i, r) (i', du_revision d + 1) Hi) as Ht. cbn [fst] in Ht.
    change (du_outbox d') with (du_outbox d).
    assert (rank sha256 (du_outbox d) i' ≤ rank sha256 (du_outbox d) i)%nat; [|lia].
    unfold rank. cbn [i' with_lifecycle i_lifecycle]. change (Calm.message_of sha256 i' EffectStop) with (message_of i EffectStop).
    apply elem_of_cons in Hl as [Hl|Hl%list_elem_of_singleton]; rewrite Hl; case_bool_decide; lia.
Qed.

(** A termination that is restored. *)
Lemma restore_termination_calm d0 d now k i r f t :
  calm d now → terminated d0 d → du_instances d0 !! k = Some (i, r) → wanted d0 i = false →
  i_lifecycle i ∈ [CpReady; CpDraining; CpStopping] → i_diagnostic i = None → i_instanceId i = k →
  f (instance_of (k, (i, r))) = true →
  ∃ d', restore_termination sha256 f d (instance_of (k, (i, r))) t = Ok d' ∧
    calm d' now ∧ terminated d0 d' ∧ (work d' ≤ work d)%nat.
Proof.
  intros Hc [Hdep Hter] Hi Hw Hl Hdg Hid Hf. unfold restore_termination. rewrite Hf.
  unfold mark_termination_restored, clear_restoration_failure, unfailed. cbn [instance_of ci_value fst snd].
  rewrite Hdg, (bool_decide_eq_false_2 (None = Some LIFECYCLE_RESTORE_FAILED)), Hid by done. cbn [negb].
  case_bool_decide as Hst; [by exists d|].
  destruct (Hter k i r Hi) as (j & rj & Hj & Hij). rewrite Hj. case_bool_decide as Hst'; [by exists d|].
  destruct Hij as [-> | ?]; [|done].
  assert (i_lifecycle i ∈ [CpReady; CpDraining]) as Hl' by (clear -Hl Hst; set_solver).
  assert (stopping_instance i = Ok (with_lifecycle CpStopping i)) as ->.
  { unfold stopping_instance. apply elem_of_cons in Hl' as [E|E%list_elem_of_singleton]; by rewrite E. }
  rewrite bind_ok_l. eexists. split; [reflexivity|].
  destruct (calm_stopping d now k i rj (put_instance (appended d []) k (with_lifecycle CpStopping i)) Hc Hj) as [Hc' Hwk]; [by rewrite (wanted_same d0 d i i)|done|reflexivity|].
  split_and!; [done| |done]. split; [done|]. intros k' i' r' Hk'. destruct (decide (k = k')) as [<- | Hne].
  - eexists _, _. split; [apply lookup_insert_eq|]. by right.
  - destruct (Hter k' i' r' Hk') as (j' & rj' & Hj' & ?). exists j', rj'. split; [|done]. cbn. by rewrite lookup_insert_ne.
Qed.

(** What is restorable and no longer wanted has run. *)
Lemma restorable_unwanted d now k i r t :
  calm d now → du_instances d !! k = Some (i, r) → wanted d i = false →
  restorable supportedExecutors workers env d t (instance_of (k, (i, r))) = true →
  i_lifecycle i ∈ [CpReady; CpDraining; CpStopping].
Proof.
  intros Hc Hi Hw. unfold restorable. cbn [instance_of ci_value fst snd]. rewrite !andb_true_iff, orb_true_iff.
  intros [_ [Ha|Hh]].
  - exfalso. apply existsb_exists_in in Ha as (dep & Hdep & Ha). unfold active_of in Ha.
    rewrite !andb_true_iff, !bool_decide_eq_true, streq_true in Ha.
    destruct Ha as [[[Hact [Ea Ep]%same_deployment_true] Hg] Hdig].
    apply not_true_iff_false in Hw. apply Hw, existsb_exists_in. exists dep. split; [done|]. apply bool_decide_eq_true.
    unfold instance_generation, generation_of. congruence.
  - rewrite !andb_true_iff in Hh. destruct Hh as [[[_ Hh] _] _].
    pose proof (phase_not_failed _ _ _ _ (cl_phase _ _ _ _ _ _ _ _ (cs_instances _ _ _ _ _ _ _ Hc _ _ _ Hi))) as Hnf.
    pose proof (cl_phase _ _ _ _ _ _ _ _ (cs_instances _ _ _ _ _ _ _ Hc _ _ _ Hi)) as Hp. unfold phase in Hp.
    unfold historical_lifecycle, retries_termination in Hh. rewrite orb_true_iff, bool_decide_eq_true in Hh.
    destruct Hh as [Hh|Hh]; [|by rewrite (bool_decide_eq_false_2 (i_lifecycle i = CpFailed)) in Hh].
    destruct (i_lifecycle i); try done; clear -Hh; set_solver.
Qed.

(** A wanted instance is no instance of the past. *)
Lemma historical_unwanted d now k i r :
  calm d now → du_instances d !! k = Some (i, r) → requiresHistoricalTermination d i = true → wanted d i = false.
Proof.
  intros Hc Hi Hh. apply not_true_iff_false. intros Hw.
  destruct (wanted_home _ _ _ _ _ _ _ _ _ _ Hc Hi Hw) as (dep & Hdep & Hg & Hact & Hdig & _).
  unfold wants in Hg. pose proof (f_equal gi_applicationId Hg) as Ea. pose proof (f_equal gi_pluginId Hg) as Ep.
  pose proof (f_equal gi_generation Hg) as Eg. cbn in Ea, Ep, Eg. unfold requiresHistoricalTermination in Hh.
  rewrite Ea, Ep, (find_deployment dep) in Hh by (done || apply Hc).
  rewrite Hact, Hdig, Eg, (proj2 (streq_true _ _) eq_refl), (bool_decide_eq_true_2 (Some _ = Some _)) in Hh by done.
  rewrite (bool_decide_eq_false_2 (Active = Disabled)) in Hh by done. cbn in Hh. by rewrite andb_false_r in Hh.
Qed.

Lemma startingEffect_calm d k i r :
  calm_instance d k i → i_lifecycle i = CpStarting → ∃ e, startingEffect sha256 (instance_of (k, (i, r))) = Ok e.
Proof.
  intros Hi Hl. unfold startingEffect. cbn [instance_of ci_value fst snd]. destruct (cl_digest _ _ _ _ _ _ _ _ Hi) as [g ->].
  rewrite (bool_decide_eq_true_2 _ Hl). unfold instance_identities. cbn [instance_of ci_value ci_activation ci_legacyActivation fst snd].
  change (identities sha256 false ?a ?b ?c ?e) with (reconcileEffectIdentities sha256 a b c e).
  rewrite named_identities by apply Hi. rewrite bind_ok_l. by eexists.
Qed.

Lemma restore_instance_calm x d0 d now k i r t :
  pe_lifecycle env = Some x → calm d0 now → calm d now → terminated d0 d → du_instances d0 !! k = Some (i, r) →
  restorable supportedExecutors workers env d0 (toISOString t) (instance_of (k, (i, r))) = true →
  ∃ d', restore_instance sha256 prerequisites env x d0 d t (instance_of (k, (i, r))) = Ok (d', false) ∧
    calm d' now ∧ terminated d0 d' ∧ (work d' ≤ work d)%nat.
Proof.
  intros Hx Hc0 Hc Ht Hi Hres. pose proof (cs_instances _ _ _ _ _ _ _ Hc0 _ _ _ Hi) as Hci.
  pose proof (cl_diagnostic _ _ _ _ _ _ _ _ Hci) as Hdg.
  assert (∀ d, clear_restoration_failure sha256 d (instance_of (k, (i, r))) = Ok d) as Hclear.
  { intros d1. unfold clear_restoration_failure, unfailed. cbn [instance_of ci_value fst snd]. by rewrite Hdg. }
  assert (∀ b, b = true → restore_cleared sha256 d (instance_of (k, (i, r))) b t = Ok d) as Hcleared.
  { intros b ->. unfold restore_cleared. by rewrite Hclear. }
  unfold restore_instance. cbn [instance_of ci_value fst snd]. fold (instance_of (k, (i, r))).
  destruct (requiresHistoricalTermination d0 i) eqn:Eh.
  { destruct (cx_restoreTermination x) as [f|] eqn:Ef; [|by exists d].
    pose proof (historical_unwanted d0 now k i r Hc0 Hi Eh) as Hw.
    destruct (restore_termination_calm d0 d now k i r f t Hc Ht Hi Hw) as (d' & -> & Hd');
      [exact (restorable_unwanted d0 now k i r _ Hc0 Hi Hw Hres)|done|apply Hci|by eapply ce_termination|].
    rewrite bind_ok_l. by exists d'. }
  rewrite (cs_losses _ _ _ _ _ _ _ Hc0). cbn [List.find negb andb].
  destruct (_ && negb (pe_remoteEligible env d0 _)); [by exists d|].
  case_bool_decide as Hst.
  { destruct (cx_restoreStarting x) as [f|] eqn:Ef; [|by exists d].
    destruct (startingEffect_calm d0 k i r Hci Hst) as [e He]. change (startingEffect sha256 (instance_of (k, (i, r))) = Ok e) in He.
    rewrite He, Hcleared by (by eapply ce_starting). rewrite bind_ok_l. by exists d. }
  destruct (_ && cx_isLive x _); [rewrite Hclear, bind_ok_l; by exists d|].
  rewrite Hcleared by (by eapply ce_restore). rewrite bind_ok_l. by exists d.
Qed.

Lemma restore_instances_calm x d0 now t l :
  pe_lifecycle env = Some x → calm d0 now →
  (∀ i, i ∈ l → i ∈ goods d0 ∧ restorable supportedExecutors workers env d0 (toISOString t) i = true) →
  ∀ d, calm d now → terminated d0 d →
  ∃ d', restore_instances sha256 prerequisites env x d0 d t l = Ok (d', false) ∧
    calm d' now ∧ terminated d0 d' ∧ (work d' ≤ work d)%nat.
Proof.
  intros Hx Hc0. induction l as [|i l IH]; intros Hl d Hc Ht; cbn [restore_instances]; [by exists d|].
  destruct (Hl i) as [Hg Hr]; [by left|]. apply elem_of_goods in Hg as (k & v & r & Hk & ->).
  destruct (restore_instance_calm x d0 d now k v r t Hx Hc0 Hc Ht Hk Hr) as (d1 & -> & Hc1 & Ht1 & Hw1).
  rewrite bind_ok_l. destruct (IH ltac:(intros j Hj; apply Hl; by right) d1 Hc1 Ht1) as (d2 & -> & Hc2 & Ht2 & Hw2).
  rewrite bind_ok_l. exists d2. split_and!; [done|done|done|lia].
Qed.

Lemma consistent_calm d now :
  calm d now → consistent_instances sha256 (map loaded_of (entries d)) (du_deployments d) = Ok (goods d).
Proof.
  intros Hc. unfold goods. assert (∀ e, e ∈ entries d → calm_instance d e.1 e.2.1) as H.
  { intros [k [i r]] He%elem_of_entries. by eapply cs_instances. }
  revert H. generalize (entries d). intros l. induction l as [|e l IH]; intros H; [done|].
  cbn [map consistent_instances]. destruct e as [k [i r]].
  rewrite (canonical_calm _ _ _ _ _ d) by (first [done|exact (H (k, (i, r)) ltac:(by left))]). rewrite bind_ok_l.
  rewrite IH by (intros; apply H; by right). done.
Qed.

Lemma restore_calm d now :
  calm d now →
  ∃ d', restorePersistedComponents d (map loaded_of (entries d)) now = Ok (d', false) ∧
    calm d' now ∧ du_deployments d' = du_deployments d ∧ (work d' ≤ work d)%nat.
Proof.
  intros Hc. unfold Reconciler.restorePersistedComponents. destruct (pe_lifecycle env) as [x|] eqn:Hx; [|by exists d].
  rewrite (consistent_calm d now Hc), bind_ok_l.
  edestruct (restore_instances_calm x d now now) as (d' & E & Hc' & Ht & Hw);
    [done|exact Hc| |exact Hc|apply terminated_refl|exists d'; split_and!; [exact E|done|apply Ht|done]].
  intros i Hi. apply elem_of_js_sort in Hi. by apply elem_of_filterb in Hi.
Qed.

(** ** A pass *)
Abbreviation reconcilePass := (reconcilePass domainToASCII sha256 supportedExecutors workers (calm_gate gates)
  prerequisites env isLive installed (performs binding)).
Abbreviation reconcileUntilQuiescent := (reconcileUntilQuiescent domainToASCII sha256 supportedExecutors workers
  (calm_gate gates) prerequisites env isLive installed (performs binding)).
Abbreviation settled := (settled domainToASCII sha256 supportedExecutors workers gates).

(** The planning part of a pass. *)
Lemma plan_pass d now :
  calm d now →
  ∃ d', (let lexical := js_sort by_key (du_deployments d) in
         plan_deployments domainToASCII sha256 supportedExecutors workers prerequisites d d (open_gates gates lexical)
           (goods d) [] (js_sort (compare_ranked (order_ranks (open_gates gates lexical))) lexical) now)
        = Ok (d', false, []) ∧
    calm d' now ∧ du_deployments d' = du_deployments d ∧ (work d' ≤ work d)%nat ∧
    (∀ k i r, du_instances d' !! k = Some (i, r) → wanted d' i = false → moved i) ∧
    ((∀ id, ¬ pending (du_outbox d') id) → converged d').
Proof.
  intros Hc. cbv zeta. set (deps := js_sort (compare_ranked _) _).
  assert (deps ≡ₚ du_deployments d) as Hperm by (unfold deps; by rewrite !js_sort_perm).
  assert (∀ dep, dep ∈ deps ↔ dep ∈ du_deployments d) as Hin by (intros dep; by rewrite Hperm).
  destruct (plan_deployments_calm d now deps d Hc Hc eq_refl) as (d' & E & [T1 T2 T3 T4 T5 T6 T7]); [| |done|].
  { rewrite (fmap_Permutation deploymentKey _ _ Hperm). apply (cs_installation _ _ _ _ _ _ _ Hc). }
  { intros dep. apply Hin. }
  exists d'. split; [exact E|]. split_and!; [done|done|done| |].
  - intros k i r Hi Hw. destruct (cl_deployed _ _ _ _ _ _ _ _ (cs_instances _ _ _ _ _ _ _ T1 _ _ _ Hi)) as (dep & Hdep & Hsd).
    rewrite T2, <- Hin in Hdep. by eapply T7.
  - intros Hno. assert (∀ dep s, dep ∈ deps → s ∉ planned_steps d dep now) as Hnone.
    { intros dep s Hdep Hs. by eapply Hno, T5. }
    assert (converged d) as [Hconv Hmiss].
    { apply (unplanned_converged d now Hc). intros dep s Hdep. by apply Hnone, Hin. }
    assert (∀ k, du_instances d' !! k = du_instances d !! k) as Hsame.
    { intros k. apply T6. intros dep s Hdep Hs. by apply Hnone in Hs. }
    split.
    + intros k i r Hi. rewrite Hsame in Hi. rewrite (wanted_same d d' i i) by done. by eapply Hconv.
    + apply missing_nil. intros dep c Hdep Hact Hcin. rewrite Hsame. rewrite T2 in Hdep.
      rewrite missing_nil in Hmiss. by apply Hmiss.
Qed.

(** What is on its way out stays so when a claim is settled. *)
Lemma settled_moved d d' now :
  settled d d' now → (∀ k i r, du_instances d !! k = Some (i, r) → wanted d i = false → moved i) →
  ∀ k i r, du_instances d' !! k = Some (i, r) → wanted d' i = false → moved i.
Proof.
  intros Hs Hm k i r Hi Hw. destruct (st_quiet _ _ _ _ _ _ _ _ Hs k i r Hi) as (j & r' & Hj & Hwj & Hq).
  rewrite Hwj in Hw. apply Hq; [done|]. by eapply Hm.
Qed.

(** The rest of a pass, after its first claim. *)
Lemma rest_of_pass d1 now (existing : option OutboxClaim) (worked : bool) :
  calm d1 now →
  ∃ d2 again,
    (loaded ← loadInstances d1;
     sorted ← sort_instances sha256 loaded (du_deployments d1);
     let good := sorted.1 in
     let bad := sorted.2 in
     let lexical := js_sort by_key (du_deployments d1) in
     match collect_gates (calm_gate gates) d1 bad lexical with
     | None => Ok (d1, PassPending true)
     | Some gs =>
         match pe_losses env d1 gs with
         | inr w => d2 ← commit_losses d1 w now; Ok (d2, PassPending true)
         | inl exhausted =>
             '(d2, replan2, blocked) ←
               plan_deployments domainToASCII sha256 supportedExecutors workers prerequisites d1 d1 gs good bad
                 (js_sort (compare_ranked (order_ranks gs)) lexical) now;
             let '(d3, claim) := match existing with Some _ => (d2, None) | None => claimNext d2 now end in
             '(d4, replan4, outcome4) ←
               match claim with
               | Some claim => executeClaim domainToASCII sha256 supportedExecutors workers (calm_gate gates) prerequisites
                                 (performs binding) d3 claim now
               | None => Ok (d3, false, OutcomeSettled)
               end;
             match outcome4 with
             | OutcomeConflict => Ok (d4, PassPending true)
             | OutcomeInterrupted _ => Ok (d4, PassStopped)
             | _ =>
                 more ← more_work sha256 prerequisites isLive installed (du_losses d1) d4 (merge_blocked exhausted blocked) now;
                 Ok (d4, PassPending ((match existing, claim with None, None => false | _, _ => true end || false || worked ||
                   replan2 || replan4) && more))
             end
         end
     end) = Ok (d2, PassPending again) ∧
    calm d2 now ∧ du_deployments d2 = du_deployments d1 ∧ (work d2 ≤ work d1)%nat ∧
    (again = false → converged d2) ∧ (again = true → existing = None → worked = false → (S (work d2) ≤ work d1)%nat).
Proof.
  intros Hc. rewrite (loadInstances_calm _ _ _ _ _ d1 d1 now) by done. rewrite bind_ok_l. fold (entries d1).
  rewrite (sort_instances_calm _ _ _ _ _ d1 now) by done. rewrite bind_ok_l. cbv zeta. cbn [fst snd].
  rewrite collect_gates_calm, (ce_losses _ quiet), (cs_losses _ _ _ _ _ _ _ Hc).
  destruct (plan_pass d1 now Hc) as (d2 & E2 & Hc2 & Hd2 & Hw2 & Hm2 & Hno2). cbv zeta in E2. rewrite E2, bind_ok_l.
  cbv beta iota zeta. change (merge_blocked [] []) with ([] : list (PluginDeployment * list jstring)).
  destruct existing as [c|].
  - rewrite bind_ok_l. cbv beta iota. rewrite (more_work_calm d2 now Hc2), bind_ok_l.
    eexists d2, _. split; [reflexivity|]. split_and!; try done. cbn [orb andb].
    intros Hf. by apply (settled_converged d2 now).
  - destruct (claimNext_calm _ _ _ _ _ d2 now Hc2) as [[-> Hnone]|(id & m & Hm & Hs & ->)].
    + rewrite bind_ok_l. cbv beta iota. rewrite (more_work_calm d2 now Hc2), bind_ok_l.
      eexists d2, _. split; [reflexivity|]. split_and!; try done; [intros _; by apply Hno2|]. by intros Ha _ ->.
    + destruct (execute_calm _ _ _ _ _ prerequisites binding binding_data d2 now id m Hc2 Hm Hs) as (d4 & replan & o & -> & Ho & Hset).
      rewrite bind_ok_l. cbv beta iota.
      pose proof (st_calm _ _ _ _ _ _ _ _ Hset) as Hc4. pose proof (st_deployments _ _ _ _ _ _ _ _ Hset) as Hd4.
      pose proof (st_work _ _ _ _ _ _ _ _ Hset) as Hw4. pose proof (settled_moved _ _ _ Hset Hm2) as Hm4.
      destruct Ho as [-> | [e ->]]; rewrite (more_work_calm d4 now Hc4), bind_ok_l;
        (eexists d4, _; split; [reflexivity|]; split_and!; [done|congruence|lia| |intros; lia]);
        cbn [orb andb]; intros Hf; by apply (settled_converged d4 now).
Qed.

Lemma with_losses_same d l : du_losses d = l → with_losses d l = d.
Proof. intros <-. by destruct d. Qed.

Lemma pass_calm d now :
  calm d now →
  ∃ d' again, reconcilePass d now = Ok (d', PassPending again) ∧ calm d' now ∧ du_deployments d' = du_deployments d ∧
    (again = true → (S (work d') ≤ work d)%nat) ∧ (again = false → converged d').
Proof.
  intros Hc. unfold Reconciler.reconcilePass. rewrite (loadInstances_calm _ _ _ _ _ d d now) by done. rewrite bind_ok_l.
  fold (entries d). rewrite (ce_cleanup _ quiet). cbn [negb].
  destruct (restore_calm d now Hc) as (dr & -> & Hcr & Hdr & Hwr). rewrite bind_ok_l. cbv beta iota.
  rewrite (loadInstances_calm _ _ _ _ _ dr dr now) by done. rewrite bind_ok_l.
  destruct (claimNext_calm _ _ _ _ _ dr now Hcr) as [[-> _]|(id & m & Hm & Hs & ->)].
  - rewrite bind_ok_l. cbv beta iota zeta. cbn [andb].
    rewrite (with_losses_same dr) by (rewrite (cs_losses _ _ _ _ _ _ _ Hc); apply Hcr).
    destruct (rest_of_pass dr now None false Hcr) as (d' & again & E & Hc' & Hd' & Hw & Hconv & Hdec).
    exists d', again. split; [exact E|]. split_and!; [done|congruence| |done].
    intros Ha. specialize (Hdec Ha eq_refl eq_refl). lia.
  - destruct (execute_calm _ _ _ _ _ prerequisites binding binding_data dr now id m Hcr Hm Hs) as (d1 & replan & o & -> & Ho & Hset).
    rewrite bind_ok_l. cbv beta iota zeta. cbn [andb]. rewrite (ce_cleanup _ quiet). cbn [negb].
    pose proof (st_calm _ _ _ _ _ _ _ _ Hset) as Hc1.
    pose proof (st_deployments _ _ _ _ _ _ _ _ Hset) as Hd1. pose proof (st_work _ _ _ _ _ _ _ _ Hset) as Hw1.
    destruct (rest_of_pass d1 now (Some (claim_of m now)) replan Hc1) as (d' & again & E & Hc' & Hd' & Hw & Hconv & _).
    destruct Ho as [-> | [e ->]]; (exists d', again; split; [exact E|]; split_and!; [done|congruence|intros; lia|done]).
Qed.

Lemma quiescent_calm budget now : ∀ d,
  calm d now → (work d < budget)%nat →
  ∃ d', reconcileUntilQuiescent budget d now = Ok d' ∧ calm d' now ∧ du_deployments d' = du_deployments d ∧ converged d'.
Proof.
  induction budget as [|budget IH]; intros d Hc Hw; [lia|]. cbn [Reconciler.reconcileUntilQuiescent].
  destruct (pass_calm d now Hc) as (d1 & again & -> & Hc1 & Hd1 & Hdec & Hconv). rewrite bind_ok_l. cbv beta iota.
  destruct again.
  - destruct (IH d1) as (d' & E & Hc' & Hd' & Hconv'); [done|specialize (Hdec eq_refl); lia|].
    exists d'. split_and!; [exact E|done|congruence|done].
  - exists d1. split_and!; [done|done|done|by apply Hconv].
Qed.

(** Whatever the budget, a run leaves the installation calm. *)
Lemma quiescent_keeps_calm budget now : ∀ d d',
  calm d now → reconcileUntilQuiescent budget d now = Ok d' → calm d' now ∧ du_deployments d' = du_deployments d.
Proof.
  induction budget as [|budget IH]; intros d d' Hc; cbn [Reconciler.reconcileUntilQuiescent]; [done|].
  destruct (pass_calm d now Hc) as (d1 & again & -> & Hc1 & Hd1 & _). rewrite bind_ok_l. cbv beta iota.
  destruct again; [|by intros [= <-]]. intros E. destruct (IH d1 d' Hc1 E). split; [done|congruence].
Qed.

(** ** The states a calm installation goes through *)
Definition with_deployments (d : Durable) (deps : list PluginDeployment) : Durable :=
  {| du_deployments := deps; du_instances := du_instances d; du_losses := du_losses d; du_outbox := du_outbox d;
     du_operations := du_operations d; du_sequence := du_sequence d; du_revision := du_revision d |}.

(** Deployments are added, and replaced by new generations; none is forgotten. *)
Record upgrade (d : Durable) (deps : list PluginDeployment) : Prop := {
  up_installation : installation domainToASCII sha256 supportedExecutors workers gates deps;
  up_kept dep : dep ∈ du_deployments d →
    ∃ dep', dep' ∈ deps ∧ d_applicationId dep' = d_applicationId dep ∧ d_pluginId dep' = d_pluginId dep;
  up_fresh dep k i r : dep ∈ deps → dep ∉ du_deployments d → du_instances d !! k = Some (i, r) →
    instance_generation i ≠ generation_of dep;
}.

(** From nothing, by upgrades and by runs of the reconciler, as time goes by. *)
Inductive reachable : Durable → Z → Prop :=
| reachable_start now : reachable empty_durable now
| reachable_upgrade d now deps : reachable d now → upgrade d deps → reachable (with_deployments d deps) now
| reachable_reconcile d t now budget d' :
    reachable d t → t ≤ now → reconcileUntilQuiescent budget d now = Ok d' → reachable d' now.

Lemma calm_later d t now : calm d t → t ≤ now → calm d now.
Proof.
  intros [H1 H2 H3 H4] Ht. split; [done..|]. intros id m Hm. destruct (H4 id m Hm). split; try done. lia.
Qed.

Lemma phase_unwanted w box i : phase sha256 w box i → phase sha256 false box i.
Proof. unfold phase. destruct (i_lifecycle i); naive_solver. Qed.

Lemma calm_upgrade d now deps : calm d now → upgrade d deps → calm (with_deployments d deps) now.
Proof.
  intros [H1 H2 H3 H4] [Hin Hkept Hfresh]. split; [done|done| |].
  - intros k i r Hi. pose proof (H3 k i r Hi) as [I1 I2 I3 I4 I5 I6 I7 I8 Hdp I9 I10]. split; try done.
    + destruct Hdp as (dep & Hdep & [Ea Ep]%same_deployment_true). destruct (Hkept dep Hdep) as (dep' & Hdep' & Ea' & Ep').
      exists dep'. split; [done|]. apply same_deployment_true. split; congruence.
    + intros dep Hdep Hw. destruct (decide (dep ∈ du_deployments d)) as [Hold|Hnew]; [by apply I9|].
      exfalso. by eapply Hfresh.
    + destruct (wanted (with_deployments d deps) i) eqn:Hw.
      * assert (wanted d i = true) as Hwd; [|by rewrite Hwd in I10].
        unfold wanted in Hw |- *. apply existsb_exists_in in Hw as (dep & Hdep & Hw). apply existsb_exists_in.
        destruct (decide (dep ∈ du_deployments d)) as [Hold|Hnew]; [by exists dep|].
        apply bool_decide_eq_true in Hw. exfalso. by eapply Hfresh.
      * by eapply phase_unwanted.
  - intros id m Hm. by destruct (H4 id m Hm).
Qed.

Lemma reachable_calm d now : reachable d now → calm d now.
Proof.
  induction 1 as [now|d now deps _ IH Hup|d t now budget d' _ IH Ht E].
  - split; [done| |done|done]. split; [constructor|]. intros dep Hdep. by apply elem_of_nil in Hdep.
  - by apply calm_upgrade.
  - eapply (quiescent_keeps_calm budget now d); [by eapply calm_later|done].
Qed.

(** C1. In a calm installation the reconciler converges: after any history of
    installations, upgrades to new generations and earlier runs, a run whose
    budget of passes exceeds the work left ends, with every component of every
    active deployment running and ready at its generation, every instance of an
    older generation stopped, and every active deployment reported ready. Calm is an
    installation whose gates are open and whose effects, restored sessions and
    terminations do not fail, with no lost provider and no stale binding in the way, as
    for a reconciler that is given its deployments; the passes are whole ones, which
    restore the persisted sessions and end those of older generations first, whichever
    of them live and whichever restorations the executor supports. *)
Theorem reconciler_converges (d : Durable) (t now : Z) (budget : nat) :
  reachable d t → t ≤ now → (work d < budget)%nat →
  ∃ d', reconcileUntilQuiescent budget d now = Ok d' ∧ du_deployments d' = du_deployments d ∧
    (∀ k i r, du_instances d' !! k = Some (i, r) → i_lifecycle i = if wanted d' i then CpReady else CpStopped) ∧
    (∀ dep c, dep ∈ du_deployments d → d_state dep = Active → c ∈ ag_components (gates dep) →
       ∃ i r, du_instances d' !! instance_key sha256 (generation_of dep) (pc_componentId c) = Some (i, r) ∧
         instance_generation i = generation_of dep ∧ i_componentId i = pc_componentId c ∧ i_lifecycle i = CpReady) ∧
    ∀ loaded sorted dep, loadInstances d' = Ok loaded → sort_instances sha256 loaded (du_deployments d') = Ok sorted →
      dep ∈ du_deployments d → d_state dep = Active → deployment_ready d' sorted.1 dep = true.
Proof.
  intros Hr Ht Hw. assert (calm d now) as Hc by (eapply calm_later; [by eapply reachable_calm|done]).
  destruct (quiescent_calm budget now d Hc Hw) as (d' & E & Hc' & Hd' & Hconv & Hmiss).
  assert (∀ dep c, dep ∈ du_deployments d → d_state dep = Active → c ∈ ag_components (gates dep) →
    ∃ i r, du_instances d' !! instance_key sha256 (generation_of dep) (pc_componentId c) = Some (i, r) ∧
      instance_generation i = generation_of dep ∧ i_componentId i = pc_componentId c ∧ i_lifecycle i = CpReady) as Hrun.
  { intros dep c Hdep Hact Hcin. rewrite missing_nil in Hmiss. rewrite <- Hd' in Hdep.
    destruct (Hmiss dep c Hdep Hact Hcin) as [[i r] Hi]. exists i, r.
    destruct (instance_at_home _ _ _ _ _ d' now dep c i r Hc' Hdep Hcin Hi) as (Hg & Hid & _).
    split_and!; [done..|]. rewrite (Hconv _ _ _ Hi).
    assert (wanted d' i = true) as ->; [|done]. unfold wanted. apply existsb_exists_in. exists dep. split; [done|].
    by apply bool_decide_eq_true. }
  exists d'. split_and!; [done|done|done|done|]. intros loaded sorted dep Hl Hs Hdep Hact.
  rewrite (loadInstances_calm _ _ _ _ _ d' d' now Hc' eq_refl) in Hl. injection Hl as <-. fold (entries d') in Hs.
  rewrite (sort_instances_calm _ _ _ _ _ d' now Hc') in Hs. injection Hs as <-. cbn [fst].
  apply (ready_calm d' now dep Hc'); [by rewrite Hd'|done|]. intros c Hcin.
  destruct (Hrun dep c Hdep Hact Hcin) as (i & r & Hi & _ & _ & Hl). by exists i, r.
Qed.
End convergence.

(** ** The concrete installation converges *)
Definition sample_gates (_ : PluginDeployment) : ArtifactDeploymentGate := Sample.open_gate.
(** Preparing opens a session, which can be ended when its generation is replaced. *)
Definition sample_binding (_ : ReconcileEffect) : option json := Some (JStr (js "session")).
Definition sample_run (budget : nat) (d : Durable) (now : Z) : result exn Durable :=
  reconcileUntilQuiescent Sample.domainToASCII sample_sha256 [Process] [] (calm_gate sample_gates) Sample.prerequisites
    Sample.env Sample.isLive Sample.installed (performs sample_binding) budget d now.
Definition installed_first : Durable := with_deployments empty_durable [Sample.deployment (js "1") Active].
Definition running_first : Durable :=
  match sample_run 40 installed_first 1000000 with Ok d => d | Err _ => empty_durable end.
Definition upgraded_second : Durable := with_deployments running_first [Sample.deployment (js "2") Active].

(** A pass on the upgraded installation first ends the sessions of generation 1. *)
Example upgrade_terminates :
  match loadInstances upgraded_second with
  | Ok loaded =>
      match restorePersistedComponents sample_sha256 [Process] [] Sample.prerequisites Sample.env upgraded_second loaded
              2000000 with
      | Ok (d, _) => Sample.lifecycles upgraded_second = [CpReady; CpReady] ∧ Sample.lifecycles d = [CpStopping; CpStopping]
      | Err _ => False
      end
  | Err _ => False
  end.
Proof. vm_compute. split; reflexivity. Qed.

Lemma sample_quiet : calm_environment Sample.env.
Proof. split; [done|done|by intros x i [= <-]|by intros x f e [= <-]|by intros x f i [= <-] [= <-]]. Qed.

Lemma sample_named g c :
  g ∈ [js "1"; js "2"] → c ∈ Sample.components →
  named sample_sha256 (generation_of (Sample.deployment g Active)) (pc_componentId c).
Proof.
  intros Hg Hc. unfold Sample.components in Hc.
  repeat (apply elem_of_cons in Hg as [->|Hg]; [
    repeat (apply elem_of_cons in Hc as [->|Hc]; [
      split; [intros []; vm_compute; reflexivity|apply Nat.leb_le; vm_compute; reflexivity
        |intros []; apply Nat.leb_le; vm_compute; reflexivity]|]); by apply elem_of_nil in Hc|]).
  by apply elem_of_nil in Hg.
Qed.

Lemma sample_installation g :
  g ∈ [js "1"; js "2"] →
  installation Sample.domainToASCII sample_sha256 [Process] [] sample_gates [Sample.deployment g Active].
Proof.
  intros Hg. split; [apply NoDup_singleton|]. intros dep ->%list_elem_of_singleton. split; try done.
  - cbn. apply NoDup_cons. split; [|apply NoDup_singleton]. intros H%list_elem_of_singleton. vm_compute in H. discriminate.
  - intros c _ Hc. unfold sample_gates, Sample.open_gate, Sample.components in Hc. cbn in Hc.
    repeat (apply elem_of_cons in Hc as [->|Hc]; [vm_compute; reflexivity|]). by apply elem_of_nil in Hc.
  - intros c Hc. by apply sample_named.
Qed.

Lemma running_first_run : sample_run 40 installed_first 1000000 = Ok running_first.
Proof.
  assert (is_ok (sample_run 40 installed_first 1000000) = true) as [d E]%is_ok_true by (vm_compute; reflexivity).
  unfold running_first. by rewrite E.
Qed.
Lemma running_first_generations :
  map (λ e : jstring * (PersistedComponentInstance * Z), i_deploymentGeneration e.2.1) (map_to_list (du_instances running_first))
  = [js "1"; js "1"].
Proof. vm_compute. reflexivity. Qed.

Lemma upgraded_second_reachable :
  reachable Sample.domainToASCII sample_sha256 [Process] [] sample_gates Sample.prerequisites sample_binding
    Sample.isLive Sample.installed Sample.env upgraded_second 1000000.
Proof.
  apply reachable_upgrade.
  - apply (reachable_reconcile _ _ _ _ _ _ _ _ _ _ installed_first 0 1000000 40); [|lia|exact running_first_run].
    apply reachable_upgrade; [apply reachable_start|]. split; [apply sample_installation; by left| |].
    + intros dep H. by apply elem_of_nil in H.
    + intros dep k i r _ _ H. cbn in H. by rewrite lookup_empty in H.
  - split; [apply sample_installation; by right; left| |].
    + intros dep Hdep. exists (Sample.deployment (js "2") Active). split; [by left|].
      assert (du_deployments running_first = [Sample.deployment (js "1") Active]) as E by (vm_compute; reflexivity).
      rewrite E in Hdep. clear E. apply list_elem_of_singleton in Hdep. subst dep. by split.
    + intros dep k i r ->%list_elem_of_singleton _ Hi Hg. pose proof running_first_generations as E.
      assert (i_deploymentGeneration i ∈ [js "1"; js "1"]) as Hin.
      { rewrite <- E. apply list_elem_of_fmap. exists (k, (i, r)). split; [done|]. by apply elem_of_map_to_list. }
      pose proof (f_equal gi_generation Hg) as Eg. cbn in Eg. rewrite Eg in Hin.
      repeat (apply elem_of_cons in Hin as [Hin|Hin]; [vm_compute in Hin; discriminate|]). by apply elem_of_nil in Hin.
Qed.

Lemma reconciler_converges_witness :
  (work sample_sha256 sample_gates upgraded_second < 40)%nat ∧
  ∃ d', sample_run 40 upgraded_second 2000000 = Ok d' ∧
    ∀ c, c ∈ Sample.components → ∃ i r,
      du_instances d' !! instance_key sample_sha256 (generation_of (Sample.deployment (js "2") Active)) (pc_componentId c)
        = Some (i, r) ∧ i_lifecycle i = CpReady.
Proof.
  assert (work sample_sha256 sample_gates upgraded_second < 40)%nat as Hw by (apply Nat.ltb_lt; vm_compute; reflexivity).
  split; [exact Hw|].
  destruct (reconciler_converges Sample.domainToASCII sample_sha256 [Process] [] sample_gates Sample.prerequisites
    sample_binding ltac:(intros e b [= <-]; reflexivity) Sample.isLive Sample.installed ltac:(intros x _; reflexivity)
    ltac:(intros dep; reflexivity) Sample.env sample_quiet upgraded_second 1000000 2000000 40 upgraded_second_reachable ltac:(lia) Hw)
    as (d' & E & Hd & _ & Hready & _).
  exists d'. split; [exact E|]. intros c Hc.
  destruct (Hready (Sample.deployment (js "2") Active) c) as (i & r & Hi & _ & _ & Hl); [by left|reflexivity|exact Hc|].
  exists i, r. split; [exact Hi|exact Hl].
Defined.
