(* ===== verification/ComponentRegistry.v ===== *)
(** * The component registry

    runtime/src/components/component-registry.ts: the bindings of the components of
    one process, the state each is in and how far its stop has come. Each operation
    returns the registry it leaves and what it returns or throws. *)

From S2P Require Import Prelude JsString Collections JsValue Identity JsonText Placement Plan Task Reconciler.

Open Scope Z_scope.

(** ** Data *)
(** Components, manifests and execution bindings are JSON data. *)
Definition member (j : json) (k : jstring) : option json := match j with JObj fields => JsMap.get fields k | _ => None end.
Definition text_member (j : json) (k : jstring) : option jstring := match member j k with Some (JStr s) => Some s | _ => None end.
Definition has_componentId (id : jstring) (component : json) : bool := bool_decide (text_member component (js "componentId") = Some id).
Definition includes_executor (component : json) (e : ExecutorKind) : bool :=
  match member component (js "executors") with
  | Some (JArr kinds) => existsb (λ k, match k with JStr s => streq s (executor_text e) | _ => false end) kinds
  | _ => false
  end.

Record PreparedArtifact := { pa_digest : jstring; pa_pluginId : jstring; pa_components : list json }.
Record ComponentBindingPreparation := {
  cp_instanceId : jstring;
  cp_activation : Activation;
  cp_executor : ExecutorKind;
  cp_workerId : option jstring;
  cp_artifact : PreparedArtifact;
  cp_deployment : PluginDeployment;
  cp_component : json;
  cp_authority : option RuntimeAuthority;
}.
Record ComponentBinding := { cb_preparation :> ComponentBindingPreparation; cb_executionBinding : json }.
Inductive ComponentBindingState := Prepared | BindingActive | Draining | Stopping.
#[export] Instance binding_state_eq : EqDecision ComponentBindingState.
Proof. solve_decision. Defined.
Record RegisteredComponent := {
  rc_binding : ComponentBinding;
  rc_state : ComponentBindingState;
  rc_acceptingTasks : bool;
  rc_hostStopped : bool;
  rc_artifactReleased : bool;
}.
Abbreviation ComponentRegistry := (jsmap jstring RegisteredComponent).

Definition LIFECYCLE_INSTANCE_MISSING : exn := DiagnosticError "LIFECYCLE_INSTANCE_MISSING".
Definition LIFECYCLE_INSTANCE_IDENTITY_MISMATCH : exn := DiagnosticError "LIFECYCLE_INSTANCE_IDENTITY_MISMATCH".
Definition LIFECYCLE_COMPONENT_IDENTITY_MISMATCH : exn := DiagnosticError "LIFECYCLE_COMPONENT_IDENTITY_MISMATCH".
Definition LIFECYCLE_TRANSITION_INVALID : exn := DiagnosticError "LIFECYCLE_TRANSITION_INVALID".
Definition LIFECYCLE_STOP_INCOMPLETE : exn := DiagnosticError "LIFECYCLE_STOP_INCOMPLETE".

Definition sameAuthority (left right : option RuntimeAuthority) : bool := bool_decide (left = right).

Section registry.
Context (number_text : jsnum → jstring).

(** ** Identity *)
(** The texts of two components. *)
Definition same_component (a b : json) : bool := streq (stringify number_text a) (stringify number_text b).
Definition matchesIdentity (effect : ReconcileEffect) (entry : RegisteredComponent) : result exn bool :=
  let binding := rc_binding entry in
  effectActivation ← parseActivation (VStr (e_activation effect));
  bindingActivation ← parseActivation (VStr (cp_activation binding));
  Ok (streq (cp_instanceId binding) (e_instanceId effect) &&
      streq bindingActivation effectActivation &&
      streq (pa_digest (cp_artifact binding)) (e_artifactDigest effect) &&
      streq (d_applicationId (cp_deployment binding)) (e_applicationId effect) &&
      streq (d_pluginId (cp_deployment binding)) (e_pluginId effect) &&
      streq (d_generation (cp_deployment binding)) (e_deploymentGeneration effect) &&
      bool_decide (cp_executor binding = e_executor effect) &&
      bool_decide (cp_workerId binding = e_workerId effect) &&
      has_componentId (e_componentId effect) (cp_component binding) &&
      match e_executionBinding effect with
      | None => true
      | Some x =>
          bool_decide (text_member (cb_executionBinding binding) (js "fingerprint") = text_member x (js "fingerprint")) &&
          deep_equal (cb_executionBinding binding) x
      end).
Definition matches (effect : ReconcileEffect) (entry : RegisteredComponent) (authority : option RuntimeAuthority) : result exn bool :=
  identity ← matchesIdentity effect entry;
  Ok (identity && sameAuthority (cp_authority (rc_binding entry)) authority).
Definition assertMatches (effect : ReconcileEffect) (entry : RegisteredComponent) (authority : option RuntimeAuthority) : result exn unit :=
  same ← matches effect entry authority;
  throw_if (negb same) LIFECYCLE_INSTANCE_IDENTITY_MISMATCH.
Definition assertBinding (effect : ReconcileEffect) (binding : ComponentBinding) (authority : option RuntimeAuthority) : result exn unit :=
  let manifestComponent := List.find (has_componentId (e_componentId effect)) (pa_components (cp_artifact binding)) in
  throw_if
    (negb (streq (cp_instanceId binding) (e_instanceId effect)) ||
     negb (streq (cp_activation binding) (e_activation effect)) ||
     negb (bool_decide (cp_executor binding = e_executor effect)) ||
     negb (bool_decide (cp_workerId binding = e_workerId effect)) ||
     negb (streq (pa_digest (cp_artifact binding)) (e_artifactDigest effect)) ||
     negb (streq (d_applicationId (cp_deployment binding)) (e_applicationId effect)) ||
     negb (streq (d_pluginId (cp_deployment binding)) (e_pluginId effect)) ||
     negb (streq (d_generation (cp_deployment binding)) (e_deploymentGeneration effect)) ||
     negb (streq (d_artifactDigest (cp_deployment binding)) (e_artifactDigest effect)) ||
     negb (has_componentId (e_componentId effect) (cp_component binding)) ||
     match manifestComponent with
     | None => true
     | Some c =>
         negb (bool_decide (text_member c (js "entrypoint") = text_member (cp_component binding) (js "entrypoint"))) ||
         negb (same_component c (cp_component binding))
     end ||
     negb (includes_executor (cp_component binding) (e_executor effect)) ||
     negb (sameAuthority (cp_authority binding) authority))
    LIFECYCLE_COMPONENT_IDENTITY_MISMATCH.

(** ** Operations *)
Definition entries (r : ComponentRegistry) : list RegisteredComponent := JsMap.values r.
Definition require (instanceId : jstring) (r : ComponentRegistry) : result exn RegisteredComponent :=
  match JsMap.get r instanceId with Some entry => Ok entry | None => Err LIFECYCLE_INSTANCE_MISSING end.
(** The registry with an entry for the instance of the effect. *)
Definition put (effect : ReconcileEffect) (entry : RegisteredComponent) (r : ComponentRegistry) : ComponentRegistry :=
  JsMap.set r (e_instanceId effect) entry.

Definition with_authority (a : option RuntimeAuthority) (b : ComponentBinding) : ComponentBinding := {|
  cb_preparation := {| cp_instanceId := cp_instanceId b; cp_activation := cp_activation b; cp_executor := cp_executor b; cp_workerId := cp_workerId b;
    cp_artifact := cp_artifact b; cp_deployment := cp_deployment b; cp_component := cp_component b; cp_authority := a |};
  cb_executionBinding := cb_executionBinding b |}.
(** The copies the registry keeps are frozen. *)
Definition fresh_entry (binding : ComponentBinding) (authority : option RuntimeAuthority) : RegisteredComponent := {|
  rc_binding := with_authority authority binding; rc_state := Prepared; rc_acceptingTasks := false; rc_hostStopped := false; rc_artifactReleased := false |}.
Definition register (effect : ReconcileEffect) (binding : ComponentBinding) (authority : option RuntimeAuthority) (r : ComponentRegistry)
  : result exn (RegisteredComponent * ComponentRegistry) :=
  parseActivation (VStr (e_activation effect));;
  parseActivation (VStr (cp_activation binding));;
  assertBinding effect binding authority;;
  match JsMap.get r (e_instanceId effect) with
  | Some existing =>
      assertMatches effect existing authority;;
      throw_if
        (negb (bool_decide (text_member (cp_component (rc_binding existing)) (js "componentId") = text_member (cp_component binding) (js "componentId"))) ||
         negb (bool_decide (text_member (cp_component (rc_binding existing)) (js "entrypoint") = text_member (cp_component binding) (js "entrypoint"))) ||
         negb (same_component (cp_component (rc_binding existing)) (cp_component binding)))
        LIFECYCLE_COMPONENT_IDENTITY_MISMATCH;;
      Ok (existing, r)
  | None => let entry := fresh_entry binding authority in Ok (entry, put effect entry r)
  end.

Definition with_state (next : ComponentBindingState) (e : RegisteredComponent) : RegisteredComponent := {|
  rc_binding := rc_binding e; rc_state := next; rc_acceptingTasks := bool_decide (next = BindingActive);
  rc_hostStopped := rc_hostStopped e; rc_artifactReleased := rc_artifactReleased e |}.
Definition transition (effect : ReconcileEffect) (current next : ComponentBindingState) (authority : option RuntimeAuthority) (r : ComponentRegistry)
  : result exn (RegisteredComponent * ComponentRegistry) :=
  entry ← require (e_instanceId effect) r;
  assertMatches effect entry authority;;
  throw_if (negb (bool_decide (rc_state entry = current))) LIFECYCLE_TRANSITION_INVALID;;
  Ok (with_state next entry, put effect (with_state next entry) r).

Definition remove (effect : ReconcileEffect) (authority : option RuntimeAuthority) (r : ComponentRegistry)
  : result exn (RegisteredComponent * ComponentRegistry) :=
  entry ← require (e_instanceId effect) r;
  assertMatches effect entry authority;;
  throw_if (bool_decide (rc_state entry = Stopping) && (negb (rc_hostStopped entry) || negb (rc_artifactReleased entry))) LIFECYCLE_STOP_INCOMPLETE;;
  Ok (entry, JsMap.delete r (e_instanceId effect)).

Definition with_progress (hostStopped artifactReleased : bool) (e : RegisteredComponent) : RegisteredComponent := {|
  rc_binding := rc_binding e; rc_state := rc_state e; rc_acceptingTasks := rc_acceptingTasks e;
  rc_hostStopped := rc_hostStopped e || hostStopped; rc_artifactReleased := rc_artifactReleased e || artifactReleased |}.
Definition updateStopProgress (effect : ReconcileEffect) (hostStopped artifactReleased : bool) (authority : option RuntimeAuthority) (r : ComponentRegistry)
  : result exn (RegisteredComponent * ComponentRegistry) :=
  entry ← require (e_instanceId effect) r;
  assertMatches effect entry authority;;
  throw_if (negb (bool_decide (rc_state entry = Stopping))) LIFECYCLE_TRANSITION_INVALID;;
  let updated := with_progress hostStopped artifactReleased entry in
  Ok (updated, put effect updated r).

Definition takes_over (authority current : option RuntimeAuthority) : bool :=
  match current, authority with
  | Some c, Some a => streq (au_resource c) (au_resource a) && (decimal_value (au_epoch c) <? decimal_value (au_epoch a))
  | _, _ => false
  end.
Definition with_owner (authority : option RuntimeAuthority) (e : RegisteredComponent) : RegisteredComponent := {|
  rc_binding := with_authority authority (rc_binding e); rc_state := rc_state e; rc_acceptingTasks := rc_acceptingTasks e;
  rc_hostStopped := rc_hostStopped e; rc_artifactReleased := rc_artifactReleased e |}.
Definition takeoverStopping (effect : ReconcileEffect) (authority : option RuntimeAuthority) (r : ComponentRegistry)
  : result exn (RegisteredComponent * ComponentRegistry) :=
  entry ← require (e_instanceId effect) r;
  throw_if (negb (bool_decide (rc_state entry = Stopping))) LIFECYCLE_TRANSITION_INVALID;;
  identity ← matchesIdentity effect entry;
  throw_if (negb identity) LIFECYCLE_INSTANCE_IDENTITY_MISMATCH;;
  throw_if (negb (takes_over authority (cp_authority (rc_binding entry)))) LIFECYCLE_INSTANCE_IDENTITY_MISMATCH;;
  Ok (with_owner authority entry, put effect (with_owner authority entry) r).
End registry.
