(* ===== verification/ComponentEffects.v ===== *)
(** * Component effects

    runtime/src/components/component-effects.ts: the effects of the reconciler on the
    components of a process, their restoration and the end of an authority. Every
    async method is a program of Async.v whose effects are its awaits and the
    synchronous blocks between them, so calls interleave wherever the code awaits.
    The host, the deployments and the artifacts answer as they like; the cache counts
    the references to an artifact (runtime/src/artifacts/prepared-artifact-cache.ts). *)

From S2P Require Import Prelude JsString Collections JsValue Identity JsonText Lifecycle Placement Plan Task Reconciler ComponentRegistry Async.

Open Scope Z_scope.

(** ** State *)
Record OperationFingerprint := { of_fingerprint : jstring; of_instanceId : jstring }.
Record CachedOperation := {
  co_fingerprint : jstring;
  co_result : nat;                                 (** its promise *)
  co_instanceId : jstring;
  co_authority : option RuntimeAuthority;
  co_succeeded : bool;
}.
Record InFlightRestoration := { fr_effect : ReconcileEffect; fr_fingerprint : jstring; fr_result : nat }.
Definition MAX_STOPPED_OPERATIONS : nat := 256.
Definition MAX_FAILED_OPERATIONS : nat := 256.

(** The calls of the component host. *)
Inductive Checkpoint := CheckpointDraining | CheckpointStopping.
Inductive HostCall :=
| CallPrepare (preparation : ComponentBindingPreparation) (persisted : option json)
| CallStart (binding : ComponentBinding)
| CallDrain (binding : ComponentBinding)
| CallRestoreTermination (binding : ComponentBinding) (checkpoint : Checkpoint)
| CallStop (binding : ComponentBinding).

(** [w_authority] is what the callback [authority] returns, [w_promises] what the
    promises of the calls have come to. *)
Record World := {
  w_registry : ComponentRegistry;
  w_operations : jsmap jstring CachedOperation;
  w_fingerprints : jsmap jstring OperationFingerprint;
  w_stopped : list jstring;
  w_failed : list jstring;
  w_restorations : jsmap jstring InFlightRestoration;
  w_closing : list jstring;
  w_closeAttempts : jsmap jstring nat;
  w_authority : option RuntimeAuthority;
  w_references : gmap jstring nat;
  w_promises : list (option (result exn (option json)));
  w_calls : list HostCall;
}.
Definition createWorld : World := {|
  w_registry := []; w_operations := []; w_fingerprints := []; w_stopped := []; w_failed := []; w_restorations := []; w_closing := [];
  w_closeAttempts := []; w_authority := None; w_references := ∅; w_promises := []; w_calls := [] |}.

Definition with_registry (r : ComponentRegistry) (w : World) : World := {|
  w_registry := r; w_operations := w_operations w; w_fingerprints := w_fingerprints w; w_stopped := w_stopped w; w_failed := w_failed w;
  w_restorations := w_restorations w; w_closing := w_closing w; w_closeAttempts := w_closeAttempts w; w_authority := w_authority w;
  w_references := w_references w; w_promises := w_promises w; w_calls := w_calls w |}.
Definition with_caches (ops : jsmap jstring CachedOperation) (fps : jsmap jstring OperationFingerprint) (stopped failed : list jstring) (w : World) : World := {|
  w_registry := w_registry w; w_operations := ops; w_fingerprints := fps; w_stopped := stopped; w_failed := failed;
  w_restorations := w_restorations w; w_closing := w_closing w; w_closeAttempts := w_closeAttempts w; w_authority := w_authority w;
  w_references := w_references w; w_promises := w_promises w; w_calls := w_calls w |}.
Definition with_restorations (rs : jsmap jstring InFlightRestoration) (w : World) : World := {|
  w_registry := w_registry w; w_operations := w_operations w; w_fingerprints := w_fingerprints w; w_stopped := w_stopped w; w_failed := w_failed w;
  w_restorations := rs; w_closing := w_closing w; w_closeAttempts := w_closeAttempts w; w_authority := w_authority w;
  w_references := w_references w; w_promises := w_promises w; w_calls := w_calls w |}.
Definition with_closing (closing : list jstring) (attempts : jsmap jstring nat) (w : World) : World := {|
  w_registry := w_registry w; w_operations := w_operations w; w_fingerprints := w_fingerprints w; w_stopped := w_stopped w; w_failed := w_failed w;
  w_restorations := w_restorations w; w_closing := closing; w_closeAttempts := attempts; w_authority := w_authority w;
  w_references := w_references w; w_promises := w_promises w; w_calls := w_calls w |}.
Definition with_current (a : option RuntimeAuthority) (w : World) : World := {|
  w_registry := w_registry w; w_operations := w_operations w; w_fingerprints := w_fingerprints w; w_stopped := w_stopped w; w_failed := w_failed w;
  w_restorations := w_restorations w; w_closing := w_closing w; w_closeAttempts := w_closeAttempts w; w_authority := a;
  w_references := w_references w; w_promises := w_promises w; w_calls := w_calls w |}.
Definition with_references (rs : gmap jstring nat) (w : World) : World := {|
  w_registry := w_registry w; w_operations := w_operations w; w_fingerprints := w_fingerprints w; w_stopped := w_stopped w; w_failed := w_failed w;
  w_restorations := w_restorations w; w_closing := w_closing w; w_closeAttempts := w_closeAttempts w; w_authority := w_authority w;
  w_references := rs; w_promises := w_promises w; w_calls := w_calls w |}.
Definition with_promises (ps : list (option (result exn (option json)))) (w : World) : World := {|
  w_registry := w_registry w; w_operations := w_operations w; w_fingerprints := w_fingerprints w; w_stopped := w_stopped w; w_failed := w_failed w;
  w_restorations := w_restorations w; w_closing := w_closing w; w_closeAttempts := w_closeAttempts w; w_authority := w_authority w;
  w_references := w_references w; w_promises := ps; w_calls := w_calls w |}.
(** The host is called. *)
Definition call (c : HostCall) (w : World) : World := {|
  w_registry := w_registry w; w_operations := w_operations w; w_fingerprints := w_fingerprints w; w_stopped := w_stopped w; w_failed := w_failed w;
  w_restorations := w_restorations w; w_closing := w_closing w; w_closeAttempts := w_closeAttempts w; w_authority := w_authority w;
  w_references := w_references w; w_promises := w_promises w; w_calls := w_calls w ++ [c] |}.

(** ** Effects of the programs *)
Record ValidatedComponentDeployment := { vd_deployment : PluginDeployment; vd_artifact : PreparedArtifact }.
Inductive eff : Type → Type :=
| Sync {B} (f : World → B * World) : eff B         (** a block without await *)
| Tick : eff unit                                  (** an await of what is settled already *)
| AwaitHost : eff (result exn unit)                (** the answer of the host *)
| AwaitBinding : eff (result exn json)             (** the answer of [prepare] of the host *)
| AwaitDeployment : eff (result exn (option ValidatedComponentDeployment))
| AwaitArtifact (digest : jstring) : eff (result exn PreparedArtifact)
| AwaitAll (ps : list nat) : eff unit.
Abbreviation task A := (prog eff exn A).
(** A block that throws before it changes anything, or does its work. *)
Definition block {B} (f : World → result exn (B * World)) : task B :=
  attempt (Sync (λ w, match f w with Ok (b, w') => (Ok b, w') | Err e => (Err e, w) end)).

Definition LIFECYCLE_AUTHORITY_LOST : exn := DiagnosticError "LIFECYCLE_AUTHORITY_LOST".
Definition LIFECYCLE_COMPONENT_HOST_UNAVAILABLE : exn := DiagnosticError "LIFECYCLE_COMPONENT_HOST_UNAVAILABLE".
Definition LIFECYCLE_OPERATION_CONFLICT : exn := DiagnosticError "LIFECYCLE_OPERATION_CONFLICT".
Definition LIFECYCLE_RESTORE_CONFLICT : exn := DiagnosticError "LIFECYCLE_RESTORE_CONFLICT".
Definition LIFECYCLE_EXECUTOR_UNSUPPORTED : exn := DiagnosticError "LIFECYCLE_EXECUTOR_UNSUPPORTED".
Definition LIFECYCLE_DEPLOYMENT_IDENTITY_MISMATCH : exn := DiagnosticError "LIFECYCLE_DEPLOYMENT_IDENTITY_MISMATCH".
Definition LIFECYCLE_ARTIFACT_IDENTITY_MISMATCH : exn := DiagnosticError "LIFECYCLE_ARTIFACT_IDENTITY_MISMATCH".
Definition LIFECYCLE_PREPARE_ROLLBACK_FAILED : exn := DiagnosticError "LIFECYCLE_PREPARE_ROLLBACK_FAILED".
Definition LIFECYCLE_STOP_FAILED : exn := DiagnosticError "LIFECYCLE_STOP_FAILED".
Definition LIFECYCLE_AUTHORITY_CLEANUP_FAILED : exn := DiagnosticError "LIFECYCLE_AUTHORITY_CLEANUP_FAILED".
Definition LIFECYCLE_CLOSE_FAILED : exn := DiagnosticError "LIFECYCLE_CLOSE_FAILED".
Definition ARTIFACT_REFERENCE_INVALID : exn := DiagnosticError "ARTIFACT_REFERENCE_INVALID".

Definition lifecycle_text (l : ComponentLifecycleState) : jstring :=
  match l with
  | CpCreated => js "created" | CpPreparing => js "preparing" | CpStarting => js "starting" | CpReady => js "ready"
  | CpDegraded => js "degraded" | CpDraining => js "draining" | CpStopping => js "stopping" | CpStopped => js "stopped" | CpFailed => js "failed"
  end.
Definition references (digest : jstring) (w : World) : nat := default 0%nat (w_references w !! digest).
(** [release] of the artifact cache. *)
Definition releaseArtifact (digest : jstring) (w : World) : result exn unit * World :=
  match references digest w with
  | O => (Err ARTIFACT_REFERENCE_INVALID, w)
  | S n => (Ok tt, with_references (<[digest := n]> (w_references w)) w)
  end.
Definition authorityMatches (expected : option RuntimeAuthority) (w : World) : bool := bool_decide (w_authority w = expected).
Definition assertCurrentAuthority (expected : option RuntimeAuthority) (w : World) : result exn unit :=
  throw_if (negb (authorityMatches expected w)) LIFECYCLE_AUTHORITY_LOST.
Definition restorationAuthorityPrefix (authority : option RuntimeAuthority) : jstring :=
  match authority with
  | Some a => au_resource a ++ [0%N] ++ au_epoch a ++ [0%N]
  | None => [0%N; 0%N]
  end.
Definition restorationKey (instanceId : jstring) (authority : option RuntimeAuthority) : jstring :=
  restorationAuthorityPrefix authority ++ instanceId.

(** ** The caches of operations *)
Fixpoint expire (n : nat) (queue : list jstring) (ops : jsmap jstring CachedOperation) (fps : jsmap jstring OperationFingerprint)
  : list jstring * jsmap jstring CachedOperation * jsmap jstring OperationFingerprint :=
  match n, queue with
  | S n, expired :: queue => expire n queue (JsMap.delete ops expired) (JsMap.delete fps expired)
  | _, _ => (queue, ops, fps)
  end.
Definition forgetInstanceOperations (instanceId retained : jstring) (w : World) : World :=
  let of_instance id instance := streq instance instanceId && negb (streq id retained) in
  let gone := List.filter (λ o, of_instance o.1 (co_instanceId o.2)) (w_operations w) in
  let ops := List.filter (λ o, negb (of_instance o.1 (co_instanceId o.2))) (w_operations w) in
  let fps := List.filter (λ f, negb (includes (JsMap.keys gone) f.1)) (w_fingerprints w) in
  let fps := List.filter (λ f, negb (of_instance f.1 (of_instanceId f.2))) fps in
  let stopped := w_stopped w ++ [retained] in
  let '(stopped, ops, fps) := expire (length stopped - MAX_STOPPED_OPERATIONS) stopped ops fps in
  with_caches ops fps stopped (w_failed w) w.
Fixpoint expire_failed (n : nat) (queue : list jstring) (ops : jsmap jstring CachedOperation) (fps : jsmap jstring OperationFingerprint)
  : list jstring * jsmap jstring OperationFingerprint :=
  match n, queue with
  | S n, expired :: queue => expire_failed n queue ops (if JsMap.has ops expired then fps else JsMap.delete fps expired)
  | _, _ => (queue, fps)
  end.
Definition retainFailedOperation (operationId : jstring) (w : World) : World :=
  let failed := w_failed w ++ [operationId] in
  let '(failed, fps) := expire_failed (length failed - MAX_FAILED_OPERATIONS) failed (w_operations w) (w_fingerprints w) in
  with_caches (w_operations w) fps (w_stopped w) failed w.
Fixpoint remove_first (id : jstring) (l : list jstring) : list jstring :=
  match l with [] => [] | x :: l => if streq x id then l else x :: remove_first id l end.
Definition removeFailedOperation (operationId : jstring) (w : World) : World :=
  with_caches (w_operations w) (w_fingerprints w) (w_stopped w) (remove_first operationId (w_failed w)) w.

Section effects.
Context (number_text : jsnum → jstring) (sha256 : jstring → jstring).
Context (supportedExecutors : list ExecutorKind) (restores : bool).   (** the host has [restoreTermination] *)

Definition effectFingerprint (effect : ReconcileEffect) : jstring :=
  stringify number_text (JArr
    [JStr (kind_text (e_kind effect)); JStr (e_instanceId effect); JStr (e_applicationId effect); JStr (e_pluginId effect); JStr (e_componentId effect);
     JStr (e_deploymentGeneration effect); JStr (e_activation effect); JStr (e_artifactDigest effect); JStr (executor_text (e_executor effect));
     match e_workerId effect with Some x => JStr x | None => JNull end;
     match e_executionBinding effect with Some x => x | None => JNull end;
     JStr (e_messageId effect)]).
Definition restorationFingerprint (instance : ComponentInstance) (effect : ReconcileEffect) : jstring :=
  stringify number_text (JArr [JStr (effectFingerprint effect); JStr (lifecycle_text (i_lifecycle (ci_value instance))); JStr (i_observedGeneration (ci_value instance))]).

(** The effect that restores an instance. *)
Definition restorationEffect (instance : ComponentInstance) (kind : ReconcileEffectKind) : result exn ReconcileEffect :=
  let i := ci_value instance in
  let retrying := bool_decide (i_lifecycle i = CpFailed) && (bool_decide (i_retryEffect i = Some EffectDrain) || bool_decide (i_retryEffect i = Some EffectStop)) in
  let retryingTermination := bool_decide (kind = EffectStop) && retrying in
  match i_artifactDigest i with
  | Some artifactDigest =>
      throw_if
        (if bool_decide (kind = EffectPrepare)
         then negb (includes [CpPreparing; CpStopping] (i_lifecycle i))
         else negb (includes [CpReady; CpDegraded; CpDraining; CpStopping] (i_lifecycle i)) && negb retryingTermination)
        TypeError;;
      let identity := js "restore." ++ kind_text kind ++ js "." ++ sha256 (i_instanceId i) in
      operationId ← parseOperationId (VStr identity);
      messageId ← parseMessageId (VStr identity);
      Ok {| e_kind := kind; e_activation := ci_activation instance; e_operationId := operationId; e_messageId := messageId;
            e_instanceId := i_instanceId i; e_applicationId := i_applicationId i; e_pluginId := i_pluginId i; e_componentId := i_componentId i;
            e_deploymentGeneration := i_deploymentGeneration i; e_artifactDigest := artifactDigest; e_executor := i_executor i;
            e_workerId := i_workerId i; e_executionBinding := i_executionBinding i |}
  | None => Err TypeError
  end.

(** ** Preparation *)
Definition identity_mismatch (effect : ReconcileEffect) (resolved : option ValidatedComponentDeployment) : bool :=
  match resolved with
  | None => true
  | Some r =>
      negb (streq (pa_digest (vd_artifact r)) (e_artifactDigest effect)) || negb (streq (pa_pluginId (vd_artifact r)) (e_pluginId effect)) ||
      negb (streq (d_applicationId (vd_deployment r)) (e_applicationId effect)) || negb (streq (d_pluginId (vd_deployment r)) (e_pluginId effect)) ||
      negb (streq (d_generation (vd_deployment r)) (e_deploymentGeneration effect)) || negb (streq (d_artifactDigest (vd_deployment r)) (e_artifactDigest effect))
  end.
(** What the host is asked to prepare, from the validated and the prepared artifact. *)
Definition preparation (effect : ReconcileEffect) (authority : option RuntimeAuthority) (resolved : ValidatedComponentDeployment) (artifact : PreparedArtifact)
  : result exn ComponentBindingPreparation :=
  let find (a : PreparedArtifact) := List.find (has_componentId (e_componentId effect)) (pa_components a) in
  match find (vd_artifact resolved), find artifact with
  | Some validated, Some prepared =>
      throw_if
        (negb (streq (pa_digest artifact) (e_artifactDigest effect)) || negb (streq (pa_pluginId artifact) (e_pluginId effect)) ||
         negb (same_component number_text validated prepared) || negb (includes_executor validated (e_executor effect)))
        LIFECYCLE_ARTIFACT_IDENTITY_MISMATCH;;
      workerId ← match e_workerId effect with Some x => y ← parseWorkerId (VStr x); Ok (Some y) | None => Ok None end;
      Ok {| cp_instanceId := e_instanceId effect; cp_activation := e_activation effect; cp_executor := e_executor effect; cp_workerId := workerId;
            cp_artifact := artifact; cp_deployment := vd_deployment resolved; cp_component := validated; cp_authority := authority |}
  | _, _ => Err LIFECYCLE_ARTIFACT_IDENTITY_MISMATCH
  end.
(** The binding that is registered already. *)
Definition registered (effect : ReconcileEffect) (authority : option RuntimeAuthority) (w : World) : result exn (option json * World) :=
  match JsMap.get (w_registry w) (e_instanceId effect) with
  | Some current => assertMatches effect current authority;; Ok (Some (cb_executionBinding (rc_binding current)), w)
  | None => Ok (None, w)
  end.
Definition ask_host (effect : ReconcileEffect) (authority : option RuntimeAuthority) (resolved : ValidatedComponentDeployment) (artifact : PreparedArtifact) (w : World)
  : result exn (ComponentBindingPreparation * World) :=
  assertCurrentAuthority authority w;;
  p ← preparation effect authority resolved artifact;
  Ok (p, call (CallPrepare p (e_executionBinding effect)) w).
Definition register_binding (effect : ReconcileEffect) (authority : option RuntimeAuthority) (p : ComponentBindingPreparation) (executionBinding : json) (w : World)
  : result exn (json * World) :=
  '(_, r) ← register number_text effect {| cb_preparation := p; cb_executionBinding := executionBinding |} authority (w_registry w);
  Ok (executionBinding, with_registry r w).
Definition rollback {A} (effect : ReconcileEffect) (error : exn) : task A :=
  released ← Async.effect (Sync (releaseArtifact (e_artifactDigest effect)));
  _ ← Async.effect Tick;
  match released with Err _ => Throw LIFECYCLE_PREPARE_ROLLBACK_FAILED | Ok _ => Throw error end.
Definition bind_artifact (effect : ReconcileEffect) (authority : option RuntimeAuthority) (resolved : ValidatedComponentDeployment) (artifact : PreparedArtifact) : task json :=
  catch
    (p ← block (ask_host effect authority resolved artifact);
     executionBinding ← attempt AwaitBinding;
     block (register_binding effect authority p executionBinding))
    (rollback effect).
Definition prepare (effect : ReconcileEffect) (authority : option RuntimeAuthority) : task json :=
  current ← block (registered effect authority);
  match current with
  | Some executionBinding => Ret executionBinding
  | None =>
      resolved ← attempt AwaitDeployment;
      match resolved with
      | Some r =>
          if identity_mismatch effect (Some r) then Throw LIFECYCLE_DEPLOYMENT_IDENTITY_MISMATCH
          else artifact ← attempt (AwaitArtifact (e_artifactDigest effect)); bind_artifact effect authority r artifact
      | None => Throw LIFECYCLE_DEPLOYMENT_IDENTITY_MISMATCH
      end
  end.

(** ** The end of a binding *)
(** [#stop], [#cleanupAfterAuthorityLoss] and [#closeEntry] stop the host and release
    the artifact; a stage is the await they are at, and what was gathered. *)
Inductive mode := InStop | InCleanup | InClose.
Inductive stage :=
| AtHost (progress : RegisteredComponent) (failures : list exn)
| AtRelease (released : result exn unit) (progress : RegisteredComponent) (failures : list exn)
| AtEnd (r : result exn (list exn)).

(** The code after the last await. *)
Definition finish (m : mode) (effect : ReconcileEffect) (authority : option RuntimeAuthority) (progress : RegisteredComponent) (failures : list exn) (w : World)
  : stage * World :=
  let removed (r : result exn (list exn)) :=
    match remove effect authority (w_registry w) with
    | Ok (_, registry) => (AtEnd r, forgetInstanceOperations (e_instanceId effect) (e_operationId effect) (with_registry registry w))
    | Err e => (AtEnd (Err e), w)
    end in
  let complete := rc_hostStopped progress && rc_artifactReleased progress in
  match m, failures with
  | InStop, _ :: _ => (AtEnd (Err LIFECYCLE_STOP_FAILED), w)
  | InStop, [] => if complete then removed (Ok []) else (AtEnd (Err LIFECYCLE_STOP_INCOMPLETE), w)
  | InCleanup, _ =>
      let r := match failures with [] => Ok [] | _ => Err LIFECYCLE_AUTHORITY_CLEANUP_FAILED end in
      if complete then removed r else (AtEnd r, w)
  | InClose, _ => if complete then removed (Ok failures) else (AtEnd (Ok failures), w)
  end.
Definition to_release (m : mode) (effect : ReconcileEffect) (authority : option RuntimeAuthority) (progress : RegisteredComponent) (failures : list exn) (w : World)
  : stage * World :=
  if match m with InCleanup => true | _ => negb (rc_artifactReleased progress) end
  then let '(r, w) := releaseArtifact (e_artifactDigest effect) w in (AtRelease r progress failures, w)
  else finish m effect authority progress failures w.
Definition to_host (m : mode) (effect : ReconcileEffect) (authority : option RuntimeAuthority) (progress : RegisteredComponent) (failures : list exn) (w : World)
  : stage * World :=
  if match m with InCleanup => true | _ => negb (rc_hostStopped progress) end
  then (AtHost progress failures, call (CallStop (rc_binding progress)) w)
  else to_release m effect authority progress failures w.
(** What an await answered, and the progress it means. *)
Definition progressed (effect : ReconcileEffect) (authority : option RuntimeAuthority) (hostStopped artifactReleased : bool) (answer : result exn unit)
    (progress : RegisteredComponent) (failures : list exn) (w : World) : RegisteredComponent * list exn * World :=
  match answer with
  | Err e => (progress, failures ++ [e], w)
  | Ok _ =>
      match updateStopProgress effect hostStopped artifactReleased authority (w_registry w) with
      | Ok (updated, registry) => (updated, failures, with_registry registry w)
      | Err e => (progress, failures ++ [e], w)
      end
  end.
Definition on_host (m : mode) (effect : ReconcileEffect) (authority : option RuntimeAuthority) (answer : result exn unit) (progress : RegisteredComponent) (failures : list exn) (w : World)
  : stage * World :=
  let '(progress, failures, w) := progressed effect authority true false answer progress failures w in to_release m effect authority progress failures w.
Definition on_release (m : mode) (effect : ReconcileEffect) (authority : option RuntimeAuthority) (answer : result exn unit) (progress : RegisteredComponent) (failures : list exn) (w : World)
  : stage * World :=
  let '(progress, failures, w) := progressed effect authority false true answer progress failures w in finish m effect authority progress failures w.
(** The code from the transition to [stopping] on. *)
Definition begin_end (m : mode) (effect : ReconcileEffect) (authority : option RuntimeAuthority) (entry : RegisteredComponent) (failures : list exn) (w : World)
  : stage * World :=
  if bool_decide (rc_state entry = Stopping) && match m with InCleanup => false | _ => true end then to_host m effect authority entry failures w
  else match transition effect (rc_state entry) Stopping authority (w_registry w) with
       | Ok (progress, registry) => to_host m effect authority progress failures (with_registry registry w)
       | Err e => (AtEnd (Err e), w)
       end.
Definition released_stage (m : mode) (effect : ReconcileEffect) (authority : option RuntimeAuthority) (s : stage) : task (list exn) :=
  match s with
  | AtEnd r => of_result r
  | AtRelease r progress failures =>
      _ ← Async.effect Tick;
      s ← Async.effect (Sync (on_release m effect authority r progress failures));
      match s with AtEnd r => of_result r | _ => Ret [] end
  | AtHost _ _ => Ret []
  end.
Definition run_stage (m : mode) (effect : ReconcileEffect) (authority : option RuntimeAuthority) (s : stage) : task (list exn) :=
  match s with
  | AtHost progress failures =>
      answer ← Async.effect AwaitHost;
      s ← Async.effect (Sync (on_host m effect authority answer progress failures));
      released_stage m effect authority s
  | _ => released_stage m effect authority s
  end.
Definition cleanupAfterAuthorityLoss (effect : ReconcileEffect) (entry : RegisteredComponent) (authority : option RuntimeAuthority) (s : stage) : task unit :=
  _ ← run_stage InCleanup effect authority s; Throw LIFECYCLE_AUTHORITY_LOST.

(** ** Performing an effect *)
(** The code of [#perform] up to its first await. *)
Inductive admission := ToPrepare | ToStart (entry : RegisteredComponent) | ToDrain (entry : RegisteredComponent) | ToStop (s : stage).
Definition admission_of (effect : ReconcileEffect) (authority : option RuntimeAuthority) (w : World) : result exn (admission * World) :=
  throw_if (negb (includes supportedExecutors (e_executor effect))) LIFECYCLE_EXECUTOR_UNSUPPORTED;;
  assertCurrentAuthority authority w;;
  match e_kind effect with
  | EffectPrepare => Ok (ToPrepare, w)
  | _ =>
      entry ← require (e_instanceId effect) (w_registry w);
      '(entry, w) ←
        (if bool_decide (e_kind effect = EffectStop) && bool_decide (rc_state entry = Stopping) && negb (sameAuthority (cp_authority (rc_binding entry)) authority)
         then '(entry, registry) ← takeoverStopping effect authority (w_registry w); Ok (entry, with_registry registry w)
         else assertMatches effect entry authority;; Ok (entry, w));
      match e_kind effect with
      | EffectStart =>
          throw_if (negb (bool_decide (rc_state entry = Prepared))) LIFECYCLE_TRANSITION_INVALID;;
          Ok (ToStart entry, call (CallStart (rc_binding entry)) w)
      | EffectDrain =>
          throw_if (negb (bool_decide (rc_state entry = BindingActive))) LIFECYCLE_TRANSITION_INVALID;;
          Ok (ToDrain entry, call (CallDrain (rc_binding entry)) w)
      | _ => let '(s, w) := begin_end InStop effect authority entry [] w in Ok (ToStop s, w)
      end
  end.
(** The host answered a start or a drain: the transition, or the cleanup when the
    authority is another. *)
Definition after_host (effect : ReconcileEffect) (authority : option RuntimeAuthority) (entry : RegisteredComponent) (current next : ComponentBindingState) (w : World)
  : result exn (option stage) * World :=
  if authorityMatches authority w then
    match transition effect current next authority (w_registry w) with
    | Ok (_, registry) => (Ok None, with_registry registry w)
    | Err e => (Err e, w)
    end
  else let '(s, w) := begin_end InCleanup effect authority entry [] w in (Ok (Some s), w).
Definition hosted (effect : ReconcileEffect) (authority : option RuntimeAuthority) (entry : RegisteredComponent) (current next : ComponentBindingState) : task unit :=
  _ ← attempt AwaitHost;
  s ← attempt (Sync (after_host effect authority entry current next));
  match s with
  | None => Ret tt
  | Some s => cleanupAfterAuthorityLoss effect entry authority s
  end.
Definition perform_effect (effect : ReconcileEffect) (authority : option RuntimeAuthority) : task (option json) :=
  a ← block (admission_of effect authority);
  match a with
  | ToPrepare => executionBinding ← prepare effect authority; Ret (Some executionBinding)
  | ToStart entry => _ ← hosted effect authority entry Prepared BindingActive; Ret None
  | ToDrain entry => _ ← hosted effect authority entry BindingActive Draining; Ret None
  | ToStop s => _ ← run_stage InStop effect authority s; Ret None
  end.

(** ** Restoring an instance *)
Definition restored (instance : ComponentInstance) (effect : ReconcileEffect) (authority : option RuntimeAuthority) (w : World)
  : result exn (option (option RegisteredComponent) * World) :=
  match JsMap.get (w_registry w) (i_instanceId (ci_value instance)) with
  | Some entry =>
      assertMatches effect entry authority;;
      if bool_decide (rc_state entry = BindingActive) || bool_decide (i_lifecycle (ci_value instance) = CpDraining) && bool_decide (rc_state entry = Draining)
      then Ok (None, w)
      else throw_if (negb (bool_decide (rc_state entry = Prepared))) LIFECYCLE_TRANSITION_INVALID;;
           Ok (Some (Some entry), call (CallStart (rc_binding entry)) w)
  | None => Ok (Some None, w)
  end.
Definition restore_instance (instance : ComponentInstance) (effect : ReconcileEffect) (authority : option RuntimeAuthority) : task (option json) :=
  _ ← block (λ w, assertCurrentAuthority authority w;; Ok (tt, w));
  if bool_decide (e_kind effect = EffectPrepare) then _ ← prepare effect authority; Ret None
  else
    s ← block (restored instance effect authority);
    match s with
    | None => Ret None
    | Some (Some entry) => _ ← hosted effect authority entry Prepared BindingActive; Ret None
    | Some None =>
        _ ← prepare effect authority;
        entry ← block (λ w, entry ← require (i_instanceId (ci_value instance)) (w_registry w); Ok (entry, call (CallStart (rc_binding entry)) w));
        _ ← hosted effect authority entry Prepared BindingActive; Ret None
    end.

Definition terminating (i : PersistedComponentInstance) : bool :=
  includes [CpReady; CpDegraded; CpDraining; CpStopping] (i_lifecycle i) ||
  bool_decide (i_lifecycle i = CpFailed) && (bool_decide (i_retryEffect i = Some EffectDrain) || bool_decide (i_retryEffect i = Some EffectStop)).
Definition checkpoint_of (i : PersistedComponentInstance) : Checkpoint :=
  if bool_decide (i_lifecycle i = CpStopping) || bool_decide (i_lifecycle i = CpFailed) && bool_decide (i_retryEffect i = Some EffectStop)
  then CheckpointStopping else CheckpointDraining.
Definition restore_termination (instance : ComponentInstance) (authority : option RuntimeAuthority) : task (option json) :=
  let i := ci_value instance in
  effect ← block (λ w,
    parseActivation (VStr (ci_activation instance));;
    effect ← restorationEffect instance EffectStop;
    assertCurrentAuthority authority w;; Ok (effect, w));
  _ ← prepare effect authority;
  s ← block (λ w,
    entry ← require (i_instanceId i) (w_registry w);
    assertMatches effect entry authority;;
    if bool_decide (rc_state entry = Stopping) then Ok (None, w)
    else throw_if (negb (terminating i)) LIFECYCLE_TRANSITION_INVALID;;
         Ok (Some entry, if restores then call (CallRestoreTermination (rc_binding entry) (checkpoint_of i)) w else w));
  match s with
  | None => Ret None
  | Some entry =>
      _ ← (if restores then attempt AwaitHost else Async.effect Tick);
      block (λ w, '(_, registry) ← transition effect (rc_state entry) Stopping authority (w_registry w); Ok (None, with_registry registry w))
  end.
Definition restore_starting (effect : ReconcileEffect) : task (option json) :=
  authority ← block (λ w,
    throw_if (negb (bool_decide (e_kind effect = EffectStart))) TypeError;;
    parseActivation (VStr (e_activation effect));;
    throw_if (negb (includes supportedExecutors (e_executor effect))) LIFECYCLE_EXECUTOR_UNSUPPORTED;;
    let authority := w_authority w in
    throw_if (includes (w_closing w) (restorationAuthorityPrefix authority)) LIFECYCLE_COMPONENT_HOST_UNAVAILABLE;;
    assertCurrentAuthority authority w;; Ok (authority, w));
  _ ← prepare effect authority; Ret None.

(** [isLive] *)
Definition isLive (instance : ComponentInstance) (authority : option RuntimeAuthority) (w : World) : result exn bool :=
  match i_artifactDigest (ci_value instance), JsMap.get (w_registry w) (i_instanceId (ci_value instance)) with
  | Some _, Some entry =>
      if bool_decide (rc_state entry = BindingActive) then
        effect ← restorationEffect instance EffectStart;
        if authorityMatches authority w then matches effect entry authority else Ok false
      else Ok false
  | _, _ => Ok false
  end.

(** ** Closing an authority *)
Definition close_instance (entry : RegisteredComponent) : ComponentInstance :=
  let b := rc_binding entry in
  {| ci_value := {|
       i_instanceId := cp_instanceId b; i_activation := Some (cp_activation b); i_hasStarted := None;
       i_applicationId := d_applicationId (cp_deployment b); i_pluginId := d_pluginId (cp_deployment b);
       i_componentId := default [] (text_member (cp_component b) (js "componentId"));
       i_deploymentGeneration := d_generation (cp_deployment b); i_observedGeneration := d_generation (cp_deployment b);
       i_lifecycle := CpReady; i_executor := cp_executor b; i_workerId := cp_workerId b; i_artifactDigest := Some (pa_digest (cp_artifact b));
       i_executionBinding := None; i_attempt := None; i_retryAt := None; i_retryEffect := None; i_diagnostic := None;
       i_completedOperationId := None; i_completedOperationIds := None |};
     ci_activation := cp_activation b; ci_legacyActivation := false; ci_revision := 0 |}.
(** The component was drained, or could not be. *)
Definition on_drained (effect : ReconcileEffect) (authority : option RuntimeAuthority) (entry : RegisteredComponent) (answer : result exn unit) (w : World) : stage * World :=
  match answer with
  | Err e => begin_end InClose effect authority entry [e] w
  | Ok _ =>
      match transition effect BindingActive Draining authority (w_registry w) with
      | Ok (progress, registry) => begin_end InClose effect authority progress [] (with_registry registry w)
      | Err e => begin_end InClose effect authority entry [e] w
      end
  end.
Definition closeEntry (effect : ReconcileEffect) (entry : RegisteredComponent) (authority : option RuntimeAuthority) : task (list exn) :=
  if bool_decide (rc_state entry = BindingActive) then
    _ ← Async.effect (Sync (λ w, (tt, call (CallDrain (rc_binding entry)) w)));
    answer ← Async.effect AwaitHost;
    s ← Async.effect (Sync (on_drained effect authority entry answer));
    run_stage InClose effect authority s
  else
    s ← Async.effect (Sync (begin_end InClose effect authority entry []));
    run_stage InClose effect authority s.
Fixpoint close_entries (authority : option RuntimeAuthority) (es : list RegisteredComponent) : task (list exn) :=
  match es with
  | [] => Ret []
  | entry :: es =>
      if negb (sameAuthority (cp_authority (rc_binding entry)) authority) then close_entries authority es
      else
        effect ← of_result (restorationEffect (close_instance entry) EffectStop);
        failures ← closeEntry effect entry authority;
        rest ← close_entries authority es;
        Ret (failures ++ rest)
  end.
(** The restorations an authority has in flight. *)
Definition restorations_of (prefix : jstring) (w : World) : list nat :=
  map (λ r, fr_result r.2) (List.filter (λ r, bool_decide (prefix `prefix_of` r.1)) (w_restorations w)).
Definition closeAuthority (authority : option RuntimeAuthority) (prefix : jstring) : task (option json) :=
  ps ← Async.effect (Sync (λ w, (restorations_of prefix w, w)));
  _ ← Async.effect (AwaitAll ps);
  es ← Async.effect (Sync (λ w, (entries (w_registry w), w)));
  failures ← close_entries authority es;
  match failures with [] => Ret None | _ => Throw LIFECYCLE_CLOSE_FAILED end.

(** ** Calls *)
(** What settles with a promise. *)
Inductive job :=
| JobPerform (promise : nat) (effect : ReconcileEffect) (authority : option RuntimeAuthority)
| JobRestore (promise : nat) (key : jstring) (instance : ComponentInstance) (effect : ReconcileEffect) (authority : option RuntimeAuthority)
| JobRestoreTermination (promise : nat) (instance : ComponentInstance) (authority : option RuntimeAuthority)
| JobRestoreStarting (promise : nat) (effect : ReconcileEffect)
| JobClose (promise : nat) (authority : option RuntimeAuthority) (prefix : jstring).
Definition settle (promise : nat) (r : result exn (option json)) (w : World) : World := with_promises (<[promise := Some r]> (w_promises w)) w.
(** The reactions of [perform] to the end of its operation. *)
Definition succeed (o : CachedOperation) : CachedOperation := {|
  co_fingerprint := co_fingerprint o; co_result := co_result o; co_instanceId := co_instanceId o; co_authority := co_authority o; co_succeeded := true |}.
Definition operation_settled (operationId : jstring) (promise : nat) (ok : bool) (w : World) : World :=
  match JsMap.get (w_operations w) operationId with
  | Some o =>
      if negb (co_result o =? promise)%nat then w
      else if ok then with_caches (JsMap.set (w_operations w) operationId (succeed o)) (w_fingerprints w) (w_stopped w) (w_failed w) w
      else retainFailedOperation operationId (with_caches (JsMap.delete (w_operations w) operationId) (w_fingerprints w) (w_stopped w) (w_failed w) w)
  | None => w
  end.
Definition restoration_settled (key : jstring) (promise : nat) (w : World) : World :=
  match JsMap.get (w_restorations w) key with
  | Some r => if (fr_result r =? promise)%nat then with_restorations (JsMap.delete (w_restorations w) key) w else w
  | None => w
  end.
Definition close_settled (prefix : jstring) (promise : nat) (ok : bool) (w : World) : World :=
  if negb ok && bool_decide (JsMap.get (w_closeAttempts w) prefix = Some promise)
  then with_closing (w_closing w) (JsMap.delete (w_closeAttempts w) prefix) w else w.
Definition settles (p : task (option json)) (promise : nat) (react : bool → World → World) : task unit :=
  r ← settled p; Async.effect (Sync (λ w, (tt, react (is_ok r) (settle promise r w)))).
Definition start (j : job) : task unit :=
  match j with
  | JobPerform p effect authority => settles (perform_effect effect authority) p (operation_settled (e_operationId effect) p)
  | JobRestore p key instance effect authority => settles (restore_instance instance effect authority) p (λ _, restoration_settled key p)
  | JobRestoreTermination p instance authority => settles (restore_termination instance authority) p (λ _ w, w)
  | JobRestoreStarting p effect => settles (restore_starting effect) p (λ _ w, w)
  | JobClose p authority prefix => settles (closeAuthority authority prefix) p (close_settled prefix p)
  end.

(** A new promise. *)
Definition promise (w : World) : nat * World := (length (w_promises w), with_promises (w_promises w ++ [None]) w).
(** What a call returns: a rejection, or a promise that may come with its job. *)
Abbreviation returned := (result exn (nat * list job)).
Definition completedStop (effect : ReconcileEffect) (o : CachedOperation) (w : World) : bool :=
  bool_decide (e_kind effect = EffectStop) && co_succeeded o && negb (JsMap.has (w_registry w) (e_instanceId effect)).
Definition stoppingCleanup (effect : ReconcileEffect) (o : CachedOperation) (w : World) : bool :=
  bool_decide (e_kind effect = EffectStop) && bool_decide (rc_state <$> JsMap.get (w_registry w) (e_instanceId effect) = Some Stopping) && negb (co_succeeded o).
Definition perform (effect : ReconcileEffect) (w : World) : returned * World :=
  let authority := w_authority w in
  let fingerprint := effectFingerprint effect in
  match
    parseActivation (VStr (e_activation effect));;
    throw_if (includes (w_closing w) (restorationAuthorityPrefix authority)) LIFECYCLE_COMPONENT_HOST_UNAVAILABLE;;
    throw_if (match JsMap.get (w_fingerprints w) (e_operationId effect) with Some f => negb (streq (of_fingerprint f) fingerprint) | None => false end)
      LIFECYCLE_OPERATION_CONFLICT
  with
  | Err e => (Err e, w)
  | Ok _ =>
      match JsMap.get (w_operations w) (e_operationId effect) with
      | Some existing =>
          if negb (sameAuthority (co_authority existing) authority) && negb (completedStop effect existing w) && negb (stoppingCleanup effect existing w)
          then (Err LIFECYCLE_AUTHORITY_LOST, w)
          else (Ok (co_result existing, []), w)
      | None =>
          let w := removeFailedOperation (e_operationId effect) w in
          let '(p, w) := promise w in
          let o := {| co_fingerprint := fingerprint; co_result := p; co_instanceId := e_instanceId effect; co_authority := authority; co_succeeded := false |} in
          (Ok (p, [JobPerform p effect authority]),
           with_caches (JsMap.set (w_operations w) (e_operationId effect) o)
             (JsMap.set (w_fingerprints w) (e_operationId effect) {| of_fingerprint := fingerprint; of_instanceId := e_instanceId effect |})
             (w_stopped w) (w_failed w) w)
      end
  end.
Definition restore (instance : ComponentInstance) (authority : option RuntimeAuthority) (w : World) : returned * World :=
  match
    parseActivation (VStr (ci_activation instance));;
    effect ← restorationEffect instance (if includes [CpPreparing; CpStopping] (i_lifecycle (ci_value instance)) then EffectPrepare else EffectStart);
    throw_if (includes (w_closing w) (restorationAuthorityPrefix authority)) LIFECYCLE_COMPONENT_HOST_UNAVAILABLE;;
    Ok effect
  with
  | Err e => (Err e, w)
  | Ok effect =>
      let key := restorationKey (i_instanceId (ci_value instance)) authority in
      let fingerprint := restorationFingerprint instance effect in
      match JsMap.get (w_restorations w) key with
      | Some existing =>
          if negb (streq (fr_fingerprint existing) fingerprint) then (Err LIFECYCLE_RESTORE_CONFLICT, w) else (Ok (fr_result existing, []), w)
      | None =>
          let '(p, w) := promise w in
          (Ok (p, [JobRestore p key instance effect authority]),
           with_restorations (JsMap.set (w_restorations w) key {| fr_effect := effect; fr_fingerprint := fingerprint; fr_result := p |}) w)
      end
  end.
Definition restoreTermination (instance : ComponentInstance) (authority : option RuntimeAuthority) (w : World) : returned * World :=
  let '(p, w) := promise w in (Ok (p, [JobRestoreTermination p instance authority]), w).
Definition restoreStarting (effect : ReconcileEffect) (w : World) : returned * World :=
  let '(p, w) := promise w in (Ok (p, [JobRestoreStarting p effect]), w).
Definition close (authority : option RuntimeAuthority) (w : World) : returned * World :=
  let prefix := restorationAuthorityPrefix authority in
  match JsMap.get (w_closeAttempts w) prefix with
  | Some existing => (Ok (existing, []), w)
  | None =>
      let closing := if includes (w_closing w) prefix then w_closing w else w_closing w ++ [prefix] in
      let '(p, w) := promise w in
      (Ok (p, [JobClose p authority prefix]), with_closing closing (JsMap.set (w_closeAttempts w) prefix p) w)
  end.

(** The methods; [None] as the authority is the current one. *)
Inductive method :=
| Perform (effect : ReconcileEffect)
| Restore (instance : ComponentInstance) (authority : option (option RuntimeAuthority))
| RestoreTermination (instance : ComponentInstance) (authority : option (option RuntimeAuthority))
| RestoreStarting (effect : ReconcileEffect)
| Close (authority : option (option RuntimeAuthority)).
Definition invoke (m : method) (w : World) : returned * World :=
  let given a := match a with Some a => a | None => w_authority w end in
  match m with
  | Perform effect => perform effect w
  | Restore instance a => restore instance (given a) w
  | RestoreTermination instance a => restoreTermination instance (given a) w
  | RestoreStarting effect => restoreStarting effect w
  | Close a => close (given a) w
  end.

(** ** The environment *)
Inductive answer :=
| AHost (r : result exn unit)
| ABinding (r : result exn json)
| ADeployment (r : result exn (option ValidatedComponentDeployment))
| AArtifact (r : result exn PreparedArtifact)
| ANothing.
Definition is_settled (w : World) (p : nat) : bool := match w_promises w !! p with Some (Some _) => true | _ => false end.
Definition handle (_ : unit) (a : answer) (w : World) (B : Type) (e : eff B) : option (B * World * list job) :=
  match e, a with
  | Sync f, _ => let '(b, w) := f w in Some (b, w, [])
  | Tick, _ => Some (tt, w, [])
  | AwaitHost, AHost r => Some (r, w, [])
  | AwaitBinding, ABinding r => Some (r, w, [])
  | AwaitDeployment, ADeployment r => Some (r, w, [])
  | AwaitArtifact digest, AArtifact r =>
      (** the cache counts the reference it gives *)
      Some (r, match r with Ok _ => with_references (<[digest := S (references digest w)]> (w_references w)) w | Err _ => w end, [])
  | AwaitAll ps, _ => if forallb (is_settled w) ps then Some (tt, w, []) else None
  | _, _ => None
  end.
Abbreviation components_pool := (pool eff exn World unit).
Inductive happening :=
| Runs (thread : nat) (a : answer)
| Calls (m : method)
| Authority (a : option RuntimeAuthority).
Definition happens (q : components_pool) (h : happening) : components_pool :=
  match h with
  | Runs thread a => run_at handle start thread a q
  | Calls m =>
      let '(r, w) := invoke m (p_world q) in
      Build_pool w (p_threads q ++ match r with Ok (_, js) => spawned start tt js | Err _ => [] end)
  | Authority a => Build_pool (with_current a (p_world q)) (p_threads q)
  end.
Definition history (q : components_pool) (hs : list happening) : components_pool := foldl happens q hs.
Definition no_components : components_pool := Build_pool createWorld [].
End effects.
