(* ===== verification/EffectLaws.v ===== *)
(** * Laws of the component effects

    What a block of a program of ComponentEffects.v may do to the entries of the
    registry, and that every block of every program does no more, however calls
    interleave and whatever the host, the deployments and the artifacts answer. *)

From S2P Require Import Prelude JsString Collections JsValue Identity JsonText Lifecycle Placement Plan Task Reconciler ComponentRegistry Async ComponentEffects.

Open Scope Z_scope.

#[local] Arguments parseActivation : simpl never.
#[local] Arguments matchesIdentity : simpl never.
#[local] Arguments JsMap.get : simpl never.
#[local] Arguments JsMap.set : simpl never.

Section laws.
Context (number_text : jsnum → jstring) (sha256 : jstring → jstring) (supportedExecutors : list ExecutorKind) (restores : bool).

(** ** What an entry is *)
(** The component of a binding is the one of its artifact, runs on its executor, and
    its deployment is of that artifact. *)
Record binding_ok (b : ComponentBindingPreparation) : Prop := {
  bk_component : ∃ id c, has_componentId id (cp_component b) = true ∧ List.find (has_componentId id) (pa_components (cp_artifact b)) = Some c ∧
    same_component number_text c (cp_component b) = true;
  bk_executor : includes_executor (cp_component b) (cp_executor b) = true;
  bk_digest : d_artifactDigest (cp_deployment b) = pa_digest (cp_artifact b);
  bk_activation : is_ok (parseActivation (VStr (cp_activation b))) = true;
}.
Record entry_ok (id : jstring) (e : RegisteredComponent) : Prop := {
  ek_id : cp_instanceId (rc_binding e) = id;
  ek_binding : binding_ok (rc_binding e);
  ek_accepting : rc_acceptingTasks e = bool_decide (rc_state e = BindingActive);
  ek_progress : rc_hostStopped e || rc_artifactReleased e = true → rc_state e = Stopping;
}.
(** One move of an entry, under the authority of the moment: forward in its lifecycle,
    or out of the registry. *)
Inductive entry_step (authority : option RuntimeAuthority) (id : jstring) : option RegisteredComponent → option RegisteredComponent → Prop :=
| step_start e : rc_state e = Prepared → cp_authority (rc_binding e) = authority → entry_step authority id (Some e) (Some (with_state BindingActive e))
| step_drain e : rc_state e = BindingActive → entry_step authority id (Some e) (Some (with_state Draining e))
| step_stop e : rc_state e ≠ Stopping → entry_step authority id (Some e) (Some (with_state Stopping e))
| step_progress e h a : rc_state e = Stopping → entry_step authority id (Some e) (Some (with_progress h a e))
| step_take e : rc_state e = Stopping → takes_over authority (cp_authority (rc_binding e)) = true → entry_step authority id (Some e) (Some (with_owner authority e))
| step_remove e : (rc_state e = Stopping → rc_hostStopped e = true ∧ rc_artifactReleased e = true) → entry_step authority id (Some e) None.

(** What one event may do to an entry: moves, or the registration of a fresh entry
    where there is none, and nothing else with it. *)
Definition entry_change (authority : option RuntimeAuthority) (id : jstring) (o o' : option RegisteredComponent) : Prop :=
  rtc (entry_step authority id) o o' ∨
  o = None ∧ ∃ b a, o' = Some (fresh_entry b a) ∧ entry_ok id (fresh_entry b a).

Definition moves (authority : option RuntimeAuthority) (r r' : ComponentRegistry) : Prop :=
  ∀ id, rtc (entry_step authority id) (JsMap.get r id) (JsMap.get r' id).
Definition changes (authority : option RuntimeAuthority) (r r' : ComponentRegistry) : Prop :=
  ∀ id, entry_change authority id (JsMap.get r id) (JsMap.get r' id).
Definition registry_ok (r : ComponentRegistry) : Prop := JsMap.wf r ∧ ∀ id e, JsMap.get r id = Some e → entry_ok id e.
(** The host is asked for nothing else than what was validated. *)
Definition call_ok (c : HostCall) : Prop :=
  match c with
  | CallPrepare p _ => includes_executor (cp_component p) (cp_executor p) = true
  | CallStart b | CallDrain b | CallRestoreTermination b _ | CallStop b => binding_ok b
  end.
Record world_ok (w : World) : Prop := { wk_registry : registry_ok (w_registry w); wk_calls : Forall call_ok (w_calls w) }.
Record world_moves (w w' : World) : Prop := { wm_ok : world_ok w'; wm_authority : w_authority w' = w_authority w; wm_moves : moves (w_authority w) (w_registry w) (w_registry w') }.
Record world_changes (w w' : World) : Prop := { wc_ok : world_ok w'; wc_changes : changes (w_authority w) (w_registry w) (w_registry w') }.

#[export] Instance moves_preorder a : PreOrder (moves a).
Proof. split; [by intros r id|]. intros r s t H1 H2 id. etrans; [apply H1|apply H2]. Qed.
Lemma moves_put_rtc a r id e o : JsMap.get r id = o → rtc (entry_step a id) o (Some e) → moves a r (JsMap.set r id e).
Proof.
  intros Ho Hs x. destruct (decide (id = x)) as [<-|Hne].
  - by rewrite JsMap.get_set_eq, Ho.
  - by rewrite JsMap.get_set_ne.
Qed.
Lemma moves_put a r id e o : JsMap.get r id = o → entry_step a id o (Some e) → moves a r (JsMap.set r id e).
Proof. intros Ho Hs. eapply moves_put_rtc; [done|by apply rtc_once]. Qed.
Lemma moves_delete a r id e : JsMap.wf r → JsMap.get r id = Some e → entry_step a id (Some e) None → moves a r (JsMap.delete r id).
Proof.
  intros Hw Ho Hs x. destruct (decide (id = x)) as [<-|Hne].
  - rewrite JsMap.get_delete_eq, Ho by done. by apply rtc_once.
  - by rewrite JsMap.get_delete_ne.
Qed.
(** A move keeps an entry what it is. *)
Lemma entry_step_ok a id o o' : entry_step a id o o' → (∀ e, o = Some e → entry_ok id e) → ∀ e, o' = Some e → entry_ok id e.
Proof.
  intros Hs Ho e' He'. destruct Hs as [e H H'|e H|e H|e h y H|e H H'|e H]; simplify_eq; try done; destruct (Ho _ eq_refl) as [H1 H2 H3 H4].
  - split; cbn; [done|done|done|]. intros Hp. by rewrite H4 in H.
  - split; cbn; [done|done|done|]. intros Hp. by rewrite H4 in H.
  - by split.
  - split; cbn; [done|done|done|]. by intros _.
  - split; cbn; [done| |done|done]. by destruct H2.
Qed.
Lemma entry_steps_ok a id o o' : rtc (entry_step a id) o o' → (∀ e, o = Some e → entry_ok id e) → ∀ e, o' = Some e → entry_ok id e.
Proof. intros Hs. induction Hs as [o|o o1 o' Hs _ IH]; [done|]. intros Ho. apply IH. by eapply entry_step_ok. Qed.
Lemma changes_ok a r r' : registry_ok r → JsMap.wf r' → changes a r r' → registry_ok r'.
Proof.
  intros [Hw Hr] Hw' Hm. split; [done|]. intros id. specialize (Hm id). specialize (Hr id).
  destruct Hm as [Hm|(_ & b & x & -> & Hok)]; [by apply (entry_steps_ok _ _ _ _ Hm)|by intros e [= <-]].
Qed.
Lemma moves_changes a r r' : moves a r r' → changes a r r'.
Proof. intros H id. by left. Qed.
Lemma moves_ok a r r' : registry_ok r → JsMap.wf r' → moves a r r' → registry_ok r'.
Proof.
  intros [Hw Hr] Hw' Hm. split; [done|]. intros id. specialize (Hm id). specialize (Hr id).
  by apply (entry_steps_ok _ _ _ _ Hm).
Qed.

(** ** The operations of the registry *)
Lemma assertMatches_authority effect e authority : assertMatches effect e authority = Ok tt → cp_authority (rc_binding e) = authority ∧ matchesIdentity effect e = Ok true.
Proof.
  unfold assertMatches, matches. intros (m & Hm & H)%bind_ok. apply bind_ok in Hm as (i & Hi & [= <-]). apply throw_if_ok in H. apply negb_false_iff in H.
  apply andb_true_iff in H as [-> H]. unfold sameAuthority in H. by apply bool_decide_eq_true in H.
Qed.
Lemma require_ok id r e : require id r = Ok e ↔ JsMap.get r id = Some e.
Proof. unfold require. destruct (JsMap.get r id); split; intros H; by simplify_eq. Qed.

Lemma register_moves effect b authority r e r' a :
  registry_ok r → register number_text effect b authority r = Ok (e, r') → changes a r r' ∧ JsMap.wf r' ∧ JsMap.get r' (e_instanceId effect) = Some e.
Proof.
  intros [Hw Hr]. unfold register. intros (x & Hx & H)%bind_ok. apply bind_ok in H as (y & Hy & H). apply bind_ok in H as (u & Hb & H).
  destruct (JsMap.get r (e_instanceId effect)) as [existing|] eqn:E.
  - apply bind_ok in H as (? & _ & H). apply bind_ok in H as (? & _ & [= <- <-]). split_and!; [by apply moves_changes|done|done].
  - injection H as <- <-. unfold assertBinding in Hb. apply throw_if_ok in Hb. rewrite !orb_false_iff, !negb_false_iff in Hb.
    destruct Hb as [[[[[[[[[[[[H1 H2] H3] H4] H5] H6] H7] H8] H9] H10] H11] H12] H13].
    apply streq_true in H1, H5, H9. apply bool_decide_eq_true in H3.
    split_and!; [|by apply JsMap.wf_set|by apply JsMap.get_set_eq]. intros id. unfold put. destruct (decide (e_instanceId effect = id)) as [<-|Hne];
      [|left; by rewrite JsMap.get_set_ne]. right. split; [done|]. exists b, authority. split; [by rewrite JsMap.get_set_eq|]. split; [done| |done|done].
    split; cbn; [|by rewrite H3|congruence|by rewrite Hy].
    destruct (List.find (has_componentId (e_componentId effect)) (pa_components (cp_artifact b))) as [c|] eqn:Ef; [|done].
    rewrite orb_false_iff, !negb_false_iff in H11. exists (e_componentId effect), c. split_and!; [done..|]. apply H11.
Qed.
Lemma transition_moves effect current next authority r e' r' a :
  registry_ok r → transition effect current next authority r = Ok (e', r') →
  (next = BindingActive → current = Prepared ∧ a = authority) → (next = Draining → current = BindingActive) → next ≠ Prepared →
  moves a r r' ∧ JsMap.wf r' ∧ entry_ok (e_instanceId effect) e' ∧ JsMap.get r' (e_instanceId effect) = Some e' ∧ rc_state e' = next.
Proof.
  intros [Hw Hr] H Ha Hd Hn. unfold transition in H. apply bind_ok in H as (e & He & H). apply require_ok in He. apply bind_ok in H as ([] & Hm & H).
  apply bind_ok in H as (u & Hc & [= <- <-]). apply throw_if_ok, negb_false_iff, bool_decide_eq_true in Hc. apply assertMatches_authority in Hm as [Hm _].
  pose proof (Hr _ _ He) as Hok.
  assert (rtc (entry_step a (e_instanceId effect)) (Some e) (Some (with_state next e))) as Hstep.
  { destruct next; [done| | |].
    - destruct Ha as [-> ->]; [done|]. apply rtc_once. by constructor.
    - rewrite Hd in Hc by done. apply rtc_once. by constructor.
    - destruct (decide (rc_state e = Stopping)) as [Es|Es]; [|apply rtc_once; by constructor].
      assert (with_state Stopping e = e) as ->; [|done]. destruct Hok as [_ _ Hacc _]. rewrite Es in Hacc. unfold with_state. destruct e as [b st acc h k]. cbn in *. congruence. }
  split_and!; [by eapply moves_put_rtc|by apply JsMap.wf_set| |by apply JsMap.get_set_eq|done].
  eapply entry_steps_ok; [exact Hstep| |done]. by intros x [= <-].
Qed.
Lemma updateStopProgress_moves effect h k authority r e' r' a :
  registry_ok r → updateStopProgress effect h k authority r = Ok (e', r') →
  moves a r r' ∧ JsMap.wf r' ∧ entry_ok (e_instanceId effect) e' ∧ JsMap.get r' (e_instanceId effect) = Some e' ∧ rc_state e' = Stopping.
Proof.
  intros [Hw Hr] H. unfold updateStopProgress in H. apply bind_ok in H as (e & He & H). apply require_ok in He. apply bind_ok in H as ([] & Hm & H).
  apply bind_ok in H as (u & Hc & [= <- <-]). apply throw_if_ok, negb_false_iff, bool_decide_eq_true in Hc.
  assert (entry_step a (e_instanceId effect) (Some e) (Some (with_progress h k e))) as Hstep by by constructor.
  split_and!; [by eapply moves_put|by apply JsMap.wf_set| |by apply JsMap.get_set_eq|done].
  eapply entry_step_ok; [done| |done]. intros x [= <-]. by apply Hr.
Qed.
Lemma takeover_moves effect authority r e' r' :
  registry_ok r → takeoverStopping effect authority r = Ok (e', r') →
  moves authority r r' ∧ JsMap.wf r' ∧ entry_ok (e_instanceId effect) e' ∧ JsMap.get r' (e_instanceId effect) = Some e' ∧ rc_state e' = Stopping.
Proof.
  intros [Hw Hr] H. unfold takeoverStopping in H. apply bind_ok in H as (e & He & H). apply require_ok in He. apply bind_ok in H as (u & Hc & H).
  apply bind_ok in H as (i & Hi & H). apply bind_ok in H as (u' & _ & H). apply bind_ok in H as (u'' & Ht & [= <- <-]).
  apply throw_if_ok, negb_false_iff, bool_decide_eq_true in Hc. apply throw_if_ok, negb_false_iff in Ht.
  assert (entry_step authority (e_instanceId effect) (Some e) (Some (with_owner authority e))) as Hstep by by constructor.
  split_and!; [by eapply moves_put|by apply JsMap.wf_set| |by apply JsMap.get_set_eq|done].
  eapply entry_step_ok; [done| |done]. intros x [= <-]. by apply Hr.
Qed.
Lemma remove_moves effect authority r e r' a :
  registry_ok r → remove effect authority r = Ok (e, r') → moves a r r' ∧ JsMap.wf r'.
Proof.
  intros [Hw Hr] H. unfold remove in H. apply bind_ok in H as (e0 & He & H). apply require_ok in He. apply bind_ok in H as ([] & Hm & H).
  apply bind_ok in H as (u & Hc & [= <- <-]). apply throw_if_ok in Hc. split; [|by apply JsMap.wf_delete]. eapply moves_delete; [done|exact He|].
  constructor. intros Es. rewrite bool_decide_true in Hc by done. cbn in Hc. by rewrite orb_false_iff, !negb_false_iff in Hc.
Qed.

(** ** Blocks *)
Lemma world_moves_same w w' : world_ok w → w_registry w' = w_registry w → w_authority w' = w_authority w → w_calls w' = w_calls w → world_moves w w'.
Proof. intros [H1 H2] E1 E2 E3. split; [split; by rewrite ?E1, ?E3|done|]. by rewrite E1. Qed.
Lemma world_moves_trans w w1 w2 : world_moves w w1 → world_moves w1 w2 → world_moves w w2.
Proof. intros [H1 H2 H3] [K1 K2 K3]. split; [done|congruence|]. rewrite H2 in K3. by etrans. Qed.
Lemma world_moves_registry w r : world_ok w → moves (w_authority w) (w_registry w) r → JsMap.wf r → world_moves w (with_registry r w).
Proof. intros [H1 H2] Hm Hw. split; [split; cbn; [by eapply moves_ok|done]|done|done]. Qed.
Lemma world_moves_changes w w' : world_moves w w' → world_changes w w'.
Proof. intros [H1 _ H3]. split; [done|by apply moves_changes]. Qed.
Lemma world_changes_registry w r : world_ok w → changes (w_authority w) (w_registry w) r → JsMap.wf r → world_changes w (with_registry r w).
Proof. intros [H1 H2] Hm Hw. split; [split; cbn; [by eapply changes_ok|done]|done]. Qed.
Lemma world_moves_call w c : world_ok w → call_ok c → world_moves w (call c w).
Proof. intros [H1 H2] Hc. split; [split; cbn; [done|by apply Forall_app; split; [|constructor]]|done|done]. Qed.

(** What every block of a program does, and what is known of what it ends with. *)
Fixpoint legal {A} (p : task A) (Q : result exn A → Prop) : Prop :=
  match p with
  | Ret a => Q (Ok a)
  | Throw x => Q (Err x)
  | Do e k => ∀ a w b w' js, world_ok w → handle tt a w _ e = Some (b, w', js) → world_changes w w' ∧ js = [] ∧ legal (k b) Q
  end.
Lemma legal_mono {A} (p : task A) (Q Q' : result exn A → Prop) : (∀ r, Q r → Q' r) → legal p Q → legal p Q'.
Proof.
  intros HQ. induction p as [a|x|B e k IH]; cbn; [apply HQ|apply HQ|]. intros H a w b w' js Hw Hh.
  destruct (H a w b w' js Hw Hh) as (H1 & H2 & H3). split_and!; [done|done|by apply IH].
Qed.
Lemma legal_bind {A B} (p : task A) (f : A → task B) Q :
  legal p (λ r, match r with Ok a => legal (f a) Q | Err x => Q (Err x) end) → legal (p ≫= f) Q.
Proof.
  induction p as [a|x|D e k IH]; cbn; [done|done|]. intros H a w b w' js Hw Hh.
  destruct (H a w b w' js Hw Hh) as (H1 & H2 & H3). split_and!; [done|done|by apply IH].
Qed.
Lemma legal_catch {A} (p : task A) (h : exn → task A) Q :
  legal p (λ r, match r with Ok a => Q (Ok a) | Err x => legal (h x) Q end) → legal (catch p h) Q.
Proof.
  induction p as [a|x|D e k IH]; cbn; [done|done|]. intros H a w b w' js Hw Hh.
  destruct (H a w b w' js Hw Hh) as (H1 & H2 & H3). split_and!; [done|done|by apply IH].
Qed.
Lemma legal_settled {A} (p : task A) Q : legal p (λ r, Q (Ok r)) → legal (settled p) Q.
Proof.
  induction p as [a|x|D e k IH]; cbn; [done|done|]. intros H a w b w' js Hw Hh.
  destruct (H a w b w' js Hw Hh) as (H1 & H2 & H3). split_and!; [done|done|by apply IH].
Qed.
Lemma legal_of_result {A} (r : result exn A) (Q : result exn A → Prop) : Q r → legal (of_result r) Q.
Proof. by destruct r. Qed.
Lemma legal_sync {A} (f : World → A * World) (Q : result exn A → Prop) :
  (∀ w, world_ok w → world_moves w (f w).2 ∧ Q (Ok (f w).1)) → legal (effect (Sync f)) Q.
Proof. intros H a w b w' js Hw Hh. cbn in Hh. specialize (H w Hw). destruct (f w) as [v u]. injection Hh as <- <- <-. split_and!; [apply world_moves_changes, H|done|apply H]. Qed.
Lemma legal_change {A} (f : World → result exn (A * World)) (Q : result exn A → Prop) :
  (∀ w, world_ok w → match f w with Ok (a, w') => world_changes w w' ∧ Q (Ok a) | Err e => Q (Err e) end) → legal (block f) Q.
Proof.
  intros H a w b w' js Hw Hh. cbn in Hh. specialize (H w Hw). destruct (f w) as [[v u]|e]; injection Hh as <- <- <-.
  - split_and!; [apply H|done|apply H].
  - split_and!; [by apply world_moves_changes, world_moves_same|done|apply H].
Qed.
Lemma legal_block {A} (f : World → result exn (A * World)) (Q : result exn A → Prop) :
  (∀ w, world_ok w → match f w with Ok (a, w') => world_moves w w' ∧ Q (Ok a) | Err e => Q (Err e) end) → legal (block f) Q.
Proof.
  intros H. apply legal_change. intros w Hw. specialize (H w Hw). destruct (f w) as [[a w']|e]; [|done].
  destruct H as [H HQ]. split; [by apply world_moves_changes|done].
Qed.
Definition anything {A} : A → Prop := λ _, True.
(** An await changes nothing of a component. *)
Lemma legal_await {A} (e : eff A) (Q : result exn A → Prop) :
  (∀ a w b w' js, handle tt a w _ e = Some (b, w', js) → w_registry w' = w_registry w ∧ w_authority w' = w_authority w ∧ w_calls w' = w_calls w ∧ js = []) →
  (∀ b, Q (Ok b)) → legal (effect e) Q.
Proof.
  intros He HQ a w b w' js Hw Hh. destruct (He a w b w' js Hh) as (E1 & E2 & E3 & ->). split_and!; [by apply world_moves_changes, world_moves_same|done|apply HQ].
Qed.
Lemma legal_attempt {A} (e : eff (result exn A)) (Q : result exn A → Prop) : legal (effect e) (λ r, match r with Ok r => Q r | Err x => Q (Err x) end) → legal (attempt e) Q.
Proof.
  unfold attempt, effect. cbn. intros H a w b w' js Hw Hh. destruct (H a w b w' js Hw Hh) as (H1 & H2 & H3). split_and!; [done|done|by apply legal_of_result].
Qed.
#[local] Arguments legal : simpl never.
#[local] Ltac await := apply legal_await; [intros [] ? ? ? ? H; cbn in H; repeat case_match; by simplify_eq|try by intros].

(** ** The end of a binding *)
Definition known (e : RegisteredComponent) : Prop := binding_ok (rc_binding e).
Definition stage_known (s : stage) : Prop := match s with AtHost p _ | AtRelease _ p _ => known p | AtEnd _ => True end.
Lemma entry_known id e : entry_ok id e → known e.
Proof. by intros []. Qed.

Lemma forget_moves instanceId id w : world_ok w → world_moves w (forgetInstanceOperations instanceId id w).
Proof.
  intros Hw. unfold forgetInstanceOperations. destruct (expire _ _ _ _) as [[? ?] ?]. by apply world_moves_same.
Qed.
Lemma release_moves digest w : world_ok w → world_moves w (releaseArtifact digest w).2.
Proof. intros Hw. unfold releaseArtifact. destruct (references digest w); by apply world_moves_same. Qed.
Lemma finish_moves m effect authority p failures w : world_ok w →
  world_moves w (finish m effect authority p failures w).2 ∧ ∃ r, (finish m effect authority p failures w).1 = AtEnd r.
Proof.
  intros Hw. assert (∀ r, let s := match remove effect authority (w_registry w) with
    | Ok (_, registry) => (AtEnd r, forgetInstanceOperations (e_instanceId effect) (e_operationId effect) (with_registry registry w))
    | Err e => (AtEnd (Err e), w) end in world_moves w s.2 ∧ ∃ r', s.1 = AtEnd r') as H.
  { intros r. destruct (remove effect authority (w_registry w)) as [[e r']|e] eqn:E; cbn; [|split; [by apply world_moves_same|by eexists]].
    destruct (remove_moves _ _ _ _ _ (w_authority w) (wk_registry _ Hw) E) as [H1 H2]. split; [|by eexists].
    pose proof (world_moves_registry w r' Hw H1 H2) as Hm. eapply world_moves_trans; [exact Hm|]. apply forget_moves, Hm. }
  assert (∀ r, world_moves w w ∧ ∃ r', AtEnd r = AtEnd r') as H' by (intros r; split; [by apply world_moves_same|by eexists]).
  unfold finish. destruct m, failures; try destruct (_ && _); try apply H; try apply H'.
Qed.
Lemma to_release_moves m effect authority p failures w : world_ok w → known p →
  world_moves w (to_release m effect authority p failures w).2 ∧ stage_known (to_release m effect authority p failures w).1.
Proof.
  intros Hw Hp. unfold to_release. case_match.
  - pose proof (release_moves (e_artifactDigest effect) w Hw) as Hm. destruct (releaseArtifact _ w). by split.
  - destruct (finish_moves m effect authority p failures w Hw) as [H1 [r ->]]. by split.
Qed.
Lemma to_host_moves m effect authority p failures w : world_ok w → known p →
  world_moves w (to_host m effect authority p failures w).2 ∧ stage_known (to_host m effect authority p failures w).1.
Proof.
  intros Hw Hp. unfold to_host. case_match; [|by apply to_release_moves]. split; [by apply world_moves_call|done].
Qed.
Lemma progressed_moves effect authority h k answer p failures w : world_ok w → known p →
  let '(p', _, w') := progressed effect authority h k answer p failures w in world_moves w w' ∧ known p'.
Proof.
  intros Hw Hp. unfold progressed. destruct answer; [|split; [by apply world_moves_same|done]].
  destruct (updateStopProgress _ _ _ _ _) as [[e r]|x] eqn:E; [|split; [by apply world_moves_same|done]].
  destruct (updateStopProgress_moves _ _ _ _ _ _ _ (w_authority w) (wk_registry _ Hw) E) as (H1 & H2 & H3 & _).
  split; [by apply world_moves_registry|by eapply entry_known].
Qed.
Lemma on_host_moves m effect authority answer p failures w : world_ok w → known p →
  world_moves w (on_host m effect authority answer p failures w).2 ∧ stage_known (on_host m effect authority answer p failures w).1.
Proof.
  intros Hw Hp. unfold on_host. pose proof (progressed_moves effect authority true false answer p failures w Hw Hp) as H. destruct (progressed _ _ _ _ _ _ _ _) as [[p' f'] w'].
  destruct H as [H1 H2]. destruct (to_release_moves m effect authority p' f' w' (wm_ok _ _ H1) H2). split; [by eapply world_moves_trans|done].
Qed.
Lemma on_release_moves m effect authority answer p failures w : world_ok w → known p →
  world_moves w (on_release m effect authority answer p failures w).2.
Proof.
  intros Hw Hp. unfold on_release. pose proof (progressed_moves effect authority false true answer p failures w Hw Hp) as H. destruct (progressed _ _ _ _ _ _ _ _) as [[p' f'] w'].
  destruct H as [H1 H2]. destruct (finish_moves m effect authority p' f' w' (wm_ok _ _ H1)). by eapply world_moves_trans.
Qed.
Lemma begin_end_moves m effect authority e failures w : world_ok w → known e →
  world_moves w (begin_end m effect authority e failures w).2 ∧ stage_known (begin_end m effect authority e failures w).1.
Proof.
  intros Hw He. unfold begin_end. destruct (bool_decide (rc_state e = Stopping) && _) eqn:E; [by apply to_host_moves|].
  destruct (transition _ _ _ _ _) as [[p r]|x] eqn:Et; [|split; [by apply world_moves_same|done]].
  destruct (transition_moves _ _ _ _ _ _ _ (w_authority w) (wk_registry _ Hw) Et) as (H1 & H2 & H3 & _); try done.
  pose proof (world_moves_registry w r Hw H1 H2) as H4. destruct (to_host_moves m effect authority p failures _ (wm_ok _ _ H4) (entry_known _ _ H3)).
  split; [by eapply world_moves_trans|done].
Qed.

Lemma run_stage_legal m effect authority s : stage_known s → legal (run_stage m effect authority s) anything.
Proof.
  assert (∀ s, stage_known s → legal (released_stage m effect authority s) anything) as Hr.
  { intros t Ht. destruct t as [p f|r p f|r]; cbn [released_stage]; [done| |by apply legal_of_result].
    apply legal_bind. await. intros []. apply legal_bind. apply legal_sync. intros w Hw. split; [by apply on_release_moves|].
    destruct (on_release _ _ _ _ _ _ _).1; [done|done|by apply legal_of_result]. }
  intros Hs. destruct s as [p f|r p f|r]; cbn [run_stage]; [|by apply Hr|by apply Hr].
  apply legal_bind. await. intros answer. apply legal_bind. apply legal_sync. intros w Hw. destruct (on_host_moves m effect authority answer p f w Hw Hs) as [H1 H2].
  split; [done|]. by apply Hr.
Qed.
Lemma closeEntry_legal effect e authority : known e → legal (closeEntry effect e authority) anything.
Proof.
  intros He. unfold closeEntry. case_bool_decide as Ea.
  - apply legal_bind, legal_sync. intros w Hw. split; [by apply world_moves_call|]. apply legal_bind. await. intros answer. apply legal_bind, legal_sync. clear w Hw. intros w Hw.
    unfold on_drained. destruct answer as [u|x]; [|destruct (begin_end_moves InClose effect authority e [x] w Hw He); split; [done|by apply run_stage_legal]].
    destruct (transition _ _ _ _ _) as [[p r]|x] eqn:Et; [|destruct (begin_end_moves InClose effect authority e [x] w Hw He); split; [done|by apply run_stage_legal]].
    destruct (transition_moves _ _ _ _ _ _ _ (w_authority w) (wk_registry _ Hw) Et) as (H1 & H2 & H3 & _); try done.
    pose proof (world_moves_registry w r Hw H1 H2) as H4. destruct (begin_end_moves InClose effect authority p [] _ (wm_ok _ _ H4) (entry_known _ _ H3)).
    split; [by eapply world_moves_trans|by apply run_stage_legal].
  - apply legal_bind, legal_sync. intros w Hw. destruct (begin_end_moves InClose effect authority e [] w Hw He). split; [done|by apply run_stage_legal].
Qed.

(** ** Programs *)
Lemma prepare_legal effect authority : legal (prepare number_text effect authority) anything.
Proof.
  unfold prepare. apply legal_bind, legal_block. intros w Hw. unfold registered. destruct (JsMap.get _ _) as [e|].
  { destruct (assertMatches _ _ _); cbn; [|done]. split; [by apply world_moves_same|done]. }
  split; [by apply world_moves_same|]. apply legal_bind, legal_attempt. await. intros [[r|]|x]; [|done|done].
  destruct (identity_mismatch _ _); [done|]. apply legal_bind, legal_attempt. await. intros [artifact|x]; [|done].
  unfold bind_artifact. apply legal_catch. apply legal_bind, legal_block. clear w Hw. intros w Hw.
  assert (∀ x, legal (rollback effect x : task json) anything) as Hroll.
  { intros x. unfold rollback. apply legal_bind, legal_sync. intros w' Hw'. split; [by apply release_moves|]. apply legal_bind. await. intros []. by case_match. }
  destruct (ask_host number_text effect authority r artifact w) as [[p w']|x] eqn:E; [|apply Hroll]. split.
  { unfold ask_host in E. apply bind_ok in E as (u & _ & E). apply bind_ok in E as (p' & Ep & [= <- <-]).
    apply world_moves_call; [done|]. unfold preparation in Ep. destruct (List.find _ _) as [c|]; [|done]. destruct (List.find _ _) as [c'|]; [|done].
    apply bind_ok in Ep as (u' & Hc & Ep). apply bind_ok in Ep as (y & _ & [= <-]). apply throw_if_ok in Hc. rewrite !orb_false_iff, !negb_false_iff in Hc. cbn. by apply Hc. }
  apply legal_bind, legal_attempt. await. intros [x|x]; [|apply Hroll]. apply legal_change. clear w w' Hw E. intros w Hw.
  destruct (register_binding number_text effect authority p x w) as [[y w']|y] eqn:E; [|apply Hroll]. split; [|done].
  unfold register_binding in E. apply bind_ok in E as ([e r'] & Er & [= <- <-]).
  destruct (register_moves _ _ _ _ _ _ (w_authority w) (wk_registry _ Hw) Er) as (H1 & H2 & _). by apply world_changes_registry.
Qed.
Lemma hosted_legal effect authority e current next : known e → (next = BindingActive → current = Prepared) → (next = Draining → current = BindingActive) → next ≠ Prepared →
  legal (hosted effect authority e current next) anything.
Proof.
  intros He Ha Hd Hn. unfold hosted. apply legal_bind, legal_attempt. await. intros [u|x]; [|done]. apply legal_bind, legal_attempt, legal_sync. intros w Hw. unfold after_host, authorityMatches.
  case_bool_decide as Eq.
  - destruct (transition _ _ _ _ _) as [[p r]|x] eqn:Et; cbn; [|split; [by apply world_moves_same|done]].
    destruct (transition_moves _ _ _ _ _ _ _ (w_authority w) (wk_registry _ Hw) Et) as (H1 & H2 & _); [by intros E; split; [apply Ha|]|done|done|].
    split; [by apply world_moves_registry|done].
  - pose proof (begin_end_moves InCleanup effect authority e [] w Hw He) as [H1 H2]. destruct (begin_end _ _ _ _ _ _) as [s w']. cbn in *. split; [done|].
    unfold cleanupAfterAuthorityLoss. apply legal_bind. eapply legal_mono; [|by apply run_stage_legal]. by intros [].
Qed.
Definition admission_known (a : admission) : Prop :=
  match a with ToPrepare => True | ToStart e | ToDrain e => known e | ToStop s => stage_known s end.
Lemma admission_moves effect authority w a w' : world_ok w → admission_of supportedExecutors effect authority w = Ok (a, w') → world_moves w w' ∧ admission_known a.
Proof.
  intros Hw E. unfold admission_of in E. apply bind_ok in E as (u & _ & E). apply bind_ok in E as (u' & Ea & E).
  assert (authority = w_authority w) as ->.
  { unfold assertCurrentAuthority in Ea. apply throw_if_ok, negb_false_iff in Ea. unfold authorityMatches in Ea. by apply bool_decide_eq_true in Ea. }
  destruct (e_kind effect) eqn:Ek; [|by injection E as <- <-; split; [apply world_moves_same|]|..].
  all: apply bind_ok in E as (e & Er & E); apply require_ok in Er; pose proof (entry_known _ _ (proj2 (wk_registry _ Hw) _ _ Er)) as He;
    apply bind_ok in E as ([e1 w1] & E1 & E).
  - rewrite bool_decide_false in E1 by done. cbn in E1. apply bind_ok in E1 as (? & _ & [= <- <-]). apply bind_ok in E as (? & _ & [= <- <-]). split; [by apply world_moves_call|done].
  - rewrite bool_decide_false in E1 by done. cbn in E1. apply bind_ok in E1 as (? & _ & [= <- <-]). apply bind_ok in E as (? & _ & [= <- <-]). split; [by apply world_moves_call|done].
  - assert (world_moves w w1 ∧ known e1) as [H1 H2].
    { destruct (_ && _ && _) in E1.
      - apply bind_ok in E1 as ([e' r'] & Et & [= <- <-]). destruct (takeover_moves _ _ _ _ _ (wk_registry _ Hw) Et) as (K1 & K2 & K3 & _).
        split; [by apply world_moves_registry|by eapply entry_known].
      - apply bind_ok in E1 as (? & _ & [= <- <-]). split; [by apply world_moves_same|done]. }
    pose proof (begin_end_moves InStop effect (w_authority w) e1 [] w1 (wm_ok _ _ H1) H2) as [H3 H4]. destruct (begin_end _ _ _ _ _ _) as [s w2]. injection E as <- <-.
    split; [by eapply world_moves_trans|done].
Qed.
Lemma legal_any {A B} (p : task A) (q : A → task B) : legal p anything → (∀ a, legal (q a) anything) → legal (p ≫= q) anything.
Proof. intros Hp Hq. apply legal_bind. eapply legal_mono; [|exact Hp]. intros [a|x] _; [apply Hq|done]. Qed.
Lemma perform_legal effect authority : legal (perform_effect number_text supportedExecutors effect authority) anything.
Proof.
  unfold perform_effect. apply legal_bind, legal_block. intros w Hw. destruct (admission_of supportedExecutors effect authority w) as [[a w']|x] eqn:E; [|done].
  destruct (admission_moves _ _ _ _ _ Hw E) as [H1 H2]. split; [done|]. destruct a as [|e|e|s]; apply legal_any; try done; [apply prepare_legal|by apply hosted_legal|by apply hosted_legal|by apply run_stage_legal].
Qed.

Lemma legal_look {A} (f : World → result exn (A * World)) (Q : A → Prop) :
  (∀ w a w', world_ok w → f w = Ok (a, w') → world_moves w w' ∧ Q a) → legal (block f) (λ r, match r with Ok a => Q a | Err _ => True end).
Proof. intros H. apply legal_block. intros w Hw. destruct (f w) as [[a w']|x] eqn:E; [|done]. by apply H. Qed.
(** A block, and what it tells the rest. *)
Lemma legal_then {A B} (f : World → result exn (A * World)) (Q : A → Prop) (q : A → task B) :
  (∀ w a w', world_ok w → f w = Ok (a, w') → world_moves w w' ∧ Q a) → (∀ a, Q a → legal (q a) anything) → legal (block f ≫= q) anything.
Proof. intros Hf Hq. apply legal_bind. eapply legal_mono; [|by apply legal_look]. intros [a|x]; [apply Hq|done]. Qed.
Lemma required_known id w e : world_ok w → require id (w_registry w) = Ok e → known e.
Proof. intros Hw H%require_ok. eapply entry_known, Hw, H. Qed.

Lemma restore_legal instance effect authority : legal (restore_instance number_text instance effect authority) anything.
Proof.
  unfold restore_instance. eapply (legal_then _ (λ _, True)).
  { intros w a w' Hw H. apply bind_ok in H as (u & _ & [= <- <-]). split; [by apply world_moves_same|done]. }
  intros _ _. case_bool_decide as Ek; [apply legal_any; [apply prepare_legal|done]|].
  eapply (legal_then _ (λ s, match s with Some (Some e) => known e | _ => True end)).
  { intros w a w' Hw H. unfold restored in H. destruct (JsMap.get _ _) as [e|] eqn:Ee.
    - apply bind_ok in H as (u & _ & H). destruct (_ || _); [injection H as <- <-; split; [by apply world_moves_same|done]|].
      apply bind_ok in H as (u' & _ & [= <- <-]). assert (known e) as He by (eapply entry_known, (proj2 (wk_registry _ Hw)), Ee). split; [by apply world_moves_call|done].
    - injection H as <- <-. split; [by apply world_moves_same|done]. }
  intros [[e|]|] He; [| |done].
  - apply legal_any; [by apply hosted_legal|done].
  - apply legal_any; [apply prepare_legal|]. intros _. eapply (legal_then _ known).
    { intros w a w' Hw H. apply bind_ok in H as (e & H & [= <- <-]). pose proof (required_known _ _ _ Hw H). split; [by apply world_moves_call|done]. }
    intros e Hk. apply legal_any; [by apply hosted_legal|done].
Qed.
Lemma restore_termination_legal instance authority : legal (restore_termination number_text sha256 restores instance authority) anything.
Proof.
  unfold restore_termination. eapply (legal_then _ (λ _, True)).
  { intros w a w' Hw H. apply bind_ok in H as (? & _ & H). apply bind_ok in H as (? & _ & H). apply bind_ok in H as (? & _ & [= <- <-]). split; [by apply world_moves_same|done]. }
  intros effect _. apply legal_any; [apply prepare_legal|]. intros _. eapply (legal_then _ (λ s, match s with Some e => rc_state e ≠ Stopping | None => True end)).
  { intros w a w' Hw H. apply bind_ok in H as (e & He & H). apply bind_ok in H as (? & _ & H). case_bool_decide as Es; [injection H as <- <-; split; [by apply world_moves_same|done]|].
    apply bind_ok in H as (? & _ & [= <- <-]). pose proof (required_known _ _ _ Hw He). destruct restores; (split; [|done]); [by apply world_moves_call|by apply world_moves_same]. }
  intros [e|] He; [|done]. apply legal_any.
  { destruct restores; [apply legal_attempt; await; by intros []|]. by await. }
  intros _. apply legal_block. intros w Hw. destruct (transition _ _ _ _ _) as [[p r]|x] eqn:Et; cbn; [|done].
  destruct (transition_moves _ _ _ _ _ _ _ (w_authority w) (wk_registry _ Hw) Et) as (H1 & H2 & _); try done. split; [by apply world_moves_registry|done].
Qed.
Lemma restore_starting_legal effect : legal (restore_starting number_text supportedExecutors effect) anything.
Proof.
  unfold restore_starting. eapply (legal_then _ (λ _, True)).
  { intros w a w' Hw H. repeat (apply bind_ok in H as (? & _ & H)). injection H as <- <-. split; [by apply world_moves_same|done]. }
  intros authority _. apply legal_any; [apply prepare_legal|done].
Qed.
Lemma close_entries_legal authority es : Forall known es → legal (close_entries sha256 authority es) anything.
Proof.
  induction 1 as [|e es He _ IH]; cbn [close_entries]; [done|]. case_match; [done|]. apply legal_any; [by apply legal_of_result|]. intros effect.
  apply legal_any; [by apply closeEntry_legal|]. intros failures. by apply legal_any.
Qed.
Lemma closeAuthority_legal authority prefix : legal (closeAuthority sha256 authority prefix) anything.
Proof.
  unfold closeAuthority. apply legal_bind, legal_sync. intros w Hw. split; [by apply world_moves_same|]. apply legal_bind. await. intros _.
  apply legal_bind, legal_sync. clear w Hw. intros w Hw. split; [by apply world_moves_same|]. apply legal_any; [|by intros []]. apply close_entries_legal.
  apply Forall_forall. intros e He. unfold entries, JsMap.values in He. apply list_elem_of_fmap in He as ([id e'] & -> & He). cbn in *.
  destruct (wk_registry _ Hw) as [Hwf Hr]. apply (JsMap.in_get _ _ _ Hwf) in He. by eapply entry_known, Hr.
Qed.
Lemma settles_legal (p : task (option json)) promise react : legal p anything →
  (∀ b w, w_registry (react b w) = w_registry w ∧ w_authority (react b w) = w_authority w ∧ w_calls (react b w) = w_calls w) → legal (settles p promise react) anything.
Proof.
  intros Hp Hr. unfold settles. apply legal_any; [by apply legal_settled; eapply legal_mono; [|exact Hp]|]. intros r. apply legal_sync. intros w Hw. split; [|done].
  destruct (Hr (is_ok r) (settle promise r w)) as (E1 & E2 & E3). by apply world_moves_same.
Qed.
Lemma start_legal j : legal (start number_text sha256 supportedExecutors restores j) anything.
Proof.
  destruct j as [p effect authority|p key instance effect authority|p instance authority|p effect|p authority prefix]; cbn [start]; apply settles_legal; try done;
    try first [apply perform_legal|apply restore_legal|apply restore_termination_legal|apply restore_starting_legal|apply closeAuthority_legal].
  - intros b w. unfold operation_settled. destruct (JsMap.get _ _) as [o|]; [|done]. destruct (negb _); [done|]. destruct b; [done|].
    unfold retainFailedOperation. by destruct (expire_failed _ _ _ _).
  - intros b w. unfold restoration_settled. destruct (JsMap.get _ _) as [o|]; [|done]. by destruct (_ =? _)%nat.
  - intros b w. unfold close_settled. by case_match.
Qed.

(** ** The pool *)
Abbreviation happens := (happens number_text sha256 supportedExecutors restores).
Abbreviation history := (history number_text sha256 supportedExecutors restores).
Abbreviation components_pool := (pool eff exn World unit).
Definition pool_legal (q : components_pool) : Prop := world_ok (p_world q) ∧ Forall (λ t, legal t.2 anything) (p_threads q).
Lemma invoke_same m w : let w' := (invoke number_text sha256 m w).2 in w_registry w' = w_registry w ∧ w_authority w' = w_authority w ∧ w_calls w' = w_calls w.
Proof.
  destruct m; cbn; unfold perform, restore, restoreTermination, restoreStarting, close, promise; repeat case_match; simplify_eq/=; done.
Qed.
Lemma happens_legal q h : pool_legal q → pool_legal (happens q h) ∧ changes (w_authority (p_world q)) (w_registry (p_world q)) (w_registry (p_world (happens q h))).
Proof.
  intros [Hw Ht]. assert (∀ a r, changes a r r) as Hrefl by (intros a r; by apply moves_changes).
  destruct h as [thread a|m|a]; cbn [ComponentEffects.happens].
  - unfold run_at. destruct (p_threads q !! thread) as [[[] p]|] eqn:Ep; [|by split]. pose proof (Forall_lookup_1 _ _ _ _ Ht Ep) as Hp. unfold run_thread. cbn [fst snd] in *.
    destruct p as [r|x|B e k]; [by split|by split|]. destruct (handle tt a (p_world q) B e) as [[[b w'] js]|] eqn:Eh; [|by split].
    destruct (Hp a _ b w' js Hw Eh) as (H1 & -> & H3). cbn. split; [|apply H1]. split; [apply H1|]. cbn. rewrite app_nil_r. by apply Forall_insert.
  - pose proof (invoke_same m (p_world q)) as (E1 & E2 & E3). destruct (invoke _ _ _ _) as [r w']. cbn in *. split; [|by rewrite E1]. split; cbn.
    + destruct Hw. split; by rewrite ?E1, ?E3.
    + apply Forall_app. split; [done|]. destruct r as [[p js]|x]; [|constructor]. unfold spawned. apply Forall_map. apply Forall_forall. intros j _. apply start_legal.
  - split; [|done]. split; [by destruct Hw; split|done].
Qed.
Lemma history_legal hs : pool_legal (history no_components hs).
Proof.
  unfold ComponentEffects.history. induction hs as [|h hs IH] using rev_ind.
  - split; [|constructor]. split; [|constructor]. split; [constructor|done].
  - rewrite foldl_app. by apply happens_legal.
Qed.

(** The states of a component in their order. *)
Definition state_rank (s : ComponentBindingState) : Z :=
  match s with Prepared => 0 | BindingActive => 1 | Draining => 2 | Stopping => 3 end.
Lemma entry_change_rank a id e e' : entry_change a id (Some e) (Some e') → state_rank (rc_state e) ≤ state_rank (rc_state e').
Proof.
  intros [H|[? _]]; [|done]. remember (Some e) as o eqn:E. remember (Some e') as o' eqn:E'. revert e e' E E'.
  induction H as [o|o o1 o' Hs Hr IH]; intros e e' -> E'; [injection E' as ->; lia|].
  destruct o1 as [e1|]; [|by inversion Hr as [|? ? ? H]; [subst|inversion H]].
  specialize (IH e1 e' eq_refl E'). assert (state_rank (rc_state e) ≤ state_rank (rc_state e1)); [|lia].
  inversion Hs as [x H H'|x H|x H|x h y H|x H H'|]; subst; cbn; rewrite ?H; cbn; try lia. by destruct (rc_state e).
Qed.
(** C14. Whatever calls are made, however they interleave and whatever the host, the
    deployments, the artifacts and the authority do, an event either registers a
    component that is not in the registry, prepared and validated, or moves it only
    forward along its lifecycle: it gets active only from prepared and under the current
    authority, drains only when active, makes progress and is taken over (by a newer
    epoch of its resource) only when stopping, never leaves stopping but out of the
    registry, and is not removed half stopped; one event never removes and registers.
    An entry takes tasks exactly when active, progress is made only when stopping, and
    the host is called only for what was validated. *)
Theorem components_follow_lifecycle hs h :
  let q := history no_components hs in
  let q' := happens q h in
  (∀ id, entry_change (w_authority (p_world q)) id (JsMap.get (w_registry (p_world q)) id) (JsMap.get (w_registry (p_world q')) id)) ∧
  (∀ id e e', JsMap.get (w_registry (p_world q)) id = Some e → JsMap.get (w_registry (p_world q')) id = Some e' →
     state_rank (rc_state e) ≤ state_rank (rc_state e')) ∧
  (∀ id e, JsMap.get (w_registry (p_world q')) id = Some e → entry_ok id e) ∧
  Forall call_ok (w_calls (p_world q')).
Proof.
  intros q q'. pose proof (history_legal hs) as Hq. fold q in Hq. destruct (happens_legal q h Hq) as [[[H1 H2] _] Hm]. fold q' in H1, H2, Hm.
  split; [exact Hm|]. split; [|split; [apply H1|done]]. intros id e e' He He'. specialize (Hm id). rewrite He, He' in Hm. by eapply entry_change_rank.
Qed.

End laws.
