(* ===== verification/EffectReferences.v ===== *)
(** * The references to artifacts

    Calls of ComponentEffects.v that are made one at a time end, and leave exactly one
    reference for every registered component whose artifact was not released, whatever
    the host, the deployments, the artifacts and the authority do meanwhile. *)

From S2P Require Import Prelude JsString Collections JsValue Identity JsonText Canonical Lifecycle Placement Plan Task Reconciler ComponentRegistry Async ComponentEffects EffectLaws.

Open Scope Z_scope.

#[local] Arguments parseActivation : simpl never.
#[local] Arguments matchesIdentity : simpl never.
#[local] Arguments assertMatches : simpl never.
#[local] Arguments JsMap.get : simpl never.
#[local] Arguments JsMap.set : simpl never.
#[local] Arguments JsMap.delete : simpl never.

(** ** One call alone *)
(** What answers the awaits: the n-th of each, and the authority at the time. *)
Record oracle := {
  or_host : nat → result exn unit;
  or_binding : nat → result exn json;
  or_deployment : nat → result exn (option ValidatedComponentDeployment);
  or_artifact : nat → result exn PreparedArtifact;
  or_authority : nat → option RuntimeAuthority;
}.
Definition answer_to (o : oracle) (n : nat) {B} (e : eff B) : answer :=
  match e with
  | AwaitHost => AHost (or_host o n)
  | AwaitBinding => ABinding (or_binding o n)
  | AwaitDeployment => ADeployment (or_deployment o n)
  | AwaitArtifact _ => AArtifact (or_artifact o n)
  | _ => ANothing
  end.
(** A program from its beginning to its end; [None] when it waits for a promise that
    nothing settles. *)
Fixpoint alone {A} (o : oracle) (p : task A) (n : nat) (w : World) : option (result exn A * nat * World) :=
  match p with
  | Ret a => Some (Ok a, n, w)
  | Throw x => Some (Err x, n, w)
  | Do e k =>
      match handle tt (answer_to o n e) (with_current (or_authority o n) w) _ e with
      | Some (b, w', _) => alone o (k b) (S n) w'
      | None => None
      end
  end.

(** ** Counting *)
Definition contributes (digest : jstring) (e : RegisteredComponent) : Z :=
  if streq (pa_digest (cp_artifact (rc_binding e))) digest && negb (rc_artifactReleased e) then 1 else 0.
(** The registered components that hold a reference to an artifact. *)
Definition held (digest : jstring) (r : ComponentRegistry) : Z := foldr Z.add 0 (map (contributes digest) (entries r)).

Lemma contributes_range d e : 0 <= contributes d e <= 1.
Proof. unfold contributes. case_match; lia. Qed.
Lemma held_nonneg d r : 0 <= held d r.
Proof. unfold held. induction (entries r) as [|e l IH]; cbn; [lia|]. pose proof (contributes_range d e). lia. Qed.
Lemma held_cons d id e r : held d ((id, e) :: r) = contributes d e + held d r.
Proof. done. Qed.
Section cons.
Context {V : Type}.
Implicit Types (r : jsmap jstring V).
Lemma get_cons id k (v : V) r : JsMap.get ((k, v) :: r) id = if bool_decide (k = id) then Some v else JsMap.get r id.
Proof. done. Qed.
Lemma set_cons id k (v v' : V) r : JsMap.set ((k, v) :: r) id v' = if bool_decide (k = id) then (k, v') :: r else (k, v) :: JsMap.set r id v'.
Proof. done. Qed.
Lemma delete_cons id k (v : V) r : JsMap.delete ((k, v) :: r) id = if bool_decide (k = id) then r else (k, v) :: JsMap.delete r id.
Proof. done. Qed.
End cons.
Lemma held_new d r id e : JsMap.get r id = None → held d (JsMap.set r id e) = held d r + contributes d e.
Proof.
  induction r as [|[k x] r IH]; [intros _; change (JsMap.set [] id e) with [(id, e)]; rewrite held_cons; lia|]. rewrite get_cons, set_cons. case_bool_decide; [done|]. intros H'. rewrite !held_cons, IH by done. lia.
Qed.
Lemma held_set d r id e e' : JsMap.get r id = Some e → held d (JsMap.set r id e') = held d r - contributes d e + contributes d e'.
Proof.
  induction r as [|[k x] r IH]; [done|]. rewrite get_cons, set_cons. case_bool_decide; intros H'.
  - injection H' as ->. rewrite !held_cons. lia.
  - rewrite !held_cons, IH by done. lia.
Qed.
Lemma held_delete d r id e : JsMap.get r id = Some e → held d (JsMap.delete r id) = held d r - contributes d e.
Proof.
  induction r as [|[k x] r IH]; [done|]. rewrite get_cons, delete_cons. case_bool_decide; intros H'.
  - injection H' as ->. rewrite held_cons. lia.
  - rewrite !held_cons, IH by done. lia.
Qed.
Lemma held_get d r id e : JsMap.get r id = Some e → contributes d e <= held d r.
Proof. intros H. pose proof (held_delete d r id e H). pose proof (held_nonneg d (JsMap.delete r id)). lia. Qed.

#[local] Arguments held : simpl never.
#[local] Arguments contributes : simpl never.

Section references.
Context (number_text : jsnum → jstring) (sha256 : jstring → jstring) (supportedExecutors : list ExecutorKind) (restores : bool).
Abbreviation registry_ok := (registry_ok number_text).

(** ** Programs alone *)
(** The answer an await may get. *)
Definition answers {B} (e : eff B) (a : answer) : Prop :=
  match e, a with
  | AwaitHost, AHost _ | AwaitBinding, ABinding _ | AwaitDeployment, ADeployment _ | AwaitArtifact _, AArtifact _ => True
  | Sync _, _ | Tick, _ | AwaitAll _, _ => True
  | _, _ => False
  end.
(** The program ends, with this outcome and world, whatever it is answered. *)
Fixpoint ends {A} (p : task A) (Q : result exn A → World → Prop) (w : World) : Prop :=
  match p with
  | Ret a => Q (Ok a) w
  | Throw x => Q (Err x) w
  | Do e k => ∀ authority a, answers e a → ∃ b w', handle tt a (with_current authority w) _ e = Some (b, w', []) ∧ ends (k b) Q w'
  end.
Lemma ends_alone {A} o (p : task A) Q n w : ends p Q w → ∃ r n' w', alone o p n w = Some (r, n', w') ∧ Q r w'.
Proof.
  revert n w. induction p as [a|x|B e k IH]; intros n w H; cbn in *; [by eexists _, _, _|by eexists _, _, _|].
  destruct (H (or_authority o n) (answer_to o n e)) as (b & w' & -> & Hk); [by destruct e|]. by apply IH.
Qed.
Lemma ends_mono {A} (p : task A) (Q Q' : result exn A → World → Prop) w : (∀ r w', Q r w' → Q' r w') → ends p Q w → ends p Q' w.
Proof.
  intros HQ. revert w. induction p as [a|x|B e k IH]; intros w H; cbn in *; [by apply HQ|by apply HQ|].
  intros authority a Ha. destruct (H authority a Ha) as (b & w' & E & Hk). exists b, w'. split; [done|]. by apply IH.
Qed.
Lemma ends_bind {A B} (p : task A) (f : A → task B) Q w :
  ends p (λ r w', match r with Ok a => ends (f a) Q w' | Err x => Q (Err x) w' end) w → ends (p ≫= f) Q w.
Proof.
  revert w. induction p as [a|x|D e k IH]; intros w H; cbn in *; [done|done|].
  intros authority a Ha. destruct (H authority a Ha) as (b & w' & E & Hk). exists b, w'. split; [done|]. by apply IH.
Qed.
Lemma ends_catch {A} (p : task A) (h : exn → task A) Q w :
  ends p (λ r w', match r with Ok a => Q (Ok a) w' | Err x => ends (h x) Q w' end) w → ends (catch p h) Q w.
Proof.
  revert w. induction p as [a|x|D e k IH]; intros w H; cbn in *; [done|done|].
  intros authority a Ha. destruct (H authority a Ha) as (b & w' & E & Hk). exists b, w'. split; [done|]. by apply IH.
Qed.
Lemma ends_settled {A} (p : task A) Q w : ends p (λ r w', Q (Ok r) w') w → ends (settled p) Q w.
Proof.
  revert w. induction p as [a|x|D e k IH]; intros w H; cbn in *; [done|done|].
  intros authority a Ha. destruct (H authority a Ha) as (b & w' & E & Hk). exists b, w'. split; [done|]. by apply IH.
Qed.
Lemma ends_of_result {A} (r : result exn A) Q w : Q r w → ends (of_result r) Q w.
Proof. by destruct r. Qed.
Lemma ends_sync {A} (f : World → A * World) Q w : (∀ authority, let '(b, w') := f (with_current authority w) in Q (Ok b) w') → ends (effect (Sync f)) Q w.
Proof. intros H authority a _. specialize (H authority). cbn. destruct (f (with_current authority w)) as [b w']. by exists b, w'. Qed.
Lemma ends_block {A} (f : World → result exn (A * World)) Q w :
  (∀ authority, match f (with_current authority w) with Ok (b, w') => Q (Ok b) w' | Err e => Q (Err e) (with_current authority w) end) → ends (block f) Q w.
Proof.
  intros H authority a _. specialize (H authority). cbn. destruct (f (with_current authority w)) as [[b w']|e]; eexists _, _; (split; [done|]); exact H.
Qed.
Lemma ends_host Q w : (∀ authority r, Q (Ok r) (with_current authority w)) → ends (effect AwaitHost) Q w.
Proof. intros H authority [r| | | |] Ha; try done. exists r, (with_current authority w). split; [done|apply H]. Qed.
Lemma ends_tick Q w : (∀ authority, Q (Ok tt) (with_current authority w)) → ends (effect Tick) Q w.
Proof. intros H authority a _. exists tt, (with_current authority w). split; [done|apply H]. Qed.
Lemma ends_attempt {A} (e : eff (result exn A)) Q w :
  ends (effect e) (λ r w', match r with Ok r => Q r w' | Err x => Q (Err x) w' end) w → ends (attempt e) Q w.
Proof.
  intros H authority a Ha. destruct (H authority a Ha) as (b & w' & E & Hk). exists b, w'. split; [done|]. by apply ends_of_result.
Qed.
#[local] Arguments ends : simpl never.

(** ** Balance *)
(** What the programs leave alone, and the references: one for each registered
    component that holds one, and [k] for one artifact. *)
Record balance (ps : list (option (result exn (option json)))) (rs : jsmap jstring InFlightRestoration) (d : jstring) (k : Z) (w : World) : Prop := {
  ba_registry : registry_ok (w_registry w);
  ba_references : ∀ d', Z.of_nat (references d' w) = held d' (w_registry w) + (if bool_decide (d' = d) then k else 0);
  ba_promises : w_promises w = ps;
  ba_restorations : w_restorations w = rs;
}.
Context (ps : list (option (result exn (option json)))) (rs : jsmap jstring InFlightRestoration).
Abbreviation bal := (balance ps rs).
Lemma bal_current d k w a : bal d k w → bal d k (with_current a w).
Proof. by intros [H1 H2 H3 H4]. Qed.
Lemma bal_call d k w c : bal d k w → bal d k (call c w).
Proof. by intros [H1 H2 H3 H4]. Qed.
Lemma bal_digest d d' w : bal d 0 w → bal d' 0 w.
Proof. intros [H1 H2 H3 H4]. split; try done. intros x. rewrite H2. by repeat case_bool_decide. Qed.
Lemma bal_forget d k w i o : bal d k w → bal d k (forgetInstanceOperations i o w).
Proof. intros [H1 H2 H3 H4]. unfold forgetInstanceOperations. destruct (expire _ _ _ _) as [[? ?] ?]. by split. Qed.
(** The artifact is released. *)
Lemma bal_release d k w : bal d k w → 0 < held d (w_registry w) + k →
  (releaseArtifact d w).1 = Ok tt ∧ bal d (k - 1) (releaseArtifact d w).2 ∧ w_registry (releaseArtifact d w).2 = w_registry w.
Proof.
  intros [H1 H2 H3 H4] Hk. pose proof (H2 d) as H5. rewrite bool_decide_true in H5 by done. unfold releaseArtifact. destruct (references d w) as [|n] eqn:E; [lia|].
  cbn. split_and!; [done| |done]. split; try done. intros d'. cbn. specialize (H2 d'). unfold references in *. cbn. destruct (decide (d' = d)) as [->|Hne].
  - rewrite lookup_insert_eq. rewrite bool_decide_true by done. cbn. lia.
  - rewrite lookup_insert_ne by done. rewrite bool_decide_false by done. by rewrite bool_decide_false in H2 by done.
Qed.
(** The registry moves. *)
Lemma bal_registry d k k' w r : bal d k w → registry_ok r →
  (∀ d', held d' r + (if bool_decide (d' = d) then k' else 0) = held d' (w_registry w) + (if bool_decide (d' = d) then k else 0)) → bal d k' (with_registry r w).
Proof. intros [H1 H2 H3 H4] Hr Hh. split; try done. intros d'. cbn. rewrite Hh. apply H2. Qed.

(** ** The end of a binding *)
Lemma assertMatches_binding effect e e' authority : rc_binding e' = rc_binding e → assertMatches effect e' authority = assertMatches effect e authority.
Proof. intros E. unfold assertMatches, matches, matchesIdentity. by rewrite E. Qed.
Lemma assertMatches_digest effect e authority : assertMatches effect e authority = Ok tt → pa_digest (cp_artifact (rc_binding e)) = e_artifactDigest effect.
Proof.
  intros [_ H]%assertMatches_authority. unfold matchesIdentity in H. apply bind_ok in H as (a & _ & H). apply bind_ok in H as (b & _ & [= H]).
  rewrite !andb_true_iff in H. destruct H as [[[[[[[[[_ _] H] _] _] _] _] _] _] _]. by apply streq_true in H.
Qed.
Lemma contributes_held effect e authority : assertMatches effect e authority = Ok tt →
  ∀ d', contributes d' e = if bool_decide (d' = e_artifactDigest effect) then (if rc_artifactReleased e then 0 else 1) else 0.
Proof.
  intros H d'. unfold contributes. rewrite (assertMatches_digest _ _ _ H). case_bool_decide as E.
  - subst. rewrite (proj2 (streq_true _ _) eq_refl). by destruct (rc_artifactReleased e).
  - destruct (streq _ _) eqn:Es; [|done]. by apply streq_true in Es.
Qed.

Section end_.
Context (effect : ReconcileEffect) (authority : option RuntimeAuthority) (F : jstring → option RegisteredComponent).
Abbreviation d := (e_artifactDigest effect).
Definition others (w : World) : Prop := ∀ id, id ≠ e_instanceId effect → JsMap.get (w_registry w) id = F id.
Definition current (p : RegisteredComponent) (w : World) : Prop :=
  JsMap.get (w_registry w) (e_instanceId effect) = Some p ∧ assertMatches effect p authority = Ok tt ∧ rc_state p = Stopping.
Definition stage_good (m : mode) (s : stage) (w : World) : Prop :=
  others w ∧
  match s with
  | AtHost p _ => bal d 0 w ∧ current p w ∧ (m = InCleanup → rc_artifactReleased p = false)
  | AtRelease r p _ => r = Ok tt ∧ bal d (-1) w ∧ current p w ∧ rc_artifactReleased p = false
  | AtEnd _ => bal d 0 w
  end.

Lemma others_put w e : others w → others (with_registry (put effect e (w_registry w)) w).
Proof. intros H id Hid. cbn. unfold put. rewrite JsMap.get_set_ne by done. by apply H. Qed.
Lemma finish_good m p failures w : others w → bal d 0 w → current p w → stage_good m (finish m effect authority p failures w).1 (finish m effect authority p failures w).2.
Proof.
  intros Ho Hb (Hg & Hm & Hs). assert (∀ r, stage_good m (AtEnd r) w) as Hn by done.
  assert (∀ r, rc_hostStopped p && rc_artifactReleased p = true → let s := match remove effect authority (w_registry w) with
    | Ok (_, registry) => (AtEnd r, forgetInstanceOperations (e_instanceId effect) (e_operationId effect) (with_registry registry w))
    | Err e => (AtEnd (Err e), w) end in stage_good m s.1 s.2) as H.
  { intros r Hc. apply andb_true_iff in Hc as [Hh Ha]. destruct (remove effect authority (w_registry w)) as [[e r']|e] eqn:E; cbn; [|done].
    destruct (remove_moves _ _ _ _ _ _ None (ba_registry _ _ _ _ _ Hb) E) as [H1 H2]. unfold remove in E. apply bind_ok in E as (e0 & He & E). apply require_ok in He.
    rewrite Hg in He. injection He as <-. apply bind_ok in E as (u & _ & E). apply bind_ok in E as (u' & _ & [= <- <-]). split.
    - intros id Hid. unfold forgetInstanceOperations. destruct (expire _ _ _ _) as [[? ?] ?]. cbn. rewrite JsMap.get_delete_ne by done. by apply Ho.
    - apply bal_forget. eapply bal_registry; [done| |].
      + eapply moves_ok; [|done|exact H1]. apply Hb.
      + intros d'. rewrite (held_delete _ _ _ _ Hg), (contributes_held _ _ _ Hm), Ha. case_bool_decide; lia. }
  unfold finish. destruct m, failures; try apply Hn; try (destruct (_ && _); [by apply H|apply Hn]).
Qed.
Lemma to_release_good m p failures w : others w → bal d 0 w → current p w → (m = InCleanup → rc_artifactReleased p = false) →
  stage_good m (to_release m effect authority p failures w).1 (to_release m effect authority p failures w).2.
Proof.
  intros Ho Hb Hc Hm. unfold to_release. destruct (match m with InCleanup => true | _ => negb (rc_artifactReleased p) end) eqn:E; [|by apply finish_good].
  assert (rc_artifactReleased p = false) as Hr by (destruct m; [by apply negb_true_iff|by apply Hm|by apply negb_true_iff]).
  pose proof Hc as (Hg & Ha & Hs). destruct (bal_release _ _ _ Hb) as (H1 & H2 & H3).
  { pose proof (held_get d _ _ _ Hg) as H. rewrite (contributes_held _ _ _ Ha), bool_decide_true, Hr in H by done. lia. }
  destruct (releaseArtifact d w) as [r w']. cbn in *. subst r. split; [by intros id Hid; rewrite H3; apply Ho|]. split_and!; try done. by unfold current; rewrite H3.
Qed.
Lemma to_host_good m p failures w : others w → bal d 0 w → current p w → (m = InCleanup → rc_artifactReleased p = false) →
  stage_good m (to_host m effect authority p failures w).1 (to_host m effect authority p failures w).2.
Proof. intros Ho Hb Hc Hm. unfold to_host. case_match; [|by apply to_release_good]. split; [done|]. split_and!; [by apply bal_call|done..]. Qed.
Lemma update_current h a p w : current p w →
  updateStopProgress effect h a authority (w_registry w) = Ok (with_progress h a p, put effect (with_progress h a p) (w_registry w)).
Proof.
  intros (Hg & Hm & Hs). unfold updateStopProgress. rewrite (proj2 (require_ok _ _ _) Hg). cbn. rewrite Hm. cbn. by rewrite bool_decide_true by done.
Qed.
Lemma put_current w e : assertMatches effect e authority = Ok tt → rc_state e = Stopping → current e (with_registry (put effect e (w_registry w)) w).
Proof. intros Hm Hs. unfold current, put. cbn. by rewrite JsMap.get_set_eq. Qed.
Lemma bal_update (h a : bool) (k k' : Z) p w : bal d k w → current p w → k' - k = (if rc_artifactReleased p then 0 else if a then 1 else 0) →
  bal d k' (with_registry (put effect (with_progress h a p) (w_registry w)) w).
Proof.
  intros Hb Hc Hk. destruct (updateStopProgress_moves number_text _ _ _ _ _ _ _ None (ba_registry _ _ _ _ _ Hb) (update_current h a p w Hc)) as (H1 & H2 & _).
  destruct Hc as (Hg & Hm & Hs). eapply bal_registry; [exact Hb| |].
  - eapply moves_ok; [|done|exact H1]. apply Hb.
  - intros d'. unfold put. rewrite (held_set _ _ _ _ _ Hg), (contributes_held _ p _ Hm).
    rewrite (contributes_held effect (with_progress h a p) authority) by by rewrite (assertMatches_binding _ p).
    cbn. case_bool_decide; [|lia]. destruct (rc_artifactReleased p), a; cbn; lia.
Qed.
Lemma on_host_good m answer p failures w : stage_good m (AtHost p failures) w →
  stage_good m (on_host m effect authority answer p failures w).1 (on_host m effect authority answer p failures w).2.
Proof.
  intros (Ho & Hb & Hc & Hm). unfold on_host, progressed. destruct answer as [u|x]; [|by apply to_release_good]. rewrite (update_current _ _ _ _ Hc).
  pose proof Hc as (Hg & Ha & Hs). apply to_release_good; [by apply others_put| |apply put_current; [by rewrite (assertMatches_binding _ p)|done]|].
  - eapply bal_update; [done|done|]. by destruct (rc_artifactReleased p).
  - intros E. cbn. by rewrite (Hm E).
Qed.
Lemma on_release_good m p failures w : stage_good m (AtRelease (Ok tt) p failures) w →
  stage_good m (on_release m effect authority (Ok tt) p failures w).1 (on_release m effect authority (Ok tt) p failures w).2.
Proof.
  intros (Ho & _ & Hb & Hc & Hr). unfold on_release, progressed. rewrite (update_current _ _ _ _ Hc). pose proof Hc as (Hg & Ha & Hs).
  apply finish_good; [by apply others_put| |apply put_current; [by rewrite (assertMatches_binding _ p)|done]].
  eapply bal_update; [done|done|]. by rewrite Hr.
Qed.
Lemma begin_end_good m e failures w : others w → bal d 0 w → JsMap.get (w_registry w) (e_instanceId effect) = Some e →
  (m = InCleanup → rc_state e ≠ Stopping) → (m ≠ InCleanup → rc_state e = Stopping → assertMatches effect e authority = Ok tt) →
  stage_good m (begin_end m effect authority e failures w).1 (begin_end m effect authority e failures w).2.
Proof.
  intros Ho Hb Hg Hm Ha. unfold begin_end. destruct (bool_decide (rc_state e = Stopping) && _) eqn:E.
  - apply andb_true_iff in E as [Es%bool_decide_eq_true E]. apply to_host_good; [done|done| |by intros ->]. split_and!; [done| |done]. apply Ha; [by intros ->|done].
  - assert (rc_state e ≠ Stopping) as Hs by (intros Es; rewrite bool_decide_true in E by done; destruct m; try done; by apply Hm).
    destruct (transition _ _ _ _ _) as [[p r]|x] eqn:Et; [|by split].
    destruct (transition_moves number_text _ _ _ _ _ _ _ None (ba_registry _ _ _ _ _ Hb) Et) as (H1 & H2 & H3 & _); try done.
    unfold transition in Et. apply bind_ok in Et as (e0 & He & Et). apply require_ok in He. rewrite Hg in He. injection He as <-.
    apply bind_ok in Et as ([] & Hma & Et). apply bind_ok in Et as (u & _ & [= <- <-]).
    assert (rc_artifactReleased e = false) as Hr.
    { destruct (ba_registry _ _ _ _ _ Hb) as [_ Hok]. pose proof (ek_progress _ _ _ (Hok _ _ Hg)) as Hpr. destruct (rc_artifactReleased e); [|done]. by rewrite orb_true_r in Hpr; destruct Hs; apply Hpr. }
    apply to_host_good; [by apply others_put| |apply put_current; [by rewrite (assertMatches_binding _ e)|done]|done].
    eapply bal_registry; [exact Hb|eapply moves_ok; [|done|exact H1]; apply Hb|]. intros d'. unfold put. rewrite (held_set _ _ _ _ _ Hg). unfold contributes. cbn. lia.
Qed.
(** The programs of a stage. *)
Definition ended (r : result exn (list exn)) (w : World) : Prop := others w ∧ bal d 0 w.
Lemma stage_current m s w a : stage_good m s w → stage_good m s (with_current a w).
Proof. intros [Ho H]. split; [done|]. destruct s; [|destruct H as (? & ? & ?)|]; intuition; by apply bal_current. Qed.
Lemma on_release_end m r p f w : ∃ r', (on_release m effect authority r p f w).1 = AtEnd r'.
Proof.
  unfold on_release. destruct (progressed _ _ _ _ _ _ _ _) as [[p' f'] w']. unfold finish.
  destruct m, f'; try destruct (_ && _); try (by eexists); destruct (remove _ _ _) as [[? ?]|]; by eexists.
Qed.
Lemma released_stage_ends m s w : (∀ p f, s ≠ AtHost p f) → stage_good m s w → ends (released_stage m effect authority s) ended w.
Proof.
  intros Hs H. destruct s as [p f|r p f|r]; [by destruct (Hs p f)| |]; cbn [released_stage].
  - apply ends_bind, ends_tick. intros a. apply (stage_current _ _ _ a) in H. apply ends_bind, ends_sync. intros a'. apply (stage_current _ _ _ a') in H.
    pose proof H as (_ & -> & _). pose proof (on_release_good m p f _ H) as Hr. destruct (on_release_end m (Ok tt) p f (with_current a' (with_current a w))) as [r' Er].
    destruct (on_release _ _ _ _ _ _ _) as [s w']. cbn in *. subst s. by apply ends_of_result.
  - by apply ends_of_result.
Qed.
Lemma to_release_stage m p f w q g : (to_release m effect authority p f w).1 ≠ AtHost q g.
Proof.
  unfold to_release. case_match; [by destruct (releaseArtifact _ _)|]. unfold finish.
  destruct m, f; try destruct (_ && _); try done; by destruct (remove _ _ _) as [[? ?]|].
Qed.
Lemma run_stage_ends m s w : stage_good m s w → ends (run_stage m effect authority s) ended w.
Proof.
  intros H. destruct s as [p f|r p f|r]; cbn [run_stage]; [|by apply released_stage_ends|by apply released_stage_ends].
  apply ends_bind, ends_host. intros a answer. apply (stage_current _ _ _ a) in H. apply ends_bind, ends_sync. intros a'. apply (stage_current _ _ _ a') in H.
  pose proof (on_host_good m answer p f _ H) as Hr. assert (∀ q g, (on_host m effect authority answer p f (with_current a' (with_current a w))).1 ≠ AtHost q g) as Hs.
  { intros q g. unfold on_host. destruct (progressed _ _ _ _ _ _ _ _) as [[? ?] ?]. apply to_release_stage. }
  destruct (on_host _ _ _ _ _ _ _) as [s w']. by apply released_stage_ends.
Qed.
End end_.

(** ** Programs *)
Lemma ends_binding Q w : (∀ authority r, Q (Ok r) (with_current authority w)) → ends (effect AwaitBinding) Q w.
Proof. intros H authority [|r| | |] Ha; try done. exists r, (with_current authority w). split; [done|apply H]. Qed.
Lemma ends_deployment Q w : (∀ authority r, Q (Ok r) (with_current authority w)) → ends (effect AwaitDeployment) Q w.
Proof. intros H authority [| |r| |] Ha; try done. exists r, (with_current authority w). split; [done|apply H]. Qed.
Lemma bal_acquire d w : bal d 0 w → bal d 1 (with_references (<[d := S (references d w)]> (w_references w)) w).
Proof.
  intros [H1 H2 H3 H4]. split; try done. intros d'. cbn. specialize (H2 d'). unfold references in *. cbn. destruct (decide (d' = d)) as [->|Hne].
  - rewrite lookup_insert_eq, bool_decide_true by done. rewrite bool_decide_true in H2 by done. cbn. lia.
  - rewrite lookup_insert_ne by done. rewrite bool_decide_false by done. by rewrite bool_decide_false in H2 by done.
Qed.
Lemma ends_artifact d Q w : bal d 0 w →
  (∀ authority x, bal d 0 (with_current authority w) → Q (Ok (Err x)) (with_current authority w)) →
  (∀ artifact w', bal d 1 w' → w_registry w' = w_registry w → Q (Ok (Ok artifact)) w') → ends (effect (AwaitArtifact d)) Q w.
Proof.
  intros Hb He Ho authority [| | |[artifact|x]|] Ha; try done.
  - eexists _, _. split; [done|]. apply Ho; [|done]. apply (bal_acquire d (with_current authority w)). by apply bal_current.
  - eexists _, _. split; [done|]. apply He. by apply bal_current.
Qed.
Lemma register_new eff b authority r e r' : JsMap.get r (e_instanceId eff) = None → register number_text eff b authority r = Ok (e, r') →
  e = fresh_entry b authority ∧ r' = put eff e r ∧ pa_digest (cp_artifact b) = e_artifactDigest eff.
Proof.
  intros E. unfold register. intros (x & Hx & H)%bind_ok. apply bind_ok in H as (y & Hy & H). apply bind_ok in H as (u & Hb & H). rewrite E in H. injection H as <- <-.
  unfold assertBinding in Hb. apply throw_if_ok in Hb. rewrite !orb_false_iff, !negb_false_iff in Hb. destruct Hb as [[[[[[[[[[[[_ _] _] _] H5] _] _] _] _] _] _] _] _].
  split_and!; [done|done|by apply streq_true].
Qed.
(** The instance that was prepared has an entry: the one it had, or a prepared one. *)
Definition prepared_entry (eff : ReconcileEffect) (w0 : World) (r : result exn json) (w : World) : Prop :=
  bal (e_artifactDigest eff) 0 w ∧
  match r with
  | Ok _ => ∃ e, JsMap.get (w_registry w) (e_instanceId eff) = Some e ∧ (JsMap.get (w_registry w0) (e_instanceId eff) = Some e ∨ rc_state e = Prepared)
  | Err _ => True
  end.
Lemma rollback_ends {A} eff x w (Q : result exn A → World → Prop) : bal (e_artifactDigest eff) 1 w →
  (∀ y w', bal (e_artifactDigest eff) 0 w' → Q (Err y) w') → ends (rollback eff x : task A) Q w.
Proof.
  intros Hb HQ. unfold rollback. apply ends_bind, ends_sync. intros a. apply (bal_current _ _ _ a) in Hb.
  destruct (bal_release _ _ _ Hb) as (H1 & H2 & _); [pose proof (held_nonneg (e_artifactDigest eff) (w_registry (with_current a w))); lia|].
  destruct (releaseArtifact _ _) as [r w']. cbn in H1, H2. subst r. apply ends_bind, ends_tick. intros a'. apply HQ. by apply bal_current.
Qed.
Lemma prepare_ends eff authority w : bal (e_artifactDigest eff) 0 w → ends (prepare number_text eff authority) (prepared_entry eff w) w.
Proof.
  intros Hb. unfold prepare. apply ends_bind, ends_block. intros a. unfold registered. cbn [with_current w_registry].
  pose proof (bal_current _ _ _ a Hb) as Ha. destruct (JsMap.get (w_registry w) (e_instanceId eff)) as [e|] eqn:Eg.
  { destruct (assertMatches eff e authority); cbn; (split; [done|]); [|done]. exists e. split; [done|by left]. }
  apply ends_bind, ends_attempt, ends_deployment. intros a1 [[r|]|x]; [|by split; [apply bal_current|]..].
  destruct (identity_mismatch _ _); [by split; [apply bal_current|]|]. apply ends_bind, ends_attempt. apply (ends_artifact (e_artifactDigest eff)); [by apply bal_current| |].
  { intros a2 x Hx. by split. }
  intros artifact w1 H1 E1. cbn in E1. unfold bind_artifact. apply ends_catch.
  assert (∀ x w2, bal (e_artifactDigest eff) 1 w2 → ends (rollback eff x) (prepared_entry eff w) w2) as Hroll by (intros x w2 H2; by apply rollback_ends).
  apply ends_bind, ends_block. intros a2. pose proof (bal_current _ _ _ a2 H1) as H2. destruct (ask_host _ _ _ _ _ _) as [[p w2]|x] eqn:Ea; [|by apply Hroll].
  unfold ask_host in Ea. apply bind_ok in Ea as (u & _ & Ea). apply bind_ok in Ea as (p' & _ & [= -> <-]).
  apply ends_bind, ends_attempt, ends_binding. intros a3 [x|x]; [|by apply Hroll, bal_current, bal_call].
  apply ends_block. intros a4. set (w3 := with_current a4 _). assert (bal (e_artifactDigest eff) 1 w3) as H3 by by apply bal_current, bal_current, bal_call.
  assert (JsMap.get (w_registry w3) (e_instanceId eff) = None) as Eg3 by (cbn; by rewrite E1).
  destruct (register_binding _ _ _ _ _ w3) as [[y w4]|y] eqn:Er; [|by apply Hroll].
  unfold register_binding in Er. apply bind_ok in Er as ([e r'] & Er & [= <- <-]). destruct (register_new _ _ _ _ _ _ Eg3 Er) as (-> & -> & Hd).
  destruct (register_moves _ _ _ _ _ _ _ None (ba_registry _ _ _ _ _ H3) Er) as (M1 & M2 & M3). split.
  - eapply bal_registry; [exact H3|eapply changes_ok; [|done|exact M1]; apply H3|]. intros d'. unfold put. rewrite held_new by done. unfold contributes. cbn in *. rewrite Hd.
    case_bool_decide as Ed; [subst; rewrite (proj2 (streq_true _ _) eq_refl); cbn; lia|]. destruct (streq _ _) eqn:Es; [by apply streq_true in Es|cbn; lia].
  - eexists. split; [exact M3|by right].
Qed.
Definition balanced {A} (d : jstring) (r : result exn A) (w : World) : Prop := bal d 0 w.
Lemma hosted_ends eff authority e cur next w : bal (e_artifactDigest eff) 0 w → JsMap.get (w_registry w) (e_instanceId eff) = Some e → rc_state e ≠ Stopping →
  (next = BindingActive ∧ cur = Prepared ∨ next = Draining ∧ cur = BindingActive) → ends (hosted eff authority e cur next) (balanced (e_artifactDigest eff)) w.
Proof.
  intros Hb Hg Hs Hn. unfold hosted. apply ends_bind, ends_attempt, ends_host. intros a [u|x]; [|by apply bal_current]. apply ends_bind, ends_attempt, ends_sync. intros a'.
  set (w1 := with_current a' _). assert (bal (e_artifactDigest eff) 0 w1) as H1 by by apply bal_current, bal_current. assert (JsMap.get (w_registry w1) (e_instanceId eff) = Some e) as Hg1 by done.
  unfold after_host. destruct (authorityMatches authority w1).
  - destruct (transition _ _ _ _ _) as [[p r]|x] eqn:Et; [|done].
    destruct (transition_moves _ _ _ _ _ _ _ _ authority (ba_registry _ _ _ _ _ H1) Et) as (M1 & M2 & _); [intros ->; by destruct Hn as [[_ ?]|[? _]]|intros ->; by destruct Hn as [[? _]|[_ ?]]|by destruct Hn as [[-> _]|[-> _]]|].
    unfold transition in Et. apply bind_ok in Et as (e0 & He & Et). apply require_ok in He. apply bind_ok in Et as (u' & _ & Et). apply bind_ok in Et as (u'' & _ & [= <- <-]).
    eapply bal_registry; [exact H1|eapply moves_ok; [|done|exact M1]; apply H1|]. intros d'. unfold put. rewrite (held_set _ _ _ _ _ He). unfold contributes. cbn. lia.
  - pose proof (begin_end_good eff authority (JsMap.get (w_registry w1)) InCleanup e [] w1 ltac:(done) H1 Hg1 ltac:(done) ltac:(done)) as Hst.
    destruct (begin_end _ _ _ _ _ _) as [s w2]. cbn in Hst. unfold cleanupAfterAuthorityLoss. apply ends_bind. eapply ends_mono; [|by eapply run_stage_ends].
    intros r w3 [_ H3]. by destruct r.
Qed.

Lemma ends_forget {A B} (p : task A) (d : jstring) (q : A → task B) (P : result exn A → World → Prop) w :
  ends p P w → (∀ r w', P r w' → bal d 0 w') → (∀ a w', P (Ok a) w' → ends (q a) (balanced d) w') → ends (p ≫= q) (balanced d) w.
Proof. intros Hp Hb Hq. apply ends_bind. eapply ends_mono; [|exact Hp]. intros [a|x] w' H; [by eapply Hq|by eapply Hb]. Qed.
Lemma takeover_good eff authority w e r' : bal (e_artifactDigest eff) 0 w → takeoverStopping eff authority (w_registry w) = Ok (e, r') →
  bal (e_artifactDigest eff) 0 (with_registry r' w) ∧ JsMap.get r' (e_instanceId eff) = Some e ∧ assertMatches eff e authority = Ok tt.
Proof.
  intros Hb H. destruct (takeover_moves _ _ _ _ _ _ (ba_registry _ _ _ _ _ Hb) H) as (M1 & M2 & _ & M3 & _). unfold takeoverStopping in H.
  apply bind_ok in H as (e0 & He & H). apply require_ok in He. apply bind_ok in H as (u & Hc & H). apply bind_ok in H as (i & Hi & H). apply bind_ok in H as (u' & Hid & H).
  apply throw_if_ok, negb_false_iff in Hid. subst i. apply bind_ok in H as (u'' & _ & [= <- <-]). split_and!; [|done|].
  - eapply bal_registry; [exact Hb|eapply moves_ok; [|done|exact M1]; apply Hb|]. intros d'. unfold put. rewrite (held_set _ _ _ _ _ He). unfold contributes. cbn. lia.
  - unfold assertMatches, matches. change (matchesIdentity eff (with_owner authority e0)) with (matchesIdentity eff e0). rewrite Hi. cbn.
    unfold sameAuthority. by rewrite bool_decide_true by done.
Qed.
Lemma perform_ends eff authority w : bal (e_artifactDigest eff) 0 w → ends (perform_effect number_text supportedExecutors eff authority) (balanced (e_artifactDigest eff)) w.
Proof.
  intros Hb. unfold perform_effect. apply ends_bind, ends_block. intros a. pose proof (bal_current _ _ _ a Hb) as Hw. set (w0 := with_current a w) in *.
  destruct (admission_of supportedExecutors eff authority w0) as [[ad w1]|x] eqn:E; [|done].
  unfold admission_of in E. apply bind_ok in E as (u & _ & E). apply bind_ok in E as (u' & _ & E). destruct (e_kind eff) eqn:Ek.
  2: { injection E as <- <-. eapply ends_forget; [by apply prepare_ends|by intros r w' []|]. intros b w' [H _]. exact H. }
  all: apply bind_ok in E as (e & Er & E); apply require_ok in Er; apply bind_ok in E as ([e1 w2] & E1 & E).
  - rewrite bool_decide_false in E1 by done. cbn in E1. apply bind_ok in E1 as (? & _ & [= <- <-]). apply bind_ok in E as (? & Hs & [= <- <-]).
    apply throw_if_ok, negb_false_iff, bool_decide_eq_true in Hs.
    eapply ends_forget; [apply hosted_ends; [by apply bal_call|done|by rewrite Hs|by right]|done|done].
  - rewrite bool_decide_false in E1 by done. cbn in E1. apply bind_ok in E1 as (? & _ & [= <- <-]). apply bind_ok in E as (? & Hs & [= <- <-]).
    apply throw_if_ok, negb_false_iff, bool_decide_eq_true in Hs.
    eapply ends_forget; [apply hosted_ends; [by apply bal_call|done|by rewrite Hs|by left]|done|done].
  - assert (bal (e_artifactDigest eff) 0 w2 ∧ JsMap.get (w_registry w2) (e_instanceId eff) = Some e1 ∧ assertMatches eff e1 authority = Ok tt) as (H1 & H2 & H3).
    { destruct (_ && _ && _) in E1.
      - apply bind_ok in E1 as ([e' r'] & Et & [= <- <-]). by apply takeover_good.
      - apply bind_ok in E1 as ([] & Hm & [= <- <-]). by split_and!. }
    pose proof (begin_end_good eff authority (JsMap.get (w_registry w2)) InStop e1 [] w2 ltac:(done) H1 H2 ltac:(done) ltac:(done)) as Hst.
    destruct (begin_end _ _ _ _ _ _) as [s w3]. injection E as <- <-. cbn in Hst.
    eapply ends_forget; [by eapply run_stage_ends|by intros r w' []|]. intros b w' [_ H]. exact H.
Qed.
Lemma restore_ends instance eff authority w : e_instanceId eff = i_instanceId (ci_value instance) → bal (e_artifactDigest eff) 0 w →
  ends (restore_instance number_text instance eff authority) (balanced (e_artifactDigest eff)) w.
Proof.
  intros Ei Hb. unfold restore_instance. apply ends_bind, ends_block. intros a. pose proof (bal_current _ _ _ a Hb) as H0. destruct (assertCurrentAuthority _ _); cbn [mbind result_bind]; [|done].
  case_bool_decide as Ek. { eapply ends_forget; [by apply prepare_ends|by intros r w' []|]. intros b w' [H _]. exact H. }
  apply ends_bind, ends_block. intros a1. pose proof (bal_current _ _ _ a1 H0) as H1. unfold restored. rewrite <- Ei. cbn [with_current w_registry].
  destruct (JsMap.get (w_registry w) (e_instanceId eff)) as [e|] eqn:Eg.
  - destruct (assertMatches eff e authority); cbn [mbind result_bind]; [|done]. destruct (_ || _); [done|]. unfold throw_if. case_bool_decide as Es; cbn [negb mbind result_bind]; [|done].
    eapply ends_forget; [apply hosted_ends; [by apply bal_call|done|by rewrite Es|by left]|done|done].
  - eapply ends_forget; [by apply prepare_ends|by intros r w' []|]. intros b w2 [H2 (e & Hg & He)]. cbn in He. rewrite Eg in He. destruct He as [He|He]; [done|].
    apply ends_bind, ends_block. intros a2. cbn [with_current w_registry]. rewrite (proj2 (require_ok _ _ _) Hg). cbn [mbind result_bind].
    eapply ends_forget; [apply hosted_ends; [by apply bal_call, bal_current|done|by rewrite He|by left]|done|done].
Qed.
Lemma restorationEffect_fields instance kind eff : restorationEffect sha256 instance kind = Ok eff →
  e_instanceId eff = i_instanceId (ci_value instance) ∧ e_kind eff = kind ∧ e_activation eff = ci_activation instance ∧
  Some (e_artifactDigest eff) = i_artifactDigest (ci_value instance) ∧
  e_applicationId eff = i_applicationId (ci_value instance) ∧ e_pluginId eff = i_pluginId (ci_value instance) ∧ e_componentId eff = i_componentId (ci_value instance) ∧
  e_deploymentGeneration eff = i_deploymentGeneration (ci_value instance) ∧ e_executor eff = i_executor (ci_value instance) ∧ e_workerId eff = i_workerId (ci_value instance) ∧
  e_executionBinding eff = i_executionBinding (ci_value instance).
Proof.
  unfold restorationEffect. destruct (i_artifactDigest (ci_value instance)) as [x|]; [|done]. intros (u & _ & H)%bind_ok. apply bind_ok in H as (o & _ & H). apply bind_ok in H as (m & _ & [= <-]).
  by split_and!.
Qed.
Lemma any_digest d d' w : bal d 0 w → bal d' 0 w.
Proof. apply bal_digest. Qed.
Lemma restore_termination_ends d instance authority w : bal d 0 w → ends (restore_termination number_text sha256 restores instance authority) (balanced d) w.
Proof.
  intros Hb. unfold restore_termination. apply ends_bind, ends_block. intros a. pose proof (bal_current _ _ _ a Hb) as H0.
  destruct (parseActivation _); cbn [mbind result_bind]; [|done]. destruct (restorationEffect sha256 instance EffectStop) as [eff|] eqn:Er; cbn [mbind result_bind]; [|done].
  destruct (assertCurrentAuthority _ _); cbn [mbind result_bind]; [|done]. destruct (restorationEffect_fields _ _ _ Er) as (Ei & _). clear Er.
  eapply ends_forget; [apply prepare_ends; by eapply bal_digest|intros r w' [H _]; by eapply bal_digest|]. intros b w1 [H1 (e & Hg & _)].
  apply ends_bind, ends_block. intros x1. cbn [with_current w_registry]. rewrite <- Ei, (proj2 (require_ok _ _ _) Hg). cbn [mbind result_bind]. pose proof (bal_current _ _ _ x1 H1) as H2.
  destruct (assertMatches eff e authority); cbn [mbind result_bind]; [|by eapply bal_digest]. case_bool_decide as Es; [by eapply bal_digest|].
  destruct (throw_if _ _); cbn [mbind result_bind]; [|by eapply bal_digest].
  assert (∀ w3, bal (e_artifactDigest eff) 0 w3 → JsMap.get (w_registry w3) (e_instanceId eff) = Some e →
    ends (block (λ w, '(_, registry) ← transition eff (rc_state e) Stopping authority (w_registry w); Ok (None, with_registry registry w))) (balanced d : result exn (option json) → _) w3) as Hlast.
  { intros w3 H3 Hg3. apply ends_block. intros x2. cbn [with_current w_registry]. pose proof (bal_current _ _ _ x2 H3) as H4.
    destruct (transition _ _ _ _ _) as [[p r]|x] eqn:Et; cbn [mbind result_bind]; [|by eapply bal_digest].
    destruct (transition_moves _ _ _ _ _ _ _ _ None (ba_registry _ _ _ _ _ H3) Et) as (M1 & M2 & _); [done..|].
    unfold transition in Et. apply bind_ok in Et as (e0 & He & Et). apply require_ok in He. apply bind_ok in Et as (u' & _ & Et). apply bind_ok in Et as (u'' & _ & [= <- <-]).
    eapply bal_digest, (bal_registry _ 0 0 _ _ H4); [eapply moves_ok; [|done|exact M1]; apply H3|]. intros d'. unfold put. cbn. rewrite (held_set _ _ _ _ _ He). unfold contributes. cbn. lia. }
  apply ends_bind. destruct restores.
  - apply ends_attempt, ends_host. intros x2 [u|x]; [|by eapply bal_digest, bal_current, bal_call]. apply Hlast; [by apply bal_current, bal_call|done].
  - apply ends_tick. intros x2. apply Hlast; [by apply bal_current|done].
Qed.
Lemma restore_starting_ends eff w : bal (e_artifactDigest eff) 0 w → ends (restore_starting number_text supportedExecutors eff) (balanced (e_artifactDigest eff)) w.
Proof.
  intros Hb. unfold restore_starting. apply ends_bind, ends_block. intros a. pose proof (bal_current _ _ _ a Hb) as H0. destruct (throw_if _ _ ;; _) as [[authority w1]|x] eqn:E; [|done].
  repeat (apply bind_ok in E as (? & _ & E)). injection E as <- <-. eapply ends_forget; [by apply prepare_ends|by intros r w' []|]. intros b w' [H _]. exact H.
Qed.

Lemma closeEntry_ends eff e authority F w : others eff F w → bal (e_artifactDigest eff) 0 w → JsMap.get (w_registry w) (e_instanceId eff) = Some e →
  assertMatches eff e authority = Ok tt → ends (closeEntry eff e authority) (ended eff F) w.
Proof.
  intros Ho Hb Hg Hm. unfold closeEntry. assert (∀ f w1, others eff F w1 → bal (e_artifactDigest eff) 0 w1 → JsMap.get (w_registry w1) (e_instanceId eff) = Some e →
    let s := begin_end InClose eff authority e f w1 in ends (run_stage InClose eff authority s.1) (ended eff F) s.2) as Hrun.
  { intros f w1 H1 H2 H3 s. eapply run_stage_ends. by apply begin_end_good. }
  case_bool_decide as Es.
  - apply ends_bind, ends_sync. intros a. apply ends_bind, ends_host. intros a1 answer. apply ends_bind, ends_sync. intros a2. set (w1 := with_current a2 _).
    assert (bal (e_artifactDigest eff) 0 w1) as H1 by by apply bal_current, bal_current, bal_call, bal_current. unfold on_drained.
    destruct answer as [u|x]; [|specialize (Hrun [x] w1 Ho H1 Hg); by destruct (begin_end _ _ _ _ _ _)].
    destruct (transition _ _ _ _ _) as [[p r]|x] eqn:Et; [|specialize (Hrun [x] w1 Ho H1 Hg); by destruct (begin_end _ _ _ _ _ _)].
    destruct (transition_moves _ _ _ _ _ _ _ _ None (ba_registry _ _ _ _ _ H1) Et) as (M1 & M2 & _ & M3 & _); [done..|].
    unfold transition in Et. apply bind_ok in Et as (e0 & He & Et). apply require_ok in He.
    assert (JsMap.get (w_registry w1) (e_instanceId eff) = Some e) as Hg1 by done. rewrite Hg1 in He. injection He as <-.
    apply bind_ok in Et as (u' & _ & Et). apply bind_ok in Et as (u'' & _ & [= <- <-]).
    assert (stage_good eff authority F InClose (begin_end InClose eff authority (with_state Draining e) [] (with_registry (put eff (with_state Draining e) (w_registry w1)) w1)).1
      (begin_end InClose eff authority (with_state Draining e) [] (with_registry (put eff (with_state Draining e) (w_registry w1)) w1)).2) as Hst.
    { apply begin_end_good; [by apply others_put| |done|done|done].
      eapply bal_registry; [exact H1|eapply moves_ok; [|done|exact M1]; apply H1|]. intros d'. unfold put. rewrite (held_set _ _ _ _ _ Hg1). unfold contributes. cbn. lia. }
    destruct (begin_end _ _ _ _ _ _) as [s w2]. by eapply run_stage_ends.
  - apply ends_bind, ends_sync. intros a. specialize (Hrun [] (with_current a w) Ho (bal_current _ _ _ a Hb) Hg). by destruct (begin_end _ _ _ _ _ _).
Qed.
(** The effect of [close] is of the entry it is made for. *)
Lemma close_instance_matches e authority eff id : entry_ok number_text id e → restorationEffect sha256 (close_instance e) EffectStop = Ok eff →
  cp_authority (rc_binding e) = authority → e_instanceId eff = id ∧ assertMatches eff e authority = Ok tt.
Proof.
  intros [Hid [Hc He Hd Ha] _ _] Hr Hau. destruct (restorationEffect_fields _ _ _ Hr) as (E1 & _ & E3 & E4 & E5 & E6 & E7 & E8 & E9 & E10 & E11). cbn in *. split; [congruence|].
  injection E4 as E4. unfold assertMatches, matches, matchesIdentity. rewrite E1, E3, E4, E5, E6, E7, E8, E9, E10, E11.
  destruct (parseActivation (VStr (cp_activation (rc_binding e)))) as [x|]; [|done]. cbn [mbind result_bind].
  destruct Hc as (i & c & Hc & _). unfold has_componentId in Hc. apply bool_decide_eq_true in Hc. rewrite Hc. cbn [default from_option].
  assert (∀ s, streq s s = true) as Hs by (intros s; by apply streq_true). unfold has_componentId, sameAuthority. rewrite !Hs, !bool_decide_true by done. done.
Qed.
Lemma close_entries_ends d authority es w : bal d 0 w → NoDup (map (λ e, cp_instanceId (rc_binding e)) es) →
  (∀ e, e ∈ es → JsMap.get (w_registry w) (cp_instanceId (rc_binding e)) = Some e) → ends (close_entries sha256 authority es) (balanced d) w.
Proof.
  revert w. induction es as [|e es IH]; intros w Hb Hnd Hes; cbn [close_entries]; [done|]. cbn in Hnd. apply NoDup_cons in Hnd as [Hn Hnd].
  destruct (negb (sameAuthority _ _)) eqn:Ea; [apply IH; [done|done|intros x Hx; apply Hes; by right]|].
  apply negb_false_iff in Ea. unfold sameAuthority in Ea. apply bool_decide_eq_true in Ea.
  pose proof (Hes e (list_elem_of_here _ _)) as Hg. pose proof (proj2 (ba_registry _ _ _ _ _ Hb) _ _ Hg) as Hok.
  apply ends_bind, ends_of_result. destruct (restorationEffect _ _ _) as [eff|x] eqn:Er; [|done]. destruct (close_instance_matches _ _ _ _ Hok Er Ea) as [Ei Hm].
  apply ends_bind. eapply ends_mono; [|apply (closeEntry_ends eff e authority (JsMap.get (w_registry w))); [done|by eapply bal_digest|by rewrite Ei|done]].
  intros r w1 [Ho H1]. destruct r as [failures|x]; [|by eapply bal_digest]. eapply ends_forget; [apply (IH w1); [by eapply bal_digest|done|]|done|done].
  intros x Hx. rewrite Ho; [apply Hes; by right|]. rewrite Ei. intros E. apply Hn. apply list_elem_of_In, in_map_iff. exists x. split; [done|by apply list_elem_of_In].
Qed.
Lemma closeAuthority_ends d authority prefix w : rs = [] → bal d 0 w → ends (closeAuthority sha256 authority prefix) (balanced d) w.
Proof.
  intros Hrs Hb. unfold closeAuthority. apply ends_bind, ends_sync. intros a. apply (bal_current _ _ _ a) in Hb. assert (restorations_of prefix (with_current a w) = []) as Er.
  { unfold restorations_of. by rewrite (ba_restorations _ _ _ _ _ Hb), Hrs. }
  rewrite Er. apply ends_bind. intros a1 x _. eexists tt, _. split; [done|]. cbn [prog_bind]. apply ends_bind, ends_sync. intros a2. apply (ends_forget _ d _ (balanced d)); [|done|by intros [|? ?]].
  pose proof (bal_current _ _ _ a1 Hb) as H1. apply (bal_current _ _ _ a2) in H1. destruct (ba_registry _ _ _ _ _ H1) as [Hwf Hok]. cbn in Hwf, Hok.
  assert (∀ id e, (id, e) ∈ w_registry w → JsMap.get (w_registry w) id = Some e ∧ cp_instanceId (rc_binding e) = id) as Hin.
  { intros id e H. apply (JsMap.in_get _ _ _ Hwf) in H. split; [done|]. by apply Hok. }
  apply close_entries_ends; [done| |]; cbn; unfold entries, JsMap.values, JsMap.wf, JsMap.keys in *; change (map ?f ?l) with (f <$> l) in *.
  - rewrite <- list_fmap_compose. erewrite list_fmap_ext; [exact Hwf|]. intros i [id e] Hi. cbn. apply Hin. by eapply list_elem_of_lookup_2.
  - intros e He. apply list_elem_of_fmap in He as ([id e'] & -> & He). cbn. destruct (Hin _ _ He) as [H2 ->]. done.
Qed.
End references.

(** ** Calls, one at a time *)
Section calls.
Context (number_text : jsnum → jstring) (sha256 : jstring → jstring) (supportedExecutors : list ExecutorKind) (restores : bool) (o : oracle).

(** A call and, if it starts a job, that job to its end. *)
Definition call_alone (m : method) (s : nat * World) : option (nat * World) :=
  match invoke number_text sha256 m s.2 with
  | (Ok (_, [j]), w) => '(_, n, w) ← alone o (start number_text sha256 supportedExecutors restores j) s.1 w; Some (n, w)
  | (_, w) => Some (s.1, w)
  end.
Fixpoint calls_alone (ms : list method) (s : nat * World) : option (nat * World) :=
  match ms with [] => Some s | m :: ms => s ← call_alone m s; calls_alone ms s end.

Definition between (w : World) : Prop := Forall is_Some (w_promises w) ∧ balance number_text (w_promises w) [] [] 0 w.
Lemma settles_ends ps rs d (p : task (option json)) promise react w :
  ends p (balanced number_text ps rs d) w →
  ends (settles p promise react) (λ _ w', ∃ r w1 a, w' = react (is_ok r) (settle promise r (with_current a w1)) ∧ balance number_text ps rs d 0 w1) w.
Proof.
  intros H. unfold settles. apply ends_bind, ends_settled. eapply ends_mono; [|exact H]. intros r w1 H1. apply ends_sync. intros a. by exists r, w1, a.
Qed.

(** What the reactions to the end of a call leave alone. *)
Definition keeps (react : bool → World → World) : Prop := ∀ b w,
  w_registry (react b w) = w_registry w ∧ w_references (react b w) = w_references w ∧ w_promises (react b w) = w_promises w.
Lemma settled_between l rs d r w a react :
  Forall is_Some l → balance number_text (l ++ [None]) rs d 0 w → keeps react →
  (∀ w, w_restorations w = rs → w_restorations (react (is_ok r) w) = []) → between (react (is_ok r) (settle (length l) r (with_current a w))).
Proof.
  intros Hl [H1 H2 H3 H4] Hk Hr. set (w' := settle (length l) r (with_current a w)). destruct (Hk (is_ok r) w') as (E1 & E2 & E3).
  assert (w_promises w' = l ++ [Some r]) as Ep. { cbn. rewrite H3. rewrite insert_app_r_alt, Nat.sub_diag by lia. done. }
  split; rewrite E3, Ep; [apply Forall_app; split; [done|by repeat constructor]|].
  split; [by rewrite E1| |by rewrite E3|by apply Hr].
  intros d'. specialize (H2 d'). unfold references in *. rewrite E1, E2. cbn. rewrite H2. by repeat case_bool_decide.
Qed.
Lemma started_between l rs d w p n react : Forall is_Some l → ends p (balanced number_text (l ++ [None]) rs d) w → keeps react →
  (∀ b w, w_restorations w = rs → w_restorations (react b w) = []) →
  ∃ r n' w', alone o (settles p (length l) react) n w = Some (r, n', w') ∧ between w'.
Proof.
  intros Hl Hp Hk Hr. apply (settles_ends _ _ _ _ (length l) react) in Hp. destruct (ends_alone o _ _ n _ Hp) as (r & n' & w' & E & r' & w1 & a & -> & Hb).
  exists r, n', (react (is_ok r') (settle (length l) r' (with_current a w1))). split; [done|]. eapply settled_between; [done|exact Hb|done|]. intros x. apply Hr.
Qed.
Lemma call_alone_between m n w : between w → ∃ n' w', call_alone m (n, w) = Some (n', w') ∧ between w'.
Proof.
  intros Hb. pose proof Hb as [Hl [H1 H2 H3 H4]]. assert (∃ n' w', Some (n, w) = Some (n', w') ∧ between w') as Hsame by by exists n, w.
  assert (∀ rs w0 d, w_registry w0 = w_registry w → w_references w0 = w_references w → w_promises w0 = w_promises w ++ [None] → w_restorations w0 = rs →
    balance number_text (w_promises w ++ [None]) rs d 0 w0) as Hnew.
  { intros rs w0 d E1 E2 E3 E4. split; [by rewrite E1| |done|done]. intros d'. specialize (H2 d'). unfold references in *. rewrite E1, E2, H2. by repeat case_bool_decide. }
  assert (∀ p react w0 rs d, w_registry w0 = w_registry w → w_references w0 = w_references w → w_promises w0 = w_promises w ++ [None] → w_restorations w0 = rs → keeps react →
    (∀ b w, w_restorations w = rs → w_restorations (react b w) = []) →
    (balance number_text (w_promises w ++ [None]) rs d 0 w0 → ends p (balanced number_text (w_promises w ++ [None]) rs d) w0) →
    ∃ n' w', ('(_, n, w) ← alone o (settles p (length (w_promises w)) react) n w0; Some (n, w)) = Some (n', w') ∧ between w') as Hrun.
  { intros p react w0 rs d E1 E2 E3 E4 Hk Hr Hp. destruct (started_between (w_promises w) rs d w0 p n react Hl (Hp (Hnew rs w0 d E1 E2 E3 E4)) Hk Hr) as (r & n' & w' & E & Hw').
    exists n', w'. by rewrite E. }
  unfold call_alone. cbn [fst snd]. destruct m as [eff|instance a|instance a|eff|a]; cbn [invoke].
  - unfold perform. destruct (parseActivation _ ;; _); [|exact Hsame]. destruct (JsMap.get (w_operations w) _).
    { destruct (_ && _ && _); exact Hsame. }
    cbn [promise fst snd]. cbn [start]. eapply (Hrun _ _ _ []); [done|done|done|done| | |].
    + intros b w0. unfold operation_settled. destruct (JsMap.get _ _) as [x|]; [|done]. destruct (negb _); [done|]. destruct b; [done|]. unfold retainFailedOperation. by destruct (expire_failed _ _ _ _).
    + intros b w0 E. unfold operation_settled. destruct (JsMap.get _ _) as [x|]; [|done]. destruct (negb _); [done|]. destruct b; [done|]. unfold retainFailedOperation. by destruct (expire_failed _ _ _ _).
    + apply perform_ends.
  - unfold restore. destruct (parseActivation _ ;; _) as [eff|] eqn:Ee; [|exact Hsame]. rewrite H4. change (JsMap.get [] ?k) with (@None InFlightRestoration).
    cbn [promise fst snd start]. eapply Hrun; [done|done|done|done| | |].
    + intros b w0. unfold restoration_settled. by repeat case_match.
    + intros b w0 E. cbn in E. try rewrite H4 in E. unfold restoration_settled. rewrite E. change (JsMap.set [] ?k ?v) with [(k, v)]. rewrite get_cons, bool_decide_true by done. cbn [fr_result]. rewrite Nat.eqb_refl. cbn.
      by rewrite delete_cons, bool_decide_true by done.
    + apply restore_ends. apply bind_ok in Ee as (? & _ & Ee). apply bind_ok in Ee as (eff' & Er & Ee). apply bind_ok in Ee as (? & _ & [= <-]). by eapply restorationEffect_fields.
  - cbn [restoreTermination promise fst snd start]. eapply (Hrun _ _ _ [] []); [done|done|done|done|done|done|]. apply restore_termination_ends.
  - cbn [restoreStarting promise fst snd start]. eapply (Hrun _ _ _ []); [done|done|done|done|done|done|]. apply restore_starting_ends.
  - unfold close. destruct (JsMap.get (w_closeAttempts w) _); [exact Hsame|]. cbn [promise fst snd start]. eapply (Hrun _ _ _ [] []); [done|done|done|done| | |].
    + intros b w0. unfold close_settled. by case_match.
    + intros b w0 E. unfold close_settled. by case_match.
    + by apply closeAuthority_ends.
Qed.

(** C15. Calls made one at a time always end, whatever the host, the deployments, the
    artifacts and the authority answer and when; every promise they gave is settled, and
    the cache then counts for each artifact exactly one reference for every registered
    component of that artifact whose stop did not release it: none is lost, none is
    released twice. *)
Theorem artifact_references_exact ms :
  ∃ n w, calls_alone ms (0%nat, createWorld) = Some (n, w) ∧ Forall is_Some (w_promises w) ∧
    ∀ digest, Z.of_nat (references digest w) = held digest (w_registry w).
Proof.
  assert (∀ n w, between w → ∃ n' w', calls_alone ms (n, w) = Some (n', w') ∧ between w') as H.
  { induction ms as [|m ms' IH]; intros n w Hw; cbn [calls_alone]; [by exists n, w|]. destruct (call_alone_between m n w Hw) as (n' & w' & -> & Hw'). by apply IH. }
  destruct (H 0%nat createWorld) as (n & w & E & Hp & Hb).
  { split; [constructor|]. split; [split; [constructor|done]| |done|done]. intros d. by case_bool_decide. }
  exists n, w. split_and!; [done|done|]. intros digest. rewrite (ba_references _ _ _ _ _ _ Hb). case_bool_decide; lia.
Qed.
End calls.

(** ** Calls that overlap *)
(** Two instances of one artifact: while the stop of the first waits for the host, its
    authority is closed, which stops it too. *)
Definition example_component : json := JObj [(js "componentId", JStr (js "c")); (js "entrypoint", JStr (js "e")); (js "executors", JArr [JStr (js "process")])].
Definition example_artifact : PreparedArtifact := {| pa_digest := js "d"; pa_pluginId := js "p"; pa_components := [example_component] |}.
Definition example_deployment : PluginDeployment := {| d_applicationId := js "a"; d_pluginId := js "p"; d_artifactDigest := js "d"; d_generation := js "1"; d_state := Active |}.
Definition example_effect (kind : ReconcileEffectKind) (instance operation : jstring) : ReconcileEffect := {|
  e_kind := kind; e_activation := js "1"; e_operationId := operation; e_messageId := operation; e_instanceId := instance; e_applicationId := js "a"; e_pluginId := js "p";
  e_componentId := js "c"; e_deploymentGeneration := js "1"; e_artifactDigest := js "d"; e_executor := Process; e_workerId := None; e_executionBinding := None |}.
Definition prepares (t : nat) : list happening :=
  [Runs t ANothing; Runs t ANothing; Runs t (ADeployment (Ok (Some {| vd_deployment := example_deployment; vd_artifact := example_artifact |}))); Runs t (AArtifact (Ok example_artifact));
   Runs t ANothing; Runs t (ABinding (Ok JNull)); Runs t ANothing; Runs t ANothing].
Definition stop_and_close : list happening :=
  [Calls (Perform (example_effect EffectPrepare (js "i") (js "o1")))] ++ prepares 0 ++
  [Calls (Perform (example_effect EffectPrepare (js "j") (js "o2")))] ++ prepares 1 ++
  [Calls (Perform (example_effect EffectStop (js "i") (js "o3"))); Runs 2 ANothing;
   Calls (Close None); Runs 3 ANothing; Runs 3 ANothing; Runs 3 ANothing; Runs 3 ANothing;
   Runs 2 (AHost (Ok tt)); Runs 3 (AHost (Ok tt)); Runs 2 ANothing; Runs 3 ANothing; Runs 2 ANothing; Runs 2 ANothing].
(** The artifact is released twice for the one instance: the other, which is still
    registered, has lost its reference. Calls that do not overlap cannot do this. *)
Example stop_and_close_release_twice :
  let w := p_world (history plain_number (λ _, js "00") [Process] false no_components stop_and_close) in
  map (λ e, cp_instanceId (rc_binding e)) (entries (w_registry w)) = [js "j"] ∧ held (js "d") (w_registry w) = 1 ∧ references (js "d") w = 0%nat.
Proof. vm_compute. done. Qed.
