(* ===== verification/Router.v ===== *)
(** * The capability router

    runtime/src/capabilities/router.ts: a component calls a capability of another.
    Every invocation has a durable record under the hash of its identity, so that
    routers of several processes, which share the store, call the provider once for it;
    before the call the route is checked against the consumer, its permissions and the
    schemas of the provision. The async methods are programs of Async.v. The caller of
    [resolve], [revalidate] and [dispatch], the authority and the store answer as they
    like; a transaction may fail before or after it has committed. *)

From S2P Require Import Prelude JsString Collections JsValue Identity JsonText Permission Gate Canonical Placement Execution Async.

Open Scope Z_scope.

(** ** Data *)
Record ComponentInstanceIdentity := {
  ci_applicationId : jstring; ci_pluginId : jstring; ci_componentId : jstring; ci_activation : jstring;
  ci_target : TaskExecutionTarget; ci_bindingFingerprint : jstring;
}.
Record CapabilityIdentity := { id_name : jstring; id_protocolVersion : jstring }.
Record RoutedCapabilityInvocation := {
  iv_invocationId : jstring; iv_identity : CapabilityIdentity; iv_method : jstring; iv_input : json;
}.
Record CapabilityProvisionRoute := {
  pv_identity : CapabilityIdentity; pv_componentId : jstring; pv_methods : list jstring; pv_requestSchema : json; pv_responseSchema : json;
}.
Record CapabilityProviderRoute := {
  vr_applicationId : jstring; vr_pluginId : jstring; vr_componentId : jstring; vr_target : TaskExecutionTarget;
  vr_activation : jstring; vr_bindingFingerprint : jstring;
}.
(** [bd_applicationId] and [bd_pluginId] are the [providerDeployment]. *)
Record CapabilityBinding := { bd_capability : CapabilityIdentity; bd_applicationId : jstring; bd_pluginId : jstring }.
Record CapabilityRoute := {
  cr_consumer : ComponentInstanceIdentity; cr_consumerBindingFingerprint : jstring; cr_permissionGrants : list json;
  cr_binding : CapabilityBinding; cr_provision : CapabilityProvisionRoute; cr_provider : CapabilityProviderRoute; cr_routeRevision : jstring;
}.
#[export] Instance capability_identity_eq_dec : EqDecision CapabilityIdentity.
Proof. solve_decision. Defined.

Inductive DurableStatus := StatusCompleted | StatusExecuting | StatusFailed.
#[export] Instance durable_status_eq_dec : EqDecision DurableStatus.
Proof. solve_decision. Defined.
(** A diagnostic as the error that throws it. *)
Record DurableInvocationRecord := {
  dr_operationId : jstring; dr_fingerprint : jstring; dr_status : DurableStatus; dr_result : option json; dr_diagnostic : option exn;
}.
Record SchemaEntry := { se_registry : CapabilitySchemaRegistry; se_gate : CapabilitySchemaGate }.
(** An entry is an object: its position among all entries is its identity, and
    [ie_result] what its promise has come to. *)
Record InvocationEntry := { ie_fingerprint : jstring; ie_result : option (result exn json); ie_settled : bool }.
Record CapabilityRouter := {
  ro_maxInvocations : Z; ro_maxSchemaGates : Z;
  ro_invocations : jsmap jstring nat; ro_schemas : jsmap jstring SchemaEntry;
}.
Definition with_invocations (m : jsmap jstring nat) (r : CapabilityRouter) : CapabilityRouter := {|
  ro_maxInvocations := ro_maxInvocations r; ro_maxSchemaGates := ro_maxSchemaGates r; ro_invocations := m; ro_schemas := ro_schemas r |}.
Definition with_schemas (m : jsmap jstring SchemaEntry) (r : CapabilityRouter) : CapabilityRouter := {|
  ro_maxInvocations := ro_maxInvocations r; ro_maxSchemaGates := ro_maxSchemaGates r; ro_invocations := ro_invocations r; ro_schemas := m |}.

Definition DEFAULT_MAX_INVOCATIONS : Z := 256.
Definition DEFAULT_MAX_SCHEMA_GATES : Z := 128.
Definition positiveBound (value : option jsnum) (fallback : Z) : result exn Z :=
  match default (Some fallback) (safe_integer <$> value) with
  | Some n => if (n <? 1) || (4096 <? n) then Err RangeError else Ok n
  | None => Err RangeError
  end.
Definition createRouter (maxInvocations maxSchemaGates : option jsnum) : result exn CapabilityRouter :=
  invocations ← positiveBound maxInvocations DEFAULT_MAX_INVOCATIONS;
  schemas ← positiveBound maxSchemaGates DEFAULT_MAX_SCHEMA_GATES;
  Ok {| ro_maxInvocations := invocations; ro_maxSchemaGates := schemas; ro_invocations := []; ro_schemas := [] |}.

Definition sameTarget (left right : TaskExecutionTarget) : bool :=
  streq (tg_instanceId left) (tg_instanceId right) &&
  streq (tg_deploymentGeneration left) (tg_deploymentGeneration right) &&
  streq (tg_artifactDigest left) (tg_artifactDigest right) &&
  streq (tx_id (tg_executor left)) (tx_id (tg_executor right)) &&
  bool_decide (tx_type (tg_executor left) = tx_type (tg_executor right)) &&
  bool_decide (tx_workerId (tg_executor left) = tx_workerId (tg_executor right)).
Definition sameConsumer (left right : ComponentInstanceIdentity) : bool :=
  streq (ci_applicationId left) (ci_applicationId right) &&
  streq (ci_pluginId left) (ci_pluginId right) &&
  streq (ci_componentId left) (ci_componentId right) &&
  streq (ci_activation left) (ci_activation right) &&
  streq (ci_bindingFingerprint left) (ci_bindingFingerprint right) &&
  sameTarget (ci_target left) (ci_target right).

Definition CAPABILITY_REQUEST_INVALID : exn := DiagnosticError "CAPABILITY_REQUEST_INVALID".
Definition PROTOCOL_IDEMPOTENCY_CONFLICT : exn := DiagnosticError "PROTOCOL_IDEMPOTENCY_CONFLICT".
Definition CAPABILITY_INVOCATION_INDETERMINATE : exn := DiagnosticError "CAPABILITY_INVOCATION_INDETERMINATE".
Definition CAPABILITY_BINDING_STALE : exn := DiagnosticError "CAPABILITY_BINDING_STALE".

Definition serializeWireValue (value : option json) : result exn json :=
  match value ≫= serialize with Some v => Ok v | None => Err (DiagnosticError "PROTOCOL_WIRE_VALUE_INVALID") end.

(** ** The store: the collection of invocations *)
Record InvocationStore := { is_records : gmap jstring (DurableInvocationRecord * Z); is_revision : Z }.
Definition empty_store : InvocationStore := {| is_records := ∅; is_revision := 0 |}.
(** The expected revision of a put; [None] is absent. *)
Definition put (id : jstring) (record : DurableInvocationRecord) (expected : option Z) (st : InvocationStore) : result exn InvocationStore :=
  throw_if (negb (bool_decide (snd <$> is_records st !! id = expected))) (DiagnosticError "STATE_REVISION_CONFLICT");;
  Ok {| is_records := <[id := (record, is_revision st + 1)]> (is_records st); is_revision := is_revision st + 1 |}.

(** The two transactions, on what is stored. *)
Definition admission (id callFingerprint : jstring) (st : InvocationStore) : result exn (bool * DurableInvocationRecord * InvocationStore) :=
  match is_records st !! id with
  | Some (existing, _) =>
      throw_if (negb (streq (dr_fingerprint existing) callFingerprint)) PROTOCOL_IDEMPOTENCY_CONFLICT;;
      Ok (false, existing, st)
  | None =>
      operationId ← parseOperationId (VStr id);
      let record := {| dr_operationId := operationId; dr_fingerprint := callFingerprint; dr_status := StatusExecuting; dr_result := None; dr_diagnostic := None |} in
      st' ← put id record None st;
      Ok (true, record, st')
  end.
Definition completion (id callFingerprint : jstring) (terminal : DurableInvocationRecord) (st : InvocationStore)
  : result exn (DurableInvocationRecord * InvocationStore) :=
  match is_records st !! id with
  | None => Err PROTOCOL_IDEMPOTENCY_CONFLICT
  | Some (current, revision) =>
      throw_if (negb (streq (dr_fingerprint current) callFingerprint)) PROTOCOL_IDEMPOTENCY_CONFLICT;;
      if negb (bool_decide (dr_status current = StatusExecuting)) then Ok (current, st)
      else st' ← put id terminal (Some revision) st; Ok (terminal, st')
  end.

(** ** The world

    The routers, the store they share, the entries of all of them; and the history:
    the call of every entry, which entry claimed an invocation, what was dispatched,
    what was answered. *)
Record job := { jb_consumer : ComponentInstanceIdentity; jb_call : RoutedCapabilityInvocation; jb_key : jstring; jb_fingerprint : jstring; jb_authority : bool }.
Record Dispatch := { dp_entry : nat; dp_consumer : ComponentInstanceIdentity; dp_route : CapabilityRoute; dp_call : RoutedCapabilityInvocation }.
Record World := {
  w_routers : list CapabilityRouter;
  w_store : InvocationStore;
  w_entries : list InvocationEntry;
  w_jobs : list job;
  w_claims : gmap jstring nat;
  w_dispatches : list Dispatch;
  w_responses : list (nat * json);
}.
Definition no_routers : World := {| w_routers := []; w_store := empty_store; w_entries := []; w_jobs := []; w_claims := ∅; w_dispatches := []; w_responses := [] |}.
Definition with_routers (rs : list CapabilityRouter) (w : World) : World := {|
  w_routers := rs; w_store := w_store w; w_entries := w_entries w; w_jobs := w_jobs w; w_claims := w_claims w; w_dispatches := w_dispatches w; w_responses := w_responses w |}.
Definition with_jobs (js : list job) (w : World) : World := {|
  w_routers := w_routers w; w_store := w_store w; w_entries := w_entries w; w_jobs := js; w_claims := w_claims w; w_dispatches := w_dispatches w; w_responses := w_responses w |}.
Definition with_store (st : InvocationStore) (claims : gmap jstring nat) (w : World) : World := {|
  w_routers := w_routers w; w_store := st; w_entries := w_entries w; w_jobs := w_jobs w; w_claims := claims; w_dispatches := w_dispatches w; w_responses := w_responses w |}.
Definition with_entries (es : list InvocationEntry) (w : World) : World := {|
  w_routers := w_routers w; w_store := w_store w; w_entries := es; w_jobs := w_jobs w; w_claims := w_claims w; w_dispatches := w_dispatches w; w_responses := w_responses w |}.
Definition with_history (ds : list Dispatch) (rs : list (nat * json)) (w : World) : World := {|
  w_routers := w_routers w; w_store := w_store w; w_entries := w_entries w; w_jobs := w_jobs w; w_claims := w_claims w; w_dispatches := ds; w_responses := rs |}.

(** ** Effects *)
Inductive eff : Type → Type :=
| Tick : eff unit                                              (** an await of what is settled already *)
| Admission (id callFingerprint : jstring) : eff (result exn (bool * DurableInvocationRecord))
| Completion (id callFingerprint : jstring) (terminal : DurableInvocationRecord) : eff (result exn DurableInvocationRecord)
| ReadRecord (id : jstring) : eff (result exn (option DurableInvocationRecord))
| Resolve (consumer : ComponentInstanceIdentity) (call : RoutedCapabilityInvocation) : eff (result exn CapabilityRoute)
| SchemaGate (provision : CapabilityProvisionRoute) : eff (result exn CapabilitySchemaGate)
| Revalidate (route : CapabilityRoute) : eff (result exn bool)
| DispatchCall (authority : bool) (consumer : ComponentInstanceIdentity) (route : CapabilityRoute) (call : RoutedCapabilityInvocation) : eff (result exn unit)
| AwaitResponse : eff (result exn json)
| Settle (r : result exn json) : eff unit                      (** the promise of the entry *)
| MarkSettled : eff unit.
Abbreviation task A := (prog eff exn A).

Section router.
Context (number_text : jsnum → jstring) (sha256 domainToASCII : jstring → jstring).
Context (parseDefinition : json → option CapabilityDefinition) (compileSchema : json → option SchemaValidator).
Abbreviation canonical := (Canonical.canonical number_text).

(** ** Identities *)
Definition fingerprint (value : json) : jstring := sha256 (canonical value).
Definition invocationKey (consumer : ComponentInstanceIdentity) (invocationId : jstring) : jstring :=
  canonical (JObj
    [(js "applicationId", JStr (ci_applicationId consumer)); (js "pluginId", JStr (ci_pluginId consumer));
     (js "componentId", JStr (ci_componentId consumer)); (js "activation", JStr (ci_activation consumer));
     (js "target", target_json (ci_target consumer)); (js "bindingFingerprint", JStr (ci_bindingFingerprint consumer));
     (js "invocationId", JStr invocationId)]).
Definition durableInvocationKey (key : jstring) : result exn jstring :=
  parseOperationId (VStr (js "capability-" ++ fingerprint (JStr key))).
Definition consumer_json (c : ComponentInstanceIdentity) : json := JObj
  [(js "applicationId", JStr (ci_applicationId c)); (js "pluginId", JStr (ci_pluginId c)); (js "componentId", JStr (ci_componentId c));
   (js "activation", JStr (ci_activation c)); (js "target", target_json (ci_target c)); (js "bindingFingerprint", JStr (ci_bindingFingerprint c))].
Definition identity_json (i : CapabilityIdentity) : json := JObj [(js "name", JStr (id_name i)); (js "protocolVersion", JStr (id_protocolVersion i))].
Definition call_json (c : RoutedCapabilityInvocation) : json := JObj
  [(js "invocationId", JStr (iv_invocationId c)); (js "identity", identity_json (iv_identity c)); (js "method", JStr (iv_method c)); (js "input", iv_input c)].
Definition callFingerprint (consumer : ComponentInstanceIdentity) (call : RoutedCapabilityInvocation) : jstring :=
  fingerprint (JObj [(js "consumer", consumer_json consumer); (js "call", call_json call)]).

(** The names of the fields, sorted and joined by commas. *)
Definition field_names (fields : list (jstring * json)) : jstring := joinc 44 (js_sort compareText (JsMap.keys fields)).
Definition normalizeCall (input : json) : result exn RoutedCapabilityInvocation :=
  value ← serializeWireValue (Some input);
  match value with
  | JObj object =>
      match streq (field_names object) (js "identity,input,invocationId,method"), JsMap.get object (js "identity"), JsMap.get object (js "method") with
      | true, Some (JObj identity), Some (JStr method) =>
          match streq (field_names identity) (js "name,protocolVersion"), JsMap.get identity (js "protocolVersion") with
          | true, Some (JStr protocolVersion) =>
              invocationId ← parseOperationId (untrusted (JsMap.get object (js "invocationId")));
              name ← parseCapabilityName (untrusted (JsMap.get identity (js "name")));
              Ok {| iv_invocationId := invocationId; iv_identity := {| id_name := name; id_protocolVersion := protocolVersion |};
                    iv_method := method; iv_input := default JNull (JsMap.get object (js "input")) |}
          | _, _ => Err CAPABILITY_REQUEST_INVALID
          end
      | _, _, _ => Err CAPABILITY_REQUEST_INVALID
      end
  | _ => Err CAPABILITY_REQUEST_INVALID
  end.

(** ** Schema gates *)
Definition definition_json (p : CapabilityProvisionRoute) : json := JObj
  [(js "identity", identity_json (pv_identity p)); (js "methods", JArr (map JStr (pv_methods p)));
   (js "requestSchema", pv_requestSchema p); (js "responseSchema", pv_responseSchema p)].
Definition schema_content (componentId : jstring) (p : CapabilityProvisionRoute) : json :=
  JObj [(js "componentId", JStr componentId); (js "definition", definition_json p)].
Fixpoint evict (maxSchemaGates : Z) (m : jsmap jstring SchemaEntry) : jsmap jstring SchemaEntry :=
  match m with
  | [] => []
  | _ :: rest => if maxSchemaGates <=? Z.of_nat (length m) then evict maxSchemaGates rest else m
  end.
Definition schemaGate (p : CapabilityProvisionRoute) (r : CapabilityRouter) : result exn CapabilitySchemaGate * CapabilityRouter :=
  match parseComponentId (VStr (pv_componentId p)) with
  | Err e => (Err e, r)
  | Ok componentId =>
      let key := fingerprint (schema_content componentId p) in
      match JsMap.get (ro_schemas r) key with
      | Some existing => (Ok (se_gate existing), with_schemas (JsMap.set (JsMap.delete (ro_schemas r) key) key existing) r)
      | None =>
          let schemas := evict (ro_maxSchemaGates r) (ro_schemas r) in
          match register (stringify number_text) parseDefinition compileSchema new_registry (serialize (definition_json p)) with
          | (registry, Ok gate) => (Ok gate, with_schemas (JsMap.set schemas key {| se_registry := registry; se_gate := gate |}) r)
          | (_, Err _) => (Err (DiagnosticError "CAPABILITY_SCHEMA_INVALID"), with_schemas schemas r)
          end
      end
  end.

(** ** The way to the provider *)
Definition binding_matches (route : CapabilityRoute) (call : RoutedCapabilityInvocation) : bool :=
  bool_decide (bd_capability (cr_binding route) = iv_identity call) &&
  bool_decide (pv_identity (cr_provision route) = iv_identity call) &&
  streq (vr_applicationId (cr_provider route)) (bd_applicationId (cr_binding route)) &&
  streq (vr_pluginId (cr_provider route)) (bd_pluginId (cr_binding route)) &&
  streq (vr_componentId (cr_provider route)) (pv_componentId (cr_provision route)).
Definition gateCall (route : CapabilityRoute) (call : RoutedCapabilityInvocation) : PermissionGateDecision :=
  match serialize (JArr (cr_permissionGrants route)) with
  | None => invalidPermission
  | Some granted =>
      gatePermission_json domainToASCII granted
        (JObj [(js "kind", JStr (js "capability")); (js "method", JStr (iv_method call)); (js "name", JStr (id_name (iv_identity call)))])
  end.
Definition with_input (input : json) (call : RoutedCapabilityInvocation) : RoutedCapabilityInvocation := {|
  iv_invocationId := iv_invocationId call; iv_identity := iv_identity call; iv_method := iv_method call; iv_input := input |}.
(** The value a decision lets through. *)
Definition passed (d : CapabilityPayloadDecision) (code : exn) : result exn json :=
  match pl_allowed d, pl_value d with true, Some value => Ok value | _, _ => Err code end.
Definition checks (consumer : ComponentInstanceIdentity) (call : RoutedCapabilityInvocation) (route : CapabilityRoute) : result exn unit :=
  throw_if (negb (sameConsumer (cr_consumer route) consumer)) (DiagnosticError "CAPABILITY_CONSUMER_IDENTITY_MISMATCH");;
  throw_if (negb (binding_matches route call)) CAPABILITY_BINDING_STALE;;
  throw_if (negb (includes (pv_methods (cr_provision route)) (iv_method call))) (DiagnosticError "CAPABILITY_METHOD_UNAVAILABLE");;
  throw_if (negb (gd_allowed (gateCall route call))) (DiagnosticError "PERMISSION_CAPABILITY_DENIED").
Definition execute (consumer : ComponentInstanceIdentity) (call : RoutedCapabilityInvocation) (authority : bool) : task json :=
  route ← attempt (Resolve consumer call);
  _ ← of_result (checks consumer call route);
  gate ← attempt (SchemaGate (cr_provision route));
  input ← of_result (passed (payloadGate gate (serialize (iv_input call)) true) CAPABILITY_REQUEST_INVALID);
  valid ← attempt (Revalidate route);
  if negb valid then Throw CAPABILITY_BINDING_STALE
  else
    _ ← attempt (DispatchCall authority consumer route (with_input input call));
    response ← attempt AwaitResponse;
    of_result (value ← passed (payloadGate gate (serialize response) false) (DiagnosticError "CAPABILITY_RESPONSE_INVALID");
               serializeWireValue (Some value)).

(** ** Once for all routers *)
Definition successfulInvocationResult (record : DurableInvocationRecord) : result exn json :=
  match dr_status record, dr_result record with
  | StatusCompleted, Some value => serializeWireValue (Some value)
  | _, _ => Err CAPABILITY_INVOCATION_INDETERMINATE
  end.
Definition reloadSuccessfulInvocation (id callFingerprint : jstring) : task json :=
  current ← catch (attempt (ReadRecord id)) (λ _, Throw CAPABILITY_INVOCATION_INDETERMINATE);
  match current with
  | None => Throw CAPABILITY_INVOCATION_INDETERMINATE
  | Some record =>
      if negb (streq (dr_fingerprint record) callFingerprint) then Throw PROTOCOL_IDEMPOTENCY_CONFLICT
      else of_result (successfulInvocationResult record)
  end.
Definition failure (cause : exn) : exn :=
  match cause with DiagnosticError _ => cause | _ => DiagnosticError "CAPABILITY_INVOCATION_FAILED" end.
(** The record that ends an invocation. *)
Definition terminal_record (started : DurableInvocationRecord) (callFingerprint : jstring) (r : result exn json) : DurableInvocationRecord := {|
  dr_operationId := dr_operationId started; dr_fingerprint := callFingerprint;
  dr_status := match r with Ok _ => StatusCompleted | Err _ => StatusFailed end;
  dr_result := match r with Ok value => Some value | Err _ => None end;
  dr_diagnostic := match r with Ok _ => None | Err cause => Some (failure cause) end |}.
(** The invocation is claimed: the provider, and the record of what came of it. *)
Definition executeClaimed (consumer : ComponentInstanceIdentity) (call : RoutedCapabilityInvocation) (id callFingerprint : jstring)
    (started : DurableInvocationRecord) (authority : bool) : task json :=
  outcome ← settled (execute consumer call authority);
  match outcome with
  | Err cause =>
      _ ← attempt (Completion id callFingerprint (terminal_record started callFingerprint outcome));
      Throw (failure cause)
  | Ok _ =>
      catch (terminal ← attempt (Completion id callFingerprint (terminal_record started callFingerprint outcome));
             of_result (successfulInvocationResult terminal))
            (λ _, reloadSuccessfulInvocation id callFingerprint)
  end.
Definition executeDurable (consumer : ComponentInstanceIdentity) (call : RoutedCapabilityInvocation) (invocationIdentity callFingerprint : jstring)
    (authority : bool) : task json :=
  id ← of_result (durableInvocationKey invocationIdentity);
  '(claimed, admitted) ← attempt (Admission id callFingerprint);
  match dr_status admitted with
  | StatusCompleted => of_result (serializeWireValue (dr_result admitted))
  | StatusFailed =>
      match dr_diagnostic admitted with
      | None => Throw CAPABILITY_INVOCATION_INDETERMINATE
      | Some diagnostic => Throw diagnostic
      end
  | StatusExecuting =>
      if negb claimed then Throw CAPABILITY_INVOCATION_INDETERMINATE
      else executeClaimed consumer call id callFingerprint admitted authority
  end.
(** The promise of an entry. *)
Definition run_entry (consumer : ComponentInstanceIdentity) (call : RoutedCapabilityInvocation) (key callFingerprint : jstring) (authority : bool) : task unit :=
  _ ← effect Tick;
  r ← settled (executeDurable consumer call key callFingerprint authority);
  _ ← effect (Settle r);
  effect MarkSettled.

(** ** Calls *)
Definition entry_settled (es : list InvocationEntry) (e : nat) : bool := match es !! e with Some e => ie_settled e | None => false end.
Fixpoint prune (fuel : nat) (maxInvocations : Z) (es : list InvocationEntry) (m : jsmap jstring nat) : jsmap jstring nat :=
  match fuel with
  | O => m
  | S fuel =>
      if Z.of_nat (length m) <? maxInvocations then m
      else match List.find (λ e, entry_settled es e.2) m with
           | None => m
           | Some (key, _) => prune fuel maxInvocations es (JsMap.delete m key)
           end
  end.
Definition pruneInvocations (r : CapabilityRouter) (es : list InvocationEntry) : jsmap jstring nat :=
  prune (length (ro_invocations r)) (ro_maxInvocations r) es (ro_invocations r).

Definition start (j : job) : task unit := run_entry (jb_consumer j) (jb_call j) (jb_key j) (jb_fingerprint j) (jb_authority j).

(** A call returns the entry whose promise it returns, and the program it starts, or
    rejects (or throws) with an error. *)
Definition invoke (consumer : ComponentInstanceIdentity) (input : json) (authority : bool) (r : CapabilityRouter) (es : list InvocationEntry)
  : result exn (nat * option job) * CapabilityRouter * list InvocationEntry :=
  match normalizeCall input with
  | Err e => (Err e, r, es)
  | Ok call =>
      let key := invocationKey consumer (iv_invocationId call) in
      let print := callFingerprint consumer call in
      match JsMap.get (ro_invocations r) key with
      | Some existing =>
          if negb (streq (match es !! existing with Some e => ie_fingerprint e | None => [] end) print)
          then (Err PROTOCOL_IDEMPOTENCY_CONFLICT, r, es)
          else (Ok (existing, None), with_invocations (JsMap.set (JsMap.delete (ro_invocations r) key) key existing) r, es)
      | None =>
          let invocations := pruneInvocations r es in
          if ro_maxInvocations r <=? Z.of_nat (length invocations)
          then (Err (DiagnosticError "CAPABILITY_INVOCATION_CAPACITY_EXHAUSTED"), with_invocations invocations r, es)
          else (Ok (length es, Some {| jb_consumer := consumer; jb_call := call; jb_key := key; jb_fingerprint := print; jb_authority := authority |}),
                with_invocations (JsMap.set invocations key (length es)) r,
                es ++ [{| ie_fingerprint := print; ie_result := None; ie_settled := false |}])
      end
  end.
Definition clear (r : CapabilityRouter) : CapabilityRouter := with_schemas [] (with_invocations [] r).

(** ** The environment *)
(** A thread runs the promise of an entry, in a router. *)
Record context := { cx_router : nat; cx_entry : nat }.
Inductive transaction := Commits | FailsBefore (e : exn) | FailsAfter (e : exn).
Inductive answer :=
| ATransaction (t : transaction)
| ARead (failure : option exn)
| ARoute (r : result exn CapabilityRoute)
| AValid (r : result exn bool)
| AActive (r : result exn unit)
| AResponse (r : result exn json)
| ANothing.
Definition on_entry (e : nat) (f : InvocationEntry → InvocationEntry) (w : World) : World :=
  match w_entries w !! e with Some x => with_entries (<[e := f x]> (w_entries w)) w | None => w end.
(** A transaction: what is stored, and what the call answers. *)
Definition transacts {B} (t : transaction) (r : result exn (B * InvocationStore)) (st : InvocationStore) : result exn B * InvocationStore :=
  match t, r with
  | FailsBefore e, _ => (Err e, st)
  | _, Err e => (Err e, st)
  | Commits, Ok (b, st') => (Ok b, st')
  | FailsAfter e, Ok (_, st') => (Err e, st')
  end.
Definition handle (c : context) (a : answer) (w : World) (B : Type) (e : eff B) : option (B * World * list job) :=
  match e, a with
  | Tick, _ => Some (tt, w, [])
  | Admission id print, ATransaction t =>
      let '(r, st) := transacts t (admission id print (w_store w)) (w_store w) in
      let claims := if bool_decide (is_Some (is_records (w_store w) !! id)) || bool_decide (is_records st !! id = None)
                    then w_claims w else <[id := cx_entry c]> (w_claims w) in
      Some (r, with_store st claims w, [])
  | Completion id print terminal, ATransaction t =>
      let '(r, st) := transacts t (completion id print terminal (w_store w)) (w_store w) in
      Some (r, with_store st (w_claims w) w, [])
  | ReadRecord id, ARead failure =>
      Some (match failure with Some e => Err e | None => Ok (fst <$> is_records (w_store w) !! id) end, w, [])
  | Resolve _ _, ARoute r => Some (r, w, [])
  | SchemaGate p, _ =>
      match w_routers w !! cx_router c with
      | Some r => let '(g, r') := schemaGate p r in Some (g, with_routers (<[cx_router c := r']> (w_routers w)) w, [])
      | None => None
      end
  | Revalidate _, AValid r => Some (r, w, [])
  | DispatchCall authority consumer route call, AActive r =>
      match authority, r with
      | true, Err x => Some (Err x, w, [])
      | _, _ =>
          Some (Ok tt,
            with_history (w_dispatches w ++ [{| dp_entry := cx_entry c; dp_consumer := consumer; dp_route := route; dp_call := call |}]) (w_responses w) w, [])
      end
  | AwaitResponse, AResponse r =>
      Some (r, match r with Ok v => with_history (w_dispatches w) (w_responses w ++ [(cx_entry c, v)]) w | Err _ => w end, [])
  | Settle r, _ => Some (tt, on_entry (cx_entry c) (λ x, {| ie_fingerprint := ie_fingerprint x; ie_result := Some r; ie_settled := ie_settled x |}) w, [])
  | MarkSettled, _ => Some (tt, on_entry (cx_entry c) (λ x, {| ie_fingerprint := ie_fingerprint x; ie_result := ie_result x; ie_settled := true |}) w, [])
  | _, _ => None
  end.

Abbreviation routers := (pool eff exn World context).
Inductive happening :=
| Opens (maxInvocations maxSchemaGates : option jsnum)
| Invokes (router : nat) (consumer : ComponentInstanceIdentity) (input : json) (authority : bool)
| Clears (router : nat)
| Runs (thread : nat) (a : answer).
Definition happens (q : routers) (h : happening) : routers :=
  let w := p_world q in
  match h with
  | Opens i s => match createRouter i s with Ok r => Build_pool (with_routers (w_routers w ++ [r]) w) (p_threads q) | Err _ => q end
  | Invokes n consumer input authority =>
      match w_routers w !! n with
      | Some r =>
          let '(returned, r', es) := invoke consumer input authority r (w_entries w) in
          let w' := with_entries es (with_routers (<[n := r']> (w_routers w)) w) in
          match returned with
          | Ok (e, Some j) => Build_pool (with_jobs (w_jobs w ++ [j]) w') (p_threads q ++ [({| cx_router := n; cx_entry := e |}, start j)])
          | _ => Build_pool w' (p_threads q)
          end
      | None => q
      end
  | Clears n => match w_routers w !! n with Some r => Build_pool (with_routers (<[n := clear r]> (w_routers w)) w) (p_threads q) | None => q end
  | Runs thread a => run_at handle start thread a q
  end.
Definition history (hs : list happening) : routers := foldl happens (Build_pool no_routers []) hs.
End router.
