(* ===== verification/RouterLaws.v ===== *)
(** * Laws of the capability router

    What every run of the routers of Router.v keeps: which entry may dispatch an
    invocation, what a dispatch passed before, and where the result of a record comes
    from. The programs are verified one by one with the rules for owners of Async.v. *)

From S2P Require Import Prelude JsString Collections JsValue Identity JsonText Permission Gate Canonical Placement Execution Async Router.

Open Scope Z_scope.

#[local] Arguments JsMap.get : simpl never.
#[local] Arguments JsMap.set : simpl never.
#[local] Arguments JsMap.delete : simpl never.
#[local] Arguments parseOperationId : simpl never.
#[local] Arguments serialize : simpl never.
#[local] Arguments payloadGate : simpl never.
#[local] Arguments register : simpl never.

(** ** How a world may change *)
Definition finishes (r r' : DurableInvocationRecord) : Prop :=
  dr_status r = StatusExecuting ∧ dr_status r' ≠ StatusExecuting ∧ dr_fingerprint r' = dr_fingerprint r.
Definition store_later (st st' : InvocationStore) : Prop :=
  ∀ id r v, is_records st !! id = Some (r, v) → ∃ r' v', is_records st' !! id = Some (r', v') ∧ (r' = r ∨ finishes r r').
#[export] Instance store_later_preorder : PreOrder store_later.
Proof.
  split.
  - intros st id r v H. eauto.
  - intros a b c Hab Hbc id r v H. destruct (Hab _ _ _ H) as (r' & v' & H' & C). destruct (Hbc _ _ _ H') as (r'' & v'' & H'' & C').
    exists r'', v''. split; [done|]. destruct C as [-> | (? & ? & ?)], C' as [-> | (? & ? & ?)]; [by left|by right| |congruence]. right. by split_and!.
Qed.
Lemma final_later st st' id r v :
  store_later st st' → is_records st !! id = Some (r, v) → dr_status r ≠ StatusExecuting → ∃ v', is_records st' !! id = Some (r, v').
Proof. intros H Hr Hs. destruct (H _ _ _ Hr) as (r' & v' & H' & [-> | (? & _)]); [eauto|done]. Qed.

(** What nobody takes back, and what only the entries of [P] add. *)
Record adds (P : nat → Prop) (w w' : World) : Prop := {
  ad_store : store_later (w_store w) (w_store w');
  ad_claims : w_claims w ⊆ w_claims w';
  ad_jobs : ∃ js, w_jobs w' = w_jobs w ++ js;
  ad_dispatches : ∃ ds, w_dispatches w' = w_dispatches w ++ ds ∧ Forall (λ d, P (dp_entry d)) ds;
  ad_responses : ∃ rs, w_responses w' = w_responses w ++ rs;
}.
#[export] Instance adds_preorder P : PreOrder (adds P).
Proof.
  split.
  - intros w. split; [done|done|exists []; by rewrite app_nil_r|exists []; by rewrite app_nil_r|exists []; by rewrite app_nil_r].
  - intros a b c [S1 C1 [j1 J1] [d1 [D1 P1]] [r1 R1]] [S2 C2 [j2 J2] [d2 [D2 P2]] [r2 R2]]. split.
    + by etrans.
    + by etrans.
    + exists (j1 ++ j2). by rewrite J2, J1, app_assoc.
    + exists (d1 ++ d2). rewrite D2, D1, app_assoc. split; [done|]. by apply Forall_app.
    + exists (r1 ++ r2). by rewrite R2, R1, app_assoc.
Qed.
Lemma adds_mono (P Q : nat → Prop) w w' : (∀ n, P n → Q n) → adds P w w' → adds Q w w'.
Proof. intros H [? ? ? [ds [? Hd]] ?]. split; [done|done|done| |done]. exists ds. split; [done|]. eapply Forall_impl; [done|]. intros d. apply H. Qed.
(** What a thread relies on, and what it does. *)
Definition rely (c : context) : World → World → Prop := adds (λ n, n ≠ cx_entry c).
Definition does (c : context) : World → World → Prop := adds (λ n, n = cx_entry c).
Lemma does_rely c c' w w' : cx_entry c ≠ cx_entry c' → does c w w' → rely c' w w'.
Proof. intros Hne. apply adds_mono. congruence. Qed.

Lemma adds_job P w w' n j : adds P w w' → w_jobs w !! n = Some j → w_jobs w' !! n = Some j.
Proof. intros [_ _ [js ->] _ _] H. by apply lookup_app_l_Some. Qed.
Lemma adds_claim P w w' id n : adds P w w' → w_claims w !! id = Some n → w_claims w' !! id = Some n.
Proof. intros [_ H _ _ _] Hn. by eapply lookup_weaken. Qed.
Lemma adds_dispatch P w w' d : adds P w w' → d ∈ w_dispatches w → d ∈ w_dispatches w'.
Proof. intros [_ _ _ [ds [-> _]] _] H. apply elem_of_app. by left. Qed.
Lemma adds_response P w w' r : adds P w w' → r ∈ w_responses w → r ∈ w_responses w'.
Proof. intros [_ _ _ _ [rs ->]] H. apply elem_of_app. by left. Qed.

Lemma sameTarget_eq a b : sameTarget a b = true → a = b.
Proof.
  unfold sameTarget. destruct a as [a1 a2 a3 [a4 a5 a6]], b as [b1 b2 b3 [b4 b5 b6]]. cbn.
  rewrite !andb_true_iff, !streq_true, !bool_decide_eq_true. intuition congruence.
Qed.
Lemma sameConsumer_eq a b : sameConsumer a b = true → a = b.
Proof.
  unfold sameConsumer. rewrite !andb_true_iff, !streq_true. intros (((((? & ?) & ?) & ?) & ?) & ?%sameTarget_eq).
  destruct a, b; cbn in *. by subst.
Qed.

Section laws.
Context (number_text : jsnum → jstring) (sha256 domainToASCII : jstring → jstring).
Context (parseDefinition : json → option CapabilityDefinition) (compileSchema : json → option SchemaValidator).
Abbreviation durable := (durableInvocationKey number_text sha256).
Abbreviation invocation_key := (invocationKey number_text).
Abbreviation print_of := (callFingerprint number_text sha256).
Abbreviation registers p := (register (stringify number_text) parseDefinition compileSchema new_registry (serialize (definition_json p))).
Abbreviation handler := (handle number_text sha256 parseDefinition compileSchema).

(** ** What a world is *)
Definition dispatch_id (d : Dispatch) : result exn jstring := durable (invocation_key (dp_consumer d) (iv_invocationId (dp_call d))).
(** The gate is the one of the provision, unless two contents have one hash. *)
Definition gate_of (p : CapabilityProvisionRoute) (g : CapabilitySchemaGate) : Prop :=
  number_text_ok number_text → is_Some (serialize (definition_json p)) → (∃ registry, registers p = (registry, Ok g)) ∨ collision sha256.
(** A dispatch passed every check before. *)
Definition dispatch_ok (d : Dispatch) : Prop :=
  checks domainToASCII (dp_consumer d) (dp_call d) (dp_route d) = Ok tt ∧
  ∃ g, gate_of (cr_provision (dp_route d)) g ∧ sv_parse (g_request g) (iv_input (dp_call d)) = None.
(** The result of an invocation is what its provider answered, through the gate. *)
Definition evidence (w : World) (n : nat) (id print : jstring) (x : json) : Prop :=
  ∃ d g y, d ∈ w_dispatches w ∧ dp_entry d = n ∧ dispatch_id d = Ok id ∧ print = print_of (dp_consumer d) (dp_call d) ∧
    gate_of (cr_provision (dp_route d)) g ∧ (n, y) ∈ w_responses w ∧ serialize y = Some x ∧ sv_parse (g_response g) x = None.
Definition answered (st : InvocationStore) (j : job) (v : json) : Prop :=
  ∃ id r rev, durable (jb_key j) = Ok id ∧ is_records st !! id = Some (r, rev) ∧ dr_fingerprint r = jb_fingerprint j ∧
    dr_status r = StatusCompleted ∧ dr_result r = Some v.

Definition job_ok (j : job) : Prop :=
  jb_key j = invocation_key (jb_consumer j) (iv_invocationId (jb_call j)) ∧ jb_fingerprint j = print_of (jb_consumer j) (jb_call j) ∧
  wire (iv_input (jb_call j)).
Record router_ok (js : list job) (r : CapabilityRouter) : Prop := {
  rk_invocations : JsMap.wf (ro_invocations r);
  rk_jobs : ∀ key n, JsMap.get (ro_invocations r) key = Some n → ∃ j, js !! n = Some j ∧ jb_key j = key;
  rk_capacity : Z.of_nat (length (ro_invocations r)) <= ro_maxInvocations r;
  rk_schemas : JsMap.wf (ro_schemas r);
  rk_gates : ∀ key e, JsMap.get (ro_schemas r) key = Some e → ∃ id p registry,
    key = fingerprint number_text sha256 (schema_content id p) ∧ registers p = (registry, Ok (se_gate e));
  rk_schema_capacity : Z.of_nat (length (ro_schemas r)) <= ro_maxSchemaGates r;
  rk_bounds : 1 <= ro_maxInvocations r <= 4096 ∧ 1 <= ro_maxSchemaGates r <= 4096;
}.
Record world_ok (w : World) : Prop := {
  wo_routers : Forall (router_ok (w_jobs w)) (w_routers w);
  wo_jobs : Forall job_ok (w_jobs w);
  wo_entries : Forall2 (λ j e, ie_fingerprint e = jb_fingerprint j ∧ ∀ v, ie_result e = Some (Ok v) → answered (w_store w) j v)
    (w_jobs w) (w_entries w);
  wo_claims : ∀ id, is_Some (is_records (w_store w) !! id) ↔ is_Some (w_claims w !! id);
  wo_dispatches : Forall (λ d, dispatch_ok d ∧ is_Some (w_jobs w !! dp_entry d) ∧ ∃ id, dispatch_id d = Ok id ∧ w_claims w !! id = Some (dp_entry d)) (w_dispatches w);
  wo_once : NoDup (map dp_entry (w_dispatches w));
  wo_results : ∀ id r v, is_records (w_store w) !! id = Some (r, v) → dr_status r = StatusCompleted →
    ∃ n x, w_claims w !! id = Some n ∧ dr_result r = Some x ∧ evidence w n id (dr_fingerprint r) x;
}.

Lemma evidence_later P w w' n id print x : adds P w w' → evidence w n id print x → evidence w' n id print x.
Proof.
  intros Ha (d & g & y & ? & ? & ? & ? & ? & ? & ? & ?). exists d, g, y. split_and!; try done; [by eapply adds_dispatch|by eapply adds_response].
Qed.
Lemma evidence_wire w n id print x : evidence w n id print x → wire x.
Proof. intros (d & g & y & ? & ? & ? & ? & ? & ? & ? & ?). by eapply serialize_wire. Qed.
Lemma result_later st st' j v : store_later st st' → answered st j v → answered st' j v.
Proof.
  intros Hs (id & r & rev & Hid & Hr & Hf & Hst & Hv). destruct (final_later _ _ _ _ _ Hs Hr) as [rev' Hr']; [by rewrite Hst|].
  by exists id, r, rev'.
Qed.
Lemma router_ok_later js js' r : router_ok js r → router_ok (js ++ js') r.
Proof.
  intros [? Hj ? ? ? ? ?]. split; try done. intros key n H. destruct (Hj _ _ H) as (j & ? & ?). exists j. split; [|done]. by apply lookup_app_l_Some.
Qed.
Lemma entries_later st st' js es :
  store_later st st' → Forall2 (λ j e, ie_fingerprint e = jb_fingerprint j ∧ ∀ v, ie_result e = Some (Ok v) → answered st j v) js es →
  Forall2 (λ j e, ie_fingerprint e = jb_fingerprint j ∧ ∀ v, ie_result e = Some (Ok v) → answered st' j v) js es.
Proof. intros Hs H. eapply Forall2_impl; [done|]. intros j e [? Hv]. split; [done|]. intros v Hr. eapply result_later; [done|by apply Hv]. Qed.

(** ** Identities and calls *)
Lemma serialized_fields object : wire (JObj object) → ∀ k v, JsMap.get object k = Some v → wire v.
Proof.
  intros [Hf _]%wire_obj k v Hv%JsMap.get_in. rewrite Forall_forall in Hf. by apply (Hf (k, v)).
Qed.
Lemma normalizeCall_wire input call : normalizeCall input = Ok call → wire (iv_input call).
Proof.
  unfold normalizeCall, serializeWireValue. cbn [mbind option_bind]. intros (value & Hv & H)%bind_ok.
  destruct (serialize input) as [v|] eqn:Es; [|done]. injection Hv as ->. apply serialize_wire in Es.
  destruct value as [| | | | |object]; try done. destruct (streq _ _); [|done].
  destruct (JsMap.get object (js "identity")) as [[| | | | |identity]|]; try done.
  destruct (JsMap.get object (js "method")) as [[| | |method| |]|]; try done.
  destruct (streq _ _); [|done]. destruct (JsMap.get identity (js "protocolVersion")) as [[| | |version| |]|]; try done.
  apply bind_ok in H as (id & _ & H). apply bind_ok in H as (name & _ & [= <-]). cbn.
  destruct (JsMap.get object (js "input")) as [x|] eqn:Ex; [|done]. by eapply serialized_fields.
Qed.
(** ** The cache of schema gates *)
Lemma evict_spec bound (m : jsmap jstring SchemaEntry) : 1 <= bound → ∃ l, m = l ++ evict bound m ∧ Z.of_nat (length (evict bound m)) < bound.
Proof.
  intros Hb. induction m as [|e m IH]; [exists []; split; [done|cbn; lia]|]. cbn [evict].
  destruct (Z.leb_spec bound (Z.of_nat (length (e :: m)))) as [H|H].
  - destruct IH as (l & E & ?). exists (e :: l). cbn. by rewrite <- E.
  - exists []. split; [done|lia].
Qed.
Lemma evict_get bound m key e : 1 <= bound → JsMap.wf m → JsMap.get (evict bound m) key = Some e → JsMap.get m key = Some e.
Proof.
  intros Hb Hw H%JsMap.get_in. apply JsMap.in_get; [done|]. destruct (evict_spec bound m Hb) as (l & E & _). rewrite E.
  apply elem_of_app. by right.
Qed.
Lemma evict_wf bound m : 1 <= bound → JsMap.wf m → JsMap.wf (evict bound m).
Proof.
  intros Hb. destruct (evict_spec bound m Hb) as (l & E & _). unfold JsMap.wf, JsMap.keys. intros Hw.
  rewrite E, fmap_app in Hw. by apply NoDup_app in Hw as (_ & _ & ?).
Qed.
Lemma set_length {V} (m : jsmap jstring V) k v : JsMap.wf m →
  length (JsMap.set m k v) = (if JsMap.has m k then length m else S (length m)).
Proof.
  intros Hw. rewrite <- (length_fmap fst). change ((JsMap.set m k v).*1) with (JsMap.keys (JsMap.set m k v)). rewrite JsMap.keys_set.
  destruct (JsMap.has m k); unfold JsMap.keys; [by rewrite length_fmap|]. rewrite length_app, length_fmap. cbn. lia.
Qed.
(** Moving an entry to the end keeps the map. *)
Lemma touch_spec {V} (m : jsmap jstring V) k v :
  JsMap.wf m → JsMap.get m k = Some v →
  JsMap.wf (JsMap.set (JsMap.delete m k) k v) ∧ length (JsMap.set (JsMap.delete m k) k v) = length m ∧
  ∀ k', JsMap.get (JsMap.set (JsMap.delete m k) k v) k' = JsMap.get m k'.
Proof.
  intros Hw Hg. pose proof (JsMap.wf_delete _ k Hw) as Hd. split_and!.
  - by apply JsMap.wf_set.
  - rewrite set_length by done. assert (JsMap.has (JsMap.delete m k) k = false) as ->.
    { unfold JsMap.has. by rewrite JsMap.get_delete_eq. }
    symmetry. by apply JsMap.length_delete in Hg.
  - intros k'. destruct (decide (k = k')) as [<-|Hne].
    + by rewrite JsMap.get_set_eq.
    + by rewrite JsMap.get_set_ne, JsMap.get_delete_ne.
Qed.

Lemma serialize_content id p d :
  serialize (definition_json p) = Some d → serialize (schema_content id p) = Some (JObj [(js "componentId", JStr id); (js "definition", d)]).
Proof. intros E. unfold schema_content, serialize. fold serialize. cbn [mapM mbind option_bind]. unfold serialize in E. fold serialize in E. cbn -[js_sort]. rewrite E. done. Qed.
Lemma registered_data p registry g : registers p = (registry, Ok g) → ∃ d, serialize (definition_json p) = Some d.
Proof. unfold register. destruct (serialize (definition_json p)) as [d|]; [by exists d|done]. Qed.

(** One hash is one definition, or a collision. *)
Lemma content_determined id p id' p' d d' : number_text_ok number_text →
  fingerprint number_text sha256 (schema_content id p) = fingerprint number_text sha256 (schema_content id' p') →
  serialize (definition_json p) = Some d → serialize (definition_json p') = Some d' → d = d' ∨ collision sha256.
Proof.
  intros Htext E Hd Hd'. unfold fingerprint in E.
  destruct (decide (canonical number_text (schema_content id p) = canonical number_text (schema_content id' p'))) as [Ec|Hne]; [left|right; by eexists _, _].
  apply (canonical_exact number_text Htext _ _ _ _ (serialize_content _ _ _ Hd) (serialize_content _ _ _ Hd')) in Ec. by injection Ec.
Qed.

Lemma schemaGate_sound js r p g r' :
  router_ok js r → schemaGate number_text sha256 parseDefinition compileSchema p r = (g, r') →
  router_ok js r' ∧ ∀ gate, g = Ok gate → gate_of p gate.
Proof.
  intros Hr. pose proof Hr as [Hi Hj Hc Hs Hg Hsc [Hb1 Hb2]]. unfold schemaGate.
  destruct (parseComponentId (VStr (pv_componentId p))) as [cid|e]; [|by intros [= <- <-]].
  set (key := fingerprint number_text sha256 (schema_content cid p)).
  destruct (JsMap.get (ro_schemas r) key) as [existing|] eqn:E.
  - intros [= <- <-]. destruct (touch_spec _ _ _ Hs E) as (Hw & Hl & Hget). split.
    + split; cbn; [done..| | |done]; [|by rewrite Hl]. intros k e. rewrite Hget. apply Hg.
    + intros gate [= <-] Htext [d Hd]. destruct (Hg _ _ E) as (id & p' & registry & Ek & Er). unfold key in Ek.
      destruct (registered_data _ _ _ Er) as [d' Hd']. destruct (content_determined _ _ _ _ _ _ Htext Ek Hd Hd') as [-> | Hcol]; [left|by right].
      exists registry. by rewrite Hd, <- Hd'.
  - assert (JsMap.wf (evict (ro_maxSchemaGates r) (ro_schemas r))) as Hw by (apply evict_wf; [lia|done]).
    assert (∀ k e, JsMap.get (evict (ro_maxSchemaGates r) (ro_schemas r)) k = Some e → JsMap.get (ro_schemas r) k = Some e) as Hget
      by (intros k e; apply evict_get; [lia|done]).
    destruct (evict_spec (ro_maxSchemaGates r) (ro_schemas r)) as (l & _ & Hlt); [lia|].
    destruct (registers p) as [registry [gate|code]] eqn:Er; intros [= <- <-]; (split; [|by intros ? [= <-]; left; exists registry]).
    + split; cbn; [done..| | | |done]; [by apply JsMap.wf_set| |].
      * intros k e. destruct (decide (key = k)) as [<-|Hne].
        -- rewrite JsMap.get_set_eq. intros [= <-]. by exists cid, p, registry.
        -- rewrite JsMap.get_set_ne by done. intros H%Hget. by apply Hg.
      * rewrite set_length by done. destruct (JsMap.has _ _); cbn; lia.
    + split; cbn; [done..| | | |done]; [done| |lia]. intros k e H%Hget. by apply Hg.
Qed.

(** ** One effect *)
#[local] Instance does_preorder c : PreOrder (does c) := adds_preorder _.
Lemma with_store_same w : with_store (w_store w) (w_claims w) w = w.
Proof. by destruct w. Qed.
Lemma does_store c w st claims : store_later (w_store w) st → w_claims w ⊆ claims → does c w (with_store st claims w).
Proof. intros Hs Hc. split; cbn; [done|done|exists []; by rewrite app_nil_r|exists []; by rewrite app_nil_r|exists []; by rewrite app_nil_r]. Qed.
Lemma store_world w st claims :
  world_ok w → store_later (w_store w) st → w_claims w ⊆ claims →
  (∀ id, is_Some (is_records st !! id) ↔ is_Some (claims !! id)) →
  (∀ id r v, is_records st !! id = Some (r, v) → dr_status r = StatusCompleted →
     (∃ v', is_records (w_store w) !! id = Some (r, v')) ∨
     ∃ n x, claims !! id = Some n ∧ dr_result r = Some x ∧ evidence w n id (dr_fingerprint r) x) →
  world_ok (with_store st claims w).
Proof.
  intros [Hr Hj He Hc Hd Ho Hres] Hs Hcl Hc' Hnew. split; cbn; try done.
  - by eapply entries_later.
  - eapply Forall_impl; [exact Hd|]. intros d (? & ? & id & ? & ?). split_and!; [done..|]. exists id. split; [done|]. by eapply lookup_weaken.
  - intros id r v Hv Hst. destruct (Hnew _ _ _ Hv Hst) as [[v' Hv']|(n & x & ? & ? & ?)]; [|by exists n, x].
    destruct (Hres _ _ _ Hv' Hst) as (n & x & ? & ? & ?). exists n, x. split_and!; [by eapply lookup_weaken|done|done].
Qed.
Lemma put_ok id record expected st st' :
  put id record expected st = Ok st' → is_records st' = <[id := (record, is_revision st + 1)]> (is_records st).
Proof. unfold put. by intros (u & _ & [= <-])%bind_ok. Qed.

(** What an admission answers. *)
Definition admitted_ok (w : World) (n : nat) (id print : jstring) (claimed : bool) (admitted : DurableInvocationRecord) : Prop :=
  (∃ v, is_records (w_store w) !! id = Some (admitted, v)) ∧ dr_fingerprint admitted = print ∧ (claimed = true → w_claims w !! id = Some n).
Lemma admission_step c t w id print r w' js :
  world_ok w → handler c (ATransaction t) w _ (Admission id print) = Some (r, w', js) →
  world_ok w' ∧ does c w w' ∧ js = [] ∧ ∀ claimed admitted, r = Ok (claimed, admitted) → admitted_ok w' (cx_entry c) id print claimed admitted.
Proof.
  intros Hw. pose proof (wo_claims _ Hw id) as Hc. cbn. unfold admission. destruct (is_records (w_store w) !! id) as [[existing v]|] eqn:E.
  - rewrite bool_decide_eq_true_2 by eauto. cbn [orb].
    destruct (negb (streq (dr_fingerprint existing) print)) eqn:Ep; destruct t; cbn; rewrite with_store_same; intros [= <- <- <-]; (split_and!; [done..|]); try done.
    intros ? ? [= <- <-]. split_and!; [eauto|by apply negb_false_iff, streq_true in Ep|done].
  - rewrite bool_decide_eq_false_2 by (by intros [? ?]). cbn [orb].
    assert (∀ st, is_records st !! id = None → st = w_store w → ∀ (r0 : result exn (bool * DurableInvocationRecord)), is_ok r0 = false →
      Some (r0, with_store st (if bool_decide (is_records st !! id = None) then w_claims w else <[id := cx_entry c]> (w_claims w)) w, []) = Some (r, w', js) →
      world_ok w' ∧ does c w w' ∧ js = [] ∧ ∀ claimed admitted, r = Ok (claimed, admitted) → admitted_ok w' (cx_entry c) id print claimed admitted) as Hsame.
    { intros st Hn -> r0 Hr0. rewrite bool_decide_eq_true_2, with_store_same by done. intros [= <- <- <-]. split_and!; [done..|]. by intros ? ? ->. }
    destruct (parseOperationId (VStr id)) as [operationId|e]; cbn [mbind result_bind]; [|destruct t; by apply Hsame].
    set (record := {| dr_operationId := operationId; dr_fingerprint := print; dr_status := StatusExecuting; dr_result := None; dr_diagnostic := None |}).
    destruct (put id record None (w_store w)) as [st'|e] eqn:Eput; cbn [mbind result_bind]; [|destruct t; by apply Hsame].
    pose proof (put_ok _ _ _ _ _ Eput) as Hst. destruct (w_claims w !! id) as [n|] eqn:En; [by destruct (proj2 Hc) as [? ?]|].
    assert (store_later (w_store w) st') as Hlater.
    { intros k q u Hq. exists q, u. split; [|by left]. rewrite Hst, lookup_insert_ne; [done|]. by intros <-; rewrite E in Hq. }
    assert (w_claims w ⊆ <[id := cx_entry c]> (w_claims w)) as Hsub by by apply insert_subseteq.
    assert (world_ok (with_store st' (<[id := cx_entry c]> (w_claims w)) w)) as Hok.
    { apply store_world; [done..| |].
      - intros k. rewrite Hst. destruct (decide (id = k)) as [<-|Hne]; [rewrite !lookup_insert_eq; split; eauto|]. rewrite !lookup_insert_ne by done. apply Hw.
      - intros k q u. rewrite Hst. destruct (decide (id = k)) as [<-|Hne]; [rewrite lookup_insert_eq; by intros [= <- <-]|].
        rewrite lookup_insert_ne by done. eauto. }
    assert (is_records st' !! id = Some (record, is_revision (w_store w) + 1)) as Hid by by rewrite Hst, lookup_insert_eq.
    destruct t; cbn [transacts]; [|by apply Hsame|]; rewrite Hid, bool_decide_eq_false_2 by done; intros [= <- <- <-];
      (split_and!; [done|by apply does_store|done|]); [|done].
    intros ? ? [= <- <-]. split_and!; [eexists; cbn; by rewrite Hid|done|]. intros _. cbn. by rewrite lookup_insert_eq.
Qed.
Lemma completion_step c t w id print terminal r w' js :
  world_ok w → handler c (ATransaction t) w _ (Completion id print terminal) = Some (r, w', js) →
  dr_status terminal ≠ StatusExecuting → dr_fingerprint terminal = print →
  (dr_status terminal = StatusCompleted → ∃ n x, w_claims w !! id = Some n ∧ dr_result terminal = Some x ∧ evidence w n id print x) →
  world_ok w' ∧ does c w w' ∧ js = [] ∧ ∀ record, r = Ok record → (∃ v, is_records (w_store w') !! id = Some (record, v)) ∧ dr_fingerprint record = print.
Proof.
  intros Hw. cbn. unfold completion. destruct (is_records (w_store w) !! id) as [[current v]|] eqn:E;
    [|intros H _ _ _; destruct t; cbn in H; rewrite with_store_same in H; injection H as <- <- <-; by split_and!].
  destruct (negb (streq (dr_fingerprint current) print)) eqn:Ep; cbn [throw_if mbind result_bind];
    [intros H _ _ _; destruct t; cbn in H; rewrite with_store_same in H; injection H as <- <- <-; by split_and!|].
  apply negb_false_iff, streq_true in Ep.
  destruct (bool_decide_reflect (dr_status current = StatusExecuting)) as [Est|Est]; cbn [negb];
    [|intros H _ _ _; destruct t; cbn in H; rewrite with_store_same in H; injection H as <- <- <-; (split_and!; [done..|]); try done; intros ? [= <-]; by eauto].
  destruct (put id terminal (Some v) (w_store w)) as [st'|e] eqn:Eput; cbn [mbind result_bind];
    [|intros H _ _ _; destruct t; cbn in H; rewrite with_store_same in H; injection H as <- <- <-; by split_and!].
  intros H Ht Hp Hev. pose proof (put_ok _ _ _ _ _ Eput) as Hst.
  assert (store_later (w_store w) st') as Hlater.
  { intros k q u Hq. rewrite Hst. destruct (decide (id = k)) as [<-|Hne].
    - rewrite lookup_insert_eq. rewrite E in Hq. injection Hq as <- <-. eexists _, _. split; [done|]. right. split_and!; [done|done|]. congruence.
    - rewrite lookup_insert_ne by done. eauto. }
  assert (world_ok (with_store st' (w_claims w) w)) as Hok.
  { apply store_world; [done..| |].
    - intros k. rewrite <- (wo_claims _ Hw). rewrite Hst. destruct (decide (id = k)) as [<-|Hne]; [|by rewrite lookup_insert_ne].
      rewrite lookup_insert_eq, E. split; eauto.
    - intros k q u. rewrite Hst. destruct (decide (id = k)) as [<-|Hne].
      + rewrite lookup_insert_eq. intros [= <- <-] Hc. right. rewrite Hp. by apply Hev.
      + rewrite lookup_insert_ne by done. eauto. }
  destruct t; cbn in H; [|rewrite with_store_same in H; injection H as <- <- <-; by split_and!|]; injection H as <- <- <-;
    (split_and!; [done|by apply does_store|done|]); [|done].
  intros ? [= <-]. split; [|done]. eexists. cbn. by rewrite Hst, lookup_insert_eq.
Qed.

Lemma schema_step c a w p g w' js :
  world_ok w → handler c a w _ (SchemaGate p) = Some (g, w', js) → world_ok w' ∧ does c w w' ∧ js = [] ∧ ∀ gate, g = Ok gate → gate_of p gate.
Proof.
  intros Hw. cbn. destruct (w_routers w !! cx_router c) as [r|] eqn:Er; [|done].
  destruct (schemaGate number_text sha256 parseDefinition compileSchema p r) as [g0 r'] eqn:Eg. intros [= <- <- <-].
  destruct Hw as [Hr Hj He Hc Hd Ho Hres]. pose proof (Forall_lookup_1 _ _ _ _ Hr Er) as Hok. destruct (schemaGate_sound _ _ _ _ _ Hok Eg) as [Hok' Hg].
  split_and!; [|split; cbn; [done|done|exists []; by rewrite app_nil_r|exists []; by rewrite app_nil_r|exists []; by rewrite app_nil_r]|done|done].
  split; cbn; try done. by apply Forall_insert.
Qed.
Lemma dispatch_step c a w authority consumer route call id r w' js :
  world_ok w → handler c a w _ (DispatchCall authority consumer route call) = Some (r, w', js) →
  (∀ d, d ∈ w_dispatches w → dp_entry d ≠ cx_entry c) →
  let d := {| dp_entry := cx_entry c; dp_consumer := consumer; dp_route := route; dp_call := call |} in
  dispatch_ok d → dispatch_id d = Ok id → w_claims w !! id = Some (cx_entry c) → is_Some (w_jobs w !! cx_entry c) →
  world_ok w' ∧ does c w w' ∧ js = [] ∧ (r = Ok tt → d ∈ w_dispatches w').
Proof.
  intros Hw H Hfresh d Hd Hid Hcl Hjob. cbn in H. destruct a as [| | | |x| |]; try done.
  assert ((r = Err (match x with Err e => e | Ok _ => PlainError end) ∧ w' = w ∧ js = []) ∨
          (r = Ok tt ∧ w' = with_history (w_dispatches w ++ [d]) (w_responses w) w ∧ js = [])) as [(-> & -> & ->)|(-> & -> & ->)].
  { destruct authority, x as [[]|e]; injection H as <- <- <-; auto. }
  { by split_and!. }
  destruct Hw as [Hr Hj He Hc Hds Ho Hres]. split_and!.
  - split; cbn; try done.
    + apply Forall_app. split; [done|]. apply Forall_singleton. split_and!; [done|done|by exists id].
    + rewrite map_app. apply NoDup_app. split_and!; [done| |by apply NoDup_singleton]. intros n (d' & -> & Hd')%list_elem_of_fmap.
      cbn. intros E%list_elem_of_singleton. by apply (Hfresh d').
    + intros i q v Hq Hst. destruct (Hres _ _ _ Hq Hst) as (n & y & ? & ? & Hev). exists n, y. split_and!; [done..|].
      destruct Hev as (d' & g & z & ? & ? & ? & ? & ? & ? & ? & ?). exists d', g, z. split_and!; try done. cbn. apply elem_of_app. by left.
  - split; cbn; [done|done|exists []; by rewrite app_nil_r| |exists []; by rewrite app_nil_r]. exists [d]. split; [done|]. by apply Forall_singleton.
  - done.
  - intros _. cbn. apply elem_of_app. right. by left.
Qed.
Lemma response_step c a w r w' js :
  world_ok w → handler c a w _ AwaitResponse = Some (r, w', js) →
  world_ok w' ∧ does c w w' ∧ js = [] ∧ ∀ y, r = Ok y → (cx_entry c, y) ∈ w_responses w'.
Proof.
  intros Hw H. cbn in H. destruct a as [| | | | |x|]; try done. injection H as <- <- <-. destruct x as [y|e]; [|by split_and!].
  assert (does c w (with_history (w_dispatches w) (w_responses w ++ [(cx_entry c, y)]) w)) as Hdo
    by (split; cbn; [done|done|exists []; by rewrite app_nil_r|exists []; by rewrite app_nil_r|by eexists]).
  split_and!; [|done|done|].
  - destruct Hw as [Hr Hj He Hc Hds Ho Hres]. split; cbn; try done.
    intros i q v Hq Hst. destruct (Hres _ _ _ Hq Hst) as (n & z & ? & ? & Hev). exists n, z. split_and!; [done..|]. by eapply evidence_later.
  - intros ? [= ->]. cbn. apply elem_of_app. right. by left.
Qed.
(** What an entry may be told. *)
Lemma entry_step c w f :
  world_ok w →
  (∀ x, ie_fingerprint (f x) = ie_fingerprint x) →
  (∀ x j v, w_jobs w !! cx_entry c = Some j → ie_result (f x) = Some (Ok v) → ie_result x = Some (Ok v) ∨ answered (w_store w) j v) →
  world_ok (on_entry (cx_entry c) f w) ∧ does c w (on_entry (cx_entry c) f w).
Proof.
  intros Hw Hf Hv. unfold on_entry. destruct (w_entries w !! cx_entry c) as [x|] eqn:Ex; [|by split].
  destruct Hw as [Hr Hj He Hc Hds Ho Hres]. split; [|split; cbn; [done|done|exists []; by rewrite app_nil_r|exists []; by rewrite app_nil_r|exists []; by rewrite app_nil_r]].
  split; cbn; try done. destruct (Forall2_lookup_r _ _ _ _ _ He Ex) as (j & Ej & Hp & Hr').
  rewrite <- (list_insert_id (w_jobs w) (cx_entry c) j) by done. apply Forall2_insert; [done|]. split; [by rewrite Hf|].
  intros v H. destruct (Hv _ _ _ Ej H) as [H'|H']; [by apply Hr'|done].
Qed.

(** ** The programs *)
#[local] Instance rely_preorders : Preorders rely := λ c, adds_preorder _.
Abbreviation verified := (owp handler world_ok rely does).
Abbreviation verified_bind := (owp_bind handler world_ok rely does).

Lemma verified_mono c {B} (p : task B) (Q Q' : result exn B → World → Prop) w :
  (∀ r w', adds (λ _, True) w w' → world_ok w' → Q r w' → Q' r w') → verified c p Q w → verified c p Q' w.
Proof. apply (owp_mono handler world_ok rely does (adds (λ _, True))); intros w1 w2; by apply adds_mono. Qed.

(** An effect that only answers. *)
Lemma owp_still c {B} (e : eff (result exn B)) (Q : result exn B → World → Prop) w :
  (∀ a w1 b w2 js, handler c a w1 _ e = Some (b, w2, js) → w2 = w1 ∧ js = []) →
  (∀ b w', rely c w w' → world_ok w' → Q b w') → verified c (attempt e) Q w.
Proof.
  intros Hs HQ. apply owp_attempt. intros a w1 b w2 js HR H1 Eh. destruct (Hs _ _ _ _ _ Eh) as [-> ->]. split_and!; [done|done|done|].
  intros w3 HR3 H3. apply HQ; [by etrans|done].
Qed.
(** The entry has claimed the invocation and dispatched nothing. *)
Definition unsent (c : context) (id : jstring) (w : World) : Prop :=
  w_claims w !! id = Some (cx_entry c) ∧ is_Some (w_jobs w !! cx_entry c) ∧ ∀ d, d ∈ w_dispatches w → dp_entry d ≠ cx_entry c.
Lemma unsent_later c id w w' : rely c w w' → unsent c id w → unsent c id w'.
Proof.
  intros HR (Hc & [j Hj] & Hd). split_and!; [by eapply adds_claim|eexists; by eapply adds_job|]. destruct HR as [_ _ _ [ds [-> Hds]] _]. intros d [H|H]%elem_of_app; [by apply Hd|].
  rewrite Forall_forall in Hds. by apply Hds.
Qed.
Lemma passed_ok g j is_request code v :
  passed (payloadGate g (serialize j) is_request) code = Ok v → serialize j = Some v ∧ sv_parse (if is_request then g_request g else g_response g) v = None.
Proof.
  unfold passed, payloadGate. destruct (serialize j) as [x|]; [|done]. destruct (sv_parse _ x) as [[]|] eqn:E; [done|done|]. cbn. by intros [= <-].
Qed.

Lemma execute_verified c consumer call authority id w :
  world_ok w → unsent c id w → wire (iv_input call) → durable (invocation_key consumer (iv_invocationId call)) = Ok id →
  verified c (execute domainToASCII consumer call authority)
    (λ r w', ∀ x, r = Ok x → evidence w' (cx_entry c) id (print_of consumer call) x) w.
Proof.
  intros Hw Hu Hwire Hid. unfold execute.
  apply verified_bind; [done|]. apply owp_still; [by intros [] ? ? ? ?; cbn; intros [= <- <- <-]|].
  intros [route|e] w1 R1 W1; [|done]. apply (unsent_later _ _ _ _ R1) in Hu. clear dependent w.
  apply verified_bind; [done|]. apply owp_result. intros w R W. apply (unsent_later _ _ _ _ R) in Hu. clear dependent w1.
  destruct (checks domainToASCII consumer call route) as [[]|e] eqn:Echecks; [|done].
  apply verified_bind; [done|]. apply owp_attempt. intros a w1 gate w2 ? R1 W1 Eh. destruct (schema_step _ _ _ _ _ _ _ W1 Eh) as (W2 & D2 & -> & Hgate).
  assert (unsent c id w2) as Hu2.
  { apply (unsent_later _ _ _ _ R1) in Hu as (Hc & [k Hk] & Hd). split_and!; [by eapply adds_claim|eexists; by eapply adds_job|]. cbn in Eh. destruct (w_routers w1 !! cx_router c); [|done].
    destruct (schemaGate _ _ _ _ _ _). by injection Eh as _ <-. }
  split_and!; [done..|]. clear dependent w w1. intros w R W. apply (unsent_later _ _ _ _ R) in Hu2 as Hu. clear dependent w2. clear a.
  destruct gate as [gate|e]; [|done]. specialize (Hgate _ eq_refl).
  apply verified_bind; [done|]. apply owp_result. intros w1 R1 W1. apply (unsent_later _ _ _ _ R1) in Hu. clear dependent w.
  destruct (passed _ _) as [input|e] eqn:Einput; [|done]. apply passed_ok in Einput as [Einput Hrequest]. rewrite Hwire in Einput. injection Einput as <-.
  apply verified_bind; [done|]. apply owp_still; [by intros [] ? ? ? ?; cbn; intros [= <- <- <-]|].
  intros [valid|e] w R W; [|done]. apply (unsent_later _ _ _ _ R) in Hu. clear dependent w1. destruct (negb valid); [done|].
  apply verified_bind; [done|]. apply owp_attempt. intros a w1 r w2 js R1 W1 Eh. apply (unsent_later _ _ _ _ R1) in Hu as (Hclaim & Hjob & Hfresh).
  edestruct dispatch_step as (W2 & D2 & -> & Hin); [exact W1|exact Eh|exact Hfresh| |exact Hid|exact Hclaim|exact Hjob|].
  { split; [exact Echecks|]. by exists gate. }
  split_and!; [done..|]. clear dependent w w1. intros w R W. destruct r as [[]|e]; [|done]. specialize (Hin eq_refl).
  apply (adds_dispatch _ _ _ _ R) in Hin. clear dependent w2. clear a.
  apply verified_bind; [done|]. apply owp_attempt. intros ? w1 r w2 ? R1 W1 Eh. destruct (response_step _ _ _ _ _ _ W1 Eh) as (W2 & D2 & -> & Hresponse).
  apply (adds_dispatch _ _ _ _ R1), (adds_dispatch _ _ _ _ D2) in Hin.
  split_and!; [done..|]. clear dependent w w1. intros w R W.
  destruct r as [y|e]; [|done]. specialize (Hresponse _ eq_refl). apply (adds_dispatch _ _ _ _ R) in Hin. apply (adds_response _ _ _ _ R) in Hresponse. clear dependent w2.
  apply owp_result. intros w1 R1 W1 x Hx. apply (evidence_later _ _ _ _ _ _ _ R1).
  apply bind_ok in Hx as (value & Hvalue & Hx). apply passed_ok in Hvalue as [Hy Hresp].
  unfold serializeWireValue in Hx. cbn [mbind option_bind] in Hx. rewrite (serialize_wire _ _ Hy) in Hx. injection Hx as <-.
  eexists _, gate, y. split_and!; [exact Hin|done|done|done|done|done|done|done].
Qed.

(** What a record says is what its callers are told. *)
Lemma record_answers w w' j id record rev v :
  world_ok w' → store_later (w_store w) (w_store w') → durable (jb_key j) = Ok id → is_records (w_store w) !! id = Some (record, rev) →
  dr_fingerprint record = jb_fingerprint j → dr_status record = StatusCompleted → serializeWireValue (dr_result record) = Ok v →
  answered (w_store w') j v.
Proof.
  intros Hw Hs Hid Hr Hp Hst Hv. destruct (final_later _ _ _ _ _ Hs Hr) as [rev' Hr']; [by rewrite Hst|].
  destruct (wo_results _ Hw _ _ _ Hr' Hst) as (n & x & _ & Hx & Hev). exists id, record, rev'. split_and!; try done. rewrite Hx. f_equal.
  unfold serializeWireValue in Hv. rewrite Hx in Hv. cbn in Hv. rewrite (evidence_wire _ _ _ _ _ Hev) in Hv. by injection Hv.
Qed.
Lemma successful_completed record v :
  successfulInvocationResult record = Ok v → dr_status record = StatusCompleted ∧ serializeWireValue (dr_result record) = Ok v.
Proof. unfold successfulInvocationResult. destruct (dr_status record), (dr_result record); try done. Qed.
Definition answers (j : job) (r : result exn json) (w : World) : Prop := ∀ v, r = Ok v → answered (w_store w) j v.
#[local] Hint Resolve ad_store : core.

Lemma reload_verified c id j w :
  world_ok w → durable (jb_key j) = Ok id → verified c (reloadSuccessfulInvocation id (jb_fingerprint j)) (answers j) w.
Proof.
  intros Hw Hid. unfold reloadSuccessfulInvocation.
  apply verified_bind; [done|]. apply (owp_catch handler world_ok rely does); [done|]. apply owp_attempt.
  intros a w1 r w2 ? R1 W1 Eh. cbn in Eh. destruct a as [|failure| | | | |]; try done. injection Eh as <- <- <-. split_and!; [done..|].
  intros w3 R3 W3. destruct failure as [e|]; [done|].
  destruct (is_records (w_store w1) !! id) as [[record rev]|] eqn:Er; cbn; [|done].
  destruct (negb (streq (dr_fingerprint record) (jb_fingerprint j))) eqn:Ep; [done|]. apply negb_false_iff, streq_true in Ep.
  apply owp_result. intros w4 R4 W4 v [Hst Hv]%successful_completed. eapply (record_answers w1); eauto. etrans; eauto.
Qed.
Lemma executeClaimed_verified c j id started w :
  world_ok w → job_ok j → durable (jb_key j) = Ok id → unsent c id w →
  verified c (executeClaimed domainToASCII (jb_consumer j) (jb_call j) id (jb_fingerprint j) started (jb_authority j)) (answers j) w.
Proof.
  intros Hw (Hkey & Hprint & Hwire) Hid Hu. unfold executeClaimed.
  apply verified_bind; [done|]. apply owp_settled.
  eapply verified_mono; [|apply execute_verified; [done|exact Hu|done|by rewrite <- Hkey]].
  intros outcome w1 R1 W1 Hev. destruct Hu as (Hclaim & _). apply (adds_claim _ _ _ _ _ R1) in Hclaim.
  assert (∀ w2, rely c w1 w2 → world_ok w2 → dr_status (terminal_record started (jb_fingerprint j) outcome) = StatusCompleted → ∃ n x,
    w_claims w2 !! id = Some n ∧ dr_result (terminal_record started (jb_fingerprint j) outcome) = Some x ∧ evidence w2 n id (jb_fingerprint j) x) as Hresult.
  { intros w2 R2 W2 Hst. destruct outcome as [x|]; [|done]. exists (cx_entry c), x. split_and!; [by eapply adds_claim|done|].
    rewrite Hprint. eapply evidence_later; [exact R2|]. by apply Hev. }
  assert (dr_status (terminal_record started (jb_fingerprint j) outcome) ≠ StatusExecuting) as Hfinal by by destruct outcome.
  set (terminal := terminal_record started (jb_fingerprint j) outcome) in *.
  assert (∀ (Q : result exn DurableInvocationRecord → World → Prop),
    (∀ r w2, world_ok w2 → (∀ record, r = Ok record → dr_fingerprint record = jb_fingerprint j ∧ ∃ w0 v, store_later (w_store w0) (w_store w2) ∧ is_records (w_store w0) !! id = Some (record, v)) → Q r w2) →
    verified c (attempt (Completion id (jb_fingerprint j) terminal)) Q w1) as Hcompletion.
  { intros Q HQ. apply owp_attempt. intros a w2 r w3 ? R2 W2 Eh. destruct a as [t| | | | | |]; try done.
    edestruct completion_step as (W3 & D3 & -> & Hr); [exact W2|exact Eh|exact Hfinal|done|by apply Hresult|].
    split_and!; [done..|]. intros w4 R4 W4. apply HQ; [done|]. intros record Hrec. destruct (Hr _ Hrec) as [[v Hv] Hp]. split; [done|]. exists w3, v. split; [|done]. by eapply ad_store. }
  clearbody terminal. destruct outcome as [x|cause].
  - apply (owp_catch handler world_ok rely does); [done|]. apply verified_bind; [done|]. apply Hcompletion. intros r w2 W2 Hr.
    destruct r as [record|e]; [|by apply reload_verified]. destruct (Hr _ eq_refl) as (Hp & w0 & v & Hs & Hv).
    apply owp_result. intros w3 R3 W3. destruct (successfulInvocationResult record) as [y|e] eqn:Es; [|by apply reload_verified].
    intros ? [= <-]. apply successful_completed in Es as [Hst Hy]. eapply (record_answers w0); eauto. etrans; [exact Hs|]. by eapply ad_store.
  - apply verified_bind; [done|]. apply Hcompletion. intros r w2 W2 _. by destruct r.
Qed.
Lemma executeDurable_verified c j w :
  world_ok w → job_ok j → w_jobs w !! cx_entry c = Some j → (∀ d, d ∈ w_dispatches w → dp_entry d ≠ cx_entry c) →
  verified c (executeDurable number_text sha256 domainToASCII (jb_consumer j) (jb_call j) (jb_key j) (jb_fingerprint j) (jb_authority j)) (answers j) w.
Proof.
  intros Hw Hj Hn Hfresh. unfold executeDurable. apply verified_bind; [done|]. apply owp_result. intros w1 R1 W1.
  destruct (durable (jb_key j)) as [id|e] eqn:Hid; [|done].
  apply verified_bind; [done|]. apply owp_attempt. intros a w2 r w3 ? R2 W2 Eh. destruct a as [t| | | | | |]; try done.
  destruct (admission_step _ _ _ _ _ _ _ _ W2 Eh) as (W3 & D3 & -> & Hr). split_and!; [done..|]. intros w4 R4 W4.
  destruct r as [[claimed admitted]|e]; [|done]. destruct (Hr _ _ eq_refl) as ([rev Hrev] & Hp & Hc).
  destruct (dr_status admitted) eqn:Hst.
  - apply owp_result. intros w5 R5 W5 v Hv. eapply (record_answers w3); eauto. etrans; eauto.
  - destruct claimed; [|done]. cbn. apply executeClaimed_verified; try done. split_and!; [eapply adds_claim; [exact R4|]; by apply Hc|exists j; eapply adds_job, adds_job, adds_job, adds_job; eauto|].
    assert (∀ d, d ∈ w_dispatches w3 → dp_entry d ≠ cx_entry c) as H3.
    { cbn in Eh. destruct (transacts _ _ _) as [r0 st0]. injection Eh as -> <-. cbn. destruct R1 as [_ _ _ [d1 [E1 P1]] _], R2 as [_ _ _ [d2 [E2 P2]] _].
      rewrite E2, E1. rewrite Forall_forall in P1, P2. intros d [[Hd|Hd]%elem_of_app|Hd]%elem_of_app; [by apply Hfresh|by apply P1|by apply P2]. }
    destruct R4 as [_ _ _ [ds [-> Hds]] _]. rewrite Forall_forall in Hds. intros d [Hd|Hd]%elem_of_app; [by apply H3|by apply Hds].
  - destruct (dr_diagnostic admitted); done.
Qed.
Lemma start_verified c j w :
  world_ok w → job_ok j → w_jobs w !! cx_entry c = Some j → (∀ d, d ∈ w_dispatches w → dp_entry d ≠ cx_entry c) →
  verified c (start number_text sha256 domainToASCII j) (λ _ _, True) w.
Proof.
  intros Hw Hj Hn Hfresh. unfold start, run_entry. apply verified_bind; [done|]. apply owp_effect. intros a w1 [] w2 ? R1 W1 Eh. injection Eh as <- <-.
  split_and!; [done..|]. intros w3 R3 W3. assert (rely c w w3) as R by by etrans.
  apply verified_bind; [done|]. apply owp_settled.
  assert (∀ d, d ∈ w_dispatches w3 → dp_entry d ≠ cx_entry c) as H3.
  { destruct R as [_ _ _ [ds [-> Hds]] _]. rewrite Forall_forall in Hds. intros d [Hd|Hd]%elem_of_app; [by apply Hfresh|by apply Hds]. }
  eapply verified_mono; [|apply executeDurable_verified; try done; by eapply adds_job]. intros r w4 R4 W4 Ha. cbn beta.
  assert (w_jobs w4 !! cx_entry c = Some j) as Hn4 by (eapply adds_job; [exact R4|]; by eapply adds_job).
  apply verified_bind; [done|]. apply owp_effect. intros ? w5 [] w6 ? R5 W5 Eh. injection Eh as <- <-.
  edestruct (entry_step c w5) as [W6 D6]; [done| | |split_and!; [exact W6|exact D6|done|]]; [done| |].
  { intros x k v Hk [= ->]. right. rewrite (adds_job _ _ _ _ _ R5 Hn4) in Hk. injection Hk as <-. eapply result_later; [by eapply ad_store|]. by apply Ha. }
  intros w7 R7 W7. apply owp_effect. intros ? w8 [] w9 ? R8 W8 Eh. injection Eh as <- <-.
  edestruct (entry_step c w8) as [W9 D9]; [done| | |split_and!; [exact W9|exact D9|done|done]]; [done|]. cbn. auto.
Qed.
End laws.
