(* ===== verification/RouterTheorems.v ===== *)
(** * What the capability router promises

    For any number of routers over one store, any calls, any interleaving and any
    answers: an invocation is dispatched once at most and all who get a result get that
    of its one dispatch; and a dispatch is within what the consumer was granted. *)

From S2P Require Import Prelude JsString Collections Regex JsValue Identity JsonText Permission Gate PermissionProofs Canonical Placement Execution Async Router RouterLaws.

Open Scope Z_scope.

#[local] Arguments JsMap.get : simpl never.
#[local] Arguments JsMap.set : simpl never.
#[local] Arguments JsMap.delete : simpl never.
#[local] Arguments normalizeCall : simpl never.
#[local] Arguments start : simpl never.

Section theorems.
Context (number_text : jsnum → jstring) (sha256 domainToASCII : jstring → jstring).
Context (parseDefinition : json → option CapabilityDefinition) (compileSchema : json → option SchemaValidator).
Abbreviation world_ok := (world_ok number_text sha256 domainToASCII parseDefinition compileSchema).
Abbreviation handler := (handle number_text sha256 parseDefinition compileSchema).
Abbreviation call_of := (invoke number_text sha256).
Abbreviation happening_of := (happens number_text sha256 domainToASCII parseDefinition compileSchema).

(** ** The entries of a router *)
Lemma prune_spec fuel bound es (m : jsmap jstring nat) :
  JsMap.wf m → let m' := prune fuel bound es m in
  JsMap.wf m' ∧ (length m' <= length m)%nat ∧ ∀ k v, JsMap.get m' k = Some v → JsMap.get m k = Some v.
Proof.
  revert m. induction fuel as [|fuel IH]; intros m Hm; cbn; [done|]. destruct (_ <? bound); [done|].
  destruct (List.find _ m) as [[k v]|] eqn:Ef; [|done]. apply find_some in Ef as [Hin _]. apply list_elem_of_In in Hin.
  apply JsMap.in_get in Hin; [|done]. destruct (IH (JsMap.delete m k)) as (Hw & Hl & Hg); [by apply JsMap.wf_delete|].
  split_and!; [done| |].
  - apply JsMap.length_delete in Hin. lia.
  - intros k' v' H%Hg. destruct (decide (k = k')) as [<-|Hne]; [by rewrite JsMap.get_delete_eq in H|by rewrite JsMap.get_delete_ne in H].
Qed.

(** A call gets the entry of its own identity and fingerprint, or a new one. *)
Lemma invoke_spec w m r consumer input authority returned r' es :
  world_ok w → w_routers w !! m = Some r → call_of consumer input authority r (w_entries w) = (returned, r', es) →
  match returned with
  | Ok (n, Some j) => n = length (w_jobs w) ∧ job_ok number_text sha256 j ∧ router_ok number_text sha256 parseDefinition compileSchema (w_jobs w ++ [j]) r' ∧
      es = w_entries w ++ [{| ie_fingerprint := jb_fingerprint j; ie_result := None; ie_settled := false |}] ∧
      ∃ call, normalizeCall input = Ok call ∧ jb_key j = invocationKey number_text consumer (iv_invocationId call) ∧ jb_fingerprint j = callFingerprint number_text sha256 consumer call
  | Ok (n, None) => es = w_entries w ∧ router_ok number_text sha256 parseDefinition compileSchema (w_jobs w) r' ∧
      ∃ j call, w_jobs w !! n = Some j ∧ normalizeCall input = Ok call ∧ jb_key j = invocationKey number_text consumer (iv_invocationId call) ∧
        jb_fingerprint j = callFingerprint number_text sha256 consumer call
  | Err _ => es = w_entries w ∧ router_ok number_text sha256 parseDefinition compileSchema (w_jobs w) r'
  end.
Proof.
  intros Hw Hm. pose proof (Forall_lookup_1 _ _ _ _ (wo_routers _ _ _ _ _ _ Hw) Hm) as Hr. pose proof Hr as [Hi Hj Hc Hs Hg Hsc Hb]. unfold invoke.
  destruct (normalizeCall input) as [call|e] eqn:En; [|by intros [= <- <- <-]].
  remember (invocationKey number_text consumer (iv_invocationId call)) as key eqn:Hkey.
  destruct (JsMap.get (ro_invocations r) key) as [existing|] eqn:E.
  - destruct (Hj _ _ E) as (j & Ej & Ekey). destruct (Forall2_lookup_l _ _ _ _ _ (wo_entries _ _ _ _ _ _ Hw) Ej) as (x & Ex & Hx & _). rewrite Ex.
    destruct (streq _ _) eqn:Ep; cbn; intros [= <- <- <-]; [|done]. apply streq_true in Ep.
    destruct (touch_spec _ _ _ Hi E) as (Hw' & Hl & Hget). split_and!; [done| |].
    + split; cbn; [done|intros k n; rewrite Hget; apply Hj|by rewrite Hl|done..].
    + exists j, call. split_and!; [done|done|by rewrite Ekey|by rewrite <- Hx, Ep].
  - destruct (prune_spec (length (ro_invocations r)) (ro_maxInvocations r) (w_entries w) (ro_invocations r) Hi) as (Hw' & Hl & Hget).
    fold (pruneInvocations r (w_entries w)) in Hw', Hl, Hget.
    destruct (Z.leb_spec (ro_maxInvocations r) (Z.of_nat (length (pruneInvocations r (w_entries w))))) as [Hcap|Hcap]; intros [= <- <- <-].
    + split; [done|]. split; cbn; [done| |lia|done..]. intros k n H%Hget. by apply Hj.
    + pose proof (Forall2_length _ _ _ (wo_entries _ _ _ _ _ _ Hw)) as Hlen. split_and!; [done| | |done|by exists call].
      * split_and!; [done|done|by eapply normalizeCall_wire].
      * split; cbn; [by apply JsMap.wf_set| | |done..].
        -- intros k n. destruct (decide (key = k)) as [<-|Hne].
           ++ rewrite JsMap.get_set_eq. intros [= <-]. eexists. split; [by rewrite <- Hlen, list_lookup_middle|done].
           ++ rewrite JsMap.get_set_ne by done. intros H%Hget. destruct (Hj _ _ H) as (j & ? & ?). exists j. split; [|done]. by apply lookup_app_l_Some.
        -- rewrite set_length by done. destruct (JsMap.has _ _); lia.
Qed.

(** ** Every history *)
Record pool_ok (q : pool eff exn World context) : Prop := {
  po_owned : owned handler world_ok cx_entry rely does q;
  po_threads : Forall (λ t, (cx_entry t.1 < length (w_jobs (p_world q)))%nat) (p_threads q);
}.
#[local] Instance rely_preorders : Preorders rely := λ c, adds_preorder _.

Lemma handle_jobs c a w B (e : eff B) b w' js : handler c a w B e = Some (b, w', js) → w_jobs w' = w_jobs w ∧ js = [].
Proof.
  intros H. destruct e; destruct a; cbn in H; repeat case_match; simplify_eq; cbn; try done; unfold on_entry; by case_match.
Qed.
(** A world that differs in its routers. *)
Lemma routers_ok (q : pool eff exn World context) rs :
  pool_ok q → Forall (router_ok number_text sha256 parseDefinition compileSchema (w_jobs (p_world q))) rs →
  pool_ok (Build_pool (with_routers rs (p_world q)) (p_threads q)).
Proof.
  intros [Ho Ht] Hrs. split; [|done]. apply owned_world; [apply _|done| |].
  - destruct Ho as [[Hr Hj He Hc Hd Hn Hres] _]. by split.
  - intros t _. split; cbn; [done|done|exists []; by rewrite app_nil_r|exists []; by rewrite app_nil_r|exists []; by rewrite app_nil_r].
Qed.
(** A new entry, and its thread. *)
Lemma entry_ok (q : pool eff exn World context) rs j n :
  pool_ok q → job_ok number_text sha256 j →
  Forall (router_ok number_text sha256 parseDefinition compileSchema (w_jobs (p_world q) ++ [j])) rs →
  let e := length (w_jobs (p_world q)) in
  let es := w_entries (p_world q) ++ [{| ie_fingerprint := jb_fingerprint j; ie_result := None; ie_settled := false |}] in
  pool_ok (Build_pool (with_jobs (w_jobs (p_world q) ++ [j]) (with_entries es (with_routers rs (p_world q))))
             (p_threads q ++ [({| cx_router := n; cx_entry := e |}, start number_text sha256 domainToASCII j)])).
Proof.
  intros [Ho Ht] Hj Hrs e es. set (w := with_jobs _ _). pose proof Ho as [[Hr Hjs He Hc Hd Hn Hres] _].
  assert (∀ k x, w_jobs (p_world q) !! k = Some x → w_jobs w !! k = Some x) as Hmore by (intros; by apply lookup_app_l_Some).
  assert (world_ok w) as Hw.
  { split; cbn; try done.
    - apply Forall_app. split; [done|by apply Forall_singleton].
    - apply Forall2_app; [done|]. by repeat constructor.
    - eapply Forall_impl; [exact Hd|]. intros d (? & [x Hx] & ?). split_and!; [done|exists x; by apply Hmore|done]. }
  split; [|cbn; rewrite length_app; cbn; apply Forall_app; split; [eapply Forall_impl; [exact Ht|]; cbn; lia|apply Forall_singleton; cbn; unfold e; lia]].
  apply (owned_thread handler world_ok cx_entry rely does (Build_pool w (p_threads q))).
  - apply owned_world; [apply _|done|done|]. intros t _. split; cbn; [done|done|by exists [j]|exists []; by rewrite app_nil_r|exists []; by rewrite app_nil_r].
  - cbn. intros (t & E & Hin)%list_elem_of_fmap. rewrite Forall_forall in Ht. specialize (Ht t Hin). cbn in Ht. unfold e in E. lia.
  - cbn. apply start_verified; [done|done|by apply list_lookup_middle|]. cbn. intros d Hin E. rewrite Forall_forall in Hd.
    destruct (Hd d Hin) as (_ & [x Hx%lookup_lt_Some] & _). rewrite E in Hx. unfold e in Hx. lia.
Qed.

Lemma routing_happens q h : pool_ok q → pool_ok (happening_of q h).
Proof.
  intros Hq. pose proof Hq as [Ho Ht]. pose proof (proj1 Ho) as Hw. pose proof (wo_routers _ _ _ _ _ _ Hw) as Hrs. destruct h as [i s|n consumer input authority|n|thread a]; cbn.
  - destruct (createRouter i s) as [r|e] eqn:Er; [|done]. apply routers_ok; [done|]. apply Forall_app. split; [done|]. apply Forall_singleton.
    unfold createRouter in Er. apply bind_ok in Er as (x & Hx & Er). apply bind_ok in Er as (y & Hy & [= <-]).
    assert (∀ v d z, positiveBound v d = Ok z → 1 <= z <= 4096) as Hb.
    { intros v d z. unfold positiveBound. destruct (default _ _) as [m|]; [|done]. destruct (_ || _) eqn:E; [done|]. intros [= <-].
      apply orb_false_iff in E as [E1%Z.ltb_ge E2%Z.ltb_ge]. lia. }
    apply Hb in Hx, Hy. split; cbn; [constructor|done|lia|constructor|done|lia|done].
  - destruct (w_routers (p_world q) !! n) as [r|] eqn:Er; [|done].
    destruct (call_of consumer input authority r (w_entries (p_world q))) as [[returned r'] es] eqn:Ei.
    pose proof (invoke_spec _ _ _ _ _ _ _ _ _ Hw Er Ei) as Hs. destruct returned as [[e [j|]]|x].
    + destruct Hs as (-> & Hj & Hr' & -> & _). apply entry_ok; [done|done|]. apply Forall_insert; [|done].
      eapply Forall_impl; [exact Hrs|]. intros r0. apply router_ok_later.
    + destruct Hs as (-> & Hr' & _). apply (routers_ok q (<[n := r']> (w_routers (p_world q)))); [done|by apply Forall_insert].
    + destruct Hs as (-> & Hr'). apply (routers_ok q (<[n := r']> (w_routers (p_world q)))); [done|by apply Forall_insert].
  - destruct (w_routers (p_world q) !! n) as [r|] eqn:Er; [|done]. apply routers_ok; [done|]. apply Forall_insert; [done|].
    pose proof (Forall_lookup_1 _ _ _ _ Hrs Er) as [? ? ? ? ? ? ?]. split; cbn; [constructor|done|lia|constructor|done|lia|done].
  - split; [apply owned_run_at; [apply _|by intros ? ? ? ?; apply does_rely|done]|].
    unfold run_at. destruct (p_threads q !! thread) as [[c p]|] eqn:Ei; [|done]. unfold run_thread. cbn.
    destruct p as [b|x|B e k]; [done|done|]. destruct (handler c a (p_world q) B e) as [[[b w'] js]|] eqn:Eh; [|done]. cbn.
    destruct (handle_jobs _ _ _ _ _ _ _ _ Eh) as [-> ->]. cbn. rewrite app_nil_r. apply Forall_insert; [done|]. by apply (Forall_lookup_1 _ _ _ _ Ht Ei).
Qed.

Abbreviation history_of := (history number_text sha256 domainToASCII parseDefinition compileSchema).
Lemma routing_history hs : pool_ok (history_of hs).
Proof.
  unfold history. assert (pool_ok (Build_pool no_routers [])) as H0.
  { split; [|constructor]. split_and!; [|constructor|constructor].
    split; cbn; [constructor|constructor|constructor|intros k; rewrite !lookup_empty; by split; intros [? ?]|constructor|constructor|done]. }
  revert H0. generalize (Build_pool no_routers [] : pool eff exn World context). induction hs as [|h hs IH]; intros q Hq; [done|]. cbn. by apply IH, routing_happens.
Qed.
Lemma history_world hs : world_ok (p_world (history_of hs)).
Proof. apply (proj1 (po_owned _ (routing_history hs))). Qed.

(** ** What a grant lets through *)
Lemma capability_call method name call :
  normalize_stable domainToASCII (JObj [(js "kind", JStr (js "capability")); (js "method", JStr method); (js "name", JStr name)]) = Some call →
  call = CallCapability name method.
Proof.
  intros H. lazy -[re_test PORTABLE_NAME] in H.
  destruct (re_test PORTABLE_NAME name); [|done]. destruct (re_test PORTABLE_NAME method); [|done]. by injection H as <-.
Qed.
Definition granted (grants : list json) (name method : jstring) : Prop :=
  ∃ stable set capabilities entry, serialize (JArr grants) = Some stable ∧ canonicalize domainToASCII stable = Ok set ∧
    CapabilityPermission capabilities ∈ set ∧ entry ∈ capabilities ∧ cp_name entry = name ∧ method ∈ cp_methods entry.
Lemma gateCall_granted route call :
  gd_allowed (gateCall domainToASCII route call) = true → granted (cr_permissionGrants route) (id_name (iv_identity call)) (iv_method call).
Proof.
  unfold gateCall, granted. destruct (serialize _) as [stable|] eqn:Es; [|done]. unfold gatePermission_json.
  destruct (canonicalize domainToASCII stable) as [set|] eqn:Ec; [|done].
  destruct (normalize_stable _ _) as [c|] eqn:En; [|done]. apply capability_call in En as ->.
  rewrite gate_call_allowed. intros (p & Hp & Hcov). apply find_some_in in Hp as [Hin _]. destruct p as [capabilities| | | | | |]; try done. cbn in Hcov.
  apply existsb_exists_in in Hcov as (entry & He & [Hn%streq_true Hm]%andb_true_iff). exists stable, set, capabilities, entry. split_and!; try done.
  by apply includes_true.
Qed.
End theorems.

(** C16. However many routers share the store, whatever they are called with, however
    their calls interleave and whatever fails: an invocation is dispatched to a provider
    at most once; who is given a result is given what that one dispatch, made for a call
    of the same fingerprint, was answered; so all who are given a result of one
    invocation are given the same; and a call gets the promise of its own identity and
    fingerprint. *)
Theorem invocation_once number_text sha256 domainToASCII parseDefinition compileSchema hs :
  let w := p_world (history number_text sha256 domainToASCII parseDefinition compileSchema hs) in
  let identity d := dispatch_id number_text sha256 d in
  let given n j v := w_jobs w !! n = Some j ∧ ∃ e, w_entries w !! n = Some e ∧ ie_result e = Some (Ok v) in
  (∀ i k d d', w_dispatches w !! i = Some d → w_dispatches w !! k = Some d' → identity d = identity d' → i = k) ∧
  (∀ n j v, given n j v → ∃ id d y, durableInvocationKey number_text sha256 (jb_key j) = Ok id ∧
     d ∈ w_dispatches w ∧ identity d = Ok id ∧ jb_fingerprint j = callFingerprint number_text sha256 (dp_consumer d) (dp_call d) ∧
     (dp_entry d, y) ∈ w_responses w ∧ serialize y = Some v) ∧
  (∀ n j v n' j' v', given n j v → given n' j' v' → jb_key j = jb_key j' → v = v') ∧
  (∀ m r consumer input authority n r' es, w_routers w !! m = Some r →
     invoke number_text sha256 consumer input authority r (w_entries w) = (Ok (n, None), r', es) →
     ∃ j call, w_jobs w !! n = Some j ∧ normalizeCall input = Ok call ∧ jb_key j = invocationKey number_text consumer (iv_invocationId call) ∧
       jb_fingerprint j = callFingerprint number_text sha256 consumer call).
Proof.
  intros w identity given. pose proof (history_world number_text sha256 domainToASCII parseDefinition compileSchema hs) as Hw. fold w in Hw.
  assert (∀ n j v, given n j v → answered number_text sha256 (w_store w) j v) as Hgiven.
  { intros n j v (Hj & e & He & Hv). by destruct (Forall2_lookup_lr _ _ _ _ _ _ (wo_entries _ _ _ _ _ _ Hw) Hj He) as [_ ?]; auto. }
  split_and!.
  - intros i k d d' Hi Hk E. pose proof (wo_dispatches _ _ _ _ _ _ Hw) as Hd. rewrite Forall_lookup in Hd.
    destruct (Hd _ _ Hi) as (_ & _ & id & Hid & Hc), (Hd _ _ Hk) as (_ & _ & id' & Hid' & Hc').
    eapply NoDup_lookup; [exact (wo_once _ _ _ _ _ _ Hw)| |]; rewrite list_lookup_fmap; [by rewrite Hi|rewrite Hk; cbn; f_equal].
    unfold identity in E. rewrite Hid, Hid' in E. injection E as ->. congruence.
  - intros n j v (id & r & rev & Hid & Hr & Hp & Hst & Hv)%Hgiven. destruct (wo_results _ _ _ _ _ _ Hw _ _ _ Hr Hst) as (c & x & _ & Hx & d & g & y & Hev).
    destruct Hev as (Hd & Hn & Hi & Hpr & _ & Hy & Hser & _). exists id, d, y. split_and!; try done; congruence.
  - intros n j v n' j' v' (id & r & rev & Hid & Hr & _ & _ & Hv)%Hgiven (id' & r' & rev' & Hid' & Hr' & _ & _ & Hv')%Hgiven E.
    rewrite E, Hid' in Hid. injection Hid as ->. congruence.
  - intros m r consumer input authority n r' es Hm Hi. apply (invoke_spec _ _ _ _ _ _ _ _ _ _ _ _ _ _ Hw Hm Hi).
Qed.

(** C17. A provider is called only on a route of the very consumer, for the identity that
    is bound and provided there, with a method that is declared and granted to the
    consumer, and with an input that the request schema of the provision accepts,
    although the routers keep compiled schemas under their hashes: unless two contents
    have one hash. *)
Theorem dispatch_authorized number_text sha256 domainToASCII parseDefinition compileSchema hs :
  let w := p_world (history number_text sha256 domainToASCII parseDefinition compileSchema hs) in
  Forall (λ d, let route := dp_route d in let call := dp_call d in
    cr_consumer route = dp_consumer d ∧
    bd_capability (cr_binding route) = iv_identity call ∧ pv_identity (cr_provision route) = iv_identity call ∧
    vr_applicationId (cr_provider route) = bd_applicationId (cr_binding route) ∧ vr_pluginId (cr_provider route) = bd_pluginId (cr_binding route) ∧
    vr_componentId (cr_provider route) = pv_componentId (cr_provision route) ∧
    iv_method call ∈ pv_methods (cr_provision route) ∧
    granted domainToASCII (cr_permissionGrants route) (id_name (iv_identity call)) (iv_method call) ∧
    (number_text_ok number_text → is_Some (serialize (definition_json (cr_provision route))) →
       collision sha256 ∨
       ∃ definition validator, (serialize (definition_json (cr_provision route)) ≫= parseDefinition) = Some definition ∧
         compileSchema (requestSchema definition) = Some validator ∧ sv_parse validator (iv_input call) = None))
    (w_dispatches w).
Proof.
  intros w. eapply Forall_impl; [exact (wo_dispatches _ _ _ _ _ _ (history_world number_text sha256 domainToASCII parseDefinition compileSchema hs))|].
  intros d ([Hc (g & Hg & Hv)] & _). unfold checks in Hc.
  apply bind_ok in Hc as (? & H1%throw_if_ok%negb_false_iff%sameConsumer_eq & Hc). apply bind_ok in Hc as (? & H2%throw_if_ok%negb_false_iff & Hc).
  apply bind_ok in Hc as (? & H3%throw_if_ok%negb_false_iff & H4%throw_if_ok%negb_false_iff).
  unfold binding_matches in H2. rewrite !andb_true_iff in H2.
  destruct H2 as ((((?%bool_decide_eq_true & ?%bool_decide_eq_true) & ?%streq_true) & ?%streq_true) & ?%streq_true).
  split_and!; try done; [by apply includes_true|by apply gateCall_granted|]. intros Htext Hdata.
  destruct (Hg Htext Hdata) as [[registry Hr]|Hcol]; [right|by left]. revert Hr. unfold register.
  destruct (serialize _ ≫= parseDefinition) as [def|]; [|done]. change (JsMap.get (gates new_registry) _) with (@None CapabilitySchemaGate). cbn iota.
  assert (∀ schema, prepare (stringify number_text) compileSchema (schemas new_registry) schema [] =
    match compileSchema schema with None => Err CAPABILITY_SCHEMA_INVALID | Some v =>
      Ok (v, JsMap.set [] (schema_key (stringify number_text) schema) {| Gate.canonical := stringify number_text schema; Gate.validator := v |}) end) as -> by done.
  destruct (compileSchema (requestSchema def)) as [validator|] eqn:Ev; [|done]. cbn [mbind result_bind].
  destruct (prepare _ _ _ _ _) as [[response pending]|code]; cbn; [|done]. intros [= <- <-]. by exists def, validator.
Qed.

(** ** Two routers, one invocation *)
Definition sample_consumer : ComponentInstanceIdentity := {|
  ci_applicationId := js "shop"; ci_pluginId := js "orders"; ci_componentId := js "api"; ci_activation := js "1";
  ci_target := sample_target; ci_bindingFingerprint := js "f" |}.
Definition sample_identity : Router.CapabilityIdentity := {| id_name := js "mail"; id_protocolVersion := js "1.0" |}.
Definition sample_route : CapabilityRoute := {|
  cr_consumer := sample_consumer; cr_consumerBindingFingerprint := js "f";
  cr_permissionGrants := [JObj [(js "kind", JStr (js "capability"));
    (js "capabilities", JArr [JObj [(js "name", JStr (js "mail")); (js "methods", JArr [JStr (js "send")])]])]];
  cr_binding := {| bd_capability := sample_identity; bd_applicationId := js "shop"; bd_pluginId := js "mailer" |};
  cr_provision := {| pv_identity := sample_identity; pv_componentId := js "smtp"; pv_methods := [js "send"]; pv_requestSchema := JObj []; pv_responseSchema := JObj [] |};
  cr_provider := {| vr_applicationId := js "shop"; vr_pluginId := js "mailer"; vr_componentId := js "smtp"; vr_target := sample_target;
    vr_activation := js "1"; vr_bindingFingerprint := js "g" |};
  cr_routeRevision := js "1" |}.
Definition sample_input (method : jstring) : json := JObj
  [(js "invocationId", JStr (js "call-1")); (js "identity", Router.identity_json sample_identity); (js "method", JStr method); (js "input", JNull)].
Definition sample_history : list happening :=
  let invoked n := Invokes n sample_consumer (sample_input (js "send")) false in
  [Opens None None; Opens None None; invoked 0%nat; invoked 1%nat;
   Runs 0 ANothing; Runs 0 (ATransaction Commits); Runs 1 ANothing; Runs 1 (ATransaction Commits); Runs 1 ANothing; Runs 1 ANothing;
   Runs 0 (ARoute (Ok sample_route)); Runs 0 ANothing; Runs 0 (AValid (Ok true)); Runs 0 (AActive (Ok tt)); Runs 0 (AResponse (Ok (JStr (js "sent"))));
   Runs 0 (ATransaction (FailsAfter PlainError)); Runs 0 (ARead None); Runs 0 ANothing; Runs 0 ANothing;
   Clears 1%nat; invoked 1%nat; Runs 2 ANothing; Runs 2 (ATransaction Commits); Runs 2 ANothing; Runs 2 ANothing].
Definition sample_world : World := p_world (history plain_number (λ t, show_nat (Z.of_nat (length t))) id
  (λ j, Some {| def_json := j; def_name := []; def_protocolVersion := []; requestSchema := JNull; responseSchema := JNull |})
  (λ _, Some {| sv_parse := λ _, None |}) sample_history).
(** The store fails after it has committed the result: the caller has it all the same,
    and so has the one who asks the other router later; meanwhile that one could not
    tell. The provider was called once. *)
Example routers_share_one_invocation :
  map dp_entry (w_dispatches sample_world) = [0%nat] ∧
  map ie_result (w_entries sample_world) = [Some (Ok (JStr (js "sent"))); Some (Err CAPABILITY_INVOCATION_INDETERMINATE); Some (Ok (JStr (js "sent")))].
Proof. by vm_compute. Qed.
