(* ===== verification/Evidence.v ===== *)
(** * What the reconciler knows of providers

    The part of runtime/src/reconcile/reconciler.ts that reads the deployments,
    installations, instances, capability bindings and provider losses of the store:
    the records, the transactions that read and stage them, and the questions that are
    asked of what was loaded (is a provider ready, are the bindings of a loss exactly
    what its recovery needs).

    A transaction works on a snapshot and stages its mutations; the store commits them
    later if every record it mutates still has the revision it expects. What a
    transaction only read may have changed by then. Records are typed: the parsers of
    the loaders accept what is stored. *)

From S2P Require Import Prelude JsString Collections JsValue Identity Version Graph Resolver Permission PermissionProofs Lifecycle Placement Plan Reconciler Async.

Open Scope Z_scope.

(** ** Records *)
Record PluginManifest := {
  mf_components : list PluginComponent;
  mf_provides : list CapabilityResolutionProvision;
  mf_requires : list PluginCapabilityRequirement;
  mf_permissions : json;
}.
Record PluginInstallation := {
  in_pluginId : jstring;
  in_version : jstring;
  in_digest : jstring;
  in_manifest : PluginManifest;
}.
(** A deployment with the fields the plan does not read. *)
Record DesiredDeployment := {
  dd_deployment : PluginDeployment;
  dd_version : jstring;
  dd_capabilityBindings : jsmap jstring PluginDeploymentIdentity;
  dd_permissionGrants : json;
}.
Inductive binding_source := Automatic | Explicit.
#[export] Instance binding_source_eq_dec : EqDecision binding_source.
Proof. solve_decision. Defined.
Record PersistedCapabilityBinding := {
  cb_consumer : PluginDeploymentIdentity;
  cb_capability : jstring;
  cb_provider : PluginDeploymentIdentity;
  cb_source : binding_source;
  cb_deploymentGeneration : jstring;
  cb_updatedAt : jstring;
}.
Record ProviderRecoveryBindingPrerequisite := { bp_capability : jstring; bp_provider : PluginDeploymentIdentity }.
#[export] Instance prerequisite_eq_dec : EqDecision ProviderRecoveryBindingPrerequisite.
Proof. solve_decision. Defined.
(** A provider loss with all its fields. *)
Record ProviderLoss := {
  pl_consumer : PluginDeploymentIdentity;
  pl_deploymentGeneration : jstring;
  pl_action : ProviderLossAction;
  pl_capabilities : list jstring;
  pl_providers : list PluginDeploymentIdentity;
  pl_bindingPrerequisites : option (list ProviderRecoveryBindingPrerequisite);
  pl_recoveryActivations : option (jsmap jstring Activation);
  pl_updatedAt : jstring;
}.
Record PluginDeploymentObservation := {
  ob_deployment : PluginDeploymentIdentity;
  ob_generation : jstring;
  ob_blocked : bool;
  ob_diagnostics : list jstring;
  ob_updatedAt : jstring;
}.

(** ** The store *)

(** The key of a record: its collection and its identifier. *)
Inductive record_key :=
| DeploymentKey (id : jstring)
| InstallationKey (id : jstring)
| InstanceKey (id : jstring)
| BindingKey (id : jstring)
| LossKey (id : jstring)
| ObservationKey (id : jstring).
#[export] Instance record_key_eq_dec : EqDecision record_key.
Proof. solve_decision. Defined.
#[export] Instance record_key_countable : Countable record_key.
Proof.
  by apply (inj_countable'
    (λ k, match k with
          | DeploymentKey i => (0%nat, i) | InstallationKey i => (1%nat, i) | InstanceKey i => (2%nat, i)
          | BindingKey i => (3%nat, i) | LossKey i => (4%nat, i) | ObservationKey i => (5%nat, i) end)
    (λ x, match x.1 with
          | 0%nat => DeploymentKey x.2 | 1%nat => InstallationKey x.2 | 2%nat => InstanceKey x.2
          | 3%nat => BindingKey x.2 | 4%nat => LossKey x.2 | _ => ObservationKey x.2 end)); intros [].
Defined.

Inductive record :=
| DeploymentRecord (d : DesiredDeployment)
| InstallationRecord (i : PluginInstallation)
| InstanceRecord (i : PersistedComponentInstance)
| BindingRecord (b : PersistedCapabilityBinding)
| LossRecord (l : ProviderLoss)
| ObservationRecord (o : PluginDeploymentObservation).
Abbreviation records := (gmap record_key (record * Z)).

Definition pick_deployment (r : record) : option DesiredDeployment := match r with DeploymentRecord d => Some d | _ => None end.
Definition pick_installation (r : record) : option PluginInstallation := match r with InstallationRecord i => Some i | _ => None end.
Definition pick_instance (r : record) : option PersistedComponentInstance := match r with InstanceRecord i => Some i | _ => None end.
Definition pick_binding (r : record) : option PersistedCapabilityBinding := match r with BindingRecord b => Some b | _ => None end.
Definition pick_loss (r : record) : option ProviderLoss := match r with LossRecord l => Some l | _ => None end.
Definition pick_observation (r : record) : option PluginDeploymentObservation := match r with ObservationRecord o => Some o | _ => None end.

(** [get] of a typed key. *)
Definition fetch {A} (pick : record → option A) (s : records) (key : record_key) : option (A * Z) :=
  '(r, revision) ← s !! key; a ← pick r; Some (a, revision).

(** [scan] of a collection, in the order of the identifiers. *)
Definition scan {A} (collection : record_key → option jstring) (pick : record → option A) (s : records)
  : list (jstring * A * Z) :=
  js_sort (λ x y, compareText x.1.1 y.1.1)
    (omap (λ e, id ← collection e.1; a ← pick e.2.1; Some (id, a, e.2.2)) (map_to_list s)).
Definition deployments_in (k : record_key) : option jstring := match k with DeploymentKey i => Some i | _ => None end.
Definition installations_in (k : record_key) : option jstring := match k with InstallationKey i => Some i | _ => None end.
Definition instances_in (k : record_key) : option jstring := match k with InstanceKey i => Some i | _ => None end.
Definition bindings_in (k : record_key) : option jstring := match k with BindingKey i => Some i | _ => None end.
Definition losses_in (k : record_key) : option jstring := match k with LossKey i => Some i | _ => None end.

Definition deploymentStateKey (i : PluginDeploymentIdentity) : record_key := DeploymentKey (identityKey i).
Definition capabilityBindingKey (consumer : PluginDeploymentIdentity) (capability : jstring) : record_key :=
  BindingKey (requirementKey consumer capability).
Definition providerLossKey (consumer : PluginDeploymentIdentity) : record_key := LossKey (identityKey consumer).
Definition identity_of (d : PluginDeployment) : PluginDeploymentIdentity :=
  {| applicationId := d_applicationId d; pluginId := d_pluginId d |}.
Definition observationKey (d : PluginDeployment) : record_key := ObservationKey (identityKey (identity_of d)).

(** ** Transactions *)

(** What a transaction read and what it stages. [None] as a value is a delete, [None]
    as the expected revision is "absent". *)
Record Staged := {
  sg_snapshot : records;
  sg_mutations : gmap record_key (option record * option Z);
  sg_operations : list (jstring * journal_status);
  sg_messages : list (jstring * ReconcileEffect);
}.
Definition new_transaction (snapshot : records) : Staged :=
  {| sg_snapshot := snapshot; sg_mutations := ∅; sg_operations := []; sg_messages := [] |}.

(** A transaction sees its snapshot under its own mutations; what it staged still has
    the revision of the snapshot. *)
Definition seen (o : option (record * Z)) (m : option (option record * option Z)) : option (record * Z) :=
  match m with
  | None => o
  | Some (None, _) => None
  | Some (Some value, _) => Some (value, match o with Some (_, r) => r | None => 0 end)
  end.
Definition view (t : Staged) : records := merge seen (sg_snapshot t) (sg_mutations t).

(** The work of a transaction. *)
Definition tx (A : Type) : Type := Staged → result exn (A * Staged).
#[export] Instance tx_ret : MRet tx := λ A a t, Ok (a, t).
#[export] Instance tx_bind : MBind tx := λ A B f p t, '(a, t') ← p t; f a t'.
Definition tx_result {A} (r : result exn A) : tx A := λ t, a ← r; Ok (a, t).

Definition get {A} (pick : record → option A) (key : record_key) : tx (option (A * Z)) :=
  λ t, Ok (fetch pick (view t) key, t).
Definition stage (key : record_key) (value : option record) (expected : option Z) : tx unit :=
  λ t, Ok (tt, {| sg_snapshot := sg_snapshot t; sg_mutations := <[key := (value, expected)]> (sg_mutations t);
                  sg_operations := sg_operations t; sg_messages := sg_messages t |}).
Definition put (key : record_key) (value : record) (expected : option Z) : tx unit := stage key (Some value) expected.
Definition remove (key : record_key) (expected : option Z) : tx unit := stage key None expected.
Definition appendOperation (operationId : jstring) (status : journal_status) : tx unit :=
  λ t, Ok (tt, {| sg_snapshot := sg_snapshot t; sg_mutations := sg_mutations t;
                  sg_operations := sg_operations t ++ [(operationId, status)]; sg_messages := sg_messages t |}).
Definition enqueueOutbox (messageId : jstring) (payload : ReconcileEffect) : tx unit :=
  λ t, Ok (tt, {| sg_snapshot := sg_snapshot t; sg_mutations := sg_mutations t;
                  sg_operations := sg_operations t; sg_messages := sg_messages t ++ [(messageId, payload)] |}).

(** [for (const x of xs) { if (!(await f(x))) return false; } return true;] *)
Fixpoint tx_every {A} (f : A → tx bool) (xs : list A) : tx bool :=
  match xs with
  | [] => mret true
  | x :: xs' => b ← f x; if (b : bool) then tx_every f xs' else mret false
  end.
Fixpoint tx_each {A} (f : A → tx unit) (xs : list A) : tx unit :=
  match xs with
  | [] => mret tt
  | x :: xs' => _ ← f x; tx_each f xs'
  end.

Record EvidenceStore := {
  es_records : records;
  es_operations : list (jstring * journal_status);
  es_messages : list (jstring * ReconcileEffect);
  es_revision : Z;
}.
Definition empty_evidence : EvidenceStore := {| es_records := ∅; es_operations := []; es_messages := []; es_revision := 0 |}.

Definition STATE_REVISION_CONFLICT : exn := DiagnosticError "STATE_REVISION_CONFLICT".

(** Every mutated record has the revision it expects. *)
Definition unchanged (s : records) (mutations : gmap record_key (option record * option Z)) : Prop :=
  map_Forall (λ k m, snd <$> s !! k = m.2) mutations.
Definition written (revision : Z) (o : option (record * Z)) (m : option (option record * option Z)) : option (record * Z) :=
  match m with
  | None => o
  | Some (value, _) => (λ v, (v, revision)) <$> value
  end.
(** A commit that writes nothing leaves the revision as it is; deleting what is absent
    writes nothing. *)
Definition mutates (st : EvidenceStore) (t : Staged) : bool :=
  existsb (λ m, match m.2.1 with
                | Some _ => true
                | None => match es_records st !! m.1 with Some _ => true | None => false end
                end) (map_to_list (sg_mutations t)) ||
  (0 <? length (sg_operations t))%nat || (0 <? length (sg_messages t))%nat.
Definition commit (st : EvidenceStore) (t : Staged) : result exn EvidenceStore :=
  if bool_decide (unchanged (es_records st) (sg_mutations t))
  then Ok {| es_records := merge (written (es_revision st + 1)) (es_records st) (sg_mutations t);
             es_operations := es_operations st ++ sg_operations t;
             es_messages := es_messages st ++ sg_messages t;
             es_revision := if mutates st t then es_revision st + 1 else es_revision st |}
  else Err STATE_REVISION_CONFLICT.

(** ** Loading *)
Record LoadedCapabilityBinding := { lb_key : record_key; lb_value : PersistedCapabilityBinding; lb_revision : Z }.
Record LoadedProviderLoss := { ll_key : record_key; ll_value : ProviderLoss; ll_revision : Z }.

Definition loadDeployments (s : records) : list DesiredDeployment :=
  map (λ e, e.1.2) (scan deployments_in pick_deployment s).
Definition loadInstallations (s : records) : list PluginInstallation :=
  map (λ e, e.1.2) (scan installations_in pick_installation s).
Definition loadInstances (s : records) : result exn (list LoadedComponentInstance) :=
  mapM (λ e, load_instance e.1.1 e.1.2 e.2) (scan instances_in pick_instance s).
Definition loadCapabilityBindings (s : records) : list LoadedCapabilityBinding :=
  map (λ e, {| lb_key := BindingKey e.1.1; lb_value := e.1.2; lb_revision := e.2 |}) (scan bindings_in pick_binding s).
Definition loadProviderLosses (s : records) : list LoadedProviderLoss :=
  map (λ e, {| ll_key := LossKey e.1.1; ll_value := e.1.2; ll_revision := e.2 |}) (scan losses_in pick_loss s).

Record RecoveryEvidence := {
  re_deployments : list DesiredDeployment;
  re_installations : list PluginInstallation;
  re_instances : list ComponentInstance;
  re_bindings : list LoadedCapabilityBinding;
}.
Definition loadRecoveryEvidence : tx RecoveryEvidence := λ t,
  instances ← loadInstances (view t);
  Ok ({| re_deployments := loadDeployments (view t); re_installations := loadInstallations (view t);
         re_instances := map li_value instances; re_bindings := loadCapabilityBindings (view t) |}, t).

(** ** Questions *)
Definition is_deployment (i : PluginDeploymentIdentity) (d : DesiredDeployment) : bool :=
  same_deployment (applicationId i) (pluginId i) (dd_deployment d).
Definition same_identity (a b : PluginDeploymentIdentity) : bool :=
  streq (applicationId a) (applicationId b) && streq (pluginId a) (pluginId b).
Definition find_deployment (i : PluginDeploymentIdentity) (ds : list DesiredDeployment) : option DesiredDeployment :=
  List.find (is_deployment i) ds.
(** The installation a deployment refers to. *)
Definition installation_of (d : DesiredDeployment) (installations : list PluginInstallation) : option PluginInstallation :=
  List.find (λ i, streq (in_pluginId i) (d_pluginId (dd_deployment d)) && streq (in_version i) (dd_version d) &&
                  streq (in_digest i) (d_artifactDigest (dd_deployment d))) installations.

Definition isCurrentCapabilityBinding (record : LoadedCapabilityBinding) (ds : list DesiredDeployment) : bool :=
  existsb (λ d, is_deployment (cb_consumer (lb_value record)) d &&
                streq (d_generation (dd_deployment d)) (cb_deploymentGeneration (lb_value record))) ds.

(** The bindings of a consumer's capability in a generation. *)
Definition bindings_of (consumer : PluginDeploymentIdentity) (capability generation : jstring)
    (bindings : list LoadedCapabilityBinding) : list LoadedCapabilityBinding :=
  List.filter (λ b, same_identity (cb_consumer (lb_value b)) consumer && streq (cb_capability (lb_value b)) capability &&
                    streq (cb_deploymentGeneration (lb_value b)) generation) bindings.

Definition by_identity (a b : PluginDeploymentIdentity) : Z := compareText (identityKey a) (identityKey b).
(** [[...new Map(identities.map((i) => [deploymentKey(i), i])).values()]] *)
Definition unique_identities (l : list PluginDeploymentIdentity) : list PluginDeploymentIdentity :=
  JsMap.values (foldl (λ m i, JsMap.set m (identityKey i) i) ([] : jsmap jstring PluginDeploymentIdentity) l).

(** The requirements a consumer needs: those not optional, and the optional ones lost. *)
Definition needed (capabilities : list jstring) (requirements : list PluginCapabilityRequirement)
  : list PluginCapabilityRequirement :=
  List.filter (λ r, negb (bool_decide (rq_optional r = Some true)) || includes capabilities (rq_name r)) requirements.

Record ProviderComponentEvidence := { pe_key : jstring; pe_instance : option ComponentInstance }.
Record ProviderReadinessSnapshot := { ps_evidence : list ProviderComponentEvidence; ps_ready : bool }.

Section evidence.
Context (sha256 : jstring → jstring) (isLive : ComponentInstance → bool).

(** The instance of a component that speaks for a provider, if it has one. *)
Definition provider_instance (d : PluginDeployment) (componentId : jstring) (instances : list ComponentInstance)
  : option ComponentInstance :=
  latest_of componentId
    (List.filter (λ c, let i := ci_value c in
       streq (i_applicationId i) (d_applicationId d) && streq (i_pluginId i) (d_pluginId d) &&
       streq (i_deploymentGeneration i) (d_generation d) && streq (i_observedGeneration i) (d_generation d) &&
       bool_decide (i_artifactDigest i = Some (d_artifactDigest d))) instances).

Definition component_evidence (d : PluginDeployment) (instances : list ComponentInstance) (c : PluginComponent)
  : result exn ProviderComponentEvidence :=
  match provider_instance d (pc_componentId c) instances with
  | Some i => Ok {| pe_key := i_instanceId (ci_value i); pe_instance := Some i |}
  | None =>
      x ← reconcileEffectIdentities sha256 (generation_of d) (pc_componentId c) EffectPrepare (js "1");
      Ok {| pe_key := ei_instanceId x; pe_instance := None |}
  end.

Definition evidence_ready (d : PluginDeployment) (e : ProviderComponentEvidence) : bool :=
  match pe_instance e with
  | None => false
  | Some i =>
      streq (i_applicationId (ci_value i)) (d_applicationId d) && streq (i_pluginId (ci_value i)) (d_pluginId d) &&
      streq (i_deploymentGeneration (ci_value i)) (d_generation d) && isReadyAndLive isLive i
  end.

Definition providerReadiness (provider : PluginDeploymentIdentity) (ds : list DesiredDeployment)
    (installations : list PluginInstallation) (instances : list ComponentInstance)
  : result exn ProviderReadinessSnapshot :=
  match find_deployment provider ds with
  | None => Ok {| ps_evidence := []; ps_ready := false |}
  | Some deployment =>
      match installation_of deployment installations with
      | None => Ok {| ps_evidence := []; ps_ready := false |}
      | Some installation =>
          let d := dd_deployment deployment in
          evidence ← mapM (component_evidence d instances) (mf_components (in_manifest installation));
          Ok {| ps_evidence := evidence;
                ps_ready := bool_decide (d_state d = Active) && forallb (evidence_ready d) evidence |}
      end
  end.

(** The provider every needed requirement is bound to; [None] when one has not
    exactly one binding, or its provider is not deployed. *)
Definition bindingPrerequisites (consumer : PluginDeployment) (requirements : option (list PluginCapabilityRequirement))
    (ds : list DesiredDeployment) (bindings : list LoadedCapabilityBinding) (lossCapabilities : list jstring)
  : option (list ProviderRecoveryBindingPrerequisite) :=
  rs ← requirements;
  mapM (λ r,
    match bindings_of (identity_of consumer) (rq_name r) (d_generation consumer) bindings with
    | [b] =>
        _ ← find_deployment (cb_provider (lb_value b)) ds;
        Some {| bp_capability := rq_name r; bp_provider := cb_provider (lb_value b) |}
    | _ => None
    end)
    (js_sort (λ a b, compareText (rq_name a) (rq_name b)) (needed lossCapabilities rs)).

(** One requirement is bound to its prerequisite, whose artifact provides it. *)
Definition requirement_exact (l : ProviderLoss) (ds : list DesiredDeployment) (installations : list PluginInstallation)
    (bindings : list LoadedCapabilityBinding) (prerequisites : list ProviderRecoveryBindingPrerequisite)
    (r : PluginCapabilityRequirement) : bool :=
  match List.find (λ p, streq (bp_capability p) (rq_name r)) prerequisites with
  | None => false
  | Some p =>
      match bindings_of (pl_consumer l) (rq_name r) (pl_deploymentGeneration l) bindings with
      | [b] =>
          same_identity (cb_provider (lb_value b)) (bp_provider p) &&
          match find_deployment (bp_provider p) ds with
          | None => false
          | Some provider =>
              match installation_of provider installations with
              | None => false
              | Some i =>
                  existsb (λ v, streq (pr_name v) (rq_name r) &&
                                satisfiesVersionRange (protocolVersion v) (rq_protocolRange r))
                    (mf_provides (in_manifest i))
              end
          end
      | _ => false
      end
  end.

Definition recoveryBindingsAreExact (l : ProviderLoss) (ds : list DesiredDeployment)
    (installations : list PluginInstallation) (bindings : list LoadedCapabilityBinding) : bool :=
  match List.find (λ d, is_deployment (pl_consumer l) d &&
                        streq (d_generation (dd_deployment d)) (pl_deploymentGeneration l)) ds with
  | None => false
  | Some consumer =>
      match installation_of consumer installations with
      | None => false
      | Some installation =>
          let requirements := needed (pl_capabilities l) (mf_requires (in_manifest installation)) in
          match pl_bindingPrerequisites l with
          | None =>
              bool_decide (requirements = []) && bool_decide (pl_capabilities l = []) && bool_decide (pl_providers l = [])
          | Some prerequisites =>
              let capabilities := map bp_capability prerequisites in
              if negb (length prerequisites =? length requirements)%nat then false
              else if negb (bool_decide (NoDup capabilities)) then false
              else if negb (bool_decide (js_sort compareText capabilities = js_sort compareText (map rq_name requirements)))
              then false
              else
                match mapM (λ c, List.find (λ p, streq (bp_capability p) c) prerequisites) (pl_capabilities l) with
                | None => false
                | Some lossPrerequisites =>
                    bool_decide (js_sort by_identity (pl_providers l) =
                                 js_sort by_identity (unique_identities (map bp_provider lossPrerequisites))) &&
                    forallb (requirement_exact l ds installations bindings prerequisites) requirements
                end
          end
      end
  end.

Definition recoveryPrerequisitesReady (l : ProviderLoss) (ds : list DesiredDeployment)
    (installations : list PluginInstallation) (instances : list ComponentInstance)
    (bindings : list LoadedCapabilityBinding) : result exn bool :=
  if negb (recoveryBindingsAreExact l ds installations bindings) then Ok false
  else
    snapshots ← mapM (λ p, providerReadiness (bp_provider p) ds installations instances)
                  (default [] (pl_bindingPrerequisites l));
    Ok (forallb ps_ready snapshots).

(** [#fenceProviderComponentEvidence]: the evidence is still what it was, and stays so
    until the commit: each record is staged as it is, or as absent. *)
Definition same_evidence (i : ComponentInstance) (current : PersistedComponentInstance) (activation : Activation) : bool :=
  let e := ci_value i in
  streq activation (ci_activation i) &&
  streq (i_applicationId current) (i_applicationId e) && streq (i_pluginId current) (i_pluginId e) &&
  streq (i_componentId current) (i_componentId e) &&
  streq (i_deploymentGeneration current) (i_deploymentGeneration e) &&
  streq (i_observedGeneration current) (i_observedGeneration e) &&
  bool_decide (i_artifactDigest current = i_artifactDigest e) && bool_decide (i_lifecycle current = i_lifecycle e).

Definition fence_component (mutationKeys : list jstring) (e : ProviderComponentEvidence) : tx bool :=
  current ← get pick_instance (InstanceKey (pe_key e));
  match pe_instance e, current with
  | None, Some _ => mret false
  | None, None => _ ← remove (InstanceKey (pe_key e)) None; mret true
  | Some _, None => mret false
  | Some i, Some (value, revision) =>
      if negb (revision =? ci_revision i) || negb (streq (i_instanceId value) (i_instanceId (ci_value i))) then mret false
      else
      activation ← tx_result (parsePersistedActivation value);
      if negb (same_evidence i value activation) then mret false
      else if includes mutationKeys (pe_key e) then mret true
      else _ ← put (InstanceKey (pe_key e)) (InstanceRecord value) (Some (ci_revision i)); mret true
  end.
Definition fenceProviderComponentEvidence (snapshots : list ProviderReadinessSnapshot) (mutationKeys : list jstring) : tx bool :=
  tx_every (λ s, tx_every (fence_component mutationKeys) (ps_evidence s)) snapshots.
End evidence.

(** ** The reconciler's programs

    The async methods that work on this evidence are programs of Async.v: what a method
    awaits, and what may happen in between. [transact] is two effects, the snapshot its
    work reads and the commit of what the work staged; other processes commit whatever
    they like between any two effects. The world keeps every commit with the snapshot it
    was decided on, and every session the component lifecycle was asked to restore.

    The environment answers: the clock, whether the reconciler still runs, which
    components are live, what the artifact gate says, how a restoration ends, and
    whether a commit fails, before or after it has taken place. *)
Inductive eff : Type → Type :=
| Look : eff records
| CommitStaged (t : Staged) : eff (result exn unit)
| Clock : eff jstring
| IsRunning : eff bool
| Liveness : eff (ComponentInstance → bool)
| Validate (digest : jstring) : eff (result exn PluginManifest)
| Replan : eff unit
| SetDiagnostics (deployment : jstring) (codes : list jstring) : eff unit
| RestoreTermination (i : ComponentInstance) : eff (result exn unit)
| RestoreStarting (e : ReconcileEffect) : eff (result exn unit)
| RestoreComponent (i : ComponentInstance) : eff (result exn unit).

Abbreviation program := (prog eff exn).

(** What a reconciler is made with. *)
Record ReconcilerOptions := {
  op_loadsDeployments : bool;          (* [loadDeployments] is given *)
  op_lifecycle : bool;                 (* the effects have [restore], [isLive] and [close] *)
  op_restoreStarting : bool;
  op_restoreTermination : bool;
  op_supportedExecutors : list ExecutorKind;
  op_workers : option (list PlacementWorker);
}.

(** A restoration that was asked for. *)
Inductive restoration :=
| RestoredTermination (i : ComponentInstance)
| RestoredStarting (e : ReconcileEffect)
| RestoredComponent (i : ComponentInstance).

(** A commit: the staged transaction with its snapshot, the store before it. *)
Record commit_event := { ce_staged : Staged; ce_before : EvidenceStore }.

Record World := {
  w_store : EvidenceStore;
  w_past : list EvidenceStore;         (* the stores before it *)
  w_commits : list commit_event;
  w_restorations : list restoration;
  w_replans : nat;
  w_diagnostics : jsmap jstring (list jstring);
}.
Definition new_world : World :=
  {| w_store := empty_evidence; w_past := []; w_commits := []; w_restorations := []; w_replans := 0; w_diagnostics := [] |}.
Definition with_store (st : EvidenceStore) (w : World) : World :=
  {| w_store := st; w_past := w_store w :: w_past w; w_commits := w_commits w; w_restorations := w_restorations w; w_replans := w_replans w;
     w_diagnostics := w_diagnostics w |}.
Definition committed (st : EvidenceStore) (t : Staged) (w : World) : World :=
  {| w_store := st; w_past := w_store w :: w_past w; w_commits := w_commits w ++ [{| ce_staged := t; ce_before := w_store w |}];
     w_restorations := w_restorations w; w_replans := w_replans w; w_diagnostics := w_diagnostics w |}.
Definition restored (r : restoration) (w : World) : World :=
  {| w_store := w_store w; w_past := w_past w; w_commits := w_commits w; w_restorations := w_restorations w ++ [r];
     w_replans := w_replans w; w_diagnostics := w_diagnostics w |}.
Definition replanned (w : World) : World :=
  {| w_store := w_store w; w_past := w_past w; w_commits := w_commits w; w_restorations := w_restorations w; w_replans := S (w_replans w);
     w_diagnostics := w_diagnostics w |}.
Definition diagnosed (deployment : jstring) (codes : list jstring) (w : World) : World :=
  {| w_store := w_store w; w_past := w_past w; w_commits := w_commits w; w_restorations := w_restorations w; w_replans := w_replans w;
     w_diagnostics := JsMap.set (w_diagnostics w) deployment codes |}.

(** The stores there have been. *)
Definition moments (w : World) : list EvidenceStore := w_store w :: w_past w.

Record answer := {
  an_clock : jstring;
  an_running : bool;
  an_live : ComponentInstance → bool;
  an_manifest : result exn PluginManifest;
  an_outcome : result exn unit;        (* of a restoration *)
  an_fails : option exn;               (* of a commit *)
  an_commits : bool;                   (* a commit that fails has taken place *)
}.

(** A commit: it conflicts, it takes place, or it fails for the caller all the same. *)
Definition run_commit (a : answer) (t : Staged) (w : World) : result exn unit * World :=
  match commit (w_store w) t with
  | Err e => (Err (default e (an_fails a)), w)
  | Ok st =>
      match an_fails a with
      | None => (Ok tt, committed st t w)
      | Some e => (Err e, if an_commits a then committed st t w else w)
      end
  end.

Definition handle (c : unit) (a : answer) (w : World) (B : Type) (e : eff B) : option (B * World * list unit) :=
  match e in eff B return option (B * World * list unit) with
  | Look => Some (es_records (w_store w), w, [])
  | CommitStaged t => let '(r, w') := run_commit a t w in Some (r, w', [])
  | Clock => Some (an_clock a, w, [])
  | IsRunning => Some (an_running a, w, [])
  | Liveness => Some (an_live a, w, [])
  | Validate _ => Some (an_manifest a, w, [])
  | Replan => Some (tt, replanned w, [])
  | SetDiagnostics d codes => Some (tt, diagnosed d codes w, [])
  | RestoreTermination i => Some (an_outcome a, restored (RestoredTermination i) w, [])
  | RestoreStarting e => Some (an_outcome a, restored (RestoredStarting e) w, [])
  | RestoreComponent i => Some (an_outcome a, restored (RestoredComponent i) w, [])
  end.

(** ** Transactions of a program *)
Definition transact {A} (work : tx A) : program A :=
  snapshot ← effect Look;
  match work (new_transaction snapshot) with
  | Ok (a, t) => _ ← attempt (CommitStaged t); Ret a
  | Err e => Throw e
  end.

(** [catch (error) { if (conflictCode(error) !== "STATE_REVISION_CONFLICT") throw error;
    this.#replanCount += 1; return value; }] *)
Definition on_conflict {A} (value : A) (p : program A) : program A :=
  catch p (λ e,
    if bool_decide (e = STATE_REVISION_CONFLICT) then _ ← effect Replan; Ret value else Throw e).

(** [for (const x of xs) { ... }]: [Some r] is [return r]. *)
Fixpoint each {A R} (f : A → program (option R)) (xs : list A) : program (option R) :=
  match xs with
  | [] => Ret None
  | x :: xs' => r ← f x; match r with Some _ => Ret r | None => each f xs' end
  end.

(** The liveness the reconciler sees: without a component lifecycle nothing is live. *)
Definition liveness (o : ReconcilerOptions) : program (ComponentInstance → bool) :=
  if op_lifecycle o then effect Liveness else Ret (λ _, false).

(** ** How stores evolve

    A commit writes its records under a revision no record had: a record that still has
    the revision it was read with is the record that was read. *)
Definition evolves (st st' : EvidenceStore) : Prop :=
  es_revision st ≤ es_revision st' ∧
  ∀ k v r, es_records st' !! k = Some (v, r) → r ≤ es_revision st → es_records st !! k = Some (v, r).
Definition dated (st : EvidenceStore) : Prop := ∀ k v r, es_records st !! k = Some (v, r) → r ≤ es_revision st.

#[export] Instance evolves_preorder : PreOrder evolves.
Proof.
  split.
  - by intros st.
  - intros x y z [H1 K1] [H2 K2]. split; [lia|]. intros k v r Hz Hr. apply K1; [|done]. apply K2; [done|lia].
Qed.

Lemma commit_some st t st' :
  commit st t = Ok st' →
  unchanged (es_records st) (sg_mutations t) ∧
  es_revision st' = (if mutates st t then es_revision st + 1 else es_revision st) ∧
  es_records st' = merge (written (es_revision st + 1)) (es_records st) (sg_mutations t).
Proof. unfold commit. destruct (bool_decide _) eqn:E; [|done]. to_prop. intros [= <-]. done. Qed.
Lemma put_mutates st t k v e : sg_mutations t !! k = Some (Some v, e) → mutates st t = true.
Proof.
  intros H%elem_of_map_to_list. unfold mutates. apply orb_true_iff. left. apply orb_true_iff. left.
  apply existsb_exists_in. by exists (k, (Some v, e)).
Qed.

Lemma commit_lookup st t st' k :
  commit st t = Ok st' →
  es_records st' !! k = written (es_revision st + 1) (es_records st !! k) (sg_mutations t !! k).
Proof. intros (_ & _ & ->)%commit_some. rewrite lookup_merge. by destruct (es_records st !! k), (sg_mutations t !! k) as [[[]]|]. Qed.

Lemma commit_expected st t st' k value expected :
  commit st t = Ok st' → sg_mutations t !! k = Some (value, expected) → snd <$> es_records st !! k = expected.
Proof. intros (H & _ & _)%commit_some Hk. exact (H k _ Hk). Qed.

Lemma commit_evolves st t st' : dated st → commit st t = Ok st' → evolves st st' ∧ dated st'.
Proof.
  intros Hd H. pose proof (commit_some _ _ _ H) as (_ & Hr & _).
  assert (es_revision st ≤ es_revision st') as Hle by (rewrite Hr; destruct (mutates st t); lia).
  split; [split; [done|]|]; intros k v r; rewrite (commit_lookup _ _ _ k H);
    destruct (sg_mutations t !! k) as [[[x|] e]|] eqn:E; cbn; try done.
  - intros [= <- <-]. lia.
  - intros [= <- <-]. rewrite Hr, (put_mutates _ _ _ _ _ E). lia.
  - intros Hk. specialize (Hd _ _ _ Hk). lia.
Qed.

(** What was read under a revision that is still there is what is there. *)
Lemma evolves_same st st' k v r v' :
  evolves st st' → dated st → es_records st !! k = Some (v, r) → es_records st' !! k = Some (v', r) → v' = v.
Proof. intros [_ H] Hd Hk Hk'. pose proof (H _ _ _ Hk' (Hd _ _ _ Hk)). congruence. Qed.

(** ** The work of a transaction *)

(** [Q] holds of what the work returns and stages, if it returns. *)
Definition txwp {A} (work : tx A) (Q : A → Staged → Prop) (t : Staged) : Prop :=
  ∀ a t', work t = Ok (a, t') → Q a t'.

Lemma txwp_mono {A} (work : tx A) (Q Q' : A → Staged → Prop) t :
  txwp work Q t → (∀ a t', Q a t' → Q' a t') → txwp work Q' t.
Proof. intros H HQ a t' E. by apply HQ, H. Qed.
Lemma txwp_ret {A} (a : A) (Q : A → Staged → Prop) t : Q a t → txwp (mret a) Q t.
Proof. intros H b t' E. by injection E as <- <-. Qed.
Lemma txwp_bind {A B} (work : tx A) (f : A → tx B) (Q : B → Staged → Prop) t :
  txwp work (λ a t', txwp (f a) Q t') t → txwp (work ≫= f) Q t.
Proof. intros H b t' E. apply bind_ok in E as ([a t1] & E1 & E2). by eapply H. Qed.
Lemma txwp_result {A} (r : result exn A) (Q : A → Staged → Prop) t :
  (∀ a, r = Ok a → Q a t) → txwp (tx_result r) Q t.
Proof. intros H b t' E. apply bind_ok in E as (a & -> & E). injection E as <- <-. by apply H. Qed.
Lemma txwp_get {A} (pick : record → option A) key (Q : option (A * Z) → Staged → Prop) t :
  Q (fetch pick (view t) key) t → txwp (get pick key) Q t.
Proof. intros H b t' E. by injection E as <- <-. Qed.
Lemma txwp_stage key value expected (Q : unit → Staged → Prop) t :
  Q tt {| sg_snapshot := sg_snapshot t; sg_mutations := <[key := (value, expected)]> (sg_mutations t);
          sg_operations := sg_operations t; sg_messages := sg_messages t |} →
  txwp (stage key value expected) Q t.
Proof. intros H b t' E. by injection E as <- <-. Qed.
Lemma txwp_every {A} (f : A → tx bool) (P : Staged → Prop) (X : A → Staged → Prop) xs t :
  (∀ x t, x ∈ xs → P t → txwp (f x) (λ b t', P t' ∧ (b = true → X x t') ∧ (∀ y, X y t → X y t')) t) →
  P t → txwp (tx_every f xs) (λ b t', P t' ∧ (b = true → ∀ x, x ∈ xs → X x t') ∧ (∀ y, X y t → X y t')) t.
Proof.
  revert t. induction xs as [|x xs IH]; intros t Hf HP; cbn [tx_every].
  - apply txwp_ret. split_and!; [done| |auto]. by intros _ y ?%elem_of_nil.
  - apply txwp_bind. eapply txwp_mono; [apply Hf; [left|done]|]. intros b t1 (H1 & Hb & Hk). destruct b.
    + eapply txwp_mono; [apply IH; [|done]|].
      { intros y t2 Hy. apply Hf. by right. }
      intros b t2 (H2 & Hb2 & Hk2). split_and!; [done| |auto]. intros E y Hy. apply elem_of_cons in Hy as [Hy|Hy]; [|auto].
      subst y. auto.
    + apply txwp_ret. split_and!; [done|done|auto].
Qed.
Lemma txwp_each {A} (f : A → tx unit) (P : Staged → Prop) (X : A → Staged → Prop) xs t :
  (∀ x t, x ∈ xs → P t → txwp (f x) (λ _ t', P t' ∧ X x t' ∧ (∀ y, X y t → X y t')) t) →
  P t → txwp (tx_each f xs) (λ _ t', P t' ∧ (∀ x, x ∈ xs → X x t') ∧ (∀ y, X y t → X y t')) t.
Proof.
  revert t. induction xs as [|x xs IH]; intros t Hf HP; cbn [tx_each].
  - apply txwp_ret. split_and!; [done| |auto]. by intros y ?%elem_of_nil.
  - apply txwp_bind. eapply txwp_mono; [apply Hf; [left|done]|]. intros a t1 (H1 & Hx & Hk).
    eapply txwp_mono; [apply IH; [|done]|].
    + intros y t2 Hy. apply Hf. by right.
    + intros b t2 (H2 & Hb2 & Hk2). split_and!; [done| |auto]. intros y Hy.
      apply elem_of_cons in Hy as [Hy|Hy]; [|auto]. subst y. auto.
Qed.
(** The same with nothing to say of each. *)
Lemma txwp_each_inv {A} (f : A → tx unit) (P : Staged → Prop) xs t :
  (∀ x t, x ∈ xs → P t → txwp (f x) (λ _ t', P t') t) → P t → txwp (tx_each f xs) (λ _ t', P t') t.
Proof.
  intros Hf HP. eapply txwp_mono; [apply (txwp_each f P (λ _ _, True)); [|done]|by intros a t' [H _]].
  intros x t' Hx H. eapply txwp_mono; [by apply Hf|done].
Qed.
Lemma txwp_every_inv {A} (f : A → tx bool) (P : Staged → Prop) xs t :
  (∀ x t, x ∈ xs → P t → txwp (f x) (λ _ t', P t') t) → P t → txwp (tx_every f xs) (λ _ t', P t') t.
Proof.
  intros Hf HP. eapply txwp_mono; [apply (txwp_every f P (λ _ _, True)); [|done]|by intros a t' [H _]].
  intros x t' Hx H. eapply txwp_mono; [by apply Hf|done].
Qed.

(** A transaction that has only fenced what it read sees its snapshot. *)
Definition fencing (s : records) (t : Staged) : Prop :=
  sg_snapshot t = s ∧ ∀ k m, sg_mutations t !! k = Some m → m = (fst <$> s !! k, snd <$> s !! k).
Lemma fencing_new s : fencing s (new_transaction s).
Proof. split; [done|]. intros k m. cbn. by rewrite lookup_empty. Qed.
Lemma fencing_view s t : fencing s t → view t = s.
Proof.
  intros [Hs Hm]. apply map_eq. intros k. unfold view. rewrite lookup_merge, Hs.
  destruct (sg_mutations t !! k) as [m|] eqn:E.
  - rewrite (Hm _ _ E). by destruct (s !! k) as [[]|].
  - by destruct (s !! k).
Qed.
Lemma fetch_some {A} (pick : record → option A) s k a r :
  fetch pick s k = Some (a, r) → ∃ x, s !! k = Some (x, r) ∧ pick x = Some a.
Proof.
  unfold fetch. destruct (s !! k) as [[x q]|]; [|done]. cbn. destruct (pick x) as [y|] eqn:E; [|done].
  intros [= <- <-]. eauto.
Qed.
Lemma pick_deployment_some x d : pick_deployment x = Some d → x = DeploymentRecord d.
Proof. destruct x; naive_solver. Qed.
Lemma pick_installation_some x i : pick_installation x = Some i → x = InstallationRecord i.
Proof. destruct x; naive_solver. Qed.
Lemma pick_instance_some x i : pick_instance x = Some i → x = InstanceRecord i.
Proof. destruct x; naive_solver. Qed.
Lemma pick_binding_some x b : pick_binding x = Some b → x = BindingRecord b.
Proof. destruct x; naive_solver. Qed.
Lemma pick_loss_some x l : pick_loss x = Some l → x = LossRecord l.
Proof. destruct x; naive_solver. Qed.

(** ** What was loaded *)
Lemma elem_of_scan {A} (collection : record_key → option jstring) (pick : record → option A) s x :
  x ∈ scan collection pick s ↔
  ∃ k v, s !! k = Some (v, x.2) ∧ collection k = Some x.1.1 ∧ pick v = Some x.1.2.
Proof.
  unfold scan. rewrite elem_of_js_sort, list_elem_of_omap. split.
  - intros ([k [v r]] & Hk & E). apply elem_of_map_to_list in Hk. cbn in E.
    destruct (collection k) as [i|] eqn:Ek; [|done]. cbn in E. destruct (pick v) as [a|] eqn:Ev; [|done].
    injection E as <-. eauto.
  - destruct x as [[i a] r]. intros (k & v & Hk & Ec & Ep). exists (k, (v, r)). split; [by apply elem_of_map_to_list|].
    cbn in *. by rewrite Ec, Ep.
Qed.
Lemma elem_of_loadDeployments s d :
  d ∈ loadDeployments s ↔ ∃ id r, s !! DeploymentKey id = Some (DeploymentRecord d, r).
Proof.
  unfold loadDeployments. rewrite list_elem_of_fmap. split.
  - intros (x & -> & (k & v & Hk & Ec & ->%pick_deployment_some)%elem_of_scan). destruct k; try done. eauto.
  - intros (i & r & Hk). exists (i, d, r). split; [done|]. apply elem_of_scan. eexists _, _. done.
Qed.
Lemma elem_of_loadProviderLosses s l :
  l ∈ loadProviderLosses s ↔ ∃ id, ll_key l = LossKey id ∧ s !! LossKey id = Some (LossRecord (ll_value l), ll_revision l).
Proof.
  unfold loadProviderLosses. rewrite list_elem_of_fmap. split.
  - intros (x & -> & (k & v & Hk & Ec & ->%pick_loss_some)%elem_of_scan). destruct k; try done. cbn in *.
    injection Ec as ->. eauto.
  - intros (i & Ek & Hk). exists (i, ll_value l, ll_revision l). destruct l as [k v r]. cbn in *. subst k. split; [done|].
    apply elem_of_scan. eexists _, _. done.
Qed.
Lemma elem_of_loadCapabilityBindings s b :
  b ∈ loadCapabilityBindings s ↔
  ∃ id, lb_key b = BindingKey id ∧ s !! BindingKey id = Some (BindingRecord (lb_value b), lb_revision b).
Proof.
  unfold loadCapabilityBindings. rewrite list_elem_of_fmap. split.
  - intros (x & -> & (k & v & Hk & Ec & ->%pick_binding_some)%elem_of_scan). destruct k; try done. cbn in *.
    injection Ec as ->. eauto.
  - intros (i & Ek & Hk). exists (i, lb_value b, lb_revision b). destruct b as [k v r]. cbn in *. subst k. split; [done|].
    apply elem_of_scan. eexists _, _. done.
Qed.
