(* ===== verification/Bindings.v ===== *)
(** * Capability bindings of deployments

    The part of runtime/src/reconcile/reconciler.ts that keeps the capability bindings:
    [#cleanupCapabilityBindings] removes those of generations that are gone,
    [#gateDeployment] resolves the capabilities of all deployments and decides on one,
    [#persistResolvedBindings] writes what was resolved for it. *)

From S2P Require Import Prelude JsString Collections JsValue Identity Resolver Permission PermissionProofs Lifecycle Placement Plan Reconciler Async Evidence.

Open Scope Z_scope.

(** ** [#cleanupCapabilityBindings] *)
Definition cleanup_binding (b : LoadedCapabilityBinding) : tx unit :=
  current ← get pick_deployment (deploymentStateKey (cb_consumer (lb_value b)));
  match current with
  | Some (d, _) =>
      if streq (d_generation (dd_deployment d)) (cb_deploymentGeneration (lb_value b)) then mret tt
      else remove (lb_key b) (Some (lb_revision b))
  | None => remove (lb_key b) (Some (lb_revision b))
  end.
Definition cleanupCapabilityBindings (o : ReconcilerOptions) (ds : list DesiredDeployment)
    (loaded : list LoadedCapabilityBinding) : program bool :=
  if op_loadsDeployments o then Ret true
  else
    match List.filter (λ b, negb (isCurrentCapabilityBinding b ds)) loaded with
    | [] => Ret true
    | stale => on_conflict false (_ ← transact (tx_each cleanup_binding stale); Ret true)
    end.

(** ** [#persistResolvedBindings] *)
Record binding_mutation := {
  bm_id : jstring;
  bm_value : option PersistedCapabilityBinding;      (* [None] deletes *)
  bm_expected : option Z;
}.
Definition key_id (k : record_key) : jstring :=
  match k with
  | DeploymentKey i | InstallationKey i | InstanceKey i | BindingKey i | LossKey i | ObservationKey i => i
  end.

Abbreviation resolved_map := (jsmap jstring (NormalizedCapabilityRequirement * ResolvedCapabilityProvider)).
Definition resolved_by_capability (resolved : list ResolvedCapabilityBinding) : resolved_map :=
  foldl (λ m b, match rb_provider b with
                | Some p => JsMap.set m (name (rb_requirement b)) (rb_requirement b, p)
                | None => m
                end) [] resolved.
Definition current_by_capability (consumer : PluginDeploymentIdentity) (loaded : list LoadedCapabilityBinding)
  : jsmap jstring LoadedCapabilityBinding :=
  foldl (λ m b, JsMap.set m (cb_capability (lb_value b)) b) []
    (List.filter (λ b, same_identity (cb_consumer (lb_value b)) consumer) loaded).

(** The binding of a resolved requirement. *)
Definition bound (d : DesiredDeployment) (capability : jstring) (r : NormalizedCapabilityRequirement)
    (p : ResolvedCapabilityProvider) (updatedAt : jstring) : PersistedCapabilityBinding :=
  {| cb_consumer := identity_of (dd_deployment d); cb_capability := name r; cb_provider := rp_deployment p;
     cb_source := if JsMap.has (dd_capabilityBindings d) capability then Explicit else Automatic;
     cb_deploymentGeneration := d_generation (dd_deployment d); cb_updatedAt := updatedAt |}.

(** What becomes of the bindings the consumer has, and the resolved ones left over. *)
Definition current_mutation (d : DesiredDeployment) (requirementNames : list jstring) (updatedAt : jstring)
    (acc : list binding_mutation * resolved_map) (e : jstring * LoadedCapabilityBinding)
  : list binding_mutation * resolved_map :=
  let '(mutations, resolved) := acc in
  let '(capability, current) := e in
  let stale := negb (streq (cb_deploymentGeneration (lb_value current)) (d_generation (dd_deployment d))) ||
               negb (includes requirementNames capability) in
  match JsMap.get resolved capability with
  | None =>
      if stale
      then (mutations ++ [{| bm_id := key_id (lb_key current); bm_value := None; bm_expected := Some (lb_revision current) |}], resolved)
      else (mutations, resolved)
  | Some (r, p) =>
      let value := bound d capability r p updatedAt in
      if negb stale && same_identity (cb_provider (lb_value current)) (cb_provider value) &&
         bool_decide (cb_source (lb_value current) = cb_source value)
      then (mutations, JsMap.delete resolved capability)
      else (mutations ++ [{| bm_id := requirementKey (cb_consumer value) (name r); bm_value := Some value;
                             bm_expected := Some (lb_revision current) |}], JsMap.delete resolved capability)
  end.
Definition new_mutation (d : DesiredDeployment) (updatedAt : jstring)
    (e : jstring * (NormalizedCapabilityRequirement * ResolvedCapabilityProvider)) : binding_mutation :=
  let value := bound d e.1 e.2.1 e.2.2 updatedAt in
  {| bm_id := requirementKey (cb_consumer value) (name e.2.1); bm_value := Some value; bm_expected := None |}.

Definition binding_mutations (d : DesiredDeployment) (requirementNames : list jstring)
    (resolved : list ResolvedCapabilityBinding) (loaded : list LoadedCapabilityBinding) (updatedAt : jstring)
  : list binding_mutation :=
  let '(mutations, fresh) :=
    foldl (current_mutation d requirementNames updatedAt) ([], resolved_by_capability resolved)
      (current_by_capability (identity_of (dd_deployment d)) loaded) in
  js_sort (λ a b, compareText (bm_id a) (bm_id b)) (mutations ++ map (new_mutation d updatedAt) fresh).

Definition stage_binding (m : binding_mutation) : tx unit :=
  stage (BindingKey (bm_id m)) (BindingRecord <$> bm_value m) (bm_expected m).
Definition write_bindings (d : DesiredDeployment) (mutations : list binding_mutation) : tx bool :=
  current ← get pick_deployment (deploymentStateKey (identity_of (dd_deployment d)));
  match current with
  | Some (c, _) =>
      if streq (d_generation (dd_deployment c)) (d_generation (dd_deployment d))
      then _ ← tx_each stage_binding mutations; mret true
      else mret false
  | None => mret false
  end.
Definition persistResolvedBindings (o : ReconcilerOptions) (d : DesiredDeployment) (requirementNames : list jstring)
    (resolved : list ResolvedCapabilityBinding) (loaded : list LoadedCapabilityBinding) : program bool :=
  if op_loadsDeployments o then Ret true
  else
    updatedAt ← effect Clock;
    match binding_mutations d requirementNames resolved loaded updatedAt with
    | [] => Ret true
    | mutations =>
        on_conflict false
          (written ← transact (write_bindings d mutations);
           if (written : bool) then Ret true else _ ← effect Replan; Ret false)
    end.

(** ** [#gateDeployment] *)

(** What the gate answers of an artifact: its plan's gate, its requirements and the
    losses of its providers. *)
Record CapabilityGate := {
  cg_gate : ArtifactDeploymentGate;
  cg_requires : list PluginCapabilityRequirement;
  cg_losses : list ProviderLossDecision;
}.
Inductive gate_result := Gated (g : CapabilityGate) | GateRefused (code : jstring) | GateConflict.

Definition decision_text (c : PermissionDecisionCode) : jstring :=
  match c with
  | PERMISSION_ENVELOPE_INVALID => js "PERMISSION_ENVELOPE_INVALID"
  | PERMISSION_GRANT_EXCEEDS_REQUEST => js "PERMISSION_GRANT_EXCEEDS_REQUEST"
  end.

Section gate.
Context (domainToASCII : jstring → jstring).

(** [validatePermissionGrant] of JSON data: the copies are the values. *)
Definition validatePermissionGrant_json (requested granted : json) : PermissionDecision :=
  match r ← canonicalize domainToASCII requested; g ← canonicalize domainToASCII granted; Ok (r, g) with
  | Err invalid =>
      {| allowed := false; pd_diagnostics := [(PERMISSION_ENVELOPE_INVALID, error_path invalid)];
         pd_requested := None; pd_granted := None |}
  | Ok (r, g) =>
      match exceeding r g with
      | Some permission =>
          {| allowed := false;
             pd_diagnostics := [(PERMISSION_GRANT_EXCEEDS_REQUEST, js "$/granted/" ++ kind_of permission)];
             pd_requested := Some r; pd_granted := Some g |}
      | None => {| allowed := true; pd_diagnostics := []; pd_requested := Some r; pd_granted := Some g |}
      end
  end.
Lemma validatePermissionGrant_copied h requested granted r g :
  clone h requested = Ok r → clone h granted = Ok g →
  validatePermissionGrant domainToASCII h requested granted = validatePermissionGrant_json r g.
Proof. intros Hr Hg. unfold validatePermissionGrant, validatePermissionGrant_json, canonicalizePermissionSet. by rewrite Hr, Hg. Qed.

(** What the resolver is told of a deployment. The deployments of the same plugin, in
    whichever application, are taken to have the installation of the gated one. *)
Definition candidate_installation (d : DesiredDeployment) (installation : PluginInstallation)
    (installations : list PluginInstallation) (candidate : DesiredDeployment) : option PluginInstallation :=
  if streq (d_pluginId (dd_deployment candidate)) (d_pluginId (dd_deployment d)) then Some installation
  else installation_of candidate installations.
Definition resolution_deployment (isLive : ComponentInstance → bool) (instances : list ComponentInstance)
    (candidate : DesiredDeployment) (i : PluginInstallation) : CapabilityResolutionDeployment :=
  let c := dd_deployment candidate in
  let own := List.filter (λ x, of_deployment c x && streq (i_deploymentGeneration (ci_value x)) (d_generation c)) instances in
  let every (f : ComponentInstance → bool) :=
    forallb (λ p, existsb (λ x, streq (i_componentId (ci_value x)) (pc_componentId p) && f x) own)
      (mf_components (in_manifest i)) in
  {| identity := identity_of c;
     activated := every (λ x, inferComponentHasStarted (ci_value x));
     ready := bool_decide (d_state c = Active) && every (isReadyAndLive isLive);
     provides := mf_provides (in_manifest i);
     requires := mf_requires (in_manifest i);
     bindings := dd_capabilityBindings candidate |}.

(** The bindings of the current generations, and over them those the deployments ask for. *)
Definition previous_persisted (ds : list DesiredDeployment) (m : jsmap jstring PreviousCapabilityBinding)
    (b : LoadedCapabilityBinding) : jsmap jstring PreviousCapabilityBinding :=
  let v := lb_value b in
  match find_deployment (cb_consumer v) ds with
  | Some d =>
      if streq (d_generation (dd_deployment d)) (cb_deploymentGeneration v)
      then JsMap.set m (requirementKey (cb_consumer v) (cb_capability v))
             {| pb_consumer := cb_consumer v; pb_capability := cb_capability v; pb_provider := cb_provider v |}
      else m
  | None => m
  end.
Definition previous_explicit (m : jsmap jstring PreviousCapabilityBinding) (d : DesiredDeployment)
  : jsmap jstring PreviousCapabilityBinding :=
  let consumer := identity_of (dd_deployment d) in
  foldl (λ m e, JsMap.set m (requirementKey consumer e.1)
                  {| pb_consumer := consumer; pb_capability := e.1; pb_provider := e.2 |})
    m (dd_capabilityBindings d).
Definition previous_bindings (ds : list DesiredDeployment) (loaded : list LoadedCapabilityBinding)
  : list PreviousCapabilityBinding :=
  js_sort (λ a b, compareText (requirementKey (pb_consumer a) (pb_capability a)) (requirementKey (pb_consumer b) (pb_capability b)))
    (JsMap.values (foldl previous_explicit (foldl (previous_persisted ds) [] loaded) ds)).

Definition resolution_input (isLive : ComponentInstance → bool) (d : DesiredDeployment) (installation : PluginInstallation)
    (ds : list DesiredDeployment) (installations : list PluginInstallation) (instances : list ComponentInstance)
    (loaded : list LoadedCapabilityBinding) : CapabilityResolutionInput :=
  {| deployments := omap (λ c, resolution_deployment isLive instances c <$> candidate_installation d installation installations c) ds;
     previousBindings := Some (previous_bindings ds loaded) |}.

(** The part of the resolution that concerns the deployment. *)
Definition own_diagnostics (consumer : PluginDeploymentIdentity) (r : ResolutionResult) : list CapabilityResolutionDiagnostic :=
  List.filter (λ x, match dg_consumer x with
                    | Some c => same_identity c consumer
                    | None => existsb (λ c, same_identity c consumer) (candidates x)
                    end) (diagnostics r).
Definition own_bindings (consumer : PluginDeploymentIdentity) (r : ResolutionResult) : list ResolvedCapabilityBinding :=
  List.filter (λ b, same_identity (rb_consumer b) consumer) (default [] (res_bindings r)).

Definition open_gate (components : list PluginComponent) (requires : list PluginCapabilityRequirement) (granted : json) : CapabilityGate :=
  {| cg_gate := {| ag_components := components; ag_capability_ok := true; ag_capability_diagnostics := [];
                   ag_permission_allowed := true; ag_permission_diagnostics := []; ag_granted := Some granted; ag_order := [] |};
     cg_requires := requires; cg_losses := [] |}.
Definition resolved_gate (manifest : PluginManifest) (d : DesiredDeployment) (r : ResolutionResult) : CapabilityGate :=
  let consumer := identity_of (dd_deployment d) in
  let decision := validatePermissionGrant_json (mf_permissions manifest) (dd_permissionGrants d) in
  {| cg_gate :=
       {| ag_components := mf_components manifest;
          ag_capability_ok := bool_decide (own_diagnostics consumer r = []);
          ag_capability_diagnostics := map (λ x, code_text (code x)) (own_diagnostics consumer r);
          ag_permission_allowed := allowed decision;
          ag_permission_diagnostics := map (λ x, decision_text x.1) (pd_diagnostics decision);
          ag_granted := (λ ps, JArr (map permission_json ps)) <$> pd_granted decision;
          ag_order := map (λ i, (applicationId i, pluginId i)) (default [] (order r)) |};
     cg_requires := mf_requires manifest;
     cg_losses := List.filter (λ x, same_identity (ld_consumer x) consumer) (providerLossActions r) |}.

Definition error_code (e : exn) : jstring :=
  match e with DiagnosticError c => js c | _ => js "ARTIFACT_VALIDATION_FAILED" end.

Definition gateDeployment (o : ReconcilerOptions) (d : DesiredDeployment) (ds : list DesiredDeployment)
    (installations : list PluginInstallation) (instances : list ComponentInstance)
    (loaded : list LoadedCapabilityBinding) : program gate_result :=
  match installation_of d installations with
  | None =>
      if bool_decide (d_state (dd_deployment d) = Disabled)
      then Ret (Gated (open_gate [] [] (dd_permissionGrants d)))
      else Ret (GateRefused (js "DEPLOYMENT_INSTALLATION_MISSING"))
  | Some installation =>
      if bool_decide (d_state (dd_deployment d) = Active) then
        validated ← effect (Validate (d_artifactDigest (dd_deployment d)));
        match validated with
        | Err e => Ret (GateRefused (error_code e))
        | Ok manifest =>
            isLive ← liveness o;
            match resolve_stable (resolution_input isLive d installation ds installations instances loaded) with
            | None => Throw PlainError
            | Some r =>
                written ← persistResolvedBindings o d (map rq_name (mf_requires manifest))
                            (own_bindings (identity_of (dd_deployment d)) r) loaded;
                if (written : bool) then Ret (Gated (resolved_gate manifest d r)) else Ret GateConflict
            end
        end
      else
        written ← persistResolvedBindings o d (map rq_name (mf_requires (in_manifest installation))) [] loaded;
        if (written : bool)
        then Ret (Gated (open_gate (mf_components (in_manifest installation)) (mf_requires (in_manifest installation)) (dd_permissionGrants d)))
        else Ret GateConflict
  end.
End gate.
