(* ===== verification/ProviderLoss.v ===== *)
(** * Lost providers

    The part of runtime/src/reconcile/reconciler.ts that keeps the provider losses:
    [#cleanupOrphanProviderLosses], and [#reconcileProviderLosses], which records the
    loss of a consumer's providers, degrades or suspends the consumer, and lets it
    recover once every provider it needs is ready again. *)

From S2P Require Import Prelude JsString Collections JsValue Identity Resolver Lifecycle Placement Plan Reconciler Async Evidence Bindings.

Open Scope Z_scope.

(** ** [#cleanupOrphanProviderLosses] *)
Definition orphaned (ds : list DesiredDeployment) (l : LoadedProviderLoss) : bool :=
  negb (existsb (is_deployment (pl_consumer (ll_value l))) ds).
Definition still_absent (l : LoadedProviderLoss) : tx bool :=
  d ← get pick_deployment (deploymentStateKey (pl_consumer (ll_value l)));
  mret (match d with None => true | Some _ => false end).
Definition remove_orphan (l : LoadedProviderLoss) : tx unit :=
  _ ← remove (deploymentStateKey (pl_consumer (ll_value l))) None;
  remove (ll_key l) (Some (ll_revision l)).
Definition orphan_work (losses : list LoadedProviderLoss) : tx bool :=
  absent ← tx_every still_absent losses;
  if (absent : bool) then _ ← tx_each remove_orphan losses; mret true else mret false.
Definition cleanupOrphanProviderLosses (ds : list DesiredDeployment) (loaded : list LoadedProviderLoss) : program bool :=
  match List.filter (orphaned ds) loaded with
  | [] => Ret false
  | losses =>
      on_conflict true
        (committed ← transact (orphan_work losses);
         if (committed : bool) then Ret true else _ ← effect Replan; Ret true)
  end.

(** ** The decision *)

(** [[...new Set(l)]] *)
Definition js_unique (l : list jstring) : list jstring :=
  JsMap.keys (foldl (λ m x, JsMap.set m x tt) ([] : jsmap jstring unit) l).

Abbreviation gates_map := (jsmap jstring gate_result).
Definition gate_losses (g : gate_result) : list ProviderLossDecision :=
  match g with Gated g => cg_losses g | _ => [] end.
Definition compare_decisions (a b : ProviderLossDecision) : Z :=
  or_else (compareText (ld_capability a) (ld_capability b)) (by_identity (ld_provider a) (ld_provider b)).
Definition decisions_of (gates : gates_map) (key : jstring) : list ProviderLossDecision :=
  js_sort compare_decisions
    (List.filter (λ x, streq (identityKey (ld_consumer x)) key) (concat (map gate_losses (JsMap.values gates)))).
Definition loss_by_consumer (loaded : list LoadedProviderLoss) : jsmap jstring LoadedProviderLoss :=
  foldl (λ m l, JsMap.set m (identityKey (pl_consumer (ll_value l))) l) [] loaded.
Definition by_deployment (a b : DesiredDeployment) : Z := by_key (dd_deployment a) (dd_deployment b).

Definition gated (gates : gates_map) (key : jstring) : option CapabilityGate :=
  match JsMap.get gates key with Some (Gated g) => Some g | _ => None end.

(** The strongest of the recorded and the observed action. *)
Definition strongest_action (current : option LoadedProviderLoss) (observed : option ProviderLossAction) : option ProviderLossAction :=
  List.find (λ a, bool_decide ((λ l, pl_action (ll_value l)) <$> current = Some a) || bool_decide (observed = Some a))
    [fail; suspend; degrade].

Definition lost_capabilities (current : option LoadedProviderLoss) (decisions : list ProviderLossDecision) : list jstring :=
  js_sort compareText
    (js_unique (match current with Some l => pl_capabilities (ll_value l) | None => [] end ++ map ld_capability decisions)).
Definition lost_providers (current : option LoadedProviderLoss) (decisions : list ProviderLossDecision)
  : list PluginDeploymentIdentity :=
  unique_identities (js_sort by_identity
    (match current with Some l => pl_providers (ll_value l) | None => [] end ++ map ld_provider decisions)).

(** The loss as it should be recorded; [None] when nothing is lost. *)
Definition desired_loss (d : PluginDeployment) (gate : option CapabilityGate) (ds : list DesiredDeployment)
    (bindings : list LoadedCapabilityBinding) (current : option LoadedProviderLoss)
    (decisions : list ProviderLossDecision) (updatedAt : jstring) : option ProviderLoss :=
  match strongestProviderLoss decisions with
  | None => ll_value <$> current
  | Some observed =>
      let capabilities := lost_capabilities current decisions in
      Some {| pl_consumer := identity_of d;
              pl_deploymentGeneration := d_generation d;
              pl_action := default observed (strongest_action current (Some observed));
              pl_capabilities := capabilities;
              pl_providers := lost_providers current decisions;
              pl_bindingPrerequisites := bindingPrerequisites d (cg_requires <$> gate) ds bindings capabilities;
              pl_recoveryActivations := None;
              pl_updatedAt := updatedAt |}
  end.

Definition providers_to_fence (l : ProviderLoss) : list PluginDeploymentIdentity :=
  unique_identities (pl_providers l ++ map bp_provider (default [] (pl_bindingPrerequisites l))).

Definition same_loss (current : option LoadedProviderLoss) (l : ProviderLoss) : bool :=
  match current with
  | None => false
  | Some c =>
      streq (pl_deploymentGeneration (ll_value c)) (pl_deploymentGeneration l) &&
      bool_decide (pl_action (ll_value c) = pl_action l) &&
      bool_decide (pl_capabilities (ll_value c) = pl_capabilities l) &&
      bool_decide (pl_providers (ll_value c) = pl_providers l) &&
      bool_decide (pl_bindingPrerequisites (ll_value c) = pl_bindingPrerequisites l)
  end.
Definition with_recovery (l : ProviderLoss) (activations : option (jsmap jstring Activation)) (updatedAt : jstring) : ProviderLoss :=
  {| pl_consumer := pl_consumer l; pl_deploymentGeneration := pl_deploymentGeneration l; pl_action := pl_action l;
     pl_capabilities := pl_capabilities l; pl_providers := pl_providers l;
     pl_bindingPrerequisites := pl_bindingPrerequisites l; pl_recoveryActivations := activations; pl_updatedAt := updatedAt |}.

(** The activations of a recovery, the next of each component. *)
Definition recovery_activations (latest : list (option ComponentInstance)) : result exn (jsmap jstring Activation) :=
  foldl (λ acc i,
    m ← acc;
    a ← nextActivation (match i with Some i => ci_activation i | None => js "0" end);
    Ok (JsMap.set m (match i with Some i => i_componentId (ci_value i) | None => [] end) a)) (Ok []) latest.

(** What is to be done about one loss. *)
Record LossPlan := {
  lp_desired : ProviderLoss;
  lp_stale : bool;
  lp_begin : bool;
  lp_readiness : list ProviderReadinessSnapshot;
  lp_latest : list (option ComponentInstance);
  lp_next : option ComponentLifecycleState;
  lp_transitioning : list ComponentInstance;
  lp_steps : list ReconcilePlanStep;
  lp_record : ProviderLoss;
  lp_write : bool;
  lp_delete : bool;
}.
Inductive loss_step := LossPlanned (p : LossPlan) | ActivationsExhausted.

Section losses.
Context (domainToASCII sha256 : jstring → jstring) (o : ReconcilerOptions).

Definition component_latest (g : CapabilityGate) (own : list ComponentInstance) : list (option ComponentInstance) :=
  map (λ c, latest_of (pc_componentId c) own) (ag_components (cg_gate g)).
Definition own_instances (d : PluginDeployment) (instances : list ComponentInstance) : list ComponentInstance :=
  List.filter (λ i, of_deployment d i && streq (i_deploymentGeneration (ci_value i)) (d_generation d)) instances.
Definition recovery_running (isLive : ComponentInstance → bool) (g : CapabilityGate) (own : list ComponentInstance)
    (activations : jsmap jstring Activation) : bool :=
  forallb (λ c,
    match JsMap.get activations (pc_componentId c) with
    | None => false
    | Some a =>
        match List.find (λ i, streq (i_componentId (ci_value i)) (pc_componentId c) && streq (ci_activation i) a) own with
        | Some i => isReadyAndLive isLive i
        | None => false
        end
    end) (ag_components (cg_gate g)).

Definition recovery_snapshot (d : PluginDeployment) (g : CapabilityGate) (own : list ComponentInstance) (now : jstring)
    (activations : jsmap jstring Activation) : ReconcileSnapshot :=
  {| sn_deployment := d; sn_gate := cg_gate g; sn_instances := own; sn_now := now;
     sn_supportedExecutors := op_supportedExecutors o; sn_workers := default [] (op_workers o);
     sn_suspended := false; sn_activations := activations |}.

Definition plan_loss (isLive : ComponentInstance → bool) (d : PluginDeployment) (gate : option CapabilityGate)
    (ds : list DesiredDeployment) (installations : list PluginInstallation) (instances : list ComponentInstance)
    (bindings : list LoadedCapabilityBinding) (current : option LoadedProviderLoss)
    (decisions : list ProviderLossDecision) (desired : ProviderLoss) (now : jstring) : result exn loss_step :=
  readiness ← mapM (λ p, providerReadiness sha256 isLive p ds installations instances) (providers_to_fence desired);
  let stale := negb (streq (pl_deploymentGeneration desired) (d_generation d)) in
  recovered ←
    (if negb stale && bool_decide (decisions = [])
     then recoveryPrerequisitesReady sha256 isLive desired ds installations instances bindings
     else Ok false);
  let own := own_instances d instances in
  let latest := match gate with Some g => component_latest g own | None => [] end in
  let suspends := bool_decide (pl_action desired = suspend) in
  let suspendStopped :=
    negb suspends ||
    forallb (λ i, match i with Some i => bool_decide (i_lifecycle (ci_value i) = CpStopped) | None => false end) latest in
  let beginRecovery :=
    suspends && recovered && suspendStopped && (0 <? length latest)%nat &&
    bool_decide (pl_recoveryActivations desired = None) in
  match (if beginRecovery then a ← recovery_activations latest; Ok (Some a) else Ok (pl_recoveryActivations desired)) with
  | Err _ => Ok ActivationsExhausted
  | Ok activations =>
      plan ←
        match (if beginRecovery then gate else None), activations with
        | Some g, Some a => x ← planReconcile domainToASCII sha256 (recovery_snapshot d g own now a); Ok (Some x)
        | _, _ => Ok None
        end;
      let recoveryReady :=
        suspends && match activations, gate with Some a, Some g => recovery_running isLive g own a | _, _ => false end in
      let steps := match plan with Some p => rp_steps p | None => [] end in
      let planValid :=
        match plan with Some p => negb (rp_blocked p) && (length (rp_steps p) =? length latest)%nat | None => false end in
      let canRecover :=
        match pl_action desired with
        | fail => false
        | suspend => recovered && (recoveryReady || (bool_decide (activations = None) && (length latest =? 0)%nat))
        | degrade => recovered && suspendStopped
        end in
      let next :=
        if canRecover && negb suspends then Some CpReady
        else if negb stale && bool_decide (pl_action desired = degrade) then Some CpDegraded else None in
      let transitioning :=
        match next with
        | Some CpDegraded => List.filter (λ i, bool_decide (i_lifecycle (ci_value i) = CpReady)) own
        | Some CpReady => List.filter (λ i, bool_decide (i_lifecycle (ci_value i) = CpDegraded)) own
        | _ => []
        end in
      let begins := beginRecovery && planValid in
      Ok (LossPlanned
        {| lp_desired := desired; lp_stale := stale; lp_begin := beginRecovery; lp_readiness := readiness;
           lp_latest := latest; lp_next := next; lp_transitioning := transitioning;
           lp_steps := if begins then steps else [];
           lp_record := match begins, activations with
                        | true, Some _ => with_recovery desired activations (pl_updatedAt desired)
                        | _, _ => desired
                        end;
           lp_write := negb stale && (begins || (negb canRecover && negb (same_loss current desired) &&
                                                 bool_decide (pl_recoveryActivations desired = None)));
           lp_delete := match current with Some _ => canRecover || stale | None => false end |})
  end.

(** Nothing to write. *)
Definition idle (p : LossPlan) : bool :=
  negb (lp_write p) && negb (lp_delete p) && bool_decide (length (lp_transitioning p) = 0%nat) &&
  bool_decide (length (lp_steps p) = 0%nat).

(** ** The transaction *)
Definition same_deployment_as (loaded : DesiredDeployment) (current : option (DesiredDeployment * Z)) : bool :=
  match current with
  | None => false
  | Some (c, _) =>
      streq (d_generation (dd_deployment c)) (d_generation (dd_deployment loaded)) &&
      bool_decide (d_state (dd_deployment c) = d_state (dd_deployment loaded)) &&
      streq (d_artifactDigest (dd_deployment c)) (d_artifactDigest (dd_deployment loaded))
  end.
Definition provider_same (ds : list DesiredDeployment) (provider : PluginDeploymentIdentity) : tx bool :=
  match find_deployment provider ds with
  | None => mret false
  | Some loaded =>
      current ← get pick_deployment (deploymentStateKey provider);
      mret (same_deployment_as loaded current)
  end.
Definition prerequisite_same (consumer : PluginDeploymentIdentity) (generation : jstring)
    (bindings : list LoadedCapabilityBinding) (p : ProviderRecoveryBindingPrerequisite) : tx bool :=
  match List.find (λ b, same_identity (cb_provider (lb_value b)) (bp_provider p))
          (bindings_of consumer (bp_capability p) generation bindings) with
  | None => mret false
  | Some loaded =>
      current ← get pick_binding (lb_key loaded);
      mret (match current with
            | None => false
            | Some (b, revision) =>
                (revision =? lb_revision loaded) && streq (cb_deploymentGeneration b) generation &&
                same_identity (cb_provider b) (cb_provider (lb_value loaded))
            end)
  end.
(** An instance that is to move, as it is stored. *)
Definition moving_instance (i : ComponentInstance) : tx (option (jstring * PersistedComponentInstance * Z)) :=
  current ← get pick_instance (InstanceKey (i_instanceId (ci_value i)));
  mret (match current with
        | Some (v, revision) =>
            if revision =? ci_revision i then Some (i_instanceId (ci_value i), v, revision) else None
        | None => None
        end).
Fixpoint moving_instances (l : list ComponentInstance) : tx (option (list (jstring * PersistedComponentInstance * Z))) :=
  match l with
  | [] => mret (Some [])
  | i :: l' =>
      x ← moving_instance i;
      match x with
      | None => mret None
      | Some x => xs ← moving_instances l'; mret (cons x <$> xs)
      end
  end.
(** The stopped instance a recovery replaces stays as it is until the commit. *)
Definition fence_stopped (generation : jstring) (i : option ComponentInstance) : tx bool :=
  match i with
  | None => mret true
  | Some i =>
      current ← get pick_instance (InstanceKey (i_instanceId (ci_value i)));
      match current with
      | None => mret false
      | Some (v, revision) =>
          if negb (revision =? ci_revision i) then mret false
          else
            activation ← tx_result (parsePersistedActivation v);
            if negb (streq activation (ci_activation i)) || negb (bool_decide (i_lifecycle v = CpStopped)) ||
               negb (streq (i_deploymentGeneration v) generation)
            then mret false
            else _ ← put (InstanceKey (i_instanceId (ci_value i))) (InstanceRecord v) (Some (ci_revision i)); mret true
      end
  end.
Definition move_instance (next : option ComponentLifecycleState) (x : jstring * PersistedComponentInstance * Z) : tx unit :=
  let '(id, v, revision) := x in
  match transitionComponentLifecycle (i_lifecycle v) (default (i_lifecycle v) next) with
  | Ok l => put (InstanceKey id) (InstanceRecord (with_lifecycle l v)) (Some revision)
  | Err _ => tx_result (Err (DiagnosticError "LIFECYCLE_TRANSITION_INVALID"))
  end.
Definition stage_recovery (s : ReconcilePlanStep) : tx unit :=
  let e := s_effect s in
  _ ← put (InstanceKey (e_instanceId e)) (InstanceRecord (recovery_instance e)) None;
  _ ← appendOperation (e_operationId e) JournalPlanned;
  enqueueOutbox (e_messageId e) e.

Inductive loss_outcome := LossCommitted | LossMoved | RecoveryNotReady.

(** What the work checks before it stages anything of the loss: the deployment, its
    providers and the bindings of its prerequisites are what was loaded. *)
Definition loss_checks (d : DesiredDeployment) (ds : list DesiredDeployment) (bindings : list LoadedCapabilityBinding)
    (p : LossPlan) : tx bool :=
  if lp_stale p then mret true
  else
    providers ← tx_every (provider_same ds) (providers_to_fence (lp_desired p));
    if (providers : bool)
    then tx_every (prerequisite_same (identity_of (dd_deployment d)) (d_generation (dd_deployment d)) bindings)
           (default [] (pl_bindingPrerequisites (lp_desired p)))
    else mret false.
Definition loss_recovery_ready (isLive : ComponentInstance → bool) (p : LossPlan) : tx bool :=
  if lp_begin p then
    e ← loadRecoveryEvidence;
    tx_result (recoveryPrerequisitesReady sha256 isLive (lp_desired p) (re_deployments e) (re_installations e)
                 (re_instances e) (re_bindings e))
  else mret true.
Definition fence_latest (d : DesiredDeployment) (p : LossPlan) : tx bool :=
  if bool_decide (length (lp_steps p) = 0%nat) then mret true
  else tx_every (fence_stopped (d_generation (dd_deployment d))) (lp_latest p).
Definition write_loss (d : DesiredDeployment) (current : option LoadedProviderLoss) (p : LossPlan) : tx unit :=
  if lp_write p
  then put (providerLossKey (identity_of (dd_deployment d))) (LossRecord (lp_record p)) (ll_revision <$> current)
  else
    match current with
    | Some l => if lp_delete p then remove (ll_key l) (Some (ll_revision l)) else mret tt
    | None => mret tt
    end.

Definition loss_work (isLive : ComponentInstance → bool) (d : DesiredDeployment) (ds : list DesiredDeployment)
    (bindings : list LoadedCapabilityBinding) (current : option LoadedProviderLoss) (p : LossPlan) : tx loss_outcome :=
  persisted ← get pick_deployment (deploymentStateKey (identity_of (dd_deployment d)));
  if negb (same_deployment_as d persisted) then mret LossMoved
  else
    ready ← loss_recovery_ready isLive p;
    if negb ready then mret RecoveryNotReady
    else
      same ← loss_checks d ds bindings p;
      if negb same then mret LossMoved
      else
        moving ← moving_instances (lp_transitioning p);
        match moving with
        | None => mret LossMoved
        | Some moving =>
            stopped ← fence_latest d p;
            if negb stopped then mret LossMoved
            else
              fenced ← (if lp_stale p then mret true
                        else fenceProviderComponentEvidence (lp_readiness p) (map (λ x, x.1.1) moving));
              if negb fenced then mret LossMoved
              else
                _ ← write_loss d current p;
                _ ← tx_each (move_instance (lp_next p)) moving;
                _ ← tx_each stage_recovery (lp_steps p);
                mret LossCommitted
        end.

(** ** [#recordObservation] and [#recordBlocked] *)
Definition recordObservation (d : PluginDeployment) (blocked : bool) (codes : list jstring) : program unit :=
  stored ← effect Look;
  let current := fetch pick_observation stored (observationKey d) in
  let unchanged :=
    match current with
    | None => false
    | Some (ob, _) =>
        same_identity (ob_deployment ob) (identity_of d) && streq (ob_generation ob) (d_generation d) &&
        Bool.eqb (ob_blocked ob) blocked && bool_decide (ob_diagnostics ob = codes)
    end in
  if unchanged then Ret tt
  else
    now ← effect Clock;
    transact (put (observationKey d)
      (ObservationRecord {| ob_deployment := identity_of d; ob_generation := d_generation d; ob_blocked := blocked;
                            ob_diagnostics := codes; ob_updatedAt := now |}) (snd <$> current)).
Definition recordBlocked (d : PluginDeployment) (codes : list jstring) : program unit :=
  _ ← effect (SetDiagnostics (identityKey (identity_of d)) codes);
  recordObservation d true codes.

(** ** [#reconcileProviderLosses] *)
Definition settle_loss (d : DesiredDeployment) (ds : list DesiredDeployment) (installations : list PluginInstallation)
    (instances : list ComponentInstance) (bindings : list LoadedCapabilityBinding) (gates : gates_map)
    (current : option LoadedProviderLoss) : program (option bool) :=
  let key := identityKey (identity_of (dd_deployment d)) in
  let decisions := decisions_of gates key in
  updatedAt ← effect Clock;
  match desired_loss (dd_deployment d) (gated gates key) ds bindings current decisions updatedAt with
  | None => Ret None
  | Some desired =>
      isLive ← liveness o;
      planned ← of_result (plan_loss isLive (dd_deployment d) (gated gates key) ds installations instances bindings
                             current decisions desired updatedAt);
      match planned with
      | ActivationsExhausted =>
          _ ← recordBlocked (dd_deployment d) [js "DEPLOYMENT_ACTIVATION_EXHAUSTED"];
          Ret None
      | LossPlanned p =>
          if idle p then Ret None
          else
            on_conflict (Some true)
              (isLive ← liveness o;
               outcome ← transact (loss_work isLive d ds bindings current p);
               match outcome with
               | RecoveryNotReady => Ret None
               | LossMoved => _ ← effect Replan; Ret (Some true)
               | LossCommitted => Ret (Some true)
               end)
      end
  end.

Definition reconcileProviderLosses (ds : list DesiredDeployment) (installations : list PluginInstallation)
    (instances : list ComponentInstance) (bindings : list LoadedCapabilityBinding) (loaded : list LoadedProviderLoss)
    (gates : gates_map) : program bool :=
  if op_loadsDeployments o then Ret false
  else
    orphans ← cleanupOrphanProviderLosses ds loaded;
    if (orphans : bool) then Ret true
    else
      r ← each (λ d, settle_loss d ds installations instances bindings gates
                       (JsMap.get (loss_by_consumer loaded) (identityKey (identity_of (dd_deployment d)))))
            (js_sort by_deployment ds);
      Ret (default false r).
End losses.
