(* ===== verification/Restoration.v ===== *)
(** * Restoring persisted components

    The part of runtime/src/reconcile/reconciler.ts that brings the sessions of
    persisted components back, on the store of Evidence.v: [#restorePersistedComponents]
    and its transactions (the records they write are those of Reconciler.v),
    [#authorizeRecoveryEffect], and the first half of [#reconcilePass], from the loads
    to the settled provider losses. *)

From S2P Require Import Prelude JsString Collections JsValue Identity Time Permission PermissionProofs Resolver Lifecycle Placement Retry Plan Reconciler Async Evidence Bindings ProviderLoss.

Open Scope Z_scope.

Definition for_each {A} (f : A → program unit) (xs : list A) : program unit :=
  _ ← each (λ x, _ ← f x; Ret (None : option unit)) xs; Ret tt.

(** [for (let attempt = 0; attempt < n; attempt += 1)]: the body says when to stop. *)
Fixpoint attempts (n : nat) (body : program bool) : program unit :=
  match n with
  | O => Ret tt
  | S n => done ← body; if (done : bool) then Ret tt else attempts n body
  end.

Section restoration.
Context (domainToASCII sha256 : jstring → jstring) (o : ReconcilerOptions).
Abbreviation restorationOperationId := (restorationOperationId sha256).
Abbreviation startingEffect := (startingEffect sha256).

(** ** What is kept of a restoration *)
Definition markTerminationRestored (i : ComponentInstance) : program unit :=
  if bool_decide (i_lifecycle (ci_value i) = CpStopping) then Ret tt
  else
    let key := InstanceKey (i_instanceId (ci_value i)) in
    attempts 3
      (stored ← effect Look;
       match fetch pick_instance stored key with
       | None => Ret true
       | Some (v, revision) =>
           if bool_decide (i_lifecycle v = CpStopping) then Ret true
           else
             on_conflict false
               (_ ← transact (v' ← tx_result (stopping_instance v); put key (InstanceRecord v') (Some revision));
                Ret true)
       end).

Definition recordRestorationFailure (i : ComponentInstance) (now : Z) : program unit :=
  operationId ← of_result (restorationOperationId i);
  let key := InstanceKey (i_instanceId (ci_value i)) in
  attempts 3
    (stored ← effect Look;
     match fetch pick_instance stored key with
     | None => Ret true
     | Some (v, revision) =>
         let nextAttempt := default 0 (i_attempt v) + 1 in
         match deterministicRetryDelay {| rd_attempt := NInt nextAttempt; rd_baseDelayMs := NInt 1000;
                 rd_maxDelayMs := NInt 60000; rd_operationId := operationId |} with
         | Err _ => Throw RangeError
         | Ok delay =>
             on_conflict false
               (_ ← transact
                      (_ ← put key (InstanceRecord (unrestored_instance nextAttempt (toISOString (now + delay)) v)) (Some revision);
                       appendOperation operationId JournalFailed);
                Ret true)
         end
     end).

Definition clearRestorationFailure (i : ComponentInstance) : program unit :=
  if unfailed (ci_value i) then Ret tt
  else
    let key := InstanceKey (i_instanceId (ci_value i)) in
    attempts 3
      (stored ← effect Look;
       match fetch pick_instance stored key with
       | None => Ret true
       | Some (v, revision) =>
           if unfailed v then Ret true
           else
             on_conflict false
               (_ ← transact
                      (_ ← put key (InstanceRecord (settled_instance (i_lifecycle v) v)) (Some revision);
                       loaded ← tx_result (load_instance (i_instanceId v) v revision);
                       operationId ← tx_result (restorationOperationId (li_value loaded));
                       appendOperation operationId JournalCompleted);
                Ret true)
       end).

(** ** [#authorizeRecoveryEffect] *)

(** The fields of an effect or of an instance it looks at. *)
Record RecoveryTarget := {
  rt_consumer : PluginDeploymentIdentity;
  rt_componentId : jstring;
  rt_activation : Activation;
  rt_deploymentGeneration : jstring;
  rt_artifactDigest : option jstring;
  rt_instanceId : jstring;
}.
Definition target_of_instance (i : ComponentInstance) : RecoveryTarget :=
  let v := ci_value i in
  {| rt_consumer := {| applicationId := i_applicationId v; pluginId := i_pluginId v |};
     rt_componentId := i_componentId v; rt_activation := ci_activation i;
     rt_deploymentGeneration := i_deploymentGeneration v; rt_artifactDigest := i_artifactDigest v;
     rt_instanceId := i_instanceId v |}.
Definition target_of_effect (e : ReconcileEffect) : RecoveryTarget :=
  {| rt_consumer := {| applicationId := e_applicationId e; pluginId := e_pluginId e |};
     rt_componentId := e_componentId e; rt_activation := e_activation e;
     rt_deploymentGeneration := e_deploymentGeneration e; rt_artifactDigest := Some (e_artifactDigest e);
     rt_instanceId := e_instanceId e |}.

Definition recovery_of (l : ProviderLoss) (componentId : jstring) : option Activation :=
  a ← pl_recoveryActivations l; JsMap.get a componentId.
Definition targets (t : RecoveryTarget) (i : ComponentInstance) : bool :=
  let v := ci_value i in
  streq (i_instanceId v) (rt_instanceId t) && streq (ci_activation i) (rt_activation t) &&
  streq (i_applicationId v) (applicationId (rt_consumer t)) && streq (i_pluginId v) (pluginId (rt_consumer t)) &&
  streq (i_componentId v) (rt_componentId t) && streq (i_deploymentGeneration v) (rt_deploymentGeneration t) &&
  streq (i_observedGeneration v) (rt_deploymentGeneration t) &&
  bool_decide (i_artifactDigest v = rt_artifactDigest t).
Definition consumer_matches (t : RecoveryTarget) (ds : list DesiredDeployment) : bool :=
  match find_deployment (rt_consumer t) ds with
  | Some d => bool_decide (d_state (dd_deployment d) = Active) &&
              streq (d_generation (dd_deployment d)) (rt_deploymentGeneration t) &&
              bool_decide (Some (d_artifactDigest (dd_deployment d)) = rt_artifactDigest t)
  | None => false
  end.

Definition authorizeRecoveryEffect (isLive : ComponentInstance → bool) (updatedAt : jstring) (t : RecoveryTarget)
    (expectedLifecycle : ComponentLifecycleState) (expectedRevision : Z) : tx RecoveryEffectAuthorization :=
  stored ← get pick_loss (providerLossKey (rt_consumer t));
  match stored with
  | None => mret Superseded
  | Some (loss, lossRevision) =>
      if negb (bool_decide (pl_action loss = suspend)) ||
         negb (streq (pl_deploymentGeneration loss) (rt_deploymentGeneration t)) ||
         negb (bool_decide (recovery_of loss (rt_componentId t) = Some (rt_activation t)))
      then mret Superseded
      else
        e ← loadRecoveryEvidence;
        match List.find (targets t) (re_instances e) with
        | None => mret Superseded
        | Some i =>
            if negb (bool_decide (i_lifecycle (ci_value i) = expectedLifecycle)) then mret Superseded
            else if negb (ci_revision i =? expectedRevision) then mret RetryAuthorization
            else
              ready ← (if consumer_matches t (re_deployments e)
                       then tx_result (recoveryPrerequisitesReady sha256 isLive loss (re_deployments e) (re_installations e)
                                         (re_instances e) (re_bindings e))
                       else mret false);
              if (ready : bool) then mret Authorized
              else
                _ ← put (providerLossKey (pl_consumer loss)) (LossRecord (with_recovery loss None updatedAt)) (Some lossRevision);
                _ ← put (InstanceKey (rt_instanceId t)) (InstanceRecord (settled_instance CpStopped (ci_value i)))
                      (Some expectedRevision);
                mret Abandoned
        end
  end.

(** The transaction that begins a claimed effect. *)
Definition beginEffect (isLive : ComponentInstance → bool) (updatedAt : jstring) (e : ReconcileEffect)
    (v : PersistedComponentInstance) (revision : Z) (exactRecoveryEffect : bool)
    (retryPreState : option ComponentLifecycleState) : tx RecoveryEffectAuthorization :=
  authorization ←
    (if exactRecoveryEffect
     then authorizeRecoveryEffect isLive updatedAt (target_of_effect e) (i_lifecycle v) revision
     else mret Authorized);
  match authorization with
  | Authorized =>
      _ ← match retryPreState with
          | Some l => put (InstanceKey (e_instanceId e)) (InstanceRecord (with_lifecycle l v)) (Some revision)
          | None => mret tt
          end;
      _ ← appendOperation (e_operationId e) JournalExecuting;
      mret Authorized
  | _ => mret authorization
  end.

(** ** [#isPersistedRemotePlacementEligible] *)
Definition active_for (v : PersistedComponentInstance) (d : DesiredDeployment) : bool :=
  let p := dd_deployment d in
  bool_decide (d_state p = Active) && same_deployment (i_applicationId v) (i_pluginId v) p &&
  streq (d_generation p) (i_deploymentGeneration v) && bool_decide (Some (d_artifactDigest p) = i_artifactDigest v).
Definition isPersistedRemotePlacementEligible (i : ComponentInstance) (ds : list DesiredDeployment)
    (installations : list PluginInstallation) : program bool :=
  let v := ci_value i in
  match i_workerId v, List.find (active_for v) ds with
  | Some workerId, Some d =>
      match installation_of d installations with
      | None => Ret false
      | Some _ =>
          validated ← effect (Validate (d_artifactDigest (dd_deployment d)));
          match validated with
          | Err _ => Ret false
          | Ok manifest =>
              match List.find (λ c, streq (pc_componentId c) (i_componentId v)) (mf_components manifest) with
              | None => Ret false
              | Some component =>
                  let decision := validatePermissionGrant_json domainToASCII (mf_permissions manifest) (dd_permissionGrants d) in
                  if negb (allowed decision) then Ret false
                  else
                    Ret (placementIsEligible domainToASCII
                      {| pi_artifactDigest := d_artifactDigest (dd_deployment d); pi_component := component;
                         pi_grantedPermissions := JArr (map permission_json (default [] (pd_granted decision)));
                         pi_supportedExecutors := op_supportedExecutors o;
                         pi_workers := default [] (op_workers o) |}
                      {| cpl_executor := Remote; cpl_workerId := Some workerId |})
              end
          end
      end
  | _, _ => Ret false
  end.

(** ** [#restorePersistedComponents] *)
Definition restorable (ds : list DesiredDeployment) (installations : list PluginInstallation) (now : jstring)
    (i : ComponentInstance) : bool :=
  let v := ci_value i in
  restorable_lifecycle v && negb (later (i_retryAt v) now) &&
  match i_workerId v with
  | None => true
  | Some w => existsb (λ x, streq (w_workerId x) w) (default [] (op_workers o))
  end &&
  negb (bool_decide (i_artifactDigest v = None)) && includes (op_supportedExecutors o) (i_executor v) &&
  (existsb (active_for v) ds ||
   negb (bool_decide (i_executionBinding v = None)) && historical_lifecycle v &&
   existsb (λ d, same_deployment (i_applicationId v) (i_pluginId v) (dd_deployment d)) ds &&
   existsb (λ x, streq (in_pluginId x) (i_pluginId v) && bool_decide (Some (in_digest x) = i_artifactDigest v)) installations).

(** A retired generation or artifact, or a disabled deployment: only its end is restored. *)
Definition requiresHistoricalTermination (ds : list DesiredDeployment) (v : PersistedComponentInstance) : bool :=
  match List.find (λ d, same_deployment (i_applicationId v) (i_pluginId v) (dd_deployment d)) ds with
  | None => false
  | Some d =>
      negb (bool_decide (i_executionBinding v = None)) &&
      (bool_decide (d_state (dd_deployment d) = Disabled) ||
       negb (streq (d_generation (dd_deployment d)) (i_deploymentGeneration v)) ||
       negb (bool_decide (Some (d_artifactDigest (dd_deployment d)) = i_artifactDigest v)))
  end.
(** A loss that holds the consumer's components back. *)
Definition holds_back (v : PersistedComponentInstance) (l : LoadedProviderLoss) : bool :=
  same_identity (pl_consumer (ll_value l)) {| applicationId := i_applicationId v; pluginId := i_pluginId v |} &&
  streq (pl_deploymentGeneration (ll_value l)) (i_deploymentGeneration v) &&
  (bool_decide (pl_action (ll_value l) = fail) || bool_decide (pl_action (ll_value l) = suspend)).

Definition restore_termination (i : ComponentInstance) (now : Z) : program unit :=
  if negb (op_restoreTermination o) then Ret tt
  else
    catch
      (_ ← attempt (RestoreTermination i); _ ← markTerminationRestored i; clearRestorationFailure i)
      (λ _, recordRestorationFailure i now).

(** A component whose session nothing holds back. *)
Definition restore_session (i : ComponentInstance) (recovering : bool) (now : Z) : program unit :=
  let v := ci_value i in
  if bool_decide (i_lifecycle v = CpStarting) then
    if negb (op_restoreStarting o) then Ret tt
    else
      catch
        (e ← of_result (startingEffect i);
         _ ← attempt (RestoreStarting e);
         clearRestorationFailure i)
        (λ _, recordRestorationFailure i now)
  else
    isLive ← liveness o;
    let runs := bool_decide (i_lifecycle v = CpReady) || bool_decide (i_lifecycle v = CpDegraded) in
    if runs && isLive i then clearRestorationFailure i
    else
      authorization ←
        (if recovering
         then isLive ← liveness o; updatedAt ← effect Clock;
              transact (authorizeRecoveryEffect isLive updatedAt (target_of_instance i) (i_lifecycle v) (ci_revision i))
         else Ret Authorized);
      match authorization with
      | Authorized =>
          catch
            (_ ← attempt (RestoreComponent i);
             isLive ← liveness o;
             if runs && negb (isLive i) then Throw PlainError else clearRestorationFailure i)
            (λ _, recordRestorationFailure i now)
      | _ => effect Replan
      end.

Definition restore_instance (ds : list DesiredDeployment) (installations : list PluginInstallation)
    (instances : list ComponentInstance) (losses : list LoadedProviderLoss) (bindings : list LoadedCapabilityBinding)
    (now : Z) (i : ComponentInstance) : program unit :=
  let v := ci_value i in
  if requiresHistoricalTermination ds v then restore_termination i now
  else
    isLive ← liveness o;
    let hold := List.find (holds_back v) losses in
    let suspended :=
      match hold with
      | Some l => if bool_decide (pl_action (ll_value l) = suspend) then Some (ll_value l) else None
      | None => None
      end in
    let recovering :=
      match suspended with
      | Some l => bool_decide (recovery_of l (i_componentId v) = Some (ci_activation i))
      | None => false
      end in
    ready ← of_result (match suspended with
                       | Some l => recoveryPrerequisitesReady sha256 isLive l ds installations instances bindings
                       | None => Ok false
                       end);
    if recovering && negb ready then Ret tt
    else if negb recovering && (match hold with Some _ => true | None => false end) then
      if bool_decide (i_lifecycle v = CpPreparing) then Ret tt else restore_termination i now
    else
      eligible ← (if bool_decide (i_executor v = Remote) then isPersistedRemotePlacementEligible i ds installations else Ret true);
      if negb eligible then Ret tt else restore_session i recovering now.

(** The instances whose context is consistent; a check that throws ends the pass. *)
Fixpoint consistent (ds : list DesiredDeployment) (l : list LoadedComponentInstance) : result exn (list ComponentInstance) :=
  match l with
  | [] => Ok []
  | r :: l' =>
      good ← isInstanceContextConsistent sha256 r (map dd_deployment ds);
      rest ← consistent ds l';
      Ok (if (good : bool) then li_value r :: rest else rest)
  end.

Definition restorePersistedComponents (ds : list DesiredDeployment) (installations : list PluginInstallation)
    (loaded : list LoadedComponentInstance) (losses : list LoadedProviderLoss) (bindings : list LoadedCapabilityBinding)
    (now : Z) : program unit :=
  if negb (op_lifecycle o) then Ret tt
  else
    good ← of_result (consistent ds loaded);
    for_each (restore_instance ds installations (map li_value loaded) losses bindings now)
      (js_sort (λ a b, compareText (i_instanceId (ci_value a)) (i_instanceId (ci_value b)))
        (List.filter (restorable ds installations (toISOString now)) good)).

(** ** The pass, up to the settled losses *)
Definition reading {A} (f : records → A) : program A := s ← effect Look; Ret (f s).

Record Loaded := {
  ld_deployments : list DesiredDeployment;
  ld_installations : list PluginInstallation;
  ld_instances : list LoadedComponentInstance;
  ld_bindings : list LoadedCapabilityBinding;
  ld_losses : list LoadedProviderLoss;
}.
(** Five scans that are started together, each of a moment of its own. A reconciler that
    is given its own [loadDeployments] is taken to be given what the store holds. *)
Definition load_all : program Loaded :=
  ds ← reading loadDeployments;
  installations ← reading loadInstallations;
  scanned ← reading loadInstances;
  instances ← of_result scanned;
  bindings ← reading loadCapabilityBindings;
  losses ← reading loadProviderLosses;
  Ret {| ld_deployments := ds; ld_installations := installations; ld_instances := instances;
         ld_bindings := bindings; ld_losses := losses |}.

(** A record of the deployment whose context is not consistent. *)
Fixpoint any_inconsistent (ds : list DesiredDeployment) (d : PluginDeployment) (l : list LoadedComponentInstance) : result exn bool :=
  match l with
  | [] => Ok false
  | r :: l' =>
      rest ← any_inconsistent ds d l';
      if of_deployment d (li_value r) then
        good ← isInstanceContextConsistent sha256 r (map dd_deployment ds);
        Ok (negb good || rest)
      else Ok rest
  end.

(** The gates of the deployments, in order, or what the pass returns. *)
Fixpoint gate_all (l : Loaded) (instances : list ComponentInstance) (ds : list DesiredDeployment) (gates : gates_map)
  : program (gates_map + bool) :=
  match ds with
  | [] => Ret (inl gates)
  | d :: ds' =>
      invalid ← of_result (any_inconsistent (ld_deployments l) (dd_deployment d) (ld_instances l));
      if (invalid : bool) then gate_all l instances ds' gates
      else
        g ← gateDeployment domainToASCII o d (ld_deployments l) (ld_installations l) instances (ld_bindings l);
        running ← effect IsRunning;
        if negb running then Ret (inr false)
        else match g with
             | GateConflict => Ret (inr true)
             | _ => gate_all l instances ds' (JsMap.set gates (identityKey (identity_of (dd_deployment d))) g)
             end
  end.
Definition settle_evidence (l : Loaded) : program bool :=
  good ← of_result (consistent (ld_deployments l) (ld_instances l));
  gates ← gate_all l good (js_sort by_deployment (ld_deployments l)) [];
  match gates with
  | inr r => Ret r
  | inl gates =>
      reconcileProviderLosses domainToASCII sha256 o (ld_deployments l) (ld_installations l) good (ld_bindings l)
        (ld_losses l) gates
  end.

(** What is loaded, with the bindings of the current generations only; or what the pass
    returns, when it is stopped or cleaning up the others met a conflict. *)
Definition load_current : program (Loaded + bool) :=
  l ← load_all;
  running ← effect IsRunning;
  if negb running then Ret (inr false)
  else
    clean ← cleanupCapabilityBindings o (ld_deployments l) (ld_bindings l);
    if negb clean then Ret (inr true)
    else
      Ret (inl {| ld_deployments := ld_deployments l; ld_installations := ld_installations l;
                  ld_instances := ld_instances l;
                  ld_bindings := List.filter (λ b, isCurrentCapabilityBinding b (ld_deployments l)) (ld_bindings l);
                  ld_losses := ld_losses l |}).

(** [#reconcilePass] up to the plans: whether it returns at once, for another pass. The
    claim that is executed in between, when there is one, is a thread of its own; a claim
    that meets a conflict ends the pass. *)
Definition evidence_pass (now : Z) (claimed : bool) : program bool :=
  running ← effect IsRunning;
  if negb running then Ret false
  else
    loaded ← load_current;
    match loaded with
    | inr r => Ret r
    | inl l =>
        _ ← restorePersistedComponents (ld_deployments l) (ld_installations l) (ld_instances l) (ld_losses l)
              (ld_bindings l) now;
        running ← effect IsRunning;
        if negb running then Ret false
        else
          scanned ← reading loadInstances;
          instances ← of_result scanned;
          if claimed then
            running ← effect IsRunning;
            if negb running then Ret false
            else
              reloaded ← load_current;
              match reloaded with
              | inr r => Ret r
              | inl l => settle_evidence l
              end
          else
            settle_evidence {| ld_deployments := ld_deployments l; ld_installations := ld_installations l;
                               ld_instances := instances; ld_bindings := ld_bindings l; ld_losses := ld_losses l |}
    end.

(** The gate of a claimed effect, from evidence loaded anew. *)
Definition claim_gate (consumer : PluginDeploymentIdentity) : program (option gate_result) :=
  l ← load_all;
  good ← of_result (consistent (ld_deployments l) (ld_instances l));
  match find_deployment consumer (ld_deployments l) with
  | None => Ret None
  | Some d =>
      bindings ← reading loadCapabilityBindings;
      g ← gateDeployment domainToASCII o d (ld_deployments l) (ld_installations l) good bindings;
      Ret (Some g)
  end.
(** The transactions that begin and authorize a claimed effect. *)
Definition claim_begin (e : ReconcileEffect) (v : PersistedComponentInstance) (revision : Z) (exactRecoveryEffect : bool)
    (retryPreState : option ComponentLifecycleState) : program RecoveryEffectAuthorization :=
  isLive ← liveness o;
  updatedAt ← effect Clock;
  transact (beginEffect isLive updatedAt e v revision exactRecoveryEffect retryPreState).
Definition claim_authorize (e : ReconcileEffect) (l : ComponentLifecycleState) (revision : Z) : program RecoveryEffectAuthorization :=
  isLive ← liveness o;
  updatedAt ← effect Clock;
  transact (authorizeRecoveryEffect isLive updatedAt (target_of_effect e) l revision).

(** A reconciler that is given its deployments leaves the bindings and the losses alone:
    the environment a calm installation converges in. *)
Lemma given_deployments ds installations instances bindings losses gates :
  op_loadsDeployments o = true →
  cleanupCapabilityBindings o ds bindings = Ret true ∧
  reconcileProviderLosses domainToASCII sha256 o ds installations instances bindings losses gates = Ret false.
Proof. intros H. unfold cleanupCapabilityBindings, reconcileProviderLosses. by rewrite H. Qed.
(** So is a clean-up with nothing to clean. *)
Lemma current_bindings ds bindings :
  (∀ b, b ∈ bindings → isCurrentCapabilityBinding b ds = true) → cleanupCapabilityBindings o ds bindings = Ret true.
Proof.
  intros H. unfold cleanupCapabilityBindings. destruct (op_loadsDeployments o); [done|].
  assert (List.filter (λ b, negb (isCurrentCapabilityBinding b ds)) bindings = []) as ->; [|done].
  apply filterb_nil. intros b Hb. by rewrite (H b Hb).
Qed.
End restoration.

(** ** Histories

    Reconcilers run passes and claims over one store, which any process may change: it
    commits what it likes, except bindings and losses, which reconcilers alone write. *)
Inductive evidence_job :=
| Pass (o : ReconcilerOptions) (now : Z) (claimed : bool)
| ClaimGate (o : ReconcilerOptions) (consumer : PluginDeploymentIdentity)
| ClaimBegin (o : ReconcilerOptions) (e : ReconcileEffect) (v : PersistedComponentInstance) (revision : Z)
    (exactRecoveryEffect : bool) (retryPreState : option ComponentLifecycleState)
| ClaimAuthorize (o : ReconcilerOptions) (e : ReconcileEffect) (l : ComponentLifecycleState) (revision : Z).
Inductive evidence_event :=
| Starts (j : evidence_job)
| Runs (thread : nat) (a : answer)
| Outside (mutations : gmap record_key (option record * option Z)).

(** A record of the kind its collection holds. *)
Definition typed (k : record_key) (v : record) : bool :=
  match k, v with
  | DeploymentKey _, DeploymentRecord _ | InstallationKey _, InstallationRecord _ | InstanceKey _, InstanceRecord _
  | BindingKey _, BindingRecord _ | LossKey _, LossRecord _ | ObservationKey _, ObservationRecord _ => true
  | _, _ => false
  end.
Definition foreign (k : record_key) (value : option record) : bool :=
  match k with BindingKey _ | LossKey _ => false | _ => true end &&
  match value with Some v => typed k v | None => true end.

Section history.
Context (domainToASCII sha256 : jstring → jstring).

Definition unit_of {A} (p : program A) : program unit := _ ← p; Ret tt.
Definition start (j : evidence_job) : program unit :=
  match j with
  | Pass o now claimed => unit_of (evidence_pass domainToASCII sha256 o now claimed)
  | ClaimGate o consumer => unit_of (claim_gate domainToASCII sha256 o consumer)
  | ClaimBegin o e v revision exact pre => unit_of (claim_begin sha256 o e v revision exact pre)
  | ClaimAuthorize o e l revision => unit_of (claim_authorize sha256 o e l revision)
  end.
Abbreviation evidence_pool := (pool eff exn World unit).

Definition outside (mutations : gmap record_key (option record * option Z)) (w : World) : World :=
  if bool_decide (map_Forall (λ k m, foreign k m.1 = true) mutations) then
    match commit (w_store w) {| sg_snapshot := ∅; sg_mutations := mutations; sg_operations := []; sg_messages := [] |} with
    | Ok st => with_store st w
    | Err _ => w
    end
  else w.
Definition happens (p : evidence_pool) (e : evidence_event) : evidence_pool :=
  match e with
  | Starts j => Build_pool (p_world p) (p_threads p ++ [(tt, start j)])
  | Runs n a => run_at handle (λ _ : unit, Ret tt) n a p
  | Outside m => Build_pool (outside m (p_world p)) (p_threads p)
  end.
Definition history (es : list evidence_event) : evidence_pool := foldl happens (Build_pool new_world []) es.
End history.
