(* ===== verification/EvidenceTheorems.v ===== *)
(** * What reconcilers commit, and what they restore

    Every history of reconcilers over one store that other processes change as well:
    a loss is only made stronger, and is released only when the deployment is gone or
    of another generation, or when the bindings its consumer needs are there again and
    every provider of them is active in the snapshot of the transaction and has its
    components ready in the very store the release is committed to; a binding is
    written only to a provider that was ready; a component is restored only while its
    deployment wants it and no loss holds it back. *)

From S2P Require Import Prelude JsString Collections JsValue Identity Version Graph Resolver ResolverProofs Permission Lifecycle Placement Retry Plan PlanProofs Reconciler Async Evidence Bindings ProviderLoss Restoration.

Open Scope Z_scope.

(** ** What a commit may do *)

(** Records are of their collection's kind; losses and bindings are stored under the
    keys of what they are about. *)
Definition keyed_at (k : record_key) (v : record) : Prop :=
  typed k v = true ∧
  match k, v with
  | LossKey id, LossRecord l => id = identityKey (pl_consumer l)
  | BindingKey id, BindingRecord b => id = requirementKey (cb_consumer b) (cb_capability b)
  | _, _ => True
  end.
Definition keyed (st : EvidenceStore) : Prop := ∀ k v r, es_records st !! k = Some (v, r) → keyed_at k v.

(** An instance of the provider's component that is ready, of the generation. *)
Definition stored_ready (st : EvidenceStore) (provider : PluginDeploymentIdentity) (generation : jstring) (c : PluginComponent) : Prop :=
  ∃ id v r, es_records st !! InstanceKey id = Some (InstanceRecord v, r) ∧
    i_componentId v = pc_componentId c ∧ i_applicationId v = applicationId provider ∧ i_pluginId v = pluginId provider ∧
    i_deploymentGeneration v = generation ∧ i_lifecycle v = CpReady.

(** The provider is active in the snapshot of the transaction, every component of its
    installation ready in the store the transaction is committed to. *)
Definition provider_up (ms : list EvidenceStore) (snapshot : records) (before : EvidenceStore)
    (provider : PluginDeploymentIdentity) : Prop :=
  ∃ d r installation st,
    snapshot !! deploymentStateKey provider = Some (DeploymentRecord d, r) ∧ d_state (dd_deployment d) = Active ∧
    st ∈ ms ∧ installation ∈ loadInstallations (es_records st) ∧
    in_pluginId installation = pluginId provider ∧ in_digest installation = d_artifactDigest (dd_deployment d) ∧
    ∀ c, c ∈ mf_components (in_manifest installation) → stored_ready before provider (d_generation (dd_deployment d)) c.

(** The prerequisites of a loss are those of the needed requirements of the consumer's
    artifact, one each, and account for every capability and provider that was lost. *)
Definition covers (l : ProviderLoss) (requirements : list PluginCapabilityRequirement) : Prop :=
  match pl_bindingPrerequisites l with
  | None => requirements = [] ∧ pl_capabilities l = [] ∧ pl_providers l = []
  | Some ps =>
      NoDup (map bp_capability ps) ∧ map bp_capability ps ≡ₚ map rq_name requirements ∧
      (∀ c, c ∈ pl_capabilities l → c ∈ map bp_capability ps) ∧ ∀ y, y ∈ pl_providers l → y ∈ map bp_provider ps
  end.
(** The capability of a prerequisite is bound to its provider in the snapshot. *)
Definition bound_now (snapshot : records) (l : ProviderLoss) (p : ProviderRecoveryBindingPrerequisite) : Prop :=
  ∃ b r, snapshot !! BindingKey (requirementKey (pl_consumer l) (bp_capability p)) = Some (BindingRecord b, r) ∧
    cb_deploymentGeneration b = pl_deploymentGeneration l ∧ cb_provider b = bp_provider p.
(** The artifact of its provider offers it in a version of the range. *)
Definition offered (ms : list EvidenceStore) (p : ProviderRecoveryBindingPrerequisite) (requirement : PluginCapabilityRequirement) : Prop :=
  ∃ sd si provider i v, sd ∈ ms ∧ si ∈ ms ∧
    provider ∈ loadDeployments (es_records sd) ∧ identity_of (dd_deployment provider) = bp_provider p ∧
    installation_of provider (loadInstallations (es_records si)) = Some i ∧ v ∈ mf_provides (in_manifest i) ∧
    pr_name v = rq_name requirement ∧ satisfiesVersionRange (protocolVersion v) (rq_protocolRange requirement) = true.
Definition exact_now (ms : list EvidenceStore) (snapshot : records) (l : ProviderLoss) : Prop :=
  ∃ sd si consumer own, sd ∈ ms ∧ si ∈ ms ∧
    consumer ∈ loadDeployments (es_records sd) ∧ identity_of (dd_deployment consumer) = pl_consumer l ∧
    d_generation (dd_deployment consumer) = pl_deploymentGeneration l ∧
    installation_of consumer (loadInstallations (es_records si)) = Some own ∧
    covers l (needed (pl_capabilities l) (mf_requires (in_manifest own))) ∧
    ∀ p, p ∈ default [] (pl_bindingPrerequisites l) →
      bound_now snapshot l p ∧
      ∃ r, r ∈ needed (pl_capabilities l) (mf_requires (in_manifest own)) ∧ rq_name r = bp_capability p ∧ offered ms p r.

Inductive released (ms : list EvidenceStore) (snapshot : records) (before : EvidenceStore) (id : jstring) (l : ProviderLoss) : Prop :=
| ReleasedAbsent : es_records before !! DeploymentKey id = None → released ms snapshot before id l
| ReleasedSuperseded d r :
    snapshot !! DeploymentKey id = Some (DeploymentRecord d, r) →
    d_generation (dd_deployment d) ≠ pl_deploymentGeneration l → released ms snapshot before id l
| ReleasedRecovered d r :
    snapshot !! DeploymentKey id = Some (DeploymentRecord d, r) →
    d_generation (dd_deployment d) = pl_deploymentGeneration l → pl_action l ≠ fail → exact_now ms snapshot l →
    (∀ y, y ∈ pl_providers l ++ map bp_provider (default [] (pl_bindingPrerequisites l)) →
       ∃ provider, identityKey provider = identityKey y ∧ provider_up ms snapshot before provider) →
    released ms snapshot before id l.

Definition stronger (l l' : ProviderLoss) : Prop :=
  providerLossRank (pl_action l) ≤ providerLossRank (pl_action l') ∧
  (∀ c, c ∈ pl_capabilities l → c ∈ pl_capabilities l') ∧
  (∀ p, p ∈ pl_providers l → ∃ q, q ∈ pl_providers l' ∧ identityKey q = identityKey p).

Definition loss_change (ms : list EvidenceStore) (snapshot : records) (before : EvidenceStore) (id : jstring)
    (value : option record) : Prop :=
  match fst <$> es_records before !! LossKey id, value with
  | Some (LossRecord l), Some (LossRecord l') => id = identityKey (pl_consumer l') ∧ stronger l l'
  | None, Some (LossRecord l') => id = identityKey (pl_consumer l')
  | Some (LossRecord l), None => released ms snapshot before id l
  | _, _ => False
  end.

(** A provider of the consumer's application that is active, has every component ready,
    and offers the capability in a version a requirement of the consumer accepts. *)
Definition bound_to_ready (ms : list EvidenceStore) (b : PersistedCapabilityBinding) : Prop :=
  ∃ sd si sn d own requirement provider installation provision,
    sd ∈ ms ∧ si ∈ ms ∧ sn ∈ ms ∧
    d ∈ loadDeployments (es_records sd) ∧ identity_of (dd_deployment d) = cb_consumer b ∧
    d_generation (dd_deployment d) = cb_deploymentGeneration b ∧
    installation_of d (loadInstallations (es_records si)) = Some own ∧
    requirement ∈ mf_requires (in_manifest own) ∧ rq_name requirement = cb_capability b ∧
    provider ∈ loadDeployments (es_records sd) ∧ identity_of (dd_deployment provider) = cb_provider b ∧
    applicationId (cb_provider b) = applicationId (cb_consumer b) ∧ d_state (dd_deployment provider) = Active ∧
    candidate_installation d own (loadInstallations (es_records si)) provider = Some installation ∧
    (∀ c, c ∈ mf_components (in_manifest installation) →
       stored_ready sn (cb_provider b) (d_generation (dd_deployment provider)) c) ∧
    provision ∈ mf_provides (in_manifest installation) ∧ pr_name provision = cb_capability b ∧
    satisfiesVersionRange (protocolVersion provision) (rq_protocolRange requirement) = true.

Definition binding_change (ms : list EvidenceStore) (snapshot : records) (id : jstring) (value : option record) : Prop :=
  match value with
  | Some (BindingRecord b) =>
      id = requirementKey (cb_consumer b) (cb_capability b) ∧ bound_to_ready ms b ∧
      ∃ d r, snapshot !! deploymentStateKey (cb_consumer b) = Some (DeploymentRecord d, r) ∧
             d_generation (dd_deployment d) = cb_deploymentGeneration b
  | Some _ => False
  | None => True
  end.

(** A commit, given the stores there have been. *)
Definition lawful (ms : list EvidenceStore) (c : commit_event) : Prop :=
  ∀ k value expected, sg_mutations (ce_staged c) !! k = Some (value, expected) →
    match k with
    | LossKey id => loss_change ms (sg_snapshot (ce_staged c)) (ce_before c) id value
    | BindingKey id => binding_change ms (sg_snapshot (ce_staged c)) id value
    | _ => foreign k value = true
    end.

(** ** What may be restored *)
Section restorations.
Context (sha256 : jstring → jstring).

(** The deployment wants the instance, and a failed or suspended consumer is a suspended
    one that recovers with just this activation, the providers it lost and those it
    waits for all ready. *)
Definition ready_at (sd si sn : EvidenceStore) (provider : PluginDeploymentIdentity) : Prop :=
  ∃ d i, d ∈ loadDeployments (es_records sd) ∧ identity_of (dd_deployment d) = provider ∧
    d_state (dd_deployment d) = Active ∧ i ∈ loadInstallations (es_records si) ∧
    in_pluginId i = pluginId provider ∧ in_digest i = d_artifactDigest (dd_deployment d) ∧
    ∀ c, c ∈ mf_components (in_manifest i) → stored_ready sn provider (d_generation (dd_deployment d)) c.
Definition consumer_of (v : PersistedComponentInstance) : PluginDeploymentIdentity :=
  {| applicationId := i_applicationId v; pluginId := i_pluginId v |}.
Definition restorable_now (ms : list EvidenceStore) (i : ComponentInstance) : Prop :=
  let v := ci_value i in
  ∃ sd si sn sl instances,
    sd ∈ ms ∧ si ∈ ms ∧ sn ∈ ms ∧ sl ∈ ms ∧
    loadInstances (es_records sn) = Ok instances ∧ i ∈ map li_value instances ∧
    (∃ d, d ∈ loadDeployments (es_records sd) ∧ identity_of (dd_deployment d) = consumer_of v ∧
       d_state (dd_deployment d) = Active ∧ d_generation (dd_deployment d) = i_deploymentGeneration v ∧
       i_artifactDigest v = Some (d_artifactDigest (dd_deployment d))) ∧
    ∀ l, l ∈ map ll_value (loadProviderLosses (es_records sl)) →
      pl_consumer l = consumer_of v → pl_deploymentGeneration l = i_deploymentGeneration v → pl_action l ≠ degrade →
      pl_action l = suspend ∧
      (∃ a, pl_recoveryActivations l = Some a ∧ JsMap.get a (i_componentId v) = Some (ci_activation i)) ∧
      ∀ y, y ∈ pl_providers l ++ map bp_provider (default [] (pl_bindingPrerequisites l)) → ready_at sd si sn y.
Definition rightly (ms : list EvidenceStore) (r : restoration) : Prop :=
  match r with
  | RestoredComponent i => restorable_now ms i
  | RestoredStarting e => ∃ i, startingEffect sha256 i = Ok e ∧ restorable_now ms i
  | RestoredTermination _ => True
  end.

Record world_ok (w : World) : Prop := {
  wo_moments st : st ∈ moments w → evolves st (w_store w) ∧ dated st ∧ keyed st;
  wo_commits : Forall (lawful (moments w)) (w_commits w);
  wo_restorations : Forall (rightly (moments w)) (w_restorations w);
}.
Definition evo (w w' : World) : Prop := evolves (w_store w) (w_store w') ∧ moments w ⊆ moments w'.
#[local] Instance evo_preorder : PreOrder evo.
Proof.
  split; [intros w; split; [reflexivity|by intros x]|]. intros x y z [H1 H2] [H3 H4]. split; [by etrans|]. by etrans.
Qed.

(** ** The more moments, the more is lawful *)
Lemma provider_up_mono ms ms' s b p : ms ⊆ ms' → provider_up ms s b p → provider_up ms' s b p.
Proof. intros Hm (d & r & i & st & H1 & H2 & H3 & H4). exists d, r, i, st. split_and!; [done|done|by apply Hm|apply H4..]. Qed.
Lemma exact_now_mono ms ms' s l : ms ⊆ ms' → exact_now ms s l → exact_now ms' s l.
Proof.
  intros Hm (sd & si & c & own & H1 & H2 & H3 & H4 & H5 & H6 & H7 & H8). exists sd, si, c, own.
  split_and!; [by apply Hm|by apply Hm|done..|]. intros p Hp. destruct (H8 p Hp) as (Hb & r & Hr & Er & Ho).
  split; [done|]. exists r. split_and!; [done|done|].
  destruct Ho as (sd' & si' & d' & i & v & K1 & K2 & K). exists sd', si', d', i, v. split_and!; try apply K; by apply Hm.
Qed.
Lemma released_mono ms ms' s b id l : ms ⊆ ms' → released ms s b id l → released ms' s b id l.
Proof.
  intros Hm [H|d r H1 H2|d r H1 H2 H3 H4 H5]; [by apply ReleasedAbsent|by eapply ReleasedSuperseded|].
  eapply ReleasedRecovered; [done..|by eapply exact_now_mono|]. intros p Hp. destruct (H5 p Hp) as (q & Eq & Hq). exists q.
  split; [done|by eapply provider_up_mono].
Qed.
Lemma bound_to_ready_mono ms ms' b : ms ⊆ ms' → bound_to_ready ms b → bound_to_ready ms' b.
Proof.
  intros Hm (sd & si & sn & d & own & rq & p & i & v & H1 & H2 & H3 & H).
  exists sd, si, sn, d, own, rq, p, i, v. split_and!; try apply H; by apply Hm.
Qed.
Lemma lawful_mono ms ms' c : ms ⊆ ms' → lawful ms c → lawful ms' c.
Proof.
  intros Hm H k v e Hk. specialize (H k v e Hk). destruct k; try done.
  - unfold binding_change in *. destruct v as [[]|]; try done. destruct H as (? & ? & ?).
    split_and!; [done|by eapply bound_to_ready_mono|done].
  - unfold loss_change in *. destruct (fst <$> _) as [[]|]; try done. destruct v as [[]|]; try done.
    by eapply released_mono.
Qed.
Lemma rightly_mono ms ms' r : ms ⊆ ms' → rightly ms r → rightly ms' r.
Proof.
  assert (ms ⊆ ms' → ∀ i, restorable_now ms i → restorable_now ms' i) as Hi.
  { intros Hm i (sd & si & sn & sl & ins & H1 & H2 & H3 & H4 & H).
    exists sd, si, sn, sl, ins. split_and!; try apply H; by apply Hm. }
  intros Hm. destruct r; cbn; [done| |by apply Hi]. intros (i & E & H). exists i. auto.
Qed.

(** A lawful commit keeps the keys right. *)
Lemma lawful_keyed st t st' ms :
  keyed st → commit st t = Ok st' → lawful ms {| ce_staged := t; ce_before := st |} → keyed st'.
Proof.
  intros Hk Hc Hl k v r. rewrite (commit_lookup _ _ _ k Hc).
  destruct (sg_mutations t !! k) as [[[x|] e]|] eqn:E; cbn; [|done|apply Hk].
  intros [= <- <-]. specialize (Hl k _ _ E). unfold keyed_at. destruct k; cbn in Hl |- *; try (by destruct x).
  - unfold binding_change in Hl. destruct x; try done. by split; [|apply Hl].
  - unfold loss_change in Hl. destruct (fst <$> _) as [[]|]; try done; destruct x; try done; by split; [|apply Hl].
Qed.

(** ** One program *)
Abbreviation runs := (wp (X := exn) handle world_ok evo (λ _ _ _, True) tt).
Abbreviation safe := (λ p, runs p (λ _ _, True)).

(** A transaction decided at [w] is lawful whenever it commits later. *)
Definition decided (w : World) (t : Staged) : Prop :=
  ∀ w' st', evo w w' → world_ok w' → commit (w_store w') t = Ok st' →
    lawful (moments w') {| ce_staged := t; ce_before := w_store w' |}.

Lemma dated_now w : world_ok w → dated (w_store w).
Proof. intros H. apply (wo_moments _ H). by left. Qed.
Lemma keyed_now w : world_ok w → keyed (w_store w).
Proof. intros H. apply (wo_moments _ H). by left. Qed.

(** The world after a commit, of a thread or of another process. *)
Lemma moment_step_ok w st (cs : list commit_event) :
  world_ok w → evolves (w_store w) st → dated st → keyed st →
  Forall (lawful (moments w)) cs →
  let w' := {| w_store := st; w_past := w_store w :: w_past w; w_commits := w_commits w ++ cs;
               w_restorations := w_restorations w; w_replans := w_replans w; w_diagnostics := w_diagnostics w |} in
  world_ok w' ∧ evo w w'.
Proof.
  intros Hw He Hd Hk Hcs w'. assert (moments w ⊆ moments w') as Hm by (intros x; by right).
  split; [|by split]. constructor.
  - intros x [->|Hx]%elem_of_cons; [done|]. destruct (wo_moments _ Hw x Hx) as (? & ? & ?).
    split_and!; [by etrans|done|done].
  - apply Forall_app. split; (eapply Forall_impl; [|by intros c; apply lawful_mono]); [apply Hw|done].
  - eapply Forall_impl; [apply Hw|]. intros r. by apply rightly_mono.
Qed.
Lemma committed_ok w t st :
  world_ok w → commit (w_store w) t = Ok st → lawful (moments w) {| ce_staged := t; ce_before := w_store w |} →
  world_ok (committed st t w) ∧ evo w (committed st t w).
Proof.
  intros Hw Hc Hl. pose proof (commit_evolves _ _ _ (dated_now _ Hw) Hc) as [? ?].
  apply moment_step_ok; [done..| |by constructor]. by eapply lawful_keyed; [apply keyed_now|..].
Qed.
Lemma restored_ok w r : world_ok w → rightly (moments w) r → world_ok (restored r w) ∧ evo w (restored r w).
Proof.
  intros Hw Hr. split; [|by split; [reflexivity|intros x]]. constructor; [apply Hw|apply Hw|]. apply Forall_app. split; [apply Hw|by constructor].
Qed.

Lemma safe_ret {A} (a : A) w : safe (Ret a : program A) w.
Proof. done. Qed.
Lemma safe_throw {A} e w : safe (Throw e : program A) w.
Proof. done. Qed.
Lemma safe_result {A} (r : result exn A) w : safe (of_result r : program A) w.
Proof. by destruct r. Qed.
Lemma safe_bind {A B} (p : program A) (f : A → program B) w :
  world_ok w → safe p w → (∀ a w', evo w w' → world_ok w' → safe (f a) w') → safe (p ≫= f) w.
Proof.
  intros Hw Hp Hf. apply wp_bind; [apply _|done|]. eapply wp_mono; [apply _| |exact Hp]. cbn. intros [a|e] w' HR Hw' _; [by apply Hf|done].
Qed.
Lemma safe_result_bind {A B} (r : result exn A) (f : A → program B) w :
  (∀ a, r = Ok a → safe (f a) w) → safe (of_result r ≫= f) w.
Proof. destruct r; [|done]. intros H. by apply H. Qed.
Lemma safe_catch {A} (p : program A) (h : exn → program A) w :
  world_ok w → safe p w → (∀ e w', evo w w' → world_ok w' → safe (h e) w') → safe (catch p h) w.
Proof.
  intros Hw Hp Hh. apply wp_catch; [apply _|done|]. eapply wp_mono; [apply _| |exact Hp]. cbn. intros [a|e] w' HR Hw' _; [done|by apply Hh].
Qed.

(** Effects that only ask, or that leave no trace to justify. *)
Definition quiet {B} (e : eff B) : bool :=
  match e with CommitStaged _ | RestoreStarting _ | RestoreComponent _ => false | _ => true end.
Lemma quiet_ok {B} (e : eff B) a w b w' js :
  world_ok w → quiet e = true → handle tt a w B e = Some (b, w', js) → world_ok w' ∧ evo w w' ∧ Forall (λ _, True) js.
Proof.
  intros Hw Hq. assert (evo w w) as Hr by reflexivity.
  destruct e; cbn in Hq |- *; try done; intros [= <- <- <-]; split_and!; try done;
    solve [by constructor; apply Hw|by apply (restored_ok w (RestoredTermination i))].
Qed.
Lemma safe_quiet {A B} (e : eff B) (k : B → program A) w :
  quiet e = true → (∀ b w', evo w w' → world_ok w' → safe (k b) w') → safe (effect e ≫= k) w.
Proof.
  intros Hq Hk a w1 b w2 js H1 Hw1 Eh. destruct (quiet_ok e a w1 b w2 js Hw1 Hq Eh) as (H2 & HR & Hjs).
  split; [done|split; [done|split; [done|]]]. apply Hk; [|done]. by etrans.
Qed.
Lemma safe_effect {B} (e : eff B) w : quiet e = true → safe (effect e) w.
Proof.
  intros Hq a w1 b w2 js H1 Hw1 Eh. destruct (quiet_ok e a w1 b w2 js Hw1 Hq Eh) as (H2 & HR & Hjs). done.
Qed.
(** A look at the store is a look at one of the moments. *)
Lemma safe_look {A} (k : records → program A) Q w :
  (∀ w', evo w w' → world_ok w' → runs (k (es_records (w_store w'))) Q w') → runs (effect Look ≫= k) Q w.
Proof. intros Hk a w1 b w2 js H1 Hw1 [= <- <- <-]. split; [done|split; [reflexivity|split; [by constructor|by apply Hk]]]. Qed.

Lemma safe_commit t w : world_ok w → decided w t → safe (attempt (CommitStaged t)) w.
Proof.
  intros Hw Hd a w1 b w2 js H1 Hw1. cbn. unfold run_commit. destruct (commit (w_store w1) t) as [st|e] eqn:Ec.
  - pose proof (committed_ok _ _ _ Hw1 Ec (Hd _ _ H1 Hw1 Ec)) as [H2 H3].
    destruct (an_fails a) as [e|]; [destruct (an_commits a)|]; intros [= <- <- <-];
      (split; [done|split; [first [done|reflexivity]|split; [by constructor|by apply safe_result]]]).
  - intros [= <- <- <-]. split; [done|split; [reflexivity|split; [by constructor|by apply safe_result]]].
Qed.
Lemma safe_transact {A} (work : tx A) w :
  world_ok w →
  (∀ w', evo w w' → world_ok w' →
     txwp work (λ _ t, decided w' t) (new_transaction (es_records (w_store w')))) →
  safe (transact work) w.
Proof.
  intros Hw Hd. unfold transact. apply safe_look. intros w1 H1 Hw1.
  destruct (work _) as [[x t]|e] eqn:E; [|done]. apply safe_bind; [done| |done].
  apply safe_commit; [done|]. by eapply Hd.
Qed.
Lemma safe_on_conflict {A} (value : A) (p : program A) w : world_ok w → safe p w → safe (on_conflict value p) w.
Proof.
  intros Hw Hp. apply safe_catch; [done..|]. intros e w1 H1 Hw1. case_bool_decide; [|done].
  by apply safe_quiet.
Qed.
Lemma safe_each {A B} (f : A → program (option B)) xs w :
  world_ok w → (∀ x w', x ∈ xs → evo w w' → world_ok w' → safe (f x) w') → safe (each f xs) w.
Proof.
  revert w. induction xs as [|x xs IH]; intros w Hw Hf; cbn [each]; [done|].
  apply safe_bind; [done|apply Hf; [by left|done|done]|]. intros [r|] w1 H1 Hw1; [done|].
  apply IH; [done|]. intros y w2 Hy H2 Hw2. apply Hf; [by right|by etrans|done].
Qed.
Lemma safe_for_each {A} (f : A → program unit) xs w :
  world_ok w → (∀ x w', x ∈ xs → evo w w' → world_ok w' → safe (f x) w') → safe (for_each f xs) w.
Proof.
  intros Hw Hf. apply safe_bind; [done| |done]. apply safe_each; [done|]. intros x w1 Hx H1 Hw1.
  apply safe_bind; [done|by apply Hf|done].
Qed.
Lemma safe_attempts n (body : program bool) w :
  world_ok w → (∀ w', evo w w' → world_ok w' → safe body w') → safe (attempts n body) w.
Proof.
  revert w. induction n as [|n IH]; intros w Hw Hb; cbn [attempts]; [done|].
  apply safe_bind; [done|by apply Hb|]. intros [] w1 H1 Hw1; [done|]. apply IH; [done|].
  intros w2 H2. apply Hb. by etrans.
Qed.
Lemma safe_liveness (o : ReconcilerOptions) {A} (k : (ComponentInstance → bool) → program A) w :
  world_ok w → (∀ f w', evo w w' → world_ok w' → safe (k f) w') → safe (liveness o ≫= k) w.
Proof. intros Hw Hk. unfold liveness. destruct (op_lifecycle o); [by apply safe_quiet|by apply Hk]. Qed.

(** Transactions that touch neither bindings nor losses. *)
Definition all_foreign (t : Staged) : Prop := ∀ k m, sg_mutations t !! k = Some m → foreign k m.1 = true.
Lemma foreign_new s : all_foreign (new_transaction s).
Proof. intros k m. cbn. by rewrite lookup_empty. Qed.
Lemma foreign_stage key value expected t (Q : unit → Staged → Prop) :
  foreign key value = true → all_foreign t → (∀ t', all_foreign t' → Q tt t') → txwp (stage key value expected) Q t.
Proof.
  intros Hf Ht HQ. apply txwp_stage, HQ. intros k m. cbn. rewrite lookup_insert_Some. intros [[<- <-]|[_ Hm]]; [done|].
  by apply Ht.
Qed.
Lemma foreign_decided w t : all_foreign t → decided w t.
Proof. intros H w' st' _ _ _ k v e Hk. specialize (H _ _ Hk). by destruct k. Qed.

(** ** Losses *)

(** What a committed mutation expected of a record that some moment had under that
    revision: it is that record still. *)
Lemma still_there w st k v r t st' x :
  world_ok w → st ∈ moments w → es_records st !! k = Some (v, r) →
  commit (w_store w) t = Ok st' → sg_mutations t !! k = Some (x, Some r) →
  es_records (w_store w) !! k = Some (v, r).
Proof.
  intros Hw Hst Hk Hc Ht. pose proof (commit_expected _ _ _ _ _ _ Hc Ht) as He.
  destruct (es_records (w_store w) !! k) as [[v' r']|] eqn:E; [|done]. injection He as ->.
  destruct (wo_moments _ Hw st Hst) as (Hev & Hd & _). by rewrite (evolves_same _ _ _ _ _ _ Hev Hd Hk E).
Qed.
Lemma moment_later w w' st : evo w w' → st ∈ moments w → st ∈ moments w'.
Proof. intros [_ H]. apply H. Qed.
Lemma now_moment w : w_store w ∈ moments w.
Proof. by left. Qed.
#[local] Hint Resolve moment_later now_moment : core.
Lemma stronger_refl l : stronger l l.
Proof. split_and!; [done|done|]. intros p Hp. by exists p. Qed.

(** *** Authorizing a recovery *)
Definition recovery_staged (s : records) (t : Staged) : Prop :=
  sg_snapshot t = s ∧
  ∀ k m, sg_mutations t !! k = Some m → foreign k m.1 = true ∨
    ∃ l r u, s !! k = Some (LossRecord l, r) ∧ k = providerLossKey (pl_consumer l) ∧
             m = (Some (LossRecord (with_recovery l None u)), Some r).
Lemma recovery_new s : recovery_staged s (new_transaction s).
Proof. split; [done|]. intros k m. cbn. by rewrite lookup_empty. Qed.
Lemma recovery_foreign s t key value expected (Q : unit → Staged → Prop) :
  recovery_staged s t → foreign key value = true → (∀ t', recovery_staged s t' → Q tt t') → txwp (stage key value expected) Q t.
Proof.
  intros [Hs Ht] Hf HQ. apply txwp_stage, HQ. split; [done|]. intros k m. cbn. rewrite lookup_insert_Some.
  intros [[<- <-]|[_ Hm]]; [by left|]. by apply Ht.
Qed.
Lemma authorize_staged isLive u x l rev st :
  keyed st → txwp (authorizeRecoveryEffect sha256 isLive u x l rev) (λ _ t, recovery_staged (es_records st) t) (new_transaction (es_records st)).
Proof.
  intros Hk. unfold authorizeRecoveryEffect. pose proof (recovery_new (es_records st)) as Hn.
  apply txwp_bind, txwp_get. rewrite (fencing_view _ _ (fencing_new _)).
  destruct (fetch pick_loss _ _) as [[loss r]|] eqn:E; [|by apply txwp_ret].
  apply fetch_some in E as (y & E & ->%pick_loss_some). destruct (negb _ || negb _ || negb _); [by apply txwp_ret|].
  apply txwp_bind. intros e t' Ee. apply bind_ok in Ee as (instances & _ & Ee). injection Ee as <- <-.
  destruct (List.find _ _) as [i|]; [|by apply txwp_ret]. destruct (negb (bool_decide _)); [by apply txwp_ret|].
  destruct (negb (_ =? _)); [by apply txwp_ret|]. apply txwp_bind.
  assert (∀ b, txwp (if b : bool then mret Authorized
    else _ ← put (providerLossKey (pl_consumer loss)) (LossRecord (with_recovery loss None u)) (Some r);
         _ ← put (InstanceKey (rt_instanceId x)) (InstanceRecord (settled_instance CpStopped (ci_value i))) (Some rev);
         mret Abandoned) (λ _ t, recovery_staged (es_records st) t) (new_transaction (es_records st))) as Hend.
  { intros []; [by apply txwp_ret|]. apply txwp_bind, txwp_stage, txwp_bind. eapply recovery_foreign; [|done|].
    - split; [done|]. intros k m. cbn. rewrite lookup_insert_Some. intros [[<- <-]|[_ Hm]].
      + right. exists loss, r, u. split_and!; [|done|done]. pose proof (Hk _ _ _ E) as [_ Hid]. cbn in Hid.
        unfold providerLossKey. by rewrite <- Hid.
      + by rewrite lookup_empty in Hm.
    - intros t' Ht'. by apply txwp_ret. }
  destruct (consumer_matches _ _); [apply txwp_result; intros b _; exact (Hend b)|apply txwp_ret; exact (Hend false)].
Qed.
Lemma recovery_decided w t : world_ok w → recovery_staged (es_records (w_store w)) t → decided w t.
Proof.
  intros Hw [_ Ht] w' st' He Hw' Hc k v e Hk. destruct (Ht _ _ Hk) as [Hf|(l & r & u & El & -> & [= -> ->])]; [by destruct k|].
  cbn. pose proof (still_there _ _ _ _ _ _ _ _ Hw' (moment_later _ _ _ He (now_moment w)) El Hc Hk) as Eb.
  unfold loss_change, providerLossKey in *. rewrite Eb. cbn. split; [done|exact (stronger_refl l)].
Qed.
Lemma safe_authorize isLive u x l rev w :
  world_ok w → safe (transact (authorizeRecoveryEffect sha256 isLive u x l rev)) w.
Proof.
  intros Hw. apply safe_transact; [done|]. intros w1 H1 Hw1.
  eapply txwp_mono; [by apply authorize_staged, keyed_now|]. intros a t. by apply recovery_decided.
Qed.
Lemma safe_begin isLive u e v rev exact pre w :
  world_ok w → safe (transact (beginEffect sha256 isLive u e v rev exact pre)) w.
Proof.
  intros Hw. apply safe_transact; [done|]. intros w1 H1 Hw1.
  eapply txwp_mono; [|intros a t; by apply (recovery_decided w1)]. unfold beginEffect. apply txwp_bind.
  eapply (txwp_mono _ (λ _ t, recovery_staged (es_records (w_store w1)) t)).
  { destruct exact; [by apply authorize_staged, keyed_now|apply txwp_ret, recovery_new]. }
  intros [] t Ht; try by apply txwp_ret. apply txwp_bind.
  eapply (txwp_mono _ (λ _ t, recovery_staged (es_records (w_store w1)) t)).
  { destruct pre; [eapply recovery_foreign; [done|done|auto]|by apply txwp_ret]. }
  intros [] t1 H2. apply txwp_bind. intros [] t2 [= <-]. by apply txwp_ret.
Qed.

(** *** Orphans *)

(** The losses a program has loaded. *)
Definition losses_from (w : World) (losses : list LoadedProviderLoss) : Prop :=
  ∃ st, st ∈ moments w ∧ ∀ l, l ∈ losses → l ∈ loadProviderLosses (es_records st).
Lemma losses_later w w' losses : evo w w' → losses_from w losses → losses_from w' losses.
Proof. intros He (st & Hst & H). exists st. eauto. Qed.
(** A loss under its key: what is committed over its revision is committed over it. *)
Lemma loaded_loss w losses l :
  world_ok w → losses_from w losses → l ∈ losses →
  ∃ st, st ∈ moments w ∧ ll_key l = LossKey (identityKey (pl_consumer (ll_value l))) ∧
        es_records st !! ll_key l = Some (LossRecord (ll_value l), ll_revision l).
Proof.
  intros Hw (st & Hst & H) Hl. apply H, elem_of_loadProviderLosses in Hl as (id & Ek & E). exists st.
  destruct (wo_moments _ Hw st Hst) as (_ & _ & Hk). pose proof (Hk _ _ _ E) as [_ Hid]. cbn in Hid. subst id.
  split_and!; [done|done|]. by rewrite Ek.
Qed.
Lemma deleted_loss w st t st' l x :
  world_ok w → st ∈ moments w → ll_key l = LossKey (identityKey (pl_consumer (ll_value l))) →
  es_records st !! ll_key l = Some (LossRecord (ll_value l), ll_revision l) →
  commit (w_store w) t = Ok st' → sg_mutations t !! ll_key l = Some (x, Some (ll_revision l)) →
  es_records (w_store w) !! LossKey (identityKey (pl_consumer (ll_value l))) = Some (LossRecord (ll_value l), ll_revision l).
Proof. intros Hw Hst <- E Hc Hm. by eapply still_there. Qed.

Definition orphan_staged (losses : list LoadedProviderLoss) (t : Staged) : Prop :=
  ∀ k m, sg_mutations t !! k = Some m →
    (∃ i, k = deploymentStateKey i ∧ m = (None, None)) ∨
    ∃ l, l ∈ losses ∧ k = ll_key l ∧ m = (None, Some (ll_revision l)) ∧
         sg_mutations t !! deploymentStateKey (pl_consumer (ll_value l)) = Some (None, None).
Lemma orphan_staged_one losses l t :
  l ∈ losses → ll_key l = LossKey (identityKey (pl_consumer (ll_value l))) → orphan_staged losses t →
  txwp (remove_orphan l) (λ _ t', orphan_staged losses t') t.
Proof.
  intros Hl Hk Ht. apply txwp_bind, txwp_stage, txwp_stage. intros k m. cbn.
  set (dk := deploymentStateKey (pl_consumer (ll_value l))).
  assert (ll_key l ≠ dk) as Hne by (rewrite Hk; done).
  assert (∀ i, <[ll_key l := (None, Some (ll_revision l))]> (<[dk := (None, None)]> (sg_mutations t)) !! deploymentStateKey i =
               <[dk := (None, None)]> (sg_mutations t) !! deploymentStateKey i) as Hd.
  { intros i. apply lookup_insert_ne. by rewrite Hk. }
  rewrite lookup_insert_Some, lookup_insert_Some. intros [[<- <-]|[_ [[<- <-]|[_ Hm]]]].
  - right. exists l. rewrite Hd, lookup_insert_eq. done.
  - left. by eexists.
  - destruct (Ht _ _ Hm) as [H|(l' & H1 & H2 & H3 & H4)]; [by left|right]. exists l'. rewrite Hd.
    split_and!; [done..|]. by destruct (decide (dk = deploymentStateKey (pl_consumer (ll_value l')))) as [->|Hn];
      [rewrite lookup_insert_eq|rewrite lookup_insert_ne].
Qed.
Lemma safe_orphans ds loaded w :
  world_ok w → losses_from w loaded → safe (cleanupOrphanProviderLosses ds loaded) w.
Proof.
  intros Hw Hl. unfold cleanupOrphanProviderLosses.
  assert (∀ l, l ∈ List.filter (orphaned ds) loaded → l ∈ loaded) as Hin by (intros l [? _]%elem_of_filterb; done).
  destruct (List.filter (orphaned ds) loaded) as [|x losses]; [done|].
  apply safe_on_conflict; [done|]. apply safe_bind; [done| |intros [] w1 H1 Hw1; [done|by apply safe_quiet]].
  apply safe_transact; [done|]. intros w1 H1 Hw1. pose proof (losses_later _ _ _ H1 Hl) as Hl1.
  assert (txwp (orphan_work (x :: losses)) (λ _ t, orphan_staged (x :: losses) t)
    (new_transaction (es_records (w_store w1)))) as Hwork.
  { apply txwp_bind. eapply txwp_mono.
    - apply (txwp_every_inv still_absent (orphan_staged (x :: losses))).
      + intros l t _ Ht. apply txwp_bind, txwp_get, txwp_ret, Ht.
      + intros k m. cbn. by rewrite lookup_empty.
    - intros [] t Ht; [|by apply txwp_ret]. apply txwp_bind.
      eapply txwp_mono; [apply (txwp_each_inv remove_orphan (orphan_staged (x :: losses))); [|done]|].
      + intros l t' Hlx Ht'. destruct (loaded_loss w1 loaded l Hw1 Hl1 (Hin l Hlx)) as (st & _ & Hk & _).
        by apply orphan_staged_one.
      + intros [] t' Ht'. by apply txwp_ret. }
  eapply txwp_mono; [exact Hwork|]. intros a t Ht w2 st' H2 Hw2 Hc k v e Hk.
  destruct (Ht _ _ Hk) as [(i & -> & [= -> ->])|(l & Hlx & -> & [= -> ->] & Hd)]; [done|].
  destruct (loaded_loss w1 loaded l Hw1 Hl1 (Hin l Hlx)) as (st & Hst & Ek & El). rewrite Ek. cbn. unfold loss_change.
  rewrite (deleted_loss w2 st t st' l None Hw2 (moment_later _ _ _ H2 Hst) Ek El Hc Hk). cbn.
  apply ReleasedAbsent. pose proof (commit_expected _ _ _ _ _ _ Hc Hd) as Hx. unfold deploymentStateKey in Hx.
  by destruct (es_records (w_store w2) !! DeploymentKey (identityKey (pl_consumer (ll_value l)))) as [[]|].
Qed.

(** *** The work on one loss *)

(** Only fences, and only of instances. *)
Definition fences (s : records) (t : Staged) : Prop :=
  fencing s t ∧ ∀ k m, sg_mutations t !! k = Some m → ∃ id, k = InstanceKey id.
Lemma fences_new s : fences s (new_transaction s).
Proof. split; [apply fencing_new|]. intros k m. cbn. by rewrite lookup_empty. Qed.
Lemma fences_foreign st t : keyed st → fences (es_records st) t → all_foreign t.
Proof.
  intros Hk [[_ Hf] H] k m Hm. pose proof (Hf _ _ Hm) as ->. destruct (H _ _ Hm) as [id ->]. cbn.
  destruct (es_records st !! InstanceKey id) as [[v r]|] eqn:E; [|done]. by destruct (Hk _ _ _ E).
Qed.
Lemma fences_stage s t id value expected (Q : unit → Staged → Prop) :
  fences s t → (value, expected) = (fst <$> s !! InstanceKey id, snd <$> s !! InstanceKey id) →
  (∀ t', fences s t' → (∀ k, is_Some (sg_mutations t !! k) → is_Some (sg_mutations t' !! k)) →
     is_Some (sg_mutations t' !! InstanceKey id) → Q tt t') →
  txwp (stage (InstanceKey id) value expected) Q t.
Proof.
  intros [[Hs Hf] Hi] Hv HQ. apply txwp_stage, HQ; cbn.
  - split; [split; [done|]|]; intros k m; cbn; rewrite lookup_insert_Some; intros [[<- <-]|[_ Hm]]; eauto.
  - intros k Hk. destruct (decide (k = InstanceKey id)) as [->|Hn]; [by rewrite lookup_insert_eq|by rewrite lookup_insert_ne].
  - by rewrite lookup_insert_eq.
Qed.

Lemma moving_ok s l t :
  fencing s t →
  txwp (moving_instances l) (λ r t', t' = t ∧
    ∀ ms x, r = Some ms → x ∈ ms → s !! InstanceKey x.1.1 = Some (InstanceRecord x.1.2, x.2)) t.
Proof.
  intros Hf. induction l as [|i l IH]; cbn [moving_instances].
  - apply txwp_ret. split; [done|]. by intros ms x [= <-] ?%elem_of_nil.
  - apply txwp_bind. apply txwp_bind, txwp_get, txwp_ret. rewrite (fencing_view _ _ Hf).
    destruct (fetch pick_instance s _) as [[v r]|] eqn:E; [|by apply txwp_ret].
    apply fetch_some in E as (y & E & ->%pick_instance_some).
    destruct (r =? ci_revision i); [|by apply txwp_ret]. apply txwp_bind. eapply txwp_mono; [exact IH|].
    intros ms t' [-> Hms]. apply txwp_ret. split; [done|]. intros ms' x Ems Hx. destruct ms as [ms|]; [|done].
    injection Ems as <-. apply elem_of_cons in Hx as [->|Hx]; [done|]. by eapply Hms.
Qed.
Lemma fence_stopped_ok s g i t : fences s t → txwp (fence_stopped g i) (λ _ t', fences s t') t.
Proof.
  intros Hf. destruct i as [i|]; [|by apply txwp_ret]. apply txwp_bind, txwp_get. rewrite (fencing_view _ _ (proj1 Hf)).
  destruct (fetch pick_instance s _) as [[v r]|] eqn:E; [|by apply txwp_ret].
  apply fetch_some in E as (y & E & ->%pick_instance_some). destruct (r =? ci_revision i) eqn:Er; [|by apply txwp_ret].
  apply Z.eqb_eq in Er. subst r. cbn [negb]. apply txwp_bind, txwp_result. intros a _.
  destruct (negb _ || negb _ || negb _); [by apply txwp_ret|]. apply txwp_bind.
  eapply fences_stage; [done|by rewrite E|]. intros t' H _ _. by apply txwp_ret.
Qed.
Lemma fence_latest_ok s d p t : fences s t → txwp (fence_latest d p) (λ _ t', fences s t') t.
Proof.
  intros Hf. unfold fence_latest. case_bool_decide; [by apply txwp_ret|]. apply txwp_every_inv; [|done].
  intros i t' _. apply fence_stopped_ok.
Qed.

(** A component's evidence, seen again, and staged or about to move. *)
Definition fenced (s : records) (moving : list jstring) (e : ProviderComponentEvidence) (t : Staged) : Prop :=
  ∀ i, pe_instance e = Some i →
    (∃ v a, s !! InstanceKey (pe_key e) = Some (InstanceRecord v, ci_revision i) ∧ same_evidence i v a = true) ∧
    (pe_key e ∈ moving ∨ is_Some (sg_mutations t !! InstanceKey (pe_key e))).
Lemma fence_component_ok st moving e t :
  let s := es_records st in
  keyed st → fences s t →
  txwp (fence_component moving e) (λ b t', fences s t' ∧ (b = true → fenced s moving e t') ∧
    ∀ y, fenced s moving y t → fenced s moving y t') t.
Proof.
  intros s Hkeyed Hf. unfold fence_component. apply txwp_bind, txwp_get. rewrite (fencing_view _ _ (proj1 Hf)).
  assert (∀ t', (∀ k, is_Some (sg_mutations t !! k) → is_Some (sg_mutations t' !! k)) →
    ∀ y, fenced s moving y t → fenced s moving y t') as Hk.
  { intros t' H y Hy i Ei. destruct (Hy i Ei) as [H1 [H2|H2]]; split; auto. }
  destruct (pe_instance e) as [i|] eqn:Ei, (fetch pick_instance s _) as [[v r]|] eqn:E.
  - apply fetch_some in E as (y & E & ->%pick_instance_some).
    destruct (r =? ci_revision i) eqn:Er; [|by apply txwp_ret]. apply Z.eqb_eq in Er. subst r.
    destruct (streq (i_instanceId v) _); [|by apply txwp_ret]. cbn [negb orb].
    apply txwp_bind, txwp_result. intros a _. destruct (same_evidence i v a) eqn:Es; [|by apply txwp_ret]. cbn [negb].
    assert (∀ t', (pe_key e ∈ moving ∨ is_Some (sg_mutations t' !! InstanceKey (pe_key e))) → fenced s moving e t') as Hend.
    { intros t' H j Ej. assert (j = i) as -> by congruence. split; [by exists v, a|done]. }
    destruct (includes moving (pe_key e)) eqn:Em.
    + apply includes_true in Em. apply txwp_ret. auto.
    + apply txwp_bind. eapply fences_stage; [done|by rewrite E|]. intros t' H1 H2 H3. apply txwp_ret. auto.
  - by apply txwp_ret.
  - by apply txwp_ret.
  - assert (s !! InstanceKey (pe_key e) = None) as En.
    { destruct (s !! InstanceKey (pe_key e)) as [[v r]|] eqn:Ev; [|done]. pose proof (Hkeyed _ _ _ Ev) as [Hty _].
      destruct v; try done. unfold fetch in E. by rewrite Ev in E. }
    apply txwp_bind. eapply fences_stage; [done|by rewrite En|]. intros t' H1 H2 H3. apply txwp_ret.
    split_and!; auto. intros _ j Ej. congruence.
Qed.
Lemma fence_providers_ok st moving snapshots t :
  let s := es_records st in
  keyed st → fences s t →
  txwp (fenceProviderComponentEvidence snapshots moving) (λ b t', fences s t' ∧
    (b = true → ∀ x, x ∈ snapshots → ∀ e, e ∈ ps_evidence x → fenced s moving e t')) t.
Proof.
  intros s Hk Hf. eapply txwp_mono.
  - eapply (txwp_every _ (fences s) (λ x t', ∀ e, e ∈ ps_evidence x → fenced s moving e t')); [|exact Hf].
    intros x t1 _ H1. eapply txwp_mono.
    + eapply (txwp_every _ (fences s) (fenced s moving)); [|exact H1]. intros e t2 _ H2. by apply fence_component_ok.
    + intros b t2 (H2 & Hx & Hy). split_and!; [done|done|]. intros y Hye e He. apply Hy. by apply Hye.
  - intros b t' (H1 & Hx & _). by split.
Qed.

(** The loaded binding of a prerequisite is the one stored. *)
Definition still_bound (s : records) (consumer : PluginDeploymentIdentity) (generation : jstring)
    (bindings : list LoadedCapabilityBinding) (q : ProviderRecoveryBindingPrerequisite) : Prop :=
  ∃ x b, x ∈ bindings ∧ cb_consumer (lb_value x) = consumer ∧ cb_capability (lb_value x) = bp_capability q ∧
    s !! lb_key x = Some (BindingRecord b, lb_revision x) ∧ cb_deploymentGeneration b = generation ∧
    cb_provider b = bp_provider q.

(** What a transaction that commits a loss has seen and staged. *)
Record loss_staged (st : EvidenceStore) (d : DesiredDeployment) (ds : list DesiredDeployment)
    (bindings : list LoadedCapabilityBinding) (current : option LoadedProviderLoss) (p : LossPlan) (t : Staged) : Prop := {
  ls_snapshot : sg_snapshot t = es_records st;
  ls_deployment : ∃ c r, es_records st !! deploymentStateKey (identity_of (dd_deployment d)) = Some (DeploymentRecord c, r) ∧
                    d_generation (dd_deployment c) = d_generation (dd_deployment d);
  ls_mutations k m : sg_mutations t !! k = Some m →
    foreign k m.1 = true ∨
    lp_write p = true ∧ k = providerLossKey (identity_of (dd_deployment d)) ∧
      m = (Some (LossRecord (lp_record p)), ll_revision <$> current) ∨
    lp_write p = false ∧ lp_delete p = true ∧
      ∃ l, current = Some l ∧ k = ll_key l ∧ m = (None, Some (ll_revision l));
  ls_providers : lp_stale p = false → ∀ y, y ∈ providers_to_fence (lp_desired p) →
    ∃ loaded c r, find_deployment y ds = Some loaded ∧
      es_records st !! deploymentStateKey y = Some (DeploymentRecord c, r) ∧
      d_generation (dd_deployment c) = d_generation (dd_deployment loaded) ∧
      d_state (dd_deployment c) = d_state (dd_deployment loaded) ∧
      d_artifactDigest (dd_deployment c) = d_artifactDigest (dd_deployment loaded);
  ls_prerequisites : lp_stale p = false → ∀ q, q ∈ default [] (pl_bindingPrerequisites (lp_desired p)) →
    still_bound (es_records st) (identity_of (dd_deployment d)) (d_generation (dd_deployment d)) bindings q;
  ls_evidence : lp_stale p = false → lp_steps p = [] →
    ∀ x e i, x ∈ lp_readiness p → e ∈ ps_evidence x → pe_instance e = Some i →
    ∃ v a y, es_records st !! InstanceKey (pe_key e) = Some (InstanceRecord v, ci_revision i) ∧
      same_evidence i v a = true ∧ sg_mutations t !! InstanceKey (pe_key e) = Some (y, Some (ci_revision i));
}.

Lemma same_deployment_as_true d o :
  same_deployment_as d o = true →
  ∃ c r, o = Some (c, r) ∧ d_generation (dd_deployment c) = d_generation (dd_deployment d) ∧
         d_state (dd_deployment c) = d_state (dd_deployment d) ∧
         d_artifactDigest (dd_deployment c) = d_artifactDigest (dd_deployment d).
Proof.
  destruct o as [[c r]|]; [|done]. cbn. rewrite !andb_true_iff, !streq_true, bool_decide_eq_true. intros [[? ?] ?].
  by exists c, r.
Qed.
Lemma fetch_deployment s key d r : fetch pick_deployment s key = Some (d, r) → s !! key = Some (DeploymentRecord d, r).
Proof. by intros (x & E & ->%pick_deployment_some)%fetch_some. Qed.

Lemma same_identity_eq a b : same_identity a b = true ↔ a = b.
Proof.
  unfold same_identity. rewrite andb_true_iff, !streq_true. destruct a, b. cbn. split; [by intros [-> ->]|by intros [= -> ->]].
Qed.
Lemma prerequisite_same_ok st consumer generation bindings q t :
  fences (es_records st) t →
  txwp (prerequisite_same consumer generation bindings q) (λ b t', t' = t ∧
    (b = true → still_bound (es_records st) consumer generation bindings q)) t.
Proof.
  intros Hf. unfold prerequisite_same. destruct (List.find _ _) as [x|] eqn:Ex; [|by apply txwp_ret].
  apply txwp_bind, txwp_get, txwp_ret. split; [done|]. rewrite (fencing_view _ _ (proj1 Hf)).
  destruct (fetch pick_binding _ _) as [[b revision]|] eqn:Eb; [|done]. rewrite !andb_true_iff, Z.eqb_eq, streq_true, same_identity_eq.
  intros [[-> Eg] Ep]. apply fetch_some in Eb as (y & Eb & ->%pick_binding_some).
  apply find_some_in in Ex as [Hx Es%same_identity_eq]. unfold bindings_of in Hx.
  rewrite elem_of_filterb, !andb_true_iff, same_identity_eq, !streq_true in Hx. destruct Hx as (Hx & (Ec & Ek) & _).
  exists x, b. split_and!; [done..|congruence].
Qed.

Lemma loss_checks_ok st d ds bindings p t :
  fences (es_records st) t →
  txwp (loss_checks d ds bindings p) (λ b t', t' = t ∧ (b = true → lp_stale p = false →
    (∀ y, y ∈ providers_to_fence (lp_desired p) →
     ∃ loaded c r, find_deployment y ds = Some loaded ∧
       es_records st !! deploymentStateKey y = Some (DeploymentRecord c, r) ∧
       d_generation (dd_deployment c) = d_generation (dd_deployment loaded) ∧
       d_state (dd_deployment c) = d_state (dd_deployment loaded) ∧
       d_artifactDigest (dd_deployment c) = d_artifactDigest (dd_deployment loaded)) ∧
    ∀ q, q ∈ default [] (pl_bindingPrerequisites (lp_desired p)) →
      still_bound (es_records st) (identity_of (dd_deployment d)) (d_generation (dd_deployment d)) bindings q)) t.
Proof.
  intros Hf. unfold loss_checks. destruct (lp_stale p); [by apply txwp_ret|]. apply txwp_bind. eapply txwp_mono.
  - eapply (txwp_every (provider_same ds) (λ t', t' = t) (λ y _, ∃ loaded c r, find_deployment y ds = Some loaded ∧
      es_records st !! deploymentStateKey y = Some (DeploymentRecord c, r) ∧
      d_generation (dd_deployment c) = d_generation (dd_deployment loaded) ∧
      d_state (dd_deployment c) = d_state (dd_deployment loaded) ∧
      d_artifactDigest (dd_deployment c) = d_artifactDigest (dd_deployment loaded))); [|done].
    intros y t1 _ ->. unfold provider_same. destruct (find_deployment y ds) as [loaded|]; [|by apply txwp_ret].
    apply txwp_bind, txwp_get, txwp_ret. rewrite (fencing_view _ _ (proj1 Hf)). split_and!; [done| |done].
    intros (c & r & E%fetch_deployment & H)%same_deployment_as_true. by exists loaded, c, r.
  - intros [] t1 (-> & H & _); [|by apply txwp_ret]. eapply txwp_mono.
    + eapply (txwp_every _ (λ t', t' = t) (λ q _, still_bound (es_records st) (identity_of (dd_deployment d))
        (d_generation (dd_deployment d)) bindings q)); [|done].
      intros q t1 _ ->. eapply txwp_mono; [by apply prerequisite_same_ok|]. intros b t1 [-> Hb]. by split_and!.
    + intros b t1 (-> & Hb & _). split; [done|]. auto.
Qed.
Lemma recovery_ready_ok isLive p t : txwp (loss_recovery_ready sha256 isLive p) (λ _ t', t' = t) t.
Proof.
  unfold loss_recovery_ready. destruct (lp_begin p); [|by apply txwp_ret]. apply txwp_bind.
  intros e t' E. apply bind_ok in E as (x & _ & [= <- <-]). by apply txwp_result.
Qed.

(** The stages of the loss, the moves and the recovery, over the fences. *)
Definition guarded (s : records) (id : jstring) (t : Staged) : Prop :=
  ∃ y, sg_mutations t !! InstanceKey id = Some (y, snd <$> s !! InstanceKey id).
Lemma move_ok s next x t (P : Staged → Prop) :
  s !! InstanceKey x.1.1 = Some (InstanceRecord x.1.2, x.2) →
  (∀ l, P {| sg_snapshot := sg_snapshot t;
    sg_mutations := <[InstanceKey x.1.1 := (Some (InstanceRecord (with_lifecycle l x.1.2)), Some x.2)]> (sg_mutations t);
    sg_operations := sg_operations t; sg_messages := sg_messages t |}) →
  txwp (move_instance next x) (λ _ t', P t' ∧ guarded s x.1.1 t' ∧ ∀ id, guarded s id t → guarded s id t') t.
Proof.
  intros Ex HP. destruct x as [[id v] r]. cbn in *. unfold move_instance.
  destruct (transitionComponentLifecycle _ _) as [l|e]; [|by apply txwp_result].
  apply txwp_stage. split_and!; [apply HP| |].
  - eexists. cbn. rewrite lookup_insert_eq, Ex. done.
  - intros id' [y Hy]. unfold guarded. cbn. destruct (decide (id' = id)) as [->|Hn].
    + rewrite lookup_insert_eq, Ex. by eexists.
    + rewrite lookup_insert_ne by congruence. by eexists.
Qed.
Section work.
Context (st : EvidenceStore) (d : DesiredDeployment) (ds : list DesiredDeployment) (bindings : list LoadedCapabilityBinding)
  (current : option LoadedProviderLoss) (p : LossPlan).
Context (Hkeyed : keyed st) (Hcurrent : ∀ l, current = Some l → ∃ id, ll_key l = LossKey id).
#[local] Abbreviation s := (es_records st).

Definition in_order (t : Staged) : Prop :=
  sg_snapshot t = s ∧ ∀ k m, sg_mutations t !! k = Some m →
    foreign k m.1 = true ∨
    lp_write p = true ∧ k = providerLossKey (identity_of (dd_deployment d)) ∧
      m = (Some (LossRecord (lp_record p)), ll_revision <$> current) ∨
    lp_write p = false ∧ lp_delete p = true ∧
      ∃ l, current = Some l ∧ k = ll_key l ∧ m = (None, Some (ll_revision l)).

Lemma write_loss_ok t :
  fences s t →
  txwp (write_loss d current p) (λ _ t', in_order t' ∧
    ∀ id, is_Some (sg_mutations t !! InstanceKey id) → guarded s id t') t.
Proof.
  intros Hf. pose proof (fences_foreign _ _ Hkeyed Hf) as Ha. destruct Hf as [[Hs Hm] _].
  assert (in_order t) as H0 by (split; [done|]; intros k m Hk; left; by apply Ha).
  assert (∀ id, is_Some (sg_mutations t !! InstanceKey id) → guarded s id t) as Hg.
  { intros id [m Hi]. pose proof (Hm _ _ Hi) as ->. by eexists. }
  assert (∀ k m, (∃ id, k = LossKey id) →
    (lp_write p = true ∧ k = providerLossKey (identity_of (dd_deployment d)) ∧ m = (Some (LossRecord (lp_record p)), ll_revision <$> current) ∨
     lp_write p = false ∧ lp_delete p = true ∧ ∃ l, current = Some l ∧ k = ll_key l ∧ m = (None, Some (ll_revision l))) →
    txwp (stage k m.1 m.2) (λ _ t', in_order t' ∧ ∀ id, is_Some (sg_mutations t !! InstanceKey id) → guarded s id t') t) as Hstage.
  { intros k m [i ->] Hk. apply txwp_stage. split.
    - split; [done|]. intros k' m'. cbn. rewrite lookup_insert_Some. intros [[<- <-]|[_ Hm']]; [right; by destruct m|].
      by apply H0.
    - intros id Hi. destruct (Hg id Hi) as [y Hy]. exists y. cbn. by rewrite lookup_insert_ne. }
  unfold write_loss. case_eq (lp_write p); intros Ew.
  - refine (Hstage (providerLossKey _) (Some (LossRecord (lp_record p)), ll_revision <$> current) _ _); [by eexists|by left].
  - case_eq current; [intros l El|by intros _; apply txwp_ret].
    case_eq (lp_delete p); intros Edel; [|by apply txwp_ret].
    refine (Hstage (ll_key l) (None, Some (ll_revision l)) _ _); [by apply Hcurrent|]. right. split_and!; [done|done|]. by exists l.
Qed.
Lemma stage_recovery_ok x t : in_order t → txwp (stage_recovery x) (λ _ t', in_order t') t.
Proof.
  intros [Hs Hm]. unfold stage_recovery. apply txwp_bind, txwp_stage, txwp_bind. intros [] t1 [= <-]. intros [] t2 [= <-].
  split; [done|]. intros k m. cbn. rewrite lookup_insert_Some. intros [[<- <-]|[_ H]]; [by left|by apply Hm].
Qed.
Lemma loss_moves_ok moving t :
  (∀ x, x ∈ moving → s !! InstanceKey x.1.1 = Some (InstanceRecord x.1.2, x.2)) → in_order t →
  txwp (tx_each (move_instance (lp_next p)) moving) (λ _ t', in_order t' ∧
    (∀ x, x ∈ moving → guarded s x.1.1 t') ∧ ∀ id, guarded s id t → guarded s id t') t.
Proof.
  intros Hmv H0.
  eapply txwp_mono.
  - eapply (txwp_each _ (λ t', in_order t' ∧ ∀ id, guarded s id t → guarded s id t') (λ x t', guarded s x.1.1 t')); [|by split].
    intros x t1 Hx [H1 H2].
    eapply txwp_mono; [apply (move_ok s (lp_next p) x t1 (λ t', in_order t')); [by apply Hmv|]|].
    + intros l. split; [apply H1|]. intros k m. cbn. rewrite lookup_insert_Some. intros [[<- <-]|[_ H]]; [by left|by apply H1].
    + intros a t2 (H3 & H4 & H5). split_and!; auto.
  - intros a t' ([H1 H2] & H3 & _). auto.
Qed.

Lemma loss_work_ok isLive :
  txwp (loss_work sha256 isLive d ds bindings current p)
    (λ r t, match r with LossCommitted => loss_staged st d ds bindings current p t | _ => all_foreign t end) (new_transaction s).
Proof.
  pose proof (fences_new s) as H0. pose proof (fences_foreign _ _ Hkeyed H0) as Ha0. unfold loss_work.
  apply txwp_bind, txwp_get. rewrite (fencing_view _ _ (proj1 H0)).
  destruct (same_deployment_as _ _) eqn:Ed; cbn [negb]; [|by apply txwp_ret].
  apply same_deployment_as_true in Ed as (c & r & Ec%fetch_deployment & Eg & _).
  apply txwp_bind. eapply txwp_mono; [apply recovery_ready_ok|]. intros [] t ->; cbn [negb]; [|by apply txwp_ret].
  apply txwp_bind. eapply txwp_mono; [by apply loss_checks_ok|]. intros [] t [-> Hp]; cbn [negb]; [|by apply txwp_ret].
  apply txwp_bind. eapply txwp_mono; [by apply (moving_ok s), H0|]. intros [moving|] t [-> Hmv]; [|by apply txwp_ret].
  apply txwp_bind. eapply txwp_mono; [by apply (fence_latest_ok s)|]. intros b t1 H1.
  pose proof (fences_foreign _ _ Hkeyed H1) as Ha1. destruct b; cbn [negb]; [|by apply txwp_ret].
  apply txwp_bind. eapply (txwp_mono _ (λ b t2, fences s t2 ∧ (b = true → lp_stale p = false → ∀ x, x ∈ lp_readiness p →
    ∀ e, e ∈ ps_evidence x → fenced s (map (λ x, x.1.1) moving) e t2))).
  { destruct (lp_stale p); [by apply txwp_ret|]. eapply txwp_mono; [by apply fence_providers_ok|]. intros b t2 [H2 H3].
    split; [done|]. intros Eb _. exact (H3 Eb). }
  intros b t2 [H2 He]. pose proof (fences_foreign _ _ Hkeyed H2) as Ha2. destruct b; cbn [negb]; [|by apply txwp_ret].
  apply txwp_bind. eapply txwp_mono; [by apply write_loss_ok|]. intros u t3 [H3 Hg3].
  apply txwp_bind. eapply txwp_mono; [apply loss_moves_ok; [|done]; intros x; by apply Hmv|]. intros u' t4 (H4 & Hmoved & Hg4).
  assert (∀ t', in_order t' → (lp_steps p = [] → t' = t4) → loss_staged st d ds bindings current p t') as Hend.
  { intros t' [Hs Hm] Ht'. constructor; [done|by exists c, r|done|by apply Hp|by apply Hp|].
    intros Hst Hsteps x e i Hx Hxe Ei. rewrite (Ht' Hsteps).
    destruct (He eq_refl Hst x Hx e Hxe i Ei) as [(v & a & Ev & Es) Hin].
    assert (guarded s (pe_key e) t4) as [y Hy].
    { destruct Hin as [(x' & -> & Hx')%list_elem_of_fmap|Hin]; [by apply Hmoved|by apply Hg4, Hg3]. }
    exists v, a, y. rewrite Ev in Hy. by split_and!. }
  apply txwp_bind. destruct (lp_steps p) as [|x steps].
  - cbn [tx_each]. apply txwp_ret, txwp_ret. auto.
  - eapply txwp_mono; [apply (txwp_each_inv stage_recovery in_order); [|done]; intros; by apply stage_recovery_ok|].
    intros u2 t5 H5. apply txwp_ret. by apply Hend.
Qed.
End work.

(** *** The decision about one loss *)
Section plan.
Context (domainToASCII : jstring → jstring) (o : ReconcilerOptions).

Lemma plan_loss_facts isLive d gate ds installations instances bindings current decisions desired now p :
  plan_loss domainToASCII sha256 o isLive d gate ds installations instances bindings current decisions desired now
    = Ok (LossPlanned p) →
  lp_desired p = desired ∧
  lp_stale p = negb (streq (pl_deploymentGeneration desired) (d_generation d)) ∧
  mapM (λ y, providerReadiness sha256 isLive y ds installations instances) (providers_to_fence desired) = Ok (lp_readiness p) ∧
  (lp_record p = desired ∨ ∃ a, lp_record p = with_recovery desired a (pl_updatedAt desired)) ∧
  (lp_write p = false → lp_delete p = true → lp_stale p = false →
   lp_steps p = [] ∧ decisions = [] ∧ pl_action desired ≠ fail ∧
   recoveryPrerequisitesReady sha256 isLive desired ds installations instances bindings = Ok true).
Proof.
  unfold plan_loss. intros H. apply bind_ok in H as (readiness & Er & H). apply bind_ok in H as (recovered & Ec & H).
  match type of H with match ?x with _ => _ end = _ => destruct x as [activations|]; [|done] end.
  apply bind_ok in H as (plan & _ & H). injection H as <-. cbn [lp_desired lp_stale lp_readiness lp_record lp_write lp_delete lp_steps].
  split_and!; [done|done|done| |].
  - destruct (_ && match plan with Some _ => _ | None => false end); [|by left]. destruct activations; [right; by eexists|by left].
  - intros Hw Hdel Hst. rewrite Hst in *. cbn [negb andb] in Ec, Hw.
    apply orb_false_iff in Hw as [Hb Hw]. rewrite Hb. split; [done|].
    destruct current; [|done]. rewrite orb_false_r in Hdel.
    assert (recovered = true) as ->.
    { destruct (pl_action desired); [|done|]; by apply andb_true_iff in Hdel as [? _]. }
    destruct (bool_decide (decisions = [])) eqn:Ed; [|done]. apply bool_decide_eq_true in Ed.
    split_and!; [done| |done]. by destruct (pl_action desired).
Qed.

End plan.

(** A map built from a list: what is under a key comes from the list, and every key of
    the list is there. *)
Definition built {X V} (f : X → jstring) (g : X → V) (m : jsmap jstring V) (l : list X) : jsmap jstring V :=
  foldl (λ m x, JsMap.set m (f x) (g x)) m l.
Lemma built_from {X V} (f : X → jstring) (g : X → V) m l k v :
  JsMap.get (built f g m l) k = Some v → JsMap.get m k = Some v ∨ ∃ x, x ∈ l ∧ f x = k ∧ g x = v.
Proof.
  revert m. induction l as [|x l IH]; intros m; [by left|]. cbn. intros H. apply IH in H as [H|(y & Hy & H)].
  - destruct (decide (f x = k)) as [<-|Hn].
    + rewrite JsMap.get_set_eq in H. injection H as <-. right. exists x. split_and!; [by left|done|done].
    + rewrite JsMap.get_set_ne in H by done. by left.
  - right. exists y. split; [by right|done].
Qed.
Lemma built_has {X V} (f : X → jstring) (g : X → V) m l k :
  (is_Some (JsMap.get m k) ∨ ∃ x, x ∈ l ∧ f x = k) → is_Some (JsMap.get (built f g m l) k).
Proof.
  revert m. induction l as [|x l IH]; intros m; cbn.
  - intros [H|(x & H%elem_of_nil & _)]; done.
  - intros H. apply IH. destruct (decide (f x = k)) as [<-|Hn]; [left; by rewrite JsMap.get_set_eq|].
    rewrite JsMap.get_set_ne by done. destruct H as [H|(y & [->|Hy]%elem_of_cons & E)]; [by left|done|right; by exists y].
Qed.
Lemma built_wf {X V} (f : X → jstring) (g : X → V) m l : JsMap.wf m → JsMap.wf (built f g m l).
Proof. revert m. induction l as [|x l IH]; intros m Hm; [done|]. cbn. by apply IH, JsMap.wf_set. Qed.

Lemma elem_of_js_unique l x : x ∈ l → x ∈ js_unique l.
Proof.
  intros Hx. change (js_unique l) with (JsMap.keys (built (λ y, y) (λ _, tt) [] l)). apply JsMap.has_keys. unfold JsMap.has.
  destruct (built_has (λ y, y) (λ _, tt) [] l x) as [v ->]; [|done]. right. by exists x.
Qed.
Lemma unique_identities_in l y : y ∈ unique_identities l → y ∈ l.
Proof.
  change (unique_identities l) with (JsMap.values (built identityKey id [] l)). intros ([k y'] & -> & Hk)%list_elem_of_fmap.
  apply JsMap.in_get in Hk; [|apply built_wf; constructor].
  apply built_from in Hk as [Hk|(x & Hx & _ & Ex)]; [done|]. by rewrite <- Ex.
Qed.
Lemma unique_identities_has l x : x ∈ l → ∃ y, y ∈ unique_identities l ∧ identityKey y = identityKey x.
Proof.
  intros Hx. destruct (built_has identityKey id [] l (identityKey x)) as [y Hy]; [right; by exists x|].
  pose proof Hy as Hk. apply built_from in Hk as [Hk|(z & Hz & Ez & Ey)]; [done|]. exists y. split; [|by rewrite <- Ey].
  apply list_elem_of_fmap. exists (identityKey x, y). split; [done|by apply JsMap.get_in].
Qed.
Lemma strongest_rank l observed :
  providerLossRank (pl_action (ll_value l)) ≤ providerLossRank (default observed (strongest_action (Some l) (Some observed))).
Proof. unfold strongest_action. cbn. by destruct (pl_action (ll_value l)), observed. Qed.

(** What is to be recorded is no weaker than what is recorded. *)
Lemma desired_stronger d gate ds bindings l decisions updatedAt desired :
  desired_loss d gate ds bindings (Some l) decisions updatedAt = Some desired → stronger (ll_value l) desired.
Proof.
  unfold desired_loss. destruct (strongestProviderLoss decisions) as [observed|]; intros [= <-]; [|apply stronger_refl].
  split_and!; cbn.
  - apply strongest_rank.
  - intros c Hc. unfold lost_capabilities. apply elem_of_js_sort, elem_of_js_unique, elem_of_app. by left.
  - intros y Hy. apply unique_identities_has. apply elem_of_js_sort, elem_of_app. by left.
Qed.
Lemma desired_consumer d gate ds bindings current decisions updatedAt desired :
  (∀ l, current = Some l → identityKey (pl_consumer (ll_value l)) = identityKey (identity_of d)) →
  desired_loss d gate ds bindings current decisions updatedAt = Some desired →
  identityKey (pl_consumer desired) = identityKey (identity_of d).
Proof.
  unfold desired_loss. intros Hc. destruct (strongestProviderLoss decisions) as [observed|]; [by intros [= <-]|].
  destruct current as [l|]; [|done]. intros [= <-]. by apply Hc.
Qed.
Lemma desired_unobserved d gate ds bindings l decisions updatedAt desired :
  desired_loss d gate ds bindings (Some l) decisions updatedAt = Some desired →
  decisions = [] ∨ pl_deploymentGeneration desired ≠ d_generation d → desired = ll_value l.
Proof.
  unfold desired_loss. destruct (strongestProviderLoss decisions) as [observed|] eqn:E; intros [= <-]; [|done].
  intros [->|Hn]; [by cbv in E|done].
Qed.

Lemma latest_of_some componentId l j : latest_of componentId l = Some j → j ∈ l ∧ i_componentId (ci_value j) = componentId.
Proof.
  unfold latest_of. destruct (js_sort _ _) as [|x l'] eqn:E; [done|]. intros [= ->].
  assert (j ∈ j :: l') as Hj by left. rewrite <- E in Hj. apply elem_of_js_sort, elem_of_filterb in Hj as [? ?%streq_true]. done.
Qed.
(** A provider found ready: an active deployment, and a ready instance of every
    component of its installation. *)
Lemma readiness_ready isLive y ds installations instances x :
  providerReadiness sha256 isLive y ds installations instances = Ok x → ps_ready x = true →
  ∃ d i, find_deployment y ds = Some d ∧ installation_of d installations = Some i ∧ d_state (dd_deployment d) = Active ∧
    ∀ c, c ∈ mf_components (in_manifest i) → ∃ e j, e ∈ ps_evidence x ∧ pe_instance e = Some j ∧ j ∈ instances ∧
      i_componentId (ci_value j) = pc_componentId c ∧ i_lifecycle (ci_value j) = CpReady ∧
      i_applicationId (ci_value j) = applicationId y ∧ i_pluginId (ci_value j) = pluginId y ∧
      i_deploymentGeneration (ci_value j) = d_generation (dd_deployment d).
Proof.
  unfold providerReadiness. destruct (find_deployment y ds) as [d|] eqn:Ed; [|by intros [= <-]].
  destruct (installation_of d installations) as [i|] eqn:Ei; [|by intros [= <-]].
  intros (evidence & Ee & [= <-])%bind_ok. cbn. rewrite andb_true_iff, bool_decide_eq_true, forallb_forall_in.
  intros [Hs Hf]. exists d, i. split_and!; [done..|]. intros c Hc. apply mapM_ok in Ee.
  apply list_elem_of_lookup in Hc as [n Hn]. destruct (Forall2_lookup_l _ _ _ _ _ Ee Hn) as (e & He & Hce).
  apply list_elem_of_lookup_2 in He. specialize (Hf e He). unfold evidence_ready in Hf.
  destruct (pe_instance e) as [j|] eqn:Ej; [|done]. exists e, j.
  rewrite !andb_true_iff, !streq_true in Hf. destruct Hf as [[[H1 H2] H3] H4].
  unfold isReadyAndLive in H4. apply andb_true_iff in H4 as [H4 _]. apply bool_decide_eq_true in H4.
  apply find_some_in in Ed as [_ Ed]. unfold is_deployment, same_deployment in Ed. rewrite andb_true_iff, !streq_true in Ed.
  destruct Ed as [Ea Ep]. unfold component_evidence in Hce.
  destruct (provider_instance (dd_deployment d) (pc_componentId c) instances) as [j'|] eqn:Epi.
  - injection Hce as <-. injection Ej as ->. apply latest_of_some in Epi as [Hj%elem_of_filterb Hid].
    split_and!; try done; try congruence. by destruct Hj.
  - apply bind_ok in Hce as (z & _ & [= <-]). done.
Qed.

(** What exact bindings are. *)
Lemma exact_bindings l ds installations bindings :
  recoveryBindingsAreExact l ds installations bindings = true →
  ∃ consumer own, consumer ∈ ds ∧ identity_of (dd_deployment consumer) = pl_consumer l ∧
    d_generation (dd_deployment consumer) = pl_deploymentGeneration l ∧
    installation_of consumer installations = Some own ∧
    covers l (needed (pl_capabilities l) (mf_requires (in_manifest own))) ∧
    ∀ p, p ∈ default [] (pl_bindingPrerequisites l) →
      ∃ r provider i v, r ∈ needed (pl_capabilities l) (mf_requires (in_manifest own)) ∧ rq_name r = bp_capability p ∧
        provider ∈ ds ∧ identity_of (dd_deployment provider) = bp_provider p ∧ installation_of provider installations = Some i ∧
        v ∈ mf_provides (in_manifest i) ∧ pr_name v = rq_name r ∧
        satisfiesVersionRange (protocolVersion v) (rq_protocolRange r) = true.
Proof.
  assert (∀ i d, is_deployment i d = true → identity_of (dd_deployment d) = i) as Hid.
  { intros [a b] d. unfold is_deployment, same_deployment, identity_of. rewrite andb_true_iff, !streq_true. cbn. by intros [-> ->]. }
  unfold recoveryBindingsAreExact. destruct (List.find _ ds) as [consumer|] eqn:Ec; [|done].
  apply find_some_in in Ec as [Hc [Ec Eg%streq_true]%andb_true_iff].
  destruct (installation_of consumer installations) as [own|] eqn:Ei; [|done]. unfold covers.
  set (requirements := needed _ _). intros H. exists consumer, own. split_and!; [done|by apply Hid|done|done| |];
    destruct (pl_bindingPrerequisites l) as [ps|] eqn:Eps.
  - destruct (negb (length _ =? _)%nat); [done|]. destruct (bool_decide (NoDup _)) eqn:End; [|done].
    apply bool_decide_eq_true in End. cbn [negb] in H.
    destruct (bool_decide (js_sort compareText _ = _)) eqn:Es; [|done]. apply bool_decide_eq_true in Es. cbn [negb] in H.
    destruct (mapM _ (pl_capabilities l)) as [lps|] eqn:El; [|done]. rewrite andb_true_iff, bool_decide_eq_true in H. destruct H as [Ep _].
    apply mapM_Some in El. split_and!.
    + done.
    + rewrite <- (js_sort_perm compareText (map bp_capability ps)), Es. apply js_sort_perm.
    + intros c Hcap. apply list_elem_of_lookup in Hcap as [n Hn]. destruct (Forall2_lookup_l _ _ _ _ _ El Hn) as (q & _ & Eq).
      apply find_some_in in Eq as [Hq Eq%streq_true]. apply list_elem_of_fmap. by exists q.
    + intros y Hy. rewrite <- (elem_of_js_sort by_identity), Ep, elem_of_js_sort in Hy. apply unique_identities_in in Hy.
      apply list_elem_of_fmap in Hy as (q & -> & Hq). apply list_elem_of_fmap. exists q. split; [done|].
      apply list_elem_of_lookup in Hq as [n Hn]. destruct (Forall2_lookup_r _ _ _ _ _ El Hn) as (c & _ & Eq).
      by apply find_some_in in Eq as [? _].
  - rewrite !andb_true_iff, !bool_decide_eq_true in H. by destruct H as [[? ?] ?].
  - cbn [default]. intros p Hp. destruct (negb (length _ =? _)%nat); [done|]. destruct (bool_decide (NoDup _)) eqn:End; [|done].
    apply bool_decide_eq_true in End. cbn [negb] in H.
    destruct (bool_decide (js_sort compareText _ = _)) eqn:Es; [|done]. apply bool_decide_eq_true in Es. cbn [negb] in H.
    destruct (mapM _ (pl_capabilities l)) as [lps|] eqn:El; [|done]. rewrite andb_true_iff in H. destruct H as [_ Hr].
    rewrite forallb_forall_in in Hr.
    assert (bp_capability p ∈ map rq_name requirements) as (r & Er & Hin)%list_elem_of_fmap.
    { rewrite <- (elem_of_js_sort compareText), <- Es, elem_of_js_sort. apply list_elem_of_fmap. by exists p. }
    specialize (Hr r Hin). unfold requirement_exact in Hr. destruct (List.find _ ps) as [q|] eqn:Eq; [|done].
    apply find_some_in in Eq as [Hq Eq%streq_true]. assert (q = p) as ->.
    { eapply (NoDup_map_inj bp_capability ps); [done|done|done|congruence]. }
    destruct (bindings_of _ _ _ _) as [|b [|? ?]]; [done| |done]. apply andb_true_iff in Hr as [_ Hr].
    destruct (find_deployment (bp_provider p) ds) as [provider|] eqn:Ed; [|done]. apply find_some_in in Ed as [Hd Ed].
    destruct (installation_of provider installations) as [i|] eqn:Epi; [|done].
    apply existsb_exists_in in Hr as (v & Hv & [Ev%streq_true Hs]%andb_true_iff).
    exists r, provider, i, v. split_and!; try done. by apply Hid.
  - by intros p ?%elem_of_nil.
Qed.

(** The providers of a loss are among those its recovery waits for. *)
Lemma exact_providers l ds installations bindings y :
  recoveryBindingsAreExact l ds installations bindings = true → y ∈ pl_providers l →
  ∃ q, q ∈ default [] (pl_bindingPrerequisites l) ∧ bp_provider q = y.
Proof.
  intros (consumer & own & _ & _ & _ & _ & Hc & _)%exact_bindings Hy. unfold covers in Hc.
  destruct (pl_bindingPrerequisites l) as [ps|]; [|destruct Hc as (_ & _ & E); rewrite E in Hy; by apply elem_of_nil in Hy].
  destruct Hc as (_ & _ & _ & Hp). apply Hp, list_elem_of_fmap in Hy as (q & -> & Hq). by exists q.
Qed.
Lemma recovery_ready isLive l ds installations instances bindings y :
  recoveryPrerequisitesReady sha256 isLive l ds installations instances bindings = Ok true →
  y ∈ pl_providers l ++ map bp_provider (default [] (pl_bindingPrerequisites l)) →
  ∃ x, providerReadiness sha256 isLive y ds installations instances = Ok x ∧ ps_ready x = true.
Proof.
  unfold recoveryPrerequisitesReady. destruct (recoveryBindingsAreExact l ds installations bindings) eqn:Ee; [|done]. cbn [negb].
  intros (xs & Ex & H)%bind_ok Hy. injection H as Hf. rewrite forallb_forall_in in Hf.
  assert (∃ q, q ∈ default [] (pl_bindingPrerequisites l) ∧ bp_provider q = y) as (q & Hq & <-).
  { apply elem_of_app in Hy as [Hy|Hy]; [by eapply exact_providers|].
    apply list_elem_of_fmap in Hy as (q & -> & Hq). by exists q. }
  apply mapM_ok in Ex. apply list_elem_of_lookup in Hq as [n Hn].
  destruct (Forall2_lookup_l _ _ _ _ _ Ex Hn) as (x & Hx & E). exists x. split; [done|]. by apply Hf, (list_elem_of_lookup_2 _ n).
Qed.

(** *** A committed loss is lawful *)
Definition deployments_loaded (w : World) (ds : list DesiredDeployment) : Prop :=
  ∃ sd, sd ∈ moments w ∧ ∀ d, d ∈ ds → d ∈ loadDeployments (es_records sd).
Lemma deployments_loaded_later w w' ds : evo w w' → deployments_loaded w ds → deployments_loaded w' ds.
Proof. intros He (sd & Hsd & H). exists sd. eauto. Qed.
Definition bindings_stored (w : World) (bindings : list LoadedCapabilityBinding) : Prop :=
  ∃ sb, sb ∈ moments w ∧ ∀ b, b ∈ bindings → b ∈ loadCapabilityBindings (es_records sb).
Lemma bindings_stored_later w w' bindings : evo w w' → bindings_stored w bindings → bindings_stored w' bindings.
Proof. intros He (sb & Hsb & H). exists sb. eauto. Qed.
Section settle.
Context (domainToASCII : jstring → jstring) (o : ReconcilerOptions).

(** The record a consumer has among those loaded. *)
Lemma loss_by_consumer_some loaded key l :
  JsMap.get (loss_by_consumer loaded) key = Some l → l ∈ loaded ∧ identityKey (pl_consumer (ll_value l)) = key.
Proof.
  change (loss_by_consumer loaded) with (built (λ l, identityKey (pl_consumer (ll_value l))) id [] loaded).
  intros [H|(x & Hx & <- & <-)]%built_from; [done|]. done.
Qed.

Context (d : DesiredDeployment) (ds : list DesiredDeployment) (installations : list PluginInstallation)
  (instances : list ComponentInstance) (bindings : list LoadedCapabilityBinding) (gate : option CapabilityGate)
  (loaded : list LoadedProviderLoss) (decisions : list ProviderLossDecision).
#[local] Abbreviation key := (identityKey (identity_of (dd_deployment d))).
#[local] Abbreviation current := (JsMap.get (loss_by_consumer loaded) key).

(** The providers a recovery waits for are up where the release is committed. *)
Lemma recovered_up w w' t st' isLive p desired :
  world_ok w → evo w w' → world_ok w' → commit (w_store w') t = Ok st' →
  (∃ si, si ∈ moments w ∧ installations = loadInstallations (es_records si)) →
  loss_staged (w_store w) d ds bindings current p t → lp_desired p = desired → lp_stale p = false → lp_steps p = [] →
  mapM (λ y, providerReadiness sha256 isLive y ds installations instances) (providers_to_fence desired) = Ok (lp_readiness p) →
  recoveryPrerequisitesReady sha256 isLive desired ds installations instances bindings = Ok true →
  ∀ y, y ∈ pl_providers desired ++ map bp_provider (default [] (pl_bindingPrerequisites desired)) →
    ∃ provider, identityKey provider = identityKey y ∧
      provider_up (moments w') (es_records (w_store w)) (w_store w') provider.
Proof.
  intros Hw He Hw' Hc (si & Hsi & ->) Hs <- Hst Hsteps Hr Hready q Hq.
  destruct (unique_identities_has _ q Hq) as (y & Hy & Ey).
  exists y. split; [done|]. destruct (recovery_ready _ _ _ _ _ _ _ Hready (unique_identities_in _ _ Hy)) as (x & Ex & Hx).
  destruct (readiness_ready _ _ _ _ _ _ Ex Hx) as (dy & i & Ed & Ei & Ea & Hcs).
  destruct (ls_providers _ _ _ _ _ _ _ Hs Hst y Hy) as (dy' & c & r & Ed' & Ec & Eg & Es & Edig).
  rewrite Ed in Ed'. injection Ed' as <-.
  assert (x ∈ lp_readiness p) as Hxr.
  { apply mapM_ok in Hr. apply list_elem_of_lookup in Hy as [n Hn]. destruct (Forall2_lookup_l _ _ _ _ _ Hr Hn) as (x' & Hx' & E').
    rewrite Ex in E'. injection E' as <-. by eapply list_elem_of_lookup_2. }
  unfold installation_of in Ei. apply find_some_in in Ei as [Hi Ei]. rewrite !andb_true_iff, !streq_true in Ei. destruct Ei as [[E1 _] E2].
  apply find_some_in in Ed as [_ Ed]. unfold is_deployment, same_deployment in Ed. rewrite andb_true_iff, !streq_true in Ed.
  exists c, r, i, si. split_and!; [done|congruence|by eapply moment_later|done|by destruct Ed; congruence|congruence|].
  intros comp Hcomp. destruct (Hcs comp Hcomp) as (e & j & Hje & Ej & _ & F1 & F2 & F3 & F4 & F5).
  destruct (ls_evidence _ _ _ _ _ _ _ Hs Hst Hsteps x e j Hxr Hje Ej) as (v & a & z & Ev & Hsame & Hm).
  exists (pe_key e), v, (ci_revision j).
  split; [by eapply (still_there w' (w_store w)); [| |exact Ev|exact Hc|exact Hm]; eauto|].
  unfold same_evidence in Hsame. rewrite !andb_true_iff, !streq_true, !bool_decide_eq_true in Hsame.
  destruct Hsame as [[[[[[[_ G1] G2] G3] G4] _] _] G5]. split_and!; congruence.
Qed.

(** The bindings of its consumer are exact. *)
Lemma recovered_exact w w' t isLive p desired :
  world_ok w → evo w w' → deployments_loaded w ds → bindings_stored w bindings →
  (∃ si, si ∈ moments w ∧ installations = loadInstallations (es_records si)) →
  loss_staged (w_store w) d ds bindings current p t → lp_desired p = desired → lp_stale p = false →
  identityKey (pl_consumer desired) = key → pl_deploymentGeneration desired = d_generation (dd_deployment d) →
  recoveryPrerequisitesReady sha256 isLive desired ds installations instances bindings = Ok true →
  exact_now (moments w') (es_records (w_store w)) desired.
Proof.
  intros Hw He (sd & Hsd & Hds) (sb & Hsb & Hb) (si & Hsi & ->) Hs <- Hst Ek Eg Hready.
  unfold recoveryPrerequisitesReady in Hready. destruct (recoveryBindingsAreExact _ _ _ _) eqn:Ee; [|done]. clear Hready.
  apply exact_bindings in Ee as (consumer & own & H1 & H2 & H3 & H4 & H5 & H6).
  exists sd, si, consumer, own. split_and!; [by eapply moment_later|by eapply moment_later|by apply Hds|done..|].
  intros q Hq. split.
  - destruct (ls_prerequisites _ _ _ _ _ _ _ Hs Hst q Hq) as (x & b & Hx & Ec & Ecap & Eb & Ebg & Ebp).
    apply Hb, elem_of_loadCapabilityBindings in Hx as (id & Eid & Ex). rewrite Eid in Eb.
    destruct (wo_moments _ Hw sb Hsb) as (_ & _ & Hk). pose proof (Hk _ _ _ Ex) as [_ E]. cbn in E.
    exists b, (lb_revision x). split_and!; [|congruence|done]. unfold requirementKey in *. by rewrite Ek, <- Ec, <- Ecap, <- E.
  - destruct (H6 q Hq) as (r & provider & i & v & F1 & F2 & F3 & F4 & F5 & F6 & F7 & F8). exists r. split_and!; [done|done|].
    exists sd, si, provider, i, v. split_and!; [by eapply moment_later|by eapply moment_later|by apply Hds|done..].
Qed.

Lemma loss_decided w t isLive updatedAt desired p :
  world_ok w → losses_from w loaded → deployments_loaded w ds → bindings_stored w bindings →
  (∃ si, si ∈ moments w ∧ installations = loadInstallations (es_records si)) →
  desired_loss (dd_deployment d) gate ds bindings current decisions updatedAt = Some desired →
  plan_loss domainToASCII sha256 o isLive (dd_deployment d) gate ds installations instances bindings current decisions desired updatedAt
    = Ok (LossPlanned p) →
  loss_staged (w_store w) d ds bindings current p t → decided w t.
Proof.
  intros Hw Hl Hd Hb Hi Hdes Hp Hs w' st' He Hw' Hc k v e Hk. cbn in Hk.
  destruct (plan_loss_facts _ _ _ _ _ _ _ _ _ _ _ _ _ _ Hp) as (Ed & Est & Er & Erec & Hdel).
  assert (∀ l, current = Some l → ∃ st, st ∈ moments w' ∧ ll_key l = LossKey key ∧
    identityKey (pl_consumer (ll_value l)) = key ∧ es_records st !! ll_key l = Some (LossRecord (ll_value l), ll_revision l)) as Hcur.
  { intros l [Hin Hkey]%loss_by_consumer_some. destruct (loaded_loss w loaded l Hw Hl Hin) as (st & H1 & H2 & H3).
    exists st. rewrite H2, Hkey in *. split_and!; [by eapply moment_later|done..]. }
  assert (identityKey (pl_consumer desired) = key) as Hcons.
  { eapply desired_consumer; [|exact Hdes]. intros l El. by destruct (Hcur l El) as (? & ? & ? & ? & ?). }
  destruct (ls_mutations _ _ _ _ _ _ _ Hs _ _ Hk) as [Hf|[(Ew & -> & [= -> ->])|(Ew & Edel & l & El & -> & [= -> ->])]].
  - by destruct k.
  - change (loss_change (moments w') (sg_snapshot t) (w_store w') key (Some (LossRecord (lp_record p)))). unfold loss_change.
    assert (pl_consumer (lp_record p) = pl_consumer desired) as Econs by (destruct Erec as [-> |[a ->]]; done).
    destruct current as [l|] eqn:El.
    + destruct (Hcur l eq_refl) as (st & H1 & H2 & H3 & H4). cbn [fmap option_fmap option_map] in Hk. rewrite H2 in H4.
      unfold providerLossKey in Hk. rewrite (still_there _ _ _ _ _ _ _ _ Hw' H1 H4 Hc Hk). cbn [fmap option_fmap option_map fst]. rewrite Econs, Hcons. split; [done|].
      pose proof (desired_stronger _ _ _ _ _ _ _ _ Hdes) as Hstr. by destruct Erec as [-> |[a ->]].
    + pose proof (commit_expected _ _ _ _ _ _ Hc Hk) as Hx. unfold providerLossKey in Hx.
      destruct (es_records (w_store w') !! LossKey key) as [[]|]; [done|]. cbn [fmap option_fmap option_map]. by rewrite Econs, Hcons.
  - destruct (Hcur l El) as (st & H1 & H2 & H3 & H4). rewrite H2 in *.
    change (loss_change (moments w') (sg_snapshot t) (w_store w') key None). unfold loss_change.
    rewrite (still_there _ _ _ _ _ _ _ _ Hw' H1 H4 Hc Hk). cbn [fmap option_fmap option_map fst].
    destruct (ls_deployment _ _ _ _ _ _ _ Hs) as (c & r & Ec & Eg). rewrite (ls_snapshot _ _ _ _ _ _ _ Hs).
    rewrite El in Hdes. destruct (lp_stale p) eqn:Es.
    + assert (pl_deploymentGeneration desired ≠ d_generation (dd_deployment d)) as Hne.
      { intros E. rewrite E in Est. by rewrite (proj2 (streq_true _ _) eq_refl) in Est. }
      rewrite (desired_unobserved _ _ _ _ _ _ _ _ Hdes (or_intror Hne)) in Hne.
      eapply ReleasedSuperseded; [exact Ec|]. congruence.
    + destruct (Hdel Ew Edel eq_refl) as (Hsteps & -> & Hnf & Hready).
      pose proof (desired_unobserved _ _ _ _ _ _ _ _ Hdes (or_introl eq_refl)) as ->.
      symmetry in Est. apply negb_false_iff, streq_true in Est.
      eapply ReleasedRecovered; [exact Ec|congruence|done|by eapply recovered_exact|].
      by eapply recovered_up; [exact Hw|exact He|exact Hw'|exact Hc|exact Hi|exact Hs|..].
Qed.
End settle.

(** *** The programs of losses *)
Lemma safe_foreign_put key value expected w :
  world_ok w → foreign key (Some value) = true → safe (transact (put key value expected)) w.
Proof.
  intros Hw Hf. apply safe_transact; [done|]. intros w1 H1 Hw1.
  eapply foreign_stage; [done|apply foreign_new|]. intros t. apply foreign_decided.
Qed.
Lemma safe_blocked d codes w : world_ok w → safe (recordBlocked d codes) w.
Proof.
  intros Hw. unfold recordBlocked. apply safe_quiet; [done|]. intros _ w1 H1 Hw1. unfold recordObservation.
  apply safe_look. intros w2 H2 Hw2. destruct (match fetch _ _ _ with Some _ => _ | None => _ end); [done|].
  apply safe_quiet; [done|]. intros now w3 H3 Hw3. by apply safe_foreign_put.
Qed.

Section programs.
Context (domainToASCII : jstring → jstring) (o : ReconcilerOptions).

Definition installations_from (w : World) (installations : list PluginInstallation) : Prop :=
  ∃ si, si ∈ moments w ∧ installations = loadInstallations (es_records si).
Lemma installations_later w w' l : evo w w' → installations_from w l → installations_from w' l.
Proof. intros He (si & Hsi & ->). exists si. eauto. Qed.

Lemma safe_settle_loss d ds installations instances bindings gates loaded w :
  world_ok w → losses_from w loaded → deployments_loaded w ds → bindings_stored w bindings → installations_from w installations →
  safe (settle_loss domainToASCII sha256 o d ds installations instances bindings gates
          (JsMap.get (loss_by_consumer loaded) (identityKey (identity_of (dd_deployment d))))) w.
Proof.
  intros Hw Hl Hd Hb Hi. unfold settle_loss. apply safe_quiet; [done|]. intros updatedAt w1 H1 Hw1.
  destruct (desired_loss _ _ _ _ _ _ _) as [desired|] eqn:Ed; [|done].
  apply safe_liveness; [done|]. intros isLive w2 H2 Hw2. apply safe_result_bind. intros [p|] Ep.
  - destruct (idle p); [done|]. apply safe_on_conflict; [done|]. apply safe_liveness; [done|]. intros isLive' w3 H3 Hw3.
    assert (evo w w3) as H03 by (etrans; [exact H1|]; by etrans).
    apply safe_bind; [done| |intros [] w4 H4 Hw4; try done; by apply safe_quiet].
    apply safe_transact; [done|]. intros w4 H4 Hw4. assert (evo w w4) as H04 by by etrans.
    eapply txwp_mono; [apply loss_work_ok|].
    + by apply keyed_now.
    + intros l [Hin _]%loss_by_consumer_some. destruct (loaded_loss w loaded l Hw Hl Hin) as (st & _ & -> & _). by eexists.
    + intros r t. destruct r; [|by apply foreign_decided..].
      eapply loss_decided; [done|by eapply losses_later|by eapply deployments_loaded_later|by eapply bindings_stored_later|
        by eapply installations_later|exact Ed|exact Ep].
  - apply safe_bind; [done|by apply safe_blocked|done].
Qed.
Lemma safe_losses ds installations instances bindings loaded gates w :
  world_ok w → losses_from w loaded → deployments_loaded w ds → bindings_stored w bindings → installations_from w installations →
  safe (reconcileProviderLosses domainToASCII sha256 o ds installations instances bindings loaded gates) w.
Proof.
  intros Hw Hl Hd Hb Hi. unfold reconcileProviderLosses. destruct (op_loadsDeployments o); [done|].
  apply safe_bind; [done|by apply safe_orphans|]. intros [] w1 H1 Hw1; [done|].
  apply safe_bind; [done| |done]. apply safe_each; [done|]. intros d w2 _ H2 Hw2. assert (evo w w2) by by etrans.
  apply safe_settle_loss; [done|by eapply losses_later|by eapply deployments_loaded_later|by eapply bindings_stored_later|
    by eapply installations_later].
Qed.

(** ** Bindings *)

(** The mutations of [#persistResolvedBindings] bind what was resolved. *)
Definition was_resolved (resolved : list ResolvedCapabilityBinding)
    (e : jstring * (NormalizedCapabilityRequirement * ResolvedCapabilityProvider)) : Prop :=
  ∃ b, b ∈ resolved ∧ rb_requirement b = e.2.1 ∧ rb_provider b = Some e.2.2.
Lemma set_entries {V} (m : jsmap jstring V) k v e : e ∈ JsMap.set m k v → e = (k, v) ∨ e ∈ m.
Proof.
  induction m as [|[k' v'] m IH]; cbn.
  - intros ->%list_elem_of_singleton. by left.
  - case_bool_decide as E; intros [->|He]%elem_of_cons.
    + left. by rewrite E.
    + right. by right.
    + right. by left.
    + destruct (IH He) as [->|?]; [by left|right; by right].
Qed.
Lemma delete_entries {V} (m : jsmap jstring V) k e : e ∈ JsMap.delete m k → e ∈ m.
Proof.
  induction m as [|[k' v'] m IH]; cbn; [done|]. case_bool_decide; [by right|].
  intros [->|He]%elem_of_cons; [left|right; auto].
Qed.
Lemma resolved_entries resolved e : e ∈ resolved_by_capability resolved → was_resolved resolved e.
Proof.
  unfold resolved_by_capability.
  assert (∀ (l : list ResolvedCapabilityBinding) (m : resolved_map), (∀ e, e ∈ m → was_resolved resolved e) → (∀ b, b ∈ l → b ∈ resolved) →
    ∀ e, e ∈ foldl (λ m b, match rb_provider b with
                            | Some p => JsMap.set m (name (rb_requirement b)) (rb_requirement b, p) | None => m end) m l →
    was_resolved resolved e) as H.
  { induction l as [|b l IH]; intros m Hm Hl; [exact Hm|]. cbn. apply IH; [|intros x Hx; apply Hl; by right].
    destruct (rb_provider b) as [p|] eqn:Ep; [|exact Hm]. intros x [->|Hx]%set_entries; [|by apply Hm].
    exists b. split_and!; [apply Hl; by left|done|done]. }
  apply H; [|done]. by intros x ?%elem_of_nil.
Qed.
Definition binds_resolved (d : DesiredDeployment) (resolved : list ResolvedCapabilityBinding) (m : binding_mutation) : Prop :=
  ∀ v, bm_value m = Some v → ∃ capability r p updatedAt,
    was_resolved resolved (capability, (r, p)) ∧ v = bound d capability r p updatedAt ∧
    bm_id m = requirementKey (cb_consumer v) (cb_capability v).
Lemma mutations_resolved d names resolved loaded updatedAt m :
  m ∈ binding_mutations d names resolved loaded updatedAt → binds_resolved d resolved m.
Proof.
  unfold binding_mutations.
  assert (∀ l acc, (Forall (binds_resolved d resolved) acc.1 ∧ ∀ e, e ∈ acc.2 → was_resolved resolved e) →
    let r := foldl (current_mutation d names updatedAt) acc l in
    Forall (binds_resolved d resolved) r.1 ∧ ∀ e, e ∈ r.2 → was_resolved resolved e) as H.
  { induction l as [|[capability current] l IH]; intros [ms rs] Hacc; [exact Hacc|]. cbn [foldl]. apply IH.
    destruct Hacc as [Hms Hrs]. cbn in Hms, Hrs. unfold current_mutation.
    destruct (JsMap.get rs capability) as [[r p]|] eqn:Er.
    - apply JsMap.get_in, Hrs in Er. destruct (_ && _); (split; [|intros e He; by apply Hrs, (delete_entries _ capability)]); cbn; [done|].
      apply Forall_app. split; [done|]. apply Forall_singleton. intros v [= <-]. by exists capability, r, p, updatedAt.
    - destruct (_ || _); (split; [|exact Hrs]); cbn; [|done]. apply Forall_app. split; [done|]. by apply Forall_singleton. }
  specialize (H (current_by_capability (identity_of (dd_deployment d)) loaded) ([], resolved_by_capability resolved)).
  destruct (foldl _ _ _) as [ms fresh]. destruct H as [Hms Hfresh]; [split; [done|apply resolved_entries]|]. cbn in Hms, Hfresh.
  intros Hm. apply elem_of_js_sort, elem_of_app in Hm as [Hm|Hm]; [by rewrite Forall_forall in Hms; apply Hms|].
  apply list_elem_of_fmap in Hm as ([capability [r p]] & -> & He). intros v [= <-].
  exists capability, r, p, updatedAt. split_and!; [by apply Hfresh|done|done].
Qed.

(** Only a resolution without any diagnostic binds. *)
Lemma resolve_unbound input r : resolve_stable input = Some r → ok r = true ∨ res_bindings r = None.
Proof.
  destruct (resolve_cases input) as (r' & E & H). rewrite E. intros [= <-]. destruct H as [(Hf & Hd & _)|[H _]]; [|by left].
  right. revert E. unfold resolve_stable. destruct (0 <? _)%nat; [by intros [= <-]|].
  intros (components & _ & E)%bind_Some. cbn zeta in E. destruct (0 <? _)%nat in E; [by injection E as <-|].
  apply bind_Some in E as (final & _ & E). destruct (topologicalOrder _ _) in E; injection E as <-; done.
Qed.
Definition instances_from (w : World) (instances : list ComponentInstance) : Prop :=
  ∃ sn, sn ∈ moments w ∧ ∀ x, x ∈ instances → ∃ id r, es_records sn !! InstanceKey id = Some (InstanceRecord (ci_value x), r).
Definition deployments_from (w : World) (ds : list DesiredDeployment) : Prop :=
  ∃ sd, sd ∈ moments w ∧ ds = loadDeployments (es_records sd).
Lemma instances_later w w' l : evo w w' → instances_from w l → instances_from w' l.
Proof. intros He (sn & Hsn & H). exists sn. eauto. Qed.
Lemma deployments_later w w' l : evo w w' → deployments_from w l → deployments_from w' l.
Proof. intros He (sd & Hsd & ->). exists sd. eauto. Qed.

(** What is resolved for a gated deployment is a provider that was ready. *)
Lemma resolved_ready w isLive d own ds installations instances loaded r b p :
  deployments_from w ds → installations_from w installations → instances_from w instances →
  d ∈ ds → installation_of d installations = Some own →
  resolve_stable (resolution_input isLive d own ds installations instances loaded) = Some r →
  b ∈ own_bindings (identity_of (dd_deployment d)) r → rb_provider b = Some p →
  ∀ capability updatedAt, bound_to_ready (moments w) (bound d capability (rb_requirement b) p updatedAt).
Proof.
  intros (sd & Hsd & ->) (si & Hsi & ->) (sn & Hsn & Hins) Hd Hown Er Hb Hp capability updatedAt.
  apply elem_of_filterb in Hb as [Hb Hc]. destruct (resolve_unbound _ _ Er) as [Hok|Hn]; [|rewrite Hn in Hb; by apply elem_of_nil in Hb].
  destruct (resolved_ok _ _ Er Hok) as (bs & ko & fin & H). rewrite (rs_bindings _ _ _ _ _ H) in Hb. cbn in Hb.
  apply list_elem_of_lookup in Hb as [n Hn]. destruct (Forall2_lookup_r _ _ _ _ _ (rs_bound _ _ _ _ _ H) Hn) as ([c rq] & Hw & [Hg _]).
  apply list_elem_of_lookup_2, elem_of_work in Hw as [Hcin Hrq]. cbn [fst snd] in *.
  destruct (gb_provider _ _ _ _ _ Hg p Hp) as (q & Hq & Eq & Hcap%elem_of_compatible).
  destruct Hq as (Hqin & Hqr & Hel & _). destruct Hel as [Happ _]. apply elem_of_sorted_input in Hcin, Hqin.
  apply list_elem_of_omap in Hcin as (c' & _ & Ec). apply list_elem_of_omap in Hqin as (q' & Hq' & Eq').
  destruct (candidate_installation d own _ c') as [ic|] eqn:Eic; [|done]. injection Ec as <-.
  destruct (candidate_installation d own _ q') as [iq|] eqn:Eiq; [|done]. injection Eq' as <-. cbn in *.
  rewrite (gb_consumer _ _ _ _ _ Hg) in Hc. cbn in Hc. unfold same_identity in Hc. rewrite andb_true_iff, !streq_true in Hc.
  destruct Hc as [Hc1 Hc2]. cbn in Hc1, Hc2. unfold candidate_installation in Eic.
  rewrite (proj2 (streq_true _ _) Hc2) in Eic. injection Eic as <-.
  apply andb_true_iff in Hqr as [Ha Hev]. apply bool_decide_eq_true in Ha. rewrite forallb_forall_in in Hev.
  exists sd, si, sn, d, own, rq, q', iq, (rp_capability p). cbn. rewrite (gb_requirement _ _ _ _ _ Hg), Eq.
  destruct Hcap as (F1 & F2 & F3). cbn. split_and!; try done.
  - cbn. rewrite Happ. done.
  - intros x Hx. specialize (Hev x Hx). rewrite existsb_exists_in in Hev. destruct Hev as (y & Hy & Ey).
    apply elem_of_filterb in Hy as [Hy Eo]. destruct (Hins y Hy) as (id & rv & Ei).
    rewrite !andb_true_iff, !streq_true in Ey. destruct Ey as [Ey1 Ey2]. unfold isReadyAndLive in Ey2.
    apply andb_true_iff in Ey2 as [Ey2 _]. apply bool_decide_eq_true in Ey2.
    rewrite andb_true_iff, streq_true in Eo. destruct Eo as [Eo Eg]. unfold of_deployment in Eo. 
    exists id, (ci_value y), rv. rewrite ?andb_true_iff, ?streq_true in Eo. cbn. split_and!; try done; try by destruct Eo.
Qed.

Lemma mutations_decided w d (ms : list binding_mutation) t :
  sg_snapshot t = es_records (w_store w) →
  (∃ c r, es_records (w_store w) !! deploymentStateKey (identity_of (dd_deployment d)) = Some (DeploymentRecord c, r) ∧
          d_generation (dd_deployment c) = d_generation (dd_deployment d)) →
  (∀ m v, m ∈ ms → bm_value m = Some v → bm_id m = requirementKey (cb_consumer v) (cb_capability v) ∧
     bound_to_ready (moments w) v ∧ cb_consumer v = identity_of (dd_deployment d) ∧
     cb_deploymentGeneration v = d_generation (dd_deployment d)) →
  (∀ k m, sg_mutations t !! k = Some m → ∃ x, x ∈ ms ∧ k = BindingKey (bm_id x) ∧ m = (BindingRecord <$> bm_value x, bm_expected x)) →
  decided w t.
Proof.
  intros Hs (c & r & Ec & Eg) Hms Ht w' st' He Hw' Hc k v e Hk. cbn in Hk.
  destruct (Ht _ _ Hk) as (x & Hx & -> & [= -> ->]). cbn. unfold binding_change.
  destruct (bm_value x) as [b|] eqn:Eb; [|done]. cbn. destruct (Hms x b Hx Eb) as (H1 & H2 & H3 & H4).
  split_and!; [done|by eapply bound_to_ready_mono; [apply He|]|]. exists c, r. rewrite Hs, H3, H4. done.
Qed.
Lemma safe_persist d names resolved loaded w :
  world_ok w →
  (∀ b p capability updatedAt, b ∈ resolved → rb_provider b = Some p →
     bound_to_ready (moments w) (bound d capability (rb_requirement b) p updatedAt)) →
  safe (persistResolvedBindings o d names resolved loaded) w.
Proof.
  intros Hw Hb. unfold persistResolvedBindings. destruct (op_loadsDeployments o); [done|].
  apply safe_quiet; [done|]. intros updatedAt w1 H1 Hw1.
  pose proof (mutations_resolved d names resolved loaded updatedAt) as Hms.
  destruct (binding_mutations d names resolved loaded updatedAt) as [|x l]; [done|]. set (ms := x :: l) in *.
  apply safe_on_conflict; [done|]. apply safe_bind; [done| |intros [] w2 H2 Hw2; [done|by apply safe_quiet]].
  apply safe_transact; [done|]. intros w2 H2 Hw2. assert (evo w w2) as H02 by by etrans.
  unfold write_bindings. apply txwp_bind, txwp_get. rewrite (fencing_view _ _ (fencing_new _)).
  destruct (fetch pick_deployment _ _) as [[c r]|] eqn:Ec; [|by apply txwp_ret, foreign_decided, foreign_new].
  apply fetch_deployment in Ec. destruct (streq _ _) eqn:Eg; [|by apply txwp_ret, foreign_decided, foreign_new].
  apply streq_true in Eg. apply txwp_bind.
  eapply txwp_mono; [apply (txwp_each_inv stage_binding (λ t, sg_snapshot t = es_records (w_store w2) ∧
    ∀ k m, sg_mutations t !! k = Some m → ∃ y, y ∈ ms ∧ k = BindingKey (bm_id y) ∧ m = (BindingRecord <$> bm_value y, bm_expected y)))|].
  - intros y t Hy [Hs Ht]. apply txwp_stage. split; [done|]. intros k m. cbn. rewrite lookup_insert_Some.
    intros [[<- <-]|[_ Hm]]; [by exists y|by apply Ht].
  - split; [done|]. intros k m. cbn. by rewrite lookup_empty.
  - intros [] t [Hs Ht]. apply txwp_ret. eapply (mutations_decided w2 d ms); [done|by exists c, r| |done].
    intros m v Hm Ev. destruct (Hms m Hm v Ev) as (capability & rq & q & u & (b & Hin & Erq & Eq) & -> & Eid). cbn in Erq, Eq.
    split_and!; [done| |done|done]. rewrite <- Erq. eapply bound_to_ready_mono; [apply H02|]. by apply Hb.
Qed.

(** Stale bindings are removed, whatever they are by then. *)
Definition bindings_loaded (l : list LoadedCapabilityBinding) : Prop := ∀ b, b ∈ l → ∃ id, lb_key b = BindingKey id.
Lemma loadCapabilityBindings_loaded s : bindings_loaded (loadCapabilityBindings s).
Proof. intros b (id & E & _)%elem_of_loadCapabilityBindings. by exists id. Qed.
Lemma safe_cleanup ds loaded w :
  world_ok w → bindings_loaded loaded → safe (cleanupCapabilityBindings o ds loaded) w.
Proof.
  intros Hw Hl. unfold cleanupCapabilityBindings. destruct (op_loadsDeployments o); [done|].
  assert (bindings_loaded (List.filter (λ b, negb (isCurrentCapabilityBinding b ds)) loaded)) as Hf.
  { intros b [Hb _]%elem_of_filterb. by apply Hl. }
  destruct (List.filter _ loaded) as [|x stale]; [done|].
  apply safe_on_conflict; [done|]. apply safe_bind; [done| |done]. apply safe_transact; [done|]. intros w1 H1 Hw1.
  eapply txwp_mono.
  - apply (txwp_each_inv cleanup_binding (λ t, ∀ k m, sg_mutations t !! k = Some m → ∃ id, k = BindingKey id ∧ m.1 = None)).
    + intros b t Hb Ht. destruct (Hf b Hb) as [id Eid]. unfold cleanup_binding. rewrite Eid. apply txwp_bind, txwp_get.
      assert (∀ e, txwp (remove (BindingKey id) e) (λ _ t', ∀ k m, sg_mutations t' !! k = Some m → ∃ id, k = BindingKey id ∧ m.1 = None) t) as Hr.
      { intros e. apply txwp_stage. intros k m. cbn. rewrite lookup_insert_Some. intros [[<- <-]|[_ Hm]]; [by exists id|by eapply Ht]. }
      destruct (fetch _ _ _) as [[c r]|]; [|by apply Hr]. destruct (streq _ _); [by apply txwp_ret|by apply Hr].
    + intros k m. cbn. by rewrite lookup_empty.
  - intros a t Ht w2 st' _ _ _ k v e Hk. destruct (Ht _ _ Hk) as (id & Ek & Ev). rewrite Ek. cbn in Ev |- *. by rewrite Ev.
Qed.

(** *** The gates *)
Lemma safe_gate d ds installations instances loaded w :
  world_ok w → deployments_from w ds → installations_from w installations → instances_from w instances → d ∈ ds →
  safe (gateDeployment domainToASCII o d ds installations instances loaded) w.
Proof.
  intros Hw Hds Hi Hn Hd. unfold gateDeployment. destruct (installation_of d installations) as [own|] eqn:Eo; [|by case_bool_decide].
  case_bool_decide.
  - apply safe_quiet; [done|]. intros [manifest|e] w1 H1 Hw1; [|done]. apply safe_liveness; [done|]. intros isLive w2 H2 Hw2.
    destruct (resolve_stable _) as [r|] eqn:Er; [|done]. assert (evo w w2) as H02 by by etrans.
    apply safe_bind; [done| |by intros []]. apply safe_persist; [done|]. intros b p capability updatedAt Hb Hp.
    eapply bound_to_ready_mono; [apply H02|]. by eapply resolved_ready.
  - apply safe_bind; [done| |by intros []]. apply safe_persist; [done|]. by intros b p ? ? ?%elem_of_nil.
Qed.

(** *** What a pass has loaded *)
Record loaded_at (current : bool) (w : World) (l : Loaded) (sd si sn sb sl : EvidenceStore) : Prop := {
  la_moments : sd ∈ moments w ∧ si ∈ moments w ∧ sn ∈ moments w ∧ sb ∈ moments w ∧ sl ∈ moments w;
  la_deployments : ld_deployments l = loadDeployments (es_records sd);
  la_installations : ld_installations l = loadInstallations (es_records si);
  la_instances : loadInstances (es_records sn) = Ok (ld_instances l);
  la_bindings : ld_bindings l =
    if current then List.filter (λ b, isCurrentCapabilityBinding b (ld_deployments l)) (loadCapabilityBindings (es_records sb))
    else loadCapabilityBindings (es_records sb);
  la_losses : ld_losses l = loadProviderLosses (es_records sl);
}.
Definition loaded_ok (current : bool) (w : World) (l : Loaded) : Prop := ∃ sd si sn sb sl, loaded_at current w l sd si sn sb sl.
Lemma loaded_later current w w' l : evo w w' → loaded_ok current w l → loaded_ok current w' l.
Proof.
  intros He (sd & si & sn & sb & sl & [(H1 & H2 & H3 & H4 & H5) ? ? ? ? ?]). exists sd, si, sn, sb, sl.
  constructor; [|done..]. split_and!; by eapply moment_later.
Qed.
Lemma loaded_deployments c w l : loaded_ok c w l → deployments_from w (ld_deployments l).
Proof. intros (sd & si & sn & sb & sl & [(H & _) E _ _ _ _]). by exists sd. Qed.
Lemma loaded_installations c w l : loaded_ok c w l → installations_from w (ld_installations l).
Proof. intros (sd & si & sn & sb & sl & [(_ & H & _) _ E _ _ _]). by exists si. Qed.
Lemma loaded_losses c w l : loaded_ok c w l → losses_from w (ld_losses l).
Proof. intros (sd & si & sn & sb & sl & [(_ & _ & _ & _ & H) _ _ _ _ E]). exists sl. split; [done|]. by rewrite E. Qed.
Lemma loaded_desired c w l : loaded_ok c w l → deployments_loaded w (ld_deployments l).
Proof. intros (sd & si & sn & sb & sl & [(H & _) E _ _ _ _]). exists sd. split; [done|]. intros d. by rewrite E. Qed.
Lemma loaded_stored c w l : loaded_ok c w l → bindings_stored w (ld_bindings l).
Proof.
  intros (sd & si & sn & sb & sl & [(_ & _ & _ & H & _) _ _ _ E _]). exists sb. split; [done|]. rewrite E.
  destruct c; [|done]. by intros b [Hb _]%elem_of_filterb.
Qed.
Lemma loaded_bindings c w l : loaded_ok c w l → bindings_loaded (ld_bindings l).
Proof.
  intros (sd & si & sn & sb & sl & [_ _ _ _ E _]). rewrite E. pose proof (loadCapabilityBindings_loaded (es_records sb)) as H.
  destruct c; [|exact H]. intros b [Hb _]%elem_of_filterb. by apply H.
Qed.
Lemma stored_instance st loaded x :
  loadInstances (es_records st) = Ok loaded → x ∈ map li_value loaded →
  ∃ id r, es_records st !! InstanceKey id = Some (InstanceRecord (ci_value x), r).
Proof.
  intros E (r & -> & Hr)%list_elem_of_fmap. unfold loadInstances in E. apply mapM_ok in E.
  apply list_elem_of_lookup in Hr as [n Hn]. destruct (Forall2_lookup_r _ _ _ _ _ E Hn) as (e & He & Er).
  apply list_elem_of_lookup_2, elem_of_scan in He as (k & v & Hk & Ek & ->%pick_instance_some). destruct k; try done.
  apply bind_ok in Er as (a & _ & [= <-]). cbn. by eexists _, _.
Qed.
Lemma loaded_instances c w l good :
  loaded_ok c w l → (∀ x, x ∈ good → x ∈ map li_value (ld_instances l)) → instances_from w good.
Proof.
  intros (sd & si & sn & sb & sl & [(_ & _ & H & _) _ _ E _ _]) Hg. exists sn. split; [done|]. intros x Hx.
  by eapply stored_instance, Hg.
Qed.
Lemma consistent_in ds loaded good :
  consistent sha256 ds loaded = Ok good → ∀ x, x ∈ good → x ∈ map li_value loaded.
Proof.
  revert good. induction loaded as [|r l IH]; intros good; cbn; [by intros [= <-] x ?%elem_of_nil|].
  intros (g & _ & (rest & E & H)%bind_ok)%bind_ok x Hx. specialize (IH rest E). destruct g; injection H as <-.
  - apply elem_of_cons in Hx as [->|Hx]; [left|right; auto].
  - right. auto.
Qed.

Lemma safe_reading {A B} (f : records → A) (k : A → program B) w :
  world_ok w → (∀ w', evo w w' → world_ok w' → safe (k (f (es_records (w_store w')))) w') → safe (reading f ≫= k) w.
Proof. intros Hw Hk. unfold reading. apply safe_look. intros w1 H1 Hw1. by apply Hk. Qed.
Lemma safe_load_all {A} (k : Loaded → program A) Q w :
  (∀ e w', Q (Err e) w') →
  (∀ l w', evo w w' → world_ok w' → loaded_ok false w' l → runs (k l) Q w') → runs (load_all ≫= k) Q w.
Proof.
  intros HQ Hk. unfold load_all. apply safe_look. intros w1 H1 Hw1. apply safe_look. intros w2 H2 Hw2.
  apply safe_look. intros w3 H3 Hw3. destruct (loadInstances (es_records (w_store w3))) as [instances|e] eqn:E; [|intros w' _ _; apply HQ].
  apply safe_look. intros w4 H4 Hw4. apply safe_look. intros w5 H5 Hw5.
  assert (evo w4 w5 ∧ evo w3 w5 ∧ evo w2 w5 ∧ evo w1 w5) as (E4 & E3 & E2 & E1) by (split_and!; repeat (first [done|etrans; [done|]])).
  apply Hk; [by etrans|done|]. exists (w_store w1), (w_store w2), (w_store w3), (w_store w4), (w_store w5).
  constructor; [|done..]. split_and!; eauto.
Qed.
Lemma load_current_ok w :
  world_ok w → runs (load_current o) (λ r w', ∀ l, r = Ok (inl l) → loaded_ok true w' l) w.
Proof.
  intros Hw. unfold load_current. apply safe_load_all; [done|]. intros l w1 H1 Hw1 Hl.
  apply wp_bind; [apply _|done|]. eapply wp_mono; [apply _| |by apply (safe_effect IsRunning)].
  cbn. intros [[]|e] w2 H2 Hw2 _; cbn; [|by intros w3 _ _ l'|by intros l'].
  assert (loaded_ok false w2 l) as Hl2 by (by eapply loaded_later).
  apply wp_bind; [apply _|done|]. eapply wp_mono; [apply _| |by apply safe_cleanup, (loaded_bindings false w2)].
  cbn. intros [[]|e] w3 H3 Hw3 _; cbn; [|by intros w4 _ _ l'|by intros l'].
  intros w4 H4 Hw4 l' [= <-]. assert (evo w2 w4) as H24 by by etrans.
  destruct (loaded_later _ _ _ _ H24 Hl2) as (sd & si & sn & sb & sl & [? E1 ? ? E2 ?]).
  exists sd, si, sn, sb, sl. constructor; cbn; [done..| |done]. by rewrite E2.
Qed.
Lemma safe_load_current {A} (k : Loaded + bool → program A) w :
  world_ok w →
  (∀ l w', evo w w' → world_ok w' → loaded_ok true w' l → safe (k (inl l)) w') →
  (∀ r w', evo w w' → world_ok w' → safe (k (inr r)) w') → safe (load_current o ≫= k) w.
Proof.
  intros Hw Hk Hn. apply wp_bind; [apply _|done|]. eapply wp_mono; [apply _| |by apply load_current_ok]. cbn.
  intros [[l|r]|e] w1 H1 Hw1 Hl; [|by apply Hn|done]. apply Hk; auto.
Qed.

(** ** Restorations *)
Lemma safe_restore {A} (e : eff (result exn unit)) (k : unit → program A) w :
  world_ok w → (∃ r, e = RestoreTermination r) ∨
    (∃ r, e = RestoreStarting r ∧ rightly (moments w) (RestoredStarting r)) ∨
    (∃ r, e = RestoreComponent r ∧ rightly (moments w) (RestoredComponent r)) →
  (∀ x w', evo w w' → world_ok w' → safe (k x) w') → safe (attempt e ≫= k) w.
Proof.
  intros Hw He Hk. apply safe_bind; [done| |done]. intros a w1 b w2 js H1 Hw1 Eh.
  assert (∀ r, rightly (moments w) r → w2 = restored r w1 → js = [] →
    world_ok w2 ∧ evo w1 w2 ∧ Forall (λ _, True) js ∧ safe (of_result b) w2) as Hend.
  { intros r Hr -> ->. assert (rightly (moments w1) r) as Hr1 by (eapply rightly_mono; [apply H1|done]).
    pose proof (restored_ok _ _ Hw1 Hr1) as [? ?]. split_and!; [done|done|by constructor|apply safe_result]. }
  destruct He as [(r & ->)|[(r & -> & Hr)|(r & -> & Hr)]]; injection Eh as <- <- <-.
  - by apply (Hend (RestoredTermination r)).
  - by apply (Hend (RestoredStarting r)).
  - by apply (Hend (RestoredComponent r)).
Qed.
Lemma safe_foreign {A} (work : tx A) w :
  world_ok w → (∀ t, all_foreign t → txwp work (λ _ t', all_foreign t') t) → safe (transact work) w.
Proof.
  intros Hw H. apply safe_transact; [done|]. intros w1 H1 Hw1. eapply txwp_mono; [apply H, foreign_new|].
  intros a t. apply foreign_decided.
Qed.
(** The attempts to update one instance. *)
Lemma safe_update (key : record_key) n (k : option (PersistedComponentInstance * Z) → program bool) w :
  world_ok w → (∀ r w', evo w w' → world_ok w' → safe (k r) w') →
  safe (attempts n (stored ← effect Look; k (fetch pick_instance stored key))) w.
Proof. intros Hw Hk. apply safe_attempts; [done|]. intros w1 H1 Hw1. apply safe_look. intros w2 H2 Hw2. apply Hk; [by etrans|done]. Qed.
Lemma safe_written {A} (work : tx A) w :
  world_ok w → (∀ t, all_foreign t → txwp work (λ _ t', all_foreign t') t) →
  safe (on_conflict false (_ ← transact work; Ret true)) w.
Proof. intros Hw H. apply safe_on_conflict; [done|]. apply safe_bind; [done|by apply safe_foreign|done]. Qed.

Lemma safe_mark i w : world_ok w → safe (markTerminationRestored i) w.
Proof.
  intros Hw. unfold markTerminationRestored. case_bool_decide; [done|].
  apply (safe_update _ 3 (λ r, match r with None => _ | Some (v, revision) => _ end)); [done|].
  intros [[v r]|] w1 H1 Hw1; [|done]. case_bool_decide; [done|]. apply safe_written; [done|]. intros t Ht.
  apply txwp_bind, txwp_result. intros v' _. by eapply foreign_stage.
Qed.
Lemma safe_record i now w : world_ok w → safe (recordRestorationFailure sha256 i now) w.
Proof.
  intros Hw. unfold recordRestorationFailure. apply safe_result_bind. intros operationId _.
  apply (safe_update _ 3 (λ r, match r with None => _ | Some (v, revision) => _ end)); [done|].
  intros [[v r]|] w1 H1 Hw1; [|done]. destruct (deterministicRetryDelay _); [|done]. apply safe_written; [done|]. intros t Ht.
  apply txwp_bind. eapply foreign_stage; [done|done|]. intros t' Ht'. intros u t2 [= <- <-]. done.
Qed.
Lemma safe_clear i w : world_ok w → safe (clearRestorationFailure sha256 i) w.
Proof.
  intros Hw. unfold clearRestorationFailure. destruct (unfailed _); [done|].
  apply (safe_update _ 3 (λ r, match r with None => _ | Some (v, revision) => _ end)); [done|].
  intros [[v r]|] w1 H1 Hw1; [|done]. destruct (unfailed v); [done|]. apply safe_written; [done|]. intros t Ht.
  apply txwp_bind. eapply foreign_stage; [done|done|]. intros t' Ht'. apply txwp_bind, txwp_result. intros l _.
  apply txwp_bind, txwp_result. intros u _. intros u2 t2 [= <- <-]. done.
Qed.
Lemma safe_termination i now w : world_ok w → safe (restore_termination sha256 o i now) w.
Proof.
  intros Hw. unfold restore_termination. destruct (negb _); [done|]. apply safe_catch; [done| |intros e w1 _ Hw1; by apply safe_record].
  apply safe_restore; [done|left; by eexists|]. intros _ w1 H1 Hw1.
  apply safe_bind; [done|by apply safe_mark|]. intros _ w2 H2 Hw2. by apply safe_clear.
Qed.

(** A component that is wanted, once its end is not what it needs. *)
Lemma wanted ds installations now i :
  restorable o ds installations now i = true → requiresHistoricalTermination ds (ci_value i) = false →
  ∃ d, d ∈ ds ∧ active_for (ci_value i) d = true.
Proof.
  unfold restorable, requiresHistoricalTermination. set (v := ci_value i). rewrite !andb_true_iff, orb_true_iff, !andb_true_iff.
  intros [_ [(d & Hd & Ha)%existsb_exists_in|[[[Hb _] Hs] _]]] Hr; [by exists d|].
  destruct (List.find _ ds) as [d|] eqn:Ed.
  - apply find_some_in in Ed as [Hd Ed]. exists d. split; [done|]. unfold active_for. rewrite Ed.
    rewrite Hb in Hr. cbn in Hr. rewrite !orb_false_iff, !negb_false_iff in Hr. destruct Hr as [[H1 ->] ->].
    apply bool_decide_eq_false in H1. destruct (d_state (dd_deployment d)); [done|by destruct H1].
  - apply existsb_exists_in in Hs as (d & Hd & Hs). by rewrite (proj1 (find_none_in _ _) Ed _ Hd) in Hs.
Qed.
(** A consumer has one loss at most. *)
Lemma one_hold c w l v h x :
  world_ok w → loaded_ok c w l → h ∈ ld_losses l → x ∈ ld_losses l → holds_back v h = true → holds_back v x = true →
  ll_value x = ll_value h.
Proof.
  intros Hw (sd & si & sn & sb & sl & [(_ & _ & _ & _ & Hsl) _ _ _ _ ->]) Hh Hx Eh Ex.
  destruct (wo_moments _ Hw sl Hsl) as (_ & _ & Hk).
  apply elem_of_loadProviderLosses in Hh as (ih & _ & Hh), Hx as (ix & _ & Hx).
  pose proof (Hk _ _ _ Hh) as [_ Ih]. pose proof (Hk _ _ _ Hx) as [_ Ix]. cbn in Ih, Ix. subst ih ix.
  unfold holds_back, same_identity in Eh, Ex. rewrite !andb_true_iff, !streq_true in Eh, Ex.
  destruct Eh as [[[E1 E2] _] _], Ex as [[[F1 F2] _] _].
  assert (pl_consumer (ll_value h) = pl_consumer (ll_value x)) as Ec.
  { destruct (pl_consumer (ll_value h)), (pl_consumer (ll_value x)). cbn in *. congruence. }
  rewrite Ec in Hh. rewrite Hx in Hh. congruence.
Qed.

Section restored_instance.
Context (l : Loaded) (i : ComponentInstance) (now : Z) (at_time : jstring).
Context (Hin : i ∈ map li_value (ld_instances l)).
Context (Hr : restorable o (ld_deployments l) (ld_installations l) at_time i = true).
Context (Hh : requiresHistoricalTermination (ld_deployments l) (ci_value i) = false).

Lemma restorable_held w isLive :
  world_ok w → loaded_ok true w l →
  (∀ h, List.find (holds_back (ci_value i)) (ld_losses l) = Some h →
     pl_action (ll_value h) = suspend ∧ recovery_of (ll_value h) (i_componentId (ci_value i)) = Some (ci_activation i) ∧
     recoveryPrerequisitesReady sha256 isLive (ll_value h) (ld_deployments l) (ld_installations l)
       (map li_value (ld_instances l)) (ld_bindings l) = Ok true) →
  restorable_now (moments w) i.
Proof.
  intros Hw Hl Hhold. pose proof Hl as (sd & si & sn & sb & sl & [(H1 & H2 & H3 & H4 & H5) Ed Ei En Eb El]).
  exists sd, si, sn, sl, (ld_instances l). rewrite <- Ed, <- El. split_and!; [done..| |].
  - destruct (wanted _ _ _ _ Hr Hh) as (d & Hd & Ha). exists d. unfold active_for, same_deployment in Ha.
    rewrite !andb_true_iff, !bool_decide_eq_true, !streq_true in Ha. destruct Ha as [[[F1 [F2 F3]] F4] F5].
    unfold identity_of, consumer_of. rewrite F2, F3. done.
  - intros x (h & -> & Hx)%list_elem_of_fmap Ec Eg Ea.
    assert (holds_back (ci_value i) h = true) as Ex.
    { unfold holds_back, same_identity. rewrite Ec, !andb_true_iff, orb_true_iff, !streq_true, !bool_decide_eq_true.
      split_and!; [done|done|done|]. destruct (pl_action (ll_value h)); [done|by left|by right]. }
    destruct (List.find _ _) as [h'|] eqn:Ef; [|by rewrite (proj1 (find_none_in _ _) Ef _ Hx) in Ex].
    apply find_some_in in Ef as [Hin' Eh]. rewrite (one_hold true w l _ h' h Hw Hl Hin' Hx Eh Ex).
    destruct (Hhold h' eq_refl) as (F1 & F2 & F3). split_and!; [done| |].
    + unfold recovery_of in F2. apply bind_Some in F2 as (a & ? & ?). by exists a.
    + intros y Hy. destruct (recovery_ready _ _ _ _ _ _ _ F3 Hy) as (r & Er & Hready).
      destruct (readiness_ready _ _ _ _ _ _ Er Hready) as (d & own & Hd & Hown & Hact & Hcs).
      apply find_some_in in Hd as [Hd Edi]. apply find_some_in in Hown as [Hown Eow].
      unfold is_deployment, same_deployment in Edi. rewrite andb_true_iff, !streq_true in Edi.
      rewrite !andb_true_iff, !streq_true in Eow.
      destruct Edi as [G1 G2], Eow as [[G3 _] G4]. exists d, own. rewrite <- Ed, <- Ei. split_and!; try done; [|congruence|].
      * unfold identity_of. rewrite G1, G2. by destruct y.
      * intros c Hc. destruct (Hcs c Hc) as (e & j & _ & _ & Hj & K1 & K2 & K3 & K4 & K5).
        destruct (stored_instance _ _ _ En Hj) as (id & rv & Es). by exists id, (ci_value j), rv.
Qed.

Lemma safe_session recovering w :
  world_ok w → restorable_now (moments w) i → safe (restore_session sha256 o i recovering now) w.
Proof.
  intros Hw Hn. unfold restore_session. case_bool_decide.
  - destruct (negb _); [done|]. apply safe_catch; [done| |intros e w1 _ Hw1; by apply safe_record].
    apply safe_result_bind. intros e Ee. apply safe_restore; [done| |intros _ w1 _ Hw1; by apply safe_clear].
    right; left. exists e. split; [done|]. by exists i.
  - apply safe_liveness; [done|]. intros isLive w1 H1 Hw1. destruct (_ && isLive i); [by apply safe_clear|].
    apply safe_bind; [done| |].
    + destruct recovering; [|done]. apply safe_liveness; [done|]. intros isLive' w2 H2 Hw2.
      apply safe_quiet; [done|]. intros u w3 H3 Hw3. by apply safe_authorize.
    + intros [] w2 H2 Hw2; try by apply safe_effect. assert (evo w w2) as H02 by by etrans.
      apply safe_catch; [done| |intros e w3 _ Hw3; by apply safe_record].
      apply safe_restore; [done| |].
      * right; right. exists i. split; [done|]. eapply (rightly_mono _ _ (RestoredComponent i)); [apply H02|done].
      * intros _ w3 H3 Hw3. apply safe_liveness; [done|]. intros isLive' w4 H4 Hw4.
        destruct (_ && _); [done|by apply safe_clear].
Qed.
Lemma safe_eligible ds installations w : safe (isPersistedRemotePlacementEligible domainToASCII o i ds installations) w.
Proof.
  unfold isPersistedRemotePlacementEligible. destruct (i_workerId _); [|done]. destruct (List.find _ ds); [|done].
  destruct (installation_of _ _); [|done]. apply safe_quiet; [done|]. intros [m|e] w1 _ _; [|done].
  destruct (List.find _ _); [|done]. by destruct (negb _).
Qed.
Lemma safe_restore_instance w :
  world_ok w → loaded_ok true w l →
  safe (restore_instance domainToASCII sha256 o (ld_deployments l) (ld_installations l) (map li_value (ld_instances l))
          (ld_losses l) (ld_bindings l) now i) w.
Proof.
  intros Hw Hl. unfold restore_instance. rewrite Hh. apply safe_liveness; [done|]. intros isLive w1 H1 Hw1.
  pose proof (loaded_later _ _ _ _ H1 Hl) as Hl1. pose proof (restorable_held w1 isLive Hw1 Hl1) as Hheld.
  assert (∀ recovering, restorable_now (moments w1) i →
    safe (eligible ← (if bool_decide (i_executor (ci_value i) = Remote)
                      then isPersistedRemotePlacementEligible domainToASCII o i (ld_deployments l) (ld_installations l) else Ret true);
          if negb eligible then Ret tt else restore_session sha256 o i recovering now) w1) as Hend.
  { intros recovering Hn. apply safe_bind; [done|case_bool_decide; [apply safe_eligible|done]|]. intros b w2 H2 Hw2.
    destruct (negb b); [done|]. apply safe_session; [done|]. eapply (rightly_mono _ _ (RestoredComponent i)); [apply H2|done]. }
  destruct (List.find _ _) as [h|] eqn:Ef; cbn zeta.
  - destruct (bool_decide (pl_action (ll_value h) = suspend)) eqn:Es.
    + apply safe_result_bind. intros ready Er. apply bool_decide_eq_true in Es.
      destruct (bool_decide (recovery_of _ _ = _)) eqn:Erec; cbn [negb andb].
      * destruct ready; [|done]. cbn [negb]. apply Hend, Hheld. intros h' [= <-]. by apply bool_decide_eq_true in Erec.
      * destruct (bool_decide (i_lifecycle _ = CpPreparing)); [done|by apply safe_termination].
    + cbn [negb andb]. apply safe_result_bind. intros ready _. destruct (bool_decide (i_lifecycle _ = CpPreparing)); [done|by apply safe_termination].
  - apply safe_result_bind. intros ready _. cbn [negb andb]. by apply Hend, Hheld.
Qed.
End restored_instance.

Lemma safe_restorations l now w :
  world_ok w → loaded_ok true w l →
  safe (restorePersistedComponents domainToASCII sha256 o (ld_deployments l) (ld_installations l) (ld_instances l)
          (ld_losses l) (ld_bindings l) now) w.
Proof.
  intros Hw Hl. unfold restorePersistedComponents. destruct (negb _); [done|]. apply safe_result_bind. intros good Eg.
  apply safe_for_each; [done|]. intros i w1 Hi H1 Hw1. apply elem_of_js_sort, elem_of_filterb in Hi as [Hi Hr].
  pose proof (consistent_in _ _ _ Eg i Hi) as Hin. pose proof (loaded_later _ _ _ _ H1 Hl) as Hl1.
  destruct (requiresHistoricalTermination (ld_deployments l) (ci_value i)) eqn:Eh.
  - unfold restore_instance. rewrite Eh. by apply safe_termination.
  - by eapply safe_restore_instance.
Qed.

(** ** Passes, claims, histories *)
Lemma safe_gate_all c l good ds gates w :
  world_ok w → loaded_ok c w l → (∀ x, x ∈ good → x ∈ map li_value (ld_instances l)) →
  (∀ d, d ∈ ds → d ∈ ld_deployments l) → safe (gate_all domainToASCII sha256 o l good ds gates) w.
Proof.
  revert gates w. induction ds as [|d ds IH]; intros gates w Hw Hl Hg Hds; cbn [gate_all]; [done|].
  assert (∀ d, d ∈ ds → d ∈ ld_deployments l) as Hds' by (intros x Hx; apply Hds; by right).
  apply safe_result_bind. intros [] _; [by apply IH|].
  apply safe_bind; [done|apply safe_gate; [done|by eapply loaded_deployments|by eapply loaded_installations|by eapply loaded_instances|apply Hds; by left]|].
  intros g w1 H1 Hw1. apply safe_quiet; [done|]. intros running w2 H2 Hw2. assert (evo w w2) as H02 by by etrans.
  pose proof (loaded_later _ _ _ _ H02 Hl) as Hl2. destruct (negb running); [done|]. destruct g; try done; by apply IH.
Qed.
Lemma safe_settle c l w : world_ok w → loaded_ok c w l → safe (settle_evidence domainToASCII sha256 o l) w.
Proof.
  intros Hw Hl. unfold settle_evidence. apply safe_result_bind. intros good Eg.
  apply safe_bind; [done| |].
  - apply (safe_gate_all c); [done|done|exact (consistent_in _ _ _ Eg)|]. intros d. by rewrite elem_of_js_sort.
  - intros [gates|r] w1 H1 Hw1; [|done]. pose proof (loaded_later _ _ _ _ H1 Hl) as Hl1.
    apply safe_losses; [done|by eapply loaded_losses|by eapply loaded_desired|by eapply loaded_stored|by eapply loaded_installations].
Qed.
Lemma safe_pass now claimed w : world_ok w → safe (evidence_pass domainToASCII sha256 o now claimed) w.
Proof.
  intros Hw. unfold evidence_pass. apply safe_quiet; [done|]. intros [] w0 _ Hw0; [|done]. cbn [negb].
  apply safe_load_current; [done| |done]. intros l w1 H1 Hw1 Hl.
  apply safe_bind; [done|by apply safe_restorations|]. intros _ w2 H2 Hw2. apply safe_quiet; [done|]. intros running w3 H3 Hw3.
  destruct (negb running); [done|]. apply safe_look. intros w4 H4 Hw4. apply safe_result_bind. intros instances Ei.
  destruct claimed.
  - apply safe_quiet; [done|]. intros [] w5 _ Hw5; [|done]. cbn [negb].
    apply safe_load_current; [done| |done]. intros l' w6 H6 Hw6 Hl'. by apply (safe_settle true).
  - assert (evo w1 w4) as H14 by (etrans; [done|]; by etrans).
    apply (safe_settle true); [done|]. destruct (loaded_later _ _ _ _ H14 Hl) as (sd & si & sn & sb & sl & [(? & ? & ? & ? & ?) ? ? ? ? ?]).
    exists sd, si, (w_store w4), sb, sl. by constructor.
Qed.
Lemma safe_claim_gate consumer w : world_ok w → safe (claim_gate domainToASCII sha256 o consumer) w.
Proof.
  intros Hw. unfold claim_gate. apply safe_load_all; [done|]. intros l w1 H1 Hw1 Hl. apply safe_result_bind. intros good Eg.
  destruct (find_deployment consumer (ld_deployments l)) as [d|] eqn:Ed; [|done].
  apply safe_look. intros w2 H2 Hw2. pose proof (loaded_later _ _ _ _ H2 Hl) as Hl2.
  apply safe_bind; [done| |done]. apply find_some_in in Ed as [Hd _].
  apply safe_gate; [done|by eapply loaded_deployments|by eapply loaded_installations| |done].
  eapply loaded_instances; [exact Hl2|exact (consistent_in _ _ _ Eg)].
Qed.
Lemma safe_claim_begin e v revision exact pre w : world_ok w → safe (claim_begin sha256 o e v revision exact pre) w.
Proof.
  intros Hw. unfold claim_begin. apply safe_liveness; [done|]. intros isLive w1 H1 Hw1. apply safe_quiet; [done|].
  intros u w2 H2 Hw2. by apply safe_begin.
Qed.
Lemma safe_claim_authorize e l revision w : world_ok w → safe (claim_authorize sha256 o e l revision) w.
Proof.
  intros Hw. unfold claim_authorize. apply safe_liveness; [done|]. intros isLive w1 H1 Hw1. apply safe_quiet; [done|].
  intros u w2 H2 Hw2. by apply safe_authorize.
Qed.
End programs.

Section histories.
Context (domainToASCII : jstring → jstring).
Definition evidence_ok (q : pool eff exn World unit) : Prop := pool_ok handle world_ok evo (λ _ _ _, True) q.

Lemma start_safe j w : world_ok w → safe (start domainToASCII sha256 j) w.
Proof.
  intros Hw. unfold start, unit_of. destruct j; (apply safe_bind; [done| |done]).
  - by apply safe_pass.
  - by apply safe_claim_gate.
  - by apply safe_claim_begin.
  - by apply safe_claim_authorize.
Qed.
Lemma outside_ok m w : world_ok w → world_ok (outside m w) ∧ evo w (outside m w).
Proof.
  intros Hw. assert (world_ok w ∧ evo w w) as H0 by (split; [done|reflexivity]).
  unfold outside. case_bool_decide as Hm; [|done]. destruct (commit _ _) as [st|e] eqn:Ec; [|done].
  pose proof (commit_evolves _ _ _ (dated_now _ Hw) Ec) as [He Hd].
  assert (keyed st) as Hk.
  { eapply (lawful_keyed _ _ _ []); [by apply keyed_now|exact Ec|]. intros k v e Hk. cbn in Hk.
    specialize (Hm _ _ Hk). by destruct k. }
  pose proof (moment_step_ok w st [] Hw He Hd Hk ltac:(by constructor)) as H. cbn zeta in H. by rewrite app_nil_r in H.
Qed.
Lemma new_world_ok : world_ok new_world.
Proof.
  constructor; [|constructor|constructor]. intros st [->|H%elem_of_nil]%elem_of_cons; [|done].
  split_and!; [done|..]; intros k v r; cbn; by rewrite lookup_empty.
Qed.
Lemma evidence_history_ok es : evidence_ok (history domainToASCII sha256 es).
Proof.
  unfold history. assert (evidence_ok (Build_pool new_world [])) as H0 by (split; [apply new_world_ok|constructor]).
  revert H0. generalize (@Build_pool eff exn World unit new_world []). induction es as [|e es IH]; intros q Hq; [done|]. cbn [foldl].
  apply IH. destruct e as [j|n a|m]; cbn [happens].
  - destruct Hq as [Hw Hts]. split; [done|]. cbn. apply Forall_app. split; [done|]. constructor; [by apply start_safe|constructor].
  - apply run_at_sound; [apply _|by intros|done].
  - pose proof Hq as [Hw Hts]. destruct (outside_ok m _ Hw) as [H1 H2]. split; [exact H1|]. exact (threads_later handle world_ok evo _ _ _ _ H2 Hts).
Qed.

(** C18. However passes, claims and other processes interleave, whatever a commit does to
    the provider loss of a consumer, it only makes a recorded loss stronger, and takes it
    away only in three cases: the deployment is absent from the store the commit is made
    to; its generation in the snapshot of the transaction is another; or the loss is no
    failure, its prerequisites are exactly the needed requirements of the consumer's
    artifact and account for all that was lost (without prerequisites nothing is needed
    and nothing was lost), each of them is bound in the snapshot to its provider, and
    every provider that was lost or is needed is active in the snapshot and has every
    component ready in the very store the commit is made to. The activity of a provider
    is read in the transaction and not fenced, so it is of its snapshot. *)
Theorem losses_released_rightly (es : list evidence_event) (c : commit_event) (id : jstring)
    (value : option record) (expected : option Z) :
  let w := p_world (history domainToASCII sha256 es) in
  c ∈ w_commits w → sg_mutations (ce_staged c) !! LossKey id = Some (value, expected) →
  loss_change (moments w) (sg_snapshot (ce_staged c)) (ce_before c) id value.
Proof.
  intros w Hc Hk. destruct (evidence_history_ok es) as [[_ H _] _]. rewrite Forall_forall in H. exact (H c Hc _ _ _ Hk).
Qed.

(** C19. Every capability binding that is committed, in any history of passes, claims and
    other processes, is stored under its requirement, for the generation its deployment
    has in the snapshot of the commit; it binds a capability the deployment's artifact
    requires to a provider of the same application that was active, had every component
    of its artifact ready, and offers the capability in a version of the required range. *)
Theorem bindings_to_ready_providers (es : list evidence_event) (c : commit_event) (id : jstring)
    (b : PersistedCapabilityBinding) (expected : option Z) :
  let w := p_world (history domainToASCII sha256 es) in
  c ∈ w_commits w → sg_mutations (ce_staged c) !! BindingKey id = Some (Some (BindingRecord b), expected) →
  id = requirementKey (cb_consumer b) (cb_capability b) ∧ bound_to_ready (moments w) b ∧
  ∃ d r, sg_snapshot (ce_staged c) !! deploymentStateKey (cb_consumer b) = Some (DeploymentRecord d, r) ∧
         d_generation (dd_deployment d) = cb_deploymentGeneration b.
Proof.
  intros w Hc Hk. destruct (evidence_history_ok es) as [[_ H _] _]. rewrite Forall_forall in H. exact (H c Hc _ _ _ Hk).
Qed.

(** C20. The component lifecycle is asked to bring a persisted component back, or to finish
    its start, only for a component its active deployment wants, in the generation and
    with the artifact of that deployment, whose consumer no provider loss of that
    generation fails or suspends; or for the very activation that a suspended consumer
    recovers with, when every provider it lost or waits for is active and has every
    component of its artifact ready. *)
Theorem restorations_wanted (es : list evidence_event) (r : restoration) :
  let w := p_world (history domainToASCII sha256 es) in
  r ∈ w_restorations w → rightly (moments w) r.
Proof.
  intros w Hr. destruct (evidence_history_ok es) as [[_ _ H] _]. rewrite Forall_forall in H. exact (H r Hr).
Qed.
End histories.
End restorations.

(** ** A consumer, its provider, and what becomes of them

    Both run; a pass binds them. The provider degrades, a pass records the loss and
    degrades the consumer; the provider is ready again, a pass releases the loss. *)
Module EvidenceSample.
Definition consumer : PluginDeploymentIdentity := {| applicationId := js "app"; pluginId := js "c" |}.
Definition provider : PluginDeploymentIdentity := {| applicationId := js "app"; pluginId := js "p" |}.
Definition granted : json :=
  JArr [JObj [(js "kind", JStr (js "executor")); (js "executors", JArr [JStr (js "process")])]].
Definition deployment (i : PluginDeploymentIdentity) : DesiredDeployment :=
  {| dd_deployment := {| d_applicationId := applicationId i; d_pluginId := pluginId i; d_artifactDigest := js "sha256:x";
                         d_generation := js "1"; d_state := Active |};
     dd_version := js "1.0.0"; dd_capabilityBindings := []; dd_permissionGrants := granted |}.
Definition manifest (requires : list PluginCapabilityRequirement) (provides : list CapabilityResolutionProvision) : PluginManifest :=
  {| mf_components := [{| pc_componentId := js "m"; pc_executors := [Process] |}];
     mf_provides := provides; mf_requires := requires; mf_permissions := granted |}.
Definition consuming : PluginManifest :=
  manifest [{| rq_name := js "k"; rq_protocolRange := js "^1.0.0"; rq_optional := None; rq_lossPolicy := Some degrade |}] [].
Definition providing : PluginManifest := manifest [] [{| pr_name := js "k"; protocolVersion := js "1.2.0" |}].
Definition installation (i : PluginDeploymentIdentity) (m : PluginManifest) : PluginInstallation :=
  {| in_pluginId := pluginId i; in_version := js "1.0.0"; in_digest := js "sha256:x"; in_manifest := m |}.
Definition instance_id (i : PluginDeploymentIdentity) : jstring :=
  match reconcileEffectIdentities sample_sha256 (generation_of (dd_deployment (deployment i))) (js "m") EffectPrepare (js "1") with
  | Ok x => ei_instanceId x
  | Err _ => []
  end.
Definition instance (i : PluginDeploymentIdentity) (l : ComponentLifecycleState) : PersistedComponentInstance :=
  {| i_instanceId := instance_id i; i_activation := Some (js "1"); i_hasStarted := Some true;
     i_applicationId := applicationId i; i_pluginId := pluginId i; i_componentId := js "m";
     i_deploymentGeneration := js "1"; i_observedGeneration := js "1"; i_lifecycle := l; i_executor := Process;
     i_workerId := None; i_artifactDigest := Some (js "sha256:x"); i_executionBinding := None; i_attempt := None;
     i_retryAt := None; i_retryEffect := None; i_diagnostic := None; i_completedOperationId := None;
     i_completedOperationIds := None |}.
Definition installed : gmap record_key (option record * option Z) :=
  list_to_map
    [(deploymentStateKey consumer, (Some (DeploymentRecord (deployment consumer)), None));
     (deploymentStateKey provider, (Some (DeploymentRecord (deployment provider)), None));
     (InstallationKey (js "c"), (Some (InstallationRecord (installation consumer consuming)), None));
     (InstallationKey (js "p"), (Some (InstallationRecord (installation provider providing)), None));
     (InstanceKey (instance_id consumer), (Some (InstanceRecord (instance consumer CpReady)), None));
     (InstanceKey (instance_id provider), (Some (InstanceRecord (instance provider CpReady)), None))].
Definition provider_becomes (l : ComponentLifecycleState) (expected : Z) : evidence_event :=
  Outside {[ InstanceKey (instance_id provider) := (Some (InstanceRecord (instance provider l)), Some expected) ]}.
Definition options : ReconcilerOptions :=
  {| op_loadsDeployments := false; op_lifecycle := true; op_restoreStarting := true; op_restoreTermination := true;
     op_supportedExecutors := [Process]; op_workers := None |}.
Definition answers (live : bool) : answer :=
  {| an_clock := js "2026-01-01T00:00:00.000Z"; an_running := true; an_live := λ _, live; an_manifest := Ok consuming;
     an_outcome := Ok tt; an_fails := None; an_commits := false |}.
(** The [n]-th thread runs a pass to its end. *)
Definition passes (n : nat) (live : bool) : list evidence_event :=
  Starts (Pass options 1000000 false) :: replicate 60 (Runs n (answers live)).
Definition binds : list evidence_event := Outside installed :: passes 0 true.
Definition loses : list evidence_event := binds ++ provider_becomes CpDegraded 1 :: passes 1 true.
Definition recovers : list evidence_event := loses ++ provider_becomes CpReady 4 :: passes 2 true.
(** Nothing is live: what is persisted is restored. *)
Definition restores : list evidence_event := Outside installed :: passes 0 false.
Abbreviation world es := (p_world (history (λ x, x) sample_sha256 es)).
Abbreviation commit_of es n key := (c ← w_commits (world es) !! n%nat; sg_mutations (ce_staged c) !! key).
Definition binding : PersistedCapabilityBinding :=
  {| cb_consumer := consumer; cb_capability := js "k"; cb_provider := provider; cb_source := Automatic;
     cb_deploymentGeneration := js "1"; cb_updatedAt := js "2026-01-01T00:00:00.000Z" |}.

Example loss_recorded :
  (match commit_of loses 1 (LossKey (identityKey consumer)) with Some (Some (LossRecord l), None) => Some (pl_action l) | _ => None end)
  = Some degrade.
Proof. vm_compute. reflexivity. Qed.
(** While the provider is down, nothing releases the loss. *)
Example loss_kept : commit_of (loses ++ passes 2 true) 2 (LossKey (identityKey consumer)) = None.
Proof. vm_compute. reflexivity. Qed.
Example loss_released : commit_of recovers 2 (LossKey (identityKey consumer)) = Some (None, Some 4).
Proof. vm_compute. reflexivity. Qed.
Example binding_committed : commit_of binds 0 (BindingKey (requirementKey consumer (js "k"))) = Some (Some (BindingRecord binding), None).
Proof. vm_compute. reflexivity. Qed.
Example consumer_restored :
  (r ← w_restorations (world restores) !! 0%nat; match r with RestoredComponent i => Some (i_pluginId (ci_value i)) | _ => None end)
  = Some (js "c").
Proof. vm_compute. reflexivity. Qed.
End EvidenceSample.

Lemma losses_released_rightly_witness :
  ∃ c, c ∈ w_commits (EvidenceSample.world EvidenceSample.recovers) ∧
    loss_change (moments (EvidenceSample.world EvidenceSample.recovers)) (sg_snapshot (ce_staged c)) (ce_before c)
      (identityKey EvidenceSample.consumer) None.
Proof.
  destruct (proj1 (bind_Some _ _ _) EvidenceSample.loss_released) as (c & Hc & Hk). apply list_elem_of_lookup_2 in Hc.
  exists c. split; [exact Hc|].
  exact (losses_released_rightly sample_sha256 (λ x, x) EvidenceSample.recovers c _ None (Some 4) Hc Hk).
Defined.

Lemma bindings_to_ready_providers_witness :
  bound_to_ready (moments (EvidenceSample.world EvidenceSample.binds)) EvidenceSample.binding.
Proof.
  destruct (proj1 (bind_Some _ _ _) EvidenceSample.binding_committed) as (c & Hc & Hk). apply list_elem_of_lookup_2 in Hc.
  exact (proj1 (proj2 (bindings_to_ready_providers sample_sha256 (λ x, x) EvidenceSample.binds c _ _ None Hc Hk))).
Defined.

Lemma restorations_wanted_witness :
  ∃ i, i_pluginId (ci_value i) = js "c" ∧
    restorable_now (moments (EvidenceSample.world EvidenceSample.restores)) i.
Proof.
  destruct (proj1 (bind_Some _ _ _) EvidenceSample.consumer_restored) as ([i|e|i] & Hr & Hi); [discriminate|discriminate|].
  apply list_elem_of_lookup_2 in Hr. exists i. split; [by injection Hi|].
  exact (restorations_wanted sample_sha256 (λ x, x) EvidenceSample.restores (RestoredComponent i) Hr).
Defined.
